(* ===== verification/_CoqProject ===== *)
-Q . S2P
Prelude.v
JsString.v
StringSearch.v
Effects.v
Json.v
JsonParse.v
Regex.v
PromptTemplates.v
StdinBuffer.v
StdinProps.v
EditDiff.v
EditProps.v
Paths.v
MutationQueue.v
EditTool.v
EditToolProps.v
Truncate.v
JsonText.v
Uuid.v
Messages.v
SessionTree.v
SessionLaws.v
SessionProps.v
Compaction.v
CompactionProps.v
BranchSummary.v
BranchProps.v
Protocol.v
LoopTypes.v
Queue.v
ToolBatch.v
Recovery.v
AgentLoop.v
LoopEnv.v
Agent.v
LoopTrace.v
EventStream.v
ToolProps.v
LoopProps.v
AgentStream.v
AgentProps.v
ProtocolProps.v
LoopSamples.v
JsonCodec.v
EntryJson.v
JsonlStorage.v
JsonlProps.v
RecoveryProps.v
JsonlRepo.v
RepoProps.v
HarnessState.v
Harness.v
HarnessProps.v
HarnessOps.v
HarnessLog.v
HarnessSamples.v
ProxyStream.v
ProxyProps.v
Utf8.v
ToolTruncate.v
OutputAccumulator.v
OutputProps.v
ChunkFile.v
RunBudget.v
RunBudgetProps.v
VerificationLedger.v
TextEditing.v
TextInput.v
Wrapping.v
EditorState.v
Editor.v
EditorProps.v
EditorText.v
EditorVisual.v
EditorCursor.v
EditorPaste.v
Keys.v
KeyProps.v
KeyBindings.v
Autocomplete.v
