(* ===== verification/Prelude.v ===== *)
(** * A verification of [p]: the agent runtime and the tools around it

    [p] is a coding agent.  Its packages are an agent runtime
    ([packages/agent]), model providers ([packages/ai]), a terminal interface
    ([packages/tui]), a code index ([packages/code-index]) and the application over
    them ([packages/coding-agent]).  This development models the runtime, where the
    decisions are made: which messages a model sees, which tools run and in what
    order, when a run may stop, what is written to the session and what is
    forgotten when the context is compacted.  Around it, it models the parts of the
    other packages that change files, spend money or decide what a user or a model
    gets to see: the edit and write tools and their queue per file, the paths they
    accept, the accumulation of tool output, the budget of a run, the ledger of
    required checks, the chunks of the code index, and the reading of streamed
    responses; and, of the terminal interface, everything between the bytes a terminal
    sends and the text a user submits: the input buffer, keys and their bindings, the
    text field, the editor with its wrapping, and completion.

    ** How the parts interact

    An agent ([agent/agent.ts]) owns a transcript, two queues of pending messages
    and at most one run.  A run is the agent loop ([agent-loop/]): it streams a
    response from a provider, executes the tools the response asks for, applies the
    completion protocol, and repeats.  Everything the loop does is announced as
    events; the agent reduces them to its state, or a stream
    ([ai/src/utils/event-stream.ts]) hands them to a consumer.  A response whose tool
    calls a model wrote as text is repaired first ([tool-dispatch.ts],
    [tool-execution.ts]).  The harness ([harness/agent-harness.ts]) runs the same loop
    over a session: it keeps the conversation as a tree of entries
    ([harness/session/]) in memory or in a JSONL file, rebuilds the context of a
    branch from it, shortens it by compaction, and summarizes the branch it leaves
    ([harness/compaction/]).  Tool output is cut to size by
    [harness/utils/truncate.ts].

    In the application a tool resolves the path it is given ([utils/paths.ts],
    [core/tools/path-utils.ts]), waits for its turn on that file
    ([file-mutation-queue.ts]), and reads, changes and writes it ([edit.ts], [write.ts],
    [edit-diff/]).  What a command prints is decoded, counted and kept as a tail
    ([output-accumulator.ts], [core/tools/truncate.ts]).  Every model call is admitted by
    a ledger on a shared record and settled with its usage ([run-budget/]).  A run may
    finish with success only when the ledger of checks allows it
    ([verification-ledger.ts]).  A response may come through a proxy as lines of JSON
    ([agent/src/proxy.ts], [ai/src/utils/json-parse.ts]).

    Keys come as bytes that are split into sequences ([tui/src/stdin-buffer.ts]).  A
    sequence is compared with the keys bound to an action ([keybindings.ts], [keys.ts]) and
    otherwise decoded to the character it stands for.  The text field
    ([components/input/]) and the editor ([components/editor/]) act on it: they edit their
    text by graphemes and words, keep a kill ring and an undo stack, put a marker in place
    of a large paste, move over the visual lines that wrapping gives ([utils/]), and ask a
    provider for completions, which the editor applies to its text ([autocomplete.ts],
    [fuzzy.ts]).

    ** Files

    - [Prelude], [JsString], [Effects], [Json]: tactics and hint databases; strings
      as lists of UTF-16 code units with the methods the sources use; a
      state-and-exception monad with its Hoare triples; JSON values and the serializer
      of [agent-loop/message-preparation.ts].  [JsonParse], [JsonText]: [JSON.parse]
      and the text of [JSON.stringify].  [Regex]: the regular expressions of the
      sources, with a backtracking matcher.
    - [PromptTemplates] ([harness/prompt-templates.ts], [skills.ts],
      [system-prompt.ts]): the texts of skills and templates.
    - [Truncate] ([harness/utils/truncate.ts]): UTF-8 sizes, [truncateHead],
      [truncateTail], [truncateLine].
    - [Uuid] ([harness/session/uuid.ts], [generateEntryId]): ids at byte level; the
      sequence is a 32-bit word and wraps.
    - [Messages] ([ai/src/types/], [harness/messages.ts]): the message types and the
      conversion to provider messages.
    - [SessionTree] ([harness/session/session.ts], [memory-storage.ts],
      [repo-utils.ts]): the storage interface is the class [SessionStorage]; the
      operations of [Session] are written against it.  [SessionLaws] states the laws
      of a storage ([SessionStorageOk]) and proves them for the in-memory one.
      [SessionProps] has the theorems, proved against the laws.
    - [JsonCodec], [EntryJson]: entries as JSON values, and back.  [JsonlStorage],
      [JsonlProps] ([jsonl-storage.ts]): the storage in a file, which satisfies the
      same laws.  [JsonlRepo], [RepoProps] ([jsonl-repo.ts], [memory-repo.ts]): the
      repositories, over a file system with laws.
    - [Compaction], [CompactionProps] ([harness/compaction/compaction.ts],
      [utils.ts]): settings, token estimates, cut points, preparation and summaries.
      [BranchSummary], [BranchProps] ([branch-summarization.ts]).
    - [HarnessState], [Harness] ([harness/agent-harness.ts]): the fields of the
      harness and its operations; [HarnessProps] carries predicates through the code
      around it and through the loop, [HarnessOps] is about all operations,
      [HarnessLog] about what a run leaves in the session, [HarnessSamples] has
      concrete runs.
    - [Protocol] ([completion-protocol.ts], [tool-effects.ts],
      [agent-loop/constants.ts], [protocol-limits.ts], the classification of
      responses), [LoopTypes] ([types.ts], [agent-loop/types.ts]), [ToolBatch]
      ([context-management.ts], [streaming-handler.ts],
      [tool-result-formatting.ts]), [AgentLoop] ([error-recovery.ts],
      [response-processing.ts], [loop-control.ts] and the files they call): the loop.
      [Recovery], [RecoveryProps] ([tool-dispatch.ts], [tool-execution.ts]): tool
      calls found in text.
    - [LoopTrace] is a monitor over event traces, the abstract specification of a
      run; [ToolProps], [LoopProps] prove that the loop refines it; [ProtocolProps]
      is about completion; [LoopEnv] shows that the loop maintains any relation
      between its trace and its environment that its surroundings maintain.
    - [Queue], [Agent], [AgentProps] ([agent/]): the agent is the environment of the
      loop; its event sink is [do_processEvents].
    - [EventStream] ([ai/src/utils/event-stream.ts]) and [AgentStream]
      ([agentLoop], [agentLoopContinue]).
    - [LoopSamples]: concrete runs of the loop and the agent, where the hypotheses of the
      theorems hold.
    - [ProxyStream], [ProxyProps] ([ai/src/utils/json-parse.ts], [agent/src/proxy.ts]):
      the repair of JSON, and the message rebuilt from the events of a proxy.
    - [StringSearch]: occurrences in strings.  [StdinBuffer], [StdinProps]
      ([tui/src/stdin-buffer.ts]): escape sequences and pastes.
    - [EditDiff], [EditProps] ([edit-diff/]): matching and replacement.  [Paths]
      ([utils/paths.ts], [path-utils.ts]): with the POSIX part of [node:path].
      [MutationQueue] ([file-mutation-queue.ts]): calls as processes, chained per file.
      [EditTool], [EditToolProps] ([edit.ts], [write.ts]): the tools as processes over
      a file system, with concrete edits.
    - [Utf8]: the decoder of the Encoding standard, with its streaming form.
      [ToolTruncate] ([core/tools/truncate.ts]), [OutputAccumulator], [OutputProps]
      ([output-accumulator.ts]).
    - [RunBudget], [RunBudgetProps] ([run-budget/ledger.ts], [run-budget-policy.ts],
      [ai/src/model-call-guard.ts]): several ledgers on one record, as a step function.
      [VerificationLedger] ([verification-ledger.ts]).
    - [ChunkFile] ([code-index/src/chunk.ts]): the chunks of a file.
    - [TextEditing] ([kill-ring.ts], [undo-stack.ts], [word-navigation.ts]): what the text
      field and the editor share; the segmenter of [Intl] is the class [Segmenter] with
      the laws [SegmenterOk].  [TextInput] ([components/input/]): the text field.
    - [Wrapping] ([components/editor/word-wrap.ts], [utils/]): paste markers as segments,
      the width of text over the class [UnicodeWidth], and [wordWrapLine].
    - [EditorState] has the fields of the editor and the operations on its text, [Editor]
      its visual lines, movements, completion requests and [handleInput].  [EditorProps]:
      the events of an editor, and undo.  [EditorText]: the lines as one text around the
      cursor, and the kill ring over it.  [EditorVisual]: visual lines and vertical
      movement.  [EditorCursor]: the invariant of the cursor over all events.
      [EditorPaste]: markers stand for what was pasted.
    - [Keys], [KeyProps] ([keys.ts]): the sequences of the Kitty protocol, of
      modifyOtherKeys and of older terminals; [parseKeyId] and [parseKey], [matchesKey] and
      [decodePrintableKey].  [KeyBindings] ([keybindings.ts]): the manager of bindings, the
      default bindings, and the text field and the editor under them.
    - [Autocomplete] ([autocomplete.ts], [fuzzy.ts]): the provider of completions for
      commands, attachments and paths.

    ** How code is modelled

    Asynchronous code is state passing: [M W E A] is a computation on a world [W]
    that returns or throws, and an [await] is a bind.  The world of the loop holds
    the events emitted, the two message arrays the loop appends to, the protocol
    counters, and an environment [Env] for everything outside: every hook, tool,
    listener and provider is a function on [Env], so that it may do anything to it,
    throw included.  Concurrent tools are processes whose steps are interleaved by an
    arbitrary schedule; a stream is driven by an arbitrary sequence of operations.
    Numbers are [Z] (token counts, sizes, times) or [Q] (settings that may be
    fractional); JavaScript's [undefined] is [None].  Truthiness tests are written
    out.  Objects are values: where two names share an array and one is changed, the
    model changes the one state component that stands for it; where an array may be
    replaced while another name still holds the old one, it carries a number.  Tools
    and the variables that closures of a run share are referred to by position.  [runAgentLoopContinue]
    appends to the caller's array as well; no theorem is about that array.  Code that
    runs concurrently with itself (tools on files, ledgers on a record) is cut into
    steps at its awaits; a step function over explicit events lets them interleave in
    any order, and failures of the system are inputs of the step they occur in.  Amounts
    of money are an interface ([JsNumber]) without laws, so that the theorems hold for
    floating point.

    ** What the theorems show

    - Runs ([LoopProps], [ToolProps]): a run that returns has emitted a well-formed
      sequence of events; its transcript is what was announced; tool results come in
      the order of the calls whatever the interleaving; blocked calls do not run; tool
      calls of a truncated response, or mixed with [finish_work], do not run.
    - Completion ([ProtocolProps]): with a turn limit every run ends, as long as no hook
      turns the protocol off; retry counters stay within their limits; an explicit run
      completes on a plain answer only when the application's hook accepts it.
    - Agent and streams ([AgentProps], [AgentStream], [EventStream], [Queue]): the
      agent's transcript grows by exactly the run; a run leaves it idle; failures are
      recorded; queues and streams deliver everything once and in order; a run that
      rejects leaves its stream open.
    - Harness ([HarnessLog], [HarnessOps], [HarnessProps]): what a prompt logs, that
      writes which wait are written in order and never lost, that the tools stay
      consistent under any sequence of operations, and that every operation leaves an
      idle harness idle again.  [calls_back] says what the code around a harness may do:
      change the application's state and call operations back, to any depth.  Operations
      that overlap at their awaits are outside; two that change tools can spoil them.
    - Recovery ([RecoveryProps]): a call written as text is recovered with its name
      and arguments; nothing is recovered but offered tools with valid arguments.
    - Sessions ([SessionProps], [JsonlProps], [RepoProps], [BranchProps]): the log only grows and stays a forest, so that the
      current branch can always be read; append, move, label, fork and reload do what
      they say; contexts are built from the branch and the last compaction; a session
      file reads back as the session that wrote it; the entries summarized on leaving a
      branch are those below the common ancestor, the latest that fit.
    - Compaction ([CompactionProps]): every message of the context is in a prompt of
      [compact] or kept, and the previous summary is in a prompt unless the cut is within
      the first turn after it, when it is lost; calls stay with their results, the cut is
      the best one for the budget, file lists accumulate.
    - Files ([EditProps], [EditToolProps], [MutationQueue], [Paths]): an edit replaces
      exactly the regions it matched, which are its old text, its normalized old text or
      whole lines around it, keeps byte order mark and line endings, and leaves
      the file alone when it fails before writing; mutations of one file run one at a
      time in the order of their calls, whatever the interleaving, and none waits for
      ever; a path reported inside the working directory is inside it.
    - Output ([ToolTruncate], [OutputProps], [Utf8]): the snapshot of streamed output is
      the truncation of the whole text, however it was cut into chunks; memory stays
      bounded; truncated output is preserved in full in its file.
    - Spending and checks ([RunBudgetProps], [VerificationLedger]): a call is admitted
      only while everything admitted before it is accounted for and below the limit;
      the gate opens exactly when, of every command, the last record marked required is
      not failed, which a run that was killed is not.
    - Streams ([StdinProps], [ProxyProps]): how input is cut into chunks
      does not change the sequences; pastes arrive whole; a proxy's events rebuild the
      message they came from, however those of its blocks interleave; a response that ends early never settles.
    - The editor ([EditorProps], [EditorText], [EditorVisual], [EditorCursor],
      [EditorPaste]; [TextInput] for the text field): undoing everything leads back to the
      start; what was killed in one go can be yanked back; the cursor is in the text, whatever is typed, pasted or completed, and on
      one visual line when no character is wider than the editor; a paste is submitted with
      its keys decoded and without control characters; a wrapped line loses nothing and fits.
    - Keys ([KeyProps], [KeyBindings]): a key that has a name is matched by that name, a
      key event triggers nothing but its own key and modifiers, printing an event and
      parsing it gives it back, only characters of keys without Ctrl, Alt or Super are
      inserted, the conflicts of bindings are exact, and an event of a printable key inserts its character.
    - Completion ([Autocomplete]): only the prefix is replaced, by the value with the
      slash and the space its kind needs, a chosen directory is read back for the next
      step, and fuzzy matching finds exactly the subsequences, best scores first.
    - Chunks ([ChunkFile]): the chunks of a file, with the blank ranges that are
      left out, cover its lines once, in order and within the size.
    - Text ([Truncate], [Json]), ids ([Uuid]): sizes are exact, cuts are maximal, ids
      increase and are new; short ids collide within a window.

    ** Fuel and bounds

    [turn_loop] takes fuel, one unit per evaluation of the inner loop condition;
    [runAgentLoop_terminates] bounds what a run needs by its turn limit, and the other
    theorems about runs hold for every fuel.  [path_loop] gets the number of entries,
    which [session_log_invariant] shows to be enough for every reachable log.
    [collect_loop] gets the length of the branch it leaves, enough by
    [collect_branch_difference].  [canonical_loop] gets a cost computed from the value,
    enough by [serializeCanonical_correct]; the JSON parser gets fuel from the length
    of the text, and more changes nothing ([parse_fuel_enough]).  [process_string] and the extraction of sequences get
    fuel from the length of the input, [fixed_ranges] and [skip_decorators] from the
    number of lines; each step consumes one, so it is enough.  [handle_input] and
    [handle_editor_input] get the length of the paste buffer and the data, which shrink
    with every paste that ends; [strip_ansi] the length of the text; [wordWrapLine] goes
    two levels deep, since a marker's chunks hold no marker; [move_to_visual_line] gets
    the number of visual lines.  A run without a turn limit, or whose responses are
    cut short again and again, may go on for ever, as in the code.

    ** What is not modelled

    Parameters: [validateToolArguments] and [streamSimple]/[completeSimple] of
    [packages/ai], the parsing of dates, the clock, random bytes, abort signals, the
    file system (with laws), the text of a parsed number ([String(n)]), Unicode
    normalization and case mapping, the collation of the locale, [Intl.Segmenter], the
    widths of Unicode, the output of [fd], the packages [diff] and [partial-json], and the
    language patterns of the code index.  In the theorems about the editor alone, the
    bindings, the decoding of keys, the page size and the provider of completions are
    parameters too; [KeyBindings] and [Autocomplete] give them.  The handlers registered with an agent or a harness are fixed.
    How the file of a budget is locked, written and verified is reduced to the four ways
    an update can end.  Not modelled: loading skills and templates from disk, the capture of
    shell output and the scoring of the code index, which are mostly calls of the system or
    of a database; rendering and its components, which write to the terminal; the
    execution environment, the providers with their wire formats, and the rest of the
    application, which is wiring around the parts above. *)
From stdpp Require Export base gmap list strings pretty sorting.
From Stdlib Require Export ZArith Lia.

#[global] Open Scope Z_scope.

(** ** Automation shared by the components *)

Create HintDb agent.
Create Rewrite HintDb agent_rw.

(** Case analysis on the boolean tests of the executable definitions. *)
Ltac bool_hyps :=
  repeat match goal with
  | H : _ && _ = true |- _ => apply andb_true_iff in H; destruct H
  | H : _ || _ = false |- _ => apply orb_false_iff in H; destruct H
  | H : negb _ = true |- _ => apply negb_true_iff in H
  | H : negb _ = false |- _ => apply negb_false_iff in H
  | H : (_ <=? _) = true |- _ => apply Z.leb_le in H
  | H : (_ <=? _) = false |- _ => apply Z.leb_gt in H
  | H : (_ <? _) = true |- _ => apply Z.ltb_lt in H
  | H : (_ <? _) = false |- _ => apply Z.ltb_ge in H
  | H : (_ =? _) = true |- _ => apply Z.eqb_eq in H
  | H : (_ =? _) = false |- _ => apply Z.eqb_neq in H
  | H : (_ >? _) = _ |- _ => rewrite Z.gtb_ltb in H
  | H : (_ >=? _) = _ |- _ => rewrite Z.geb_leb in H
  end.

(** Destruct the scrutinee of an [if] or [match] in the goal, remembering it. *)
Ltac case_if :=
  match goal with
  | |- context [if ?b then _ else _] =>
      lazymatch type of b with bool => destruct b eqn:? end
  end.

Ltac case_if_in H :=
  match type of H with
  | context [if ?b then _ else _] =>
      lazymatch type of b with bool => destruct b eqn:? end
  end.

(** ** Lists *)

(** JavaScript's [xs.length] as a number. *)
Definition zlen {A} (l : list A) : Z := Z.of_nat (length l).

Lemma zlen_nil {A} : zlen (@nil A) = 0.
Proof. reflexivity. Qed.

Lemma zlen_cons {A} (x : A) l : zlen (x :: l) = 1 + zlen l.
Proof. unfold zlen. simpl length. lia. Qed.

Lemma zlen_app {A} (l k : list A) : zlen (l ++ k) = zlen l + zlen k.
Proof. unfold zlen. rewrite length_app. lia. Qed.

Lemma zlen_nonneg {A} (l : list A) : 0 <= zlen l.
Proof. unfold zlen. lia. Qed.

Lemma zlen_zero {A} (l : list A) : zlen l = 0 -> l = [].
Proof. destruct l; [done|]. rewrite zlen_cons. pose proof (zlen_nonneg l). lia. Qed.

#[global] Hint Rewrite @zlen_nil @zlen_cons @zlen_app : agent_rw.
#[export] Hint Resolve zlen_nonneg : agent.

Lemma find_ext_in {A} (p q : A -> bool) l : (forall x, x ∈ l -> p x = q x) -> List.find p l = List.find q l.
Proof.
  induction l as [|x l IH]; intros H; simpl; [done|]. rewrite <- (H x) by set_solver.
  destruct (p x); [done|]. apply IH. set_solver.
Qed.

Lemma find_app {A} (f : A -> bool) (l k : list A) x : List.find f l = Some x -> List.find f (l ++ k) = Some x.
Proof. induction l as [|y l IH]; simpl; [done |]. destruct (f y); auto. Qed.

(** Is the list empty? *)
Definition is_empty {A} (l : list A) : bool :=
  match l with [] => true | _ => false end.

Lemma is_empty_true {A} (l : list A) : is_empty l = true <-> l = [].
Proof. destruct l; naive_solver. Qed.

Lemma is_empty_false {A} (l : list A) : is_empty l = false <-> l <> [].
Proof. destruct l; naive_solver. Qed.

(** [xs.findIndex(p)]: the first index satisfying [p]. *)
Fixpoint find_index {A} (p : A -> bool) (l : list A) : option nat :=
  match l with
  | [] => None
  | x :: l' => if p x then Some 0%nat else S <$> find_index p l'
  end.

Lemma find_index_Some {A} (p : A -> bool) l i :
  find_index p l = Some i ->
  exists x, l !! i = Some x /\ p x = true /\
    forall j y, (j < i)%nat -> l !! j = Some y -> p y = false.
Proof.
  revert i. induction l as [|x l IH]; intros i; simpl; [done|].
  destruct (p x) eqn:Hp; intros H.
  - injection H as <-. exists x. split; [done|]. split; [done|]. lia.
  - destruct (find_index p l) as [k|] eqn:Hk; simpl in H; [|done].
    injection H as <-. destruct (IH k eq_refl) as (y & Hy & Hpy & Hmin).
    exists y. split; [done|]. split; [done|].
    intros [|j] z Hj Hz; simpl in Hz; [by injection Hz as <-|].
    apply (Hmin j z); [lia|done].
Qed.

Lemma find_index_None {A} (p : A -> bool) l :
  find_index p l = None <-> Forall (fun x => p x = false) l.
Proof.
  induction l as [|x l IH]; simpl; [done|].
  destruct (p x) eqn:Hp.
  - split; [done|]. intros H. inversion H. congruence.
  - rewrite Forall_cons, <- IH. destruct (find_index p l); naive_solver.
Qed.

Lemma find_index_bound {A} (p : A -> bool) l i :
  find_index p l = Some i -> (i < length l)%nat.
Proof.
  intros (x & Hx & _)%find_index_Some. by eapply lookup_lt_Some.
Qed.

(** Last element, as [xs[xs.length - 1]]. *)
Definition last_of {A} (l : list A) : option A := last l.

(** Sum of a list of integers. *)
Fixpoint sumZ (l : list Z) : Z :=
  match l with [] => 0 | x :: l' => x + sumZ l' end.

Lemma sumZ_app l k : sumZ (l ++ k) = sumZ l + sumZ k.
Proof. induction l; simpl; lia. Qed.

(** ** Numbers *)

(** [Math.ceil(n / d)] for integers, [d > 0]. *)
Definition ceil_div (n d : Z) : Z := - ((- n) / d).

Lemma ceil_div_spec n d : 0 < d -> d * (ceil_div n d - 1) < n <= d * ceil_div n d.
Proof.
  intros Hd. unfold ceil_div. pose proof (Z.div_mod (- n) d ltac:(lia)).
  pose proof (Z.mod_pos_bound (- n) d Hd). nia.
Qed.

Lemma ceil_div_nonneg n d : 0 < d -> 0 <= n -> 0 <= ceil_div n d.
Proof. intros Hd Hn. pose proof (ceil_div_spec n d Hd). nia. Qed.

#[export] Hint Resolve ceil_div_nonneg : agent.

(** ** Stable sorting by a boolean order *)

Section Isort.
Context {A : Type} (leb : A -> A -> bool).

Fixpoint insert_sorted (x : A) (l : list A) : list A :=
  match l with
  | [] => [x]
  | y :: l' => if leb x y then x :: l else y :: insert_sorted x l'
  end.

Fixpoint isort (l : list A) : list A :=
  match l with [] => [] | x :: l' => insert_sorted x (isort l') end.

Lemma insert_sorted_Permutation x l : insert_sorted x l ≡ₚ x :: l.
Proof.
  induction l as [|y l IH]; simpl; [done|]. destruct (leb x y); [done|].
  by rewrite IH, Permutation_swap.
Qed.

Lemma isort_Permutation l : isort l ≡ₚ l.
Proof. induction l as [|x l IH]; simpl; [done|]. by rewrite insert_sorted_Permutation, IH. Qed.

Lemma insert_sorted_Sorted x l :
  (forall a b, leb a b = false -> leb b a = true) ->
  Sorted (fun a b => leb a b = true) l -> Sorted (fun a b => leb a b = true) (insert_sorted x l).
Proof.
  intros Htot Hs. induction Hs as [|y l Hs IH Hy]; simpl; [by repeat constructor|].
  destruct (leb x y) eqn:E; [by constructor; constructor|].
  constructor; [done|]. destruct l as [|z l]; simpl; [constructor; auto|].
  inversion Hy; subst. destruct (leb x z); constructor; auto.
Qed.

Lemma isort_Sorted l :
  (forall a b, leb a b = false -> leb b a = true) -> Sorted (fun a b => leb a b = true) (isort l).
Proof. intros Htot. induction l; simpl; [constructor|by apply insert_sorted_Sorted]. Qed.
End Isort.

(** Sorting commutes with a map that keeps the order. *)
Lemma isort_map {A B} (leA : A -> A -> bool) (leB : B -> B -> bool) (f : A -> B) l :
  (forall x y, leB (f x) (f y) = leA x y) -> isort leB (map f l) = map f (isort leA l).
Proof.
  intros H. induction l as [|x l IH]; simpl; [done|]. rewrite IH. clear IH.
  induction (isort leA l) as [|y k IHk]; simpl; [done|]. rewrite H.
  destruct (leA x y); simpl; [done|]. by rewrite IHk.
Qed.
