(* ===== verification/JsString.v ===== *)
(** JavaScript strings as the code sees them: sequences of UTF-16 code units,
    with the operations of [String.prototype] the modelled sources call. *)
From Stdlib Require Strings.String Strings.Ascii.
From S2P Require Import Prelude.

(** A string is a list of 16-bit code units. *)
Abbreviation jsstr := (list Z).

(** String literals of the sources. *)
Definition js (s : string) : jsstr :=
  map (fun a => Z.of_nat (Ascii.nat_of_ascii a)) (String.list_ascii_of_string s).

(** Template interpolation of an integer. *)
Definition show (n : Z) : jsstr := js (pretty n).

Definition nl : jsstr := [10].

(** Every code unit is a 16-bit number. *)
Definition wf_str (s : jsstr) : Prop := Forall (fun c => 0 <= c < 65536) s.

(** ** Whitespace and [trim] *)

(** ECMAScript WhiteSpace and LineTerminator, the set of [trim] and of [\s]. *)
Definition is_space (c : Z) : bool :=
  ((9 <=? c) && (c <=? 13)) || (c =? 32) || (c =? 160) || (c =? 5760)
  || ((8192 <=? c) && (c <=? 8202)) || (c =? 8232) || (c =? 8233)
  || (c =? 8239) || (c =? 8287) || (c =? 12288) || (c =? 65279).

Fixpoint trim_start (s : jsstr) : jsstr :=
  match s with
  | [] => []
  | c :: s' => if is_space c then trim_start s' else s
  end.

Definition trim_end (s : jsstr) : jsstr := reverse (trim_start (reverse s)).

Definition trim (s : jsstr) : jsstr := trim_end (trim_start s).

Lemma trim_start_suffix s : trim_start s `suffix_of` s.
Proof.
  induction s as [|c s IH]; simpl; [done|].
  destruct (is_space c); [|done]. by apply suffix_cons_r.
Qed.

Lemma trim_start_nil s : trim_start s = [] <-> Forall (fun c => is_space c = true) s.
Proof.
  induction s as [|c s IH]; simpl; [done|].
  rewrite Forall_cons. destruct (is_space c) eqn:Hc; naive_solver.
Qed.

Lemma trim_start_spaces_prefix s :
  exists p, s = p ++ trim_start s /\ Forall (fun c => is_space c = true) p.
Proof.
  induction s as [|c s [p [Hp Hs]]]; simpl; [by exists []|].
  destruct (is_space c) eqn:Hc; [|by exists []].
  exists (c :: p). split; [by rewrite Hp at 1|by constructor].
Qed.

Lemma trim_end_spaces s :
  exists p, s = trim_end s ++ p /\ Forall (fun c => is_space c = true) p.
Proof.
  destruct (trim_start_spaces_prefix (reverse s)) as (p & Hp & Hs).
  exists (reverse p). unfold trim_end. split; [|by apply Forall_reverse].
  rewrite <- reverse_app, <- Hp. by rewrite reverse_involutive.
Qed.

(** A string trims to nothing exactly when it is blank. *)
Lemma trim_nil s : trim s = [] <-> Forall (fun c => is_space c = true) s.
Proof.
  unfold trim. split.
  - intros H. destruct (trim_end_spaces (trim_start s)) as (p & Hp & Hs).
    rewrite H in Hp. simpl in Hp.
    destruct (trim_start_spaces_prefix s) as (q & Hq & Hs').
    rewrite Hq, Hp. by apply Forall_app.
  - intros H%trim_start_nil. by rewrite H.
Qed.

(** ** Substrings *)

(** The position a relative index of [slice] denotes. *)
Definition slice_index (s : jsstr) (n : Z) : nat :=
  Z.to_nat (if n <? 0 then Z.max 0 (zlen s + n) else n).

(** [s.slice(0, n)] and [s.slice(n)]. *)
Definition slice_to (s : jsstr) (n : Z) : jsstr := take (slice_index s n) s.
Definition slice_from (s : jsstr) (n : Z) : jsstr := drop (slice_index s n) s.

Fixpoint starts_with (p s : jsstr) : bool :=
  match p, s with
  | [], _ => true
  | c :: p', d :: s' => (c =? d) && starts_with p' s'
  | _ :: _, [] => false
  end.

Definition ends_with (p s : jsstr) : bool := starts_with (reverse p) (reverse s).

(** ** [split] on one code unit and [join] *)

Fixpoint split_on (sep : Z) (s : jsstr) : list jsstr :=
  match s with
  | [] => [[]]
  | c :: s' =>
      if c =? sep then [] :: split_on sep s'
      else match split_on sep s' with
           | l :: ls => (c :: l) :: ls
           | [] => [[c]]
           end
  end.

Fixpoint join (sep : jsstr) (l : list jsstr) : jsstr :=
  match l with
  | [] => []
  | [x] => x
  | x :: l' => x ++ sep ++ join sep l'
  end.

Lemma split_on_cons sep s : exists l ls, split_on sep s = l :: ls.
Proof.
  induction s as [|c s (l & ls & IH)]; simpl; [by eexists _, _|].
  destruct (c =? sep); [by eexists _, _|]. rewrite IH. by eexists _, _.
Qed.

Lemma join_cons2 sep x y l : join sep (x :: y :: l) = x ++ sep ++ join sep (y :: l).
Proof. reflexivity. Qed.

(** Splitting and joining with the separator is the identity. *)
Lemma join_split sep s : join [sep] (split_on sep s) = s.
Proof.
  induction s as [|c s IH]; [done|]. simpl.
  destruct (split_on_cons sep s) as (l & ls & E).
  destruct (c =? sep) eqn:Hc; bool_hyps.
  - subst. rewrite E in *. by rewrite join_cons2, IH.
  - rewrite E in *. destruct ls; simpl in *; by rewrite <- IH.
Qed.

(** No line of a split contains the separator. *)
Lemma split_on_Forall sep s : Forall (fun l => sep ∉ l) (split_on sep s).
Proof.
  induction s as [|c s IH]; simpl; [repeat constructor; set_solver|].
  destruct (split_on_cons sep s) as (l & ls & E). rewrite E in *.
  destruct (c =? sep) eqn:Hc; bool_hyps; constructor; try done; try set_solver.
  - inversion IH; subst. set_solver.
  - by inversion IH.
Qed.

Lemma join_app_cons sep l x : l <> [] -> join sep (l ++ [x]) = join sep l ++ sep ++ x.
Proof.
  induction l as [|y l IH]; [done|]. intros _. destruct l as [|z l]; [done|].
  change ((y :: z :: l) ++ [x]) with (y :: z :: (l ++ [x])).
  rewrite !join_cons2. change (z :: l ++ [x]) with ((z :: l) ++ [x]).
  rewrite IH by done. by rewrite <- !app_assoc.
Qed.

(** ** ASCII case folding and the regular expressions of the sources *)

(** [Canonicalize] of a case-insensitive, non-unicode expression, restricted
    to ASCII: a code unit >= 128 never folds to one below. *)
Definition fold_case (c : Z) : Z := if (97 <=? c) && (c <=? 122) then c - 32 else c.

(** Word characters of [\b] and [\w]. *)
Definition is_word (c : Z) : bool :=
  ((48 <=? c) && (c <=? 57)) || ((65 <=? c) && (c <=? 90)) || ((97 <=? c) && (c <=? 122)) || (c =? 95).

(** The fragment of regular expressions the sources test with. *)
Inductive regex :=
  | RLit (s : jsstr)          (** a literal, matched case-insensitively *)
  | RSpace                    (** [\s] *)
  | RSpaces                   (** [\s*] *)
  | RBoundary                 (** [\b] after a word character *)
  | ROpt (r : regex)          (** [r?] *)
  | RAlt (l r : regex)
  | RSeq (l r : regex).

(** The suffixes left after [s] when the literal [p] matches at its start. *)
Fixpoint match_lit (p s : jsstr) : option jsstr :=
  match p, s with
  | [], _ => Some s
  | c :: p', d :: s' => if fold_case c =? fold_case d then match_lit p' s' else None
  | _ :: _, [] => None
  end.

Fixpoint spaces_suffixes (s : jsstr) : list jsstr :=
  s :: match s with
       | c :: s' => if is_space c then spaces_suffixes s' else []
       | [] => []
       end.

(** All the ways [r] matches a prefix of [s], as the remaining suffixes. *)
Fixpoint match_here (r : regex) (s : jsstr) : list jsstr :=
  match r with
  | RLit p => match match_lit p s with Some s' => [s'] | None => [] end
  | RSpace => match s with c :: s' => if is_space c then [s'] else [] | [] => [] end
  | RSpaces => spaces_suffixes s
  | RBoundary => match s with c :: _ => if is_word c then [] else [s] | [] => [s] end
  | ROpt r => match_here r s ++ [s]
  | RAlt l r => match_here l s ++ match_here r s
  | RSeq l r => flat_map (match_here r) (match_here l s)
  end.

(** [r.test(s)]: does [r] match at some position of [s]? *)
Fixpoint regex_test (r : regex) (s : jsstr) : bool :=
  negb (is_empty (match_here r s)) ||
  match s with [] => false | _ :: s' => regex_test r s' end.

(** ** Order: [<] on strings and the default order of [Array.prototype.sort] *)

Fixpoint str_ltb (a b : jsstr) : bool :=
  match a, b with
  | [], _ :: _ => true
  | _, [] => false
  | x :: a', y :: b' => (x <? y) || ((x =? y) && str_ltb a' b')
  end.

Lemma str_ltb_irrefl a : str_ltb a a = false.
Proof. induction a as [|x a IH]; [done|]. simpl. rewrite Z.ltb_irrefl, Z.eqb_refl. done. Qed.

Lemma str_ltb_cons x y a b :
  str_ltb (x :: a) (y :: b) = true <-> x < y \/ (x = y /\ str_ltb a b = true).
Proof. simpl. rewrite orb_true_iff, andb_true_iff, Z.ltb_lt, Z.eqb_eq. done. Qed.

Lemma str_ltb_app p a b : str_ltb (p ++ a) (p ++ b) = str_ltb a b.
Proof.
  induction p as [|x p IH]; [done|]. simpl. by rewrite Z.ltb_irrefl, Z.eqb_refl, IH.
Qed.

Lemma str_ltb_trans a b c : str_ltb a b = true -> str_ltb b c = true -> str_ltb a c = true.
Proof.
  revert b c. induction a as [|x a IH]; intros [|y b] [|z c]; try done.
  rewrite !str_ltb_cons. intros [H|[-> H]] [H'|[-> H']]; [left; lia|left; lia|left; lia|].
  right. eauto.
Qed.
