(* ===== verification/StringSearch.v ===== *)
(** Searching in strings: [indexOf] with a string, [split] by a string, [substring],
    and their lemmas, shared by the input buffer, the edit tool and the streams. *)
From S2P Require Import Prelude JsString.

(** [s.indexOf(p)]. *)
Fixpoint index_of (p s : jsstr) : option nat :=
  if starts_with p s then Some 0%nat
  else match s with
       | [] => None
       | _ :: s' => S <$> index_of p s'
       end.

(** [s.includes(p)]. *)
Definition includes (p s : jsstr) : bool := match index_of p s with Some _ => true | None => false end.

(** [s.split(sep)] for a string [sep]; by an empty one, the code units. *)
Fixpoint split_loop (fuel : nat) (sep s : jsstr) : list jsstr :=
  match fuel with
  | O => [s]
  | S fuel' =>
      match index_of sep s with
      | None => [s]
      | Some i => take i s :: split_loop fuel' sep (drop (i + length sep) s)
      end
  end.

Definition split_str (sep s : jsstr) : list jsstr :=
  match sep with
  | [] => map (fun c => [c]) s
  | _ => split_loop (S (length s)) sep s
  end.

(** [s.substring(a, b)]: both ends are brought into the string, and swapped when
    they are out of order. *)
Definition clamp_index (s : jsstr) (n : Z) : nat := Z.to_nat (Z.min n (zlen s)).
Definition substring (s : jsstr) (a b : Z) : jsstr :=
  let i := clamp_index s a in
  let j := clamp_index s b in
  take (Nat.max i j - Nat.min i j) (drop (Nat.min i j) s).

(** ** Occurrences *)

Lemma starts_with_prefix (p s : jsstr) : starts_with p s = true <-> p `prefix_of` s.
Proof.
  revert s. induction p as [|c p IH]; intros [|d s]; simpl.
  - split; [intros _; by exists [] | done].
  - split; [intros _; by exists (d :: s) | done].
  - split; [done | intros [k Hk]; done].
  - rewrite andb_true_iff, Z.eqb_eq, IH. split.
    + intros [-> [k ->]]. by exists k.
    + intros [k Hk]. simplify_eq/=. split; [done | by exists k].
Qed.

Lemma index_of_Some (p s : jsstr) i :
  index_of p s = Some i -> s = take i s ++ p ++ drop (i + length p) s.
Proof.
  revert i. induction s as [|c s IH]; intros i; cbn [index_of]; destruct (starts_with p _) eqn:E; intros H; simplify_eq.
  - apply starts_with_prefix in E as [k ->]. simpl. by rewrite drop_app_length.
  - apply starts_with_prefix in E as [k ->]. simpl. by rewrite drop_app_length.
  - destruct (index_of p s) as [j|] eqn:Ej; simplify_eq/=. f_equal. by apply IH.
Qed.

Lemma index_of_bound (p s : jsstr) i : index_of p s = Some i -> (i + length p <= length s)%nat.
Proof.
  revert i. induction s as [|c s IH]; intros i; cbn [index_of]; destruct (starts_with p _) eqn:E; intros H; simplify_eq.
  - apply starts_with_prefix, prefix_length in E. lia.
  - apply starts_with_prefix, prefix_length in E. lia.
  - destruct (index_of p s) as [j|]; simplify_eq/=. specialize (IH j eq_refl). lia.
Qed.

(** An occurrence is found, at its place or before. *)
Lemma index_of_occurs (p u v : jsstr) : exists i, index_of p (u ++ p ++ v) = Some i /\ (i <= length u)%nat.
Proof.
  induction u as [|c u [i [Hi Hl]]].
  - exists 0%nat. split; [| done].
    assert (E : starts_with p (p ++ v) = true) by (apply starts_with_prefix; by exists v).
    simpl. destruct (p ++ v); cbn [index_of]; by rewrite E.
  - cbn [app index_of]. destruct (starts_with p (c :: u ++ p ++ v)).
    + exists 0%nat. split; [done | lia].
    + rewrite Hi. exists (S i). simpl. split; [done | lia].
Qed.

Lemma index_of_None (p s : jsstr) : index_of p s = None <-> (forall u v, s <> u ++ p ++ v).
Proof.
  split.
  - intros H u v ->. destruct (index_of_occurs p u v) as (i & Hi & _). congruence.
  - intros H. destruct (index_of p s) as [i|] eqn:E; [| done].
    apply index_of_Some in E. by apply H in E.
Qed.

Lemma index_of_None_infix (p u s v : jsstr) : index_of p (u ++ s ++ v) = None -> index_of p s = None.
Proof.
  rewrite !index_of_None. intros H a b ->. apply (H (u ++ a) (b ++ v)). by rewrite <- !app_assoc.
Qed.

(** Text after the first occurrence does not move it. *)
Lemma index_of_app (p s v : jsstr) i : index_of p s = Some i -> index_of p (s ++ v) = Some i.
Proof.
  revert i. induction s as [|c s IH]; intros i; cbn [index_of app]; destruct (starts_with p _) eqn:E; intros H; simplify_eq.
  - apply starts_with_prefix in E as [k Hk]. symmetry in Hk. apply app_eq_nil in Hk as [-> ->]. by destruct v.
  - replace (starts_with p (c :: s ++ v)) with true; [done |]. symmetry. apply starts_with_prefix.
    apply starts_with_prefix in E as [k Hk]. exists (k ++ v). by rewrite app_assoc, <- Hk.
  - destruct (index_of p s) as [j|] eqn:Ej; simplify_eq/=.
    rewrite (IH j) by done. replace (starts_with p (c :: s ++ v)) with false; [done |].
    symmetry. apply not_true_iff_false. intros F. apply starts_with_prefix in F as [k Hk].
    apply not_true_iff_false in E. apply E, starts_with_prefix.
    apply index_of_Some, (f_equal length) in Ej. rewrite !length_app in Ej.
    exists (drop (length p) (c :: s)).
    rewrite <- (take_drop (length p) (c :: s)) at 1. f_equal.
    apply (f_equal (take (length p))) in Hk. rewrite take_app_length in Hk.
    etransitivity; [| exact Hk]. change (c :: s ++ v) with ((c :: s) ++ v). rewrite take_app_le; [done |]. simpl. lia.
Qed.

(** ** Substrings *)

Lemma substring_take s n : 0 <= n -> substring s 0 n = take (Z.to_nat n) s.
Proof.
  intros Hn. unfold substring, clamp_index. pose proof (zlen_nonneg s).
  rewrite Z.min_l by lia. simpl. rewrite drop_0, Nat.sub_0_r.
  destruct (Z.le_ge_cases n (zlen s)); [by rewrite Z.min_l by lia |].
  rewrite Z.min_r by lia. unfold zlen in *. rewrite Nat2Z.id, !take_ge; [done | lia | lia].
Qed.

Lemma substring_drop s n : 0 <= n -> substring s n (zlen s) = drop (Z.to_nat n) s.
Proof.
  intros Hn. unfold substring, clamp_index, zlen in *. rewrite Z.min_id, Nat2Z.id.
  destruct (Z.le_ge_cases n (Z.of_nat (length s))).
  - rewrite Z.min_l, Nat.max_r, Nat.min_l by lia. rewrite take_ge; [done |]. rewrite length_drop. lia.
  - rewrite Z.min_r, Nat2Z.id, Nat.max_id, Nat.min_id by lia. rewrite !drop_ge by lia. by rewrite take_nil.
Qed.

Lemma substring_mid s a n :
  0 <= a -> 0 <= n -> a + n <= zlen s -> substring s a (a + n) = take (Z.to_nat n) (drop (Z.to_nat a) s).
Proof.
  intros Ha Hn Hl. unfold substring, clamp_index. rewrite !Z.min_l, Nat.max_r, Nat.min_l by lia.
  f_equal. lia.
Qed.

(** ** Lines *)

Lemma split_on_line sep l rest : sep ∉ l -> split_on sep (l ++ sep :: rest) = l :: split_on sep rest.
Proof.
  induction l as [|c l IH]; intros Hn; simpl.
  - by rewrite Z.eqb_refl.
  - apply not_elem_of_cons in Hn as [Hc Hl]. rewrite (proj2 (Z.eqb_neq c sep)) by done. by rewrite IH.
Qed.

Lemma split_on_plain sep l : sep ∉ l -> split_on sep l = [l].
Proof.
  induction l as [|c l IH]; intros H; [done |]. cbn [split_on].
  apply not_elem_of_cons in H as [Hc H]. rewrite (proj2 (Z.eqb_neq c sep)) by done. by rewrite IH.
Qed.

Lemma split_join sep (ls : list jsstr) : ls <> [] -> Forall (fun l => sep ∉ l) ls -> split_on sep (join [sep] ls) = ls.
Proof.
  induction ls as [|l ls IH]; intros Hne Hf; [done |]. apply Forall_cons in Hf as [Hl Hf].
  destruct ls as [|k ls]; [by apply split_on_plain |].
  rewrite join_cons2. cbn [app]. rewrite split_on_line by done. by rewrite IH.
Qed.

Lemma split_on_length_app sep a b :
  (length (split_on sep (a ++ b)) + 1 = length (split_on sep a) + length (split_on sep b))%nat.
Proof.
  induction a as [|c a IH]; cbn [app split_on length]; [lia |].
  destruct (c =? sep); cbn [length]; [lia |].
  destruct (split_on_cons sep (a ++ b)) as (l & ls & E), (split_on_cons sep a) as (l' & ls' & E').
  rewrite E, E' in *. simpl in *. lia.
Qed.

Lemma split_on_length_pos sep s : (1 <= length (split_on sep s))%nat.
Proof. destruct (split_on_cons sep s) as (l & ls & ->). simpl. lia. Qed.

Lemma split_on_sep sep u v : split_on sep (u ++ sep :: v) = split_on sep u ++ split_on sep v.
Proof.
  induction u as [|c u IH]; cbn [app split_on]; [by rewrite Z.eqb_refl|].
  rewrite IH. destruct (c =? sep); [done|]. by destruct (split_on_cons sep u) as (l & ls & ->).
Qed.

(** A text ends with its last line and begins with its first. *)
Lemma last_line sep (p : jsstr) : exists a : jsstr, sep ∉ a /\ (p = a \/ exists u, p = u ++ sep :: a).
Proof.
  induction p as [|c p (a & Ha & Hp)]; [exists []; split; [apply not_elem_of_nil|by left]|].
  destruct Hp as [->|(u & ->)]; [|exists a; split; [done|right; by exists (c :: u)]].
  destruct (decide (c = sep)) as [->|Hc]; [exists a; split; [done|right; by exists []]|].
  exists (c :: a). split; [|by left]. by apply not_elem_of_cons.
Qed.

Lemma first_line sep (q : jsstr) : exists b : jsstr, sep ∉ b /\ (q = b \/ exists w, q = b ++ sep :: w).
Proof.
  induction q as [|c q (b & Hb & Hq)]; [exists []; split; [apply not_elem_of_nil|by left]|].
  destruct (decide (c = sep)) as [->|Hc]; [exists []; split; [apply not_elem_of_nil|right; by exists q]|].
  exists (c :: b). split; [by apply not_elem_of_cons|]. destruct Hq as [->|(w & ->)]; [by left|right; by exists w].
Qed.

(** The lines a text within another stretches over: the text between the rest of
    the line before it and the rest of the line after it. *)
Lemma split_on_within sep (p x q : jsstr) : exists a b : jsstr, sep ∉ a /\ sep ∉ b /\
  take (length (split_on sep x)) (drop (length (split_on sep p) - 1) (split_on sep (p ++ x ++ q))) = split_on sep (a ++ x ++ b).
Proof.
  destruct (last_line sep p) as (a & Ha & Hp), (first_line sep q) as (b & Hb & Hq). exists a, b. split_and!; [done..|].
  assert (Hd : drop (length (split_on sep p) - 1) (split_on sep (p ++ x ++ q)) = split_on sep (a ++ x ++ q)).
  { destruct Hp as [->|(u & ->)].
    - rewrite split_on_plain by done. done.
    - rewrite <- app_assoc. cbn [app]. rewrite !split_on_sep, (split_on_plain sep a), length_app by done. cbn [length].
      apply drop_app_length'. lia. }
  rewrite Hd. pose proof (split_on_length_app sep a (x ++ b)) as H1. pose proof (split_on_length_app sep x b) as H2.
  rewrite (split_on_plain sep a) in H1 by done. rewrite (split_on_plain sep b) in H2 by done. cbn [length] in *.
  destruct Hq as [->|(w & ->)]; [apply take_ge; lia|].
  replace (a ++ x ++ b ++ sep :: w) with ((a ++ x ++ b) ++ sep :: w) by (by rewrite <- !app_assoc).
  rewrite split_on_sep. apply take_app_length'. lia.
Qed.

Lemma join_app sep as_ bs : as_ <> [] -> bs <> [] -> join sep (as_ ++ bs) = join sep as_ ++ sep ++ join sep bs.
Proof.
  intros Ha Hb. induction as_ as [|x l IH]; [done|]. destruct l as [|y l].
  - cbn [app]. destruct bs as [|b bs]; [done|]. apply join_cons2.
  - cbn [app] in *. rewrite !join_cons2, IH by done. by rewrite <- !app_assoc.
Qed.

(** A text counted at most once does not occur a second time after its end. *)
Lemma split_once sep s a b c : sep <> [] -> zlen (split_str sep s) - 1 <= 1 -> s <> a ++ sep ++ b ++ sep ++ c.
Proof.
  intros Hne Hc ->. destruct sep as [|x sep]; [done|]. set (p := x :: sep) in *.
  change (split_str p) with (fun s => split_loop (S (length s)) p s) in Hc. cbv beta in Hc.
  destruct (index_of_occurs p a (b ++ p ++ c)) as (i & Hi & Hle).
  cbn [split_loop] in Hc. rewrite Hi in Hc.
  assert (Hd : drop (i + length p) (a ++ p ++ b ++ p ++ c) = drop (i + length p) (a ++ p ++ b) ++ p ++ c).
  { replace (a ++ p ++ b ++ p ++ c) with ((a ++ p ++ b) ++ p ++ c) by (by rewrite <- !app_assoc).
    apply drop_app_le. rewrite !length_app. lia. }
  rewrite Hd in Hc. destruct (index_of_occurs p (drop (i + length p) (a ++ p ++ b)) c) as (j & Hj & _).
  destruct (length (a ++ p ++ b ++ p ++ c)) as [|n] eqn:En.
  { rewrite !length_app in En. unfold p in En. simpl in En. lia. }
  cbn [split_loop] in Hc. rewrite Hj in Hc. unfold zlen in Hc. cbn [length] in Hc.
  destruct n; cbn [split_loop] in Hc; [cbn [length] in Hc; lia|]. destruct (index_of p _); cbn [length] in Hc; lia.
Qed.
