(* ===== verification/Effects.v ===== *)
(** The state-and-exception monad the effectful components are written in:
    [async] functions as computations that read and update a world and return
    a value or throw. *)
From S2P Require Import Prelude.

(** Outcome of a call: a value, or the error it throws. *)
Inductive result (E A : Type) :=
  | Ok (a : A)
  | Throw (e : E).
Arguments Ok {E A} a.
Arguments Throw {E A} e.

Definition M (W E A : Type) : Type := W -> result E A * W.

Section Combinators.
Context {W E : Type}.

Definition ret {A} (a : A) : M W E A := fun w => (Ok a, w).
Definition throw {A} (e : E) : M W E A := fun w => (Throw e, w).
Definition bind {A B} (c : M W E A) (k : A -> M W E B) : M W E B := fun w =>
  match c w with
  | (Ok a, w') => k a w'
  | (Throw e, w') => (Throw e, w')
  end.
(** [try { c } catch (e) { h(e) }]. *)
Definition catch {A} (c : M W E A) (h : E -> M W E A) : M W E A := fun w =>
  match c w with
  | (Ok a, w') => (Ok a, w')
  | (Throw e, w') => h e w'
  end.
Definition get : M W E W := fun w => (Ok w, w).
Definition modify (f : W -> W) : M W E unit := fun w => (Ok tt, f w).
(** An operation of the environment. *)
Definition lift {A} (f : W -> A * W) : M W E A := fun w => let '(a, w') := f w in (Ok a, w').

(** [for (const x of l) await f(x)]. *)
Fixpoint for_each {A} (l : list A) (f : A -> M W E unit) : M W E unit :=
  match l with
  | [] => ret tt
  | x :: l' => bind (f x) (fun _ => for_each l' f)
  end.
End Combinators.

Declare Scope effect_scope.
Delimit Scope effect_scope with eff.
Notation "'let*' x := c 'in' k" := (bind c (fun x => k))
  (at level 10, x name, c at level 100, k at level 200) : effect_scope.
Notation "'let*' ' p := c 'in' k" := (bind c (fun x => match x with p => k end))
  (at level 10, p pattern, c at level 100, k at level 200) : effect_scope.
Notation "'do*' c 'in' k" := (bind c (fun _ => k))
  (at level 10, c at level 100, k at level 200) : effect_scope.

(** ** Hoare triples: [P] before, [Q] after a normal return, [X] after a throw *)

Section Triples.
Context {W E : Type}.

Definition triple {A} (P : W -> Prop) (c : M W E A) (Q : A -> W -> Prop) (X : E -> W -> Prop) : Prop :=
  forall w, P w -> match c w with (Ok a, w') => Q a w' | (Throw e, w') => X e w' end.

Lemma triple_ret {A} (a : A) (P : W -> Prop) Q X : (forall w, P w -> Q a w) -> triple P (ret a) Q X.
Proof. intros H w Hw. by apply H. Qed.

Lemma triple_throw {A} (e : E) (P : W -> Prop) Q X :
  (forall w, P w -> X e w) -> triple (A:=A) P (throw e) Q X.
Proof. intros H w Hw. by apply H. Qed.

Lemma triple_bind {A B} (c : M W E A) (k : A -> M W E B) P Q R X :
  triple P c Q X -> (forall a, triple (Q a) (k a) R X) -> triple P (bind c k) R X.
Proof.
  intros Hc Hk w Hw. unfold bind. specialize (Hc w Hw). destruct (c w) as [[a|e] w']; [|done].
  by apply Hk.
Qed.

Lemma triple_catch {A} (c : M W E A) (h : E -> M W E A) P Q X X' :
  triple P c Q X -> (forall e, triple (X e) (h e) Q X') -> triple P (catch c h) Q X'.
Proof.
  intros Hc Hh w Hw. unfold catch. specialize (Hc w Hw). destruct (c w) as [[a|e] w']; [done|].
  by apply Hh.
Qed.

Lemma triple_pre {A} (P P' : W -> Prop) (c : M W E A) Q X :
  triple P' c Q X -> (forall w, P w -> P' w) -> triple P c Q X.
Proof. intros H HP w Hw. by apply H, HP. Qed.

Lemma triple_post {A} P (c : M W E A) (Q Q' : A -> W -> Prop) X :
  triple P c Q' X -> (forall a w, Q' a w -> Q a w) -> triple P c Q X.
Proof.
  intros H HQ w Hw. specialize (H w Hw). destruct (c w) as [[a|e] w']; [|done]. by apply HQ.
Qed.

Lemma triple_modify f (P : W -> Prop) Q X : (forall w, P w -> Q tt (f w)) -> triple P (modify f) Q X.
Proof. intros H w Hw. by apply H. Qed.

Lemma triple_get (P : W -> Prop) Q X : (forall w, P w -> Q w w) -> triple P get Q X.
Proof. intros H w Hw. by apply H. Qed.

Lemma triple_lift {A} (f : W -> A * W) (P : W -> Prop) Q X :
  (forall w a w', P w -> f w = (a, w') -> Q a w') -> triple P (lift f) Q X.
Proof. intros H w Hw. unfold lift. destruct (f w) eqn:E0. by eapply H. Qed.

(** A loop keeps an invariant indexed by what it has processed. *)
Lemma triple_for_each {A} (l : list A) (f : A -> M W E unit) (I : list A -> W -> Prop) X :
  (forall done x, triple (I done) (f x) (fun _ => I (done ++ [x])) X) ->
  forall done, triple (I done) (for_each l f) (fun _ => I (done ++ l)) X.
Proof.
  intros Hf. induction l as [|x l IH]; intros done; simpl.
  - apply triple_ret. intros w. by rewrite app_nil_r.
  - eapply triple_bind; [apply Hf|]. intros []. eapply triple_post; [apply IH|].
    intros [] w. by rewrite <- app_assoc.
Qed.
End Triples.

(** Every outcome is possible after a throw: the theorems below are about
    calls that return. *)
Definition any {E W : Type} : E -> W -> Prop := fun _ _ => True.
