(* ===== verification/Json.v ===== *)
(** JSON values as the runtime handles them: tool arguments, result details
    and message metadata, with [JSON.stringify] and the canonical serializer of
    [packages/agent/src/agent-loop/message-preparation.ts]. *)
From S2P Require Import Prelude JsString.

(** A value [JSON.parse] can return.  A finite number is kept as its decimal
    text, which is what [String(n)] and [JSON.stringify] print; an object is
    the list of its properties in enumeration order. *)
Inductive json :=
  | JNull
  | JBool (b : bool)
  | JNum (repr : jsstr)
  | JStr (s : jsstr)
  | JArr (l : list json)
  | JObj (m : list (jsstr * json)).

#[export] Instance json_eq_dec : EqDecision json.
Proof.
  refine (fix go (x y : json) : Decision (x = y) :=
    match x, y with
    | JNull, JNull => left eq_refl
    | JBool a, JBool b => cast_if (decide (a = b))
    | JNum a, JNum b => cast_if (decide (a = b))
    | JStr a, JStr b => cast_if (decide (a = b))
    | JArr a, JArr b => cast_if (list_eq_dec (dec := go) a b)
    | JObj a, JObj b =>
        cast_if (list_eq_dec (dec := fun p q : jsstr * json =>
          match p, q with
          | (k, u), (l, v) =>
              match decide (k = l), go u v with
              | left e, left e' => left (f_equal2 pair e e')
              | right n, _ => right (fun e : (k, u) = (l, v) => n (f_equal fst e))
              | _, right n => right (fun e : (k, u) = (l, v) => n (f_equal snd e))
              end
          end) a b)
    | _, _ => right _
    end); congruence.
Defined.

(** [isRecord]. *)
Definition isRecord (v : json) : bool := match v with JObj _ => true | _ => false end.

(** [v[key]] on a record; [None] is [undefined]. *)
Definition get_prop (m : list (jsstr * json)) (key : jsstr) : option json :=
  match find_index (fun kv => bool_decide (kv.1 = key)) m with
  | Some i => snd <$> m !! i
  | None => None
  end.

(** [getStringValue]: a string that is not blank, trimmed. *)
Definition getStringValue (v : option json) : option jsstr :=
  match v with
  | Some (JStr s) => if is_empty (trim s) then None else Some (trim s)
  | _ => None
  end.

(** ** [JSON.stringify] *)

Definition hex4 (c : Z) : jsstr :=
  let d n := if n <? 10 then 48 + n else 87 + n in
  [d (c / 4096 mod 16); d (c / 256 mod 16); d (c / 16 mod 16); d (c mod 16)].

Definition is_surrogate_high (c : Z) : bool := (55296 <=? c) && (c <=? 56319).
Definition is_surrogate_low (c : Z) : bool := (56320 <=? c) && (c <=? 57343).

(** QuoteJSONString, without the surrounding quotes. *)
Fixpoint quote_units (s : jsstr) : jsstr :=
  match s with
  | [] => []
  | c :: s' =>
      if c =? 8 then [92; 98] ++ quote_units s'
      else if c =? 9 then [92; 116] ++ quote_units s'
      else if c =? 10 then [92; 110] ++ quote_units s'
      else if c =? 12 then [92; 102] ++ quote_units s'
      else if c =? 13 then [92; 114] ++ quote_units s'
      else if c =? 34 then [92; 34] ++ quote_units s'
      else if c =? 92 then [92; 92] ++ quote_units s'
      else if c <? 32 then [92; 117] ++ hex4 c ++ quote_units s'
      else if is_surrogate_high c then
        match s' with
        | d :: s'' => if is_surrogate_low d then c :: d :: quote_units s''
                      else [92; 117] ++ hex4 c ++ quote_units s'
        | [] => [92; 117] ++ hex4 c
        end
      else if is_surrogate_low c then [92; 117] ++ hex4 c ++ quote_units s'
      else c :: quote_units s'
  end.

Definition quote (s : jsstr) : jsstr := [34] ++ quote_units s ++ [34].

Definition bracket (op cl : Z) (items : list jsstr) : jsstr := [op] ++ join [44] items ++ [cl].

(** Atoms print alike in every serializer. *)
Definition atom_text (v : json) : jsstr :=
  match v with
  | JNull => js "null"
  | JBool true => js "true"
  | JBool false => js "false"
  | JNum r => r
  | JStr s => quote s
  | JArr _ | JObj _ => []
  end.

Fixpoint stringify (v : json) : jsstr :=
  match v with
  | JArr l => bracket 91 93 (map stringify l)
  | JObj m => bracket 123 125 (map (fun kv => quote kv.1 ++ [58] ++ stringify kv.2) m)
  | _ => atom_text v
  end.

(** ** [serializeCanonicalMisplacedToolArguments] *)

(** The entries of an object in the order of [Object.keys(v).sort()]. *)
Definition key_leb {A} (a b : jsstr * A) : bool := negb (str_ltb b.1 a.1).
Definition sort_entries {A} (m : list (jsstr * A)) : list (jsstr * A) := isort key_leb m.

Inductive frame := FText (text : jsstr) | FValue (v : json).

(** The frames an array pushes, top of the stack first. *)
Fixpoint array_frames (l : list json) : list frame :=
  match l with
  | [] => []
  | [v] => [FValue v]
  | v :: l' => FValue v :: FText [44] :: array_frames l'
  end.

Fixpoint object_frames (m : list (jsstr * json)) : list frame :=
  match m with
  | [] => []
  | [(k, v)] => [FText (quote k); FText [58]; FValue v]
  | (k, v) :: m' => FText (quote k) :: FText [58] :: FValue v :: FText [44] :: object_frames m'
  end.

(** One iteration of the [while] loop: the frame popped, the output appended
    and the frames pushed in its place. *)
Definition canonical_step (f : frame) : jsstr * list frame :=
  match f with
  | FText t => (t, [])
  | FValue (JArr l) => ([91], array_frames l ++ [FText [93]])
  | FValue (JObj m) => ([123], object_frames (sort_entries m) ++ [FText [125]])
  | FValue v => (atom_text v, [])
  end.

(** The loop, with a bound on its iterations; [None] when the bound is reached. *)
Fixpoint canonical_loop (fuel : nat) (stack : list frame) (output : jsstr) : option jsstr :=
  match stack with
  | [] => Some output
  | f :: stack' =>
      match fuel with
      | O => None
      | S fuel' =>
          let '(text, pushed) := canonical_step f in
          canonical_loop fuel' (pushed ++ stack') (output ++ text)
      end
  end.

(** Reference definition: the text by recursion on the value. *)
Fixpoint canonical_text (v : json) : jsstr :=
  match v with
  | JArr l => bracket 91 93 (map canonical_text l)
  | JObj m =>
      bracket 123 125
        (map (fun kt => quote kt.1 ++ [58] ++ kt.2)
           (sort_entries (map (fun kv => (kv.1, canonical_text kv.2)) m)))
  | _ => atom_text v
  end.

(** Iterations the loop needs for a value. *)
Fixpoint canonical_cost (v : json) : nat :=
  match v with
  | JArr l => S (S (list_sum (map (fun x => S (canonical_cost x)) l)))
  | JObj m => S (S (list_sum (map (fun kv => S (S (S (canonical_cost kv.2)))) m)))
  | _ => 1
  end.

Definition serializeCanonicalMisplacedToolArguments (m : list (jsstr * json)) : option jsstr :=
  canonical_loop (canonical_cost (JObj m)) [FValue (JObj m)] [].

(** ** Induction on values *)

Section JsonInd.
Context (P : json -> Prop).
Hypothesis Hatom : forall v, (forall l, v <> JArr l) -> (forall m, v <> JObj m) -> P v.
Hypothesis Harr : forall l, Forall P l -> P (JArr l).
Hypothesis Hobj : forall m, Forall (fun kv => P kv.2) m -> P (JObj m).

Fixpoint json_nested_ind (v : json) : P v :=
  match v with
  | JArr l => Harr l (list_ind (Forall P) (Forall_nil_2 P)
      (fun x l' IH => Forall_cons_2 P x l' (json_nested_ind x) IH) l)
  | JObj m => Hobj m (list_ind (Forall (fun kv => P kv.2)) (Forall_nil_2 _)
      (fun kv m' IH => Forall_cons_2 _ kv m' (json_nested_ind kv.2) IH) m)
  | JNull => Hatom JNull (fun l => ltac:(done)) (fun m => ltac:(done))
  | JBool b => Hatom (JBool b) (fun l => ltac:(done)) (fun m => ltac:(done))
  | JNum r => Hatom (JNum r) (fun l => ltac:(done)) (fun m => ltac:(done))
  | JStr s => Hatom (JStr s) (fun l => ltac:(done)) (fun m => ltac:(done))
  end.
End JsonInd.

(** ** The stack machine computes the canonical text *)

Definition frame_text (f : frame) : jsstr :=
  match f with FText t => t | FValue v => canonical_text v end.

(** [n] iterations print the frames [fs] and leave what is below them. *)
Definition runs (n : nat) (fs : list frame) : Prop :=
  forall fuel rest output,
    canonical_loop (n + fuel) (fs ++ rest) output
    = canonical_loop fuel rest (output ++ concat (map frame_text fs)).

Lemma runs_nil : runs 0 [].
Proof. intros fuel rest output. simpl. by rewrite app_nil_r. Qed.

Lemma runs_text t : runs 1 [FText t].
Proof. intros fuel rest output. simpl. by rewrite app_nil_r. Qed.

Lemma runs_app n m fs gs : runs n fs -> runs m gs -> runs (n + m) (fs ++ gs).
Proof.
  intros Hn Hm fuel rest output. rewrite <- Nat.add_assoc, <- app_assoc, Hn, Hm.
  by rewrite map_app, concat_app, app_assoc.
Qed.

Lemma runs_step v n text pushed :
  canonical_step (FValue v) = (text, pushed) -> runs n pushed ->
  canonical_text v = text ++ concat (map frame_text pushed) -> runs (S n) [FValue v].
Proof.
  intros Hs Hr Ht fuel rest output. simpl. simpl in Hs. rewrite Hs. rewrite Hr.
  by rewrite app_nil_r, Ht, app_assoc.
Qed.

Lemma array_frames_text l : concat (map frame_text (array_frames l)) = join [44] (map canonical_text l).
Proof.
  induction l as [|v l IH]; [done|]. destruct l as [|w l]; [simpl; by rewrite app_nil_r|].
  change (array_frames (v :: w :: l)) with (FValue v :: FText [44] :: array_frames (w :: l)).
  cbn [map concat frame_text]. by rewrite IH.
Qed.

Lemma object_frames_text m :
  concat (map frame_text (object_frames m))
  = join [44] (map (fun kv => quote kv.1 ++ [58] ++ canonical_text kv.2) m).
Proof.
  induction m as [|[k v] m IH]; [done|].
  destruct m as [|[k' v'] m]; [simpl; by rewrite app_nil_r|].
  change (object_frames ((k, v) :: (k', v') :: m)) with
    (FText (quote k) :: FText [58] :: FValue v :: FText [44] :: object_frames ((k', v') :: m)).
  cbn [map concat frame_text]. rewrite IH. cbn [map]. rewrite join_cons2. cbn [fst snd].
  by rewrite <- !app_assoc.
Qed.

Lemma array_frames_runs l :
  Forall (fun v => exists n, (n <= canonical_cost v)%nat /\ runs n [FValue v]) l ->
  exists n, (n <= list_sum (map (fun x => S (canonical_cost x)) l))%nat /\ runs n (array_frames l).
Proof.
  induction 1 as [|v l (n & Hn & Hr) Hl (k & Hk & Hrk)]; [by exists 0%nat; auto using runs_nil|].
  destruct l as [|w l]; [exists n; simpl in *; split; [lia|done]|].
  exists (n + (1 + k))%nat. split; [simpl in *; lia|].
  apply (runs_app n (1 + k) [FValue v]); [done|]. apply (runs_app 1 k [FText [44]]); [apply runs_text|done].
Qed.

Lemma object_frames_runs m :
  Forall (fun kv => exists n, (n <= canonical_cost kv.2)%nat /\ runs n [FValue kv.2]) m ->
  exists n, (n <= list_sum (map (fun kv => S (S (S (canonical_cost kv.2)))) m))%nat /\
    runs n (object_frames m).
Proof.
  induction 1 as [|[k v] m (n & Hn & Hr) Hl (j & Hj & Hrj)]; [by exists 0%nat; auto using runs_nil|].
  assert (Hkv : runs (1 + (1 + n)) [FText (quote k); FText [58]; FValue v]).
  { apply (runs_app 1 (1 + n) [_]); [apply runs_text|]. apply (runs_app 1 n [_]); [apply runs_text|done]. }
  destruct m as [|[k' v'] m]; [exists (1 + (1 + n))%nat; simpl in *; split; [lia|done]|].
  exists ((1 + (1 + n)) + (1 + j))%nat. split; [simpl in *; lia|].
  apply (runs_app _ (1 + j) [_; _; _]); [done|]. apply (runs_app 1 j [_]); [apply runs_text|done].
Qed.

Lemma list_sum_Permutation (l k : list nat) : l ≡ₚ k -> list_sum l = list_sum k.
Proof. induction 1; simpl in *; lia. Qed.

Lemma canonical_runs v : exists n, (n <= canonical_cost v)%nat /\ runs n [FValue v].
Proof.
  induction v as [v Ha Ho|l IH|m IH] using json_nested_ind.
  - exists 1%nat. split; [destruct v; simpl; lia|].
    apply (runs_step v 0 (atom_text v) []); [|apply runs_nil|rewrite app_nil_r];
      destruct v; try done; try (by destruct (Ha l)); by destruct (Ho m).
  - destruct (array_frames_runs l IH) as (n & Hn & Hr). exists (S (n + 1)). split; [simpl; lia|].
    eapply (runs_step (JArr l)); [reflexivity|apply runs_app; [exact Hr|apply runs_text]|].
    rewrite map_app, concat_app, array_frames_text. reflexivity.
  - destruct (object_frames_runs (sort_entries m)) as (n & Hn & Hr).
    { by rewrite (isort_Permutation key_leb m). }
    exists (S (n + 1)). split.
    { simpl. rewrite (list_sum_Permutation _ (map (fun kv => S (S (S (canonical_cost kv.2)))) m)) in Hn; [lia|].
      by rewrite (isort_Permutation key_leb m). }
    eapply (runs_step (JObj m)); [reflexivity|apply runs_app; [exact Hr|apply runs_text]|].
    rewrite map_app, concat_app, object_frames_text. cbn [map concat frame_text canonical_text]. rewrite app_nil_r.
    unfold bracket, sort_entries. do 3 f_equal.
    rewrite (isort_map key_leb key_leb) by done. by rewrite map_map.
Qed.

(** The serializer with its explicit stack terminates on every record and
    prints exactly the recursive canonical text: same brackets and separators,
    entries sorted by key at every depth. *)
Theorem serializeCanonical_correct m :
  serializeCanonicalMisplacedToolArguments m = Some (canonical_text (JObj m)).
Proof.
  unfold serializeCanonicalMisplacedToolArguments.
  destruct (canonical_runs (JObj m)) as (n & Hn & Hr).
  replace (canonical_cost (JObj m)) with (n + (canonical_cost (JObj m) - n))%nat by lia.
  rewrite (Hr _ [] []). cbn [map concat frame_text app]. rewrite app_nil_r. by destruct (_ - n)%nat.
Qed.
