(* ===== verification/JsonParse.v ===== *)
(** [JSON.parse]: the grammar of JSON texts over code units, the object an
    object literal builds (duplicate keys, enumeration order), and the round
    trip with [JSON.stringify]. *)
From S2P Require Import Prelude JsString Json.

(** ** Tokens *)

(** JSON white space. *)
Definition is_json_space (c : Z) : bool := (c =? 9) || (c =? 10) || (c =? 13) || (c =? 32).

Fixpoint skip_ws (s : jsstr) : jsstr :=
  match s with
  | c :: s' => if is_json_space c then skip_ws s' else s
  | [] => []
  end.

Definition is_digit (c : Z) : bool := (48 <=? c) && (c <=? 57).

Definition hex_value (c : Z) : option Z :=
  if is_digit c then Some (c - 48)
  else if (97 <=? c) && (c <=? 102) then Some (c - 87)
  else if (65 <=? c) && (c <=? 70) then Some (c - 55)
  else None.

Definition hex4_value (a b c d : Z) : option Z :=
  match hex_value a, hex_value b, hex_value c, hex_value d with
  | Some x, Some y, Some z, Some w => Some (x * 4096 + y * 256 + z * 16 + w)
  | _, _, _, _ => None
  end.

(** The unit after a backslash, other than [u]. *)
Definition unescape (e : Z) : option Z :=
  if (e =? 34) || (e =? 92) || (e =? 47) then Some e
  else if e =? 98 then Some 8
  else if e =? 102 then Some 12
  else if e =? 110 then Some 10
  else if e =? 114 then Some 13
  else if e =? 116 then Some 9
  else None.

(** A string after its opening quote: the value and what follows the closing
    quote. *)
Fixpoint parse_string (s : jsstr) : option (jsstr * jsstr) :=
  match s with
  | [] => None
  | c :: s' =>
      if c =? 34 then Some ([], s')
      else if c =? 92 then
        match s' with
        | e :: s'' =>
            if e =? 117 then
              match s'' with
              | a :: b :: d :: f :: r =>
                  match hex4_value a b d f, parse_string r with
                  | Some x, Some (t, rest) => Some (x :: t, rest)
                  | _, _ => None
                  end
              | _ => None
              end
            else
              match unescape e, parse_string s'' with
              | Some x, Some (t, rest) => Some (x :: t, rest)
              | _, _ => None
              end
        | [] => None
        end
      else if c <? 32 then None
      else match parse_string s' with
           | Some (t, rest) => Some (c :: t, rest)
           | None => None
           end
  end.

(** The longest prefix of digits. *)
Fixpoint take_digits (s : jsstr) : jsstr * jsstr :=
  match s with
  | c :: s' => if is_digit c then let '(d, r) := take_digits s' in (c :: d, r) else ([], s)
  | [] => ([], [])
  end.

(** [int]: a zero, or digits that do not start with one. *)
Definition parse_int (s : jsstr) : option (jsstr * jsstr) :=
  match s with
  | c :: s' =>
      if c =? 48 then Some ([48], s')
      else if is_digit c then Some (take_digits s) else None
  | [] => None
  end.

Definition parse_frac (s : jsstr) : option (jsstr * jsstr) :=
  match s with
  | c :: s' =>
      if c =? 46 then
        let '(d, r) := take_digits s' in if is_empty d then None else Some (46 :: d, r)
      else Some ([], s)
  | [] => Some ([], [])
  end.

Definition parse_sign (s : jsstr) : jsstr * jsstr :=
  match s with
  | c :: s' => if (c =? 43) || (c =? 45) then ([c], s') else ([], s)
  | [] => ([], [])
  end.

Definition parse_exp (s : jsstr) : option (jsstr * jsstr) :=
  match s with
  | c :: s' =>
      if (c =? 101) || (c =? 69) then
        let '(g, r) := parse_sign s' in
        let '(d, r') := take_digits r in
        if is_empty d then None else Some (c :: g ++ d, r')
      else Some ([], s)
  | [] => Some ([], [])
  end.

Definition parse_minus (s : jsstr) : jsstr * jsstr :=
  match s with
  | c :: s' => if c =? 45 then ([45], s') else ([], s)
  | [] => ([], [])
  end.

(** A number literal and what follows it. *)
Definition parse_number (s : jsstr) : option (jsstr * jsstr) :=
  let '(m, s0) := parse_minus s in
  match parse_int s0 with
  | None => None
  | Some (i, s1) =>
      match parse_frac s1 with
      | None => None
      | Some (f, s2) =>
          match parse_exp s2 with
          | None => None
          | Some (e, s3) => Some (m ++ i ++ f ++ e, s3)
          end
      end
  end.

(** ** Objects *)

(** Decimal value of a text of digits. *)
Definition digits_value (s : jsstr) : Z := fold_left (fun n c => n * 10 + (c - 48)) s 0.

(** An array index: a canonical decimal text below 2^32 - 1. *)
Definition array_index (k : jsstr) : option Z :=
  match parse_int k with
  | Some (_, []) => if digits_value k <? 2 ^ 32 - 1 then Some (digits_value k) else None
  | _ => None
  end.

(** [o[k] = v]: an existing property keeps its place; array indices come first
    in ascending order, other keys in the order of their creation. *)
Fixpoint insert_index {A} (n : Z) (k : jsstr) (v : A) (m : list (jsstr * A)) : list (jsstr * A) :=
  match m with
  | [] => [(k, v)]
  | (k', v') :: m' =>
      match array_index k' with
      | Some n' => if n' <? n then (k', v') :: insert_index n k v m' else (k, v) :: m
      | None => (k, v) :: m
      end
  end.

Fixpoint replace_prop {A} (k : jsstr) (v : A) (m : list (jsstr * A)) : list (jsstr * A) :=
  match m with
  | [] => []
  | (k', v') :: m' => if bool_decide (k' = k) then (k, v) :: m' else (k', v') :: replace_prop k v m'
  end.

Definition has_key {A} (k : jsstr) (m : list (jsstr * A)) : bool :=
  existsb (fun kv => bool_decide (kv.1 = k)) m.

Definition define_prop {A} (k : jsstr) (v : A) (m : list (jsstr * A)) : list (jsstr * A) :=
  if has_key k m then replace_prop k v m
  else match array_index k with
       | Some n => insert_index n k v m
       | None => m ++ [(k, v)]
       end.

(** ** Values *)

Section Parse.
(** [String(Number(literal))]: the text of the number a literal denotes. *)
Context (number_text : jsstr -> jsstr).

Definition strip_prefix (p s : jsstr) : option jsstr :=
  if bool_decide (take (length p) s = p) then Some (drop (length p) s) else None.

Definition parse_atom (s : jsstr) : option (json * jsstr) :=
  match strip_prefix (js "null") s with
  | Some r => Some (JNull, r)
  | None =>
      match strip_prefix (js "true") s with
      | Some r => Some (JBool true, r)
      | None =>
          match strip_prefix (js "false") s with
          | Some r => Some (JBool false, r)
          | None =>
              match parse_number s with
              | Some (lit, r) => Some (JNum (number_text lit), r)
              | None => None
              end
          end
      end
  end.

(** The three functions share a bound on the depth of their calls. *)
Fixpoint parse_value (fuel : nat) (s : jsstr) : option (json * jsstr) :=
  match fuel with
  | O => None
  | S fuel' =>
      match skip_ws s with
      | [] => None
      | c :: r =>
          if c =? 123 then
            match skip_ws r with
            | d :: r' => if d =? 125 then Some (JObj [], r') else parse_members fuel' r []
            | [] => None
            end
          else if c =? 91 then
            match skip_ws r with
            | d :: r' => if d =? 93 then Some (JArr [], r') else parse_elements fuel' r []
            | [] => None
            end
          else if c =? 34 then
            match parse_string r with Some (t, r') => Some (JStr t, r') | None => None end
          else parse_atom (c :: r)
      end
  end
with parse_elements (fuel : nat) (s : jsstr) (acc : list json) : option (json * jsstr) :=
  match fuel with
  | O => None
  | S fuel' =>
      match parse_value fuel' s with
      | None => None
      | Some (v, r) =>
          match skip_ws r with
          | d :: r' =>
              if d =? 44 then parse_elements fuel' r' (acc ++ [v])
              else if d =? 93 then Some (JArr (acc ++ [v]), r')
              else None
          | [] => None
          end
      end
  end
with parse_members (fuel : nat) (s : jsstr) (acc : list (jsstr * json)) : option (json * jsstr) :=
  match fuel with
  | O => None
  | S fuel' =>
      match skip_ws s with
      | q :: r =>
          if q =? 34 then
            match parse_string r with
            | None => None
            | Some (k, r1) =>
                match skip_ws r1 with
                | c :: r2 =>
                    if c =? 58 then
                      match parse_value fuel' r2 with
                      | None => None
                      | Some (v, r3) =>
                          match skip_ws r3 with
                          | d :: r4 =>
                              if d =? 44 then parse_members fuel' r4 (define_prop k v acc)
                              else if d =? 125 then Some (JObj (define_prop k v acc), r4)
                              else None
                          | [] => None
                          end
                      end
                    else None
                | [] => None
                end
            end
          else None
      | [] => None
      end
  end.

(** Each call is on a strictly shorter text, or on the same text from an
    element to its value. *)
Definition parse_fuel (s : jsstr) : nat := 2 * length s + 2.

(** [JSON.parse(s)]; [None] is the [SyntaxError]. *)
Definition json_parse (s : jsstr) : option json :=
  match parse_value (parse_fuel s) s with
  | Some (v, r) => if is_empty (skip_ws r) then Some v else None
  | None => None
  end.
End Parse.

(** A text written with apostrophes for its quotes. *)
Definition quoted (s : string) : jsstr := map (fun c => if c =? 39 then 34 else c) (js s).

Example json_parse_object :
  json_parse id (quoted "{ 'b' : [1, -2.5e3, null], '7':true,'a':'x\n', 'b':false}")
  = Some (JObj [(js "7", JBool true); (js "b", JBool false); (js "a", JStr [120; 10])]).
Proof. vm_compute. reflexivity. Qed.

(** ** The fuel is enough *)

Lemma skip_ws_length s : (length (skip_ws s) <= length s)%nat.
Proof. induction s as [|c s IH]; simpl; [lia|]. destruct (is_json_space c); simpl; lia. Qed.

Lemma parse_string_length s t r : parse_string s = Some (t, r) -> (length r < length s)%nat.
Proof.
  revert t r. induction s as [s IH] using (induction_ltof1 _ (@length Z)); unfold ltof in IH.
  intros t r. destruct s as [|c s]; [done|]. cbn [parse_string].
  repeat case_if; try done.
  - intros [= <- <-]. simpl. lia.
  - destruct s as [|e s]; [done|]. case_if.
    + destruct s as [|a [|b [|d [|f s]]]]; try done. destruct (hex4_value a b d f); [|done].
      destruct (parse_string s) as [[t' r']|] eqn:E; [|done]. intros [= <- <-].
      apply IH in E; simpl in *; lia.
    + destruct (unescape e); [|done]. destruct (parse_string s) as [[t' r']|] eqn:E; [|done]. intros [= <- <-].
      apply IH in E; simpl in *; lia.
  - destruct (parse_string s) as [[t' r']|] eqn:E; [|done]. intros [= <- <-]. apply IH in E; simpl in *; lia.
Qed.

Lemma take_digits_app s : (take_digits s).1 ++ (take_digits s).2 = s.
Proof. induction s as [|c s IH]; [done|]. simpl. case_if; [|done]. destruct (take_digits s). simpl in *. by rewrite IH. Qed.

(** A sub-parser splits its input. *)
Definition splits (f : jsstr -> option (jsstr * jsstr)) : Prop :=
  forall s t r, f s = Some (t, r) -> s = t ++ r.

Lemma take_digits_split s d r : take_digits s = (d, r) -> s = d ++ r.
Proof. intros E. pose proof (take_digits_app s) as H. rewrite E in H. done. Qed.

Lemma parse_int_split : splits parse_int.
Proof.
  intros [|c s] t r; [done|]. unfold parse_int. repeat case_if; bool_hyps; intros H; try done.
  - injection H as <- <-. by subst.
  - injection H as H. by apply take_digits_split.
Qed.

Lemma parse_frac_split : splits parse_frac.
Proof.
  intros [|c s] t r; [by intros [= <- <-]|]. unfold parse_frac. case_if; bool_hyps; [|by intros [= <- <-]].
  destruct (take_digits s) as [d r'] eqn:E. apply take_digits_split in E. case_if; [done|].
  intros [= <- <-]. subst. done.
Qed.

Lemma parse_exp_split : splits parse_exp.
Proof.
  intros [|c s] t r; [by intros [= <- <-]|]. unfold parse_exp. case_if; [|by intros [= <- <-]].
  destruct (parse_sign s) as [g r'] eqn:Eg. destruct (take_digits r') as [d r''] eqn:E.
  apply take_digits_split in E. case_if; [done|]. intros [= <- <-]. subst. simpl. f_equal.
  rewrite <- app_assoc. destruct s as [|x s]; [by injection Eg as <- <-|].
  unfold parse_sign in Eg. case_if_in Eg; injection Eg as <- <-; done.
Qed.

Lemma parse_number_length s t r : parse_number s = Some (t, r) -> (length r < length s)%nat.
Proof.
  unfold parse_number. destruct (parse_minus s) as [m s0] eqn:Em.
  assert (Hm : (length s0 <= length s)%nat).
  { destruct s as [|c s]; [by injection Em as <- <-|]. unfold parse_minus in Em. case_if_in Em; injection Em as <- <-; simpl; lia. }
  destruct (parse_int s0) as [[i s1]|] eqn:Ei; [|done].
  destruct (parse_frac s1) as [[f s2]|] eqn:Ef; [|done].
  destruct (parse_exp s2) as [[e s3]|] eqn:Ee; [|done]. intros [= <- <-].
  assert (Hi : (length s1 < length s0)%nat).
  { destruct s0 as [|c s0]; [done|]. unfold parse_int in Ei. repeat case_if_in Ei; try done.
    - injection Ei as <- <-. simpl. lia.
    - injection Ei as Ei. simpl in Ei. rewrite Heqb0 in Ei. destruct (take_digits s0) as [d r'] eqn:E.
      apply take_digits_split in E. injection Ei as <- <-. subst. simpl. rewrite length_app. lia. }
  apply parse_frac_split in Ef. apply parse_exp_split in Ee. subst. rewrite !length_app in *. lia.
Qed.

Lemma strip_prefix_Some p s r : strip_prefix p s = Some r <-> s = p ++ r.
Proof.
  unfold strip_prefix. case_bool_decide as H.
  - split; [intros [= <-]; rewrite <- H at 1; by rewrite take_drop|].
    intros ->. by rewrite drop_app_length.
  - split; [done|]. intros ->. destruct H. by rewrite take_app_length.
Qed.

Section Fuel.
Context (number_text : jsstr -> jsstr).
Abbreviation value := (parse_value number_text).
Abbreviation elements := (parse_elements number_text).
Abbreviation members := (parse_members number_text).

Lemma parse_atom_length s v r : parse_atom number_text s = Some (v, r) -> (length r < length s)%nat.
Proof.
  unfold parse_atom.
  destruct (strip_prefix (js "null") s) as [r'|] eqn:E; [intros [= <- <-]; apply strip_prefix_Some in E; subst; simpl; lia|].
  destruct (strip_prefix (js "true") s) as [r'|] eqn:E1; [intros [= <- <-]; apply strip_prefix_Some in E1; subst; simpl; lia|].
  destruct (strip_prefix (js "false") s) as [r'|] eqn:E2; [intros [= <- <-]; apply strip_prefix_Some in E2; subst; simpl; lia|].
  destruct (parse_number s) as [[lit r']|] eqn:E3; [|done]. intros [= <- <-]. by eapply parse_number_length.
Qed.

(** What is left after white space is no longer. *)
Lemma skip_ws_shorter s c r : skip_ws s = c :: r -> (length r < length s)%nat.
Proof. intros E. pose proof (skip_ws_length s) as H. rewrite E in H. simpl in H. lia. Qed.

(** Every parser consumes something. *)
Definition consumes {A} (f : jsstr -> option (A * jsstr)) : Prop :=
  forall s v r, f s = Some (v, r) -> (length r < length s)%nat.

Lemma parsers_consume fuel :
  consumes (value fuel) /\ (forall acc, consumes (fun s => elements fuel s acc)) /\
  (forall acc, consumes (fun s => members fuel s acc)).
Proof.
  induction fuel as [|fuel (IHv & IHe & IHm)]; [done|]. split_and!.
  - intros s v r. cbn [parse_value]. destruct (skip_ws s) as [|c s1] eqn:E1; [done|].
    pose proof (skip_ws_shorter s c s1 E1). repeat case_if.
    + destruct (skip_ws s1) as [|d s2] eqn:E2; [done|]. pose proof (skip_ws_shorter s1 d s2 E2). case_if.
      * intros [= <- <-]. lia.
      * intros H'%IHm. lia.
    + destruct (skip_ws s1) as [|d s2] eqn:E2; [done|]. pose proof (skip_ws_shorter s1 d s2 E2). case_if.
      * intros [= <- <-]. lia.
      * intros H'%IHe. lia.
    + destruct (parse_string s1) as [[t r']|] eqn:E; [|done]. intros [= <- <-]. apply parse_string_length in E. lia.
    + intros H'%parse_atom_length. simpl in H'. lia.
  - intros acc s v r. cbn [parse_elements]. destruct (value fuel s) as [[w r1]|] eqn:E1; [|done]. apply IHv in E1.
    destruct (skip_ws r1) as [|d r2] eqn:E2; [done|]. pose proof (skip_ws_shorter r1 d r2 E2). repeat case_if; try done.
    + intros H'%IHe. lia.
    + intros [= <- <-]. lia.
  - intros acc s v r. cbn [parse_members]. destruct (skip_ws s) as [|q s1] eqn:E1; [done|].
    pose proof (skip_ws_shorter s q s1 E1). case_if; [|done].
    destruct (parse_string s1) as [[k s2]|] eqn:E2; [|done]. apply parse_string_length in E2.
    destruct (skip_ws s2) as [|c s3] eqn:E3; [done|]. pose proof (skip_ws_shorter s2 c s3 E3). case_if; [|done].
    destruct (value fuel s3) as [[w s4]|] eqn:E4; [|done]. apply IHv in E4.
    destruct (skip_ws s4) as [|d s5] eqn:E5; [done|]. pose proof (skip_ws_shorter s4 d s5 E5). repeat case_if; try done.
    + intros H'%IHm. lia.
    + intros [= <- <-]. lia.
Qed.

(** Fuel beyond the bound changes nothing, so [None] is a syntax error. *)
Lemma parse_stable n : forall s f g, (length s <= n)%nat ->
  ((2 * length s + 1 <= f)%nat -> (2 * length s + 1 <= g)%nat -> value f s = value g s) /\
  ((2 * length s + 2 <= f)%nat -> (2 * length s + 2 <= g)%nat -> forall acc, elements f s acc = elements g s acc) /\
  ((2 * length s + 2 <= f)%nat -> (2 * length s + 2 <= g)%nat -> forall acc, members f s acc = members g s acc).
Proof.
  induction n as [n IH] using lt_wf_ind. intros s f g Hn.
  assert (Hv : forall f g, (2 * length s + 1 <= f)%nat -> (2 * length s + 1 <= g)%nat -> value f s = value g s).
  { intros [|f'] [|g'] Hf Hg; try lia. cbn [parse_value]. destruct (skip_ws s) as [|c s1] eqn:E1; [done|].
    pose proof (skip_ws_shorter s c s1 E1). destruct (IH (length s1) ltac:(lia) s1 f' g' ltac:(lia)) as (_ & He & Hm).
    rewrite He, Hm by lia. done. }
  split_and!; [apply Hv| |].
  - destruct f as [|f], g as [|g]; try lia. intros Hf Hg acc. cbn [parse_elements]. rewrite (Hv f g) by lia.
    destruct (value g s) as [[w r1]|] eqn:E; [|done]. apply (proj1 (parsers_consume g)) in E.
    destruct (skip_ws r1) as [|d r2] eqn:E2; [done|]. pose proof (skip_ws_shorter r1 d r2 E2).
    destruct (IH (length r2) ltac:(lia) r2 f g ltac:(lia)) as (_ & He & _). by rewrite He by lia.
  - destruct f as [|f], g as [|g]; try lia. intros Hf Hg acc. cbn [parse_members].
    destruct (skip_ws s) as [|q s1] eqn:E1; [done|]. pose proof (skip_ws_shorter s q s1 E1). case_if; [|done].
    destruct (parse_string s1) as [[k s2]|] eqn:E2; [|done]. apply parse_string_length in E2.
    destruct (skip_ws s2) as [|c s3] eqn:E3; [done|]. pose proof (skip_ws_shorter s2 c s3 E3). case_if; [|done].
    destruct (IH (length s3) ltac:(lia) s3 f g ltac:(lia)) as (Hv3 & _ & _). rewrite Hv3 by lia.
    destruct (value g s3) as [[w s4]|] eqn:E4; [|done]. apply (proj1 (parsers_consume g)) in E4.
    destruct (skip_ws s4) as [|d s5] eqn:E5; [done|]. pose proof (skip_ws_shorter s4 d s5 E5).
    destruct (IH (length s5) ltac:(lia) s5 f g ltac:(lia)) as (_ & _ & Hm). by rewrite Hm by lia.
Qed.

Lemma parse_mono_1 f :
  (forall s x, value f s = Some x -> value (S f) s = Some x) /\
  (forall s acc x, elements f s acc = Some x -> elements (S f) s acc = Some x) /\
  (forall s acc x, members f s acc = Some x -> members (S f) s acc = Some x).
Proof.
  induction f as [|f (IHv & IHe & IHm)]; [done|]. split_and!.
  - intros s x. cbn [parse_value]. destruct (skip_ws s) as [|c s1]; [done|]. repeat case_if; try done.
    + destruct (skip_ws s1); [done|]. case_if; [done|apply IHm].
    + destruct (skip_ws s1); [done|]. case_if; [done|apply IHe].
  - intros s acc x. cbn [parse_elements]. destruct (value f s) as [[w r]|] eqn:E; [|done].
    rewrite (IHv _ _ E). destruct (skip_ws r); [done|]. repeat case_if; try done. apply IHe.
  - intros s acc x. cbn [parse_members]. destruct (skip_ws s) as [|q s1]; [done|]. case_if; [|done].
    destruct (parse_string s1) as [[k s2]|]; [|done]. destruct (skip_ws s2) as [|c s3]; [done|]. case_if; [|done].
    destruct (value f s3) as [[w s4]|] eqn:E; [|done]. rewrite (IHv _ _ E).
    destruct (skip_ws s4); [done|]. repeat case_if; try done. apply IHm.
Qed.

Lemma parse_mono f g : (f <= g)%nat ->
  (forall s x, value f s = Some x -> value g s = Some x) /\
  (forall s acc x, elements f s acc = Some x -> elements g s acc = Some x) /\
  (forall s acc x, members f s acc = Some x -> members g s acc = Some x).
Proof.
  induction 1 as [|g _ (IHv & IHe & IHm)]; [done|]. destruct (parse_mono_1 g) as (Hv & He & Hm). split_and!; auto.
Qed.

Lemma parse_fuel_enough s f x : value f s = Some x -> value (parse_fuel s) s = Some x.
Proof.
  intros H. destruct (parse_stable (length s) s (parse_fuel s) (parse_fuel s + f) ltac:(lia)) as (E & _ & _).
  rewrite E by (unfold parse_fuel; lia). by apply (proj1 (parse_mono f (parse_fuel s + f) ltac:(lia))).
Qed.
End Fuel.

(** ** Round trip *)

(** An object whose properties, added in that order, enumerate in that order. *)
Definition enum_ok {A} (m : list (jsstr * A)) : Prop :=
  forall pre k v post, m = pre ++ (k, v) :: post -> define_prop k v pre = pre ++ [(k, v)].

Lemma has_key_elem {A} k (m : list (jsstr * A)) : has_key k m = true <-> k ∈ m.*1.
Proof.
  unfold has_key. rewrite existsb_exists. rewrite list_elem_of_fmap. split.
  - intros ([k' v] & Hin & H%bool_decide_eq_true). exists (k', v). split; [done|]. by apply list_elem_of_In.
  - intros ([k' v] & -> & Hin). exists (k', v). split; [by apply list_elem_of_In|by apply bool_decide_eq_true].
Qed.

(** Distinct keys that are not array indices: the usual record. *)
Definition plain_keys (ks : list jsstr) : Prop := NoDup ks /\ Forall (fun k => array_index k = None) ks.

Lemma plain_enum_ok {A} (m : list (jsstr * A)) : plain_keys m.*1 -> enum_ok m.
Proof.
  intros [Hnd Hpl] pre k v post ->. rewrite fmap_app in *. simpl in *.
  apply NoDup_app in Hnd as (_ & Hnew & _). apply Forall_app in Hpl as [_ Hk]. inversion Hk as [|? ? Hi _]; subst.
  unfold define_prop. rewrite Hi. destruct (has_key k pre) eqn:E; [|done].
  apply has_key_elem in E. destruct (Hnew k E). set_solver.
Qed.

Section RoundTrip.
Context (number_text : jsstr -> jsstr).

(** The text of a number: a literal that denotes the number it prints. *)
Definition number_ok (r : jsstr) : Prop := parse_number r = Some (r, []) /\ number_text r = r.

(** Values as [JSON.parse] and the code build them. *)
Inductive json_ok : json -> Prop :=
  | ok_null : json_ok JNull
  | ok_bool b : json_ok (JBool b)
  | ok_num r : number_ok r -> json_ok (JNum r)
  | ok_str s : wf_str s -> json_ok (JStr s)
  | ok_arr l : Forall json_ok l -> json_ok (JArr l)
  | ok_obj m : enum_ok m -> Forall (fun kv => wf_str kv.1 /\ json_ok kv.2) m -> json_ok (JObj m).

Lemma hex_value_digit n : 0 <= n < 16 -> hex_value (if n <? 10 then 48 + n else 87 + n) = Some n.
Proof.
  intros Hn. assert (H : Forall (fun n => hex_value (if n <? 10 then 48 + n else 87 + n) = Some n) (seqZ 0 16)) by (repeat constructor).
  rewrite Forall_forall in H. apply H, elem_of_seqZ. lia.
Qed.

Lemma hex4_roundtrip c a b d e : 0 <= c < 65536 -> hex4 c = [a; b; d; e] -> hex4_value a b d e = Some c.
Proof.
  intros Hc [= <- <- <- <-]. unfold hex4_value.
  rewrite !hex_value_digit by (apply Z.mod_pos_bound; lia). f_equal.
  pose proof (Z.div_mod c 16). pose proof (Z.div_mod (c / 16) 16). pose proof (Z.div_mod (c / 256) 16).
  assert (c / 16 / 16 = c / 256) by (by rewrite Z.div_div by lia).
  assert (c / 256 / 16 = c / 4096) by (by rewrite Z.div_div by lia).
  assert (c / 4096 mod 16 = c / 4096) by (apply Z.mod_small; split; [apply Z.div_pos; lia|apply Z.div_lt_upper_bound; lia]).
  lia.
Qed.

Lemma parse_string_hex c rest t r :
  0 <= c < 65536 -> parse_string rest = Some (t, r) ->
  parse_string ([92; 117] ++ hex4 c ++ rest) = Some (c :: t, r).
Proof.
  intros Hc E. pose proof (hex4_roundtrip c) as H. destruct (hex4 c) as [|a [|b [|d [|e [|]]]]] eqn:Eh; try done.
  cbn. by rewrite (H _ _ _ _ Hc eq_refl), E.
Qed.

Lemma parse_string_plain c s t r :
  32 <= c -> c <> 34 -> c <> 92 -> parse_string s = Some (t, r) -> parse_string (c :: s) = Some (c :: t, r).
Proof. intros H1 H2 H3 E. cbn. repeat case_if; bool_hyps; try lia. by rewrite E. Qed.

Lemma parse_string_quote s rest : wf_str s -> parse_string (quote_units s ++ 34 :: rest) = Some (s, rest).
Proof.
  induction s as [s IH] using (induction_ltof1 _ (@length Z)); unfold ltof in IH. intros Hwf.
  destruct s as [|c s]; [done|]. inversion Hwf as [|? ? Hc Hs]; subst.
  assert (IH1 : parse_string (quote_units s ++ 34 :: rest) = Some (s, rest)) by (apply IH; [simpl; lia|done]).
  cbn [quote_units]. repeat (case_if; [bool_hyps; subst; try rewrite <- !app_assoc;
    first [apply (parse_string_hex c); [lia|done] | cbn; by rewrite IH1 | idtac]|]).
  - destruct s as [|d s].
    + rewrite <- app_assoc. by apply parse_string_hex.
    + case_if; [|rewrite <- !app_assoc; by apply parse_string_hex].
      unfold is_surrogate_high, is_surrogate_low in *. bool_hyps. inversion Hs as [|? ? Hd Hs']; subst.
      cbn [app]. apply (parse_string_plain c); [lia|lia|lia|]. apply parse_string_plain; [lia|lia|lia|].
      apply IH; [simpl; lia|done].
  - bool_hyps. by apply parse_string_plain; [lia..|].
Qed.

(** A number literal ends here: no digit, point or exponent follows. *)
Definition ends_number (rest : jsstr) : Prop :=
  match rest with
  | [] => True
  | c :: _ => is_digit c = false /\ c <> 46 /\ c <> 101 /\ c <> 69
  end.

Lemma take_digits_ends s d r rest :
  take_digits s = (d, r) -> (r = [] -> ends_number rest) -> take_digits (s ++ rest) = (d, r ++ rest).
Proof.
  revert d r. induction s as [|c s IH]; intros d r E Hr; simpl in E.
  - injection E as <- <-. destruct rest as [|x rest]; [done|]. simpl. by rewrite (proj1 (Hr eq_refl)).
  - simpl. case_if_in E; [|by injection E as <- <-]. destruct (take_digits s) as [d' r'] eqn:E'.
    injection E as <- <-. by rewrite (IH d' r') by done.
Qed.

Lemma parse_number_ends r rest :
  parse_number r = Some (r, []) -> ends_number rest -> parse_number (r ++ rest) = Some (r, rest).
Proof.
  intros E Hr. unfold parse_number in *.
  assert (Hm : parse_minus (r ++ rest) = ((parse_minus r).1, (parse_minus r).2 ++ rest)).
  { destruct r as [|c r]; [done|]. simpl. by case_if. }
  rewrite Hm. destruct (parse_minus r) as [m s0]. cbn [fst snd].
  destruct (parse_int s0) as [[i s1]|] eqn:Ei; [|done]. destruct (parse_frac s1) as [[f s2]|] eqn:Ef; [|done].
  destruct (parse_exp s2) as [[e s3]|] eqn:Ee; [|done]. injection E as <- ->.
  assert (Hi : parse_int (s0 ++ rest) = Some (i, s1 ++ rest)).
  { destruct s0 as [|c s0]; [done|]. unfold parse_int in *. cbn [app]. repeat case_if_in Ei; try done.
    - by injection Ei as <- <-.
    - injection Ei as Ei. f_equal. by apply (take_digits_ends (c :: s0)). }
  assert (Hf : parse_frac (s1 ++ rest) = Some (f, s2 ++ rest)).
  { destruct s1 as [|c s1].
    - injection Ef as <- <-. destruct rest as [|x rest]; [done|]. unfold parse_frac. cbn [app].
      destruct (x =? 46) eqn:Ex; [|done]. bool_hyps. subst. by destruct Hr as (_ & ? & _).
    - unfold parse_frac in *. cbn [app]. case_if_in Ef; [|by injection Ef as <- <-].
      destruct (take_digits s1) as [d r'] eqn:Ed. rewrite (take_digits_ends s1 d r') by done.
      case_if_in Ef; [done|]. by injection Ef as <- <-. }
  assert (He : parse_exp (s2 ++ rest) = Some (e, rest)).
  { destruct s2 as [|c s2].
    - injection Ee as <-. destruct rest as [|x rest]; [done|]. unfold parse_exp. cbn [app].
      destruct ((x =? 101) || (x =? 69)) eqn:Ex; [|done]. destruct Hr as (_ & _ & ? & ?).
      apply orb_true_iff in Ex as [?|?]; bool_hyps; lia.
    - unfold parse_exp in *. cbn [app]. case_if_in Ee; [|done].
      assert (Hs : parse_sign (s2 ++ rest) = ((parse_sign s2).1, (parse_sign s2).2 ++ rest) \/ s2 = []).
      { destruct s2 as [|y s2]; [by right|]. left. simpl. by case_if. }
      destruct Hs as [Hs| ->]; [|done]. rewrite Hs. destruct (parse_sign s2) as [g r']. cbn [fst snd].
      destruct (take_digits r') as [d r''] eqn:Ed. rewrite (take_digits_ends r' d r'') by done.
      case_if_in Ee; [done|]. by injection Ee as <- ->. }
  by rewrite Hi, Hf, He.
Qed.

Lemma parse_number_head r : parse_number r = Some (r, []) -> exists c t, r = c :: t /\ (c = 45 \/ is_digit c = true).
Proof.
  destruct r as [|c r]; [done|]. intros E. exists c, r. split; [done|]. unfold parse_number in E. simpl parse_minus in E.
  case_if_in E; bool_hyps; [by left|]. right. unfold parse_int in E. repeat case_if_in E; bool_hyps; try done. by subst.
Qed.

(** The first unit of a printed value. *)
Lemma stringify_head v : json_ok v ->
  exists c t, stringify v = c :: t /\ is_json_space c = false /\ c <> 93 /\ c <> 125.
Proof.
  destruct 1 as [|[]|r [Hr _]|s| |]; try by (eexists _, _; repeat split).
  destruct (parse_number_head r Hr) as (c & t & -> & Hc). exists c, t. unfold is_json_space.
  unfold is_digit in Hc. split_and!; [done| |destruct Hc; bool_hyps; lia..].
  destruct Hc as [->|Hc]; [done|]. bool_hyps.
  repeat (apply orb_false_iff; split); apply Z.eqb_neq; lia.
Qed.

Lemma skip_ws_id c s : is_json_space c = false -> skip_ws (c :: s) = c :: s.
Proof. intros H. simpl. by rewrite H. Qed.

Abbreviation value := (parse_value number_text).

(** [v] printed before any rest that does not continue a number parses back. *)
Definition reads_back (v : json) : Prop :=
  forall rest, ends_number rest -> exists f, value f (stringify v ++ rest) = Some (v, rest).

Lemma reads_back_atom v c t :
  stringify v = c :: t -> is_json_space c = false -> c <> 123 -> c <> 91 -> c <> 34 ->
  (forall rest, ends_number rest -> parse_atom number_text (stringify v ++ rest) = Some (v, rest)) -> reads_back v.
Proof.
  intros E Hc H1 H2 H3 H rest Hr. exists 1%nat. rewrite <- (H rest Hr), E. cbn [parse_value app].
  rewrite skip_ws_id by done. repeat case_if; bool_hyps; done.
Qed.

Lemma reads_back_num r : number_ok r -> reads_back (JNum r).
Proof.
  intros [Hr Hn]. destruct (parse_number_head r Hr) as (c & t & -> & Hc).
  assert (Hc' : c = 45 \/ 48 <= c <= 57) by (unfold is_digit in Hc; destruct Hc; bool_hyps; lia).
  apply (reads_back_atom (JNum (c :: t)) c t); [done| |lia..|].
  { unfold is_json_space. repeat (apply orb_false_iff; split); apply Z.eqb_neq; lia. }
  intros rest Hrest. cbn [stringify atom_text]. unfold parse_atom.
  assert (Hno : forall p x r, p = x :: r -> 58 <= x -> strip_prefix p ((c :: t) ++ rest) = None).
  { intros p x r' -> Hx. destruct (strip_prefix _ _) as [r''|] eqn:E; [|done].
    apply strip_prefix_Some in E. injection E as E _. lia. }
  rewrite (Hno (js "null") 110 (js "ull")), (Hno (js "true") 116 (js "rue")), (Hno (js "false") 102 (js "alse")) by (done || lia).
  by rewrite parse_number_ends, Hn by done.
Qed.

Lemma reads_back_elements l acc rest :
  l <> [] -> Forall reads_back l ->
  exists f, parse_elements number_text f (join [44] (map stringify l) ++ 93 :: rest) acc = Some (JArr (acc ++ l), rest).
Proof.
  intros Hne H. revert acc. induction H as [|v l Hv Hl IH]; intros acc; [done|].
  destruct l as [|w l].
  - destruct (Hv (93 :: rest) ltac:(by repeat split)) as [f Hf]. exists (S f). cbn [parse_elements map join].
    by rewrite Hf.
  - cbn [map]. rewrite join_cons2, <- !app_assoc.
    destruct (Hv ([44] ++ join [44] (stringify w :: map stringify l) ++ 93 :: rest) ltac:(by repeat split)) as [f Hf].
    destruct (IH ltac:(done) (acc ++ [v])) as [g Hg]. exists (S (f + g)). cbn [parse_elements].
    rewrite (proj1 (parse_mono number_text f (f + g) ltac:(lia)) _ _ Hf).
    cbn [app skip_ws is_json_space Z.eqb Pos.eqb orb]. rewrite <- app_assoc in Hg. cbn [map app] in Hg.
    by rewrite (proj1 (proj2 (parse_mono number_text g (f + g) ltac:(lia))) _ _ _ Hg).
Qed.

Definition member_text (kv : jsstr * json) : jsstr := quote kv.1 ++ [58] ++ stringify kv.2.

Lemma reads_back_members m pre rest :
  m <> [] -> enum_ok (pre ++ m) -> Forall (fun kv => wf_str kv.1 /\ reads_back kv.2) m ->
  exists f, parse_members number_text f (join [44] (map member_text m) ++ 125 :: rest) pre = Some (JObj (pre ++ m), rest).
Proof.
  intros Hne Henum H. revert pre Henum. induction H as [|[k v] m [Hk Hv] Hm IH]; intros pre Henum; [done|].
  simpl in Hk, Hv. pose proof (Henum pre k v m eq_refl) as Hdef.
  assert (Hone : forall tail f, value f (stringify v ++ tail) = Some (v, tail) ->
    parse_members number_text (S f) (member_text (k, v) ++ tail) pre =
      match skip_ws tail with
      | d :: r4 => if d =? 44 then parse_members number_text f r4 (pre ++ [(k, v)])
                   else if d =? 125 then Some (JObj (pre ++ [(k, v)]), r4) else None
      | [] => None
      end).
  { intros tail f E. unfold member_text, quote. cbn [fst snd]. rewrite <- !app_assoc. cbn [app parse_members].
    rewrite skip_ws_id by done. cbn [Z.eqb Pos.eqb]. rewrite parse_string_quote by done.
    rewrite skip_ws_id by done. cbn [Z.eqb Pos.eqb]. rewrite E, Hdef. done. }
  destruct m as [|kv' m].
  - destruct (Hv (125 :: rest) ltac:(by repeat split)) as [f Hf]. exists (S f). cbn [map join].
    by rewrite (Hone _ f Hf).
  - cbn [map]. rewrite join_cons2, <- !app_assoc.
    set (tail := [44] ++ join [44] (member_text kv' :: map member_text m) ++ 125 :: rest).
    destruct (Hv tail ltac:(by repeat split)) as [f Hf].
    destruct (IH ltac:(done) (pre ++ [(k, v)])) as [g Hg]; [by rewrite <- app_assoc|].
    exists (S (f + g)). rewrite (Hone tail (f + g)%nat).
    + unfold tail. cbn [app skip_ws is_json_space Z.eqb Pos.eqb orb]. rewrite <- app_assoc in Hg. cbn [map app] in Hg.
      by rewrite (proj2 (proj2 (parse_mono number_text g (f + g) ltac:(lia))) _ _ _ Hg).
    + by rewrite (proj1 (parse_mono number_text f (f + g) ltac:(lia)) _ _ Hf).
Qed.

Lemma stringify_reads_back v : json_ok v -> reads_back v.
Proof.
  induction v as [v Ha Ho|l IH|m IH] using json_nested_ind; intros Hok.
  - destruct Hok as [|[]|r Hr|s Hs|l|m]; try (by destruct (Ha l)); try (by destruct (Ho m)).
    1-3: by eapply reads_back_atom; try done.
    + by apply reads_back_num.
    + intros rest _. exists 1%nat. cbn [stringify atom_text]. unfold quote. rewrite <- !app_assoc. cbn [app parse_value].
      rewrite skip_ws_id by done. cbn [Z.eqb Pos.eqb]. by rewrite parse_string_quote.
  - inversion Hok as [| | | |l' Hl|]; subst. intros rest _. cbn [stringify]. unfold bracket. rewrite <- !app_assoc. cbn [app].
    destruct l as [|v l]; [by exists 1%nat|].
    destruct (reads_back_elements (v :: l) [] rest) as [f Hf]; [done| |].
    { rewrite Forall_forall in *. intros x Hx. apply IH, Hl; done. }
    exists (S f). cbn [parse_value]. rewrite skip_ws_id by done. cbn [Z.eqb Pos.eqb].
    inversion Hl as [|? ? Hv _]; subst. destruct (stringify_head v Hv) as (c & t & Ec & Hc & H93 & _).
    assert (Hhd : exists u, join [44] (map stringify (v :: l)) = c :: u).
    { cbn [map]. destruct l as [|w l]; [by exists t|]. cbn [map]. rewrite join_cons2, Ec. by eexists. }
    destruct Hhd as [u Hu]. rewrite Hu in *. cbn [app] in *. rewrite skip_ws_id by done.
    case_if; bool_hyps; [done|]. exact Hf.
  - inversion Hok as [| | | | |m' He Hm]; subst. intros rest _. cbn [stringify]. unfold bracket. rewrite <- !app_assoc. cbn [app].
    destruct m as [|[k v] m]; [by exists 1%nat|].
    destruct (reads_back_members ((k, v) :: m) [] rest) as [f Hf]; [done|done| |].
    { rewrite Forall_forall in *. intros x Hx. destruct (Hm x Hx). split; [done|by apply IH]. }
    exists (S f). cbn [parse_value]. rewrite skip_ws_id by done. cbn [Z.eqb Pos.eqb].
    assert (Hhd : exists u, join [44] (map member_text ((k, v) :: m)) = 34 :: u).
    { cbn [map]. destruct m as [|w m]; [by eexists|]. cbn [map]. rewrite join_cons2. by eexists. }
    destruct Hhd as [u Hu]. rewrite Hu in Hf.
    change (map _ ((k, v) :: m)) with (map member_text ((k, v) :: m)). rewrite Hu. cbn [app].
    rewrite skip_ws_id by done. exact Hf.
Qed.

(** [JSON.parse] reads back what [JSON.stringify] prints: every value with
    canonical number texts and enumeration order is recovered exactly. *)
Theorem json_parse_stringify v : json_ok v -> json_parse number_text (stringify v) = Some v.
Proof.
  intros Hok. destruct (stringify_reads_back v Hok [] I) as [f Hf]. rewrite app_nil_r in Hf.
  unfold json_parse. by rewrite (parse_fuel_enough number_text _ f _ Hf).
Qed.
End RoundTrip.
