(* ===== verification/Regex.v ===== *)
(** Regular expressions with captures, as the sources use them: the matches of
    an expression at a position in the order a backtracking engine finds them,
    and [match], [matchAll] and [replace] on top of it. *)
From S2P Require Import Prelude JsString.

(** The constructs of the sources.  Quantified parts are single characters. *)
Inductive rx :=
  | XChar (p : Z -> bool)
  | XLit (s : jsstr)                     (** letters match in either case *)
  | XStar (greedy : bool) (p : Z -> bool)
  | XOpt (r : rx)                        (** greedy; an empty match of [r] does not count *)
  | XSeq (l r : rx)
  | XAlt (l r : rx)
  | XGroup (n : nat) (r : rx)
  | XBoundary                            (** [\b] after a word character *)
  | XEnd.                                (** [$] *)

Declare Scope rx_scope.
Delimit Scope rx_scope with rx.
Bind Scope rx_scope with rx.
Notation "a >>> b" := (XSeq a b) (at level 60, right associativity) : rx_scope.
Notation "a ||| b" := (XAlt a b) : rx_scope.

Definition XPlus (p : Z -> bool) : rx := (XChar p >>> XStar true p)%rx.
Definition XSpaces : rx := XStar true is_space.
Definition any_unit (c : Z) : bool := true.
(** [.]: everything but a line terminator. *)
Definition dot (c : Z) : bool := negb ((c =? 10) || (c =? 13) || (c =? 8232) || (c =? 8233)).
(** [[A-Za-z0-9_.:-]]. *)
Definition name_unit (c : Z) : bool := is_word c || (c =? 46) || (c =? 58) || (c =? 45).

(** ASCII lower case. *)
Definition to_lower (c : Z) : Z := if (65 <=? c) && (c <=? 90) then c + 32 else c.

(** Texts of the groups, the last one set first. *)
Definition captures := list (nat * jsstr).
Definition group (n : nat) (caps : captures) : option jsstr :=
  snd <$> List.find (fun c => Nat.eqb c.1 n) caps.

(** The suffixes after zero or more units of a class, fewest units first. *)
Fixpoint class_suffixes (p : Z -> bool) (s : jsstr) : list jsstr :=
  s :: match s with
       | c :: s' => if p c then class_suffixes p s' else []
       | [] => []
       end.

(** The part of [s] before its suffix [r]. *)
Definition before (s r : jsstr) : jsstr := take (length s - length r) s.

(** The ways to match a prefix of [s], preferred one first, as what is left of
    [s] and the groups. *)
Fixpoint matches (r : rx) (s : jsstr) (caps : captures) : list (jsstr * captures) :=
  match r with
  | XChar p => match s with c :: s' => if p c then [(s', caps)] else [] | [] => [] end
  | XLit l => match match_lit l s with Some s' => [(s', caps)] | None => [] end
  | XStar greedy p =>
      map (fun s' => (s', caps)) (if greedy then reverse (class_suffixes p s) else class_suffixes p s)
  | XOpt r => List.filter (fun m => (length m.1 <? length s)%nat) (matches r s caps) ++ [(s, caps)]
  | XSeq a b => flat_map (fun m => matches b m.1 m.2) (matches a s caps)
  | XAlt a b => matches a s caps ++ matches b s caps
  | XGroup n r => map (fun m => (m.1, (n, before s m.1) :: m.2)) (matches r s caps)
  | XBoundary => match s with c :: _ => if is_word c then [] else [(s, caps)] | [] => [(s, caps)] end
  | XEnd => match s with [] => [(s, caps)] | _ => [] end
  end.

(** A match: what precedes it, its text and its groups. *)
Record rx_match := mkMatch { mt_before : jsstr; mt_text : jsstr; mt_groups : captures }.

(** [s.match(/^r/)]: the groups of the match at the start. *)
Definition match_start (r : rx) (s : jsstr) : option captures :=
  match matches r s [] with m :: _ => Some m.2 | [] => None end.

(** The matches of a global expression from left to right, with the text
    skipped before each, and the text after the last. *)
Fixpoint scan (fuel : nat) (r : rx) (skipped s : jsstr) : list rx_match * jsstr :=
  match fuel with
  | O => ([], skipped ++ s)
  | S fuel' =>
      match matches r s [], s with
      | (rest, caps) :: _, _ =>
          let m := mkMatch skipped (before s rest) caps in
          if (length rest <? length s)%nat then
            let '(ms, tail) := scan fuel' r [] rest in (m :: ms, tail)
          else match s with
               | c :: s' => let '(ms, tail) := scan fuel' r [c] s' in (m :: ms, tail)
               | [] => ([m], [])
               end
      | [], c :: s' => scan fuel' r (skipped ++ [c]) s'
      | [], [] => ([], skipped)
      end
  end.

Definition scan_all (r : rx) (s : jsstr) : list rx_match * jsstr := scan (S (length s)) r [] s.

(** [[...s.matchAll(r)]], [s.match(r)] without the global flag, and
    [s.replace(r, f)] with it. *)
Definition matchAll (r : rx) (s : jsstr) : list rx_match := (scan_all r s).1.
Definition match_first (r : rx) (s : jsstr) : option rx_match := List.hd_error (matchAll r s).
Definition replace_all (r : rx) (f : rx_match -> jsstr) (s : jsstr) : jsstr :=
  let '(ms, tail) := scan_all r s in flat_map (fun m => mt_before m ++ f m) ms ++ tail.

(** A literal in its own case. *)
Fixpoint exact (s : jsstr) : rx :=
  match s with
  | [] => XStar true (fun _ => false)
  | [c] => XChar (Z.eqb c)
  | c :: s' => (XChar (Z.eqb c) >>> exact s')%rx
  end.

(** [value.replaceAll(from, to)] for a literal. *)
Definition replaceAll (from : string) (to : jsstr) (s : jsstr) : jsstr := replace_all (exact (js from)) (fun _ => to) s.

(** ** Facts *)

Lemma match_lit_app l s s' : match_lit l s = Some s' -> exists p, s = p ++ s'.
Proof.
  revert s. induction l as [|c l IH]; intros s; [intros [= <-]; by exists []|]. destruct s as [|d s]; [done|]. simpl.
  case_if; [|done]. intros [p ->]%IH. by exists (d :: p).
Qed.

Lemma class_suffixes_app p s s' : s' ∈ class_suffixes p s -> exists q, s = q ++ s'.
Proof.
  induction s as [|c s IH]; simpl.
  - intros ->%list_elem_of_singleton. by exists [].
  - intros [->|H]%elem_of_cons; [by exists []|]. destruct (p c); [|by apply elem_of_nil in H].
    destruct (IH H) as [q ->]. by exists (c :: q).
Qed.

(** What is left after a match is a suffix. *)
Lemma matches_suffix r : forall s caps m, m ∈ matches r s caps -> exists p, s = p ++ m.1.
Proof.
  induction r as [p|l|g p|r IH|a IHa b IHb|a IHa b IHb|n r IH| |]; intros s caps m; simpl.
  - destruct s as [|c s]; [by intros ?%elem_of_nil|]. destruct (p c); [|by intros ?%elem_of_nil].
    intros ->%list_elem_of_singleton. by exists [c].
  - destruct (match_lit l s) as [s'|] eqn:E; [|by intros ?%elem_of_nil]. intros ->%list_elem_of_singleton.
    by eapply match_lit_app.
  - intros (s' & -> & Hin)%list_elem_of_fmap. simpl. apply (class_suffixes_app p).
    destruct g; [|done]. by apply elem_of_reverse.
  - rewrite elem_of_app, list_elem_of_singleton. intros [H| ->]; [|by exists []].
    apply list_elem_of_In, filter_In in H as [H _]. eapply IH. by apply list_elem_of_In.
  - intros H. apply list_elem_of_In, in_flat_map in H as (m' & H1 & H2).
    destruct (IHa s caps m') as [p Hp]; [by apply list_elem_of_In|].
    destruct (IHb m'.1 m'.2 m) as [q Hq]; [by apply list_elem_of_In|].
    exists (p ++ q). by rewrite <- app_assoc, <- Hq.
  - rewrite elem_of_app. intros [H|H]; [by eapply IHa|by eapply IHb].
  - intros (m' & -> & Hin)%list_elem_of_fmap. simpl. by eapply IH.
  - destruct s as [|c s]; [intros ->%list_elem_of_singleton; by exists []|].
    destruct (is_word c); [by intros ?%elem_of_nil|]. intros ->%list_elem_of_singleton. by exists [].
  - destruct s; [intros ->%list_elem_of_singleton; by exists []|by intros ?%elem_of_nil].
Qed.

Lemma before_app p s : before (p ++ s) s = p.
Proof. unfold before. rewrite length_app, Nat.add_sub. apply take_app_length. Qed.

(** Scanning loses nothing: the skipped texts, the matches and the tail are
    the input. *)
Lemma scan_text fuel r skipped s :
  let '(ms, tail) := scan fuel r skipped s in flat_map (fun m => mt_before m ++ mt_text m) ms ++ tail = skipped ++ s.
Proof.
  revert skipped s. induction fuel as [|fuel IH]; intros skipped s; [done|]. cbn [scan].
  destruct (matches r s []) as [|[rest caps] l] eqn:E.
  - destruct s as [|c s]; [by rewrite app_nil_r|]. specialize (IH (skipped ++ [c]) s).
    destruct (scan fuel r (skipped ++ [c]) s). by rewrite IH, <- app_assoc.
  - destruct (matches_suffix r s [] (rest, caps)) as [p ->]; [rewrite E; by apply elem_of_cons; left|]. cbn [fst].
    rewrite before_app. case_if.
    + specialize (IH [] rest). destruct (scan fuel r [] rest) as [ms tail]. cbn [flat_map mt_before mt_text].
      rewrite <- !app_assoc. f_equal. f_equal. exact IH.
    + assert (p = []) as -> by (apply Nat.ltb_ge in Heqb; rewrite length_app in Heqb; destruct p; [done|simpl in Heqb; lia]).
      cbn [app]. destruct rest as [|c rest]; [cbn; by rewrite !app_nil_r|]. specialize (IH [c] rest).
      destruct (scan fuel r [c] rest) as [ms tail]. cbn [flat_map mt_before mt_text].
      rewrite <- !app_assoc. f_equal. cbn [app] in *. exact IH.
Qed.

Lemma replace_all_id r s : replace_all r mt_text s = s.
Proof.
  unfold replace_all, scan_all. pose proof (scan_text (S (length s)) r [] s) as H.
  destruct (scan (S (length s)) r [] s) as [ms tail]. exact H.
Qed.

(** An expression that starts with a literal finds nothing in a text without
    its first unit. *)
Lemma scan_none fuel r c s skipped :
  (forall s caps, (forall d s', s = d :: s' -> fold_case d <> c) -> matches r s caps = []) ->
  Forall (fun d => fold_case d <> c) s -> scan fuel r skipped s = ([], skipped ++ s).
Proof.
  intros Hr Hs. revert skipped. induction fuel as [|fuel IHf] in s, Hs |- *; intros skipped; [done|]. cbn [scan].
  rewrite Hr by (intros d s' ->; by inversion Hs). destruct s as [|d s]; [by rewrite app_nil_r|].
  inversion Hs as [|? ? _ Hs']; subst. rewrite (IHf s Hs'). by rewrite <- app_assoc.
Qed.

(** The longest run of a class comes first. *)
Lemma suffixes_run p (q : jsstr) rest : Forall (fun c => p c = true) q -> match rest with c :: _ => p c = false | [] => True end ->
  exists more, reverse (class_suffixes p (q ++ rest)) = rest :: more.
Proof.
  intros Hq Hr. induction Hq as [|c q Hc Hq IH]; cbn [app class_suffixes].
  - destruct rest as [|c rest]; cbn [class_suffixes]; [by exists [] |]. rewrite Hr. by exists [].
  - rewrite Hc. destruct IH as [more E]. rewrite reverse_cons, E. by exists (more ++ [c :: q ++ rest]).
Qed.
