(* ===== verification/PromptTemplates.v ===== *)
(** Skills and prompt templates as text ([harness/skills.ts],
    [harness/prompt-templates.ts], [harness/system-prompt.ts]): the prompts an
    invocation expands to, the list of skills in the system prompt, and the
    arguments of a command line. *)
From S2P Require Import Prelude JsString Json JsonParse Regex.

(** ** Resources ([harness/types.ts]) *)

Record Skill := mkSkill {
  sk_name : jsstr; sk_description : jsstr; sk_content : jsstr; sk_filePath : jsstr; sk_disableModelInvocation : option bool;
}.
Record PromptTemplate := mkTemplate { pt_name : jsstr; pt_description : option jsstr; pt_content : jsstr }.
Record AgentHarnessResources := mkResources {
  re_promptTemplates : option (list PromptTemplate); re_skills : option (list Skill);
}.

(** ** Paths *)

(** [path.replace(/\/+$/, '')]. *)
Fixpoint strip_slashes (rev : jsstr) : jsstr :=
  match rev with c :: rev' => if c =? 47 then strip_slashes rev' else rev | [] => [] end.
Definition without_trailing_slashes (path : jsstr) : jsstr := reverse (strip_slashes (reverse path)).

(** The part before the last slash and the part after it; [None] without one. *)
Fixpoint split_last_slash (s : jsstr) : option (jsstr * jsstr) :=
  match s with
  | [] => None
  | c :: s' =>
      match split_last_slash s' with
      | Some (dir, base) => Some (c :: dir, base)
      | None => if c =? 47 then Some ([], s') else None
      end
  end.

Definition dirnameEnvPath (path : jsstr) : jsstr :=
  match split_last_slash (without_trailing_slashes path) with
  | Some (c :: dir, _) => c :: dir
  | _ => js "/"
  end.

Definition basenameEnvPath (path : jsstr) : jsstr :=
  let normalized := without_trailing_slashes path in
  match split_last_slash normalized with Some (_, base) => base | None => normalized end.

(** ** Invocations *)

Definition quoted_text (s : jsstr) : jsstr := [34] ++ s ++ [34].

Definition formatSkillInvocation (skill : Skill) (additionalInstructions : option jsstr) : jsstr :=
  let skillBlock :=
    js "<skill name=" ++ quoted_text (sk_name skill) ++ js " location=" ++ quoted_text (sk_filePath skill) ++ js ">" ++ nl
    ++ js "References are relative to " ++ dirnameEnvPath (sk_filePath skill) ++ js "." ++ nl ++ nl
    ++ sk_content skill ++ nl ++ js "</skill>" in
  match additionalInstructions with
  | Some (c :: more) => skillBlock ++ nl ++ nl ++ c :: more
  | _ => skillBlock
  end.

Definition escapeXml (value : jsstr) : jsstr :=
  replaceAll "'" (js "&apos;")
    (flat_map (fun c => if c =? 34 then js "&quot;" else [c])
      (replaceAll ">" (js "&gt;") (replaceAll "<" (js "&lt;") (replaceAll "&" (js "&amp;") value)))).

Definition skill_lines (skill : Skill) : list jsstr :=
  [js "  <skill>";
   js "    <name>" ++ escapeXml (sk_name skill) ++ js "</name>";
   js "    <description>" ++ escapeXml (sk_description skill) ++ js "</description>";
   js "    <location>" ++ escapeXml (sk_filePath skill) ++ js "</location>";
   js "  </skill>"].

Definition formatSkillsForSystemPrompt (skills : list Skill) : jsstr :=
  let visibleSkills := List.filter (fun s => negb (default false (sk_disableModelInvocation s))) skills in
  if is_empty visibleSkills then []
  else
    join nl
      ([js "The following skills provide specialized instructions for specific tasks.";
        js "Read the full skill file when the task matches its description.";
        js "When a skill file references a relative path, resolve it against the skill directory (parent of SKILL.md / dirname of the path) and use that absolute path in tool commands.";
        []; js "<available_skills>"]
       ++ flat_map skill_lines visibleSkills ++ [js "</available_skills>"]).

(** ** Command lines *)

Definition is_quote_char (c : Z) : bool := (c =? 34) || (c =? 39).

(** The loop of [parseCommandArgs]. *)
Fixpoint parse_args (s : jsstr) (inQuote : option Z) (current : jsstr) : list jsstr :=
  match s with
  | [] => if is_empty current then [] else [current]
  | c :: s' =>
      match inQuote with
      | Some q => if c =? q then parse_args s' None current else parse_args s' inQuote (current ++ [c])
      | None =>
          if is_quote_char c then parse_args s' (Some c) current
          else if (c =? 32) || (c =? 9) then
            if is_empty current then parse_args s' None [] else current :: parse_args s' None []
          else parse_args s' None (current ++ [c])
      end
  end.

Definition parseCommandArgs (argsString : jsstr) : list jsstr := parse_args argsString None [].

(** ** Placeholders *)

(** The text a replacement string stands for: [$$], [$&] and the two texts
    around the match are special. *)
Fixpoint expand_replacement (template preceding matched following : jsstr) : jsstr :=
  match template with
  | [] => []
  | c :: t =>
      if c =? 36 then
        match t with
        | d :: t' =>
            if d =? 36 then 36 :: expand_replacement t' preceding matched following
            else if d =? 38 then matched ++ expand_replacement t' preceding matched following
            else if d =? 96 then preceding ++ expand_replacement t' preceding matched following
            else if d =? 39 then following ++ expand_replacement t' preceding matched following
            else 36 :: expand_replacement t preceding matched following
        | [] => [36]
        end
      else c :: expand_replacement t preceding matched following
  end.

(** [s.replace(r, template)] for a global expression without groups. *)
Fixpoint replace_template (s template : jsstr) (ms : list rx_match) (position : nat) (tail : jsstr) : jsstr :=
  match ms with
  | [] => tail
  | m :: ms' =>
      let start := (position + length (mt_before m))%nat in
      let stop := (start + length (mt_text m))%nat in
      mt_before m ++ expand_replacement template (take start s) (mt_text m) (drop stop s)
      ++ replace_template s template ms' stop tail
  end.
Definition replace_with_template (r : rx) (template s : jsstr) : jsstr :=
  let '(ms, tail) := scan_all r s in replace_template s template ms 0 tail.

Definition group_of (n : nat) (m : rx_match) : jsstr := default [] (group n (mt_groups m)).

(** [/\$(\d+)/g] and [/\$\{@:(\d+)(?::(\d+))?\}/g]. *)
Definition positional : rx := (exact [36] >>> XGroup 1 (XPlus is_digit))%rx.
Definition argument_slice : rx :=
  (exact (js "${@:") >>> XGroup 1 (XPlus is_digit) >>> XOpt (exact [58] >>> XGroup 2 (XPlus is_digit)) >>> exact (js "}"))%rx.

(** [args[i]] for an integer [i]. *)
Definition nth_arg (args : list jsstr) (i : Z) : jsstr :=
  if i <? 0 then [] else default [] (args !! Z.to_nat i).

Definition slice_args (args : list jsstr) (m : rx_match) : jsstr :=
  let start := Z.max 0 (digits_value (group_of 1 m) - 1) in
  let rest := drop (Z.to_nat start) args in
  join (js " ") (match group 2 (mt_groups m) with Some len => take (Z.to_nat (digits_value len)) rest | None => rest end).

Definition substituteArgs (content : jsstr) (args : list jsstr) : jsstr :=
  let result := replace_all positional (fun m => nth_arg args (digits_value (group_of 1 m) - 1)) content in
  let result := replace_all argument_slice (slice_args args) result in
  let allArgs := join (js " ") args in
  let result := replace_with_template (exact (js "$ARGUMENTS")) allArgs result in
  replace_with_template (exact (js "$@")) allArgs result.

Definition formatPromptTemplateInvocation (template : PromptTemplate) (args : list jsstr) : jsstr :=
  substituteArgs (pt_content template) args.

(** ** Theorems *)

(** An argument between double quotes. *)
Lemma parse_quoted a s current : 34 ∉ a -> parse_args (a ++ 34 :: s) (Some 34) current = parse_args s None (current ++ a).
Proof.
  revert current. induction a as [|c a IH]; intros current Hn; cbn [app parse_args]; [by rewrite app_nil_r|].
  apply not_elem_of_cons in Hn as [Hc Hn]. rewrite (proj2 (Z.eqb_neq c 34)) by done.
  rewrite IH by done. by rewrite <- app_assoc.
Qed.

(** A command line made of arguments between double quotes, with a blank
    between them, parses to those arguments: blanks, tabs and single quotes inside
    an argument are kept, and an argument is neither split nor joined to the
    next. *)
Theorem parseCommandArgs_quoted args :
  Forall (fun a => a <> [] /\ 34 ∉ a) args -> parseCommandArgs (join (js " ") (map quoted_text args)) = args.
Proof.
  unfold parseCommandArgs. induction 1 as [|a args [Ha Hq] Hargs IH]; [done|].
  assert (Hstep : forall rest, parse_args (quoted_text a ++ rest) None [] = parse_args rest None a).
  { intros rest. unfold quoted_text. rewrite <- !app_assoc. cbn [app parse_args]. change (is_quote_char 34) with true. cbv iota.
    rewrite parse_quoted by done. done. }
  destruct args as [|b args].
  - cbn [map join]. rewrite <- (app_nil_r (quoted_text a)), Hstep. by destruct a.
  - cbn [map] in *. rewrite join_cons2, Hstep. change (js " ") with [32]. cbn [app parse_args].
    change (is_quote_char 32) with false. cbn. destruct a; [done|]. cbn [is_empty]. by f_equal.
Qed.

Lemma parseCommandArgs_quoted_witness : parseCommandArgs (join (js " ") (map quoted_text [js "a b"; js "it's"])) = [js "a b"; js "it's"].
Proof.
  apply (parseCommandArgs_quoted [js "a b"; js "it's"]).
  repeat constructor; try done; by apply (bool_decide_unpack _).
Defined.

(** A dollar sign in an argument is read as part of a replacement pattern. *)
Example substituteArgs_dollar :
  substituteArgs (js "Price: $ARGUMENTS") [js "$$5"] = js "Price: $5" /\ substituteArgs (js "Price: $1") [js "$$5"] = js "Price: $$5".
Proof. split; vm_compute; reflexivity. Qed.

Example substituteArgs_slices :
  substituteArgs (js "$2 ${@:2} ${@:1:1} $@ $9!") [js "a"; js "b"; js "c"] = js "b b c a a b c !".
Proof. vm_compute. reflexivity. Qed.
