(* ===== verification/StdinBuffer.v ===== *)
(** Terminal input ([packages/tui/src/stdin-buffer.ts]): bytes arrive in chunks that
    may cut an escape sequence or a bracketed paste; the buffer puts them together
    and emits whole sequences and pastes. *)
From S2P Require Import Prelude JsString StringSearch JsonParse Regex.

(** ** Markers *)

Definition ESC : jsstr := [27].
Definition BRACKETED_PASTE_START : jsstr := ESC ++ js "[200~".
Definition BRACKETED_PASTE_END : jsstr := ESC ++ js "[201~".

(** ** Escape sequences *)

Definition last_unit (s : jsstr) : Z := default 0 (last s).

Definition sgr_mouse : rx :=
  (exact (js "<") >>> XPlus is_digit >>> exact (js ";") >>> XPlus is_digit >>> exact (js ";") >>> XPlus is_digit
   >>> XChar (fun c => (c =? 77) || (c =? 109)) >>> XEnd)%rx.

Definition all_digits (s : jsstr) : bool := negb (is_empty s) && forallb is_digit s.

(** [true] is "complete". *)
Definition isCompleteCsiSequence (data : jsstr) : bool :=
  if (length data <? 3)%nat then false
  else
    let payload := drop 2 data in
    let lastChar := last_unit payload in
    if (64 <=? lastChar) && (lastChar <=? 126) then
      if starts_with (js "<") payload then
        match match_start sgr_mouse payload with
        | Some _ => true
        | None =>
            if (lastChar =? 77) || (lastChar =? 109) then
              let parts := split_on 59 (take (length payload - 2) (drop 1 payload)) in
              (length parts =? 3)%nat && forallb all_digits parts
            else false
        end
      else true
    else false.

Definition isCompleteOscSequence (data : jsstr) : bool := ends_with (ESC ++ js "\") data || ends_with [7] data.
Definition isCompleteDcsSequence (data : jsstr) : bool := ends_with (ESC ++ js "\") data.
Definition isCompleteApcSequence (data : jsstr) : bool := ends_with (ESC ++ js "\") data.

Definition isCompleteSequence (data : jsstr) : bool :=
  if (length data =? 1)%nat then false
  else
    let afterEsc := drop 1 data in
    if starts_with (js "[") afterEsc then
      if starts_with (js "[M") afterEsc then (6 <=? length data)%nat else isCompleteCsiSequence data
    else if starts_with (js "]") afterEsc then isCompleteOscSequence data
    else if starts_with (js "P") afterEsc then isCompleteDcsSequence data
    else if starts_with (js "_") afterEsc then isCompleteApcSequence data
    else if starts_with (js "O") afterEsc then (2 <=? length afterEsc)%nat
    else true.

Definition kitty_printable : rx :=
  (exact (ESC ++ js "[") >>> XGroup 1 (XPlus is_digit) >>> XOpt (exact (js ":") >>> XStar true is_digit)
   >>> XOpt (exact (js ":") >>> XPlus is_digit) >>> exact (js "u") >>> XEnd)%rx.

Definition parseUnmodifiedKittyPrintableCodepoint (sequence : jsstr) : option Z :=
  match match_start kitty_printable sequence with
  | None => None
  | Some caps =>
      let codepoint := digits_value (default [] (group 1 caps)) in
      if 32 <=? codepoint then Some codepoint else None
  end.

(** ** Splitting a buffer *)

(** The inner loop: the length of the shortest complete prefix. *)
Definition sequence_end (remaining : jsstr) : option nat :=
  List.find (fun n => isCompleteSequence (take n remaining)) (seq 1 (length remaining)).

(** [[], ], [O], [P] or [_]: the character after an escape that begins a sequence. *)
Definition begins_sequence (c : option Z) : bool :=
  match c with Some c => existsb (Z.eqb c) [91; 93; 79; 80; 95] | None => false end.

(** One iteration of the outer loop: the sequence taken and what is left, or
    [None] at the end of the buffer or when the sequence is not complete. *)
Definition extract_step (remaining : jsstr) : option (jsstr * jsstr) :=
  match remaining with
  | [] => None
  | c :: rest =>
      if c =? 27 then
        match sequence_end remaining with
        | None => None
        | Some n =>
            if bool_decide (take n remaining = ESC ++ ESC) && begins_sequence (remaining !! n)
            then Some (ESC, rest)
            else Some (take n remaining, drop n remaining)
        end
      else Some ([c], rest)
  end.

Fixpoint extract_loop (fuel : nat) (remaining : jsstr) : list jsstr * jsstr :=
  match fuel with
  | O => ([], remaining)
  | S fuel' =>
      match extract_step remaining with
      | None => ([], remaining)
      | Some (sequence, rest) =>
          let '(sequences, remainder) := extract_loop fuel' rest in (sequence :: sequences, remainder)
      end
  end.

(** Every iteration takes at least one character. *)
Definition extractCompleteSequences (buffer : jsstr) : list jsstr * jsstr := extract_loop (length buffer) buffer.

(** ** The buffer *)

Inductive stdin_event := StdinData (sequence : jsstr) | StdinPaste (content : jsstr).

(** The two timers are set or not. *)
Record StdinBuffer := mkStdin {
  sb_buffer : jsstr;
  sb_timeout : bool;
  sb_pasteMode : bool;
  sb_pasteBuffer : jsstr;
  sb_pendingKittyPrintableCodepoint : option Z;
  sb_pasteTimeout : bool;
}.

Definition new_StdinBuffer : StdinBuffer := mkStdin [] false false [] None false.

Definition set_pendingKitty (p : option Z) (st : StdinBuffer) : StdinBuffer :=
  mkStdin (sb_buffer st) (sb_timeout st) (sb_pasteMode st) (sb_pasteBuffer st) p (sb_pasteTimeout st).

Definition emitDataSequence (sequence : jsstr) (st : StdinBuffer) : list stdin_event * StdinBuffer :=
  let rawCodepoint := match sequence with [c] => Some c | _ => None end in
  if bool_decide (is_Some rawCodepoint) && bool_decide (rawCodepoint = sb_pendingKittyPrintableCodepoint st)
  then ([], set_pendingKitty None st)
  else ([StdinData sequence], set_pendingKitty (parseUnmodifiedKittyPrintableCodepoint sequence) st).

Fixpoint emit_sequences (sequences : list jsstr) (st : StdinBuffer) : list stdin_event * StdinBuffer :=
  match sequences with
  | [] => ([], st)
  | s :: sequences' =>
      let '(es, st1) := emitDataSequence s st in
      let '(es', st2) := emit_sequences sequences' st1 in (es ++ es', st2)
  end.

(** A paste has begun, and its timer is set. *)
Definition enter_paste (st : StdinBuffer) : StdinBuffer :=
  mkStdin (sb_buffer st) (sb_timeout st) true (sb_pasteBuffer st) None true.

(** The paste in progress, given its text so far: [inr] with the rest of the input
    when it has ended. *)
Definition paste_progress (pasteBuffer : jsstr) (st : StdinBuffer) : StdinBuffer + (jsstr * jsstr * StdinBuffer) :=
  match index_of BRACKETED_PASTE_END pasteBuffer with
  | None => inl (mkStdin [] (sb_timeout st) true pasteBuffer (sb_pendingKittyPrintableCodepoint st) (sb_pasteTimeout st))
  | Some endIndex =>
      inr (take endIndex pasteBuffer, drop (endIndex + length BRACKETED_PASTE_END) pasteBuffer,
           mkStdin [] (sb_timeout st) false [] None false)
  end.

(** [process] of a string; it calls itself on what follows a paste. *)
Fixpoint process_string (fuel : nat) (str : jsstr) (st0 : StdinBuffer) : list stdin_event * StdinBuffer :=
  match fuel with
  | O => ([], st0)
  | S fuel' =>
      let st := mkStdin (sb_buffer st0) false (sb_pasteMode st0) (sb_pasteBuffer st0) (sb_pendingKittyPrintableCodepoint st0)
                  (sb_pasteTimeout st0) in
      let in_paste (pasteBuffer : jsstr) (st : StdinBuffer) :=
        match paste_progress pasteBuffer st with
        | inl st' => ([], st')
        | inr (pastedContent, remaining, st') =>
            let '(es, st'') := if is_empty remaining then ([], st') else process_string fuel' remaining st' in
            (StdinPaste pastedContent :: es, st'')
        end in
      if is_empty str && is_empty (sb_buffer st) then emitDataSequence [] st
      else
        let buffer := sb_buffer st ++ str in
        if sb_pasteMode st then in_paste (sb_pasteBuffer st ++ buffer) st
        else
          match index_of BRACKETED_PASTE_START buffer with
          | Some startIndex =>
              let '(es, st1) := emit_sequences (extractCompleteSequences (take startIndex buffer)).1 st in
              let '(es', st2) := in_paste (drop (startIndex + length BRACKETED_PASTE_START) buffer) (enter_paste st1) in
              (es ++ es', st2)
          | None =>
              let '(sequences, remainder) := extractCompleteSequences buffer in
              let '(es, st1) := emit_sequences sequences
                (mkStdin remainder false false (sb_pasteBuffer st) (sb_pendingKittyPrintableCodepoint st) (sb_pasteTimeout st)) in
              (es, mkStdin (sb_buffer st1) (negb (is_empty remainder)) false (sb_pasteBuffer st1)
                     (sb_pendingKittyPrintableCodepoint st1) (sb_pasteTimeout st1))
          end
  end.

(** Each call after the first follows the end of a paste. *)
Definition process_fuel (str : jsstr) (st : StdinBuffer) : nat :=
  S (length (sb_pasteBuffer st) + length (sb_buffer st) + length str).

(** The input is a string or bytes; [decode] is the UTF-8 decoding of
    [Buffer.prototype.toString]. *)
Inductive stdin_input := InText (s : jsstr) | InBytes (bytes : list Z).

Definition input_text (decode : list Z -> jsstr) (data : stdin_input) : jsstr :=
  match data with
  | InText s => s
  | InBytes [b] => if 127 <? b then [27; b - 128] else decode [b]
  | InBytes bytes => decode bytes
  end.

Definition process (decode : list Z -> jsstr) (data : stdin_input) (st : StdinBuffer) : list stdin_event * StdinBuffer :=
  let str := input_text decode data in process_string (process_fuel str st) str st.

(** [flush]: what is buffered, whatever it is. *)
Definition flush (st : StdinBuffer) : list jsstr * StdinBuffer :=
  if is_empty (sb_buffer st) then ([], mkStdin (sb_buffer st) false (sb_pasteMode st) (sb_pasteBuffer st) (sb_pendingKittyPrintableCodepoint st) (sb_pasteTimeout st))
  else ([sb_buffer st], mkStdin [] false (sb_pasteMode st) (sb_pasteBuffer st) None (sb_pasteTimeout st)).

(** The callbacks of the two timers, when they are set. *)
Definition on_timeout (st : StdinBuffer) : list stdin_event * StdinBuffer :=
  let '(flushed, st') := flush st in emit_sequences flushed st'.
Definition forcePasteEnd (st : StdinBuffer) : list stdin_event * StdinBuffer :=
  ([StdinPaste (sb_pasteBuffer st)], mkStdin (sb_buffer st) (sb_timeout st) false [] None false).

Definition clear_stdin (st : StdinBuffer) : StdinBuffer := new_StdinBuffer.

(** ** Samples *)

Definition key (s : string) : jsstr := ESC ++ js s.

Example arrow_then_text : extractCompleteSequences (key "[A" ++ js "x" ++ key "[<35;20") = ([key "[A"; js "x"], key "[<35;20").
Proof. vm_compute. reflexivity. Qed.

Example kitty_codepoint : parseUnmodifiedKittyPrintableCodepoint (key "[97:65:99u") = Some 97.
Proof. vm_compute. reflexivity. Qed.
