(* ===== verification/StdinProps.v ===== *)
(** What the input buffer guarantees: nothing of the input is lost when it is cut
    into sequences, the events do not depend on how the input arrives in chunks, and
    a bracketed paste is delivered whole whatever the chunks. *)
From S2P Require Import Prelude JsString StringSearch JsonParse Regex StdinBuffer.

(** ** Cutting the buffer into sequences *)

Lemma sequence_end_bounds s n : sequence_end s = Some n -> (1 <= n <= length s)%nat.
Proof. intros H. apply List.find_some in H as [Hin _]. apply in_seq in Hin. lia. Qed.

Lemma sequence_end_app s v n : sequence_end s = Some n -> sequence_end (s ++ v) = Some n.
Proof.
  unfold sequence_end. intros H. rewrite length_app, seq_app. apply find_app.
  rewrite <- H. apply find_ext_in. intros m Hm%list_elem_of_In%in_seq. rewrite take_app_le by lia. done.
Qed.

(** A step takes a non-empty prefix of what remains. *)
Lemma extract_step_split s q rest : extract_step s = Some (q, rest) -> s = q ++ rest /\ q <> [].
Proof.
  destruct s as [|c s]; cbn [extract_step]; [done |]. destruct (c =? 27) eqn:Ec; [| by intros [= <- <-]].
  apply Z.eqb_eq in Ec as ->. destruct (sequence_end (27 :: s)) as [n|] eqn:En; [| done].
  apply sequence_end_bounds in En. case_match; intros [= <- <-]; [done |].
  split; [by rewrite take_drop |]. destruct n; [lia | done].
Qed.

Lemma extract_step_rest s q rest : extract_step s = Some (q, rest) -> (length rest < length s)%nat.
Proof.
  intros [-> Hq]%extract_step_split. rewrite length_app. destruct q; [done | simpl; lia].
Qed.

(** More input does not change a step, but for two escapes at the very end. *)
Lemma extract_step_app s v q rest :
  s <> ESC ++ ESC -> extract_step s = Some (q, rest) -> extract_step (s ++ v) = Some (q, rest ++ v).
Proof.
  intros Hs. destruct s as [|c s]; cbn [extract_step app]; [done |]. destruct (c =? 27) eqn:Ec; [| by intros [= <- <-]].
  destruct (sequence_end (c :: s)) as [n|] eqn:En; [| done].
  pose proof (sequence_end_bounds _ _ En) as Hn. apply (sequence_end_app _ v) in En.
  change (c :: s ++ v) with ((c :: s) ++ v). rewrite En, take_app_le by lia.
  destruct (decide (n = length (c :: s))) as [-> | Hne].
  - rewrite firstn_all, bool_decide_false by done. cbn [andb]. intros [= <- <-].
    f_equal. f_equal. rewrite drop_app_length, drop_all. done.
  - rewrite lookup_app_l by lia. case_match; intros [= <- <-]; [done |].
    by rewrite drop_app_le by lia.
Qed.

(** The loop, for any fuel that is enough. *)
Lemma extract_loop_fuel fuel1 fuel2 s :
  (length s <= fuel1)%nat -> (length s <= fuel2)%nat -> extract_loop fuel1 s = extract_loop fuel2 s.
Proof.
  revert fuel2 s. induction fuel1 as [|f1 IH]; intros [|f2] s H1 H2; cbn [extract_loop].
  - done.
  - destruct s; [| simpl in *; lia]. done.
  - destruct s; [| simpl in *; lia]. done.
  - destruct (extract_step s) as [[q rest]|] eqn:E; [| done].
    pose proof (extract_step_rest _ _ _ E). by rewrite (IH f2) by lia.
Qed.

Lemma extract_unfold s :
  extractCompleteSequences s =
  match extract_step s with
  | None => ([], s)
  | Some (q, rest) => let '(qs, r) := extractCompleteSequences rest in (q :: qs, r)
  end.
Proof.
  unfold extractCompleteSequences. destruct s as [|c s]; [done |].
  cbn [length]. cbn [extract_loop]. destruct (extract_step (c :: s)) as [[q rest]|] eqn:E; [| done].
  pose proof (extract_step_rest _ _ _ E) as Hl. simpl in Hl.
  rewrite (extract_loop_fuel (length s) (length rest)) by lia. done.
Qed.

Lemma extract_ind (P : jsstr -> Prop) :
  (forall s, (forall q rest, extract_step s = Some (q, rest) -> P rest) -> P s) -> forall s, P s.
Proof.
  intros HP s. remember (length s) as n eqn:Hn. revert s Hn.
  induction n as [n IH] using lt_wf_ind. intros s ->. apply HP. intros q rest E.
  apply (IH (length rest)); [by eapply extract_step_rest | done].
Qed.

(** Nothing of the buffer is lost: the sequences and the remainder are the buffer. *)
Lemma extract_lossless s :
  concat (extractCompleteSequences s).1 ++ (extractCompleteSequences s).2 = s
  /\ Forall (fun q => q <> []) (extractCompleteSequences s).1.
Proof.
  induction s as [s IH] using extract_ind. rewrite extract_unfold.
  destruct (extract_step s) as [[q rest]|] eqn:E; [| done].
  specialize (IH _ _ eq_refl). apply extract_step_split in E as [-> Hq].
  destruct (extractCompleteSequences rest) as [qs r]. simpl in *. destruct IH as [IH1 IH2].
  rewrite <- app_assoc, IH1. by split; [| constructor].
Qed.

(** The input in two parts: what remains of the first is cut with the second. *)
Lemma extract_app s v :
  ends_with (ESC ++ ESC) s = false ->
  extractCompleteSequences (s ++ v) =
  let '(qs, r) := extractCompleteSequences s in
  let '(qs', r') := extractCompleteSequences (r ++ v) in (qs ++ qs', r').
Proof.
  induction s as [s IH] using extract_ind. intros Hs. rewrite (extract_unfold s).
  destruct (extract_step s) as [[q rest]|] eqn:E; [| by destruct (extractCompleteSequences (s ++ v))].
  assert (Hne : s <> ESC ++ ESC) by (intros ->; vm_compute in Hs; done).
  rewrite extract_unfold, (extract_step_app _ _ _ _ Hne E).
  pose proof (extract_step_split _ _ _ E) as [Hsplit Hq].
  rewrite (IH _ _ eq_refl).
  - destruct (extractCompleteSequences rest) as [qs r]. by destruct (extractCompleteSequences (r ++ v)).
  - apply not_true_iff_false. intros F. apply not_true_iff_false in Hs. apply Hs.
    unfold ends_with in *. apply starts_with_prefix. apply starts_with_prefix in F as [k Hk].
    rewrite Hsplit, (reverse_app q rest), Hk. exists (k ++ reverse q). by rewrite app_assoc.
Qed.

(** ** Processing chunks *)

(** The chunks in turn, before either timer fires. *)
Fixpoint process_all (decode : list Z -> jsstr) (chunks : list stdin_input) (st : StdinBuffer) : list stdin_event * StdinBuffer :=
  match chunks with
  | [] => ([], st)
  | c :: chunks' =>
      let '(es, st1) := process decode c st in
      let '(es', st2) := process_all decode chunks' st1 in (es ++ es', st2)
  end.

Lemma process_all_snoc decode chunks c st :
  process_all decode (chunks ++ [c]) st =
  let '(es, st1) := process_all decode chunks st in
  let '(es', st2) := process decode c st1 in (es ++ es', st2).
Proof.
  revert st. induction chunks as [|d chunks IH]; intros st; cbn [app process_all].
  - destruct (process decode c st) as [es st1]. simpl. by rewrite app_nil_r.
  - destruct (process decode d st) as [es st1]. rewrite IH.
    destruct (process_all decode chunks st1) as [es1 st2]. destruct (process decode c st2) as [es2 st3].
    by rewrite app_assoc.
Qed.

(** Emitting depends on, and changes, the pending code point only. *)
Definition emit_code (q : jsstr) (k : option Z) : list stdin_event * option Z :=
  let '(es, st) := emitDataSequence q (mkStdin [] false false [] k false) in
  (es, sb_pendingKittyPrintableCodepoint st).

Lemma emitDataSequence_frame q b t m pb k pt :
  emitDataSequence q (mkStdin b t m pb k pt) = let '(es, k') := emit_code q k in (es, mkStdin b t m pb k' pt).
Proof.
  unfold emit_code, emitDataSequence, set_pendingKitty.
  cbn [sb_buffer sb_timeout sb_pasteMode sb_pasteBuffer sb_pendingKittyPrintableCodepoint sb_pasteTimeout].
  by destruct (_ && _).
Qed.

Fixpoint emit_codes (qs : list jsstr) (k : option Z) : list stdin_event * option Z :=
  match qs with
  | [] => ([], k)
  | q :: qs' => let '(es, k1) := emit_code q k in let '(es', k2) := emit_codes qs' k1 in (es ++ es', k2)
  end.

Lemma emit_sequences_frame qs b t m pb k pt :
  emit_sequences qs (mkStdin b t m pb k pt) = let '(es, k') := emit_codes qs k in (es, mkStdin b t m pb k' pt).
Proof.
  revert k. induction qs as [|q qs IH]; intros k; [done |].
  cbn [emit_sequences emit_codes]. rewrite emitDataSequence_frame.
  destruct (emit_code q k) as [es k1]. rewrite IH. by destruct (emit_codes qs k1).
Qed.

Lemma emit_codes_app qs qs' k :
  emit_codes (qs ++ qs') k =
  let '(es, k1) := emit_codes qs k in let '(es', k2) := emit_codes qs' k1 in (es ++ es', k2).
Proof.
  revert k. induction qs as [|q qs IH]; intros k; cbn [app emit_codes].
  - by destruct (emit_codes qs' k).
  - destruct (emit_code q k) as [es k1]. rewrite IH. destruct (emit_codes qs k1) as [es1 k2].
    destruct (emit_codes qs' k2) as [es2 k3]. by rewrite app_assoc.
Qed.

(** Outside a paste and without the start of one. *)
Lemma process_plain decode s b t pb k pt :
  b ++ s <> [] -> index_of BRACKETED_PASTE_START (b ++ s) = None ->
  process decode (InText s) (mkStdin b t false pb k pt) =
  let '(qs, r) := extractCompleteSequences (b ++ s) in
  let '(es, k') := emit_codes qs k in (es, mkStdin r (negb (is_empty r)) false pb k' pt).
Proof.
  intros Hne Hi. unfold process, process_fuel. cbn [input_text process_string sb_buffer sb_pasteMode sb_pasteBuffer].
  replace (is_empty s && is_empty b) with false.
  - rewrite Hi. destruct (extractCompleteSequences (b ++ s)) as [qs r]. simpl.
    rewrite emit_sequences_frame. by destruct (emit_codes qs k).
  - symmetry. apply not_true_iff_false. rewrite andb_true_iff, !is_empty_true. by intros [-> ->].
Qed.

(** C12: Where no paste begins, the events and the state do not depend on how the input
    arrives: a list of chunks is processed as their concatenation would be, provided
    that no chunk ends right after two escapes (there the code has to guess whether
    they are one key). *)
Theorem chunks_irrelevant decode c chunks st :
  sb_pasteMode st = false -> c <> [] -> Forall (fun x => x <> []) chunks ->
  index_of BRACKETED_PASTE_START (sb_buffer st ++ c ++ concat chunks) = None ->
  (forall i, (i < length chunks)%nat -> ends_with (ESC ++ ESC) (sb_buffer st ++ c ++ concat (take i chunks)) = false) ->
  process_all decode (InText <$> (c :: chunks)) st = process decode (InText (c ++ concat chunks)) st.
Proof.
  destruct st as [b t m pb k pt]. cbn [sb_pasteMode sb_buffer]. intros -> Hc.
  induction chunks as [|d chunks IH] using rev_ind; intros Hch Hi He.
  - cbn [fmap list_fmap process_all concat]. rewrite app_nil_r.
    destruct (process decode (InText c) _) as [es st1]. by rewrite app_nil_r.
  - apply Forall_app in Hch as [Hch Hd]. apply List.Forall_inv in Hd.
    rewrite concat_app in *. cbn [concat] in *. rewrite app_nil_r in *.
    assert (Hi1 : index_of BRACKETED_PASTE_START (b ++ c ++ concat chunks) = None).
    { apply (index_of_None_infix _ [] _ d). simpl. by rewrite <- !app_assoc. }
    replace (InText <$> c :: chunks ++ [d]) with ((InText <$> (c :: chunks)) ++ [InText d])
      by (by rewrite app_comm_cons, fmap_app).
    rewrite process_all_snoc.
    rewrite IH; [| done.. |].
    2: { intros i Hlt. specialize (He i). rewrite length_app in He. rewrite take_app_le in He by lia.
         apply He. simpl. lia. }
    rewrite process_plain; [| by destruct b, c | done].
    specialize (He (length chunks)). rewrite take_app_length, length_app in He. simpl in He.
    rewrite process_plain; [| by destruct b, c | done].
    replace (b ++ c ++ concat chunks ++ d) with ((b ++ c ++ concat chunks) ++ d) by (by rewrite <- !app_assoc).
    rewrite (extract_app (b ++ c ++ concat chunks) d) by (apply He; lia).
    pose proof (extract_lossless (b ++ c ++ concat chunks)) as [Hl _].
    destruct (extractCompleteSequences (b ++ c ++ concat chunks)) as [qs r]. simpl in Hl.
    rewrite (surjective_pairing (emit_codes qs k)).
    rewrite process_plain; [| by destruct r, d |].
    2: { apply (index_of_None_infix _ (concat qs) _ []). rewrite app_nil_r, app_assoc, Hl. by rewrite <- !app_assoc. }
    destruct (extractCompleteSequences (r ++ d)) as [qs' r']. rewrite emit_codes_app.
    destruct (emit_codes qs k) as [es k1]. simpl. by destruct (emit_codes qs' k1).
Qed.

(** ** Pastes *)

(** In a paste: the text goes to the paste until its end appears. *)
Lemma process_pasting decode s t pb k pt :
  s <> [] -> index_of BRACKETED_PASTE_END (pb ++ s) = None ->
  process decode (InText s) (mkStdin [] t true pb k pt) = ([], mkStdin [] false true (pb ++ s) k pt).
Proof.
  intros Hs Hi. unfold process, process_fuel. cbn [input_text process_string sb_buffer sb_pasteMode sb_pasteBuffer].
  rewrite (proj2 (is_empty_false s) Hs). cbn [andb app]. unfold paste_progress. by rewrite Hi.
Qed.

Lemma process_paste_end decode s t pb k pt p :
  s <> [] -> pb ++ s = p ++ BRACKETED_PASTE_END -> index_of BRACKETED_PASTE_END (pb ++ s) = Some (length p) ->
  process decode (InText s) (mkStdin [] t true pb k pt) = ([StdinPaste p], new_StdinBuffer).
Proof.
  intros Hs Hp Hi. unfold process, process_fuel. cbn [input_text process_string sb_buffer sb_pasteMode sb_pasteBuffer].
  rewrite (proj2 (is_empty_false s) Hs). cbn [andb app]. unfold paste_progress. rewrite Hi, Hp.
  rewrite take_app_length, <- length_app, drop_all. done.
Qed.

(** The end of the paste is not seen before all of it has arrived. *)
Lemma paste_end_not_early p u v :
  index_of BRACKETED_PASTE_END (p ++ BRACKETED_PASTE_END) = Some (length p) ->
  u ++ v = p ++ BRACKETED_PASTE_END -> v <> [] -> index_of BRACKETED_PASTE_END u = None.
Proof.
  intros Hp Huv Hv. destruct (index_of BRACKETED_PASTE_END u) as [i|] eqn:E; [| done].
  pose proof (index_of_app _ _ v _ E) as E'. rewrite Huv, Hp in E'. simplify_eq.
  apply index_of_Some, (f_equal length) in E. apply (f_equal length) in Huv.
  rewrite !length_app in E, Huv. rewrite length_take in E. destruct v; [done | simpl in *; lia].
Qed.

Lemma concat_nonempty (chunks : list jsstr) : Forall (fun c => c <> []) chunks -> chunks <> [] -> concat chunks <> [].
Proof. destruct chunks as [|c chunks]; [done |]. intros [Hc _]%Forall_cons _. by destruct c. Qed.

Lemma paste_chunks decode p chunks : forall t pb k pt,
  index_of BRACKETED_PASTE_END (p ++ BRACKETED_PASTE_END) = Some (length p) ->
  Forall (fun c => c <> []) chunks -> chunks <> [] -> pb ++ concat chunks = p ++ BRACKETED_PASTE_END ->
  process_all decode (InText <$> chunks) (mkStdin [] t true pb k pt) = ([StdinPaste p], new_StdinBuffer).
Proof.
  induction chunks as [|c chunks IH]; intros t pb k pt Hp Hc Hne Heq; [done |].
  apply Forall_cons in Hc as [Hc Hcs]. cbn [fmap list_fmap process_all concat] in *.
  destruct (decide (chunks = [])) as [-> | Hnz].
  - cbn [concat] in Heq. rewrite app_nil_r in Heq. rewrite (process_paste_end _ _ _ _ _ _ p); [done.. | by rewrite Heq].
  - rewrite process_pasting; [| done |].
    + change (list_fmap _ _ InText chunks) with (InText <$> chunks). rewrite IH; [done.. |]. by rewrite <- app_assoc.
    + apply (paste_end_not_early p _ (concat chunks)); [done | by rewrite <- app_assoc |].
      by apply concat_nonempty.
Qed.

(** A proper prefix of the start marker waits in the buffer. *)
Lemma start_prefix_waits u v :
  BRACKETED_PASTE_START = u ++ v -> u <> [] -> v <> [] -> extractCompleteSequences u = ([], u) /\ index_of BRACKETED_PASTE_START u = None.
Proof.
  intros H Hu Hv.
  assert (Hd : u = take (length u) BRACKETED_PASTE_START) by (by rewrite H, take_app_length).
  assert (Hl : (1 <= length u < 6)%nat).
  { apply (f_equal length) in H. rewrite length_app in H. destruct u, v; simpl in *; try done; lia. }
  rewrite Hd. remember (length u) as n. clear -Hl.
  assert (In n (seq 1 5)) as Hin by (apply in_seq; lia). clear Hl.
  repeat (destruct Hin as [<- | Hin]; [by vm_compute |]). done.
Qed.

(** The marker is complete: a paste begins, with what follows it. *)
Lemma process_start decode s b t pb k pt q :
  b ++ s = BRACKETED_PASTE_START ++ q -> s <> [] -> index_of BRACKETED_PASTE_END q = None ->
  process decode (InText s) (mkStdin b t false pb k pt) = ([], mkStdin [] false true q None true).
Proof.
  intros Hq Hs Hi. unfold process, process_fuel. cbn [input_text process_string sb_buffer sb_pasteMode sb_pasteBuffer].
  rewrite (proj2 (is_empty_false s) Hs), Hq.
  destruct (index_of_occurs BRACKETED_PASTE_START [] q) as (i & E & Hz). simpl in Hz.
  assert (i = 0%nat) as -> by lia. cbn [app andb] in *. rewrite E. cbn [take]. 
  change (extractCompleteSequences []).1 with (@nil jsstr). cbn [emit_sequences].
  cbn [Nat.add]. rewrite drop_app_length. unfold paste_progress. by rewrite Hi.
Qed.

Lemma process_start_end decode s b t pb k pt p :
  b ++ s = BRACKETED_PASTE_START ++ p ++ BRACKETED_PASTE_END -> s <> [] ->
  index_of BRACKETED_PASTE_END (p ++ BRACKETED_PASTE_END) = Some (length p) ->
  process decode (InText s) (mkStdin b t false pb k pt) = ([StdinPaste p], new_StdinBuffer).
Proof.
  intros Hq Hs Hi. unfold process, process_fuel. cbn [input_text process_string sb_buffer sb_pasteMode sb_pasteBuffer].
  rewrite (proj2 (is_empty_false s) Hs), Hq.
  destruct (index_of_occurs BRACKETED_PASTE_START [] (p ++ BRACKETED_PASTE_END)) as (i & E & Hz). simpl in Hz.
  assert (i = 0%nat) as -> by lia. cbn [app andb] in *. rewrite E. cbn [take].
  change (extractCompleteSequences []).1 with (@nil jsstr). cbn [emit_sequences].
  cbn [Nat.add]. rewrite drop_app_length. unfold paste_progress. rewrite Hi, take_app_length, <- length_app, drop_all. done.
Qed.

(** The chunks from the start marker on, given what is buffered of it. *)
Lemma start_chunks decode p chunks : forall b t k pt,
  index_of BRACKETED_PASTE_END (p ++ BRACKETED_PASTE_END) = Some (length p) ->
  Forall (fun c => c <> []) chunks -> (length b < length BRACKETED_PASTE_START)%nat ->
  b ++ concat chunks = BRACKETED_PASTE_START ++ p ++ BRACKETED_PASTE_END ->
  process_all decode (InText <$> chunks) (mkStdin b t false [] k pt) = ([StdinPaste p], new_StdinBuffer).
Proof.
  induction chunks as [|c chunks IH]; intros b t k pt Hp Hc Hb Heq.
  { apply (f_equal length) in Heq. rewrite !length_app in Heq. simpl in *. lia. }
  apply Forall_cons in Hc as [Hc Hcs]. cbn [fmap list_fmap process_all concat] in *.
  change (list_fmap _ _ InText chunks) with (InText <$> chunks). rewrite app_assoc in Heq.
  destruct (app_eq_inv _ _ _ _ Heq) as [[q [Hq Hrest]] | [v [Hv Hrest]]].
  - (* the start marker is complete *)
    destruct (decide (chunks = [])) as [-> | Hnz].
    + cbn [concat] in Hrest. rewrite app_nil_r in Hrest. subst q. by rewrite (process_start_end _ _ _ _ _ _ _ p).
    + rewrite (process_start _ _ _ _ _ _ _ q); [| done.. |].
      * by rewrite (paste_chunks decode p).
      * apply (paste_end_not_early p _ (concat chunks)); [done.. |]. by apply concat_nonempty.
  - destruct v as [|x v].
    + rewrite app_nil_r in Hv. simpl in Hrest.
      rewrite (process_start _ _ _ _ _ _ _ []); [| by rewrite app_nil_r | done..].
      rewrite (paste_chunks decode p); [done.. | | done]. intros ->. by destruct p.
    + destruct (start_prefix_waits (b ++ c) (x :: v)) as [Hex Hi]; [done | by destruct b, c | done |].
      rewrite process_plain; [| by destruct b, c | done]. rewrite Hex. cbn [emit_codes].
      rewrite IH; [done.. | | done].
      apply (f_equal length) in Hv. rewrite Hv, (length_app (b ++ c)). simpl. lia.
Qed.

(** A bracketed paste is delivered as one paste event with exactly the pasted text,
    and leaves the buffer as new, however the bytes between and within the two markers
    are cut into chunks. *)
Theorem paste_delivered decode p chunks k :
  index_of BRACKETED_PASTE_END (p ++ BRACKETED_PASTE_END) = Some (length p) ->
  Forall (fun c => c <> []) chunks -> concat chunks = BRACKETED_PASTE_START ++ p ++ BRACKETED_PASTE_END ->
  process_all decode (InText <$> chunks) (set_pendingKitty k new_StdinBuffer) = ([StdinPaste p], new_StdinBuffer).
Proof. intros Hp Hc Heq. apply start_chunks; [done.. | simpl; lia | done]. Qed.

(** ** The fuel *)

Lemma paste_remaining pasteBuffer st content remaining st' :
  paste_progress pasteBuffer st = inr (content, remaining, st') ->
  (length remaining < length pasteBuffer)%nat /\ sb_buffer st' = [] /\ sb_pasteBuffer st' = [].
Proof.
  unfold paste_progress. destruct (index_of _ pasteBuffer) as [i|] eqn:E; [| done]. intros [= <- <- <-].
  apply index_of_Some, (f_equal length) in E. rewrite !length_app in E. change (length BRACKETED_PASTE_END) with 6%nat in *.
  split; [lia | done].
Qed.

(** [process_fuel] is enough: more gives the same. *)
Lemma process_string_fuel f1 : forall f2 s st,
  (process_fuel s st <= f1)%nat -> (process_fuel s st <= f2)%nat -> process_string f1 s st = process_string f2 s st.
Proof.
  unfold process_fuel. induction f1 as [|f1 IH]; intros [|f2] s st H1 H2; [lia.. |].
  assert (Hin : forall pb st', (length pb <= length (sb_pasteBuffer st) + length (sb_buffer st) + length s)%nat ->
    match paste_progress pb st' with
    | inl st' => ([], st')
    | inr (content, remaining, st') =>
        let '(es, st'') := if is_empty remaining then ([], st') else process_string f1 remaining st' in
        (StdinPaste content :: es, st'')
    end =
    match paste_progress pb st' with
    | inl st' => ([], st')
    | inr (content, remaining, st') =>
        let '(es, st'') := if is_empty remaining then ([], st') else process_string f2 remaining st' in
        (StdinPaste content :: es, st'')
    end).
  { intros pb st' Hpb. destruct (paste_progress pb st') as [|[[content remaining] st'']] eqn:E; [done |].
    apply paste_remaining in E as (Hl & E1 & E2). destruct (is_empty remaining); [done |].
    rewrite (IH f2); [done | rewrite E1, E2; simpl; lia..]. }
  cbn [process_string sb_buffer sb_pasteMode sb_pasteBuffer]. destruct (is_empty s && _); [done |].
  destruct (sb_pasteMode st); [apply Hin; rewrite !length_app; lia |].
  destruct (index_of _ _) as [i|]; [| done]. destruct (emit_sequences _ _) as [es st1].
  rewrite Hin; [done |]. rewrite length_drop, length_app. lia.
Qed.

(** ** Samples *)

Module StdinSample.

Definition no_bytes : list Z -> jsstr := fun _ => [].

(** An SGR mouse report in three chunks. *)
Lemma chunks_irrelevant_witness :
  process_all no_bytes (InText <$> [ESC; js "[<35"; js ";20;5m"]) new_StdinBuffer
  = ([StdinData (key "[<35;20;5m")], new_StdinBuffer).
Proof.
  rewrite (chunks_irrelevant no_bytes ESC [js "[<35"; js ";20;5m"] new_StdinBuffer).
  - vm_compute. reflexivity.
  - reflexivity.
  - done.
  - repeat constructor; done.
  - vm_compute. reflexivity.
  - intros [|[|i]] Hi; [vm_compute; reflexivity.. | simpl in Hi; lia].
Defined.

Lemma paste_delivered_witness :
  process_all no_bytes (InText <$> [ESC ++ js "[20"; js "0~hel"; js "lo" ++ ESC; js "[201~"]) new_StdinBuffer
  = ([StdinPaste (js "hello")], new_StdinBuffer).
Proof.
  apply (paste_delivered no_bytes (js "hello") [ESC ++ js "[20"; js "0~hel"; js "lo" ++ ESC; js "[201~"] None).
  - vm_compute. reflexivity.
  - repeat constructor; done.
  - vm_compute. reflexivity.
Defined.

(** An escape key typed right before a paste is lost when both arrive in one chunk
    and reported when the start marker is cut. *)
Example escape_before_paste_lost :
  process_all no_bytes [InText (ESC ++ BRACKETED_PASTE_START ++ BRACKETED_PASTE_END)] new_StdinBuffer
  = ([StdinPaste []], new_StdinBuffer)
  /\ process_all no_bytes [InText (ESC ++ ESC ++ js "[2"); InText (js "00~" ++ BRACKETED_PASTE_END)] new_StdinBuffer
  = ([StdinData ESC; StdinPaste []], new_StdinBuffer).
Proof. vm_compute. split; reflexivity. Qed.

End StdinSample.
