(* ===== verification/EditDiff.v ===== *)
(** The edit tool's text work ([packages/coding-agent/src/core/tools/edit-diff/]):
    finding each old text in a file, exactly or after normalization, replacing the
    regions found, and the diff shown.  [String.prototype.normalize("NFKC")] needs the
    Unicode tables and is the parameter [nfkc]; the package [diff] is the parameter
    [diffLines]. *)
From S2P Require Import Prelude JsString StringSearch Effects.

(** ** Line endings and normalization ([text-normalization.ts]) *)

Inductive line_ending := CRLF | LF.

Definition detectLineEnding (content : jsstr) : line_ending :=
  match index_of [10] content, index_of [13; 10] content with
  | None, _ => LF
  | _, None => LF
  | Some lfIdx, Some crlfIdx => if (crlfIdx <? lfIdx)%nat then CRLF else LF
  end.

Fixpoint replace_crlf (s : jsstr) : jsstr :=
  match s with
  | c :: ((d :: s') as t) => if (c =? 13) && (d =? 10) then 10 :: replace_crlf s' else c :: replace_crlf t
  | _ => s
  end.

Definition replace_cr (s : jsstr) : jsstr := map (fun c => if c =? 13 then 10 else c) s.

Definition normalizeToLF (text : jsstr) : jsstr := replace_cr (replace_crlf text).

Definition restoreLineEndings (text : jsstr) (ending : line_ending) : jsstr :=
  match ending with
  | CRLF => concat (map (fun c => if c =? 10 then [13; 10] else [c]) text)
  | LF => text
  end.

Definition BOM : jsstr := [65279].

(** The byte order mark, if any, and the text after it. *)
Definition stripBom (content : jsstr) : jsstr * jsstr :=
  if starts_with BOM content then (BOM, drop 1 content) else ([], content).

Definition map_lines (f : jsstr -> jsstr) (s : jsstr) : jsstr := join nl (map f (split_on 10 s)).

(** The four replacements by character class. *)
Definition plain_unit (c : Z) : Z :=
  if (8216 <=? c) && (c <=? 8219) then 39
  else if (8220 <=? c) && (c <=? 8223) then 34
  else if ((8208 <=? c) && (c <=? 8213)) || (c =? 8722) then 45
  else if (c =? 160) || ((8194 <=? c) && (c <=? 8202)) || (c =? 8239) || (c =? 8287) || (c =? 12288) then 32
  else c.

Section Edits.
Context (nfkc : jsstr -> jsstr).

Definition normalizeForFuzzyMatch (text : jsstr) : jsstr :=
  map plain_unit (map_lines trim_end (nfkc text)).

(** ** Finding a text *)

Record FuzzyMatchResult := mkFuzzyMatch {
  fm_found : bool;
  fm_index : Z;
  fm_matchLength : Z;
  fm_usedFuzzyMatch : bool;
  fm_contentForReplacement : jsstr;
}.

(** The number of times [sep] separates the pieces of [s.split(sep)]. *)
Definition split_count (s sep : jsstr) : Z := zlen (split_str sep s) - 1.

Definition fuzzyFindText (content oldText : jsstr) : FuzzyMatchResult :=
  match index_of oldText content with
  | Some exactIndex => mkFuzzyMatch true (Z.of_nat exactIndex) (zlen oldText) false content
  | None =>
      let fuzzyContent := normalizeForFuzzyMatch content in
      let fuzzyOldText := normalizeForFuzzyMatch oldText in
      match index_of fuzzyOldText fuzzyContent with
      | Some fuzzyIndex => mkFuzzyMatch true (Z.of_nat fuzzyIndex) (zlen fuzzyOldText) true fuzzyContent
      | None =>
          let lineTrimmedContent := map_lines trim fuzzyContent in
          let lineTrimmedOldText := map_lines trim fuzzyOldText in
          if split_count lineTrimmedContent lineTrimmedOldText =? 1 then
            let trimmedIndex := default 0%nat (index_of lineTrimmedOldText lineTrimmedContent) in
            let lineCountBeforeMatch := (length (split_on 10 (take trimmedIndex lineTrimmedContent)) - 1)%nat in
            let fuzzyContentLines := split_on 10 fuzzyContent in
            let targetCharIndex := sumZ (map (fun l => zlen l + 1) (take lineCountBeforeMatch fuzzyContentLines)) in
            let matchLineCount := length (split_on 10 lineTrimmedOldText) in
            let matchCharLength := sumZ (map (fun i =>
              zlen (default [] (fuzzyContentLines !! (lineCountBeforeMatch + i)%nat))
              + (if (i <? matchLineCount - 1)%nat then 1 else 0)) (seq 0 matchLineCount)) in
            mkFuzzyMatch true targetCharIndex matchCharLength true fuzzyContent
          else mkFuzzyMatch false (-1) 0 false content
      end
  end.

Definition countOccurrences (content oldText : jsstr) : Z :=
  split_count (normalizeForFuzzyMatch content) (normalizeForFuzzyMatch oldText).

(** ** Errors *)

Definition edits_at (editIndex : Z) : jsstr := js "edits[" ++ show editIndex ++ js "]".

Definition getNotFoundError (path : jsstr) (editIndex totalEdits : Z) : jsstr :=
  if totalEdits =? 1
  then js "Could not find the exact text in " ++ path
       ++ js ". The old text must match exactly including all whitespace and newlines."
  else js "Could not find " ++ edits_at editIndex ++ js " in " ++ path
       ++ js ". The oldText must match exactly including all whitespace and newlines.".

Definition getDuplicateError (path : jsstr) (editIndex totalEdits occurrences : Z) : jsstr :=
  if totalEdits =? 1
  then js "Found " ++ show occurrences ++ js " occurrences of the text in " ++ path
       ++ js ". The text must be unique. Please provide more context to make it unique."
  else js "Found " ++ show occurrences ++ js " occurrences of " ++ edits_at editIndex ++ js " in " ++ path
       ++ js ". Each oldText must be unique. Please provide more context to make it unique.".

Definition getEmptyOldTextError (path : jsstr) (editIndex totalEdits : Z) : jsstr :=
  if totalEdits =? 1 then js "oldText must not be empty in " ++ path ++ js "."
  else edits_at editIndex ++ js ".oldText must not be empty in " ++ path ++ js ".".

Definition getNoChangeError (path : jsstr) (totalEdits : Z) : jsstr :=
  if totalEdits =? 1
  then js "No changes made to " ++ path
       ++ js ". The replacement produced identical content. This might indicate an issue with special characters or the text not existing as expected."
  else js "No changes made to " ++ path ++ js ". The replacements produced identical content.".

Definition getOverlapError (path : jsstr) (previous current : Z) : jsstr :=
  edits_at previous ++ js " and " ++ edits_at current ++ js " overlap in " ++ path
  ++ js ". Merge them into one edit or target disjoint regions.".

(** ** Applying edits ([indentation.ts]) *)

Fixpoint extractLeadingIndent (line : jsstr) : jsstr :=
  match line with
  | c :: line' => if (c =? 32) || (c =? 9) then c :: extractLeadingIndent line' else []
  | [] => []
  end.

Definition is_blank (line : jsstr) : bool := is_empty (trim line).
Definition inked_lines (s : jsstr) : list jsstr := filter (fun l => is_blank l = false) (split_on 10 s).

Definition adjustNewTextIndentation (newText oldText originalMatchedText : jsstr) : jsstr :=
  match inked_lines oldText, inked_lines originalMatchedText with
  | oldLine :: _, origLine :: _ =>
      let oldIndent := extractLeadingIndent oldLine in
      let origIndent := extractLeadingIndent origLine in
      if bool_decide (oldIndent = origIndent) then newText
      else map_lines (fun line =>
        if is_blank line then []
        else if starts_with oldIndent origIndent then drop (length oldIndent) origIndent ++ line
        else if starts_with origIndent oldIndent then
          let extraIndent := drop (length origIndent) oldIndent in
          if starts_with extraIndent line then drop (length extraIndent) line else line
        else if starts_with oldIndent line then origIndent ++ drop (length oldIndent) line else line) newText
  | _, _ => newText
  end.

Record Edit := mkEdit { ed_oldText : jsstr; ed_newText : jsstr }.

Record MatchedEdit := mkMatchedEdit {
  me_editIndex : Z;
  me_matchIndex : Z;
  me_matchLength : Z;
  me_newText : jsstr;
}.

Record AppliedEditsResult := mkApplied { ap_baseContent : jsstr; ap_newContent : jsstr }.

Definition normalize_edit (e : Edit) : Edit := mkEdit (normalizeToLF (ed_oldText e)) (normalizeToLF (ed_newText e)).

(** The first edit with nothing to look for. *)
Definition first_empty (edits : list Edit) : option nat := find_index (fun e => is_empty (ed_oldText e)) edits.

(** The body of the second loop, for edit [i] of [total]. *)
Definition match_edit (baseContent path : jsstr) (total i : Z) (e : Edit) : result jsstr MatchedEdit :=
  let matchResult := fuzzyFindText baseContent (ed_oldText e) in
  if negb (fm_found matchResult) then Throw (getNotFoundError path i total)
  else
    let occurrences := countOccurrences baseContent (ed_oldText e) in
    if 1 <? occurrences then Throw (getDuplicateError path i total occurrences)
    else
      let matchedText := substring baseContent (fm_index matchResult) (fm_index matchResult + fm_matchLength matchResult) in
      let adjustedNewText :=
        if fm_usedFuzzyMatch matchResult then adjustNewTextIndentation (ed_newText e) (ed_oldText e) matchedText
        else ed_newText e in
      Ok (mkMatchedEdit i (fm_index matchResult) (fm_matchLength matchResult) adjustedNewText).

Fixpoint match_edits (baseContent path : jsstr) (total i : Z) (edits : list Edit) : result jsstr (list MatchedEdit) :=
  match edits with
  | [] => Ok []
  | e :: edits' =>
      match match_edit baseContent path total i e with
      | Throw err => Throw err
      | Ok m =>
          match match_edits baseContent path total (i + 1) edits' with
          | Throw err => Throw err
          | Ok ms => Ok (m :: ms)
          end
      end
  end.

Definition match_end (m : MatchedEdit) : Z := me_matchIndex m + me_matchLength m.

(** The first two neighbours that overlap, among edits sorted by their place. *)
Fixpoint first_overlap (ms : list MatchedEdit) : option (MatchedEdit * MatchedEdit) :=
  match ms with
  | previous :: ((current :: _) as ms') =>
      if me_matchIndex current <? match_end previous then Some (previous, current) else first_overlap ms'
  | _ => None
  end.

Definition replace_match (m : MatchedEdit) (content : jsstr) : jsstr :=
  substring content 0 (me_matchIndex m) ++ me_newText m ++ substring content (match_end m) (zlen content).

(** From the last edit to the first. *)
Definition replace_matches (ms : list MatchedEdit) (baseContent : jsstr) : jsstr := foldr replace_match baseContent ms.

Definition sort_matches (ms : list MatchedEdit) : list MatchedEdit :=
  isort (fun a b => me_matchIndex a <=? me_matchIndex b) ms.

Definition applyEditsToNormalizedContent (normalizedContent : jsstr) (edits : list Edit) (path : jsstr)
  : result jsstr AppliedEditsResult :=
  let normalizedEdits := map normalize_edit edits in
  let total := zlen normalizedEdits in
  match first_empty normalizedEdits with
  | Some i => Throw (getEmptyOldTextError path (Z.of_nat i) total)
  | None =>
      let initialMatches := map (fun e => fuzzyFindText normalizedContent (ed_oldText e)) normalizedEdits in
      let baseContent :=
        if existsb fm_usedFuzzyMatch initialMatches then normalizeForFuzzyMatch normalizedContent else normalizedContent in
      match match_edits baseContent path total 0 normalizedEdits with
      | Throw err => Throw err
      | Ok matchedEdits =>
          let sorted := sort_matches matchedEdits in
          match first_overlap sorted with
          | Some (previous, current) => Throw (getOverlapError path (me_editIndex previous) (me_editIndex current))
          | None =>
              let newContent := replace_matches sorted baseContent in
              if bool_decide (baseContent = newContent) then Throw (getNoChangeError path total)
              else Ok (mkApplied baseContent newContent)
          end
      end
  end.
End Edits.
