(* ===== verification/EditProps.v ===== *)
(** Correctness of applying edits: the regions found are disjoint, each is replaced by
    the new text of its edit, and nothing else of the content changes. *)
From S2P Require Import Prelude JsString StringSearch Effects EditDiff.

(** ** Replacement from the left *)

(** The reference: one pass over the content, from [pos] on. *)
Fixpoint splice (pos : Z) (ms : list MatchedEdit) (content : jsstr) : jsstr :=
  match ms with
  | [] => drop (Z.to_nat pos) content
  | m :: ms' =>
      take (Z.to_nat (me_matchIndex m - pos)) (drop (Z.to_nat pos) content)
      ++ me_newText m ++ splice (match_end m) ms' content
  end.

(** The matches lie in order between [pos] and the end of the content. *)
Fixpoint in_order (pos : Z) (ms : list MatchedEdit) (content : jsstr) : Prop :=
  match ms with
  | [] => pos <= zlen content
  | m :: ms' => pos <= me_matchIndex m /\ 0 <= me_matchLength m /\ in_order (match_end m) ms' content
  end.

Lemma in_order_le pos ms content : in_order pos ms content -> pos <= zlen content.
Proof.
  revert pos. induction ms as [|m ms IH]; intros pos; cbn [in_order]; [done |].
  intros (H1 & H2 & H3%IH). unfold match_end in *. lia.
Qed.

(** Replacing from the last match to the first is the one pass. *)
Lemma replace_matches_splice pos ms content :
  0 <= pos -> in_order pos ms content ->
  replace_matches ms content = take (Z.to_nat pos) content ++ splice pos ms content.
Proof.
  revert pos. induction ms as [|m ms IH]; intros pos Hp Ho.
  - cbn [replace_matches foldr splice]. by rewrite take_drop.
  - destruct Ho as (H1 & H2 & H3). cbn [splice]. change (replace_matches (m :: ms) content)
      with (replace_match m (replace_matches ms content)).
    pose proof (in_order_le _ _ _ H3) as Hle. unfold match_end, zlen in Hle.
    rewrite (IH (match_end m)) by (done || unfold match_end; lia). unfold replace_match.
    rewrite substring_take, substring_drop by (unfold match_end; lia).
    rewrite take_app_le, take_take, Nat.min_l by (rewrite ?length_take; unfold match_end; lia).
    rewrite drop_app_ge by (rewrite length_take; apply Nat.le_min_l).
    rewrite length_take, Nat.min_l by (unfold match_end; lia).
    rewrite Nat.sub_diag, drop_0.
    rewrite <- (take_drop (Z.to_nat pos) (take (Z.to_nat (me_matchIndex m)) content)), take_take, Nat.min_l by lia.
    rewrite <- app_assoc, skipn_firstn_comm, <- Z2Nat.inj_sub by lia. done.
Qed.

(** ** The order of the matches *)

Definition in_bounds (content : jsstr) (m : MatchedEdit) : Prop :=
  0 <= me_matchIndex m /\ 0 <= me_matchLength m /\ match_end m <= zlen content.

Lemma no_overlap_in_order pos ms content :
  first_overlap ms = None -> Forall (in_bounds content) ms -> pos <= zlen content ->
  match ms with [] => True | m :: _ => pos <= me_matchIndex m end -> in_order pos ms content.
Proof.
  revert pos. induction ms as [|m ms IH]; intros pos Hov Hb Hp Hm; [done |].
  apply Forall_cons in Hb as [(Hb1 & Hb2 & Hb3) Hb]. cbn [in_order]. split; [done |]. split; [done |].
  cbn [first_overlap] in Hov. destruct ms as [|n ms]; [by apply IH |].
  destruct (me_matchIndex n <? match_end m) eqn:E; [done |]. apply IH; [done.. | by apply Z.ltb_ge].
Qed.

Lemma sort_matches_in_order ms content :
  first_overlap (sort_matches ms) = None -> Forall (in_bounds content) ms -> in_order 0 (sort_matches ms) content.
Proof.
  intros Hov Hb. assert (Hb' : Forall (in_bounds content) (sort_matches ms)).
  { unfold sort_matches. by rewrite isort_Permutation. }
  apply no_overlap_in_order; [done.. | apply zlen_nonneg |].
  destruct (sort_matches ms); [done |]. by apply Forall_cons in Hb' as [[? _] _].
Qed.

(** ** Where an edit is found *)

(** A position where a line starts, after [u], and one where a line ends, before [v]. *)
Definition line_start (u : jsstr) : Prop := u = [] \/ exists u', u = u' ++ nl.
Definition line_end (v : jsstr) : Prop := v = [] \/ exists v', v = nl ++ v'.

(** The region between [u] and [v] is one where an old text is found that does not
    occur as it is: the normalized old text; or, when that does not occur either,
    whole lines which without their indentation hold the normalized old text without
    its own, within the first and last of them. *)
Definition fuzzy_region (nfkc : jsstr -> jsstr) (u region v old : jsstr) : Prop :=
  region = normalizeForFuzzyMatch nfkc old
  \/ index_of (normalizeForFuzzyMatch nfkc old) (u ++ region ++ v) = None
     /\ line_start u /\ line_end v
     /\ exists a b, 10 ∉ a /\ 10 ∉ b
          /\ map_lines trim region = a ++ map_lines trim (normalizeForFuzzyMatch nfkc old) ++ b.

(** What an edit finds between [u] and [v], and what it becomes: its old text, which
    becomes the new text; or, when the old text occurs nowhere, such a region, and the
    new text takes its indentation. *)
Definition region_ok (nfkc : jsstr -> jsstr) (u region v new : jsstr) (e : Edit) : Prop :=
  region = ed_oldText e /\ new = ed_newText e
  \/ index_of (ed_oldText e) (u ++ region ++ v) = None
     /\ new = adjustNewTextIndentation (ed_newText e) (ed_oldText e) region
     /\ fuzzy_region nfkc u region v (ed_oldText e).

(** The place of a match for an edit in the content, and what it becomes. *)
Record match_of (nfkc : jsstr -> jsstr) (content : jsstr) (e : Edit) (m : MatchedEdit) : Prop := {
  mo_bounds : in_bounds content m;
  mo_text :
    region_ok nfkc (take (Z.to_nat (me_matchIndex m)) content) (substring content (me_matchIndex m) (match_end m))
      (drop (Z.to_nat (match_end m)) content) (me_newText m) e;
}.

Lemma index_of_region p s i :
  index_of p s = Some i ->
  Z.of_nat i + zlen p <= zlen s /\ substring s (Z.of_nat i) (Z.of_nat i + zlen p) = p.
Proof.
  intros H. pose proof (index_of_bound _ _ _ H) as Hl. apply index_of_Some in H.
  split; [unfold zlen; lia |].
  rewrite substring_mid by (unfold zlen; lia). rewrite H at 1. unfold zlen. rewrite !Nat2Z.id.
  rewrite drop_app_ge by (rewrite length_take; lia).
  rewrite length_take, Nat.min_l, Nat.sub_diag, drop_0 by lia. by rewrite take_app_length.
Qed.

Lemma match_edit_exact nfkc content path total i e m k :
  index_of (ed_oldText e) content = Some k -> match_edit nfkc content path total i e = Ok m -> match_of nfkc content e m.
Proof.
  intros Hk. unfold match_edit, fuzzyFindText. rewrite Hk. cbn [fm_found fm_index fm_matchLength fm_usedFuzzyMatch negb].
  destruct (1 <? _); [done |]. intros [= <-]. destruct (index_of_region _ _ _ Hk) as [Hb Hr].
  split; unfold in_bounds, match_end; simpl; [unfold zlen in *; lia |]. by left.
Qed.

(** ** The normalization is stable *)

Lemma plain_unit_space c : is_space (plain_unit c) = is_space c.
Proof. unfold plain_unit, is_space. repeat case_if; lia. Qed.

Lemma plain_unit_idem c : plain_unit (plain_unit c) = plain_unit c.
Proof. unfold plain_unit. repeat case_if; try lia; done. Qed.

Lemma plain_unit_newline c : plain_unit c = 10 <-> c = 10.
Proof. unfold plain_unit. repeat case_if; lia. Qed.

Lemma trim_start_map s : trim_start (map plain_unit s) = map plain_unit (trim_start s).
Proof. induction s as [|c s IH]; [done |]. cbn [map trim_start]. rewrite plain_unit_space. by destruct (is_space c). Qed.

Lemma map_reverse {A B} (f : A -> B) l : map f (reverse l) = reverse (map f l).
Proof. induction l as [|x l IH]; [done |]. cbn [map]. by rewrite !reverse_cons, map_app, IH. Qed.

Lemma trim_end_map s : trim_end (map plain_unit s) = map plain_unit (trim_end s).
Proof. unfold trim_end. by rewrite <- map_reverse, trim_start_map, map_reverse. Qed.

Lemma trim_start_idem s : trim_start (trim_start s) = trim_start s.
Proof. induction s as [|c s IH]; [done |]. cbn [trim_start]. destruct (is_space c) eqn:E; [done |]. cbn [trim_start]. by rewrite E. Qed.

Lemma trim_end_idem s : trim_end (trim_end s) = trim_end s.
Proof. unfold trim_end. by rewrite reverse_involutive, trim_start_idem. Qed.

Lemma elem_of_trim_start c s : c ∈ trim_start s -> c ∈ s.
Proof. intros H. destruct (trim_start_suffix s) as [k Hk]. rewrite Hk. apply elem_of_app. by right. Qed.

Lemma elem_of_trim_end c s : c ∈ trim_end s -> c ∈ s.
Proof. unfold trim_end. rewrite elem_of_reverse. intros H%elem_of_trim_start. by rewrite elem_of_reverse in H. Qed.

Lemma elem_of_trim c s : c ∈ trim s -> c ∈ s.
Proof. intros H%elem_of_trim_end. by apply elem_of_trim_start. Qed.

(** The lines after a change of each line. *)
Lemma split_map_lines f s : (forall c l, c ∈ f l -> c ∈ l) -> split_on 10 (map_lines f s) = map f (split_on 10 s).
Proof.
  intros Hf. unfold map_lines. apply split_join.
  - destruct (split_on_cons 10 s) as (l & ls & ->). done.
  - apply Forall_forall. intros l (k & <- & Hk)%list_elem_of_In%in_map_iff.
    pose proof (split_on_Forall 10 s) as H. rewrite Forall_forall in H. apply list_elem_of_In in Hk. naive_solver.
Qed.

Lemma split_on_plain_unit s : split_on 10 (map plain_unit s) = map (map plain_unit) (split_on 10 s).
Proof.
  induction s as [|c s IH]; [done |]. cbn [map split_on]. rewrite IH.
  destruct (c =? 10) eqn:E.
  - apply Z.eqb_eq in E as ->. done.
  - rewrite (proj2 (Z.eqb_neq (plain_unit c) 10)) by (rewrite plain_unit_newline; by apply Z.eqb_neq).
    by destruct (split_on 10 s).
Qed.

(** A normalized text that [nfkc] leaves alone is left alone. *)
Lemma normalize_stable nfkc s :
  nfkc (normalizeForFuzzyMatch nfkc s) = normalizeForFuzzyMatch nfkc s ->
  normalizeForFuzzyMatch nfkc (normalizeForFuzzyMatch nfkc s) = normalizeForFuzzyMatch nfkc s.
Proof.
  intros H. unfold normalizeForFuzzyMatch at 1. rewrite H. unfold normalizeForFuzzyMatch.
  set (y := map_lines trim_end (nfkc s)).
  assert (Hy : map_lines trim_end (map plain_unit y) = map plain_unit y).
  { unfold map_lines at 1. rewrite split_on_plain_unit, map_map.
    unfold y. rewrite split_map_lines, map_map by (intros; by apply elem_of_trim_end).
    rewrite <- (join_split 10 (map plain_unit (map_lines trim_end (nfkc s)))), split_on_plain_unit, split_map_lines, map_map
      by (intros; by apply elem_of_trim_end).
    unfold nl. f_equal. apply map_ext. intros l. by rewrite trim_end_map, trim_end_idem. }
  rewrite Hy, map_map. apply map_ext. apply plain_unit_idem.
Qed.

(** ** A fuzzy match lies in the normalized content *)

(** The code units of lines, each with its newline. *)
Definition units (ls : list jsstr) : Z := sumZ (map (fun l => zlen l + 1) ls).

Lemma units_app ls ks : units (ls ++ ks) = units ls + units ks.
Proof. unfold units. by rewrite map_app, sumZ_app. Qed.

Lemma units_nonneg ls : 0 <= units ls.
Proof. unfold units. induction ls as [|l ls IH]; simpl; [lia |]. pose proof (zlen_nonneg l). lia. Qed.

Lemma units_join ls : ls <> [] -> units ls = zlen (join nl ls) + 1.
Proof.
  unfold units. induction ls as [|l ls IH]; intros H; [done |]. destruct ls as [|k ls].
  - simpl. lia.
  - cbn [map sumZ] in *. rewrite join_cons2, !zlen_app, IH by done. unfold nl, zlen. simpl. lia.
Qed.

Lemma units_split s : units (split_on 10 s) = zlen s + 1.
Proof.
  rewrite units_join by (destruct (split_on_cons 10 s) as (l & ls & ->); done).
  unfold nl. by rewrite join_split.
Qed.

Lemma units_lookup (ls : list jsstr) L k :
  (L + k <= length ls)%nat ->
  sumZ (map (fun i => zlen (default [] (ls !! (L + i)%nat)) + 1) (seq 0 k)) = units (take k (drop L ls)).
Proof.
  induction k as [|k IH]; intros Hk; [done |].
  rewrite seq_S, map_app, sumZ_app, IH by lia. simpl.
  destruct (lookup_lt_is_Some_2 ls (L + k)) as [l Hl]; [lia |]. rewrite Hl.
  rewrite (take_S_r _ _ l), units_app by (by rewrite lookup_drop). done.
Qed.

Lemma split_count_index sep s : split_count s sep = 1 -> exists i, index_of sep s = Some i.
Proof.
  unfold split_count, split_str. destruct sep as [|c sep]; intros H.
  - exists 0%nat. by destruct s.
  - cbn [split_loop] in H. destruct (index_of (c :: sep) s) as [i|]; [by exists i | done].
Qed.

(** The lines before a line, and those from it on. *)
Lemma lines_split (ls : list jsstr) L k : (0 < k)%nat -> (L + k <= length ls)%nat ->
  exists u v, join nl ls = u ++ join nl (take k (drop L ls)) ++ v /\ zlen u = units (take L ls) /\ line_start u /\ line_end v.
Proof.
  intros Hk HL.
  assert (Hr : exists v, join nl (drop L ls) = join nl (take k (drop L ls)) ++ v /\ line_end v).
  { destruct (decide (drop k (drop L ls) = [])) as [E|E].
    - exists []. rewrite <- (take_drop k (drop L ls)) at 1. rewrite E, !app_nil_r. split; [done|by left].
    - exists (nl ++ join nl (drop k (drop L ls))). split; [|right; by eexists].
      rewrite <- join_app; [by rewrite take_drop| |done]. intros Ht%(f_equal length). rewrite length_take, length_drop in Ht. simpl in Ht. lia. }
  destruct Hr as (v & Hv & Hve). destruct (decide (take L ls = [])) as [E|E].
  - exists [], v. rewrite <- (take_drop L ls) at 1. rewrite E. cbn [app]. rewrite Hv. split_and!; [done|done|by left|done].
  - exists (join nl (take L ls) ++ nl), v. rewrite <- (take_drop L ls) at 1. rewrite join_app, Hv, <- app_assoc; [|done|].
    + split_and!; [done| |right; by eexists|done]. rewrite units_join, zlen_app by done. done.
    + intros Hd%(f_equal length). rewrite length_drop in Hd. simpl in Hd. lia.
Qed.

(** The whole lines of a line-trimmed match. *)
Lemma trimmed_match_region fc fo i :
  index_of (map_lines trim fo) (map_lines trim fc) = Some i ->
  let L := (length (split_on 10 (take i (map_lines trim fc))) - 1)%nat in
  let k := length (split_on 10 (map_lines trim fo)) in
  let len := sumZ (map (fun j => zlen (default [] (split_on 10 fc !! (L + j)%nat)) + (if (j <? k - 1)%nat then 1 else 0)) (seq 0 k)) in
  exists u region v, fc = u ++ region ++ v /\ zlen u = units (take L (split_on 10 fc)) /\ zlen region = len /\
    line_start u /\ line_end v /\
    exists a b, 10 ∉ a /\ 10 ∉ b /\ map_lines trim region = a ++ map_lines trim fo ++ b.
Proof.
  intros Hi. cbv zeta. apply index_of_Some in Hi.
  set (q := drop (i + length (map_lines trim fo)) (map_lines trim fc)) in Hi.
  set (p := take i (map_lines trim fc)) in *. set (tc := map_lines trim fc) in *.
  assert (Hls : split_on 10 tc = map trim (split_on 10 fc)) by (apply split_map_lines; intros; by apply elem_of_trim).
  set (k := length (split_on 10 (map_lines trim fo))). set (L := (length (split_on 10 p) - 1)%nat).
  destruct (split_on_within 10 p (map_lines trim fo) q) as (a & b & Ha & Hb & Hw).
  rewrite <- Hi, Hls in Hw. fold k L in Hw. set (ls := split_on 10 fc) in *.
  pose proof (split_on_length_pos 10 (map_lines trim fo)) as Hk. fold k in Hk.
  assert (HLk : (L + k <= length ls)%nat).
  { apply (f_equal (fun s => length (split_on 10 s))) in Hi. rewrite Hls, length_map in Hi.
    pose proof (split_on_length_app 10 p (map_lines trim fo ++ q)) as H1.
    pose proof (split_on_length_app 10 (map_lines trim fo) q) as H2.
    pose proof (split_on_length_pos 10 q). pose proof (split_on_length_pos 10 p). unfold L, k, ls in *. lia. }
  destruct (lines_split ls L k) as (u & v & Hfc & Hu & Hus & Hve); [lia|done|].
  exists u, (join nl (take k (drop L ls))), v. split_and!; [by rewrite <- Hfc; unfold nl, ls; rewrite join_split|done| |done|done|].
  - clearbody L k. clear -HLk Hk. destruct k as [|k]; [lia|]. rewrite seq_S, map_app, sumZ_app. simpl Nat.sub. rewrite Nat.sub_0_r.
    rewrite (map_ext_in _ (fun j => zlen (default [] (ls !! (L + j)%nat)) + 1)).
    2: { intros j Hj%in_seq. replace (j <? k)%nat with true; [done |]. symmetry. apply Nat.ltb_lt. lia. }
    rewrite units_lookup by lia. cbn [map sumZ]. rewrite Nat.add_0_l, Nat.ltb_irrefl.
    destruct (lookup_lt_is_Some_2 ls (L + k)) as [l Hl]; [lia |]. rewrite Hl. simpl default.
    rewrite (take_S_r _ _ l) by (by rewrite lookup_drop).
    pose proof (units_join (take k (drop L ls) ++ [l]) ltac:(by destruct (take k (drop L ls)))) as Hj.
    rewrite units_app in Hj. change (units [l]) with (zlen l + 1 + 0) in Hj. lia.
  - exists a, b. split_and!; [done..|]. unfold map_lines at 1. unfold nl at 2.
    rewrite split_join; [| |].
    + rewrite <- firstn_map, <- skipn_map, Hw. unfold nl. apply join_split.
    + intros Ht%(f_equal length). rewrite length_take, length_drop in Ht. simpl in Ht. lia.
    + apply Forall_take, Forall_drop, split_on_Forall.
Qed.

Lemma fuzzyFindText_region nfkc content old :
  let r := fuzzyFindText nfkc content old in
  fm_found r = true -> index_of old content = None ->
  fm_usedFuzzyMatch r = true /\ exists u region v, normalizeForFuzzyMatch nfkc content = u ++ region ++ v /\
    fm_index r = zlen u /\ fm_matchLength r = zlen region /\ fuzzy_region nfkc u region v old.
Proof.
  cbv zeta. unfold fuzzyFindText. intros Hf Hn. rewrite Hn in *. set (fc := normalizeForFuzzyMatch nfkc content) in *.
  set (fo := normalizeForFuzzyMatch nfkc old) in *. destruct (index_of fo fc) as [i|] eqn:Ei.
  - cbn [fm_usedFuzzyMatch fm_index fm_matchLength]. split; [done|].
    pose proof (index_of_bound _ _ _ Ei) as Hl. apply index_of_Some in Ei. eexists _, _, _. split; [exact Ei|].
    split_and!; [unfold zlen; rewrite length_take; lia|done|by left].
  - destruct (split_count _ _ =? 1) eqn:Ec; [| done]. apply Z.eqb_eq, split_count_index in Ec as [i Ec].
    rewrite Ec. cbn [fm_usedFuzzyMatch fm_index fm_matchLength default]. split; [done|].
    destruct (trimmed_match_region _ _ _ Ec) as (u & region & v & H1 & H2 & H3 & H4 & H5 & H6).
    exists u, region, v. split_and!; [exact H1|by rewrite H2|by rewrite H3|]. right. split_and!; [by rewrite <- H1|done..].
Qed.

Lemma match_edit_fuzzy nfkc content path total i e m :
  normalizeForFuzzyMatch nfkc content = content -> index_of (ed_oldText e) content = None ->
  match_edit nfkc content path total i e = Ok m -> match_of nfkc content e m.
Proof.
  intros Hs Hn. unfold match_edit. pose proof (fuzzyFindText_region nfkc content (ed_oldText e)) as H. cbv zeta in H.
  destruct (fm_found (fuzzyFindText nfkc content (ed_oldText e))) eqn:Ef; [| done]. cbn [negb].
  destruct (1 <? _); [done |]. intros [= <-]. destruct (H eq_refl Hn) as (Hu & u & region & v & H1 & H2 & H3 & H4).
  rewrite Hs in H1. rewrite Hu, H2, H3. pose proof (zlen_nonneg u). pose proof (zlen_nonneg region). pose proof (zlen_nonneg v).
  assert (Hsub : substring content (zlen u) (zlen u + zlen region) = region).
  { rewrite substring_mid by (rewrite ?H1, ?zlen_app; lia). rewrite H1. unfold zlen. rewrite !Nat2Z.id, drop_app_length. apply take_app_length. }
  split; unfold in_bounds, match_end; cbn [me_matchIndex me_matchLength me_newText]; [rewrite ?H1, ?zlen_app; lia|].
  rewrite Hsub. right.
  replace (take (Z.to_nat (zlen u)) content) with u by (rewrite H1; unfold zlen; by rewrite Nat2Z.id, take_app_length).
  replace (drop (Z.to_nat (zlen u + zlen region)) content) with v
    by (rewrite H1, app_assoc; unfold zlen; by rewrite drop_app_length' by (rewrite length_app; lia)).
  rewrite <- H1. done.
Qed.

(** ** The pieces of an edited content *)

(** Text left alone, then a region and what replaces it, for an edit. *)
Record piece := mkPiece { pc_gap : jsstr; pc_old : jsstr; pc_new : jsstr; pc_edit : Edit }.

Definition text_before (ps : list piece) (tail : jsstr) : jsstr := concat (map (fun p => pc_gap p ++ pc_old p) ps) ++ tail.
Definition text_after (ps : list piece) (tail : jsstr) : jsstr := concat (map (fun p => pc_gap p ++ pc_new p) ps) ++ tail.

(** Each piece is as its edit says, in its place between the text before and after. *)
Definition pieces_ok (nfkc : jsstr -> jsstr) (start : jsstr) (ps : list piece) (tail : jsstr) : Prop :=
  forall before p after, ps = before ++ p :: after ->
    region_ok nfkc (start ++ text_before before (pc_gap p)) (pc_old p) (text_before after tail) (pc_new p) (pc_edit p).

Lemma match_split content pos m :
  0 <= pos -> pos <= me_matchIndex m -> in_bounds content m ->
  drop (Z.to_nat pos) content =
  take (Z.to_nat (me_matchIndex m - pos)) (drop (Z.to_nat pos) content)
  ++ substring content (me_matchIndex m) (match_end m) ++ drop (Z.to_nat (match_end m)) content.
Proof.
  intros H0 H1 (H2 & H3 & H4). unfold match_end in *. rewrite substring_mid by lia.
  rewrite <- (take_drop (Z.to_nat (me_matchIndex m - pos)) (drop (Z.to_nat pos) content)) at 1. f_equal.
  rewrite drop_drop. replace (Z.to_nat pos + Z.to_nat (me_matchIndex m - pos))%nat with (Z.to_nat (me_matchIndex m)) by lia.
  rewrite <- (take_drop (Z.to_nat (me_matchLength m)) (drop (Z.to_nat (me_matchIndex m)) content)) at 1. f_equal.
  rewrite drop_drop. f_equal. lia.
Qed.

Lemma match_take content m : in_bounds content m ->
  take (Z.to_nat (me_matchIndex m)) content ++ substring content (me_matchIndex m) (match_end m)
  = take (Z.to_nat (match_end m)) content.
Proof.
  intros (H1 & H2 & H3). unfold match_end in *. rewrite substring_mid by lia.
  rewrite Z2Nat.inj_add by done. apply take_take_drop.
Qed.

Lemma splice_pieces nfkc content es ms : forall pos,
  0 <= pos -> in_order pos ms content -> Forall2 (match_of nfkc content) es ms ->
  exists ps tail, drop (Z.to_nat pos) content = text_before ps tail /\ splice pos ms content = text_after ps tail
    /\ map pc_edit ps = es /\ pieces_ok nfkc (take (Z.to_nat pos) content) ps tail.
Proof.
  revert ms. induction es as [|e es IH]; intros ms pos Hp Ho Hf; inversion Hf as [|? m ? ms' Hm Hms]; subst.
  - exists [], (drop (Z.to_nat pos) content). split_and!; [done..|]. by intros [|p0 before] p after.
  - destruct Ho as (Ho1 & Ho2 & Ho3). destruct Hm as [Hb Ht].
    destruct (IH ms' (match_end m)) as (ps & tail & E1 & E2 & E3 & E4); [unfold match_end; lia | done.. |].
    set (gap := take (Z.to_nat (me_matchIndex m - pos)) (drop (Z.to_nat pos) content)).
    exists (mkPiece gap (substring content (me_matchIndex m) (match_end m)) (me_newText m) e :: ps), tail.
    assert (Hgap : take (Z.to_nat pos) content ++ gap = take (Z.to_nat (me_matchIndex m)) content).
    { unfold gap. rewrite <- (take_drop (Z.to_nat pos) (take (Z.to_nat (me_matchIndex m)) content)), take_take, Nat.min_l by lia.
      f_equal. rewrite skipn_firstn_comm. f_equal. lia. }
    split; [| split; [| split; [by f_equal/= |]]].
    + rewrite (match_split content pos m), E1 by done. unfold text_before. cbn [map concat pc_gap pc_old].
      by rewrite <- !app_assoc.
    + cbn [splice]. rewrite E2. unfold text_after. cbn [map concat pc_gap pc_new]. by rewrite <- !app_assoc.
    + intros [|p0 before] p after [= <- Eps].
      * subst. cbn [pc_gap pc_old pc_new pc_edit]. rewrite <- E1. change (text_before [] gap) with gap. by rewrite Hgap.
      * specialize (E4 before p after Eps). revert E4. unfold text_before. cbn [map concat pc_gap pc_old].
        rewrite <- !app_assoc, (app_assoc (take _ _) gap), Hgap. rewrite (app_assoc (take _ _) (substring _ _ _)).
        rewrite match_take by done. done.
Qed.

Lemma match_edits_matches nfkc content path total es : forall i ms,
  (forall e j m, e ∈ es -> match_edit nfkc content path total j e = Ok m -> match_of nfkc content e m) ->
  match_edits nfkc content path total i es = Ok ms -> Forall2 (match_of nfkc content) es ms.
Proof.
  induction es as [|e es IH]; intros i ms Hm; cbn [match_edits]; [intros [= <-]; constructor |].
  destruct (match_edit _ _ _ _ _ e) as [m|] eqn:E; [| done].
  destruct (match_edits _ _ _ _ _ es) as [ms'|] eqn:Es; [| done]. intros [= <-].
  constructor; [by apply (Hm e i); [left |] |]. apply (IH (i + 1)); [| done]. intros e' j m' He'. apply Hm. by right.
Qed.

(** The content after applying, given where each edit is found. *)
Lemma applied_pieces nfkc content base edits path r :
  (if existsb fm_usedFuzzyMatch (map (fun e => fuzzyFindText nfkc content (ed_oldText e)) (map normalize_edit edits))
   then normalizeForFuzzyMatch nfkc content else content) = base ->
  (forall e j m, e ∈ map normalize_edit edits ->
     match_edit nfkc base path (zlen (map normalize_edit edits)) j e = Ok m -> match_of nfkc base e m) ->
  applyEditsToNormalizedContent nfkc content edits path = Ok r ->
  ap_baseContent r = base /\ ap_newContent r <> base /\
  exists ps tail, base = text_before ps tail /\ ap_newContent r = text_after ps tail
    /\ map pc_edit ps ≡ₚ map normalize_edit edits /\ pieces_ok nfkc [] ps tail.
Proof.
  intros Hbase Hm. unfold applyEditsToNormalizedContent. destruct (first_empty _); [done |]. rewrite Hbase.
  destruct (match_edits _ _ _ _ _ _) as [ms|] eqn:Ems; [| done].
  destruct (first_overlap _) as [[??]|] eqn:Eo; [done |]. case_bool_decide as Hne; [done |]. intros [= <-].
  cbn [ap_baseContent ap_newContent]. split; [done |]. split; [congruence |].
  apply match_edits_matches in Ems; [| done].
  assert (Hb : Forall (in_bounds base) ms).
  { clear -Ems. induction Ems as [|e m es ms [Hb _] _ IH]; constructor; done. }
  pose proof (sort_matches_in_order _ _ Eo Hb) as Ho.
  apply Forall2_flip in Ems.
  destruct (Permutation_Forall2 (symmetry (isort_Permutation (fun a b => me_matchIndex a <=? me_matchIndex b) ms)) Ems)
    as (es & Hperm & Hf). apply Forall2_flip in Hf. fold (sort_matches ms) in Hf.
  destruct (splice_pieces nfkc base es (sort_matches ms) 0) as (ps & tail & E1 & E2 & E3 & E4); [done.. |].
  exists ps, tail. rewrite (replace_matches_splice 0) by done. cbn [Z.to_nat take app].
  split; [done |]. split; [done |]. split; [by rewrite E3, Hperm | done].
Qed.

Lemma not_fuzzy_exact nfkc content (es : list Edit) e :
  existsb fm_usedFuzzyMatch (map (fun e => fuzzyFindText nfkc content (ed_oldText e)) es) = false -> e ∈ es ->
  fm_found (fuzzyFindText nfkc content (ed_oldText e)) = true -> exists i, index_of (ed_oldText e) content = Some i.
Proof.
  intros Hx He Hf. destruct (index_of (ed_oldText e) content) as [i|] eqn:Ei; [by exists i |].
  destruct (fuzzyFindText_region nfkc content (ed_oldText e) Hf Ei) as [Hu _].
  apply not_true_iff_false in Hx. destruct Hx. apply existsb_exists.
  eexists. split; [| exact Hu]. apply in_map_iff. exists e. split; [done |]. by apply list_elem_of_In.
Qed.

Lemma match_edits_found nfkc content path total es : forall i ms,
  match_edits nfkc content path total i es = Ok ms ->
  Forall (fun e => fm_found (fuzzyFindText nfkc content (ed_oldText e)) = true /\ countOccurrences nfkc content (ed_oldText e) <= 1) es.
Proof.
  induction es as [|e es IH]; intros i ms; cbn [match_edits]; [by constructor|].
  destruct (match_edit nfkc content path total i e) as [m|] eqn:E; [|done].
  destruct (match_edits _ _ _ _ _ es) as [ms'|] eqn:Es; [|done]. intros _. constructor; [|by eapply IH].
  unfold match_edit in E. destruct (fm_found _); [|done]. cbn [negb] in E. destruct (1 <? _) eqn:Ec; [done|]. split; [done|lia].
Qed.

Lemma applied_found nfkc content edits path r : applyEditsToNormalizedContent nfkc content edits path = Ok r ->
  ap_baseContent r =
    (if existsb fm_usedFuzzyMatch (map (fun e => fuzzyFindText nfkc content (ed_oldText e)) (map normalize_edit edits))
     then normalizeForFuzzyMatch nfkc content else content) /\
  Forall (fun e => fm_found (fuzzyFindText nfkc (ap_baseContent r) (ed_oldText e)) = true /\
                   countOccurrences nfkc (ap_baseContent r) (ed_oldText e) <= 1) (map normalize_edit edits).
Proof.
  unfold applyEditsToNormalizedContent. destruct (first_empty _); [done|].
  destruct (match_edits _ _ _ _ _ _) as [ms|] eqn:Ems; [|done].
  destruct (first_overlap _) as [[??]|]; [done|]. case_bool_decide; [done|]. intros [= <-]. split; [done|]. by eapply match_edits_found.
Qed.

(** The content worked on: normalized exactly when some old text does not occur. *)
Definition base_for (nfkc : jsstr -> jsstr) (content : jsstr) (edits : list Edit) : jsstr :=
  if forallb (fun e => includes (normalizeToLF (ed_oldText e)) content) edits then content
  else normalizeForFuzzyMatch nfkc content.

Lemma applied_base nfkc content edits path r :
  applyEditsToNormalizedContent nfkc content edits path = Ok r -> ap_baseContent r = base_for nfkc content edits.
Proof.
  intros [Hb Hf]%applied_found. rewrite Hb in *. clear Hb. unfold base_for. destruct (existsb _ _) eqn:Ex.
  - destruct (forallb _ _) eqn:Ea; [exfalso|done]. apply existsb_exists in Ex as (x & (e & <- & He)%in_map_iff & Hu).
    apply in_map_iff in He as (e' & <- & He'). rewrite forallb_forall in Ea. specialize (Ea e' He'). unfold includes in Ea.
    unfold fuzzyFindText in Hu. cbn [normalize_edit ed_oldText] in Hu. by destruct (index_of (normalizeToLF (ed_oldText e')) content).
  - destruct (forallb _ _) eqn:Ea; [done|exfalso]. apply not_true_iff_false in Ea. apply Ea, forallb_forall. intros e He.
    rewrite Forall_forall in Hf. destruct (Hf (normalize_edit e)) as [Hfound _].
    { apply list_elem_of_In, in_map_iff. by exists e. }
    destruct (not_fuzzy_exact nfkc content (map normalize_edit edits) (normalize_edit e) Ex) as [k Hk]; [|done|].
    { apply list_elem_of_In, in_map_iff. by exists e. }
    unfold includes. cbn [normalize_edit ed_oldText] in Hk. by rewrite Hk.
Qed.

(** The old text does not occur again after the end of an occurrence, even
    normalized. *)
Definition unique_in (nfkc : jsstr -> jsstr) (content old : jsstr) : Prop :=
  let o := normalizeForFuzzyMatch nfkc old in
  o <> [] -> forall a b c, normalizeForFuzzyMatch nfkc content <> a ++ o ++ b ++ o ++ c.

(** C7: Applying edits changes only the regions found.  The content worked on is the
    given content when every old text occurs in it as it is, and the normalized content
    otherwise.  It falls into pieces: text that stays and, for each edit exactly once, a
    region that is replaced.  The region is the edit's old text and becomes its new
    text; or the old text occurs nowhere and the new text takes the region's
    indentation, and then the region is the normalized old text or, when that occurs
    nowhere either, whole lines that hold it once indentation is left out on both sides
    (more may stand on the first and last of them, and is replaced too).  No old text,
    normalized, occurs a second time after an occurrence.  The result differs from the
    content.  [nfkc] leaves alone a text that is normalized already. *)
Theorem edits_applied nfkc content edits path r :
  (forall s, nfkc (normalizeForFuzzyMatch nfkc s) = normalizeForFuzzyMatch nfkc s) ->
  applyEditsToNormalizedContent nfkc content edits path = Ok r ->
  ap_baseContent r = base_for nfkc content edits
  /\ ap_newContent r <> ap_baseContent r
  /\ Forall (unique_in nfkc (ap_baseContent r)) (map ed_oldText (map normalize_edit edits))
  /\ exists ps tail, ap_baseContent r = text_before ps tail /\ ap_newContent r = text_after ps tail
       /\ map pc_edit ps ≡ₚ map normalize_edit edits /\ pieces_ok nfkc [] ps tail.
Proof.
  intros Hn Hr. pose proof (applied_base _ _ _ _ _ Hr) as Hbase. destruct (applied_found _ _ _ _ _ Hr) as [Hb Hf].
  split; [done|]. eapply applied_pieces in Hr as (_ & Hd & Hps); [|by symmetry|].
  - split; [done|]. split; [|done]. rewrite Forall_map. eapply Forall_impl; [exact Hf|].
    intros e [_ Hc] Ho a b c. by apply split_once.
  - intros e j m He Hm. rewrite Forall_forall in Hf. destruct (Hf e He) as [Hfound _].
    rewrite Hb in *. destruct (existsb _ _) eqn:Ex.
    + destruct (index_of (ed_oldText e) (normalizeForFuzzyMatch nfkc content)) as [k|] eqn:Ek;
        [by eapply match_edit_exact | by eapply match_edit_fuzzy; [apply normalize_stable | |]].
    + destruct (not_fuzzy_exact _ _ _ _ Ex He Hfound) as [k Hk]. by eapply match_edit_exact.
Qed.

Lemma edits_exact_pieces nfkc content edits path r :
  Forall (fun e => index_of (normalizeToLF (ed_oldText e)) content <> None) edits ->
  applyEditsToNormalizedContent nfkc content edits path = Ok r ->
  ap_baseContent r = content /\ ap_newContent r <> content
  /\ exists ps tail, content = text_before ps tail /\ ap_newContent r = text_after ps tail
       /\ map pc_edit ps ≡ₚ map normalize_edit edits
       /\ Forall (fun p => pc_old p = ed_oldText (pc_edit p) /\ pc_new p = ed_newText (pc_edit p)) ps.
Proof.
  intros Hocc Hr.
  assert (Hin : forall e, e ∈ map normalize_edit edits -> exists k, index_of (ed_oldText e) content = Some k).
  { intros e (e' & <- & He')%list_elem_of_In%in_map_iff. rewrite Forall_forall in Hocc.
    apply list_elem_of_In, Hocc in He'. simpl. by destruct (index_of _ content) as [k|]; [exists k |]. }
  eapply (applied_pieces nfkc content content) in Hr as (-> & Hd & ps & tail & E1 & E2 & E3 & E4).
  - split; [done |]. split; [done |]. exists ps, tail. split_and!; [done.. |].
    apply Forall_forall. intros p Hp. destruct (list_elem_of_split _ _ Hp) as (before & after & Eps).
    destruct (E4 before p after Eps) as [? | [Hnone _]]; [done |].
    assert (Hall : text_before before (pc_gap p) ++ pc_old p ++ text_before after tail = content).
    { rewrite E1, Eps. unfold text_before. rewrite map_app, concat_app. cbn [map concat]. by rewrite <- !app_assoc. }
    cbn [app] in Hnone. rewrite Hall in Hnone. destruct (Hin (pc_edit p)) as [k Hk]; [| congruence].
    rewrite <- E3. apply list_elem_of_In, in_map_iff. exists p. split; [done |]. by apply list_elem_of_In.
  - replace (existsb _ _) with false; [done |]. symmetry. apply not_true_iff_false.
    intros (x & (e & <- & He%list_elem_of_In)%in_map_iff & Hx)%existsb_exists.
    destruct (Hin e He) as [k Hk]. unfold fuzzyFindText in Hx. by rewrite Hk in Hx.
  - intros e j m He Hm. destruct (Hin e He) as [k Hk]. by eapply match_edit_exact.
Qed.

(** Where every old text occurs in the content, as the tool asks for, the content is
    edited as it is: it falls into text that stays, byte for byte, and the old text of
    each edit exactly once, which its new text replaces.  Nothing is assumed of the
    normalization. *)
Theorem edits_exact nfkc content edits path r :
  Forall (fun e => index_of (normalizeToLF (ed_oldText e)) content <> None) edits ->
  applyEditsToNormalizedContent nfkc content edits path = Ok r ->
  ap_baseContent r = content /\ ap_newContent r <> content
  /\ exists ps tail, content = text_before ps tail /\ ap_newContent r = text_after ps tail
       /\ map pc_edit ps ≡ₚ map normalize_edit edits
       /\ Forall (fun p => pc_old p = ed_oldText (pc_edit p) /\ pc_new p = ed_newText (pc_edit p)) ps.
Proof. apply edits_exact_pieces. Qed.
