(* ===== verification/Paths.v ===== *)
(** Paths of the tools ([packages/coding-agent/src/utils/paths.ts],
    [core/tools/path-utils.ts]) on a POSIX system: the functions of [node:path] they
    use, and the resolution of a path given by a model against the working directory.
    [os.homedir], [process.cwd], [url.fileURLToPath], the existence of files and
    Unicode normalization are parameters. *)
From S2P Require Import Prelude JsString StringSearch Json Regex Effects.

(** ** [node:path], POSIX *)

Definition slash : Z := 47.
Definition segments (p : jsstr) : list jsstr := split_on slash p.
Definition dot_segment : jsstr := js ".".
Definition up_segment : jsstr := js "..".

(** [normalizeString], with the segments kept so far in reverse order. *)
Fixpoint normalize_segments (allowAboveRoot : bool) (acc segs : list jsstr) : list jsstr :=
  match segs with
  | [] => reverse acc
  | s :: segs' =>
      if is_empty s || bool_decide (s = dot_segment) then normalize_segments allowAboveRoot acc segs'
      else if bool_decide (s = up_segment) then
        match acc with
        | top :: acc' =>
            if bool_decide (top = up_segment)
            then normalize_segments allowAboveRoot (if allowAboveRoot then up_segment :: acc else acc) segs'
            else normalize_segments allowAboveRoot acc' segs'
        | [] => normalize_segments allowAboveRoot (if allowAboveRoot then [up_segment] else []) segs'
        end
      else normalize_segments allowAboveRoot (s :: acc) segs'
  end.

Definition isAbsolute (p : jsstr) : bool := starts_with [slash] p.
Definition absolute_path (segs : list jsstr) : jsstr := slash :: join [slash] segs.

(** [normalize(path)]. *)
Definition node_normalize (p : jsstr) : jsstr :=
  match p with
  | [] => dot_segment
  | _ =>
      let absolute := isAbsolute p in
      let trailing := ends_with [slash] p in
      let path := join [slash] (normalize_segments (negb absolute) [] (segments p)) in
      match path with
      | [] => if absolute then [slash] else if trailing then js "./" else dot_segment
      | _ => (if absolute then [slash] else []) ++ path ++ (if trailing then [slash] else [])
      end
  end.

(** [join(a, b)]. *)
Definition node_join (a b : jsstr) : jsstr :=
  match filter (fun p => is_empty p = false) [a; b] with
  | [] => dot_segment
  | ps => node_normalize (join [slash] ps)
  end.

(** [resolve(...paths)]: the paths from the right until one is absolute, then the
    working directory of the process. *)
Fixpoint resolve_prefix (rpaths : list jsstr) (resolved : jsstr) : jsstr :=
  match rpaths with
  | [] => resolved
  | p :: rpaths' =>
      if is_empty p then resolve_prefix rpaths' resolved
      else let resolved' := p ++ [slash] ++ resolved in
           if isAbsolute p then resolved' else resolve_prefix rpaths' resolved'
  end.

Definition node_resolve (process_cwd : jsstr) (paths : list jsstr) : jsstr :=
  let resolved := resolve_prefix (reverse paths ++ [process_cwd]) [] in
  if isAbsolute resolved then absolute_path (normalize_segments false [] (segments resolved))
  else match join [slash] (normalize_segments true [] (segments resolved)) with [] => dot_segment | p => p end.

(** The segments two paths begin with. *)
Fixpoint common_segments (a b : list jsstr) : nat :=
  match a, b with
  | x :: a', y :: b' => if bool_decide (x = y) then S (common_segments a' b') else 0%nat
  | _, _ => 0%nat
  end.

Definition kept_segments (p : jsstr) : list jsstr := normalize_segments false [] (segments p).

(** [relative(from, to)]. *)
Definition node_relative (process_cwd from to : jsstr) : jsstr :=
  let from := kept_segments (node_resolve process_cwd [from]) in
  let to := kept_segments (node_resolve process_cwd [to]) in
  let n := common_segments from to in
  join [slash] (replicate (length from - n) up_segment ++ drop n to).

(** [dirname(path)], over the reversed path without its first character: what is left
    of the last slash that a name follows. *)
Fixpoint drop_name (rpath : jsstr) (seen : bool) : option jsstr :=
  match rpath with
  | [] => None
  | c :: rpath' => if c =? slash then (if seen then Some rpath' else drop_name rpath' seen) else drop_name rpath' true
  end.

Definition node_dirname (p : jsstr) : jsstr :=
  match p with
  | [] => dot_segment
  | c :: p' =>
      match drop_name (reverse p') false with
      | None => if c =? slash then [slash] else dot_segment
      | Some r => if (c =? slash) && is_empty r then js "//" else c :: reverse r
      end
  end.

(** ** [utils/paths.ts] *)

Record PathInputOptions := mkPathOptions {
  po_trim : bool;
  po_expandTilde : option bool;
  po_homeDir : option jsstr;
  po_stripAtPrefix : bool;
  po_normalizeUnicodeSpaces : bool;
}.
Definition no_path_options : PathInputOptions := mkPathOptions false None None false false.
Definition tool_path_options : PathInputOptions := mkPathOptions false None None true true.

Definition isLocalPath (value : jsstr) : bool :=
  negb (existsb (fun p => starts_with (js p) (trim value)) ["npm:"; "git:"; "github:"; "http:"; "https:"; "ssh:"]%string).

Definition is_unicode_space (c : Z) : bool :=
  (c =? 160) || ((8192 <=? c) && (c <=? 8202)) || (c =? 8239) || (c =? 8287) || (c =? 12288).

Section Paths.
Context (homedir process_cwd : jsstr) (fileURLToPath : jsstr -> result jsstr jsstr).

Definition normalizePath (input : jsstr) (options : PathInputOptions) : result jsstr jsstr :=
  let normalized := if po_trim options then trim input else input in
  let normalized :=
    if po_normalizeUnicodeSpaces options then map (fun c => if is_unicode_space c then 32 else c) normalized else normalized in
  let normalized :=
    if po_stripAtPrefix options && starts_with (js "@") normalized then drop 1 normalized else normalized in
  let home := default homedir (po_homeDir options) in
  if default true (po_expandTilde options) && bool_decide (normalized = js "~") then Ok home
  else if default true (po_expandTilde options) && starts_with (js "~/") normalized then Ok (node_join home (drop 2 normalized))
  else if starts_with (js "file://") normalized then fileURLToPath normalized
  else Ok normalized.

Definition resolvePath (input : jsstr) (baseDir : option jsstr) (options : PathInputOptions) : result jsstr jsstr :=
  match normalizePath input options with
  | Throw e => Throw e
  | Ok normalized =>
      match normalizePath (default process_cwd baseDir) no_path_options with
      | Throw e => Throw e
      | Ok normalizedBaseDir =>
          Ok (if isAbsolute normalized then node_resolve process_cwd [normalized]
              else node_resolve process_cwd [normalizedBaseDir; normalized])
      end
  end.

Definition getCwdRelativePath (filePath cwd : jsstr) : result jsstr (option jsstr) :=
  match resolvePath cwd None no_path_options with
  | Throw e => Throw e
  | Ok resolvedCwd =>
      match resolvePath filePath (Some resolvedCwd) no_path_options with
      | Throw e => Throw e
      | Ok resolvedPath =>
          let relativePath := node_relative process_cwd resolvedCwd resolvedPath in
          let isInsideCwd :=
            is_empty relativePath
            || (negb (bool_decide (relativePath = up_segment)) && negb (starts_with (js "../") relativePath)
                && negb (isAbsolute relativePath)) in
          Ok (if isInsideCwd then Some (if is_empty relativePath then dot_segment else relativePath) else None)
      end
  end.

Definition formatPathRelativeToCwdOrAbsolute (filePath cwd : jsstr) : result jsstr jsstr :=
  match resolvePath filePath (Some cwd) no_path_options with
  | Throw e => Throw e
  | Ok absolutePath =>
      match getCwdRelativePath absolutePath cwd with
      | Throw e => Throw e
      | Ok r => Ok (default absolutePath r)
      end
  end.

(** ** [core/tools/path-utils.ts] *)

Definition rootless_message (originalPath absoluteCwd : jsstr) : jsstr :=
  js "Path " ++ quote originalPath ++ js " looks like the absolute cwd " ++ quote absoluteCwd
  ++ js " whose leading root separator is missing. Retry with a rooted absolute path or a normal cwd-relative path such as "
  ++ quote (js "src/index.ts") ++ js ". No filesystem operation was performed.".

Definition rejectRootlessCwdQualifiedPath (normalizedPath cwd originalPath : jsstr) : result jsstr unit :=
  match resolvePath cwd None no_path_options with
  | Throw e => Throw e
  | Ok absoluteCwd =>
      if isAbsolute absoluteCwd then
        let rootlessCwd := drop 1 absoluteCwd in
        let comparablePath := node_normalize normalizedPath in
        if negb (is_empty rootlessCwd)
           && (bool_decide (comparablePath = rootlessCwd) || starts_with (rootlessCwd ++ [slash]) comparablePath)
        then Throw (rootless_message originalPath absoluteCwd)
        else Ok tt
      else Ok tt
  end.

Definition expandPath (filePath : jsstr) : result jsstr jsstr := normalizePath filePath tool_path_options.

Definition resolveToCwd (filePath cwd : jsstr) : result jsstr jsstr :=
  match normalizePath filePath tool_path_options with
  | Throw e => Throw e
  | Ok normalized =>
      match rejectRootlessCwdQualifiedPath normalized cwd filePath with
      | Throw e => Throw e
      | Ok _ => resolvePath normalized (Some cwd) no_path_options
      end
  end.

(** ** Paths to read: other spellings of the name on macOS *)

(** [filePath.replace(/ (AM|PM)\./gi, ...)] with a narrow no-break space. *)
Definition am_pm : rx := (exact (js " ") >>> XGroup 1 (XLit (js "am") ||| XLit (js "pm")) >>> exact (js "."))%rx.
Definition tryMacOSScreenshotPath (filePath : jsstr) : jsstr :=
  replace_all am_pm (fun m => [8239] ++ default [] (group 1 (mt_groups m)) ++ js ".") filePath.
Definition tryCurlyQuoteVariant (filePath : jsstr) : jsstr := map (fun c => if c =? 39 then 8217 else c) filePath.

Context (nfd : jsstr -> jsstr) (fileExists : jsstr -> bool).

(** [resolveReadPath], and [resolveReadPathAsync], which asks in the same order. *)
Definition resolveReadPath (filePath cwd : jsstr) : result jsstr jsstr :=
  match resolveToCwd filePath cwd with
  | Throw e => Throw e
  | Ok resolved =>
      let other (variant : jsstr) := negb (bool_decide (variant = resolved)) && fileExists variant in
      let amPmVariant := tryMacOSScreenshotPath resolved in
      let nfdVariant := nfd resolved in
      let curlyVariant := tryCurlyQuoteVariant resolved in
      let nfdCurlyVariant := tryCurlyQuoteVariant nfdVariant in
      Ok (if fileExists resolved then resolved
          else if other amPmVariant then amPmVariant
          else if other nfdVariant then nfdVariant
          else if other curlyVariant then curlyVariant
          else if other nfdCurlyVariant then nfdCurlyVariant
          else resolved)
  end.
End Paths.

(** The path to read is the resolved one unless only another spelling of it exists. *)
Lemma resolveReadPath_exists homedir process_cwd fileURLToPath nfd fileExists filePath cwd p :
  resolveReadPath homedir process_cwd fileURLToPath nfd fileExists filePath cwd = Ok p ->
  exists resolved, resolveToCwd homedir process_cwd fileURLToPath filePath cwd = Ok resolved
    /\ (p = resolved \/ fileExists resolved = false /\ fileExists p = true).
Proof.
  unfold resolveReadPath. destruct (resolveToCwd _ _ _ _ _) as [resolved|]; [| done]. intros [= <-]. exists resolved. split; [done |].
  destruct (fileExists resolved) eqn:E; [by left |].
  repeat match goal with |- context [if negb ?b && fileExists ?v then _ else _] =>
    let E := fresh in destruct (negb b && fileExists v) eqn:E; [right; apply andb_prop in E as [_ ?]; done |] end.
  by left.
Qed.

Example screenshot_name : tryMacOSScreenshotPath (js "/a/Shot 9.41 AM.png") = js "/a/Shot 9.41" ++ [8239] ++ js "AM.png".
Proof. vm_compute. reflexivity. Qed.

(** ** Canonical paths *)

(** A name: not empty, without a slash, and neither dot. *)
Definition name_ok (s : jsstr) : Prop := s <> [] /\ (slash ∉ s) /\ s <> dot_segment /\ s <> up_segment.

Lemma normalize_segments_ok acc segs :
  Forall name_ok acc -> Forall (fun s => slash ∉ s) segs -> Forall name_ok (normalize_segments false acc segs).
Proof.
  revert acc. induction segs as [|s segs IH]; intros acc Ha Hs; cbn [normalize_segments].
  - by apply Forall_reverse.
  - apply Forall_cons in Hs as [Hs Hss].
    destruct (is_empty s) eqn:Ee; [by apply IH |]. apply is_empty_false in Ee.
    case_bool_decide; [by apply IH |]. case_bool_decide; [| by apply IH; [constructor |]].
    destruct acc as [|top acc]; [by apply IH |]. case_bool_decide; [by apply IH |].
    apply IH; [by apply Forall_cons in Ha as [_ ?] | done].
Qed.

Lemma normalize_segments_id acc segs : Forall name_ok segs -> normalize_segments false acc segs = reverse acc ++ segs.
Proof.
  revert acc. induction segs as [|s segs IH]; intros acc Hs; cbn [normalize_segments].
  - by rewrite app_nil_r.
  - apply Forall_cons in Hs as [(H1 & H2 & H3 & H4) Hs].
    rewrite (proj2 (is_empty_false s)), !bool_decide_false by done. cbn [orb].
    rewrite IH, reverse_cons by done. by rewrite <- app_assoc.
Qed.

Lemma kept_absolute segs : Forall name_ok segs -> kept_segments (absolute_path segs) = segs.
Proof.
  intros Hs. unfold kept_segments, segments, absolute_path. cbn [split_on]. rewrite Z.eqb_refl.
  destruct segs as [|s segs]; [done |]. rewrite split_join; [| done |].
  - change (normalize_segments false [] (s :: segs) = s :: segs). by rewrite normalize_segments_id.
  - eapply Forall_impl; [exact Hs |]. by intros ? (_ & ? & _).
Qed.

Lemma kept_segments_ok p : Forall name_ok (kept_segments p).
Proof. apply normalize_segments_ok; [constructor | apply split_on_Forall]. Qed.

Lemma resolve_prefix_absolute rpaths q resolved :
  isAbsolute q = true -> isAbsolute (resolve_prefix (rpaths ++ [q]) resolved) = true.
Proof.
  intros Hq. assert (Hhd : forall p r, isAbsolute p = true -> isAbsolute (p ++ r) = true).
  { intros [|c p] r; [done |]. cbn. by destruct (slash =? c). }
  revert resolved. induction rpaths as [|p rpaths IH]; intros resolved; cbn [app resolve_prefix].
  - destruct q as [|c q]; [done |]. cbn [is_empty]. rewrite Hq. by apply Hhd.
  - destruct (is_empty p); [apply IH |]. destruct (isAbsolute p) eqn:E; [by apply Hhd | apply IH].
Qed.

(** A resolved path is absolute, and its segments are names. *)
Lemma node_resolve_absolute process_cwd paths :
  isAbsolute process_cwd = true -> exists segs, node_resolve process_cwd paths = absolute_path segs /\ Forall name_ok segs.
Proof.
  intros H. unfold node_resolve. rewrite resolve_prefix_absolute by done.
  eexists. split; [done |]. apply kept_segments_ok.
Qed.

Lemma split_on_trailing sep s : split_on sep (s ++ [sep]) = split_on sep s ++ [[]].
Proof.
  induction s as [|c s IH]; cbn [app split_on]; [by rewrite Z.eqb_refl |].
  rewrite IH. destruct (c =? sep); [done |]. by destruct (split_on_cons sep s) as (l & ls & ->).
Qed.

Lemma normalize_segments_trailing b acc segs : normalize_segments b acc (segs ++ [[]]) = normalize_segments b acc segs.
Proof.
  revert acc. induction segs as [|s segs IH]; intros acc; cbn [app normalize_segments]; [done |].
  destruct (_ || _); [done |]. case_bool_decide; [| done]. destruct acc; [done |]. by case_bool_decide.
Qed.

(** Resolving a resolved path changes nothing. *)
Lemma node_resolve_id process_cwd segs : Forall name_ok segs -> node_resolve process_cwd [absolute_path segs] = absolute_path segs.
Proof.
  intros Hs. unfold node_resolve.
  change (resolve_prefix (reverse [absolute_path segs] ++ [process_cwd]) []) with (absolute_path segs ++ [slash]).
  change (isAbsolute (absolute_path segs ++ [slash])) with true. cbv iota. f_equal.
  unfold segments. rewrite split_on_trailing, normalize_segments_trailing. by apply kept_absolute.
Qed.

(** ** Inside a directory *)

Lemma common_segments_prefix a b : a `prefix_of` b -> common_segments a b = length a.
Proof.
  intros [k ->]. induction a as [|x a IH]; [by destruct k |]. cbn [app common_segments length].
  rewrite bool_decide_true by done. by rewrite IH.
Qed.

Lemma common_segments_all a b : (length a <= common_segments a b)%nat -> a `prefix_of` b.
Proof.
  revert b. induction a as [|x a IH]; intros b H; [by exists b |]. destruct b as [|y b]; cbn [common_segments length] in H; [lia |].
  case_bool_decide as E; [| lia]. subst y. apply prefix_cons, IH. lia.
Qed.

(** The relative path does not climb. *)
Definition stays_inside (relativePath : jsstr) : bool :=
  is_empty relativePath
  || (negb (bool_decide (relativePath = up_segment)) && negb (starts_with (js "../") relativePath)
      && negb (isAbsolute relativePath)).

Lemma join_head_ok segs : Forall name_ok segs -> stays_inside (join [slash] segs) = true.
Proof.
  destruct segs as [|s segs]; [done |]. intros Hs.
  assert (Hj : split_on slash (join [slash] (s :: segs)) = s :: segs).
  { apply split_join; [done |]. eapply Forall_impl; [exact Hs |]. by intros ? (_ & ? & _). }
  apply Forall_cons in Hs as [(H1 & H2 & H3 & H4) _].
  unfold stays_inside. apply orb_true_iff. right. rewrite !andb_true_iff, !negb_true_iff. split_and!.
  - apply bool_decide_eq_false. intros E. rewrite E in Hj. by injection Hj as <-.
  - apply not_true_iff_false. intros [k E]%starts_with_prefix. rewrite E in Hj. by injection Hj as <-.
  - apply not_true_iff_false. intros [k E]%starts_with_prefix. rewrite E in Hj. by injection Hj as <-.
Qed.

Lemma join_up_outside n segs : stays_inside (join [slash] (up_segment :: replicate n up_segment ++ segs)) = false.
Proof. destruct n as [|n], segs as [|s segs]; done. Qed.

(** C16: Containment in the working directory: a path is reported as inside it exactly
    when the resolved path lies below the resolved directory segment by segment, so
    that neither dots nor a directory whose name merely begins the same get in. *)
Theorem cwd_containment homedir process_cwd fileURLToPath filePath cwd base target r :
  isAbsolute process_cwd = true ->
  resolvePath homedir process_cwd fileURLToPath cwd None no_path_options = Ok base ->
  resolvePath homedir process_cwd fileURLToPath filePath (Some base) no_path_options = Ok target ->
  getCwdRelativePath homedir process_cwd fileURLToPath filePath cwd = Ok r ->
  (is_Some r <-> kept_segments base `prefix_of` kept_segments target)
  /\ forall rel, r = Some rel -> rel <> dot_segment ->
       kept_segments target = kept_segments base ++ split_on slash rel.
Proof.
  intros Hcwd Hb Ht. unfold getCwdRelativePath. rewrite Hb, Ht. fold (stays_inside (node_relative process_cwd base target)).
  assert (Habs : forall p q o, resolvePath homedir process_cwd fileURLToPath p q no_path_options = Ok o ->
            exists segs, o = absolute_path segs /\ Forall name_ok segs).
  { intros p q o. unfold resolvePath. destruct (normalizePath _ _ p _) as [n|]; [| done].
    destruct (normalizePath _ _ _ _) as [b|]; [| done]. intros [= <-].
    destruct (isAbsolute n); by apply node_resolve_absolute. }
  destruct (Habs _ _ _ Hb) as (bs & -> & Hbs), (Habs _ _ _ Ht) as (ts & -> & Hts).
  unfold node_relative. rewrite !node_resolve_id, !kept_absolute by done. intros [= <-].
  destruct (decide (bs `prefix_of` ts)) as [Hp | Hp].
  - rewrite common_segments_prefix, Nat.sub_diag by done. cbn [replicate app].
    destruct Hp as [k ->]. apply Forall_app in Hts as [_ Hk]. rewrite drop_app_length, join_head_ok by done.
    split; [split; [intros _; by exists k | by eexists] |]. intros rel [= <-] Hrel.
    destruct k as [|s k]; [done |]. replace (is_empty (join [slash] (s :: k))) with false.
    + rewrite split_join; [done.. |]. eapply Forall_impl; [exact Hk |]. by intros ? (_ & ? & _).
    + apply Forall_cons in Hk as [(Hne & _) _]. by destruct s, k.
  - destruct (length bs - common_segments bs ts)%nat as [|n] eqn:En.
    { destruct Hp. apply common_segments_all. lia. }
    cbn [replicate app]. rewrite join_up_outside. split; [split; [by intros [? ?] | done] | done].
Qed.

(** The path a tool works on is absolute and canonical: below the root, and without
    empty, dot or parent segments, whatever the model gave. *)
Theorem resolveToCwd_canonical homedir process_cwd fileURLToPath filePath cwd p :
  isAbsolute process_cwd = true ->
  resolveToCwd homedir process_cwd fileURLToPath filePath cwd = Ok p ->
  exists segs, p = absolute_path segs /\ Forall name_ok segs.
Proof.
  intros Hcwd. unfold resolveToCwd, resolvePath. destruct (normalizePath _ _ filePath _) as [n|]; [| done].
  destruct (rejectRootlessCwdQualifiedPath _ _ _ _ _ _) as [|]; [| done].
  destruct (normalizePath _ _ n _) as [m|]; [| done]. destruct (normalizePath _ _ _ _) as [b|]; [| done]. intros [= <-].
  destruct (isAbsolute m); by apply node_resolve_absolute.
Qed.

(** ** Samples *)

Example resolve_dots :
  node_resolve (js "/home/u") [js "/w/p"; js "../q/./r//s"] = js "/w/q/r/s"
  /\ node_relative (js "/") (js "/a/b/c") (js "/a/x") = js "../../x"
  /\ node_dirname (js "/a/b/") = js "/a" /\ node_normalize (js "a/../..//b/") = js "../b/".
Proof. vm_compute. done. Qed.

Module PathSample.
Definition no_url (s : jsstr) : result jsstr jsstr := Throw (js "Invalid URL").

Lemma cwd_containment_witness :
  getCwdRelativePath (js "/home/u") (js "/") no_url (js "../work-evil/x") (js "/w/work") = Ok None
  /\ ~ kept_segments (js "/w/work") `prefix_of` kept_segments (js "/w/work-evil/x").
Proof.
  assert (H : getCwdRelativePath (js "/home/u") (js "/") no_url (js "../work-evil/x") (js "/w/work") = Ok None)
    by (vm_compute; reflexivity).
  split; [exact H |].
  destruct (cwd_containment (js "/home/u") (js "/") no_url (js "../work-evil/x") (js "/w/work") (js "/w/work")
    (js "/w/work-evil/x") None) as [[_ Hp] _]; [vm_compute; reflexivity.. |].
  intros Hin. destruct (Hp Hin) as [? [=]].
Defined.

Lemma resolveToCwd_canonical_witness :
  resolveToCwd (js "/home/u") (js "/") no_url (js "@~/a/../b.ts") (js "/w") = Ok (js "/home/u/b.ts")
  /\ exists segs, js "/home/u/b.ts" = absolute_path segs /\ Forall name_ok segs.
Proof.
  assert (H : resolveToCwd (js "/home/u") (js "/") no_url (js "@~/a/../b.ts") (js "/w") = Ok (js "/home/u/b.ts"))
    by (vm_compute; reflexivity).
  split; [exact H |]. apply (resolveToCwd_canonical (js "/home/u") (js "/") no_url (js "@~/a/../b.ts") (js "/w")); [reflexivity | exact H].
Defined.

(** The working directory without its leading slash is refused. *)
Example rootless_refused :
  resolveToCwd (js "/home/u") (js "/") no_url (js "home/u/p/src/a.ts") (js "/home/u/p")
  = Throw (rootless_message (js "home/u/p/src/a.ts") (js "/home/u/p")).
Proof. vm_compute. reflexivity. Qed.
End PathSample.
