(* ===== verification/MutationQueue.v ===== *)
(** The file mutation queue ([packages/coding-agent/src/core/tools/file-mutation-queue.ts]):
    calls that change the same file run one after the other, calls for different files
    in parallel.  A state is the list of calls made so far; the events are the points
    where the promises of the code may settle, in any order.  [realpath] may give any
    key, or fail. *)
From S2P Require Import Prelude JsString.

(** ** Bodies *)

(** An asynchronous function over a file: between two [await]s it observes something
    of its surroundings, changes the file and goes on, or it returns. *)
Inductive proc (X F R : Type) := Return (r : R) | Act (f : X -> F -> proc X F R * F).
Arguments Return {X F R} _.
Arguments Act {X F R} _.

Section Queue.
Context {X F R : Type}.
Local Abbreviation body := (proc X F R).

Definition act (x : X) (pf : body * F) : body * F :=
  match pf.1 with Act g => g x pf.2 | Return _ => pf end.

(** The body run alone on a file, with what it observes at each step. *)
Definition progress (p : body) (obs : list X) (f : F) : body * F := foldl (fun pf x => act x pf) (p, f) obs.

(** ** The queue *)

(** A call of [withFileMutationQueue]: before its registration has run; rejected there;
    waiting for [currentQueue], the chained promise of the call before it for the same
    key, if any; in [fn]; or past the [finally]. *)
Inductive call_status :=
  | Called
  | Rejected
  | Waiting (key : jsstr) (currentQueue : option nat)
  | Running (key : jsstr) (currentQueue : option nat) (rest : body) (obs : list X)
  | Finished (key : jsstr) (currentQueue : option nat) (r : R) (obs : list X).

Record call := mkCall { cl_fn : body; cl_status : call_status }.

(** [fileMutationQueues] maps a key to the call whose chained promise it holds. *)
Record queue_state := mkQueue {
  qs_calls : list call;
  fileMutationQueues : gmap jsstr nat;
  qs_files : jsstr -> F;
}.

(** The chained promise of call [j] is resolved: [currentQueue.then(() => nextQueue)]. *)
Fixpoint chained_resolved (fuel : nat) (calls : list call) (j : nat) : bool :=
  match fuel with
  | O => false
  | S fuel' =>
      match cl_status <$> calls !! j with
      | Some (Finished _ current _ _) => match current with None => true | Some j' => chained_resolved fuel' calls j' end
      | _ => false
      end
  end.

Definition resolved (calls : list call) (current : option nat) : bool :=
  match current with None => true | Some j => chained_resolved (S j) calls j end.

Definition is_called (c : call) : bool := match cl_status c with Called => true | _ => false end.
Definition set_status (s : call_status) (c : call) : call := mkCall (cl_fn c) s.
Definition set_call (i : nat) (s : call_status) (st : queue_state) : queue_state :=
  mkQueue (alter (set_status s) i (qs_calls st)) (fileMutationQueues st) (qs_files st).

Definition set_file (k : jsstr) (f : F) (files : jsstr -> F) : jsstr -> F :=
  fun k' => if bool_decide (k' = k) then f else files k'.

Inductive queue_event :=
  | EvCall (fn : body)
  | EvRegister (key : option jsstr)
  | EvStart (i : nat)
  | EvAct (i : nat) (x : X)
  | EvFinish (i : nat).

(** One event, when it is possible. *)
Definition queue_step (st : queue_state) (e : queue_event) : option queue_state :=
  match e with
  | EvCall fn => Some (mkQueue (qs_calls st ++ [mkCall fn Called]) (fileMutationQueues st) (qs_files st))
  | EvRegister key =>
      (* the registrations run in the order of the calls *)
      match find_index is_called (qs_calls st), key with
      | None, _ => None
      | Some i, None => Some (set_call i Rejected st)
      | Some i, Some key =>
          let currentQueue := fileMutationQueues st !! key in
          let st' := set_call i (Waiting key currentQueue) st in
          Some (mkQueue (qs_calls st') (<[key := i]> (fileMutationQueues st)) (qs_files st))
      end
  | EvStart i =>
      match qs_calls st !! i with
      | Some (mkCall fn (Waiting key current)) =>
          if resolved (qs_calls st) current then Some (set_call i (Running key current fn []) st) else None
      | _ => None
      end
  | EvAct i x =>
      match qs_calls st !! i with
      | Some (mkCall _ (Running key current (Act g) obs)) =>
          let '(p, f) := g x (qs_files st key) in
          let st' := set_call i (Running key current p (obs ++ [x])) st in
          Some (mkQueue (qs_calls st') (fileMutationQueues st) (set_file key f (qs_files st)))
      | _ => None
      end
  | EvFinish i =>
      match qs_calls st !! i with
      | Some (mkCall _ (Running key current (Return r) obs)) =>
          let st' := set_call i (Finished key current r obs) st in
          Some (mkQueue (qs_calls st')
                  (if bool_decide (fileMutationQueues st !! key = Some i) then delete key (fileMutationQueues st)
                   else fileMutationQueues st)
                  (qs_files st))
      | _ => None
      end
  end.

Definition queue_start (files : jsstr -> F) : queue_state := mkQueue [] ∅ files.

Inductive reachable (files : jsstr -> F) : queue_state -> Prop :=
  | reach_start : reachable files (queue_start files)
  | reach_step st e st' : reachable files st -> queue_step st e = Some st' -> reachable files st'.

Fixpoint queue_run (st : queue_state) (es : list queue_event) : option queue_state :=
  match es with
  | [] => Some st
  | e :: es' => match queue_step st e with Some st' => queue_run st' es' | None => None end
  end.

(** ** The invariant *)

Definition key_of (s : call_status) : option jsstr :=
  match s with Waiting k _ | Running k _ _ _ | Finished k _ _ _ => Some k | Called | Rejected => None end.
Definition current_of (s : call_status) : option nat :=
  match s with Waiting _ c | Running _ c _ _ | Finished _ c _ _ => c | Called | Rejected => None end.
Definition started (s : call_status) : bool := match s with Running _ _ _ _ | Finished _ _ _ _ => true | _ => false end.
Definition finished (s : call_status) : bool := match s with Finished _ _ _ _ => true | _ => false end.

(** Call [i] has the key [k]. *)
Definition has_key (st : queue_state) (k : jsstr) (i : nat) (s : call_status) : Prop :=
  (cl_status <$> qs_calls st !! i) = Some s /\ key_of s = Some k.

Definition all_finished_before (st : queue_state) (k : jsstr) (i : nat) : Prop :=
  forall j s, (j < i)%nat -> has_key st k j s -> finished s = true.

Record queue_inv (st : queue_state) : Prop := {
  qi_called : forall i j, (i < j)%nat -> (cl_status <$> qs_calls st !! i) = Some Called ->
    forall s, (cl_status <$> qs_calls st !! j) = Some s -> s = Called;
  qi_current_none : forall k i s, has_key st k i s -> current_of s = None -> all_finished_before st k i;
  qi_current_some : forall k i s j, has_key st k i s -> current_of s = Some j ->
    (j < i)%nat /\ (exists s', has_key st k j s') /\ forall m s', (j < m < i)%nat -> ~ has_key st k m s';
  qi_map_some : forall k j, fileMutationQueues st !! k = Some j ->
    (exists s, has_key st k j s /\ finished s = false) /\ forall m s, (j < m)%nat -> ~ has_key st k m s;
  qi_map_none : forall k i s, fileMutationQueues st !! k = None -> has_key st k i s -> finished s = true;
  qi_started : forall k i s, has_key st k i s -> started s = true -> all_finished_before st k i;
}.

Lemma status_alter i s (calls : list call) (j : nat) :
  cl_status <$> alter (set_status s) i calls !! j =
  if bool_decide (j = i) then (fun _ => s) <$> calls !! j else cl_status <$> calls !! j.
Proof.
  case_bool_decide as E.
  - subst j. rewrite list_lookup_alter_eq. by destruct (calls !! i).
  - by rewrite list_lookup_alter_ne.
Qed.

(** The status of call [i] becomes [s'], the map [m]. *)
Lemma has_key_set st i s s' m files k j t :
  cl_status <$> qs_calls st !! i = Some s ->
  has_key (mkQueue (qs_calls (set_call i s' st)) m files) k j t <->
  (j = i /\ t = s' /\ key_of s' = Some k) \/ (j <> i /\ has_key st k j t).
Proof.
  intros Hi. unfold has_key, set_call. cbn [qs_calls]. rewrite status_alter. case_bool_decide as E.
  - subst j. destruct (qs_calls st !! i); [| done]. simpl. naive_solver.
  - naive_solver.
Qed.

(** A call that goes on, with the same key and the same [currentQueue], and does not
    undo its progress. *)
Section GoOn.
Context (st : queue_state) (i : nat) (s s' : call_status) (m : gmap jsstr nat) (files : jsstr -> F) (k : jsstr).
Hypothesis Hinv : queue_inv st.
Hypothesis Hi : cl_status <$> qs_calls st !! i = Some s.
Hypothesis Hk : key_of s = Some k.
Hypothesis Hk' : key_of s' = Some k.
Hypothesis Hc : current_of s' = current_of s.
Hypothesis Hf : finished s = false.
Hypothesis Hs : started s' = true -> all_finished_before st k i.
Hypothesis Hm : m = fileMutationQueues st /\ (finished s' = false \/ fileMutationQueues st !! k <> Some i)
  \/ finished s' = true /\ fileMutationQueues st !! k = Some i /\ m = delete k (fileMutationQueues st).
Let st' := mkQueue (qs_calls (set_call i s' st)) m files.

Lemma go_on_key k' j t :
  has_key st' k' j t <-> (j = i /\ t = s' /\ k' = k) \/ (j <> i /\ has_key st k' j t).
Proof. unfold st'. rewrite (has_key_set _ _ _ _ _ _ _ _ _ Hi), Hk'. naive_solver. Qed.

Lemma go_on_self k' t : has_key st k' i t -> t = s /\ k' = k.
Proof. intros [Ht Hkt]. rewrite Hi in Ht. naive_solver. Qed.

Lemma go_on_back k' j t : has_key st' k' j t -> exists t0, has_key st k' j t0 /\ current_of t0 = current_of t /\ (j <> i -> t0 = t).
Proof. intros [(-> & -> & ->) | [Hne Ht]]%go_on_key; [by exists s | by exists t]. Qed.

Lemma go_on_forth k' j t : has_key st k' j t -> exists t', has_key st' k' j t' /\ (j <> i -> t' = t).
Proof.
  intros Ht. destruct (decide (j = i)) as [-> | Hne].
  - apply go_on_self in Ht as [-> ->]. exists s'. split; [apply go_on_key; auto | done].
  - exists t. split; [apply go_on_key; auto | done].
Qed.

Lemma go_on_before k' j : all_finished_before st k' j -> all_finished_before st' k' j.
Proof.
  intros Ha a t Hlt [(-> & -> & ->) | [Hne Ht]]%go_on_key; [| by eapply Ha].
  specialize (Ha i s Hlt). rewrite Hf in Ha. by discriminate Ha.
Qed.

Lemma go_on_called a b t :
  (a < b)%nat -> cl_status <$> qs_calls st' !! a = Some Called -> cl_status <$> qs_calls st' !! b = Some t -> t = Called.
Proof.
  intros Hab Ha Hb. cbn [st' qs_calls set_call] in Ha, Hb. rewrite status_alter in Ha, Hb.
  destruct (decide (a = i)) as [-> | Ea].
  - rewrite bool_decide_true in Ha by done. destruct (qs_calls st !! i); [| done]. simpl in Ha. by simplify_eq.
  - rewrite bool_decide_false in Ha by done. destruct (decide (b = i)) as [-> | Eb].
    + pose proof (qi_called st Hinv _ _ Hab Ha _ Hi) as E. subst s. done.
    + rewrite bool_decide_false in Hb by done. by eapply (qi_called st Hinv).
Qed.

Lemma go_on_map_some k' j :
  m !! k' = Some j -> (exists t, has_key st' k' j t /\ finished t = false) /\ forall b t, (j < b)%nat -> ~ has_key st' k' b t.
Proof.
  intros Hmj.
  assert (Hold : fileMutationQueues st !! k' = Some j).
  { destruct Hm as [[-> _] | (_ & _ & ->)]; [done |]. by apply lookup_delete_Some in Hmj as [_ ?]. }
  destruct (qi_map_some st Hinv _ _ Hold) as [(t & Ht & Htf) Hno]. split.
  - destruct (go_on_forth _ _ _ Ht) as (t' & Ht' & Et'). exists t'. split; [done |].
    destruct (decide (j = i)) as [-> | Hne]; [| by rewrite Et'].
    apply go_on_self in Ht as [-> ->]. apply go_on_key in Ht' as [(_ & -> & _) | [? _]]; [| done].
    destruct Hm as [[_ [? | ?]] | (_ & _ & ->)]; [done.. |]. by rewrite lookup_delete_eq in Hmj.
  - intros b t' Hb Ht'. apply go_on_back in Ht' as (t2 & Ht2 & _). by eapply Hno.
Qed.

Lemma go_on_map_none k' j t : m !! k' = None -> has_key st' k' j t -> finished t = true.
Proof.
  intros Hmk Ht. pose proof (qi_map_none st Hinv) as Hnone.
  apply go_on_key in Ht as [(-> & -> & ->) | [Hne Ht]].
  - destruct Hm as [[-> _] | (? & _)]; [| done]. specialize (Hnone k i s Hmk). rewrite Hf in Hnone. by discriminate Hnone.
  - destruct Hm as [[-> _] | (Hfin & Hold & ->)]; [by eapply Hnone |].
    apply lookup_delete_None in Hmk as [-> | Hmk]; [| by eapply Hnone].
    destruct (decide (j < i)%nat) as [Hlt | Hge].
    + assert (started s' = true) as Hst by (by destruct s'). by eapply (Hs Hst).
    + destruct (qi_map_some st Hinv _ _ Hold) as [_ Hno]. exfalso. eapply (Hno j); [lia | done].
Qed.

Lemma queue_inv_go_on : queue_inv st'.
Proof.
  split.
  - intros a b Hab Ha t Hb. by eapply go_on_called.
  - intros k' j t Ht Hcur. apply go_on_back in Ht as (t0 & Ht0 & E & _). apply go_on_before.
    eapply (qi_current_none st Hinv); [done | congruence].
  - intros k' j t a Ht Hcur. apply go_on_back in Ht as (t0 & Ht0 & E & _).
    destruct (qi_current_some st Hinv k' j t0 a) as (L & (t1 & Ht1) & Hno); [done | congruence |]. split; [done |]. split.
    + apply go_on_forth in Ht1 as (t' & Ht' & _). by exists t'.
    + intros b t' Hb Ht'. apply go_on_back in Ht' as (t2 & Ht2 & _). by eapply Hno.
  - exact go_on_map_some.
  - exact go_on_map_none.
  - intros k' j t Ht Hst. apply go_on_before. apply go_on_key in Ht as [(-> & -> & ->) | [_ Ht]]; [by apply Hs |].
    by eapply (qi_started st Hinv).
Qed.
End GoOn.

(** A change that leaves the keys of all calls as they are. *)
Lemma queue_inv_same_keys st st' :
  queue_inv st -> (forall k j t, has_key st' k j t <-> has_key st k j t) ->
  fileMutationQueues st' = fileMutationQueues st ->
  (forall a b, (a < b)%nat -> cl_status <$> qs_calls st' !! a = Some Called ->
     forall t, cl_status <$> qs_calls st' !! b = Some t -> t = Called) -> queue_inv st'.
Proof.
  intros [H1 H2 H3 H4 H5 H6] Hkey Hmap Hcalled. split; [done | .. | rewrite Hmap | rewrite Hmap |].
  - intros k j t Ht%Hkey Hc a u Hlt Hu%Hkey. by apply (H2 k j t Ht Hc a).
  - intros k j t a Ht%Hkey Hc. destruct (H3 _ _ _ _ Ht Hc) as (L & (u & Hu) & Hno). split; [done |].
    split; [exists u; by apply Hkey |]. intros b v Hb Hv%Hkey. by eapply Hno.
  - intros k j Hm. destruct (H4 _ _ Hm) as [(u & Hu & Hf) Hno].
    split; [exists u; by rewrite Hkey |]. intros b v Hb Hv%Hkey. by eapply Hno.
  - intros k j t Hm Ht%Hkey. by eapply H5.
  - intros k j t Ht%Hkey Hs a u Hlt Hu%Hkey. by apply (H6 k j t Ht Hs a).
Qed.

(** The next registration. *)
Section Register.
Context (st : queue_state) (i : nat).
Hypothesis Hinv : queue_inv st.
Hypothesis Hi : find_index is_called (qs_calls st) = Some i.

Lemma next_called : cl_status <$> qs_calls st !! i = Some Called.
Proof.
  apply find_index_Some in Hi as (c & Hc & E & _). rewrite Hc. unfold is_called in E. simpl. by destruct (cl_status c).
Qed.

Lemma called_after j : cl_status <$> qs_calls st !! j = Some Called -> (i <= j)%nat.
Proof.
  intros Hj. destruct (decide (i <= j)%nat); [done |]. apply find_index_Some in Hi as (_ & _ & _ & Hmin).
  destruct (qs_calls st !! j) as [c|] eqn:E; [| done]. injection Hj as Hj.
  specialize (Hmin j c ltac:(lia) E). unfold is_called in Hmin. by rewrite Hj in Hmin.
Qed.

Lemma registered_before k j t : has_key st k j t -> (j < i)%nat.
Proof.
  intros [Hj Hk]. destruct (decide (j < i)%nat); [done |]. destruct (decide (j = i)) as [-> | Hne].
  - rewrite next_called in Hj. by injection Hj as <-.
  - assert (t = Called) as -> by (eapply (qi_called st Hinv i j); [lia | apply next_called | done]). done.
Qed.

Lemma register_called s m files a b t (st' := mkQueue (qs_calls (set_call i s st)) m files) : s <> Called ->
  (a < b)%nat -> cl_status <$> qs_calls st' !! a = Some Called -> cl_status <$> qs_calls st' !! b = Some t -> t = Called.
Proof.
  intros Hs Hab Ha Hb. cbn [st' qs_calls set_call] in Ha, Hb. rewrite status_alter in Ha, Hb.
  destruct (decide (a = i)) as [-> | Ea].
  - rewrite bool_decide_true in Ha by done. destruct (qs_calls st !! i); [| done]. simpl in Ha. by injection Ha as ->.
  - rewrite bool_decide_false in Ha by done. pose proof (called_after _ Ha).
    rewrite bool_decide_false in Hb by lia. by eapply (qi_called st Hinv a).
Qed.

Lemma queue_inv_reject m : m = fileMutationQueues st -> queue_inv (mkQueue (qs_calls (set_call i Rejected st)) m (qs_files st)).
Proof.
  intros ->. set (st' := mkQueue _ _ _).
  assert (Hkey : forall k j t, has_key st' k j t <-> has_key st k j t).
  { intros k j t. unfold st'. rewrite (has_key_set _ _ _ _ _ _ _ _ _ next_called). split; [by intros [(_ & _ & ?) | [_ ?]] |].
    intros Ht. right. split; [| done]. apply registered_before in Ht. lia. }
  apply (queue_inv_same_keys st); [done.. |]. intros a b Hab Ha t Hb. by eapply (register_called Rejected).
Qed.

Lemma queue_inv_register key :
  queue_inv (mkQueue (qs_calls (set_call i (Waiting key (fileMutationQueues st !! key)) st))
               (<[key := i]> (fileMutationQueues st)) (qs_files st)).
Proof.
  set (st' := mkQueue _ _ _).
  assert (Hkey : forall k j t, has_key st' k j t <->
            (j = i /\ t = Waiting key (fileMutationQueues st !! key) /\ k = key) \/ ((j < i)%nat /\ has_key st k j t)).
  { intros k j t. unfold st'. rewrite (has_key_set _ _ _ _ _ _ _ _ _ next_called). cbn [key_of]. split.
    - intros [(-> & -> & [= ->]) | [_ Ht]]; [by left | right]. split; [by eapply registered_before | done].
    - intros [(-> & -> & ->) | [? ?]]; [by left | right]. split; [lia | done]. }
  assert (Hafb : forall k j, (j <= i)%nat -> all_finished_before st k j -> all_finished_before st' k j).
  { intros k j Hj Ha a t Hlt [(-> & _) | [_ Ht]]%Hkey; [lia | by eapply Ha]. }
  split.
  - intros a b Hab Ha t Hb. by eapply (register_called (Waiting key (fileMutationQueues st !! key))).
  - intros k j t [(-> & -> & ->) | [Hj Ht]]%Hkey; cbn [current_of]; intros Hc; (apply Hafb; [lia |]).
    + intros a u _ Hu. by eapply (qi_map_none st Hinv).
    + by eapply (qi_current_none st Hinv).
  - intros k j t a [(-> & -> & ->) | [Hj Ht]]%Hkey; cbn [current_of]; intros Hc.
    + destruct (qi_map_some st Hinv _ _ Hc) as [(u & Hu & _) Hno]. pose proof (registered_before _ _ _ Hu).
      split; [done |]. split; [exists u; apply Hkey; by right |].
      intros b v Hb [(-> & _) | [_ Hv]]%Hkey; [lia |]. eapply (Hno b); [lia | done].
    + destruct (qi_current_some st Hinv _ _ _ _ Ht Hc) as (L & (u & Hu) & Hno). split; [done |].
      split; [exists u; apply Hkey; right; split; [lia | done] |].
      intros b v Hb [(-> & _) | [_ Hv]]%Hkey; [lia |]. by eapply (Hno b).
  - intros k j. cbn [st' fileMutationQueues]. intros [[<- <-] | [Hne Hm]]%lookup_insert_Some.
    + split; [eexists; split; [apply Hkey; by left | done] |]. intros b v Hb [(-> & _) | [? _]]%Hkey; lia.
    + destruct (qi_map_some st Hinv _ _ Hm) as [(u & Hu & Hf) Hno]. pose proof (registered_before _ _ _ Hu).
      split; [exists u; split; [apply Hkey; by right | done] |].
      intros b v Hb [(_ & _ & ->) | [_ Hv]]%Hkey; [done |]. by eapply (Hno b).
  - intros k j t. cbn [st' fileMutationQueues]. intros [Hm Hne]%lookup_insert_None [(_ & _ & ->) | [_ Ht]]%Hkey; [done |].
    by eapply (qi_map_none st Hinv).
  - intros k j t [(-> & -> & ->) | [Hj Ht]]%Hkey Hs; [done |]. apply Hafb; [lia |]. by eapply (qi_started st Hinv).
Qed.
End Register.

Lemma queue_inv_call st fn :
  queue_inv st -> queue_inv (mkQueue (qs_calls st ++ [mkCall fn Called]) (fileMutationQueues st) (qs_files st)).
Proof.
  intros Hinv. set (st' := mkQueue _ _ _).
  assert (Hst : forall j, cl_status <$> qs_calls st' !! j =
            if decide (j = length (qs_calls st)) then Some Called else cl_status <$> qs_calls st !! j).
  { intros j. cbn [st' qs_calls]. case_decide as E.
    - subst j. by rewrite lookup_app_r, Nat.sub_diag by done.
    - destruct (decide (j < length (qs_calls st))%nat); [by rewrite lookup_app_l |].
      rewrite !lookup_ge_None_2; [done | lia | rewrite length_app; simpl; lia]. }
  assert (Hkey : forall k j t, has_key st' k j t <-> has_key st k j t).
  { intros k j t. unfold has_key. rewrite Hst. case_decide as E; [| done]. subst j.
    rewrite (lookup_ge_None_2 (qs_calls st)) by done. split; [by intros [[= <-] ?] | by intros [? _]]. }
  apply (queue_inv_same_keys st); [done.. |]. intros a b Hab Ha t Hb. rewrite Hst in Ha, Hb.
  destruct (decide (b = length (qs_calls st))); [by injection Hb as <- |].
  destruct (decide (a = length (qs_calls st))); [subst; rewrite (lookup_ge_None_2 (qs_calls st)) in Hb by lia; done |].
  by eapply (qi_called st Hinv).
Qed.

Lemma chained_finished fuel calls j :
  chained_resolved fuel calls j = true -> exists s, cl_status <$> calls !! j = Some s /\ finished s = true.
Proof.
  destruct fuel as [|fuel]; cbn [chained_resolved]; [done |].
  destruct (cl_status <$> calls !! j) as [[]|]; try done. intros _. by eexists.
Qed.

(** A call whose turn has come has no unfinished call of its file before it. *)
Lemma turn_has_come st k i current :
  queue_inv st -> has_key st k i (Waiting k current) -> resolved (qs_calls st) current = true -> all_finished_before st k i.
Proof.
  intros Hinv Hw Hr. destruct current as [j|]; [| by eapply (qi_current_none st Hinv)].
  destruct (qi_current_some st Hinv _ _ _ _ Hw eq_refl) as (Hj & (s & Hs) & Hno).
  apply chained_finished in Hr as (s' & Hs' & Hf). destruct Hs as [Hs Hk]. rewrite Hs in Hs'. injection Hs' as <-.
  intros a t Ha Ht. destruct (decide (a = j)) as [-> | Hne].
  - destruct Ht as [Ht _]. by simplify_eq.
  - destruct (decide (a < j)%nat).
    + assert (started s = true) as Hst by (by destruct s). by apply (qi_started st Hinv k j s (conj Hs Hk) Hst a).
    + exfalso. eapply (Hno a); [lia | done].
Qed.

Lemma queue_inv_step st e st' : queue_inv st -> queue_step st e = Some st' -> queue_inv st'.
Proof.
  intros Hinv. destruct e as [fn | key | i | i x | i]; cbn [queue_step].
  - intros [= <-]. by apply queue_inv_call.
  - destruct (find_index is_called (qs_calls st)) as [i|] eqn:Ei; [| done]. destruct key as [key|]; intros [= <-].
    + by apply queue_inv_register.
    + by apply queue_inv_reject.
  - destruct (qs_calls st !! i) as [[fn []]|] eqn:Ei; try done. case_if; [| done]. intros [= <-].
    apply (f_equal (fmap cl_status)) in Ei. eapply queue_inv_go_on; [done.. | | left; auto].
    intros _. by eapply turn_has_come.
  - destruct (qs_calls st !! i) as [[fn [| | | key current [|g] obs |]]|] eqn:Ei; try done.
    destruct (g x (qs_files st key)) as [p f]. intros [= <-]. apply (f_equal (fmap cl_status)) in Ei.
    eapply queue_inv_go_on; [done.. | | left; auto]. intros _. by eapply (qi_started st Hinv).
  - destruct (qs_calls st !! i) as [[fn [| | | key current [r|] obs |]]|] eqn:Ei; try done. intros [= <-].
    apply (f_equal (fmap cl_status)) in Ei. eapply queue_inv_go_on; [done.. | |].
    + intros _. by eapply (qi_started st Hinv).
    + case_bool_decide; [by right | left; auto].
Qed.

Lemma queue_inv_reachable files st : reachable files st -> queue_inv st.
Proof.
  induction 1 as [|st e st' _ IH Hs]; [| by eapply queue_inv_step].
  split; unfold has_key; cbn; try (by intros; rewrite lookup_nil in *); naive_solver.
Qed.

(** ** The files *)

(** What a call has done to the file of key [k]. *)
Definition call_effect (k : jsstr) (f : F) (c : call) : F :=
  match cl_status c with
  | Running k' _ _ obs | Finished k' _ _ obs => if bool_decide (k' = k) then (progress (cl_fn c) obs f).2 else f
  | _ => f
  end.

(** The calls one after the other, in the order in which they were made. *)
Definition history (k : jsstr) (calls : list call) (f : F) : F := foldl (call_effect k) f calls.

Definition same_effect (k : jsstr) (c c' : call) : Prop := forall f, call_effect k f c' = call_effect k f c.

Lemma history_same k calls calls' f : Forall2 (same_effect k) calls calls' -> history k calls' f = history k calls f.
Proof. intros H. revert f. induction H as [|c c' l l' Hc _ IH]; intros f; [done |]. simpl. rewrite Hc. apply IH. Qed.

Lemma alter_Forall2 k i s (calls : list call) c :
  calls !! i = Some c -> same_effect k c (set_status s c) -> Forall2 (same_effect k) calls (alter (set_status s) i calls).
Proof.
  intros Hi Hs. apply Forall2_same_length_lookup_2; [by rewrite length_alter |].
  intros j x y Hx Hy. destruct (decide (j = i)) as [-> | Hne].
  - rewrite list_lookup_alter_eq, Hi in Hy. by simplify_eq/=.
  - rewrite list_lookup_alter_ne in Hy by done. by simplify_eq.
Qed.

(** The last call of its file that has started is the last one to have an effect. *)
Lemma history_last st k i c f :
  qs_calls st !! i = Some c -> (forall j s, (i < j)%nat -> has_key st k j s -> started s = false) ->
  history k (qs_calls st) f = call_effect k (history k (take i (qs_calls st)) f) c.
Proof.
  intros Hi Hno. rewrite <- (take_drop_middle _ _ _ Hi) at 1. unfold history. rewrite foldl_app. cbn [foldl].
  set (f' := call_effect k _ c). clearbody f'.
  assert (Hd : Forall (fun c' => forall g, call_effect k g c' = g) (drop (S i) (qs_calls st))).
  { apply Forall_lookup. intros j c' Hj g. rewrite lookup_drop in Hj. unfold call_effect.
    destruct (cl_status c') as [| | | k' |k'] eqn:E; try done; (case_bool_decide; [subst k' | done]);
    (assert (has_key st k (S i + j) (cl_status c')) as Hk by (split; [by rewrite Hj | by rewrite E]));
    specialize (Hno (S i + j)%nat _ ltac:(lia) Hk); by rewrite E in Hno. }
  clear -Hd. induction Hd as [|c' l Hc' _ IH]; [done |]. simpl. by rewrite Hc'.
Qed.

(** The files and the results are those of the calls run one after the other. *)
Record serial (files : jsstr -> F) (st : queue_state) : Prop := {
  se_files : forall k, qs_files st k = history k (qs_calls st) (files k);
  se_rest : forall i fn k current p obs, qs_calls st !! i = Some (mkCall fn (Running k current p obs)) ->
    (progress fn obs (history k (take i (qs_calls st)) (files k))).1 = p;
  se_result : forall i fn k current r obs, qs_calls st !! i = Some (mkCall fn (Finished k current r obs)) ->
    (progress fn obs (history k (take i (qs_calls st)) (files k))).1 = Return r;
}.

(** A call whose effect on every file stays the same. *)
Lemma serial_set files st i c s m :
  serial files st -> qs_calls st !! i = Some c -> (forall k, same_effect k c (set_status s c)) ->
  match s with
  | Running k _ p obs => (progress (cl_fn c) obs (history k (take i (qs_calls st)) (files k))).1 = p
  | Finished k _ r obs => (progress (cl_fn c) obs (history k (take i (qs_calls st)) (files k))).1 = Return r
  | _ => True
  end ->
  serial files (mkQueue (qs_calls (set_call i s st)) m (qs_files st)).
Proof.
  intros [S1 S2 S3] Hi Hsame Hs.
  assert (Hh : forall k j f, history k (take j (alter (set_status s) i (qs_calls st))) f = history k (take j (qs_calls st)) f).
  { intros k j f. apply history_same, Forall2_take. by eapply alter_Forall2. }
  split; cbn [qs_calls qs_files set_call].
  - intros k. rewrite S1. symmetry. apply history_same. by eapply alter_Forall2.
  - intros j fn k current p obs Hj. rewrite Hh. destruct (decide (j = i)) as [-> | Hne].
    + rewrite list_lookup_alter_eq, Hi in Hj. injection Hj as <- ->. done.
    + rewrite list_lookup_alter_ne in Hj by done. by eapply S2.
  - intros j fn k current r obs Hj. rewrite Hh. destruct (decide (j = i)) as [-> | Hne].
    + rewrite list_lookup_alter_eq, Hi in Hj. injection Hj as <- ->. done.
    + rewrite list_lookup_alter_ne in Hj by done. by eapply S3.
Qed.

Lemma progress_snoc p obs x f : progress p (obs ++ [x]) f = act x (progress p obs f).
Proof. unfold progress. by rewrite foldl_app. Qed.

(** No call of the file after a running one has started. *)
Lemma running_is_last st i fn k current p obs :
  queue_inv st -> qs_calls st !! i = Some (mkCall fn (Running k current p obs)) ->
  forall j s, (i < j)%nat -> has_key st k j s -> started s = false.
Proof.
  intros Hinv Hi j s Hj Hs. apply not_true_iff_false. intros Hst.
  assert (has_key st k i (Running k current p obs)) as Hk by (split; [by rewrite Hi | done]).
  pose proof (qi_started st Hinv k j s Hs Hst i _ Hj Hk) as Hf. by discriminate Hf.
Qed.

(** A step of a running body. *)
Section ActStep.
Context (files : jsstr -> F) (st : queue_state) (i : nat) (fn : body) (k : jsstr) (current : option nat).
Context (g : X -> F -> body * F) (obs : list X) (x : X) (p : body) (f : F).
Hypothesis Hinv : queue_inv st.
Hypothesis Hser : serial files st.
Hypothesis Hi : qs_calls st !! i = Some (mkCall fn (Running k current (Act g) obs)).
Hypothesis Hg : g x (qs_files st k) = (p, f).
Let s' := Running k current p (obs ++ [x]).
Let st' := mkQueue (qs_calls (set_call i s' st)) (fileMutationQueues st) (set_file k f (qs_files st)).

Lemma act_before : progress fn obs (history k (take i (qs_calls st)) (files k)) = (Act g, qs_files st k).
Proof.
  rewrite (surjective_pairing (progress _ _ _)), (se_rest _ _ Hser _ _ _ _ _ _ Hi). f_equal.
  rewrite (se_files _ _ Hser), (history_last st k i _ _ Hi) by (by eapply running_is_last).
  unfold call_effect. cbn [cl_status cl_fn]. by rewrite bool_decide_true.
Qed.

Lemma act_after : progress fn (obs ++ [x]) (history k (take i (qs_calls st)) (files k)) = (p, f).
Proof. by rewrite progress_snoc, act_before. Qed.

Lemma act_other k' : k' <> k -> Forall2 (same_effect k') (qs_calls st) (qs_calls st').
Proof.
  intros Hne. eapply alter_Forall2; [done |]. intros f'. unfold call_effect. cbn. by rewrite !bool_decide_false.
Qed.

Lemma act_history : history k (qs_calls st') (files k) = f.
Proof.
  rewrite (history_last st' k i (mkCall fn s')).
  - unfold st' at 1. cbn [qs_calls set_call]. rewrite take_alter_ge by done.
    unfold call_effect, s'. cbn [cl_status cl_fn]. rewrite bool_decide_true by done. by rewrite act_after.
  - cbn [st' qs_calls set_call]. by rewrite list_lookup_alter_eq, Hi.
  - intros j s Hj Hs. apply (has_key_set _ _ (Running k current (Act g) obs)) in Hs; [| by rewrite Hi].
    destruct Hs as [(-> & _) | [_ Hs]]; [lia |]. by eapply (running_is_last st i).
Qed.

(** What a call saw of its file stays as it was. *)
Lemma act_seen j c k' : j <> i -> qs_calls st !! j = Some c -> key_of (cl_status c) = Some k' -> started (cl_status c) = true ->
  history k' (take j (qs_calls st')) (files k') = history k' (take j (qs_calls st)) (files k').
Proof.
  intros Hj Hc Hk Hs. destruct (decide (k' = k)) as [-> | Hne].
  - cbn [st' qs_calls set_call]. rewrite take_alter_ge; [done |]. destruct (decide (j <= i)%nat); [done |].
    exfalso. assert (has_key st k j (cl_status c)) as Hkey by (split; [by rewrite Hc | done]).
    assert (started (cl_status c) = false) by (eapply (running_is_last st i); [done | done | | done]; lia). congruence.
  - by apply history_same, Forall2_take, act_other.
Qed.

Lemma serial_act : serial files st'.
Proof.
  split.
  - intros k'. cbn [st' qs_files]. unfold set_file. case_bool_decide as E; [by rewrite E, act_history |].
    rewrite (se_files _ _ Hser). symmetry. by apply history_same, act_other.
  - intros j fn' k' current' p' obs' Hj. destruct (decide (j = i)) as [-> | Hne].
    + cbn [st' qs_calls set_call] in *. rewrite list_lookup_alter_eq, Hi in Hj.
      injection Hj as <- <- _ <- <-. rewrite take_alter_ge by done. by rewrite act_after.
    + cbn [st' qs_calls set_call] in Hj. rewrite list_lookup_alter_ne in Hj by done.
      rewrite (act_seen _ _ _ Hne Hj) by done. by eapply (se_rest _ _ Hser).
  - intros j fn' k' current' r' obs' Hj. cbn [st' qs_calls set_call] in Hj. destruct (decide (j = i)) as [-> | Hne].
    + rewrite list_lookup_alter_eq, Hi in Hj. done.
    + rewrite list_lookup_alter_ne in Hj by done.
      rewrite (act_seen _ _ _ Hne Hj) by done. by eapply (se_result _ _ Hser).
Qed.
End ActStep.

Lemma serial_call files st fn :
  serial files st -> serial files (mkQueue (qs_calls st ++ [mkCall fn Called]) (fileMutationQueues st) (qs_files st)).
Proof.
  intros [S1 S2 S3]. split; cbn [qs_calls qs_files].
  - intros k. rewrite S1. unfold history. by rewrite foldl_app.
  - intros j fn' k c p obs Hj. apply lookup_app_Some in Hj as [Hj | [_ Hj]].
    + rewrite take_app_le by (apply lookup_lt_Some in Hj; lia). by eapply S2.
    + by apply list_lookup_singleton_Some in Hj as [_ ?].
  - intros j fn' k c p obs Hj. apply lookup_app_Some in Hj as [Hj | [_ Hj]].
    + rewrite take_app_le by (apply lookup_lt_Some in Hj; lia). by eapply S3.
    + by apply list_lookup_singleton_Some in Hj as [_ ?].
Qed.

Lemma serial_step files st e st' :
  queue_inv st -> serial files st -> queue_step st e = Some st' -> serial files st'.
Proof.
  intros Hinv Hser. destruct e as [fn | key | i | i x | i]; cbn [queue_step].
  - intros [= <-]. by apply serial_call.
  - destruct (find_index is_called (qs_calls st)) as [i|] eqn:Ei; [| done].
    pose proof Ei as (c & Hc & Hcalled & _)%find_index_Some. unfold is_called in Hcalled.
    assert (Hsame : forall s k, started s = false -> same_effect k c (set_status s c)).
    { intros s k Hs f. unfold call_effect. destruct (cl_status c); try done. by destruct s. }
    destruct key as [key|]; intros [= <-]; (eapply serial_set; [done | done | intros; by apply Hsame | done]).
  - destruct (qs_calls st !! i) as [[fn []]|] eqn:Ei; try done. case_if; [| done]. intros [= <-].
    eapply serial_set; [done | done | | done]. intros k f. unfold call_effect. cbn. by case_bool_decide.
  - destruct (qs_calls st !! i) as [[fn [| | | key current [|g] obs |]]|] eqn:Ei; try done.
    destruct (g x (qs_files st key)) as [p f] eqn:Eg. intros [= <-]. by eapply serial_act.
  - destruct (qs_calls st !! i) as [[fn [| | | key current [r|] obs |]]|] eqn:Ei; try done. intros [= <-].
    eapply serial_set; [done | done | done |]. by eapply (se_rest _ _ Hser).
Qed.

Lemma serial_reachable files st : reachable files st -> serial files st.
Proof.
  induction 1 as [|st e st' Hr IH Hs]; [by split |]. eapply serial_step; [by eapply queue_inv_reachable | done | done].
Qed.

(** The chain of promises behind finished calls is resolved. *)
Lemma chain_resolved st k n : forall j s,
  queue_inv st -> (j < n)%nat -> has_key st k j s -> finished s = true -> all_finished_before st k j ->
  chained_resolved n (qs_calls st) j = true.
Proof.
  induction n as [|n IH]; intros j s Hinv Hj Hs Hf Hb; [lia |]. cbn [chained_resolved].
  pose proof Hs as [Es _]. rewrite Es. destruct s as [| | | |k' [j'|] r obs]; try done.
  destruct (qi_current_some st Hinv _ _ _ _ Hs eq_refl) as (Hlt & (t & Ht) & _).
  apply (IH j' t); [done | lia | done | by eapply Hb |]. intros a u Ha Hu. eapply (Hb a); [lia | done].
Qed.

Lemma first_in_line_starts st k j fn current :
  queue_inv st -> qs_calls st !! j = Some (mkCall fn (Waiting k current)) -> all_finished_before st k j ->
  is_Some (queue_step st (EvStart j)).
Proof.
  intros Hinv Hj Hb. cbn [queue_step]. rewrite Hj.
  replace (resolved (qs_calls st) current) with true; [by eexists |]. symmetry.
  destruct current as [j'|]; [| done]. assert (has_key st k j (Waiting k (Some j'))) as Hk by (split; [by rewrite Hj | done]).
  destruct (qi_current_some st Hinv _ _ _ _ Hk eq_refl) as (Hlt & (t & Ht) & _).
  cbn [resolved]. apply (chain_resolved st k _ j' t); [done | lia | done | by eapply Hb |].
  intros a u Ha Hu. eapply (Hb a); [lia | done].
Qed.

Definition unfinished_at (st : queue_state) (k : jsstr) (j : nat) : bool :=
  match cl_status <$> qs_calls st !! j with
  | Some t => bool_decide (key_of t = Some k) && negb (finished t)
  | None => false
  end.

Lemma unfinished_at_spec st k j : unfinished_at st k j = true <-> exists t, has_key st k j t /\ finished t = false.
Proof.
  unfold unfinished_at, has_key. destruct (cl_status <$> qs_calls st !! j) as [t|]; [| split; [done | by intros (? & [? _] & _)]].
  rewrite andb_true_iff, bool_decide_eq_true, negb_true_iff. naive_solver.
Qed.

(** Among the calls up to an unfinished one, the first unfinished of the same file. *)
Lemma first_unfinished st k i :
  unfinished_at st k i = true -> exists j, (j <= i)%nat /\ unfinished_at st k j = true /\ all_finished_before st k j.
Proof.
  induction i as [i IH] using lt_wf_ind. intros Hi. destruct (existsb (unfinished_at st k) (seq 0 i)) eqn:E.
  - apply existsb_exists in E as (j & Hj%in_seq & E). destruct (IH j) as (a & Ha & E1 & E2); [lia | done |].
    exists a. split; [lia | done].
  - exists i. split; [done |]. split; [done |]. intros j t Hj Ht. destruct (finished t) eqn:Ef; [done |].
    apply not_true_iff_false in E. destruct E. apply existsb_exists. exists j. split; [apply in_seq; lia |].
    apply unfinished_at_spec. by exists t.
Qed.

(** The event that lets a call go on. *)
Definition can_go_on (st : queue_state) (j : nat) : Prop :=
  (exists e, e ∈ [EvStart j; EvFinish j] /\ is_Some (queue_step st e)) \/ forall x, is_Some (queue_step st (EvAct j x)).

(** C8: No lost update.  Whatever the order in which the promises of the queue settle,
    the functions passed for one file run one at a time; every file is as if they had
    run one after the other in the order of the calls, and each has returned what it
    would have returned then. *)
Theorem mutations_serialized files st :
  reachable files st ->
  (forall k, qs_files st k = history k (qs_calls st) (files k))
  /\ (forall i fn k current r obs, qs_calls st !! i = Some (mkCall fn (Finished k current r obs)) ->
       (progress fn obs (history k (take i (qs_calls st)) (files k))).1 = Return r)
  /\ (forall k i j s t, (i < j)%nat -> has_key st k i s -> has_key st k j t -> started t = true -> finished s = true).
Proof.
  intros Hr. destruct (serial_reachable _ _ Hr) as [S1 _ S3]. split; [done |]. split; [done |].
  intros k i j s t Hij Hs Ht Hst. by apply (qi_started st (queue_inv_reachable _ _ Hr) k j t Ht Hst i).
Qed.

(** C14: The queue never blocks: of the calls for a file that are registered and not
    finished, the first can go on, and the file is in the map exactly as long as there
    is one, so that no entry stays behind. *)
Theorem queue_live files st k :
  reachable files st ->
  (is_Some (fileMutationQueues st !! k) <-> exists i, unfinished_at st k i = true)
  /\ forall i, unfinished_at st k i = true ->
       exists j, (j <= i)%nat /\ unfinished_at st k j = true /\ can_go_on st j.
Proof.
  intros Hr. pose proof (queue_inv_reachable _ _ Hr) as Hinv. split.
  - split.
    + intros [j Hj]. exists j. apply unfinished_at_spec. by apply (qi_map_some st Hinv).
    + intros (i & (t & Ht & Hf)%unfinished_at_spec). destruct (fileMutationQueues st !! k) eqn:E; [done |].
      pose proof (qi_map_none st Hinv _ _ _ E Ht). congruence.
  - intros i (j & Hj & Hu & Hb)%first_unfinished. exists j. split; [done |]. split; [done |].
    apply unfinished_at_spec in Hu as (t & [Ht Hk] & Hf).
    destruct (qs_calls st !! j) as [[fn s]|] eqn:Ej; [| done]. injection Ht as <-.
    destruct s as [| |k' current |k' current [r|g] obs|]; try done; cbn [key_of] in Hk; injection Hk as ->.
    + left. exists (EvStart j). split; [set_solver |]. by eapply first_in_line_starts.
    + left. exists (EvFinish j). split; [set_solver |]. cbn [queue_step]. rewrite Ej. by eexists.
    + right. intros x. cbn [queue_step]. rewrite Ej. destruct (g x (qs_files st k)). by eexists.
Qed.

Lemma queue_run_reachable files es : forall st st', reachable files st -> queue_run st es = Some st' -> reachable files st'.
Proof.
  induction es as [|e es IH]; intros st st' Hr; cbn [queue_run]; [by intros [= <-] |].
  destruct (queue_step st e) as [st1|] eqn:E; [| done]. apply IH. by eapply reach_step.
Qed.

(** The functions of the calls are those that were passed. *)
Definition passed (e : queue_event) : option body := match e with EvCall fn => Some fn | _ => None end.

Lemma queue_step_fns st e st' :
  queue_step st e = Some st' -> map cl_fn (qs_calls st') = map cl_fn (qs_calls st) ++ omap passed [e].
Proof.
  assert (Hset : forall i s st, map cl_fn (qs_calls (set_call i s st)) = map cl_fn (qs_calls st)).
  { intros i s st0. cbn [set_call qs_calls]. generalize (qs_calls st0) as l. intros l. revert i.
    induction l as [|c l IH]; intros [|i]; [done.. |]. cbn. by f_equal. }
  destruct e as [fn | key | i | i x | i]; cbn [queue_step].
  - intros [= <-]. cbn [qs_calls]. by rewrite map_app.
  - change (omap passed [EvRegister key]) with (@nil body). rewrite app_nil_r.
    destruct (find_index _ _); [| done]. destruct key; intros [= <-]; apply Hset.
  - change (omap passed [EvStart i]) with (@nil body). rewrite app_nil_r.
    destruct (qs_calls st !! i) as [[fn []]|]; try done. case_if; [| done]. intros [= <-]. apply Hset.
  - change (omap passed [EvAct i x]) with (@nil body). rewrite app_nil_r.
    destruct (qs_calls st !! i) as [[fn [| | | key current [|g] obs |]]|]; try done.
    destruct (g x (qs_files st key)). intros [= <-]. apply Hset.
  - change (omap passed [EvFinish i]) with (@nil body). rewrite app_nil_r.
    destruct (qs_calls st !! i) as [[fn [| | | key current [r|] obs |]]|]; try done. intros [= <-]. apply Hset.
Qed.

Lemma queue_run_fns es : forall st st',
  queue_run st es = Some st' -> map cl_fn (qs_calls st') = map cl_fn (qs_calls st) ++ omap passed es.
Proof.
  induction es as [|e es IH]; intros st st'; cbn [queue_run]; [intros [= <-]; by rewrite app_nil_r |].
  destruct (queue_step st e) as [st1|] eqn:E; [| done]. intros H%IH. rewrite H, (queue_step_fns _ _ _ E), <- app_assoc.
  f_equal. by destruct e.
Qed.
End Queue.
