(* ===== verification/EditTool.v ===== *)
(** The edit and write tools ([packages/coding-agent/src/core/tools/edit.ts], [write.ts],
    [edit-diff/diff-generation.ts], [edit-diff/compute.ts]): preparing the arguments,
    reading, editing and writing the file, and the diff of the result.  The file
    operations act on a world of any type; the package [diff] and the UTF-8 decoding of
    [Buffer] are parameters. *)
From S2P Require Import Prelude JsString StringSearch Json JsonParse Effects EditDiff Paths MutationQueue.

(** ** The displayed diff ([diff-generation.ts]) *)

Record DiffPart := mkPart { dp_value : jsstr; dp_added : bool; dp_removed : bool }.
Definition dp_change (p : DiffPart) : bool := dp_added p || dp_removed p.

(** A line of the output, before its number is padded and printed. *)
Inductive diff_line :=
  | LineAdded (number : Z) (line : jsstr)
  | LineRemoved (number : Z) (line : jsstr)
  | LineContext (number : Z) (line : jsstr)
  | LineSkipped.

Definition padStart (width : nat) (s : jsstr) : jsstr := replicate (width - length s) 32 ++ s.

Definition print_line (width : nat) (l : diff_line) : jsstr :=
  match l with
  | LineAdded n line => js "+" ++ padStart width (show n) ++ js " " ++ line
  | LineRemoved n line => js "-" ++ padStart width (show n) ++ js " " ++ line
  | LineContext n line => js " " ++ padStart width (show n) ++ js " " ++ line
  | LineSkipped => js " " ++ padStart width [] ++ js " ..."
  end.

(** The lines of a part; an empty last one is dropped. *)
Definition part_lines (value : jsstr) : list jsstr :=
  let raw := split_on 10 value in
  if is_empty (default [] (last raw)) then removelast raw else raw.

Record diff_state := mkDiffState {
  ds_output : list diff_line;
  ds_oldLineNum : Z;
  ds_newLineNum : Z;
  ds_lastWasChange : bool;
  ds_firstChangedLine : option Z;
}.

Definition numbered (f : Z -> jsstr -> diff_line) (from : Z) (lines : list jsstr) : list diff_line :=
  imap (fun i line => f (from + Z.of_nat i) line) lines.

(** Lines of context are shown under their number in the old file. *)
Definition show_context (lines : list jsstr) (st : diff_state) : diff_state :=
  mkDiffState (ds_output st ++ numbered LineContext (ds_oldLineNum st) lines) (ds_oldLineNum st + zlen lines)
    (ds_newLineNum st + zlen lines) (ds_lastWasChange st) (ds_firstChangedLine st).
Definition skip_context (n : nat) (st : diff_state) : diff_state :=
  mkDiffState (ds_output st) (ds_oldLineNum st + Z.of_nat n) (ds_newLineNum st + Z.of_nat n) (ds_lastWasChange st)
    (ds_firstChangedLine st).
Definition show_skipped (n : nat) (st : diff_state) : diff_state :=
  skip_context n (mkDiffState (ds_output st ++ [LineSkipped]) (ds_oldLineNum st) (ds_newLineNum st) (ds_lastWasChange st)
    (ds_firstChangedLine st)).
Definition set_lastWasChange (b : bool) (st : diff_state) : diff_state :=
  mkDiffState (ds_output st) (ds_oldLineNum st) (ds_newLineNum st) b (ds_firstChangedLine st).

(** One part, given whether the next one is a change. *)
Definition diff_part (contextLines : nat) (nextPartIsChange : bool) (p : DiffPart) (st : diff_state) : diff_state :=
  let raw := part_lines (dp_value p) in
  let n := length raw in
  if dp_change p then
    let first := match ds_firstChangedLine st with None => Some (ds_newLineNum st) | f => f end in
    if dp_added p
    then mkDiffState (ds_output st ++ numbered LineAdded (ds_newLineNum st) raw) (ds_oldLineNum st)
           (ds_newLineNum st + zlen raw) true first
    else mkDiffState (ds_output st ++ numbered LineRemoved (ds_oldLineNum st) raw) (ds_oldLineNum st + zlen raw)
           (ds_newLineNum st) true first
  else
    set_lastWasChange false
      (match ds_lastWasChange st, nextPartIsChange with
       | true, true =>
           if (n <=? contextLines * 2)%nat then show_context raw st
           else show_context (drop (n - contextLines) raw)
                  (show_skipped (n - contextLines - contextLines) (show_context (take contextLines raw) st))
       | true, false =>
           let shown := take contextLines raw in
           let skipped := (n - length shown)%nat in
           let st1 := show_context shown st in
           if (0 <? skipped)%nat then show_skipped skipped st1 else st1
       | false, true =>
           let skipped := (n - contextLines)%nat in
           let st1 := if (0 <? skipped)%nat then show_skipped skipped st else st in
           show_context (drop skipped raw) st1
       | false, false => skip_context n st
       end).

Fixpoint diff_parts (contextLines : nat) (parts : list DiffPart) (st : diff_state) : diff_state :=
  match parts with
  | [] => st
  | p :: parts' =>
      let next := match parts' with q :: _ => dp_change q | [] => false end in
      diff_parts contextLines parts' (diff_part contextLines next p st)
  end.

Definition diff_start : diff_state := mkDiffState [] 1 1 false None.

Record EditDiffResult := mkEditDiff { dr_diff : jsstr; dr_firstChangedLine : option Z }.

Definition generateDiffString (diffLines : jsstr -> jsstr -> list DiffPart) (oldContent newContent : jsstr) (contextLines : nat)
  : EditDiffResult :=
  let st := diff_parts contextLines (diffLines oldContent newContent) diff_start in
  let maxLineNum := Z.max (zlen (split_on 10 oldContent)) (zlen (split_on 10 newContent)) in
  let lineNumWidth := length (show maxLineNum) in
  mkEditDiff (join nl (map (print_line lineNumWidth) (ds_output st))) (ds_firstChangedLine st).

(** ** Arguments *)

(** [o.key = v]: in place, or as a last property. *)
Fixpoint set_prop (m : list (jsstr * json)) (key : jsstr) (v : json) : list (jsstr * json) :=
  match m with
  | [] => [(key, v)]
  | (k, w) :: m' => if bool_decide (k = key) then (k, v) :: m' else (k, w) :: set_prop m' key v
  end.
Definition delete_prop (m : list (jsstr * json)) (key : jsstr) : list (jsstr * json) :=
  filter (fun kv => kv.1 <> key) m.

Definition prepareEditArguments (number_text : jsstr -> jsstr) (input : json) : json :=
  match input with
  | JObj args0 =>
      let args :=
        match get_prop args0 (js "edits") with
        | Some (JStr text) =>
            match json_parse number_text text with
            | Some (JArr parsed) => set_prop args0 (js "edits") (JArr parsed)
            | _ => args0
            end
        | _ => args0
        end in
      match get_prop args (js "oldText"), get_prop args (js "newText") with
      | Some (JStr oldText), Some (JStr newText) =>
          let edits := match get_prop args (js "edits") with Some (JArr l) => l | _ => [] end in
          let edits := edits ++ [JObj [(js "oldText", JStr oldText); (js "newText", JStr newText)]] in
          let rest := delete_prop (delete_prop args (js "oldText")) (js "newText") in
          JObj (set_prop rest (js "edits") (JArr edits))
      | _, _ => JObj args
      end
  | _ => input
  end.

Record EditToolInput := mkEditInput { ei_path : jsstr; ei_edits : list Edit }.

Definition validateEditInput (input : EditToolInput) : result jsstr (jsstr * list Edit) :=
  if is_empty (ei_edits input)
  then Throw (js "Edit tool input is invalid. edits must contain at least one replacement.")
  else Ok (ei_path input, ei_edits input).

(** ** Execution *)

(** What a file operation throws: a Node error with a code, or anything else. *)
Inductive op_error := OpCode (code message : jsstr) | OpOther (text : jsstr).
Definition access_message (e : op_error) : jsstr :=
  match e with OpCode code _ => js "Error code: " ++ code | OpOther text => text end.

(** What the tool throws: an error of its own, or one of a file operation. *)
Inductive tool_error := ToolMessage (message : jsstr) | ToolOp (e : op_error).

Record ToolOutput := mkToolOutput { to_text : jsstr; to_details : option (EditDiffResult * jsstr) }.

(** A file and the operations the tools are given ([EditOperations], [WriteOperations]),
    each with what it throws. *)
Class FileOperations (F : Type) := {
  op_access : jsstr -> F -> result op_error unit * F;
  op_readFile : jsstr -> F -> result op_error (list Z) * F;
  op_writeFile : jsstr -> jsstr -> F -> result op_error unit * F;
  op_mkdir : jsstr -> F -> result op_error unit * F;
}.

Section Tools.
Context {F : Type} `{FileOperations F}.
Context (nfkc : jsstr -> jsstr) (decode : list Z -> jsstr).
Context (diffLines : jsstr -> jsstr -> list DiffPart) (createTwoFilesPatch : jsstr -> jsstr -> jsstr -> jsstr).
Context (homedir process_cwd : jsstr) (fileURLToPath : jsstr -> result jsstr jsstr).

(** A body observes at each step whether its signal is aborted. *)
Definition tool_body := proc bool F (result tool_error ToolOutput).

Definition fails (e : tool_error) : tool_body := Return (Throw e).
Definition operation_aborted : tool_error := ToolMessage (js "Operation aborted").

(** [throwIfAborted()] before the code that follows. *)
Definition throwIfAborted (aborted : bool) (k : F -> tool_body * F) (f : F) : tool_body * F :=
  if aborted then (fails operation_aborted, f) else k f.

(** The text of the file after the edits, or the error. *)
Definition edit_text (path : jsstr) (edits : list Edit) (rawContent : jsstr) : result jsstr (jsstr * AppliedEditsResult) :=
  let '(bom, content) := stripBom rawContent in
  let originalEnding := detectLineEnding content in
  let normalizedContent := normalizeToLF content in
  match applyEditsToNormalizedContent nfkc normalizedContent edits path with
  | Throw e => Throw e
  | Ok r => Ok (bom ++ restoreLineEndings (ap_newContent r) originalEnding, r)
  end.

Definition edit_output (path : jsstr) (edits : list Edit) (r : AppliedEditsResult) : ToolOutput :=
  let diffResult := generateDiffString diffLines (ap_baseContent r) (ap_newContent r) 4 in
  let patch := createTwoFilesPatch path (ap_baseContent r) (ap_newContent r) in
  mkToolOutput (js "Successfully replaced " ++ show (zlen edits) ++ js " block(s) in " ++ path ++ js ".")
    (Some (diffResult, patch)).

(** The function the edit tool runs under the file's mutation queue, from [await] to
    [await]: what follows [access], [readFile] and [writeFile]. *)
Definition edit_after_write (path : jsstr) (edits : list Edit) (r : AppliedEditsResult) (written : result op_error unit) : tool_body :=
  Act (fun aborted f =>
    match written with
    | Throw e => (fails (ToolOp e), f)
    | Ok _ => throwIfAborted aborted (fun f => (Return (Ok (edit_output path edits r)), f)) f
    end).

Definition edit_after_read (absolutePath path : jsstr) (edits : list Edit) (read : result op_error (list Z)) : tool_body :=
  Act (fun aborted f =>
    match read with
    | Throw e => (fails (ToolOp e), f)
    | Ok buffer =>
        let rawContent := decode buffer in
        throwIfAborted aborted (fun f =>
          match edit_text path edits rawContent with
          | Throw e => (fails (ToolMessage e), f)
          | Ok (finalContent, r) =>
              throwIfAborted aborted (fun f =>
                let '(written, f) := op_writeFile absolutePath finalContent f in
                (edit_after_write path edits r written, f)) f
          end) f
    end).

Definition edit_after_access (absolutePath path : jsstr) (edits : list Edit) (access : result op_error unit) : tool_body :=
  Act (fun aborted =>
    throwIfAborted aborted (fun f =>
      match access with
      | Throw e => (fails (ToolMessage (js "Could not edit file: " ++ path ++ js ". " ++ access_message e ++ js ".")), f)
      | Ok _ => let '(read, f) := op_readFile absolutePath f in (edit_after_read absolutePath path edits read, f)
      end)).

Definition edit_body (absolutePath path : jsstr) (edits : list Edit) : tool_body :=
  Act (fun aborted =>
    throwIfAborted aborted (fun f =>
      let '(access, f) := op_access absolutePath f in (edit_after_access absolutePath path edits access, f))).

(** The function of the write tool. *)
Definition write_body (absolutePath path content : jsstr) : tool_body :=
  Act (fun aborted =>
    throwIfAborted aborted (fun f =>
      let '(made, f) := op_mkdir (node_dirname absolutePath) f in
      (Act (fun aborted f =>
         match made with
         | Throw e => (fails (ToolOp e), f)
         | Ok _ =>
             throwIfAborted aborted (fun f =>
               let '(written, f) := op_writeFile absolutePath content f in
               (Act (fun aborted f =>
                  match written with
                  | Throw e => (fails (ToolOp e), f)
                  | Ok _ =>
                      throwIfAborted aborted (fun f =>
                        (Return (Ok (mkToolOutput
                           (js "Successfully wrote " ++ show (zlen content) ++ js " bytes to " ++ path) None)), f)) f
                  end), f)) f
         end), f))).

(** [execute] up to the queue: the file to queue for, and what to run there. *)
Definition edit_execute (cwd : jsstr) (input : EditToolInput) : result tool_error (jsstr * tool_body) :=
  match validateEditInput input with
  | Throw e => Throw (ToolMessage e)
  | Ok (path, edits) =>
      match resolveToCwd homedir process_cwd fileURLToPath path cwd with
      | Throw e => Throw (ToolMessage e)
      | Ok absolutePath => Ok (absolutePath, edit_body absolutePath path edits)
      end
  end.

Definition write_execute (cwd path content : jsstr) : result tool_error (jsstr * tool_body) :=
  match resolveToCwd homedir process_cwd fileURLToPath path cwd with
  | Throw e => Throw (ToolMessage e)
  | Ok absolutePath => Ok (absolutePath, write_body absolutePath path content)
  end.

(** [computeEditsDiff]: the preview, which only reads. *)
Definition computeEditsDiff (cwd path : jsstr) (edits : list Edit) (w : F) : result jsstr (jsstr + EditDiffResult) * F :=
  match resolveToCwd homedir process_cwd fileURLToPath path cwd with
  | Throw e => (Throw e, w)
  | Ok absolutePath =>
      match op_access absolutePath w with
      | (Throw e, w) => (Ok (inl (js "Could not edit file: " ++ path ++ js ". " ++ access_message e ++ js ".")), w)
      | (Ok _, w) =>
          match op_readFile absolutePath w with
          | (Throw (OpCode _ message), w) => (Ok (inl message), w)
          | (Throw (OpOther text), w) => (Ok (inl text), w)
          | (Ok buffer, w) =>
              let '(_, content) := stripBom (decode buffer) in
              match applyEditsToNormalizedContent nfkc (normalizeToLF content) edits path with
              | Throw e => (Ok (inl e), w)
              | Ok r => (Ok (inr (generateDiffString diffLines (ap_baseContent r) (ap_newContent r) 4)), w)
              end
          end
      end
  end.
End Tools.
