(* ===== verification/EditToolProps.v ===== *)
(** What the edit tool guarantees: how a call ends and what the file holds then, that
    the text outside the edited regions is kept with its line endings and byte order
    mark, that concurrent edits of a file all take effect, and that the numbers of the
    displayed diff are right; and concrete edits. *)
From S2P Require Import Prelude JsString StringSearch Effects EditDiff EditProps Paths MutationQueue EditTool.

(** ** Line endings *)

Lemma replace_cr_id s : 13 ∉ s -> replace_cr s = s.
Proof.
  unfold replace_cr. induction s as [|c s IH]; intros H; [done |]. apply not_elem_of_cons in H as [Hc H].
  cbn [map]. rewrite IH by done. by rewrite (proj2 (Z.eqb_neq c 13)).
Qed.

Lemma replace_crlf_skip c s : c <> 13 -> replace_crlf (c :: s) = c :: replace_crlf s.
Proof. intros Hc. destruct s as [|d s]; [done |]. cbn [replace_crlf]. by rewrite (proj2 (Z.eqb_neq c 13)). Qed.

Lemma replace_crlf_id s : 13 ∉ s -> replace_crlf s = s.
Proof.
  induction s as [|c s IH]; intros H; [done |]. apply not_elem_of_cons in H as [Hc H].
  rewrite replace_crlf_skip by done. by rewrite IH.
Qed.

Lemma normalize_lf s : 13 ∉ s -> normalizeToLF s = s.
Proof. intros H. unfold normalizeToLF. by rewrite replace_crlf_id, replace_cr_id. Qed.

Lemma normalize_restore t ending : 13 ∉ t -> normalizeToLF (restoreLineEndings t ending) = t.
Proof.
  intros H. destruct ending; [| by apply normalize_lf]. unfold normalizeToLF.
  assert (replace_crlf (restoreLineEndings t CRLF) = t) as ->; [| by apply replace_cr_id].
  unfold restoreLineEndings. induction t as [|c t IH]; [done |]. apply not_elem_of_cons in H as [Hc H].
  cbn [map concat]. destruct (c =? 10) eqn:E.
  - apply Z.eqb_eq in E as ->. cbn [app]. change (replace_crlf (13 :: 10 :: concat (map (fun c => if c =? 10 then [13; 10] else [c]) t)))
      with (10 :: replace_crlf (concat (map (fun c => if c =? 10 then [13; 10] else [c]) t))). by rewrite IH.
  - cbn [app]. rewrite replace_crlf_skip by done. by rewrite IH.
Qed.

Lemma index_of_first c p s v : c ∉ s -> index_of (c :: p) (s ++ (c :: p) ++ v) = Some (length s).
Proof.
  intros Hs. induction s as [|d s IH].
  - assert (E : starts_with (c :: p) ((c :: p) ++ v) = true) by (apply starts_with_prefix; by exists v).
    cbn [app] in *. cbn [index_of]. by rewrite E.
  - apply not_elem_of_cons in Hs as [Hd Hs]. cbn [app index_of starts_with].
    rewrite (proj2 (Z.eqb_neq c d)) by done. cbn [andb]. specialize (IH Hs). cbn [app] in IH. by rewrite IH.
Qed.

Lemma index_of_absent c p s : c ∉ s -> index_of (c :: p) s = None.
Proof. intros Hs. apply index_of_None. intros u v ->. set_solver. Qed.

Lemma split_first_newline t : 10 ∈ t -> exists a b, t = a ++ 10 :: b /\ 10 ∉ a.
Proof.
  induction t as [|c t IH]; intros H; [by apply not_elem_of_nil in H |].
  destruct (decide (c = 10)) as [-> | Hc]; [exists [], t; split; [done | apply not_elem_of_nil] |].
  apply elem_of_cons in H as [? | H]; [congruence |]. destruct (IH H) as (a & b & -> & Ha).
  exists (c :: a), b. split; [done |]. apply not_elem_of_cons. done.
Qed.

Lemma restore_app a b e : restoreLineEndings (a ++ b) e = restoreLineEndings a e ++ restoreLineEndings b e.
Proof. destruct e; [| done]. unfold restoreLineEndings. by rewrite map_app, concat_app. Qed.

Lemma restore_no_newline a e : 10 ∉ a -> restoreLineEndings a e = a.
Proof.
  destruct e; [| done]. unfold restoreLineEndings. induction a as [|c a IH]; intros H; [done |].
  apply not_elem_of_cons in H as [Hc H]. cbn [map concat]. rewrite (proj2 (Z.eqb_neq c 10)) by done. cbn [app]. by rewrite IH.
Qed.

(** A text with one kind of line ending: no carriage return is left in [t]. *)
Lemma detect_restore t ending :
  13 ∉ t -> (ending = CRLF -> 10 ∈ t) -> detectLineEnding (restoreLineEndings t ending) = ending.
Proof.
  intros H Hnl. unfold detectLineEnding. destruct ending.
  - destruct (split_first_newline t (Hnl eq_refl)) as (a & b & -> & Ha).
    assert (13 ∉ a) as H13 by set_solver. rewrite restore_app, (restore_no_newline a) by done.
    change (restoreLineEndings (10 :: b) CRLF) with ([13; 10] ++ restoreLineEndings b CRLF).
    rewrite (index_of_first 13 [10]) by done.
    replace (a ++ [13; 10] ++ restoreLineEndings b CRLF) with ((a ++ [13]) ++ [10] ++ restoreLineEndings b CRLF)
      by (by rewrite <- app_assoc).
    rewrite (index_of_first 10 []) by set_solver. rewrite length_app. simpl length.
    replace (length a <? length a + 1)%nat with true; [done |]. symmetry. apply Nat.ltb_lt. lia.
  - cbn [restoreLineEndings]. rewrite (index_of_absent 13) by done. by destruct (index_of [10] t).
Qed.

(** An edit of a file with one kind of line ending, CRLF or LF, and perhaps a byte
    order mark, keeps all of the file but the old texts found, which become the new
    texts with the file's line endings: no other line, ending or mark changes. *)
Theorem edit_keeps_the_rest nfkc path edits bom t ending final r :
  bom = BOM \/ bom = [] /\ starts_with BOM (restoreLineEndings t ending) = false ->
  13 ∉ t -> (ending = CRLF -> 10 ∈ t) ->
  Forall (fun e => index_of (normalizeToLF (ed_oldText e)) t <> None) edits ->
  edit_text nfkc path edits (bom ++ restoreLineEndings t ending) = Ok (final, r) ->
  exists ps tail,
    t = text_before ps tail
    /\ final = bom ++ restoreLineEndings (text_after ps tail) ending
    /\ map pc_edit ps ≡ₚ map normalize_edit edits
    /\ Forall (fun p => pc_old p = ed_oldText (pc_edit p) /\ pc_new p = ed_newText (pc_edit p)) ps.
Proof.
  intros Hbom H13 Hnl Hocc. unfold edit_text.
  assert (stripBom (bom ++ restoreLineEndings t ending) = (bom, restoreLineEndings t ending)) as ->.
  { unfold stripBom. destruct Hbom as [-> | [-> E]]; [done |]. cbn [app]. by rewrite E. }
  rewrite normalize_restore, detect_restore by done.
  destruct (applyEditsToNormalizedContent nfkc t edits path) as [a|] eqn:Ea; [| done]. intros [= <- <-].
  apply edits_exact_pieces in Ea as (_ & _ & ps & tail & E1 & -> & E3 & E4); [| done]. by exists ps, tail.
Qed.

(** ** How a call ends *)

(** What the tools rely on of the file operations: access, reading and making a
    directory leave the text of the file alone, reading gives it, and a write that
    succeeds replaces it. *)
Class FileLaws (F : Type) `{FileOperations F} (decode : list Z -> jsstr) (view : F -> option jsstr) := {
  access_keeps p f : view (op_access p f).2 = view f;
  read_keeps p f : view (op_readFile p f).2 = view f;
  read_gives p f b : (op_readFile p f).1 = Ok b -> view f = Some (decode b);
  write_sets p c f : (op_writeFile p c f).1 = Ok tt -> view (op_writeFile p c f).2 = Some c;
  mkdir_keeps p f : view (op_mkdir p f).2 = view f;
}.

Section Outcome.
Context {F : Type} {ops : FileOperations F} (decode : list Z -> jsstr) (view : F -> option jsstr) {laws : FileLaws F decode view}.
Context (nfkc : jsstr -> jsstr) (diffLines : jsstr -> jsstr -> list DiffPart).
Context (createTwoFilesPatch : jsstr -> jsstr -> jsstr -> jsstr).
Local Abbreviation edit_body := (edit_body nfkc decode diffLines createTwoFilesPatch).
Local Abbreviation edit_output := (edit_output diffLines createTwoFilesPatch).

Lemma progress_cons (p : tool_body (F := F)) x obs f : progress p (x :: obs) f = progress (act x (p, f)).1 obs (act x (p, f)).2.
Proof. unfold progress. cbn [foldl]. by rewrite <- (surjective_pairing (act x (p, f))). Qed.

Lemma progress_return r obs (f : F) : progress (Return r : tool_body (F := F)) obs f = (Return r, f).
Proof. induction obs as [|x obs IH]; [done |]. by rewrite progress_cons. Qed.

(** The body has returned. *)
Ltac returned := cbn [fst snd]; unfold fails; rewrite progress_return.

(** The file holds the edited text. *)
Definition edited (path : jsstr) (edits : list Edit) (f f' : F) (a : AppliedEditsResult) : Prop :=
  exists raw final, view f = Some raw /\ edit_text nfkc path edits raw = Ok (final, a) /\ view f' = Some final.

(** How an edit ends: with success, and the file edited; with an error of its own, and
    the file as it was unless the signal was aborted after the write; or with the error
    of a file operation, and the file as it was unless that operation is the write. *)
Definition edit_end (path : jsstr) (edits : list Edit) (f f' : F) (r : result tool_error ToolOutput) : Prop :=
  match r with
  | Ok out => exists a, edited path edits f f' a /\ out = edit_output path edits a
  | Throw (ToolMessage m) => view f' = view f \/ ToolMessage m = operation_aborted /\ exists a, edited path edits f f' a
  | Throw (ToolOp e) => view f' = view f \/ exists p c f0, op_writeFile p c f0 = (Throw e, f')
  end.

Lemma after_write_end path edits a written x f obs r f' f0 :
  (written = Ok tt -> edited path edits f0 f a) ->
  (forall e, written = Throw e -> exists p c f1, op_writeFile p c f1 = (Throw e, f)) ->
  progress (edit_after_write diffLines createTwoFilesPatch path edits a written) (x :: obs) f = (Return r, f') ->
  edit_end path edits f0 f' r.
Proof.
  intros Hok Hthrow. rewrite progress_cons. unfold act, edit_after_write, throwIfAborted. cbn [fst snd].
  destruct written as [[]|e]; [destruct x |]; returned; intros [= <- <-].
  - right. split; [done |]. exists a. by apply Hok.
  - exists a. split; [by apply Hok | done].
  - right. by apply Hthrow.
Qed.

Lemma after_read_end absolutePath path edits read x f obs r f' f0 :
  view f = view f0 -> (forall b, read = Ok b -> view f0 = Some (decode b)) ->
  progress (edit_after_read nfkc decode diffLines createTwoFilesPatch absolutePath path edits read) (x :: obs) f = (Return r, f') ->
  edit_end path edits f0 f' r.
Proof.
  intros Hf Hread. rewrite progress_cons. destruct (act x _) as [p1 f1] eqn:Ea. cbn [fst snd].
  unfold act, edit_after_read, throwIfAborted in Ea. cbn [fst snd] in Ea.
  destruct read as [b|e]; [| injection Ea as <- <-; returned; intros [= <- <-]; by left].
  destruct x; [injection Ea as <- <-; returned; intros [= <- <-]; by left |].
  destruct (edit_text nfkc path edits (decode b)) as [[final a]|e] eqn:Et;
    [| injection Ea as <- <-; returned; intros [= <- <-]; by left].
  destruct (op_writeFile absolutePath final f) as [written f2] eqn:Ew. injection Ea as <- <-.
  destruct obs as [|y obs]; [done |]. apply after_write_end.
  - intros ->. exists (decode b), final. split; [by apply Hread |]. split; [done |].
    pose proof (write_sets absolutePath final f) as Hw. rewrite Ew in Hw. by apply Hw.
  - intros e ->. by exists absolutePath, final, f.
Qed.

(** The first two steps: nothing has been changed, and the body has returned an error
    or has read the file. *)
Lemma edit_begins absolutePath path edits x y obs f :
  exists f2, view f2 = view f /\
  ((exists m, progress (edit_body absolutePath path edits) (x :: y :: obs) f = (Return (Throw (ToolMessage m)), f2))
   \/ exists read, (forall b, read = Ok b -> view f = Some (decode b))
        /\ progress (edit_body absolutePath path edits) (x :: y :: obs) f =
            progress (edit_after_read nfkc decode diffLines createTwoFilesPatch absolutePath path edits read) obs f2).
Proof.
  rewrite progress_cons. destruct (act x _) as [p1 f1] eqn:Ea. cbn [fst snd].
  unfold act, edit_body, throwIfAborted in Ea. cbn [fst snd] in Ea.
  destruct x; [injection Ea as <- <-; exists f; split; [done |]; left; eexists; by returned |].
  pose proof (access_keeps absolutePath f) as Ha. destruct (op_access absolutePath f) as [access f1'].
  injection Ea as <- <-. cbn [snd] in Ha. rewrite progress_cons. destruct (act y _) as [p2 f2] eqn:Eb. cbn [fst snd].
  unfold act, edit_after_access, throwIfAborted in Eb. cbn [fst snd] in Eb.
  destruct y; [injection Eb as <- <-; exists f1'; split; [done |]; left; eexists; by returned |].
  destruct access as [[]|e]; [| injection Eb as <- <-; exists f1'; split; [done |]; left; eexists; by returned].
  pose proof (read_keeps absolutePath f1') as Hr. pose proof (read_gives absolutePath f1') as Hg.
  destruct (op_readFile absolutePath f1') as [read f2']. injection Eb as <- <-. cbn [fst snd] in *.
  exists f2'. split; [congruence |]. right. exists read. split; [| done]. intros b ->. rewrite <- Ha. by apply Hg.
Qed.

Lemma edit_outcome absolutePath path edits obs f r f' :
  progress (edit_body absolutePath path edits) obs f = (Return r, f') -> edit_end path edits f f' r.
Proof.
  destruct obs as [|x [|y obs]]; [done | |].
  - unfold progress, edit_body, throwIfAborted. cbn. destruct x; cbn; [intros [= <- <-]; by left |].
    by destruct (op_access absolutePath f).
  - destruct (edit_begins absolutePath path edits x y obs f) as (f2 & Hf2 & [(m & ->) | (read & Hread & ->)]).
    + intros [= <- <-]. by left.
    + destruct obs as [|z obs]; [done |]. by apply after_read_end.
Qed.

(** C13: A call of the edit tool is all or nothing: on success the file holds exactly the
    edited text; on failure it holds what it held, except when the write itself failed
    or the signal was aborted after it. *)
Theorem edit_all_or_nothing absolutePath path edits obs f r f' :
  progress (edit_body absolutePath path edits) obs f = (Return r, f') -> edit_end path edits f f' r.
Proof. apply edit_outcome. Qed.

(** Every call of the edit tool ends, at its fourth step at the latest. *)
Lemma edit_ends absolutePath path edits obs f :
  (4 <= length obs)%nat -> exists r f', progress (edit_body absolutePath path edits) obs f = (Return r, f').
Proof.
  intros Hl. destruct obs as [|x [|y [|z [|w obs]]]]; simpl in Hl; [lia.. |].
  destruct (edit_begins absolutePath path edits x y (z :: w :: obs) f) as (f2 & _ & [(m & ->) | (read & _ & ->)]); [by eexists _, _ |].
  rewrite progress_cons. destruct (act z _) as [p1 f1] eqn:Ea. cbn [fst snd].
  unfold act, edit_after_read, throwIfAborted in Ea. cbn [fst snd] in Ea.
  destruct read as [b|e]; [| injection Ea as <- <-; returned; by eexists _, _].
  destruct z; [injection Ea as <- <-; returned; by eexists _, _ |].
  destruct (edit_text nfkc path edits (decode b)) as [[final a]|e]; [| injection Ea as <- <-; returned; by eexists _, _].
  destruct (op_writeFile absolutePath final f2) as [written f3]. injection Ea as <- <-.
  rewrite progress_cons. unfold act, edit_after_write, throwIfAborted. cbn [fst snd].
  destruct written as [[]|e]; [destruct w |]; returned; by eexists _, _.
Qed.

(** ** Concurrent edits *)

(** The edits of several calls, one call after the other. *)
Fixpoint edit_chain (reqs : list (jsstr * list Edit)) (raw : jsstr) : option jsstr :=
  match reqs with
  | [] => Some raw
  | (path, edits) :: reqs' =>
      match edit_text nfkc path edits raw with
      | Ok (final, _) => edit_chain reqs' final
      | Throw _ => None
      end
  end.

Lemma edit_chain_app reqs reqs' raw mid : edit_chain reqs raw = Some mid -> edit_chain (reqs ++ reqs') raw = edit_chain reqs' mid.
Proof.
  revert raw. induction reqs as [|[path edits] reqs IH]; intros raw; cbn [app edit_chain]; [by intros [= ->] |].
  destruct (edit_text nfkc path edits raw) as [[final a]|]; [apply IH | done].
Qed.

(** A call of the edit tool for file [k] that has succeeded, or a call for another file. *)
Definition settled_edit (k : jsstr) (req : option (jsstr * list Edit)) (c : call) : Prop :=
  match req with
  | Some (path, edits) => exists absolutePath current out obs,
      cl_fn c = edit_body absolutePath path edits /\ cl_status c = Finished k current (Ok out) obs
  | None => key_of (cl_status c) <> Some k
  end.

(** C5: Edits of one file that are made concurrently, in one batch of tool calls or by
    several agents in the process, all take effect: when the calls for the file have
    succeeded, in whatever order their reads and writes could be interleaved, the file
    holds the text edited by each of them in turn. *)
Theorem concurrent_edits files st k reqs raw :
  reachable files st -> Forall2 (settled_edit k) reqs (qs_calls st) -> view (files k) = Some raw ->
  exists final, edit_chain (omap id reqs) raw = Some final /\ view (qs_files st k) = Some final.
Proof.
  intros Hr Hreqs Hraw. destruct (serial_reachable _ _ Hr) as [S1 _ S3].
  assert (Hn : forall n, (n <= length (qs_calls st))%nat -> exists mid,
            edit_chain (omap id (take n reqs)) raw = Some mid /\ view (history k (take n (qs_calls st)) (files k)) = Some mid).
  { induction n as [|n IH]; intros Hn; [by exists raw |]. destruct IH as (mid & Hmid & Hview); [lia |].
    destruct (lookup_lt_is_Some_2 (qs_calls st) n) as [c Hc]; [lia |].
    destruct (Forall2_lookup_r _ _ _ _ _ Hreqs Hc) as (req & Hreq & Hset).
    rewrite (take_S_r _ _ _ Hc), (take_S_r _ _ _ Hreq), omap_app. unfold history. rewrite foldl_app. cbn [foldl].
    fold (history k (take n (qs_calls st)) (files k)). rewrite (edit_chain_app _ _ _ _ Hmid).
    destruct req as [[path edits]|]; cbn [omap list_omap id].
    - destruct c as [fn s], Hset as (absolutePath & current & out & obs & Hfn & Hst). cbn in Hfn, Hst. subst fn s. pose proof (S3 _ _ _ _ _ _ Hc) as Hres.
      set (f := history k (take n (qs_calls st)) (files k)) in *. unfold call_effect. cbn [cl_status cl_fn].
      rewrite bool_decide_true by done.
      destruct (progress (edit_body absolutePath path edits) obs f) as [p f'] eqn:Ep. cbn [fst snd] in *. subst p.
      apply edit_outcome in Ep as (a & (raw' & final & Hv & Ht & Hv') & _). rewrite Hview in Hv. injection Hv as <-.
      exists final. cbn [edit_chain]. by rewrite Ht.
    - exists mid. split; [done |]. cbn in Hset. unfold call_effect.
      destruct (cl_status c); try done; cbn [key_of] in Hset; by rewrite bool_decide_false by congruence. }
  destruct (Hn (length (qs_calls st))) as (final & H1 & H2); [done |]. exists final.
  rewrite firstn_all in H2. rewrite <- (Forall2_length _ _ _ Hreqs), firstn_all in H1. by rewrite S1.
Qed.
End Outcome.

(** ** The displayed diff *)

Section Diff.
Context (old new : list jsstr).

(** A line of the diff is the line of that number in its file. *)
Definition line_ok (l : diff_line) : Prop :=
  match l with
  | LineAdded n line => new !! Z.to_nat (n - 1) = Some line
  | LineRemoved n line => old !! Z.to_nat (n - 1) = Some line
  | LineContext n line => old !! Z.to_nat (n - 1) = Some line
  | LineSkipped => True
  end.

(** [a] old and [b] new lines are behind. *)
Record diff_at (a b : nat) (st : diff_state) : Prop := {
  da_old : ds_oldLineNum st = 1 + Z.of_nat a;
  da_new : ds_newLineNum st = 1 + Z.of_nat b;
  da_output : Forall line_ok (ds_output st);
}.

Lemma numbered_ok f a (lines all : list jsstr) :
  (forall n x, all !! Z.to_nat (n - 1) = Some x -> line_ok (f n x)) -> lines `prefix_of` drop a all ->
  Forall line_ok (numbered f (1 + Z.of_nat a) lines).
Proof.
  intros Hf [k Hk]. unfold numbered. apply Forall_lookup. intros i l Hl. rewrite list_lookup_imap in Hl.
  destruct (lines !! i) as [x|] eqn:Ex; [| done]. injection Hl as <-. apply Hf.
  replace (Z.to_nat (1 + Z.of_nat a + Z.of_nat i - 1)) with (a + i)%nat by lia.
  rewrite <- lookup_drop, Hk. by apply lookup_app_l_Some.
Qed.

Lemma diff_at_context a b lines st :
  diff_at a b st -> lines `prefix_of` drop a old -> diff_at (a + length lines) (b + length lines) (show_context lines st).
Proof.
  intros [H1 H2 H3] Hl. unfold show_context, zlen. split; cbn; [lia | lia |].
  rewrite H1. apply Forall_app. split; [done |]. by apply (numbered_ok _ _ _ old).
Qed.

Lemma diff_at_skip a b n st : diff_at a b st -> diff_at (a + n) (b + n) (skip_context n st).
Proof. intros [H1 H2 H3]. split; cbn; [lia | lia | done]. Qed.

Lemma diff_at_skipped a b n st : diff_at a b st -> diff_at (a + n) (b + n) (show_skipped n st).
Proof. intros [H1 H2 H3]. apply diff_at_skip. split; [done.. |]. cbn. apply Forall_app. split; [done |]. by constructor. Qed.

Lemma diff_at_flag a b f st : diff_at a b st -> diff_at a b (set_lastWasChange f st).
Proof. by intros [H1 H2 H3]. Qed.

Lemma prefix_drop {A} n a (l k : list A) : l `prefix_of` drop a k -> drop n l `prefix_of` drop (a + n) k.
Proof.
  intros [m Hm]. rewrite <- drop_drop, Hm. exists (drop (n - length l) m). by rewrite drop_app.
Qed.

(** A part that is in both files. *)
Lemma diff_at_both c next p a b st :
  dp_change p = false -> part_lines (dp_value p) `prefix_of` drop a old -> diff_at a b st ->
  let n := length (part_lines (dp_value p)) in diff_at (a + n) (b + n) (diff_part c next p st).
Proof.
  intros Hc Hp Hst. cbv zeta. unfold diff_part. rewrite Hc. apply diff_at_flag. set (raw := part_lines (dp_value p)) in *.
  assert (Htake : take c raw `prefix_of` drop a old) by (etransitivity; [apply prefix_take | done]).
  destruct (ds_lastWasChange st), next.
  - destruct (Nat.leb_spec (length raw) (c * 2)); [by apply diff_at_context |].
    replace (a + length raw)%nat with (a + length (take c raw) + (length raw - c - c) + length (drop (length raw - c) raw))%nat
      by (rewrite length_take, length_drop; lia).
    replace (b + length raw)%nat with (b + length (take c raw) + (length raw - c - c) + length (drop (length raw - c) raw))%nat
      by (rewrite length_take, length_drop; lia).
    apply diff_at_context; [by apply diff_at_skipped, diff_at_context |].
    replace (a + length (take c raw) + (length raw - c - c))%nat with (a + (length raw - c))%nat by (rewrite length_take; lia).
    by apply prefix_drop.
  - replace (a + length raw)%nat with (a + length (take c raw) + (length raw - length (take c raw)))%nat by (rewrite length_take; lia).
    replace (b + length raw)%nat with (b + length (take c raw) + (length raw - length (take c raw)))%nat by (rewrite length_take; lia).
    destruct (Nat.ltb_spec 0 (length raw - length (take c raw))); [by apply diff_at_skipped, diff_at_context |].
    replace (length raw - length (take c raw))%nat with 0%nat by lia. rewrite !Nat.add_0_r. by apply diff_at_context.
  - replace (a + length raw)%nat with (a + (length raw - c) + length (drop (length raw - c) raw))%nat by (rewrite length_drop; lia).
    replace (b + length raw)%nat with (b + (length raw - c) + length (drop (length raw - c) raw))%nat by (rewrite length_drop; lia).
    apply diff_at_context; [| by apply prefix_drop].
    destruct (Nat.ltb_spec 0 (length raw - c)); [by apply diff_at_skipped |].
    replace (length raw - c)%nat with 0%nat by lia. by rewrite !Nat.add_0_r.
  - by apply diff_at_skip.
Qed.

(** The lines of one side of the parts. *)
Definition side_lines (keep : DiffPart -> bool) (parts : list DiffPart) : list jsstr :=
  concat (map (fun p => if keep p then part_lines (dp_value p) else []) parts).
Definition in_old (p : DiffPart) : bool := negb (dp_added p).
Definition in_new (p : DiffPart) : bool := negb (dp_removed p).

Lemma diff_parts_ok c parts : forall a b st,
  Forall (fun p => dp_added p && dp_removed p = false) parts -> diff_at a b st ->
  side_lines in_old parts = drop a old -> side_lines in_new parts = drop b new ->
  Forall line_ok (ds_output (diff_parts c parts st)).
Proof.
  induction parts as [|p parts IH]; intros a b st Hw Hst Ho Hn; [by apply (da_output a b) |].
  apply Forall_cons in Hw as [Hp Hw]. cbn [diff_parts]. set (next := match parts with [] => false | q :: _ => dp_change q end).
  unfold side_lines, in_old, in_new in Ho, Hn. cbn [map concat] in Ho, Hn. fold (side_lines in_old parts) in Ho. fold (side_lines in_new parts) in Hn.
  pose proof (diff_at_both c next p a b st) as Hboth. unfold dp_change in Hboth.
  set (raw := part_lines (dp_value p)) in *.
  assert (Hpast : forall m (l k r : list jsstr), l ++ r = drop m k -> r = drop (m + length l) k).
  { intros m l k r E. by rewrite <- drop_drop, <- E, drop_app_length. }
  destruct (dp_added p) eqn:Ea, (dp_removed p) eqn:Er; try done; cbn [negb app] in Ho, Hn.
  - apply (IH a (b + length raw)%nat); [done | | done | by apply Hpast].
    unfold diff_part, dp_change. rewrite Ea. cbn [orb]. destruct Hst as [H1 H2 H3]. fold raw. unfold zlen.
    split; cbn; [lia | lia |]. rewrite H2. apply Forall_app. split; [done |].
    apply (numbered_ok _ _ _ new); [done |]. by exists (side_lines in_new parts).
  - apply (IH (a + length raw)%nat b); [done | | by apply Hpast | done].
    unfold diff_part, dp_change. rewrite Ea, Er. cbn [orb]. destruct Hst as [H1 H2 H3]. fold raw. unfold zlen.
    split; cbn; [lia | lia |]. rewrite H1. apply Forall_app. split; [done |].
    apply (numbered_ok _ _ _ old); [done |]. by exists (side_lines in_old parts).
  - apply (IH (a + length raw)%nat (b + length raw)%nat); [done | | by apply Hpast | by apply Hpast].
    apply Hboth; [done | | done]. by exists (side_lines in_old parts).
Qed.
End Diff.

(** The changed lines of an output, and of the parts: [true] for an added one. *)
Definition changed_lines (out : list diff_line) : list (bool * jsstr) :=
  omap (fun l => match l with LineAdded _ x => Some (true, x) | LineRemoved _ x => Some (false, x) | _ => None end) out.
Definition part_changes (p : DiffPart) : list (bool * jsstr) :=
  if dp_change p then map (pair (dp_added p)) (part_lines (dp_value p)) else [].

Lemma changed_numbered f from lines g :
  (forall n x, (match f n x with LineAdded _ x => Some (true, x) | LineRemoved _ x => Some (false, x) | _ => None end) = g x) ->
  changed_lines (numbered f from lines) = omap g lines.
Proof.
  intros Hf. unfold changed_lines, numbered. revert from. induction lines as [|x lines IH]; intros from; [done |].
  rewrite imap_cons. cbn [omap list_omap]. rewrite Hf.
  rewrite (imap_ext (λ i line, f (from + Z.of_nat (S i)) line) (λ i line, f (from + 1 + Z.of_nat i) line))
    by (intros; f_equal; lia).
  specialize (IH (from + 1)). cbn in IH |- *. by rewrite IH.
Qed.

Lemma changed_context lines st : changed_lines (ds_output (show_context lines st)) = changed_lines (ds_output st).
Proof.
  unfold show_context. cbn. unfold changed_lines at 1. rewrite omap_app. fold (changed_lines (ds_output st)).
  fold (changed_lines (numbered LineContext (ds_oldLineNum st) lines)).
  rewrite (changed_numbered _ _ _ (fun _ => None)) by done. 
  replace (omap (λ _ : jsstr, @None (bool * jsstr)) lines) with (@nil (bool * jsstr)); [by rewrite app_nil_r |].
  by induction lines.
Qed.

Lemma changed_skipped n st : changed_lines (ds_output (show_skipped n st)) = changed_lines (ds_output st).
Proof. unfold changed_lines. cbn. rewrite omap_app. cbn. by rewrite app_nil_r. Qed.

Lemma changed_part c next p st :
  changed_lines (ds_output (diff_part c next p st)) = changed_lines (ds_output st) ++ part_changes p.
Proof.
  unfold diff_part, part_changes. destruct (dp_change p) eqn:Ec.
  - assert (Hmap : forall (b : bool) (l : list jsstr), omap (fun x => Some (b, x)) l = map (pair b) l).
    { intros b l. induction l as [|x l IH]; [done |]. cbn. by f_equal. }
    destruct (dp_added p); cbn; unfold changed_lines at 1; rewrite omap_app; fold (changed_lines (ds_output st)); f_equal.
    + rewrite <- Hmap. by apply (changed_numbered LineAdded).
    + rewrite <- Hmap. by apply (changed_numbered LineRemoved).
  - rewrite app_nil_r. cbn [set_lastWasChange ds_output].
    destruct (ds_lastWasChange st), next; repeat case_match; by rewrite ?changed_context, ?changed_skipped, ?changed_context.
Qed.

Lemma changed_parts c parts : forall st,
  changed_lines (ds_output (diff_parts c parts st)) = changed_lines (ds_output st) ++ concat (map part_changes parts).
Proof.
  induction parts as [|p parts IH]; intros st; cbn [diff_parts map concat]; [by rewrite app_nil_r |].
  by rewrite IH, changed_part, <- app_assoc.
Qed.

(** The displayed diff is right: every line it shows is the line of that number in
    the old file (removed and context lines) or in the new file (added lines), and the
    changed lines it shows are all changed lines, in order.  The parts of [diffLines]
    are runs of whole lines that make up the two files. *)
Theorem diff_shows_changes c parts old new :
  Forall (fun p => dp_added p && dp_removed p = false) parts ->
  side_lines in_old parts = old -> side_lines in_new parts = new ->
  let out := ds_output (diff_parts c parts diff_start) in
  Forall (line_ok old new) out /\ changed_lines out = concat (map part_changes parts).
Proof.
  intros Hw Ho Hn. cbv zeta. split; [| by rewrite changed_parts].
  apply (diff_parts_ok _ _ c parts 0 0); [done | by split; [| | constructor] | done..].
Qed.

Module EditSample.

(** ASCII texts are in normal form. *)
Definition ascii_nfkc (s : jsstr) : jsstr := s.
Definition apply_sample (content : jsstr) (edits : list Edit) := applyEditsToNormalizedContent ascii_nfkc content edits (js "f").

(** ** Applying edits *)

Definition two_edits : list Edit := [mkEdit (js "two") (js "2"); mkEdit (js "one") (js "1")].

Lemma edits_exact_witness :
  apply_sample (js "one two three") two_edits = Ok (mkApplied (js "one two three") (js "1 2 three"))
  /\ exists ps tail, js "one two three" = text_before ps tail /\ js "1 2 three" = text_after ps tail
       /\ map pc_edit ps ≡ₚ map normalize_edit two_edits.
Proof.
  assert (H : apply_sample (js "one two three") two_edits = Ok (mkApplied (js "one two three") (js "1 2 three")))
    by (vm_compute; reflexivity).
  split; [exact H |].
  destruct (edits_exact ascii_nfkc (js "one two three") two_edits (js "f") (mkApplied (js "one two three") (js "1 2 three")))
    as (_ & _ & ps & tail & H1 & H2 & H3 & _).
  - repeat constructor; vm_compute; discriminate.
  - exact H.
  - exists ps, tail. auto.
Defined.

Definition indented : jsstr := js "class A {" ++ nl ++ js "    f() {}" ++ nl ++ js "}".
Definition indented_edit : list Edit := [mkEdit (js "f() {}" ++ nl ++ js "  }") (js "g() {}" ++ nl ++ js "  }")].

Lemma edits_applied_witness :
  exists r, apply_sample indented indented_edit = Ok r /\ ap_newContent r <> ap_baseContent r
    /\ exists ps tail, ap_baseContent r = text_before ps tail /\ ap_newContent r = text_after ps tail
         /\ pieces_ok ascii_nfkc [] ps tail.
Proof.
  destruct (apply_sample indented indented_edit) as [r|] eqn:E; [| vm_compute in E; discriminate].
  exists r. split; [reflexivity |].
  destruct (edits_applied ascii_nfkc indented indented_edit (js "f") r (fun s => eq_refl) E) as (_ & Hd & _ & ps & tail & H1 & H2 & _ & H3).
  split; [exact Hd |]. exists ps, tail. auto.
Defined.

(** An old text that matches only without its indentation, inside a longer line,
    replaces the whole line. *)
Example trimmed_match_takes_the_line :
  apply_sample (js "const foo = 1;") [mkEdit (js "  foo") (js "  bar")]
  = Ok (mkApplied (js "const foo = 1;") (js "bar")).
Proof. vm_compute. reflexivity. Qed.

(** An old text that occurs twice, overlapping itself, passes as unique. *)
Example overlapping_occurrences_pass :
  apply_sample (js "aaab") [mkEdit (js "aa") (js "c")] = Ok (mkApplied (js "aaab") (js "cab"))
  /\ index_of (js "aa") (drop 1 (js "aaab")) = Some 0%nat.
Proof. vm_compute. split; reflexivity. Qed.

(** One edit found only after normalization changes trailing blanks and quotes
    everywhere in the file. *)
Example fuzzy_edit_changes_the_rest :
  apply_sample ([8216] ++ js "a" ++ [8217] ++ nl ++ js "x  " ++ nl ++ js "key") [mkEdit (js "key ") (js "lock")]
  = Ok (mkApplied (js "'a'" ++ nl ++ js "x" ++ nl ++ js "key") (js "'a'" ++ nl ++ js "x" ++ nl ++ js "lock")).
Proof. vm_compute. reflexivity. Qed.

(** ** Files *)

(** A file system of one file, whose bytes are its code units. *)
#[local] Instance one_file : FileOperations (option jsstr) := {
  op_access _ f := (match f with Some _ => Ok tt | None => Throw (OpCode (js "ENOENT") (js "no such file")) end, f);
  op_readFile _ f := (match f with Some s => Ok s | None => Throw (OpCode (js "ENOENT") (js "no such file")) end, f);
  op_writeFile _ s _ := (Ok tt, Some s);
  op_mkdir _ f := (Ok tt, f);
}.
Definition bytes_text (b : list Z) : jsstr := b.

#[local] Instance one_file_laws : FileLaws (option jsstr) bytes_text id.
Proof. split; try done. intros p [s|] b; cbn; by intros [= <-]. Qed.

Definition no_diff (a b : jsstr) : list DiffPart := [].
Definition no_patch (a b c : jsstr) : jsstr := [].
Local Abbreviation body path edits := (edit_body (F := option jsstr) ascii_nfkc bytes_text no_diff no_patch (js "/f") path edits).
Definition crlf_text : jsstr := js "one" ++ nl ++ js "two".

Lemma edit_keeps_the_rest_witness :
  exists final r ps tail,
    edit_text ascii_nfkc (js "f") two_edits (BOM ++ restoreLineEndings crlf_text CRLF) = Ok (final, r)
    /\ crlf_text = text_before ps tail /\ final = BOM ++ restoreLineEndings (text_after ps tail) CRLF.
Proof.
  destruct (edit_text ascii_nfkc (js "f") two_edits (BOM ++ restoreLineEndings crlf_text CRLF)) as [[final r]|] eqn:E;
    [| vm_compute in E; discriminate].
  destruct (edit_keeps_the_rest ascii_nfkc (js "f") two_edits BOM crlf_text CRLF final r) as (ps & tail & H1 & H2 & _).
  - left. reflexivity.
  - refine (bool_decide_unpack (13 ∉ crlf_text) _). vm_compute. exact I.
  - intros _. refine (bool_decide_unpack (10 ∈ crlf_text) _). vm_compute. exact I.
  - repeat constructor; vm_compute; discriminate.
  - exact E.
  - exists final, r, ps, tail. auto.
Defined.

Lemma edit_all_or_nothing_witness :
  exists r f', progress (body (js "f") two_edits) [false; false; false; true] (Some (js "one two")) = (Return r, f')
    /\ edit_end id ascii_nfkc no_diff no_patch (js "f") two_edits (Some (js "one two")) f' r.
Proof.
  eexists _, _. split; [vm_compute; reflexivity |].
  apply (edit_all_or_nothing bytes_text id ascii_nfkc no_diff no_patch (js "/f") (js "f") two_edits [false; false; false; true]).
  vm_compute. reflexivity.
Defined.

(** ** Two edits of one file and one of another, interleaved *)

Definition k1 : jsstr := js "/f".
Definition k2 : jsstr := js "/g".
Definition files0 (k : jsstr) : option jsstr := Some (js "one two").
Definition first_edit : list Edit := [mkEdit (js "one") (js "1")].
Definition second_edit : list Edit := [mkEdit (js "two") (js "2")].

Definition go := false.
Definition interleaving : list (queue_event (X := bool) (F := option jsstr) (R := result tool_error ToolOutput)) :=
  [EvCall (body (js "f") first_edit); EvCall (body (js "f") second_edit); EvCall (body (js "g") second_edit);
   EvRegister (Some k1); EvStart 0; EvAct 0 go; EvRegister (Some k1); EvRegister (Some k2); EvStart 2; EvAct 2 go;
   EvAct 0 go; EvAct 0 go; EvAct 2 go; EvAct 0 go; EvFinish 0; EvStart 1; EvAct 1 go; EvAct 1 go; EvAct 2 go; EvAct 1 go;
   EvAct 1 go; EvAct 2 go; EvFinish 2; EvFinish 1].

Definition final_state : queue_state := default (queue_start files0) (queue_run (queue_start files0) interleaving).

Lemma final_run : queue_run (queue_start files0) interleaving = Some final_state.
Proof.
  assert (H : match queue_run (queue_start files0) interleaving with Some _ => true | None => false end = true)
    by (vm_compute; reflexivity).
  unfold final_state. destruct (queue_run (queue_start files0) interleaving); [reflexivity | discriminate H].
Qed.

Lemma final_reachable : reachable files0 final_state.
Proof. apply (queue_run_reachable files0 interleaving (queue_start files0)); [constructor | apply final_run]. Qed.

Lemma mutations_serialized_witness :
  qs_files final_state k1 = history k1 (qs_calls final_state) (files0 k1) /\ qs_files final_state k1 = Some (js "1 2").
Proof. split; [apply (mutations_serialized files0 final_state final_reachable) | vm_compute; reflexivity]. Defined.

Lemma queue_live_witness :
  is_Some (fileMutationQueues final_state !! k1) <-> exists i, unfinished_at final_state k1 i = true.
Proof. apply (queue_live files0 final_state k1 final_reachable). Defined.

Definition succeeded (c : call (X := bool) (F := option jsstr) (R := result tool_error ToolOutput)) : bool :=
  match cl_status c with Finished _ _ (Ok _) _ => true | _ => false end.

Lemma succeeded_edit c path edits k :
  cl_fn c = body path edits -> succeeded c = true -> key_of (cl_status c) = Some k ->
  settled_edit bytes_text ascii_nfkc no_diff no_patch k (Some (path, edits)) c.
Proof.
  intros Hfn Hs Hk. unfold succeeded in Hs. exists (js "/f"). destruct (cl_status c) as [| | | |k' current [out|] obs]; try done.
  injection Hk as ->. by exists current, out, obs.
Qed.

Lemma final_fns : map cl_fn (qs_calls final_state) = [body (js "f") first_edit; body (js "f") second_edit; body (js "g") second_edit].
Proof. exact (queue_run_fns _ _ _ final_run). Qed.

Lemma final_keys : map (fun c => key_of (cl_status c)) (qs_calls final_state) = [Some k1; Some k1; Some k2].
Proof. vm_compute. reflexivity. Qed.

Lemma final_succeeded : forallb succeeded (qs_calls final_state) = true.
Proof. vm_compute. reflexivity. Qed.

Lemma final_settled :
  Forall2 (settled_edit bytes_text ascii_nfkc no_diff no_patch k1)
    [Some (js "f", first_edit); Some (js "f", second_edit); None] (qs_calls final_state).
Proof.
  pose proof final_fns as Hf. pose proof final_keys as Hk. pose proof final_succeeded as Hs.
  revert Hf Hk Hs. generalize (qs_calls final_state). intros [|c1 [|c2 [|c3 [|]]]] Hf Hk Hs; try done.
  injection Hf as Hf1 Hf2 Hf3. injection Hk as Hk1 Hk2 Hk3. cbn [forallb] in Hs. bool_hyps.
  constructor; [by apply succeeded_edit |]. constructor; [by apply succeeded_edit |].
  constructor; [| constructor]. cbn [settled_edit]. rewrite Hk3. intros E. vm_compute in E. discriminate E.
Qed.

Lemma concurrent_edits_witness :
  exists final, edit_chain ascii_nfkc [(js "f", first_edit); (js "f", second_edit)] (js "one two") = Some final
    /\ qs_files final_state k1 = Some final.
Proof.
  apply (concurrent_edits bytes_text id ascii_nfkc no_diff no_patch files0 final_state k1
           [Some (js "f", first_edit); Some (js "f", second_edit); None]).
  - exact final_reachable.
  - exact final_settled.
  - reflexivity.
Defined.

(** A read-modify-write of a second call cannot start before the first has finished. *)
Example second_waits :
  queue_run (queue_start files0)
    [EvCall (body (js "f") first_edit); EvCall (body (js "f") second_edit); EvRegister (Some k1); EvRegister (Some k1);
     EvStart 0; EvStart 1] = None.
Proof. vm_compute. reflexivity. Qed.

(** ** A diff *)

Definition parts : list DiffPart :=
  [mkPart (js "a" ++ nl) false false; mkPart (js "b" ++ nl) false true; mkPart (js "c" ++ nl ++ js "d" ++ nl) true false;
   mkPart (js "e" ++ nl) false false].

Lemma diff_shows_changes_witness :
  let out := ds_output (diff_parts 4 parts diff_start) in
  out = [LineContext 1 (js "a"); LineRemoved 2 (js "b"); LineAdded 2 (js "c"); LineAdded 3 (js "d"); LineContext 3 (js "e")]
  /\ Forall (line_ok [js "a"; js "b"; js "e"] [js "a"; js "c"; js "d"; js "e"]) out.
Proof.
  split; [vm_compute; reflexivity |].
  apply (diff_shows_changes 4 parts [js "a"; js "b"; js "e"] [js "a"; js "c"; js "d"; js "e"]);
    [repeat constructor | vm_compute; reflexivity | vm_compute; reflexivity].
Defined.

End EditSample.
