(* ===== verification/Truncate.v ===== *)
(** Tool-output truncation, [packages/agent/src/harness/utils/truncate.ts]:
    byte counting of UTF-16 strings, head and tail truncation by lines and
    bytes, and the partial-line case of tail truncation. *)
From S2P Require Import Prelude JsString.

Definition DEFAULT_MAX_LINES : Z := 2000.
Definition DEFAULT_MAX_BYTES : Z := 50 * 1024.
Definition GREP_MAX_LINE_LENGTH : Z := 500.

Inductive truncation_cause := ByLines | ByBytes.

Record TruncationResult := mkTruncation {
  content : jsstr;
  truncated : bool;
  truncatedBy : option truncation_cause;
  totalLines : Z;
  totalBytes : Z;
  outputLines : Z;
  outputBytes : Z;
  lastLinePartial : bool;
  firstLineExceedsLimit : bool;
  res_maxLines : Z;
  res_maxBytes : Z;
}.

Record TruncationOptions := mkTruncationOptions {
  opt_maxLines : option Z;
  opt_maxBytes : option Z;
}.

(** ** UTF-8 size of a UTF-16 string *)

Definition is_high (c : Z) : bool := (55296 <=? c) && (c <=? 56319).
Definition is_low (c : Z) : bool := (56320 <=? c) && (c <=? 57343).

(** The bytes of U+FFFD, what an encoder writes for an unpaired surrogate. *)
Definition replacement_bytes : list Z := [239; 191; 189].

(** The UTF-8 encoding of a UTF-16 string, unpaired surrogates replaced. *)
Fixpoint utf8_encode (s : jsstr) : list Z :=
  match s with
  | [] => []
  | c :: s' =>
      if c <=? 127 then c :: utf8_encode s'
      else if c <=? 2047 then
        Z.lor 192 (Z.shiftr c 6) :: Z.lor 128 (Z.land c 63) :: utf8_encode s'
      else if is_high c then
        match s' with
        | d :: s'' =>
            if is_low d then
              let cp := 65536 + Z.shiftl (c - 55296) 10 + (d - 56320) in
              Z.lor 240 (Z.shiftr cp 18) :: Z.lor 128 (Z.land (Z.shiftr cp 12) 63)
              :: Z.lor 128 (Z.land (Z.shiftr cp 6) 63) :: Z.lor 128 (Z.land cp 63)
              :: utf8_encode s''
            else replacement_bytes ++ utf8_encode s'
        | [] => replacement_bytes
        end
      else if is_low c then replacement_bytes ++ utf8_encode s'
      else Z.lor 224 (Z.shiftr c 12) :: Z.lor 128 (Z.land (Z.shiftr c 6) 63)
           :: Z.lor 128 (Z.land c 63) :: utf8_encode s'
  end.

(** Node's [Buffer.byteLength(content, "utf8")]. *)
Definition buffer_byteLength (s : jsstr) : Z := zlen (utf8_encode s).

(** The loop of the fallback, on the suffix that starts at [i]. *)
Fixpoint utf8_count (s : jsstr) (bytes : Z) : Z :=
  match s with
  | [] => bytes
  | code :: s' =>
      if code <=? 127 then utf8_count s' (bytes + 1)
      else if code <=? 2047 then utf8_count s' (bytes + 2)
      else match s' with
           | next :: s'' =>
               if is_high code then
                 if is_low next then utf8_count s'' (bytes + 4) else utf8_count s' (bytes + 3)
               else utf8_count s' (bytes + 3)
           | [] => bytes + 3
           end
  end.

(** [content.search(/[^\x00-\x7f]/)]. *)
Definition search_non_ascii (s : jsstr) : option nat :=
  find_index (fun c => negb ((0 <=? c) && (c <=? 127))) s.

(** [hasBuffer]: does the runtime have a global [Buffer]? *)
Definition utf8ByteLength (hasBuffer : bool) (s : jsstr) : Z :=
  if hasBuffer then buffer_byteLength s
  else match search_non_ascii s with
       | None => zlen s
       | Some firstNonAscii => utf8_count (drop firstNonAscii s) (Z.of_nat firstNonAscii)
       end.

(** ** Surrogate repair *)

Fixpoint replaceUnpairedSurrogates (s : jsstr) : jsstr :=
  match s with
  | [] => []
  | code :: s' =>
      if is_high code then
        match s' with
        | next :: s'' =>
            if is_low next then code :: next :: replaceUnpairedSurrogates s''
            else 65533 :: replaceUnpairedSurrogates s'
        | [] => [65533]
        end
      else if is_low code then 65533 :: replaceUnpairedSurrogates s'
      else code :: replaceUnpairedSurrogates s'
  end.

(** Every surrogate of the string belongs to a pair. *)
Fixpoint well_paired (s : jsstr) : bool :=
  match s with
  | [] => true
  | c :: s' =>
      if is_high c then match s' with d :: s'' => is_low d && well_paired s'' | [] => false end
      else negb (is_low c) && well_paired s'
  end.

(** ** Truncation from the end of one line *)

(** The backward loop on the units before [i], last one first.  It returns
    the number of units left of [start] and [needsReplacement]. *)
Fixpoint from_end_loop (maxBytes : Z) (rs : jsstr) (outputBytes : Z) (needs : bool) : nat * bool :=
  match rs with
  | [] => (0%nat, needs)
  | code :: rs' =>
      let single (bytes : Z) (unpaired : bool) :=
        if outputBytes + bytes >? maxBytes then (length rs, needs)
        else from_end_loop maxBytes rs' (outputBytes + bytes) (needs || unpaired) in
      if is_low code then
        match rs' with
        | previous :: rs'' =>
            if is_high previous then
              if outputBytes + 4 >? maxBytes then (length rs, needs)
              else from_end_loop maxBytes rs'' (outputBytes + 4) needs
            else single 3 true
        | [] => single 3 true
        end
      else if is_high code then single 3 true
      else single (if code <=? 127 then 1 else if code <=? 2047 then 2 else 3) false
  end.

Definition truncateStringToBytesFromEnd (str : jsstr) (maxBytes : Z) : jsstr :=
  if maxBytes <=? 0 then []
  else
    let '(start, needsReplacement) := from_end_loop maxBytes (reverse str) 0 false in
    let output := drop start str in
    if needsReplacement then replaceUnpairedSurrogates output else output.

(** ** Sizes for people *)

(** [(num / den).toFixed(1)] for a dyadic quotient, which a double holds
    exactly: the tenths nearest to it, ties upwards. *)
Definition toFixed1 (num den : Z) : jsstr :=
  let tenths := (20 * num + den) / (2 * den) in
  show (tenths / 10) ++ js "." ++ show (tenths mod 10).

Definition formatSize (bytes : Z) : jsstr :=
  if bytes <? 1024 then show bytes ++ js "B"
  else if bytes <? 1024 * 1024 then toFixed1 bytes 1024 ++ js "KB"
  else toFixed1 bytes (1024 * 1024) ++ js "MB".

(** ** Head and tail truncation *)
Section Truncation.
Context (hasBuffer : bool).

(** The collecting loop of [truncateHead]: the lines not visited yet, the
    index [i], and the two accumulators. *)
Fixpoint head_loop (maxLines maxBytes : Z) (lines : list jsstr) (i : Z)
    (arr : list jsstr) (count : Z) : list jsstr * Z * truncation_cause :=
  match lines with
  | [] => (arr, count, ByLines)
  | line :: rest =>
      if i <? maxLines then
        let lineBytes := utf8ByteLength hasBuffer line + (if 0 <? i then 1 else 0) in
        if count + lineBytes >? maxBytes then (arr, count, ByBytes)
        else head_loop maxLines maxBytes rest (i + 1) (arr ++ [line]) (count + lineBytes)
      else (arr, count, ByLines)
  end.

Definition truncateHead (text : jsstr) (options : TruncationOptions) : TruncationResult :=
  let maxLines := default DEFAULT_MAX_LINES (opt_maxLines options) in
  let maxBytes := default DEFAULT_MAX_BYTES (opt_maxBytes options) in
  let total_bytes := utf8ByteLength hasBuffer text in
  let lines := split_on 10 text in
  let total_lines := zlen lines in
  if (total_lines <=? maxLines) && (total_bytes <=? maxBytes) then
    mkTruncation text false None total_lines total_bytes total_lines total_bytes
      false false maxLines maxBytes
  else
    let firstLineBytes := utf8ByteLength hasBuffer (hd [] lines) in
    if firstLineBytes >? maxBytes then
      mkTruncation [] true (Some ByBytes) total_lines total_bytes 0 0 false true maxLines maxBytes
    else
      let '(arr, count, by0) := head_loop maxLines maxBytes lines 0 [] 0 in
      let by_ := if (zlen arr >=? maxLines) && (count <=? maxBytes) then ByLines else by0 in
      let outputContent := join nl arr in
      mkTruncation outputContent true (Some by_) total_lines total_bytes
        (zlen arr) (utf8ByteLength hasBuffer outputContent) false false maxLines maxBytes.

(** The collecting loop of [truncateTail] over the reversed lines. *)
Fixpoint tail_loop (maxLines maxBytes : Z) (rlines : list jsstr)
    (arr : list jsstr) (count : Z) : list jsstr * Z * truncation_cause * bool :=
  match rlines with
  | [] => (arr, count, ByLines, false)
  | line :: rest =>
      if zlen arr <? maxLines then
        let lineBytes := utf8ByteLength hasBuffer line + (if 0 <? zlen arr then 1 else 0) in
        if count + lineBytes >? maxBytes then
          if zlen arr =? 0 then
            let truncatedLine := truncateStringToBytesFromEnd line maxBytes in
            ([truncatedLine], utf8ByteLength hasBuffer truncatedLine, ByBytes, true)
          else (arr, count, ByBytes, false)
        else tail_loop maxLines maxBytes rest (line :: arr) (count + lineBytes)
      else (arr, count, ByLines, false)
  end.

(** [content.split("\n")], less the empty line after a final newline. *)
Definition tail_lines (text : jsstr) : list jsstr :=
  let lines := split_on 10 text in
  if (1 <? zlen lines) && is_empty (default [] (last lines)) then removelast lines else lines.

Definition truncateTail (text : jsstr) (options : TruncationOptions) : TruncationResult :=
  let maxLines := default DEFAULT_MAX_LINES (opt_maxLines options) in
  let maxBytes := default DEFAULT_MAX_BYTES (opt_maxBytes options) in
  let total_bytes := utf8ByteLength hasBuffer text in
  let lines := tail_lines text in
  let total_lines := zlen lines in
  if (total_lines <=? maxLines) && (total_bytes <=? maxBytes) then
    mkTruncation text false None total_lines total_bytes total_lines total_bytes
      false false maxLines maxBytes
  else
    let '(arr, count, by0, partial) := tail_loop maxLines maxBytes (reverse lines) [] 0 in
    let by_ := if (zlen arr >=? maxLines) && (count <=? maxBytes) then ByLines else by0 in
    let outputContent := join nl arr in
    mkTruncation outputContent true (Some by_) total_lines total_bytes
      (zlen arr) (utf8ByteLength hasBuffer outputContent) partial false maxLines maxBytes.

End Truncation.

(** [maxChars] defaults to [GREP_MAX_LINE_LENGTH]. *)
Definition truncateLine (line : jsstr) (maxChars : Z) : jsstr * bool :=
  if zlen line <=? maxChars then (line, false)
  else (slice_to line maxChars ++ js "... [truncated]", true).

(** ** The byte count is the size of the encoding *)

Lemma is_high_range c : is_high c = true <-> 55296 <= c <= 56319.
Proof. unfold is_high. rewrite andb_true_iff, !Z.leb_le. lia. Qed.

Lemma is_low_range c : is_low c = true <-> 56320 <= c <= 57343.
Proof. unfold is_low. rewrite andb_true_iff, !Z.leb_le. lia. Qed.

Lemma high_not_low c : is_high c = true -> is_low c = false.
Proof. rewrite is_high_range. intros H. apply not_true_is_false. rewrite is_low_range. lia. Qed.

(** Size in bytes of the unit [c] when it is not part of a pair. *)
Definition unit_bytes (c : Z) : Z := if c <=? 127 then 1 else if c <=? 2047 then 2 else 3.

Lemma buffer_nil : buffer_byteLength [] = 0.
Proof. reflexivity. Qed.

Lemma buffer_pair c d s :
  is_high c = true -> is_low d = true ->
  buffer_byteLength (c :: d :: s) = 4 + buffer_byteLength s.
Proof.
  intros Hc Hd. pose proof (proj1 (is_high_range c) Hc).
  unfold buffer_byteLength. cbn [utf8_encode].
  rewrite (proj2 (Z.leb_gt c 127)), (proj2 (Z.leb_gt c 2047)) by lia.
  rewrite Hc, Hd. rewrite !zlen_cons. lia.
Qed.

Lemma buffer_single c s :
  (is_high c = true -> forall d s', s = d :: s' -> is_low d = false) ->
  buffer_byteLength (c :: s) = unit_bytes c + buffer_byteLength s.
Proof.
  intros Hc. unfold buffer_byteLength, unit_bytes. cbn [utf8_encode].
  destruct (c <=? 127) eqn:E1; [rewrite zlen_cons; lia|].
  destruct (c <=? 2047) eqn:E2; [rewrite !zlen_cons; lia|].
  destruct (is_high c) eqn:Eh.
  - destruct s as [|d s']; [reflexivity|].
    rewrite (Hc eq_refl d s' eq_refl), zlen_app. reflexivity.
  - destruct (is_low c); [rewrite zlen_app|rewrite !zlen_cons]; unfold zlen; simpl length; lia.
Qed.

Lemma utf8_count_spec s n : utf8_count s n = n + buffer_byteLength s.
Proof.
  revert n. induction s as [s IH] using (induction_ltof1 _ (@length Z)); unfold ltof in IH.
  intros n. destruct s as [|c s]; [rewrite buffer_nil; simpl; lia|].
  assert (Hsingle : (is_high c = true -> forall d s', s = d :: s' -> is_low d = false) ->
                    utf8_count s (n + unit_bytes c) = n + buffer_byteLength (c :: s)).
  { intros H. rewrite IH by (simpl; lia). rewrite buffer_single by done. lia. }
  unfold unit_bytes in Hsingle. cbn [utf8_count].
  destruct (c <=? 127) eqn:E1; bool_hyps.
  { apply Hsingle. rewrite is_high_range. lia. }
  destruct (c <=? 2047) eqn:E2; bool_hyps.
  { apply Hsingle. rewrite is_high_range. lia. }
  destruct s as [|d s]; [by apply Hsingle|].
  destruct (is_high c) eqn:Eh; [|by apply Hsingle].
  destruct (is_low d) eqn:El; [|apply Hsingle; congruence].
  rewrite IH by (simpl; lia). rewrite buffer_pair by done. lia.
Qed.

Lemma buffer_ascii_prefix k s :
  Forall (fun c => negb ((0 <=? c) && (c <=? 127)) = false) (take k s) ->
  buffer_byteLength s = zlen (take k s) + buffer_byteLength (drop k s).
Proof.
  revert k. induction s as [|c s IH]; intros [|k] H; cbn [take drop] in *;
    try (rewrite (zlen_nil (A:=Z)); lia).
  -  inversion H as [|? ? Hc Hs]; subst. bool_hyps.
    rewrite buffer_single by (rewrite is_high_range; lia).
    rewrite (IH k Hs), zlen_cons. unfold unit_bytes.
    rewrite (proj2 (Z.leb_le c 127)) by lia. lia.
Qed.

(** Whichever branch runs, the count is the one of [Buffer]. *)
Lemma utf8_bytes hasBuffer s : utf8ByteLength hasBuffer s = buffer_byteLength s.
Proof.
  unfold utf8ByteLength. destruct hasBuffer; [done|].
  unfold search_non_ascii. destruct (find_index _ s) as [k|] eqn:E.
  - destruct (find_index_Some _ _ _ E) as (x & Hx & _ & Hmin).
    rewrite utf8_count_spec, (buffer_ascii_prefix k s).
    + unfold zlen. rewrite length_take_le; [lia|].
      apply lookup_lt_Some in Hx. lia.
    + apply Forall_lookup. intros i y Hy. apply lookup_take_Some in Hy as [Hy Hi].
      by apply (Hmin i y).
  - apply find_index_None in E. pose proof (buffer_ascii_prefix (length s) s) as H.
    rewrite firstn_all, drop_all in H. rewrite (H E), buffer_nil. lia.
Qed.

Lemma buffer_nonneg s : 0 <= buffer_byteLength s.
Proof. apply zlen_nonneg. Qed.
#[local] Hint Resolve buffer_nonneg : core.

(** A newline never pairs with a surrogate, so it splits the count. *)
Lemma buffer_newline a b :
  buffer_byteLength (a ++ 10 :: b) = buffer_byteLength a + 1 + buffer_byteLength b.
Proof.
  induction a as [a IH] using (induction_ltof1 _ (@length Z)); unfold ltof in IH.
  assert (Hnl : buffer_byteLength (10 :: b) = 1 + buffer_byteLength b).
  { rewrite buffer_single by (rewrite is_high_range; lia). done. }
  destruct a as [|c a]; [rewrite buffer_nil; simpl; lia|].
  destruct (is_high c) eqn:Eh.
  - destruct a as [|d a].
    + simpl. rewrite buffer_single, Hnl by (by intros _ ? ? [= <- <-]).
      rewrite (buffer_single c []) by done. rewrite buffer_nil. lia.
    + simpl. destruct (is_low d) eqn:El.
      * rewrite !buffer_pair, IH by (simpl; lia || done). lia.
      * rewrite (buffer_single c (d :: _)) by (by intros _ ? ? [= <- <-]).
        rewrite (buffer_single c (d :: a)) by (by intros _ ? ? [= <- <-]).
        change (d :: a ++ 10 :: b) with ((d :: a) ++ 10 :: b).
        rewrite (IH (d :: a)) by (simpl; lia). lia.
  - simpl. rewrite !(buffer_single c) by congruence. rewrite IH by (simpl; lia). lia.
Qed.

(** Size of the text made of some lines. *)
Definition lines_bytes (l : list jsstr) : Z := buffer_byteLength (join nl l).

Lemma lines_bytes_cons2 x y l :
  lines_bytes (x :: y :: l) = buffer_byteLength x + 1 + lines_bytes (y :: l).
Proof. unfold lines_bytes. rewrite join_cons2. apply buffer_newline. Qed.

Lemma lines_bytes_snoc l x :
  lines_bytes (l ++ [x]) = lines_bytes l + (if is_empty l then 0 else 1) + buffer_byteLength x.
Proof.
  destruct l as [|y l]; [unfold lines_bytes; simpl; rewrite buffer_nil; lia|].
  unfold lines_bytes. rewrite join_app_cons by done. simpl is_empty. cbv iota.
  apply buffer_newline.
Qed.

Lemma lines_bytes_cons x l :
  lines_bytes (x :: l) = buffer_byteLength x + (if is_empty l then 0 else 1) + lines_bytes l.
Proof.
  destruct l as [|y l]; [unfold lines_bytes; simpl; rewrite buffer_nil; lia|].
  apply lines_bytes_cons2.
Qed.

Lemma lines_bytes_nonneg l : 0 <= lines_bytes l.
Proof. apply buffer_nonneg. Qed.
#[local] Hint Resolve lines_bytes_nonneg : core.

Lemma lines_bytes_take_mono l i j :
  (i <= j)%nat -> lines_bytes (take i l) <= lines_bytes (take j l).
Proof.
  intros Hij. induction Hij as [|j Hij IH]; [done|].
  destruct (l !! j) as [x|] eqn:E.
  - rewrite (take_S_r _ _ _ E), lines_bytes_snoc.
    pose proof (buffer_nonneg x). destruct (is_empty _); lia.
  - apply lookup_ge_None in E. rewrite (take_ge l j) in IH by lia. by rewrite (take_ge l (S j)) by lia.
Qed.

Lemma lines_bytes_drop_mono l i : lines_bytes (drop (S i) l) <= lines_bytes (drop i l).
Proof.
  destruct (l !! i) as [x|] eqn:E.
  - rewrite (drop_S _ _ _ E), lines_bytes_cons. pose proof (buffer_nonneg x).
    destruct (is_empty _); lia.
  - apply lookup_ge_None in E. rewrite !drop_ge by lia. done.
Qed.

Lemma lines_bytes_drop_anti l i j :
  (i <= j)%nat -> lines_bytes (drop j l) <= lines_bytes (drop i l).
Proof.
  intros Hij. induction Hij as [|j Hij IH]; [done|].
  pose proof (lines_bytes_drop_mono l j). lia.
Qed.

(** ** Head truncation keeps the longest prefix of whole lines that fits *)

(** Both limits hold of a list of lines. *)
Definition fits (maxLines maxBytes : Z) (l : list jsstr) : Prop :=
  zlen l <= maxLines /\ lines_bytes l <= maxBytes.

Lemma head_loop_spec hb maxLines maxBytes lines arr :
  lines_bytes arr <= maxBytes -> zlen arr <= maxLines ->
  exists k by_,
    head_loop hb maxLines maxBytes lines (zlen arr) arr (lines_bytes arr)
      = (arr ++ take k lines, lines_bytes (arr ++ take k lines), by_) /\
    (k <= length lines)%nat /\
    fits maxLines maxBytes (arr ++ take k lines) /\
    (k = length lines \/ ~ fits maxLines maxBytes (arr ++ take (S k) lines)).
Proof.
  revert arr. induction lines as [|x lines IH]; intros arr Hb Hl; simpl.
  { exists 0%nat, ByLines. rewrite app_nil_r. repeat split; auto. }
  destruct (zlen arr <? maxLines) eqn:E; bool_hyps.
  - rewrite utf8_bytes.
    assert (Hn : (if 0 <? zlen arr then 1 else 0) = (if is_empty arr then 0 else 1)).
    { destruct arr; [done|]. rewrite zlen_cons. pose proof (zlen_nonneg arr).
      by rewrite (proj2 (Z.ltb_lt 0 _)) by lia. }
    rewrite Hn.
    assert (Hs : lines_bytes (arr ++ [x])
                 = lines_bytes arr + (buffer_byteLength x + (if is_empty arr then 0 else 1))).
    { rewrite lines_bytes_snoc. lia. }
    rewrite <- Hs. destruct (lines_bytes (arr ++ [x]) >? maxBytes) eqn:E2; bool_hyps.
    + exists 0%nat, ByBytes. simpl. rewrite app_nil_r. repeat split; auto with lia.
      right. intros [_ H]. rewrite take_0 in H. lia.
    + destruct (IH (arr ++ [x])) as (k & by_ & Heq & Hk & Hf & Hmax); [done| |].
      { rewrite zlen_app, zlen_cons, zlen_nil. lia. }
      rewrite zlen_app, zlen_cons, zlen_nil, Z.add_0_r in Heq.
      exists (S k), by_. rewrite <- !app_assoc in *. simpl in *.
      split; [done|]. split; [lia|]. split; [done|].
      destruct Hmax as [->|Hmax]; [by left|by right].
  - exists 0%nat, ByLines. simpl. rewrite app_nil_r. repeat split; auto with lia.
    right. intros [H _]. rewrite take_0, zlen_app, zlen_cons, zlen_nil in H. lia.
Qed.

Lemma fits_take_mono maxLines maxBytes l i j :
  (i <= j)%nat -> fits maxLines maxBytes (take j l) -> fits maxLines maxBytes (take i l).
Proof.
  intros Hij [H1 H2]. split.
  - unfold zlen in *. rewrite length_take in *. lia.
  - pose proof (lines_bytes_take_mono l i j Hij). lia.
Qed.

Lemma fits_split text maxLines maxBytes hb :
  zlen (split_on 10 text) <= maxLines -> utf8ByteLength hb text <= maxBytes ->
  fits maxLines maxBytes (split_on 10 text).
Proof. intros H1 H2. split; [done|]. unfold lines_bytes, nl. by rewrite join_split, <- (utf8_bytes hb). Qed.

(** The maximal prefix, and that everything shorter fits too. *)
Lemma longest_prefix maxLines maxBytes (lines : list jsstr) k :
  (k <= length lines)%nat -> fits maxLines maxBytes (take k lines) ->
  (k = length lines \/ ~ fits maxLines maxBytes (take (S k) lines)) ->
  forall j, (j <= length lines)%nat -> fits maxLines maxBytes (take j lines) <-> (j <= k)%nat.
Proof.
  intros Hk Hf Hmax j Hj. split.
  - intros Hfj. destruct (decide (j <= k)%nat); [done|].
    destruct Hmax as [->|Hmax]; [lia|]. destruct Hmax.
    apply (fits_take_mono _ _ _ (S k) j); [lia|done].
  - intros Hjk. by apply (fits_take_mono _ _ _ j k).
Qed.

(** [truncateHead] returns exactly the longest prefix of complete lines that
    satisfies both limits: a shorter or equal prefix fits, a longer one does
    not; the reported counts are those of the returned text. *)
Theorem truncateHead_longest_prefix hb text opts :
  let maxLines := default DEFAULT_MAX_LINES (opt_maxLines opts) in
  let maxBytes := default DEFAULT_MAX_BYTES (opt_maxBytes opts) in
  let lines := split_on 10 text in
  let r := truncateHead hb text opts in
  0 <= maxLines -> 0 <= maxBytes ->
  content r = join nl (take (Z.to_nat (outputLines r)) lines) /\
  0 <= outputLines r <= zlen lines /\
  outputBytes r = zlen (utf8_encode (content r)) /\
  (forall k, (k <= length lines)%nat ->
     fits maxLines maxBytes (take k lines) <-> Z.of_nat k <= outputLines r).
Proof.
  intros maxLines maxBytes lines r Hl Hb. unfold r, truncateHead.
  fold maxLines maxBytes lines.
  destruct (_ && _) eqn:E1; bool_hyps; simpl.
  { unfold zlen. rewrite Nat2Z.id, firstn_all. unfold nl, lines. rewrite join_split.
    split_and!; try lia; [done|apply utf8_bytes|intros k Hk].
    pose proof (fits_split text maxLines maxBytes hb H H0) as Hf. rewrite <- (firstn_all (split_on 10 text)) in Hf.
    split; [lia|]. intros _. by apply (fits_take_mono _ _ _ k (length lines)). }
  destruct (split_on_cons 10 text) as (x & ls & Hx). fold lines in Hx.
  rewrite (utf8_bytes hb (hd [] lines)).
  destruct (_ >? maxBytes) eqn:E2; bool_hyps; simpl.
  { split_and!; auto with agent; [lia|].
    intros k Hk. rewrite Hx in *. simpl in E2. split.
    - destruct k as [|k]; [lia|]. intros [_ H]. exfalso.
      pose proof (lines_bytes_take_mono (x :: ls) 1 (S k) ltac:(lia)) as H'.
      unfold lines_bytes in H' at 1. simpl in H', H. lia.
    - intros Hk0. replace k with 0%nat by lia. rewrite take_0. split; done. }
  destruct (head_loop_spec hb maxLines maxBytes lines []) as (k & by_ & Heq & Hk & Hf & Hmax); [done..|].
  simpl app in *. change (zlen []) with 0 in Heq. change (lines_bytes []) with 0 in Heq.
  rewrite Heq. simpl.
  assert (Hlen : zlen (take k lines) = Z.of_nat k) by (unfold zlen; rewrite length_take; lia).
  rewrite Hlen, Nat2Z.id. unfold zlen at 1. split_and!; try lia; [done|apply utf8_bytes|].
  intros j Hj. rewrite (longest_prefix _ _ _ k) by done. lia.
Qed.

(** ** Tail truncation *)

Lemma replace_bytes s : buffer_byteLength (replaceUnpairedSurrogates s) = buffer_byteLength s.
Proof.
  induction s as [s IH] using (induction_ltof1 _ (@length Z)); unfold ltof in IH.
  destruct s as [|c s]; [done|]. cbn [replaceUnpairedSurrogates].
  assert (Hfffd : forall t, buffer_byteLength (65533 :: t) = 3 + buffer_byteLength t).
  { intros t. by rewrite buffer_single by (rewrite is_high_range; lia). }
  assert (Hsur : 2047 < c -> unit_bytes c = 3).
  { intros H. unfold unit_bytes.
    by rewrite (proj2 (Z.leb_gt c 127)), (proj2 (Z.leb_gt c 2047)) by lia. }
  destruct (is_high c) eqn:Eh.
  - pose proof (proj1 (is_high_range c) Eh). destruct s as [|d s].
    { rewrite Hfffd, buffer_single by done. by rewrite Hsur by lia. }
    destruct (is_low d) eqn:El.
    + rewrite !buffer_pair, IH by (simpl; lia || done). lia.
    + rewrite Hfffd, IH by (simpl; lia).
      rewrite (buffer_single c) by (by intros _ ? ? [= <- <-]). rewrite Hsur by lia. lia.
  - destruct (is_low c) eqn:El.
    + pose proof (proj1 (is_low_range c) El).
      rewrite Hfffd, IH by (simpl; lia). rewrite (buffer_single c) by congruence.
      rewrite Hsur by lia. lia.
    + rewrite !(buffer_single c), IH by (simpl; lia || congruence). lia.
Qed.

Lemma replace_well_paired s : well_paired (replaceUnpairedSurrogates s) = true.
Proof.
  induction s as [s IH] using (induction_ltof1 _ (@length Z)); unfold ltof in IH.
  destruct s as [|c s]; [done|]. cbn [replaceUnpairedSurrogates].
  destruct (is_high c) eqn:Eh.
  - destruct s as [|d s]; [done|]. destruct (is_low d) eqn:El.
    + cbn [well_paired]. rewrite Eh, El. apply IH. simpl. lia.
    + apply (IH (d :: s)). simpl. lia.
  - destruct (is_low c) eqn:El; cbn [well_paired]; rewrite ?Eh, ?El; apply IH; simpl; lia.
Qed.

(** What the backward loop keeps true of the suffix [t] it has accepted when
    [rs] are the units before it, last first. *)
Record from_end_inv (rs t : jsstr) (bytes : Z) (needs : bool) : Prop := {
  fe_bytes : bytes = buffer_byteLength t;
  fe_split : forall d t' c rs', t = d :: t' -> rs = c :: rs' -> is_high c = true -> is_low d = false;
  fe_paired : needs = false -> well_paired t = true;
}.

(** Accepting one more unit that is not part of a pair. *)
Lemma from_end_inv_single c rs t bytes needs unpaired :
  from_end_inv (c :: rs) t bytes needs ->
  (is_low c = true -> match rs with p :: _ => is_high p = false | [] => True end) ->
  (unpaired = false -> is_high c = false /\ is_low c = false) ->
  from_end_inv rs (c :: t) (bytes + unit_bytes c) (needs || unpaired).
Proof.
  intros [Hb Hs Hp] Hlow Hun. split.
  - rewrite buffer_single; [lia|]. intros Hc d t' ->. by apply (Hs d t' c rs).
  - intros d t' c' rs' [= <- <-] -> Hh. apply not_true_is_false. intros Hl.
    specialize (Hlow Hl). simpl in Hlow. congruence.
  - intros [Hn Hu]%orb_false_iff. destruct (Hun Hu) as [Hh Hl].
    cbn [well_paired]. rewrite Hh, Hl. by apply Hp.
Qed.

Lemma from_end_inv_pair c d rs t bytes needs :
  is_high d = true -> is_low c = true ->
  from_end_inv (c :: d :: rs) t bytes needs ->
  from_end_inv rs (d :: c :: t) (bytes + 4) needs.
Proof.
  intros Hh Hl [Hb Hs Hp]. split.
  - rewrite buffer_pair by done. lia.
  - intros d' t' c' rs' [= <- <-] -> _. by apply high_not_low.
  - intros Hn. cbn [well_paired]. rewrite Hh, Hl. by apply Hp.
Qed.

(** The loop stops at [rest], having accepted [t']. *)
Definition from_end_stops (maxBytes : Z) (str : jsstr) (r : nat * bool) : Prop :=
  exists rest t' b needs, r = (length rest, needs) /\ str = reverse rest ++ t' /\
    from_end_inv rest t' b needs /\ b <= maxBytes.

Lemma from_end_loop_spec maxBytes rs t bytes needs :
  from_end_inv rs t bytes needs -> bytes <= maxBytes ->
  from_end_stops maxBytes (reverse rs ++ t) (from_end_loop maxBytes rs bytes needs).
Proof.
  revert t bytes needs. induction rs as [rs IH] using (induction_ltof1 _ (@length Z)); unfold ltof in IH.
  intros t bytes needs Hinv Hb.
  assert (Hstop : from_end_stops maxBytes (reverse rs ++ t) (length rs, needs)) by (by exists rs, t, bytes, needs).
  destruct rs as [|c rs]; [done|].
  assert (Hsingle : forall unpaired n,
     (is_low c = true -> match rs with p :: _ => is_high p = false | [] => True end) ->
     (unpaired = false -> is_high c = false /\ is_low c = false) -> n = unit_bytes c ->
     from_end_stops maxBytes (reverse (c :: rs) ++ t)
       (if bytes + n >? maxBytes then (length (c :: rs), needs)
        else from_end_loop maxBytes rs (bytes + n) (needs || unpaired))).
  { intros unpaired n H1 H2 ->. destruct (_ >? _) eqn:E; bool_hyps; [done|].
    rewrite reverse_cons, <- app_assoc.
    apply IH; [simpl; lia|by apply from_end_inv_single|lia]. }
  assert (Hsur : 2047 < c -> 3 = unit_bytes c).
  { intros H. unfold unit_bytes.
    by rewrite (proj2 (Z.leb_gt c 127)), (proj2 (Z.leb_gt c 2047)) by lia. }
  cbn [from_end_loop]. destruct (is_low c) eqn:El.
  - pose proof (proj1 (is_low_range c) El). destruct rs as [|p rs].
    + apply Hsingle; [done|done|apply Hsur; lia].
    + destruct (is_high p) eqn:Eh; [|apply Hsingle; [done|done|apply Hsur; lia]].
      destruct (_ >? _) eqn:E; bool_hyps; [done|].
      rewrite !reverse_cons, <- !app_assoc.
      apply (IH rs); [simpl; lia|by apply from_end_inv_pair|lia].
  - destruct (is_high c) eqn:Eh.
    + pose proof (proj1 (is_high_range c) Eh). apply Hsingle; [done|done|apply Hsur; lia].
    + apply Hsingle; [done|done|reflexivity].
Qed.

Lemma from_end_bounded str maxBytes :
  0 <= maxBytes ->
  buffer_byteLength (truncateStringToBytesFromEnd str maxBytes) <= maxBytes /\
  well_paired (truncateStringToBytesFromEnd str maxBytes) = true.
Proof.
  intros Hm.
  unfold truncateStringToBytesFromEnd. destruct (maxBytes <=? 0) eqn:E; [done|]. bool_hyps.
  destruct (from_end_loop_spec maxBytes (reverse str) [] 0 false) as (rest & t & b & needs & Hr & Hs & Hi & Hb).
  { split; done. } { lia. }
  rewrite Hr. rewrite reverse_involutive, app_nil_r in Hs.
  assert (Hd : drop (length rest) str = t).
  { rewrite Hs, drop_app_le, drop_ge by (rewrite length_reverse; lia). done. }
  rewrite Hd. destruct Hi as [-> _ Hp]. destruct needs.
  - rewrite replace_bytes, replace_well_paired. done.
  - by rewrite Hp.
Qed.

(** What the collecting loop of [truncateTail] returns on [lines]. *)
Definition tail_result (hb : bool) (maxLines maxBytes : Z) (lines : list jsstr)
    (r : list jsstr * Z * truncation_cause * bool) : Prop :=
  (exists pre arr by_, r = (arr, lines_bytes arr, by_, false) /\ lines = pre ++ arr /\
     fits maxLines maxBytes arr /\
     (pre = [] \/ exists pre' x, pre = pre' ++ [x] /\ ~ fits maxLines maxBytes (x :: arr))) \/
  (exists pre x, lines = pre ++ [x] /\ 0 < maxLines /\ maxBytes < buffer_byteLength x /\
     let cut := truncateStringToBytesFromEnd x maxBytes in
     r = ([cut], buffer_byteLength cut, ByBytes, true)).

Lemma tail_loop_spec hb maxLines maxBytes rlines arr :
  fits maxLines maxBytes arr ->
  tail_result hb maxLines maxBytes (reverse rlines ++ arr)
    (tail_loop hb maxLines maxBytes rlines arr (lines_bytes arr)).
Proof.
  revert arr. induction rlines as [|x rlines IH]; intros arr Hf; simpl tail_loop.
  { left. exists [], arr, ByLines. auto. }
  rewrite reverse_cons, <- app_assoc. simpl app.
  destruct (zlen arr <? maxLines) eqn:E; bool_hyps.
  - rewrite !utf8_bytes.
    replace (if 0 <? zlen arr then 1 else 0) with (if is_empty arr then 0 else 1)
      by (destruct arr; [done|rewrite zlen_cons; pose proof (zlen_nonneg arr);
          by rewrite (proj2 (Z.ltb_lt 0 _)) by lia]).
    assert (Hs : lines_bytes (x :: arr)
                 = lines_bytes arr + (buffer_byteLength x + (if is_empty arr then 0 else 1)))
      by (rewrite lines_bytes_cons; lia).
    rewrite <- Hs. destruct (lines_bytes (x :: arr) >? maxBytes) eqn:E2; bool_hyps.
    + destruct (zlen arr =? 0) eqn:E3; bool_hyps.
      * apply zlen_zero in E3 as ->. right. exists (reverse rlines), x.
        split_and!; auto with lia. 
      * left. exists (reverse rlines ++ [x]), arr, ByBytes.
        split_and!; auto; [by rewrite <- app_assoc|]. right. exists (reverse rlines), x.
        split; [done|]. intros [_ H]. lia.
    + apply IH. split; [rewrite zlen_cons; lia|lia].
  - left. exists (reverse rlines ++ [x]), arr, ByLines.
    split_and!; auto; [by rewrite <- app_assoc|]. right. exists (reverse rlines), x.
    split; [done|]. intros [H _]. rewrite zlen_cons in H. lia.
Qed.

Lemma fits_suffix maxLines maxBytes pre l :
  fits maxLines maxBytes (pre ++ l) -> fits maxLines maxBytes l.
Proof.
  intros [H1 H2]. rewrite zlen_app in H1. pose proof (zlen_nonneg pre). split; [lia|].
  pose proof (lines_bytes_drop_anti (pre ++ l) 0 (length pre) ltac:(lia)) as Hd.
  rewrite drop_app_length, drop_0 in Hd. lia.
Qed.

Lemma longest_suffix maxLines maxBytes (lines pre arr : list jsstr) :
  lines = pre ++ arr -> fits maxLines maxBytes arr ->
  (pre = [] \/ exists pre' x, pre = pre' ++ [x] /\ ~ fits maxLines maxBytes (x :: arr)) ->
  forall k, (k <= length lines)%nat ->
    fits maxLines maxBytes (drop (length lines - k) lines) <-> (k <= length arr)%nat.
Proof.
  intros -> Hf Hmax k Hk. rewrite length_app in *. split.
  - intros Hfk. destruct (decide (k <= length arr)%nat) as [|Hgt]; [done|]. exfalso.
    destruct Hmax as [->|(pre' & x & -> & Hx)]; [simpl in *; lia|]. apply Hx.
    rewrite length_app in *. simpl in *.
    rewrite drop_app_le in Hfk by (rewrite length_app; simpl; lia).
    rewrite drop_app_le, <- app_assoc in Hfk by lia.
    by apply fits_suffix in Hfk.
  - intros Hka. rewrite drop_app_ge by lia.
    rewrite <- (take_drop (length pre + length arr - k - length pre) arr) in Hf.
    by apply fits_suffix in Hf.
Qed.

(** The lines tail truncation works on, and the text they come from. *)
Lemma tail_lines_text text :
  join nl (tail_lines text) = text \/ join nl (tail_lines text) ++ [10] = text.
Proof.
  unfold tail_lines. pose proof (join_split 10 text) as Hj. change [10] with nl in *.
  destruct (_ && _) eqn:E; [|by left]. right. bool_hyps.
  destruct (last (split_on 10 text)) as [l|] eqn:El; simpl in H0.
  - apply is_empty_true in H0 as ->. apply last_Some in El as [ls Els].
    rewrite Els in *. rewrite removelast_last. rewrite join_app_cons in Hj; [done|].
    intros ->. unfold zlen in H. simpl in H. lia.
  - apply last_None in El. rewrite El in H. unfold zlen in H. simpl in H. lia.
Qed.

(** [truncateTail] never exceeds either limit, and unless it had to cut the
    last line it keeps exactly the longest suffix of complete lines that
    satisfies both limits. *)
Theorem truncateTail_longest_suffix hb text opts :
  let maxLines := default DEFAULT_MAX_LINES (opt_maxLines opts) in
  let maxBytes := default DEFAULT_MAX_BYTES (opt_maxBytes opts) in
  let lines := tail_lines text in
  let r := truncateTail hb text opts in
  0 <= maxLines -> 0 <= maxBytes ->
  outputLines r <= maxLines /\ outputBytes r <= maxBytes /\
  outputBytes r = zlen (utf8_encode (content r)) /\
  (lastLinePartial r = false ->
   (forall k, (k <= length lines)%nat ->
     fits maxLines maxBytes (drop (length lines - k) lines) <-> Z.of_nat k <= outputLines r) /\
   (truncated r = true ->
      content r = join nl (drop (length lines - Z.to_nat (outputLines r)) lines))).
Proof.
  intros maxLines maxBytes lines r Hl Hb. unfold r, truncateTail.
  fold maxLines maxBytes lines. change (zlen (utf8_encode ?x)) with (buffer_byteLength x).
  destruct (_ && _) eqn:E1; bool_hyps; cbn -[nl join lines].
  { rewrite utf8_bytes in *. split_and!; try done. intros _. split; [|done]. intros k Hk.
    rename H into Hlines, H0 into Hbytes.
    assert (Hf : fits maxLines maxBytes lines).
    { split; [done|]. unfold lines_bytes. destruct (tail_lines_text text) as [H'|H'];
        [unfold lines; by rewrite H'|]. rewrite <- H', buffer_newline, buffer_nil in Hbytes.
      unfold lines. lia. }
    split; [unfold zlen; lia|]. intros _.
    rewrite <- (take_drop (length lines - k) lines) in Hf. by apply fits_suffix in Hf. }
  pose proof (tail_loop_spec hb maxLines maxBytes (reverse lines) [] ltac:(by split)) as Hspec.
  change (lines_bytes []) with 0 in Hspec. rewrite reverse_involutive, app_nil_r in Hspec.
  destruct Hspec as [(pre & arr & by_ & Heq & Hli & Hf & Hmax)|(pre & x & Hli & Hpos & Hx & Heq)];
    cbv zeta in Heq; rewrite Heq; cbn -[nl join lines]; rewrite !utf8_bytes.
  - destruct Hf as [Hf1 Hf2]. unfold lines_bytes in Hf2. split_and!; try done. intros _. split.
    + intros k Hk. rewrite (longest_suffix maxLines maxBytes lines pre arr) by done.
      unfold zlen. lia.
    + intros _. f_equal. unfold zlen. rewrite Nat2Z.id, Hli, length_app, Nat.add_sub.
      by rewrite drop_app_length.
  - destruct (from_end_bounded x maxBytes Hb) as [Hle _].
    simpl join. split_and!; try done. unfold zlen. simpl. lia.
Qed.

(** When every line fits the tail loop collects them all and breaks nowhere. *)
Lemma tail_loop_all hb maxLines maxBytes rlines arr :
  fits maxLines maxBytes (reverse rlines ++ arr) ->
  tail_loop hb maxLines maxBytes rlines arr (lines_bytes arr)
  = (reverse rlines ++ arr, lines_bytes (reverse rlines ++ arr), ByLines, false).
Proof.
  revert arr. induction rlines as [|x rlines IH]; intros arr Hf; [done|]. simpl tail_loop.
  rewrite reverse_cons, <- app_assoc in *. simpl app in *.
  destruct (fits_suffix _ _ _ _ Hf) as [H1 H2]. rewrite zlen_cons in H1.
  rewrite (proj2 (Z.ltb_lt _ _)) by lia. rewrite utf8_bytes.
  replace (if 0 <? zlen arr then 1 else 0) with (if is_empty arr then 0 else 1)
    by (destruct arr; [done|rewrite zlen_cons; pose proof (zlen_nonneg arr);
        by rewrite (proj2 (Z.ltb_lt 0 _)) by lia]).
  replace (lines_bytes arr + _) with (lines_bytes (x :: arr)) by (rewrite lines_bytes_cons; lia).
  rewrite Z.gtb_ltb, (proj2 (Z.ltb_ge _ _)) by lia. by apply IH.
Qed.

(** Cutting a line from its end stays within the byte limit and never
    leaves half of a surrogate pair. *)
Theorem truncateStringToBytesFromEnd_bounded str maxBytes :
  0 <= maxBytes ->
  zlen (utf8_encode (truncateStringToBytesFromEnd str maxBytes)) <= maxBytes /\
  well_paired (truncateStringToBytesFromEnd str maxBytes) = true.
Proof. apply from_end_bounded. Qed.

(** Whichever branch runs, [utf8ByteLength] is the number of bytes of the
    UTF-8 encoding of the string, unpaired surrogates counted as U+FFFD. *)
Theorem utf8ByteLength_correct hasBuffer s :
  utf8ByteLength hasBuffer s = zlen (utf8_encode s).
Proof. apply utf8_bytes. Qed.

(** A text whose lines all fit and whose final newline alone exceeds the
    byte limit is reported as truncated by lines, with no line missing. *)
Theorem truncateTail_final_newline_cause hb text opts :
  let maxLines := default DEFAULT_MAX_LINES (opt_maxLines opts) in
  let maxBytes := default DEFAULT_MAX_BYTES (opt_maxBytes opts) in
  let r := truncateTail hb text opts in
  fits maxLines maxBytes (tail_lines text) -> maxBytes < zlen (utf8_encode text) ->
  truncated r = true /\ truncatedBy r = Some ByLines /\ outputLines r = totalLines r.
Proof.
  intros maxLines maxBytes r Hf Hb. unfold r, truncateTail. fold maxLines maxBytes.
  rewrite utf8_bytes. change (zlen (utf8_encode text)) with (buffer_byteLength text) in Hb.
  rewrite (proj2 (Z.leb_gt (buffer_byteLength text) maxBytes)) by done.
  rewrite andb_false_r.
  pose proof (tail_loop_all hb maxLines maxBytes (reverse (tail_lines text)) []) as Hl.
  rewrite reverse_involutive, app_nil_r in Hl. change (lines_bytes []) with 0 in Hl.
  rewrite (Hl Hf). simpl.
  split_and!; try done. by destruct (_ && _).
Qed.

(** ** Concrete runs *)

Definition three_lines : jsstr := js "ab" ++ nl ++ js "cd" ++ nl ++ js "ef".
Definition five_bytes : TruncationOptions := mkTruncationOptions (Some 10) (Some 5).

Lemma truncateHead_witness :
  content (truncateHead true three_lines five_bytes) = js "ab" ++ nl ++ js "cd".
Proof.
  refine (eq_trans (proj1 (truncateHead_longest_prefix true three_lines five_bytes _ _)) _);
    [vm_compute; discriminate|vm_compute; discriminate|reflexivity].
Defined.

Lemma truncateTail_witness :
  outputBytes (truncateTail false three_lines five_bytes) <= 5 /\
  content (truncateTail false three_lines five_bytes) = js "cd" ++ nl ++ js "ef".
Proof.
  destruct (truncateTail_longest_suffix false three_lines five_bytes) as (_ & H & _ & H');
    [vm_compute; discriminate|vm_compute; discriminate|].
  split; [exact H|]. refine (eq_trans (proj2 (H' _) _) _); reflexivity.
Defined.

Lemma truncateStringToBytesFromEnd_witness :
  well_paired (truncateStringToBytesFromEnd [97; 55357; 56832; 98] 3) = true.
Proof.
  refine (proj2 (truncateStringToBytesFromEnd_bounded [97; 55357; 56832; 98] 3 _)). lia.
Defined.

Lemma truncateTail_final_newline_witness :
  truncatedBy (truncateTail true (js "a" ++ nl) (mkTruncationOptions (Some 5) (Some 1))) = Some ByLines.
Proof.
  refine (proj1 (proj2 (truncateTail_final_newline_cause true (js "a" ++ nl)
    (mkTruncationOptions (Some 5) (Some 1)) _ _))); [|reflexivity].
  split; vm_compute; discriminate.
Defined.
