(* ===== verification/JsonText.v ===== *)
(** The text [JSON.stringify] prints: it is one line and well-formed UTF-16,
    whatever the value. *)
From S2P Require Import Prelude JsString Json JsonParse Truncate.

(** ** The text of a value *)

(** Units of a printed value outside surrogate pairs: no line feed, no
    unpaired surrogate. *)
Definition plain_unit (c : Z) : Prop := c <> 10 /\ ~ (55296 <= c <= 57343).

(** A text on one line that UTF-8 can encode. *)
Definition one_line (s : jsstr) : Prop := (10 ∉ s) /\ well_paired s = true.

Lemma surrogate_cases c : plain_unit c -> is_high c = false /\ is_low c = false.
Proof. intros [_ H]. unfold is_high, is_low. split; apply andb_false_iff; rewrite !Z.leb_gt; lia. Qed.

Lemma one_line_nil : one_line [].
Proof. split; [set_solver|done]. Qed.

Lemma one_line_cons c s : plain_unit c -> one_line s -> one_line (c :: s).
Proof.
  intros Hc [H1 H2]. destruct (surrogate_cases c Hc) as [Hh Hl]. split; [destruct Hc; set_solver|].
  simpl. by rewrite Hh, Hl.
Qed.

Lemma one_line_pair c d s : is_high c = true -> is_low d = true -> one_line s -> one_line (c :: d :: s).
Proof.
  intros Hh Hl [H1 H2]. split; [|simpl; by rewrite Hh, Hl]. unfold is_high, is_low in *. bool_hyps.
  rewrite !not_elem_of_cons. split_and!; [lia|lia|done].
Qed.

Lemma well_paired_app a b : well_paired a = true -> well_paired b = true -> well_paired (a ++ b) = true.
Proof.
  induction a as [a IH] using (induction_ltof1 _ (@length Z)); unfold ltof in IH. intros Ha Hb.
  destruct a as [|c a]; [done|]. cbn [well_paired app] in *. destruct (is_high c).
  - destruct a as [|d a]; [done|]. cbn [app] in *. bool_hyps. apply andb_true_iff. split; [done|].
    apply IH; [simpl; lia|done..].
  - bool_hyps. apply andb_true_iff. split; [by apply negb_true_iff|]. apply IH; [simpl; lia|done..].
Qed.

Lemma one_line_app a b : one_line a -> one_line b -> one_line (a ++ b).
Proof. intros [H1 H2] [H3 H4]. split; [set_solver|by apply well_paired_app]. Qed.

Lemma one_line_plain s : Forall plain_unit s -> one_line s.
Proof. induction 1; [apply one_line_nil|by apply one_line_cons]. Qed.

Lemma one_line_join sep l : one_line sep -> Forall one_line l -> one_line (join sep l).
Proof.
  intros Hs. induction 1 as [|x l Hx Hl IH]; [apply one_line_nil|]. destruct l as [|y l]; [done|].
  rewrite join_cons2. by repeat apply one_line_app.
Qed.

Lemma hex4_plain c : Forall plain_unit (hex4 c).
Proof.
  assert (H : forall n, 0 <= n < 16 -> plain_unit (if n <? 10 then 48 + n else 87 + n)).
  { intros n Hn. unfold plain_unit. case_if; bool_hyps; lia. }
  unfold hex4. repeat constructor; apply H, Z.mod_pos_bound; lia.
Qed.

#[local] Ltac plain := repeat constructor; unfold plain_unit; lia.

Lemma quote_units_line s : wf_str s -> one_line (quote_units s).
Proof.
  induction s as [s IH] using (induction_ltof1 _ (@length Z)); unfold ltof in IH. intros Hwf.
  destruct s as [|c s]; [apply one_line_nil|]. inversion Hwf as [|? ? Hc Hs]; subst.
  assert (IH1 : one_line (quote_units s)) by (apply IH; [simpl; lia|done]).
  assert (Hesc : one_line ([92; 117] ++ hex4 c ++ quote_units s)).
  { repeat apply one_line_app; [apply one_line_plain; plain|apply one_line_plain, hex4_plain|done]. }
  cbn [quote_units]. repeat (case_if; [first [exact Hesc | apply one_line_app; [apply one_line_plain; plain|done] | idtac]|]).
  - destruct s as [|d s]; [apply one_line_app; apply one_line_plain; [plain|apply hex4_plain]|].
    case_if; [|exact Hesc]. apply one_line_pair; try done. inversion Hs; subst. apply IH; [simpl; lia|done].
  - apply one_line_cons; [|done]. unfold plain_unit, is_surrogate_high, is_surrogate_low in *. bool_hyps.
    split; [lia|]. intros ?. destruct (decide (c <= 56319)).
    + assert (((55296 <=? c) && (c <=? 56319)) = true) by (apply andb_true_iff; rewrite !Z.leb_le; lia). congruence.
    + assert (((56320 <=? c) && (c <=? 57343)) = true) by (apply andb_true_iff; rewrite !Z.leb_le; lia). congruence.
Qed.

(** The units of a number literal. *)
Lemma digits_plain s : Forall plain_unit (take_digits s).1.
Proof.
  induction s as [|c s IH]; [constructor|]. simpl. case_if; [|constructor]. destruct (take_digits s). constructor; [|done].
  unfold is_digit in *. bool_hyps. unfold plain_unit. lia.
Qed.

Lemma parse_number_plain s t r : parse_number s = Some (t, r) -> Forall plain_unit t.
Proof.
  unfold parse_number. destruct (parse_minus s) as [m s0] eqn:Em.
  destruct (parse_int s0) as [[i s1]|] eqn:Ei; [|done]. destruct (parse_frac s1) as [[f s2]|] eqn:Ef; [|done].
  destruct (parse_exp s2) as [[e s3]|] eqn:Ee; [|done]. intros [= <- <-].
  repeat apply Forall_app_2.
  - destruct s as [|c s]; [by injection Em as <- <-|]. unfold parse_minus in Em. case_if_in Em; injection Em as <- <-; plain.
  - destruct s0 as [|c s0]; [done|]. unfold parse_int in Ei. repeat case_if_in Ei; try done; [injection Ei as <- <-; plain|].
    injection Ei as Ei. change (take_digits (c :: s0) = (i, s1)) in Ei.
    pose proof (digits_plain (c :: s0)) as Hd. rewrite Ei in Hd. done.
  - destruct s1 as [|c s1]; [by injection Ef as <- <-|]. unfold parse_frac in Ef. case_if_in Ef; [|by injection Ef as <- <-].
    pose proof (digits_plain s1) as Hd. destruct (take_digits s1). case_if_in Ef; [done|]. injection Ef as <- <-.
    constructor; [unfold plain_unit; lia|done].
  - destruct s2 as [|c s2]; [by injection Ee as <- <-|]. unfold parse_exp in Ee.
    destruct ((c =? 101) || (c =? 69)) eqn:Hc; [|by injection Ee as <- <-].
    assert (Hs : Forall plain_unit (parse_sign s2).1).
    { destruct s2 as [|x s2]; [constructor|]. simpl. destruct ((x =? 43) || (x =? 45)) eqn:Hx; [|constructor].
      apply orb_true_iff in Hx. destruct Hx; bool_hyps; subst; plain. }
    destruct (parse_sign s2) as [g r']. pose proof (digits_plain r') as Hd. destruct (take_digits r').
    case_if_in Ee; [done|]. injection Ee as <- <-. constructor; [|by apply Forall_app_2].
    apply orb_true_iff in Hc. unfold plain_unit. destruct Hc; bool_hyps; lia.
Qed.

Section Text.
Context (number_text : jsstr -> jsstr).

Lemma stringify_line v : json_ok number_text v -> one_line (stringify v).
Proof.
  assert (Hb : forall op cl l, plain_unit op -> plain_unit cl -> Forall one_line l -> one_line (bracket op cl l)).
  { intros op cl l Ho Hc Hl. unfold bracket. apply one_line_cons; [done|].
    apply one_line_app; [apply one_line_join; [apply one_line_plain; plain|done]|apply one_line_plain; by constructor]. }
  assert (Hq : forall s, wf_str s -> one_line (quote s)).
  { intros s Hs. unfold quote. apply one_line_cons; [plain|]. apply one_line_app; [by apply quote_units_line|].
    apply one_line_plain; plain. }
  induction v as [v Ha Ho|l IH|m IH] using json_nested_ind; intros Hok.
  - destruct Hok as [|[]|r [Hr _]|s Hs|l|m]; try (by destruct (Ha l)); try (by destruct (Ho m)).
    1-3: split; [by apply (bool_decide_unpack _)|done].
    + apply one_line_plain. by eapply parse_number_plain.
    + by apply Hq.
  - inversion Hok as [| | | |l' Hl|]; subst. cbn [stringify]. apply Hb; [plain|plain|].
    apply Forall_fmap. rewrite Forall_forall in *. intros x Hx. by apply IH, Hl.
  - inversion Hok as [| | | | |m' He Hm]; subst. cbn [stringify]. apply Hb; [plain|plain|].
    apply Forall_fmap. rewrite Forall_forall in *. intros x Hx. destruct (Hm x Hx). cbn [compose].
    apply (one_line_app (quote x.1)); [by apply Hq|]. apply one_line_cons; [plain|by apply IH].
Qed.
End Text.
