(* ===== verification/Uuid.v ===== *)
(** Time-ordered identifiers, [packages/agent/src/harness/session/uuid.ts], and
    the entry ids the session storages derive from them ([generateEntryId]). *)
From S2P Require Import Prelude JsString.

(** The two module-level variables of [uuid.ts]; [None] is [-Infinity]. *)
Record uuid_state := mkUuidState {
  lastTimestamp : option Z;
  sequence : Z;
}.

Definition uuid_init : uuid_state := mkUuidState None 0.

(** One draw of the environment: the sixteen random bytes and [Date.now()]. *)
Record draw := mkDraw { random : nat -> Z; timestamp : Z }.

(** [n >>> 0]. *)
Definition to_uint32 (n : Z) : Z := n mod 2 ^ 32.

(** The update of the clock and of the sequence number. *)
Definition uuid_step (st : uuid_state) (d : draw) : Z * Z :=
  let newer := match lastTimestamp st with None => true | Some t => timestamp d >? t end in
  if newer then
    (timestamp d,
     random d 6 * 16777216 + random d 7 * 65536 + random d 8 * 256 + random d 9)
  else
    let last := default 0 (lastTimestamp st) in
    let seq := to_uint32 (sequence st + 1) in
    (if seq =? 0 then last + 1 else last, seq).

(** [(n / 2^k) & 0xff]. *)
Definition byte_of (n k : Z) : Z := Z.land (Z.shiftr n k) 255.

Definition uuid_bytes (ts seq : Z) (rnd : nat -> Z) : list Z :=
  [byte_of ts 40; byte_of ts 32; byte_of ts 24; byte_of ts 16; byte_of ts 8; byte_of ts 0;
   Z.lor 112 (Z.land (Z.shiftr seq 28) 15);
   Z.land (Z.shiftr seq 20) 255;
   Z.lor 128 (Z.land (Z.shiftr seq 14) 63);
   Z.land (Z.shiftr seq 6) 255;
   Z.lor (Z.shiftl (Z.land seq 63) 2) (Z.land (rnd 10%nat) 3);
   rnd 11%nat; rnd 12%nat; rnd 13%nat; rnd 14%nat; rnd 15%nat].

(** [byte.toString(16).padStart(2, "0")]. *)
Definition hex_digit (n : Z) : Z := if n <? 10 then 48 + n else 87 + n.
Definition hex_byte (b : Z) : jsstr := [hex_digit (b / 16); hex_digit (b mod 16)].

Definition formatUuid (bytes : list Z) : jsstr :=
  let hex := map hex_byte bytes in
  let part (i j : nat) := concat (take (j - i) (drop i hex)) in
  part 0%nat 4%nat ++ js "-" ++ part 4%nat 6%nat ++ js "-" ++ part 6%nat 8%nat ++ js "-"
  ++ part 8%nat 10%nat ++ js "-" ++ part 10%nat 16%nat.

Definition uuidv7 (st : uuid_state) (d : draw) : jsstr * uuid_state :=
  let '(ts, seq) := uuid_step st d in
  (formatUuid (uuid_bytes ts seq (random d)), mkUuidState (Some ts) seq).

(** ** Entry ids of the session storages *)

(** [generateEntryId]: up to [n] attempts with the first eight characters,
    then a full id.  [draws i] is the environment at attempt [i]. *)
Fixpoint generate_short (n : nat) (has : jsstr -> bool) (draws : nat -> draw) (i : nat)
    (st : uuid_state) : option jsstr * uuid_state * nat :=
  match n with
  | O => (None, st, i)
  | S n' =>
      let '(full, st') := uuidv7 st (draws i) in
      let id := slice_to full 8 in
      if has id then generate_short n' has draws (S i) st' else (Some id, st', S i)
  end.

Definition generateEntryId (has : jsstr -> bool) (draws : nat -> draw) (i : nat) (st : uuid_state)
    : jsstr * uuid_state * nat :=
  match generate_short 100 has draws i st with
  | (Some id, st', j) => (id, st', j)
  | (None, st', j) => (uuidv7 st' (draws j), S j)
  end.

(** ** The key an id encodes *)

(** Timestamp and sequence number as one 80-bit number. *)
Definition uuid_key (ts seq : Z) : Z := ts * 2 ^ 32 + seq.

(** Big-endian digits of [n] in mixed radix. *)
Definition weight (rs : list Z) : Z := fold_right Z.mul 1 rs.
Fixpoint be_digits (rs : list Z) (n : Z) : list Z :=
  match rs with
  | [] => []
  | r :: rs' => (n / weight rs') mod r :: be_digits rs' n
  end.

Lemma weight_pos rs : Forall (fun r => 0 < r) rs -> 0 < weight rs.
Proof. induction 1; simpl; lia. Qed.

Lemma be_digits_mod rs n : Forall (fun r => 0 < r) rs -> be_digits rs n = be_digits rs (n mod weight rs).
Proof.
  intros H. revert n. induction H as [|r rs Hr H IH]; intros n; [done|].
  pose proof (weight_pos rs H) as Hw. simpl. f_equal.
  - rewrite (Z.mul_comm r), Z.rem_mul_r by lia.
    rewrite (Z.mul_comm (weight rs)), Z.div_add by lia.
    rewrite (Z.div_small (n mod weight rs)), Z.add_0_l, Z.mod_mod by (first [lia|apply Z.mod_pos_bound; lia]).
    done.
  - rewrite (IH (n mod (r * weight rs))), (IH n).
    rewrite (Z.mul_comm r), Z.mod_mod_divide; [done|]. exists r. lia.
Qed.

(** Numeric order is the lexicographic order of the digits. *)
Lemma be_digits_lt rs n m :
  Forall (fun r => 0 < r) rs -> 0 <= n -> n < m -> m < weight rs ->
  str_ltb (be_digits rs n) (be_digits rs m) = true.
Proof.
  intros H. revert n m. induction H as [|r rs Hr H IH]; intros n m Hn Hnm Hm; [simpl in Hm; lia|].
  pose proof (weight_pos rs H) as Hw. simpl in Hm.
  change (be_digits (r :: rs) ?x) with ((x / weight rs) mod r :: be_digits rs x).
  assert (Hd : n / weight rs <= m / weight rs) by (apply Z.div_le_mono; lia).
  assert (Hdm : m / weight rs < r) by (apply Z.div_lt_upper_bound; lia).
  assert (0 <= n / weight rs) by (apply Z.div_pos; lia).
  rewrite !Z.mod_small by lia. apply str_ltb_cons.
  destruct (decide (n / weight rs = m / weight rs)) as [E|E]; [right|left; lia].
  split; [done|]. rewrite (be_digits_mod rs n), (be_digits_mod rs m) by done.
  pose proof (Z.div_mod n (weight rs) ltac:(lia)). pose proof (Z.div_mod m (weight rs) ltac:(lia)).
  apply IH; [apply Z.mod_pos_bound; lia|nia|apply Z.mod_pos_bound; lia].
Qed.

(** Encoders that keep the order whatever follows. *)
Definition order_encoder (bound : Z) (e : Z -> jsstr) : Prop :=
  forall d d' x y, 0 <= d < d' -> d' < bound -> str_ltb (e d ++ x) (e d' ++ y) = true.

(** Lexicographically smaller digits give smaller text. *)
Lemma encode_lt (es : list (Z -> jsstr)) a b x y bound :
  Forall (order_encoder bound) es -> length a = length es -> length b = length es ->
  Forall (fun d => 0 <= d < bound) a -> Forall (fun d => 0 <= d < bound) b ->
  str_ltb a b = true ->
  str_ltb (concat (zip_with (fun e d => e d) es a) ++ x) (concat (zip_with (fun e d => e d) es b) ++ y) = true.
Proof.
  intros Hes. revert a b. induction Hes as [|e es He Hes IH]; intros [|d a] [|d' b]; try done.
  intros Ha Hb Hra Hrb Hlt. simpl in *. inversion Hra; inversion Hrb; subst.
  rewrite <- !app_assoc. apply str_ltb_cons in Hlt as [Hlt|[-> Hlt]].
  - apply He; lia.
  - rewrite str_ltb_app. apply IH; auto.
Qed.

(** Or-ing a low part into a shifted one adds it. *)
Lemma lor_shiftl_low a k b : 0 <= k -> 0 <= b < 2 ^ k -> Z.lor (Z.shiftl a k) b = a * 2 ^ k + b.
Proof.
  intros Hk Hb. rewrite <- Z.shiftl_mul_pow2 by done.
  assert (Hz : Z.land (Z.shiftl a k) b = 0).
  { apply Z.bits_inj'. intros n Hn. rewrite Z.land_spec, Z.bits_0, Z.shiftl_spec by done.
    destruct (decide (n < k)); [by rewrite Z.testbit_neg_r by lia|].
    rewrite <- (Z.mod_small b (2 ^ k)) by done. rewrite Z.mod_pow2_bits_high by lia.
    apply andb_false_r. }
  rewrite <- Z.lxor_lor by done. symmetry. by apply Z.add_nocarry_lxor.
Qed.

Lemma land_mask n k m : 0 <= k -> m = 2 ^ k - 1 -> Z.land n m = n mod 2 ^ k.
Proof. intros Hk ->. rewrite <- Z.land_ones, Z.ones_equiv by done. done. Qed.

(** Digits of the key: six timestamp bytes and the five pieces of the sequence. *)
Definition uuid_radices : list Z := [256; 256; 256; 256; 256; 256; 16; 256; 64; 256].

Lemma key_div_ts ts seq k : 0 <= seq < 2 ^ 32 -> 0 <= k -> uuid_key ts seq / 2 ^ (32 + k) = ts / 2 ^ k.
Proof.
  intros Hs Hk. unfold uuid_key. rewrite Z.pow_add_r, <- Z.div_div by lia.
  rewrite (Z.add_comm (ts * _)), Z.div_add, (Z.div_small seq), Z.add_0_l by lia. done.
Qed.

Lemma key_div_seq ts seq k r :
  0 <= k -> 0 <= r -> k + r <= 32 -> (uuid_key ts seq / 2 ^ k) mod 2 ^ r = (seq / 2 ^ k) mod 2 ^ r.
Proof.
  intros Hk Hr Hkr. unfold uuid_key.
  replace (ts * 2 ^ 32) with (ts * 2 ^ (32 - k - r) * 2 ^ r * 2 ^ k).
  2:{ rewrite <- !Z.mul_assoc, <- !Z.pow_add_r by lia. do 2 f_equal. lia. }
  rewrite (Z.add_comm (_ * _)), Z.div_add by lia. by rewrite Z.mod_add by lia.
Qed.

(** The bytes of an id, in terms of the digits of its key. *)
Lemma uuid_bytes_digits ts seq rnd :
  0 <= seq < 2 ^ 32 -> 0 <= rnd 10%nat ->
  exists d0 d1 d2 d3 d4 d5 d6 d7 d8 d9,
    be_digits uuid_radices (uuid_key ts seq / 64) = [d0; d1; d2; d3; d4; d5; d6; d7; d8; d9] /\
    uuid_bytes ts seq rnd =
      [d0; d1; d2; d3; d4; d5; 112 + d6; d7; 128 + d8; d9;
       4 * (seq mod 64) + rnd 10%nat mod 4; rnd 11%nat; rnd 12%nat; rnd 13%nat; rnd 14%nat; rnd 15%nat].
Proof.
  intros Hs Hr. do 10 eexists. split; [reflexivity|].
  assert (Hts : forall k, 0 <= k -> byte_of ts k = (uuid_key ts seq / 2 ^ (32 + k)) mod 256).
  { intros k Hk. unfold byte_of. rewrite Z.shiftr_div_pow2 by done.
    rewrite key_div_ts by done. by apply (land_mask _ 8). }
  assert (Hseq : forall k r m, m = 2 ^ r - 1 -> 0 <= k -> 0 <= r -> k + r <= 32 ->
     Z.land (Z.shiftr seq k) m = (uuid_key ts seq / 2 ^ k) mod 2 ^ r).
  { intros k r m -> Hk Hr' Hkr. rewrite Z.shiftr_div_pow2, key_div_seq by done.
    by apply land_mask. }
  assert (Hd : forall w, 0 < w -> uuid_key ts seq / 64 / w = uuid_key ts seq / (64 * w)).
  { intros w Hw. by rewrite Z.div_div by lia. }
  assert (Hb : forall x r, 0 < r -> 0 <= x mod r < r) by (intros; apply Z.mod_pos_bound; lia).
  assert (Hlow : Z.lor (Z.shiftl (Z.land seq 63) 2) (Z.land (rnd 10%nat) 3)
                 = 4 * (seq mod 64) + rnd 10%nat mod 4).
  { rewrite (land_mask seq 6 63), (land_mask (rnd 10%nat) 2 3) by done.
    rewrite lor_shiftl_low by (lia || (apply Hb; lia)).
    change (2 ^ 6) with 64. change (2 ^ 2) with 4. lia. }
  unfold uuid_bytes. rewrite Hlow, !Hts by lia.
  rewrite (Hseq 28 4 15), (Hseq 20 8 255), (Hseq 14 6 63), (Hseq 6 8 255) by (lia || reflexivity).
  change 112 with (Z.shiftl 7 4) at 1. change 128 with (Z.shiftl 2 6) at 1.
  rewrite !lor_shiftl_low by (lia || (apply Hb; lia)).
  rewrite !Hd by (vm_compute; reflexivity). reflexivity.
Qed.

(** ** Order of the printed ids *)

Lemma hex_digit_lt a b : a < b -> hex_digit a < hex_digit b.
Proof. intros H. unfold hex_digit. repeat case_if; bool_hyps; lia. Qed.

Lemma hex_byte_lt b b' x y : b < b' -> str_ltb (hex_byte b ++ x) (hex_byte b' ++ y) = true.
Proof.
  intros H. unfold hex_byte. simpl app. rewrite !str_ltb_cons.
  pose proof (Z.div_mod b 16). pose proof (Z.div_mod b' 16).
  assert (b / 16 <= b' / 16) by (apply Z.div_le_mono; lia).
  destruct (decide (b / 16 = b' / 16)) as [E|E].
  - right. split; [by rewrite E|]. left. apply hex_digit_lt. lia.
  - left. apply hex_digit_lt. lia.
Qed.

Definition uuid_encoders : list (Z -> jsstr) :=
  let dash b := hex_byte b ++ js "-" in
  [hex_byte; hex_byte; hex_byte; dash; hex_byte; dash;
   (fun d => hex_byte (112 + d)); dash; (fun d => hex_byte (128 + d)); dash].

Lemma uuid_encoders_order : Forall (order_encoder 256) uuid_encoders.
Proof.
  repeat constructor; intros d d' x y Hd _; rewrite <- ?app_assoc; apply hex_byte_lt; lia.
Qed.

(** The printed id: the encoded digits, then the byte with the last six bits
    of the sequence, then random bytes. *)
Lemma formatUuid_encoded ts seq rnd :
  0 <= seq < 2 ^ 32 -> 0 <= rnd 10%nat ->
  formatUuid (uuid_bytes ts seq rnd) =
    concat (zip_with (fun e d => e d) uuid_encoders (be_digits uuid_radices (uuid_key ts seq / 64)))
    ++ hex_byte (4 * (seq mod 64) + rnd 10%nat mod 4)
    ++ concat (map hex_byte [rnd 11%nat; rnd 12%nat; rnd 13%nat; rnd 14%nat; rnd 15%nat]).
Proof.
  intros Hs Hr.
  destruct (uuid_bytes_digits ts seq rnd Hs Hr) as (d0&d1&d2&d3&d4&d5&d6&d7&d8&d9&-> & ->).
  reflexivity.
Qed.

Lemma be_digits_bound n : Forall (fun d => 0 <= d < 256) (be_digits uuid_radices n).
Proof.
  assert (H : forall x r, 0 < r <= 256 -> 0 <= x mod r < 256).
  { intros x r Hr. pose proof (Z.mod_pos_bound x r). lia. }
  repeat constructor; apply H; lia.
Qed.

(** Ids with a smaller key print as smaller strings. *)
Lemma formatUuid_lt ts seq rnd ts' seq' rnd' :
  0 <= seq < 2 ^ 32 -> 0 <= seq' < 2 ^ 32 -> 0 <= ts -> ts' < 2 ^ 48 ->
  0 <= rnd 10%nat -> 0 <= rnd' 10%nat ->
  uuid_key ts seq < uuid_key ts' seq' ->
  str_ltb (formatUuid (uuid_bytes ts seq rnd)) (formatUuid (uuid_bytes ts' seq' rnd')) = true.
Proof.
  intros Hs Hs' Ht Ht' Hr Hr' Hlt. rewrite !formatUuid_encoded by done.
  assert (Hk : 0 <= uuid_key ts seq) by (unfold uuid_key; nia).
  assert (Hk' : uuid_key ts' seq' < 2 ^ 80).
  { unfold uuid_key. change (2 ^ 80) with (2 ^ 48 * 2 ^ 32). nia. }
  destruct (decide (uuid_key ts seq / 64 < uuid_key ts' seq' / 64)) as [Hd|Hd].
  - apply encode_lt with (bound := 256); try reflexivity;
      [apply uuid_encoders_order|apply be_digits_bound|apply be_digits_bound|].
    apply be_digits_lt; [repeat constructor| |done|].
    + apply Z.div_pos; lia.
    + change (weight uuid_radices) with (2 ^ 74). apply Z.div_lt_upper_bound; lia.
  - assert (Hm : forall t q, uuid_key t q mod 64 = q mod 64).
    { intros t q. unfold uuid_key. change (t * 2 ^ 32) with (t * (67108864 * 64)).
      rewrite Z.mul_assoc, Z.add_comm. by rewrite Z.mod_add by lia. }
    pose proof (Z.div_mod (uuid_key ts seq) 64 ltac:(lia)) as E1.
    pose proof (Z.div_mod (uuid_key ts' seq') 64 ltac:(lia)) as E2.
    rewrite Hm in E1, E2. assert (Hle : uuid_key ts seq / 64 <= uuid_key ts' seq' / 64)
      by (apply Z.div_le_mono; lia).
    assert (Heq : uuid_key ts seq / 64 = uuid_key ts' seq' / 64) by lia.
    rewrite Heq, str_ltb_app. apply hex_byte_lt.
    pose proof (Z.mod_pos_bound (rnd 10%nat) 4). pose proof (Z.mod_pos_bound (rnd' 10%nat) 4). lia.
Qed.

(** ** The generator state *)

(** A draw of a real environment: bytes and a clock after 1970. *)
Definition draw_ok (d : draw) : Prop :=
  (forall i, 0 <= random d i < 256) /\ 0 <= timestamp d.

(** The sequence is a 32-bit number and the clock is not negative. *)
Definition uuid_ok (st : uuid_state) : Prop :=
  0 <= sequence st < 2 ^ 32 /\
  match lastTimestamp st with None => True | Some t => 0 <= t end.

Definition state_key (st : uuid_state) : Z :=
  match lastTimestamp st with None => -1 | Some t => uuid_key t (sequence st) end.

Lemma uuid_step_spec st d ts seq :
  uuid_ok st -> draw_ok d -> uuid_step st d = (ts, seq) ->
  0 <= seq < 2 ^ 32 /\ 0 <= ts /\ state_key st < uuid_key ts seq /\
  (ts = timestamp d \/ exists t, lastTimestamp st = Some t /\
     ((ts = t /\ seq = sequence st + 1) \/ (ts = t + 1 /\ seq = 0 /\ sequence st = 2 ^ 32 - 1))).
Proof.
  intros [Hs Ht] [Hr Hd]. unfold uuid_step, state_key.
  pose proof (Hr 6%nat). pose proof (Hr 7%nat). pose proof (Hr 8%nat). pose proof (Hr 9%nat).
  destruct (lastTimestamp st) as [t|].
  - destruct (timestamp d >? t) eqn:E; bool_hyps; intros [= <- <-].
    + split_and!; [lia|lia|lia|unfold uuid_key; nia|by left].
    + simpl. unfold to_uint32.
      destruct (decide (sequence st = 2 ^ 32 - 1)) as [Hmax|Hmax].
      * rewrite Hmax. change ((2 ^ 32 - 1 + 1) mod 2 ^ 32) with 0. simpl.
        split_and!; [lia|lia|lia|unfold uuid_key; lia|]. right. exists t. split; [done|]. right. lia.
      * rewrite Z.mod_small by lia. rewrite (proj2 (Z.eqb_neq _ _)) by lia.
        split_and!; [lia|lia|lia|unfold uuid_key; lia|]. right. exists t. split; [done|]. left. lia.
  - intros [= <- <-]. split_and!; [lia|lia|lia|unfold uuid_key; lia|by left].
Qed.

(** What one call of [uuidv7] does to the state. *)
Lemma uuidv7_spec st d id st' :
  uuid_ok st -> draw_ok d -> uuidv7 st d = (id, st') ->
  exists ts seq, id = formatUuid (uuid_bytes ts seq (random d)) /\ st' = mkUuidState (Some ts) seq /\
    uuid_ok st' /\ state_key st < state_key st' /\ uuid_step st d = (ts, seq).
Proof.
  intros Hok Hd. unfold uuidv7. destruct (uuid_step st d) as [ts seq] eqn:Es. intros [= <- <-].
  destruct (uuid_step_spec st d ts seq Hok Hd Es) as (Hs & Ht & Hlt & _).
  exists ts, seq. done.
Qed.

(** Consecutive ids are strictly increasing strings, whatever the clock
    does: it may stand still or step back, and the 32-bit sequence may wrap. *)
Theorem uuidv7_increasing st d1 d2 id1 st1 id2 st2 :
  uuid_ok st -> draw_ok d1 -> draw_ok d2 ->
  uuidv7 st d1 = (id1, st1) -> uuidv7 st1 d2 = (id2, st2) ->
  default 0 (lastTimestamp st2) < 2 ^ 48 ->
  str_ltb id1 id2 = true.
Proof.
  intros Hok H1 H2 E1 E2 Hb.
  destruct (uuidv7_spec st d1 id1 st1 Hok H1 E1) as (ts & seq & -> & -> & Hok1 & _).
  destruct (uuidv7_spec _ d2 id2 st2 Hok1 H2 E2) as (ts' & seq' & -> & -> & Hok2 & Hlt & _).
  destruct Hok1 as [Hs1 Ht1], Hok2 as [Hs2 _], H1 as [Hr1 _], H2 as [Hr2 _].
  apply formatUuid_lt; [exact Hs1|exact Hs2|exact Ht1|exact Hb|apply Hr1|apply Hr2|exact Hlt].
Qed.

(** ** Entry ids are unique *)

(** The first eight characters of an id are the four high timestamp bytes. *)
Definition uuid_prefix (ts : Z) : jsstr :=
  concat (map hex_byte [byte_of ts 40; byte_of ts 32; byte_of ts 24; byte_of ts 16]).

Lemma formatUuid_shape b0 b1 b2 b3 l :
  length l = 12%nat ->
  slice_to (formatUuid (b0 :: b1 :: b2 :: b3 :: l)) 8 = concat (map hex_byte [b0; b1; b2; b3]) /\
  zlen (formatUuid (b0 :: b1 :: b2 :: b3 :: l)) = 36.
Proof. intros H. do 12 (destruct l as [|? l]; [done|]). by destruct l. Qed.

Lemma slice_uuid ts seq rnd : slice_to (formatUuid (uuid_bytes ts seq rnd)) 8 = uuid_prefix ts.
Proof. by apply formatUuid_shape. Qed.

Lemma formatUuid_length ts seq rnd : zlen (formatUuid (uuid_bytes ts seq rnd)) = 36.
Proof. by apply formatUuid_shape. Qed.

Lemma uuid_prefix_length ts : zlen (uuid_prefix ts) = 8.
Proof. reflexivity. Qed.

(** An id this generator can have produced before reaching [st]. *)
Definition id_before (st : uuid_state) (id : jsstr) : Prop :=
  zlen id = 8 \/
  exists ts seq rnd, id = formatUuid (uuid_bytes ts seq rnd) /\ 0 <= seq < 2 ^ 32 /\ 0 <= ts /\
    0 <= rnd 10%nat /\ uuid_key ts seq <= state_key st.

Lemma id_before_mono st st' id : state_key st <= state_key st' -> id_before st id -> id_before st' id.
Proof.
  intros Hle [H|(ts & seq & rnd & H)]; [by left|right]. exists ts, seq, rnd.
  destruct H as (? & ? & ? & ? & ?). split_and!; try done; lia.
Qed.

Lemma generate_short_spec n has draws i st r st' j :
  uuid_ok st -> (forall i, draw_ok (draws i)) ->
  generate_short n has draws i st = (r, st', j) ->
  uuid_ok st' /\ state_key st <= state_key st' /\
  (forall id, r = Some id -> has id = false /\ zlen id = 8).
Proof.
  revert i st. induction n as [|n IH]; simpl; intros i st Hok Hd.
  { intros [= <- <- <-]. split_and!; done. }
  destruct (uuidv7 st (draws i)) as [full st1] eqn:E.
  destruct (uuidv7_spec _ _ _ _ Hok (Hd i) E) as (ts & seq & -> & _ & Hok1 & Hlt & _).
  destruct (has _) eqn:Eh.
  - intros H. destruct (IH _ _ Hok1 Hd H) as (? & ? & ?). split_and!; auto with lia.
  - intros [= <- <- <-]. split_and!; auto with lia. intros id [= <-].
    rewrite slice_uuid in *. split; [done|apply uuid_prefix_length].
Qed.

(** An id is new with respect to any set [ids] the check [has] covers, if this
    generator produced them, and its own id joins those it produced. *)
Lemma generateEntryId_new (ids : jsstr -> Prop) has draws i st id st' j :
  uuid_ok st -> (forall i, draw_ok (draws i)) -> (forall x, ids x -> id_before st x) ->
  (forall x, has x = false -> ~ ids x) ->
  generateEntryId has draws i st = (id, st', j) ->
  default 0 (lastTimestamp st') < 2 ^ 48 ->
  ~ ids id /\ id_before st' id /\ id <> [] /\ state_key st <= state_key st'.
Proof.
  intros Hok Hd Hids Hhas. unfold generateEntryId.
  destruct (generate_short _ _ _ _ _) as [[r st1] k] eqn:E. intros Hr Hb.
  destruct (generate_short_spec _ _ _ _ _ _ _ _ Hok Hd E) as (Hok1 & Hle & Hsome).
  destruct r as [short|].
  - injection Hr as <- <- _. destruct (Hsome short eq_refl) as [Hnot Hlen].
    split_and!; [by apply Hhas|by left|by intros ->|done].
  - assert (Hr' : uuidv7 st1 (draws k) = (id, st')) by congruence.
    destruct (uuidv7_spec _ _ _ _ Hok1 (Hd k) Hr') as (ts & seq & -> & -> & [Hs Ht] & Hlt & _).
    change (state_key (mkUuidState _ _)) with (uuid_key ts seq) in *.
    assert (Hr10 : 0 <= random (draws k) 10%nat) by apply (Hd k).
    split_and!; [|right|intros Heq; pose proof (formatUuid_length ts seq (random (draws k))); by rewrite Heq in *|lia].
    + intros Hin. destruct (Hids _ Hin) as [Hlen|(ts' & seq' & rnd' & Heq & Hs' & Ht' & Hrn & Hk)].
      { by rewrite formatUuid_length in Hlen. }
      pose proof (formatUuid_lt ts' seq' rnd' ts seq (random (draws k)) Hs' Hs Ht' Hb Hrn Hr10
        ltac:(lia)) as Hstr.
      rewrite Heq, str_ltb_irrefl in Hstr. done.
    + exists ts, seq, (random (draws k)). split_and!; try done; apply Hs || apply Z.le_refl.
Qed.

(** An id from [generateEntryId] is new: it differs from every id already
    stored that this generator produced, short or full, although the full id
    of the fallback is not checked against the map. *)
Theorem generateEntryId_fresh (ids : gset jsstr) draws i st id st' j :
  uuid_ok st -> (forall i, draw_ok (draws i)) -> (forall x, x ∈ ids -> id_before st x) ->
  generateEntryId (fun x => bool_decide (x ∈ ids)) draws i st = (id, st', j) ->
  default 0 (lastTimestamp st') < 2 ^ 48 ->
  (id ∉ ids) /\ (forall x, x ∈ {[id]} ∪ ids -> id_before st' x).
Proof.
  intros Hok Hd Hids Hr Hb.
  destruct (generateEntryId_new (fun x => x ∈ ids) _ _ _ _ _ _ _ Hok Hd Hids
    (fun x => proj1 (bool_decide_eq_false _)) Hr Hb) as (Hnew & Hbef & _ & Hle).
  split; [done|]. intros x [->%elem_of_singleton|Hx]%elem_of_union; [done|].
  eapply id_before_mono; eauto.
Qed.

(** ** Short ids degenerate to full ones *)

(** A clock reading in the [w]-th window of 2^16 ms, at least 102 ms before its end. *)
Definition in_window (w t : Z) (slack : Z) : Prop := 65536 * w <= t < 65536 * w + 65536 - slack.

Lemma uuid_prefix_window w t t' s s' :
  in_window w t s -> in_window w t' s' -> 0 <= s -> 0 <= s' -> uuid_prefix t = uuid_prefix t'.
Proof.
  intros Ht Ht' Hs Hs'. unfold in_window in *.
  assert (Hdiv : t / 2 ^ 16 = t' / 2 ^ 16).
  { change (2 ^ 16) with 65536. transitivity w; [symmetry|];
      [apply (Z.div_unique t _ _ (t - 65536 * w))|apply (Z.div_unique t' _ _ (t' - 65536 * w))]; lia. }
  assert (Hb : forall k, 16 <= k -> byte_of t k = byte_of t' k).
  { intros k Hk. unfold byte_of. rewrite !Z.shiftr_div_pow2 by lia.
    replace k with (16 + (k - 16)) by lia. rewrite !Z.pow_add_r by lia.
    rewrite <- !Z.div_div by lia. by rewrite Hdiv. }
  unfold uuid_prefix. by rewrite !Hb by lia.
Qed.

Lemma uuid_step_window w st d ts seq t n :
  uuid_ok st -> draw_ok d -> 1 <= n ->
  lastTimestamp st = Some t -> in_window w t n -> in_window w (timestamp d) n ->
  uuid_step st d = (ts, seq) -> in_window w ts (n - 1).
Proof.
  intros Hok Hd Hn Hlast Ht Hdt Es.
  destruct (uuid_step_spec _ _ _ _ Hok Hd Es) as (_ & _ & _ & Hc). unfold in_window in *.
  destruct Hc as [->|(t' & Ht' & [[-> _]|(-> & _ & _)])]; [lia| |]; rewrite Hlast in Ht';
    injection Ht' as <-; lia.
Qed.

Lemma generate_short_window w has draws i st t n :
  uuid_ok st -> (forall i, draw_ok (draws i)) -> (forall i, in_window w (timestamp (draws i)) 101) ->
  lastTimestamp st = Some t -> (n <= 100)%nat -> in_window w t (1 + Z.of_nat n) -> has (uuid_prefix t) = true ->
  exists st' j, generate_short n has draws i st = (None, st', j) /\ uuid_ok st'.
Proof.
  revert i st t. induction n as [|n IH]; intros i st t Hok Hd Hw Ht Hn Hwin Hhas; [by eexists _, _|].
  cbn [generate_short]. destruct (uuidv7 st (draws i)) as [full st1] eqn:E.
  destruct (uuidv7_spec _ _ _ _ Hok (Hd i) E) as (ts & seq & -> & -> & Hok1 & _ & Es).
  assert (Hts : in_window w ts (1 + Z.of_nat n)).
  { replace (1 + Z.of_nat n) with (1 + Z.of_nat (S n) - 1) by lia.
    apply (uuid_step_window w st (draws i) ts seq t); auto; [lia|].
    specialize (Hw i). unfold in_window in *. lia. }
  assert (Hp : uuid_prefix ts = uuid_prefix t)
    by (exact (uuid_prefix_window w ts t _ _ Hts Hwin ltac:(lia) ltac:(lia))).
  rewrite <- Hp in Hhas. rewrite slice_uuid, Hhas. apply (IH _ _ ts); auto; lia.
Qed.

(** The eight characters tried first are the high bits of the timestamp, so
    once one entry of a 65.5 s window took them every later id of the window
    is a full 36-character id, after one hundred attempts that all collide. *)
Theorem generateEntryId_window_full w has draws i st t :
  uuid_ok st -> (forall i, draw_ok (draws i)) -> lastTimestamp st = Some t ->
  in_window w t 101 -> (forall i, in_window w (timestamp (draws i)) 101) ->
  has (uuid_prefix t) = true ->
  zlen (generateEntryId has draws i st).1.1 = 36.
Proof.
  intros Hok Hd Ht Hwin Hw Hhas. unfold generateEntryId.
  destruct (generate_short_window w has draws i st t 100) as (st' & j & -> & Hok'); auto. simpl.
  destruct (uuidv7 st' (draws j)) as [id st2] eqn:E.
  destruct (uuidv7_spec _ _ _ _ Hok' (Hd j) E) as (ts & seq & -> & _). apply formatUuid_length.
Qed.

(** ** Concrete runs *)

Definition sample_draw (t : Z) : draw := mkDraw (fun i => Z.of_nat i * 7 mod 256) t.

Lemma sample_draw_ok t : 0 <= t -> draw_ok (sample_draw t).
Proof. intros H. split; [|done]. intros i. apply Z.mod_pos_bound. lia. Qed.

Definition full_state : uuid_state := mkUuidState (Some 1700000000000) (2 ^ 32 - 1).

Lemma uuidv7_increasing_witness :
  str_ltb (fst (uuidv7 uuid_init (sample_draw 1700000000000)))
    (fst (uuidv7 (snd (uuidv7 uuid_init (sample_draw 1700000000000))) (sample_draw 1699999999999))) = true.
Proof.
  eapply (uuidv7_increasing uuid_init (sample_draw 1700000000000) (sample_draw 1699999999999));
    [split; done|apply sample_draw_ok; lia|apply sample_draw_ok; lia|reflexivity|reflexivity|reflexivity].
Defined.

Definition prefix_taken : gset jsstr := {[ uuid_prefix 1700000000000 ]}.

Lemma generateEntryId_fresh_witness :
  (generateEntryId (fun x => bool_decide (x ∈ prefix_taken)) (fun _ => sample_draw 1700000000000) 0 full_state).1.1
    ∉ prefix_taken.
Proof.
  refine (proj1 (generateEntryId_fresh prefix_taken (fun _ => sample_draw 1700000000000) 0 full_state _ _ _ _ _ _ _ _)).
  - split; [split|]; vm_compute; congruence.
  - intros _. apply sample_draw_ok. lia.
  - intros x ->%elem_of_singleton. by left.
  - rewrite <- !surjective_pairing. reflexivity.
  - vm_compute. reflexivity.
Defined.

Lemma generateEntryId_window_witness :
  zlen (generateEntryId (fun x => bool_decide (x ∈ prefix_taken)) (fun _ => sample_draw 1700000000000) 0 full_state).1.1 = 36.
Proof.
  apply (generateEntryId_window_full 25939941 _ _ _ _ 1700000000000).
  - split; [split|]; vm_compute; congruence.
  - intros _. apply sample_draw_ok. lia.
  - reflexivity.
  - unfold in_window. lia.
  - intros _. unfold in_window. simpl. lia.
  - vm_compute. reflexivity.
Defined.
