(* ===== verification/Messages.v ===== *)
(** Messages of an agent conversation: the content blocks and messages of
    [packages/ai/src/types/content-types.ts], the harness messages of
    [packages/agent/src/harness/messages.ts], and their conversion to the
    messages a provider sees. *)
From Stdlib Require Import QArith_base.
From S2P Require Import Prelude JsString Json.
#[local] Open Scope Z_scope.

(** ** Content *)

(** [TextContent | ImageContent]. *)
Inductive content_block :=
  | CText (text : jsstr) (textSignature : option jsstr)
  | CImage (data mimeType : jsstr).

(** [string | (TextContent | ImageContent)[]]. *)
Inductive rich_content :=
  | RString (s : jsstr)
  | RBlocks (l : list content_block).

Record ToolCall := mkToolCall {
  tc_id : jsstr;
  tc_name : jsstr;
  tc_arguments : json;
  tc_thoughtSignature : option jsstr;
}.

(** [TextContent | ThinkingContent | ToolCall]. *)
Inductive assistant_block :=
  | AText (text : jsstr) (textSignature : option jsstr)
  | AThinking (thinking : jsstr) (thinkingSignature : option jsstr) (redacted : option bool)
  | AToolCall (call : ToolCall).

(** ** Usage *)

(** Dollar amounts are rationals; token counts are integers. *)
Record Cost := mkCost {
  cost_input : Q; cost_output : Q; cost_cacheRead : Q; cost_cacheWrite : Q; cost_total : Q;
}.

Record Usage := mkUsage {
  u_input : Z; u_output : Z; u_cacheRead : Z; u_cacheWrite : Z; u_cacheWrite1h : option Z;
  u_totalTokens : Z; u_cost : Cost;
}.

Definition EMPTY_USAGE : Usage := mkUsage 0 0 0 0 None 0 (mkCost 0 0 0 0 0).

Inductive StopReason := StopStop | StopLength | StopToolUse | StopError | StopAborted.

#[export] Instance StopReason_eq_dec : EqDecision StopReason.
Proof. solve_decision. Defined.

(** ** Messages *)

#[export] Instance content_block_eq_dec : EqDecision content_block.
Proof. solve_decision. Defined.
#[export] Instance ToolCall_eq_dec : EqDecision ToolCall.
Proof. solve_decision. Defined.
#[export] Instance assistant_block_eq_dec : EqDecision assistant_block.
Proof. solve_decision. Defined.
#[export] Instance Q_eq_dec : EqDecision Q.
Proof. intros [a b] [c d]. refine (cast_if_and (decide (a = c)) (decide (b = d))); congruence. Defined.
#[export] Instance Cost_eq_dec : EqDecision Cost.
Proof. solve_decision. Defined.
#[export] Instance Usage_eq_dec : EqDecision Usage.
Proof. solve_decision. Defined.

Record UserMessage := mkUser {
  um_content : rich_content;
  um_metadata : option (list (jsstr * json));
  um_timestamp : Z;
}.

Record AssistantMessage := mkAssistant {
  am_content : list assistant_block;
  am_api : jsstr;
  am_provider : jsstr;
  am_model : jsstr;
  am_responseModel : option jsstr;
  am_responseId : option jsstr;
  am_diagnostics : option (list json);
  am_usage : Usage;
  am_stopReason : StopReason;
  am_errorMessage : option jsstr;
  am_timestamp : Z;
}.

Record ToolResultMessage := mkToolResult {
  tr_toolCallId : jsstr;
  tr_toolName : jsstr;
  tr_content : list content_block;
  tr_details : option json;
  tr_isError : bool;
  tr_timestamp : Z;
}.

Record BashExecutionMessage := mkBash {
  be_command : jsstr;
  be_output : jsstr;
  be_exitCode : option Z;
  be_cancelled : bool;
  be_truncated : bool;
  be_fullOutputPath : option jsstr;
  be_timestamp : Z;
  be_excludeFromContext : option bool;
}.

Record CustomMessage := mkCustom {
  cm_customType : jsstr;
  cm_content : rich_content;
  cm_display : bool;
  cm_details : option json;
  cm_timestamp : Z;
}.

Record BranchSummaryMessage := mkBranchSummary {
  bs_summary : jsstr; bs_fromId : jsstr; bs_timestamp : Z;
}.

Record CompactionSummaryMessage := mkCompactionSummary {
  cs_summary : jsstr; cs_tokensBefore : Z; cs_tokensAfter : option Z; cs_timestamp : Z;
}.

#[export] Instance AssistantMessage_eq_dec : EqDecision AssistantMessage.
Proof. solve_decision. Defined.
#[export] Instance ToolResultMessage_eq_dec : EqDecision ToolResultMessage.
Proof. solve_decision. Defined.

(** [AgentMessage]: provider messages and the harness extensions. *)
Inductive AgentMessage :=
  | MUser (m : UserMessage)
  | MAssistant (m : AssistantMessage)
  | MToolResult (m : ToolResultMessage)
  | MBash (m : BashExecutionMessage)
  | MCustom (m : CustomMessage)
  | MBranchSummary (m : BranchSummaryMessage)
  | MCompactionSummary (m : CompactionSummaryMessage).

(** [Message], what a provider accepts. *)
Inductive Message :=
  | LUser (m : UserMessage)
  | LAssistant (m : AssistantMessage)
  | LToolResult (m : ToolResultMessage).

Inductive role := RoleUser | RoleAssistant | RoleToolResult | RoleBash | RoleCustom | RoleBranchSummary | RoleCompactionSummary.

#[export] Instance role_eq_dec : EqDecision role.
Proof. solve_decision. Defined.

Definition role_of (m : AgentMessage) : role :=
  match m with
  | MUser _ => RoleUser | MAssistant _ => RoleAssistant | MToolResult _ => RoleToolResult
  | MBash _ => RoleBash | MCustom _ => RoleCustom | MBranchSummary _ => RoleBranchSummary
  | MCompactionSummary _ => RoleCompactionSummary
  end.

(** [message.content.filter((c) => c.type === "toolCall")]. *)
Definition tool_calls (m : AssistantMessage) : list ToolCall :=
  flat_map (fun b => match b with AToolCall c => [c] | _ => [] end) (am_content m).

(** The fields of [Model] the runtime reads; the provider adapters own the rest. *)
Record Model := mkModel {
  md_id : jsstr;
  md_name : jsstr;
  md_api : jsstr;
  md_provider : jsstr;
  md_baseUrl : jsstr;
  md_reasoning : bool;
  md_contextWindow : Z;
  md_maxTokens : Z;
}.

(** The text of the text blocks of a response. *)
Definition text_parts (m : AssistantMessage) : list jsstr :=
  flat_map (fun b => match b with AText t _ => [t] | _ => [] end) (am_content m).

(** ** [harness/messages.ts] *)

Definition COMPACTION_SUMMARY_PREFIX : jsstr :=
  js "The conversation history before this point was compacted into the following summary:" ++ nl ++ nl
  ++ js "<summary>" ++ nl.
Definition COMPACTION_SUMMARY_SUFFIX : jsstr := nl ++ js "</summary>".
Definition BRANCH_SUMMARY_PREFIX : jsstr :=
  js "The following is a summary of a branch that this conversation came back from:" ++ nl ++ nl
  ++ js "<summary>" ++ nl.
Definition BRANCH_SUMMARY_SUFFIX : jsstr := js "</summary>".

Definition bashExecutionToText (msg : BashExecutionMessage) : jsstr :=
  js "Ran `" ++ be_command msg ++ js "`" ++ nl
  ++ (if is_empty (be_output msg) then js "(no output)"
      else js "```" ++ nl ++ be_output msg ++ nl ++ js "```")
  ++ (if be_cancelled msg then nl ++ nl ++ js "(command cancelled)"
      else match be_exitCode msg with
           | Some code => if code =? 0 then [] else nl ++ nl ++ js "Command exited with code " ++ show code
           | None => []
           end)
  ++ (match be_truncated msg, be_fullOutputPath msg with
      | true, Some path =>
          if is_empty path then [] else nl ++ nl ++ js "[Output truncated. Full output: " ++ path ++ js "]"
      | _, _ => []
      end).

(** [new Date(timestamp).getTime()] of an ISO timestamp is a parameter: it is
    the date parser of the runtime. *)
Section Creators.
Context (get_time : jsstr -> Z).

Definition createBranchSummaryMessage (summary fromId timestamp : jsstr) : BranchSummaryMessage :=
  mkBranchSummary summary fromId (get_time timestamp).

Definition createCompactionSummaryMessage (summary : jsstr) (tokensBefore : Z) (timestamp : jsstr)
    : CompactionSummaryMessage :=
  mkCompactionSummary summary tokensBefore None (get_time timestamp).

Definition createCustomMessage (customType : jsstr) (content : rich_content) (display : bool)
    (details : option json) (timestamp : jsstr) : CustomMessage :=
  mkCustom customType content display details (get_time timestamp).
End Creators.

Definition text_message (text : jsstr) (timestamp : Z) : Message :=
  LUser (mkUser (RBlocks [CText text None]) None timestamp).

(** The function [convertToLlm] maps over the messages. *)
Definition convert_message (m : AgentMessage) : option Message :=
  match m with
  | MBash b =>
      if default false (be_excludeFromContext b) then None
      else Some (text_message (bashExecutionToText b) (be_timestamp b))
  | MCustom c =>
      let blocks := match cm_content c with RString s => [CText s None] | RBlocks l => l end in
      Some (LUser (mkUser (RBlocks blocks) None (cm_timestamp c)))
  | MBranchSummary b =>
      Some (text_message (BRANCH_SUMMARY_PREFIX ++ bs_summary b ++ BRANCH_SUMMARY_SUFFIX) (bs_timestamp b))
  | MCompactionSummary c =>
      Some (text_message (COMPACTION_SUMMARY_PREFIX ++ cs_summary c ++ COMPACTION_SUMMARY_SUFFIX) (cs_timestamp c))
  | MUser u => Some (LUser u)
  | MAssistant a => Some (LAssistant a)
  | MToolResult t => Some (LToolResult t)
  end.

Definition convertToLlm (messages : list AgentMessage) : list Message := omap convert_message messages.

(** ** Facts *)

Lemma convertToLlm_app a b : convertToLlm (a ++ b) = convertToLlm a ++ convertToLlm b.
Proof. apply omap_app. Qed.

(** Conversion drops nothing but shell output the user excluded. *)
Lemma convert_message_None m :
  convert_message m = None <-> exists b, m = MBash b /\ be_excludeFromContext b = Some true.
Proof.
  split.
  - destruct m as [| | |b| | |]; try done. simpl. destruct (default false _) eqn:E; [|done].
    intros _. exists b. split; [done|]. by destruct (be_excludeFromContext b) as [[]|].
  - intros (b & -> & H). simpl. by rewrite H.
Qed.
