(* ===== verification/SessionTree.v ===== *)
(** The session tree of the harness: entries ([harness/types.ts]), the storage
    interface and its in-memory implementation ([session/memory-storage.ts]),
    the [Session] operations and [buildSessionContext] ([session/session.ts]),
    and forking ([session/repo-utils.ts]). *)
From S2P Require Import Prelude JsString Json Effects Uuid Messages.
#[local] Open Scope eff.

(** ** Entries *)

Inductive entry_body :=
  | EMessage (message : AgentMessage)
  | EThinkingLevelChange (thinkingLevel : jsstr)
  | EModelChange (provider modelId : jsstr)
  | EActiveToolsChange (activeToolNames : list jsstr)
  | ECompaction (summary firstKeptEntryId : jsstr) (tokensBefore : Z) (details : option json) (fromHook : option bool)
  | EBranchSummary (fromId summary : jsstr) (details : option json) (fromHook : option bool)
  | ECustom (customType : jsstr) (data : option json)
  | ECustomMessage (customType : jsstr) (content : rich_content) (details : option json) (display : bool)
  | ELabel (targetId : jsstr) (label : option jsstr)
  | ESessionInfo (name : option jsstr)
  | ELeaf (targetId : option jsstr).

Record SessionTreeEntry := mkEntry {
  e_id : jsstr;
  e_parentId : option jsstr;
  e_timestamp : jsstr;
  e_body : entry_body;
}.

Inductive SessionErrorCode := not_found | invalid_session | invalid_entry | invalid_fork_target | storage_error | unknown_error.
Record SessionError := mkSessionError { se_code : SessionErrorCode; se_message : jsstr }.

Definition entry_not_found (code : SessionErrorCode) (id : jsstr) : SessionError :=
  mkSessionError code (js "Entry " ++ id ++ js " not found").

Definition is_compaction (e : SessionTreeEntry) : bool :=
  match e_body e with ECompaction _ _ _ _ _ => true | _ => false end.

(** ** [buildSessionContext] *)

Record SessionContext := mkSessionContext {
  sc_messages : list AgentMessage;
  sc_thinkingLevel : jsstr;
  sc_model : option (jsstr * jsstr);
  sc_activeToolNames : option (list jsstr);
}.

Section Context.
Context (get_time : jsstr -> Z).

(** The variables of the first loop. *)
Record context_scan := mkScan {
  scan_thinking : jsstr;
  scan_model : option (jsstr * jsstr);
  scan_tools : option (list jsstr);
  scan_compaction : option SessionTreeEntry;
}.

Definition scan_entry (s : context_scan) (e : SessionTreeEntry) : context_scan :=
  match e_body e with
  | EThinkingLevelChange l => mkScan l (scan_model s) (scan_tools s) (scan_compaction s)
  | EModelChange p m => mkScan (scan_thinking s) (Some (p, m)) (scan_tools s) (scan_compaction s)
  | EMessage (MAssistant a) => mkScan (scan_thinking s) (Some (am_provider a, am_model a)) (scan_tools s) (scan_compaction s)
  | EActiveToolsChange t => mkScan (scan_thinking s) (scan_model s) (Some t) (scan_compaction s)
  | ECompaction _ _ _ _ _ => mkScan (scan_thinking s) (scan_model s) (scan_tools s) (Some e)
  | _ => s
  end.

(** [appendMessage] of [buildSessionContext]: what one entry adds. *)
Definition entry_messages (e : SessionTreeEntry) : list AgentMessage :=
  match e_body e with
  | EMessage m => [m]
  | ECustomMessage ct c d disp => [MCustom (createCustomMessage get_time ct c disp d (e_timestamp e))]
  | EBranchSummary fromId summary _ _ =>
      if is_empty summary then []
      else [MBranchSummary (createBranchSummaryMessage get_time summary fromId (e_timestamp e))]
  | _ => []
  end.

(** The loop over the entries before the compaction: [foundFirstKept] starts
    false and stays true from the first entry with the given id. *)
Fixpoint kept_messages (firstKept : jsstr) (found : bool) (l : list SessionTreeEntry) : list AgentMessage :=
  match l with
  | [] => []
  | e :: l' =>
      let found' := found || bool_decide (e_id e = firstKept) in
      (if found' then entry_messages e else []) ++ kept_messages firstKept found' l'
  end.

Definition buildSessionContext (path : list SessionTreeEntry) : SessionContext :=
  let s := fold_left scan_entry path (mkScan (js "off") None None None) in
  let messages :=
    match scan_compaction s with
    | Some c =>
        match e_body c with
        | ECompaction summary firstKept tokensBefore _ _ =>
            MCompactionSummary (createCompactionSummaryMessage get_time summary tokensBefore (e_timestamp c))
            :: match find_index (fun e => is_compaction e && bool_decide (e_id e = e_id c)) path with
               | Some i => kept_messages firstKept false (take i path) ++ flat_map entry_messages (drop (S i) path)
               | None => flat_map entry_messages path
               end
        | _ => flat_map entry_messages path
        end
    | None => flat_map entry_messages path
    end in
  mkSessionContext messages (scan_thinking s) (scan_model s) (scan_tools s).
End Context.

(** ** The storage interface *)

(** The id generator: its state and the environment it draws from. *)
Record idgen := mkIdgen { ig_state : uuid_state; ig_draws : nat -> draw; ig_pos : nat }.

Record world (S : Type) := mkWorld { w_storage : S; w_ids : idgen }.
Arguments mkWorld {S}. Arguments w_storage {S}. Arguments w_ids {S}.

Class SessionStorage (S : Type) := {
  getLeafId : M (world S) SessionError (option jsstr);
  setLeafId : jsstr -> option jsstr -> M (world S) SessionError unit;
  createEntryId : M (world S) SessionError jsstr;
  appendEntry : SessionTreeEntry -> M (world S) SessionError unit;
  getEntry : jsstr -> M (world S) SessionError (option SessionTreeEntry);
  findEntries : (entry_body -> bool) -> M (world S) SessionError (list SessionTreeEntry);
  getLabel : jsstr -> M (world S) SessionError (option jsstr);
  getPathToRoot : option jsstr -> M (world S) SessionError (list SessionTreeEntry);
  getEntries : M (world S) SessionError (list SessionTreeEntry);
}.

(** ** [InMemorySessionStorage] *)

Record InMemorySessionStorage := mkStorage {
  entries : list SessionTreeEntry;
  byId : gmap jsstr SessionTreeEntry;
  labelsById : gmap jsstr jsstr;
  leafId : option jsstr;
}.

Definition updateLabelCache (labels : gmap jsstr jsstr) (e : SessionTreeEntry) : gmap jsstr jsstr :=
  match e_body e with
  | ELabel target label =>
      match trim <$> label with
      | Some (c :: s) => <[target := c :: s]> labels
      | _ => delete target labels
      end
  | _ => labels
  end.

Definition buildLabelsById (es : list SessionTreeEntry) : gmap jsstr jsstr :=
  fold_left updateLabelCache es ∅.

Definition leafIdAfterEntry (e : SessionTreeEntry) : option jsstr :=
  match e_body e with ELeaf target => target | _ => Some (e_id e) end.

(** [new Map(entries.map((entry) => [entry.id, entry]))]. *)
Definition index_entries (es : list SessionTreeEntry) : gmap jsstr SessionTreeEntry :=
  fold_left (fun m e => <[e_id e := e]> m) es ∅.

Definition last_leaf (es : list SessionTreeEntry) : option jsstr :=
  fold_left (fun _ e => leafIdAfterEntry e) es None.

(** The constructor. *)
Definition new_InMemorySessionStorage (es : list SessionTreeEntry) : result SessionError InMemorySessionStorage :=
  let ids := index_entries es in
  match last_leaf es with
  | Some id =>
      match ids !! id with
      | Some _ => Ok (mkStorage es ids (buildLabelsById es) (Some id))
      | None => Throw (entry_not_found invalid_session id)
      end
  | None => Ok (mkStorage es ids (buildLabelsById es) None)
  end.

Definition mem_getLeafId : M (world InMemorySessionStorage) SessionError (option jsstr) := fun w =>
  let s := w_storage w in
  match leafId s with
  | Some id => match byId s !! id with
               | Some _ => (Ok (Some id), w)
               | None => (Throw (entry_not_found invalid_session id), w)
               end
  | None => (Ok None, w)
  end.

Definition mem_createEntryId : M (world InMemorySessionStorage) SessionError jsstr := fun w =>
  let g := w_ids w in
  let has id := match byId (w_storage w) !! id with Some _ => true | None => false end in
  let '(id, st, pos) := generateEntryId has (ig_draws g) (ig_pos g) (ig_state g) in
  (Ok id, mkWorld (w_storage w) (mkIdgen st (ig_draws g) pos)).

Definition mem_setLeafId (now : jsstr) (target : option jsstr) : M (world InMemorySessionStorage) SessionError unit :=
  let* w := get in
  do* match target with
      | Some id =>
          match byId (w_storage w) !! id with
          | None => throw (entry_not_found not_found id)
          | Some _ => ret tt
          end
      | None => ret tt
      end in
  let* id := mem_createEntryId in
  modify (fun w =>
    let s := w_storage w in
    let e := mkEntry id (leafId s) now (ELeaf target) in
    mkWorld (mkStorage (entries s ++ [e]) (<[id := e]> (byId s)) (labelsById s) target) (w_ids w)).

(** The effect of [appendEntry] on the storage. *)
Definition append_storage (s : InMemorySessionStorage) (e : SessionTreeEntry) : InMemorySessionStorage :=
  mkStorage (entries s ++ [e]) (<[e_id e := e]> (byId s)) (updateLabelCache (labelsById s) e) (leafIdAfterEntry e).

Definition mem_appendEntry (e : SessionTreeEntry) : M (world InMemorySessionStorage) SessionError unit :=
  modify (fun w => mkWorld (append_storage (w_storage w) e) (w_ids w)).

Definition mem_getEntry (id : jsstr) : M (world InMemorySessionStorage) SessionError (option SessionTreeEntry) :=
  fun w => (Ok (byId (w_storage w) !! id), w).

Definition mem_findEntries (p : entry_body -> bool) : M (world InMemorySessionStorage) SessionError (list SessionTreeEntry) :=
  fun w => (Ok (List.filter (fun e => p (e_body e)) (entries (w_storage w))), w).

Definition mem_getLabel (id : jsstr) : M (world InMemorySessionStorage) SessionError (option jsstr) :=
  fun w => (Ok (labelsById (w_storage w) !! id), w).

(** [!current.parentId]: no parent, or the empty string. *)
Definition parent_of (e : SessionTreeEntry) : option jsstr :=
  match e_parentId e with Some [] => None | p => p end.

(** The [while] loop of [getPathToRoot]; [None] when [fuel] iterations do not
    end it. *)
Fixpoint path_loop (fuel : nat) (m : gmap jsstr SessionTreeEntry) (current : SessionTreeEntry)
    (path : list SessionTreeEntry) : option (result SessionError (list SessionTreeEntry)) :=
  match fuel with
  | O => None
  | S fuel' =>
      let path' := current :: path in
      match parent_of current with
      | None => Some (Ok path')
      | Some p =>
          match m !! p with
          | None => Some (Throw (entry_not_found invalid_session p))
          | Some parent => path_loop fuel' m parent path'
          end
      end
  end.

(** A walk longer than the number of entries never ends (a parent cycle); the
    theorems show that no reachable storage has one. *)
Definition endless_walk : SessionError := mkSessionError unknown_error (js "parent cycle").

Definition walk_to_root (m : gmap jsstr SessionTreeEntry) (leaf : option jsstr) : result SessionError (list SessionTreeEntry) :=
  match leaf with
  | None => Ok []
  | Some id =>
      match m !! id with
      | None => Throw (entry_not_found not_found id)
      | Some current => default (Throw endless_walk) (path_loop (size m) m current [])
      end
  end.

Definition mem_getPathToRoot (leaf : option jsstr) : M (world InMemorySessionStorage) SessionError (list SessionTreeEntry) :=
  fun w => (walk_to_root (byId (w_storage w)) leaf, w).

Definition mem_getEntries : M (world InMemorySessionStorage) SessionError (list SessionTreeEntry) :=
  fun w => (Ok (entries (w_storage w)), w).

#[export] Instance InMemory_SessionStorage : SessionStorage InMemorySessionStorage := {|
  getLeafId := mem_getLeafId;
  setLeafId := mem_setLeafId;
  createEntryId := mem_createEntryId;
  appendEntry := mem_appendEntry;
  getEntry := mem_getEntry;
  findEntries := mem_findEntries;
  getLabel := mem_getLabel;
  getPathToRoot := mem_getPathToRoot;
  getEntries := mem_getEntries;
|}.

(** ** [Session] over any storage *)

Section Session.
Context {S : Type} `{SessionStorage S}.
(** [new Date().toISOString()] at the call. *)
Context (get_time : jsstr -> Z).

Definition getBranch (fromId : option jsstr) : M (world S) SessionError (list SessionTreeEntry) :=
  let* leaf := match fromId with Some id => ret (Some id) | None => getLeafId end in
  getPathToRoot leaf.

Definition buildContext : M (world S) SessionError SessionContext :=
  let* path := getBranch None in ret (buildSessionContext get_time path).

Definition getSessionName : M (world S) SessionError (option jsstr) :=
  let* infos := findEntries (fun b => match b with ESessionInfo _ => true | _ => false end) in
  ret (match last infos with
       | Some e => match e_body e with
                   | ESessionInfo (Some n) => if is_empty (trim n) then None else Some (trim n)
                   | _ => None
                   end
       | None => None
       end).

(** [appendTypedEntry] of an entry built from a fresh id and the current leaf. *)
Definition append_body (now : jsstr) (body : entry_body) : M (world S) SessionError jsstr :=
  let* id := createEntryId in
  let* parent := getLeafId in
  do* appendEntry (mkEntry id parent now body) in
  ret id.

Definition appendMessage (now : jsstr) (m : AgentMessage) := append_body now (EMessage m).
Definition appendThinkingLevelChange (now level : jsstr) := append_body now (EThinkingLevelChange level).
Definition appendModelChange (now provider modelId : jsstr) := append_body now (EModelChange provider modelId).
Definition appendActiveToolsChange (now : jsstr) (names : list jsstr) := append_body now (EActiveToolsChange names).
Definition appendCompaction (now summary firstKept : jsstr) (tokensBefore : Z) (details : option json) (fromHook : option bool) :=
  append_body now (ECompaction summary firstKept tokensBefore details fromHook).
Definition appendCustomEntry (now customType : jsstr) (data : option json) := append_body now (ECustom customType data).
Definition appendCustomMessageEntry (now customType : jsstr) (content : rich_content) (display : bool) (details : option json) :=
  append_body now (ECustomMessage customType content details display).
Definition appendSessionName (now name : jsstr) := append_body now (ESessionInfo (Some (trim name))).

Definition appendLabel (now targetId : jsstr) (label : option jsstr) : M (world S) SessionError jsstr :=
  let* target := getEntry targetId in
  match target with
  | None => throw (entry_not_found not_found targetId)
  | Some _ => append_body now (ELabel targetId label)
  end.

Record branch_summary_input := mkSummaryInput {
  bi_summary : jsstr; bi_details : option json; bi_fromHook : option bool;
}.

Definition moveTo (now : jsstr) (entryId : option jsstr) (summary : option branch_summary_input)
    : M (world S) SessionError (option jsstr) :=
  do* match entryId with
      | None => ret tt
      | Some id =>
          let* target := getEntry id in
          match target with None => throw (entry_not_found not_found id) | Some _ => ret tt end
      end in
  do* setLeafId now entryId in
  match summary with
  | None => ret None
  | Some b =>
      let* id := createEntryId in
      do* appendEntry (mkEntry id entryId now
            (EBranchSummary (default (js "root") entryId) (bi_summary b) (bi_details b) (bi_fromHook b))) in
      ret (Some id)
  end.

(** [getEntriesToFork]; [at_target] is [options.position === "at"]. *)
Definition getEntriesToFork (entryId : option jsstr) (at_target : bool) : M (world S) SessionError (list SessionTreeEntry) :=
  match entryId with
  | None | Some [] => getEntries
  | Some id =>
      let* target := getEntry id in
      match target with
      | None => throw (entry_not_found invalid_fork_target id)
      | Some t =>
          if at_target then getPathToRoot (Some (e_id t))
          else match e_body t with
               | EMessage (MUser _) => getPathToRoot (e_parentId t)
               | _ => throw (mkSessionError invalid_fork_target (js "Entry " ++ id ++ js " is not a user message"))
               end
      end
  end.
End Session.
