(* ===== verification/SessionLaws.v ===== *)
(** What a session storage promises and what [Session] guarantees on top of it:
    the laws of [SessionStorage] as a class, proved for the in-memory storage,
    and the theorems about branches, moves and contexts proved from the laws. *)
From S2P Require Import Prelude JsString Json Effects Uuid Messages SessionTree.
#[local] Open Scope eff.

(** ** Well-formed logs *)

Definition entry_ids (es : list SessionTreeEntry) : list jsstr := map e_id es.

(** An entry may follow the log [es]: new id, known parent, known target. *)
Record entry_ok (es : list SessionTreeEntry) (e : SessionTreeEntry) : Prop := {
  ok_id : e_id e ∉ entry_ids es;
  ok_id_nonempty : e_id e <> [];
  ok_parent : forall p, parent_of e = Some p -> p ∈ entry_ids es;
  ok_target : forall t, e_body e = ELeaf (Some t) -> t ∈ entry_ids es;
}.

Inductive wf_log : list SessionTreeEntry -> Prop :=
  | wf_nil : wf_log []
  | wf_snoc es e : wf_log es -> entry_ok es e -> wf_log (es ++ [e]).

Lemma index_snoc es e : index_entries (es ++ [e]) = <[e_id e := e]> (index_entries es).
Proof. unfold index_entries. by rewrite fold_left_app. Qed.

Lemma last_leaf_snoc es e : last_leaf (es ++ [e]) = leafIdAfterEntry e.
Proof. unfold last_leaf. by rewrite fold_left_app. Qed.

Lemma labels_snoc es e : buildLabelsById (es ++ [e]) = updateLabelCache (buildLabelsById es) e.
Proof. unfold buildLabelsById. by rewrite fold_left_app. Qed.

Lemma entry_ids_snoc es e : entry_ids (es ++ [e]) = entry_ids es ++ [e_id e].
Proof. unfold entry_ids. by rewrite map_app. Qed.

#[global] Hint Rewrite index_snoc last_leaf_snoc labels_snoc entry_ids_snoc : agent_rw.

Lemma index_dom es id : is_Some (index_entries es !! id) <-> id ∈ entry_ids es.
Proof.
  induction es as [|e es IH] using rev_ind; [unfold index_entries; simpl; rewrite lookup_empty; split; [by intros []|intros H; inversion H]|].
  rewrite index_snoc, entry_ids_snoc, elem_of_app, list_elem_of_singleton.
  destruct (decide (e_id e = id)) as [<-|Hne].
  - rewrite lookup_insert_eq. naive_solver.
  - rewrite lookup_insert_ne, IH by done. naive_solver.
Qed.

Lemma index_None es id : id ∉ entry_ids es -> index_entries es !! id = None.
Proof. rewrite <- index_dom. intros H. by destruct (index_entries es !! id); [destruct H|]. Qed.

Lemma wf_index_id es id e : wf_log es -> index_entries es !! id = Some e -> e_id e = id /\ e ∈ es.
Proof.
  induction 1 as [|es e' Hwf IH He]; [by intros ?|]. rewrite index_snoc.
  destruct (decide (e_id e' = id)) as [<-|Hne].
  - rewrite lookup_insert_eq. intros [= <-]. split; [done|set_solver].
  - rewrite lookup_insert_ne by done. intros [? ?]%IH. split; [done|set_solver].
Qed.

Lemma wf_index_mono es e : entry_ok es e -> index_entries es ⊆ index_entries (es ++ [e]).
Proof. intros He. rewrite index_snoc. apply insert_subseteq. apply index_None, He. Qed.

Lemma wf_size es : wf_log es -> size (index_entries es) = length es.
Proof.
  induction 1 as [|es e Hwf IH He]; [done|]. rewrite index_snoc, length_app, map_size_insert_None.
  - simpl. lia.
  - apply index_None, He.
Qed.

(** The leaf of a well-formed log is one of its entries. *)
Lemma wf_last_leaf es id : wf_log es -> last_leaf es = Some id -> id ∈ entry_ids es.
Proof.
  intros Hwf. destruct Hwf as [|es e Hwf He]; [done|]. rewrite last_leaf_snoc, entry_ids_snoc.
  unfold leafIdAfterEntry. intros H. destruct (e_body e) as [| | | | | | | | | |t] eqn:E;
    try (injection H as <-; set_solver).
  subst t. pose proof (ok_target _ _ He id E). set_solver.
Qed.

Lemma wf_id_nonempty es id : wf_log es -> id ∈ entry_ids es -> id <> [].
Proof.
  induction 1 as [|es e Hwf IH He]; [set_solver|]. rewrite entry_ids_snoc, elem_of_app, list_elem_of_singleton.
  intros [Hin| ->]; [auto|apply He].
Qed.

(** ** Paths to the root *)

Inductive path_of (m : gmap jsstr SessionTreeEntry) : SessionTreeEntry -> list SessionTreeEntry -> Prop :=
  | path_root e : parent_of e = None -> path_of m e [e]
  | path_step e p e' l : parent_of e = Some p -> m !! p = Some e' -> path_of m e' l -> path_of m e (l ++ [e]).

Lemma path_of_mono m m' e l : m ⊆ m' -> path_of m e l -> path_of m' e l.
Proof.
  intros Hm. induction 1; [by constructor|]. econstructor; eauto. by eapply lookup_weaken.
Qed.

Lemma path_loop_path m e l fuel acc :
  path_of m e l -> (length l <= fuel)%nat -> path_loop fuel m e acc = Some (Ok (l ++ acc)).
Proof.
  intros Hp. revert fuel acc. induction Hp as [e Hpar|e p e' l Hpar Hm Hp IH]; intros fuel acc Hf.
  - destruct fuel; [simpl in Hf; lia|]. simpl. by rewrite Hpar.
  - rewrite length_app in Hf. simpl in Hf. destruct fuel; [lia|]. simpl. rewrite Hpar, Hm, IH by lia.
    by rewrite <- app_assoc.
Qed.

(** A path visits entries of the log, each id once. *)
Definition path_in (es l : list SessionTreeEntry) : Prop :=
  NoDup (entry_ids l) /\ forall x, x ∈ l -> x ∈ es.

Lemma wf_path_in es e : wf_log es -> e ∈ es ->
  exists l, path_of (index_entries es) e l /\ (length l <= length es)%nat /\ path_in es l.
Proof.
  intros Hwf. revert e. induction Hwf as [|es x Hwf IH Hx]; intros e He; [set_solver|].
  rewrite length_app. simpl. pose proof (wf_index_mono es x Hx) as Hm.
  apply elem_of_app in He as [He|He%list_elem_of_singleton].
  - destruct (IH e He) as (l & Hl & Hlen & Hnd & Hsub). exists l.
    split_and!; [by eapply path_of_mono|lia|]. split; [done|set_solver].
  - subst x. destruct (parent_of e) as [p|] eqn:Hp.
    2:{ exists [e]. split_and!; [by constructor|simpl; lia|]. split; [apply NoDup_singleton|set_solver]. }
    pose proof (ok_parent _ _ Hx p Hp) as [e' He']%index_dom.
    destruct (wf_index_id es p e' Hwf He') as [_ Hin].
    destruct (IH e' Hin) as (l & Hl & Hlen & Hnd & Hsub). exists (l ++ [e]). split_and!.
    + eapply path_step; [done|by eapply lookup_weaken|by eapply path_of_mono].
    + rewrite length_app. simpl. lia.
    + split; [|set_solver]. rewrite entry_ids_snoc. apply NoDup_app. split_and!; [done| |apply NoDup_singleton].
      intros id Hid ->%list_elem_of_singleton. apply (ok_id _ _ Hx).
      apply list_elem_of_fmap in Hid as (y & Hy & Hyl). apply list_elem_of_fmap. exists y. auto.
Qed.

Lemma wf_path es e : wf_log es -> e ∈ es -> exists l, path_of (index_entries es) e l /\ (length l <= length es)%nat.
Proof. intros Hwf He. destruct (wf_path_in es e Hwf He) as (l & H1 & H2 & _). by exists l. Qed.

Lemma walk_path es id e l :
  wf_log es -> index_entries es !! id = Some e -> path_of (index_entries es) e l ->
  (length l <= length es)%nat -> walk_to_root (index_entries es) (Some id) = Ok l.
Proof.
  intros Hwf He Hl Hlen. unfold walk_to_root. rewrite He.
  rewrite (path_loop_path _ _ l) by (done || rewrite wf_size by done; done).
  simpl. by rewrite app_nil_r.
Qed.

(** The walk visits entries of the log, each id once, and is the path. *)
Lemma walk_sound es leaf l :
  wf_log es -> walk_to_root (index_entries es) leaf = Ok l ->
  path_in es l /\ match leaf with
                  | None => l = []
                  | Some id => exists e, index_entries es !! id = Some e /\ path_of (index_entries es) e l
                  end.
Proof.
  intros Hwf. destruct leaf as [id|].
  - intros Hw. assert (Hw' := Hw). unfold walk_to_root in Hw.
    destruct (index_entries es !! id) as [e|] eqn:He; [|done]. clear Hw.
    destruct (wf_index_id es id e Hwf He) as [_ Hin].
    destruct (wf_path_in es e Hwf Hin) as (l' & Hl & Hlen & Hp).
    rewrite (walk_path es id e l') in Hw' by done. injection Hw' as <-. eauto.
  - intros [= <-]. split; [|done]. split; [constructor|set_solver].
Qed.

(** From any entry of a well-formed log, and from its leaf, the walk ends. *)
Lemma walk_total es leaf :
  wf_log es -> (forall id, leaf = Some id -> id ∈ entry_ids es) ->
  exists l, walk_to_root (index_entries es) leaf = Ok l.
Proof.
  intros Hwf Hin. destruct leaf as [id|]; [|by exists []].
  destruct (proj2 (index_dom es id) (Hin id eq_refl)) as [e He].
  destruct (wf_index_id es id e Hwf He) as [_ Hin'].
  destruct (wf_path es e Hwf Hin') as (l & Hl & Hlen). exists l. by eapply walk_path.
Qed.

(** Appending below the leaf extends the branch by the new entry. *)
Lemma walk_append es e leaf l :
  wf_log es -> entry_ok es e -> (forall id, leaf = Some id -> id ∈ entry_ids es) ->
  e_parentId e = leaf -> walk_to_root (index_entries es) leaf = Ok l ->
  walk_to_root (index_entries (es ++ [e])) (Some (e_id e)) = Ok (l ++ [e]).
Proof.
  intros Hwf He Hin Hpar Hl.
  assert (Hidx : index_entries (es ++ [e]) !! e_id e = Some e) by (rewrite index_snoc; apply lookup_insert_eq).
  assert (Hwf' : wf_log (es ++ [e])) by by constructor.
  destruct leaf as [id|].
  - assert (Hid : id <> []) by exact (wf_id_nonempty es id Hwf (Hin id eq_refl)).
    assert (Hp : parent_of e = Some id) by (unfold parent_of; rewrite Hpar; by destruct id).
    destruct (proj2 (index_dom es id) (Hin id eq_refl)) as [e' He'].
    destruct (wf_index_id es id e' Hwf He') as [_ Hin'].
    destruct (wf_path es e' Hwf Hin') as (l' & Hl' & Hlen).
    rewrite (walk_path es id e' l') in Hl by done. injection Hl as <-.
    eapply walk_path; [done|exact Hidx| |rewrite !length_app; simpl; lia].
    pose proof (wf_index_mono es e He) as Hm.
    eapply path_step; [done|by eapply lookup_weaken|by eapply path_of_mono].
  - injection Hl as <-. simpl app. eapply walk_path; [done|exact Hidx| |rewrite length_app; simpl; lia].
    constructor. unfold parent_of. by rewrite Hpar.
Qed.

(** ** The laws of a storage *)

(** [store_view] is the log a storage holds; [store_inv k] says it is sound and
    can still issue [k] ids; [store_issued] that an id was issued by it.  A
    write may fail, and then leaves the log as it was. *)
Class SessionStorageOk (S : Type) `{SessionStorage S} := {
  store_view : world S -> list SessionTreeEntry;
  store_inv : nat -> world S -> Prop;
  store_issued : world S -> jsstr -> Prop;
  store_wf k w : store_inv k w -> wf_log (store_view w);
  store_weaken k w : store_inv (Datatypes.S k) w -> store_inv k w;
  law_getLeafId k w : store_inv k w -> getLeafId w = (Ok (last_leaf (store_view w)), w);
  law_getEntry k w id : store_inv k w -> getEntry id w = (Ok (index_entries (store_view w) !! id), w);
  law_getLabel k w id : store_inv k w -> getLabel id w = (Ok (buildLabelsById (store_view w) !! id), w);
  law_getPathToRoot k w l : store_inv k w -> getPathToRoot l w = (walk_to_root (index_entries (store_view w)) l, w);
  law_getEntries k w : store_inv k w -> getEntries w = (Ok (store_view w), w);
  law_findEntries k w p : store_inv k w ->
    findEntries p w = (Ok (List.filter (fun e => p (e_body e)) (store_view w)), w);
  law_createEntryId k w : store_inv (Datatypes.S k) w ->
    exists id w', createEntryId w = (Ok id, w') /\ store_view w' = store_view w /\ store_inv k w' /\
      store_issued w' id /\ (id ∉ entry_ids (store_view w)) /\ id <> [];
  law_appendEntry k w e : store_inv k w -> store_issued w (e_id e) -> entry_ok (store_view w) e ->
    (exists w', appendEntry e w = (Ok tt, w') /\ store_view w' = store_view w ++ [e] /\ store_inv k w') \/
    (exists err w', appendEntry e w = (Throw err, w') /\ store_view w' = store_view w /\ store_inv k w');
  law_setLeafId_ok k w now target : store_inv (Datatypes.S k) w ->
    (forall id, target = Some id -> id ∈ entry_ids (store_view w)) ->
    (exists e w', setLeafId now target w = (Ok tt, w') /\ e_body e = ELeaf target /\
       store_view w' = store_view w ++ [e] /\ store_inv k w') \/
    (exists err w', setLeafId now target w = (Throw err, w') /\ store_view w' = store_view w /\ store_inv k w');
}.

(** ** [InMemorySessionStorage] satisfies the laws *)

(** Room for [k] more ids before the 48-bit clock could overflow: an id takes
    at most 101 readings and each advances the clock by at most one. *)
Definition clock_room (k : nat) (g : idgen) : Prop :=
  (forall i, draw_ok (ig_draws g i) /\ timestamp (ig_draws g i) + 101 * Z.of_nat k < 2 ^ 48) /\
  uuid_ok (ig_state g) /\
  match lastTimestamp (ig_state g) with Some t => t + 101 * Z.of_nat k < 2 ^ 48 | None => True end.

Record mem_inv (k : nat) (w : world InMemorySessionStorage) : Prop := {
  mi_wf : wf_log (entries (w_storage w));
  mi_index : byId (w_storage w) = index_entries (entries (w_storage w));
  mi_labels : labelsById (w_storage w) = buildLabelsById (entries (w_storage w));
  mi_leaf : leafId (w_storage w) = last_leaf (entries (w_storage w));
  mi_clock : clock_room k (w_ids w);
  mi_ids : forall id, id ∈ entry_ids (entries (w_storage w)) -> id_before (ig_state (w_ids w)) id;
}.

Lemma uuid_step_clock st d ts seq b :
  uuid_ok st -> draw_ok d -> uuid_step st d = (ts, seq) -> timestamp d <= b ->
  match lastTimestamp st with Some t => t <= b | None => True end -> ts <= b + 1.
Proof.
  intros Hok Hd Es Hb Hlast. destruct (uuid_step_spec _ _ _ _ Hok Hd Es) as (_ & _ & _ & Hc).
  destruct Hc as [->|(t & Ht & [[-> _]|(-> & _)])]; [lia| |]; rewrite Ht in Hlast; lia.
Qed.

Lemma uuidv7_clock st d id st' b :
  uuid_ok st -> draw_ok d -> uuidv7 st d = (id, st') -> timestamp d <= b ->
  match lastTimestamp st with Some t => t <= b | None => True end ->
  match lastTimestamp st' with Some t => t <= b + 1 | None => True end.
Proof.
  intros Hok Hd E Hb Hlast. destruct (uuidv7_spec _ _ _ _ Hok Hd E) as (ts & seq & _ & -> & _ & _ & Es).
  exact (uuid_step_clock _ _ _ _ _ Hok Hd Es Hb Hlast).
Qed.

Lemma generate_short_clock n has draws i st r st' j b :
  uuid_ok st -> (forall i, draw_ok (draws i) /\ timestamp (draws i) <= b) ->
  match lastTimestamp st with Some t => t <= b | None => True end ->
  generate_short n has draws i st = (r, st', j) ->
  match lastTimestamp st' with Some t => t <= b + Z.of_nat n | None => True end.
Proof.
  revert i st b. induction n as [|n IH]; intros i st b Hok Hd Hlast E; cbn [generate_short] in E.
  { injection E as _ <- _. destruct (lastTimestamp st); [lia|done]. }
  destruct (uuidv7 st (draws i)) as [full st1] eqn:E1. destruct (Hd i) as [Hdi Hti].
  pose proof (uuidv7_clock _ _ _ _ b Hok Hdi E1 Hti Hlast) as Hlast1.
  destruct (uuidv7_spec _ _ _ _ Hok Hdi E1) as (_ & _ & _ & _ & Hok1 & _ & _).
  destruct (has _).
  - apply (IH _ _ (b + 1)) in E; [|done| |done].
    + destruct (lastTimestamp st'); [lia|done].
    + intros k. destruct (Hd k). split; [done|lia].
  - injection E as _ <- _. destruct (lastTimestamp st1); [lia|done].
Qed.

(** One id uses one unit of room. *)
Lemma generateEntryId_clock k has g id st j :
  clock_room (S k) g -> generateEntryId has (ig_draws g) (ig_pos g) (ig_state g) = (id, st, j) ->
  clock_room k (mkIdgen st (ig_draws g) j) /\ default 0 (lastTimestamp st) < 2 ^ 48.
Proof.
  intros (Hd & Hok & Hlast). set (b := 2 ^ 48 - 101 * Z.of_nat (S k) - 1). unfold generateEntryId.
  assert (Hdb : forall i, draw_ok (ig_draws g i) /\ timestamp (ig_draws g i) <= b).
  { intros i. destruct (Hd i). split; [done|lia]. }
  assert (Hdok : forall i, draw_ok (ig_draws g i)) by apply Hd.
  destruct (generate_short _ _ _ _ _) as [[r st1] i1] eqn:E. intros Hr.
  assert (Hl : match lastTimestamp (ig_state g) with Some t => t <= b | None => True end)
    by (destruct (lastTimestamp (ig_state g)); [lia|done]).
  pose proof (generate_short_clock _ _ _ _ _ _ _ _ b Hok Hdb Hl E) as Hl1.
  destruct (generate_short_spec _ _ _ _ _ _ _ _ Hok Hdok E) as (Hok1 & _ & _).
  assert (Hfin : uuid_ok st /\ match lastTimestamp st with Some t => t <= b + 101 | None => True end).
  { destruct r as [short|].
    - injection Hr as _ <- _. split; [done|]. destruct (lastTimestamp st1); [lia|done].
    - assert (E1 : uuidv7 st1 (ig_draws g i1) = (id, st)) by congruence.
      destruct (uuidv7_spec _ _ _ _ Hok1 (Hdok i1) E1) as (_ & _ & _ & _ & Hok' & _ & _). split; [done|].
      destruct (Hdb i1) as [_ Ht]. pose proof (uuidv7_clock _ _ _ _ (b + 100) Hok1 (Hdok i1) E1 ltac:(lia) Hl1) as Hc.
      destruct (lastTimestamp st); [lia|done]. }
  destruct Hfin as [Hok' Hl']. split; [split_and!|].
  - intros i. destruct (Hd i). simpl. split; [done|lia].
  - apply Hok'.
  - simpl. destruct (lastTimestamp st); [lia|done].
  - simpl. destruct (lastTimestamp st); simpl; lia.
Qed.

Lemma mem_leaf_ok k w : mem_inv k w ->
  forall id, last_leaf (entries (w_storage w)) = Some id -> id ∈ entry_ids (entries (w_storage w)).
Proof. intros Hi id. by apply wf_last_leaf, Hi. Qed.

Lemma mem_createEntryId_ok k w : mem_inv (S k) w ->
  exists id w', mem_createEntryId w = (Ok id, w') /\ w_storage w' = w_storage w /\ mem_inv k w' /\
    id_before (ig_state (w_ids w')) id /\ (id ∉ entry_ids (entries (w_storage w))) /\ id <> [].
Proof.
  intros [Hwf Hidx Hlab Hleaf Hclk Hids]. unfold mem_createEntryId.
  destruct (generateEntryId _ _ _ _) as [[id st] j] eqn:E. do 2 eexists. split; [reflexivity|]. simpl.
  destruct (generateEntryId_clock _ _ _ _ _ _ Hclk E) as [Hclk' Hb].
  destruct Hclk as (Hd & Hok & _).
  edestruct (generateEntryId_new (fun x => x ∈ entry_ids (entries (w_storage w))))
    as (Hnew & Hbef & Hne & Hle); [exact Hok|exact (fun i => proj1 (Hd i))|exact Hids| |exact E|exact Hb|].
  { intros x Hx Hin. apply index_dom in Hin as [e He]. simpl in Hx. rewrite Hidx, He in Hx. done. }
  split_and!; try done. split; try done. simpl. intros x Hx. eapply id_before_mono; eauto.
Qed.

Lemma mem_append_ok k w e : mem_inv k w -> id_before (ig_state (w_ids w)) (e_id e) ->
  entry_ok (entries (w_storage w)) e ->
  mem_inv k (mkWorld (append_storage (w_storage w) e) (w_ids w)).
Proof.
  intros [Hwf Hidx Hlab Hleaf Hclk Hids] Hbef He. split; simpl; autorewrite with agent_rw.
  - by constructor.
  - by rewrite Hidx.
  - by rewrite Hlab.
  - done.
  - done.
  - intros x [Hx| ->%list_elem_of_singleton]%elem_of_app; auto.
Qed.

Lemma mem_setLeafId_ok k w now target : mem_inv (S k) w ->
  (forall id, target = Some id -> id ∈ entry_ids (entries (w_storage w))) ->
  exists e w', mem_setLeafId now target w = (Ok tt, w') /\ e_body e = ELeaf target /\
    entries (w_storage w') = entries (w_storage w) ++ [e] /\ mem_inv k w'.
Proof.
  intros Hi Hin. destruct (mem_createEntryId_ok k w Hi) as (id & w1 & E & Hst & Hi1 & Hbef & Hnew & Hne).
  set (e := mkEntry id (leafId (w_storage w)) now (ELeaf target)).
  exists e, (mkWorld (append_storage (w_storage w) e) (w_ids w1)). split_and!; try done.
  - unfold mem_setLeafId, bind, get.
    assert (Hchk : match target with
        | Some id => match byId (w_storage w) !! id with
                     | Some _ => ret tt | None => throw (entry_not_found not_found id) end
        | None => ret tt end w = (Ok tt, w) :> result SessionError unit * world InMemorySessionStorage).
    { destruct target as [t|]; [|done]. rewrite (mi_index _ _ Hi).
      by destruct (proj2 (index_dom _ _) (Hin t eq_refl)) as [? ->]. }
    rewrite Hchk, E. unfold modify, append_storage. by rewrite Hst.
  - replace (append_storage (w_storage w) e) with (append_storage (w_storage w1) e) by (by rewrite Hst).
    apply mem_append_ok; try done. rewrite Hst. split; simpl; try done.
    + unfold parent_of. simpl. rewrite (mi_leaf _ _ Hi). intros p Hp.
      apply (mem_leaf_ok (S k) w Hi). destruct (last_leaf _) as [[|]|]; [done|congruence|done].
    + intros t [= ->]. by apply Hin.
Qed.

#[export] Program Instance InMemory_SessionStorageOk : SessionStorageOk InMemorySessionStorage := {|
  store_view w := entries (w_storage w);
  store_inv := mem_inv;
  store_issued w := id_before (ig_state (w_ids w));
|}.
Next Obligation. by intros k w []. Qed.
Next Obligation.
  intros k w [Hwf Hidx Hlab Hleaf (Hd & Hok & Hl) Hids]. split; try done. split_and!.
  - intros i. destruct (Hd i). split; [done|lia].
  - apply Hok.
  - destruct (lastTimestamp _); [lia|done].
Qed.
Next Obligation.
  intros k w Hi. simpl. unfold mem_getLeafId. rewrite (mi_leaf _ _ Hi).
  destruct (last_leaf _) as [id|] eqn:E; [|done]. rewrite (mi_index _ _ Hi).
  by destruct (proj2 (index_dom _ _) (mem_leaf_ok k w Hi id E)) as [? ->].
Qed.
Next Obligation. intros k w id Hi. simpl. unfold mem_getEntry. by rewrite (mi_index _ _ Hi). Qed.
Next Obligation. intros k w id Hi. simpl. unfold mem_getLabel. by rewrite (mi_labels _ _ Hi). Qed.
Next Obligation. intros k w l Hi. simpl. unfold mem_getPathToRoot. by rewrite (mi_index _ _ Hi). Qed.
Next Obligation. done. Qed.
Next Obligation. done. Qed.
Next Obligation.
  intros k w Hi. destruct (mem_createEntryId_ok k w Hi) as (id & w' & E & Hst & H).
  exists id, w'. simpl. rewrite Hst. auto.
Qed.
Next Obligation. intros k w e Hi Hbef He. left. eexists. split_and!; [reflexivity|done|by apply mem_append_ok]. Qed.
Next Obligation. intros k w now target Hi Hin. left. by apply mem_setLeafId_ok. Qed.
