(* ===== verification/SessionProps.v ===== *)
(** Theorems about [Session] over any lawful storage, and about the contexts,
    labels and forks it computes. *)
From S2P Require Import Prelude JsString Json Effects Uuid Messages SessionTree SessionLaws.
#[local] Open Scope eff.

Lemma parent_of_leaf es id now body p :
  wf_log es -> parent_of (mkEntry id (last_leaf es) now body) = Some p -> p ∈ entry_ids es.
Proof.
  unfold parent_of. simpl. intros Hwf Hp. apply (wf_last_leaf es p Hwf).
  destruct (last_leaf es) as [[|]|]; congruence.
Qed.

(** ** Operations of a session, as steps *)

(** Everything a caller can ask of a [Session] that writes. *)
Inductive session_op :=
  | OpMessage (now : jsstr) (m : AgentMessage)
  | OpThinking (now level : jsstr)
  | OpModel (now provider modelId : jsstr)
  | OpTools (now : jsstr) (names : list jsstr)
  | OpCompaction (now summary firstKept : jsstr) (tokensBefore : Z) (details : option json) (fromHook : option bool)
  | OpCustom (now customType : jsstr) (data : option json)
  | OpCustomMessage (now customType : jsstr) (content : rich_content) (display : bool) (details : option json)
  | OpName (now name : jsstr)
  | OpLabel (now targetId : jsstr) (label : option jsstr)
  | OpMove (now : jsstr) (entryId : option jsstr) (summary : option branch_summary_input).

Section Ops.
Context {S : Type} `{SessionStorageOk S}.

Definition exec_op (op : session_op) : M (world S) SessionError unit :=
  match op with
  | OpMessage now m => let* _id := appendMessage now m in ret tt
  | OpThinking now l => let* _id := appendThinkingLevelChange now l in ret tt
  | OpModel now p m => let* _id := appendModelChange now p m in ret tt
  | OpTools now ns => let* _id := appendActiveToolsChange now ns in ret tt
  | OpCompaction now s f t d h => let* _id := appendCompaction now s f t d h in ret tt
  | OpCustom now c d => let* _id := appendCustomEntry now c d in ret tt
  | OpCustomMessage now c b d det => let* _id := appendCustomMessageEntry now c b d det in ret tt
  | OpName now n => let* _id := appendSessionName now n in ret tt
  | OpLabel now t l => let* _id := appendLabel now t l in ret tt
  | OpMove now e s => let* _id := moveTo now e s in ret tt
  end.

(** A caller that catches what an operation throws and goes on. *)
Fixpoint run_ops (ops : list session_op) (w : world S) : world S :=
  match ops with
  | [] => w
  | op :: ops' => run_ops ops' (exec_op op w).2
  end.

(** Body of an ordinary entry (not the storage's own leaf marker). *)
Definition plain_body (b : entry_body) : Prop := match b with ELeaf _ => False | _ => True end.

(** What [append_body] does to a sound storage. *)
Lemma append_body_spec k w now body :
  store_inv (Datatypes.S k) w -> plain_body body ->
  (exists id w', append_body now body w = (Ok id, w') /\ store_inv k w' /\
     (id ∉ entry_ids (store_view w)) /\
     store_view w' = store_view w ++ [mkEntry id (last_leaf (store_view w)) now body] /\
     entry_ok (store_view w) (mkEntry id (last_leaf (store_view w)) now body)) \/
  (exists err w', append_body now body w = (Throw err, w') /\ store_inv k w' /\ store_view w' = store_view w).
Proof.
  intros Hi Hb. destruct (law_createEntryId k w Hi) as (id & w1 & E1 & Hv1 & Hi1 & His & Hnew & Hne).
  unfold append_body, bind. rewrite E1, (law_getLeafId k w1 Hi1), Hv1.
  set (e := mkEntry id (last_leaf (store_view w)) now body).
  pose proof (store_wf _ _ Hi) as Hwf.
  assert (He : entry_ok (store_view w) e).
  { split; try done.
    - intros p Hp. by eapply parent_of_leaf.
    - unfold e. simpl. intros t ->. done. }
  destruct (law_appendEntry k w1 e Hi1 His) as [(w2 & E2 & Hv2 & Hi2)|(err & w2 & E2 & Hv2 & Hi2)].
  - by rewrite Hv1.
  - left. exists id, w2. rewrite E2, Hv2, Hv1. done.
  - right. exists err, w2. rewrite E2, Hv2, Hv1. done.
Qed.

Lemma getBranch_leaf k w :
  store_inv k w -> getBranch None w = (walk_to_root (index_entries (store_view w)) (last_leaf (store_view w)), w).
Proof. intros Hi. unfold getBranch, bind. by rewrite (law_getLeafId k w Hi), (law_getPathToRoot k w _ Hi). Qed.

Lemma getBranch_total k w : store_inv k w -> exists l, getBranch None w = (Ok l, w).
Proof.
  intros Hi. rewrite (getBranch_leaf k w Hi). pose proof (store_wf _ _ Hi) as Hwf.
  destruct (walk_total (store_view w) (last_leaf (store_view w)) Hwf) as [l ->]; [|by exists l].
  intros id. by apply wf_last_leaf.
Qed.

Lemma branch_after_append k w k' w' e l :
  store_inv k w -> store_inv k' w' -> entry_ok (store_view w) e -> plain_body (e_body e) ->
  e_parentId e = last_leaf (store_view w) -> store_view w' = store_view w ++ [e] ->
  getBranch None w = (Ok l, w) -> getBranch None w' = (Ok (l ++ [e]), w').
Proof.
  intros Hi Hi' He Hb Hp Hv Hl. rewrite (getBranch_leaf k' w' Hi'), Hv, last_leaf_snoc.
  rewrite (getBranch_leaf k w Hi) in Hl. injection Hl as Hl.
  assert (Hleaf : leafIdAfterEntry e = Some (e_id e)).
  { unfold leafIdAfterEntry. by destruct (e_body e). }
  rewrite Hleaf. f_equal. eapply walk_append; try done; [by eapply store_wf|].
  intros id. apply wf_last_leaf. by eapply store_wf.
Qed.

(** Appending to a session extends the current branch by exactly the new
    entry, whose id is new; a write that fails leaves the log unchanged. *)
Theorem append_extends_branch k w now body :
  store_inv (Datatypes.S k) w -> plain_body body ->
  exists branch, getBranch None w = (Ok branch, w) /\
  ((exists id w', append_body now body w = (Ok id, w') /\ (id ∉ entry_ids (store_view w)) /\
      let e := mkEntry id (last_leaf (store_view w)) now body in
      store_view w' = store_view w ++ [e] /\ getBranch None w' = (Ok (branch ++ [e]), w')) \/
   (exists err w', append_body now body w = (Throw err, w') /\ store_view w' = store_view w /\
      getBranch None w' = (Ok branch, w'))).
Proof.
  intros Hi Hb. destruct (getBranch_total _ _ Hi) as [l Hl]. exists l. split; [done|].
  destruct (append_body_spec k w now body Hi Hb) as [(id & w' & E & Hi' & Hnew & Hv & He)|(err & w' & E & Hi' & Hv)].
  - left. exists id, w'. cbv zeta. split_and!; try done.
    exact (branch_after_append _ w k w' _ l Hi Hi' He Hb eq_refl Hv Hl).
  - right. exists err, w'. split_and!; try done.
    rewrite (getBranch_leaf k w' Hi'), Hv. rewrite (getBranch_leaf _ _ Hi) in Hl. by injection Hl as ->.
Qed.

(** What [moveTo] does to a sound storage, when it does not throw. *)
Lemma moveTo_spec k w now target summary :
  store_inv (Datatypes.S (Datatypes.S k)) w ->
  (exists r w' new, moveTo now target summary w = (Ok r, w') /\ store_inv k w' /\
     store_view w' = store_view w ++ new /\
     (forall id, target = Some id -> id ∈ entry_ids (store_view w)) /\
     match summary, r with
     | None, None => last_leaf (store_view w') = target /\ index_entries (store_view w) ⊆ index_entries (store_view w')
     | Some b, Some id =>
         let e := mkEntry id target now (EBranchSummary (default (js "root") target) (bi_summary b) (bi_details b) (bi_fromHook b)) in
         exists leaf, new = [leaf; e] /\ entry_ok (store_view w) leaf /\ entry_ok (store_view w ++ [leaf]) e
     | _, _ => False
     end) \/
  (exists err w', moveTo now target summary w = (Throw err, w') /\ store_inv k w' /\
     store_view w `prefix_of` store_view w').
Proof.
  intros Hi. unfold moveTo, bind.
  assert (Hi0 : store_inv k w) by (by do 2 apply store_weaken).
  set (check := match target with None => ret tt | Some id => _ end).
  assert (Hchk : (check w = (Ok tt, w) /\ forall id, target = Some id -> id ∈ entry_ids (store_view w)) \/
                 exists err, check w = (Throw err, w)).
  { unfold check. destruct target as [id|]; [|by left]. unfold bind. rewrite (law_getEntry _ w id Hi).
    destruct (index_entries (store_view w) !! id) eqn:E; [left|right; by eexists].
    split; [done|]. intros ? [= <-]. apply index_dom. eauto. }
  destruct Hchk as [[-> Hin]|[err ->]]; [|right; exists err, w; done].
  destruct (law_setLeafId_ok (Datatypes.S k) w now target Hi Hin)
    as [(e & w1 & E1 & Hb1 & Hv1 & Hi1)|(err & w1 & E1 & Hv1 & Hi1)]; rewrite E1.
  2:{ right. exists err, w1. rewrite Hv1. split_and!; try done. by apply store_weaken. }
  pose proof (store_wf _ _ Hi1) as Hwf1. rewrite Hv1 in Hwf1.
  assert (He : entry_ok (store_view w) e).
  { inversion Hwf1 as [Hnil|es e' Hwf He Heq]; [by destruct (store_view w)|].
    apply app_inj_tail in Heq as [-> ->]. done. }
  destruct summary as [b|].
  - destruct (law_createEntryId k w1 Hi1) as (id & w2 & E2 & Hv2 & Hi2 & His & Hnew & Hne).
    rewrite E2. set (e2 := mkEntry id target now _).
    assert (He2 : entry_ok (store_view w1) e2).
    { split; try done. unfold parent_of. simpl. intros p Hp. rewrite Hv1, entry_ids_snoc.
      destruct target as [[|c t]|]; try done. injection Hp as <-.
      apply elem_of_app. left. by apply Hin. }
    destruct (law_appendEntry k w2 e2 Hi2 His) as [(w3 & E3 & Hv3 & Hi3)|(err & w3 & E3 & Hv3 & Hi3)].
    + by rewrite Hv2.
    + left. exists (Some id), w3, [e; e2]. rewrite E3, Hv3, Hv2, Hv1, <- app_assoc. split_and!; try done.
      exists e. rewrite <- Hv1. done.
    + right. exists err, w3. rewrite E3, Hv3, Hv2, Hv1. split_and!; try done. by apply prefix_app_r.
  - left. exists None, w1, [e]. rewrite Hv1, last_leaf_snoc. split_and!; try done.
    + by apply store_weaken.
    + unfold leafIdAfterEntry. by rewrite Hb1.
    + by apply wf_index_mono.
Qed.

(** One operation keeps the storage sound and only adds to the log. *)
Lemma exec_op_spec k w op :
  store_inv (Datatypes.S (Datatypes.S k)) w ->
  store_inv k (exec_op op w).2 /\ store_view w `prefix_of` store_view (exec_op op w).2.
Proof.
  intros Hi. assert (Hi1 : store_inv (Datatypes.S k) w) by by apply store_weaken.
  assert (Hi0 : store_inv k w) by by apply store_weaken.
  assert (Happ : forall now body, plain_body body ->
      store_inv k (append_body now body w).2 /\ store_view w `prefix_of` store_view (append_body now body w).2).
  { intros now body Hb. destruct (append_body_spec k w now body Hi1 Hb)
      as [(id & w' & -> & Hi' & _ & Hv & _)|(err & w' & -> & Hi' & Hv)]; simpl; rewrite Hv;
      split; try done; by apply prefix_app_r. }
  assert (Hdrop : forall A (c : M (world S) SessionError A), (bind c (fun _ => ret tt) w).2 = (c w).2).
  { intros A c. unfold bind. by destruct (c w) as [[]]. }
  destruct op; simpl exec_op; rewrite Hdrop; try (by apply Happ).
  - unfold appendLabel. unfold bind at 1 2. rewrite !(law_getEntry _ w targetId Hi0).
    destruct (index_entries _ !! _); [by apply Happ|done].
  - destruct (moveTo_spec k w now entryId summary Hi)
      as [(r & w' & new & -> & Hi' & Hv & _)|(err & w' & -> & Hi' & Hpre)]; simpl; [|done].
    split; [done|]. rewrite Hv. by apply prefix_app_r.
Qed.

Lemma run_ops_spec ops k w :
  store_inv (2 * length ops + k) w ->
  store_inv k (run_ops ops w) /\ store_view w `prefix_of` store_view (run_ops ops w).
Proof.
  revert w. induction ops as [|op ops IH]; intros w Hi; [done|]. simpl run_ops.
  replace (2 * length (op :: ops) + k)%nat with (Datatypes.S (Datatypes.S (2 * length ops + k))) in Hi
    by (simpl; lia).
  destruct (exec_op_spec _ _ op Hi) as [Hi' Hp]. destruct (IH _ Hi') as [Hi'' Hp'].
  split; [done|]. by transitivity (store_view (exec_op op w).2).
Qed.

(** C3: whatever sequence of operations a session runs, some of them failing,
    its log only grows, stays well formed, and the walk from the leaf to the
    root ends: the current branch can always be read. *)
Theorem session_log_invariant ops k w :
  store_inv (2 * length ops + k) w ->
  let w' := run_ops ops w in
  store_view w `prefix_of` store_view w' /\ wf_log (store_view w') /\
  exists branch, getBranch None w' = (Ok branch, w').
Proof.
  intros Hi w'. destruct (run_ops_spec ops k w Hi) as [Hi' Hp]. split; [done|].
  split; [by eapply store_wf|by eapply getBranch_total].
Qed.

(** Moving to an existing entry, or to the root, makes its path the current
    branch and forgets nothing; with a summary the summary entry ends the branch. *)
Theorem moveTo_branch k w now target summary r w' :
  store_inv (Datatypes.S (Datatypes.S k)) w -> moveTo now target summary w = (Ok r, w') ->
  exists path, getPathToRoot target w = (Ok path, w) /\
    store_view w `prefix_of` store_view w' /\
    match summary, r with
    | None, None => getBranch None w' = (Ok path, w')
    | Some b, Some id =>
        getBranch None w' = (Ok (path ++ [mkEntry id target now
          (EBranchSummary (default (js "root") target) (bi_summary b) (bi_details b) (bi_fromHook b))]), w')
    | _, _ => False
    end.
Proof.
  intros Hi E. destruct (moveTo_spec k w now target summary Hi)
    as [(r' & w1 & new & E1 & Hi1 & Hv & Hin & Hcase)|(err & w1 & E1 & _)]; [|congruence].
  rewrite E1 in E. injection E as -> ->. pose proof (store_wf _ _ Hi) as Hwf.
  destruct (walk_total (store_view w) target Hwf Hin) as [path Hpath]. exists path.
  rewrite (law_getPathToRoot _ w target Hi), Hpath. split; [done|]. split; [rewrite Hv; by apply prefix_app_r|].
  rewrite (getBranch_leaf k w' Hi1).
  assert (Hmono : forall es, wf_log es -> index_entries (store_view w) ⊆ index_entries es ->
            walk_to_root (index_entries es) target = Ok path).
  { intros es Hwfe Hsub. destruct target as [id|]; [|done].
    destruct (proj2 (index_dom _ id) (Hin id eq_refl)) as [e He].
    destruct (wf_index_id _ _ _ Hwf He) as [_ Hel]. destruct (wf_path _ _ Hwf Hel) as (l & Hl & Hlen).
    rewrite (walk_path _ _ _ _ Hwf He Hl Hlen) in Hpath. injection Hpath as <-.
    eapply (walk_path es id e l Hwfe); [by eapply lookup_weaken|by eapply path_of_mono|].
    apply map_subseteq_size in Hsub. rewrite !wf_size in Hsub by done. lia. }
  destruct summary as [b|], r as [id|]; try done.
  - destruct Hcase as (leaf & -> & Hleaf & He). change [leaf; ?e] with ([leaf] ++ [e]) in Hv.
    rewrite app_assoc in Hv. rewrite Hv, last_leaf_snoc. simpl. f_equal.
    assert (Hwf1 : wf_log (store_view w ++ [leaf])) by by constructor.
    eapply (walk_append _ (mkEntry id target now _)); [done|done| |done|].
    + intros id' Hid. rewrite entry_ids_snoc. apply elem_of_app. left. by apply Hin.
    + apply Hmono; [done|by apply wf_index_mono].
  - destruct Hcase as [-> Hsub]. f_equal. apply Hmono; [by eapply store_wf|done].
Qed.
End Ops.

(** ** Contexts *)

Section Contexts.
Context (get_time : jsstr -> Z).

(** The compaction a scan ends with is on the path, or was there before. *)
Lemma scan_compaction_in path s c :
  scan_compaction (fold_left scan_entry path s) = Some c ->
  (c ∈ path /\ is_compaction c = true) \/ scan_compaction s = Some c.
Proof.
  revert s. induction path as [|e path IH]; intros s Hc; [by right|]. simpl in Hc.
  destruct (IH _ Hc) as [[Hin Hcc]|Hs]; [left; split; [set_solver|done]|].
  unfold scan_entry in Hs. unfold is_compaction.
  destruct (e_body e) as [[| | | | | |]| | | | | | | | | |] eqn:Eb; simpl in Hs;
    try (by right); injection Hs as <-; left; rewrite Eb; split; set_solver.
Qed.

Lemma find_compaction path c :
  c ∈ path -> is_compaction c = true ->
  exists i, find_index (fun e => is_compaction e && bool_decide (e_id e = e_id c)) path = Some i.
Proof.
  intros Hin Hc. destruct (find_index _ path) as [i|] eqn:E; [by exists i|].
  apply find_index_None in E. rewrite Forall_forall in E. specialize (E c Hin).
  rewrite Hc, bool_decide_eq_true_2 in E by done. done.
Qed.

Lemma find_index_app_l {A} (p : A -> bool) l k i :
  find_index p l = Some i -> find_index p (l ++ k) = Some i.
Proof.
  revert i. induction l as [|x l IH]; intros i; simpl; [done|]. destruct (p x); [done|].
  destruct (find_index p l) as [j|]; [|done]. intros [= <-]. by rewrite (IH j eq_refl).
Qed.

Lemma context_snoc path e :
  is_compaction e = false ->
  sc_messages (buildSessionContext get_time (path ++ [e]))
  = sc_messages (buildSessionContext get_time path) ++ entry_messages get_time e.
Proof.
  intros He. unfold buildSessionContext. cbv zeta. rewrite fold_left_app. simpl fold_left.
  set (s := fold_left scan_entry path _).
  assert (Hs : scan_compaction (scan_entry s e) = scan_compaction s).
  { unfold scan_entry, is_compaction in *. by destruct (e_body e) as [[| | | | | |]| | | | | | | | | |]. }
  cbn [sc_messages]. rewrite Hs.
  assert (Hflat : flat_map (entry_messages get_time) (path ++ [e])
                  = flat_map (entry_messages get_time) path ++ entry_messages get_time e).
  { rewrite flat_map_app. simpl. by rewrite app_nil_r. }
  destruct (scan_compaction s) as [c|] eqn:Ec; [|done].
  destruct (scan_compaction_in path _ c Ec) as [[Hin Hc]|]; [|done].
  destruct (e_body c) eqn:Eb; try done.
  destruct (find_compaction path c Hin Hc) as [i Hi]. rewrite (find_index_app_l _ _ _ _ Hi), Hi.
  pose proof (find_index_bound _ _ _ Hi). rewrite take_app_le, drop_app_le by lia.
  rewrite flat_map_app. simpl. by rewrite !app_nil_r, app_assoc.
Qed.

(** An entry that is not a compaction adds exactly its own messages at the
    end of the context; nothing before changes. *)
Theorem buildSessionContext_snoc path e :
  is_compaction e = false ->
  sc_messages (buildSessionContext get_time (path ++ [e]))
  = sc_messages (buildSessionContext get_time path) ++ entry_messages get_time e.
Proof. apply context_snoc. Qed.

Lemma context_app path tail :
  Forall (fun e => is_compaction e = false) tail ->
  sc_messages (buildSessionContext get_time (path ++ tail))
  = sc_messages (buildSessionContext get_time path) ++ flat_map (entry_messages get_time) tail.
Proof.
  intros H. revert path. induction H as [|e tail He _ IH]; intros path; [by rewrite !app_nil_r|].
  cbn [flat_map]. change (e :: tail) with ([e] ++ tail). rewrite (app_assoc path [e] tail), IH, context_snoc by done. by rewrite <- app_assoc.
Qed.

(** Once the first kept entry is found everything after it is kept. *)
Lemma kept_messages_true k l : kept_messages get_time k true l = flat_map (entry_messages get_time) l.
Proof. induction l as [|e l IH]; simpl; [done|]. by rewrite IH. Qed.

Lemma kept_messages_split k pre e l :
  k ∉ entry_ids pre -> e_id e = k ->
  kept_messages get_time k false (pre ++ e :: l) = flat_map (entry_messages get_time) (e :: l).
Proof.
  intros Hpre <-. induction pre as [|x pre IH]; simpl in *.
  - rewrite bool_decide_eq_true_2 by done. simpl. by rewrite kept_messages_true.
  - apply not_elem_of_cons in Hpre as [Hne Hpre]. rewrite bool_decide_eq_false_2 by done. by apply IH.
Qed.

Lemma kept_messages_none k l : k ∉ entry_ids l -> kept_messages get_time k false l = [].
Proof.
  induction l as [|e l IH]; simpl; [done|]. intros [Hne Hl]%not_elem_of_cons.
  rewrite bool_decide_eq_false_2 by done. by apply IH.
Qed.

(** The context of a branch that ends with a compaction. *)
Lemma context_compaction path c summary fk tokens details fromHook :
  e_id c ∉ entry_ids path ->
  e_body c = ECompaction summary fk tokens details fromHook ->
  sc_messages (buildSessionContext get_time (path ++ [c])) =
    MCompactionSummary (createCompactionSummaryMessage get_time summary tokens (e_timestamp c))
    :: kept_messages get_time fk false path.
Proof.
  intros Hfresh Hc. unfold buildSessionContext. cbv zeta. rewrite fold_left_app. simpl fold_left.
  set (s := fold_left scan_entry path _). unfold scan_entry. rewrite Hc. cbn [sc_messages scan_compaction].
  rewrite Hc. f_equal.
  assert (Hfind : find_index (fun x => is_compaction x && bool_decide (e_id x = e_id c)) (path ++ [c])
                  = Some (length path)).
  { clear -Hfresh Hc. induction path as [|x path IH]; simpl.
    - unfold is_compaction. rewrite Hc. by rewrite bool_decide_eq_true_2.
    - apply not_elem_of_cons in Hfresh as [Hne Hfresh]. rewrite (bool_decide_eq_false_2 (e_id x = _)) by done.
      rewrite andb_false_r, IH by done. done. }
  rewrite Hfind, take_app_length. rewrite drop_ge by (rewrite length_app; simpl; lia).
  simpl flat_map. by rewrite app_nil_r.
Qed.

Lemma context_after_compaction pre e rest c summary tokens details fromHook :
  NoDup (entry_ids (pre ++ e :: rest ++ [c])) ->
  e_body c = ECompaction summary (e_id e) tokens details fromHook ->
  sc_messages (buildSessionContext get_time ((pre ++ e :: rest) ++ [c])) =
    MCompactionSummary (createCompactionSummaryMessage get_time summary tokens (e_timestamp c))
    :: flat_map (entry_messages get_time) (e :: rest).
Proof.
  intros Hnd Hc. unfold entry_ids in Hnd. rewrite map_app in Hnd. apply NoDup_app in Hnd as (_ & Hdis & Hnd).
  simpl in Hnd, Hdis. rewrite map_app in Hnd, Hdis. apply NoDup_cons in Hnd as [He Hnd]. apply NoDup_app in Hnd as (_ & Hr & _).
  simpl in Hr. erewrite context_compaction; [| |exact Hc].
  - f_equal. apply kept_messages_split; [|done]. intros Hin. apply (Hdis _ Hin). set_solver.
  - unfold entry_ids. rewrite map_app. simpl. rewrite elem_of_app, elem_of_cons.
    intros [Hin|[Heq|Hin]]; [apply (Hdis _ Hin); set_solver|apply He; set_solver|apply (Hr _ Hin); set_solver].
Qed.
End Contexts.

Section ContextOps.
Context {S : Type} `{SessionStorageOk S} (get_time : jsstr -> Z).

(** After a compaction that keeps the branch from [e] on, the context is
    the summary followed by exactly the messages of the kept entries. *)
Theorem appendCompaction_context k w now summary tokens details fromHook pre e rest id w' :
  store_inv (Datatypes.S k) w ->
  getBranch None w = (Ok (pre ++ e :: rest), w) ->
  appendCompaction now summary (e_id e) tokens details fromHook w = (Ok id, w') ->
  exists ctx, buildContext get_time w' = (Ok ctx, w') /\
    sc_messages ctx =
      MCompactionSummary (createCompactionSummaryMessage get_time summary tokens now)
      :: flat_map (entry_messages get_time) (e :: rest).
Proof.
  intros Hi Hl E. unfold appendCompaction in E.
  destruct (append_body_spec k w now (ECompaction summary (e_id e) tokens details fromHook) Hi I)
    as [(id' & w1 & E1 & Hi1 & Hnew & Hv & He)|(err & w1 & E1 & _)]; [|congruence].
  rewrite E1 in E. injection E as -> ->.
  pose proof (branch_after_append _ w k w' _ _ Hi Hi1 He I eq_refl Hv Hl) as Hb.
  eexists. split; [unfold buildContext, bind; rewrite Hb; reflexivity|].
  erewrite context_after_compaction; [reflexivity| |reflexivity].
  rewrite (getBranch_leaf k w' Hi1) in Hb. injection Hb as Hb.
  destruct (walk_sound _ _ _ (store_wf _ _ Hi1) Hb) as [[Hnd _] _]. by rewrite <- app_assoc in Hnd.
Qed.

(** A label set on an entry is read back trimmed, a blank one removes it,
    and no other label changes. *)
Theorem appendLabel_getLabel k w now target label id w' :
  store_inv (Datatypes.S k) w -> appendLabel now target label w = (Ok id, w') ->
  forall x, getLabel x w' =
    (if bool_decide (x = target)
     then (Ok (match trim <$> label with Some (c :: s) => Some (c :: s) | _ => None end), w')
     else ((getLabel x w).1, w')).
Proof.
  intros Hi E x. unfold appendLabel, bind in E. rewrite (law_getEntry _ w target Hi) in E.
  destruct (index_entries _ !! _); [|done].
  destruct (append_body_spec k w now (ELabel target label) Hi I)
    as [(id' & w1 & E1 & Hi1 & _ & Hv & _)|(err & w1 & E1 & _)]; [|congruence].
  rewrite E1 in E. injection E as -> ->.
  rewrite (law_getLabel k w' x Hi1), (law_getLabel _ w x Hi), Hv, labels_snoc.
  unfold updateLabelCache. simpl. case_bool_decide as Hx.
  - subst x. destruct (trim <$> label) as [[|c l]|]; by rewrite ?lookup_delete_eq, ?lookup_insert_eq.
  - destruct (trim <$> label) as [[|c l]|]; by rewrite ?lookup_delete_ne, ?lookup_insert_ne by done.
Qed.
End ContextOps.

(** ** Reloading and forking *)

(** Rebuilding an in-memory storage from the entries of a sound one gives
    the same storage: ids, labels and leaf are all determined by the log. *)
Theorem reload_storage k w :
  mem_inv k w -> new_InMemorySessionStorage (entries (w_storage w)) = Ok (w_storage w).
Proof.
  intros [Hwf Hidx Hlab Hleaf _ _]. unfold new_InMemorySessionStorage.
  destruct w as [[es ids labels leaf] g]. simpl in *. subst.
  destruct (last_leaf es) as [id|] eqn:E; [|done].
  by destruct (proj2 (index_dom es id) (wf_last_leaf es id Hwf E)) as [e ->].
Qed.

Lemma NoDup_snoc_ids l e : NoDup (entry_ids (l ++ [e])) -> NoDup (entry_ids l) /\ e_id e ∉ entry_ids l.
Proof.
  rewrite entry_ids_snoc. intros (H1 & H2 & _)%NoDup_app. split; [done|].
  intros Hin. apply (H2 _ Hin). set_solver.
Qed.

Lemma size_index l : NoDup (entry_ids l) -> size (index_entries l) = length l.
Proof.
  induction l as [|e l IH] using rev_ind; [done|]. intros [Hnd Hnew]%NoDup_snoc_ids.
  rewrite index_snoc, map_size_insert_None, IH, length_app by (done || by apply index_None). simpl. lia.
Qed.

(** A path is a path of the storage that holds nothing else. *)
Lemma path_of_self m e l : path_of m e l -> NoDup (entry_ids l) ->
  (forall p x, m !! p = Some x -> e_id x = p) ->
  path_of (index_entries l) e l /\ last l = Some e /\ index_entries l !! e_id e = Some e.
Proof.
  intros Hp Hnd Hm. induction Hp as [e Hroot|e p e' l Hpar Hl Hp IH].
  - split_and!; [by constructor|done|apply lookup_insert_eq].
  - apply NoDup_snoc_ids in Hnd as [Hnd Hnew]. destruct (IH Hnd) as (IH1 & IH2 & IH3).
    assert (Hsub : index_entries l ⊆ index_entries (l ++ [e])).
    { rewrite index_snoc. apply insert_subseteq. by apply index_None. }
    split_and!; [|by rewrite last_snoc|rewrite index_snoc; apply lookup_insert_eq].
    eapply path_step; [done| |by eapply path_of_mono]. eapply lookup_weaken; [|done].
    by rewrite <- (Hm p e' Hl).
Qed.

(** Forking at an ordinary entry creates a storage that opens, whose current
    branch is the path to that entry, so it starts with the same context. *)
Theorem fork_at_entry {S : Type} `{SessionStorageOk S} k w id es get_time :
  store_inv k w -> id <> [] ->
  getEntriesToFork (Some id) true w = (Ok es, w) ->
  (forall e, last es = Some e -> plain_body (e_body e)) ->
  exists s, new_InMemorySessionStorage es = Ok s /\ entries s = es /\
    forall g, getBranch None (mkWorld s g) = (Ok es, mkWorld s g) /\
      buildContext get_time (mkWorld s g) = (Ok (buildSessionContext get_time es), mkWorld s g).
Proof.
  intros Hi Hne Hf Hplain. unfold getEntriesToFork in Hf. destruct id as [|c id]; [done|]. unfold bind in Hf.
  rewrite (law_getEntry k w _ Hi) in Hf. pose proof (store_wf _ _ Hi) as Hwf.
  destruct (index_entries (store_view w) !! (c :: id)) as [t|] eqn:Et; [|done].
  rewrite (law_getPathToRoot k w _ Hi) in Hf.
  apply (f_equal fst) in Hf. cbn [fst] in Hf.
  destruct (walk_sound _ _ _ Hwf Hf) as ([Hnd Hsub] & e & He & Hp).
  destruct (path_of_self _ _ _ Hp Hnd) as (Hp' & Hlast & Hidx).
  { intros p x Hx. by eapply wf_index_id. }
  assert (Hleaf : last_leaf es = Some (e_id e)).
  { apply last_Some in Hlast as [l ->]. rewrite last_leaf_snoc. unfold leafIdAfterEntry.
    specialize (Hplain e (last_snoc _ _)). by destruct (e_body e). }
  exists (mkStorage es (index_entries es) (buildLabelsById es) (Some (e_id e))). split.
  { unfold new_InMemorySessionStorage. by rewrite Hleaf, Hidx. }
  split; [done|]. intros g.
  assert (Hb : getBranch None (mkWorld (mkStorage es (index_entries es) (buildLabelsById es) (Some (e_id e))) g)
    = (Ok es, mkWorld (mkStorage es (index_entries es) (buildLabelsById es) (Some (e_id e))) g)).
  { unfold getBranch, bind. simpl. unfold mem_getLeafId. simpl. rewrite Hidx.
    unfold mem_getPathToRoot, walk_to_root. simpl. rewrite Hidx.
    rewrite (path_loop_path _ _ es) by (done || by rewrite size_index). simpl. by rewrite app_nil_r. }
  split; [done|]. unfold buildContext, bind. by rewrite Hb.
Qed.

(** ** Concrete sessions *)

Module Sample.
Definition ids : idgen := mkIdgen uuid_init (fun _ => sample_draw 1700000000000) 0.
Definition empty : world InMemorySessionStorage := mkWorld (mkStorage [] ∅ ∅ None) ids.
Definition get_time : jsstr -> Z := fun _ => 1700000000000.
Definition now : jsstr := js "2023-11-14T22:13:20.000Z".
Definition user (text : string) : AgentMessage := MUser (mkUser (RString (js text)) None 1700000000000).
Definition ops : list session_op :=
  [OpMessage now (user "one"); OpThinking now (js "high"); OpMessage now (user "two")].
Definition after : world InMemorySessionStorage := run_ops ops empty.
Definition second_id : jsstr := default [] (e_id <$> entries (w_storage after) !! 1%nat).

Lemma empty_inv k : (k <= 1000)%nat -> mem_inv k empty.
Proof.
  intros Hk. split; simpl; try done; [constructor| |set_solver]. split_and!; simpl; try done.
  intros i. split; [apply sample_draw_ok; lia|lia].
Qed.

Lemma after_inv : mem_inv 10 after.
Proof. exact (proj1 (run_ops_spec ops 10 empty (empty_inv 16 ltac:(lia)))). Qed.

Lemma append_extends_branch_witness :
  exists branch, getBranch None empty = (Ok branch, empty).
Proof.
  destruct (append_extends_branch 4 empty now (EMessage (user "hello")) (empty_inv 5 ltac:(lia)) I)
    as (branch & H & _). exists branch. exact H.
Defined.

Lemma session_log_invariant_witness : wf_log (store_view (run_ops ops empty)).
Proof. exact (proj1 (proj2 (session_log_invariant ops 10 empty (empty_inv 16 ltac:(lia))))). Defined.

Lemma moveTo_branch_witness :
  exists path, getPathToRoot (Some second_id) after = (Ok path, after) /\ length path = 2%nat.
Proof.
  destruct (moveTo_branch 8 after now (Some second_id) None None (moveTo now (Some second_id) None after).2)
    as (path & Hp & _ & _); [exact after_inv|vm_compute; reflexivity|].
  exists path. split; [exact Hp|]. vm_compute in Hp. injection Hp as <-. reflexivity.
Defined.

Lemma buildSessionContext_snoc_witness :
  sc_messages (buildSessionContext get_time ([] ++ [mkEntry second_id None now (EMessage (user "one"))]))
  = [user "one"].
Proof. apply (buildSessionContext_snoc get_time [] (mkEntry second_id None now (EMessage (user "one")))). reflexivity. Defined.

Lemma appendCompaction_context_witness :
  let w' := (appendCompaction now (js "sum") second_id 10 None None after).2 in
  exists ctx, buildContext get_time w' = (Ok ctx, w') /\ length (sc_messages ctx) = 2%nat.
Proof.
  cbv zeta.
  destruct (appendCompaction_context get_time 9 after now (js "sum") 10 None None
    (take 1 (entries (w_storage after))) (default (mkEntry [] None [] (ECustom [] None)) (entries (w_storage after) !! 1%nat))
    (drop 2 (entries (w_storage after)))
    (match (appendCompaction now (js "sum") second_id 10 None None after).1 with Ok i => i | Throw _ => [] end)
    (appendCompaction now (js "sum") second_id 10 None None after).2)
    as (ctx & Hctx & Hm); [exact after_inv|vm_compute; reflexivity|vm_compute; reflexivity|].
  exists ctx. split; [exact Hctx|]. rewrite Hm. vm_compute. reflexivity.
Defined.

Lemma appendLabel_getLabel_witness :
  let w' := (appendLabel now second_id (Some (js " keep ")) after).2 in
  (getLabel second_id w').1 = Ok (Some (js "keep")).
Proof.
  cbv zeta.
  pose proof (appendLabel_getLabel 9 after now second_id (Some (js " keep "))
    (match (appendLabel now second_id (Some (js " keep ")) after).1 with Ok i => i | Throw _ => [] end)
    (appendLabel now second_id (Some (js " keep ")) after).2 after_inv ltac:(vm_compute; reflexivity) second_id) as H.
  rewrite H, bool_decide_eq_true_2 by reflexivity. vm_compute. reflexivity.
Defined.

Lemma reload_storage_witness : new_InMemorySessionStorage (entries (w_storage after)) = Ok (w_storage after).
Proof. apply (reload_storage 10 after). exact after_inv. Defined.

Lemma fork_at_entry_witness :
  exists s, new_InMemorySessionStorage (take 2 (entries (w_storage after))) = Ok s.
Proof.
  destruct (fork_at_entry 10 after second_id (take 2 (entries (w_storage after))) get_time)
    as (s & Hs & _); [exact after_inv|vm_compute; discriminate|vm_compute; reflexivity| |exists s; exact Hs].
  vm_compute. intros e [= <-]. exact I.
Defined.
End Sample.
