(* ===== verification/Compaction.v ===== *)
(** Context compaction ([harness/compaction/compaction.ts] and
    [harness/compaction/utils.ts]): settings, token estimates, the choice of
    the cut point, the file-operation lists, the preparation of a compaction
    and the summary it generates. *)
From Stdlib Require Import QArith_base Qround.
From S2P Require Import Prelude JsString Json Effects Messages SessionTree.
#[local] Open Scope Z_scope.

(** ** File operations *)

Record FileOperations := mkFileOps { fo_read : gset jsstr; fo_written : gset jsstr; fo_edited : gset jsstr }.

Definition createFileOps : FileOperations := mkFileOps ∅ ∅ ∅.

(** One content block of an assistant message. *)
Definition extract_block (ops : FileOperations) (b : assistant_block) : FileOperations :=
  match b with
  | AToolCall c =>
      match tc_arguments c with
      | JObj m =>
          match get_prop m (js "path") with
          | Some (JStr path) =>
              if is_empty path then ops
              else if bool_decide (tc_name c = js "read") then mkFileOps ({[path]} ∪ fo_read ops) (fo_written ops) (fo_edited ops)
              else if bool_decide (tc_name c = js "write") then mkFileOps (fo_read ops) ({[path]} ∪ fo_written ops) (fo_edited ops)
              else if bool_decide (tc_name c = js "edit") then mkFileOps (fo_read ops) (fo_written ops) ({[path]} ∪ fo_edited ops)
              else ops
          | _ => ops
          end
      | _ => ops
      end
  | _ => ops
  end.

Definition extractFileOpsFromMessage (ops : FileOperations) (m : AgentMessage) : FileOperations :=
  match m with
  | MAssistant a => fold_left extract_block (am_content a) ops
  | _ => ops
  end.

(** [a <= b] in the order of [Array.prototype.sort]. *)
Definition str_leb (a b : jsstr) : bool := negb (str_ltb b a).

Record file_lists := mkFileLists { readFiles : list jsstr; modifiedFiles : list jsstr }.

Definition computeFileLists (ops : FileOperations) : file_lists :=
  let modified := fo_edited ops ∪ fo_written ops in
  mkFileLists (isort str_leb (elements (fo_read ops ∖ modified))) (isort str_leb (elements modified)).

Definition formatFileOperations (l : file_lists) : jsstr :=
  let section tag files :=
    if is_empty files then []
    else [js "<" ++ tag ++ js ">" ++ nl ++ join nl files ++ nl ++ js "</" ++ tag ++ js ">"] in
  let sections := section (js "read-files") (readFiles l) ++ section (js "modified-files") (modifiedFiles l) in
  if is_empty sections then [] else nl ++ nl ++ join (nl ++ nl) sections.

(** [CompactionDetails] as stored on an entry. *)
Definition details_json (l : file_lists) : json :=
  JObj [(js "readFiles", JArr (map JStr (readFiles l))); (js "modifiedFiles", JArr (map JStr (modifiedFiles l)))].

(** The strings of an array property; anything else adds nothing. *)
Definition string_items (details : json) (key : jsstr) : list jsstr :=
  match details with
  | JObj m =>
      match get_prop m key with
      | Some (JArr l) => flat_map (fun v => match v with JStr s => [s] | _ => [] end) l
      | _ => []
      end
  | _ => []
  end.

(** [extractFileOperations]; the previous compaction entry, when there is one,
    contributes the lists it stored unless an extension produced it. *)
Definition extractFileOperations (messages : list AgentMessage) (prev : option SessionTreeEntry) : FileOperations :=
  let start :=
    match e_body <$> prev with
    | Some (ECompaction _ _ _ (Some details) fromHook) =>
        if default false fromHook then createFileOps
        else mkFileOps (list_to_set (string_items details (js "readFiles"))) ∅
                       (list_to_set (string_items details (js "modifiedFiles")))
    | _ => createFileOps
    end in
  fold_left extractFileOpsFromMessage messages start.

(** ** [serializeConversation] *)

Definition TOOL_RESULT_MAX_CHARS : Z := 2000.

Definition truncateForSummary (text : jsstr) (maxChars : Z) : jsstr :=
  if zlen text <=? maxChars then text
  else slice_to text maxChars ++ nl ++ nl ++ js "[... " ++ show (zlen text - maxChars) ++ js " more characters truncated]".

Definition block_texts (l : list content_block) : list jsstr :=
  flat_map (fun b => match b with CText t _ => [t] | CImage _ _ => [] end) l.

(** [Object.entries(args).map(([k, v]) => ...).join(", ")]. *)
Definition args_text (args : json) : jsstr :=
  match args with
  | JObj m => join (js ", ") (map (fun kv => kv.1 ++ js "=" ++ stringify kv.2) m)
  | _ => []
  end.

(** What one message adds to [parts]. *)
Definition serialize_message (m : Message) : list jsstr :=
  let part tag text := [js "[" ++ tag ++ js "]: " ++ text] in
  match m with
  | LUser u =>
      let content := match um_content u with RString s => s | RBlocks l => join [] (block_texts l) end in
      if is_empty content then [] else part (js "User") content
  | LAssistant a =>
      let textParts := flat_map (fun b => match b with AText t _ => [t] | _ => [] end) (am_content a) in
      let thinkingParts := flat_map (fun b => match b with AThinking t _ _ => [t] | _ => [] end) (am_content a) in
      let toolCalls := map (fun c => tc_name c ++ js "(" ++ args_text (tc_arguments c) ++ js ")") (tool_calls a) in
      (if is_empty thinkingParts then [] else part (js "Assistant thinking") (join nl thinkingParts))
      ++ (if is_empty textParts then [] else part (js "Assistant") (join nl textParts))
      ++ (if is_empty toolCalls then [] else part (js "Assistant tool calls") (join (js "; ") toolCalls))
  | LToolResult t =>
      let content := join [] (block_texts (tr_content t)) in
      if is_empty content then [] else part (js "Tool result") (truncateForSummary content TOOL_RESULT_MAX_CHARS)
  end.

Definition serializeConversation (messages : list Message) : jsstr :=
  join (nl ++ nl) (flat_map serialize_message messages).

(** ** Settings *)

(** The numbers of the settings file may be fractional. *)
Record CompactionSettings := mkSettings {
  st_enabled : bool;
  st_reserveTokens : option Q;
  st_keepRecentTokens : option Q;
  st_triggerReserveTokens : option Q;
  st_triggerRatio : option Q;
  st_keepRecentMinTokens : option Q;
  st_keepRecentMaxTokens : option Q;
  st_summaryMaxTokens : option Q;
  st_renderedStateMaxTokens : option Q;
  st_targetContextTokens : option Q;
}.

Definition DEFAULT_COMPACTION_SETTINGS : CompactionSettings :=
  mkSettings true None None (Some 12000%Q) (Some (3 # 4)%Q) (Some 2000%Q) (Some 8000%Q) (Some 1200%Q) (Some 1500%Q) (Some 12000%Q).

Record ResolvedCompactionSettings := mkResolved {
  rs_enabled : bool;
  rs_triggerReserveTokens : Q;
  rs_triggerRatio : option Q;
  rs_keepRecentMinTokens : Q;
  rs_keepRecentMaxTokens : Q;
  rs_summaryMaxTokens : Q;
  rs_renderedStateMaxTokens : Q;
  rs_targetContextTokens : Q;
}.

(** [a ?? b]. *)
Definition coalesce {A} (a b : option A) : option A := match a with Some x => Some x | None => b end.

Definition resolveCompactionSettings (s : CompactionSettings) : ResolvedCompactionSettings :=
  let or_default (a : option Q) (f : CompactionSettings -> option Q) : Q :=
    default 0%Q (coalesce a (f DEFAULT_COMPACTION_SETTINGS)) in
  mkResolved (st_enabled s)
    (or_default (coalesce (st_reserveTokens s) (st_triggerReserveTokens s)) st_triggerReserveTokens)
    (coalesce (st_triggerRatio s)
      (match st_reserveTokens s, st_triggerReserveTokens s with
       | Some _, None => None
       | _, _ => st_triggerRatio DEFAULT_COMPACTION_SETTINGS
       end))
    (or_default (coalesce (st_keepRecentTokens s) (st_keepRecentMinTokens s)) st_keepRecentMinTokens)
    (or_default (coalesce (st_keepRecentTokens s) (st_keepRecentMaxTokens s)) st_keepRecentMaxTokens)
    (or_default (st_summaryMaxTokens s) st_summaryMaxTokens)
    (or_default (st_renderedStateMaxTokens s) st_renderedStateMaxTokens)
    (or_default (st_targetContextTokens s) st_targetContextTokens).

(** ** Token estimates *)

Definition calculateContextTokens (u : Usage) : Z :=
  if u_totalTokens u =? 0 then u_input u + u_output u + u_cacheRead u + u_cacheWrite u else u_totalTokens u.

Definition getAssistantUsage (m : AgentMessage) : option Usage :=
  match m with
  | MAssistant a =>
      match am_stopReason a with
      | StopAborted | StopError => None
      | _ => Some (am_usage a)
      end
  | _ => None
  end.

(** The first [Some] of [f] from the end of the list. *)
Definition find_from_end {A B} (f : A -> option B) (l : list A) : option B := head (omap f (reverse l)).

Definition getLastAssistantUsage (es : list SessionTreeEntry) : option Usage :=
  find_from_end (fun e => match e_body e with EMessage m => getAssistantUsage m | _ => None end) es.

Definition latest_compaction_timestamp (ms : list AgentMessage) : Z :=
  default 0 (find_from_end (fun m => match m with MCompactionSummary c => Some (cs_timestamp c) | _ => None end) ms).

Definition getLastAssistantUsageInfo (ms : list AgentMessage) : option (Usage * nat) :=
  let latest := latest_compaction_timestamp ms in
  find_from_end (fun im =>
    match im.2 with
    | MAssistant a =>
        if (0 <? latest) && (am_timestamp a <=? latest) then None
        else (fun u => (u, im.1)) <$> getAssistantUsage im.2
    | _ => None
    end) (imap pair ms).

Definition ESTIMATED_IMAGE_CHARS : Z := 4800.

Definition estimateTextAndImageContentChars (c : rich_content) : Z :=
  match c with
  | RString s => zlen s
  | RBlocks l => sumZ (map (fun b => match b with CText t _ => zlen t | CImage _ _ => ESTIMATED_IMAGE_CHARS end) l)
  end.

Definition estimateTokens (m : AgentMessage) : Z :=
  ceil_div
    (match m with
     | MUser u => estimateTextAndImageContentChars (um_content u)
     | MAssistant a =>
         sumZ (map (fun b => match b with
                             | AText t _ => zlen t
                             | AThinking t _ _ => zlen t
                             | AToolCall c => zlen (tc_name c) + zlen (stringify (tc_arguments c))
                             end) (am_content a))
     | MCustom c => estimateTextAndImageContentChars (cm_content c)
     | MToolResult t => estimateTextAndImageContentChars (RBlocks (tr_content t))
     | MBash b => zlen (be_command b) + zlen (be_output b)
     | MBranchSummary b => zlen (bs_summary b)
     | MCompactionSummary c => zlen (cs_summary c)
     end) 4.

Record ContextUsageEstimate := mkEstimate {
  ce_tokens : Z; ce_usageTokens : Z; ce_trailingTokens : Z; ce_lastUsageIndex : option nat; ce_staticTokens : Z;
}.

Definition estimateContextTokens (ms : list AgentMessage) (systemPrompt : option jsstr) : ContextUsageEstimate :=
  let staticTokens := match systemPrompt with Some p => ceil_div (zlen p) 4 | None => 0 end in
  match getLastAssistantUsageInfo ms with
  | None =>
      let estimated := staticTokens + sumZ (map estimateTokens ms) in
      mkEstimate estimated 0 estimated None staticTokens
  | Some (usage, index) =>
      let usageTokens := calculateContextTokens usage in
      let trailingTokens := sumZ (map estimateTokens (drop (S index) ms)) in
      mkEstimate (staticTokens + usageTokens + trailingTokens) usageTokens trailingTokens (Some index) staticTokens
  end.

(** ** When to compact, and how much to keep *)

Definition Qltb (a b : Q) : bool := negb (Qle_bool b a).
Definition qmax (a b : Q) : Q := if Qle_bool a b then b else a.
Definition qmin (a b : Q) : Q := if Qle_bool a b then a else b.

Definition shouldCompact (contextTokens contextWindow : Z) (s : CompactionSettings) : bool :=
  let r := resolveCompactionSettings s in
  if negb (rs_enabled r) then false
  else if contextWindow <=? 0 then false
  else
    let reserveThreshold := qmax 0 (inject_Z contextWindow - rs_triggerReserveTokens r) in
    let threshold :=
      match rs_triggerRatio r with
      | None => reserveThreshold
      | Some ratio => qmin reserveThreshold (inject_Z (Z.max 0 (Qfloor (inject_Z contextWindow * ratio))))
      end in
    Qltb threshold (inject_Z contextTokens).

(** [Math.round]. *)
Definition Qround (q : Q) : Z := Qfloor (q + (1 # 2)).

Definition selectKeepRecentTokens (contextTokens : Z) (s : CompactionSettings) : Z :=
  let r := resolveCompactionSettings s in
  let minTokens := Z.max 0 (Qfloor (rs_keepRecentMinTokens r)) in
  let maxTokens := Z.max minTokens (Qfloor (rs_keepRecentMaxTokens r)) in
  if maxTokens =? minTokens then minTokens
  else
    let rampStart := (rs_targetContextTokens r * 4)%Q in
    let rampEnd := (rs_targetContextTokens r * 8)%Q in
    let context := inject_Z contextTokens in
    if Qle_bool context rampStart then maxTokens
    else if Qle_bool rampEnd context then minTokens
    else
      let pressure := ((context - rampStart) / (rampEnd - rampStart))%Q in
      Qround (inject_Z maxTokens - (inject_Z maxTokens - inject_Z minTokens) * pressure).

(** ** The cut point *)

(** [case] of the entry type and the message role. *)
Definition is_cut_entry (e : SessionTreeEntry) : bool :=
  match e_body e with
  | EMessage (MToolResult _) => false
  | EMessage _ => true
  | EBranchSummary _ _ _ _ | ECustomMessage _ _ _ _ => true
  | _ => false
  end.

Definition at_index {A} (p : A -> bool) (l : list A) (i : nat) : bool :=
  match l !! i with Some e => p e | None => false end.

Definition findValidCutPoints (es : list SessionTreeEntry) (startIndex endIndex : nat) : list nat :=
  List.filter (at_index is_cut_entry es) (seq startIndex (endIndex - startIndex)).

Definition is_turn_start (e : SessionTreeEntry) : bool :=
  match e_body e with
  | EBranchSummary _ _ _ _ | ECustomMessage _ _ _ _ => true
  | EMessage (MUser _) | EMessage (MBash _) => true
  | _ => false
  end.

(** [None] is the [-1] of the source. *)
Definition findTurnStartIndex (es : list SessionTreeEntry) (entryIndex startIndex : nat) : option nat :=
  List.find (at_index is_turn_start es) (reverse (seq startIndex (S entryIndex - startIndex))).

(** Tokens of the entry, when it is a message. *)
Definition entry_tokens (e : SessionTreeEntry) : Z :=
  match e_body e with EMessage m => estimateTokens m | _ => 0 end.

Definition is_message (e : SessionTreeEntry) : bool :=
  match e_body e with EMessage _ => true | _ => false end.

(** The accumulating loop over descending indices: where the budget is reached. *)
Fixpoint reach_budget (es : list SessionTreeEntry) (keep acc : Z) (indices : list nat) : option nat :=
  match indices with
  | [] => None
  | i :: indices' =>
      match es !! i with
      | Some e =>
          if is_message e then
            if keep <=? acc + entry_tokens e then Some i
            else reach_budget es keep (acc + entry_tokens e) indices'
          else reach_budget es keep acc indices'
      | None => reach_budget es keep acc indices'
      end
  end.

(** The cut chosen once the budget is reached at [i]. *)
Definition select_cut (cutPoints : list nat) (i : nat) : option nat :=
  match List.find (fun c => Nat.ltb i c) cutPoints with
  | Some c => Some c
  | None =>
      match List.find (fun c => Nat.leb i c) cutPoints with
      | Some c => Some c
      | None => last cutPoints
      end
  end.

(** The [while] loop that moves the cut over entries that hold no message. *)
Fixpoint move_back (es : list SessionTreeEntry) (startIndex cut : nat) : nat :=
  match cut with
  | O => O
  | S c =>
      if Nat.ltb startIndex (S c) then
        match es !! c with
        | Some e => if is_compaction e || is_message e then S c else move_back es startIndex c
        | None => S c
        end
      else S c
  end.

Record CutPointResult := mkCut {
  firstKeptEntryIndex : nat; turnStartIndex : option nat; isSplitTurn : bool;
}.

(** The value of [cutIndex] when the accumulating loop ends. *)
Definition raw_cut (es : list SessionTreeEntry) (startIndex endIndex : nat) (keep : Z) (first : nat) : nat :=
  match reach_budget es keep 0 (reverse (seq startIndex (endIndex - startIndex))) with
  | Some i => default first (select_cut (findValidCutPoints es startIndex endIndex) i)
  | None => first
  end.

Definition is_user_entry (e : SessionTreeEntry) : bool :=
  match e_body e with EMessage (MUser _) => true | _ => false end.

Definition findCutPoint (es : list SessionTreeEntry) (startIndex endIndex : nat) (keepRecentTokens : Z) : CutPointResult :=
  match findValidCutPoints es startIndex endIndex with
  | [] => mkCut startIndex None false
  | first :: _ =>
      let cut := move_back es startIndex (raw_cut es startIndex endIndex keepRecentTokens first) in
      let isUserMessage := at_index is_user_entry es cut in
      let turnStart := if isUserMessage then None else findTurnStartIndex es cut startIndex in
      mkCut cut turnStart (negb isUserMessage && match turnStart with Some _ => true | None => false end)
  end.

(** ** [prepareCompaction] *)

Inductive CompactionErrorCode := ce_aborted | ce_summarization_failed | ce_invalid_session | ce_unknown.
Record CompactionError := mkCompactionError { ce_code : CompactionErrorCode; ce_message : jsstr }.

Definition no_uuid_error : CompactionError :=
  mkCompactionError ce_invalid_session (js "First kept entry has no UUID - session may need migration").

Record CompactionPreparation := mkPreparation {
  cp_firstKeptEntryId : jsstr;
  cp_messagesToSummarize : list AgentMessage;
  cp_turnPrefixMessages : list AgentMessage;
  cp_isSplitTurn : bool;
  cp_tokensBefore : Z;
  cp_previousSummary : option jsstr;
  cp_fileOps : FileOperations;
  cp_settings : CompactionSettings;
  cp_keepRecentTokens : Z;
}.

(** The entries [from <= i < to]. *)
Definition slice {A} (l : list A) (from to : nat) : list A := take (to - from) (drop from l).

(** The last index holding a compaction, as found by the backward loop. *)
Definition last_compaction (path : list SessionTreeEntry) : option nat :=
  List.find (at_index is_compaction path) (reverse (seq 0 (length path))).

(** [previousSummary] and [boundaryStart] for a previous compaction at [i]. *)
Definition boundary (path : list SessionTreeEntry) : option SessionTreeEntry * option jsstr * nat :=
  match last_compaction path with
  | None => (None, None, 0%nat)
  | Some i =>
      match path !! i with
      | Some e =>
          match e_body e with
          | ECompaction summary firstKept _ _ _ =>
              (Some e, Some summary,
               default (S i) (find_index (fun x => bool_decide (e_id x = firstKept)) path))
          | _ => (None, None, 0%nat)
          end
      | None => (None, None, 0%nat)
      end
  end.

Section Prepare.
Context (get_time : jsstr -> Z).

Definition getMessageFromEntry (e : SessionTreeEntry) : option AgentMessage :=
  match e_body e with
  | EMessage m => Some m
  | ECustomMessage ct c d disp => Some (MCustom (createCustomMessage get_time ct c disp d (e_timestamp e)))
  | EBranchSummary fromId summary _ _ =>
      Some (MBranchSummary (createBranchSummaryMessage get_time summary fromId (e_timestamp e)))
  | ECompaction summary _ tokens _ _ =>
      Some (MCompactionSummary (createCompactionSummaryMessage get_time summary tokens (e_timestamp e)))
  | _ => None
  end.

Definition getMessageFromEntryForCompaction (e : SessionTreeEntry) : option AgentMessage :=
  if is_compaction e then None else getMessageFromEntry e.

Definition prepareCompaction (path : list SessionTreeEntry) (settings : CompactionSettings) (systemPrompt : option jsstr)
    : result CompactionError (option CompactionPreparation) :=
  if match last path with None => true | Some e => is_compaction e end then Ok None
  else
    let '(prev, previousSummary, boundaryStart) := boundary path in
    let tokensBefore := ce_tokens (estimateContextTokens (sc_messages (buildSessionContext get_time path)) systemPrompt) in
    let keepRecentTokens := selectKeepRecentTokens tokensBefore settings in
    let cut := findCutPoint path boundaryStart (length path) keepRecentTokens in
    match path !! firstKeptEntryIndex cut with
    | None => Throw no_uuid_error
    | Some firstKept =>
        if is_empty (e_id firstKept) then Throw no_uuid_error
        else
          let historyEnd := if isSplitTurn cut then default 0%nat (turnStartIndex cut) else firstKeptEntryIndex cut in
          let messagesToSummarize := omap getMessageFromEntryForCompaction (slice path boundaryStart historyEnd) in
          let turnPrefixMessages :=
            if isSplitTurn cut
            then omap getMessageFromEntryForCompaction
                   (slice path (default 0%nat (turnStartIndex cut)) (firstKeptEntryIndex cut))
            else [] in
          let fileOps := extractFileOperations messagesToSummarize prev in
          let fileOps := if isSplitTurn cut then fold_left extractFileOpsFromMessage turnPrefixMessages fileOps else fileOps in
          Ok (Some (mkPreparation (e_id firstKept) messagesToSummarize turnPrefixMessages (isSplitTurn cut)
                      tokensBefore previousSummary fileOps settings keepRecentTokens))
    end.
End Prepare.

(** ** Generating the summary *)

Definition SUMMARIZATION_SYSTEM_PROMPT : jsstr :=
  join nl [js "You are a context summarization assistant. Your task is to read a conversation between a user and an AI assistant, then produce a structured summary following the exact format specified.";
    [];
    js "Do NOT continue the conversation. Do NOT respond to any questions in the conversation. ONLY output the structured summary."].

Definition SUMMARIZATION_PROMPT : jsstr :=
  join nl [js "The messages above are a conversation to summarize. Create a structured context checkpoint summary that another LLM will use to continue the work.";
    [];
    js "Use this EXACT format:";
    [];
    js "## Goal";
    js "[State the exact current goal. Preserve unchanged the original prompt or updated goal verbatim, incorporating any subsequent user corrections if they changed the goal.]";
    [];
    js "## Plan";
    js "[Preserve the actual step-by-step plan verbatim. Encode progress only in each plan item's status.]";
    js "- [ ] [Not started]";
    js "- [.] [In progress]";
    js "- [v] [Done]";
    js "- [-] [Failed]";
    js "- [!] [Blocked]";
    [];
    js "## Decisions";
    js "- **[Decision]**: [Brief rationale]";
    [];
    js "## Files";
    js "- [read|modified|created|deleted]: [Exact path] - [Concise summary]";
    [];
    js "## Risks";
    js "- [Unresolved failure, blocker, warning, or " ++ [34] ++ js "(none)" ++ [34] ++ js "]";
    [];
    js "Keep each section concise. Preserve exact file paths, function names, and error messages."].

Definition UPDATE_SUMMARIZATION_PROMPT : jsstr :=
  join nl [js "The messages above are NEW conversation messages to incorporate into the existing summary provided in <previous-summary> tags.";
    [];
    js "Update the existing structured summary with new information. RULES:";
    js "- PRESERVE all existing information from the previous summary";
    js "- ADD new plan status, decisions, files, and risks from the new messages";
    js "- UPDATE Plan checkboxes: [] not started, [.] in progress, [v] done, [-] failed, [!] blocked";
    js "- PRESERVE exact file paths, function names, and error messages";
    js "- If something is no longer relevant, you may remove it";
    [];
    js "Use this EXACT format:";
    [];
    js "## Goal";
    js "[Preserve unchanged the original prompt or updated goal verbatim, adding new ones only if the task expanded]";
    [];
    js "## Plan";
    js "[Preserve the actual plan verbatim. Include previously done items and newly completed items. Use [] not started, [.] in progress, [v] done, [-] failed, [!] blocked.]";
    [];
    js "## Decisions";
    js "- **[Decision]**: [Brief rationale] (preserve all previous, add new)";
    [];
    js "## Files";
    js "- [read|modified|created|deleted]: [Exact path] - [Concise summary]";
    [];
    js "## Risks";
    js "- [Preserve unresolved failures, blockers, and warnings; remove resolved items]";
    [];
    js "Keep each section concise. Preserve exact file paths, function names, and error messages."].

Definition TURN_PREFIX_SUMMARIZATION_PROMPT : jsstr :=
  join nl [js "This is the PREFIX of a turn that was too large to keep. The SUFFIX (recent work) is retained.";
    [];
    js "Summarize the prefix to provide context for the retained suffix:";
    [];
    js "## Original Request";
    js "[What did the user ask for in this turn?]";
    [];
    js "## Early Progress";
    js "- [Key decisions and work done in the prefix]";
    [];
    js "## Context for Suffix";
    js "- [Information needed to understand the retained recent work]";
    [];
    js "Be concise. Focus on what's needed to understand the kept suffix."].

(** [completeSimple] of the provider library: a call with its options, which may
    reject; [now] is [Date.now()]. *)
Section Generate.
Context {W Err Signal : Type}.

Record CompletionOptions := mkOptions {
  co_maxTokens : Q;
  co_signal : option Signal;
  co_apiKey : jsstr;
  co_headers : option (list (jsstr * jsstr));
  co_reasoning : option jsstr;
}.

Context (completeSimple : Model -> jsstr -> list Message -> CompletionOptions -> M W Err AssistantMessage).
Context (now : M W Err Z).
(** When both of two concurrent calls reject, the one that rejects first. *)
Context (first_of_two : W -> bool).

#[local] Open Scope eff.

(** The parameters the two summary calls share. *)
Record summary_call := mkCall {
  sm_model : Model; sm_apiKey : jsstr; sm_headers : option (list (jsstr * jsstr));
  sm_signal : option Signal; sm_thinkingLevel : option jsstr;
}.

Definition token_limit (limit : Q) (m : Model) : Q :=
  if 0 <? md_maxTokens m then qmin limit (inject_Z (md_maxTokens m)) else limit.

Definition reasoning_option (c : summary_call) : option jsstr :=
  match sm_thinkingLevel c with
  | Some level =>
      if md_reasoning (sm_model c) && negb (is_empty level) && negb (bool_decide (level = js "off"))
      then Some level else None
  | None => None
  end.

(** [a || b] on strings. *)
Definition or_text (a : option jsstr) (b : jsstr) : jsstr :=
  match a with Some (c :: s) => c :: s | _ => b end.

(** One request; [label] starts the error texts. *)
Definition request_summary (c : summary_call) (promptText : jsstr) (maxTokens : Q) (label : jsstr)
    : M W Err (result CompactionError jsstr) :=
  let* timestamp := now in
  let* response := completeSimple (sm_model c) SUMMARIZATION_SYSTEM_PROMPT [text_message promptText timestamp]
                     (mkOptions maxTokens (sm_signal c) (sm_apiKey c) (sm_headers c) (reasoning_option c)) in
  ret (match am_stopReason response with
       | StopAborted => Throw (mkCompactionError ce_aborted (or_text (am_errorMessage response) (label ++ js " aborted")))
       | StopError => Throw (mkCompactionError ce_summarization_failed
                              (label ++ js " failed: " ++ or_text (am_errorMessage response) (js "Unknown error")))
       | _ => Ok (join nl (text_parts response))
       end).

Definition conversation_block (messages : list AgentMessage) : jsstr :=
  js "<conversation>" ++ nl ++ serializeConversation (convertToLlm messages) ++ nl ++ js "</conversation>" ++ nl ++ nl.

Definition summary_prompt (messages : list AgentMessage) (customInstructions previousSummary : option jsstr) : jsstr :=
  let previous := or_text previousSummary [] in
  let focus := or_text customInstructions [] in
  conversation_block messages
  ++ (if is_empty previous then []
      else js "<previous-summary>" ++ nl ++ previous ++ nl ++ js "</previous-summary>" ++ nl ++ nl)
  ++ (if is_empty previous then SUMMARIZATION_PROMPT else UPDATE_SUMMARIZATION_PROMPT)
  ++ (if is_empty focus then [] else nl ++ nl ++ js "Additional focus: " ++ focus).

Definition generateSummary (messages : list AgentMessage) (c : summary_call) (summaryMaxTokens : Q)
    (customInstructions previousSummary : option jsstr) : M W Err (result CompactionError jsstr) :=
  request_summary c (summary_prompt messages customInstructions previousSummary)
    (token_limit summaryMaxTokens (sm_model c)) (js "Summarization").

Definition generateTurnPrefixSummary (messages : list AgentMessage) (c : summary_call) (summaryMaxTokens : Q)
    : M W Err (result CompactionError jsstr) :=
  request_summary c (conversation_block messages ++ TURN_PREFIX_SUMMARIZATION_PROMPT)
    (token_limit (inject_Z (Qfloor ((1 # 2) * summaryMaxTokens))) (sm_model c)) (js "Turn prefix summarization").

(** [Promise.all] of two calls: both run whatever the other does. *)
Definition both {A B} (c1 : M W Err A) (c2 : M W Err B) : M W Err (A * B) := fun w =>
  let '(r1, w1) := c1 w in
  let '(r2, w2) := c2 w1 in
  (match r1, r2 with
   | Ok a, Ok b => Ok (a, b)
   | Throw e, Ok _ => Throw e
   | Ok _, Throw e => Throw e
   | Throw e1, Throw e2 => Throw (if first_of_two w2 then e1 else e2)
   end, w2).

Record CompactionResult := mkCompactionResult {
  cr_summary : jsstr; cr_firstKeptEntryId : jsstr; cr_tokensBefore : Z; cr_details : file_lists;
}.

(** What [compact] returns once the summary text is known. *)
Definition compaction_result (p : CompactionPreparation) (summary : jsstr) : CompactionResult :=
  let lists := computeFileLists (cp_fileOps p) in
  mkCompactionResult (summary ++ formatFileOperations lists) (cp_firstKeptEntryId p) (cp_tokensBefore p) lists.

Definition compact (p : CompactionPreparation) (c : summary_call) (customInstructions : option jsstr)
    : M W Err (result CompactionError CompactionResult) :=
  let limit := rs_summaryMaxTokens (resolveCompactionSettings (cp_settings p)) in
  let history := generateSummary (cp_messagesToSummarize p) c limit customInstructions (cp_previousSummary p) in
  if is_empty (cp_firstKeptEntryId p) then ret (Throw no_uuid_error)
  else if cp_isSplitTurn p && negb (is_empty (cp_turnPrefixMessages p)) then
    let* ' (historyResult, turnPrefixResult) :=
      both (if is_empty (cp_messagesToSummarize p) then ret (Ok (js "No prior history.")) else history)
           (generateTurnPrefixSummary (cp_turnPrefixMessages p) c limit) in
    ret (match historyResult, turnPrefixResult with
         | Throw e, _ => Throw e
         | Ok _, Throw e => Throw e
         | Ok h, Ok t =>
             Ok (compaction_result p
                   (h ++ nl ++ nl ++ js "---" ++ nl ++ nl ++ js "**Turn Context (split turn):**" ++ nl ++ nl ++ t))
         end)
  else
    let* summaryResult := history in
    ret (match summaryResult with
         | Throw e => Throw e
         | Ok s => Ok (compaction_result p s)
         end).
End Generate.
