(* ===== verification/CompactionProps.v ===== *)
(** Theorems about compaction: which cut point is chosen and why it is safe,
    what a compaction summarizes and keeps, the recent-token budget, and the
    file lists carried from one compaction to the next. *)
From Stdlib Require Import QArith_base Qround Lqa.
From S2P Require Import Prelude JsString Json Effects Uuid Messages SessionTree SessionLaws SessionProps Compaction.

(** ** Token sums over a range of entries *)

Definition kept_tokens (es : list SessionTreeEntry) (from to : nat) : Z :=
  sumZ (map entry_tokens (slice es from to)).

Lemma sum_chars_nonneg {A} (f : A -> Z) l : (forall x, 0 <= f x) -> 0 <= sumZ (map f l).
Proof. intros H. induction l as [|x l IH]; simpl; [lia|]. specialize (H x). lia. Qed.

Lemma estimate_chars_nonneg c : 0 <= estimateTextAndImageContentChars c.
Proof.
  destruct c as [s|l]; simpl; [apply zlen_nonneg|]. apply sum_chars_nonneg.
  intros []; [apply zlen_nonneg|done].
Qed.

Lemma estimateTokens_nonneg m : 0 <= estimateTokens m.
Proof.
  unfold estimateTokens. apply ceil_div_nonneg; [lia|].
  destruct m as [u|a|t|b|c|b|c]; try apply estimate_chars_nonneg; try apply zlen_nonneg.
  - apply sum_chars_nonneg. intros [t ?|t ? ?|c]; try apply zlen_nonneg.
    pose proof (zlen_nonneg (tc_name c)). pose proof (zlen_nonneg (stringify (tc_arguments c))). lia.
  - pose proof (zlen_nonneg (be_command b)). pose proof (zlen_nonneg (be_output b)). lia.
Qed.

Lemma entry_tokens_nonneg e : 0 <= entry_tokens e.
Proof. unfold entry_tokens. destruct (e_body e); try done. apply estimateTokens_nonneg. Qed.

Lemma slice_nil {A} (l : list A) i j : (j <= i)%nat -> slice l i j = [].
Proof. intros H. unfold slice. by replace (j - i)%nat with 0%nat by lia. Qed.

Lemma slice_snoc {A} (l : list A) i j x : (i <= j)%nat -> l !! j = Some x -> slice l i (S j) = slice l i j ++ [x].
Proof.
  intros Hij Hx. unfold slice. replace (S j - i)%nat with (S (j - i)) by lia.
  rewrite (take_S_r _ _ x); [done|]. rewrite lookup_drop. by replace (i + (j - i))%nat with j by lia.
Qed.

Lemma slice_app {A} (l : list A) i j k : (i <= j <= k)%nat -> slice l i j ++ slice l j k = slice l i k.
Proof.
  intros H. unfold slice. replace (k - i)%nat with ((j - i) + (k - j))%nat by lia.
  rewrite <- take_take_drop, drop_drop. by replace (i + (j - i))%nat with j by lia.
Qed.

Lemma slice_to_end {A} (l : list A) i : slice l i (length l) = drop i l.
Proof. unfold slice. apply take_ge. by rewrite length_drop. Qed.

Lemma kept_tokens_snoc es c e x : (c <= e)%nat -> es !! e = Some x ->
  kept_tokens es c (S e) = kept_tokens es c e + entry_tokens x.
Proof. intros H Hx. unfold kept_tokens. rewrite (slice_snoc _ _ _ x), map_app, sumZ_app by done. simpl. lia. Qed.

Lemma kept_tokens_mono es c c' e : (c <= c' <= e)%nat -> kept_tokens es c' e <= kept_tokens es c e.
Proof.
  intros H. unfold kept_tokens. rewrite <- (slice_app es c c' e), map_app, sumZ_app by lia.
  pose proof (sum_chars_nonneg entry_tokens (slice es c c') entry_tokens_nonneg). lia.
Qed.

Lemma kept_tokens_empty es e : kept_tokens es e e = 0.
Proof. unfold kept_tokens. by rewrite slice_nil by lia. Qed.

(** ** The accumulating loop *)

Lemma reverse_seq_S s n : reverse (seq s (S n)) = (s + n)%nat :: reverse (seq s n).
Proof. rewrite seq_S, reverse_snoc. done. Qed.

Lemma kept_tokens_split es c e x n : (c <= e <= n)%nat -> es !! e = Some x ->
  kept_tokens es e n = kept_tokens es (S e) n + (if Nat.ltb e n then entry_tokens x else 0).
Proof.
  intros H Hx. unfold kept_tokens. destruct (Nat.ltb_spec e n) as [Hlt|Hge].
  - rewrite <- (slice_app es e (S e) n), map_app, sumZ_app by lia.
    rewrite (slice_snoc es e e x), (slice_nil es e e) by (done || lia). simpl. lia.
  - rewrite !slice_nil by lia. simpl. lia.
Qed.

(** Where the loop stops: the suffix from there reaches the budget, the
    suffix after it does not. *)
Lemma reach_budget_spec es keep s n e :
  (s + n <= e)%nat -> (e <= length es)%nat -> kept_tokens es (s + n) e < keep ->
  match reach_budget es keep (kept_tokens es (s + n) e) (reverse (seq s n)) with
  | Some i => (s <= i < s + n)%nat /\ keep <= kept_tokens es i e /\ kept_tokens es (S i) e < keep
  | None => kept_tokens es s e < keep
  end.
Proof.
  induction n as [|n IH]; intros Hle Hlen Hacc; [by rewrite Nat.add_0_r in Hacc|].
  rewrite reverse_seq_S. cbn [reach_budget].
  destruct (lookup_lt_is_Some_2 es (s + n)) as [x Hx]; [lia|]. rewrite Hx.
  pose proof (kept_tokens_split es (s + n) (s + n) x e ltac:(lia) Hx) as Hs.
  destruct (Nat.ltb_spec (s + n) e); [|lia]. rewrite Nat.add_succ_r in *.
  destruct (is_message x) eqn:Em.
  - destruct (keep <=? _) eqn:Eb; bool_hyps.
    + split_and!; lia.
    + rewrite <- Hs in *. specialize (IH ltac:(lia) Hlen ltac:(lia)). destruct (reach_budget _ _ _ _); [|done]. destruct IH; split; [lia|done].
  - assert (Ht : entry_tokens x = 0) by (unfold is_message, entry_tokens in *; by destruct (e_body x)).
    rewrite Ht, Z.add_0_r in Hs. rewrite <- Hs in *.
    specialize (IH ltac:(lia) Hlen ltac:(lia)). destruct (reach_budget _ _ _ _); [|done]. destruct IH; split; [lia|done].
Qed.

(** ** The chosen cut *)

(** What the selection is meant to compute: the earliest valid cut that keeps
    less than the budget, or the last valid cut when every one keeps more. *)
Definition best_cut (es : list SessionTreeEntry) (endIndex : nat) (keep : Z) (cuts : list nat) : option nat :=
  match List.find (fun c => kept_tokens es c endIndex <? keep) cuts with
  | Some c => Some c
  | None => last cuts
  end.

Lemma cut_points_in es s e c :
  c ∈ findValidCutPoints es s e <-> (s <= c < e)%nat /\ at_index is_cut_entry es c = true.
Proof.
  unfold findValidCutPoints. rewrite list_elem_of_In, filter_In, <- list_elem_of_In, elem_of_seq.
  split; intros [H1 H2]; (split; [lia|done]).
Qed.

Lemma cut_points_sorted es s e : StronglySorted lt (findValidCutPoints es s e).
Proof.
  unfold findValidCutPoints. generalize (e - s)%nat as n. intros n. revert s.
  induction n as [|n IH]; intros s; simpl; [constructor|].
  destruct (at_index _ _ _); [|apply IH]. constructor; [apply IH|].
  apply Forall_forall. intros x. rewrite list_elem_of_In, filter_In, <- list_elem_of_In, elem_of_seq. lia.
Qed.

Lemma sorted_last_max (l : list nat) x : StronglySorted lt l -> x ∈ l -> Forall (fun y => (y <= x)%nat) l -> last l = Some x.
Proof.
  intros Hs Hin Hle. induction Hs as [|y l Hs IH Hy]; [set_solver|]. inversion Hle; subst.
  destruct l as [|z l].
  - apply list_elem_of_singleton in Hin. by subst.
  - rewrite last_cons_cons. apply IH; [|done]. apply elem_of_cons in Hin as [->|Hin]; [|done].
    inversion Hy; subst. inversion H2; subst. lia.
Qed.

Lemma find_None_Forall {A} (p : A -> bool) l : List.find p l = None -> Forall (fun x => p x = false) l.
Proof. intros H. apply Forall_forall. intros x Hx%list_elem_of_In. by eapply find_none. Qed.

(** Choosing past [i] is choosing by tokens. *)
Lemma select_cut_best es s e keep i :
  (i < e)%nat -> keep <= kept_tokens es i e -> kept_tokens es (S i) e < keep ->
  select_cut (findValidCutPoints es s e) i = best_cut es e keep (findValidCutPoints es s e).
Proof.
  intros Hi Hge Hlt. pose proof (cut_points_sorted es s e) as Hsort. unfold select_cut, best_cut.
  rewrite (find_ext_in (fun c => kept_tokens es c e <? keep) (fun c => Nat.ltb i c)).
  2:{ intros c [Hc _]%cut_points_in. destruct (Nat.ltb_spec i c).
      - apply Z.ltb_lt. pose proof (kept_tokens_mono es (S i) c e). lia.
      - apply Z.ltb_ge. pose proof (kept_tokens_mono es c i e). lia. }
  destruct (List.find _ _) eqn:E1; [done|]. apply find_None_Forall in E1.
  destruct (List.find (fun c => Nat.leb i c) _) as [c|] eqn:E2; [|done].
  apply find_some in E2 as [Hin Hle]. apply list_elem_of_In in Hin. apply Nat.leb_le in Hle.
  assert (c = i) as -> by (rewrite Forall_forall in E1; specialize (E1 c Hin); apply Nat.ltb_ge in E1; lia).
  symmetry. apply sorted_last_max; [done..|]. eapply Forall_impl; [exact E1|]. intros x Hx. by apply Nat.ltb_ge in Hx.
Qed.

Lemma raw_cut_best es s e keep first rest :
  0 < keep -> (s <= e <= length es)%nat -> findValidCutPoints es s e = first :: rest ->
  best_cut es e keep (findValidCutPoints es s e) = Some (raw_cut es s e keep first).
Proof.
  intros Hk Hse Hc. unfold raw_cut.
  pose proof (reach_budget_spec es keep s (e - s) e ltac:(lia) ltac:(lia)) as H.
  replace (s + (e - s))%nat with e in H by lia. rewrite kept_tokens_empty in H. specialize (H Hk).
  destruct (reach_budget _ _ _ _) as [i|].
  - destruct H as (Hi & Hge & Hlt). rewrite <- (select_cut_best es s e keep i) by (done || lia).
    rewrite Hc. unfold select_cut.
    destruct (List.find _ _); [done|]. destruct (List.find _ _); [done|].
    destruct (last _) eqn:El; [done|]. by apply last_None in El.
  - unfold best_cut. rewrite Hc. simpl.
    assert (first ∈ findValidCutPoints es s e) as [Hf _]%cut_points_in by (rewrite Hc; set_solver).
    destruct (_ <? _) eqn:E; [done|]. bool_hyps. pose proof (kept_tokens_mono es s first e). lia.
Qed.

Lemma move_back_le es s c : (move_back es s c <= c)%nat.
Proof.
  induction c as [|c IH]; simpl; [lia|]. destruct (Nat.ltb _ _); [|lia].
  destruct (es !! c); [|lia]. destruct (_ || _); lia.
Qed.

Lemma move_back_ge es s c : (s <= c)%nat -> (s <= move_back es s c)%nat.
Proof.
  induction c as [|c IH]; simpl; [lia|]. intros H. destruct (Nat.ltb_spec s (S c)); [|lia].
  destruct (es !! c); [|lia]. destruct (_ || _); lia.
Qed.

(** The cut only moves over entries that hold no message and no compaction. *)
Lemma move_back_skips es s c i e : (move_back es s c <= i < c)%nat -> es !! i = Some e ->
  is_message e = false /\ is_compaction e = false.
Proof.
  induction c as [|c IH]; simpl; [lia|]. intros Hi He. destruct (Nat.ltb_spec s (S c)); [|lia].
  destruct (es !! c) as [x|] eqn:Ex; [|lia]. destruct (_ || _) eqn:Eb; [lia|].
  destruct (decide (i = c)) as [->|]; [|apply IH; [lia|done]].
  rewrite He in Ex. injection Ex as ->. by apply orb_false_iff in Eb as [-> ->].
Qed.

(** Any budget: the raw cut is a valid cut point. *)
Lemma raw_cut_in es s e keep first rest :
  findValidCutPoints es s e = first :: rest -> raw_cut es s e keep first ∈ findValidCutPoints es s e.
Proof.
  intros Hc. unfold raw_cut. destruct (reach_budget _ _ _ _) as [i|]; [|rewrite Hc; set_solver].
  destruct (select_cut _ i) as [c|] eqn:E; [|rewrite Hc; set_solver]. simpl. unfold select_cut in E.
  destruct (List.find _ _) eqn:E1; [injection E as <-; apply list_elem_of_In; by eapply find_some|].
  destruct (List.find (fun c => Nat.leb i c) _) eqn:E2; [injection E as <-; apply list_elem_of_In; by eapply find_some|].
  by apply last_Some_elem_of.
Qed.

Lemma findCutPoint_cons es s e keep first rest : findValidCutPoints es s e = first :: rest ->
  firstKeptEntryIndex (findCutPoint es s e keep) = move_back es s (raw_cut es s e keep first).
Proof. intros H. unfold findCutPoint. by rewrite H. Qed.

(** Entries that hold no message weigh nothing. *)
Lemma kept_tokens_move_back es s c e : (c <= e <= length es)%nat ->
  kept_tokens es (move_back es s c) e = kept_tokens es c e.
Proof.
  intros He. pose proof (move_back_le es s c). unfold kept_tokens.
  rewrite <- (slice_app es (move_back es s c) c e), map_app, sumZ_app by lia.
  enough (sumZ (map entry_tokens (slice es (move_back es s c) c)) = 0) by lia.
  assert (Hz : Forall (fun x => entry_tokens x = 0) (slice es (move_back es s c) c)).
  { apply Forall_forall. intros x [i Hi]%list_elem_of_lookup. unfold slice in Hi.
    apply lookup_take_Some in Hi as [Hi Hlt]. rewrite lookup_drop in Hi.
    apply (move_back_skips es s c) in Hi as [Hm _]; [|lia].
    unfold is_message, entry_tokens in *. by destruct (e_body x). }
  induction Hz as [|x l Hx _ IH]; simpl; lia.
Qed.

(** The cut keeps the longest recent history that weighs less than the
    budget among the histories that start at a valid cut point, or the shortest
    valid one when every one weighs more. *)
Theorem findCutPoint_best es s e keep :
  0 < keep -> (s <= e <= length es)%nat -> findValidCutPoints es s e <> [] ->
  exists c, best_cut es e keep (findValidCutPoints es s e) = Some c /\
    firstKeptEntryIndex (findCutPoint es s e keep) = move_back es s c /\
    kept_tokens es (firstKeptEntryIndex (findCutPoint es s e keep)) e = kept_tokens es c e.
Proof.
  intros Hk Hse Hne. destruct (findValidCutPoints es s e) as [|first rest] eqn:Hc; [done|].
  rewrite (findCutPoint_cons _ _ _ _ _ _ Hc), <- Hc. eexists. split; [by eapply raw_cut_best|].
  split; [done|]. apply kept_tokens_move_back.
  pose proof (raw_cut_in es s e keep first rest Hc) as [? _]%cut_points_in. lia.
Qed.

(** The cut lies in the range, and no tool result comes right after it. *)
Lemma findCutPoint_range es s e keep : (s <= e)%nat ->
  (s <= firstKeptEntryIndex (findCutPoint es s e keep) <= e)%nat.
Proof.
  intros Hse. destruct (findValidCutPoints es s e) as [|first rest] eqn:Hc.
  - unfold findCutPoint. rewrite Hc. simpl. lia.
  - rewrite (findCutPoint_cons _ _ _ _ _ _ Hc).
    pose proof (raw_cut_in es s e keep first rest Hc) as [Hin _]%cut_points_in.
    pose proof (move_back_le es s (raw_cut es s e keep first)).
    pose proof (move_back_ge es s (raw_cut es s e keep first)). lia.
Qed.

(** Entries found between a tool call and its result: other tool results, and
    entries that record no message. *)
Definition within_batch (e : SessionTreeEntry) : bool :=
  match e_body e with
  | EMessage (MToolResult _) => true
  | EMessage _ | EBranchSummary _ _ _ _ | ECustomMessage _ _ _ _ => false
  | _ => true
  end.

(** The tool result at [j] answers a call of the assistant message at [k]. *)
Definition answers (es : list SessionTreeEntry) (k j : nat) : Prop :=
  (k < j)%nat /\
  (exists ek ej a t, es !! k = Some ek /\ e_body ek = EMessage (MAssistant a) /\
    es !! j = Some ej /\ e_body ej = EMessage (MToolResult t) /\ tr_toolCallId t ∈ map tc_id (tool_calls a)) /\
  forall i x, (k < i < j)%nat -> es !! i = Some x -> within_batch x = true.

Lemma answers_not_cut es k j : answers es k j ->
  at_index is_message es j = true /\ forall i, (k < i <= j)%nat -> at_index is_cut_entry es i = false.
Proof.
  intros (Hkj & (ek & ej & a & t & _ & _ & Hj & Ej & _) & Hb). unfold at_index. split.
  - rewrite Hj. unfold is_message. by rewrite Ej.
  - intros i Hi. destruct (decide (i = j)) as [->|]; [rewrite Hj; unfold is_cut_entry; by rewrite Ej|].
    destruct (es !! i) as [x|] eqn:Hx; [|done]. specialize (Hb i x ltac:(lia) Hx).
    unfold within_batch, is_cut_entry in *. destruct (e_body x) as [[]| | | | | | | | | |]; done.
Qed.

(** C36: Compaction never separates a tool result from the assistant message
    that called the tool: when the result is kept, so is the call. *)
Theorem findCutPoint_keeps_pairs es s e keep k j :
  (s <= e <= length es)%nat -> findValidCutPoints es s e <> [] -> answers es k j -> (s <= k)%nat ->
  (firstKeptEntryIndex (findCutPoint es s e keep) <= j)%nat ->
  (firstKeptEntryIndex (findCutPoint es s e keep) <= k)%nat.
Proof.
  intros Hse Hne Ha Hsk. destruct (answers_not_cut es k j Ha) as [Hj Hcut]. destruct Ha as [Hkj _].
  destruct (findValidCutPoints es s e) as [|first rest] eqn:Hc; [done|].
  rewrite (findCutPoint_cons _ _ _ _ _ _ Hc). intros Hle.
  pose proof (raw_cut_in es s e keep first rest Hc) as [Hin Hraw]%cut_points_in.
  pose proof (move_back_le es s (raw_cut es s e keep first)).
  destruct (decide (raw_cut es s e keep first <= k)%nat); [lia|].
  destruct (decide (raw_cut es s e keep first <= j)%nat) as [H'|H'].
  { rewrite (Hcut (raw_cut es s e keep first)) in Hraw by lia. done. }
  unfold at_index in Hj. destruct (es !! j) as [x|] eqn:Hx; [|done].
  destruct (move_back_skips es s (raw_cut es s e keep first) j x) as [Hm _]; [lia|done|]. congruence.
Qed.

Lemma findTurnStartIndex_Some es i s t : findTurnStartIndex es i s = Some t -> (s <= t <= i)%nat.
Proof.
  intros [Hin _]%find_some. apply list_elem_of_In, elem_of_reverse, elem_of_seq in Hin. lia.
Qed.

(** A split turn starts inside the summarized range. *)
Lemma findCutPoint_split es s e keep : isSplitTurn (findCutPoint es s e keep) = true ->
  exists t, turnStartIndex (findCutPoint es s e keep) = Some t /\
    (s <= t <= firstKeptEntryIndex (findCutPoint es s e keep))%nat.
Proof.
  unfold findCutPoint. destruct (findValidCutPoints es s e) as [|first rest]; [done|]. simpl.
  destruct (at_index is_user_entry es _); [done|]. simpl.
  destruct (findTurnStartIndex _ _ _) as [t|] eqn:E; [|done]. intros _. exists t.
  split; [done|]. by apply findTurnStartIndex_Some in E.
Qed.

(** ** What a compaction summarizes and what it keeps *)

Section Partition.
Context (get_time : jsstr -> Z).

Lemma find_reverse_seq_Some (p : nat -> bool) n i : List.find p (reverse (seq 0 n)) = Some i ->
  (i < n)%nat /\ p i = true /\ forall j, (i < j < n)%nat -> p j = false.
Proof.
  induction n as [|n IH]; [done|]. rewrite reverse_seq_S. simpl. destruct (p n) eqn:E.
  - intros [= <-]. split_and!; [lia|done|lia].
  - intros (H1 & H2 & H3)%IH. split_and!; [lia|done|]. intros j Hj.
    destruct (decide (j = n)) as [->|]; [done|]. apply H3. lia.
Qed.

Lemma find_reverse_seq_None (p : nat -> bool) n : List.find p (reverse (seq 0 n)) = None -> forall j, (j < n)%nat -> p j = false.
Proof.
  intros H%find_None_Forall j Hj. rewrite Forall_forall in H. apply H, elem_of_reverse, elem_of_seq. lia.
Qed.

(** Nothing after the last compaction is one. *)
Lemma last_compaction_Some path i : last_compaction path = Some i ->
  exists c, path = take i path ++ c :: drop (S i) path /\ is_compaction c = true /\ path !! i = Some c /\
    Forall (fun e => is_compaction e = false) (drop (S i) path).
Proof.
  intros (Hi & Hc & Hafter)%find_reverse_seq_Some. unfold at_index in Hc.
  destruct (path !! i) as [c|] eqn:E; [|done]. exists c. split_and!; [by rewrite take_drop_middle|done..|].
  apply Forall_forall. intros x [j Hj]%list_elem_of_lookup. rewrite lookup_drop in Hj.
  specialize (Hafter (S i + j)%nat). unfold at_index in Hafter. rewrite Hj in Hafter. apply Hafter.
  apply lookup_lt_Some in Hj. lia.
Qed.

(** The first kept entry of a compaction, when it is on the branch, comes
    before the compaction. *)
Definition looks_back (path : list SessionTreeEntry) : Prop :=
  forall i c summary fk tokens details fromHook j x,
    path !! i = Some c -> e_body c = ECompaction summary fk tokens details fromHook ->
    path !! j = Some x -> e_id x = fk -> (j < i)%nat.

(** What the previous compaction shows of the history before [boundaryStart]. *)
Definition boundary_messages (path : list SessionTreeEntry) : list AgentMessage :=
  match (boundary path).1.1 with
  | Some c =>
      match e_body c with
      | ECompaction summary _ tokens _ _ =>
          [MCompactionSummary (createCompactionSummaryMessage get_time summary tokens (e_timestamp c))]
      | _ => []
      end
  | None => []
  end.

Lemma entry_messages_compaction c : is_compaction c = true -> entry_messages get_time c = [].
Proof. unfold is_compaction, entry_messages. by destruct (e_body c). Qed.

(** The messages before the compaction that its context shows. *)
Lemma kept_messages_boundary path i fk c :
  path !! i = Some c -> is_compaction c = true ->
  (forall j x, path !! j = Some x -> e_id x = fk -> (j < i)%nat) ->
  kept_messages get_time fk false (take i path) ++ flat_map (entry_messages get_time) (drop (S i) path)
  = flat_map (entry_messages get_time)
      (drop (default (S i) (find_index (fun x => bool_decide (e_id x = fk)) path)) path).
Proof.
  intros Hc Hcc Hback. destruct (find_index _ path) as [j|] eqn:Ej; simpl.
  - apply find_index_Some in Ej as (x & Hx & Hid & Hmin). apply bool_decide_eq_true in Hid.
    pose proof (Hback j x Hx Hid) as Hji.
    assert (Hd : drop j path = x :: drop (S j) (take i path) ++ c :: drop (S i) path).
    { rewrite (drop_S path x j Hx). f_equal. rewrite <- (take_drop_middle path i c Hc) at 1.
      apply drop_app_le. rewrite length_take. apply lookup_lt_Some in Hc. lia. }
    assert (Ht : take i path = take j path ++ x :: drop (S j) (take i path)).
    { rewrite <- (take_drop_middle (take i path) j x) at 1 by (by rewrite lookup_take_lt).
      f_equal. rewrite take_take. f_equal. lia. }
    rewrite Ht at 1. rewrite kept_messages_split; [|clear -Hmin|done].
    + rewrite Hd. cbn [flat_map]. rewrite flat_map_app. cbn [flat_map].
      by rewrite (entry_messages_compaction c Hcc), app_nil_l, app_assoc.
    + unfold entry_ids. rewrite list_elem_of_fmap. intros (y & -> & [k Hk]%list_elem_of_lookup).
      apply lookup_take_Some in Hk as [Hk Hlt]. specialize (Hmin k y Hlt Hk). by apply bool_decide_eq_false in Hmin.
  - rewrite kept_messages_none; [done|]. apply find_index_None in Ej. unfold entry_ids. rewrite list_elem_of_fmap.
    intros (y & -> & Hy). apply elem_of_take in Hy as (k & Hk & _).
    rewrite Forall_forall in Ej. specialize (Ej y (list_elem_of_lookup_2 _ _ _ Hk)). by apply bool_decide_eq_false in Ej.
Qed.

Lemma boundary_context path : NoDup (entry_ids path) -> looks_back path ->
  ((boundary path).2 <= length path)%nat /\
    sc_messages (buildSessionContext get_time path)
  = boundary_messages path ++ flat_map (entry_messages get_time) (drop (boundary path).2 path).
Proof.
  intros Hnd Hback. unfold boundary_messages, boundary. destruct (last_compaction path) as [i|] eqn:Ei.
  - apply last_compaction_Some in Ei as (c & Hp & Hcc & Hc & Htail). rewrite Hc.
    pose proof Hcc as Hcb. unfold is_compaction in Hcb. destruct (e_body c) eqn:Eb; try done. cbn [fst snd]. rewrite Eb.
    split.
    { apply lookup_lt_Some in Hc. destruct (find_index _ path) eqn:Ef; simpl; [|lia].
      apply find_index_bound in Ef. lia. }
    rewrite <- (kept_messages_boundary path i firstKeptEntryId c Hc Hcc) by (intros; by eapply Hback).
    rewrite Hp at 1. change (c :: drop (S i) path) with ([c] ++ drop (S i) path). rewrite app_assoc, context_app by done.
    erewrite context_compaction; [done| |exact Eb].
    rewrite Hp in Hnd. unfold entry_ids in *. rewrite map_app in Hnd. apply NoDup_app in Hnd as (_ & Hd & _).
    intros Hin. apply (Hd _ Hin). simpl. set_solver.
  - cbn [fst snd]. split; [lia|]. rewrite <- (app_nil_l path) at 1. rewrite context_app; [done|].
    apply Forall_forall. intros x [j Hj]%list_elem_of_lookup.
    pose proof (find_reverse_seq_None _ _ Ei j (lookup_lt_Some _ _ _ Hj)) as H. unfold at_index in H. by rewrite Hj in H.
Qed.

(** A message the context shows is one the summary sees. *)
Lemma entry_messages_summarized l :
  flat_map (entry_messages get_time) l `sublist_of` omap (getMessageFromEntryForCompaction get_time) l.
Proof.
  induction l as [|e l IH]; [done|]. cbn [flat_map].
  unfold entry_messages, getMessageFromEntryForCompaction, getMessageFromEntry, is_compaction in *. simpl.
  destruct (e_body e); simpl; try apply sublist_skip; try done.
  destruct (is_empty summary); [by apply sublist_cons|by apply sublist_skip].
Qed.

(** Facts read off a successful preparation. *)
Lemma prepareCompaction_inv path settings sp p :
  prepareCompaction get_time path settings sp = Ok (Some p) ->
  let bs := (boundary path).2 in
  let cut := findCutPoint path bs (length path) (cp_keepRecentTokens p) in
  exists e, path !! firstKeptEntryIndex cut = Some e /\ cp_firstKeptEntryId p = e_id e /\
    cp_isSplitTurn p = isSplitTurn cut /\ cp_previousSummary p = (boundary path).1.2 /\
    cp_keepRecentTokens p = selectKeepRecentTokens (cp_tokensBefore p) settings /\
    let historyEnd := if isSplitTurn cut then default 0%nat (turnStartIndex cut) else firstKeptEntryIndex cut in
    cp_messagesToSummarize p = omap (getMessageFromEntryForCompaction get_time) (slice path bs historyEnd) /\
    cp_turnPrefixMessages p =
      (if isSplitTurn cut
       then omap (getMessageFromEntryForCompaction get_time) (slice path historyEnd (firstKeptEntryIndex cut)) else []) /\
    cp_fileOps p = fold_left extractFileOpsFromMessage (cp_messagesToSummarize p ++ cp_turnPrefixMessages p)
                     (extractFileOperations [] (boundary path).1.1).
Proof.
  unfold prepareCompaction. destruct (match last path with Some e => is_compaction e | None => true end); [done|].
  destruct (boundary path) as [[prev ps] bs]. set (keep := selectKeepRecentTokens _ _). cbn [fst snd].
  destruct (path !! _) as [e|] eqn:Ee; [|done]. destruct (is_empty (e_id e)); [done|].
  intros [= <-]. simpl. exists e. split_and!; try done.
  - by destruct (isSplitTurn _).
  - rewrite fold_left_app. destruct (isSplitTurn _); [|done]. done.
Qed.

(** Both summarized parts together are the entries before the cut. *)
Lemma prepareCompaction_summarized path settings sp p :
  ((boundary path).2 <= length path)%nat ->
  prepareCompaction get_time path settings sp = Ok (Some p) ->
  let cut := firstKeptEntryIndex (findCutPoint path (boundary path).2 (length path) (cp_keepRecentTokens p)) in
  cp_messagesToSummarize p ++ cp_turnPrefixMessages p
  = omap (getMessageFromEntryForCompaction get_time) (slice path (boundary path).2 cut).
Proof.
  intros Hbs (e & _ & _ & _ & _ & _ & Hm & Ht & _)%prepareCompaction_inv cut.
  pose proof (findCutPoint_range path _ (length path) (cp_keepRecentTokens p) Hbs).
  rewrite Hm, Ht. fold cut. destruct (isSplitTurn _) eqn:Es; [|by rewrite app_nil_r].
  destruct (findCutPoint_split _ _ _ _ Es) as (t & -> & Hr). simpl. fold cut in Hr.
  by rewrite <- omap_app, slice_app by lia.
Qed.

(** The current context is the previous summary, the messages to summarize and the
    kept ones; after the compaction it is the new summary and the kept ones. *)
Lemma prepareCompaction_partition path settings sp p :
  NoDup (entry_ids path) -> looks_back path ->
  prepareCompaction get_time path settings sp = Ok (Some p) ->
  exists summarized kept,
    sc_messages (buildSessionContext get_time path) = boundary_messages path ++ summarized ++ kept /\
    summarized `sublist_of` cp_messagesToSummarize p ++ cp_turnPrefixMessages p /\
    forall c summary tokens details fromHook,
      e_body c = ECompaction summary (cp_firstKeptEntryId p) tokens details fromHook -> e_id c ∉ entry_ids path ->
      sc_messages (buildSessionContext get_time (path ++ [c])) =
        MCompactionSummary (createCompactionSummaryMessage get_time summary tokens (e_timestamp c)) :: kept.
Proof.
  intros Hnd Hback Hp. destruct (boundary_context path Hnd Hback) as [Hbs Hctx].
  pose proof (prepareCompaction_summarized path settings sp p Hbs Hp) as Hsum.
  pose proof (findCutPoint_range path _ (length path) (cp_keepRecentTokens p) Hbs) as Hrange.
  destruct (prepareCompaction_inv path settings sp p Hp) as (e & He & Hid & _).
  cbv zeta in *. set (cut := firstKeptEntryIndex _) in *.
  exists (flat_map (entry_messages get_time) (slice path (boundary path).2 cut)),
    (flat_map (entry_messages get_time) (drop cut path)). split_and!.
  - rewrite Hctx. f_equal. rewrite <- flat_map_app. f_equal.
    by rewrite <- !slice_to_end, slice_app by lia.
  - rewrite Hsum. apply entry_messages_summarized.
  - intros c summary tokens details fromHook Hc Hfresh. rewrite (drop_S path e cut He).
    rewrite <- (take_drop_middle path cut e He) in Hfresh |- * at 1.
    rewrite Hid in Hc. erewrite context_after_compaction; [done| |exact Hc].
    change (e :: drop (S cut) path ++ [c]) with ((e :: drop (S cut) path) ++ [c]).
    rewrite app_assoc, entry_ids_snoc. apply NoDup_app. rewrite take_drop_middle in * by done.
    split; [done|]. split; [|apply NoDup_singleton]. set_solver.
Qed.

(** ** What the summary model is given *)

Section Requests.
Context {Err Signal : Type}.
(** A model that answers from the requests so far, or throws, and a clock. *)
Context (answer : Model -> jsstr -> list Message -> CompletionOptions (Signal := Signal) -> list (list Message) -> result Err AssistantMessage).
Context (clock : list (list Message) -> Z) (first_of_two : list (list Message) -> bool).
Local Abbreviation requests := (list (list Message)).

Definition recorded (m : Model) (system : jsstr) (messages : list Message) (o : CompletionOptions)
    : M requests Err AssistantMessage := fun asked => (answer m system messages o asked, asked ++ [messages]).
Definition read_clock : M requests Err Z := fun asked => (Ok (clock asked), asked).

Local Abbreviation run_compact := (compact recorded read_clock first_of_two).

(** A request whose prompt opens with these messages, serialized. *)
Definition asks_about (conversation : list AgentMessage) (request : list Message) : Prop :=
  exists instructions t, request = [text_message (conversation_block conversation ++ instructions) t].

(** The summary is in the prompt of one of the requests. *)
Definition told (previous : jsstr) (asked : requests) : Prop :=
  exists conversation instructions t,
    [text_message (conversation_block conversation
       ++ (js "<previous-summary>" ++ nl ++ previous ++ nl ++ js "</previous-summary>" ++ nl ++ nl) ++ instructions) t] ∈ asked.

(** The cut is within the first turn after the boundary: only the prefix of that
    turn is summarized. *)
Definition only_prefix (p : CompactionPreparation) : Prop :=
  cp_isSplitTurn p = true /\ cp_messagesToSummarize p = [] /\ cp_turnPrefixMessages p <> [].

Lemma request_recorded c text tokens label asked :
  (request_summary recorded read_clock c text tokens label asked).2 = asked ++ [[text_message text (clock asked)]].
Proof. unfold request_summary, bind, read_clock, recorded. by destruct (answer _ _ _ _ _). Qed.

Lemma both_recorded {A B} (c1 : M requests Err A) (c2 : M requests Err B) asked :
  (both first_of_two c1 c2 asked).2 = (c2 (c1 asked).2).2.
Proof. unfold both. destruct (c1 asked) as [r1 w1]. simpl. by destruct (c2 w1). Qed.

Lemma bind_recorded {A B} (c : M requests Err A) (k : A -> M requests Err B) asked :
  (forall a w, (k a w).2 = w) -> (bind c k asked).2 = (c asked).2.
Proof. intros Hk. unfold bind. destruct (c asked) as [[a|e] w]; [apply Hk|done]. Qed.

Lemma summary_told messages custom previous : previous <> [] ->
  exists instructions, summary_prompt messages custom (Some previous)
  = conversation_block messages ++ (js "<previous-summary>" ++ nl ++ previous ++ nl ++ js "</previous-summary>" ++ nl ++ nl) ++ instructions.
Proof. intros Hp. unfold summary_prompt. destruct previous as [|c l]; [done|]. eexists. reflexivity. Qed.

(** The requests, whatever the answers. *)
Lemma compact_requests p c custom : is_empty (cp_firstKeptEntryId p) = false ->
  exists conversations, Forall2 asks_about conversations (run_compact p c custom []).2 /\
    concat conversations = cp_messagesToSummarize p ++ (if cp_isSplitTurn p then cp_turnPrefixMessages p else []) /\
    forall previous, cp_previousSummary p = Some previous -> previous <> [] -> ~ only_prefix p -> told previous (run_compact p c custom []).2.
Proof.
  intros Hid. unfold compact. rewrite Hid. unfold only_prefix.
  assert (Hh : forall ms previous, asks_about ms [text_message (summary_prompt ms custom previous) (clock [])]).
  { intros ms previous. eexists _, _. reflexivity. }
  destruct (cp_isSplitTurn p && negb (is_empty (cp_turnPrefixMessages p))) eqn:Es.
  - apply andb_true_iff in Es as [-> Hne]. rewrite bind_recorded by (by intros []). rewrite both_recorded.
    unfold generateTurnPrefixSummary. rewrite request_recorded. destruct (cp_messagesToSummarize p) as [|m ms]; cbn [is_empty].
    + exists [cp_turnPrefixMessages p]. cbn [ret snd app]. split_and!;
        [by repeat econstructor|by cbn [concat]; rewrite app_nil_r|intros previous _ _ []; split_and!; [done|done|by destruct (cp_turnPrefixMessages p)]].
    + exists [m :: ms; cp_turnPrefixMessages p]. unfold generateSummary. rewrite request_recorded. cbn [app]. split_and!.
      * repeat constructor; [apply Hh|by eexists _, _].
      * cbn [concat]. by rewrite app_nil_r.
      * intros previous -> Hp _. destruct (summary_told (m :: ms) custom previous Hp) as [rest ->]. eexists _, _, _. left.
  - rewrite bind_recorded by (by intros ? ?). unfold generateSummary. rewrite request_recorded. exists [cp_messagesToSummarize p]. split_and!.
    + repeat constructor. apply Hh.
    + cbn [concat]. rewrite app_nil_r. destruct (cp_isSplitTurn p); [|by rewrite app_nil_r].
      destruct (cp_turnPrefixMessages p); [by rewrite app_nil_r|done].
    + intros previous -> Hp _. destruct (summary_told (cp_messagesToSummarize p) custom previous Hp) as [rest ->]. eexists _, _, _. left.
Qed.

Lemma compact_first_kept p c custom asked result :
  (run_compact p c custom asked).1 = Ok (Ok result) -> cr_firstKeptEntryId result = cp_firstKeptEntryId p.
Proof.
  unfold compact. destruct (is_empty _); [done|]. destruct (_ && _); unfold bind.
  - destruct (both _ _ _ _) as [[[[h|e] [t|e']]|e] w]; cbn; try done. by intros [= <-].
  - destruct (generateSummary _ _ _ _ _ _ _ _) as [[[h|e]|e] w]; cbn; try done. by intros [= <-].
Qed.

Lemma boundary_summary path m : m ∈ boundary_messages path ->
  exists previous tokens t, m = MCompactionSummary (createCompactionSummaryMessage get_time previous tokens t) /\
    (boundary path).1.2 = Some previous.
Proof.
  unfold boundary_messages, boundary. destruct (last_compaction path) as [i|]; cbn [fst snd]; [|by intros ?%elem_of_nil].
  destruct (path !! i) as [e|]; cbn [fst snd]; [|by intros ?%elem_of_nil].
  destruct (e_body e) eqn:E; cbn [fst snd]; try (by intros ?%elem_of_nil). rewrite E. intros ->%list_elem_of_singleton. eauto.
Qed.

(** C35: compaction covers the whole context. With [prepareCompaction] and then
    [compact], every message of the context is the summary of the previous compaction,
    or among the messages to summarize, or kept. Those to summarize are in the prompts
    [compact] sends to the model, in order and as [serializeConversation] writes them,
    whatever the model answers; the previous summary is in a prompt too, unless it is
    empty or the cut is within the first turn after the boundary, the one case in which
    it is given to neither request. When a summary comes back, the context
    of the log with the compaction is that summary and then the messages kept. The
    entries of the path have distinct ids and a compaction names an earlier entry as
    the first kept, as the harness writes them. *)
Theorem compact_covers_context path settings sp p c custom :
  NoDup (entry_ids path) -> looks_back path ->
  prepareCompaction get_time path settings sp = Ok (Some p) ->
  exists summarized kept conversations,
    sc_messages (buildSessionContext get_time path) = boundary_messages path ++ summarized ++ kept /\
    Forall2 asks_about conversations (run_compact p c custom []).2 /\
    summarized `sublist_of` concat conversations /\
    (forall m, m ∈ boundary_messages path -> exists previous tokens t,
      m = MCompactionSummary (createCompactionSummaryMessage get_time previous tokens t) /\
      (previous = [] \/ only_prefix p \/ told previous (run_compact p c custom []).2)) /\
    (forall result e tokens details fromHook, (run_compact p c custom []).1 = Ok (Ok result) ->
      e_body e = ECompaction (cr_summary result) (cr_firstKeptEntryId result) tokens details fromHook -> e_id e ∉ entry_ids path ->
      sc_messages (buildSessionContext get_time (path ++ [e])) =
        MCompactionSummary (createCompactionSummaryMessage get_time (cr_summary result) tokens (e_timestamp e)) :: kept).
Proof.
  intros Hnd Hback Hp. destruct (prepareCompaction_partition path settings sp p Hnd Hback Hp) as (summarized & kept & Hctx & Hsub & Hafter).
  destruct (prepareCompaction_inv path settings sp p Hp) as (e & He & Hid & Hsplit & Hprev & _ & _ & Ht & _). cbv zeta in *.
  assert (Hne : is_empty (cp_firstKeptEntryId p) = false).
  { unfold prepareCompaction in Hp. destruct (match last path with Some e => is_compaction e | None => true end); [done|].
    destruct (boundary path) as [[prev ps] bs]. destruct (path !! firstKeptEntryIndex _) as [e0|]; [|done].
    destruct (is_empty (e_id e0)) eqn:E; [done|]. by injection Hp as <-. }
  destruct (compact_requests p c custom Hne) as (conversations & Hasks & Hconcat & Htold).
  exists summarized, kept, conversations. split_and!; [done|done| | |].
  - rewrite Hconcat. rewrite Hsplit. rewrite <- Hsplit. destruct (cp_isSplitTurn p) eqn:Es; [done|].
    rewrite Ht, <- Hsplit in Hsub. done.
  - intros m Hm. destruct (boundary_summary path m Hm) as (previous & tokens & t & -> & Hb). exists previous, tokens, t. split; [done|].
    destruct (decide (previous = [])) as [|Hpne]; [by left|right]. rewrite <- Hprev in Hb.
    destruct (cp_isSplitTurn p) eqn:E1; [|right; apply Htold; [done|done|by intros [? _]; congruence]].
    destruct (cp_messagesToSummarize p) eqn:E2; [|right; apply Htold; [done|done|by intros (_ & ? & _); congruence]].
    destruct (cp_turnPrefixMessages p) eqn:E3; [right; apply Htold; [done|done|by intros (_ & _ & ?)]|].
    left. unfold only_prefix. by rewrite E1, E2, E3.
  - intros result e' tokens details fromHook Hr Hb Hfresh. rewrite (compact_first_kept _ _ _ _ _ Hr) in Hb. by eapply Hafter.
Qed.
End Requests.
End Partition.

(** ** The recent-token budget *)

Lemma keep_bounds s :
  let r := resolveCompactionSettings s in
  let lo := Z.max 0 (Qfloor (rs_keepRecentMinTokens r)) in
  0 <= lo /\ lo <= Z.max lo (Qfloor (rs_keepRecentMaxTokens r)).
Proof. simpl. lia. Qed.

Lemma Qround_le a b : (a <= b)%Q -> Qround a <= Qround b.
Proof. intros H. apply Qfloor_resp_le. apply Qplus_le_l. done. Qed.

Lemma Qround_Z n : Qround (inject_Z n) = n.
Proof. unfold Qround, Qfloor, inject_Z. simpl. symmetry. apply (Z.div_unique_pos _ _ _ 1); lia. Qed.

(** Interpolating between two integers stays between them. *)
Lemma ramp_bounds (lo hi : Z) (p : Q) : lo <= hi -> (0 <= p <= 1)%Q ->
  lo <= Qround (inject_Z hi - (inject_Z hi - inject_Z lo) * p) <= hi.
Proof.
  intros Hle [H0 H1]. rewrite Zle_Qle in Hle. split.
  - rewrite <- (Qround_Z lo) at 1. apply Qround_le. nra.
  - etransitivity; [|apply Z.eq_le_incl, Qround_Z]. apply Qround_le. nra.
Qed.

(** The position on the ramp is a fraction, and grows with the context. *)
Lemma ramp_pressure (a b c : Q) : (a < c)%Q -> (c < b)%Q -> (0 <= (c - a) / (b - a) <= 1)%Q.
Proof.
  intros Hac Hcb. split.
  - apply Qle_shift_div_l; lra.
  - apply Qle_shift_div_r; lra.
Qed.

Lemma ramp_pressure_mono (a b c d : Q) : (a < b)%Q -> (c <= d)%Q -> ((c - a) / (b - a) <= (d - a) / (b - a))%Q.
Proof.
  intros Hab Hcd. unfold Qdiv. apply Qmult_le_compat_r; [lra|]. apply Qlt_le_weak, Qinv_lt_0_compat. lra.
Qed.

Lemma Qle_bool_false a b : Qle_bool a b = false -> (b < a)%Q.
Proof. intros H. apply Qnot_le_lt. intros Hle. apply Qle_bool_iff in Hle. congruence. Qed.

(** The ramp, with the settings resolved. *)
Definition ramp (lo hi : Z) (a b : Q) (n : Z) : Z :=
  if Qle_bool (inject_Z n) a then hi
  else if Qle_bool b (inject_Z n) then lo
  else Qround (inject_Z hi - (inject_Z hi - inject_Z lo) * ((inject_Z n - a) / (b - a))).

Lemma ramp_spec lo hi a b : lo <= hi ->
  (forall n, lo <= ramp lo hi a b n <= hi) /\ (forall n m, n <= m -> ramp lo hi a b m <= ramp lo hi a b n).
Proof.
  intros Hle.
  assert (Hb : forall n, lo <= ramp lo hi a b n <= hi).
  { intros n. unfold ramp. destruct (Qle_bool (inject_Z n) a) eqn:E1; [lia|].
    destruct (Qle_bool b (inject_Z n)) eqn:E2; [lia|]. apply ramp_bounds; [done|].
    apply ramp_pressure; by apply Qle_bool_false. }
  split; [done|]. intros n m Hnm. pose proof (Hb n) as Hn. pose proof (Hb m) as Hm. rewrite Zle_Qle in Hnm.
  unfold ramp in *. destruct (Qle_bool (inject_Z n) a) eqn:E1; [lia|].
  destruct (Qle_bool (inject_Z m) a) eqn:E2.
  { apply Qle_bool_iff in E2. apply Qle_bool_false in E1. lra. }
  destruct (Qle_bool b (inject_Z m)) eqn:E3; [lia|]. destruct (Qle_bool b (inject_Z n)) eqn:E4.
  { apply Qle_bool_iff in E4. apply Qle_bool_false in E3. lra. }
  apply Qle_bool_false in E1, E2, E3, E4. apply Qround_le.
  pose proof (ramp_pressure_mono a b (inject_Z n) (inject_Z m) ltac:(lra) Hnm). rewrite Zle_Qle in Hle. nra.
Qed.

(** The recent-token budget lies between the two configured bounds and
    never grows as the context fills. *)
Theorem selectKeepRecentTokens_bounds s :
  let lo := Z.max 0 (Qfloor (rs_keepRecentMinTokens (resolveCompactionSettings s))) in
  let hi := Z.max lo (Qfloor (rs_keepRecentMaxTokens (resolveCompactionSettings s))) in
  (forall n, lo <= selectKeepRecentTokens n s <= hi) /\
  (forall n m, n <= m -> selectKeepRecentTokens m s <= selectKeepRecentTokens n s).
Proof.
  intros lo hi.
  assert (Heq : forall n, selectKeepRecentTokens n s =
    if hi =? lo then lo
    else ramp lo hi (rs_targetContextTokens (resolveCompactionSettings s) * 4)
           (rs_targetContextTokens (resolveCompactionSettings s) * 8) n) by reflexivity.
  destruct (ramp_spec lo hi (rs_targetContextTokens (resolveCompactionSettings s) * 4)
    (rs_targetContextTokens (resolveCompactionSettings s) * 8) ltac:(lia)) as [Hb Hm].
  split; intros; rewrite !Heq; destruct (hi =? lo) eqn:E; bool_hyps; auto; lia.
Qed.

(** ** File lists across compactions *)

Lemma extract_block_grows ops b :
  fo_read ops ⊆ fo_read (extract_block ops b) /\ fo_written ops ⊆ fo_written (extract_block ops b) /\
  fo_edited ops ⊆ fo_edited (extract_block ops b).
Proof.
  unfold extract_block. destruct b as [| |c]; [set_solver..|].
  destruct (tc_arguments c); try set_solver. destruct (get_prop _ _) as [[]|]; try set_solver.
  destruct (is_empty _); [set_solver|]. repeat (destruct (bool_decide _); simpl; [set_solver|]). set_solver.
Qed.

Lemma extract_grows l ops :
  let ops' := fold_left extractFileOpsFromMessage l ops in
  fo_read ops ⊆ fo_read ops' /\ fo_written ops ⊆ fo_written ops' /\ fo_edited ops ⊆ fo_edited ops'.
Proof.
  revert ops. induction l as [|m l IH]; intros ops; simpl; [done|].
  destruct (IH (extractFileOpsFromMessage ops m)) as (H1 & H2 & H3).
  assert (Hm : fo_read ops ⊆ fo_read (extractFileOpsFromMessage ops m) /\
               fo_written ops ⊆ fo_written (extractFileOpsFromMessage ops m) /\
               fo_edited ops ⊆ fo_edited (extractFileOpsFromMessage ops m)).
  { destruct m as [|a| | | | |]; try done. simpl. clear. revert ops.
    induction (am_content a) as [|b l IH]; intros ops; simpl; [done|].
    destruct (extract_block_grows ops b) as (?&?&?). destruct (IH (extract_block ops b)) as (?&?&?). set_solver. }
  set_solver.
Qed.

Lemma elem_of_isort (l : gset jsstr) x : x ∈ isort str_leb (elements l) <-> x ∈ l.
Proof. by rewrite (isort_Permutation str_leb (elements l)), elem_of_elements. Qed.

Lemma string_items_details l : string_items (details_json l) (js "readFiles") = readFiles l /\
  string_items (details_json l) (js "modifiedFiles") = modifiedFiles l.
Proof.
  assert (H : forall k : list jsstr, flat_map (fun v => match v with JStr s => [s] | _ => [] end) (map JStr k) = k).
  { induction k as [|x k IH]; simpl; [done|]. by rewrite IH. }
  split; unfold string_items, details_json; [change (get_prop _ _) with (Some (JArr (map JStr (readFiles l))))
    |change (get_prop _ _) with (Some (JArr (map JStr (modifiedFiles l))))]; apply H.
Qed.

(** Every file of the stored lists starts in the accumulator. *)
Lemma extractFileOperations_details c summary fk tokens lists fromHook :
  e_body c = ECompaction summary fk tokens (Some (details_json lists)) fromHook -> default false fromHook = false ->
  extractFileOperations [] (Some c) = mkFileOps (list_to_set (readFiles lists)) ∅ (list_to_set (modifiedFiles lists)).
Proof.
  intros Hc Hh. unfold extractFileOperations. simpl. rewrite Hc, Hh.
  by destruct (string_items_details lists) as [-> ->].
Qed.

(** No file is forgotten from one compaction to the next: a modified file
    stays listed as modified, a read file stays listed as read or becomes
    modified, and no file is listed as both. *)
Theorem compaction_files_accumulate get_time path settings sp p c summary fk tokens old fromHook :
  prepareCompaction get_time path settings sp = Ok (Some p) ->
  (boundary path).1.1 = Some c ->
  e_body c = ECompaction summary fk tokens (Some (details_json (computeFileLists old))) fromHook ->
  default false fromHook = false ->
  let before := computeFileLists old in
  let after := computeFileLists (cp_fileOps p) in
  (forall f, f ∈ modifiedFiles before -> f ∈ modifiedFiles after) /\
  (forall f, f ∈ readFiles before -> f ∈ readFiles after \/ f ∈ modifiedFiles after) /\
  (forall f, f ∈ readFiles after -> f ∉ modifiedFiles after).
Proof.
  intros (e & _ & _ & _ & _ & _ & _ & _ & Hops)%prepareCompaction_inv Hprev Hc Hh before after.
  rewrite Hprev, (extractFileOperations_details _ _ _ _ _ _ Hc Hh) in Hops.
  destruct (extract_grows (cp_messagesToSummarize p ++ cp_turnPrefixMessages p)
    (mkFileOps (list_to_set (readFiles before)) ∅ (list_to_set (modifiedFiles before)))) as (H1 & _ & H3).
  fold before in Hops. rewrite <- Hops in H1, H3. cbn [fo_read fo_edited] in H1, H3. clear Hops Hc. clearbody before.
  unfold after, computeFileLists. simpl. split_and!; intros f; rewrite ?elem_of_isort.
  - intros Hf. apply elem_of_union_l, H3. by apply elem_of_list_to_set.
  - intros Hf. assert (f ∈ fo_read (cp_fileOps p)) by (apply H1; by apply elem_of_list_to_set).
    destruct (decide (f ∈ fo_edited (cp_fileOps p) ∪ fo_written (cp_fileOps p))); [by right|left; set_solver].
  - set_solver.
Qed.

(** ** Concrete sessions *)

Module CompactionSample.
Definition get_time : jsstr -> Z := fun _ => 1700000000000.
Definition stamp : jsstr := js "2023-11-14T22:13:20.000Z".
Definition entry (id : string) (body : entry_body) : SessionTreeEntry := mkEntry (js id) None stamp body.
Definition user (text : string) : entry_body := EMessage (MUser (mkUser (RString (js text)) None 1700000000000)).
Definition assistant (blocks : list assistant_block) : entry_body :=
  EMessage (MAssistant (mkAssistant blocks [] [] [] None None None EMPTY_USAGE StopToolUse None 1700000000001)).
Definition long_text : jsstr := replicate 100 97.
Definition call (name path : string) : assistant_block :=
  AToolCall (mkToolCall (js "t1") (js name) (JObj [(js "path", JStr (js path))]) None).
Definition result_entry : entry_body :=
  EMessage (MToolResult (mkToolResult (js "t1") (js "read") [CText long_text None] None false 1700000000002)).
Definition old_files : FileOperations := mkFileOps {[ js "a.ts" ]} {[ js "b.ts" ]} ∅.

(** A second compaction inside the turn the first one kept. *)
Definition path : list SessionTreeEntry :=
  [entry "1" (user "one"); entry "2" (user "two");
   entry "3" (ECompaction (js "old summary") (js "2") 10 (Some (details_json (computeFileLists old_files))) None);
   entry "4" (assistant [AText long_text None; call "edit" "a.ts"]); entry "5" (assistant [call "read" "c.ts"]);
   entry "6" result_entry; entry "7" (assistant [AText (js "done") None])].
Definition settings : CompactionSettings :=
  mkSettings true None (Some 10%Q) None None None None None None None.
Definition prep : CompactionPreparation :=
  match prepareCompaction get_time path settings None with
  | Ok (Some p) => p
  | _ => mkPreparation [] [] [] false 0 None createFileOps settings 0
  end.

Lemma prep_eq : prepareCompaction get_time path settings None = Ok (Some prep).
Proof. vm_compute. reflexivity. Qed.

Lemma path_ids : NoDup (entry_ids path).
Proof. apply (bool_decide_unpack _). vm_compute. exact I. Qed.

Lemma path_looks_back : looks_back path.
Proof.
  intros i c summary fk tokens details fromHook j x Hi Hc Hj Hx.
  destruct i as [|[|[|[|[|[|[|i]]]]]]]; simpl in Hi; try discriminate Hi; injection Hi as <-; try discriminate Hc.
  injection Hc as <- <- <- <- <-.
  destruct j as [|[|[|[|[|[|[|j]]]]]]]; simpl in Hj; try discriminate Hj; injection Hj as <-; try discriminate Hx; lia.
Qed.

Lemma findCutPoint_best_witness :
  exists c, best_cut path 7 10 (findValidCutPoints path 1 7) = Some c.
Proof.
  destruct (findCutPoint_best path 1 7 10) as (c & H & _);
    [lia|vm_compute; lia|vm_compute; discriminate|]. exists c. exact H.
Defined.

Lemma findCutPoint_keeps_pairs_witness :
  (firstKeptEntryIndex (findCutPoint path 1 7 1000) <= 4)%nat.
Proof.
  apply (findCutPoint_keeps_pairs path 1 7 1000 4 5);
    [vm_compute; lia|vm_compute; discriminate| |lia|vm_compute; lia].
  split; [lia|]. split; [|intros i x Hi; lia].
  eexists _, _, _, _. repeat split; [reflexivity..|]. left.
Defined.

(** A later turn: everything before it is summarized with the old summary. *)
Definition longer : list SessionTreeEntry :=
  path ++ [entry "8" (user "three"); entry "9" (assistant [AText long_text None]); entry "10" (assistant [AText long_text None])].
Definition longer_prep : CompactionPreparation :=
  match prepareCompaction get_time longer settings None with Ok (Some p) => p | _ => prep end.

Lemma longer_eq : prepareCompaction get_time longer settings None = Ok (Some longer_prep).
Proof. vm_compute. reflexivity. Qed.

Lemma longer_ids : NoDup (entry_ids longer).
Proof. apply (bool_decide_unpack _). vm_compute. exact I. Qed.

Lemma longer_looks_back : looks_back longer.
Proof.
  intros i c summary fk tokens details fromHook j x Hi Hc Hj Hx.
  destruct i as [|[|[|[|[|[|[|[|[|[|i]]]]]]]]]]; simpl in Hi; try discriminate Hi; injection Hi as <-; try discriminate Hc.
  injection Hc as <- <- <- <- <-.
  destruct j as [|[|[|[|[|[|[|[|[|[|j]]]]]]]]]]; simpl in Hj; try discriminate Hj; injection Hj as <-; try discriminate Hx; lia.
Qed.

Definition summary_answer (m : Model) (system : jsstr) (messages : list Message) (o : CompletionOptions (Signal := unit))
    (asked : list (list Message)) : result unit AssistantMessage :=
  Ok (mkAssistant [AText (js "new summary") None] [] [] [] None None None EMPTY_USAGE StopStop None 1700000000001).
Definition summary_model : Model := mkModel (js "m") (js "M") (js "api") (js "p") [] false 1000 100.
Definition compacted := compact (recorded summary_answer) (read_clock (fun _ => 0)) (fun _ => true) longer_prep
  (mkCall summary_model (js "key") None None None) None [].

Example compacted_asks : length compacted.2 = 2%nat /\ cp_isSplitTurn longer_prep = true /\
  length (cp_messagesToSummarize longer_prep) = 5%nat /\ length (cp_turnPrefixMessages longer_prep) = 2%nat.
Proof. vm_compute. done. Qed.

Lemma compact_covers_context_witness : told (js "old summary") compacted.2.
Proof.
  destruct (compact_covers_context get_time summary_answer (fun _ => 0) (fun _ => true) longer settings None longer_prep
    (mkCall summary_model (js "key") None None None) None longer_ids longer_looks_back longer_eq)
    as (summarized & kept & conversations & _ & _ & _ & Hb & _).
  specialize (Hb (MCompactionSummary (createCompactionSummaryMessage get_time (js "old summary") 10 (e_timestamp (entry "3" (user ""))))) ltac:(left)).
  destruct Hb as (previous & tokens & t & Hm & [Hp|[Hp|Hp]]); injection Hm as <- _;
    [discriminate Hp|destruct Hp as (_ & Hp & _); vm_compute in Hp; discriminate Hp|exact Hp].
Defined.

Lemma compaction_files_accumulate_witness :
  js "b.ts" ∈ modifiedFiles (computeFileLists (cp_fileOps prep)).
Proof.
  apply (compaction_files_accumulate get_time path settings None prep
    (entry "3" (ECompaction (js "old summary") (js "2") 10 (Some (details_json (computeFileLists old_files))) None))
    (js "old summary") (js "2") 10 old_files None prep_eq); try reflexivity.
  apply elem_of_isort. set_solver.
Defined.
End CompactionSample.

(** A second compaction that starts at the turn the first one kept gives
    the previous summary to neither summary call: the compaction it produces is
    the one produced had there been no previous summary. *)
Theorem compact_drops_previous_summary :
  exists path settings p,
    prepareCompaction CompactionSample.get_time path settings None = Ok (Some p) /\
    cp_previousSummary p = Some (js "old summary") /\
    forall (W Err Signal : Type) complete (now : M W Err Z) first_of_two (call : summary_call (Signal := Signal)) custom,
      compact complete now first_of_two p call custom =
      compact complete now first_of_two
        (mkPreparation (cp_firstKeptEntryId p) (cp_messagesToSummarize p) (cp_turnPrefixMessages p) (cp_isSplitTurn p)
           (cp_tokensBefore p) None (cp_fileOps p) (cp_settings p) (cp_keepRecentTokens p)) call custom.
Proof.
  exists CompactionSample.path, CompactionSample.settings, CompactionSample.prep.
  split; [apply CompactionSample.prep_eq|]. split; [vm_compute; reflexivity|]. intros.
  assert (H : cp_messagesToSummarize CompactionSample.prep = [] /\ cp_isSplitTurn CompactionSample.prep = true /\
    is_empty (cp_turnPrefixMessages CompactionSample.prep) = false) by (vm_compute; auto).
  destruct H as (Hm & Hs & Ht). unfold compact. cbn -[CompactionSample.prep both]. rewrite Hm, Hs, Ht. reflexivity.
Qed.
