(* ===== verification/BranchSummary.v ===== *)
(** Summaries of abandoned branches
    ([harness/compaction/branch-summarization.ts]): the entries that leaving a
    branch abandons, their selection within a token budget, and the summary. *)
From Stdlib Require Import QArith_base.
From S2P Require Import Prelude JsString Json Effects Messages SessionTree SessionLaws Compaction.
#[local] Open Scope Z_scope.
#[local] Open Scope eff.

(** ** The abandoned entries *)

Record CollectEntriesResult := mkCollected { ce_entries : list SessionTreeEntry; ce_commonAncestorId : option jsstr }.

(** The last entry of the target's path that is on the old one. *)
Definition deepest_common (oldIds : list jsstr) (targetPath : list SessionTreeEntry) : option jsstr :=
  e_id <$> List.find (fun e => bool_decide (e_id e ∈ oldIds)) (reverse targetPath).

Section Collect.
Context {S : Type} `{SessionStorage S}.

(** The [while] loop; the entries it met are in [acc], in that order.
    [None] when [fuel] iterations do not end it. *)
Fixpoint collect_loop (fuel : nat) (ancestor current : option jsstr) (acc : list SessionTreeEntry)
    : M (world S) SessionError (option (list SessionTreeEntry)) :=
  match current with
  | None | Some [] => ret (Some (reverse acc))
  | Some id =>
      if bool_decide (current = ancestor) then ret (Some (reverse acc))
      else
        match fuel with
        | O => ret None
        | Datatypes.S fuel' =>
            let* entry := getEntry id in
            match entry with
            | None => throw (entry_not_found invalid_session id)
            | Some e => collect_loop fuel' ancestor (e_parentId e) (acc ++ [e])
            end
        end
  end.

(** The loop runs at most once per entry of the old path. *)
Definition collectEntriesForBranchSummary (oldLeafId : option jsstr) (targetId : jsstr)
    : M (world S) SessionError (option CollectEntriesResult) :=
  match oldLeafId with
  | None | Some [] => ret (Some (mkCollected [] None))
  | Some old =>
      let* oldPath := getBranch (Some old) in
      let* targetPath := getBranch (Some targetId) in
      let ancestor := deepest_common (map e_id oldPath) targetPath in
      let* entries := collect_loop (length oldPath) ancestor (Some old) [] in
      ret ((fun es => mkCollected es ancestor) <$> entries)
  end.
End Collect.

(** ** Selection within a budget *)

Record BranchPreparation := mkBranchPreparation {
  bp_messages : list AgentMessage; bp_fileOps : FileOperations; bp_totalTokens : Z;
}.

(** The file lists of an earlier branch summary, unless an extension made it. *)
Definition summary_files (ops : FileOperations) (e : SessionTreeEntry) : FileOperations :=
  match e_body e with
  | EBranchSummary _ _ (Some details) fromHook =>
      if default false fromHook then ops
      else mkFileOps (fo_read ops ∪ list_to_set (string_items details (js "readFiles"))) (fo_written ops)
                     (fo_edited ops ∪ list_to_set (string_items details (js "modifiedFiles")))
  | _ => ops
  end.

Definition is_summary_entry (e : SessionTreeEntry) : bool :=
  match e_body e with ECompaction _ _ _ _ _ | EBranchSummary _ _ _ _ => true | _ => false end.

Section Prepare.
Context (get_time : jsstr -> Z).

(** [getMessageFromEntry] of this file: tool results are left out. *)
Definition branch_message (e : SessionTreeEntry) : option AgentMessage :=
  match e_body e with
  | EMessage (MToolResult _) => None
  | _ => getMessageFromEntry get_time e
  end.

(** The loop from the last entry to the first, on the reversed list. *)
Fixpoint select_messages (tokenBudget : Z) (rev_entries : list SessionTreeEntry) (p : BranchPreparation) : BranchPreparation :=
  match rev_entries with
  | [] => p
  | e :: rest =>
      match branch_message e with
      | None => select_messages tokenBudget rest p
      | Some m =>
          let ops := extractFileOpsFromMessage (bp_fileOps p) m in
          let tokens := estimateTokens m in
          let taken := mkBranchPreparation (m :: bp_messages p) ops (bp_totalTokens p + tokens) in
          if (0 <? tokenBudget) && (tokenBudget <? bp_totalTokens p + tokens) then
            if is_summary_entry e && (10 * bp_totalTokens p <? 9 * tokenBudget) then taken
            else mkBranchPreparation (bp_messages p) ops (bp_totalTokens p)
          else select_messages tokenBudget rest taken
      end
  end.

Definition prepareBranchEntries (es : list SessionTreeEntry) (tokenBudget : Z) : BranchPreparation :=
  select_messages tokenBudget (reverse es) (mkBranchPreparation [] (fold_left summary_files es createFileOps) 0).

(** ** The summary *)

Inductive BranchSummaryErrorCode := bse_aborted | bse_summarization_failed | bse_invalid_session.
Record BranchSummaryError := mkBranchSummaryError { bse_code : BranchSummaryErrorCode; bse_message : jsstr }.
Record BranchSummaryResult := mkBranchSummaryResult { bsr_summary : jsstr; bsr_files : file_lists }.

Definition BRANCH_SUMMARY_PREAMBLE : jsstr :=
  join nl [js "The user explored a different conversation branch before returning here."; js "Summary of that exploration:"; []; []].

Definition BRANCH_SUMMARY_PROMPT : jsstr :=
  join nl [js "Create a structured summary of this conversation branch for context when returning later."; [];
    js "Use this EXACT format:"; [];
    js "## Goal"; js "[What was the user trying to accomplish in this branch?]"; [];
    js "## Plan"; js "- [ ] [Not started]"; js "- [.] [In progress]"; js "- [v] [Done]"; js "- [-] [Failed]"; js "- [!] [Blocked]"; [];
    js "## Decisions"; js "- **[Decision]**: [Brief rationale]"; [];
    js "## Files"; js "- [read|modified|created|deleted]: [Exact path] - [Concise summary]"; [];
    js "## Risks"; js "- [Unresolved failure, blocker, warning, or " ++ [34] ++ js "(none)" ++ [34] ++ js "]"; [];
    js "Keep each section concise. Preserve exact file paths, function names, and error messages."].

Section Generate.
Context {W Err Signal : Type}.
Context (completeSimple : Model -> jsstr -> list Message -> CompletionOptions (Signal := Signal) -> M W Err AssistantMessage).
Context (now : M W Err Z).

Record GenerateBranchSummaryOptions := mkBranchOptions {
  bo_model : Model; bo_apiKey : jsstr; bo_headers : option (list (jsstr * jsstr)); bo_signal : Signal;
  bo_customInstructions : option jsstr; bo_replaceInstructions : option bool; bo_reserveTokens : option Z;
}.

(** [contextWindow - reserveTokens], with the defaults. *)
Definition branch_budget (o : GenerateBranchSummaryOptions) : Z :=
  (if md_contextWindow (bo_model o) =? 0 then 128000 else md_contextWindow (bo_model o)) - default 16384 (bo_reserveTokens o).

Definition branch_instructions (o : GenerateBranchSummaryOptions) : jsstr :=
  match or_text (bo_customInstructions o) [] with
  | [] => BRANCH_SUMMARY_PROMPT
  | custom => if default false (bo_replaceInstructions o) then custom
              else BRANCH_SUMMARY_PROMPT ++ nl ++ nl ++ js "Additional focus: " ++ custom
  end.

Definition branch_prompt (messages : list AgentMessage) (o : GenerateBranchSummaryOptions) : jsstr :=
  conversation_block messages ++ branch_instructions o.

Definition generateBranchSummary (es : list SessionTreeEntry) (o : GenerateBranchSummaryOptions)
    : M W Err (result BranchSummaryError BranchSummaryResult) :=
  let p := prepareBranchEntries es (branch_budget o) in
  if is_empty (bp_messages p) then
    ret (Ok (mkBranchSummaryResult (js "No content to summarize") (mkFileLists [] [])))
  else
    let* timestamp := now in
    let* response := completeSimple (bo_model o) SUMMARIZATION_SYSTEM_PROMPT
                       [text_message (branch_prompt (bp_messages p) o) timestamp]
                       (mkOptions (inject_Z 2048) (Some (bo_signal o)) (bo_apiKey o) (bo_headers o) None) in
    ret (match am_stopReason response with
         | StopAborted => Throw (mkBranchSummaryError bse_aborted (or_text (am_errorMessage response) (js "Branch summary aborted")))
         | StopError => Throw (mkBranchSummaryError bse_summarization_failed
                                (js "Branch summary failed: " ++ or_text (am_errorMessage response) (js "Unknown error")))
         | _ =>
             let lists := computeFileLists (bp_fileOps p) in
             let summary := BRANCH_SUMMARY_PREAMBLE ++ join nl (text_parts response) ++ formatFileOperations lists in
             Ok (mkBranchSummaryResult (or_text (Some summary) (js "No summary generated")) lists)
         end).
End Generate.
End Prepare.
