(* ===== verification/BranchProps.v ===== *)
(** Theorems about branch summaries: what is collected is exactly what leaving
    a branch abandons, and what is selected is the longest recent part that fits
    the budget. *)
From S2P Require Import Prelude JsString Json Effects Uuid Messages SessionTree SessionLaws SessionProps Compaction CompactionProps BranchSummary.
#[local] Open Scope Z_scope.
#[local] Open Scope eff.

(** ** Paths that share a beginning *)

Lemma path_of_fun m e l l' : path_of m e l -> path_of m e l' -> l = l'.
Proof.
  intros Hp. revert l'. induction Hp as [e Hr|e p e' l Hr Hm Hp IH]; intros l' Hp'; inversion Hp' as [? Hr'|? p2 e2 l2 Hr' Hm' Hp2]; subst;
    try congruence. assert (p2 = p) as -> by congruence. assert (e2 = e') as -> by congruence. by rewrite (IH _ Hp2).
Qed.

Lemma path_of_last m e l : path_of m e l -> last l = Some e.
Proof. destruct 1; [done|apply last_snoc]. Qed.

Lemma path_of_prefix m e l x : path_of m e l -> x ∈ l -> exists l1 l2, l = l1 ++ l2 /\ path_of m x l1.
Proof.
  intros Hp. induction Hp as [e Hr|e p e' l Hr Hm Hp IH]; intros Hx.
  - apply list_elem_of_singleton in Hx as ->. exists [e], []. split; [done|by constructor].
  - apply elem_of_app in Hx as [Hx|Hx%list_elem_of_singleton].
    + destruct (IH Hx) as (l1 & l2 & -> & H1). exists l1, (l2 ++ [e]). split; [by rewrite app_assoc|done].
    + subst. exists (l ++ [e]), []. split; [by rewrite app_nil_r|by econstructor].
Qed.

Lemma wf_index_elem es e : wf_log es -> e ∈ es -> index_entries es !! e_id e = Some e.
Proof.
  induction 1 as [|es x Hwf IH Hx]; intros He; [by apply elem_of_nil in He|]. rewrite index_snoc.
  apply elem_of_app in He as [He|He%list_elem_of_singleton]; [|subst; apply lookup_insert_eq].
  rewrite lookup_insert_ne; [by apply IH|]. intros Heq. apply (ok_id _ _ Hx). rewrite Heq. by apply list_elem_of_fmap_2.
Qed.

Lemma find_Some_split {A} (p : A -> bool) l x : List.find p l = Some x ->
  exists a b, l = a ++ x :: b /\ p x = true /\ forall y, y ∈ a -> p y = false.
Proof.
  induction l as [|z l IH]; [done|]. cbn [List.find]. destruct (p z) eqn:E.
  - intros [= ->]. exists [], l. split_and!; [done|done|]. by intros y ?%elem_of_nil.
  - intros (a & b & -> & Hx & Ha)%IH. exists (z :: a), b. split_and!; [done|done|].
    intros y [->|Hy]%elem_of_cons; [done|by apply Ha].
Qed.

Lemma nodup_split {A} (x : A) p p' s s' : NoDup (p ++ x :: s) -> p ++ x :: s = p' ++ x :: s' -> s = s'.
Proof.
  revert p'. induction p as [|y p IH]; intros [|z p'] Hn E; cbn in *.
  - by injection E.
  - injection E as <- ->. apply NoDup_cons in Hn as [Hn _]. destruct Hn. set_solver.
  - injection E as -> <-. apply NoDup_cons in Hn as [Hn _]. destruct Hn. set_solver.
  - injection E as <- E. apply NoDup_cons in Hn as [_ Hn]. by eapply IH.
Qed.

(** Two paths of a log and the deepest entry they share. *)
Lemma paths_fork es eo lo et lt : wf_log es ->
  path_of (index_entries es) eo lo -> path_of (index_entries es) et lt -> path_in es lo -> path_in es lt ->
  exists common abandoned rest, lo = common ++ abandoned /\ lt = common ++ rest /\
    (forall a b, a ∈ abandoned -> b ∈ rest -> e_id a <> e_id b) /\
    deepest_common (map e_id lo) lt = e_id <$> last common.
Proof.
  intros Hwf Ho Ht [Hno Hio] [Hnt Hit]. unfold deepest_common.
  assert (Hd : forall x y, x ∈ lo -> y ∈ lt -> e_id x = e_id y -> x = y).
  { intros x y Hx Hy E. pose proof (wf_index_elem es x Hwf (Hio x Hx)) as H1.
    pose proof (wf_index_elem es y Hwf (Hit y Hy)) as H2. congruence. }
  destruct (List.find _ (reverse lt)) as [x|] eqn:E.
  - apply find_Some_split in E as (a & b & Hr & Hx & Ha). apply bool_decide_eq_true in Hx.
    apply (f_equal reverse) in Hr. rewrite reverse_involutive, reverse_app, reverse_cons in Hr.
    apply list_elem_of_fmap in Hx as (y & Hxy & Hy).
    assert (Hxt : x ∈ lt) by (rewrite Hr; set_solver). assert (y = x) as -> by (by apply Hd).
    destruct (path_of_prefix _ _ _ _ Ho Hy) as (l1 & l2 & Hlo & Hp1).
    destruct (path_of_prefix _ _ _ _ Ht Hxt) as (t1 & t2 & Hlt & Hp2).
    assert (t1 = l1) as -> by (by eapply path_of_fun).
    exists l1, l2, t2. split_and!; [done|done| |by rewrite (path_of_last _ _ _ Hp1)].
    intros u v Hu Hv Huv. assert (Hvlo : v ∈ lo).
    { assert (u = v) as <- by (apply Hd; [rewrite Hlo; apply elem_of_app; by right|rewrite Hlt; apply elem_of_app; by right|done]).
      rewrite Hlo. apply elem_of_app. by right. }
    assert (t2 = reverse a) as ->.
    { apply path_of_last in Hp2. apply last_Some in Hp2 as [t0 ->]. rewrite <- app_assoc in Hlt. cbn in Hlt.
      rewrite <- app_assoc in Hr. cbn in Hr. eapply nodup_split; [|by rewrite <- Hlt, <- Hr]. rewrite <- Hlt.
      by apply NoDup_fmap_1 in Hnt. }
    rewrite elem_of_reverse in Hv. specialize (Ha v Hv). apply bool_decide_eq_false in Ha. apply Ha. by apply list_elem_of_fmap_2.
  - exists [], lo, lt. split_and!; [done|done| |done]. intros a b Ha Hb Hab.
    apply (List.find_none _ _) with (x := b) in E; [|by apply list_elem_of_In, elem_of_reverse].
    apply bool_decide_eq_false in E. apply E. rewrite <- Hab. by apply list_elem_of_fmap_2.
Qed.

(** ** Collection *)

Section Collected.
Context {S : Type} `{SessionStorageOk S}.

Lemma collect_step k (w : world S) e fuel ancestor acc :
  store_inv k w -> e ∈ store_view w -> ancestor <> Some (e_id e) ->
  collect_loop (Datatypes.S fuel) ancestor (Some (e_id e)) acc w = collect_loop fuel ancestor (e_parentId e) (acc ++ [e]) w.
Proof.
  intros Hi He Ha. pose proof (store_wf _ _ Hi) as Hwf.
  assert (Hne : e_id e <> []) by (apply (wf_id_nonempty _ _ Hwf); by apply list_elem_of_fmap_2).
  cbn [collect_loop]. destruct (e_id e) as [|c id] eqn:Eid; [done|]. rewrite bool_decide_eq_false_2 by congruence.
  unfold bind. rewrite (law_getEntry k w _ Hi), <- Eid, (wf_index_elem _ _ Hwf He). done.
Qed.

Lemma collect_at k (w : world S) e fuel acc :
  store_inv k w -> e ∈ store_view w -> collect_loop fuel (Some (e_id e)) (Some (e_id e)) acc w = (Ok (Some (reverse acc)), w).
Proof.
  intros Hi He. destruct fuel; cbn [collect_loop]; (destruct (e_id e); [done|]); by rewrite bool_decide_eq_true_2.
Qed.

(** Walking a path up to where it joined another. *)
Lemma collect_path k (w : world S) e l l1 l2 fuel acc :
  store_inv k w -> path_of (index_entries (store_view w)) e l -> path_in (store_view w) l ->
  l = l1 ++ l2 -> (length l2 <= fuel)%nat ->
  collect_loop fuel (e_id <$> last l1) (Some (e_id e)) acc w = (Ok (Some (reverse (acc ++ reverse l2))), w).
Proof.
  intros Hi Hp. pose proof (store_wf _ _ Hi) as Hwf. revert l1 l2 fuel acc.
  assert (Hnot : forall (e : SessionTreeEntry) l1 l2, NoDup (entry_ids (l1 ++ l2 ++ [e])) -> e_id <$> last l1 <> Some (e_id e)).
  { intros x a b Hnd E. destruct (last a) as [y|] eqn:Ey; [|done]. injection E as E. apply last_Some in Ey as [a' ->].
    unfold entry_ids in Hnd. rewrite !map_app, app_assoc in Hnd. apply NoDup_app in Hnd as (_ & Hd & _).
    apply (Hd (e_id x)); [|by left]. apply elem_of_app. left. apply elem_of_app. right.
    cbn. rewrite E. by left. }
  induction Hp as [e Hr|e p e' l Hr Hm Hp IH]; intros l1 l2 fuel acc [Hnd Hin] Hl Hf.
  - assert (He : e ∈ store_view w) by (apply Hin; by left).
    destruct l1 as [|y l1]; [|destruct l1, l2; try done]; cbn in Hl.
    + subst l2. destruct fuel; [cbn in Hf; lia|]. rewrite (collect_step k) by done.
      unfold parent_of in Hr. destruct (e_parentId e) as [[|c q]|]; [|done|]; destruct fuel; done.
    + injection Hl as ->. cbn [last fmap option_fmap option_map]. rewrite (collect_at k) by done. by rewrite app_nil_r.
  - assert (He : e ∈ store_view w) by (apply Hin; apply elem_of_app; right; by left).
    destruct l2 as [|x l2 _] using rev_ind.
    + rewrite app_nil_r in Hl. subst l1. rewrite last_snoc. cbn [fmap option_fmap option_map].
      rewrite (collect_at k) by done. by rewrite app_nil_r.
    + rewrite app_assoc in Hl. apply app_inj_tail in Hl as [-> <-]. rewrite length_app in Hf. cbn in Hf.
      destruct fuel; [lia|]. rewrite (collect_step k) by (done || (eapply Hnot; rewrite app_assoc; exact Hnd)).
      assert (Hpar : e_parentId e = Some p) by (unfold parent_of in Hr; destruct (e_parentId e) as [[|]|]; congruence).
      destruct (wf_index_id _ _ _ Hwf Hm) as [Hid _]. rewrite Hpar, <- Hid, (IH l1 l2); [|split|done|lia].
      * rewrite reverse_snoc. by rewrite <- app_assoc.
      * unfold entry_ids in *. rewrite map_app in Hnd. by apply NoDup_app in Hnd as (? & _).
      * intros y Hy. apply Hin. apply elem_of_app. by left.
Qed.

(** C34: leaving the branch of [old] for the entry [target] of a session abandons
    exactly the entries of the old branch after the last one it shares with the
    target's; [collectEntriesForBranchSummary] returns them in order, and that
    entry as the common ancestor. *)
Theorem collect_branch_difference k (w : world S) old target :
  store_inv k w -> old ∈ entry_ids (store_view w) -> target ∈ entry_ids (store_view w) ->
  exists common abandoned rest,
    getBranch (Some old) w = (Ok (common ++ abandoned), w) /\ getBranch (Some target) w = (Ok (common ++ rest), w) /\
    (forall a b, a ∈ abandoned -> b ∈ rest -> e_id a <> e_id b) /\
    collectEntriesForBranchSummary (Some old) target w = (Ok (Some (mkCollected abandoned (e_id <$> last common))), w).
Proof.
  intros Hi Ho Ht. pose proof (store_wf _ _ Hi) as Hwf.
  assert (Hb : forall id, id ∈ entry_ids (store_view w) -> exists e l, e_id e = id /\ path_of (index_entries (store_view w)) e l /\
    path_in (store_view w) l /\ getBranch (Some id) w = (Ok l, w)).
  { intros id Hid. apply list_elem_of_fmap in Hid as (e & -> & He). destruct (wf_path_in _ e Hwf He) as (l & Hl & Hlen & Hp).
    exists e, l. split_and!; [done|done|exact Hp|]. unfold getBranch, bind, ret. rewrite (law_getPathToRoot k w _ Hi).
    by rewrite (walk_path _ _ _ _ Hwf (wf_index_elem _ _ Hwf He) Hl Hlen). }
  destruct (Hb old Ho) as (eo & lo & <- & Hpo & Hio & Eo). destruct (Hb target Ht) as (et & lt & <- & Hpt & Hit & Et).
  destruct (paths_fork _ _ _ _ _ Hwf Hpo Hpt Hio Hit) as (common & abandoned & rest & Hlo & Hlt & Hd & Hc).
  exists common, abandoned, rest. split_and!; [by rewrite Eo, Hlo|by rewrite Et, Hlt|done|].
  pose proof (wf_id_nonempty _ _ Hwf Ho) as Hne. unfold collectEntriesForBranchSummary.
  destruct (e_id eo) as [|c id] eqn:Eid; [done|]. rewrite <- Eid in *. unfold bind, ret. rewrite Eo, Et, Hc.
  rewrite (collect_path k w eo lo common abandoned) by (done || rewrite Hlo, length_app; lia).
  cbn [app]. by rewrite reverse_involutive.
Qed.
End Collected.

(** ** Selection *)

Lemma omap_reverse {A B} (f : A -> option B) l : omap f (reverse l) = reverse (omap f l).
Proof.
  induction l as [|x l IH]; [done|]. rewrite reverse_cons, omap_app, IH. cbn [omap list_omap].
  destruct (f x); [by rewrite reverse_cons|by rewrite app_nil_r].
Qed.

Section Selected.
Context (get_time : jsstr -> Z).
Abbreviation messages_of es := (omap (branch_message get_time) es).
Abbreviation tokens_of ms := (sumZ (map estimateTokens ms)).

(** A message that stands for an earlier summary. *)
Definition summary_of (es : list SessionTreeEntry) (m : AgentMessage) : Prop :=
  exists e, e ∈ es /\ is_summary_entry e = true /\ branch_message get_time e = Some m.

Record selected (budget : Z) (es : list SessionTreeEntry) (p : BranchPreparation) (older_first : option AgentMessage) : Prop := {
  sel_total : bp_totalTokens p = tokens_of (bp_messages p);
  sel_fits : 0 < budget -> bp_totalTokens p <= budget \/
    exists m rest, bp_messages p = m :: rest /\ summary_of es m /\ 10 * tokens_of rest < 9 * budget;
  sel_maximal : 0 < budget -> forall m, older_first = Some m -> budget < bp_totalTokens p + estimateTokens m;
}.

Lemma select_spec budget es rev p :
  (forall e, e ∈ rev -> e ∈ es) -> bp_totalTokens p = tokens_of (bp_messages p) -> (0 < budget -> bp_totalTokens p <= budget) ->
  exists older taken, messages_of rev = reverse taken ++ older /\
    bp_messages (select_messages get_time budget rev p) = taken ++ bp_messages p /\
    (budget <= 0 -> older = []) /\ selected budget es (select_messages get_time budget rev p) (head older).
Proof.
  revert p. induction rev as [|e rev IH]; intros p Hsub Ht Hb; cbn [select_messages].
  { exists [], []. split_and!; try done. split; [done|intros ?; left; auto|done]. }
  assert (Hsub' : forall x, x ∈ rev -> x ∈ es) by (intros x Hx; apply Hsub; by right).
  cbn [omap list_omap]. destruct (branch_message get_time e) as [m|] eqn:Em; [|by apply IH].
  set (ops := extractFileOpsFromMessage (bp_fileOps p) m).
  destruct ((0 <? budget) && (budget <? bp_totalTokens p + estimateTokens m)) eqn:Eb.
  - apply andb_true_iff in Eb as [Hb0 Hover]. bool_hyps.
    destruct (is_summary_entry e && (10 * bp_totalTokens p <? 9 * budget)) eqn:Es.
    + apply andb_true_iff in Es as [Hs H9]. bool_hyps. exists (messages_of rev), [m]. split_and!; [done|done|lia|].
      split; cbn [bp_totalTokens bp_messages].
      * cbn [map sumZ]. lia.
      * intros _. right. exists m, (bp_messages p). split_and!; [done| |by rewrite <- Ht].
        exists e. split_and!; [apply Hsub; by left|done|done].
      * intros _ m' _. pose proof (estimateTokens_nonneg m'). lia.
    + exists (m :: messages_of rev), []. split_and!; [done|done|lia|]. split; cbn [bp_totalTokens bp_messages head].
      * done.
      * intros H. left. auto.
      * intros _ m' [= <-]. lia.
  - destruct (IH (mkBranchPreparation (m :: bp_messages p) ops (bp_totalTokens p + estimateTokens m)))
      as (older & taken & E1 & E2 & E3 & E4); [done| | |].
    + cbn [bp_totalTokens bp_messages map sumZ]. lia.
    + intros H. apply andb_false_iff in Eb. cbn [bp_totalTokens]. destruct Eb; bool_hyps; lia.
    + exists older, (taken ++ [m]). split_and!; try done.
      * rewrite reverse_app. cbn. by rewrite E1.
      * rewrite E2. cbn [bp_messages]. by rewrite <- app_assoc.
Qed.

(** [prepareBranchEntries] selects the latest messages of the branch: the
    messages of its entries, tool results apart, are some older ones followed by
    the selected ones in order, and [totalTokens] is their estimate.  With a
    budget the selection fits it, unless its first message is an earlier summary
    and the rest stays under nine tenths of the budget; and the next older message
    would not fit.  Without one (the budget is not positive) every message is
    selected. *)
Theorem prepareBranchEntries_selects es budget :
  let p := prepareBranchEntries get_time es budget in
  exists older, messages_of es = older ++ bp_messages p /\ (budget <= 0 -> older = []) /\ selected budget es p (last older).
Proof.
  unfold prepareBranchEntries.
  destruct (select_spec budget es (reverse es) (mkBranchPreparation [] (fold_left summary_files es createFileOps) 0))
    as (older & taken & E1 & E2 & E3 & E4); [intros e; by rewrite elem_of_reverse|done|intros; cbn; lia|].
  cbn [bp_messages] in E2. rewrite app_nil_r in E2. exists (reverse older). cbn zeta. rewrite E2. split_and!.
  - rewrite <- (reverse_involutive es) at 1. rewrite omap_reverse, E1, reverse_app, reverse_involutive. done.
  - intros H. by rewrite (E3 H).
  - by rewrite last_reverse.
Qed.
End Selected.

(** ** A concrete branch *)

Module BranchSample.
Import Sample.

(** Back from the last of three entries to the second. *)
Definition third_id : jsstr := default [] (e_id <$> entries (w_storage after) !! 2%nat).

Lemma collect_branch_difference_witness : exists common abandoned,
  getBranch (Some third_id) after = (Ok (common ++ abandoned), after) /\
  collectEntriesForBranchSummary (Some third_id) second_id after = (Ok (Some (mkCollected abandoned (e_id <$> last common))), after).
Proof.
  assert (Hi : store_inv 10 after) by exact after_inv.
  destruct (collect_branch_difference 10 after third_id second_id Hi)
    as (common & abandoned & rest & H1 & _ & _ & H4).
  - vm_compute. right. right. left.
  - vm_compute. right. left.
  - exists common, abandoned. split; [exact H1|exact H4].
Defined.
End BranchSample.
