(* ===== verification/Protocol.v ===== *)
(** The completion protocol of the agent loop, apart from its effects:
    [completion-protocol.ts], [tool-effects.ts], [agent-loop/constants.ts],
    [agent-loop/types.ts], [agent-loop/protocol-limits.ts] and the functions of
    [agent-loop/tool-result-formatting.ts], [response-processing.ts] and
    [provider-length-continuation.ts] that classify a response. *)
From S2P Require Import Prelude JsString Json Messages.

(** ** Modes, limits and counters *)

Inductive CompletionMode := implicit | explicit_finish | hybrid.

#[export] Instance CompletionMode_eq_dec : EqDecision CompletionMode.
Proof. solve_decision. Defined.

Definition DEFAULT_COMPLETION_MODE : CompletionMode := explicit_finish.

Definition isCompletionProtocolEnabled (mode : CompletionMode) : bool :=
  match mode with explicit_finish | hybrid => true | implicit => false end.

(** A limit is a number, possibly [Number.POSITIVE_INFINITY]. *)
Inductive bound := Fin (n : Z) | Infinite.

(** [n > b], [n >= b] and [n < b] for a counter. *)
Definition exceeds (n : Z) (b : bound) : bool := match b with Fin k => k <? n | Infinite => false end.
Definition reaches (n : Z) (b : bound) : bool := match b with Fin k => k <=? n | Infinite => false end.

Definition show_bound (b : bound) : jsstr := match b with Fin n => show n | Infinite => js "Infinity" end.

Definition DEFAULT_MAX_TURNS : bound := Infinite.
Definition DEFAULT_MAX_NO_PROGRESS_TURNS : bound := Fin 5.
Definition DEFAULT_MAX_CONSECUTIVE_WAITING_TURNS : bound := Fin 3.
Definition DEFAULT_MAX_MALFORMED_TOOL_RETRIES : bound := Fin 3.
Definition DEFAULT_MAX_EMPTY_ASSISTANT_RETRIES : bound := Fin 3.
Definition DEFAULT_MAX_MISSING_FINISH_RETRIES : bound := Fin 15.
Definition DEFAULT_MAX_EXPLICIT_MISSING_FINISH_RETRIES : bound := Fin 3.

(** [completionLimits] of the configuration: every field optional. *)
Record CompletionLimitOptions := mkLimitOptions {
  lo_maxTurns : option bound;
  lo_maxNoProgressTurns : option bound;
  lo_maxConsecutiveWaitingTurns : option bound;
  lo_maxMalformedToolRetries : option bound;
  lo_maxEmptyAssistantRetries : option bound;
  lo_maxMissingFinishRetries : option bound;
}.

Record CompletionProtocolLimits := mkLimits {
  maxTurns : bound;
  maxNoProgressTurns : bound;
  maxConsecutiveWaitingTurns : bound;
  maxMalformedToolRetries : bound;
  maxEmptyAssistantRetries : bound;
  maxMissingFinishRetries : bound;
}.

Definition resolveCompletionLimits (o : option CompletionLimitOptions) (mode : CompletionMode) : CompletionProtocolLimits :=
  let field f d := default d (o ≫= f) in
  mkLimits
    (field lo_maxTurns DEFAULT_MAX_TURNS)
    (field lo_maxNoProgressTurns DEFAULT_MAX_NO_PROGRESS_TURNS)
    (field lo_maxConsecutiveWaitingTurns DEFAULT_MAX_CONSECUTIVE_WAITING_TURNS)
    (field lo_maxMalformedToolRetries DEFAULT_MAX_MALFORMED_TOOL_RETRIES)
    (field lo_maxEmptyAssistantRetries DEFAULT_MAX_EMPTY_ASSISTANT_RETRIES)
    (field lo_maxMissingFinishRetries
       (match mode with
        | explicit_finish => DEFAULT_MAX_EXPLICIT_MISSING_FINISH_RETRIES
        | _ => DEFAULT_MAX_MISSING_FINISH_RETRIES
        end)).

Record CompletionProtocolState := mkState {
  turns : Z;
  noProgressTurns : Z;
  consecutiveWaitingTurns : Z;
  malformedToolRetries : Z;
  emptyAssistantRetries : Z;
  missingFinishRetries : Z;
  allowImplicitCompletion : bool;
}.

Definition createCompletionProtocolState : CompletionProtocolState := mkState 0 0 0 0 0 0 false.

Definition resetCompletionProgress (s : CompletionProtocolState) : CompletionProtocolState :=
  mkState (turns s) 0 0 0 0 0 (allowImplicitCompletion s).

(** The assignments of the loop. *)
Definition set_turns (n : Z) (s : CompletionProtocolState) : CompletionProtocolState :=
  mkState n (noProgressTurns s) (consecutiveWaitingTurns s) (malformedToolRetries s) (emptyAssistantRetries s)
    (missingFinishRetries s) (allowImplicitCompletion s).
Definition bump_noProgress (s : CompletionProtocolState) : CompletionProtocolState :=
  mkState (turns s) (noProgressTurns s + 1) (consecutiveWaitingTurns s) (malformedToolRetries s) (emptyAssistantRetries s)
    (missingFinishRetries s) (allowImplicitCompletion s).
Definition set_waiting (n : Z) (s : CompletionProtocolState) : CompletionProtocolState :=
  mkState (turns s) (noProgressTurns s) n (malformedToolRetries s) (emptyAssistantRetries s)
    (missingFinishRetries s) (allowImplicitCompletion s).
Definition bump_malformed (s : CompletionProtocolState) : CompletionProtocolState :=
  mkState (turns s) (noProgressTurns s) (consecutiveWaitingTurns s) (malformedToolRetries s + 1) (emptyAssistantRetries s)
    (missingFinishRetries s) (allowImplicitCompletion s).
Definition bump_empty (s : CompletionProtocolState) : CompletionProtocolState :=
  mkState (turns s) (noProgressTurns s) (consecutiveWaitingTurns s) (malformedToolRetries s) (emptyAssistantRetries s + 1)
    (missingFinishRetries s) (allowImplicitCompletion s).
Definition bump_missing (s : CompletionProtocolState) : CompletionProtocolState :=
  mkState (turns s) (noProgressTurns s) (consecutiveWaitingTurns s) (malformedToolRetries s) (emptyAssistantRetries s)
    (missingFinishRetries s + 1) (allowImplicitCompletion s).
Definition allow_implicit (s : CompletionProtocolState) : CompletionProtocolState :=
  mkState (turns s) (noProgressTurns s) (consecutiveWaitingTurns s) (malformedToolRetries s) (emptyAssistantRetries s)
    (missingFinishRetries s) true.

(** ** [finish_work] *)

Definition FINISH_WORK_TOOL_NAME : jsstr := js "finish_work".

Inductive FinishWorkStatus := success | partial | failed.

Record FinishWorkPayload := mkPayload {
  fw_status : FinishWorkStatus;
  fw_summary : jsstr;
  fw_files_changed : option (list jsstr);
  fw_tests_run : option (list jsstr);
  fw_remaining_work : option (list jsstr);
  fw_notes : option jsstr;
}.

(** The error text, or [None] when the input is acceptable. *)
Definition validateFinishWorkInput (i : FinishWorkPayload) : option jsstr :=
  if is_empty (trim (fw_summary i)) then Some (js "summary is required and must not be empty")
  else match fw_status i, fw_remaining_work i with
       | success, Some (_ :: _) =>
           Some (js "status " ++ [34] ++ js "success" ++ [34] ++ js " is incompatible with non-empty remaining_work")
       | _, _ => None
       end.

Definition normalizeOptionalList (v : option (list jsstr)) : option (list jsstr) :=
  match v with Some (x :: l) => Some (x :: l) | _ => None end.

Definition normalizeFinishWorkPayload (i : FinishWorkPayload) : FinishWorkPayload :=
  mkPayload (fw_status i) (fw_summary i) (normalizeOptionalList (fw_files_changed i))
    (normalizeOptionalList (fw_tests_run i)) (normalizeOptionalList (fw_remaining_work i)) (fw_notes i).

Definition isFinishWorkToolResult (t : ToolResultMessage) : bool := bool_decide (tr_toolName t = FINISH_WORK_TOOL_NAME).

(** ** Tool effects *)

Inductive ToolEffectKind := eff_read | eff_workspace_write | eff_external_write | eff_unknown.
Inductive ToolEffectRisk := risk_normal | risk_high.
Inductive ToolEffectSource := src_builtin | src_declared | src_default_unknown.

Record ResolvedToolEffect := mkEffect {
  ef_kind : ToolEffectKind; ef_risk : ToolEffectRisk; ef_domains : list jsstr; ef_source : ToolEffectSource;
}.

(** What a tool carries: raw values of unknown shape, or an object that
    [resolveToolEffect] returned before (a member of [RESOLVED_EFFECTS]). *)
Inductive effect_declaration :=
  | Declared (kind risk : json) (domains : option json)
  | Resolved (e : ResolvedToolEffect).

Definition DEFAULT_UNKNOWN_TOOL_EFFECT : ResolvedToolEffect := mkEffect eff_unknown risk_high [] src_default_unknown.

Definition VALID_DOMAINS : list jsstr :=
  [js "credentials"; js "destructive"; js "deployment"; js "network_send"; js "persistent_state"; js "publication"].

Definition parse_kind (v : json) : option ToolEffectKind :=
  match v with
  | JStr s =>
      if bool_decide (s = js "read") then Some eff_read
      else if bool_decide (s = js "workspace_write") then Some eff_workspace_write
      else if bool_decide (s = js "external_write") then Some eff_external_write
      else if bool_decide (s = js "unknown") then Some eff_unknown else None
  | _ => None
  end.

Definition parse_risk (v : json) : option ToolEffectRisk :=
  match v with
  | JStr s => if bool_decide (s = js "normal") then Some risk_normal
              else if bool_decide (s = js "high") then Some risk_high else None
  | _ => None
  end.

Definition valid_domain (v : json) : bool :=
  match v with JStr s => bool_decide (s ∈ VALID_DOMAINS) | _ => false end.

(** [Array.from(new Set(xs))]: first occurrences, in order. *)
Fixpoint dedup (l : list jsstr) : list jsstr :=
  match l with
  | [] => []
  | x :: l' => x :: List.filter (fun y => negb (bool_decide (y = x))) (dedup l')
  end.

(** [None] when the domains are not acceptable. *)
Definition parse_domains (d : option json) : option (list jsstr) :=
  match d with
  | None => Some []
  | Some (JArr l) =>
      if forallb valid_domain l
      then Some (dedup (flat_map (fun v => match v with JStr s => [s] | _ => [] end) l))
      else None
  | Some _ => None
  end.

Definition resolveToolEffect (d : option effect_declaration) (builtin : bool) : ResolvedToolEffect :=
  match d with
  | Some (Resolved e) => e
  | None => DEFAULT_UNKNOWN_TOOL_EFFECT
  | Some (Declared kind risk domains) =>
      match parse_kind kind, parse_risk risk, parse_domains domains with
      | Some k, Some r, Some ds => mkEffect k r ds (if builtin then src_builtin else src_declared)
      | _, _, _ => DEFAULT_UNKNOWN_TOOL_EFFECT
      end
  end.

Definition toolEffectRequiresVerification (e : ResolvedToolEffect) : bool :=
  match ef_kind e, ef_risk e with eff_read, risk_normal => false | _, _ => true end.

(** ** Repair messages *)

Definition lines (l : list string) : jsstr := join nl (map js l).

Definition MISSING_FINISH_WORK_REPAIR_MESSAGE : jsstr := lines
  ["The task is not complete because you did not call `finish_work`.";
   "Continue working by calling the appropriate tools, or call `finish_work` if you believe the work is genuinely done.";
   "Do not provide a normal assistant final answer in this mode."].

Definition MALFORMED_TOOL_CALL_REPAIR_MESSAGE : jsstr := lines
  ["Your previous tool call appears to be incomplete, malformed, or truncated.";
   "If you need to wait, call `sleep` with `{ seconds, check: { tool, arguments } }`; bare waits are invalid.";
   "The runtime will execute the check immediately after the wait.";
   "Re-emit the intended tool call in valid form, or call `finish_work` if the task is complete.";
   "Do not explain. Call a tool."].

Definition REPETITIVE_MODEL_OUTPUT_REPAIR_MESSAGE : jsstr := lines
  ["Your previous response entered a repetitive text loop and was stopped by the runtime.";
   "Continue from the last useful step without repeating or restating the looped text.";
   "Call the next appropriate tool, or call `finish_work` if the task is complete.";
   "Do not explain. Continue with a tool call."].

Definition MIXED_FINISH_WORK_REPAIR_MESSAGE : jsstr := lines
  ["Do not mix `finish_work` with other tool calls.";
   "Call non-terminal tools first, or call only `finish_work` when the task is complete.";
   "Do not explain. Call a tool."].

(** Runs of control characters become one space. *)
Definition is_control (c : Z) : bool := ((0 <=? c) && (c <=? 31)) || (c =? 127).

Fixpoint collapse_controls (in_run : bool) (s : jsstr) : jsstr :=
  match s with
  | [] => []
  | c :: s' =>
      if is_control c then (if in_run then collapse_controls true s' else 32 :: collapse_controls true s')
      else c :: collapse_controls false s'
  end.

Definition boundedRepairLabel (value : jsstr) (maxLength : Z) : jsstr :=
  slice_to (trim (collapse_controls false value)) maxLength.

Definition malformedToolCallRepairMessage (calls : list ToolCall) : jsstr :=
  let pendingStep :=
    match calls with
    | [c] =>
        let toolName := boundedRepairLabel (tc_name c) 80 in
        let path :=
          match tc_arguments c with
          | JObj m =>
              boundedRepairLabel
                (match getStringValue (get_prop m (js "path")) with
                 | Some p => p
                 | None => default [] (getStringValue (get_prop m (js "file_path")))
                 end) 200
          | _ => []
          end in
        if is_empty toolName then js "The incomplete response was not executed as a tool call."
        else js "The pending " ++ quote toolName ++ js " call"
             ++ (if is_empty path then [] else js " for path " ++ quote path) ++ js " was not executed."
    | _ => js "The incomplete response was not executed as a tool call."
    end in
  join nl
    [MALFORMED_TOOL_CALL_REPAIR_MESSAGE; pendingStep;
     js "Reapply already-known task and project constraints and retry only this pending step; do not restart planning or project discovery, and do not reread unchanged inputs.";
     js "If the arguments were large, use smaller bounded tool calls."].

(** ** Classification of a response *)

Definition getAssistantText (m : AssistantMessage) : jsstr :=
  join nl (flat_map (fun b => match b with AText t _ => [t] | AThinking t _ _ => [t] | AToolCall _ => [] end) (am_content m)).

Definition isProviderLengthResponse (m : AssistantMessage) : bool :=
  match am_stopReason m with StopLength => true | _ => false end.

(** [/streamed (?:text|reasoning|arguments) entered a repetitive loop/i]. *)
Definition repetitive_regex : regex :=
  RSeq (RLit (js "streamed "))
    (RSeq (RAlt (RLit (js "text")) (RAlt (RLit (js "reasoning")) (RLit (js "arguments"))))
       (RLit (js " entered a repetitive loop"))).

Definition hasRepetitiveModelOutput (m : AssistantMessage) : bool :=
  isProviderLengthResponse m && regex_test repetitive_regex (default [] (am_errorMessage m)).

Definition dq : jsstr := [34].

(** The four expressions that betray a tool call written as text. *)
Definition tool_markup_regex : regex :=
  RAlt (RSeq (RLit (js "<tool_call")) RBoundary)
  (RAlt (RSeq (RLit (js "<function")) (RAlt (RLit (js "=")) RSpace))
  (RAlt (RSeq (RLit (dq ++ js "tool_call")) (RSeq (ROpt (RLit (js "s"))) (RSeq (RLit dq) (RSeq RSpaces (RLit (js ":"))))))
        (RSeq (RLit (dq ++ js "function_call" ++ dq)) (RSeq RSpaces (RLit (js ":")))))).

Definition hasMalformedOrTruncatedToolCall (m : AssistantMessage) (calls : list ToolCall) : bool :=
  if isProviderLengthResponse m || (match am_stopReason m with StopToolUse => is_empty calls | _ => false end) then true
  else if negb (is_empty calls) then false
  else regex_test tool_markup_regex (getAssistantText m).

Inductive repair_reason :=
  | malformed_or_truncated_tool_call | missing_finish_work_or_tool_call
  | mixed_finish_work_tool_call | repetitive_model_output.

#[export] Instance repair_reason_eq_dec : EqDecision repair_reason.
Proof. solve_decision. Defined.

Definition reason_text (r : repair_reason) : jsstr :=
  match r with
  | malformed_or_truncated_tool_call => js "malformed_or_truncated_tool_call"
  | missing_finish_work_or_tool_call => js "missing_finish_work_or_tool_call"
  | mixed_finish_work_tool_call => js "mixed_finish_work_tool_call"
  | repetitive_model_output => js "repetitive_model_output"
  end.

Inductive protocol_event :=
  | completion_mode | finish_work_called | verified_completion_called | missing_finish_work_retry
  | malformed_tool_call_retry | max_turns_without_finish_work | no_progress_stop | waiting_loop_stop | waiting_loop_warning.

#[export] Instance protocol_event_eq_dec : EqDecision protocol_event.
Proof. solve_decision. Defined.

Record CompletionProtocolRepair := mkRepair {
  rp_reason : repair_reason; rp_message : jsstr; rp_event : protocol_event;
}.

Definition is_finish_call (c : ToolCall) : bool := bool_decide (tc_name c = FINISH_WORK_TOOL_NAME).

Definition detectCompletionProtocolRepair (m : AssistantMessage) (calls : list ToolCall) (hasMoreToolCalls : bool)
    : option CompletionProtocolRepair :=
  if hasRepetitiveModelOutput m then
    Some (mkRepair repetitive_model_output
            (if is_empty calls then REPETITIVE_MODEL_OUTPUT_REPAIR_MESSAGE else malformedToolCallRepairMessage calls)
            malformed_tool_call_retry)
  else if hasMalformedOrTruncatedToolCall m calls then
    Some (mkRepair malformed_or_truncated_tool_call (malformedToolCallRepairMessage calls) malformed_tool_call_retry)
  else if existsb is_finish_call calls && negb (zlen calls =? 1) then
    Some (mkRepair mixed_finish_work_tool_call MIXED_FINISH_WORK_REPAIR_MESSAGE malformed_tool_call_retry)
  else if is_empty calls || negb hasMoreToolCalls then
    Some (mkRepair missing_finish_work_or_tool_call MISSING_FINISH_WORK_REPAIR_MESSAGE missing_finish_work_retry)
  else None.

Definition requiresSpecializedProviderLengthRepair (m : AssistantMessage) (calls : list ToolCall) : bool :=
  isProviderLengthResponse m && (negb (is_empty calls) || hasRepetitiveModelOutput m).

Definition isEmptyAssistantMessage (m : AssistantMessage) (calls : list ToolCall) : bool :=
  is_empty calls && is_empty (trim (getAssistantText m)).

(** The text of [protocolLimitDiagnostic]. *)
Definition protocolLimitDiagnostic (s : CompletionProtocolState) (l : CompletionProtocolLimits) (mode : CompletionMode)
    (repair : option CompletionProtocolRepair) : option jsstr :=
  if exceeds (malformedToolRetries s) (maxMalformedToolRetries l) then
    Some (if bool_decide (rp_reason <$> repair = Some repetitive_model_output)
          then js "Agent stopped because the model entered a repetitive output loop " ++ show (malformedToolRetries s) ++ js " times."
          else js "Agent stopped because the provider repeatedly reported tool use without returning a valid tool call after "
               ++ show (malformedToolRetries s) ++ js " attempts.")
  else if exceeds (emptyAssistantRetries s) (maxEmptyAssistantRetries l) then
    Some (js "Agent stopped because the provider returned " ++ show (emptyAssistantRetries s)
          ++ js " empty responses without a valid tool call.")
  else if bool_decide (mode = explicit_finish) && exceeds (missingFinishRetries s) (maxMissingFinishRetries l) then
    Some (js "Agent stopped because the model answered " ++ show (missingFinishRetries s)
          ++ js " times in a row without calling `finish_work` to complete the task. Its last answer is shown above; reply to continue.")
  else if exceeds (noProgressTurns s) (maxNoProgressTurns l) then
    Some (js "Agent stopped because the model did not call `finish_work` and made no progress for "
          ++ show (noProgressTurns s) ++ js " turns.")
  else None.

(** The counters after a turn under the protocol, as the loop updates them
    before it consults the limits. *)
Definition count_turn (m : AssistantMessage) (calls : list ToolCall) (repair : option CompletionProtocolRepair)
    (madeProgress waiting : bool) (s : CompletionProtocolState) : CompletionProtocolState :=
  match repair with
  | Some r =>
      let s := bump_noProgress s in
      let s := if bool_decide (rp_event r = malformed_tool_call_retry) then bump_malformed s else s in
      let s := if bool_decide (rp_reason r = missing_finish_work_or_tool_call) then bump_missing s else s in
      if isEmptyAssistantMessage m calls then bump_empty s else s
  | None =>
      if madeProgress then resetCompletionProgress s
      else if negb waiting && negb (is_empty calls) then bump_noProgress s
      else s
  end.

(** ** Facts *)

(** A response is executed as it stands exactly when it is complete, names at
    least one tool, and asks for [finish_work] only by itself. *)
Lemma detect_None m calls : detectCompletionProtocolRepair m calls true = None <->
  isProviderLengthResponse m = false /\ calls <> [] /\ (existsb is_finish_call calls = true -> exists c, calls = [c]).
Proof.
  unfold detectCompletionProtocolRepair, hasRepetitiveModelOutput, hasMalformedOrTruncatedToolCall.
  destruct (isProviderLengthResponse m); simpl; [by destruct (regex_test _ _); naive_solver|].
  destruct calls as [|c [|d calls]]; cbn [existsb is_empty negb orb].
  - destruct (am_stopReason m); simpl; try destruct (regex_test _ _); naive_solver.
  - rewrite orb_false_r, andb_false_r. destruct (am_stopReason m); simpl; naive_solver.
  - assert (Hz : (zlen (c :: d :: calls) =? 1) = false)
      by (apply Z.eqb_neq; autorewrite with agent_rw; pose proof (zlen_nonneg calls); lia).
    rewrite Hz. cbn [negb]. rewrite andb_true_r.
    destruct (am_stopReason m); cbn; destruct (is_finish_call c || _); naive_solver.
Qed.
