(* ===== verification/LoopTypes.v ===== *)
(** Data of the agent loop ([packages/agent/src/types.ts],
    [agent-loop/types.ts]): tools, contexts, hooks, configuration, events, and
    the world its effects act on. *)
From S2P Require Import Prelude JsString Json Effects Messages Protocol.
#[local] Open Scope eff.

Inductive ToolExecutionMode := sequential | parallel.
Inductive AgentToolProgress := made_progress | waiting.

Record AgentToolResult := mkToolResultValue {
  ar_content : list content_block;
  ar_details : option json;
  ar_progress : option AgentToolProgress;
  ar_terminate : option bool;
  ar_completion : option FinishWorkPayload;
}.

Record BeforeToolCallResult := mkBefore { bt_block : option bool; bt_reason : option jsstr }.

Record AfterToolCallResult := mkAfter {
  af_content : option (list content_block);
  af_details : option json;
  af_isError : option bool;
  af_progress : option AgentToolProgress;
  af_terminate : option bool;
  af_completion : option FinishWorkPayload;
}.

(** Events of a streamed response ([AssistantMessageEvent]). *)
Inductive block_kind := BText | BThinking | BToolCall.

Record progress_fields := mkProgress {
  pf_elapsedMs : option Z; pf_tokens : option Z; pf_cachedTokens : option Z; pf_tokensPerSecond : option Z; pf_cold : option bool;
}.

Inductive AssistantMessageEvent :=
  | SStart (partial : AssistantMessage)
  | SBlockStart (k : block_kind) (contentIndex : Z) (partial : AssistantMessage)
  | SBlockDelta (k : block_kind) (contentIndex : Z) (delta : jsstr) (partial : AssistantMessage)
  | SBlockEnd (k : block_kind) (contentIndex : Z) (partial : AssistantMessage)
  | SPrefillProgress (f : progress_fields) (partial : AssistantMessage)
  | SColdPrefillDetected (f : progress_fields) (cache_miss : bool) (partial : AssistantMessage)
  | SGenProgress (f : progress_fields) (partial : AssistantMessage)
  | SOtherProgress (kind : jsstr) (partial : AssistantMessage)  (** queue, model switch and loading progress *)
  | SDone (message : AssistantMessage)
  | SError (error : AssistantMessage).

Inductive AgentEvent :=
  | agent_start
  | agent_end (messages : list AgentMessage)
  | turn_start
  | turn_end (message : AssistantMessage) (toolResults : list ToolResultMessage)
  | request_start (model : Model)
  | message_start (message : AgentMessage)
  | message_update (message : option AssistantMessage) (event : AssistantMessageEvent)
  | message_end (message : AgentMessage)
  | completion_protocol (mode : CompletionMode) (event : protocol_event) (retry : option Z) (maxRetries : option bound) (reason : option jsstr)
  | tool_execution_start (toolCallId toolName : jsstr) (toolDescription : option jsstr) (args : json)
  | tool_execution_update (toolCallId toolName : jsstr) (args : json) (partialResult : AgentToolResult)
  | tool_execution_end (toolCallId toolName : jsstr) (result : AgentToolResult) (isError executed : bool).

Section Env.
(** The state of everything outside the loop: clock, abort signal, provider,
    tools, hooks and event listeners. *)
Context {Env : Type}.

(** A call out of the loop; an exception is its message text. *)
Definition hook (A : Type) : Type := Env -> result jsstr A * Env.

(** A running tool: it settles, or reports a partial result and goes on as the
    environment it reported from determines.  Between two steps the environment
    may change. *)
Inductive tool_proc :=
  | Settle (settle : Env -> result jsstr AgentToolResult * Env)
  | Step (report : Env -> AgentToolResult * Env) (rest : Env -> tool_proc).

Record AgentTool := mkTool {
  at_name : jsstr;
  at_label : jsstr;
  at_description : jsstr;
  at_parameters : json;
  at_effect : option effect_declaration;
  at_prepareArguments : option (json -> result jsstr json);
  at_execute : jsstr -> json -> tool_proc;
  at_executionMode : option ToolExecutionMode;
}.

Record AgentContext := mkContext {
  cx_systemPrompt : jsstr;
  cx_messages : list AgentMessage;
  cx_tools : option (list AgentTool);
}.

(** [AgentLoopTurnUpdate]. *)
Record AgentLoopTurnUpdate := mkUpdate {
  tu_context : option AgentContext;
  tu_model : option Model;
  tu_thinkingLevel : option jsstr;
  tu_completionMode : option CompletionMode;
  tu_appendMessages : option (list AgentMessage);
}.

(** [Context], [PrepareModelCallContext] and [PrepareModelCallResult]. *)
Record LlmContext := mkLlmContext {
  lc_systemPrompt : jsstr; lc_messages : list Message; lc_tools : option (list AgentTool);
}.
Record PrepareModelCallResult := mkPrepared { pm_maxTokens : option Z; pm_retryContext : option AgentContext }.

(** A streamed response: its events as the consumer pulls them, and its final
    message. *)
Inductive response_events :=
  | REnd
  | REvent (pull : Env -> AssistantMessageEvent * Env) (rest : Env -> response_events).
Record response := mkResponse { rs_events : response_events; rs_result : hook AssistantMessage }.

Record StreamOptions := mkStreamOptions {
  so_reasoning : option jsstr; so_apiKey : option jsstr; so_maxTokens : option Z;
}.

Record turn_info := mkTurnInfo {
  ti_message : AssistantMessage; ti_toolResults : list ToolResultMessage;
  ti_context : AgentContext; ti_newMessages : list AgentMessage;
}.

(** [AgentLoopConfig]. An absent hook is [None]. *)
Record AgentLoopConfig := mkConfig {
  cf_model : Model;
  cf_reasoning : option jsstr;
  cf_apiKey : option jsstr;
  cf_maxTokens : option Z;
  cf_completionMode : option CompletionMode;
  cf_completionLimits : option CompletionLimitOptions;
  cf_toolExecution : option ToolExecutionMode;
  cf_allowImplicitCompletion : option (Z -> Env -> bool * Env);
  cf_convertToLlm : list AgentMessage -> hook (list Message);
  cf_transformContext : option (list AgentMessage -> hook (list AgentMessage));
  cf_prepareModelCall : option (LlmContext -> Model -> option Z -> Z -> hook (option PrepareModelCallResult));
  cf_getApiKey : option (jsstr -> hook (option jsstr));
  cf_shouldStopAfterTurn : option (turn_info -> hook bool);
  cf_prepareNextTurn : option (turn_info -> hook (option AgentLoopTurnUpdate));
  cf_getSteeringMessages : option (hook (list AgentMessage));
  cf_getFollowUpMessages : option (hook (list AgentMessage));
  cf_beforeToolCall : option (AssistantMessage -> ToolCall -> json -> ResolvedToolEffect -> AgentContext -> hook (option BeforeToolCallResult));
  cf_afterToolCall : option (AssistantMessage -> ToolCall -> json -> ResolvedToolEffect -> AgentToolResult -> bool -> AgentContext -> hook (option AfterToolCallResult));
}.

(** The configuration with the fields [prepareAgentNextTurn] replaces. *)
Definition with_update (c : AgentLoopConfig) (model : Model) (mode : option CompletionMode) (reasoning : option jsstr)
    : AgentLoopConfig :=
  mkConfig model reasoning (cf_apiKey c) (cf_maxTokens c) mode (cf_completionLimits c) (cf_toolExecution c)
    (cf_allowImplicitCompletion c) (cf_convertToLlm c) (cf_transformContext c) (cf_prepareModelCall c) (cf_getApiKey c)
    (cf_shouldStopAfterTurn c) (cf_prepareNextTurn c) (cf_getSteeringMessages c) (cf_getFollowUpMessages c)
    (cf_beforeToolCall c) (cf_afterToolCall c).

(** ** The world of the loop *)

(** The events emitted so far, the two arrays the loop pushes to ([newMessages]
    and the messages of [currentContext]) and the protocol counters. *)
Record loop_world := mkLoop {
  lw_trace : list AgentEvent;
  lw_new : list AgentMessage;
  lw_context : AgentContext;
  lw_state : CompletionProtocolState;
  lw_env : Env;
}.

Abbreviation ML := (M loop_world jsstr).

Definition set_env (e : Env) (w : loop_world) : loop_world :=
  mkLoop (lw_trace w) (lw_new w) (lw_context w) (lw_state w) e.
Definition set_context (c : AgentContext) (w : loop_world) : loop_world :=
  mkLoop (lw_trace w) (lw_new w) c (lw_state w) (lw_env w).
Definition set_state (s : CompletionProtocolState) (w : loop_world) : loop_world :=
  mkLoop (lw_trace w) (lw_new w) (lw_context w) s (lw_env w).

Definition call_hook {A} (h : hook A) : ML A := fun w =>
  let '(r, e) := h (lw_env w) in (r, set_env e w).
Definition ask_env {A} (f : Env -> A * Env) : ML A := call_hook (fun e => let '(a, e') := f e in (Ok a, e')).
Definition read_env {A} (f : Env -> A) : ML A := fun w => (Ok (f (lw_env w)), w).
Definition read {A} (f : loop_world -> A) : ML A := fun w => (Ok (f w), w).
Definition update_state (f : CompletionProtocolState -> CompletionProtocolState) : ML unit :=
  modify (fun w => set_state (f (lw_state w)) w).

Definition push_context (ms : list AgentMessage) (c : AgentContext) : AgentContext :=
  mkContext (cx_systemPrompt c) (cx_messages c ++ ms) (cx_tools c).
(** [currentContext.messages.push(m)] and [newMessages.push(m)]. *)
Definition context_push (m : AgentMessage) : ML unit :=
  modify (fun w => set_context (push_context [m] (lw_context w)) w).
Definition new_push (m : AgentMessage) : ML unit :=
  modify (fun w => mkLoop (lw_trace w) (lw_new w ++ [m]) (lw_context w) (lw_state w) (lw_env w)).

(** [emit]: the event is recorded, then the listeners run and may throw. *)
Context (sink : AgentEvent -> hook unit).
Definition emit (ev : AgentEvent) : ML unit :=
  do* modify (fun w => mkLoop (lw_trace w ++ [ev]) (lw_new w) (lw_context w) (lw_state w) (lw_env w)) in
  call_hook (sink ev).

(** [message_start] and [message_end] of a message that is not streamed. *)
Definition emit_message (m : AgentMessage) : ML unit :=
  do* emit (message_start m) in emit (message_end m).

(** Emit a message and append it to the transcript. *)
Definition emit_and_push (m : AgentMessage) : ML unit :=
  do* emit_message m in do* context_push m in new_push m.
End Env.

Arguments tool_proc : clear implicits.
Arguments AgentTool : clear implicits.
Arguments AgentContext : clear implicits.
Arguments AgentLoopConfig : clear implicits.
Arguments loop_world : clear implicits.
Arguments response : clear implicits.
Arguments response_events : clear implicits.
Arguments hook : clear implicits.
Arguments LlmContext : clear implicits.
Arguments PrepareModelCallResult : clear implicits.
Arguments AgentLoopTurnUpdate : clear implicits.
Arguments turn_info : clear implicits.
Abbreviation ML Env := (M (loop_world Env) jsstr).
