(* ===== verification/Queue.v ===== *)
(** The queues of messages waiting for the agent
    ([packages/agent/src/agent/pendingmessagequeue.ts]): groups of messages,
    drained all at once or one group at a time. *)
From S2P Require Import Prelude Messages.

Inductive QueueMode := queue_all | one_at_a_time.

Record PendingMessageQueue := mkQueue { groups : list (list AgentMessage); q_mode : QueueMode }.

Definition new_PendingMessageQueue (mode : QueueMode) : PendingMessageQueue := mkQueue [] mode.

Definition enqueueGroup (messages : list AgentMessage) (q : PendingMessageQueue) : PendingMessageQueue :=
  if is_empty messages then q else mkQueue (groups q ++ [messages]) (q_mode q).

Definition enqueue (message : AgentMessage) (q : PendingMessageQueue) : PendingMessageQueue := enqueueGroup [message] q.

Definition hasItems (q : PendingMessageQueue) : bool := negb (is_empty (groups q)).

Definition drain (q : PendingMessageQueue) : list AgentMessage * PendingMessageQueue :=
  match q_mode q with
  | queue_all => (concat (groups q), mkQueue [] (q_mode q))
  | one_at_a_time =>
      match groups q with
      | [] => ([], q)
      | first :: rest => (first, mkQueue rest (q_mode q))
      end
  end.

Definition clear (q : PendingMessageQueue) : PendingMessageQueue := mkQueue [] (q_mode q).

(** [queue.mode = mode]. *)
Definition set_mode (mode : QueueMode) (q : PendingMessageQueue) : PendingMessageQueue := mkQueue (groups q) mode.

(** ** Any use of a queue *)

Inductive queue_op := OEnqueue (m : AgentMessage) | OGroup (ms : list AgentMessage) | ODrain | OMode (mode : QueueMode) | OClear.

(** What is drained, and the queue afterwards. *)
Definition queue_step (o : queue_op) (q : PendingMessageQueue) : list (list AgentMessage) * PendingMessageQueue :=
  match o with
  | OEnqueue m => ([], enqueue m q)
  | OGroup ms => ([], enqueueGroup ms q)
  | ODrain => let '(ms, q') := drain q in ([ms], q')
  | OMode mode => ([], set_mode mode q)
  | OClear => ([], clear q)
  end.

Fixpoint queue_run (ops : list queue_op) (q : PendingMessageQueue) : list (list AgentMessage) * PendingMessageQueue :=
  match ops with
  | [] => ([], q)
  | o :: ops' => let '(out, q1) := queue_step o q in let '(out', q2) := queue_run ops' q1 in (out ++ out', q2)
  end.

(** The groups submitted. *)
Definition submitted (ops : list queue_op) : list (list AgentMessage) :=
  omap (fun o => match o with OEnqueue m => Some [m] | OGroup (m :: ms) => Some (m :: ms) | _ => None end) ops.

Definition clears (o : queue_op) : bool := match o with OClear => true | _ => false end.

(** Every queued group has a message. *)
Definition queue_ok (q : PendingMessageQueue) : Prop := Forall (fun g => g <> []) (groups q).

Lemma queue_step_ok o q : queue_ok q -> queue_ok (queue_step o q).2.
Proof.
  unfold queue_ok. intros Hq. destruct o as [m|ms| |mode|]; simpl; try done.
  - apply Forall_app. split; [done|]. by repeat constructor.
  - unfold enqueueGroup. destruct ms as [|m ms]; [done|]. simpl. apply Forall_app. split; [done|]. by repeat constructor.
  - unfold drain. destruct (q_mode q); [constructor|]. destruct (groups q) eqn:E; simpl; [by rewrite E|]. by inversion Hq.
Qed.

(** The drained groups are a regrouping of the oldest submitted ones. *)
Definition drains (out : list (list AgentMessage)) (gs : list (list AgentMessage)) : Prop :=
  exists parts : list (list (list AgentMessage)), out = map (fun part => concat part) parts /\ gs = concat parts.

Lemma drains_nil : drains [] [].
Proof. by exists []. Qed.

Lemma drains_cons part out gs : drains out gs -> drains (concat part :: out) (part ++ gs).
Proof. intros (parts & -> & ->). by exists (part :: parts). Qed.

Lemma queue_run_spec ops q : Forall (fun o => clears o = false) ops ->
  let '(out, q') := queue_run ops q in exists taken, drains out taken /\ groups q ++ submitted ops = taken ++ groups q'.
Proof.
  intros Hops. revert q. induction Hops as [|o ops Ho Hops IH]; intros q; simpl.
  { exists []. split; [apply drains_nil|]. by rewrite app_nil_r. }
  destruct o as [m|ms| |mode|]; simpl; try done.
  - specialize (IH (enqueue m q)). destruct (queue_run ops _) as [out q']. destruct IH as (taken & Hd & Hg).
    exists taken. split; [done|]. unfold enqueue, enqueueGroup in Hg. simpl in Hg. by rewrite <- app_assoc in Hg.
  - specialize (IH (enqueueGroup ms q)). destruct (queue_run ops _) as [out q']. destruct IH as (taken & Hd & Hg).
    exists taken. split; [done|]. unfold enqueueGroup in Hg. destruct ms as [|m ms]; [done|]. simpl in Hg. by rewrite <- app_assoc in Hg.
  - unfold drain. destruct (q_mode q).
    + specialize (IH (mkQueue [] queue_all)). destruct (queue_run ops _) as [out q']. destruct IH as (taken & Hd & Hg). simpl in Hg.
      exists (groups q ++ taken). split; [by apply drains_cons|]. change (submitted (ODrain :: ops)) with (submitted ops).
      by rewrite Hg, app_assoc.
    + destruct (groups q) as [|g gs] eqn:Eg.
      * specialize (IH q). destruct (queue_run ops _) as [out q']. destruct IH as (taken & Hd & Hg). rewrite Eg in Hg.
        exists taken. split; [|done]. exact (drains_cons [] out taken Hd).
      * specialize (IH (mkQueue gs one_at_a_time)). destruct (queue_run ops _) as [out q']. destruct IH as (taken & Hd & Hg). simpl in Hg.
        exists (g :: taken). split.
        -- pose proof (drains_cons [g] out taken Hd) as H. simpl in H. by rewrite app_nil_r in H.
        -- change (g :: (gs ++ submitted ops) = g :: (taken ++ groups q')). by rewrite Hg.
  - specialize (IH (set_mode mode q)). destruct (queue_run ops _) as [out q']. exact IH.
Qed.

(** Nothing queued is lost, duplicated, reordered or split: between two
    clears, whatever the interleaving of submissions, drains and mode changes, the
    groups drained are the oldest submitted ones in order, each drain returning whole
    groups, and the rest is still queued. *)
Theorem queue_fifo mode ops : Forall (fun o => clears o = false) ops ->
  let '(out, q) := queue_run ops (new_PendingMessageQueue mode) in
  exists taken, drains out taken /\ submitted ops = taken ++ groups q.
Proof. intros Hops. exact (queue_run_spec ops (new_PendingMessageQueue mode) Hops). Qed.

(** A drain of a queue with items yields at least one message, and one group at
    most when draining one at a time. *)
Lemma drain_progress q : queue_ok q -> hasItems q = true -> (drain q).1 <> [].
Proof.
  unfold queue_ok, hasItems, drain. intros Hq Hi. destruct (groups q) as [|g gs]; [done|]. inversion Hq as [|? ? Hg Hgs]; subst.
  destruct (q_mode q); simpl; [|done]. by destruct g.
Qed.

Lemma drain_one q : q_mode q = one_at_a_time -> (drain q).1 = default [] (head (groups q)) /\ groups (drain q).2 = tail (groups q).
Proof. intros Hm. unfold drain. rewrite Hm. by destruct (groups q) eqn:E; simpl; rewrite ?E. Qed.

Module QueueSample.
Definition msg (s : Z) : AgentMessage := MUser (mkUser (RString [s]) None s).
Definition ops : list queue_op := [OEnqueue (msg 1); OGroup [msg 2; msg 3]; ODrain; OMode queue_all; OEnqueue (msg 4); ODrain; OEnqueue (msg 5)].

Lemma queue_fifo_witness : exists taken,
  drains [[msg 1]; [msg 2; msg 3; msg 4]] taken /\ submitted ops = taken ++ [[msg 5]].
Proof. exact (queue_fifo one_at_a_time ops ltac:(repeat constructor)). Defined.
End QueueSample.
