(* ===== verification/ToolBatch.v ===== *)
(** Execution of the tool calls of one response: preparation and validation
    ([agent-loop/tool-result-formatting.ts], [message-preparation.ts]), execution
    and finalization ([streaming-handler.ts]), sequential and parallel batches
    ([streaming-handler.ts], [context-management.ts]). *)
From S2P Require Import Prelude JsString Json Effects Messages Protocol LoopTypes.
#[local] Open Scope eff.

(** ** [finish_work] as a tool *)

Definition string_list (v : option json) : option (list jsstr) :=
  match v with
  | Some (JArr l) => Some (flat_map (fun x => match x with JStr s => [s] | _ => [] end) l)
  | _ => None
  end.

(** The parameters as the validated schema types them. *)
Definition parse_finish_work (v : json) : option FinishWorkPayload :=
  match v with
  | JObj m =>
      match get_prop m (js "status"), get_prop m (js "summary") with
      | Some (JStr st), Some (JStr summary) =>
          match (if bool_decide (st = js "success") then Some success
                 else if bool_decide (st = js "partial") then Some partial
                 else if bool_decide (st = js "failed") then Some failed else None) with
          | Some status =>
              Some (mkPayload status summary (string_list (get_prop m (js "files_changed")))
                      (string_list (get_prop m (js "tests_run"))) (string_list (get_prop m (js "remaining_work")))
                      (match get_prop m (js "notes") with Some (JStr n) => Some n | _ => None end))
          | None => None
          end
      | _, _ => None
      end
  | _ => None
  end.

Definition opt_field (key : string) (l : option (list jsstr)) : list (jsstr * json) :=
  match l with Some x => [(js key, JArr (map JStr x))] | None => [] end.

Definition payload_json (p : FinishWorkPayload) : json :=
  JObj ([(js "status", JStr (match fw_status p with success => js "success" | partial => js "partial" | failed => js "failed" end));
         (js "summary", JStr (fw_summary p))]
        ++ opt_field "files_changed" (fw_files_changed p) ++ opt_field "tests_run" (fw_tests_run p)
        ++ opt_field "remaining_work" (fw_remaining_work p)
        ++ match fw_notes p with Some n => [(js "notes", JStr n)] | None => [] end).

(** Parameters that do not have the schema's shape cannot pass validation. *)
Definition finish_work_execute (params : json) : result jsstr AgentToolResult :=
  match parse_finish_work params with
  | None => Throw (js "finish_work: parameters do not match the schema")
  | Some input =>
      match validateFinishWorkInput input with
      | Some error => Throw (js "finish_work validation error: " ++ error)
      | None =>
          let payload := normalizeFinishWorkPayload input in
          Ok (mkToolResultValue [CText (fw_summary payload) None] (Some (payload_json payload)) None (Some true) None)
      end
  end.

(** The JSON schema the [Type.Object] expression denotes. *)
Definition FINISH_WORK_SCHEMA : json :=
  let typed (t : string) := JObj [(js "type", JStr (js t))] in
  let literal (s : string) := JObj [(js "type", JStr (js "string")); (js "const", JStr (js s))] in
  let strings := JObj [(js "type", JStr (js "array")); (js "items", typed "string")] in
  JObj [(js "type", JStr (js "object"));
        (js "required", JArr [JStr (js "status"); JStr (js "summary")]);
        (js "properties",
          JObj [(js "status", JObj [(js "anyOf", JArr [literal "success"; literal "partial"; literal "failed"])]);
                (js "summary", typed "string"); (js "files_changed", strings); (js "tests_run", strings);
                (js "remaining_work", strings); (js "notes", typed "string")])].

Definition createFinishWorkTool {Env} : AgentTool Env :=
  mkTool FINISH_WORK_TOOL_NAME (js "Finish Work")
    (js "Terminate the agent run with an explicit final status and summary. Call this exactly once when the task is complete, partially complete, or blocked.")
    FINISH_WORK_SCHEMA (Some (Declared (JStr (js "read")) (JStr (js "normal")) None)) None
    (fun _ params => Settle (fun env => (finish_work_execute params, env))) (Some sequential).

Definition withCompletionProtocolTools {Env} (c : AgentContext Env) (mode : CompletionMode) : AgentContext Env :=
  if isCompletionProtocolEnabled mode then
    mkContext (cx_systemPrompt c) (cx_messages c)
      (Some (List.filter (fun t => negb (bool_decide (at_name t = FINISH_WORK_TOOL_NAME))) (default [] (cx_tools c))
             ++ [createFinishWorkTool]))
  else c.

(** ** Outcomes *)

Record FinalizedToolCallOutcome := mkFinalized {
  fz_toolCall : ToolCall; fz_result : AgentToolResult; fz_isError : bool; fz_executed : bool;
}.

Record ExecutedToolCallBatch := mkBatch {
  eb_messages : list ToolResultMessage;
  eb_terminate : bool;
  eb_madeProgress : bool;
  eb_waiting : bool;
  eb_completion : option FinishWorkPayload;
}.

Definition createErrorToolResult (message : jsstr) : AgentToolResult :=
  mkToolResultValue [CText message None] (Some (JObj [])) None None None.

Definition is_waiting (r : AgentToolResult) : bool :=
  match ar_progress r with Some waiting => true | _ => false end.

Definition shouldTerminateToolBatch (l : list FinalizedToolCallOutcome) : bool :=
  negb (is_empty l)
  && forallb (fun f => negb (fz_isError f) && bool_decide (ar_terminate (fz_result f) = Some true)) l.

Definition createExecutedToolCallBatch (messages : list ToolResultMessage) (l : list FinalizedToolCallOutcome)
    : ExecutedToolCallBatch :=
  let madeProgress := existsb (fun f => negb (fz_isError f) && negb (is_waiting (fz_result f))) l in
  let terminate := shouldTerminateToolBatch l in
  let completions :=
    flat_map (fun f => if fz_isError f then [] else match ar_completion (fz_result f) with Some c => [c] | None => [] end) l in
  mkBatch messages terminate madeProgress
    (negb madeProgress && existsb (fun f => negb (fz_isError f) && is_waiting (fz_result f)) l)
    (match terminate, l, completions with
     | true, [_], [c] => Some c
     | _, _, _ => None
     end).

(** ** Identifiers of recovered calls *)

Definition is_id_char (c : Z) : bool := is_word c || (c =? 46) || (c =? 58) || (c =? 45).

(** [replace(/[^A-Za-z0-9_.:-]+/g, "_")]. *)
Fixpoint replace_id_runs (in_run : bool) (s : jsstr) : jsstr :=
  match s with
  | [] => []
  | c :: s' =>
      if is_id_char c then c :: replace_id_runs false s'
      else if in_run then replace_id_runs true s' else 95 :: replace_id_runs true s'
  end.

Definition sanitizeToolCallIdSegment (value : jsstr) : jsstr :=
  let s := slice_to (replace_id_runs false value) 48 in
  if is_empty s then js "tool" else s.

Section Tools.
Context {Env : Type}.

Definition find_tool (tools : option (list (AgentTool Env))) (name : jsstr) : option (AgentTool Env) :=
  List.find (fun t => bool_decide (at_name t = name)) (default [] tools).

Definition prepareToolCallArguments (tool : AgentTool Env) (call : ToolCall) : result jsstr ToolCall :=
  match at_prepareArguments tool with
  | None => Ok call
  | Some prepare =>
      match prepare (tc_arguments call) with
      | Ok args => Ok (mkToolCall (tc_id call) (tc_name call) args (tc_thoughtSignature call))
      | Throw e => Throw e
      end
  end.

(** The validator of [packages/ai], compiled from the tool's schema. *)
Context (validateToolArguments : AgentTool Env -> ToolCall -> result jsstr json).

Definition prepare_and_validate (tool : AgentTool Env) (call : ToolCall) : result jsstr json :=
  match prepareToolCallArguments tool call with
  | Ok prepared => validateToolArguments tool prepared
  | Throw e => Throw e
  end.

(** ** Checks attached to [sleep] calls *)

Definition check_parts (call : ToolCall) : option jsstr * option (list (jsstr * json)) :=
  match tc_arguments call with
  | JObj m =>
      match get_prop m (js "check") with
      | Some (JObj c) =>
          (getStringValue (get_prop c (js "tool")),
           match get_prop c (js "arguments") with Some (JObj a) => Some a | _ => None end)
      | _ => (None, None)
      end
  | _ => (None, None)
  end.

Definition check_call (call : ToolCall) (name : jsstr) (args : list (jsstr * json)) : ToolCall :=
  mkToolCall (js "wait_check_" ++ sanitizeToolCallIdSegment (tc_id call)) name (JObj args) None.

Definition getWaitCheckValidationError (call : ToolCall) (tools : option (list (AgentTool Env))) : option jsstr :=
  match check_parts call with
  | (Some name, Some args) =>
      if bool_decide (name = js "sleep") then
        Some (js "sleep check cannot call sleep; it must inspect concrete external state")
      else if bool_decide (name = FINISH_WORK_TOOL_NAME) then
        Some (js "sleep check cannot call finish_work; it must inspect concrete external state")
      else match find_tool tools name with
           | None => Some (js "sleep check tool " ++ name ++ js " not found")
           | Some tool =>
               match prepare_and_validate tool (check_call call name args) with
               | Ok _ => None
               | Throw e => Some (js "Invalid sleep check for " ++ name ++ js ": " ++ e)
               end
           end
  | _ => Some (js "sleep requires `check: { tool, arguments }`; a bare wait is not allowed")
  end.

Definition createValidatedWaitCheckToolCall (call : ToolCall) (tools : option (list (AgentTool Env))) : option ToolCall :=
  match check_parts call with
  | (Some name, Some args) =>
      if bool_decide (name = js "sleep") || bool_decide (name = FINISH_WORK_TOOL_NAME) then None
      else match find_tool tools name with
           | None => None
           | Some tool =>
               match prepare_and_validate tool (check_call call name args) with
               | Ok _ => Some (check_call call name args)
               | Throw _ => None
               end
           end
  | _ => None
  end.

Definition expand_block (tools : option (list (AgentTool Env))) (b : assistant_block) : list assistant_block :=
  match b with
  | AToolCall c =>
      if bool_decide (tc_name c = js "sleep") then
        match createValidatedWaitCheckToolCall c tools with
        | Some check => [b; AToolCall check]
        | None => [b]
        end
      else [b]
  | _ => [b]
  end.

Definition with_content (m : AssistantMessage) (content : list assistant_block) : AssistantMessage :=
  mkAssistant content (am_api m) (am_provider m) (am_model m) (am_responseModel m) (am_responseId m) (am_diagnostics m)
    (am_usage m) (am_stopReason m) (am_errorMessage m) (am_timestamp m).

Definition expandWaitCheckToolCalls (m : AssistantMessage) (tools : option (list (AgentTool Env))) : AssistantMessage :=
  with_content m (flat_map (expand_block tools) (am_content m)).

(** ** Preparing and running one call *)

Inductive prepared_call :=
  | Prepared (toolCall : ToolCall) (tool : AgentTool Env) (args : json) (effect : ResolvedToolEffect)
  | Immediate (result : AgentToolResult) (isError : bool).

(** The listeners, the abort signal, the clock, and the order in which
    concurrent tools make progress. *)
Context (sink : AgentEvent -> hook Env unit) (aborted : Env -> bool) (now : Env -> Z * Env)
  (schedule : Env -> list nat).

Definition immediate_error (message : jsstr) : prepared_call := Immediate (createErrorToolResult message) true.

(** The [beforeToolCall] hook: the outcome that replaces the call, if any. *)
Definition run_before (ctx : AgentContext Env) (am : AssistantMessage) (call : ToolCall) (args : json)
    (effect : ResolvedToolEffect) (config : AgentLoopConfig Env) : ML Env (option prepared_call) :=
  match cf_beforeToolCall config with
  | None => ret None
  | Some before =>
      let* beforeResult := call_hook (before am call args effect ctx) in
      let* isAborted := read_env aborted in
      ret (if isAborted then Some (immediate_error (js "Operation aborted"))
           else match beforeResult with
                | Some r =>
                    if default false (bt_block r)
                    then Some (immediate_error
                           (match bt_reason r with Some (c :: s) => c :: s | _ => js "Tool execution was blocked" end))
                    else None
                | None => None
                end)
  end.

(** The [try] block of [prepareToolCall]. *)
Definition prepare_checked (ctx : AgentContext Env) (am : AssistantMessage) (call : ToolCall) (tool : AgentTool Env)
    (config : AgentLoopConfig Env) : ML Env prepared_call :=
  let* validatedArgs := (fun w => (prepare_and_validate tool call, w)) in
  let effect := resolveToolEffect (at_effect tool) false in
  let* blocked := run_before ctx am call validatedArgs effect config in
  match blocked with
  | Some outcome => ret outcome
  | None =>
      let* isAborted := read_env aborted in
      ret (if isAborted then immediate_error (js "Operation aborted") else Prepared call tool validatedArgs effect)
  end.

Definition prepareToolCall (ctx : AgentContext Env) (am : AssistantMessage) (call : ToolCall)
    (config : AgentLoopConfig Env) : ML Env prepared_call :=
  match find_tool (cx_tools ctx) (tc_name call) with
  | None => ret (immediate_error (js "Tool " ++ tc_name call ++ js " not found"))
  | Some tool =>
      match (if bool_decide (tc_name call = js "sleep") then getWaitCheckValidationError call (cx_tools ctx) else None) with
      | Some waitCheckError => ret (immediate_error waitCheckError)
      | None => catch (prepare_checked ctx am call tool config) (fun e => ret (immediate_error e))
      end
  end.

(** A partial result: the event is emitted at once, a listener that rejects is
    remembered until the tool settles. *)
Definition report_update (call : ToolCall) (report : Env -> AgentToolResult * Env) (rejected : option jsstr)
    : ML Env (option jsstr) :=
  let* partialResult := ask_env report in
  catch (do* emit sink (tool_execution_update (tc_id call) (tc_name call) (tc_arguments call) partialResult) in ret rejected)
        (fun e => ret (match rejected with Some r => Some r | None => Some e end)).

(** [await tool.execute(...)], then the pending update events. *)
Definition settle_call (settle : Env -> result jsstr AgentToolResult * Env) (rejected : option jsstr)
    : ML Env (AgentToolResult * bool) :=
  catch (let* result := call_hook settle in
         match rejected with
         | None => ret (result, false)
         | Some e => throw e
         end)
        (fun e => ret (createErrorToolResult e, true)).

(** [executePreparedToolCall] from any point of the tool's run. *)
Fixpoint run_proc (call : ToolCall) (proc : tool_proc Env) (rejected : option jsstr) : ML Env (AgentToolResult * bool) :=
  match proc with
  | Settle settle => settle_call settle rejected
  | Step report rest =>
      fun w => bind (report_update call report rejected) (fun rejected' => run_proc call (rest (lw_env w)) rejected') w
  end.

Definition executePreparedToolCall (call : ToolCall) (tool : AgentTool Env) (args : json) : ML Env (AgentToolResult * bool) :=
  run_proc call (at_execute tool (tc_id call) args) None.

Definition merge_after (r : AgentToolResult) (a : AfterToolCallResult) : AgentToolResult :=
  let pick {A} (x y : option A) := match x with Some _ => x | None => y end in
  mkToolResultValue (default (ar_content r) (af_content a)) (pick (af_details a) (ar_details r))
    (pick (af_progress a) (ar_progress r)) (pick (af_terminate a) (ar_terminate r)) (pick (af_completion a) (ar_completion r)).

(** The [afterToolCall] hook may replace parts of the result. *)
Definition run_after (ctx : AgentContext Env) (am : AssistantMessage) (call : ToolCall) (args : json)
    (effect : ResolvedToolEffect) (result : AgentToolResult) (isError : bool) (config : AgentLoopConfig Env)
    : ML Env (AgentToolResult * bool) :=
  match cf_afterToolCall config with
  | None => ret (result, isError)
  | Some after =>
      catch (let* afterResult := call_hook (after am call args effect result isError ctx) in
             ret (match afterResult with
                  | Some a => (merge_after result a, default isError (af_isError a))
                  | None => (result, isError)
                  end))
            (fun e => ret (createErrorToolResult e, true))
  end.

Definition finalizeExecutedToolCall (ctx : AgentContext Env) (am : AssistantMessage) (call : ToolCall) (args : json)
    (effect : ResolvedToolEffect) (executed : AgentToolResult * bool) (config : AgentLoopConfig Env)
    : ML Env FinalizedToolCallOutcome :=
  let* ' (result, isError) := run_after ctx am call args effect (fst executed) (snd executed) config in
  ret (mkFinalized call result isError true).

Definition emitToolExecutionEnd (f : FinalizedToolCallOutcome) : ML Env unit :=
  emit sink (tool_execution_end (tc_id (fz_toolCall f)) (tc_name (fz_toolCall f)) (fz_result f) (fz_isError f) (fz_executed f)).

Definition createToolResultMessage (f : FinalizedToolCallOutcome) : ML Env ToolResultMessage :=
  let* timestamp := ask_env now in
  ret (mkToolResult (tc_id (fz_toolCall f)) (tc_name (fz_toolCall f)) (ar_content (fz_result f)) (ar_details (fz_result f))
         (fz_isError f) timestamp).

Definition emitToolResultMessage (t : ToolResultMessage) : ML Env unit := emit_message sink (MToolResult t).

Definition emit_tool_start (ctx : AgentContext Env) (call : ToolCall) : ML Env unit :=
  emit sink (tool_execution_start (tc_id call) (tc_name call)
               (at_description <$> find_tool (cx_tools ctx) (tc_name call)) (tc_arguments call)).

(** ** A batch, one call after the other *)

Section Batch.
Context (ctx : AgentContext Env) (am : AssistantMessage) (config : AgentLoopConfig Env).

Definition run_call (call : ToolCall) : ML Env FinalizedToolCallOutcome :=
  let* preparation := prepareToolCall ctx am call config in
  match preparation with
  | Immediate result isError => ret (mkFinalized call result isError false)
  | Prepared call' tool args effect =>
      let* executed := executePreparedToolCall call' tool args in
      finalizeExecutedToolCall ctx am call' args effect executed config
  end.

Fixpoint sequential_calls (calls : list ToolCall) : ML Env (list (FinalizedToolCallOutcome * ToolResultMessage)) :=
  match calls with
  | [] => ret []
  | call :: calls' =>
      do* emit_tool_start ctx call in
      let* finalized := run_call call in
      do* emitToolExecutionEnd finalized in
      let* message := createToolResultMessage finalized in
      do* emitToolResultMessage message in
      let* isAborted := read_env aborted in
      if isAborted then ret [(finalized, message)]
      else let* rest := sequential_calls calls' in ret ((finalized, message) :: rest)
  end.

Definition executeToolCallsSequential (calls : list ToolCall) : ML Env ExecutedToolCallBatch :=
  let* results := sequential_calls calls in
  ret (createExecutedToolCallBatch (map snd results) (map fst results)).

(** ** A batch of concurrent calls *)

(** An element of [finalizedCalls] and how far its promise has come. *)
Inductive task :=
  | TRunning (call : ToolCall) (args : json) (effect : ResolvedToolEffect) (proc : tool_proc Env) (rejected : option jsstr)
  | TExecuted (call : ToolCall) (args : json) (effect : ResolvedToolEffect) (executed : AgentToolResult * bool)
  | TEnding (f : FinalizedToolCallOutcome)
  | TDone (f : FinalizedToolCallOutcome).

(** The task advances to its next suspension point. *)
Definition step_task (t : task) : ML Env task :=
  match t with
  | TRunning call args effect (Step report rest) rejected => fun w =>
      bind (report_update call report rejected) (fun r => ret (TRunning call args effect (rest (lw_env w)) r)) w
  | TRunning call args effect (Settle settle) rejected =>
      let* executed := settle_call settle rejected in ret (TExecuted call args effect executed)
  | TExecuted call args effect executed =>
      let* f := finalizeExecutedToolCall ctx am call args effect executed config in ret (TEnding f)
  | TEnding f => do* emitToolExecutionEnd f in ret (TDone f)
  | TDone f => ret (TDone f)
  end.

(** The task runs to its end with no other in between. *)
Definition drain_task (t : task) : ML Env FinalizedToolCallOutcome :=
  let finish f := do* emitToolExecutionEnd f in ret f in
  match t with
  | TRunning call args effect proc rejected =>
      let* executed := run_proc call proc rejected in
      let* f := finalizeExecutedToolCall ctx am call args effect executed config in finish f
  | TExecuted call args effect executed =>
      let* f := finalizeExecutedToolCall ctx am call args effect executed config in finish f
  | TEnding f => finish f
  | TDone f => ret f
  end.

(** [Promise.all]: the tasks advance in the order of the schedule; a schedule
    that ends early leaves the remaining work in source order, so every finite
    interleaving is one of these.  The first rejection rejects the batch. *)
Fixpoint run_schedule (order : list nat) (tasks : list task) : ML Env (list task) :=
  match order with
  | [] => ret tasks
  | i :: order' =>
      match tasks !! i with
      | None => run_schedule order' tasks
      | Some t => let* t' := step_task t in run_schedule order' (<[i := t']> tasks)
      end
  end.

Fixpoint drain_tasks (tasks : list task) : ML Env (list FinalizedToolCallOutcome) :=
  match tasks with
  | [] => ret []
  | t :: tasks' => let* f := drain_task t in let* fs := drain_tasks tasks' in ret (f :: fs)
  end.

(** One iteration of the preparation loop: the entry pushed to [finalizedCalls]. *)
Definition prepare_entry (call : ToolCall) : ML Env task :=
  let* preparation := prepareToolCall ctx am call config in
  match preparation with
  | Immediate result isError =>
      let f := mkFinalized call result isError false in
      do* emitToolExecutionEnd f in ret (TDone f)
  | Prepared call' tool args effect => ret (TRunning call' args effect (at_execute tool (tc_id call') args) None)
  end.

Fixpoint parallel_entries (calls : list ToolCall) : ML Env (list task) :=
  match calls with
  | [] => ret []
  | call :: calls' =>
      do* emit_tool_start ctx call in
      let* entry := prepare_entry call in
      let* isAborted := read_env aborted in
      if isAborted then ret [entry] else let* rest := parallel_entries calls' in ret (entry :: rest)
  end.

Fixpoint result_messages (l : list FinalizedToolCallOutcome) : ML Env (list ToolResultMessage) :=
  match l with
  | [] => ret []
  | f :: l' =>
      let* message := createToolResultMessage f in
      do* emitToolResultMessage message in
      let* rest := result_messages l' in ret (message :: rest)
  end.

Definition executeToolCallsParallel (calls : list ToolCall) : ML Env ExecutedToolCallBatch :=
  let* entries := parallel_entries calls in
  let* order := read_env schedule in
  let* tasks := run_schedule order entries in
  let* finalized := drain_tasks tasks in
  let* messages := result_messages finalized in
  ret (createExecutedToolCallBatch messages finalized).

Definition executeToolCalls : ML Env ExecutedToolCallBatch :=
  let calls := tool_calls am in
  let hasSequentialToolCall :=
    existsb (fun c => match find_tool (cx_tools ctx) (tc_name c) with
                      | Some t => match at_executionMode t with Some sequential => true | _ => false end
                      | None => false
                      end) calls in
  if match cf_toolExecution config with Some sequential => true | _ => hasSequentialToolCall end
  then executeToolCallsSequential calls
  else executeToolCallsParallel calls.
End Batch.
End Tools.
