(* ===== verification/Recovery.v ===== *)
(** Recovery of tool calls a model wrote as text: the parsers of
    [agent-loop/tool-dispatch.ts], the removal of the recovered markup
    ([tool-execution.ts]) and the Markdown fences they respect
    ([message-preparation.ts]). *)
From S2P Require Import Prelude JsString Json JsonParse Regex Effects Messages Protocol LoopTypes ToolBatch.
#[local] Open Scope eff.

(** ** Markdown fences *)

(** [(```+|~~~+)], group 1. *)
Definition fence_marker : rx :=
  XGroup 1 ((XLit (js "``") >>> XPlus (fun c => c =? 96)) ||| (XLit (js "~~") >>> XPlus (fun c => c =? 126)))%rx.

(** Such a marker after white space; alone on its line; and with an optional
    language (group 2) and anything after it. *)
Definition fence_open : rx := (XSpaces >>> fence_marker)%rx.
Definition fence_close : rx := (XSpaces >>> fence_marker >>> XSpaces >>> XEnd)%rx.
Definition fence_line : rx :=
  (XSpaces >>> fence_marker >>> XSpaces >>> XOpt (XGroup 2 (XStar true name_unit)) >>> XStar true dot >>> XEnd)%rx.

Definition fence_of (r : rx) (line : jsstr) : option jsstr := match_start r line ≫= group 1.

Definition isClosingMarkdownFence (line opener : jsstr) : bool :=
  match fence_of fence_close line with
  | Some marker => bool_decide (head marker = head opener) && (zlen opener <=? zlen marker)
  | None => false
  end.

(** [value.split(/(\r?\n)/)]: lines with their terminators. *)
Fixpoint split_lines (s : jsstr) : list (jsstr * jsstr) :=
  match s with
  | [] => [([], [])]
  | c :: s' =>
      if c =? 10 then ([], [10]) :: split_lines s'
      else
        let push := match split_lines s' with
                    | (l, e) :: ls => (c :: l, e) :: ls
                    | [] => [([c], [])]
                    end in
        if c =? 13 then
          match s' with
          | d :: s'' => if d =? 10 then ([], [13; 10]) :: split_lines s'' else push
          | [] => push
          end
        else push
  end.

Record segment := mkSegment { sg_fenced : bool; sg_text : jsstr }.

Definition push_text (fenced : bool) (text : jsstr) : list segment :=
  if is_empty text then [] else [mkSegment fenced text].

(** The loop of [splitMarkdownFenceSegments]. *)
Fixpoint fence_segments (lines : list (jsstr * jsstr)) (activeFence : option jsstr) (text : jsstr) : list segment :=
  match lines with
  | [] => push_text (match activeFence with Some _ => true | None => false end) text
  | (line, lineEnd) :: lines' =>
      match activeFence, fence_of fence_open line with
      | None, Some opener => push_text false text ++ fence_segments lines' (Some opener) (line ++ lineEnd)
      | None, None => fence_segments lines' None (text ++ line ++ lineEnd)
      | Some active, _ =>
          let text := text ++ line ++ lineEnd in
          if isClosingMarkdownFence line active then mkSegment true text :: fence_segments lines' None []
          else fence_segments lines' (Some active) text
      end
  end.

Definition splitMarkdownFenceSegments (value : jsstr) : list segment := fence_segments (split_lines value) None [].

(** ** Calls in JSON *)

Record ParsedMisplacedToolCall := mkParsed { pc_name : jsstr; pc_arguments : list (jsstr * json) }.

(** A property with the result of the recursive call on its value. *)
Definition sub_props (R : Type) := list (jsstr * (json * R)).
Definition sub_prop {R} (m : sub_props R) (k : string) : option (json * R) :=
  snd <$> List.find (fun kv => bool_decide (kv.1 = js k)) m.

(** [a ?? b ?? ...]: the first value that is neither [undefined] nor [null]. *)
Fixpoint coalesce {R} (m : sub_props R) (ks : list string) : option (json * R) :=
  match ks with
  | [] => None
  | k :: ks' =>
      match sub_prop m k with
      | Some (JNull, _) | None => coalesce m ks'
      | found => found
      end
  end.

Definition value_of {R} (o : option (json * R)) : option json := fst <$> o.

(** The properties of a value, for a chain over two objects. *)
Definition plain_props (m : list (jsstr * json)) : sub_props unit := map (fun kv => (kv.1, (kv.2, tt))) m.
Definition or_else {A} (a b : option A) : option A := match a with Some x => Some x | None => b end.

Section Text.
Context (number_text : jsstr -> jsstr).

Definition is_braced (op cl : Z) (s : jsstr) : bool :=
  bool_decide (head s = Some op) && bool_decide (last s = Some cl).

Definition normalizeMisplacedToolArguments (value : option json) : list (jsstr * json) :=
  match value with
  | Some (JObj m) => m
  | Some (JStr s) =>
      let text := trim s in
      if is_braced 123 125 text then
        match json_parse number_text text with Some (JObj m) => m | _ => [] end
      else []
  | _ => []
  end.

Definition call_of (name : option jsstr) (arguments : option json) : list ParsedMisplacedToolCall :=
  match name with Some n => [mkParsed n (normalizeMisplacedToolArguments arguments)] | None => [] end.

Definition tool_list_keys : list string := ["tool_calls"; "toolCalls"; "tools"].
Definition name_keys : list string := ["name"; "tool_name"; "toolName"; "tool"; "function"].
Definition argument_keys : list string := ["arguments"; "input"; "parameters"; "params"].

Fixpoint collectMisplacedToolCallsFromJson (value : json) : list ParsedMisplacedToolCall :=
  match value with
  | JArr l => flat_map collectMisplacedToolCallsFromJson l
  | JObj m =>
      let sub := map (fun kv => (kv.1, (kv.2, collectMisplacedToolCallsFromJson kv.2))) m in
      match coalesce sub tool_list_keys with
      | Some (JArr _, calls) => calls
      | _ =>
          match value_of (sub_prop sub "function") with
          | Some (JObj f) =>
              call_of (getStringValue (get_prop f (js "name")))
                (or_else (value_of (coalesce (plain_props f) ["arguments"; "input"]))
                   (value_of (coalesce sub ["arguments"; "input"])))
          | _ => call_of (getStringValue (value_of (coalesce sub name_keys))) (value_of (coalesce sub argument_keys))
          end
      end
  | _ => []
  end.

(** A text that looks like a JSON object or array. *)
Definition looks_like_json (block : jsstr) : bool :=
  negb (is_empty block) && (is_braced 123 125 block || is_braced 91 93 block).

Definition parseMisplacedToolCallJson (block : jsstr) : list ParsedMisplacedToolCall :=
  if looks_like_json block then
    match json_parse number_text block with
    | Some v => collectMisplacedToolCallsFromJson v
    | None => []
    end
  else [].

Definition countPresentKeys {A} (m : list (jsstr * A)) (keys : list string) : nat :=
  length (List.filter (fun k => has_key (js k) m) keys).
Definition hasOnlyKeys {A} (m : list (jsstr * A)) (allowed : list string) : bool :=
  forallb (fun kv => existsb (fun k => bool_decide (kv.1 = js k)) allowed) m.

Definition hasValidOptionalMetadata (m : list (jsstr * json)) (types : list string) : bool :=
  (negb (has_key (js "id") m) || match getStringValue (get_prop m (js "id")) with Some _ => true | None => false end)
  && (negb (has_key (js "type") m)
      || match get_prop m (js "type") with
         | Some (JStr t) => existsb (fun k => bool_decide (t = js k)) types
         | _ => false
         end).

Definition isLosslesslyNormalizableArgument (value : option json) : bool :=
  match value with
  | Some (JObj _) => true
  | Some (JStr s) => match json_parse number_text s with Some v => isRecord v | None => false end
  | _ => false
  end.

Definition known_name (toolNames : list jsstr) (name : option jsstr) : bool :=
  match name with Some n => bool_decide (n ∈ toolNames) | None => false end.

Fixpoint containsOnlyKnownMisplacedToolCalls (toolNames : list jsstr) (value : json) : bool :=
  match value with
  | JArr l => negb (is_empty l) && forallb (containsOnlyKnownMisplacedToolCalls toolNames) l
  | JObj m =>
      let sub := map (fun kv => (kv.1, (kv.2, containsOnlyKnownMisplacedToolCalls toolNames kv.2))) m in
      let lists := countPresentKeys m tool_list_keys in
      if (0 <? lists)%nat then
        match coalesce sub tool_list_keys with
        | Some (JArr _, all) => (lists =? 1)%nat && hasOnlyKeys m tool_list_keys && all
        | _ => false
        end
      else
        match get_prop m (js "function") with
        | Some (JObj f) =>
            let count := (countPresentKeys m ["arguments"; "input"] + countPresentKeys f ["arguments"; "input"])%nat in
            let argument := or_else (value_of (coalesce (plain_props f) ["arguments"; "input"]))
                              (value_of (coalesce (plain_props m) ["arguments"; "input"])) in
            hasOnlyKeys m ["function"; "type"; "id"; "arguments"; "input"]
            && hasOnlyKeys f ["name"; "arguments"; "input"]
            && hasValidOptionalMetadata m ["function"]
            && negb (1 <? count)%nat
            && (negb (count =? 1)%nat || isLosslesslyNormalizableArgument argument)
            && known_name toolNames (getStringValue (get_prop f (js "name")))
        | _ =>
            let count := countPresentKeys m argument_keys in
            hasOnlyKeys m ["name"; "tool_name"; "toolName"; "tool"; "function"; "arguments"; "input"; "parameters";
                           "params"; "type"; "id"]
            && hasValidOptionalMetadata m ["function"; "tool_call"; "tool-call"; "toolCall"; "tool_use"]
            && (countPresentKeys m name_keys =? 1)%nat
            && negb (1 <? count)%nat
            && (negb (count =? 1)%nat || isLosslesslyNormalizableArgument (value_of (coalesce (plain_props m) argument_keys)))
            && known_name toolNames (getStringValue (value_of (coalesce (plain_props m) name_keys)))
        end
  | _ => false
  end.

Definition isFullyRecoverableMisplacedToolCallJson (block : jsstr) (toolNames : list jsstr) : bool :=
  negb (is_empty toolNames) && looks_like_json block
  && match json_parse number_text block with
     | Some v => containsOnlyKnownMisplacedToolCalls toolNames v
     | None => false
     end.

(** ** Calls in markup *)

(** [s.replace(r, f)] with a replacement that may throw. *)
Fixpoint replace_matches (f : rx_match -> result jsstr jsstr) (ms : list rx_match) (tail : jsstr) : result jsstr jsstr :=
  match ms with
  | [] => Ok tail
  | m :: ms' =>
      match f m with
      | Throw e => Throw e
      | Ok t =>
          match replace_matches f ms' tail with
          | Throw e => Throw e
          | Ok rest => Ok (mt_before m ++ t ++ rest)
          end
      end
  end.
Definition replace_all_with (r : rx) (f : rx_match -> result jsstr jsstr) (s : jsstr) : result jsstr jsstr :=
  let '(ms, tail) := scan_all r s in replace_matches f ms tail.

Definition is_hex (c : Z) : bool := match hex_value c with Some _ => true | None => false end.
(** [Number.parseInt(digits, base)]. *)
Definition parse_digits (base : Z) (s : jsstr) : Z := fold_left (fun n c => n * base + default 0 (hex_value c)) s 0.

(** [String.fromCodePoint(n)] throws a [RangeError] above U+10FFFF. *)
Definition fromCodePoint (n : Z) : result jsstr jsstr :=
  if 1114111 <? n then Throw (js "Invalid code point " ++ number_text (show n))
  else if n <? 65536 then Ok [n]
  else Ok [55296 + (n - 65536) / 1024; 56320 + (n - 65536) mod 1024].

Definition replace_code_points (r : rx) (base : Z) : jsstr -> result jsstr jsstr :=
  replace_all_with r (fun m => fromCodePoint (parse_digits base (default [] (group 1 (mt_groups m))))).

Definition hex_reference : rx :=
  (XLit (js "&#x") >>> XGroup 1 (XPlus is_hex) >>> XLit (js ";"))%rx.
Definition decimal_reference : rx :=
  (XLit (js "&#") >>> XGroup 1 (XPlus is_digit) >>> XLit (js ";"))%rx.

Definition decodeXmlText (value : jsstr) : result jsstr jsstr :=
  let named := replaceAll "&#39;" [39] (replaceAll "&quot;" [34] (replaceAll "&gt;" [62] (replaceAll "&lt;" [60] value))) in
  match replace_code_points hex_reference 16 named with
  | Throw e => Throw e
  | Ok t =>
      match replace_code_points decimal_reference 10 t with
      | Throw e => Throw e
      | Ok t' => Ok (replaceAll "&amp;" [38] t')
      end
  end.

(** [/<parameter=([A-Za-z0-9_.:-]+)\s*>([\s\S]*?)<\/parameter>/gi]. *)
Definition parameterPattern : rx :=
  (XLit (js "<parameter=") >>> XGroup 1 (XPlus name_unit) >>> XSpaces >>> XLit (js ">")
   >>> XGroup 2 (XStar false any_unit) >>> XLit (js "</parameter>"))%rx.
(** [/<arguments>\s*([\s\S]*?)\s*<\/arguments>/i]. *)
Definition argumentsPattern : rx :=
  (XLit (js "<arguments>") >>> XSpaces >>> XGroup 1 (XStar false any_unit) >>> XSpaces >>> XLit (js "</arguments>"))%rx.

Definition group_text (n : nat) (m : rx_match) : jsstr := default [] (group n (mt_groups m)).

Definition isFullyRecoverableMisplacedToolArguments (body : jsstr) : bool :=
  let text := trim body in
  if is_empty text then true
  else if negb (is_empty (matchAll parameterPattern text)) then
    is_empty (trim (replace_all parameterPattern (fun _ => []) text))
  else
    let jsonText := default text (trim <$> (match_start (argumentsPattern >>> XEnd)%rx text ≫= group 1)) in
    match json_parse number_text jsonText with Some v => isRecord v | None => false end.

(** [parameters[key] = value] on an object literal: a string assigned to
    [__proto__] is ignored. *)
Definition assign (key : jsstr) (value : json) (m : list (jsstr * json)) : list (jsstr * json) :=
  if bool_decide (key = js "__proto__") then m else define_prop key value m.

Fixpoint collect_parameters (ms : list rx_match) (parameters : list (jsstr * json)) : result jsstr (list (jsstr * json)) :=
  match ms with
  | [] => Ok parameters
  | m :: ms' =>
      match decodeXmlText (trim (group_text 2 m)) with
      | Throw e => Throw e
      | Ok text => collect_parameters ms' (assign (group_text 1 m) (JStr text) parameters)
      end
  end.

Definition parseMisplacedToolArguments (body : jsstr) : result jsstr (list (jsstr * json)) :=
  match collect_parameters (matchAll parameterPattern body) [] with
  | Throw e => Throw e
  | Ok ((_ :: _) as parameters) => Ok parameters
  | Ok [] =>
      let jsonText := match match_first argumentsPattern body with
                      | Some m => trim (group_text 1 m)
                      | None => trim body
                      end in
      Ok (if is_braced 123 125 jsonText then normalizeMisplacedToolArguments (Some (JStr jsonText)) else [])
  end.

Definition is_quote_mark (c : Z) : bool := (c =? 34) || (c =? 39).
(** [<function=name>] or [<function name='name'>] up to [</function>]. *)
Definition namedFunctionPattern : rx :=
  (XLit (js "<function")
   >>> ((XLit (js "=") >>> XGroup 1 (XPlus name_unit))
        ||| (XPlus is_space >>> XLit (js "name=") >>> XChar is_quote_mark
             >>> XGroup 2 (XPlus (fun c => negb (is_quote_mark c))) >>> XChar is_quote_mark))
   >>> XSpaces >>> XLit (js ">") >>> XGroup 3 (XStar false any_unit) >>> XLit (js "</function>"))%rx.
(** [/<function>\s*([A-Za-z0-9_.:-]+)\s*<\/function>/gi]. *)
Definition bareFunctionPattern : rx :=
  (XLit (js "<function>") >>> XSpaces >>> XGroup 1 (XPlus name_unit) >>> XSpaces >>> XLit (js "</function>"))%rx.

Fixpoint parse_named_functions (ms : list rx_match) : result jsstr (list ParsedMisplacedToolCall) :=
  match ms with
  | [] => Ok []
  | m :: ms' =>
      let name := trim (match group 1 (mt_groups m) with Some n => n | None => group_text 2 m end) in
      match parseMisplacedToolArguments (group_text 3 m) with
      | Throw e => Throw e
      | Ok args =>
          match parse_named_functions ms' with
          | Throw e => Throw e
          | Ok calls => Ok (mkParsed name args :: calls)
          end
      end
  end.

Definition parseMisplacedToolCallBlock (block : jsstr) : result jsstr (list ParsedMisplacedToolCall) :=
  let trimmed := trim block in
  match parseMisplacedToolCallJson trimmed with
  | (_ :: _) as jsonCalls =>
      Ok (if isFullyRecoverableMisplacedToolCallJson trimmed (map pc_name jsonCalls) then jsonCalls else [])
  | [] =>
      match matchAll namedFunctionPattern block with
      | (_ :: _) as namedFunctions =>
          if is_empty (trim (replace_all namedFunctionPattern (fun _ => []) block))
             && forallb (fun m => isFullyRecoverableMisplacedToolArguments (group_text 3 m)) namedFunctions
          then parse_named_functions namedFunctions else Ok []
      | [] =>
          match matchAll bareFunctionPattern block with
          | [m] =>
              let argumentBody := trim (replace_all bareFunctionPattern (fun _ => []) block) in
              if isFullyRecoverableMisplacedToolArguments argumentBody then
                match parseMisplacedToolArguments argumentBody with
                | Throw e => Throw e
                | Ok args => Ok [mkParsed (trim (group_text 1 m)) args]
                end
              else Ok []
          | _ => Ok []
          end
      end
  end.

(** ** Calls in fenced code *)

(** The loop of [collectMarkdownCodeFences]; a block is its language and body. *)
Record open_fence := mkFence { of_marker : jsstr; of_language : jsstr; of_lines : list jsstr }.

Fixpoint code_fences (lines : list jsstr) (activeFence : option open_fence) : list (jsstr * jsstr) :=
  match lines with
  | [] => []
  | line :: lines' =>
      match match_start fence_line line, activeFence with
      | None, None => code_fences lines' None
      | Some caps, None =>
          code_fences lines' (Some (mkFence (default [] (group 1 caps)) (default [] (group 2 caps)) []))
      | matched, Some f =>
          if match matched with Some _ => isClosingMarkdownFence line (of_marker f) | None => false end
          then (map to_lower (of_language f), join nl (of_lines f)) :: code_fences lines' None
          else code_fences lines' (Some (mkFence (of_marker f) (of_language f) (of_lines f ++ [line])))
      end
  end.

Definition collectMarkdownCodeFences (value : jsstr) : list (jsstr * jsstr) := code_fences (map fst (split_lines value)) None.

Definition isToolJsonFence (language : jsstr) : bool :=
  existsb (fun l => bool_decide (map to_lower language = js l))
    ["json"; "jsonc"; "tool"; "tools"; "tool_call"; "tool-call"; "function"; "functions"].

Definition extractMisplacedJsonToolCalls (text : jsstr) (toolNames : list jsstr) : list ParsedMisplacedToolCall :=
  if is_empty toolNames then []
  else
    let rawJson := trim text in
    let calls := if isFullyRecoverableMisplacedToolCallJson rawJson toolNames then parseMisplacedToolCallJson rawJson else [] in
    let fenced := flat_map (fun block : jsstr * jsstr =>
      let body := trim block.2 in
      if isToolJsonFence block.1 && isFullyRecoverableMisplacedToolCallJson body toolNames
      then parseMisplacedToolCallJson body else []) (collectMarkdownCodeFences text) in
    List.filter (fun call => bool_decide (pc_name call ∈ toolNames)) (calls ++ fenced).

(** ** Removal of recovered calls *)

(** [/<tool_call\b[^>]*>([\s\S]*?)<\/tool_call>/gi]. *)
Definition toolCallPattern : rx :=
  (XLit (js "<tool_call") >>> XBoundary >>> XStar true (fun c => negb (c =? 62)) >>> XLit (js ">")
   >>> XGroup 1 (XStar false any_unit) >>> XLit (js "</tool_call>"))%rx.

(** [.replace(/\n{3,}/g, "\n\n").trim()]. *)
Definition collapse_blank_lines (s : jsstr) : jsstr :=
  trim (replace_all (exact [10; 10] >>> XPlus (Z.eqb 10))%rx (fun _ => [10; 10]) s).

Fixpoint remove_in_segments (segments : list segment) : result jsstr jsstr :=
  match segments with
  | [] => Ok []
  | sg :: segments' =>
      let here := if sg_fenced sg then Ok (sg_text sg)
                  else replace_all_with toolCallPattern
                         (fun m => match parseMisplacedToolCallBlock (group_text 1 m) with
                                   | Throw e => Throw e
                                   | Ok calls => Ok (if is_empty calls then mt_text m else [])
                                   end) (sg_text sg) in
      match here with
      | Throw e => Throw e
      | Ok t => match remove_in_segments segments' with Throw e => Throw e | Ok rest => Ok (t ++ rest) end
      end
  end.

Definition removeXmlToolCallBlocksOutsideFences (value : jsstr) : result jsstr jsstr :=
  match remove_in_segments (splitMarkdownFenceSegments value) with
  | Throw e => Throw e
  | Ok t => Ok (collapse_blank_lines t)
  end.

(** The fence being read: its lines, and those of its body, with terminators. *)
Record json_fence := mkJsonFence { jf_marker : jsstr; jf_language : jsstr; jf_lines : jsstr; jf_body : jsstr }.

(** The loop of [removeRecoveredJsonToolCallBlocks]; it returns what is kept. *)
Fixpoint keep_lines (toolNames : list jsstr) (lines : list (jsstr * jsstr)) (activeFence : option json_fence) : jsstr :=
  match lines with
  | [] => match activeFence with Some f => jf_lines f | None => [] end
  | (line, lineEnd) :: lines' =>
      match activeFence with
      | None =>
          match match_start fence_line line with
          | Some caps =>
              keep_lines toolNames lines'
                (Some (mkJsonFence (default [] (group 1 caps)) (default [] (group 2 caps)) (line ++ lineEnd) []))
          | None => line ++ lineEnd ++ keep_lines toolNames lines' None
          end
      | Some f =>
          let all := jf_lines f ++ line ++ lineEnd in
          if match match_start fence_line line with Some _ => isClosingMarkdownFence line (jf_marker f) | None => false end
          then
            (if isToolJsonFence (map to_lower (jf_language f)) && isFullyRecoverableMisplacedToolCallJson (trim (jf_body f)) toolNames
             then lineEnd else all) ++ keep_lines toolNames lines' None
          else keep_lines toolNames lines' (Some (mkJsonFence (jf_marker f) (jf_language f) all (jf_body f ++ line ++ lineEnd)))
      end
  end.

Definition removeRecoveredJsonToolCallBlocks (value : jsstr) (toolNames : list jsstr) : jsstr :=
  if is_empty toolNames then value
  else if isFullyRecoverableMisplacedToolCallJson (trim value) toolNames then []
  else collapse_blank_lines (keep_lines toolNames (split_lines value) None).

Definition remove_markup (toolNames : list jsstr) (text : jsstr) : result jsstr jsstr :=
  removeXmlToolCallBlocksOutsideFences (removeRecoveredJsonToolCallBlocks text toolNames).

(** The blocks with their text cleaned; a block left blank goes. *)
Fixpoint clean_blocks (clean : jsstr -> result jsstr jsstr) (content : list assistant_block)
    : result jsstr (list assistant_block) :=
  match content with
  | [] => Ok []
  | b :: content' =>
      let here :=
        match b with
        | AText text sig =>
            match clean text with Throw e => Throw e | Ok t => Ok (if is_empty (trim t) then [] else [AText t sig]) end
        | AThinking th sig redacted =>
            match clean th with
            | Throw e => Throw e
            | Ok t => Ok (if is_empty (trim t) then [] else [AThinking t sig redacted])
            end
        | AToolCall _ => Ok [b]
        end in
      match here with
      | Throw e => Throw e
      | Ok bs => match clean_blocks clean content' with Throw e => Throw e | Ok rest => Ok (bs ++ rest) end
      end
  end.

(** [removeRecoveredToolCallMarkup] and [removeRecoveredXmlToolCallMarkup] on
    the content of a message. *)
Definition removeRecoveredToolCallMarkup (toolNames : list jsstr) : list assistant_block -> result jsstr (list assistant_block) :=
  clean_blocks (remove_markup toolNames).
Definition removeRecoveredXmlToolCallMarkup : list assistant_block -> result jsstr (list assistant_block) :=
  clean_blocks removeXmlToolCallBlocksOutsideFences.

(** The text a model wrote, block by block. *)
Definition written_texts (m : AssistantMessage) : list jsstr :=
  flat_map (fun b => match b with AText t _ => [t] | AThinking t _ _ => [t] | AToolCall _ => [] end) (am_content m).

Definition tool_call_bodies (texts : list jsstr) : list jsstr :=
  flat_map (fun text =>
    flat_map (fun sg => if sg_fenced sg then [] else map (group_text 1) (matchAll toolCallPattern (sg_text sg)))
      (splitMarkdownFenceSegments text)) texts.

Definition call_key (name : jsstr) (args : list (jsstr * json)) : jsstr :=
  name ++ js ":" ++ default (js "undefined") (serializeCanonicalMisplacedToolArguments args).

Section Calls.
Context {Env : Type} (now : Env -> Z * Env).

Definition call_record (toolNames : list jsstr) (parsed : ParsedMisplacedToolCall) : list (jsstr * json) :=
  if is_empty toolNames || bool_decide (pc_name parsed ∈ toolNames) then pc_arguments parsed else [].

Definition createRecoveredToolCall (parsed : ParsedMisplacedToolCall) (toolNames : list jsstr) (index : Z) : ML Env ToolCall :=
  let* t := ask_env now in
  ret (mkToolCall (js "recovered_" ++ show t ++ js "_" ++ show index ++ js "_" ++ sanitizeToolCallIdSegment (pc_name parsed))
         (pc_name parsed) (JObj (call_record toolNames parsed)) None).

Definition of_result {A} (r : result jsstr A) : ML Env A := fun w => (r, w).

Fixpoint create_calls (parsed : list ParsedMisplacedToolCall) (toolNames : list jsstr) (index : Z) : ML Env (list ToolCall) :=
  match parsed with
  | [] => ret []
  | p :: parsed' =>
      let* call := createRecoveredToolCall p toolNames index in
      let* rest := create_calls parsed' toolNames (index + 1) in
      ret (call :: rest)
  end.

(** The calls of the [tool_call] blocks. *)
Fixpoint markup_calls (bodies : list jsstr) (toolNames : list jsstr) (index : Z) : ML Env (list ToolCall) :=
  match bodies with
  | [] => ret []
  | body :: bodies' =>
      let* parsed := of_result (parseMisplacedToolCallBlock body) in
      let* calls := create_calls parsed toolNames index in
      let* rest := markup_calls bodies' toolNames (index + zlen calls) in
      ret (calls ++ rest)
  end.

(** The calls in JSON that do not repeat one in markup; a key is used once. *)
Fixpoint fresh_json_calls (parsed : list ParsedMisplacedToolCall) (keys : list jsstr) : list ParsedMisplacedToolCall :=
  match parsed with
  | [] => []
  | p :: parsed' =>
      match serializeCanonicalMisplacedToolArguments (pc_arguments p) with
      | None => p :: fresh_json_calls parsed' keys
      | Some args =>
          match find_index (fun k => bool_decide (k = pc_name p ++ js ":" ++ args)) keys with
          | Some i => fresh_json_calls parsed' (delete i keys)
          | None => p :: fresh_json_calls parsed' keys
          end
      end
  end.

Definition record_of (v : json) : list (jsstr * json) := match v with JObj m => m | _ => [] end.

Definition extractMisplacedToolCalls (m : AssistantMessage) (toolNames : list jsstr) : ML Env (list ToolCall) :=
  let texts := written_texts m in
  let* marked := markup_calls (tool_call_bodies texts) toolNames 0 in
  let keys := map (fun c => call_key (tc_name c) (record_of (tc_arguments c))) marked in
  let* written := create_calls
    (fresh_json_calls (flat_map (fun t => extractMisplacedJsonToolCalls t toolNames) texts) keys) toolNames (zlen marked) in
  ret (marked ++ written).

Definition names_of (tools : option (list (AgentTool Env))) : list jsstr := map at_name (default [] tools).

Definition recoverMisplacedToolCalls (m : AssistantMessage) (tools : option (list (AgentTool Env))) : ML Env AssistantMessage :=
  if negb (is_empty (tool_calls m)) then ret m
  else
    let toolNames := names_of tools in
    let* calls := extractMisplacedToolCalls m toolNames in
    if is_empty calls then ret m
    else
      let* kept := of_result (removeRecoveredToolCallMarkup toolNames (am_content m)) in
      ret (mkAssistant (kept ++ map AToolCall calls) (am_api m) (am_provider m) (am_model m) (am_responseModel m)
             (am_responseId m) (am_diagnostics m) (am_usage m) StopToolUse (am_errorMessage m) (am_timestamp m)).

(** Recovery only reads the clock and may throw: what holds of those and is
    kept by sequencing holds of it. *)
Section Built.
Context (P : forall A, ML Env A -> Prop).
Context (P_ret : forall A (a : A), P _ (ret a)) (P_result : forall A (r : result jsstr A), P _ (of_result r)).
Context (P_bind : forall A B (c : ML Env A) (k : A -> ML Env B), P _ c -> (forall a, P _ (k a)) -> P _ (bind c k)).
Context (P_now : P _ (ask_env now)).

Lemma create_calls_built parsed toolNames index : P _ (create_calls parsed toolNames index).
Proof using P_ret P_bind P_now.
  revert index. induction parsed as [|p parsed IH]; intros index; simpl; [apply P_ret|].
  apply P_bind; [apply P_bind; [apply P_now|intros; apply P_ret]|]. intros. apply P_bind; [apply IH|intros; apply P_ret].
Qed.

Lemma markup_calls_built bodies toolNames index : P _ (markup_calls bodies toolNames index).
Proof using P_ret P_result P_bind P_now.
  revert index. induction bodies as [|b bodies IH]; intros index; simpl; [apply P_ret|].
  apply P_bind; [apply P_result|]. intros. apply P_bind; [apply create_calls_built|]. intros.
  apply P_bind; [apply IH|intros; apply P_ret].
Qed.

Lemma recover_built m tools : P _ (recoverMisplacedToolCalls m tools).
Proof using P_ret P_result P_bind P_now.
  unfold recoverMisplacedToolCalls. destruct (negb _); [apply P_ret|]. apply P_bind.
  - apply P_bind; [apply markup_calls_built|]. intros. apply P_bind; [apply create_calls_built|intros; apply P_ret].
  - intros calls. destruct (is_empty calls); [apply P_ret|]. apply P_bind; [apply P_result|intros; apply P_ret].
Qed.
End Built.
End Calls.
End Text.
