(* ===== verification/AgentLoop.v ===== *)
(** The agent loop: streaming a response ([agent-loop/response-processing.ts]),
    the turn loop ([error-recovery.ts], [message-preparation.ts],
    [implicit-completion.ts], [waiting-loop-warning.ts],
    [provider-length-continuation.ts],
    [provider-length-completion-compatibility.ts], [next-turn-preparation.ts])
    and its entry points ([loop-control.ts]). *)
From S2P Require Import Prelude JsString Json Effects Messages Protocol LoopTypes ToolBatch Recovery.
#[local] Open Scope eff.

Definition resolveCompletionMode {Env} (c : AgentLoopConfig Env) : CompletionMode :=
  default DEFAULT_COMPLETION_MODE (cf_completionMode c).

Section Loop.
Context {Env : Type}.
Context (validateToolArguments : AgentTool Env -> ToolCall -> result jsstr json).
Context (sink : AgentEvent -> hook Env unit) (aborted : Env -> bool) (now : Env -> Z * Env)
  (schedule : Env -> list nat).
(** The provider, and the text of the number a JSON literal denotes. *)
Context (streamFn : Model -> LlmContext Env -> StreamOptions -> hook Env (response Env)).
Context (number_text : jsstr -> jsstr).

Local Abbreviation emit := (LoopTypes.emit sink).
Local Abbreviation emit_message := (LoopTypes.emit_message sink).
Local Abbreviation emit_and_push := (LoopTypes.emit_and_push sink).

Definition opt_hook {A} (h : option (hook Env A)) (otherwise : A) : ML Env A :=
  match h with Some f => call_hook f | None => ret otherwise end.

(** ** Streaming a response *)

(** Building the request; a hook may replace the context once. *)
Fixpoint prepare_request (retries : nat) (attempt : Z) (config : AgentLoopConfig Env) (maxTokens : option Z)
    : ML Env (LlmContext Env * option Z) :=
  let* context := read lw_context in
  let* messages := match cf_transformContext config with
                   | Some transform => call_hook (transform (cx_messages context))
                   | None => ret (cx_messages context)
                   end in
  let* llm := call_hook (cf_convertToLlm config messages) in
  let llmContext := mkLlmContext (cx_systemPrompt context) llm (cx_tools context) in
  let* prepared := opt_hook ((fun f => f llmContext (cf_model config) maxTokens attempt) <$> cf_prepareModelCall config) None in
  let maxTokens := match prepared ≫= pm_maxTokens with Some n => Some n | None => maxTokens end in
  match prepared ≫= pm_retryContext, retries with
  | None, _ => ret (llmContext, maxTokens)
  | Some _, O => throw (js "Model-call preparation could not produce a request that fits after compaction.")
  | Some replacement, S retries' =>
      do* modify (set_context replacement) in
      prepare_request retries' (attempt + 1) config maxTokens
  end.

(** The local variables of the consumer loop. *)
Record stream_vars := mkVars {
  sv_partial : option AssistantMessage;
  sv_added : bool;
  sv_prefillStartMs : Z;  (** 0 is [null] *)
  sv_genStartMs : Z;
  sv_tokenCount : Z;
  sv_lastGenProgressMs : option Z;
  sv_intervalTokenCount : Z;
  sv_coldPrefillEmitted : bool;
}.

Definition initial_vars : stream_vars := mkVars None false 0 0 0 None 0 false.
Definition GEN_PROGRESS_INTERVAL_MS : Z := 1000.

Definition set_partial (m : AssistantMessage) (v : stream_vars) : stream_vars :=
  mkVars (Some m) (sv_added v) (sv_prefillStartMs v) (sv_genStartMs v) (sv_tokenCount v) (sv_lastGenProgressMs v)
    (sv_intervalTokenCount v) (sv_coldPrefillEmitted v).

(** [context.messages[context.messages.length - 1] = m]. *)
Definition replace_last (l : list AgentMessage) (m : AgentMessage) : list AgentMessage :=
  match l with [] => [] | _ => take (length l - 1) l ++ [m] end.
Definition context_replace_last (m : AssistantMessage) : ML Env unit :=
  modify (fun w => set_context (mkContext (cx_systemPrompt (lw_context w)) (replace_last (cx_messages (lw_context w)) (MAssistant m))
                                  (cx_tools (lw_context w))) w).

Definition no_progress_fields : progress_fields := mkProgress None None None None None.

(** The first block start reports how long the prompt took. *)
Definition report_prefill (v : stream_vars) : ML Env stream_vars :=
  if negb (sv_prefillStartMs v =? 0) && (sv_genStartMs v =? 0) then
    let* t := ask_env now in
    do* match sv_partial v with
        | Some p => emit (message_update (Some p)
            (SPrefillProgress (mkProgress (Some (t - sv_prefillStartMs v)) None None None None) p))
        | None => ret tt
        end in
    let* g := ask_env now in
    ret (mkVars (sv_partial v) (sv_added v) (sv_prefillStartMs v) g 0 (Some g) 0 (sv_coldPrefillEmitted v))
  else ret v.

(** [Math.round(count / (elapsed / 1000))]. *)
Definition tokens_per_second (count elapsed : Z) : Z := (2 * 1000 * count + elapsed) / (2 * elapsed).

(** A delta counts a token and reports the rate once a second. *)
Definition report_generation (partial : AssistantMessage) (v : stream_vars) : ML Env stream_vars :=
  if sv_genStartMs v =? 0 then ret v
  else
    let count := sv_tokenCount v + 1 in
    let interval := sv_intervalTokenCount v + 1 in
    let* t := ask_env now in
    let keep last n := mkVars (sv_partial v) (sv_added v) (sv_prefillStartMs v) (sv_genStartMs v) count last n (sv_coldPrefillEmitted v) in
    match sv_lastGenProgressMs v with
    | Some last =>
        if GEN_PROGRESS_INTERVAL_MS <=? t - last then
          do* emit (message_update (sv_partial v)
                (SGenProgress (mkProgress None (Some count) None (Some (tokens_per_second interval (t - last))) None) partial)) in
          ret (keep (Some t) 0)
        else ret (keep (Some last) interval)
    | None => ret (keep None interval)
    end.

(** The update every event but the first and the last produces. *)
Definition forward_event (ev : AssistantMessageEvent) (partial : AssistantMessage) (v : stream_vars) : ML Env stream_vars :=
  do* context_replace_last partial in
  do* emit (message_update (Some partial) ev) in
  ret (set_partial partial v).

Definition set_cold (v : stream_vars) : stream_vars :=
  mkVars (sv_partial v) (sv_added v) (sv_prefillStartMs v) (sv_genStartMs v) (sv_tokenCount v) (sv_lastGenProgressMs v)
    (sv_intervalTokenCount v) true.

(** A cold prefill is announced once. *)
Definition report_cold (f : progress_fields) (partial : AssistantMessage) (v : stream_vars) : ML Env stream_vars :=
  if default false (pf_cold f) && negb (sv_coldPrefillEmitted v) then
    do* emit (message_update (Some partial)
          (SColdPrefillDetected (mkProgress (pf_elapsedMs f) (pf_tokens f) (pf_cachedTokens f) None None)
             (bool_decide (pf_cachedTokens f = Some 0)) partial)) in
    ret (set_cold v)
  else ret v.

Definition normalizeAssistantToolCalls (m : AssistantMessage) (tools : option (list (AgentTool Env))) : ML Env AssistantMessage :=
  let* recovered := recoverMisplacedToolCalls number_text now m tools in
  ret (expandWaitCheckToolCalls validateToolArguments recovered tools).

(** The final message replaces the partial one. *)
Definition finish_response (result : hook Env AssistantMessage) (v : stream_vars) : ML Env AssistantMessage :=
  let* raw := call_hook result in
  let* tools := read (fun w => cx_tools (lw_context w)) in
  let* finalMessage := normalizeAssistantToolCalls raw tools in
  do* (if sv_added v then context_replace_last finalMessage
       else do* context_push (MAssistant finalMessage) in emit (message_start (MAssistant finalMessage))) in
  do* emit (message_end (MAssistant finalMessage)) in
  ret finalMessage.

Definition stream_event (ev : AssistantMessageEvent) (v : stream_vars) : ML Env stream_vars :=
  match ev with
  | SStart msg =>
      let* t := ask_env now in
      do* context_push (MAssistant msg) in
      do* emit (message_start (MAssistant msg)) in
      ret (mkVars (Some msg) true t (sv_genStartMs v) (sv_tokenCount v) (sv_lastGenProgressMs v)
             (sv_intervalTokenCount v) (sv_coldPrefillEmitted v))
  | SBlockStart _ _ msg => let* v := report_prefill v in forward_event ev msg v
  | SBlockDelta _ _ _ msg => let* v := report_generation msg v in forward_event ev msg v
  | SPrefillProgress f msg =>
      do* context_replace_last msg in
      let* v := report_cold f msg (set_partial msg v) in
      do* emit (message_update (Some msg) ev) in ret v
  | SColdPrefillDetected _ _ msg => forward_event ev msg (set_cold v)
  | SBlockEnd _ _ msg | SGenProgress _ msg | SOtherProgress _ msg => forward_event ev msg v
  | SDone _ | SError _ => ret v
  end.

Definition is_final_event (ev : AssistantMessageEvent) : bool :=
  match ev with SDone _ | SError _ => true | _ => false end.

Fixpoint consume (events : response_events Env) (result : hook Env AssistantMessage) (v : stream_vars) : ML Env AssistantMessage :=
  match events with
  | REnd => finish_response result v
  | REvent pull rest => fun w =>
      bind (ask_env pull) (fun ev =>
        if is_final_event ev then finish_response result v
        else bind (stream_event ev v) (fun v' => consume (rest (lw_env w)) result v')) w
  end.

Definition streamAssistantResponse (config : AgentLoopConfig Env) : ML Env AssistantMessage :=
  let* ' (llmContext, maxTokens) := prepare_request 1 0 config (cf_maxTokens config) in
  let* dynamicKey := opt_hook ((fun f => f (md_provider (cf_model config))) <$> cf_getApiKey config) None in
  let apiKey := match dynamicKey with Some (c :: s) => Some (c :: s) | _ => cf_apiKey config end in
  do* emit (request_start (cf_model config)) in
  let reasoning := if bool_decide (cf_reasoning config = Some (js "off")) then None else cf_reasoning config in
  let* r := call_hook (streamFn (cf_model config) llmContext (mkStreamOptions reasoning apiKey maxTokens)) in
  consume (rs_events r) (rs_result r) initial_vars.

(** ** Ending a run *)

Definition createTerminalAssistantMessage (config : AgentLoopConfig Env) (diagnostic : jsstr) (stopReason : StopReason)
    : ML Env AssistantMessage :=
  let* timestamp := ask_env now in
  ret (mkAssistant [AText diagnostic None] (md_api (cf_model config)) (md_provider (cf_model config)) (md_id (cf_model config))
         None None None EMPTY_USAGE stopReason (Some diagnostic) timestamp).

(** [agent_end] with the transcript of the run. *)
Definition emit_agent_end : ML Env unit := let* messages := read lw_new in emit (agent_end messages).

Definition push_terminal (message : AssistantMessage) : ML Env unit :=
  do* context_push (MAssistant message) in new_push (MAssistant message).

Definition emitAbortedTurn (config : AgentLoopConfig Env) (diagnostic : jsstr) : ML Env unit :=
  let* message := createTerminalAssistantMessage config diagnostic StopAborted in
  do* push_terminal message in
  do* emit turn_start in
  do* emit_message (MAssistant message) in
  do* emit (turn_end message []) in
  emit_agent_end.

Definition emitProtocolFailure (config : AgentLoopConfig Env) (mode : CompletionMode) (event : protocol_event)
    (diagnostic : jsstr) (turnAlreadyStarted : bool) : ML Env unit :=
  do* emit (completion_protocol mode event None None (Some diagnostic)) in
  do* (if turnAlreadyStarted then ret tt else emit turn_start) in
  let* message := createTerminalAssistantMessage config diagnostic StopError in
  do* push_terminal message in
  do* emit_message (MAssistant message) in
  do* emit (turn_end message []) in
  emit_agent_end.

(** ** Messages the loop injects *)

Definition user_text (text : jsstr) (metadata : list (jsstr * json)) (timestamp : Z) : AgentMessage :=
  MUser (mkUser (RBlocks [CText text None]) (Some metadata) timestamp).

Definition createProtocolRepairMessage (text : jsstr) (reason : option repair_reason) : ML Env AgentMessage :=
  let* timestamp := ask_env now in
  ret (user_text text
         ((js "pInternal", JStr (js "completion_protocol_repair"))
          :: match reason with Some r => [(js "completionProtocolRepairReason", JStr (reason_text r))] | None => [] end)
         timestamp).

Definition provider_length_text (hasToolCall : bool) (specializedInstruction : option jsstr) : jsstr :=
  match specializedInstruction with
  | Some text => text
  | None =>
      if hasToolCall then lines
        ["The provider stopped because it reached its output-token limit, so no tool call from that response was executed.";
         "Re-emit only the pending tool call with complete, bounded arguments.";
         "Do not repeat completed text, restart earlier work, or redo already completed operations."]
      else lines
        ["The provider stopped because it reached its output-token limit.";
         "Continue exactly after the final completed content above and finish within the available output budget.";
         "Do not repeat, summarize, restart, or apologize."]
  end.

Definition createProviderLengthContinuationMessage (hasToolCall : bool) (specializedInstruction : option jsstr)
    : ML Env AgentMessage :=
  let* timestamp := ask_env now in
  ret (user_text (provider_length_text hasToolCall specializedInstruction)
         [(js "pInternal", JStr (js "provider_length_continuation"))] timestamp).

Inductive length_decision := LengthNone | LengthContinue | LengthFailed.

Definition handleProviderLengthResponse (message : AssistantMessage) (calls : list ToolCall) (instruction : option jsstr)
    : ML Env length_decision :=
  if isProviderLengthResponse message then
    let* continuation := createProviderLengthContinuationMessage (negb (is_empty calls)) instruction in
    do* emit_and_push continuation in
    ret LengthContinue
  else ret LengthNone.

(** [false] when a limit is exceeded and the run has ended. *)
Definition recordSemanticProviderLengthRepair (repair : CompletionProtocolRepair) (limits : CompletionProtocolLimits)
    (config : AgentLoopConfig Env) (mode : CompletionMode) : ML Env bool :=
  do* update_state (fun s => bump_malformed (bump_noProgress s)) in
  let* s := read lw_state in
  let malformedExceeded := exceeds (malformedToolRetries s) (maxMalformedToolRetries limits) in
  let noProgressExceeded := exceeds (noProgressTurns s) (maxNoProgressTurns limits) in
  if malformedExceeded || noProgressExceeded then
    do* emitProtocolFailure config mode no_progress_stop
          (if malformedExceeded
           then js "Agent stopped because the model entered a repetitive output loop " ++ show (malformedToolRetries s) ++ js " times."
           else js "Agent stopped because the model did not call `finish_work` and made no progress for "
                ++ show (noProgressTurns s) ++ js " turns.") false in
    ret false
  else
    do* emit (completion_protocol mode (rp_event repair) (Some (malformedToolRetries s))
                (Some (maxMalformedToolRetries limits)) (Some (reason_text (rp_reason repair)))) in
    ret true.

Definition prepareProviderLengthContinuation (message : AssistantMessage) (calls : list ToolCall)
    (repair : option CompletionProtocolRepair) (limits : CompletionProtocolLimits) (config : AgentLoopConfig Env)
    (mode : CompletionMode) : ML Env length_decision :=
  let* ok := match repair with
             | Some r => if bool_decide (rp_reason r = repetitive_model_output)
                         then recordSemanticProviderLengthRepair r limits config mode else ret true
             | None => ret true
             end in
  if ok then handleProviderLengthResponse message calls (rp_message <$> repair) else ret LengthFailed.

Definition waiting_warning (n : Z) : jsstr :=
  js "Warning: Executed " ++ show n
  ++ js " consecutive wait-only turns without new evidence. Use an event-driven process wait, inspect concrete state, or interrupt the pending operation before continuing.".

Definition recordWaitingTurn (batch : option ExecutedToolCallBatch) (limits : CompletionProtocolLimits) (mode : CompletionMode)
    : ML Env bool :=
  do* update_state (fun s =>
        match batch with
        | Some b => if eb_madeProgress b then set_waiting 0 s
                    else if eb_waiting b then set_waiting (consecutiveWaitingTurns s + 1) s else s
        | None => s
        end) in
  let* s := read lw_state in
  if negb (reaches (consecutiveWaitingTurns s) (maxConsecutiveWaitingTurns limits)) then ret false
  else
    let text := waiting_warning (consecutiveWaitingTurns s) in
    do* emit (completion_protocol mode waiting_loop_warning None None (Some text)) in
    let* repairMessage := createProtocolRepairMessage text None in
    do* emit_and_push repairMessage in
    do* update_state (set_waiting 0) in
    ret true.

(** ** Between turns *)

Definition resolveTurnCompletionMode (config : AgentLoopConfig Env) (previous : CompletionMode) : ML Env CompletionMode :=
  let next := resolveCompletionMode config in
  if bool_decide (next = previous) || negb (isCompletionProtocolEnabled next) then ret next
  else
    do* (if isCompletionProtocolEnabled previous then ret tt
         else update_state (fun s => resetCompletionProgress (set_turns 0 s))) in
    do* emit (completion_protocol next completion_mode None None None) in
    ret next.

Definition acceptsImplicitCompletion (config : AgentLoopConfig Env) (mode : CompletionMode) (message : AssistantMessage)
    (repair : option CompletionProtocolRepair) : ML Env bool :=
  let calls := tool_calls message in
  if isCompletionProtocolEnabled mode && is_empty calls && negb (isProviderLengthResponse message)
     && bool_decide (rp_reason <$> repair = Some missing_finish_work_or_tool_call)
     && negb (isEmptyAssistantMessage message calls)
  then match cf_allowImplicitCompletion config with
       | None => ret false
       | Some allow => let* s := read lw_state in ask_env (allow (missingFinishRetries s))
       end
  else ret false.

Definition prepareAgentNextTurn (message : AssistantMessage) (toolResults : list ToolResultMessage)
    (config : AgentLoopConfig Env) : ML Env (AgentLoopConfig Env) :=
  match cf_prepareNextTurn config with
  | None => ret config
  | Some prepare =>
      let* context := read lw_context in
      let* newMessages := read lw_new in
      let* snapshot := call_hook (prepare (mkTurnInfo message toolResults context newMessages)) in
      match snapshot with
      | None => ret config
      | Some u =>
          do* (match tu_context u with Some c => modify (set_context c) | None => ret tt end) in
          do* for_each (default [] (tu_appendMessages u)) emit_and_push in
          ret (with_update config (default (cf_model config) (tu_model u))
                 (match tu_completionMode u with Some m => Some m | None => cf_completionMode config end)
                 (match tu_thinkingLevel u with
                  | None => cf_reasoning config
                  | Some level => if bool_decide (level = js "off") then None else Some level
                  end))
      end
  end.

(** ** One turn *)

Inductive turn_outcome :=
  | Return
  | Continue (config : AgentLoopConfig Env) (mode : CompletionMode) (hasMoreToolCalls : bool) (pending : list AgentMessage).

(** From the top of the inner loop to the request: [None] when the run ended. *)
Definition begin_turn (firstTurn : bool) (config : AgentLoopConfig Env) (mode : CompletionMode) (pending : list AgentMessage)
    : ML Env (option CompletionMode) :=
  do* (if firstTurn then ret tt else emit turn_start) in
  do* for_each pending emit_and_push in
  let* mode := resolveTurnCompletionMode config mode in
  do* modify (fun w => set_context (withCompletionProtocolTools (lw_context w) mode) w) in
  let limits := resolveCompletionLimits (cf_completionLimits config) mode in
  let* s := read lw_state in
  if isCompletionProtocolEnabled mode && reaches (turns s) (maxTurns limits) then
    do* emitProtocolFailure config mode max_turns_without_finish_work
          (js "Agent stopped because the model did not call `finish_work` within " ++ show_bound (maxTurns limits) ++ js " turns.") true in
    ret None
  else ret (Some mode).

Definition repair_before_execution (mode : CompletionMode) (message : AssistantMessage) : option CompletionProtocolRepair :=
  let calls := tool_calls message in
  if isCompletionProtocolEnabled mode
     && (negb (isProviderLengthResponse message) || requiresSpecializedProviderLengthRepair message calls)
  then detectCompletionProtocolRepair message calls true else None.

(** Whether the tool calls of a response are executed. *)
Definition executes_tools (mode : CompletionMode) (message : AssistantMessage) : bool :=
  negb (is_empty (tool_calls message)) && negb (isProviderLengthResponse message)
  && match repair_before_execution mode message with None => true | Some _ => false end.

Definition execute_turn_tools (mode : CompletionMode) (message : AssistantMessage) (config : AgentLoopConfig Env)
    : ML Env (option ExecutedToolCallBatch) :=
  if executes_tools mode message then
    let* context := read lw_context in
    let* batch := executeToolCalls validateToolArguments sink aborted now schedule context message config in
    do* for_each (eb_messages batch) (fun r => do* context_push (MToolResult r) in new_push (MToolResult r)) in
    ret (Some batch)
  else ret None.

Definition successful_finish (r : ToolResultMessage) : bool := isFinishWorkToolResult r && negb (tr_isError r).

(** The completion protocol after a turn: [None] when the run ended, otherwise
    whether another turn must follow. *)
Definition apply_protocol (mode : CompletionMode) (message : AssistantMessage) (config : AgentLoopConfig Env)
    (limits : CompletionProtocolLimits) (toolResults : list ToolResultMessage) (batch : option ExecutedToolCallBatch)
    (hasMoreToolCalls : bool) : ML Env (option bool) :=
  if existsb successful_finish toolResults then
    do* emit (completion_protocol mode finish_work_called None None None) in
    do* emit_agent_end in ret None
  else
    let calls := tool_calls message in
    let repair := match repair_before_execution mode message with
                  | Some r => Some r
                  | None => detectCompletionProtocolRepair message calls hasMoreToolCalls
                  end in
    do* update_state (count_turn message calls repair (default false (eb_madeProgress <$> batch)) (default false (eb_waiting <$> batch))) in
    let* s := read lw_state in
    match protocolLimitDiagnostic s limits mode repair with
    | Some diagnostic =>
        do* emitProtocolFailure config mode no_progress_stop diagnostic false in ret None
    | None =>
        match repair with
        | None => ret (Some hasMoreToolCalls)
        | Some r =>
            if bool_decide (mode = hybrid) && bool_decide (rp_reason r = missing_finish_work_or_tool_call)
               && exceeds (missingFinishRetries s) (maxMissingFinishRetries limits)
            then do* update_state allow_implicit in ret (Some hasMoreToolCalls)
            else
              let malformed := bool_decide (rp_event r = malformed_tool_call_retry) in
              do* emit (completion_protocol mode (rp_event r)
                    (Some (if malformed then malformedToolRetries s else missingFinishRetries s))
                    (Some (if malformed then maxMalformedToolRetries limits else maxMissingFinishRetries limits))
                    (Some (reason_text (rp_reason r)))) in
              let* repairMessage := createProtocolRepairMessage (rp_message r) (Some (rp_reason r)) in
              do* emit_and_push repairMessage in
              ret (Some true)
        end
    end.

Definition PROVIDER_CONTINUATION_CANCELLED_DIAGNOSTIC : jsstr :=
  js "Agent stopped because the operation was cancelled before the next provider continuation request.".

Definition decided_none (d : length_decision) : bool := match d with LengthNone => true | _ => false end.
Definition decided_continue (d : length_decision) : bool := match d with LengthContinue => true | _ => false end.

(** From the protocol to the next evaluation of the inner loop condition. *)
Definition end_turn (mode : CompletionMode) (message : AssistantMessage) (config : AgentLoopConfig Env)
    (toolResults : list ToolResultMessage) (decision : length_decision) (implicitTurn hasMoreToolCalls : bool)
    : ML Env turn_outcome :=
  let* config := prepareAgentNextTurn message toolResults config in
  let* isAborted := read_env aborted in
  if isAborted then
    do* emitAbortedTurn config PROVIDER_CONTINUATION_CANCELLED_DIAGNOSTIC in ret Return
  else
    let* s := read lw_state in
    let* context := read lw_context in
    let* newMessages := read lw_new in
    let canStopImplicitly :=
      decided_none decision && (negb (isCompletionProtocolEnabled mode) || allowImplicitCompletion s || implicitTurn) in
    let* stop :=
      (if canStopImplicitly
       then opt_hook ((fun f => f (mkTurnInfo message toolResults context newMessages)) <$> cf_shouldStopAfterTurn config) false
       else ret false) in
    if stop then do* emit_agent_end in ret Return
    else
      let* pending := opt_hook (cf_getSteeringMessages config) [] in
      ret (Continue config mode hasMoreToolCalls pending).

(** The results a batch adds to the turn. *)
Definition batch_results (batch : option ExecutedToolCallBatch) : list ToolResultMessage := default [] (eb_messages <$> batch).

(** A terminating batch ends the run, unless [finish_work] did it. *)
Definition finish_batch (mode : CompletionMode) (batch : option ExecutedToolCallBatch) : ML Env turn_outcome :=
  do* (match batch ≫= eb_completion with
       | Some _ => if isCompletionProtocolEnabled mode
                   then emit (completion_protocol mode verified_completion_called None None None) else ret tt
       | None => ret tt
       end) in
  do* emit_agent_end in ret Return.

(** Waiting, the completion protocol, and the next turn. *)
Definition continue_turn (mode : CompletionMode) (message : AssistantMessage) (config : AgentLoopConfig Env)
    (limits : CompletionProtocolLimits) (batch : option ExecutedToolCallBatch) (implicitTurn : bool)
    (decision : length_decision) : ML Env turn_outcome :=
  let* warned := recordWaitingTurn batch limits mode in
  let hasMoreToolCalls :=
    (match batch with Some b => negb (eb_terminate b) | None => false end) || decided_continue decision || warned in
  let* s := read lw_state in
  let* next :=
    (if decided_none decision && isCompletionProtocolEnabled mode && negb (allowImplicitCompletion s) && negb implicitTurn
     then apply_protocol mode message config limits (batch_results batch) batch hasMoreToolCalls
     else ret (Some hasMoreToolCalls)) in
  match next with
  | None => ret Return
  | Some more => end_turn mode message config (batch_results batch) decision implicitTurn more
  end.

(** From [turn_end] on. *)
Definition after_turn (mode : CompletionMode) (message : AssistantMessage) (config : AgentLoopConfig Env)
    (limits : CompletionProtocolLimits) (batch : option ExecutedToolCallBatch) (implicitTurn : bool) : ML Env turn_outcome :=
  do* emit (turn_end message (batch_results batch)) in
  let* decision := prepareProviderLengthContinuation message (tool_calls message) (repair_before_execution mode message)
                     limits config mode in
  match decision with
  | LengthFailed => ret Return
  | _ =>
      if default false (eb_terminate <$> batch) && negb (existsb successful_finish (batch_results batch))
      then finish_batch mode batch
      else continue_turn mode message config limits batch implicitTurn decision
  end.

Definition is_failed_response (m : AssistantMessage) : bool :=
  match am_stopReason m with StopError | StopAborted => true | _ => false end.

(** From the response on: a failed one ends the run, the tools of another are
    executed. *)
Definition respond (mode : CompletionMode) (message : AssistantMessage) (config : AgentLoopConfig Env) : ML Env turn_outcome :=
  if is_failed_response message then
    do* emit (turn_end message []) in
    do* emit_agent_end in ret Return
  else
    let* implicitTurn := acceptsImplicitCompletion config mode message (repair_before_execution mode message) in
    let* batch := execute_turn_tools mode message config in
    after_turn mode message config (resolveCompletionLimits (cf_completionLimits config) mode) batch implicitTurn.

(** The body of the inner loop. *)
Definition run_turn (firstTurn : bool) (config : AgentLoopConfig Env) (mode : CompletionMode) (pending : list AgentMessage)
    : ML Env turn_outcome :=
  let* started := begin_turn firstTurn config mode pending in
  match started with
  | None => ret Return
  | Some mode =>
      let* message := streamAssistantResponse config in
      do* new_push (MAssistant message) in
      do* (if isProviderLengthResponse message then ret tt else update_state (fun s => set_turns (turns s + 1) s)) in
      respond mode message config
  end.

(** ** The loop *)

Inductive loop_exit := Finished | OutOfFuel.

(** Both [while] loops; a unit of fuel is one evaluation of the inner
    condition. *)
Fixpoint turn_loop (fuel : nat) (firstTurn : bool) (config : AgentLoopConfig Env) (mode : CompletionMode)
    (hasMoreToolCalls : bool) (pending : list AgentMessage) : ML Env loop_exit :=
  match fuel with
  | O => ret OutOfFuel
  | S fuel' =>
      if hasMoreToolCalls || negb (is_empty pending) then
        let* outcome := run_turn firstTurn config mode pending in
        match outcome with
        | Return => ret Finished
        | Continue config mode more pending => turn_loop fuel' false config mode more pending
        end
      else
        let* followUp := opt_hook (cf_getFollowUpMessages config) [] in
        if is_empty followUp then do* emit_agent_end in ret Finished
        else turn_loop fuel' firstTurn config mode true followUp
  end.

Definition runLoop (fuel : nat) (config : AgentLoopConfig Env) : ML Env loop_exit :=
  let mode := resolveCompletionMode config in
  do* modify (fun w => set_state createCompletionProtocolState
                         (set_context (withCompletionProtocolTools (lw_context w) mode) w)) in
  let* pending := opt_hook (cf_getSteeringMessages config) [] in
  do* (if isCompletionProtocolEnabled mode then emit (completion_protocol mode completion_mode None None None) else ret tt) in
  turn_loop fuel true config mode true pending.

(** The world a run starts from: nothing emitted, nothing appended. *)
Definition start_world (context : AgentContext Env) (newMessages : list AgentMessage) (env : Env) : loop_world Env :=
  mkLoop [] newMessages context createCompletionProtocolState env.

Definition runAgentLoop (fuel : nat) (prompts : list AgentMessage) (context : AgentContext Env) (config : AgentLoopConfig Env)
    (env : Env) : result jsstr loop_exit * loop_world Env :=
  (do* emit agent_start in
   do* emit turn_start in
   do* for_each prompts emit_message in
   runLoop fuel config) (start_world (push_context prompts context) prompts env).

Definition runAgentLoopContinue (fuel : nat) (context : AgentContext Env) (config : AgentLoopConfig Env) (env : Env)
    : result jsstr loop_exit * loop_world Env :=
  let w := start_world context [] env in
  match last (cx_messages context) with
  | None => (Throw (js "Cannot continue: no messages in context"), w)
  | Some (MAssistant _) => (Throw (js "Cannot continue from message role: assistant"), w)
  | Some _ =>
      (do* emit agent_start in
       do* emit turn_start in
       runLoop fuel config) w
  end.
End Loop.
