(* ===== verification/LoopEnv.v ===== *)
(** Invariants between the events a run has emitted and the environment it runs
    in: if every hook, tool and provider leaves the invariant alone and the event
    sink maintains it, the whole loop maintains it, whether it returns or throws. *)
From S2P Require Import Prelude JsString Json Effects Messages Protocol LoopTypes ToolBatch Recovery AgentLoop.
#[local] Open Scope eff.

Section Invariant.
(** [calm] describes the calls out of the loop that leave the invariant alone. *)
Context {Env : Type} (calm : forall {A : Type}, (Env -> A * Env) -> Prop) (I : list AgentEvent -> Env -> Prop).
Arguments calm {A} _.

Fixpoint calm_proc (p : tool_proc Env) : Prop :=
  match p with
  | Settle settle => calm settle
  | Step report rest => calm report /\ forall env, calm_proc (rest env)
  end.

Definition calm_tool (t : AgentTool Env) : Prop := forall id args, calm_proc (at_execute t id args).
Definition calm_tools (tools : option (list (AgentTool Env))) : Prop := Forall calm_tool (default [] tools).

Fixpoint calm_events (evs : response_events Env) : Prop :=
  match evs with
  | REnd => True
  | REvent pull rest => calm pull /\ forall env, calm_events (rest env)
  end.

(** An optional hook is calm, for all its arguments. *)
Definition calm_opt {H} (calm_hook : H -> Prop) (h : option H) : Prop := match h with Some f => calm_hook f | None => True end.

Record calm_config (c : AgentLoopConfig Env) : Prop := mkCalmConfig {
  cc_allow : calm_opt (fun f => forall n, calm (f n)) (cf_allowImplicitCompletion c);
  cc_convert : forall ms, calm (cf_convertToLlm c ms);
  cc_transform : calm_opt (fun f => forall ms, calm (f ms)) (cf_transformContext c);
  cc_prepareModelCall : calm_opt (fun f => forall llm m n k, calm (f llm m n k) /\
    forall env p ctx env', f llm m n k env = (Ok (Some p), env') -> pm_retryContext p = Some ctx -> calm_tools (cx_tools ctx))
    (cf_prepareModelCall c);
  cc_getApiKey : calm_opt (fun f => forall p, calm (f p)) (cf_getApiKey c);
  cc_shouldStop : calm_opt (fun f => forall info, calm (f info)) (cf_shouldStopAfterTurn c);
  cc_prepareNextTurn : calm_opt (fun f => forall info, calm (f info) /\
    forall env u ctx env', f info env = (Ok (Some u), env') -> tu_context u = Some ctx -> calm_tools (cx_tools ctx))
    (cf_prepareNextTurn c);
  cc_steering : calm_opt calm (cf_getSteeringMessages c);
  cc_followUp : calm_opt calm (cf_getFollowUpMessages c);
  cc_before : calm_opt (fun f => forall am call args effect ctx, calm (f am call args effect ctx)) (cf_beforeToolCall c);
  cc_after : calm_opt (fun f => forall am call args effect r b ctx, calm (f am call args effect r b ctx)) (cf_afterToolCall c);
}.

Context (validateToolArguments : AgentTool Env -> ToolCall -> result jsstr json).
Context (sink : AgentEvent -> hook Env unit) (aborted : Env -> bool) (now : Env -> Z * Env)
  (schedule : Env -> list nat).
Context (streamFn : Model -> LlmContext Env -> StreamOptions -> hook Env (response Env)).

(** What the surroundings of a run promise. *)
Class CalmSurroundings : Prop := {
  calm_inv : forall A (f : Env -> A * Env), calm f -> forall tr env, I tr env -> I tr (f env).2;
  calm_pure : forall A (a : A), calm (fun env => (a, env));
  calm_sink : forall ev tr env, I tr env -> I (tr ++ [ev]) (sink ev env).2;
  calm_now : calm now;
  calm_stream : forall model llm opts, calm (streamFn model llm opts);
  calm_response : forall model llm opts env r env', streamFn model llm opts env = (Ok r, env') ->
    calm_events (rs_events r) /\ calm (rs_result r);
}.
Context {surroundings : CalmSurroundings}.
Context (number_text : jsstr -> jsstr).

(** ** The invariant of the loop's world *)

Definition Inv (w : loop_world Env) : Prop := I (lw_trace w) (lw_env w) /\ calm_tools (cx_tools (lw_context w)).

(** The computation maintains it, and its value satisfies [Q]. *)
Definition safe_with {A} (c : ML Env A) (Q : A -> Prop) : Prop := triple Inv c (fun a w => Q a /\ Inv w) (fun _ => Inv).
Definition safe {A} (c : ML Env A) : Prop := triple Inv c (fun _ => Inv) (fun _ => Inv).

Lemma safe_weaken {A} (c : ML Env A) Q : safe_with c Q -> safe c.
Proof. intros H. eapply triple_post; [exact H|]. by intros a w [_ Hw]. Qed.

Lemma safe_ret {A} (a : A) : safe (ret a).
Proof. by apply triple_ret. Qed.
Lemma safe_throw {A} e : safe (A := A) (throw e).
Proof. by apply triple_throw. Qed.
Lemma safe_bind {A B} (c : ML Env A) (k : A -> ML Env B) : safe c -> (forall a, safe (k a)) -> safe (bind c k).
Proof. intros Hc Hk. eapply triple_bind; [exact Hc|exact Hk]. Qed.
Lemma safe_bind_with {A B} (c : ML Env A) (k : A -> ML Env B) Q : safe_with c Q -> (forall a, Q a -> safe (k a)) -> safe (bind c k).
Proof. intros Hc Hk. eapply triple_bind; [exact Hc|]. intros a w [Ha Hw]. by apply (Hk a Ha). Qed.
Lemma safe_catch {A} (c : ML Env A) h : safe c -> (forall e, safe (h e)) -> safe (catch c h).
Proof. intros Hc Hh. eapply triple_catch; [exact Hc|exact Hh]. Qed.
Lemma safe_for_each {A} (l : list A) f : (forall x, safe (f x)) -> safe (for_each l f).
Proof. intros Hf. induction l; simpl; [apply safe_ret|]. by apply safe_bind. Qed.
Lemma safe_pure {A} (r : loop_world Env -> result jsstr A) : safe (fun w => (r w, w)).
Proof. intros w Hw. by destruct (r w). Qed.
Lemma safe_read {A} (f : loop_world Env -> A) : safe (read f).
Proof. by intros w. Qed.
Lemma safe_read_env {A} (f : Env -> A) : safe (read_env f).
Proof. by intros w. Qed.
Lemma safe_call {A} (h : hook Env A) : calm h -> safe (call_hook h).
Proof.
  intros Hh w [HI Ht]. unfold call_hook. pose proof (calm_inv _ h Hh (lw_trace w) (lw_env w) HI) as Hn.
  by destruct (h (lw_env w)) as [[a|e] env].
Qed.
Lemma safe_call_with {A} (h : hook Env A) (Q : A -> Prop) :
  calm h -> (forall env a env', h env = (Ok a, env') -> Q a) -> safe_with (call_hook h) Q.
Proof.
  intros Hh HQ w [HI Ht]. unfold call_hook. pose proof (calm_inv _ h Hh (lw_trace w) (lw_env w) HI) as Hn.
  destruct (h (lw_env w)) as [[a|e] env] eqn:E; [|done]. split; [by eapply HQ|done].
Qed.
Lemma safe_ask {A} (f : Env -> A * Env) : calm f -> safe (ask_env f).
Proof.
  intros Hf w [HI Ht]. unfold ask_env, call_hook. pose proof (calm_inv _ f Hf (lw_trace w) (lw_env w) HI) as Hn.
  by destruct (f (lw_env w)).
Qed.
Lemma safe_opt {H A} (calm_hook : H -> Prop) (h : option H) (ap : H -> hook Env A) a :
  calm_opt calm_hook h -> (forall f, calm_hook f -> calm (ap f)) -> safe (opt_hook (ap <$> h) a).
Proof. intros Hh Hap. destruct h as [f|]; simpl; [by apply safe_call, Hap|apply safe_ret]. Qed.
Lemma safe_opt_plain {A} (h : option (hook Env A)) a : calm_opt calm h -> safe (opt_hook h a).
Proof. intros Hh. destruct h; simpl; [by apply safe_call|apply safe_ret]. Qed.
Lemma safe_emit ev : safe (emit sink ev).
Proof.
  intros w [HI Ht]. unfold emit, bind, modify, call_hook. cbn [lw_env]. pose proof (calm_sink ev _ _ HI) as Hs.
  by destruct (sink ev (lw_env w)) as [[[]|e] env].
Qed.
Lemma safe_new_push m : safe (new_push m).
Proof. by intros w. Qed.
Lemma safe_context_push m : safe (context_push (Env := Env) m).
Proof. by intros w. Qed.
Lemma safe_update f : safe (update_state (Env := Env) f).
Proof. by intros w. Qed.
Lemma safe_set_context c : calm_tools (cx_tools c) -> safe (modify (set_context c)).
Proof. intros Hc w [HI _]. by split. Qed.
Lemma safe_replace_last m : safe (context_replace_last (Env := Env) m).
Proof. by intros w. Qed.

Lemma read_context : safe_with (read lw_context) (fun c => calm_tools (cx_tools c)).
Proof. intros w Hw. split; [apply Hw|done]. Qed.

(** Decompose a computation and close the leaves. *)
Ltac safe_tac :=
  repeat first
    [ apply safe_ret | apply safe_throw | apply safe_read | apply safe_read_env | apply safe_new_push | apply safe_context_push
    | apply safe_update | apply safe_replace_last | apply safe_emit | apply safe_ask; apply calm_now
    | apply safe_bind; [|intros ?] | apply safe_catch; [|intros ?] | apply safe_for_each; intros ?
    | match goal with
      | |- safe (match ?x with _ => _ end) => destruct x
      | |- safe (if ?x then _ else _) => destruct x
      end ].

(** ** Tools *)

Lemma safe_run_before ctx am call args effect config : calm_config config ->
  safe (run_before aborted ctx am call args effect config).
Proof.
  intros Hc. unfold run_before. pose proof (cc_before config Hc) as Hb. destruct (cf_beforeToolCall config) as [f|]; [|apply safe_ret].
  apply safe_bind; [apply safe_call, Hb|]. intros r. safe_tac.
Qed.

(** A prepared call runs a tool of the context. *)
Definition calm_prepared (p : prepared_call (Env := Env)) : Prop :=
  match p with Prepared _ tool _ _ => calm_tool tool | Immediate _ _ => True end.

Lemma run_before_prepared ctx am call args effect config : calm_config config ->
  safe_with (run_before aborted ctx am call args effect config) (calm_opt calm_prepared).
Proof.
  intros Hc. unfold run_before. pose proof (cc_before config Hc) as Hb.
  destruct (cf_beforeToolCall config) as [f|]; [|by intros w Hw].
  eapply triple_bind; [apply safe_call, Hb|]. intros r. eapply triple_bind; [apply safe_read_env|]. intros b.
  apply triple_ret. intros w Hw. split; [|done]. destruct b; [done|]. destruct r as [r|]; [|done]. by destruct (default false (bt_block r)).
Qed.

Lemma safe_prepare ctx am call config : calm_tools (cx_tools ctx) -> calm_config config ->
  safe_with (prepareToolCall validateToolArguments aborted ctx am call config) calm_prepared.
Proof.
  intros Ht Hc. unfold prepareToolCall. destruct (find_tool _ _) as [tool|] eqn:Ef; [|by intros w Hw].
  assert (Htool : calm_tool tool).
  { apply find_some in Ef as [Hin _]. unfold calm_tools in Ht. rewrite List.Forall_forall in Ht. by apply Ht. }
  destruct (if bool_decide _ then _ else _) as [e|]; [by intros w Hw|].
  apply triple_catch with (X := fun _ => Inv); [|intros e; by intros w Hw]. unfold prepare_checked.
  eapply triple_bind with (Q := fun _ => Inv); [apply safe_pure|]. intros args.
  eapply triple_bind; [by apply run_before_prepared|]. intros [p|] w [Hp Hw]; [by split|]. revert w Hw.
  eapply triple_bind; [apply safe_read_env|]. intros b. apply triple_ret. intros w Hw. split; [by destruct b|done].
Qed.

Lemma safe_report call report rejected : calm report -> safe (report_update sink call report rejected).
Proof. intros Hr. unfold report_update. apply safe_bind; [by apply safe_ask|]. intros r. safe_tac. Qed.

Lemma safe_settle settle rejected : calm settle -> safe (settle_call (Env := Env) settle rejected).
Proof. intros Hs. unfold settle_call. apply safe_catch; [|intros; apply safe_ret]. apply safe_bind; [by apply safe_call|]. intros. safe_tac. Qed.

Lemma safe_run_proc call proc rejected : calm_proc proc -> safe (run_proc sink call proc rejected).
Proof.
  revert rejected. induction proc as [settle|report rest IH]; intros rejected Hp; simpl; [by apply safe_settle|].
  destruct Hp as [Hr Hrest]. intros w Hw. unfold bind. pose proof (safe_report call report rejected Hr w Hw) as H1.
  destruct (report_update sink call report rejected w) as [[r|e] w1]; [|done]. by apply IH.
Qed.

Lemma safe_finalize ctx am call args effect executed config : calm_config config ->
  safe (finalizeExecutedToolCall ctx am call args effect executed config).
Proof.
  intros Hc. unfold finalizeExecutedToolCall, run_after. pose proof (cc_after config Hc) as Ha.
  apply safe_bind; [|intros [r b]; apply safe_ret]. destruct (cf_afterToolCall config) as [f|]; [|apply safe_ret].
  apply safe_catch; [|intros; apply safe_ret]. apply safe_bind; [apply safe_call, Ha|]. intros. safe_tac.
Qed.

Section Batch.
Context (ctx : AgentContext Env) (am : AssistantMessage) (config : AgentLoopConfig Env).
Context (Hctx : calm_tools (cx_tools ctx)) (Hconfig : calm_config config).

Lemma safe_run_call call : safe (run_call validateToolArguments sink aborted ctx am config call).
Proof using Type*.
  unfold run_call. eapply safe_bind_with; [by apply safe_prepare|]. intros [call' tool args effect|r b] Hp; [|apply safe_ret].
  apply safe_bind; [apply safe_run_proc, Hp|]. intros. by apply safe_finalize.
Qed.

Lemma safe_sequential calls : safe (sequential_calls validateToolArguments sink aborted now ctx am config calls).
Proof using Type*.
  induction calls as [|call calls IH]; simpl; [apply safe_ret|].
  apply safe_bind; [apply safe_emit|]. intros []. apply safe_bind; [apply safe_run_call|]. intros fz.
  unfold emitToolExecutionEnd, createToolResultMessage, emitToolResultMessage, emit_message. safe_tac. exact IH.
Qed.

Definition calm_task (t : task (Env := Env)) : Prop :=
  match t with TRunning _ _ _ proc _ => calm_proc proc | _ => True end.

Lemma safe_step_task t : calm_task t -> safe_with (step_task sink ctx am config t) calm_task.
Proof using Type*.
  intros Ht. destruct t as [call args effect [settle|report rest] rejected|call args effect executed|fz|fz]; simpl in *.
  - eapply triple_bind; [by apply safe_settle|]. intros. by apply triple_ret.
  - destruct Ht as [Hr Hrest]. intros w Hw. unfold bind. pose proof (safe_report call report rejected Hr w Hw) as H1.
    destruct (report_update sink call report rejected w) as [[r|e] w1]; [|done]. simpl. by split.
  - eapply triple_bind; [by apply safe_finalize|]. intros. by apply triple_ret.
  - eapply triple_bind; [apply safe_emit|]. intros. by apply triple_ret.
  - by apply triple_ret.
Qed.

Lemma safe_drain_task t : calm_task t -> safe (drain_task sink ctx am config t).
Proof using Type*.
  intros Ht. assert (Hfin : forall fz, safe (do* emitToolExecutionEnd sink fz in ret fz)) by (intros; unfold emitToolExecutionEnd; safe_tac).
  destruct t as [call args effect proc rejected|call args effect executed|fz|fz]; simpl; [| |apply Hfin|apply safe_ret].
  - apply safe_bind; [by apply safe_run_proc|]. intros. apply safe_bind; [by apply safe_finalize|]. intros. apply Hfin.
  - apply safe_bind; [by apply safe_finalize|]. intros. apply Hfin.
Qed.

Lemma safe_entries calls : safe_with (parallel_entries validateToolArguments sink aborted ctx am config calls) (Forall calm_task).
Proof using Type*.
  induction calls as [|call calls IH]; simpl; [by apply triple_ret|].
  eapply triple_bind; [apply safe_emit|]. intros [].
  eapply triple_bind with (Q := fun t w => calm_task t /\ Inv w).
  { unfold prepare_entry. eapply triple_bind; [by apply safe_prepare|].
    intros [call' tool args effect|r b] w [Hp Hw]; revert w Hw.
    - apply triple_ret. intros w Hw. split; [apply Hp|done].
    - eapply triple_bind; [apply safe_emit|]. intros []. by apply triple_ret. }
  intros t w [Ht Hw]. revert w Hw. eapply triple_bind; [apply safe_read_env|]. intros [].
  - apply triple_ret. intros w Hw. split; [by repeat constructor|done].
  - eapply triple_bind; [exact IH|]. intros ts. apply triple_ret. intros w [Hts Hw]. split; [by constructor|done].
Qed.

Lemma safe_schedule order tasks : Forall calm_task tasks -> safe_with (run_schedule sink ctx am config order tasks) (Forall calm_task).
Proof using Type*.
  revert tasks. induction order as [|i order IH]; intros tasks Ht; simpl; [by apply triple_ret|].
  destruct (tasks !! i) as [t|] eqn:Ei; [|by apply IH].
  eapply triple_bind; [apply safe_step_task; by eapply Forall_lookup_1|]. intros t' w [Ht' Hw].
  apply IH; [|done]. by apply Forall_insert.
Qed.

Lemma safe_executeToolCalls : safe (executeToolCalls validateToolArguments sink aborted now schedule ctx am config).
Proof using Type*.
  unfold executeToolCalls. match goal with |- safe (if ?b then _ else _) => destruct b end.
  - unfold executeToolCallsSequential. apply safe_bind; [apply safe_sequential|]. intros. apply safe_ret.
  - unfold executeToolCallsParallel. eapply safe_bind_with; [apply safe_entries|]. intros entries He.
    apply safe_bind; [apply safe_read_env|]. intros order. eapply safe_bind_with; [by apply safe_schedule|]. intros tasks Ht.
    apply safe_bind.
    { induction Ht as [|t tasks Hx Ht IH]; simpl; [apply safe_ret|]. apply safe_bind; [by apply safe_drain_task|]. intros.
      apply safe_bind; [exact IH|]. intros. apply safe_ret. }
    intros fs. apply safe_bind; [|intros; apply safe_ret].
    induction fs as [|fz fs IH]; simpl; [apply safe_ret|].
    unfold createToolResultMessage, emitToolResultMessage, emit_message. safe_tac. exact IH.
Qed.
End Batch.

(** ** Streaming *)

Lemma safe_prepare_request retries attempt config maxTokens : calm_config config ->
  safe (prepare_request retries attempt config maxTokens).
Proof.
  intros Hc. revert attempt maxTokens. induction retries as [|retries IH]; intros attempt maxTokens; simpl;
    (apply safe_bind; [apply safe_read|]; intros ctx;
     apply safe_bind; [pose proof (cc_transform config Hc) as Ht;
       destruct (cf_transformContext config) as [f|]; [apply safe_call, Ht|apply safe_ret]|]; intros ms;
     apply safe_bind; [apply safe_call, cc_convert, Hc|]; intros llm;
     apply safe_bind_with with (Q := fun p => forall p' c, p = Some p' -> pm_retryContext p' = Some c -> calm_tools (cx_tools c));
     [pose proof (cc_prepareModelCall config Hc) as Hp; destruct (cf_prepareModelCall config) as [f|]; simpl;
        [apply safe_call_with; [apply Hp|]; intros env p env' E p' c -> Hr; by eapply (proj2 (Hp _ _ _ _))
        |by apply triple_ret]|]; intros p Hp).
  - destruct (p ≫= pm_retryContext) as [c|] eqn:Ec; [apply safe_throw|apply safe_ret].
  - destruct (p ≫= pm_retryContext) as [c|] eqn:Ec; [|apply safe_ret].
    apply safe_bind; [|intros; apply IH]. destruct p as [p|]; [|done]. apply safe_set_context. by eapply Hp.
Qed.

Lemma safe_forward ev m v : safe (forward_event sink ev m v).
Proof. unfold forward_event. safe_tac. Qed.

Lemma safe_stream_event ev v : safe (stream_event sink now ev v).
Proof.
  destruct ev; simpl; try apply safe_forward; try apply safe_ret.
  - safe_tac.
  - apply safe_bind; [unfold report_prefill; safe_tac|]. intros. apply safe_forward.
  - apply safe_bind; [unfold report_generation; safe_tac|]. intros. apply safe_forward.
  - apply safe_bind; [apply safe_replace_last|]. intros [].
    apply safe_bind; [unfold report_cold; safe_tac|]. intros. safe_tac.
Qed.

Lemma safe_recover m tools : safe (recoverMisplacedToolCalls number_text now m tools).
Proof.
  apply (recover_built number_text now (fun A c => safe c)); intros.
  - apply safe_ret.
  - apply (safe_pure (fun _ => r)).
  - by apply safe_bind.
  - apply safe_ask, calm_now.
Qed.

Lemma safe_finish_response result v : calm result -> safe (finish_response validateToolArguments sink now number_text result v).
Proof.
  intros Hr. unfold finish_response, normalizeAssistantToolCalls. apply safe_bind; [by apply safe_call|]. intros raw.
  apply safe_bind; [apply safe_read|]. intros tools. apply safe_bind.
  { apply safe_bind; [apply safe_recover|]. intros. apply safe_ret. }
  intros m. safe_tac.
Qed.

Lemma safe_consume events result v : calm_events events -> calm result ->
  safe (consume validateToolArguments sink now number_text events result v).
Proof.
  intros He Hr. revert v. induction events as [|pull rest IH]; intros v; simpl; [by apply safe_finish_response|].
  destruct He as [Hp Hrest]. intros w Hw. unfold bind at 1. pose proof (safe_ask pull Hp w Hw) as H1.
  destruct (ask_env pull w) as [[ev|e] w1]; [|done]. destruct (is_final_event ev); [by apply safe_finish_response|].
  refine (safe_bind _ _ (safe_stream_event ev v) _ w1 H1). intros v'. by apply IH.
Qed.

Lemma safe_stream config : calm_config config ->
  safe (streamAssistantResponse validateToolArguments sink now streamFn number_text config).
Proof.
  intros Hc. unfold streamAssistantResponse. apply safe_bind; [by apply safe_prepare_request|]. intros [llm mx].
  apply safe_bind; [eapply safe_opt; [apply cc_getApiKey, Hc|]; intros f Hf; apply Hf|]. intros key.
  apply safe_bind; [apply safe_emit|]. intros [].
  eapply safe_bind_with; [apply safe_call_with; [apply calm_stream|]; intros env r env' E; exact (calm_response _ _ _ _ _ _ E)|].
  intros r [He Hr]. by apply safe_consume.
Qed.

(** ** Turns *)

Lemma safe_push_all ms : safe (for_each ms (emit_and_push sink)).
Proof. unfold emit_and_push, emit_message. safe_tac. Qed.

Lemma safe_agent_end : safe (emit_agent_end sink).
Proof. unfold emit_agent_end. safe_tac. Qed.

Lemma safe_failure config mode ev d started : safe (emitProtocolFailure sink now config mode ev d started).
Proof. unfold emitProtocolFailure, createTerminalAssistantMessage, push_terminal, emit_message, emit_agent_end. safe_tac. Qed.

Lemma safe_aborted_turn config d : safe (emitAbortedTurn sink now config d).
Proof. unfold emitAbortedTurn, createTerminalAssistantMessage, push_terminal, emit_message, emit_agent_end. safe_tac. Qed.

Lemma safe_repair_message text reason : safe (createProtocolRepairMessage now text reason).
Proof. unfold createProtocolRepairMessage. safe_tac. Qed.

Lemma safe_length message calls repair limits config mode :
  safe (prepareProviderLengthContinuation sink now message calls repair limits config mode).
Proof.
  unfold prepareProviderLengthContinuation. apply safe_bind.
  - destruct repair as [r|]; [|apply safe_ret]. case_if; [|apply safe_ret]. unfold recordSemanticProviderLengthRepair.
    apply safe_bind; [apply safe_update|]. intros []. apply safe_bind; [apply safe_read|]. intros s.
    match goal with |- safe (if ?b then _ else _) => destruct b end; apply safe_bind; try (intros []; apply safe_ret);
      [apply safe_failure|apply safe_emit].
  - intros [|]; [|apply safe_ret]. unfold handleProviderLengthResponse. case_if; [|apply safe_ret].
    unfold createProviderLengthContinuationMessage, emit_and_push, emit_message. safe_tac.
Qed.

Lemma safe_waiting batch limits mode : safe (recordWaitingTurn sink now batch limits mode).
Proof. unfold recordWaitingTurn, createProtocolRepairMessage, emit_and_push, emit_message. safe_tac. Qed.

Lemma safe_apply mode message config limits rs batch more :
  safe (apply_protocol sink now mode message config limits rs batch more).
Proof.
  unfold apply_protocol. case_if; [unfold emit_agent_end; safe_tac|].
  apply safe_bind; [apply safe_update|]. intros []. apply safe_bind; [apply safe_read|]. intros s.
  destruct (protocolLimitDiagnostic _ _ _ _); [apply safe_bind; [apply safe_failure|]; intros; apply safe_ret|].
  match goal with |- safe (match ?r with _ => _ end) => destruct r end; [|apply safe_ret].
  case_if; [safe_tac|]. unfold createProtocolRepairMessage, emit_and_push, emit_message. safe_tac.
Qed.

Lemma safe_next_turn message rs config : calm_config config ->
  safe_with (prepareAgentNextTurn sink message rs config) calm_config.
Proof.
  intros Hc. unfold prepareAgentNextTurn. pose proof (cc_prepareNextTurn config Hc) as Hp.
  destruct (cf_prepareNextTurn config) as [f|] eqn:Ef; [|by apply triple_ret].
  do 2 (eapply triple_bind; [apply safe_read|]; intros ?).
  eapply triple_bind; [apply (safe_call_with _ (fun u => forall u' c, u = Some u' -> tu_context u' = Some c -> calm_tools (cx_tools c)));
    [apply Hp|intros env u env' E u' c -> Hu; by eapply (proj2 (Hp _))]|].
  intros u w [Hu Hw]. revert w Hw. destruct u as [u|]; [|by apply triple_ret].
  eapply triple_bind.
  { destruct (tu_context u) as [c|] eqn:Ec; [apply safe_set_context; by eapply Hu|apply safe_ret]. }
  intros []. eapply triple_bind; [apply safe_push_all|]. intros []. apply triple_ret. intros w Hw. split; [|done].
  destruct Hc. constructor; done.
Qed.

(** A turn leaves a calm configuration for the next. *)
Definition calm_outcome (o : turn_outcome (Env := Env)) : Prop :=
  match o with Return => True | Continue c _ _ _ => calm_config c end.

Lemma safe_end_turn mode message config rs d implicitTurn more : calm_config config ->
  safe_with (end_turn sink aborted now mode message config rs d implicitTurn more) calm_outcome.
Proof.
  intros Hc. unfold end_turn. eapply triple_bind; [by apply safe_next_turn|]. intros c w [Hc' Hw]. revert w Hw.
  eapply triple_bind; [apply safe_read_env|]. intros [].
  { eapply triple_bind; [apply safe_aborted_turn|]. intros []. by apply triple_ret. }
  do 3 (eapply triple_bind; [apply safe_read|]; intros ?).
  eapply triple_bind with (Q := fun _ => Inv).
  { match goal with |- triple _ (if ?b then _ else _) _ _ => destruct b end; [|apply safe_ret].
    eapply safe_opt; [apply cc_shouldStop, Hc'|]. intros f Hf. apply Hf. }
  intros []; [eapply triple_bind; [apply safe_agent_end|]; intros []; by apply triple_ret|].
  eapply triple_bind; [apply safe_opt_plain, cc_steering, Hc'|]. intros pending. by apply triple_ret.
Qed.

Lemma safe_after_turn mode message config limits batch implicitTurn : calm_config config ->
  safe_with (after_turn sink aborted now mode message config limits batch implicitTurn) calm_outcome.
Proof.
  intros Hc. unfold after_turn. eapply triple_bind; [apply safe_emit|]. intros []. eapply triple_bind; [apply safe_length|].
  assert (Hcont : forall d, safe_with (continue_turn sink aborted now mode message config limits batch implicitTurn d) calm_outcome).
  { intros d. unfold continue_turn. eapply triple_bind; [apply safe_waiting|]. intros b. eapply triple_bind; [apply safe_read|]. intros s.
    eapply triple_bind with (Q := fun _ => Inv).
    { match goal with |- triple _ (if ?b then _ else _) _ _ => destruct b end; [apply safe_apply|apply safe_ret]. }
    intros [more|]; [by apply safe_end_turn|by apply triple_ret]. }
  assert (Hfin : safe_with (finish_batch sink mode batch) calm_outcome).
  { unfold finish_batch. eapply triple_bind with (Q := fun _ => Inv); [change (safe (match batch ≫= eb_completion with
      Some _ => if isCompletionProtocolEnabled mode then emit sink (completion_protocol mode verified_completion_called None None None) else ret tt
      | None => ret tt end)); safe_tac|].
    intros []. eapply triple_bind; [apply safe_agent_end|]. intros []. by apply triple_ret. }
  intros [| |]; [| |by apply triple_ret];
    (match goal with |- triple _ (if ?b then _ else _) _ _ => destruct b end; [exact Hfin|apply Hcont]).
Qed.

Lemma safe_execute_turn_tools mode message config : calm_config config ->
  safe (execute_turn_tools validateToolArguments sink aborted now schedule mode message config).
Proof.
  intros Hc. unfold execute_turn_tools. case_if; [|apply safe_ret]. eapply safe_bind_with; [apply read_context|]. intros ctx Hctx.
  apply safe_bind; [by apply safe_executeToolCalls|]. intros b. safe_tac.
Qed.

Lemma safe_respond mode message config : calm_config config ->
  safe_with (respond validateToolArguments sink aborted now schedule mode message config) calm_outcome.
Proof.
  intros Hc. unfold respond. case_if.
  - eapply triple_bind; [apply safe_emit|]. intros []. eapply triple_bind; [apply safe_agent_end|]. intros []. by apply triple_ret.
  - eapply triple_bind with (Q := fun _ => Inv).
    { unfold acceptsImplicitCompletion. case_if; [|apply safe_ret]. pose proof (cc_allow config Hc) as Ha.
      destruct (cf_allowImplicitCompletion config) as [f|]; [|apply safe_ret].
      apply safe_bind; [apply safe_read|]. intros s. apply safe_ask, Ha. }
    intros b. eapply triple_bind; [by apply safe_execute_turn_tools|]. intros batch. by apply safe_after_turn.
Qed.

Lemma protocol_tools_calm mode c : calm_tools (cx_tools c) -> calm_tools (cx_tools (withCompletionProtocolTools c mode)).
Proof.
  intros Hc. unfold withCompletionProtocolTools. case_if; [|done]. unfold calm_tools in *. simpl. apply Forall_app. split.
  - apply List.Forall_forall. intros t [Ht _]%filter_In. rewrite List.Forall_forall in Hc. by apply Hc.
  - constructor; [|done]. intros id args. apply calm_pure.
Qed.

Lemma safe_protocol_tools mode : safe (modify (fun w => set_context (withCompletionProtocolTools (lw_context w) mode) w)).
Proof. intros w [HI Ht]. split; [done|]. by apply protocol_tools_calm. Qed.

Lemma safe_begin_turn firstTurn config mode pending : safe (begin_turn sink now firstTurn config mode pending).
Proof.
  unfold begin_turn. apply safe_bind; [safe_tac|]. intros []. apply safe_bind; [apply safe_push_all|]. intros [].
  apply safe_bind; [unfold resolveTurnCompletionMode; safe_tac|]. intros mode'.
  apply safe_bind; [apply safe_protocol_tools|]. intros []. apply safe_bind; [apply safe_read|]. intros s.
  case_if; [|apply safe_ret]. apply safe_bind; [apply safe_failure|]. intros. apply safe_ret.
Qed.

Lemma safe_run_turn firstTurn config mode pending : calm_config config ->
  safe_with (run_turn validateToolArguments sink aborted now schedule streamFn number_text firstTurn config mode pending) calm_outcome.
Proof.
  intros Hc. unfold run_turn. eapply triple_bind; [apply safe_begin_turn|]. intros [mode'|]; [|by apply triple_ret].
  eapply triple_bind; [by apply safe_stream|]. intros message. eapply triple_bind; [apply safe_new_push|]. intros [].
  eapply triple_bind with (Q := fun _ => Inv); [case_if; [apply safe_ret|apply safe_update]|]. intros []. by apply safe_respond.
Qed.

Lemma safe_turn_loop fuel firstTurn config mode more pending : calm_config config ->
  safe (turn_loop validateToolArguments sink aborted now schedule streamFn number_text fuel firstTurn config mode more pending).
Proof.
  revert firstTurn config mode more pending. induction fuel as [|fuel IH]; intros firstTurn config mode more pending Hc; simpl; [apply safe_ret|].
  case_if.
  - eapply safe_bind_with; [by apply safe_run_turn|]. intros [|c m b p] Ho; [apply safe_ret|by apply IH].
  - apply safe_bind; [apply safe_opt_plain, cc_followUp, Hc|]. intros followUp. case_if; [|by apply IH].
    apply safe_bind; [apply safe_agent_end|]. intros. apply safe_ret.
Qed.

Lemma safe_runLoop fuel config : calm_config config ->
  safe (runLoop validateToolArguments sink aborted now schedule streamFn number_text fuel config).
Proof.
  intros Hc. unfold runLoop. apply safe_bind.
  { intros w [HI Ht]. split; [done|]. by apply protocol_tools_calm. }
  intros []. apply safe_bind; [apply safe_opt_plain, cc_steering, Hc|]. intros pending.
  apply safe_bind; [case_if; [apply safe_emit|apply safe_ret]|]. intros []. by apply safe_turn_loop.
Qed.

(** Runs maintain the invariant, from the empty trace on. *)
Lemma runAgentLoop_maintains fuel prompts context config env : calm_config config -> calm_tools (cx_tools context) -> I [] env ->
  let w := (runAgentLoop validateToolArguments sink aborted now schedule streamFn number_text fuel prompts context config env).2 in
  I (lw_trace w) (lw_env w).
Proof.
  intros Hc Ht HI.
  assert (H : safe (do* emit sink agent_start in do* emit sink turn_start in do* for_each prompts (emit_message sink) in
    runLoop validateToolArguments sink aborted now schedule streamFn number_text fuel config)).
  { do 2 (apply safe_bind; [apply safe_emit|]; intros []). apply safe_bind; [unfold emit_message; safe_tac|]. intros []. by apply safe_runLoop. }
  specialize (H (start_world (push_context prompts context) prompts env) (conj HI Ht)). unfold runAgentLoop.
  destruct (bind _ _ _) as [[o|e] w]; apply H.
Qed.

Lemma runAgentLoopContinue_maintains fuel context config env : calm_config config -> calm_tools (cx_tools context) -> I [] env ->
  let w := (runAgentLoopContinue validateToolArguments sink aborted now schedule streamFn number_text fuel context config env).2 in
  I (lw_trace w) (lw_env w).
Proof.
  intros Hc Ht HI.
  assert (H : safe (do* emit sink agent_start in do* emit sink turn_start in
    runLoop validateToolArguments sink aborted now schedule streamFn number_text fuel config)).
  { do 2 (apply safe_bind; [apply safe_emit|]; intros []). by apply safe_runLoop. }
  specialize (H (start_world context [] env) (conj HI Ht)). unfold runAgentLoopContinue.
  destruct (last (cx_messages context)) as [[]|]; try exact HI; destruct (bind _ _ _) as [[o|e] w]; apply H.
Qed.
End Invariant.
