(* ===== verification/Agent.v ===== *)
(** The stateful agent ([packages/agent/src/agent]): the transcript and run
    state it keeps, its queues, the reduction of loop events to that state, and the
    life cycle of a run.  The environment of the loop is the agent itself: the event
    sink is [processEvents] and the message hooks drain the agent's queues. *)
From S2P Require Import Prelude JsString Json Effects Messages Protocol LoopTypes Queue ToolBatch Recovery AgentLoop.

Section Agent.
(** Everything else in the process. *)
Context {U : Type}.

(** [MutableAgentState] and the fields of [Agent] that change during a run.
    [ag_activeRun] holds the aborted flag of the run's abort controller;
    [ag_skipInitialSteeringPoll] is the variable captured by the loop
    configuration of the current run. *)
Record Agent := mkAgent {
  ag_systemPrompt : jsstr;
  ag_model : Model;
  ag_thinkingLevel : jsstr;
  ag_messages : list AgentMessage;
  ag_isStreaming : bool;
  ag_streamingMessage : option AgentMessage;
  ag_pendingToolCalls : gset jsstr;
  ag_errorMessage : option jsstr;
  ag_steeringQueue : PendingMessageQueue;
  ag_followUpQueue : PendingMessageQueue;
  ag_activeRun : option bool;
  ag_skipInitialSteeringPoll : bool;
  ag_outside : U;
}.

(** [agent/constants.ts] and the constructor. *)
Definition DEFAULT_MODEL : Model :=
  mkModel (js "unknown") (js "unknown") (js "unknown") (js "unknown") [] false 0 0.

(** The optional [initialState]; the tools are in [AgentParts] below. *)
Record initial_state := mkInitial {
  in_systemPrompt : option jsstr; in_model : option Model; in_thinkingLevel : option jsstr; in_messages : option (list AgentMessage);
}.

Definition new_Agent (i : initial_state) (steeringMode followUpMode : option QueueMode) (outside : U) : Agent :=
  mkAgent (default [] (in_systemPrompt i)) (default DEFAULT_MODEL (in_model i)) (default (js "off") (in_thinkingLevel i))
    (default [] (in_messages i)) false None ∅ None
    (new_PendingMessageQueue (default one_at_a_time steeringMode)) (new_PendingMessageQueue (default one_at_a_time followUpMode))
    None false outside.

(** The default conversion keeps the messages a provider accepts. *)
Definition defaultConvertToLlm (messages : list AgentMessage) : list Message :=
  omap (fun m => match m with
                 | MUser u => Some (LUser u)
                 | MAssistant a => Some (LAssistant a)
                 | MToolResult r => Some (LToolResult r)
                 | _ => None
                 end) messages.

(** The part of the state that events and runs determine. *)
Definition with_run_state (a : Agent) (messages : list AgentMessage) (isStreaming : bool) (streaming : option AgentMessage)
    (pending : gset jsstr) (errorMessage : option jsstr) (activeRun : option bool) : Agent :=
  mkAgent (ag_systemPrompt a) (ag_model a) (ag_thinkingLevel a) messages isStreaming streaming pending errorMessage
    (ag_steeringQueue a) (ag_followUpQueue a) activeRun (ag_skipInitialSteeringPoll a) (ag_outside a).

Definition with_queues (a : Agent) (steering followUp : PendingMessageQueue) (skip : bool) : Agent :=
  mkAgent (ag_systemPrompt a) (ag_model a) (ag_thinkingLevel a) (ag_messages a) (ag_isStreaming a) (ag_streamingMessage a)
    (ag_pendingToolCalls a) (ag_errorMessage a) steering followUp (ag_activeRun a) skip (ag_outside a).

(** ** Queues and interruption *)

(** A message or a group of messages. *)
Inductive queued_input := QMessage (m : AgentMessage) | QGroup (ms : list AgentMessage).

Definition submit (i : queued_input) (q : PendingMessageQueue) : PendingMessageQueue :=
  match i with QMessage m => enqueue m q | QGroup ms => enqueueGroup ms q end.

Definition do_steer (i : queued_input) (a : Agent) : Agent :=
  with_queues a (submit i (ag_steeringQueue a)) (ag_followUpQueue a) (ag_skipInitialSteeringPoll a).
Definition do_followUp (i : queued_input) (a : Agent) : Agent :=
  with_queues a (ag_steeringQueue a) (submit i (ag_followUpQueue a)) (ag_skipInitialSteeringPoll a).
Definition do_clearSteeringQueue (a : Agent) : Agent :=
  with_queues a (clear (ag_steeringQueue a)) (ag_followUpQueue a) (ag_skipInitialSteeringPoll a).
Definition do_clearFollowUpQueue (a : Agent) : Agent :=
  with_queues a (ag_steeringQueue a) (clear (ag_followUpQueue a)) (ag_skipInitialSteeringPoll a).
Definition do_clearAllQueues (a : Agent) : Agent := do_clearFollowUpQueue (do_clearSteeringQueue a).
Definition do_hasQueuedMessages (a : Agent) : bool := hasItems (ag_steeringQueue a) || hasItems (ag_followUpQueue a).

Definition do_abort (a : Agent) : Agent :=
  with_run_state a (ag_messages a) (ag_isStreaming a) (ag_streamingMessage a) (ag_pendingToolCalls a) (ag_errorMessage a)
    (match ag_activeRun a with Some _ => Some true | None => None end).

Definition do_reset (a : Agent) : Agent :=
  do_clearSteeringQueue (do_clearFollowUpQueue (with_run_state a [] false None ∅ None (ag_activeRun a))).

(** [signal.aborted] of the active run. *)
Definition signal_aborted (a : Agent) : bool := default false (ag_activeRun a).

(** ** Events *)

(** The [switch] of [processEvents]. *)
Definition reduce_event (ev : AgentEvent) (a : Agent) : Agent :=
  let set messages streaming pending error :=
    with_run_state a messages (ag_isStreaming a) streaming pending error (ag_activeRun a) in
  let messages := ag_messages a in
  let streaming := ag_streamingMessage a in
  let pending := ag_pendingToolCalls a in
  let error := ag_errorMessage a in
  match ev with
  | message_start m => set messages (Some m) pending error
  | message_update m _ => set messages (MAssistant <$> m) pending error
  | message_end m => set (messages ++ [m]) None pending error
  | tool_execution_start id _ _ _ => set messages streaming ({[id]} ∪ pending) error
  | tool_execution_end id _ _ _ _ => set messages streaming (pending ∖ {[id]}) error
  | turn_end m _ =>
      set messages streaming pending (match am_errorMessage m with Some (c :: s) => Some (c :: s) | _ => error end)
  | agent_end _ => set messages None pending error
  | _ => a
  end.

(** The listeners, in the order of subscription; the first that rejects rejects
    the event. *)
Fixpoint notify (listeners : list (AgentEvent -> hook Agent unit)) (ev : AgentEvent) : hook Agent unit := fun a =>
  match listeners with
  | [] => (Ok tt, a)
  | listener :: rest =>
      match listener ev a with
      | (Ok tt, a') => notify rest ev a'
      | (Throw e, a') => (Throw e, a')
      end
  end.

Definition do_processEvents (listeners : list (AgentEvent -> hook Agent unit)) (ev : AgentEvent) : hook Agent unit := fun a =>
  let a := reduce_event ev a in
  match ag_activeRun a with
  | None => (Throw (js "Agent listener invoked outside active run"), a)
  | Some _ => notify listeners ev a
  end.

(** ** Runs *)

(** The options an agent is built with, its tools and its listeners. *)
Record AgentParts := mkParts {
  ap_tools : list (AgentTool Agent);
  ap_listeners : list (AgentEvent -> hook Agent unit);
  ap_convertToLlm : list AgentMessage -> hook Agent (list Message);
  ap_transformContext : option (list AgentMessage -> hook Agent (list AgentMessage));
  ap_getApiKey : option (jsstr -> hook Agent (option jsstr));
  ap_beforeToolCall : option (AssistantMessage -> ToolCall -> json -> ResolvedToolEffect -> AgentContext Agent -> hook Agent (option BeforeToolCallResult));
  ap_afterToolCall : option (AssistantMessage -> ToolCall -> json -> ResolvedToolEffect -> AgentToolResult -> bool -> AgentContext Agent -> hook Agent (option AfterToolCallResult));
  ap_prepareNextTurn : option (turn_info Agent -> hook Agent (option (AgentLoopTurnUpdate Agent)));
  ap_prepareModelCall : option (LlmContext Agent -> Model -> option Z -> Z -> hook Agent (option (PrepareModelCallResult Agent)));
  ap_maxTokens : option Z;
  ap_toolExecution : ToolExecutionMode;
  ap_completionMode : CompletionMode;
  ap_completionLimits : option CompletionLimitOptions;
  ap_allowImplicitCompletion : option (Z -> Agent -> bool * Agent);
}.

Context (parts : AgentParts).
Context (validateToolArguments : AgentTool Agent -> ToolCall -> result jsstr json).
Context (now : Agent -> Z * Agent) (schedule : Agent -> list nat).
Context (streamFn : Model -> LlmContext Agent -> StreamOptions -> hook Agent (response Agent)).
Context (number_text : jsstr -> jsstr).

Local Abbreviation sink := (do_processEvents (ap_listeners parts)).

Definition getSteeringMessages : hook Agent (list AgentMessage) := fun a =>
  if ag_skipInitialSteeringPoll a then (Ok [], with_queues a (ag_steeringQueue a) (ag_followUpQueue a) false)
  else let '(ms, q) := drain (ag_steeringQueue a) in (Ok ms, with_queues a q (ag_followUpQueue a) false).

Definition getFollowUpMessages : hook Agent (list AgentMessage) := fun a =>
  let '(ms, q) := drain (ag_followUpQueue a) in (Ok ms, with_queues a (ag_steeringQueue a) q (ag_skipInitialSteeringPoll a)).

(** The configuration; [skip_poll] below sets its captured variable. *)
Definition do_createLoopConfig (a : Agent) : AgentLoopConfig Agent :=
  mkConfig (ag_model a) (if bool_decide (ag_thinkingLevel a = js "off") then None else Some (ag_thinkingLevel a))
    None (ap_maxTokens parts) (Some (ap_completionMode parts)) (ap_completionLimits parts) (Some (ap_toolExecution parts))
    (ap_allowImplicitCompletion parts) (ap_convertToLlm parts) (ap_transformContext parts) (ap_prepareModelCall parts)
    (ap_getApiKey parts) None (ap_prepareNextTurn parts) (Some getSteeringMessages) (Some getFollowUpMessages)
    (ap_beforeToolCall parts) (ap_afterToolCall parts).

Definition skip_poll (skip : bool) (a : Agent) : Agent := with_queues a (ag_steeringQueue a) (ag_followUpQueue a) skip.

Definition do_createContextSnapshot (a : Agent) : AgentContext Agent :=
  mkContext (ag_systemPrompt a) (ag_messages a) (Some (ap_tools parts)).

(** The start and the end of a run. *)
Definition begin_run (a : Agent) : Agent :=
  with_run_state a (ag_messages a) true None (ag_pendingToolCalls a) None (Some false).
Definition do_finishRun (a : Agent) : Agent :=
  with_run_state a (ag_messages a) false None ∅ (ag_errorMessage a) None.

Definition failure_message (a : Agent) (error : jsstr) (aborted : bool) (timestamp : Z) : AssistantMessage :=
  mkAssistant [AText [] None] (md_api (ag_model a)) (md_provider (ag_model a)) (md_id (ag_model a)) None None None EMPTY_USAGE
    (if aborted then StopAborted else StopError) (Some error) timestamp.

(** Events one after the other, until one is rejected. *)
Fixpoint process_all (evs : list AgentEvent) : hook Agent unit := fun a =>
  match evs with
  | [] => (Ok tt, a)
  | ev :: evs' =>
      match sink ev a with
      | (Ok tt, a') => process_all evs' a'
      | (Throw e, a') => (Throw e, a')
      end
  end.

Definition do_handleRunFailure (error : jsstr) (aborted : bool) : hook Agent unit := fun a =>
  let '(timestamp, a') := now a in
  let m := failure_message a error aborted timestamp in
  process_all [message_start (MAssistant m); message_end (MAssistant m); turn_end m []; agent_end [MAssistant m]] a'.

(** A run that has not ended within its fuel leaves the agent running. *)
Definition do_runWithLifecycle (executor : Agent -> result jsstr loop_exit * Agent) (a : Agent) : result jsstr loop_exit * Agent :=
  match ag_activeRun a with
  | Some _ => (Throw (js "Agent is already processing."), a)
  | None =>
      match executor (begin_run a) with
      | (Ok OutOfFuel, a') => (Ok OutOfFuel, a')
      | (Ok Finished, a') => (Ok Finished, do_finishRun a')
      | (Throw error, a') =>
          match do_handleRunFailure error (signal_aborted a') a' with
          | (Ok _, a'') => (Ok Finished, do_finishRun a'')
          | (Throw e, a'') => (Throw e, do_finishRun a'')
          end
      end
  end.

Definition prompt_run (fuel : nat) (skip : bool) (messages : list AgentMessage) (a : Agent) : result jsstr loop_exit * loop_world Agent :=
  runAgentLoop validateToolArguments sink signal_aborted now schedule streamFn number_text fuel messages
    (do_createContextSnapshot a) (do_createLoopConfig a) (skip_poll skip a).

Definition do_runPromptMessages (fuel : nat) (messages : list AgentMessage) (skip : bool) (a : Agent) : result jsstr loop_exit * Agent :=
  do_runWithLifecycle (fun a => let '(r, w) := prompt_run fuel skip messages a in (r, lw_env w)) a.

Definition continuation_run (fuel : nat) (a : Agent) : result jsstr loop_exit * loop_world Agent :=
  runAgentLoopContinue validateToolArguments sink signal_aborted now schedule streamFn number_text fuel
    (do_createContextSnapshot a) (do_createLoopConfig a) (skip_poll false a).

Definition do_runContinuation (fuel : nat) (a : Agent) : result jsstr loop_exit * Agent :=
  do_runWithLifecycle (fun a => let '(r, w) := continuation_run fuel a in (r, lw_env w)) a.

(** The input of [prompt]: messages, or a text with images. *)
Inductive prompt_input := PMessages (ms : list AgentMessage) | PText (text : jsstr) (images : list content_block).

Definition do_normalizePromptInput (input : prompt_input) (a : Agent) : list AgentMessage * Agent :=
  match input with
  | PMessages ms => (ms, a)
  | PText text images =>
      let '(timestamp, a) := now a in ([MUser (mkUser (RBlocks (CText text None :: images)) None timestamp)], a)
  end.

Definition do_prompt (fuel : nat) (input : prompt_input) (a : Agent) : result jsstr loop_exit * Agent :=
  match ag_activeRun a with
  | Some _ =>
      (Throw (js "Agent is already processing a prompt. Use steer() or followUp() to queue messages, or wait for completion."), a)
  | None => let '(messages, a) := do_normalizePromptInput input a in do_runPromptMessages fuel messages false a
  end.

Definition do_continue (fuel : nat) (a : Agent) : result jsstr loop_exit * Agent :=
  match ag_activeRun a with
  | Some _ => (Throw (js "Agent is already processing. Wait for completion before continuing."), a)
  | None =>
      match last (ag_messages a) with
      | None => (Throw (js "No messages to continue from"), a)
      | Some (MAssistant _) =>
          let '(queuedSteering, q) := drain (ag_steeringQueue a) in
          let a := with_queues a q (ag_followUpQueue a) (ag_skipInitialSteeringPoll a) in
          if negb (is_empty queuedSteering) then do_runPromptMessages fuel queuedSteering true a
          else
            let '(queuedFollowUps, q) := drain (ag_followUpQueue a) in
            let a := with_queues a (ag_steeringQueue a) q (ag_skipInitialSteeringPoll a) in
            if negb (is_empty queuedFollowUps) then do_runPromptMessages fuel queuedFollowUps false a
            else (Throw (js "Cannot continue from message role: assistant"), a)
      | Some _ => do_runContinuation fuel a
      end
  end.
End Agent.

Arguments Agent : clear implicits.
Arguments AgentParts : clear implicits.
