(* ===== verification/LoopTrace.v ===== *)
(** The protocol of agent events as a monitor over traces, and the proof that
    the parts of the loop respect it: which events may follow which, that tool
    executions are bracketed, and that the transcript is what was announced. *)
From S2P Require Import Prelude JsString Json Effects Messages Protocol LoopTypes ToolBatch Recovery AgentLoop.
#[local] Open Scope eff.

(** ** The monitor *)

(** Where a listener stands: before the run, between turns, inside a turn
    (its last assistant message, the tool results announced after it and the tool
    executions under way), inside a message, after the run. *)
Record turn_progress := mkTurn { tp_last : option AssistantMessage; tp_results : list ToolResultMessage }.

Inductive phase :=
  | PStart
  | PRun
  | PTurn (t : turn_progress) (running : list (jsstr * jsstr))
  | PMessage (turn : option turn_progress)
  | PEnd.

(** Remove the first occurrence. *)
Fixpoint remove_one (x : jsstr * jsstr) (l : list (jsstr * jsstr)) : option (list (jsstr * jsstr)) :=
  match l with
  | [] => None
  | y :: l' => if bool_decide (y = x) then Some l' else cons y <$> remove_one x l'
  end.

(** May the execution start: does the turn's response ask for it, and was the
    response complete? *)
Definition may_start (t : turn_progress) (id name : jsstr) : bool :=
  match tp_last t with
  | Some m =>
      negb (isProviderLengthResponse m)
      && existsb (fun c => bool_decide (tc_id c = id) && bool_decide (tc_name c = name)) (tool_calls m)
  | None => false
  end.

(** After a complete message, outside or inside a turn. *)
Definition after_message (turn : option turn_progress) (m : AgentMessage) : phase :=
  match turn with
  | None => PRun
  | Some t =>
      match m with
      | MAssistant a => PTurn (mkTurn (Some a) []) []
      | MToolResult r => PTurn (mkTurn (tp_last t) (tp_results t ++ [r])) []
      | _ => PTurn t []
      end
  end.

Definition phase_step (p : phase) (ev : AgentEvent) : option phase :=
  match p, ev with
  | PStart, agent_start => Some PRun
  | PRun, turn_start => Some (PTurn (mkTurn None []) [])
  | PRun, message_start _ => Some (PMessage None)
  | PRun, completion_protocol _ _ _ _ _ => Some PRun
  | PRun, agent_end _ => Some PEnd
  | PTurn t [], message_start _ => Some (PMessage (Some t))
  | PTurn t [], request_start _ => Some (PTurn t [])
  | PTurn t [], completion_protocol _ _ _ _ _ => Some (PTurn t [])
  | PTurn t [], turn_end m results =>
      if bool_decide (tp_last t = Some m) && bool_decide (tp_results t = results) then Some PRun else None
  | PTurn t running, tool_execution_start id name _ _ =>
      if may_start t id name then Some (PTurn t ((id, name) :: running)) else None
  | PTurn t running, tool_execution_update id name _ _ =>
      if bool_decide ((id, name) ∈ running) then Some (PTurn t running) else None
  | PTurn t running, tool_execution_end id name _ _ _ => PTurn t <$> remove_one (id, name) running
  | PMessage turn, message_update _ _ => Some (PMessage turn)
  | PMessage turn, message_end m => Some (after_message turn m)
  | _, _ => None
  end.

Fixpoint monitor (p : phase) (tr : list AgentEvent) : option phase :=
  match tr with
  | [] => Some p
  | ev :: tr' => phase_step p ev ≫= fun p' => monitor p' tr'
  end.

Lemma monitor_app p tr tr' : monitor p (tr ++ tr') = monitor p tr ≫= fun q => monitor q tr'.
Proof. revert p. induction tr as [|ev tr IH]; intros p; simpl; [done|]. destruct (phase_step p ev); simpl; auto. Qed.

Lemma monitor_snoc p tr ev q : monitor p tr = Some q -> monitor p (tr ++ [ev]) = phase_step q ev.
Proof. intros H. rewrite monitor_app, H. simpl. by destruct (phase_step q ev). Qed.

(** The messages announced as complete. *)
Definition ended (tr : list AgentEvent) : list AgentMessage :=
  flat_map (fun ev => match ev with message_end m => [m] | _ => [] end) tr.

Lemma ended_app tr tr' : ended (tr ++ tr') = ended tr ++ ended tr'.
Proof. apply flat_map_app. Qed.

Section Trace.
Context {Env : Type}.

(** The invariant of the loop: the trace is in phase [p]; the messages
    announced are the ones in [newMessages], but for those announced and not yet
    appended ([owed]) or appended and not yet announced ([ahead]). *)
Definition at_phase (p : phase) (owed ahead : list AgentMessage) (w : loop_world Env) : Prop :=
  monitor PStart (lw_trace w) = Some p /\ ended (lw_trace w) ++ ahead = lw_new w ++ owed.

(** Computations that emit nothing, append nothing and leave the counters,
    whether they return or throw. *)
Definition same_run (w w' : loop_world Env) : Prop :=
  lw_trace w' = lw_trace w /\ lw_new w' = lw_new w /\ lw_state w' = lw_state w.

Definition quiet {A} (c : ML Env A) : Prop := forall w, same_run w (c w).2.

Lemma same_run_trans w1 w2 w3 : same_run w1 w2 -> same_run w2 w3 -> same_run w1 w3.
Proof. unfold same_run. naive_solver congruence. Qed.

Lemma quiet_ret {A} (a : A) : quiet (ret a).
Proof. by intros w. Qed.
Lemma quiet_throw {A} e : quiet (A := A) (throw e).
Proof. by intros w. Qed.
Lemma quiet_bind {A B} (c : ML Env A) (k : A -> ML Env B) : quiet c -> (forall a, quiet (k a)) -> quiet (bind c k).
Proof.
  intros Hc Hk w. unfold bind. specialize (Hc w). destruct (c w) as [[a|e] w1]; [|done].
  eapply same_run_trans; [exact Hc|apply Hk].
Qed.
Lemma quiet_catch {A} (c : ML Env A) h : quiet c -> (forall e, quiet (h e)) -> quiet (catch c h).
Proof.
  intros Hc Hh w. unfold catch. specialize (Hc w). destruct (c w) as [[a|e] w1]; [done|].
  eapply same_run_trans; [exact Hc|apply Hh].
Qed.
Lemma quiet_call_hook {A} (h : hook Env A) : quiet (call_hook h).
Proof. intros w. unfold call_hook. by destruct (h (lw_env w)) as [[a|e] env]. Qed.
Lemma quiet_ask_env {A} (f : Env -> A * Env) : quiet (ask_env f).
Proof. apply quiet_call_hook. Qed.
Lemma quiet_read_env {A} (f : Env -> A) : quiet (read_env f).
Proof. by intros w. Qed.
Lemma quiet_read {A} (f : loop_world Env -> A) : quiet (read f).
Proof. by intros w. Qed.
Lemma quiet_pure {A} (r : result jsstr A) : quiet (fun w => (r, w)).
Proof. by intros w. Qed.
Lemma quiet_context_push m : quiet (context_push (Env := Env) m).
Proof. by intros w. Qed.
Lemma quiet_set_context (f : loop_world Env -> AgentContext Env) : quiet (modify (fun w => set_context (f w) w)).
Proof. by intros w. Qed.
Lemma quiet_opt_hook {A} (h : option (hook Env A)) a : quiet (opt_hook h a).
Proof. destruct h; [apply quiet_call_hook|apply quiet_ret]. Qed.

Lemma same_run_phase p o a w w' : same_run w w' -> at_phase p o a w -> at_phase p o a w'.
Proof. intros (Ht & Hn & _) [H1 H2]. unfold at_phase. by rewrite Ht, Hn. Qed.

Lemma quiet_phase {A} (c : ML Env A) p o a : quiet c -> triple (at_phase p o a) c (fun _ => at_phase p o a) any.
Proof.
  intros Hc w Hw. specialize (Hc w). destruct (c w) as [[x|e] w']; [|done]. by eapply same_run_phase.
Qed.

Lemma update_state_phase f p o a : triple (at_phase p o a) (update_state (Env := Env) f) (fun _ => at_phase p o a) any.
Proof. intros w Hw. exact Hw. Qed.

(** ** Emitting and appending *)

Context (sink : AgentEvent -> hook Env unit).

Lemma emit_spec ev (w : loop_world Env) :
  lw_trace (emit sink ev w).2 = lw_trace w ++ [ev] /\ lw_new (emit sink ev w).2 = lw_new w /\
  lw_state (emit sink ev w).2 = lw_state w.
Proof. unfold emit, bind, modify, call_hook. simpl. by destruct (sink ev (lw_env w)) as [[[]|e] env]. Qed.

(** The event is recorded even when a listener throws. *)
Lemma emit_phase_always ev p q o a w : phase_step p ev = Some q -> (forall m, ev <> message_end m) ->
  at_phase p o a w -> at_phase q o a (emit sink ev w).2.
Proof.
  intros Hs Hne [H1 H2]. destruct (emit_spec ev w) as (Ht & Hn & _). unfold at_phase.
  rewrite Ht, Hn, (monitor_snoc _ _ _ p), ended_app by done.
  split; [done|]. assert (ended [ev] = []) as -> by (destruct ev; naive_solver). by rewrite app_nil_r.
Qed.

Lemma emit_phase ev p q o a : phase_step p ev = Some q -> (forall m, ev <> message_end m) ->
  triple (at_phase p o a) (emit sink ev) (fun _ => at_phase q o a) any.
Proof.
  intros Hs Hne w Hw. pose proof (emit_phase_always ev p q o a w Hs Hne Hw) as H.
  by destruct (emit sink ev w) as [[[]|e] w'].
Qed.

Lemma emit_end_owed m turn o :
  triple (at_phase (PMessage turn) o []) (emit sink (message_end m)) (fun _ => at_phase (after_message turn m) (o ++ [m]) []) any.
Proof.
  intros w [H1 H2]. pose proof (emit_spec (message_end m) w) as H. destruct (emit sink _ w) as [[[]|e] w']; [|done].
  destruct H as (Ht & Hn & _). simpl in Ht, Hn. unfold at_phase. rewrite Ht, Hn, (monitor_snoc _ _ _ (PMessage turn)), ended_app by done.
  split; [done|]. rewrite app_nil_r in *. simpl. by rewrite H2, app_assoc.
Qed.

Lemma emit_end_ahead m turn a :
  triple (at_phase (PMessage turn) [] (m :: a)) (emit sink (message_end m)) (fun _ => at_phase (after_message turn m) [] a) any.
Proof.
  intros w [H1 H2]. pose proof (emit_spec (message_end m) w) as H. destruct (emit sink _ w) as [[[]|e] w']; [|done].
  destruct H as (Ht & Hn & _). simpl in Ht, Hn. unfold at_phase. rewrite Ht, Hn, (monitor_snoc _ _ _ (PMessage turn)), ended_app by done.
  split; [done|]. simpl. by rewrite <- app_assoc.
Qed.

Lemma new_push_owed m p o : triple (at_phase p (m :: o) []) (new_push m) (fun _ => at_phase p o []) any.
Proof. intros w [H1 H2]. split; [done|]. simpl in *. rewrite app_nil_r in *. by rewrite <- app_assoc. Qed.

Lemma new_push_ahead m p a : triple (at_phase p [] a) (new_push m) (fun _ => at_phase p [] (a ++ [m])) any.
Proof. intros w [H1 H2]. split; [done|]. simpl in *. rewrite app_nil_r in *. by rewrite app_assoc, H2. Qed.

(** Inside a turn with nothing running, or between turns. *)
Definition opened (turn : option turn_progress) : phase :=
  match turn with Some t => PTurn t [] | None => PRun end.

Lemma message_start_phase turn m o a :
  triple (at_phase (opened turn) o a) (emit sink (message_start m)) (fun _ => at_phase (PMessage turn) o a) any.
Proof. apply emit_phase; [by destruct turn|done]. Qed.

Lemma emit_message_owed turn m o :
  triple (at_phase (opened turn) o []) (emit_message sink m) (fun _ => at_phase (after_message turn m) (o ++ [m]) []) any.
Proof. eapply triple_bind; [apply message_start_phase|]. intros []. apply emit_end_owed. Qed.

Lemma emit_message_ahead turn m a :
  triple (at_phase (opened turn) [] (m :: a)) (emit_message sink m) (fun _ => at_phase (after_message turn m) [] a) any.
Proof. eapply triple_bind; [apply message_start_phase|]. intros []. apply emit_end_ahead. Qed.

Lemma emit_and_push_phase turn m :
  triple (at_phase (opened turn) [] []) (emit_and_push sink m) (fun _ => at_phase (after_message turn m) [] []) any.
Proof.
  eapply triple_bind; [apply emit_message_owed|]. intros [].
  eapply triple_bind; [apply quiet_phase, quiet_context_push|]. intros []. apply new_push_owed.
Qed.

(** In a turn the last message may change; between turns nothing does. *)
Lemma after_message_opened turn m : exists turn', after_message turn m = opened turn' /\ (turn = None <-> turn' = None).
Proof. destruct turn as [t|]; [|by exists None]. destruct m; by eexists (Some _). Qed.

Lemma for_each_push turn ms :
  triple (at_phase (opened turn) [] []) (for_each ms (emit_and_push sink))
    (fun _ w => exists turn', at_phase (opened turn') [] [] w /\ (turn = None <-> turn' = None)) any.
Proof.
  revert turn. induction ms as [|m ms IH]; intros turn.
  - apply triple_ret. intros w Hw. by exists turn.
  - simpl. eapply triple_bind; [apply emit_and_push_phase|]. intros [].
    destruct (after_message_opened turn m) as (turn' & -> & Hiff). eapply triple_post; [apply IH|].
    intros [] w (t & Ht & Hiff'). exists t. split; [done|]. by rewrite Hiff.
Qed.
End Trace.

#[export] Hint Resolve quiet_ret quiet_throw quiet_bind quiet_call_hook quiet_ask_env quiet_read_env quiet_read
  quiet_context_push quiet_set_context quiet_opt_hook quiet_catch quiet_pure : agent.
