(* ===== verification/EventStream.v ===== *)
(** The asynchronous event stream ([packages/ai/src/utils/event-stream.ts]):
    producers push events and end the stream, any number of consumers iterate
    over it, and one promise holds the final result. *)
From S2P Require Import Prelude.

Section Stream.
Context {T R : Type}.

(** The consumers suspended on a promise are named by numbers, in the order in
    which they wait; [None] is a final result not resolved yet. *)
Record EventStream := mkStream {
  es_queue : list T;
  es_waiting : list nat;
  es_done : bool;
  es_final : option R;
}.

Definition new_EventStream : EventStream := mkStream [] [] false None.

(** What a resumed consumer receives: an event, or the end of the iteration. *)
Definition delivery : Type := nat * option T.

(** The first resolution of a promise is the one that counts. *)
Definition resolve (p : option R) (r : R) : option R := match p with Some _ => p | None => Some r end.

Context (isComplete : T -> bool) (extractResult : T -> R).

Definition push (event : T) (s : EventStream) : list delivery * EventStream :=
  if es_done s then ([], s)
  else
    let complete := isComplete event in
    let final := if complete then resolve (es_final s) (extractResult event) else es_final s in
    match es_waiting s with
    | waiter :: waiting => ([(waiter, Some event)], mkStream (es_queue s) waiting complete final)
    | [] => ([], mkStream (es_queue s ++ [event]) [] complete final)
    end.

Definition end_ (result : option R) (s : EventStream) : list delivery * EventStream :=
  (map (fun waiter => (waiter, None)) (es_waiting s),
   mkStream (es_queue s) [] true (match result with Some r => resolve (es_final s) r | None => es_final s end)).

(** One iteration of the generator of consumer [c]: it yields, returns, or
    suspends on a new promise.  A generator that is suspended cannot be resumed. *)
Definition next (c : nat) (s : EventStream) : list delivery * EventStream :=
  if bool_decide (c ∈ es_waiting s) then ([], s)
  else
    match es_queue s with
    | event :: queue => ([(c, Some event)], mkStream queue (es_waiting s) (es_done s) (es_final s))
    | [] =>
        if es_done s then ([(c, None)], s)
        else ([], mkStream [] (es_waiting s ++ [c]) false (es_final s))
    end.

(** Any interleaving of the calls. *)
Inductive op := Push (event : T) | End (result : option R) | Next (consumer : nat).

Definition apply_op (o : op) : EventStream -> list delivery * EventStream :=
  match o with Push event => push event | End result => end_ result | Next c => next c end.

Fixpoint exec (ops : list op) (s : EventStream) : list delivery * EventStream :=
  match ops with
  | [] => ([], s)
  | o :: ops' => let '(out, s1) := apply_op o s in let '(out', s2) := exec ops' s1 in (out ++ out', s2)
  end.

(** ** What the stream promises *)

(** The events accepted: those pushed up to the first complete one or to the
    end. *)
Fixpoint accepted (ops : list op) : list T :=
  match ops with
  | [] => []
  | Push event :: ops' => event :: (if isComplete event then [] else accepted ops')
  | End _ :: _ => []
  | Next _ :: ops' => accepted ops'
  end.

(** Closed by a complete event or by [end]. *)
Definition closes (o : op) : bool := match o with Push event => isComplete event | End _ => true | Next _ => false end.
Definition closed (ops : list op) : bool := existsb closes ops.

(** The final result: that of the complete event if one was accepted, otherwise
    the first one given to [end]. *)
Definition end_results (ops : list op) : list R := omap (fun o => match o with End r => r | _ => None end) ops.
Fixpoint final_result (ops : list op) : option R :=
  match ops with
  | [] => None
  | Push event :: ops' => if isComplete event then Some (extractResult event) else final_result ops'
  | End result :: ops' => head (end_results (End result :: ops'))
  | Next _ :: ops' => final_result ops'
  end.

Definition values (out : list delivery) : list T := omap snd out.

Lemma values_app out out' : values (out ++ out') = values out ++ values out'.
Proof. apply omap_app. Qed.

Lemma values_ends (l : list nat) : values (map (fun w => (w, None)) l) = [].
Proof. induction l; [done|]. by rewrite map_cons. Qed.

Lemma values_some c q : values (map (fun x => (c, Some x)) q) = q.
Proof. induction q as [|x q IH]; [done|]. change (x :: values (map (fun x => (c, Some x)) q) = x :: q). by rewrite IH. Qed.

Lemma exec_app ops ops' s :
  exec (ops ++ ops') s = let '(out, s1) := exec ops s in let '(out', s2) := exec ops' s1 in (out ++ out', s2).
Proof.
  revert s. induction ops as [|o ops IH]; intros s; simpl; [by destruct (exec ops' s)|].
  destruct (apply_op o s) as [out s1]. rewrite IH. destruct (exec ops s1) as [out1 s2].
  destruct (exec ops' s2) as [out2 s3]. by rewrite app_assoc.
Qed.

(** A waiting consumer means an empty queue, and an unresolved result before the end. *)
Definition stream_ok (s : EventStream) : Prop :=
  (es_waiting s <> [] -> es_queue s = []) /\ (es_done s = false -> es_final s = None).

Lemma apply_op_ok o s : stream_ok s -> stream_ok (apply_op o s).2.
Proof.
  intros [Hw Hf]. destruct o as [x|r|c]; simpl.
  - unfold push. destruct (es_done s) eqn:Ed; [split; [done|simpl; congruence]|].
    destruct (es_waiting s) as [|w ws] eqn:Ew; simpl.
    + split; [done|]. simpl. intros ->. auto.
    + split; simpl; [intros _; by apply Hw|]. intros ->. auto.
  - by split.
  - unfold next. case_bool_decide; [by split|]. destruct (es_queue s) as [|x q] eqn:Eq.
    + destruct (es_done s) eqn:Ed; [split; [done|simpl; congruence]|]. split; [done|]. simpl. auto.
    + split; simpl; [intros Hne; by specialize (Hw Hne)|auto].
Qed.

(** After the end nothing is accepted, and only [end] can still resolve the result. *)
Lemma exec_done ops s : es_done s = true ->
  let '(out, s') := exec ops s in
  values out ++ es_queue s' = es_queue s /\ es_done s' = true /\
  es_final s' = match es_final s with Some r => Some r | None => head (end_results ops) end.
Proof.
  revert s. induction ops as [|o ops IH]; intros s Hd; simpl; [by destruct (es_final s)|].
  destruct (apply_op o s) as [out1 s1] eqn:E1.
  assert (H1 : es_done s1 = true /\ values out1 ++ es_queue s1 = es_queue s /\
    es_final s1 = match o with End (Some r) => resolve (es_final s) r | _ => es_final s end).
  { destruct o as [x|r|c]; simpl in E1.
    - unfold push in E1. rewrite Hd in E1. by injection E1 as <- <-.
    - injection E1 as <- <-. simpl. rewrite values_ends. by destruct r.
    - unfold next in E1. case_bool_decide; [by injection E1 as <- <-|].
      rewrite Hd in E1. destruct (es_queue s) eqn:Eq; injection E1 as <- <-; [by rewrite Eq|done]. }
  destruct H1 as (Hd1 & Hv1 & Hf1). specialize (IH s1 Hd1). destruct (exec ops s1) as [out2 s2].
  destruct IH as (Hv & Hd2 & Hf). rewrite values_app, <- app_assoc, Hv. split; [done|]. split; [done|].
  rewrite Hf, Hf1. unfold end_results. destruct o as [x|[r|]|c]; simpl; destruct (es_final s); done.
Qed.

Lemma exec_open ops s : stream_ok s -> es_done s = false ->
  let '(out, s') := exec ops s in
  values out ++ es_queue s' = es_queue s ++ accepted ops /\ es_done s' = closed ops /\ es_final s' = final_result ops.
Proof.
  revert s. induction ops as [|o ops IH]; intros s Hok Hd; simpl.
  { rewrite app_nil_r. split; [done|]. split; [done|]. by apply Hok. }
  pose proof (apply_op_ok o s Hok) as Hok1. pose proof Hok as [Hw Hf].
  destruct o as [x|r|c]; simpl in *.
  - unfold push in *. rewrite Hd in *. destruct (isComplete x) eqn:Ec.
    + destruct (es_waiting s) as [|w ws] eqn:Ew.
      * pose proof (exec_done ops (mkStream (es_queue s ++ [x]) [] true (resolve (es_final s) (extractResult x))) eq_refl) as H.
        destruct (exec ops _) as [out2 s2]. destruct H as (Hv & Hd2 & Hf2). simpl in *. rewrite Hf in Hf2 by done. done.
      * pose proof (exec_done ops (mkStream (es_queue s) ws true (resolve (es_final s) (extractResult x))) eq_refl) as H.
        destruct (exec ops _) as [out2 s2]. destruct H as (Hv & Hd2 & Hf2). simpl in *. rewrite Hf in Hf2 by done.
        rewrite Hw in * by done. unfold values in *. simpl. by rewrite Hv.
    + destruct (es_waiting s) as [|w ws] eqn:Ew.
      * specialize (IH _ Hok1 eq_refl). destruct (exec ops _) as [out2 s2]. simpl in *. by rewrite <- app_assoc in IH.
      * specialize (IH _ Hok1 eq_refl). destruct (exec ops _) as [out2 s2]. simpl in *. rewrite Hw in * by done.
        unfold values in *. simpl. destruct IH as (-> & IH). done.
  - pose proof (exec_done ops (end_ r s).2 eq_refl) as H. simpl in H. destruct (exec ops _) as [out2 s2].
    destruct H as (Hv & Hd2 & Hf2). rewrite values_app, values_ends, app_nil_r. split; [done|]. split; [done|].
    rewrite Hf2. rewrite Hf by done. by destruct r.
  - unfold next in *. case_bool_decide.
    { specialize (IH s Hok Hd). by destruct (exec ops s). }
    rewrite Hd in *. destruct (es_queue s) as [|x q] eqn:Eq.
    + specialize (IH _ Hok1 eq_refl). by destruct (exec ops _).
    + specialize (IH _ Hok1 eq_refl). destruct (exec ops _) as [out2 s2]. simpl in *. unfold values in *. simpl.
      destruct IH as (-> & IH). done.
Qed.

(** No consumer is told the end of a stream that was not closed. *)
Lemma exec_unclosed ops s : closed ops = false -> es_done s = false -> forall c, (c, None) ∉ (exec ops s).1.
Proof.
  unfold closed. revert s. induction ops as [|o ops IH]; intros s Hcl Hd c; simpl in *; [set_solver|].
  apply orb_false_iff in Hcl as [Ho Hcl].
  assert (H1 : es_done (apply_op o s).2 = false /\ (c, None) ∉ (apply_op o s).1).
  { destruct o as [x|r|d]; simpl in *; [|done|].
    - unfold push. rewrite Hd. destruct (es_waiting s); simpl; (split; [done|set_solver]).
    - unfold next. case_bool_decide; [split; [done|set_solver]|]. rewrite Hd.
      destruct (es_queue s); simpl; (split; [done|set_solver]). }
  destruct H1 as [Hd1 Hn]. specialize (IH (apply_op o s).2 Hcl Hd1 c). destruct (apply_op o s) as [out1 s1]. simpl in *.
  destruct (exec ops s1) as [out2 s2]. simpl in *. set_solver.
Qed.

Lemma new_ok : stream_ok new_EventStream.
Proof. by split. Qed.

(** A single consumer is never left waiting after the end. *)
Definition only (c : nat) (o : op) : Prop := match o with Next d => d = c | _ => True end.

Lemma exec_single c ops s : Forall (only c) ops -> stream_ok s ->
  (es_waiting s = [] \/ (es_waiting s = [c] /\ es_done s = false)) ->
  let s' := (exec ops s).2 in es_waiting s' = [] \/ (es_waiting s' = [c] /\ es_done s' = false).
Proof.
  intros Hall. revert s. induction Hall as [|o ops Ho Hall IH]; intros s Hok Hs; simpl; [done|].
  assert (H1 : let s1 := (apply_op o s).2 in es_waiting s1 = [] \/ (es_waiting s1 = [c] /\ es_done s1 = false)).
  { destruct o as [x|r|d]; simpl in *; [| by left |subst d].
    - unfold push. destruct (es_done s) eqn:Ed; [simpl; rewrite Ed; done|].
      destruct Hs as [->|[-> _]]; by left.
    - unfold next. case_bool_decide as Hin; [done|]. destruct (es_queue s) as [|x q]; [|by destruct Hs; [left|right]].
      destruct (es_done s) eqn:Ed; [simpl; rewrite Ed; done|].
      destruct Hs as [Hs|[Hs _]]; rewrite Hs in *; [by right|set_solver]. }
  specialize (IH (apply_op o s).2 (apply_op_ok o s Hok) H1).
  destruct (apply_op o s) as [out1 s1]. simpl in *. by destruct (exec ops s1).
Qed.

(** A consumer that pulls from a closed stream receives the rest, then the end. *)
Lemma pull_rest c s : es_done s = true -> c ∉ es_waiting s ->
  (exec (replicate (Datatypes.S (length (es_queue s))) (Next c)) s).1
  = map (fun x => (c, Some x)) (es_queue s) ++ [(c, None)].
Proof.
  intros Hd Hc. remember (es_queue s) as q eqn:Eq. revert s Hd Hc Eq. induction q as [|x q IH]; intros s Hd Hc Eq.
  - simpl. unfold next. rewrite bool_decide_eq_false_2, <- Eq, Hd by done. done.
  - change (length (x :: q)) with (Datatypes.S (length q)). 
    change (replicate (Datatypes.S (Datatypes.S (length q))) (Next c)) with (Next c :: replicate (Datatypes.S (length q)) (Next c)).
    assert (Hn : next c s = ([(c, Some x)], mkStream q (es_waiting s) (es_done s) (es_final s)))
      by (unfold next; rewrite bool_decide_eq_false_2, <- Eq by done; done).
    cbn [exec apply_op]. rewrite Hn.
    specialize (IH (mkStream q (es_waiting s) (es_done s) (es_final s)) Hd Hc eq_refl).
    destruct (exec _ _) as [out s2]. simpl in *. by rewrite IH.
Qed.

(** Whatever the interleaving of producers and consumers, the events
    handed out followed by the events still queued are exactly the accepted ones in
    order, each handed out once; the stream is done exactly when it was closed; and
    the result is that of the complete event, or else the first one given to
    [end]. *)
Theorem stream_delivers ops :
  let '(out, s) := exec ops new_EventStream in
  values out ++ es_queue s = accepted ops /\ es_done s = closed ops /\ es_final s = final_result ops.
Proof. exact (exec_open ops new_EventStream new_ok eq_refl). Qed.

(** A consumer alone on the stream that pulls once more than there are events
    gets all of them and is then told the end. *)
Lemma single_consumer c ops : Forall (only c) ops -> closed ops = true ->
  exists k, let '(out, _) := exec (ops ++ replicate k (Next c)) new_EventStream in
    values out = accepted ops /\ last out = Some (c, None).
Proof.
  intros Hall Hcl. pose proof (exec_open ops new_EventStream new_ok eq_refl) as H.
  pose proof (exec_single c ops new_EventStream Hall new_ok (or_introl eq_refl)) as Hw.
  destruct (exec ops new_EventStream) as [out s] eqn:E. simpl in Hw. destruct H as (Hv & Hd & _).
  rewrite Hcl in Hd. exists (Datatypes.S (length (es_queue s))). rewrite exec_app, E.
  pose proof (pull_rest c s Hd ltac:(destruct Hw as [->|[_ ?]]; [set_solver|congruence])) as Hp.
  destruct (exec (replicate _ _) s) as [out' s']. simpl in Hp. subst out'.
  rewrite !app_assoc, last_snoc, !values_app. split; [|done].
  rewrite values_some. unfold values at 2. simpl. by rewrite app_nil_r.
Qed.
End Stream.
