(* ===== verification/ToolProps.v ===== *)
(** Theorems about tool batches: the events of a batch follow the protocol
    whatever the interleaving, and the results come back in the order of the
    calls. *)
From S2P Require Import Prelude JsString Json Effects Messages Protocol LoopTypes ToolBatch Recovery AgentLoop LoopTrace.
#[local] Open Scope eff.

Definition call_key (c : ToolCall) : jsstr * jsstr := (tc_id c, tc_name c).

(** A result message answers a call. *)
Definition answers_call (c : ToolCall) (m : ToolResultMessage) : Prop :=
  tr_toolCallId m = tc_id c /\ tr_toolName m = tc_name c.

Lemma remove_one_elem x l : x ∈ l -> exists l', remove_one x l = Some l' /\ l ≡ₚ x :: l'.
Proof.
  induction l as [|y l IH]; [set_solver|]. intros Hx. simpl. destruct (decide (y = x)) as [->|Hne].
  - rewrite bool_decide_eq_true_2 by done. by exists l.
  - rewrite bool_decide_eq_false_2 by done. destruct IH as (l' & -> & Hp); [set_solver|].
    exists (y :: l'). split; [done|]. rewrite Hp. constructor.
Qed.

Section Batches.
Context {Env : Type}.
Context (validateToolArguments : AgentTool Env -> ToolCall -> result jsstr json).
Context (sink : AgentEvent -> hook Env unit) (aborted : Env -> bool) (now : Env -> Z * Env)
  (schedule : Env -> list nat).
Context (ctx : AgentContext Env) (am : AssistantMessage) (config : AgentLoopConfig Env).

(** ** One call *)

Lemma prepareToolCall_quiet call : quiet (prepareToolCall validateToolArguments aborted ctx am call config).
Proof.
  unfold prepareToolCall. destruct (find_tool _ _) as [tool|]; [|apply quiet_ret].
  destruct (if bool_decide _ then _ else _); [apply quiet_ret|].
  apply quiet_catch; [|intros; apply quiet_ret]. unfold prepare_checked.
  apply quiet_bind; [apply quiet_pure|]. intros args. apply quiet_bind.
  - unfold run_before. destruct (cf_beforeToolCall config); eauto 10 with agent.
  - intros [o|]; eauto with agent.
Qed.

(** What preparation returns is about the call it was given. *)
(** An outcome a hook imposes is never an execution. *)
Lemma run_before_immediate call args effect w o w' :
  run_before aborted ctx am call args effect config w = (Ok (Some o), w') -> exists m, o = immediate_error m.
Proof.
  unfold run_before. destruct (cf_beforeToolCall config) as [before|]; [|done]. unfold bind.
  destruct (call_hook _ w) as [[r|e] w1]; [|done]. unfold read_env, ret. destruct (aborted _).
  - intros [= <- _]. by eexists.
  - destruct r as [r|]; [|done]. destruct (default false _); [|done]. intros [= <- _]. by eexists.
Qed.

Lemma prepareToolCall_call call w call' tool args effect w' :
  prepareToolCall validateToolArguments aborted ctx am call config w = (Ok (Prepared call' tool args effect), w') -> call' = call.
Proof.
  unfold prepareToolCall. destruct (find_tool _ _) as [t|]; [|done]. destruct (if bool_decide _ then _ else _); [done|].
  unfold catch. destruct (prepare_checked _ _ _ _ _ _ _ w) as [[o|e] w1] eqn:E; [|done].
  intros [= -> ->]. revert E. unfold prepare_checked, bind. destruct (prepare_and_validate _ _ _); [|done].
  destruct (run_before _ _ _ _ _ _ _ w) as [[[o|]|e] w2] eqn:Eb; [| |done].
  { apply run_before_immediate in Eb as [m ->]. done. }
  unfold read_env. destruct (aborted _); [done|]. unfold ret. congruence.
Qed.

Lemma report_update_phase call report rejected t running o a : call_key call ∈ running ->
  triple (at_phase (PTurn t running) o a) (report_update sink call report rejected)
    (fun _ => at_phase (PTurn t running) o a) any.
Proof.
  intros Hin w Hw. unfold report_update, bind.
  pose proof (quiet_ask_env report w) as Hq. destruct (ask_env report w) as [[r|e] w1]; [|done].
  apply (same_run_phase _ _ _ _ _ Hq) in Hw. cbn [snd] in Hw. unfold catch.
  set (ev := tool_execution_update _ _ _ r).
  assert (Hs : phase_step (PTurn t running) ev = Some (PTurn t running)).
  { unfold ev. simpl. unfold call_key in Hin. destruct running; rewrite bool_decide_eq_true_2 by done; done. }
  pose proof (emit_phase_always sink ev _ _ o a w1 Hs ltac:(done) Hw) as He.
  by destruct (emit sink ev w1) as [[[]|e] w2].
Qed.

Lemma settle_call_quiet settle rejected : quiet (settle_call (Env := Env) settle rejected).
Proof.
  unfold settle_call. apply quiet_catch; [|intros; apply quiet_ret].
  apply quiet_bind; [apply quiet_call_hook|]. intros r. destruct rejected; auto with agent.
Qed.

Lemma run_proc_phase call proc rejected t running o a : call_key call ∈ running ->
  triple (at_phase (PTurn t running) o a) (run_proc sink call proc rejected)
    (fun _ => at_phase (PTurn t running) o a) any.
Proof.
  intros Hin. revert rejected. induction proc as [settle|report rest IH]; intros rejected; simpl.
  - apply quiet_phase, settle_call_quiet.
  - intros w Hw. revert w Hw. intros w.
    apply (triple_bind (report_update sink call report rejected)
             (fun r => run_proc sink call (rest (lw_env w)) r) _ _ _ _
             (report_update_phase _ _ _ _ _ _ _ Hin) (fun r => IH _ r) w).
Qed.

Lemma finalize_quiet call args effect executed : quiet (finalizeExecutedToolCall ctx am call args effect executed config).
Proof.
  unfold finalizeExecutedToolCall. apply quiet_bind.
  - unfold run_after. destruct (cf_afterToolCall config); [|apply quiet_ret]. apply quiet_catch; [|intros; apply quiet_ret]. eauto with agent.
  - intros []. apply quiet_ret.
Qed.

Lemma finalize_call call args effect executed w f w' :
  finalizeExecutedToolCall ctx am call args effect executed config w = (Ok f, w') -> fz_toolCall f = call.
Proof.
  unfold finalizeExecutedToolCall, bind.
  destruct (run_after _ _ _ _ _ _ _ _ w) as [[[r' b']|e] w1]; [|done].
  intros [= <- _]. done.
Qed.

(** Finalization keeps the phase and the call. *)
Lemma finalize_phase call args effect executed p o a :
  triple (at_phase p o a) (finalizeExecutedToolCall ctx am call args effect executed config)
    (fun f w => fz_toolCall f = call /\ at_phase p o a w) any.
Proof.
  intros w Hw. pose proof (finalize_quiet call args effect executed w) as Hq.
  pose proof (finalize_call call args effect executed w) as Hc.
  destruct (finalizeExecutedToolCall _ _ _ _ _ _ _ w) as [[f|e] w']; [|done].
  split; [by eapply Hc|by eapply same_run_phase].
Qed.

Lemma emit_end_phase f t running o a : call_key (fz_toolCall f) ∈ running ->
  triple (at_phase (PTurn t running) o a) (emitToolExecutionEnd sink f)
    (fun _ w => exists running', at_phase (PTurn t running') o a w /\ running ≡ₚ call_key (fz_toolCall f) :: running') any.
Proof.
  intros Hin. destruct (remove_one_elem _ _ Hin) as (running' & Hr & Hp).
  eapply triple_post; [eapply emit_phase; [|done]|].
  - unfold call_key in Hr. simpl. destruct running; rewrite Hr; done.
  - intros [] w Hw. by exists running'.
Qed.

Lemma emit_start_phase call t running o a : may_start t (tc_id call) (tc_name call) = true ->
  triple (at_phase (PTurn t running) o a) (emit_tool_start sink ctx call)
    (fun _ => at_phase (PTurn t (call_key call :: running)) o a) any.
Proof. intros H. apply emit_phase; [|done]. simpl. destruct running; by rewrite H. Qed.

(** A result message: its text is announced and appended to the turn. *)
Definition add_results (t : turn_progress) (rs : list ToolResultMessage) : turn_progress :=
  mkTurn (tp_last t) (tp_results t ++ rs).

Lemma result_message_phase f t o :
  triple (at_phase (PTurn t []) o []) (createToolResultMessage now f)
    (fun m w => answers_call (fz_toolCall f) m /\ at_phase (PTurn t []) o [] w) any.
Proof.
  intros w Hw. unfold createToolResultMessage, bind. pose proof (quiet_ask_env now w) as Hq.
  destruct (ask_env now w) as [[ts|e] w1]; [|done]. simpl. split; [done|]. by eapply same_run_phase.
Qed.

Lemma emit_result_phase m t o :
  triple (at_phase (PTurn t []) o []) (emitToolResultMessage sink m)
    (fun _ => at_phase (PTurn (add_results t [m]) []) (o ++ [MToolResult m]) []) any.
Proof. apply (emit_message_owed sink (Some t)). Qed.

Lemma may_start_results t rs id name : may_start (add_results t rs) id name = may_start t id name.
Proof. done. Qed.

Lemma add_results_app t rs rs' : add_results (add_results t rs) rs' = add_results t (rs ++ rs').
Proof. unfold add_results. simpl. by rewrite app_assoc. Qed.

Lemma add_results_nil t : add_results t [] = t.
Proof. destruct t. unfold add_results. simpl. by rewrite app_nil_r. Qed.

(** ** Sequential batches *)

Local Abbreviation run_call := (run_call validateToolArguments sink aborted ctx am config).
Local Abbreviation sequential_calls := (sequential_calls validateToolArguments sink aborted now ctx am config).

Lemma run_call_phase call t o : 
  triple (at_phase (PTurn t [call_key call]) o []) (run_call call)
    (fun f w => fz_toolCall f = call /\ at_phase (PTurn t [call_key call]) o [] w) any.
Proof.
  intros w Hw. unfold ToolBatch.run_call, bind. pose proof (prepareToolCall_quiet call w) as Hq.
  destruct (prepareToolCall _ _ _ _ _ _ w) as [[prep|e] w1] eqn:Ep; [|done].
  apply (same_run_phase _ _ _ _ _ Hq) in Hw. destruct prep as [call' tool args effect|r b]; [|done].
  apply prepareToolCall_call in Ep as ->.
  exact (triple_bind _ _ _ _ _ _ (run_proc_phase call _ None t _ o [] (list_elem_of_here _ _))
    (fun executed => finalize_phase call args effect executed _ o []) w1 Hw).
Qed.

(** What a batch that answered the calls [called] leaves behind. *)
Definition batch_post (t : turn_progress) (o : list AgentMessage) (calls : list ToolCall)
    (fs : list FinalizedToolCallOutcome) (messages : list ToolResultMessage) (w : loop_world Env) : Prop :=
  map fz_toolCall fs `prefix_of` calls /\ Forall2 answers_call (map fz_toolCall fs) messages /\
  (calls <> [] -> fs <> []) /\ ((forall env, aborted env = false) -> map fz_toolCall fs = calls) /\
  at_phase (PTurn (add_results t messages) []) (o ++ map MToolResult messages) [] w.

Lemma batch_post_nil t o w : at_phase (PTurn t []) o [] w -> batch_post t o [] [] [] w.
Proof. intros Hw. unfold batch_post. simpl. rewrite add_results_nil, app_nil_r. split_and!; try done. Qed.

Lemma batch_post_last t o call calls f m w :
  fz_toolCall f = call -> answers_call call m -> ((forall env, aborted env = false) -> calls = []) ->
  at_phase (PTurn (add_results t [m]) []) (o ++ [MToolResult m]) [] w -> batch_post t o (call :: calls) [f] [m] w.
Proof.
  intros <- Hm Ha Hw. unfold batch_post. simpl. split_and!; try done.
  - by exists calls.
  - apply Forall2_cons_2; [done|apply Forall2_nil_2].
  - intros H. by rewrite (Ha H).
Qed.

Lemma batch_post_cons t o call calls f m fs ms w :
  fz_toolCall f = call -> answers_call call m ->
  batch_post (add_results t [m]) (o ++ [MToolResult m]) calls fs ms w -> batch_post t o (call :: calls) (f :: fs) (m :: ms) w.
Proof.
  intros <- Hm (Hp & Hf & _ & Ha & Hw). unfold batch_post. simpl. split_and!; try done.
  - by apply prefix_cons.
  - by apply Forall2_cons_2.
  - intros H. by rewrite (Ha H).
  - rewrite add_results_app, <- app_assoc in Hw. exact Hw.
Qed.

Lemma sequential_calls_phase calls t o :
  (forall c, c ∈ calls -> may_start t (tc_id c) (tc_name c) = true) ->
  triple (at_phase (PTurn t []) o []) (sequential_calls calls)
    (fun l w => batch_post t o calls (map fst l) (map snd l) w) any.
Proof.
  revert t o. induction calls as [|call calls IH]; intros t o Hstart; simpl.
  { apply triple_ret. intros w. apply batch_post_nil. }
  eapply triple_bind; [apply emit_start_phase, Hstart, list_elem_of_here|]. intros [].
  eapply triple_bind; [apply run_call_phase|]. intros f w [Hf Hw]. revert w Hw.
  assert (Hin : call_key (fz_toolCall f) ∈ [call_key call]) by (rewrite Hf; set_solver).
  refine (triple_bind _ _ _ _ _ _ (emit_end_phase f t _ o [] Hin) _). intros [] w (running & Hw & Hperm).
  rewrite Hf in Hperm. apply Permutation_singleton_l in Hperm. injection Hperm as <-. revert w Hw.
  eapply triple_bind; [apply result_message_phase|]. intros m w [Hm Hw]. rewrite Hf in Hm. revert w Hw.
  eapply triple_bind; [apply emit_result_phase|]. intros [] w Hw. unfold bind, read_env.
  destruct (aborted (lw_env w)) eqn:Ea.
  - apply batch_post_last; try done. intros H. by rewrite H in Ea.
  - specialize (IH (add_results t [m]) (o ++ [MToolResult m])). 
    specialize (IH (fun c Hc => Hstart c (list_elem_of_further _ _ _ Hc)) w Hw).
    destruct (sequential_calls calls w) as [[rest|e] w1]; [|done]. by apply batch_post_cons.
Qed.

(** ** Parallel batches *)

Local Abbreviation parallel_entries := (parallel_entries validateToolArguments sink aborted ctx am config).
Local Abbreviation step_task := (step_task sink ctx am config).
Local Abbreviation drain_task := (drain_task sink ctx am config).
Local Abbreviation run_schedule := (run_schedule sink ctx am config).
Local Abbreviation drain_tasks := (drain_tasks sink ctx am config).

Definition task_call (t : task (Env := Env)) : ToolCall :=
  match t with
  | TRunning call _ _ _ _ | TExecuted call _ _ _ => call
  | TEnding f | TDone f => fz_toolCall f
  end.

(** The executions a listener sees under way. *)
Definition task_key (t : task (Env := Env)) : list (jsstr * jsstr) :=
  match t with TDone _ => [] | _ => [call_key (task_call t)] end.

(** The tasks of a batch, and exactly their executions under way. *)
Definition tasks_phase (t : turn_progress) (o : list AgentMessage) (tasks : list (task (Env := Env))) (w : loop_world Env) : Prop :=
  exists running, at_phase (PTurn t running) o [] w /\ running ≡ₚ flat_map task_key tasks.

Lemma flat_map_insert (tasks : list (task (Env := Env))) i x y : tasks !! i = Some x ->
  exists others, flat_map task_key tasks ≡ₚ task_key x ++ others /\ flat_map task_key (<[i := y]> tasks) ≡ₚ task_key y ++ others.
Proof.
  intros Hi. exists (flat_map task_key (take i tasks) ++ flat_map task_key (drop (S i) tasks)).
  rewrite insert_take_drop by (by eapply lookup_lt_Some). rewrite <- (take_drop_middle tasks i x Hi) at 1.
  rewrite !flat_map_app. simpl. split; rewrite (app_assoc (flat_map task_key (take i tasks))), (Permutation_app_comm (flat_map task_key (take i tasks)) (task_key _)); by rewrite <- app_assoc.
Qed.

(** A listener sees [own] under way besides [others]. *)
Definition under_way (t : turn_progress) (o : list AgentMessage) (own others : list (jsstr * jsstr)) (w : loop_world Env) : Prop :=
  exists running, at_phase (PTurn t running) o [] w /\ running ≡ₚ own ++ others.

(** Work on a call under way that emits at most updates of it. *)
Lemma under_way_keep {A} (c : ML Env A) t o k others (Q : A -> Prop) :
  (forall running, k ∈ running -> triple (at_phase (PTurn t running) o []) c (fun a w => Q a /\ at_phase (PTurn t running) o [] w) any) ->
  triple (under_way t o [k] others) c (fun a w => Q a /\ under_way t o [k] others w) any.
Proof.
  intros Hc w (running & Hw & Hp). assert (Hin : k ∈ running) by (rewrite Hp; set_solver).
  specialize (Hc running Hin w Hw). destruct (c w) as [[a|e] w']; [|done].
  destruct Hc as [Ha Hw']. split; [done|]. by exists running.
Qed.

Lemma under_way_end f t o others :
  triple (under_way t o [call_key (fz_toolCall f)] others) (emitToolExecutionEnd sink f) (fun _ => under_way t o [] others) any.
Proof.
  intros w (running & Hw & Hp). assert (Hin : call_key (fz_toolCall f) ∈ running) by (rewrite Hp; set_solver).
  pose proof (emit_end_phase f t running o [] Hin w Hw) as H.
  destruct (emitToolExecutionEnd sink f w) as [[[]|e] w']; [|done].
  destruct H as (running' & Hw' & Hp'). exists running'. split; [done|].
  rewrite Hp' in Hp. by apply Permutation_cons_inv in Hp.
Qed.

Lemma keep_run_proc call proc rejected t o others :
  triple (under_way t o [call_key call] others) (run_proc sink call proc rejected)
    (fun _ w => True /\ under_way t o [call_key call] others w) any.
Proof.
  apply under_way_keep. intros running Hin. eapply triple_post; [by apply run_proc_phase|]. done.
Qed.

Lemma keep_finalize call args effect executed t o others :
  triple (under_way t o [call_key call] others) (finalizeExecutedToolCall ctx am call args effect executed config)
    (fun f w => fz_toolCall f = call /\ under_way t o [call_key call] others w) any.
Proof. apply (under_way_keep _ _ _ _ _ (fun f => fz_toolCall f = call)). intros running _. apply finalize_phase. Qed.

Lemma step_task_phase x t o others :
  triple (under_way t o (task_key x) others) (step_task x)
    (fun y w => task_call y = task_call x /\ under_way t o (task_key y) others w) any.
Proof.
  destruct x as [call args effect [settle|report rest] rejected|call args effect executed|f|f]; simpl.
  - eapply triple_bind.
    + apply (under_way_keep _ _ _ _ _ (fun _ => True)). intros running _. eapply triple_post; [apply quiet_phase, settle_call_quiet|]. done.
    + intros executed. apply triple_ret. by intros w [_ Hw].
  - intros w Hw. pose proof (under_way_keep (report_update sink call report rejected) t o (call_key call) others (fun _ => True)) as H.
    specialize (H (fun running Hin => triple_post _ _ _ _ _ (report_update_phase call report rejected t running o [] Hin) (fun _ _ Hw => conj I Hw)) w Hw).
    unfold bind. destruct (report_update _ _ _ _ w) as [[r|e] w1]; [|done]. by destruct H.
  - eapply triple_bind; [apply keep_finalize|]. intros f. apply triple_ret. intros w [Hf Hw]. simpl. by rewrite Hf.
  - eapply triple_bind; [apply under_way_end|]. intros []. apply triple_ret. intros w Hw. by split.
  - apply triple_ret. intros w Hw. by split.
Qed.

Lemma finish_task_phase f call t o others : fz_toolCall f = call ->
  triple (under_way t o [call_key call] others) (do* emitToolExecutionEnd sink f in ret f)
    (fun f' w => fz_toolCall f' = call /\ under_way t o [] others w) any.
Proof.
  intros <-. eapply triple_bind; [apply under_way_end|]. intros []. apply triple_ret. intros w Hw. by split.
Qed.

Lemma drain_task_phase x t o others :
  triple (under_way t o (task_key x) others) (drain_task x)
    (fun f w => fz_toolCall f = task_call x /\ under_way t o [] others w) any.
Proof.
  assert (Hfin : forall call args effect executed,
    triple (under_way t o [call_key call] others)
      (let* f := finalizeExecutedToolCall ctx am call args effect executed config in do* emitToolExecutionEnd sink f in ret f)
      (fun f w => fz_toolCall f = call /\ under_way t o [] others w) any).
  { intros. eapply triple_bind; [apply keep_finalize|]. intros f w [Hf Hw]. by apply (finish_task_phase f call). }
  destruct x as [call args effect proc rejected|call args effect executed|f|f]; simpl.
  - eapply triple_bind; [apply keep_run_proc|]. intros executed w [_ Hw]. by apply Hfin.
  - apply Hfin.
  - by apply finish_task_phase.
  - apply triple_ret. by intros w Hw.
Qed.

Lemma prepare_entry_phase call t o others :
  triple (under_way t o [call_key call] others) (prepare_entry validateToolArguments sink aborted ctx am config call)
    (fun x w => task_call x = call /\ under_way t o (task_key x) others w) any.
Proof.
  intros w Hw. unfold prepare_entry, bind at 1. pose proof (prepareToolCall_quiet call w) as Hq.
    destruct (prepareToolCall _ _ _ _ _ _ w) as [[prep|e] w1] eqn:Ep; [|done].
    destruct Hw as (running & Hw & Hp). apply (same_run_phase _ _ _ _ _ Hq) in Hw.
    assert (Hu : under_way t o [call_key call] others w1) by by exists running.
    destruct prep as [call' tool args effect|r b].
    - apply prepareToolCall_call in Ep as ->. by split.
    - refine (triple_bind _ _ _ _ _ _ (under_way_end (mkFinalized call r b false) t o others) _ w1 Hu).
      intros []. apply triple_ret. intros w' Hw'. by split.
Qed.

Lemma parallel_entries_phase calls t o others :
  (forall c, c ∈ calls -> may_start t (tc_id c) (tc_name c) = true) ->
  triple (under_way t o [] others) (parallel_entries calls)
    (fun tasks w => map task_call tasks `prefix_of` calls /\ (calls <> [] -> tasks <> []) /\
       ((forall env, aborted env = false) -> map task_call tasks = calls) /\
       under_way t o (flat_map task_key tasks) others w) any.
Proof.
  revert others. induction calls as [|call calls IH]; intros others Hstart; simpl.
  { apply triple_ret. by intros w Hw. }
  intros w (running & Hw & Hp). unfold bind at 1.
  pose proof (emit_start_phase call t running o [] (Hstart call (list_elem_of_here _ _)) w Hw) as Hs.
  destruct (emit_tool_start sink ctx call w) as [[[]|e] w1]; [|done].
  assert (Hu : under_way t o [call_key call] others w1).
  { exists (call_key call :: running). split; [done|]. simpl. constructor. by rewrite Hp. }
  unfold bind at 1. pose proof (prepare_entry_phase call t o others w1 Hu) as Hentry.
  destruct (prepare_entry _ _ _ _ _ _ call w1) as [[x|e] w3]; [|done]. destruct Hentry as [Hx Hw3]. revert Hw3.
  intros Hw3. unfold bind, read_env. destruct (aborted (lw_env w3)) eqn:Ea.
  - simpl. rewrite Hx, app_nil_r. split_and!; try done; [by exists calls|]. intros H. by rewrite H in Ea.
  - specialize (IH (task_key x ++ others) (fun c Hc => Hstart c (list_elem_of_further _ _ _ Hc)) w3 Hw3).
    destruct (parallel_entries calls w3) as [[rest|e] w4]; [|done]. destruct IH as (Hpre & _ & Hall & r & Hr & Hpr).
    simpl. rewrite Hx. split_and!; try done; [by apply prefix_cons|intros H; by rewrite (Hall H)|].
    exists r. split; [done|]. rewrite Hpr, app_assoc. by rewrite (Permutation_app_comm (flat_map task_key rest)).
Qed.

Lemma run_schedule_phase order tasks t o :
  triple (under_way t o (flat_map task_key tasks) []) (run_schedule order tasks)
    (fun tasks' w => map task_call tasks' = map task_call tasks /\ under_way t o (flat_map task_key tasks') [] w) any.
Proof.
  revert tasks. induction order as [|i order IH]; intros tasks; simpl.
  { apply triple_ret. by intros w Hw. }
  destruct (tasks !! i) as [x|] eqn:Ei; [|apply IH].
  intros w (running & Hw & Hp). destruct (flat_map_insert tasks i x x Ei) as (others & Hx & _).
  assert (Hu : under_way t o (task_key x) others w) by (exists running; split; [done|]; by rewrite Hp, app_nil_r).
  pose proof (step_task_phase x t o others w Hu) as Hs. unfold bind.
  destruct (step_task x w) as [[y|e] w1]; [|done]. destruct Hs as [Hy (r & Hr & Hpr)].
  destruct (flat_map_insert tasks i x y Ei) as (others' & Hx' & Hy').
  assert (Hu' : under_way t o (flat_map task_key (<[i := y]> tasks)) [] w1).
  { exists r. split; [done|]. rewrite app_nil_r, Hy', Hpr. apply Permutation_app_head.
    rewrite Hx in Hx'. by apply Permutation_app_inv_l in Hx'. }
  specialize (IH (<[i := y]> tasks) w1 Hu'). destruct (run_schedule order _ w1) as [[tasks'|e] w2]; [|done].
  destruct IH as [Hc Hw2]. split; [|done]. rewrite Hc.
  change (map task_call) with (fmap (M := list) task_call). rewrite list_fmap_insert.
  apply list_insert_id. rewrite list_lookup_fmap, Ei. simpl. by rewrite Hy.
Qed.

Lemma drain_tasks_phase tasks t o others :
  triple (under_way t o (flat_map task_key tasks) others) (drain_tasks tasks)
    (fun fs w => map fz_toolCall fs = map task_call tasks /\ under_way t o [] others w) any.
Proof.
  revert others. induction tasks as [|x tasks IH]; intros others; simpl.
  { apply triple_ret. by intros w Hw. }
  intros w (running & Hw & Hp). rewrite <- app_assoc in Hp.
  assert (Hu : under_way t o (task_key x) (flat_map task_key tasks ++ others) w) by by exists running.
  pose proof (drain_task_phase x t o _ w Hu) as Hd. unfold bind.
  destruct (drain_task x w) as [[f|e] w1]; [|done]. destruct Hd as [Hf (r & Hr & Hpr)].
  assert (Hu' : under_way t o (flat_map task_key tasks) others w1) by by exists r.
  specialize (IH others w1 Hu'). destruct (drain_tasks tasks w1) as [[fs|e] w2]; [|done].
  destruct IH as [Hfs Hw2]. simpl. by rewrite Hf, Hfs.
Qed.

Lemma result_messages_phase fs t o :
  triple (at_phase (PTurn t []) o []) (result_messages sink now fs)
    (fun ms w => Forall2 answers_call (map fz_toolCall fs) ms /\
       at_phase (PTurn (add_results t ms) []) (o ++ map MToolResult ms) [] w) any.
Proof.
  revert t o. induction fs as [|f fs IH]; intros t o; simpl.
  { apply triple_ret. intros w Hw. rewrite add_results_nil, app_nil_r. split; [apply Forall2_nil_2|done]. }
  eapply triple_bind; [apply result_message_phase|]. intros m w [Hm Hw]. revert w Hw.
  eapply triple_bind; [apply emit_result_phase|]. intros [] w Hw. unfold bind.
  specialize (IH _ _ w Hw). destruct (result_messages sink now fs w) as [[ms|e] w1]; [|done].
  destruct IH as [Hms Hw1]. simpl. split; [by apply Forall2_cons_2|].
  rewrite add_results_app, <- app_assoc in Hw1. exact Hw1.
Qed.

Lemma under_way_none t o w : under_way t o [] [] w -> at_phase (PTurn t []) o [] w.
Proof. intros (running & Hw & Hp). simpl in Hp. by apply Permutation_nil_r in Hp as ->. Qed.

Lemma parallel_phase calls t o :
  (forall c, c ∈ calls -> may_start t (tc_id c) (tc_name c) = true) ->
  triple (at_phase (PTurn t []) o []) (executeToolCallsParallel validateToolArguments sink aborted now schedule ctx am config calls)
    (fun b w => exists fs, b = createExecutedToolCallBatch (eb_messages b) fs /\ batch_post t o calls fs (eb_messages b) w) any.
Proof.
  intros Hstart w Hw. unfold executeToolCallsParallel, bind.
  assert (Hu : under_way t o [] [] w) by by exists [].
  pose proof (parallel_entries_phase calls t o [] Hstart w Hu) as He.
  destruct (parallel_entries calls w) as [[tasks|e] w1]; [|done]. destruct He as (Hpre & Hne & Hall & Hw1).
  unfold read_env. pose proof (run_schedule_phase (schedule (lw_env w1)) tasks t o w1 Hw1) as Hr.
  destruct (run_schedule _ tasks w1) as [[tasks'|e] w2]; [|done]. destruct Hr as [Hc Hw2].
  pose proof (drain_tasks_phase tasks' t o [] w2 Hw2) as Hd.
  destruct (drain_tasks tasks' w2) as [[fs|e] w3]; [|done]. destruct Hd as [Hfs Hw3].
  apply under_way_none in Hw3. pose proof (result_messages_phase fs t o w3 Hw3) as Hm.
  destruct (result_messages sink now fs w3) as [[ms|e] w4]; [|done]. destruct Hm as [Hms Hw4].
  rewrite Hc in Hfs. exists fs. split; [done|]. simpl. unfold batch_post. rewrite Hfs in Hms |- *.
  destruct Hw4 as [H1 H2]. split_and!; try done.
  intros Hcalls ->. simpl in Hfs. by destruct tasks; [apply (Hne Hcalls)|].
Qed.

Lemma executeToolCalls_phase t o :
  (forall c, c ∈ tool_calls am -> may_start t (tc_id c) (tc_name c) = true) ->
  triple (at_phase (PTurn t []) o []) (executeToolCalls validateToolArguments sink aborted now schedule ctx am config)
    (fun b w => exists fs, b = createExecutedToolCallBatch (eb_messages b) fs /\ batch_post t o (tool_calls am) fs (eb_messages b) w) any.
Proof.
  intros Hstart. unfold executeToolCalls. case_if; [|by apply parallel_phase].
  eapply triple_bind; [by apply sequential_calls_phase|]. intros l. apply triple_ret. intros w Hw. by exists (map fst l).
Qed.

(** C2: a batch of tool calls, sequential or concurrent, answers a non-empty
    prefix of the calls of the response, all of them when the run is not aborted,
    with one result message per call in the order of the calls, whatever the
    order in which the tools finish; every execution it starts it ends. *)
Theorem executeToolCalls_in_order t w batch w' :
  (forall c, c ∈ tool_calls am -> may_start t (tc_id c) (tc_name c) = true) ->
  at_phase (PTurn t []) [] [] w ->
  executeToolCalls validateToolArguments sink aborted now schedule ctx am config w = (Ok batch, w') ->
  exists answered, answered `prefix_of` tool_calls am /\ Forall2 answers_call answered (eb_messages batch) /\
    (tool_calls am <> [] -> answered <> []) /\ ((forall env, aborted env = false) -> answered = tool_calls am) /\
    monitor PStart (lw_trace w') = Some (PTurn (add_results t (eb_messages batch)) []).
Proof.
  intros Hstart Hw E. pose proof (executeToolCalls_phase t [] Hstart w Hw) as H. rewrite E in H.
  destruct H as (fs & _ & Hp & Hf & Hne & Hall & [Hm _]). exists (map fz_toolCall fs). split_and!; try done.
  intros Hc Hnil. apply (Hne Hc). by destruct fs.
Qed.

(** A call the [beforeToolCall] hook blocks is not executed: the outcome
    is an error with the hook's reason, marked as not executed, and nothing ran
    but the hook. *)
Theorem blocked_call_not_executed call tool args before r env' w :
  find_tool (cx_tools ctx) (tc_name call) = Some tool -> tc_name call <> js "sleep" ->
  prepare_and_validate validateToolArguments tool call = Ok args ->
  cf_beforeToolCall config = Some before ->
  before am call args (resolveToolEffect (at_effect tool) false) ctx (lw_env w) = (Ok (Some r), env') ->
  bt_block r = Some true -> aborted env' = false ->
  ToolBatch.run_call validateToolArguments sink aborted ctx am config call w =
    (Ok (mkFinalized call (createErrorToolResult (match bt_reason r with Some (c :: s) => c :: s | _ => js "Tool execution was blocked" end))
           true false), set_env env' w).
Proof.
  intros Ht Hs Hv Hb Hr Hblock Ha. unfold ToolBatch.run_call, prepareToolCall.
  rewrite Ht, (bool_decide_eq_false_2 (tc_name call = js "sleep")) by done.
  unfold bind at 1, catch, prepare_checked, bind at 1. rewrite Hv. unfold bind at 1, run_before. rewrite Hb.
  unfold bind at 1, call_hook. rewrite Hr. unfold bind, read_env. simpl lw_env. by rewrite Ha, Hblock.
Qed.
End Batches.

(** The tools of a response are executed exactly when the response was
    not cut short, calls some tool and, under a completion protocol, calls
    [finish_work] only by itself. *)
Theorem executes_tools_spec mode m :
  executes_tools mode m = true <->
  isProviderLengthResponse m = false /\ tool_calls m <> [] /\
  (isCompletionProtocolEnabled mode = true -> existsb is_finish_call (tool_calls m) = true -> exists c, tool_calls m = [c]).
Proof.
  unfold executes_tools, repair_before_execution, requiresSpecializedProviderLengthRepair.
  destruct (isProviderLengthResponse m) eqn:El; simpl; [rewrite andb_false_r; naive_solver|].
  rewrite andb_true_r. pose proof (detect_None m (tool_calls m)) as Hd. rewrite El in Hd.
  rewrite andb_true_iff, negb_true_iff, is_empty_false.
  destruct (isCompletionProtocolEnabled mode); simpl; [|naive_solver].
  destruct (detectCompletionProtocolRepair m (tool_calls m) true); naive_solver.
Qed.

(** ** Effects and [finish_work] *)

(** The effect classification fails safe: a tool is exempt from
    verification only when it carries an already resolved exempt effect or
    declares, in full and validly, a plain read of normal risk; and resolving is
    idempotent. *)
Theorem resolveToolEffect_conservative d builtin :
  (toolEffectRequiresVerification (resolveToolEffect d builtin) = false ->
     (exists e, d = Some (Resolved e) /\ ef_kind e = eff_read /\ ef_risk e = risk_normal) \/
     (exists domains, d = Some (Declared (JStr (js "read")) (JStr (js "normal")) domains) /\ is_Some (parse_domains domains))) /\
  (forall builtin', resolveToolEffect (Some (Resolved (resolveToolEffect d builtin))) builtin' = resolveToolEffect d builtin) /\
  Forall (fun x => x ∈ VALID_DOMAINS) (match d with Some (Resolved _) => [] | _ => ef_domains (resolveToolEffect d builtin) end).
Proof.
  assert (Hdedup : forall l : list jsstr, Forall (fun x => x ∈ VALID_DOMAINS) l -> Forall (fun x => x ∈ VALID_DOMAINS) (dedup l)).
  { induction 1 as [|x l Hx _ IH]; simpl; constructor; [done|]. apply Forall_forall. intros y [Hy _]%list_elem_of_In%filter_In.
    rewrite Forall_forall in IH. apply IH. by apply list_elem_of_In. }
  split_and!; [|done|].
  - destruct d as [[kind risk domains|e]|]; simpl; [| |done].
    + destruct (parse_kind kind) as [k|] eqn:Ek; [|done]. destruct (parse_risk risk) as [r|] eqn:Er; [|done].
      destruct (parse_domains domains) eqn:Ed; [|done]. unfold toolEffectRequiresVerification. simpl.
      destruct k, r; try done. intros _. right. exists domains. split; [|done]. clear Ed.
      unfold parse_kind in Ek. unfold parse_risk in Er. destruct kind; try done. destruct risk; try done.
      repeat case_bool_decide; simplify_eq; done.
    + unfold toolEffectRequiresVerification. destruct (ef_kind e) eqn:E1, (ef_risk e) eqn:E2; try done. intros _. left. eauto.
  - destruct d as [[kind risk domains|e]|]; simpl; [|constructor|constructor].
    destruct (parse_kind kind); [|constructor]. destruct (parse_risk risk); [|constructor].
    destruct (parse_domains domains) as [ds|] eqn:Ed; simpl; [|constructor].
    unfold parse_domains in Ed. destruct domains as [[| | | |l|]|]; simplify_eq; [|constructor].
    destruct (forallb valid_domain l) eqn:Ev; simplify_eq. apply Hdedup. apply Forall_forall. intros x Hx.
    apply list_elem_of_In, in_flat_map in Hx as (v & Hv & Hx). rewrite forallb_forall in Ev. specialize (Ev v Hv).
    destruct v; try done. destruct Hx as [->|[]]. simpl in Ev. by apply bool_decide_eq_true in Ev.
Qed.

Lemma string_list_strings l : string_list (Some (JArr (map JStr l))) = Some l.
Proof. simpl. f_equal. induction l as [|x l IH]; simpl; [done|]. by rewrite IH. Qed.

(** The properties of a printed payload. *)
Lemma payload_fields p :
  exists m, payload_json p = JObj m /\
    get_prop m (js "status") = Some (JStr (match fw_status p with success => js "success" | partial => js "partial" | failed => js "failed" end)) /\
    get_prop m (js "summary") = Some (JStr (fw_summary p)) /\
    get_prop m (js "files_changed") = (fun x => JArr (map JStr x)) <$> fw_files_changed p /\
    get_prop m (js "tests_run") = (fun x => JArr (map JStr x)) <$> fw_tests_run p /\
    get_prop m (js "remaining_work") = (fun x => JArr (map JStr x)) <$> fw_remaining_work p /\
    get_prop m (js "notes") = JStr <$> fw_notes p.
Proof.
  eexists. split; [reflexivity|].
  destruct p as [st sm fc tr rw notes]; simpl fw_files_changed; simpl fw_tests_run; simpl fw_remaining_work; simpl fw_notes; simpl fw_summary; simpl fw_status.
  destruct fc, tr, rw, notes; (split_and!; reflexivity).
Qed.

Lemma parse_payload_json p : parse_finish_work (payload_json p) = Some p.
Proof.
  destruct (payload_fields p) as (m & -> & H1 & H2 & H3 & H4 & H5 & H6). unfold parse_finish_work.
  rewrite H1, H2, H3, H4, H5, H6. destruct p as [st sm fc tr rw notes]. simpl fw_files_changed; simpl fw_tests_run; simpl fw_remaining_work.
  assert (Hl : forall l : option (list jsstr), string_list ((fun x => JArr (map JStr x)) <$> l) = l)
    by (intros [l|]; [apply string_list_strings|done]).
  rewrite !Hl. destruct st, notes; reflexivity.
Qed.

(** A [finish_work] call that succeeds has a non-blank summary and, when it
    claims success, no remaining work; it terminates the batch; and its payload is
    read back from the result details unchanged. *)
Theorem finish_work_roundtrip params r :
  finish_work_execute params = Ok r ->
  exists input details, parse_finish_work params = Some input /\ trim (fw_summary input) <> [] /\
    (fw_status input = success -> fw_remaining_work (normalizeFinishWorkPayload input) = None) /\
    ar_terminate r = Some true /\ ar_details r = Some details /\
    parse_finish_work details = Some (normalizeFinishWorkPayload input).
Proof.
  unfold finish_work_execute. destruct (parse_finish_work params) as [i|] eqn:Ei; [|done].
  destruct (validateFinishWorkInput i) as [e|] eqn:Ev; [done|]. intros [= <-]. exists i, (payload_json (normalizeFinishWorkPayload i)).
  unfold validateFinishWorkInput in Ev. destruct (is_empty (trim (fw_summary i))) eqn:Es; [done|].
  split_and!; try done; [by apply is_empty_false| |].
  - intros Hs. simpl. rewrite Hs in Ev. by destruct (fw_remaining_work i) as [[]|].
  - apply parse_payload_json.
Qed.
