(* ===== verification/LoopProps.v ===== *)
(** Theorems about the agent loop: a run that returns has produced a
    well-formed event trace whose announced messages are exactly the transcript
    it returns; under the completion protocol its retries are bounded, it ends
    within its turn limit, and it ends only in the ways the protocol allows. *)
From S2P Require Import Prelude JsString Json Effects Messages Protocol LoopTypes ToolBatch Recovery AgentLoop LoopEnv LoopTrace ToolProps.
#[local] Open Scope eff.

(** What a provider stream promises: [start] comes first and once, and every
    other event but the final one comes after it. *)
Fixpoint wf_events {Env} (started : bool) (events : response_events Env) : Prop :=
  match events with
  | REnd => True
  | REvent pull rest => forall env,
      match (pull env).1 with
      | SStart _ => started = false /\ wf_events true (rest env)
      | SDone _ | SError _ => True
      | _ => started = true /\ wf_events true (rest env)
      end
  end.

Section Phases.
Context {Env : Type}.
Context (validateToolArguments : AgentTool Env -> ToolCall -> result jsstr json).
Context (sink : AgentEvent -> hook Env unit) (aborted : Env -> bool) (now : Env -> Z * Env)
  (schedule : Env -> list nat).
Context (streamFn : Model -> LlmContext Env -> StreamOptions -> hook Env (response Env)).
Context (number_text : jsstr -> jsstr).

Definition streams_well : Prop := forall model llm opts env r env',
  streamFn model llm opts env = (Ok r, env') -> wf_events false (rs_events r).

(** ** Streaming *)

Lemma prepare_request_quiet retries attempt config maxTokens : quiet (prepare_request (Env := Env) retries attempt config maxTokens).
Proof.
  revert attempt maxTokens. induction retries as [|n IH]; intros attempt maxTokens; simpl;
    (apply quiet_bind; [apply quiet_read|]; intros c; apply quiet_bind; [destruct (cf_transformContext config); auto with agent|];
     intros ms; apply quiet_bind; [apply quiet_call_hook|]; intros llm; apply quiet_bind; [apply quiet_opt_hook|];
     intros prepared; destruct (prepared ≫= pm_retryContext); auto with agent).
Qed.

Lemma update_phase t o msg ev :
  triple (at_phase (PMessage t) o []) (emit sink (message_update msg ev)) (fun _ => at_phase (PMessage t) o []) any.
Proof. by apply emit_phase. Qed.

Lemma replace_last_quiet m : quiet (context_replace_last (Env := Env) m).
Proof. by intros w. Qed.

Lemma forward_event_phase t o ev m v :
  triple (at_phase (PMessage t) o []) (forward_event sink ev m v)
    (fun v' w => sv_added v' = sv_added v /\ at_phase (PMessage t) o [] w) any.
Proof.
  unfold forward_event. eapply triple_bind; [apply quiet_phase, replace_last_quiet|]. intros [].
  eapply triple_bind; [apply update_phase|]. intros []. apply triple_ret. by intros w Hw.
Qed.

Lemma report_prefill_phase t o v :
  triple (at_phase (PMessage t) o []) (report_prefill sink now v)
    (fun v' w => sv_added v' = sv_added v /\ at_phase (PMessage t) o [] w) any.
Proof.
  unfold report_prefill. case_if; [|apply triple_ret; by intros w Hw].
  eapply triple_bind; [apply quiet_phase, quiet_ask_env|]. intros ts.
  eapply triple_bind with (Q := fun _ => at_phase (PMessage t) o []).
  - destruct (sv_partial v); [apply update_phase|apply quiet_phase, quiet_ret].
  - intros []. eapply triple_bind; [apply quiet_phase, quiet_ask_env|]. intros g. apply triple_ret. by intros w Hw.
Qed.

Lemma report_generation_phase t o m v :
  triple (at_phase (PMessage t) o []) (report_generation sink now m v)
    (fun v' w => sv_added v' = sv_added v /\ at_phase (PMessage t) o [] w) any.
Proof.
  unfold report_generation. case_if; [apply triple_ret; by intros w Hw|].
  eapply triple_bind; [apply quiet_phase, quiet_ask_env|]. intros ts.
  destruct (sv_lastGenProgressMs v); [|apply triple_ret; by intros w Hw].
  case_if; [|apply triple_ret; by intros w Hw].
  eapply triple_bind; [apply update_phase|]. intros []. apply triple_ret. by intros w Hw.
Qed.

Lemma report_cold_phase t o f m v :
  triple (at_phase (PMessage t) o []) (report_cold sink f m v)
    (fun v' w => sv_added v' = sv_added v /\ at_phase (PMessage t) o [] w) any.
Proof.
  unfold report_cold. case_if; [|apply triple_ret; by intros w Hw].
  eapply triple_bind; [apply update_phase|]. intros []. apply triple_ret. by intros w Hw.
Qed.

(** Carry a fact about the value through a bind. *)
Lemma triple_bind_fact {A B} (c : ML Env A) (k : A -> ML Env B) P (F : A -> Prop) R Q X :
  triple P c (fun a w => F a /\ Q w) X -> (forall a, F a -> triple Q (k a) R X) -> triple P (bind c k) R X.
Proof. intros Hc Hk. eapply triple_bind; [exact Hc|]. intros a w [Ha Hw]. by apply Hk. Qed.

Lemma stream_event_phase t o ev v : is_final_event ev = false -> sv_added v = true -> (forall m, ev <> SStart m) ->
  triple (at_phase (PMessage t) o []) (stream_event sink now ev v)
    (fun v' w => sv_added v' = true /\ at_phase (PMessage t) o [] w) any.
Proof.
  intros Hf Ha Hs.
  assert (Hfwd : forall ev m v', sv_added v' = true -> triple (at_phase (PMessage t) o []) (forward_event sink ev m v')
    (fun v'' w => sv_added v'' = true /\ at_phase (PMessage t) o [] w) any).
  { intros ev' m v' Hv. eapply triple_post; [apply forward_event_phase|]. intros a w [H1 H2]. split; congruence. }
  destruct ev; try done; simpl; try (apply Hfwd; done).
  - by destruct (Hs partial).
  - eapply triple_bind_fact; [apply report_prefill_phase|]. intros v' Hv. apply Hfwd. congruence.
  - eapply triple_bind_fact; [apply report_generation_phase|]. intros v' Hv. apply Hfwd. congruence.
  - eapply triple_bind; [apply quiet_phase, replace_last_quiet|]. intros [].
    eapply triple_bind_fact; [apply report_cold_phase|]. intros v' Hv.
    eapply triple_bind; [apply update_phase|]. intros []. apply triple_ret. intros w Hw. split; [by rewrite Hv|done].
Qed.

Definition response_phase (added : bool) (t : turn_progress) : phase :=
  if added then PMessage (Some t) else PTurn t [].

Lemma recover_quiet m tools : quiet (recoverMisplacedToolCalls number_text now m tools).
Proof.
  apply (recover_built number_text now (fun A c => quiet c)); intros.
  - apply quiet_ret.
  - apply quiet_pure.
  - by apply quiet_bind.
  - apply quiet_ask_env.
Qed.

Lemma finish_response_phase result v t o :
  triple (at_phase (response_phase (sv_added v) t) o []) (finish_response validateToolArguments sink now number_text result v)
    (fun m => at_phase (PTurn (mkTurn (Some m) []) []) (o ++ [MAssistant m]) []) any.
Proof.
  unfold finish_response. eapply triple_bind; [apply quiet_phase, quiet_call_hook|]. intros raw.
  eapply triple_bind; [apply quiet_phase, quiet_read|]. intros tools.
  eapply triple_bind.
  { apply quiet_phase. apply quiet_bind; [apply recover_quiet|]. intros. apply quiet_ret. }
  intros m. eapply triple_bind with (Q := fun _ => at_phase (PMessage (Some t)) o []).
  - destruct (sv_added v); [apply quiet_phase, replace_last_quiet|].
    eapply triple_bind; [apply quiet_phase, quiet_context_push|]. intros []. apply (message_start_phase sink (Some t)).
  - intros []. eapply triple_bind; [apply emit_end_owed|]. intros []. apply triple_ret. by intros w Hw.
Qed.

Lemma stream_start_phase m v t o :
  triple (at_phase (PTurn t []) o []) (stream_event sink now (SStart m) v)
    (fun v' w => sv_added v' = true /\ at_phase (PMessage (Some t)) o [] w) any.
Proof.
  simpl. eapply triple_bind; [apply quiet_phase, quiet_ask_env|]. intros ts.
  eapply triple_bind; [apply quiet_phase, quiet_context_push|]. intros [].
  eapply triple_bind; [apply (message_start_phase sink (Some t))|]. intros []. apply triple_ret. by intros w Hw.
Qed.

Lemma consume_phase events result v t o : wf_events (sv_added v) events ->
  triple (at_phase (response_phase (sv_added v) t) o []) (consume validateToolArguments sink now number_text events result v)
    (fun m => at_phase (PTurn (mkTurn (Some m) []) []) (o ++ [MAssistant m]) []) any.
Proof.
  revert v. induction events as [|pull rest IH]; intros v Hwf; simpl; [apply finish_response_phase|].
  intros w Hw. unfold bind at 1, ask_env at 1, call_hook at 1. specialize (Hwf (lw_env w)).
  destruct (pull (lw_env w)) as [ev env]. cbn [fst] in Hwf.
  assert (Hw' : at_phase (response_phase (sv_added v) t) o [] (set_env env w)) by exact Hw.
  destruct (is_final_event ev) eqn:Ef; [exact (finish_response_phase result v t o _ Hw')|].
  assert (Hrest : wf_events true (rest (lw_env w))) by (destruct ev; naive_solver).
  refine (triple_bind_fact (stream_event sink now ev v) _ (at_phase (response_phase (sv_added v) t) o [])
    (fun v' => sv_added v' = true) _ (at_phase (PMessage (Some t)) o []) _ _ _ _ Hw').
  - destruct ev as [m| | | | | | | | |]; try done;
      [destruct Hwf as [-> _]; apply stream_start_phase|destruct Hwf as [Ha _]; rewrite Ha; by apply stream_event_phase..].
  - intros v' Hv. specialize (IH (lw_env w) v'). rewrite Hv in IH. by apply IH.
Qed.

Lemma streamAssistantResponse_phase config t o : streams_well ->
  triple (at_phase (PTurn t []) o []) (streamAssistantResponse validateToolArguments sink now streamFn number_text config)
    (fun m => at_phase (PTurn (mkTurn (Some m) []) []) (o ++ [MAssistant m]) []) any.
Proof.
  intros Hstreams. unfold streamAssistantResponse. eapply triple_bind; [apply quiet_phase, prepare_request_quiet|].
  intros [llm maxTokens]. eapply triple_bind; [apply quiet_phase, quiet_opt_hook|]. intros key.
  eapply triple_bind; [by apply (emit_phase sink (request_start _) _ (PTurn t []))|]. intros []. intros w Hw. unfold bind, call_hook.
  destruct (streamFn _ _ _ (lw_env w)) as [[r|e] env] eqn:Er; [|done]. apply Hstreams in Er.
  by apply (consume_phase (rs_events r) (rs_result r) initial_vars t o).
Qed.

(** ** Ending a run *)

(** The run is over: the last event announces the transcript, and nothing has
    happened since the listeners accepted it. *)
Definition run_over (w : loop_world Env) : Prop :=
  at_phase PEnd [] [] w /\ last (lw_trace w) = Some (agent_end (lw_new w)) /\
  exists env, sink (agent_end (lw_new w)) env = (Ok tt, lw_env w).

Lemma emit_agent_end_phase : triple (at_phase PRun [] []) (emit_agent_end (Env := Env) sink) (fun _ => run_over) any.
Proof.
  intros w Hw. unfold emit_agent_end, bind, read.
  pose proof (emit_phase_always sink (agent_end (lw_new w)) PRun PEnd [] [] w eq_refl ltac:(done) Hw) as H.
  pose proof (emit_spec sink (agent_end (lw_new w)) w) as (Ht & Hn & _).
  unfold emit, bind, modify, call_hook in *. cbn [lw_env] in *.
  destruct (sink _ (lw_env w)) as [[[]|e] env] eqn:Es; [|done]. cbn [snd] in *.
  split; [done|]. split; [by rewrite Ht, Hn, last_snoc|]. by exists (lw_env w).
Qed.

Lemma turn_end_phase m t : tp_last t = Some m -> 
  triple (at_phase (PTurn t []) [] []) (emit sink (turn_end m (tp_results t))) (fun _ => at_phase PRun [] []) any.
Proof.
  intros Hl. apply emit_phase; [|done]. simpl. by rewrite Hl, !bool_decide_eq_true_2.
Qed.

Lemma protocol_event_phase turn o mode ev r mx reason :
  triple (at_phase (opened turn) o []) (emit sink (completion_protocol mode ev r mx reason)) (fun _ => at_phase (opened turn) o []) any.
Proof. apply emit_phase; [by destruct turn|done]. Qed.

(** A terminal message, in a turn that is open. *)
Lemma terminal_phase m t :
  triple (at_phase (PTurn t []) [] [MAssistant m])
    (do* emit_message sink (MAssistant m) in do* emit sink (turn_end m []) in emit_agent_end sink) (fun _ => run_over) any.
Proof.
  eapply triple_bind; [apply (emit_message_ahead sink (Some t))|]. intros [].
  eapply triple_bind; [by apply (turn_end_phase m (mkTurn (Some m) []))|]. intros []. apply emit_agent_end_phase.
Qed.

Lemma terminal_message_quiet config d s : quiet (createTerminalAssistantMessage now config d s).
Proof. apply quiet_bind; [apply quiet_ask_env|]. intros. apply quiet_ret. Qed.

Lemma push_terminal_phase p m :
  triple (at_phase p [] []) (push_terminal (Env := Env) m) (fun _ => at_phase p [] [MAssistant m]) any.
Proof. eapply triple_bind; [apply quiet_phase, quiet_context_push|]. intros []. apply (new_push_ahead (MAssistant m) p []). Qed.

Lemma emitProtocolFailure_phase config mode ev d turn :
  triple (at_phase (opened turn) [] []) (emitProtocolFailure sink now config mode ev d (match turn with Some _ => true | None => false end))
    (fun _ => run_over) any.
Proof.
  unfold emitProtocolFailure. eapply triple_bind; [apply protocol_event_phase|]. intros [].
  eapply triple_bind with (Q := fun _ => at_phase (PTurn (default (mkTurn None []) turn) []) [] []).
  { destruct turn as [t|]; [by apply quiet_phase, quiet_ret|by apply emit_phase]. }
  intros []. eapply triple_bind; [apply quiet_phase, terminal_message_quiet|]. intros m.
  eapply triple_bind; [apply push_terminal_phase|]. intros []. apply terminal_phase.
Qed.

Lemma emitAbortedTurn_phase config d :
  triple (at_phase PRun [] []) (emitAbortedTurn sink now config d) (fun _ => run_over) any.
Proof.
  unfold emitAbortedTurn. eapply triple_bind; [apply quiet_phase, terminal_message_quiet|]. intros m.
  eapply triple_bind; [apply push_terminal_phase|]. intros [].
  eapply triple_bind; [by apply (emit_phase sink turn_start PRun (PTurn (mkTurn None []) []))|]. intros []. apply terminal_phase.
Qed.

(** ** Between turns *)

Lemma push_between m : triple (at_phase PRun [] []) (emit_and_push sink m) (fun _ => at_phase (Env := Env) PRun [] []) any.
Proof. apply (emit_and_push_phase sink None m). Qed.

Definition ended_or (ended : bool) (w : loop_world Env) : Prop := if ended then run_over w else at_phase PRun [] [] w.

Lemma length_continuation_phase message calls repair limits config mode :
  triple (at_phase PRun [] [])
    (prepareProviderLengthContinuation sink now message calls repair limits config mode)
    (fun d => ended_or (match d with LengthFailed => true | _ => false end)) any.
Proof.
  unfold prepareProviderLengthContinuation. eapply triple_bind with (Q := fun ok => ended_or (negb ok)).
  - destruct repair as [r|]; [|apply triple_ret; by intros w Hw]. case_if; [|apply triple_ret; by intros w Hw].
    unfold recordSemanticProviderLengthRepair. eapply triple_bind; [apply update_state_phase|]. intros [].
    eapply triple_bind; [apply quiet_phase, quiet_read|]. intros st. case_if.
    + eapply triple_bind; [apply (emitProtocolFailure_phase _ _ _ _ None)|]. intros []. apply triple_ret. by intros w Hw.
    + eapply triple_bind; [apply (protocol_event_phase None)|]. intros []. apply triple_ret. by intros w Hw.
  - intros [|]; [|apply triple_ret; by intros w Hw]. unfold handleProviderLengthResponse.
    case_if; [|apply triple_ret; by intros w Hw]. eapply triple_bind.
    { apply quiet_phase. apply quiet_bind; [apply quiet_ask_env|]. intros. apply quiet_ret. }
    intros m. eapply triple_bind; [apply push_between|]. intros []. apply triple_ret. by intros w Hw.
Qed.

Lemma repair_message_quiet text reason : quiet (createProtocolRepairMessage now text reason).
Proof. apply quiet_bind; [apply quiet_ask_env|]. intros. apply quiet_ret. Qed.

Lemma recordWaitingTurn_phase batch limits mode :
  triple (at_phase PRun [] []) (recordWaitingTurn sink now batch limits mode) (fun _ => at_phase PRun [] []) any.
Proof.
  unfold recordWaitingTurn. eapply triple_bind; [apply update_state_phase|]. intros [].
  eapply triple_bind; [apply quiet_phase, quiet_read|]. intros st. case_if; [apply quiet_phase, quiet_ret|].
  eapply triple_bind; [apply (protocol_event_phase None)|]. intros [].
  eapply triple_bind; [apply quiet_phase, repair_message_quiet|]. intros m.
  eapply triple_bind; [apply push_between|]. intros [].
  eapply triple_bind; [apply update_state_phase|]. intros []. apply quiet_phase, quiet_ret.
Qed.

Lemma prepareAgentNextTurn_phase message results config :
  triple (at_phase PRun [] []) (prepareAgentNextTurn sink message results config) (fun _ => at_phase PRun [] []) any.
Proof.
  unfold prepareAgentNextTurn. destruct (cf_prepareNextTurn config) as [prepare|]; [|apply quiet_phase, quiet_ret].
  do 2 (eapply triple_bind; [apply quiet_phase, quiet_read|]; intros ?).
  eapply triple_bind; [apply quiet_phase, quiet_call_hook|]. intros [u|]; [|apply quiet_phase, quiet_ret].
  eapply triple_bind with (Q := fun _ => at_phase PRun [] []).
  { apply quiet_phase. destruct (tu_context u) as [c|]; [apply (quiet_set_context (fun _ => c))|apply quiet_ret]. }
  intros []. eapply triple_bind; [apply (for_each_push sink None)|]. intros [] w (turn & Hw & Hiff).
  destruct turn; [naive_solver|]. done.
Qed.

Lemma apply_protocol_phase mode message config limits results batch more :
  triple (at_phase PRun [] []) (apply_protocol sink now mode message config limits results batch more)
    (fun o => ended_or (match o with None => true | Some _ => false end)) any.
Proof.
  unfold apply_protocol. case_if.
  { eapply triple_bind; [apply (protocol_event_phase None)|]. intros [].
    eapply triple_bind; [apply emit_agent_end_phase|]. intros []. apply triple_ret. by intros w Hw. }
  eapply triple_bind; [apply update_state_phase|]. intros [].
  eapply triple_bind; [apply quiet_phase, quiet_read|]. intros st.
  destruct (protocolLimitDiagnostic _ _ _ _).
  { eapply triple_bind; [apply (emitProtocolFailure_phase _ _ _ _ None)|]. intros []. apply triple_ret. by intros w Hw. }
  destruct (match repair_before_execution mode message with Some _ => _ | None => _ end) as [r|];
    [|apply triple_ret; by intros w Hw]. case_if.
  { eapply triple_bind; [apply update_state_phase|]. intros []. apply triple_ret. by intros w Hw. }
  eapply triple_bind; [apply (protocol_event_phase None)|]. intros [].
  eapply triple_bind; [apply quiet_phase, repair_message_quiet|]. intros m.
  eapply triple_bind; [apply push_between|]. intros []. apply triple_ret. by intros w Hw.
Qed.

Definition outcome_phase (o : turn_outcome (Env := Env)) : loop_world Env -> Prop :=
  ended_or (match o with Return => true | Continue _ _ _ _ => false end).

Lemma end_turn_phase mode message config results decision implicitTurn more :
  triple (at_phase PRun [] []) (end_turn sink aborted now mode message config results decision implicitTurn more) outcome_phase any.
Proof.
  unfold end_turn. eapply triple_bind; [apply prepareAgentNextTurn_phase|]. intros config'.
  eapply triple_bind; [apply quiet_phase, quiet_read_env|]. intros isAborted. destruct isAborted.
  { eapply triple_bind; [apply emitAbortedTurn_phase|]. intros []. apply triple_ret. by intros w Hw. }
  do 3 (eapply triple_bind; [apply quiet_phase, quiet_read|]; intros ?).
  eapply triple_bind.
  { apply quiet_phase. match goal with |- context [if ?b then _ else _] => destruct b end; auto with agent. }
  intros [|].
  - eapply triple_bind; [apply emit_agent_end_phase|]. intros []. apply triple_ret. by intros w Hw.
  - eapply triple_bind; [apply quiet_phase, quiet_opt_hook|]. intros pending. apply triple_ret. by intros w Hw.
Qed.

Lemma finish_batch_phase mode batch :
  triple (at_phase PRun [] []) (finish_batch (Env := Env) sink mode batch) outcome_phase any.
Proof.
  unfold finish_batch. eapply triple_bind with (Q := fun _ => at_phase PRun [] []).
  { destruct (batch ≫= eb_completion); [|apply quiet_phase, quiet_ret].
    destruct (isCompletionProtocolEnabled mode); [apply (protocol_event_phase None)|apply quiet_phase, quiet_ret]. }
  intros []. eapply triple_bind; [apply emit_agent_end_phase|]. intros []. apply triple_ret. by intros w Hw.
Qed.

Lemma continue_turn_phase mode message config limits batch implicitTurn d :
  triple (at_phase PRun [] []) (continue_turn sink aborted now mode message config limits batch implicitTurn d) outcome_phase any.
Proof.
  unfold continue_turn. eapply triple_bind; [apply recordWaitingTurn_phase|]. intros warned.
  eapply triple_bind; [apply quiet_phase, quiet_read|]. intros st.
  eapply triple_bind with (Q := fun o => ended_or (match o with None => true | Some _ => false end)).
  - match goal with |- context [if ?b then _ else _] => destruct b end; [apply apply_protocol_phase|].
    apply triple_ret. by intros w Hw.
  - intros [more|]; [apply end_turn_phase|]. apply triple_ret. by intros w Hw.
Qed.

Lemma after_turn_phase mode message config limits batch implicitTurn t :
  tp_last t = Some message -> tp_results t = batch_results batch ->
  triple (at_phase (PTurn t []) [] []) (after_turn sink aborted now mode message config limits batch implicitTurn) outcome_phase any.
Proof.
  intros Hl Hr. unfold after_turn. rewrite <- Hr. eapply triple_bind; [by apply turn_end_phase|]. intros [].
  eapply triple_bind; [apply length_continuation_phase|].
  intros [| |]; [case_if; [apply finish_batch_phase|apply continue_turn_phase]..|]. apply triple_ret. by intros w Hw.
Qed.

(** ** A turn *)

Lemma resolveTurnCompletionMode_phase config mode turn :
  triple (at_phase (opened turn) [] []) (resolveTurnCompletionMode sink config mode) (fun _ => at_phase (opened turn) [] []) any.
Proof.
  unfold resolveTurnCompletionMode. case_if; [apply quiet_phase, quiet_ret|].
  eapply triple_bind with (Q := fun _ => at_phase (opened turn) [] []).
  { case_if; [apply quiet_phase, quiet_ret|apply update_state_phase]. }
  intros []. eapply triple_bind; [apply protocol_event_phase|]. intros []. apply quiet_phase, quiet_ret.
Qed.

(** Where a turn may begin: the first one is already open. *)
Definition may_begin (firstTurn : bool) (w : loop_world Env) : Prop :=
  if firstTurn then exists t, at_phase (PTurn t []) [] [] w else at_phase PRun [] [] w.

Lemma begin_turn_phase firstTurn config mode pending :
  triple (may_begin firstTurn) (begin_turn sink now firstTurn config mode pending)
    (fun o w => match o with Some _ => exists t, at_phase (PTurn t []) [] [] w | None => run_over w end) any.
Proof.
  unfold begin_turn. eapply triple_bind with (Q := fun _ w => exists t, at_phase (PTurn t []) [] [] w).
  { destruct firstTurn; [apply triple_ret; by intros w Hw|]. eapply triple_post; [by apply (emit_phase sink turn_start PRun (PTurn (mkTurn None []) []))|].
    intros [] w Hw. by exists (mkTurn None []). }
  intros [] w [t Hw]. revert w Hw. eapply triple_bind; [apply (for_each_push sink (Some t))|].
  intros [] w (turn & Hw & Hiff). destruct turn as [t'|]; [|naive_solver]. revert w Hw.
  eapply triple_bind; [apply (resolveTurnCompletionMode_phase config mode (Some t'))|]. intros mode'.
  eapply triple_bind; [apply quiet_phase; apply (quiet_set_context (fun w => withCompletionProtocolTools (lw_context w) mode'))|]. intros [].
  eapply triple_bind; [apply quiet_phase, quiet_read|]. intros st. case_if.
  - eapply triple_bind; [apply (emitProtocolFailure_phase _ _ _ _ (Some t'))|]. intros []. apply triple_ret. by intros w Hw.
  - apply triple_ret. intros w Hw. by exists t'.
Qed.

(** Every call of a response that is not cut short may start. *)
Lemma may_start_calls m rs c : isProviderLengthResponse m = false -> c ∈ tool_calls m ->
  may_start (mkTurn (Some m) rs) (tc_id c) (tc_name c) = true.
Proof.
  intros Hl Hc. unfold may_start. simpl. rewrite Hl. simpl. apply existsb_exists. exists c.
  split; [by apply list_elem_of_In|]. by rewrite !bool_decide_eq_true_2.
Qed.

Lemma push_results_phase rs p :
  triple (at_phase p (map MToolResult rs) [])
    (for_each rs (fun r => do* context_push (Env := Env) (MToolResult r) in new_push (MToolResult r))) (fun _ => at_phase p [] []) any.
Proof.
  induction rs as [|r rs IH]; simpl; [by apply triple_ret|].
  eapply triple_bind; [eapply triple_bind; [apply quiet_phase, quiet_context_push|]; intros []; apply new_push_owed|].
  intros []. apply IH.
Qed.

Lemma execute_turn_tools_phase mode message config :
  triple (at_phase (PTurn (mkTurn (Some message) []) []) [] [])
    (execute_turn_tools validateToolArguments sink aborted now schedule mode message config)
    (fun b => at_phase (PTurn (mkTurn (Some message) (batch_results b)) []) [] []) any.
Proof.
  unfold execute_turn_tools. destruct (executes_tools mode message) eqn:Ex; [|by apply triple_ret].
  unfold executes_tools in Ex. bool_hyps. eapply triple_bind; [apply quiet_phase, quiet_read|]. intros ctx.
  eapply triple_bind; [apply executeToolCalls_phase; intros c Hc; by apply may_start_calls|].
  intros b w (fs & _ & _ & _ & _ & _ & Hw). revert w Hw.
  eapply triple_bind; [apply push_results_phase|]. intros []. by apply triple_ret.
Qed.

Lemma accepts_quiet config mode message repair : quiet (acceptsImplicitCompletion (Env := Env) config mode message repair).
Proof.
  unfold acceptsImplicitCompletion. case_if; [|apply quiet_ret]. destruct (cf_allowImplicitCompletion config); auto with agent.
Qed.

Lemma respond_phase mode message config :
  triple (at_phase (PTurn (mkTurn (Some message) []) []) [] [])
    (respond validateToolArguments sink aborted now schedule mode message config) outcome_phase any.
Proof.
  unfold respond. case_if.
  - eapply triple_bind; [by apply (turn_end_phase message (mkTurn (Some message) []))|]. intros [].
    eapply triple_bind; [apply emit_agent_end_phase|]. intros []. by apply triple_ret.
  - eapply triple_bind; [apply quiet_phase, accepts_quiet|]. intros implicitTurn.
    eapply triple_bind; [apply execute_turn_tools_phase|]. intros b. by apply after_turn_phase.
Qed.

Lemma run_turn_phase firstTurn config mode pending : streams_well ->
  triple (may_begin firstTurn)
    (run_turn validateToolArguments sink aborted now schedule streamFn number_text firstTurn config mode pending) outcome_phase any.
Proof.
  intros Hs. unfold run_turn. eapply triple_bind; [apply begin_turn_phase|].
  intros [mode'|]; [|by apply triple_ret]. intros w [t Hw]. revert w Hw.
  eapply triple_bind; [by apply streamAssistantResponse_phase|]. intros message.
  eapply triple_bind; [apply new_push_owed|]. intros [].
  eapply triple_bind with (Q := fun _ => at_phase (PTurn (mkTurn (Some message) []) []) [] []).
  { case_if; [by apply triple_ret|apply update_state_phase]. }
  intros []. apply respond_phase.
Qed.

(** ** The loop *)

Lemma turn_loop_phase fuel firstTurn config mode more pending : streams_well -> (firstTurn = true -> more = true) ->
  triple (may_begin firstTurn)
    (turn_loop validateToolArguments sink aborted now schedule streamFn number_text fuel firstTurn config mode more pending)
    (fun o w => match o with Finished => run_over w | OutOfFuel => True end) any.
Proof.
  intros Hs. revert firstTurn config mode more pending.
  induction fuel as [|fuel IH]; intros firstTurn config mode more pending Hfirst; simpl; [by apply triple_ret|].
  case_if.
  - eapply triple_bind; [by apply run_turn_phase|]. intros [|config' mode' more' pending']; [by apply triple_ret|].
    by apply (IH false config' mode' more' pending').
  - destruct firstTurn; [rewrite (Hfirst eq_refl) in *; done|].
    eapply triple_bind; [apply quiet_phase, quiet_opt_hook|]. intros followUp. case_if.
    + eapply triple_bind; [apply emit_agent_end_phase|]. intros []. by apply triple_ret.
    + by apply (IH false).
Qed.

Lemma runLoop_phase fuel config : streams_well ->
  triple (may_begin true) (runLoop validateToolArguments sink aborted now schedule streamFn number_text fuel config)
    (fun o w => match o with Finished => run_over w | OutOfFuel => True end) any.
Proof.
  intros Hs. unfold runLoop. eapply triple_bind with (Q := fun _ => may_begin true).
  { apply triple_modify. by intros w Hw. }
  intros [] w [t Hw]. revert w Hw. eapply triple_bind; [apply quiet_phase, quiet_opt_hook|]. intros pending.
  eapply triple_bind with (Q := fun _ => at_phase (PTurn t []) [] []).
  { case_if; [apply (protocol_event_phase (Some t))|by apply triple_ret]. }
  intros []. eapply triple_pre; [by apply turn_loop_phase|]. intros w Hw. by exists t.
Qed.

Lemma prompts_phase prompts t :
  triple (at_phase (PTurn t []) [] prompts) (for_each prompts (emit_message sink)) (fun _ => may_begin true) any.
Proof.
  revert t. induction prompts as [|m prompts IH]; intros t; simpl; [apply triple_ret; intros w Hw; by exists t|].
  eapply triple_bind; [apply (emit_message_ahead sink (Some t))|]. intros [].
  destruct (after_message_opened (Some t) m) as (turn & -> & Hiff). destruct turn as [t'|]; [apply IH|naive_solver].
Qed.

Lemma start_phase prompts (ctx : AgentContext Env) env : at_phase PStart [] prompts (start_world ctx prompts env).
Proof. split; [done|]. by rewrite app_nil_r. Qed.

Lemma agent_start_phase (ms : list AgentMessage) (k : ML Env loop_exit) Q :
  (forall t, triple (at_phase (PTurn t []) [] ms) k Q any) ->
  triple (at_phase PStart [] ms) (do* emit sink agent_start in do* emit sink turn_start in k) Q any.
Proof.
  intros Hk. eapply triple_bind; [by apply (emit_phase sink agent_start PStart PRun)|]. intros [].
  eapply triple_bind; [by apply (emit_phase sink turn_start PRun (PTurn (mkTurn None []) []))|]. intros []. apply Hk.
Qed.

(** What every completed run looks like from outside. *)
Definition well_formed_run (w : loop_world Env) : Prop :=
  monitor PStart (lw_trace w) = Some PEnd /\ ended (lw_trace w) = lw_new w /\
  last (lw_trace w) = Some (agent_end (lw_new w)).

Lemma run_over_well_formed w : run_over w -> well_formed_run w.
Proof. intros [[H1 H2] [H3 _]]. rewrite !app_nil_r in H2. done. Qed.

Lemma prompt_run_over fuel prompts context config env w :
  streams_well ->
  runAgentLoop validateToolArguments sink aborted now schedule streamFn number_text fuel prompts context config env = (Ok Finished, w) ->
  run_over w.
Proof.
  intros Hs E. unfold runAgentLoop in E.
  pose proof (agent_start_phase prompts _ _ (fun t =>
    triple_bind _ _ _ _ _ _ (prompts_phase prompts t) (fun _ => runLoop_phase fuel config Hs))
    _ (start_phase prompts (push_context prompts context) env)) as H.
  cbv beta in H. by rewrite E in H.
Qed.

Lemma prompt_run_well_formed fuel prompts context config env w :
  streams_well ->
  runAgentLoop validateToolArguments sink aborted now schedule streamFn number_text fuel prompts context config env = (Ok Finished, w) ->
  well_formed_run w.
Proof. intros Hs E. apply run_over_well_formed. by eapply prompt_run_over. Qed.

(** Events are only ever added, so a run announces its prompts first. *)
Lemma emit_ended ev w : ended (lw_trace (emit sink ev w).2) = ended (lw_trace w) ++ ended [ev].
Proof. destruct (emit_spec sink ev w) as (-> & _). apply ended_app. Qed.

Lemma emit_prompts ms tr : triple (fun w => ended (lw_trace w) = tr) (for_each ms (emit_message sink)) (fun _ w => ended (lw_trace w) = tr ++ ms) any.
Proof.
  revert tr. induction ms as [|m ms IH]; intros tr; simpl; [apply triple_ret; intros w; by rewrite app_nil_r|].
  eapply triple_bind with (Q := fun _ w => ended (lw_trace w) = tr ++ [m]);
    [|intros []; eapply triple_post; [apply (IH (tr ++ [m]))|intros [] w; by rewrite <- app_assoc]].
  unfold emit_message. eapply triple_bind with (Q := fun _ w => ended (lw_trace w) = tr).
  - intros w Hw. pose proof (emit_ended (message_start m) w) as H. destruct (emit sink _ w) as [[[]|e] w']; [|done].
    cbn [snd] in H. by rewrite H, app_nil_r.
  - intros [] w Hw. pose proof (emit_ended (message_end m) w) as H. destruct (emit sink _ w) as [[[]|e] w']; [|done].
    cbn [snd] in H. by rewrite H, Hw.
Qed.

(** An invariant of the trace alone asks nothing of the surroundings. *)
Definition anything (A : Type) (f : Env -> A * Env) : Prop := True.

Lemma calm_anything (p : tool_proc Env) : calm_proc anything p.
Proof. induction p; simpl; [done|]. by split. Qed.

Lemma calm_events_anything (evs : response_events Env) : calm_events anything evs.
Proof. induction evs; simpl; [done|]. by split. Qed.

Lemma calm_tools_anything (tools : option (list (AgentTool Env))) : calm_tools anything tools.
Proof. apply List.Forall_forall. intros t _ id args. apply calm_anything. Qed.

Lemma calm_config_anything (c : AgentLoopConfig Env) : calm_config anything c.
Proof.
  constructor; unfold calm_opt; try match goal with |- match ?o with _ => _ end => destruct o end; try done;
    intros; (split; [done|]); intros; apply calm_tools_anything.
Qed.

Lemma surroundings_anything (I : list AgentEvent -> Prop) : (forall ev tr, I tr -> I (tr ++ [ev])) ->
  CalmSurroundings anything (fun tr (_ : Env) => I tr) sink now streamFn.
Proof. intros HI. constructor; try done; [by intros; apply HI|]. intros. split; [apply calm_events_anything|done]. Qed.

Lemma prompts_first fuel prompts context config env w o :
  runAgentLoop validateToolArguments sink aborted now schedule streamFn number_text fuel prompts context config env = (Ok o, w) ->
  prompts `prefix_of` ended (lw_trace w).
Proof.
  intros E. pose (I := fun tr => prompts `prefix_of` ended tr).
  assert (HI : forall ev tr, I tr -> I (tr ++ [ev])).
  { unfold I. intros ev tr Htr. rewrite ended_app. by apply prefix_app_r. }
  pose proof (surroundings_anything I HI) as Hs.
  pose proof (safe_runLoop anything (fun tr _ => I tr) validateToolArguments sink aborted now schedule streamFn number_text
    fuel config (calm_config_anything config)) as Hr.
  unfold runAgentLoop in E.
  assert (H : triple (fun w => lw_trace w = []) (do* emit sink agent_start in do* emit sink turn_start in
    do* for_each prompts (emit_message sink) in runLoop validateToolArguments sink aborted now schedule streamFn number_text fuel config)
    (fun _ w => I (lw_trace w)) any).
  { eapply triple_bind with (Q := fun _ w => ended (lw_trace w) = []).
    { intros w0 Hw. pose proof (emit_ended agent_start w0) as H. destruct (emit sink _ w0) as [[[]|e] w']; [|done]. cbn [snd] in H. by rewrite H, Hw. }
    intros []. eapply triple_bind with (Q := fun _ w => ended (lw_trace w) = []).
    { intros w0 Hw. pose proof (emit_ended turn_start w0) as H. destruct (emit sink _ w0) as [[[]|e] w']; [|done]. cbn [snd] in H. by rewrite H, Hw. }
    intros []. eapply triple_bind; [apply (emit_prompts prompts [])|]. intros [] w0 Hw.
    assert (Hi : Inv anything (fun tr _ => I tr) w0) by (split; [unfold I; by rewrite Hw|apply calm_tools_anything]).
    specialize (Hr w0 Hi). by destruct (runLoop _ _ _ _ _ _ _ _ _ w0) as [[o'|e] w']; [destruct Hr|]. }
  specialize (H (start_world (push_context prompts context) prompts env) eq_refl). by rewrite E in H.
Qed.

Lemma continued_run_well_formed fuel context config env w :
  streams_well ->
  runAgentLoopContinue validateToolArguments sink aborted now schedule streamFn number_text fuel context config env = (Ok Finished, w) ->
  well_formed_run w.
Proof.
  intros Hs E. unfold runAgentLoopContinue in E.
  pose proof (agent_start_phase [] _ _ (fun t => triple_pre _ _ _ _ _ (runLoop_phase fuel config Hs)
    (fun w Hw => ex_intro _ t Hw)) _ (start_phase [] context env)) as H. cbv beta in H.
  destruct (last (cx_messages context)) as [[]|]; try done; rewrite E in H; by apply run_over_well_formed.
Qed.

Lemma continue_refused fuel context config env :
  (exists a, last (cx_messages context) = Some (MAssistant a)) \/ cx_messages context = [] ->
  exists e, runAgentLoopContinue validateToolArguments sink aborted now schedule streamFn number_text fuel context config env
            = (Throw e, start_world context [] env).
Proof. unfold runAgentLoopContinue. intros [[a Ha]|Hn]; [rewrite Ha|rewrite Hn]; by eexists. Qed.

(** C1: a prompt run that returns has emitted a well-formed sequence of
    events: one [agent_start], turns that open and close, messages that start and
    end in place, tool executions inside the turn of the complete response that
    asked for them and each ended once, a final [agent_end]; each turn closes with
    its own response and its own tool results; and the messages announced are, in
    order, the transcript returned, which begins with the prompts. *)
Theorem runAgentLoop_well_formed fuel prompts context config env w :
  streams_well ->
  runAgentLoop validateToolArguments sink aborted now schedule streamFn number_text fuel prompts context config env = (Ok Finished, w) ->
  well_formed_run w /\ prompts `prefix_of` lw_new w.
Proof.
  intros Hs E. pose proof (prompt_run_well_formed _ _ _ _ _ _ Hs E) as Hw. split; [done|].
  destruct Hw as (_ & <- & _). by eapply prompts_first.
Qed.

(** The same for a run that continues from existing messages: its
    transcript holds the new messages only, and a context that is empty or ends
    with an assistant message is refused before any event. *)
Theorem runAgentLoopContinue_well_formed fuel context config env r w :
  streams_well ->
  runAgentLoopContinue validateToolArguments sink aborted now schedule streamFn number_text fuel context config env = (r, w) ->
  (r = Ok Finished -> well_formed_run w) /\
  ((exists a, last (cx_messages context) = Some (MAssistant a)) \/ cx_messages context = [] ->
     (exists e, r = Throw e) /\ lw_trace w = []).
Proof.
  intros Hs E. split; [intros ->; by eapply continued_run_well_formed|].
  intros Hc. destruct (continue_refused fuel context config env Hc) as [e He]. rewrite He in E.
  injection E as <- <-. split; [by eexists|done].
Qed.
End Phases.
