(* ===== verification/AgentStream.v ===== *)
(** The stream wrappers of the loop ([agent-loop/loop-control.ts]: [agentLoop],
    [agentLoopContinue]): the run pushes its events to an event stream and ends it
    with the transcript when it returns. *)
From S2P Require Import Prelude JsString Json Effects Messages Protocol LoopTypes ToolBatch Recovery AgentLoop LoopTrace EventStream.
From S2P Require Import ToolProps LoopProps.

(** [createAgentStream]: complete at [agent_end], whose messages are the result. *)
Definition agent_stream_complete (ev : AgentEvent) : bool := match ev with agent_end _ => true | _ => false end.
Definition agent_stream_result (ev : AgentEvent) : list AgentMessage := match ev with agent_end ms => ms | _ => [] end.

Abbreviation stream_op := (op (T := AgentEvent) (R := list AgentMessage)).

(** The operations of the producer; consumers may pull between any two. *)
Definition producer (o : stream_op) : bool := match o with Next _ => false | _ => true end.

Section Wrappers.
Context {Env : Type}.
Context (validateToolArguments : AgentTool Env -> ToolCall -> result jsstr json).
Context (aborted : Env -> bool) (now : Env -> Z * Env) (schedule : Env -> list nat).
Context (streamFn : Model -> LlmContext Env -> StreamOptions -> hook Env (response Env)).
Context (number_text : jsstr -> jsstr).

(** The sink [async (event) => { stream.push(event); }] returns and touches
    nothing else. *)
Definition push_sink (ev : AgentEvent) : hook Env unit := fun env => (Ok tt, env).

(** [runAgentLoop(...).then((messages) => stream.end(messages))]: what a run does
    to the stream, in order. *)
Definition stream_run (run : result jsstr loop_exit * loop_world Env) : list stream_op :=
  map Push (lw_trace run.2) ++ match run.1 with Ok Finished => [End (Some (lw_new run.2))] | _ => [] end.

Definition agentLoop (fuel : nat) (prompts : list AgentMessage) (context : AgentContext Env) (config : AgentLoopConfig Env)
    (env : Env) : list stream_op :=
  stream_run (runAgentLoop validateToolArguments push_sink aborted now schedule streamFn number_text fuel prompts context config env).

Definition agentLoopContinue (fuel : nat) (context : AgentContext Env) (config : AgentLoopConfig Env) (env : Env)
    : result jsstr (list stream_op) :=
  match last (cx_messages context) with
  | None => Throw (js "Cannot continue: no messages in context")
  | Some (MAssistant _) => Throw (js "Cannot continue from message role: assistant")
  | Some _ =>
      Ok (stream_run (runAgentLoopContinue validateToolArguments push_sink aborted now schedule streamFn number_text fuel context config env))
  end.

Lemma stream_run_only c run : Forall (only c) (stream_run run).
Proof.
  unfold stream_run. apply Forall_app. split; [by apply Forall_map, Forall_forall|].
  destruct run.1 as [[]|]; repeat constructor.
Qed.

Lemma stream_run_producer run : List.filter producer (stream_run run) = stream_run run.
Proof.
  unfold stream_run. rewrite List.filter_app. f_equal; [|by destruct run.1 as [[]|]].
  by induction (lw_trace run.2) as [|ev tr IH]; [|simpl; rewrite IH].
Qed.

(** A consumer that asks first. *)
Lemma asked_first c run : List.filter producer (Next c :: stream_run run) = stream_run run /\ Forall (only c) (Next c :: stream_run run).
Proof. split; [apply stream_run_producer|]. constructor; [done|apply stream_run_only]. Qed.

(** ** The stream of a run *)

Local Abbreviation accepted := (accepted (R := list AgentMessage) agent_stream_complete).
Local Abbreviation closed := (closed (R := list AgentMessage) agent_stream_complete).
Local Abbreviation final := (final_result agent_stream_complete agent_stream_result).
Local Abbreviation exec_ops := (exec agent_stream_complete agent_stream_result).

(** Consumers do not change what is accepted. *)
Lemma accepted_producers ops : accepted (List.filter producer ops) = accepted ops.
Proof. induction ops as [|[ev|r|c] ops IH]; simpl; [done| |done|done]. by rewrite IH. Qed.

Lemma closed_producers ops : closed (List.filter producer ops) = closed ops.
Proof.
  unfold EventStream.closed. induction ops as [|[ev|r|c] ops IH]; simpl; [done| |done|done]. by rewrite IH.
Qed.

Lemma end_results_producers ops : end_results (List.filter producer ops) = end_results ops.
Proof.
  induction ops as [|[ev|[r|]|c] ops IH]; cbn [List.filter producer]; [done|exact IH| |exact IH|exact IH].
  change (r :: end_results (List.filter producer ops) = r :: end_results ops). by rewrite IH.
Qed.

Lemma final_producers ops : final (List.filter producer ops) = final ops.
Proof.
  induction ops as [|[ev|r|c] ops IH]; simpl; [done|by rewrite IH| |done].
  destruct r as [r|]; [done|]. change (head (end_results (List.filter producer ops)) = head (end_results ops)).
  by rewrite end_results_producers.
Qed.

(** In a well-formed trace [agent_end] comes last. *)
Lemma monitor_end tr q : monitor PEnd tr = Some q -> tr = [].
Proof. by destruct tr as [|[] tr]. Qed.

Lemma monitor_agent_end p tr q : monitor p tr = Some q -> (exists ev, ev ∈ tr /\ agent_stream_complete ev = true) ->
  q = PEnd /\ exists pre ms, tr = pre ++ [agent_end ms] /\ Forall (fun ev => agent_stream_complete ev = false) pre.
Proof.
  revert p. induction tr as [|ev tr IH]; intros p Hm (x & Hx & Hc); [by apply elem_of_nil in Hx|]. simpl in Hm.
  destruct (phase_step p ev) as [p'|] eqn:Hs; [|done]. simpl in Hm. destruct (agent_stream_complete ev) eqn:Ec.
  - destruct ev as [|ms| | | | | | | | | |]; try done.
    assert (p' = PEnd) as -> by (destruct p as [| |t []| |]; simpl in Hs; first [discriminate Hs|by injection Hs as <-]).
    pose proof (monitor_end _ _ Hm) as ->. injection Hm as <-. split; [done|]. by exists [], ms.
  - destruct (IH p' Hm) as (-> & pre & ms & -> & Hall).
    { exists x. split; [|done]. apply elem_of_cons in Hx as [->|Hx]; [congruence|done]. }
    split; [done|]. exists (ev :: pre), ms. split; [done|]. by constructor.
Qed.

Lemma pushed_run pre ms rest : Forall (fun ev => agent_stream_complete ev = false) pre ->
  accepted (map Push (pre ++ [agent_end ms]) ++ rest) = pre ++ [agent_end ms] /\
  closed (map Push (pre ++ [agent_end ms]) ++ rest) = true /\
  final (map Push (pre ++ [agent_end ms]) ++ rest) = Some ms.
Proof.
  intros Hall. induction Hall as [|ev pre Hev Hall IH]; [done|]. destruct IH as (H1 & H2 & H3).
  unfold EventStream.closed in *. simpl. rewrite Hev. simpl. by rewrite H1, H2, H3.
Qed.

Lemma finished_stream (w : loop_world Env) : well_formed_run w ->
  let ops := stream_run (Ok Finished, w) in
  accepted ops = lw_trace w /\ closed ops = true /\ final ops = Some (lw_new w).
Proof.
  intros (Hm & _ & Hl). unfold stream_run. simpl. apply last_Some in Hl as [tr Htr].
  destruct (monitor_agent_end PStart (lw_trace w) PEnd Hm) as (_ & pre & ms & Ht & Hall).
  { exists (agent_end (lw_new w)). split; [rewrite Htr; apply elem_of_app; right; by left|done]. }
  assert (ms = lw_new w) as -> by (rewrite Ht in Htr; by apply app_inj_tail in Htr as [_ [= ->]]).
  rewrite Ht. by apply pushed_run.
Qed.

(** C40: the stream of a run that returns: however the consumer's pulls fall
    between the producer's pushes, a single consumer that keeps pulling receives
    exactly the events the run emitted, in order and once each, then the end; and
    the result of the stream is the transcript of the run. *)
Theorem agentLoop_stream fuel prompts context config env w ops c :
  streams_well streamFn ->
  runAgentLoop validateToolArguments push_sink aborted now schedule streamFn number_text fuel prompts context config env = (Ok Finished, w) ->
  List.filter producer ops = agentLoop fuel prompts context config env -> Forall (only c) ops ->
  exists k, let '(out, s) := exec_ops (ops ++ replicate k (Next c)) new_EventStream in
    values out = lw_trace w /\ last out = Some (c, None) /\ es_final s = Some (lw_new w).
Proof.
  intros Hs E Hp Hc. unfold agentLoop in Hp. rewrite E in Hp.
  destruct (finished_stream w (prompt_run_well_formed _ _ _ _ _ _ _ _ _ _ _ _ _ Hs E)) as (Ha & Hcl & Hf).
  rewrite <- Hp, accepted_producers in Ha. rewrite <- Hp, closed_producers in Hcl. rewrite <- Hp, final_producers in Hf.
  destruct (single_consumer agent_stream_complete agent_stream_result c ops Hc Hcl) as [k Hk]. exists k.
  pose proof (exec_open agent_stream_complete agent_stream_result (ops ++ replicate k (Next c)) new_EventStream new_ok eq_refl) as He.
  destruct (exec_ops _ _) as [out s]. destruct He as (_ & _ & He), Hk as [Hv Hl]. rewrite Hv, Ha, He. split; [done|]. split; [done|].
  rewrite <- Hf, <- (final_producers ops), <- final_producers, List.filter_app.
  assert (List.filter producer (replicate k (Next c)) = []) as -> by (clear; induction k; [done|done]). by rewrite app_nil_r.
Qed.

(** A run that fails, because a hook throws, before it announced its end
    leaves the stream open for ever: whatever the consumers do the stream is never
    done, its result is never resolved and a consumer that has read every event
    waits without end. *)
Theorem agentLoop_rejection_unsettled fuel prompts context config env e w ops :
  runAgentLoop validateToolArguments push_sink aborted now schedule streamFn number_text fuel prompts context config env = (Throw e, w) ->
  Forall (fun ev => agent_stream_complete ev = false) (lw_trace w) ->
  List.filter producer ops = agentLoop fuel prompts context config env ->
  let '(out, s) := exec_ops ops new_EventStream in
  es_done s = false /\ es_final s = None /\ forall c, (c, None) ∉ out.
Proof.
  intros E Hall Hp. unfold agentLoop, stream_run in Hp. rewrite E in Hp. cbn [fst snd] in Hp. rewrite app_nil_r in Hp.
  assert (Hcl : closed ops = false).
  { rewrite <- closed_producers, Hp. clear -Hall. unfold EventStream.closed. induction Hall as [|ev tr Hev Hall IH]; [done|]. simpl. by rewrite Hev. }
  assert (Hf : final ops = None).
  { rewrite <- final_producers, Hp. clear -Hall. induction Hall as [|ev tr Hev Hall IH]; simpl; [done|by rewrite Hev]. }
  pose proof (exec_open agent_stream_complete agent_stream_result ops new_EventStream new_ok eq_refl) as He.
  pose proof (exec_unclosed agent_stream_complete agent_stream_result ops new_EventStream Hcl eq_refl) as Hn.
  destruct (exec_ops ops new_EventStream) as [out s]. destruct He as (_ & -> & ->). done.
Qed.
End Wrappers.
