(* ===== verification/AgentProps.v ===== *)
(** Theorems about the stateful agent: the transcript it keeps is the one the
    loop produced, failures are recorded, and every run leaves it idle. *)
From S2P Require Import Prelude JsString Json Effects Messages Protocol LoopTypes Queue ToolBatch Recovery AgentLoop LoopEnv Agent LoopTrace.
From S2P Require Import ToolProps LoopProps.

Section AgentRuns.
Context {U : Type}.
Local Abbreviation Ag := (Agent U).

(** What a run determines, and user code has to leave alone: the transcript, the
    message being streamed, the running tools, the error, and that a run is active. *)
Definition run_view (a : Ag) : list AgentMessage * option AgentMessage * gset jsstr * option jsstr * bool :=
  (ag_messages a, ag_streamingMessage a, ag_pendingToolCalls a, ag_errorMessage a, bool_decide (is_Some (ag_activeRun a))).

Definition polite (A : Type) (f : Ag -> A * Ag) : Prop := forall a, run_view (f a).2 = run_view a.

(** The state after a list of events. *)
Definition reduce_events (evs : list AgentEvent) (a : Ag) : Ag := fold_left (fun a ev => reduce_event ev a) evs a.

(** The agent has processed exactly the events emitted. *)
Definition follows (a0 : Ag) (tr : list AgentEvent) (a : Ag) : Prop := run_view a = run_view (reduce_events tr a0).

Lemma reduce_event_view ev a b : run_view a = run_view b -> run_view (reduce_event ev a) = run_view (reduce_event ev b).
Proof. unfold run_view. intros [= H1 H2 H3 H4 H5]. destruct ev; simpl; rewrite ?H1, ?H2, ?H3, ?H4, ?H5; done. Qed.

Lemma reduce_events_app evs evs' a : reduce_events (evs ++ evs') a = reduce_events evs' (reduce_events evs a).
Proof. apply fold_left_app. Qed.

Lemma follows_event a0 tr a ev : follows a0 tr a -> follows a0 (tr ++ [ev]) (reduce_event ev a).
Proof. unfold follows. rewrite reduce_events_app. apply reduce_event_view. Qed.

Lemma reduce_events_messages tr a : ag_messages (reduce_events tr a) = ag_messages a ++ ended tr.
Proof.
  revert a. induction tr as [|ev tr IH]; intros a; simpl; [by rewrite app_nil_r|]. rewrite IH.
  destruct ev; simpl; try done. by rewrite <- app_assoc.
Qed.

Lemma reduce_events_active tr a : ag_activeRun (reduce_events tr a) = ag_activeRun a.
Proof. revert a. induction tr as [|ev tr IH]; intros a; simpl; [done|]. rewrite IH. by destruct ev. Qed.

Lemma follows_messages a0 tr a : follows a0 tr a -> ag_messages a = ag_messages a0 ++ ended tr.
Proof. intros H. rewrite <- reduce_events_messages. by injection H. Qed.

Lemma follows_active a0 tr a : follows a0 tr a -> is_Some (ag_activeRun a0) -> is_Some (ag_activeRun a).
Proof.
  intros H Ha. assert (Hb : bool_decide (is_Some (ag_activeRun a)) = bool_decide (is_Some (ag_activeRun (reduce_events tr a0))))
    by by injection H. rewrite reduce_events_active, (bool_decide_eq_true_2 _ Ha) in Hb. by apply bool_decide_eq_true in Hb.
Qed.

(** ** Polite user code *)

Context (parts : AgentParts U).
Context (validateToolArguments : AgentTool Ag -> ToolCall -> result jsstr json).
Context (now : Ag -> Z * Ag) (schedule : Ag -> list nat).
Context (streamFn : Model -> LlmContext Ag -> StreamOptions -> hook Ag (response Ag)).
Context (number_text : jsstr -> jsstr).

(** The tools, hooks, listeners, clock and provider may queue messages, abort,
    and change anything but the run view; replacement contexts bring polite tools. *)
Record polite_code : Prop := mkPolite {
  po_listeners : Forall (fun l => forall ev, polite _ (l ev)) (ap_listeners parts);
  po_tools : Forall (calm_tool polite) (ap_tools parts);
  po_config : forall a, calm_config polite (do_createLoopConfig parts a);
  po_now : polite Z now;
  po_stream : forall model llm opts, polite _ (streamFn model llm opts);
  po_response : forall model llm opts a r a', streamFn model llm opts a = (Ok r, a') ->
    calm_events polite (rs_events r) /\ polite _ (rs_result r);
}.

(** The agent's own hooks are polite, so only the options remain to check. *)
Lemma polite_steering : polite _ (getSteeringMessages (U := U)).
Proof. intros a. unfold getSteeringMessages. destruct (ag_skipInitialSteeringPoll a); [done|]. by destruct (drain _). Qed.

Lemma polite_followUp : polite _ (getFollowUpMessages (U := U)).
Proof. intros a. unfold getFollowUpMessages. by destruct (drain _). Qed.

Lemma notify_view ev ls a : Forall (fun l => forall ev, polite _ (l ev)) ls ->
  run_view (notify ls ev a).2 = run_view a.
Proof.
  intros Hl. revert a. induction Hl as [|l ls Hl Hls IH]; intros a; simpl; [done|].
  specialize (Hl ev a). destruct (l ev a) as [[[]|e] a']; cbn [snd] in *; [|exact Hl]. by rewrite IH.
Qed.

Lemma process_view ev a : polite_code -> run_view (do_processEvents (ap_listeners parts) ev a).2 = run_view (reduce_event ev a).
Proof.
  intros Hp. unfold do_processEvents. destruct (ag_activeRun (reduce_event ev a)); [|done]. apply notify_view, Hp.
Qed.

Lemma surroundings a0 : polite_code ->
  CalmSurroundings polite (follows a0) (do_processEvents (ap_listeners parts)) now streamFn.
Proof.
  intros Hp. constructor.
  - intros A f Hf tr a Hfol. unfold follows. by rewrite (Hf a).
  - by intros A x a.
  - intros ev tr a Hfol. unfold follows. rewrite (process_view ev a Hp). by apply follows_event.
  - apply Hp.
  - apply Hp.
  - apply Hp.
Qed.

(** ** Runs *)

Local Abbreviation prompt_run := (prompt_run parts validateToolArguments now schedule streamFn number_text).
Local Abbreviation continuation_run := (continuation_run parts validateToolArguments now schedule streamFn number_text).

Lemma skip_poll_view skip a : run_view (skip_poll skip a) = run_view a.
Proof. done. Qed.

Lemma prompt_follows fuel skip messages a : polite_code ->
  let w := (prompt_run fuel skip messages a).2 in follows (skip_poll skip a) (lw_trace w) (lw_env w).
Proof.
  intros Hp. pose proof (surroundings (skip_poll skip a) Hp) as Hs.
  apply (runAgentLoop_maintains polite (follows (skip_poll skip a))); [exact Hs|apply Hp|apply Hp|done].
Qed.

Lemma continuation_follows fuel a : polite_code ->
  let w := (continuation_run fuel a).2 in follows (skip_poll false a) (lw_trace w) (lw_env w).
Proof.
  intros Hp. pose proof (surroundings (skip_poll false a) Hp) as Hs.
  apply (runAgentLoopContinue_maintains polite (follows (skip_poll false a))); [exact Hs|apply Hp|apply Hp|done].
Qed.

Definition idle (a : Ag) : Prop :=
  ag_activeRun a = None /\ ag_isStreaming a = false /\ ag_streamingMessage a = None /\ ag_pendingToolCalls a = ∅.

Lemma finish_idle a : idle (do_finishRun a).
Proof. done. Qed.

(** A run that is over leaves the agent idle, and one that is refused leaves it
    as it was. *)
Lemma lifecycle_idle executor a r a' :
  do_runWithLifecycle parts now executor a = (r, a') -> r <> Ok OutOfFuel -> ag_activeRun a = None -> idle a'.
Proof.
  intros E Hr Ha. unfold do_runWithLifecycle in E. rewrite Ha in E.
  destruct (executor (begin_run a)) as [[[]|err] a1]; [by injection E as <- <-|by injection E as <- <-|].
  destruct (do_handleRunFailure _ _ _ _ _) as [[?|?] a2]; by injection E as <- <-.
Qed.

(** The failure path records the error in the transcript and in the state. *)
Lemma process_all_follows evs a : polite_code ->
  (process_all parts evs a).1 = Ok tt -> run_view (process_all parts evs a).2 = run_view (reduce_events evs a).
Proof.
  intros Hp. revert a. induction evs as [|ev evs IH]; intros a; simpl; [done|].
  pose proof (process_view ev a Hp) as Hv. destruct (do_processEvents _ ev a) as [[[]|e] a']; [|done].
  intros Hok. rewrite (IH a' Hok). clear -Hv. cbn [snd] in Hv. revert Hv. generalize (reduce_event ev a). clear.
  revert a'. induction evs as [|ev evs IH]; intros a b Hv; simpl; [done|]. by apply IH, reduce_event_view.
Qed.

(** How a run ended: the transcript of a run that returned, or what was announced
    before a failure and the message that reports it. *)
Definition recorded (a a' : Ag) (run : result jsstr loop_exit * loop_world Ag) : Prop :=
  match run.1 with
  | Ok _ => ag_messages a' = ag_messages a ++ lw_new run.2
  | Throw error => exists m,
      ag_messages a' = ag_messages a ++ ended (lw_trace run.2) ++ [MAssistant m] /\
      am_errorMessage m = Some error /\ is_failed_response m = true /\ (error <> [] -> ag_errorMessage a' = Some error)
  end.

Lemma lifecycle_recorded run (a a' : Ag) : polite_code -> ag_activeRun a = None ->
  let w := run (begin_run a) in
  (w.1 = Ok Finished -> well_formed_run w.2) ->
  (exists a0, run_view a0 = run_view (begin_run a) /\ follows a0 (lw_trace w.2) (lw_env w.2)) ->
  do_runWithLifecycle parts now (fun a => let '(r, w) := run a in (r, lw_env w)) a = (Ok Finished, a') ->
  idle a' /\ recorded a a' w.
Proof.
  intros Hp Ha w Hwf (a0 & Hv0 & Hfol) E. split; [by eapply lifecycle_idle|].
  assert (Hm0 : ag_messages a0 = ag_messages a) by by injection Hv0.
  pose proof (follows_messages _ _ _ Hfol) as Hm. rewrite Hm0 in Hm.
  unfold do_runWithLifecycle in E. rewrite Ha in E. fold w in E. unfold recorded.
  destruct w as [[[]|error] w']; cbn [fst snd] in *.
  - injection E as <-. simpl. rewrite Hm. f_equal. by destruct (Hwf eq_refl) as (_ & <- & _).
  - done.
  - unfold do_handleRunFailure in E. pose proof (po_now Hp (lw_env w')) as Hn.
    destruct (now (lw_env w')) as [ts a1]. cbn [snd] in Hn. set (m := failure_message _ _ _ _) in E.
    pose proof (process_all_follows [message_start (MAssistant m); message_end (MAssistant m); turn_end m []; agent_end [MAssistant m]] a1 Hp) as Hall.
    destruct (process_all _ _ _) as [[[]|e] a2]; [|done]. injection E as <-. specialize (Hall eq_refl). cbn [snd] in Hall.
    exists m. assert (Hm1 : ag_messages a1 = ag_messages (lw_env w')) by by injection Hn.
    injection Hall as H1 _ _ H4 _. simpl. simpl in H1. rewrite H1, Hm1, Hm, <- app_assoc. split_and!; [done|done|by destruct (signal_aborted _)|].
    intros He. rewrite H4. simpl. by destruct error.
Qed.

Lemma prompt_messages_recorded fuel skip messages a a' :
  polite_code -> streams_well streamFn -> ag_activeRun a = None ->
  do_runPromptMessages parts validateToolArguments now schedule streamFn number_text fuel messages skip a = (Ok Finished, a') ->
  let run := prompt_run fuel skip messages (begin_run a) in
  idle a' /\ recorded a a' run /\ (run.1 = Ok Finished -> messages `prefix_of` lw_new run.2).
Proof.
  intros Hp Hs Ha E run.
  assert (Hwf : run.1 = Ok Finished -> well_formed_run run.2).
  { intros Er. apply (prompt_run_well_formed validateToolArguments (do_processEvents (ap_listeners parts)) signal_aborted now schedule streamFn number_text fuel messages (do_createContextSnapshot parts (begin_run a))
      (do_createLoopConfig parts (begin_run a)) (skip_poll skip (begin_run a)) _ Hs). unfold run in *. unfold Agent.prompt_run in *.
    destruct (runAgentLoop _ _ _ _ _ _ _ _ _ _ _ _) as [r w]. simpl in *. by rewrite Er. }
  destruct (lifecycle_recorded (prompt_run fuel skip messages) a a' Hp Ha Hwf) as [Hi Hr]; [|exact E|].
  { exists (skip_poll skip (begin_run a)). split; [done|]. by apply prompt_follows. }
  split; [done|]. split; [done|]. intros Er. destruct (Hwf Er) as (_ & <- & _).
  apply (prompts_first validateToolArguments (do_processEvents (ap_listeners parts)) signal_aborted now schedule streamFn number_text fuel messages
    (do_createContextSnapshot parts (begin_run a)) (do_createLoopConfig parts (begin_run a)) (skip_poll skip (begin_run a)) _ Finished).
  unfold run, Agent.prompt_run in *. destruct (runAgentLoop _ _ _ _ _ _ _ _ _ _ _ _) as [r w]. simpl in *. by rewrite Er.
Qed.

(** C39: what [prompt] leaves behind when it returns, given user code that does
    not meddle with the transcript: the agent is idle with no tool pending; if the
    loop returned, the transcript has grown by exactly the messages of the run, the
    prompts first; if a hook or listener failed it, by the messages announced before
    and one message that reports the error, which is also the agent's error. *)
Theorem prompt_recorded fuel messages a a' :
  polite_code -> streams_well streamFn -> ag_activeRun a = None ->
  do_prompt parts validateToolArguments now schedule streamFn number_text fuel (PMessages messages) a = (Ok Finished, a') ->
  let run := prompt_run fuel false messages (begin_run a) in
  idle a' /\ recorded a a' run /\ (run.1 = Ok Finished -> messages `prefix_of` lw_new run.2).
Proof.
  intros Hp Hs Ha E. unfold do_prompt in E. rewrite Ha in E. by apply prompt_messages_recorded.
Qed.

(** The messages [continue] takes from the queues when the transcript ends with
    an answer, a steering group or else a follow-up group, and the agent without
    them. *)
Definition continued_with (a : Ag) : list AgentMessage :=
  let steering := (drain (ag_steeringQueue a)).1 in
  if is_empty steering then (drain (ag_followUpQueue a)).1 else steering.

Definition drained (a : Ag) : Ag :=
  let '(steering, q) := drain (ag_steeringQueue a) in
  let q' := if is_empty steering then (drain (ag_followUpQueue a)).2 else ag_followUpQueue a in
  with_queues a q q' (ag_skipInitialSteeringPoll a).

(** The run [continue] starts. *)
Definition continue_run (fuel : nat) (a : Ag) : result jsstr loop_exit * loop_world Ag :=
  match last (ag_messages a) with
  | Some (MAssistant _) =>
      prompt_run fuel (negb (is_empty (drain (ag_steeringQueue a)).1)) (continued_with a) (begin_run (drained a))
  | _ => continuation_run fuel (begin_run a)
  end.

(** What [continue] leaves behind when it returns: the agent is idle, and
    the transcript has grown by the run it started; after an answer of the assistant
    that run starts with the oldest queued steering messages, or follow-ups when there
    are none, so that an answer is never continued by itself. *)
Theorem continue_recorded fuel a a' :
  polite_code -> streams_well streamFn -> ag_activeRun a = None ->
  do_continue parts validateToolArguments now schedule streamFn number_text fuel a = (Ok Finished, a') ->
  let run := continue_run fuel a in
  idle a' /\ recorded a a' run /\
  forall m, last (ag_messages a) = Some (MAssistant m) ->
    continued_with a <> [] /\ (run.1 = Ok Finished -> continued_with a `prefix_of` lw_new run.2).
Proof.
  intros Hp Hs Ha E. unfold do_continue in E. rewrite Ha in E. unfold continue_run.
  assert (Hcont : do_runContinuation parts validateToolArguments now schedule streamFn number_text fuel a = (Ok Finished, a') ->
    idle a' /\ recorded a a' (continuation_run fuel (begin_run a))).
  { intros E'. assert (Hwf : (continuation_run fuel (begin_run a)).1 = Ok Finished -> well_formed_run (continuation_run fuel (begin_run a)).2).
    { intros Er. apply (continued_run_well_formed validateToolArguments (do_processEvents (ap_listeners parts)) signal_aborted now schedule streamFn
        number_text fuel (do_createContextSnapshot parts (begin_run a)) (do_createLoopConfig parts (begin_run a)) (skip_poll false (begin_run a)) _ Hs).
      unfold Agent.continuation_run in *. destruct (runAgentLoopContinue _ _ _ _ _ _ _ _ _ _ _) as [r w]. simpl in *. by rewrite Er. }
    apply (lifecycle_recorded (continuation_run fuel) a a' Hp Ha Hwf); [|exact E'].
    exists (skip_poll false (begin_run a)). split; [done|]. by apply continuation_follows. }
  destruct (last (ag_messages a)) as [[u|am|t|b|c|br|cs]|] eqn:El; try done;
    try (destruct (Hcont E) as [Hi Hr]; split; [done|]; split; [done|]; by intros m).
  unfold continued_with, drained. destruct (drain (ag_steeringQueue a)) as [steering q] eqn:Es. cbn [fst].
  destruct steering as [|s steering]; cbn [is_empty negb] in *.
  - cbn [ag_followUpQueue with_queues] in E. destruct (drain (ag_followUpQueue a)) as [followUps q'] eqn:Ef. cbn [fst snd].
    destruct followUps as [|f followUps]; cbn [is_empty negb] in E; [done|].
    destruct (prompt_messages_recorded _ _ _ (with_queues _ _ _ _) _ Hp Hs Ha E) as (Hi & Hr & Hpre). by split_and!.
  - destruct (prompt_messages_recorded _ _ _ (with_queues _ _ _ _) _ Hp Hs Ha E) as (Hi & Hr & Hpre). by split_and!.
Qed.
End AgentRuns.
