(* ===== verification/ProtocolProps.v ===== *)
(** Theorems about the completion protocol in the loop: the counters stay
    within their limits, a run ends within its turn limit, and an explicit run
    ends only by an error, a tool that terminates it, or [finish_work]. *)
From S2P Require Import Prelude JsString Json Effects Messages Protocol LoopTypes ToolBatch Recovery AgentLoop LoopTrace ToolProps LoopProps.
#[local] Open Scope eff.

(** ** What a computation leaves alone *)

Section Keeps.
Context {Env : Type}.

(** [view] of the world is the same afterwards, whether the call returns or throws. *)
Definition keeps {X A} (view : loop_world Env -> X) (c : ML Env A) : Prop := forall w, view (c w).2 = view w.

Section View.
Context {X : Type} (view : loop_world Env -> X).

Lemma keeps_ret {A} (a : A) : keeps view (ret a).
Proof. by intros w. Qed.
Lemma keeps_throw {A} e : keeps view (throw (A := A) e).
Proof. by intros w. Qed.
Lemma keeps_pure {A} (r : loop_world Env -> result jsstr A) : keeps view (fun w => (r w, w)).
Proof. by intros w. Qed.
Lemma keeps_bind {A B} (c : ML Env A) (k : A -> ML Env B) : keeps view c -> (forall a, keeps view (k a)) -> keeps view (bind c k).
Proof.
  intros Hc Hk w. unfold bind. specialize (Hc w). destruct (c w) as [[a|e] w1]; [|done].
  simpl in Hc. by rewrite Hk.
Qed.
Lemma keeps_catch {A} (c : ML Env A) h : keeps view c -> (forall e, keeps view (h e)) -> keeps view (catch c h).
Proof.
  intros Hc Hh w. unfold catch. specialize (Hc w). destruct (c w) as [[a|e] w1]; [done|].
  simpl in Hc. by rewrite Hh.
Qed.
Lemma keeps_for_each {A} (l : list A) f : (forall x, keeps view (f x)) -> keeps view (for_each l f).
Proof. intros Hf. induction l; simpl; [apply keeps_ret|]. by apply keeps_bind. Qed.
End View.

(** Views of the counters. *)
Definition on_state {X} (f : CompletionProtocolState -> X) (w : loop_world Env) : X := f (lw_state w).

Section StateView.
Context {X : Type} (f : CompletionProtocolState -> X).

Lemma keeps_quiet {A} (c : ML Env A) : quiet c -> keeps (on_state f) c.
Proof. intros Hc w. unfold on_state. by destruct (Hc w) as (_ & _ & ->). Qed.
Lemma keeps_emit sink ev : keeps (on_state f) (emit sink ev).
Proof. intros w. unfold on_state. by destruct (emit_spec sink ev w) as (_ & _ & ->). Qed.
Lemma keeps_new_push m : keeps (on_state f) (new_push m).
Proof. by intros w. Qed.
Lemma keeps_update g : (forall s, f (g s) = f s) -> keeps (on_state f) (update_state g).
Proof. intros Hg w. apply Hg. Qed.
End StateView.
End Keeps.

#[export] Hint Resolve keeps_ret keeps_throw keeps_pure keeps_bind keeps_catch keeps_for_each keeps_quiet keeps_emit
  keeps_new_push keeps_update : agent.

(** Decompose a computation and close the leaves. *)
Ltac keeps_tac :=
  repeat first
    [ apply keeps_ret | apply keeps_throw | apply keeps_emit | apply keeps_new_push
    | apply keeps_quiet; solve [auto with agent]
    | apply keeps_bind; [|intros ?] | apply keeps_catch; [|intros ?] | apply keeps_for_each; intros ?
    | match goal with
      | |- keeps _ (match ?x with _ => _ end) => destruct x
      | |- keeps _ (if ?x then _ else _) => destruct x
      end ].

Section Counters.
Context {Env : Type}.
Context (validateToolArguments : AgentTool Env -> ToolCall -> result jsstr json).
Context (sink : AgentEvent -> hook Env unit) (aborted : Env -> bool) (now : Env -> Z * Env)
  (schedule : Env -> list nat).
Context (streamFn : Model -> LlmContext Env -> StreamOptions -> hook Env (response Env)).
Context (number_text : jsstr -> jsstr).
Context {X : Type} (f : CompletionProtocolState -> X).

Local Abbreviation steady c := (keeps (on_state f) c).

(** Tools do not touch the counters. *)
Lemma steady_report call report rejected : steady (report_update (Env := Env) sink call report rejected).
Proof. unfold report_update. keeps_tac. Qed.

Lemma steady_run_proc call proc rejected : steady (run_proc (Env := Env) sink call proc rejected).
Proof.
  revert rejected. induction proc as [settle|report rest IH]; intros rejected; simpl.
  - apply keeps_quiet, settle_call_quiet.
  - intros w. unfold bind. pose proof (steady_report call report rejected w) as H.
    destruct (report_update sink call report rejected w) as [[r|e] w1]; [|done]. simpl in H. by rewrite IH.
Qed.

Lemma steady_finalize ctx am call args effect executed config : steady (finalizeExecutedToolCall (Env := Env) ctx am call args effect executed config).
Proof. apply keeps_quiet, finalize_quiet. Qed.

Lemma steady_run_call ctx am config call : steady (run_call validateToolArguments sink aborted ctx am config call).
Proof.
  unfold run_call. apply keeps_bind; [apply keeps_quiet, prepareToolCall_quiet|]. intros [call' tool args effect|r b]; [|apply keeps_ret].
  apply keeps_bind; [apply steady_run_proc|]. intros. apply steady_finalize.
Qed.

Lemma steady_sequential ctx am config calls : steady (sequential_calls validateToolArguments sink aborted now ctx am config calls).
Proof.
  induction calls as [|call calls IH]; simpl; [apply keeps_ret|].
  apply keeps_bind; [apply keeps_emit|]. intros []. apply keeps_bind; [apply steady_run_call|]. intros fz.
  unfold emitToolExecutionEnd, createToolResultMessage, emitToolResultMessage, emit_message. keeps_tac. done.
Qed.

Lemma steady_step_task ctx am config t : steady (step_task (Env := Env) sink ctx am config t).
Proof.
  destruct t as [call args effect [settle|report rest] rejected|call args effect executed|fz|fz]; simpl.
  - apply keeps_bind; [apply keeps_quiet, settle_call_quiet|]. intros. apply keeps_ret.
  - intros w. unfold bind. pose proof (steady_report call report rejected w) as H.
    by destruct (report_update sink call report rejected w) as [[r|e] w1].
  - apply keeps_bind; [apply steady_finalize|]. intros. apply keeps_ret.
  - apply keeps_bind; [apply keeps_emit|]. intros. apply keeps_ret.
  - apply keeps_ret.
Qed.

Lemma steady_drain_task ctx am config t : steady (drain_task (Env := Env) sink ctx am config t).
Proof.
  assert (Hfin : forall fz, steady (do* emitToolExecutionEnd (Env := Env) sink fz in ret fz)).
  { intros. apply keeps_bind; [apply keeps_emit|]. intros. apply keeps_ret. }
  destruct t as [call args effect proc rejected|call args effect executed|fz|fz]; simpl; [| |apply Hfin|apply keeps_ret].
  - apply keeps_bind; [apply steady_run_proc|]. intros. apply keeps_bind; [apply steady_finalize|]. intros. apply Hfin.
  - apply keeps_bind; [apply steady_finalize|]. intros. apply Hfin.
Qed.

Lemma steady_parallel ctx am config calls :
  steady (executeToolCallsParallel validateToolArguments sink aborted now schedule ctx am config calls).
Proof.
  unfold executeToolCallsParallel. apply keeps_bind.
  { induction calls as [|call calls IH]; simpl; [apply keeps_ret|]. apply keeps_bind; [apply keeps_emit|]. intros [].
    apply keeps_bind.
    - unfold prepare_entry. apply keeps_bind; [apply keeps_quiet, prepareToolCall_quiet|]. intros [call' tool args effect|r b]; [apply keeps_ret|].
      apply keeps_bind; [apply keeps_emit|]. intros. apply keeps_ret.
    - intros x. apply keeps_bind; [by intros w|]. intros []; [apply keeps_ret|]. apply keeps_bind; [done|]. intros. apply keeps_ret. }
  intros entries. apply keeps_bind; [by intros w|]. intros order. apply keeps_bind.
  { revert entries. induction order as [|i order IH]; intros entries; simpl; [apply keeps_ret|].
    destruct (entries !! i); [|apply IH]. apply keeps_bind; [apply steady_step_task|]. intros. apply IH. }
  intros tasks. apply keeps_bind.
  { induction tasks as [|t tasks IH]; simpl; [apply keeps_ret|]. apply keeps_bind; [apply steady_drain_task|]. intros.
    apply keeps_bind; [done|]. intros. apply keeps_ret. }
  intros fs. apply keeps_bind; [|intros; apply keeps_ret].
  induction fs as [|fz fs IH]; simpl; [apply keeps_ret|].
  unfold createToolResultMessage, emitToolResultMessage, emit_message. keeps_tac. done.
Qed.

Lemma steady_execute_turn_tools mode message config :
  steady (execute_turn_tools validateToolArguments sink aborted now schedule mode message config).
Proof.
  unfold execute_turn_tools. destruct (executes_tools mode message); [|apply keeps_ret].
  apply keeps_bind; [by intros w|]. intros ctx. apply keeps_bind.
  - unfold executeToolCalls. case_if; [|apply steady_parallel]. unfold executeToolCallsSequential.
    apply keeps_bind; [apply steady_sequential|]. intros. apply keeps_ret.
  - intros b. keeps_tac.
Qed.

(** Streaming does not touch the counters either. *)
Lemma steady_forward ev m v : steady (forward_event (Env := Env) sink ev m v).
Proof. unfold forward_event. apply keeps_bind; [apply keeps_quiet, replace_last_quiet|]. intros. keeps_tac. Qed.

Lemma steady_stream_event ev v : steady (stream_event (Env := Env) sink now ev v).
Proof.
  destruct ev; simpl; try apply steady_forward; try apply keeps_ret.
  - keeps_tac.
  - apply keeps_bind; [unfold report_prefill; keeps_tac|]. intros. apply steady_forward.
  - apply keeps_bind; [unfold report_generation; keeps_tac|]. intros. apply steady_forward.
  - apply keeps_bind; [apply keeps_quiet, replace_last_quiet|]. intros [].
    apply keeps_bind; [unfold report_cold; keeps_tac|]. intros. keeps_tac.
Qed.

Lemma steady_finish_response result v : steady (finish_response validateToolArguments sink now number_text result v).
Proof.
  unfold finish_response, normalizeAssistantToolCalls. keeps_tac; apply keeps_quiet; [apply recover_quiet|apply replace_last_quiet].
Qed.

Lemma steady_consume events result v : steady (consume validateToolArguments sink now number_text events result v).
Proof.
  revert v. induction events as [|pull rest IH]; intros v; simpl; [apply steady_finish_response|].
  intros w. unfold bind at 1, ask_env at 1, call_hook at 1. destruct (pull (lw_env w)) as [ev env].
  destruct (is_final_event ev); [by rewrite steady_finish_response|]. unfold bind.
  pose proof (steady_stream_event ev v (set_env env w)) as H.
  destruct (stream_event sink now ev v (set_env env w)) as [[v'|e] w1]; [|done]. by rewrite IH.
Qed.

Lemma steady_stream config : steady (streamAssistantResponse validateToolArguments sink now streamFn number_text config).
Proof.
  unfold streamAssistantResponse. apply keeps_bind; [apply keeps_quiet, prepare_request_quiet|]. intros [llm mx].
  apply keeps_bind; [apply keeps_quiet, quiet_opt_hook|]. intros key. apply keeps_bind; [apply keeps_emit|]. intros [].
  apply keeps_bind; [apply keeps_quiet, quiet_call_hook|]. intros r. apply steady_consume.
Qed.

Lemma steady_agent_end : steady (emit_agent_end (Env := Env) sink).
Proof. unfold emit_agent_end. keeps_tac. Qed.

Lemma steady_failure config mode ev d started : steady (emitProtocolFailure (Env := Env) sink now config mode ev d started).
Proof. unfold emitProtocolFailure, createTerminalAssistantMessage, push_terminal, emit_message, emit_agent_end. keeps_tac. Qed.

Lemma steady_push_all ms : steady (for_each ms (emit_and_push (Env := Env) sink)).
Proof. unfold emit_and_push, emit_message. keeps_tac. Qed.

Lemma steady_next_turn message results config : steady (prepareAgentNextTurn (Env := Env) sink message results config).
Proof.
  unfold prepareAgentNextTurn. keeps_tac; unfold emit_and_push, emit_message; keeps_tac.
Qed.

Lemma steady_end_turn mode message config results d implicitTurn more :
  steady (end_turn (Env := Env) sink aborted now mode message config results d implicitTurn more).
Proof.
  unfold end_turn. apply keeps_bind; [apply steady_next_turn|]. intros config'.
  unfold emitAbortedTurn, createTerminalAssistantMessage, push_terminal, emit_message, emit_agent_end. keeps_tac.
Qed.
End Counters.

(** ** Runs whose protocol stays within some modes *)

Section Runs.
Context {Env : Type}.
Context (validateToolArguments : AgentTool Env -> ToolCall -> result jsstr json).
Context (sink : AgentEvent -> hook Env unit) (aborted : Env -> bool) (now : Env -> Z * Env)
  (schedule : Env -> list nat).
Context (streamFn : Model -> LlmContext Env -> StreamOptions -> hook Env (response Env)).
Context (number_text : jsstr -> jsstr).

(** The mode the configuration selects, and any mode its hook between turns
    switches to, is one of those allowed. *)
Definition protocol_stays (allowed : CompletionMode -> Prop) (limits : option CompletionLimitOptions) (c : AgentLoopConfig Env) : Prop :=
  allowed (resolveCompletionMode c) /\ cf_completionLimits c = limits /\
  forall prepare info env u env' mode, cf_prepareNextTurn c = Some prepare ->
    prepare info env = (Ok (Some u), env') -> tu_completionMode u = Some mode -> allowed mode.

(** The modes with a completion protocol: hybrid and explicit. *)
Definition protocol_on (mode : CompletionMode) : Prop := isCompletionProtocolEnabled mode = true.

(** A triple with no precondition on the world. *)
Abbreviation always c Q := (triple (fun _ : loop_world Env => True) c (fun a _ => Q a) any).

Lemma always_pure {A} (c : ML Env A) (P : Prop) (Q : A -> Prop) :
  (P -> always c Q) -> triple (fun _ => P) c (fun a _ => Q a) any.
Proof. intros H w HP. by apply H. Qed.

Lemma always_frame {A} (c : ML Env A) (Q : A -> Prop) {X} (view : loop_world Env -> X) (x : X) :
  always c Q -> keeps view c -> triple (fun w => view w = x) c (fun a w => Q a /\ view w = x) any.
Proof.
  intros Hc Hk w <-. specialize (Hc w I). specialize (Hk w). destruct (c w) as [[a|e] w']; [|done]. by split.
Qed.

Lemma keeps_triple {A} (c : ML Env A) {X} (view : loop_world Env -> X) (P : X -> Prop) :
  keeps view c -> triple (fun w => P (view w)) c (fun _ w => P (view w)) any.
Proof. intros Hk w Hw. specialize (Hk w). destruct (c w) as [[a|e] w']; [|done]. simpl in Hk. by rewrite Hk. Qed.

Lemma triple_const {A} (F : Prop) (c : ML Env A) : triple (fun _ => F) c (fun _ _ => F) any.
Proof. intros w Hw. by destruct (c w) as [[a|e] w']. Qed.

Lemma triple_any {A} P (c : ML Env A) : triple P c (fun _ _ => True) any.
Proof. intros w _. by destruct (c w) as [[a|e] w']. Qed.

Lemma always_result {A} (c : ML Env A) (Q : A -> Prop) w a : always c Q -> (c w).1 = Ok a -> Q a.
Proof. intros Hc E. specialize (Hc w I). destruct (c w) as [[x|e] w']; simpl in E; [by injection E as ->|done]. Qed.

Lemma next_turn_protocol allowed limits message results config : protocol_stays allowed limits config ->
  always (prepareAgentNextTurn sink message results config)
    (fun c => protocol_stays allowed limits c /\ cf_allowImplicitCompletion c = cf_allowImplicitCompletion config).
Proof.
  intros Hc. unfold prepareAgentNextTurn. destruct (cf_prepareNextTurn config) as [prepare|] eqn:Ep; [|by apply triple_ret].
  do 2 (eapply triple_bind; [apply triple_const|]; intros ?). destruct Hc as (Hm & Hl & Hk).
  eapply triple_bind with (Q := fun o _ => forall u mode, o = Some u -> tu_completionMode u = Some mode -> allowed mode).
  { intros w _. unfold call_hook. destruct (prepare _ (lw_env w)) as [[o|e] env] eqn:Eu; [|done]. intros u mode ->. by eapply Hk. }
  intros [u|]; [|by apply triple_ret]. eapply triple_bind; [apply triple_const|]. intros [].
  eapply triple_bind; [apply triple_const|]. intros []. apply triple_ret. intros w Hu.
  split; [|done]. split_and!; [|done|intros p info env1 u1 env2 m Hp; simpl in Hp; by eapply Hk].
  unfold resolveCompletionMode. simpl. destruct (tu_completionMode u) as [m|] eqn:Em; [by apply (Hu u)|done].
Qed.

Lemma resolve_same mode config : resolveCompletionMode config = mode ->
  resolveTurnCompletionMode (Env := Env) sink config mode = ret mode.
Proof.
  intros Hm. unfold resolveTurnCompletionMode. rewrite Hm, bool_decide_eq_true_2 by done. done.
Qed.

(** The counters are untouched. *)
Lemma state_triple {A} (c : ML Env A) (P : CompletionProtocolState -> Prop) :
  keeps (on_state (fun s => s)) c -> triple (fun w => P (lw_state w)) c (fun _ w => P (lw_state w)) any.
Proof. intros Hk w Hw. specialize (Hk w). unfold on_state in Hk. destruct (c w) as [[a|e] w']; [|done]. simpl in Hk. by rewrite Hk. Qed.

(** Switching between modes with a protocol does not touch the counters. *)
Lemma resolve_switch allowed limits config mode : protocol_stays allowed limits config -> protocol_on mode ->
  always (resolveTurnCompletionMode (Env := Env) sink config mode) allowed /\
  keeps (on_state (fun s => s)) (resolveTurnCompletionMode (Env := Env) sink config mode).
Proof.
  intros (Hm & _) Hen. unfold resolveTurnCompletionMode. rewrite Hen.
  case_if; [split; [by apply triple_ret|apply keeps_ret]|]. split.
  - do 2 (eapply triple_bind; [apply triple_any|]; intros ?). by apply triple_ret.
  - apply keeps_bind; [apply keeps_ret|]. intros. apply keeps_bind; [apply keeps_emit|]. intros. apply keeps_ret.
Qed.

(** A turn begins only below the turn limit, with the counters untouched. *)
Lemma begin_turn_state limits mode firstTurn config pending (P : CompletionProtocolState -> Prop) :
  protocol_stays protocol_on limits config -> protocol_on mode ->
  triple (fun w => P (lw_state w)) (begin_turn sink now firstTurn config mode pending)
    (fun o w => match o with
                | Some mode' => protocol_on mode' /\ P (lw_state w) /\
                                reaches (turns (lw_state w)) (maxTurns (resolveCompletionLimits limits mode')) = false
                | None => True
                end) any.
Proof.
  intros Hc Hen. unfold begin_turn. destruct (resolve_switch _ _ _ _ Hc Hen) as [Ha Hk].
  destruct Hc as (_ & Hl & _). rewrite Hl.
  eapply triple_bind; [apply state_triple; destruct firstTurn; [apply keeps_ret|apply keeps_emit]|]. intros [].
  eapply triple_bind; [apply state_triple, steady_push_all|]. intros [].
  eapply triple_bind with (Q := fun a w => protocol_on a /\ P (lw_state w)).
  { intros w Hw. specialize (Ha w I). specialize (Hk w). unfold on_state in Hk.
    destruct (resolveTurnCompletionMode sink config mode w) as [[a|e] w']; [|done]. simpl in Hk. by rewrite Hk. }
  intros mode' w [Hmode Hw]. revert w Hw. eapply triple_bind with (Q := fun _ w => P (lw_state w)); [by intros w|]. intros [].
  eapply triple_bind with (Q := fun s w => s = lw_state w /\ P (lw_state w)); [by intros w|]. intros s.
  rewrite Hmode. simpl andb. destruct (reaches _ _) eqn:Er.
  - eapply triple_bind; [apply triple_any|]. intros []. by apply triple_ret.
  - apply triple_ret. by intros w [-> Hw].
Qed.

(** ** Termination *)

(** A provider that never stops for length. *)
Definition never_length : Prop :=
  forall model llm opts env r env' e m e', streamFn model llm opts env = (Ok r, env') ->
    rs_result r e = (Ok m, e') -> am_stopReason m <> StopLength.

(** Recovery never makes a response look as if it had stopped for length. *)
Lemma recover_not_length m tools : am_stopReason m <> StopLength ->
  always (recoverMisplacedToolCalls number_text now m tools) (fun m' => am_stopReason m' <> StopLength).
Proof.
  intros Hm. unfold recoverMisplacedToolCalls. destruct (negb _); [by apply triple_ret|].
  eapply triple_bind; [apply triple_const|]. intros calls. destruct (is_empty calls); [by apply triple_ret|].
  eapply triple_bind; [apply triple_const|]. intros kept. by apply triple_ret.
Qed.

Lemma finish_not_length result v :
  (forall e m e', result e = (Ok m, e') -> am_stopReason m <> StopLength) ->
  always (finish_response validateToolArguments sink now number_text result v) (fun m => isProviderLengthResponse m = false).
Proof.
  intros Hres. unfold finish_response.
  eapply triple_bind with (Q := fun m _ => am_stopReason m <> StopLength).
  { intros w _. unfold call_hook. destruct (result (lw_env w)) as [[m|e] env] eqn:Er; [|done]. by eapply Hres. }
  intros raw. eapply triple_bind; [apply triple_const|]. intros tools.
  eapply triple_bind with (Q := fun m _ => isProviderLengthResponse m = false).
  { intros w Hw. unfold normalizeAssistantToolCalls, bind. pose proof (recover_not_length raw tools Hw w I) as H.
    destruct (recoverMisplacedToolCalls _ _ _ _ w) as [[m|e] w']; [|done]. simpl in *. unfold isProviderLengthResponse. simpl.
    by destruct (am_stopReason m). }
  intros m. eapply triple_bind; [apply triple_const|]. intros [].
  eapply triple_bind; [apply triple_const|]. intros []. by apply triple_ret.
Qed.

Lemma stream_not_length config : never_length ->
  always (streamAssistantResponse validateToolArguments sink now streamFn number_text config) (fun m => isProviderLengthResponse m = false).
Proof.
  intros Hprov. unfold streamAssistantResponse. eapply triple_bind; [apply triple_const|]. intros [llm mx].
  eapply triple_bind; [apply triple_const|]. intros key. eapply triple_bind; [apply triple_const|]. intros [].
  eapply triple_bind with (Q := fun r _ => forall e m e', rs_result r e = (Ok m, e') -> am_stopReason m <> StopLength).
  { intros w _. unfold call_hook. destruct (streamFn _ _ _ (lw_env w)) as [[r|e] env] eqn:Er; [|done].
    intros e m e' Hm. by eapply Hprov. }
  intros r w Hr. generalize initial_vars. revert w. generalize (rs_events r).
  induction r0 as [|pull rest IH]; intros w v; simpl; [by apply finish_not_length|].
  unfold bind at 1, ask_env at 1, call_hook at 1. destruct (pull (lw_env w)) as [ev env].
  destruct (is_final_event ev); [by apply finish_not_length|]. unfold bind.
  destruct (stream_event sink now ev v _) as [[v'|e] w1]; [apply IH|done].
Qed.

(** After a turn only the repair and waiting counters change. *)
Lemma turns_count message calls repair p q s : turns (count_turn message calls repair p q s) = turns s.
Proof. unfold count_turn. destruct repair; repeat case_match; done. Qed.

Lemma turns_after_turn mode message config limits batch implicitTurn :
  keeps (on_state turns) (after_turn sink aborted now mode message config limits batch implicitTurn).
Proof.
  unfold after_turn, prepareProviderLengthContinuation, recordSemanticProviderLengthRepair, handleProviderLengthResponse,
    createProviderLengthContinuationMessage, emit_and_push, emit_message, finish_batch, continue_turn, recordWaitingTurn,
    createProtocolRepairMessage, apply_protocol, emit_agent_end.
  keeps_tac; try apply steady_failure; try apply steady_end_turn;
    try (apply keeps_update; intros s; first [done | apply turns_count | by repeat case_match]);
    unfold emit_and_push, emit_message; keeps_tac; apply steady_next_turn.
Qed.

(** The protocol a turn hands to the next. *)
Definition hands_on (allowed : CompletionMode -> Prop) (mode : CompletionMode) (limits : option CompletionLimitOptions)
    (allow : option (Z -> Env -> bool * Env)) (o : turn_outcome (Env := Env)) : Prop :=
  match o with
  | Continue c mode' _ _ => mode' = mode /\ protocol_stays allowed limits c /\ cf_allowImplicitCompletion c = allow
  | Return => True
  end.

Lemma end_turn_protocol allowed mode limits message config results d implicitTurn more : protocol_stays allowed limits config ->
  always (end_turn sink aborted now mode message config results d implicitTurn more)
    (hands_on allowed mode limits (cf_allowImplicitCompletion config)).
Proof.
  intros Hc. unfold end_turn. eapply triple_bind; [by apply (next_turn_protocol allowed limits)|]. intros config'.
  eapply triple_bind; [apply triple_const|]. intros isAborted.
  destruct isAborted; [eapply triple_bind; [apply triple_any|]; intros []; by apply triple_ret|].
  do 4 (eapply triple_bind; [apply triple_const|]; intros ?).
  match goal with |- context [if ?b then _ else _] => destruct b end.
  - eapply triple_bind; [apply triple_any|]. intros []. by apply triple_ret.
  - eapply triple_bind; [apply triple_const|]. intros pending. apply triple_ret. intros w [H1 H2]. done.
Qed.

Lemma after_turn_protocol allowed mode limits message config lims batch implicitTurn : protocol_stays allowed limits config ->
  always (after_turn sink aborted now mode message config lims batch implicitTurn)
    (hands_on allowed mode limits (cf_allowImplicitCompletion config)).
Proof.
  intros Hc. unfold after_turn. do 2 (eapply triple_bind; [apply triple_any|]; intros ?).
  assert (Hcont : forall d, always (continue_turn sink aborted now mode message config lims batch implicitTurn d)
    (hands_on allowed mode limits (cf_allowImplicitCompletion config))).
  { intros d. unfold continue_turn. do 3 (eapply triple_bind; [apply triple_any|]; intros ?).
    match goal with |- context [match ?o with Some _ => _ | None => _ end] => destruct o end; [by apply end_turn_protocol|by apply triple_ret]. }
  assert (Hfin : always (finish_batch sink mode batch) (hands_on allowed mode limits (cf_allowImplicitCompletion config))).
  { unfold finish_batch. do 2 (eapply triple_bind; [apply triple_any|]; intros ?). by apply triple_ret. }
  match goal with |- context [match ?d with LengthFailed => _ | _ => _ end] => destruct d end;
    [case_if; auto..|by apply triple_ret].
Qed.

Local Abbreviation run_turn := (run_turn validateToolArguments sink aborted now schedule streamFn number_text).
Local Abbreviation turn_loop := (turn_loop validateToolArguments sink aborted now schedule streamFn number_text).

Lemma turns_respond mode message config :
  keeps (on_state turns) (respond validateToolArguments sink aborted now schedule mode message config).
Proof.
  unfold respond. case_if; [unfold emit_agent_end; keeps_tac|].
  apply keeps_bind; [apply keeps_quiet, accepts_quiet|]. intros b.
  apply keeps_bind; [apply steady_execute_turn_tools|]. intros batch. apply turns_after_turn.
Qed.

Lemma respond_protocol allowed mode limits message config : protocol_stays allowed limits config ->
  always (respond validateToolArguments sink aborted now schedule mode message config)
    (hands_on allowed mode limits (cf_allowImplicitCompletion config)).
Proof.
  intros Hc. unfold respond. case_if; do 2 (eapply triple_bind; [apply triple_any|]; intros ?); [by apply triple_ret|].
  by apply after_turn_protocol.
Qed.

Lemma run_turn_turns limits mode firstTurn config pending k : never_length ->
  protocol_stays protocol_on limits config -> protocol_on mode ->
  triple (fun w => turns (lw_state w) = k) (run_turn firstTurn config mode pending)
    (fun o w => match o with
                | Continue c mode' _ _ => protocol_on mode' /\ protocol_stays protocol_on limits c /\ turns (lw_state w) = k + 1 /\
                                          reaches k (maxTurns (resolveCompletionLimits limits mode)) = false
                | Return => True
                end) any.
Proof.
  intros Hnl Hc Hen. unfold AgentLoop.run_turn.
  eapply triple_bind; [by apply (begin_turn_state limits mode firstTurn config pending (fun s => turns s = k))|].
  intros [mode'|]; [|by apply triple_ret]. intros w (Hmode & Hk & Hr). rewrite Hk in Hr. revert w Hk.
  eapply triple_bind; [apply (always_frame _ (fun m => isProviderLengthResponse m = false) (on_state turns) k); [by apply stream_not_length|apply steady_stream]|].
  intros message w [Hlen Hk]. revert w Hk. rewrite Hlen.
  eapply triple_bind with (Q := fun _ w => on_state turns w = k); [by intros w|]. intros [].
  eapply triple_bind with (Q := fun _ w => on_state turns w = k + 1); [intros w Hw; unfold on_state in *; simpl; by rewrite Hw|].
  intros []. eapply triple_post; [apply (always_frame _ (hands_on protocol_on mode' limits (cf_allowImplicitCompletion config)) (on_state turns) (k + 1));
    [by apply (respond_protocol protocol_on mode' limits)|apply turns_respond]|].
  intros [|c mode'' more p] w [Ho Hw]; [done|]. destruct Ho as (-> & Hs & _). by split_and!.
Qed.

(** The fuel a run needs when [k] turns are done and the limit is [n]. *)
Definition fuel_for (n k : Z) (active : bool) : Z := 2 * Z.max 0 (n - k) + (if active then 1 else 2).

Lemma turn_loop_total limits mode fuel firstTurn config more pending n k : never_length ->
  protocol_stays protocol_on limits config -> protocol_on mode ->
  maxTurns (resolveCompletionLimits limits mode) = Fin n ->
  fuel_for n k (more || negb (is_empty pending)) <= Z.of_nat fuel ->
  triple (fun w => turns (lw_state w) = k) (turn_loop fuel firstTurn config mode more pending) (fun o _ => o = Finished) any.
Proof.
  intros Hnl Hc Hen Hn. revert mode firstTurn config more pending k Hc Hen Hn.
  induction fuel as [|fuel IH]; intros mode firstTurn config more pending k Hc Hen Hn Hf.
  { unfold fuel_for in Hf. destruct (_ || _); lia. }
  cbn [AgentLoop.turn_loop]. destruct (more || negb (is_empty pending)) eqn:Ea; unfold fuel_for in Hf; cbv iota in Hf.
  - eapply triple_bind; [by apply (run_turn_turns limits)|]. intros [|c mode' more' p]; [by apply triple_ret|].
    intros w (Hen' & Hc' & Hk & Hr). rewrite Hn in Hr. simpl in Hr. apply Z.leb_gt in Hr.
    apply (IH mode' false c more' p (k + 1)); [done|done|done| |done]. unfold fuel_for. destruct (more' || _); lia.
  - eapply triple_bind; [apply (keeps_triple _ (on_state turns) (fun x => x = k)), keeps_quiet, quiet_opt_hook|]. intros followUp.
    destruct (is_empty followUp); [eapply triple_bind; [apply triple_any|]; intros []; by apply triple_ret|].
    apply (IH mode firstTurn config true followUp k); [done|done|done|]. unfold fuel_for. simpl. lia.
Qed.

(** C38: under a completion protocol (hybrid or explicit) with a finite turn limit
    every run ends, provided the provider does not cut responses short and no
    [prepareNextTurn] hook switches to the implicit mode, which has no limit and whose
    end restarts the count (hooks may switch between hybrid and explicit): with fuel
    for twice the limit the loop returns or a hook throws, whatever the tools, the
    other hooks and the queued messages do. *)
Theorem runAgentLoop_terminates limits n prompts context config env :
  never_length -> protocol_stays protocol_on limits config ->
  maxTurns (resolveCompletionLimits limits (resolveCompletionMode config)) = Fin n ->
  (runAgentLoop validateToolArguments sink aborted now schedule streamFn number_text (Z.to_nat (2 * Z.max 0 n + 1))
     prompts context config env).1 <> Ok OutOfFuel.
Proof.
  intros Hnl Hc Hn. unfold runAgentLoop.
  set (fuel := Z.to_nat _). assert (Hfuel : fuel_for n 0 true <= Z.of_nat fuel) by (unfold fuel_for, fuel; lia).
  assert (H : always (do* emit sink agent_start in do* emit sink turn_start in do* for_each prompts (emit_message sink) in
    runLoop validateToolArguments sink aborted now schedule streamFn number_text fuel config) (fun o => o = Finished)).
  { do 3 (eapply triple_bind; [apply triple_any|]; intros ?). unfold runLoop.
    eapply triple_bind with (Q := fun _ w => turns (lw_state w) = 0); [by intros w|]. intros [].
    eapply triple_bind; [apply (keeps_triple _ (on_state turns) (fun x => x = 0)), keeps_quiet, quiet_opt_hook|]. intros pending.
    eapply triple_bind; [apply (keeps_triple _ (on_state turns) (fun x => x = 0)); case_if; auto with agent|]. intros [].
    apply (turn_loop_total limits _ _ _ _ _ _ n 0); [done|done|apply Hc|done|done]. }
  intros Ho. by apply (always_result _ _ _ _ H) in Ho.
Qed.

(** ** Explicit completion *)

(** The counters the protocol bounds. *)
Definition within (l : CompletionProtocolLimits) (s : CompletionProtocolState) : Prop :=
  exceeds (malformedToolRetries s) (maxMalformedToolRetries l) = false /\
  exceeds (emptyAssistantRetries s) (maxEmptyAssistantRetries l) = false /\
  exceeds (missingFinishRetries s) (maxMissingFinishRetries l) = false /\
  exceeds (noProgressTurns s) (maxNoProgressTurns l) = false /\
  allowImplicitCompletion s = false.

(** The last turn a listener saw close. *)
Definition last_turn (tr : list AgentEvent) : option (AssistantMessage * list ToolResultMessage) :=
  last (omap (fun ev => match ev with turn_end m rs => Some (m, rs) | _ => None end) tr).

Definition closing_turn (w : loop_world Env) : option (AssistantMessage * list ToolResultMessage) := last_turn (lw_trace w).

(** The results of a turn that may complete an explicit run: a successful
    [finish_work], or a batch of tools none of which failed. *)
Definition completing (rs : list ToolResultMessage) : Prop :=
  existsb successful_finish rs = true \/ (rs <> [] /\ Forall (fun r => tr_isError r = false) rs).

(** The last turn failed, or its tools completed the run. *)
Definition closed_properly (w : loop_world Env) : Prop :=
  exists m rs, closing_turn w = Some (m, rs) /\ (is_failed_response m = true \/ completing rs).

Lemma closing_quiet {A} (c : ML Env A) : quiet c -> keeps closing_turn c.
Proof. intros Hc w. unfold closing_turn. by destruct (Hc w) as (-> & _). Qed.

Lemma closing_emit ev : (forall m rs, ev <> turn_end m rs) -> keeps closing_turn (emit sink ev).
Proof.
  intros Hne w. unfold closing_turn, last_turn. destruct (emit_spec sink ev w) as (-> & _). rewrite omap_app.
  destruct ev; try (simpl; by rewrite app_nil_r). by destruct (Hne message toolResults).
Qed.

Lemma closing_push m : keeps closing_turn (new_push (Env := Env) m).
Proof. by intros w. Qed.

Lemma closing_state f : keeps closing_turn (update_state (Env := Env) f).
Proof. by intros w. Qed.

Lemma closing_emit_and_push m : keeps closing_turn (emit_and_push sink m).
Proof.
  apply keeps_bind; [apply keeps_bind; [by apply closing_emit|]; intros; by apply closing_emit|]. intros [].
  apply keeps_bind; [apply closing_quiet, quiet_context_push|]. intros. apply closing_push.
Qed.

Lemma closing_turn_end m rs P :
  triple P (emit sink (turn_end m rs)) (fun _ w => closing_turn w = Some (m, rs)) any.
Proof.
  intros w _. pose proof (emit_spec sink (turn_end m rs) w) as (Ht & _).
  destruct (emit sink _ w) as [[[]|e] w']; [|done]. unfold closing_turn, last_turn. cbn [snd] in Ht.
  rewrite Ht, omap_app. simpl. by rewrite last_snoc.
Qed.

Lemma closing_next_turn message results config : keeps closing_turn (prepareAgentNextTurn sink message results config).
Proof.
  unfold prepareAgentNextTurn. destruct (cf_prepareNextTurn config); [|apply keeps_ret].
  do 2 (apply keeps_bind; [by intros w|]; intros ?). apply keeps_bind; [apply closing_quiet, quiet_call_hook|].
  intros [u|]; [|apply keeps_ret]. apply keeps_bind; [destruct (tu_context u); by intros w|]. intros [].
  apply keeps_bind; [|intros; apply keeps_ret]. induction (default [] (tu_appendMessages u)) as [|m ms IH]; [apply keeps_ret|].
  apply keeps_bind; [apply closing_emit_and_push|]. by intros [].
Qed.

Lemma closing_agent_end : keeps closing_turn (emit_agent_end sink).
Proof. unfold emit_agent_end. apply keeps_bind; [by intros w|]. intros ms. by apply closing_emit. Qed.

(** A terminal message closes its turn with a failure. *)
Lemma terminal_closes m :
  triple (fun _ => is_failed_response m = true) (do* emit sink (turn_end m []) in emit_agent_end sink) (fun _ => closed_properly) any.
Proof.
  intros w Hm. unfold bind. pose proof (closing_turn_end m [] (fun _ => True) w I) as H.
  destruct (emit sink _ w) as [[[]|e] w1]; [|done]. pose proof (closing_agent_end w1) as Hk.
  destruct (emit_agent_end sink w1) as [[[]|e] w2]; [|done]. simpl in Hk. exists m, []. rewrite Hk. auto.
Qed.

Lemma terminal_message_failed config d s : s = StopError \/ s = StopAborted ->
  always (createTerminalAssistantMessage now config d s) (fun m => is_failed_response m = true).
Proof.
  intros Hs w _. unfold createTerminalAssistantMessage, bind, ask_env, call_hook. destruct (now (lw_env w)) as [ts env].
  simpl. unfold is_failed_response. simpl. by destruct Hs as [-> | ->].
Qed.

Lemma failure_closes config mode ev d started P :
  triple P (emitProtocolFailure sink now config mode ev d started) (fun _ => closed_properly) any.
Proof.
  unfold emitProtocolFailure. do 2 (eapply triple_bind; [apply triple_any|]; intros ?).
  eapply triple_bind; [apply terminal_message_failed; by left|]. intros m.
  do 2 (eapply triple_bind; [apply triple_const|]; intros ?). apply terminal_closes.
Qed.

Lemma aborted_closes config d P : triple P (emitAbortedTurn sink now config d) (fun _ => closed_properly) any.
Proof.
  unfold emitAbortedTurn. eapply triple_bind; [eapply triple_pre; [apply terminal_message_failed; by right|done]|]. intros m.
  do 3 (eapply triple_bind; [apply triple_const|]; intros ?). apply terminal_closes.
Qed.

(** A batch that terminates the run has results, none of them an error. *)
Definition reports (f : FinalizedToolCallOutcome) (m : ToolResultMessage) : Prop := tr_isError m = fz_isError f.

Lemma result_message_reports f : always (createToolResultMessage (Env := Env) now f) (reports f).
Proof. intros w _. unfold createToolResultMessage, bind, ask_env, call_hook. by destruct (now (lw_env w)). Qed.

Lemma result_messages_report fs : always (result_messages sink now fs) (Forall2 reports fs).
Proof.
  induction fs as [|fz fs IH]; simpl; [by apply triple_ret|]. eapply triple_bind; [apply result_message_reports|]. intros m.
  eapply triple_bind; [apply triple_const|]. intros []. cbv beta. apply always_pure. intros Hm.
  eapply triple_bind; [apply IH|]. intros ms. apply triple_ret. intros w H. by constructor.
Qed.

Lemma sequential_calls_report ctx am config calls :
  always (sequential_calls validateToolArguments sink aborted now ctx am config calls) (fun l => Forall (fun p => reports p.1 p.2) l).
Proof.
  induction calls as [|c calls IH]; simpl; [by apply triple_ret|]. do 3 (eapply triple_bind; [apply triple_any|]; intros ?).
  eapply triple_bind; [apply result_message_reports|]. intros m.
  do 2 (eapply triple_bind; [apply triple_const|]; intros ?). cbv beta. apply always_pure. intros Hm.
  case_if; [apply triple_ret; intros w _; by repeat constructor|].
  eapply triple_bind; [apply IH|]. intros l. apply triple_ret. intros w H. by constructor.
Qed.

Lemma batch_terminates fs messages : Forall2 reports fs messages ->
  eb_terminate (createExecutedToolCallBatch messages fs) = true ->
  messages <> [] /\ Forall (fun r => tr_isError r = false) messages.
Proof.
  simpl. unfold shouldTerminateToolBatch. intros H [Hne Hall]%andb_true_iff. split; [by destruct H|].
  clear Hne. induction H as [|f m fs ms Hf H IH]; [constructor|]. simpl in Hall. bool_hyps.
  constructor; [unfold reports in Hf; congruence|auto].
Qed.

Lemma executeToolCalls_terminates ctx am config :
  always (executeToolCalls validateToolArguments sink aborted now schedule ctx am config)
    (fun b => eb_terminate b = true -> completing (eb_messages b)).
Proof.
  unfold executeToolCalls. case_if.
  - eapply triple_bind; [apply sequential_calls_report|]. intros l. apply triple_ret. intros w Hl Ht. right.
    apply (batch_terminates (map fst l) (map snd l)); [|done]. by apply Forall2_fmap, Forall_Forall2_diag.
  - unfold executeToolCallsParallel. do 4 (eapply triple_bind; [apply triple_any|]; intros ?).
    eapply triple_bind; [apply result_messages_report|]. intros ms. apply triple_ret. intros w Hl Ht. right. by eapply batch_terminates.
Qed.

Lemma execute_turn_tools_terminates mode message config :
  always (execute_turn_tools validateToolArguments sink aborted now schedule mode message config)
    (fun b => default false (eb_terminate <$> b) = true -> completing (batch_results b)).
Proof.
  unfold execute_turn_tools. case_if; [|by apply triple_ret]. eapply triple_bind; [apply triple_any|]. intros ctx.
  eapply triple_bind; [apply executeToolCalls_terminates|]. intros b. eapply triple_bind; [apply triple_const|]. intros [].
  by apply triple_ret.
Qed.

(** Under explicit completion a turn is executed, repaired or refused, so that
    the loop has more to do. *)
Lemma detect_more m calls more : detectCompletionProtocolRepair m calls more = None -> more = true.
Proof.
  unfold detectCompletionProtocolRepair. repeat case_if; try done. intros _. by bool_hyps.
Qed.

Lemma diagnostic_within l s r : protocolLimitDiagnostic s l explicit_finish r = None -> allowImplicitCompletion s = false -> within l s.
Proof.
  unfold protocolLimitDiagnostic, within. rewrite (bool_decide_eq_true_2 (explicit_finish = explicit_finish)) by done. simpl.
  repeat case_if; done.
Qed.

Lemma allow_count message calls repair p q s :
  allowImplicitCompletion (count_turn message calls repair p q s) = allowImplicitCompletion s.
Proof. unfold count_turn. destruct repair; cbv zeta; repeat case_if; done. Qed.

Section Explicit.
Context (options : option CompletionLimitOptions) (allow : option (Z -> Env -> bool * Env)).
Local Abbreviation lim := (resolveCompletionLimits options explicit_finish).
Local Abbreviation in_limits := (fun w : loop_world Env => within lim (lw_state w)).

(** A run that stays explicit, with the application's hook for plain answers. *)
Definition explicit_run (c : AgentLoopConfig Env) : Prop :=
  protocol_stays (eq explicit_finish) options c /\ cf_allowImplicitCompletion c = allow.

(** A plain answer the hook accepts: some text and no tool call, before the
    retries for a missing [finish_work] are used up. *)
Definition accepted_answer (m : AssistantMessage) (rs : list ToolResultMessage) : Prop :=
  rs = [] /\ tool_calls m = [] /\ isEmptyAssistantMessage m [] = false /\
  exists hook n env, allow = Some hook /\ exceeds n (maxMissingFinishRetries lim) = false /\ (hook n env).1 = true.

Definition answered (closing : option (AssistantMessage * list ToolResultMessage)) : Prop :=
  exists m rs, closing = Some (m, rs) /\ accepted_answer m rs.

Definition explicit_closed (w : loop_world Env) : Prop := closed_properly w \/ answered (closing_turn w).

(** Within the limits, and either bound to go on or closed by an accepted answer. *)
Definition going (more : Prop) (w : loop_world Env) : Prop := within lim (lw_state w) /\ (more \/ answered (closing_turn w)).

Lemma going_keeps {A} (c : ML Env A) more : keeps closing_turn c -> keeps (on_state (fun s => s)) c ->
  triple (going more) c (fun _ => going more) any.
Proof.
  intros H1 H2 w Hw. specialize (H1 w). specialize (H2 w). destruct (c w) as [[a|e] w']; [|done].
  unfold going, on_state in *. simpl in *. by rewrite H1, H2.
Qed.

Lemma going_quiet {A} (c : ML Env A) more : quiet c -> triple (going more) c (fun _ => going more) any.
Proof. intros Hq. apply going_keeps; [by apply closing_quiet|by apply keeps_quiet]. Qed.

(** The closing turn [m, rs] and counters within the limits. *)
Definition after_close (m : AssistantMessage) (rs : list ToolResultMessage) (w : loop_world Env) : Prop :=
  closing_turn w = Some (m, rs) /\ within lim (lw_state w).

Lemma after_close_keeps {A} (c : ML Env A) m rs : keeps closing_turn c -> keeps (on_state (fun s => s)) c ->
  triple (after_close m rs) c (fun _ => after_close m rs) any.
Proof.
  intros H1 H2 w [Hc Hw]. specialize (H1 w). specialize (H2 w). destruct (c w) as [[a|e] w']; [|done].
  unfold after_close, on_state in *. simpl in *. by rewrite H1, H2.
Qed.

Lemma after_close_quiet {A} (c : ML Env A) m rs : quiet c -> triple (after_close m rs) c (fun _ => after_close m rs) any.
Proof. intros Hq. apply after_close_keeps; [by apply closing_quiet|by apply keeps_quiet]. Qed.

Lemma after_close_push msg m rs : triple (after_close m rs) (emit_and_push sink msg) (fun _ => after_close m rs) any.
Proof.
  apply after_close_keeps; [apply closing_emit_and_push|]. unfold emit_and_push, emit_message. keeps_tac.
Qed.

Lemma after_close_emit ev m rs : (forall m rs, ev <> turn_end m rs) ->
  triple (after_close m rs) (emit sink ev) (fun _ => after_close m rs) any.
Proof. intros H. apply after_close_keeps; [by apply closing_emit|apply keeps_emit]. Qed.

Lemma after_close_update f m rs : (forall s, within lim s -> within lim (f s)) ->
  triple (after_close m rs) (update_state f) (fun _ => after_close m rs) any.
Proof. intros H w [Hc Hw]. split; [done|]. by apply H. Qed.

Lemma explicit_length message calls repair config m rs :
  triple (after_close m rs) (prepareProviderLengthContinuation sink now message calls repair lim config explicit_finish)
    (fun d w => match d with LengthFailed => closed_properly w | _ => after_close m rs w end) any.
Proof.
  unfold prepareProviderLengthContinuation.
  eapply triple_bind with (Q := fun ok w => if (ok : bool) then after_close m rs w else closed_properly w).
  - destruct repair as [r|]; [|by apply triple_ret]. case_if; [|by apply triple_ret].
    unfold recordSemanticProviderLengthRepair. intros w [Hc Hw]. unfold bind at 1, update_state, modify.
    unfold bind at 1, read. set (w1 := set_state _ w).
    assert (Hc1 : closing_turn w1 = Some (m, rs)) by exact Hc.
    match goal with |- context [if ?b then _ else _] => destruct b eqn:Eb end.
    + refine (triple_bind _ _ (fun _ => True) (fun _ => closed_properly) _ _ (failure_closes _ _ _ _ _ _) _ w1 I).
      intros []. by apply triple_ret.
    + apply orb_false_iff in Eb as [Em En].
      assert (Hw1 : after_close m rs w1) by (split; [done|]; unfold within in *; simpl in *; naive_solver).
      refine (triple_bind _ _ _ _ _ _ (after_close_emit _ m rs _) _ w1 Hw1); [done|]. intros []. by apply triple_ret.
  - intros [|]; [|by apply triple_ret]. unfold handleProviderLengthResponse. case_if; [|by apply triple_ret].
    eapply triple_bind; [apply after_close_quiet; apply quiet_bind; [apply quiet_ask_env|]; intros; apply quiet_ret|].
    intros msg. eapply triple_bind; [apply after_close_push|]. intros []. by apply triple_ret.
Qed.

Lemma explicit_waiting batch m rs :
  triple (after_close m rs) (recordWaitingTurn sink now batch lim explicit_finish) (fun _ => after_close m rs) any.
Proof.
  unfold recordWaitingTurn. eapply triple_bind; [apply after_close_update|].
  { intros s Hs. destruct batch as [b|]; [|done]. repeat case_if; done. }
  intros []. eapply triple_bind; [apply after_close_quiet, quiet_read|]. intros s. case_if; [by apply triple_ret|].
  eapply triple_bind; [by apply after_close_emit|]. intros [].
  eapply triple_bind; [apply after_close_quiet, repair_message_quiet|]. intros msg.
  eapply triple_bind; [apply after_close_push|]. intros []. eapply triple_bind; [by apply after_close_update|]. intros [].
  by apply triple_ret.
Qed.

Lemma explicit_apply message config m rs batch more :
  triple (after_close m rs) (apply_protocol sink now explicit_finish message config lim rs batch more)
    (fun o w => match o with None => closed_properly w | Some b => b = true /\ after_close m rs w end) any.
Proof.
  unfold apply_protocol. destruct (existsb successful_finish rs) eqn:Ef.
  { eapply triple_bind; [by apply after_close_emit|]. intros [].
    eapply triple_bind; [apply after_close_keeps; [apply closing_agent_end|apply steady_agent_end]|]. intros [].
    apply triple_ret. intros w [Hc _]. exists m, rs. split; [done|]. right. by left. }
  intros w [Hc Hw]. unfold bind at 1, update_state, modify. set (repair := match repair_before_execution _ _ with Some _ => _ | None => _ end).
  unfold bind at 1, read. set (w1 := set_state _ w).
  assert (Ha : allowImplicitCompletion (lw_state w1) = false) by (unfold w1; simpl; rewrite allow_count; apply Hw).
  destruct (protocolLimitDiagnostic _ _ _ _) as [d|] eqn:Ed.
  { refine (triple_bind _ _ (fun _ => True) (fun _ => closed_properly) _ _ (failure_closes _ _ _ _ _ _) _ w1 I).
    intros []. by apply triple_ret. }
  assert (Hw1 : after_close m rs w1) by (split; [done|]; by eapply diagnostic_within).
  destruct repair as [r|] eqn:Er.
  - rewrite (bool_decide_eq_false_2 (explicit_finish = hybrid)) by done. simpl andb. cbv iota.
    refine (triple_bind _ _ _ _ _ _ (after_close_emit _ m rs _) _ w1 Hw1); [done|]. intros [].
    eapply triple_bind; [apply after_close_quiet, repair_message_quiet|]. intros msg.
    eapply triple_bind; [apply after_close_push|]. intros []. by apply triple_ret.
  - split; [|done]. unfold repair in Er. destruct (repair_before_execution _ _); [done|]. by eapply detect_more.
Qed.

(** What a turn of an explicit run leaves: more to do within the limits unless
    an answer was accepted, or a run that closed properly. *)
Definition explicit_post (o : turn_outcome (Env := Env)) (w : loop_world Env) : Prop :=
  match o with
  | Continue c mode more _ => mode = explicit_finish /\ explicit_run c /\ going (more = true) w
  | Return => explicit_closed w
  end.

Lemma explicit_next_turn message results config more : explicit_run config ->
  triple (going more) (prepareAgentNextTurn sink message results config) (fun c w => explicit_run c /\ going more w) any.
Proof.
  intros [Hc Ha] w Hw. pose proof (next_turn_protocol (eq explicit_finish) options message results config Hc w I) as H1.
  pose proof (going_keeps _ more (closing_next_turn message results config) (steady_next_turn sink (fun s => s) message results config) w Hw) as H2.
  destruct (prepareAgentNextTurn _ _ _ _ w) as [[c|e] w']; [|done]. unfold explicit_run. rewrite Ha in H1. auto.
Qed.

Lemma explicit_end_turn message config results d implicitTurn more : explicit_run config ->
  triple (going (implicitTurn = false /\ more = true))
    (end_turn sink aborted now explicit_finish message config results d implicitTurn more) explicit_post any.
Proof.
  intros Hc. unfold end_turn. eapply triple_bind; [by apply explicit_next_turn|].
  intros c w [Hc' Hw]. revert w Hw.
  eapply triple_bind; [apply going_quiet, quiet_read_env|]. intros isAborted.
  destruct isAborted; [eapply triple_bind; [apply aborted_closes|]; intros []; apply triple_ret; by left|].
  eapply triple_bind with (Q := fun s w => allowImplicitCompletion s = false /\ going (implicitTurn = false /\ more = true) w).
  { intros w Hw. split; [apply Hw|done]. }
  intros s w [Hs Hw]. revert w Hw. do 2 (eapply triple_bind; [apply going_quiet, quiet_read|]; intros ?).
  rewrite Hs. cbn [isCompletionProtocolEnabled negb orb].
  eapply triple_bind with (Q := fun b w => (b = true -> implicitTurn = true) /\ going (implicitTurn = false /\ more = true) w).
  { intros w Hw. destruct implicitTurn.
    - pose proof (going_quiet _ _ (quiet_opt_hook ((fun f => f (mkTurnInfo message results a a0)) <$> cf_shouldStopAfterTurn c) false) w Hw) as H.
      rewrite andb_true_r. destruct (decided_none d); [|done]. by destruct (opt_hook _ _ w) as [[b|e] w'].
    - by rewrite andb_false_r. }
  intros stop w [Hstop Hw]. destruct stop.
  - revert w Hw. eapply triple_bind; [apply going_keeps; [apply closing_agent_end|apply steady_agent_end]|].
    intros []. apply triple_ret. intros w [_ [[Hi _]|Hw]]; [by rewrite (Hstop eq_refl) in Hi|by right].
  - revert w Hw. eapply triple_bind; [apply going_quiet, quiet_opt_hook|]. intros pending.
    apply triple_ret. intros w [Hw Hmore]. split_and!; [done|done|]. split; [done|]. by destruct Hmore as [[_ ?]|?]; [left|right].
Qed.

Lemma explicit_after_turn message config batch implicitTurn : explicit_run config ->
  (default false (eb_terminate <$> batch) = true -> completing (batch_results batch)) ->
  (implicitTurn = true -> accepted_answer message (batch_results batch)) ->
  triple in_limits (after_turn sink aborted now explicit_finish message config lim batch implicitTurn) explicit_post any.
Proof.
  intros Hc Hb Hi. unfold after_turn.
  eapply triple_bind with (Q := fun _ => after_close message (batch_results batch)).
  { intros w Hw. pose proof (closing_turn_end message (batch_results batch) (fun _ => True) w I) as H1.
    pose proof (keeps_emit (fun s => s) sink (turn_end message (batch_results batch)) w) as H2. unfold on_state in H2.
    destruct (emit sink _ w) as [[[]|e] w']; [|done]. simpl in H2. split; [done|]. by rewrite H2. }
  intros []. eapply triple_bind; [apply explicit_length|].
  assert (Hfin : default false (eb_terminate <$> batch) = true ->
    triple (after_close message (batch_results batch)) (finish_batch sink explicit_finish batch) explicit_post any).
  { intros Ht. unfold finish_batch. eapply triple_bind with (Q := fun _ => after_close message (batch_results batch)).
    { destruct (batch ≫= eb_completion); [by apply after_close_emit|by apply triple_ret]. }
    intros []. eapply triple_bind; [apply after_close_keeps; [apply closing_agent_end|apply steady_agent_end]|]. intros [].
    apply triple_ret. intros w [Hw _]. left. exists message, (batch_results batch). auto. }
  assert (Hcont : forall d, d <> LengthFailed ->
    triple (after_close message (batch_results batch)) (continue_turn sink aborted now explicit_finish message config lim batch implicitTurn d) explicit_post any).
  { intros d Hd. unfold continue_turn. eapply triple_bind; [apply explicit_waiting|]. intros warned.
    eapply triple_bind with (Q := fun s w => allowImplicitCompletion s = false /\ after_close message (batch_results batch) w).
    { intros w [Hcw Hw]. split; [apply Hw|done]. }
    intros s w [Hs Hw]. revert w Hw. rewrite Hs.
    eapply triple_bind with (Q := fun o w => match o with None => closed_properly w | Some b => going (implicitTurn = false /\ b = true) w end).
    - assert (Hret : forall b, implicitTurn = true \/ b = true ->
        triple (after_close message (batch_results batch)) (ret (Some b) : ML Env (option bool))
          (fun o w => match o with None => closed_properly w | Some b => going (implicitTurn = false /\ b = true) w end) any).
      { intros b Hib. apply triple_ret. intros w [Hw1 Hw2]. split; [done|]. destruct implicitTurn.
        - right. exists message, (batch_results batch). auto.
        - left. by destruct Hib. }
      destruct d; [|apply Hret; rewrite orb_true_r; by right|done].
      destruct implicitTurn; [apply Hret; by left|]. eapply triple_post; [apply explicit_apply|].
      intros [b|] w Hw; [|done]. destruct Hw as [-> [_ Hw]]. split; [done|]. by left.
    - intros [more|]; [by apply explicit_end_turn|apply triple_ret; by left]. }
  intros [| |]; [| |apply triple_ret; by left]; destruct (default false (eb_terminate <$> batch)) eqn:Et; simpl andb;
    try (destruct (negb _)); auto; by apply Hcont.
Qed.

(** The hook is asked only about a plain answer. *)
Lemma accepts_answer message config : explicit_run config ->
  triple in_limits (acceptsImplicitCompletion config explicit_finish message (repair_before_execution explicit_finish message))
    (fun b w => (b = true -> accepted_answer message []) /\ in_limits w) any.
Proof.
  intros [_ Ha] w Hw. unfold acceptsImplicitCompletion. rewrite Ha.
  match goal with |- context [if ?b then _ else _] => destruct b eqn:Eb end; [|done]. bool_hyps.
  destruct allow as [f|] eqn:Ef; [|done]. unfold bind, read, ask_env, call_hook.
  destruct (f _ (lw_env w)) as [b env] eqn:E. split; [|exact Hw]. intros ->.
  assert (Ht : tool_calls message = []) by (by destruct (tool_calls message)).
  split_and!; [done|done|by rewrite Ht in *|].
  exists f, (missingFinishRetries (lw_state w)), (lw_env w). rewrite E. split_and!; [done|apply Hw|done].
Qed.

Lemma explicit_respond message config : explicit_run config ->
  triple in_limits (respond validateToolArguments sink aborted now schedule explicit_finish message config) explicit_post any.
Proof.
  intros Hc. unfold respond. destruct (is_failed_response message) eqn:Ef.
  - eapply triple_bind; [apply closing_turn_end|]. intros [].
    eapply triple_bind; [apply (keeps_triple _ closing_turn (fun x => x = Some (message, []))), closing_agent_end|]. intros [].
    apply triple_ret. intros w Hw. left. exists message, []. auto.
  - eapply triple_bind; [by apply accepts_answer|]. intros b w [Hb Hw]. revert w Hw. pose proof Hc as [(_ & Hl & _) _]. rewrite Hl.
    eapply triple_bind with (Q := fun batch w => ((default false (eb_terminate <$> batch) = true -> completing (batch_results batch)) /\
      (b = true -> accepted_answer message (batch_results batch))) /\ in_limits w).
    { intros w Hw. pose proof (execute_turn_tools_terminates explicit_finish message config w I) as H1.
      pose proof (steady_execute_turn_tools validateToolArguments sink aborted now schedule (fun s => s) explicit_finish message config w) as H2.
      unfold on_state in H2. destruct (execute_turn_tools _ _ _ _ _ _ _ _ w) as [[batch|e] w'] eqn:E; [|done]. simpl in H2. rewrite H2.
      split; [|done]. split; [done|]. intros Hbt. specialize (Hb Hbt). destruct Hb as (_ & Ht & Hb). unfold execute_turn_tools, executes_tools in E.
      rewrite Ht in E. injection E as <- <-. exact (conj eq_refl (conj Ht Hb)). }
    intros batch w [[Hb1 Hb2] Hw]. by apply explicit_after_turn.
Qed.

Lemma explicit_begin firstTurn config pending : explicit_run config ->
  triple in_limits (begin_turn sink now firstTurn config explicit_finish pending)
    (fun o w => match o with Some mode => mode = explicit_finish /\ in_limits w | None => closed_properly w end) any.
Proof.
  intros [(Hc & _) _]. unfold begin_turn. rewrite (resolve_same explicit_finish config) by done.
  eapply triple_bind; [apply state_triple; destruct firstTurn; [apply keeps_ret|apply keeps_emit]|]. intros [].
  eapply triple_bind; [apply state_triple, steady_push_all|]. intros [].
  eapply triple_bind with (Q := fun a w => a = explicit_finish /\ in_limits w); [by apply triple_ret|].
  intros mode w [-> Hw]. revert w Hw. eapply triple_bind with (Q := fun _ => in_limits); [by intros w|]. intros [].
  eapply triple_bind; [apply state_triple, keeps_quiet, quiet_read|]. intros s. case_if; [|by apply triple_ret].
  eapply triple_bind; [apply failure_closes|]. intros []. by apply triple_ret.
Qed.

Lemma explicit_run_turn firstTurn config pending : explicit_run config ->
  triple in_limits (run_turn firstTurn config explicit_finish pending) explicit_post any.
Proof.
  intros Hc. unfold AgentLoop.run_turn. eapply triple_bind; [by apply explicit_begin|].
  intros [mode|]; [|apply triple_ret; by left]. intros w [-> Hw]. revert w Hw.
  eapply triple_bind; [apply state_triple, steady_stream|]. intros message.
  eapply triple_bind with (Q := fun _ => in_limits); [by intros w|]. intros [].
  eapply triple_bind with (Q := fun _ => in_limits); [case_if; by intros w|]. intros []. by apply explicit_respond.
Qed.

Lemma explicit_turn_loop fuel firstTurn config more pending : explicit_run config ->
  triple (going (more = true)) (turn_loop fuel firstTurn config explicit_finish more pending)
    (fun o w => match o with Finished => explicit_closed w | OutOfFuel => in_limits w end) any.
Proof.
  revert firstTurn config more pending. induction fuel as [|fuel IH]; intros firstTurn config more pending Hc; simpl.
  { apply triple_ret. by intros w [Hw _]. }
  destruct (more || negb (is_empty pending)) eqn:Em.
  - eapply triple_bind; [eapply triple_pre; [by apply explicit_run_turn|by intros w [Hw _]]|].
    intros [|c mode more' p]; [by apply triple_ret|]. intros w (-> & Hc' & Hw). by apply IH.
  - apply orb_false_iff in Em as [-> _]. eapply triple_bind; [apply going_quiet, quiet_opt_hook|]. intros followUp.
    destruct (is_empty followUp).
    + eapply triple_bind; [apply going_keeps; [apply closing_agent_end|apply steady_agent_end]|]. intros [].
      apply triple_ret. intros w [_ [?|Hw]]; [done|by right].
    + eapply triple_pre; [by apply IH|]. intros w [Hw _]. split; [done|by left].
Qed.

(** The retries of an explicit run are bounded: after any number of turns
    the loop has either ended or every repair and no-progress counter is still
    within its limit. *)
Theorem explicit_counters_bounded fuel firstTurn config pending w w' :
  explicit_run config -> within lim (lw_state w) ->
  turn_loop fuel firstTurn config explicit_finish true pending w = (Ok OutOfFuel, w') ->
  within lim (lw_state w').
Proof.
  intros Hc Hw E. pose proof (explicit_turn_loop fuel firstTurn config true pending Hc w) as H. rewrite E in H.
  apply H. split; [done|by left].
Qed.

Lemma explicit_runLoop fuel config : explicit_run config -> within lim createCompletionProtocolState ->
  triple (fun _ => True) (runLoop validateToolArguments sink aborted now schedule streamFn number_text fuel config)
    (fun o w => o = Finished -> explicit_closed w) any.
Proof.
  intros Hc H0. unfold runLoop. pose proof Hc as [(Hm & _) _]. rewrite <- Hm.
  eapply triple_bind with (Q := fun _ => in_limits); [by intros w|]. intros [].
  eapply triple_bind; [apply state_triple, keeps_quiet, quiet_opt_hook|]. intros pending.
  eapply triple_bind; [apply state_triple; simpl; apply keeps_emit|]. intros [].
  eapply triple_pre; [eapply triple_post; [by apply (explicit_turn_loop fuel true config true)|by intros o w Hw ->]|].
  intros w Hw. split; [done|by left].
Qed.

(** C37: an explicit run does not complete on a plain answer of its own: when it
    returns, its last turn failed (provider error, abort, or an exhausted limit
    reported as an error message), or executed tools (a successful [finish_work]
    among them, or a batch of which no tool failed), or was a non-empty answer
    without tool calls that the application's own [allowImplicitCompletion] hook
    accepted while retries for a missing [finish_work] were left. Without the hook
    the last case is impossible. The run is explicit throughout: no hook between
    turns selects another mode, and no retry limit is negative. *)
Theorem explicit_completion fuel prompts context config env w :
  explicit_run config -> within lim createCompletionProtocolState ->
  runAgentLoop validateToolArguments sink aborted now schedule streamFn number_text fuel prompts context config env = (Ok Finished, w) ->
  exists m rs, last_turn (lw_trace w) = Some (m, rs) /\
    (is_failed_response m = true \/ completing rs \/ accepted_answer m rs).
Proof.
  intros Hc H0 E. unfold runAgentLoop in E.
  assert (H : triple (fun _ => True) (do* emit sink agent_start in do* emit sink turn_start in do* for_each prompts (emit_message sink) in
    runLoop validateToolArguments sink aborted now schedule streamFn number_text fuel config) (fun o w => o = Finished -> explicit_closed w) any).
  { do 3 (eapply triple_bind; [apply triple_any|]; intros ?). by apply explicit_runLoop. }
  specialize (H (start_world (push_context prompts context) prompts env) I). rewrite E in H.
  destruct (H eq_refl) as [(m & rs & ? & [?|?])|(m & rs & ? & ?)]; exists m, rs; auto.
Qed.
End Explicit.
End Runs.
