(* ===== verification/LoopSamples.v ===== *)
(** Concrete runs of the loop and of the Agent, at which the theorems apply. *)
From S2P Require Import Prelude JsString Effects Json Messages Protocol LoopTypes Queue ToolBatch Recovery AgentLoop LoopEnv Agent LoopTrace EventStream ToolProps LoopProps AgentStream AgentProps ProtocolProps.

Module LoopSample.
(** The environment counts the requests the provider served. *)
Definition Env : Type := nat.
Definition model : Model := mkModel (js "m") (js "M") (js "api") (js "p") [] false 1000 100.
Definition now (e : Env) : Z * Env := (1700000000000, e).
Definition sink (ev : AgentEvent) : hook Env unit := fun e => (Ok tt, e).
Definition aborted (e : Env) : bool := false.
Definition validate (t : AgentTool Env) (c : ToolCall) : result jsstr json := Ok (tc_arguments c).
Definition number_text (raw : jsstr) : jsstr := raw.
(** Concurrent tools advance in turn, the last one first. *)
Definition schedule (e : Env) : list nat := [1%nat; 0%nat; 1%nat; 1%nat; 1%nat; 0%nat].

Definition read_call (id path : string) : ToolCall := mkToolCall (js id) (js "read") (JObj [(js "path", JStr (js path))]) None.
Definition finish_call : ToolCall :=
  mkToolCall (js "f") FINISH_WORK_TOOL_NAME (JObj [(js "status", JStr (js "success")); (js "summary", JStr (js "done"))]) None.
Definition assistant (calls : list ToolCall) : AssistantMessage :=
  mkAssistant (AText (js "working") None :: map AToolCall calls) (js "api") (js "p") (js "m") None None None EMPTY_USAGE
    (if is_empty calls then StopStop else StopToolUse) None 1700000000000.

Definition text_result (s : string) : AgentToolResult := mkToolResultValue [CText (js s) None] None None None None.
Definition read_tool : AgentTool Env :=
  mkTool (js "read") (js "Read") (js "Read a file") (JObj []) (Some (Declared (JStr (js "read")) (JStr (js "normal")) None)) None
    (fun _ _ => Step (fun e => (text_result "half", e)) (fun _ => Settle (fun e => (Ok (text_result "all"), e)))) None.

(** The provider reads two files, answers in words once, then finishes. *)
Definition script (n : nat) : AssistantMessage :=
  match n with
  | O => assistant [read_call "a" "a.ts"; read_call "b" "b.ts"]
  | 1%nat => assistant []
  | _ => assistant [finish_call]
  end.

Definition streamFn (m : Model) (c : LlmContext Env) (o : StreamOptions) : hook Env (response Env) := fun n =>
  (Ok (mkResponse
         (REvent (fun e => (SStart (script n), e)) (fun _ => REvent (fun e => (SDone (script n), e)) (fun _ => REnd)))
         (fun e => (Ok (script n), e))), S n).

Definition options : option CompletionLimitOptions := Some (mkLimitOptions (Some (Fin 5)) None None None None None).
Definition config : AgentLoopConfig Env :=
  mkConfig model None None None (Some explicit_finish) options None None (fun ms => fun e => (Ok (convertToLlm ms), e))
    None None None None None None None None None.
Definition context : AgentContext Env := mkContext (js "system") [] (Some [read_tool]).
Definition prompt : AgentMessage := MUser (mkUser (RString (js "read them")) None 1700000000000).

Definition run (fuel : nat) : result jsstr loop_exit * loop_world Env :=
  runAgentLoop validate sink aborted now schedule streamFn number_text fuel [prompt] context config 0%nat.

Lemma streams : streams_well streamFn.
Proof. intros m llm opts env r env' [= <- <-]. simpl. naive_solver. Qed.

Lemma same : explicit_run options None config.
Proof. split_and!; done. Qed.

Lemma stays : protocol_stays protocol_on options config.
Proof. split_and!; done. Qed.

Lemma never : never_length streamFn.
Proof.
  intros m llm opts env r env' e msg e' [= <- <-]. simpl. intros [= <- <-]. by destruct env as [|[|?]].
Qed.

Lemma initial : within (resolveCompletionLimits options explicit_finish) createCompletionProtocolState.
Proof. by split_and!. Qed.

Lemma runAgentLoop_well_formed_witness : well_formed_run (run 11).2 /\ length (lw_new (run 11).2) = 8%nat.
Proof.
  split; [|vm_compute; reflexivity].
  eapply proj1. apply (runAgentLoop_well_formed validate sink aborted now schedule streamFn number_text 11 [prompt] context config 0%nat);
    [exact streams|vm_compute; reflexivity].
Defined.

Definition continued : result jsstr loop_exit * loop_world Env :=
  runAgentLoopContinue validate sink aborted now schedule streamFn number_text 11 (push_context [prompt] context) config 0%nat.

Lemma runAgentLoopContinue_well_formed_witness : well_formed_run continued.2.
Proof.
  apply (runAgentLoopContinue_well_formed validate sink aborted now schedule streamFn number_text 11 (push_context [prompt] context) config 0%nat
    continued.1 continued.2 streams); [unfold continued; by destruct (runAgentLoopContinue _ _ _ _ _ _ _ _ _ _ _)|vm_compute; reflexivity].
Defined.

Lemma runAgentLoop_terminates_witness : (run 11).1 <> Ok OutOfFuel.
Proof.
  apply (runAgentLoop_terminates validate sink aborted now schedule streamFn number_text options 5 [prompt] context config 0%nat);
    [exact never|exact stays|reflexivity].
Defined.

(** Two turns of the loop. *)
Definition started : loop_world Env := start_world (withCompletionProtocolTools context explicit_finish) [] 0%nat.
Definition two_turns : result jsstr loop_exit * loop_world Env :=
  turn_loop validate sink aborted now schedule streamFn number_text 2 true config explicit_finish true [] started.

Lemma explicit_counters_bounded_witness : within (resolveCompletionLimits options explicit_finish) (lw_state two_turns.2).
Proof.
  apply (explicit_counters_bounded validate sink aborted now schedule streamFn number_text options None 2 true config [] started two_turns.2 same);
    [exact initial|vm_compute; reflexivity].
Defined.

(** The same run under a hook that accepts plain answers, and a hook between
    turns that repeats the mode: it ends at the second response. *)
Definition accepting (retries : Z) (e : Env) : bool * Env := (retries <=? 2, e).
Definition lenient : AgentLoopConfig Env :=
  mkConfig model None None None (Some explicit_finish) options None (Some accepting) (fun ms => fun e => (Ok (convertToLlm ms), e))
    None None None None (Some (fun _ e => (Ok (Some (mkUpdate None None None (Some explicit_finish) None)), e)))
    None None None None.
Definition lenient_run (fuel : nat) : result jsstr loop_exit * loop_world Env :=
  runAgentLoop validate sink aborted now schedule streamFn number_text fuel [prompt] context lenient 0%nat.

Lemma lenient_explicit : explicit_run options (Some accepting) lenient.
Proof.
  split_and!; [|done]. split_and!; [done|done|]. intros prepare info e u e' mode [= <-] [= <- <-] [= <-]. done.
Qed.

Lemma explicit_completion_witness :
  (exists m rs, last_turn (lw_trace (run 11).2) = Some (m, rs) /\
    (is_failed_response m = true \/ completing rs \/ accepted_answer options (None : option (Z -> Env -> bool * Env)) m rs)) /\
  (exists m rs, last_turn (lw_trace (lenient_run 11).2) = Some (m, rs) /\
    (is_failed_response m = true \/ completing rs \/ accepted_answer options (Some accepting) m rs)) /\
  last_turn (lw_trace (lenient_run 11).2) = Some (script 1, []).
Proof.
  split_and!.
  - apply (explicit_completion validate sink aborted now schedule streamFn number_text options None 11 [prompt] context config 0%nat (run 11).2 same);
      [exact initial|vm_compute; reflexivity].
  - apply (explicit_completion validate sink aborted now schedule streamFn number_text options (Some accepting) 11 [prompt] context lenient 0%nat
      (lenient_run 11).2 lenient_explicit); [exact initial|vm_compute; reflexivity].
  - vm_compute. reflexivity.
Defined.

(** The world of a turn whose response asks for two reads. *)
Definition turn_world : loop_world Env :=
  mkLoop [agent_start; turn_start; message_start (MAssistant (script 0)); message_end (MAssistant (script 0))]
    [MAssistant (script 0)] context createCompletionProtocolState 0%nat.
Definition batch_run := executeToolCalls validate sink aborted now schedule context (script 0) config turn_world.
Definition batch : ExecutedToolCallBatch :=
  match batch_run.1 with Ok b => b | Throw _ => mkBatch [] false false false None end.

Lemma executeToolCalls_in_order_witness :
  exists answered, answered `prefix_of` tool_calls (script 0) /\ Forall2 answers_call answered (eb_messages batch).
Proof.
  destruct (executeToolCalls_in_order validate sink aborted now schedule context (script 0) config
    (mkTurn (Some (script 0)) []) turn_world batch batch_run.2) as (answered & Hp & Hf & _);
    [|split; vm_compute; reflexivity|vm_compute; reflexivity|exists answered; auto].
  intros c Hc. apply may_start_calls; [reflexivity|exact Hc].
Defined.

Definition blocking : AgentLoopConfig Env :=
  mkConfig model None None None None None None None (fun ms => fun e => (Ok (convertToLlm ms), e)) None None None None None None None
    (Some (fun _ _ _ _ _ e => (Ok (Some (mkBefore (Some true) (Some (js "not allowed")))), e))) None.

Lemma blocked_call_not_executed_witness :
  run_call validate sink aborted context (script 0) blocking (read_call "a" "a.ts") turn_world
  = (Ok (mkFinalized (read_call "a" "a.ts") (createErrorToolResult (js "not allowed")) true false), turn_world).
Proof.
  refine (blocked_call_not_executed validate sink aborted context (script 0) blocking (read_call "a" "a.ts") read_tool
    (JObj [(js "path", JStr (js "a.ts"))]) _ (mkBefore (Some true) (Some (js "not allowed"))) 0%nat turn_world _ _ _ eq_refl _ _ _);
    try reflexivity. vm_compute. discriminate.
Defined.

Lemma finish_work_roundtrip_witness :
  exists input, parse_finish_work (tc_arguments finish_call) = Some input /\ trim (fw_summary input) <> [].
Proof.
  destruct (finish_work_roundtrip (tc_arguments finish_call)
    (match finish_work_execute (tc_arguments finish_call) with Ok r => r | Throw _ => text_result "" end))
    as (input & details & Hi & Ht & _); [vm_compute; reflexivity|]. exists input. auto.
Defined.
(** The stream of the run, with a consumer that asks before anything is pushed. *)
Definition pulled : list stream_op :=
  Next 0%nat :: agentLoop validate aborted now schedule streamFn number_text 11 [prompt] context config 0%nat.

Lemma run_finished : runAgentLoop validate push_sink aborted now schedule streamFn number_text 11 [prompt] context config 0%nat
  = (Ok Finished, (run 11).2).
Proof. vm_compute. reflexivity. Qed.

Lemma pulled_ops :
  List.filter producer pulled = agentLoop validate aborted now schedule streamFn number_text 11 [prompt] context config 0%nat /\
  Forall (only 0%nat) pulled.
Proof. unfold pulled, agentLoop. apply asked_first. Qed.

Lemma agentLoop_stream_witness :
  exists k, let '(out, s) := exec agent_stream_complete agent_stream_result (pulled ++ replicate k (Next 0%nat)) new_EventStream in
    values out = lw_trace (run 11).2 /\ last out = Some (0%nat, None) /\ es_final s = Some (lw_new (run 11).2).
Proof.
  exact (agentLoop_stream validate aborted now schedule streamFn number_text 11 [prompt] context config 0%nat (run 11).2 pulled 0%nat
    streams run_finished (proj1 pulled_ops) (proj2 pulled_ops)).
Defined.

(** A configuration whose conversion hook throws. *)
Definition failing_config : AgentLoopConfig Env :=
  mkConfig model None None None (Some explicit_finish) options None None (fun ms => fun e => (Throw (js "bad message"), e))
    None None None None None None None None None.
Definition failed_run : result jsstr loop_exit * loop_world Env :=
  runAgentLoop validate push_sink aborted now schedule streamFn number_text 11 [prompt] context failing_config 0%nat.
Definition failed_ops : list stream_op :=
  Next 0%nat :: agentLoop validate aborted now schedule streamFn number_text 11 [prompt] context failing_config 0%nat.

Lemma run_failed : runAgentLoop validate push_sink aborted now schedule streamFn number_text 11 [prompt] context failing_config 0%nat
  = (Throw (js "bad message"), failed_run.2).
Proof. vm_compute. reflexivity. Qed.

Lemma failed_trace : Forall (fun ev => agent_stream_complete ev = false) (lw_trace failed_run.2).
Proof. vm_compute. repeat constructor. Qed.

Lemma failed_producer :
  List.filter producer failed_ops = agentLoop validate aborted now schedule streamFn number_text 11 [prompt] context failing_config 0%nat.
Proof. unfold failed_ops, agentLoop. apply asked_first. Qed.

Lemma agentLoop_rejection_witness :
  let '(out, s) := exec agent_stream_complete agent_stream_result failed_ops new_EventStream in
  es_done s = false /\ es_final s = None /\ forall c, (c, None) ∉ out.
Proof.
  exact (agentLoop_rejection_unsettled validate aborted now schedule streamFn number_text 11 [prompt] context failing_config 0%nat
    (js "bad message") failed_run.2 failed_ops run_failed failed_trace failed_producer).
Defined.
End LoopSample.

Module AgentSample.
(** Outside the agent: the number of requests served. *)
Abbreviation Ag := (Agent nat).

Definition model : Model := mkModel (js "m") (js "M") (js "api") (js "p") [] false 1000 100.
Definition now (a : Ag) : Z * Ag := (1700000000000, a).
Definition schedule (a : Ag) : list nat := [].
Definition validate (t : AgentTool Ag) (c : ToolCall) : result jsstr json := Ok (tc_arguments c).
Definition number_text (raw : jsstr) : jsstr := raw.

Definition user (s : string) : AgentMessage := MUser (mkUser (RString (js s)) None 1700000000000).
Definition assistant (calls : list ToolCall) : AssistantMessage :=
  mkAssistant (AText (js "working") None :: map AToolCall calls) (js "api") (js "p") (js "m") None None None EMPTY_USAGE
    (if is_empty calls then StopStop else StopToolUse) None 1700000000000.
Definition read_call : ToolCall := mkToolCall (js "r") (js "read") (JObj []) None.
Definition finish_call : ToolCall :=
  mkToolCall (js "f") FINISH_WORK_TOOL_NAME (JObj [(js "status", JStr (js "success")); (js "summary", JStr (js "done"))]) None.
Definition script (n : nat) : AssistantMessage := match n with O => assistant [read_call] | _ => assistant [finish_call] end.

Definition served (a : Ag) : Ag :=
  mkAgent (ag_systemPrompt a) (ag_model a) (ag_thinkingLevel a) (ag_messages a) (ag_isStreaming a) (ag_streamingMessage a)
    (ag_pendingToolCalls a) (ag_errorMessage a) (ag_steeringQueue a) (ag_followUpQueue a) (ag_activeRun a)
    (ag_skipInitialSteeringPoll a) (S (ag_outside a)).
Definition streamFn (m : Model) (c : LlmContext Ag) (o : StreamOptions) : hook Ag (response Ag) := fun a =>
  let n := ag_outside a in
  (Ok (mkResponse (REvent (fun a => (SDone (script n), a)) (fun _ => REnd)) (fun a => (Ok (script n), a))), served a).

Definition read_tool : AgentTool Ag :=
  mkTool (js "read") (js "Read") (js "Read a file") (JObj []) None None
    (fun _ _ => Settle (fun a => (Ok (mkToolResultValue [CText (js "text") None] None None None None), a))) None.

(** The listener steers when a tool starts. *)
Definition listener (ev : AgentEvent) : hook Ag unit := fun a =>
  match ev with
  | tool_execution_start _ (_ :: _ :: _ :: [_]) _ _ => (Ok tt, do_steer (QMessage (user "look at b.ts too")) a)
  | _ => (Ok tt, a)
  end.

Definition parts : AgentParts nat :=
  mkParts [read_tool] [listener] (fun ms => fun a => (Ok (defaultConvertToLlm ms), a)) None None None None None None None parallel
    explicit_finish None None.

Definition fresh : Ag := new_Agent (mkInitial None (Some model) None None) None None O.

Lemma polite_parts : polite_code parts now streamFn.
Proof.
  constructor.
  - repeat constructor. intros ev a. unfold listener. destruct ev; try reflexivity.
    destruct toolName as [|? [|? [|? [|? [|]]]]]; reflexivity.
  - repeat constructor.
  - intros a. constructor; try exact I; [intros ms b; reflexivity|apply polite_steering|apply polite_followUp].
  - intros a. reflexivity.
  - intros m llm opts a. reflexivity.
  - intros m llm opts a r a' [= <- <-]. split; [|intros b; reflexivity]. split; [intros b; reflexivity|]. intros b. exact I.
Qed.

Lemma agent_streams : streams_well streamFn.
Proof. intros m llm opts a r a' [= <- <-]. simpl. naive_solver. Qed.

Definition prompted : result jsstr loop_exit * Ag :=
  do_prompt parts validate now schedule streamFn number_text 8 (PMessages [user "read a.ts"]) fresh.

Lemma prompted_ok : do_prompt parts validate now schedule streamFn number_text 8 (PMessages [user "read a.ts"]) fresh = (Ok Finished, prompted.2).
Proof. vm_compute. reflexivity. Qed.

Lemma prompt_recorded_witness : idle prompted.2 /\ length (ag_messages prompted.2) = 6%nat.
Proof.
  split; [|vm_compute; reflexivity].
  exact (proj1 (prompt_recorded parts validate now schedule streamFn number_text 8 [user "read a.ts"] fresh prompted.2
    polite_parts agent_streams eq_refl prompted_ok)).
Defined.
(** An agent that has answered, with a question and a follow-up queued. *)
Definition answered : Ag :=
  new_Agent (mkInitial None (Some model) None (Some [user "read a.ts"; MAssistant (assistant [])])) None None 1%nat.
Definition queued : Ag := do_followUp (QMessage (user "and c.ts?")) (do_steer (QMessage (user "why?")) answered).
Definition continued : result jsstr loop_exit * Ag := do_continue parts validate now schedule streamFn number_text 8 queued.

Lemma continued_ok : do_continue parts validate now schedule streamFn number_text 8 queued = (Ok Finished, continued.2).
Proof. vm_compute. reflexivity. Qed.

Lemma continue_recorded_witness :
  idle continued.2 /\ recorded queued continued.2 (continue_run parts validate now schedule streamFn number_text 8 queued) /\
  continued_with queued = [user "why?"] /\ hasItems (ag_followUpQueue continued.2) = true.
Proof.
  pose proof (continue_recorded parts validate now schedule streamFn number_text 8 queued continued.2 polite_parts agent_streams eq_refl continued_ok)
    as (Hi & Hr & _). exact (conj Hi (conj Hr (conj eq_refl eq_refl))).
Defined.
(** A follow-up queued before an explicit run is still queued when the run has
    finished its work: the run ends at [finish_work] and does not look at the queue. *)
Definition followed_up : result jsstr loop_exit * Ag :=
  do_prompt parts validate now schedule streamFn number_text 8 (PMessages [user "read a.ts"]) (do_followUp (QMessage (user "and c.ts?")) fresh).

Example explicit_run_leaves_followUp :
  followed_up.1 = Ok Finished /\ idle followed_up.2 /\ hasItems (ag_followUpQueue followed_up.2) = true.
Proof. vm_compute. repeat split. Qed.
End AgentSample.
