(* ===== verification/JsonCodec.v ===== *)
(** Messages and session entries as JSON data: the object each record is in
    the runtime, what reading its fields back gives, and the round trip.  A
    codec is a class, and each record's instance is built from those of its
    fields. *)
From Stdlib Require Import QArith_base.
From S2P Require Import Prelude JsString Json JsonParse Messages Uuid SessionTree.
#[local] Open Scope Z_scope.

(** ** Numbers *)

(** Printing and reading of the numbers of the runtime: [String(Number(s))],
    the text of a dollar amount and the amount a text denotes.  Integers up to
    [Number.MAX_SAFE_INTEGER] print in plain decimal. *)
Class JsNumbers := {
  number_text : jsstr -> jsstr;
  amount_text : Q -> jsstr;
  amount_value : jsstr -> option Q;
  number_text_int n : Z.abs n <= 2 ^ 53 - 1 -> number_text (show n) = show n;
}.

(** The integer a decimal text denotes. *)
Definition int_value (r : jsstr) : option Z :=
  let '(m, d) := parse_minus r in
  match parse_int d with
  | Some (_, []) => Some (if is_empty m then digits_value d else - digits_value d)
  | _ => None
  end.

Lemma digits_value_snoc ds d : digits_value (ds ++ [48 + d]) = digits_value ds * 10 + d.
Proof. unfold digits_value. rewrite fold_left_app. simpl. lia. Qed.

Lemma js_pretty_char x : (x < 10)%N -> js (String (pretty_N_char x) "") = [48 + Z.of_N x].
Proof.
  intros Hx. assert (x = 0 \/ x = 1 \/ x = 2 \/ x = 3 \/ x = 4 \/ x = 5 \/ x = 6 \/ x = 7 \/ x = 8 \/ x = 9)%N as H by lia.
  destruct_or! H; subst; reflexivity.
Qed.

Lemma js_cons c s : js (String c s) = js (String c "") ++ js s.
Proof. reflexivity. Qed.

(** The digits of a positive number, most significant first. *)
Lemma pretty_go_digits x : forall s, exists ds, js (pretty_N_go x s) = ds ++ js s /\
  Forall (fun c => is_digit c = true) ds /\ digits_value ds = Z.of_N x /\
  ((0 < x)%N -> exists c t, ds = c :: t /\ c <> 48).
Proof.
  induction (N.lt_wf_0 x) as [x _ IH]. intros s.
  destruct (decide (x = 0)%N) as [->|Hx]; [by exists []|].
  rewrite pretty_N_go_step by lia.
  destruct (IH (x `div` 10)%N (N.div_lt x 10 ltac:(lia) ltac:(lia)) (String (pretty_N_char (x `mod` 10)) s))
    as (ds & E & Hd & Hv & Hc).
  assert (Hm : (x `mod` 10 < 10)%N) by (apply N.mod_lt; lia).
  exists (ds ++ [48 + Z.of_N (x `mod` 10)]). split_and!.
  - rewrite E, js_cons, js_pretty_char, <- app_assoc by done. done.
  - apply Forall_app. split; [done|]. constructor; [|done]. unfold is_digit.
    generalize dependent (x `mod` 10)%N. intros d _ Hlt. apply andb_true_iff. rewrite !Z.leb_le. lia.
  - rewrite digits_value_snoc, Hv. rewrite N2Z.inj_div, N2Z.inj_mod. pose proof (Z.div_mod (Z.of_N x) 10). lia.
  - intros _. destruct (decide (x < 10)%N) as [Hs|Hs].
    + assert (Hz : (x `div` 10 = 0)%N) by (by apply N.div_small). rewrite Hz in E.
      rewrite pretty_N_go_0 in E. assert (ds = []) as -> by (apply (f_equal length) in E; rewrite length_app in E; destruct ds; [done|cbn [length] in E; lia]).
      simpl. eexists _, _. split; [done|]. rewrite N.mod_small by done. lia.
    + destruct Hc as (c & t & -> & Hc); [apply N.div_str_pos; lia|]. by exists c, (t ++ [48 + Z.of_N (x `mod` 10)]).
Qed.

Lemma take_digits_all ds : Forall (fun c => is_digit c = true) ds -> take_digits ds = (ds, []).
Proof. induction 1 as [|c ds Hc _ IH]; [done|]. simpl. by rewrite Hc, IH. Qed.

Lemma digits_head_45 c t : Forall (fun c => is_digit c = true) (c :: t) -> (c =? 45) = false.
Proof. intros H. inversion_clear H as [|? ? Hc _]. unfold is_digit in Hc. bool_hyps. apply Z.eqb_neq. lia. Qed.

(** A natural number: its text is its digits. *)
Lemma show_nat_digits n : 0 <= n -> exists ds, show n = ds /\ Forall (fun c => is_digit c = true) ds /\
  digits_value ds = n /\ parse_int ds = Some (ds, []) /\ exists c t, ds = c :: t.
Proof.
  intros Hn. unfold show. destruct n as [|p|p]; [| |lia].
  - exists [48]. repeat split; [by repeat constructor|by eexists _, _].
  - change (pretty (Z.pos p)) with (pretty_N_go (N.pos p) "").
    destruct (pretty_go_digits (N.pos p) "") as (ds & E & Hd & Hv & Hc).
    destruct Hc as (c & t & -> & Hc); [lia|]. rewrite app_nil_r in E. rewrite E. exists (c :: t). split_and!; try done.
    + unfold parse_int. inversion Hd as [|? ? Hc' _]; subst. rewrite (proj2 (Z.eqb_neq _ _) Hc), Hc'.
      by rewrite take_digits_all.
    + by eexists _, _.
Qed.

Lemma show_neg p : show (Z.neg p) = 45 :: show (Z.pos p).
Proof. reflexivity. Qed.

Lemma int_value_show n : int_value (show n) = Some n.
Proof.
  unfold int_value. destruct (decide (0 <= n)) as [Hn|Hn].
  - destruct (show_nat_digits n Hn) as (ds & -> & Hd & Hv & Hp & c & t & ->). simpl parse_minus.
    rewrite (digits_head_45 c t Hd). rewrite Hp. simpl. by rewrite Hv.
  - destruct n as [| |p]; [lia|lia|]. rewrite show_neg.
    destruct (show_nat_digits (Z.pos p) ltac:(lia)) as (ds & -> & Hd & Hv & Hp & c & t & ->).
    change (parse_minus (45 :: c :: t)) with ([45], c :: t). cbv beta iota.
    rewrite Hp. simpl is_empty. by rewrite Hv.
Qed.

Lemma parse_number_show n : parse_number (show n) = Some (show n, []).
Proof.
  unfold parse_number. destruct (decide (0 <= n)) as [Hn|Hn].
  - destruct (show_nat_digits n Hn) as (ds & -> & Hd & Hv & Hp & c & t & ->). simpl parse_minus.
    rewrite (digits_head_45 c t Hd), Hp. cbn. by rewrite app_nil_r.
  - destruct n as [| |p]; [lia|lia|]. rewrite show_neg.
    destruct (show_nat_digits (Z.pos p) ltac:(lia)) as (ds & -> & Hd & Hv & Hp & c & t & ->).
    change (parse_minus (45 :: c :: t)) with ([45], c :: t). cbv beta iota.
    rewrite Hp. cbn. by rewrite app_nil_r.
Qed.

(** ** Objects with named fields *)

(** The properties of an object literal; an [undefined] one is not printed. *)
Definition fields (l : list (string * option json)) : list (jsstr * json) :=
  omap (fun kv => pair (js kv.1) <$> kv.2) l.
Definition obj (l : list (string * option json)) : json := JObj (fields l).

Fixpoint field_of (l : list (string * option json)) (k : string) : option json :=
  match l with
  | [] => None
  | (k', o) :: l' => if String.eqb k' k then o else field_of l' k
  end.

(** Distinct names, none an array index. *)
Fixpoint names_ok (ks : list string) : bool :=
  match ks with
  | [] => true
  | k :: ks' =>
      negb (existsb (String.eqb k) ks')
      && match array_index (js k) with None => true | Some _ => false end && names_ok ks'
  end.

(** [v.k]. *)
Definition prop (k : string) (v : json) : option json :=
  match v with JObj m => get_prop m (js k) | _ => None end.

Lemma js_inj a b : js a = js b -> a = b.
Proof.
  revert b. induction a as [|c a IH]; intros [|d b]; try done. cbn. intros [= Hc H%IH]. subst. f_equal.
  apply Nat2Z.inj in Hc. rewrite <- (Ascii.ascii_nat_embedding c), <- (Ascii.ascii_nat_embedding d). by rewrite Hc.
Qed.

Lemma js_wf s : wf_str (js s).
Proof.
  unfold wf_str, js. apply Forall_fmap, Forall_forall. intros c _. simpl.
  pose proof (Ascii.nat_ascii_bounded c). lia.
Qed.

Lemma get_prop_cons k v m key : get_prop ((k, v) :: m) key = if bool_decide (k = key) then Some v else get_prop m key.
Proof.
  unfold get_prop. cbn [find_index fst]. destruct (bool_decide (k = key)); [done|].
  destruct (find_index _ m); done.
Qed.

Lemma fields_keys l k : js k ∈ (fields l).*1 -> k ∈ l.*1.
Proof.
  unfold fields. rewrite !list_elem_of_fmap. intros ([k' v] & E & H). simpl in E. subst.
  apply list_elem_of_omap in H as ([k2 [w|]] & Hin & [= E ->]). apply js_inj in E. subst. by exists (k, Some v).
Qed.

Lemma names_ok_new k (l : list (string * option json)) :
  names_ok (k :: l.*1) = true -> (k ∉ l.*1) /\ array_index (js k) = None /\ names_ok l.*1 = true.
Proof.
  cbn [names_ok]. intros ((H1 & H2)%andb_true_iff & H3)%andb_true_iff. split_and!; [|by destruct (array_index _)|done].
  apply negb_true_iff in H1. intros Hin. assert (existsb (String.eqb k) l.*1 = true); [|congruence].
  apply existsb_exists. exists k. split; [by apply list_elem_of_In|apply String.eqb_refl].
Qed.

Lemma fields_cons k o l : fields ((k, o) :: l) = match o with Some v => (js k, v) :: fields l | None => fields l end.
Proof. by destruct o. Qed.

Lemma get_prop_None m key : key ∉ m.*1 -> get_prop m key = None.
Proof.
  induction m as [|[k v] m IH]; [done|]. rewrite get_prop_cons. simpl. intros H.
  rewrite bool_decide_false by set_solver. apply IH. set_solver.
Qed.

Lemma prop_obj l k : names_ok l.*1 = true -> prop k (obj l) = field_of l k.
Proof.
  unfold prop, obj. induction l as [|[k' o] l IH]; [done|]. intros Hn.
  destruct (names_ok_new k' l Hn) as (Hnew & _ & Hl). rewrite fields_cons. cbn [field_of].
  destruct (String.eqb_spec k' k) as [->|Hne].
  - destruct o as [v|]; [by rewrite get_prop_cons, bool_decide_true|]. apply get_prop_None.
    by intros H%fields_keys.
  - rewrite <- IH by done. destruct o as [v|]; [|done]. rewrite get_prop_cons, bool_decide_false; [done|].
    by intros H%js_inj.
Qed.

Lemma fields_plain l : names_ok l.*1 = true -> plain_keys (fields l).*1.
Proof.
  induction l as [|[k o] l IH]; intros Hn; [split; constructor|].
  destruct (names_ok_new k l Hn) as (Hnew & Hi & Hl). destruct (IH Hl) as [Hnd Hpl]. rewrite fields_cons.
  destruct o as [v|]; [|done]. split; cbn [fmap list_fmap fst]; constructor; try done. by intros H%fields_keys.
Qed.

(** ** Codecs *)

Section Codecs.
Context `{JsNumbers}.

(** A type with its JSON form.  [codec_ok] holds of the values the runtime can
    have: strings of code units, safe integers, printable amounts. *)
Class JsonCodec (A : Type) := {
  to_json : A -> json;
  of_json : json -> option A;
  codec_ok : A -> Prop;
  codec_json x : codec_ok x -> json_ok number_text (to_json x);
  codec_round x : codec_ok x -> of_json (to_json x) = Some x;
}.

(** A required field, and an optional one. *)
Definition req {A} `{JsonCodec A} (k : string) (v : json) : option A := prop k v ≫= of_json.
Definition opt {A} `{JsonCodec A} (k : string) (v : json) : option (option A) :=
  match prop k v with None => Some None | Some w => Some <$> of_json w end.

Definition opt_ok {A} `{JsonCodec A} (o : option A) : Prop := match o with Some x => codec_ok x | None => True end.

Lemma req_obj {A} `{JsonCodec A} l k x :
  names_ok l.*1 = true -> field_of l k = Some (to_json x) -> codec_ok x -> req k (obj l) = Some x.
Proof. intros Hn E Hx. unfold req. rewrite prop_obj, E by done. simpl. by apply codec_round. Qed.

Lemma opt_obj {A} `{JsonCodec A} l k (o : option A) :
  names_ok l.*1 = true -> field_of l k = to_json <$> o -> opt_ok o -> opt k (obj l) = Some o.
Proof.
  intros Hn E Ho. unfold opt. rewrite prop_obj, E by done. destruct o as [x|]; [|done]. simpl.
  by rewrite codec_round.
Qed.

Lemma obj_ok l :
  names_ok l.*1 = true -> Forall (fun kv => match kv.2 with Some v => json_ok number_text v | None => True end) l ->
  json_ok number_text (obj l).
Proof.
  intros Hn Hl. constructor; [by apply plain_enum_ok, fields_plain|]. clear Hn.
  induction Hl as [|[k [v|]] l Hv Hl IH]; [constructor| |by rewrite fields_cons].
  rewrite fields_cons. constructor; [split; [apply js_wf|done]|done].
Qed.

Lemma opt_json_ok {A} `{JsonCodec A} (o : option A) :
  opt_ok o -> match to_json <$> o with Some v => json_ok number_text v | None => True end.
Proof. destruct o; [apply codec_json|done]. Qed.

#[export, refine] Instance str_codec : JsonCodec jsstr := {|
  to_json := JStr; of_json v := match v with JStr s => Some s | _ => None end; codec_ok := wf_str;
|}.
Proof. - intros s Hs. by constructor. - done. Defined.

#[export, refine] Instance bool_codec : JsonCodec bool := {|
  to_json := JBool; of_json v := match v with JBool b => Some b | _ => None end; codec_ok _ := True;
|}.
Proof. - constructor. - done. Defined.

#[export, refine] Instance int_codec : JsonCodec Z := {|
  to_json n := JNum (show n); of_json v := match v with JNum r => int_value r | _ => None end;
  codec_ok n := Z.abs n <= 2 ^ 53 - 1;
|}.
Proof.
  - intros n Hn. constructor. split; [apply parse_number_show|by apply number_text_int].
  - intros n _. apply int_value_show.
Defined.

#[export, refine] Instance amount_codec : JsonCodec Q := {|
  to_json q := JNum (amount_text q); of_json v := match v with JNum r => amount_value r | _ => None end;
  codec_ok q := number_ok number_text (amount_text q) /\ amount_value (amount_text q) = Some q;
|}.
Proof. - intros q [Hq _]. by constructor. - by intros q [_ Hq]. Defined.

(** Data the code passes through ([unknown] in the sources). *)
#[export, refine] Instance json_codec : JsonCodec json := {|
  to_json v := v; of_json := Some; codec_ok := json_ok number_text;
|}.
Proof. - done. - done. Defined.

#[export, refine] Instance list_codec {A} `{JsonCodec A} : JsonCodec (list A) := {|
  to_json l := JArr (map to_json l);
  of_json v := match v with JArr l => mapM of_json l | _ => None end;
  codec_ok := Forall codec_ok;
|}.
Proof.
  - intros l Hl. constructor. apply Forall_fmap. eapply Forall_impl; [exact Hl|]. intros x. apply codec_json.
  - intros l Hl. induction Hl as [|x l Hx Hl IH]; [done|]. simpl in *. rewrite codec_round by done. simpl. by rewrite IH.
Defined.

(** [string | null]. *)
#[export, refine] Instance nullable_codec {A} `{JsonCodec A} : JsonCodec (option A) := {|
  to_json o := match o with Some x => to_json x | None => JNull end;
  of_json v := match v with JNull => Some None | _ => Some <$> of_json v end;
  codec_ok o := match o with Some x => codec_ok x /\ to_json x <> JNull | None => True end;
|}.
Proof.
  - intros [x|]; [intros [Hx _]; by apply codec_json|constructor].
  - intros [x|]; [|done]. intros [Hx Hne]. rewrite codec_round by done. by destruct (to_json x).
Defined.

(** [Record<string, unknown>]. *)
#[export, refine] Instance record_codec : JsonCodec (list (jsstr * json)) := {|
  to_json := JObj; of_json v := match v with JObj m => Some m | _ => None end;
  codec_ok m := json_ok number_text (JObj m);
|}.
Proof. - done. - done. Defined.
End Codecs.
