(* ===== verification/EntryJson.v ===== *)
(** The JSON form of messages ([packages/ai/src/types/content-types.ts],
    [harness/messages.ts]) and of session entries ([harness/types.ts]), field
    by field, with the round trip of every record. *)
From Stdlib Require Import QArith_base.
From S2P Require Import Prelude JsString Json JsonParse Messages Uuid SessionTree JsonCodec.
#[local] Open Scope Z_scope.

(** A field with a fixed string, and the test of one. *)
Definition lit (s : string) : option json := Some (JStr (js s)).
Definition is_lit (t : jsstr) (s : string) : bool := bool_decide (t = js s).

Lemma is_lit_js a b : is_lit (js a) b = String.eqb a b.
Proof.
  unfold is_lit. destruct (String.eqb_spec a b) as [->|Hne]; [by apply bool_decide_true|].
  apply bool_decide_false. by intros H%js_inj.
Qed.

(** Evaluate a comparison of two literals. *)
Ltac eval_lits :=
  repeat match goal with
  | |- context [is_lit (js ?a) ?b] =>
      rewrite (is_lit_js a b); let r := eval vm_compute in (String.eqb a b) in change (String.eqb a b) with r; cbv iota
  end.

Ltac codec_field := first [assumption | apply js_wf | exact I].

(** Read the next field of a printed object. *)
Ltac read_field :=
  match goal with
  | |- context [@req ?N ?A ?C ?k (obj ?l)] =>
      let H := fresh "H" in
      eassert (H : @req N A C k (obj l) = Some _)
        by (eapply req_obj; [reflexivity|cbn; reflexivity|codec_field]);
      rewrite H; clear H; cbn [mbind option_bind]
  | |- context [@opt ?N ?A ?C ?k (obj ?l)] =>
      let H := fresh "H" in
      eassert (H : @opt N A C k (obj l) = Some _)
        by (eapply opt_obj; [reflexivity|cbn; reflexivity|codec_field]);
      rewrite H; clear H; cbn [mbind option_bind]
  end.
Ltac read_fields := repeat (read_field; eval_lits).

(** A printed object of printed fields is a proper JSON value. *)
Ltac fields_ok :=
  apply obj_ok; [reflexivity|];
  repeat (apply Forall_cons; split; cbn [snd];
    [first [ apply codec_json; codec_field | apply opt_json_ok; codec_field
           | apply ok_str; apply js_wf | exact I ]|]);
  apply Forall_nil; exact I.

Section Instances.
Context `{JsNumbers}.

(** ** Content *)

Definition content_block_json (b : content_block) : json :=
  match b with
  | CText text sig => obj [("type", lit "text"); ("text", Some (to_json text)); ("textSignature", to_json <$> sig)]
  | CImage data mime => obj [("type", lit "image"); ("data", Some (to_json data)); ("mimeType", Some (to_json mime))]
  end.

Definition json_content_block (v : json) : option content_block :=
  t ← req "type" v;
  if is_lit t "text" then text ← req "text" v; sig ← opt "textSignature" v; Some (CText text sig)
  else if is_lit t "image" then data ← req "data" v; mime ← req "mimeType" v; Some (CImage data mime)
  else None.

#[export, refine] Instance content_block_codec : JsonCodec content_block := {|
  to_json := content_block_json; of_json := json_content_block;
  codec_ok b := match b with
                | CText text sig => codec_ok text /\ opt_ok sig
                | CImage data mime => codec_ok data /\ codec_ok mime
                end;
|}.
Proof.
  - intros [text sig|data mime] Hok; destruct_and! Hok; cbn [content_block_json]; fields_ok.
  - intros [text sig|data mime] Hok; destruct_and! Hok; unfold json_content_block; cbn [content_block_json]; by read_fields.
Defined.

Definition rich_content_json (c : rich_content) : json :=
  match c with RString s => to_json s | RBlocks l => to_json l end.
Definition json_rich_content (v : json) : option rich_content :=
  match v with JStr s => Some (RString s) | _ => RBlocks <$> of_json v end.

#[export, refine] Instance rich_content_codec : JsonCodec rich_content := {|
  to_json := rich_content_json; of_json := json_rich_content;
  codec_ok c := match c with RString s => codec_ok s | RBlocks l => codec_ok l end;
|}.
Proof.
  - intros [s|l] Hok; by apply codec_json.
  - intros [s|l] Hok; [done|]. unfold json_rich_content. cbn [rich_content_json].
    rewrite (codec_round l Hok). done.
Defined.

Definition tool_call_json (c : ToolCall) : json :=
  obj [("type", lit "toolCall"); ("id", Some (to_json (tc_id c))); ("name", Some (to_json (tc_name c)));
       ("arguments", Some (to_json (tc_arguments c))); ("thoughtSignature", to_json <$> tc_thoughtSignature c)].
Definition json_tool_call (v : json) : option ToolCall :=
  id ← req "id" v; name ← req "name" v; args ← req "arguments" v; sig ← opt "thoughtSignature" v;
  Some (mkToolCall id name args sig).

#[export, refine] Instance tool_call_codec : JsonCodec ToolCall := {|
  to_json := tool_call_json; of_json := json_tool_call;
  codec_ok c := codec_ok (tc_id c) /\ codec_ok (tc_name c) /\ codec_ok (tc_arguments c) /\ opt_ok (tc_thoughtSignature c);
|}.
Proof.
  - intros c Hok; destruct_and! Hok. unfold tool_call_json. fields_ok.
  - intros c Hok; destruct_and! Hok. unfold json_tool_call, tool_call_json. read_fields. by destruct c.
Defined.

Definition assistant_block_json (b : assistant_block) : json :=
  match b with
  | AText text sig => obj [("type", lit "text"); ("text", Some (to_json text)); ("textSignature", to_json <$> sig)]
  | AThinking t sig redacted =>
      obj [("type", lit "thinking"); ("thinking", Some (to_json t)); ("thinkingSignature", to_json <$> sig);
           ("redacted", to_json <$> redacted)]
  | AToolCall c => to_json c
  end.
Definition json_assistant_block (v : json) : option assistant_block :=
  t ← req "type" v;
  if is_lit t "text" then text ← req "text" v; sig ← opt "textSignature" v; Some (AText text sig)
  else if is_lit t "thinking" then
    th ← req "thinking" v; sig ← opt "thinkingSignature" v; redacted ← opt "redacted" v; Some (AThinking th sig redacted)
  else if is_lit t "toolCall" then AToolCall <$> of_json v
  else None.

#[export, refine] Instance assistant_block_codec : JsonCodec assistant_block := {|
  to_json := assistant_block_json; of_json := json_assistant_block;
  codec_ok b := match b with
                | AText text sig => codec_ok text /\ opt_ok sig
                | AThinking t sig redacted => codec_ok t /\ opt_ok sig /\ opt_ok redacted
                | AToolCall c => codec_ok c
                end;
|}.
Proof.
  - intros [text sig|t sig r|c] Hok; [destruct_and! Hok; cbn [assistant_block_json]; fields_ok..|by apply codec_json].
  - intros [text sig|t sig r|c] Hok; unfold json_assistant_block; cbn [assistant_block_json].
    1,2: destruct_and! Hok; by read_fields.
    assert (Ht : req (A := jsstr) "type" (to_json c) = Some (js "toolCall")) by reflexivity.
    rewrite Ht. cbn [mbind option_bind]. eval_lits. by rewrite (codec_round c Hok).
Defined.

(** ** Usage *)

Definition cost_json (c : Cost) : json :=
  obj [("input", Some (to_json (cost_input c))); ("output", Some (to_json (cost_output c)));
       ("cacheRead", Some (to_json (cost_cacheRead c))); ("cacheWrite", Some (to_json (cost_cacheWrite c)));
       ("total", Some (to_json (cost_total c)))].
Definition json_cost (v : json) : option Cost :=
  i ← req "input" v; o ← req "output" v; r ← req "cacheRead" v; w ← req "cacheWrite" v; t ← req "total" v;
  Some (mkCost i o r w t).

#[export, refine] Instance cost_codec : JsonCodec Cost := {|
  to_json := cost_json; of_json := json_cost;
  codec_ok c := codec_ok (cost_input c) /\ codec_ok (cost_output c) /\ codec_ok (cost_cacheRead c)
                /\ codec_ok (cost_cacheWrite c) /\ codec_ok (cost_total c);
|}.
Proof.
  - intros c Hok; destruct_and! Hok. unfold cost_json. fields_ok.
  - intros c Hok; destruct_and! Hok. unfold json_cost, cost_json. read_fields. by destruct c.
Defined.

Definition usage_json (u : Usage) : json :=
  obj [("input", Some (to_json (u_input u))); ("output", Some (to_json (u_output u)));
       ("cacheRead", Some (to_json (u_cacheRead u))); ("cacheWrite", Some (to_json (u_cacheWrite u)));
       ("cacheWrite1h", to_json <$> u_cacheWrite1h u); ("totalTokens", Some (to_json (u_totalTokens u)));
       ("cost", Some (to_json (u_cost u)))].
Definition json_usage (v : json) : option Usage :=
  i ← req "input" v; o ← req "output" v; r ← req "cacheRead" v; w ← req "cacheWrite" v; w1 ← opt "cacheWrite1h" v;
  t ← req "totalTokens" v; c ← req "cost" v;
  Some (mkUsage i o r w w1 t c).

#[export, refine] Instance usage_codec : JsonCodec Usage := {|
  to_json := usage_json; of_json := json_usage;
  codec_ok u := codec_ok (u_input u) /\ codec_ok (u_output u) /\ codec_ok (u_cacheRead u) /\ codec_ok (u_cacheWrite u)
                /\ opt_ok (u_cacheWrite1h u) /\ codec_ok (u_totalTokens u) /\ codec_ok (u_cost u);
|}.
Proof.
  - intros u Hok; destruct_and! Hok. unfold usage_json. fields_ok.
  - intros u Hok; destruct_and! Hok. unfold json_usage, usage_json. read_fields. by destruct u.
Defined.

Definition stop_reason_text (r : StopReason) : string :=
  match r with
  | StopStop => "stop" | StopLength => "length" | StopToolUse => "toolUse" | StopError => "error" | StopAborted => "aborted"
  end.
Definition json_stop_reason (v : json) : option StopReason :=
  t ← of_json v;
  if is_lit t "stop" then Some StopStop else if is_lit t "length" then Some StopLength
  else if is_lit t "toolUse" then Some StopToolUse else if is_lit t "error" then Some StopError
  else if is_lit t "aborted" then Some StopAborted else None.

#[export, refine] Instance stop_reason_codec : JsonCodec StopReason := {|
  to_json r := JStr (js (stop_reason_text r)); of_json := json_stop_reason; codec_ok _ := True;
|}.
Proof.
  - intros r _. constructor. apply js_wf.
  - intros [] _; reflexivity.
Defined.

(** ** Messages *)

Definition user_message_json (m : UserMessage) : json :=
  obj [("role", lit "user"); ("content", Some (to_json (um_content m))); ("metadata", to_json <$> um_metadata m);
       ("timestamp", Some (to_json (um_timestamp m)))].
Definition json_user_message (v : json) : option UserMessage :=
  x0 ← req "content" v; x1 ← opt "metadata" v; x2 ← req "timestamp" v;
  Some (mkUser x0 x1 x2).

#[export, refine] Instance user_message_codec : JsonCodec UserMessage := {|
  to_json := user_message_json; of_json := json_user_message;
  codec_ok m := codec_ok (um_content m) /\ opt_ok (um_metadata m) /\ codec_ok (um_timestamp m);
|}.
Proof.
  - intros m Hok; destruct_and! Hok. unfold user_message_json. fields_ok.
  - intros m Hok; destruct_and! Hok. unfold json_user_message, user_message_json. read_fields. by destruct m.
Defined.

Definition assistant_message_json (m : AssistantMessage) : json :=
  obj [("role", lit "assistant"); ("content", Some (to_json (am_content m))); ("api", Some (to_json (am_api m)));
       ("provider", Some (to_json (am_provider m))); ("model", Some (to_json (am_model m)));
       ("responseModel", to_json <$> am_responseModel m); ("responseId", to_json <$> am_responseId m);
       ("diagnostics", to_json <$> am_diagnostics m); ("usage", Some (to_json (am_usage m)));
       ("stopReason", Some (to_json (am_stopReason m))); ("errorMessage", to_json <$> am_errorMessage m);
       ("timestamp", Some (to_json (am_timestamp m)))].
Definition json_assistant_message (v : json) : option AssistantMessage :=
  x0 ← req "content" v; x1 ← req "api" v; x2 ← req "provider" v; x3 ← req "model" v;
  x4 ← opt "responseModel" v; x5 ← opt "responseId" v; x6 ← opt "diagnostics" v; x7 ← req "usage" v;
  x8 ← req "stopReason" v; x9 ← opt "errorMessage" v; x10 ← req "timestamp" v;
  Some (mkAssistant x0 x1 x2 x3 x4 x5 x6 x7 x8 x9 x10).

#[export, refine] Instance assistant_message_codec : JsonCodec AssistantMessage := {|
  to_json := assistant_message_json; of_json := json_assistant_message;
  codec_ok m := codec_ok (am_content m) /\ codec_ok (am_api m) /\ codec_ok (am_provider m) /\
    codec_ok (am_model m) /\ opt_ok (am_responseModel m) /\ opt_ok (am_responseId m) /\
    opt_ok (am_diagnostics m) /\ codec_ok (am_usage m) /\ codec_ok (am_stopReason m) /\
    opt_ok (am_errorMessage m) /\ codec_ok (am_timestamp m);
|}.
Proof.
  - intros m Hok; destruct_and! Hok. unfold assistant_message_json. fields_ok.
  - intros m Hok; destruct_and! Hok. unfold json_assistant_message, assistant_message_json. read_fields. by destruct m.
Defined.

Definition tool_result_json (m : ToolResultMessage) : json :=
  obj [("role", lit "toolResult"); ("toolCallId", Some (to_json (tr_toolCallId m)));
       ("toolName", Some (to_json (tr_toolName m))); ("content", Some (to_json (tr_content m)));
       ("details", to_json <$> tr_details m); ("isError", Some (to_json (tr_isError m)));
       ("timestamp", Some (to_json (tr_timestamp m)))].
Definition json_tool_result (v : json) : option ToolResultMessage :=
  x0 ← req "toolCallId" v; x1 ← req "toolName" v; x2 ← req "content" v; x3 ← opt "details" v;
  x4 ← req "isError" v; x5 ← req "timestamp" v;
  Some (mkToolResult x0 x1 x2 x3 x4 x5).

#[export, refine] Instance tool_result_codec : JsonCodec ToolResultMessage := {|
  to_json := tool_result_json; of_json := json_tool_result;
  codec_ok m := codec_ok (tr_toolCallId m) /\ codec_ok (tr_toolName m) /\ codec_ok (tr_content m) /\
    opt_ok (tr_details m) /\ codec_ok (tr_isError m) /\ codec_ok (tr_timestamp m);
|}.
Proof.
  - intros m Hok; destruct_and! Hok. unfold tool_result_json. fields_ok.
  - intros m Hok; destruct_and! Hok. unfold json_tool_result, tool_result_json. read_fields. by destruct m.
Defined.

Definition bash_message_json (m : BashExecutionMessage) : json :=
  obj [("role", lit "bashExecution"); ("command", Some (to_json (be_command m)));
       ("output", Some (to_json (be_output m))); ("exitCode", to_json <$> be_exitCode m);
       ("cancelled", Some (to_json (be_cancelled m))); ("truncated", Some (to_json (be_truncated m)));
       ("fullOutputPath", to_json <$> be_fullOutputPath m); ("timestamp", Some (to_json (be_timestamp m)));
       ("excludeFromContext", to_json <$> be_excludeFromContext m)].
Definition json_bash_message (v : json) : option BashExecutionMessage :=
  x0 ← req "command" v; x1 ← req "output" v; x2 ← opt "exitCode" v; x3 ← req "cancelled" v;
  x4 ← req "truncated" v; x5 ← opt "fullOutputPath" v; x6 ← req "timestamp" v;
  x7 ← opt "excludeFromContext" v;
  Some (mkBash x0 x1 x2 x3 x4 x5 x6 x7).

#[export, refine] Instance bash_message_codec : JsonCodec BashExecutionMessage := {|
  to_json := bash_message_json; of_json := json_bash_message;
  codec_ok m := codec_ok (be_command m) /\ codec_ok (be_output m) /\ opt_ok (be_exitCode m) /\
    codec_ok (be_cancelled m) /\ codec_ok (be_truncated m) /\ opt_ok (be_fullOutputPath m) /\
    codec_ok (be_timestamp m) /\ opt_ok (be_excludeFromContext m);
|}.
Proof.
  - intros m Hok; destruct_and! Hok. unfold bash_message_json. fields_ok.
  - intros m Hok; destruct_and! Hok. unfold json_bash_message, bash_message_json. read_fields. by destruct m.
Defined.

Definition custom_message_json (m : CustomMessage) : json :=
  obj [("role", lit "custom"); ("customType", Some (to_json (cm_customType m)));
       ("content", Some (to_json (cm_content m))); ("display", Some (to_json (cm_display m)));
       ("details", to_json <$> cm_details m); ("timestamp", Some (to_json (cm_timestamp m)))].
Definition json_custom_message (v : json) : option CustomMessage :=
  x0 ← req "customType" v; x1 ← req "content" v; x2 ← req "display" v; x3 ← opt "details" v;
  x4 ← req "timestamp" v;
  Some (mkCustom x0 x1 x2 x3 x4).

#[export, refine] Instance custom_message_codec : JsonCodec CustomMessage := {|
  to_json := custom_message_json; of_json := json_custom_message;
  codec_ok m := codec_ok (cm_customType m) /\ codec_ok (cm_content m) /\ codec_ok (cm_display m) /\
    opt_ok (cm_details m) /\ codec_ok (cm_timestamp m);
|}.
Proof.
  - intros m Hok; destruct_and! Hok. unfold custom_message_json. fields_ok.
  - intros m Hok; destruct_and! Hok. unfold json_custom_message, custom_message_json. read_fields. by destruct m.
Defined.

Definition branch_summary_json (m : BranchSummaryMessage) : json :=
  obj [("role", lit "branchSummary"); ("summary", Some (to_json (bs_summary m)));
       ("fromId", Some (to_json (bs_fromId m))); ("timestamp", Some (to_json (bs_timestamp m)))].
Definition json_branch_summary (v : json) : option BranchSummaryMessage :=
  x0 ← req "summary" v; x1 ← req "fromId" v; x2 ← req "timestamp" v;
  Some (mkBranchSummary x0 x1 x2).

#[export, refine] Instance branch_summary_codec : JsonCodec BranchSummaryMessage := {|
  to_json := branch_summary_json; of_json := json_branch_summary;
  codec_ok m := codec_ok (bs_summary m) /\ codec_ok (bs_fromId m) /\ codec_ok (bs_timestamp m);
|}.
Proof.
  - intros m Hok; destruct_and! Hok. unfold branch_summary_json. fields_ok.
  - intros m Hok; destruct_and! Hok. unfold json_branch_summary, branch_summary_json. read_fields. by destruct m.
Defined.

Definition compaction_summary_json (m : CompactionSummaryMessage) : json :=
  obj [("role", lit "compactionSummary"); ("summary", Some (to_json (cs_summary m)));
       ("tokensBefore", Some (to_json (cs_tokensBefore m))); ("tokensAfter", to_json <$> cs_tokensAfter m);
       ("timestamp", Some (to_json (cs_timestamp m)))].
Definition json_compaction_summary (v : json) : option CompactionSummaryMessage :=
  x0 ← req "summary" v; x1 ← req "tokensBefore" v; x2 ← opt "tokensAfter" v; x3 ← req "timestamp" v;
  Some (mkCompactionSummary x0 x1 x2 x3).

#[export, refine] Instance compaction_summary_codec : JsonCodec CompactionSummaryMessage := {|
  to_json := compaction_summary_json; of_json := json_compaction_summary;
  codec_ok m := codec_ok (cs_summary m) /\ codec_ok (cs_tokensBefore m) /\ opt_ok (cs_tokensAfter m) /\
    codec_ok (cs_timestamp m);
|}.
Proof.
  - intros m Hok; destruct_and! Hok. unfold compaction_summary_json. fields_ok.
  - intros m Hok; destruct_and! Hok. unfold json_compaction_summary, compaction_summary_json. read_fields. by destruct m.
Defined.

Definition agent_message_json (m : AgentMessage) : json :=
  match m with
  | MUser m => to_json m | MAssistant m => to_json m | MToolResult m => to_json m | MBash m => to_json m
  | MCustom m => to_json m | MBranchSummary m => to_json m | MCompactionSummary m => to_json m
  end.
Definition json_agent_message (v : json) : option AgentMessage :=
  role ← req "role" v;
  if is_lit role "user" then MUser <$> of_json v
  else if is_lit role "assistant" then MAssistant <$> of_json v
  else if is_lit role "toolResult" then MToolResult <$> of_json v
  else if is_lit role "bashExecution" then MBash <$> of_json v
  else if is_lit role "custom" then MCustom <$> of_json v
  else if is_lit role "branchSummary" then MBranchSummary <$> of_json v
  else if is_lit role "compactionSummary" then MCompactionSummary <$> of_json v
  else None.

(** A variant printed by its record: [key] holds the literal [name]. *)
Ltac read_variant key name Hok :=
  match goal with
  | |- context [@req ?N ?A ?C key ?v] =>
      let E := fresh "E" in assert (E : @req N A C key v = Some (js name)) by reflexivity; rewrite E; clear E
  end; cbn [mbind option_bind]; eval_lits; rewrite (codec_round _ Hok); reflexivity.

#[export, refine] Instance agent_message_codec : JsonCodec AgentMessage := {|
  to_json := agent_message_json; of_json := json_agent_message;
  codec_ok m := match m with
                | MUser m => codec_ok m | MAssistant m => codec_ok m | MToolResult m => codec_ok m | MBash m => codec_ok m
                | MCustom m => codec_ok m | MBranchSummary m => codec_ok m | MCompactionSummary m => codec_ok m
                end;
|}.
Proof.
  - intros [] Hok; by apply codec_json.
  - intros [m|m|m|m|m|m|m] Hok; unfold json_agent_message; cbn [agent_message_json].
    + read_variant "role" "user" Hok.
    + read_variant "role" "assistant" Hok.
    + read_variant "role" "toolResult" Hok.
    + read_variant "role" "bashExecution" Hok.
    + read_variant "role" "custom" Hok.
    + read_variant "role" "branchSummary" Hok.
    + read_variant "role" "compactionSummary" Hok.
Defined.

(** ** Session entries *)

(** The fields of [SessionTreeEntryBase]. *)
Definition base_fields (type : string) (e : SessionTreeEntry) : list (string * option json) :=
  [("type", lit type); ("id", Some (to_json (e_id e))); ("parentId", Some (to_json (e_parentId e)));
   ("timestamp", Some (to_json (e_timestamp e)))].

Definition entry_json (e : SessionTreeEntry) : json :=
  match e_body e with
  | EMessage m => obj (base_fields "message" e ++ [("message", Some (to_json m))])
  | EThinkingLevelChange l => obj (base_fields "thinking_level_change" e ++ [("thinkingLevel", Some (to_json l))])
  | EModelChange p m => obj (base_fields "model_change" e ++ [("provider", Some (to_json p)); ("modelId", Some (to_json m))])
  | EActiveToolsChange ns => obj (base_fields "active_tools_change" e ++ [("activeToolNames", Some (to_json ns))])
  | ECompaction s f t d h => obj (base_fields "compaction" e ++ [("summary", Some (to_json s)); ("firstKeptEntryId", Some (to_json f)); ("tokensBefore", Some (to_json t)); ("details", to_json <$> d); ("fromHook", to_json <$> h)])
  | EBranchSummary f s d h => obj (base_fields "branch_summary" e ++ [("fromId", Some (to_json f)); ("summary", Some (to_json s)); ("details", to_json <$> d); ("fromHook", to_json <$> h)])
  | ECustom c d => obj (base_fields "custom" e ++ [("customType", Some (to_json c)); ("data", to_json <$> d)])
  | ECustomMessage c b d disp => obj (base_fields "custom_message" e ++ [("customType", Some (to_json c)); ("content", Some (to_json b)); ("display", Some (to_json disp)); ("details", to_json <$> d)])
  | ELabel t l => obj (base_fields "label" e ++ [("targetId", Some (to_json t)); ("label", to_json <$> l)])
  | ESessionInfo n => obj (base_fields "session_info" e ++ [("name", to_json <$> n)])
  | ELeaf t => obj (base_fields "leaf" e ++ [("targetId", Some (to_json t))])
  end.

Definition json_body (t : jsstr) (v : json) : option entry_body :=
  if is_lit t "message" then m ← req "message" v; Some (EMessage m)
  else if is_lit t "thinking_level_change" then l ← req "thinkingLevel" v; Some (EThinkingLevelChange l)
  else if is_lit t "model_change" then p ← req "provider" v; m ← req "modelId" v; Some (EModelChange p m)
  else if is_lit t "active_tools_change" then ns ← req "activeToolNames" v; Some (EActiveToolsChange ns)
  else if is_lit t "compaction" then s ← req "summary" v; f ← req "firstKeptEntryId" v; t ← req "tokensBefore" v; d ← opt "details" v; h ← opt "fromHook" v; Some (ECompaction s f t d h)
  else if is_lit t "branch_summary" then f ← req "fromId" v; s ← req "summary" v; d ← opt "details" v; h ← opt "fromHook" v; Some (EBranchSummary f s d h)
  else if is_lit t "custom" then c ← req "customType" v; d ← opt "data" v; Some (ECustom c d)
  else if is_lit t "custom_message" then c ← req "customType" v; b ← req "content" v; disp ← req "display" v; d ← opt "details" v; Some (ECustomMessage c b d disp)
  else if is_lit t "label" then t ← req "targetId" v; l ← opt "label" v; Some (ELabel t l)
  else if is_lit t "session_info" then n ← opt "name" v; Some (ESessionInfo n)
  else if is_lit t "leaf" then t ← req "targetId" v; Some (ELeaf t)
  else None.

Definition json_entry (v : json) : option SessionTreeEntry :=
  t ← req "type" v; id ← req "id" v; parent ← req "parentId" v; ts ← req "timestamp" v; body ← json_body t v;
  Some (mkEntry id parent ts body).

Definition body_ok (b : entry_body) : Prop :=
  match b with
  | EMessage m => codec_ok m
  | EThinkingLevelChange l => codec_ok l
  | EModelChange p m => codec_ok p /\ codec_ok m
  | EActiveToolsChange ns => codec_ok ns
  | ECompaction s f t d h => codec_ok s /\ codec_ok f /\ codec_ok t /\ opt_ok d /\ opt_ok h
  | EBranchSummary f s d h => codec_ok f /\ codec_ok s /\ opt_ok d /\ opt_ok h
  | ECustom c d => codec_ok c /\ opt_ok d
  | ECustomMessage c b d disp => codec_ok c /\ codec_ok b /\ opt_ok d /\ codec_ok disp
  | ELabel t l => codec_ok t /\ opt_ok l
  | ESessionInfo n => opt_ok n
  | ELeaf t => codec_ok t
  end.

#[export, refine] Instance entry_codec : JsonCodec SessionTreeEntry := {|
  to_json := entry_json; of_json := json_entry;
  codec_ok e := codec_ok (e_id e) /\ codec_ok (e_parentId e) /\ codec_ok (e_timestamp e) /\ body_ok (e_body e);
|}.
Proof.
  - intros [id parent ts b] (Hid & Hp & Ht & Hb); cbn [e_id e_parentId e_timestamp e_body] in *. unfold entry_json.
    cbn [e_body]. unfold base_fields. cbn [e_id e_parentId e_timestamp].
    destruct b; cbn [body_ok app] in *; destruct_and? Hb; fields_ok.
  - intros [id parent ts b] (Hid & Hp & Ht & Hb); cbn [e_id e_parentId e_timestamp e_body] in *.
    unfold json_entry, json_body, entry_json. cbn [e_body]. unfold base_fields. cbn [e_id e_parentId e_timestamp].
    destruct b; cbn [body_ok app] in *; destruct_and? Hb; by read_fields.
Defined.

End Instances.
