(* ===== verification/JsonlStorage.v ===== *)
(** The JSONL session storage ([harness/session/jsonl-storage.ts]): a header
    line and one line per entry, appended as the session grows and parsed when
    it is opened.  The file system is an interface; the storage is a second
    implementation of [SessionStorage]. *)
From S2P Require Import Prelude JsString Json JsonParse Effects Uuid Messages SessionTree SessionLaws JsonCodec EntryJson.
#[local] Open Scope eff.

(** ** The file system ([harness/types.ts]) *)

Inductive FileErrorCode :=
  | file_aborted | file_not_found | file_permission_denied | file_not_directory | file_is_directory | file_invalid
  | file_not_supported | file_unknown.
Record FileError := mkFileError { fe_code : FileErrorCode; fe_message : jsstr }.

(** The operations the storages use; a call may change the file system and
    returns a value or a [FileError]. *)
Class FileSystem (FS : Type) := {
  readTextFile : jsstr -> FS -> result FileError jsstr * FS;
  readTextLines : jsstr -> nat -> FS -> result FileError (list jsstr) * FS;
  writeFile : jsstr -> jsstr -> FS -> result FileError unit * FS;
  appendFile : jsstr -> jsstr -> FS -> result FileError unit * FS;
}.

(** [getFileSystemResultOrThrow]: the error a failed call throws. *)
Definition file_system_error (e : FileError) (message : jsstr) : SessionError :=
  mkSessionError (match fe_code e with file_not_found => not_found | _ => storage_error end)
    (message ++ js ": " ++ fe_message e).

Definition getFileSystemResultOrThrow {A} (r : result FileError A) (message : jsstr) : result SessionError A :=
  match r with Ok a => Ok a | Throw e => Throw (file_system_error e message) end.

(** ** Lines *)

Record SessionHeader := mkHeader {
  sh_id : jsstr; sh_timestamp : jsstr; sh_cwd : jsstr; sh_parentSession : option jsstr;
}.

Definition invalidSession (filePath message : jsstr) : SessionError :=
  mkSessionError invalid_session (js "Invalid JSONL session file " ++ filePath ++ js ": " ++ message).
Definition invalidEntry (filePath : jsstr) (lineNumber : Z) (message : jsstr) : SessionError :=
  mkSessionError invalid_entry
    (js "Invalid JSONL session file " ++ filePath ++ js ": line " ++ show lineNumber ++ js " " ++ message).

(** [isRecord] of this file: arrays pass. *)
Definition is_object (v : json) : bool := match v with JObj _ | JArr _ => true | _ => false end.

(** [typeof v === "string" && v]. *)
Definition non_empty_string (v : option json) : option jsstr :=
  match v with Some (JStr (c :: s)) => Some (c :: s) | _ => None end.

Section Jsonl.
Context `{JsNumbers} {FS : Type} `{FileSystem FS}.

Definition header_json (h : SessionHeader) : json :=
  obj [("type", lit "session"); ("version", Some (JNum (js "3"))); ("id", Some (to_json (sh_id h)));
       ("timestamp", Some (to_json (sh_timestamp h))); ("cwd", Some (to_json (sh_cwd h)));
       ("parentSession", to_json <$> sh_parentSession h)].

Definition parseHeaderLine (line filePath : jsstr) : result SessionError SessionHeader :=
  let invalid m := Throw (invalidSession filePath (js m)) in
  match json_parse number_text line with
  | None => invalid "first line is not a valid session header"
  | Some v =>
      if negb (is_object v) then invalid "first line is not a valid session header"
      else if negb (bool_decide (prop "type" v = lit "session")) then invalid "first line is not a valid session header"
      else if negb (bool_decide (prop "version" v = Some (JNum (js "3")))) then invalid "unsupported session version"
      else match non_empty_string (prop "id" v) with
      | None => invalid "session header is missing id"
      | Some id =>
          match non_empty_string (prop "timestamp" v) with
          | None => invalid "session header is missing timestamp"
          | Some ts =>
              match non_empty_string (prop "cwd" v) with
              | None => invalid "session header is missing cwd"
              | Some cwd =>
                  match prop "parentSession" v with
                  | None => Ok (mkHeader id ts cwd None)
                  | Some (JStr p) => Ok (mkHeader id ts cwd (Some p))
                  | Some _ => invalid "session header parentSession must be a string"
                  end
              end
          end
      end
  end.

(** [null] or a string. *)
Definition null_or_string (v : option json) : bool :=
  match v with Some JNull | Some (JStr _) => true | _ => false end.

(** The checks of a line; the value is then used as an entry. *)
Definition parseEntryLine (line filePath : jsstr) (lineNumber : Z) : result SessionError json :=
  let invalid m := Throw (invalidEntry filePath lineNumber (js m)) in
  match json_parse number_text line with
  | None => invalid "is not valid JSON"
  | Some v =>
      if negb (is_object v) then invalid "is not a valid session entry"
      else match prop "type" v with
      | Some (JStr type) =>
          match non_empty_string (prop "id" v) with
          | None => invalid "is missing entry id"
          | Some _ =>
              if negb (null_or_string (prop "parentId" v)) then invalid "has invalid parentId"
              else match non_empty_string (prop "timestamp" v) with
              | None => invalid "is missing timestamp"
              | Some _ =>
                  if is_lit type "leaf" && negb (null_or_string (prop "targetId" v)) then invalid "has invalid targetId"
                  else Ok v
              end
          end
      | _ => invalid "is missing entry type"
      end
  end.

Record JsonlSessionMetadata := mkJsonlMetadata {
  jm_id : jsstr; jm_createdAt : jsstr; jm_cwd : jsstr; jm_path : jsstr; jm_parentSessionPath : option jsstr;
}.

Definition headerToSessionMetadata (h : SessionHeader) (path : jsstr) : JsonlSessionMetadata :=
  mkJsonlMetadata (sh_id h) (sh_timestamp h) (sh_cwd h) path (sh_parentSession h).

(** [loadJsonlSessionMetadata]: the first line only. *)
Definition loadJsonlSessionMetadata (filePath : jsstr) (fs : FS) : result SessionError JsonlSessionMetadata * FS :=
  let '(r, fs') := readTextLines filePath 1 fs in
  (match getFileSystemResultOrThrow r (js "Failed to read session header " ++ filePath) with
   | Throw e => Throw e
   | Ok lines =>
       match lines with
       | line :: _ =>
           if is_empty (trim line) then Throw (invalidSession filePath (js "missing session header"))
           else match parseHeaderLine line filePath with
                | Ok h => Ok (headerToSessionMetadata h filePath)
                | Throw e => Throw e
                end
       | [] => Throw (invalidSession filePath (js "missing session header"))
       end
   end, fs').

(** The loop of [loadJsonlStorage] over the entry lines. *)
Fixpoint parse_entries (lines : list jsstr) (filePath : jsstr) (lineNumber : Z) : result SessionError (list json) :=
  match lines with
  | [] => Ok []
  | line :: lines' =>
      match parseEntryLine line filePath lineNumber with
      | Throw e => Throw e
      | Ok v =>
          match parse_entries lines' filePath (lineNumber + 1) with
          | Throw e => Throw e
          | Ok vs => Ok (v :: vs)
          end
      end
  end.

Definition session_lines (content : jsstr) : list jsstr :=
  List.filter (fun line => negb (is_empty (trim line))) (split_on 10 content).

Definition parse_session (content filePath : jsstr) : result SessionError (SessionHeader * list json) :=
  match session_lines content with
  | [] => Throw (invalidSession filePath (js "missing session header"))
  | line :: lines =>
      match parseHeaderLine line filePath with
      | Throw e => Throw e
      | Ok header =>
          match parse_entries lines filePath 2 with
          | Throw e => Throw e
          | Ok vs => Ok (header, vs)
          end
      end
  end.

(** ** The storage *)

Record JsonlSessionStorage := mkJsonl {
  jl_filePath : jsstr;
  jl_metadata : JsonlSessionMetadata;
  jl_entries : list SessionTreeEntry;
  jl_byId : gmap jsstr SessionTreeEntry;
  jl_labelsById : gmap jsstr jsstr;
  jl_currentLeafId : option jsstr;
}.

(** The private constructor. *)
Definition new_JsonlSessionStorage (filePath : jsstr) (header : SessionHeader) (es : list SessionTreeEntry)
    (leafId : option jsstr) : JsonlSessionStorage :=
  mkJsonl filePath (headerToSessionMetadata header filePath) es (index_entries es) (buildLabelsById es) leafId.

(** [JsonlSessionStorage.open].  [Ok None]: every line passes the checks of
    [parseEntryLine] but one is not an entry of its declared type, which the
    code does not notice. *)
Definition jsonl_open (filePath : jsstr) (fs : FS) : result SessionError (option JsonlSessionStorage) * FS :=
  let '(r, fs') := readTextFile filePath fs in
  (match getFileSystemResultOrThrow r (js "Failed to read session " ++ filePath) with
   | Throw e => Throw e
   | Ok content =>
       match parse_session content filePath with
       | Throw e => Throw e
       | Ok (header, vs) =>
           Ok (match mapM json_entry vs with
               | Some es => Some (new_JsonlSessionStorage filePath header es (last_leaf es))
               | None => None
               end)
       end
   end, fs').

Definition line_of (v : json) : jsstr := stringify v ++ nl.

(** [JsonlSessionStorage.create]; [now] is [new Date().toISOString()]. *)
Definition jsonl_create (filePath cwd sessionId : jsstr) (parentSessionPath : option jsstr) (now : jsstr) (fs : FS)
    : result SessionError JsonlSessionStorage * FS :=
  let header := mkHeader sessionId now cwd parentSessionPath in
  let '(r, fs') := writeFile filePath (line_of (header_json header)) fs in
  (match getFileSystemResultOrThrow r (js "Failed to create session " ++ filePath) with
   | Throw e => Throw e
   | Ok _ => Ok (new_JsonlSessionStorage filePath header [] None)
   end, fs').

(** A storage together with the file system it writes to. *)
Record jsonl_store := mkJsonlStore { js_storage : JsonlSessionStorage; js_fs : FS }.
Abbreviation MJ := (M (world jsonl_store) SessionError).

Definition storage_of (w : world jsonl_store) : JsonlSessionStorage := js_storage (w_storage w).

(** [await this.fs.appendFile(...)], with its error thrown. *)
Definition append_line (v : json) (message : jsstr) : MJ unit := fun w =>
  let s := storage_of w in
  let '(r, fs') := appendFile (jl_filePath s) (line_of v) (js_fs (w_storage w)) in
  (getFileSystemResultOrThrow r message, mkWorld (mkJsonlStore s fs') (w_ids w)).

Definition update_storage (f : JsonlSessionStorage -> JsonlSessionStorage) : MJ unit :=
  modify (fun w => mkWorld (mkJsonlStore (f (storage_of w)) (js_fs (w_storage w))) (w_ids w)).

Definition jsonl_getLeafId : MJ (option jsstr) := fun w =>
  let s := storage_of w in
  match jl_currentLeafId s with
  | Some id => match jl_byId s !! id with
               | Some _ => (Ok (Some id), w)
               | None => (Throw (entry_not_found invalid_session id), w)
               end
  | None => (Ok None, w)
  end.

Definition jsonl_createEntryId : MJ jsstr := fun w =>
  let g := w_ids w in
  let has id := match jl_byId (storage_of w) !! id with Some _ => true | None => false end in
  let '(id, st, pos) := generateEntryId has (ig_draws g) (ig_pos g) (ig_state g) in
  (Ok id, mkWorld (w_storage w) (mkIdgen st (ig_draws g) pos)).

Definition jsonl_setLeafId (now : jsstr) (target : option jsstr) : MJ unit :=
  let* w := get in
  do* match target with
      | Some id =>
          match jl_byId (storage_of w) !! id with
          | None => throw (entry_not_found not_found id)
          | Some _ => ret tt
          end
      | None => ret tt
      end in
  let* id := jsonl_createEntryId in
  let e := mkEntry id (jl_currentLeafId (storage_of w)) now (ELeaf target) in
  do* append_line (to_json e) (js "Failed to append session leaf " ++ id) in
  update_storage (fun s =>
    mkJsonl (jl_filePath s) (jl_metadata s) (jl_entries s ++ [e]) (<[id := e]> (jl_byId s)) (jl_labelsById s) target).

Definition jsonl_appendEntry (e : SessionTreeEntry) : MJ unit :=
  do* append_line (to_json e) (js "Failed to append session entry " ++ e_id e) in
  update_storage (fun s =>
    mkJsonl (jl_filePath s) (jl_metadata s) (jl_entries s ++ [e]) (<[e_id e := e]> (jl_byId s))
      (updateLabelCache (jl_labelsById s) e) (leafIdAfterEntry e)).

Definition jsonl_getEntry (id : jsstr) : MJ (option SessionTreeEntry) :=
  fun w => (Ok (jl_byId (storage_of w) !! id), w).
Definition jsonl_findEntries (p : entry_body -> bool) : MJ (list SessionTreeEntry) :=
  fun w => (Ok (List.filter (fun e => p (e_body e)) (jl_entries (storage_of w))), w).
Definition jsonl_getLabel (id : jsstr) : MJ (option jsstr) :=
  fun w => (Ok (jl_labelsById (storage_of w) !! id), w).
Definition jsonl_getPathToRoot (leaf : option jsstr) : MJ (list SessionTreeEntry) :=
  fun w => (walk_to_root (jl_byId (storage_of w)) leaf, w).
Definition jsonl_getEntries : MJ (list SessionTreeEntry) :=
  fun w => (Ok (jl_entries (storage_of w)), w).

#[export] Instance Jsonl_SessionStorage : SessionStorage jsonl_store := {|
  getLeafId := jsonl_getLeafId;
  setLeafId := jsonl_setLeafId;
  createEntryId := jsonl_createEntryId;
  appendEntry := jsonl_appendEntry;
  getEntry := jsonl_getEntry;
  findEntries := jsonl_findEntries;
  getLabel := jsonl_getLabel;
  getPathToRoot := jsonl_getPathToRoot;
  getEntries := jsonl_getEntries;
|}.
End Jsonl.
Arguments jsonl_store : clear implicits.
