(* ===== verification/JsonlProps.v ===== *)
(** Theorems about the JSONL storage: it satisfies the laws of a session
    storage, and the file always holds the log, so that opening it gives the
    storage back. *)
From S2P Require Import Prelude JsString StringSearch Json JsonParse Effects Truncate Uuid Messages SessionTree SessionLaws SessionProps.
From S2P Require Import JsonText JsonCodec EntryJson JsonlStorage.
#[local] Open Scope eff.

(** ** The lines of a file *)

Section Text.
Context `{JsNumbers}.


Definition is_JObj (v : json) : Prop := exists m, v = JObj m.

Lemma session_lines_file vs :
  Forall (fun v => json_ok number_text v /\ is_JObj v) vs ->
  session_lines (concat (map line_of vs)) = map stringify vs.
Proof.
  unfold session_lines. induction 1 as [|v vs [Hv [m ->]] _ IH]; [done|].
  cbn [map concat]. unfold line_of at 1, nl. rewrite <- app_assoc. cbn [app].
  rewrite split_on_line by apply (stringify_line number_text _ Hv). cbn [List.filter].
  destruct (is_empty (trim (stringify (JObj m)))) eqn:E; [|cbn [negb]; by rewrite IH].
  apply is_empty_true, trim_nil in E. cbn [stringify] in E. unfold bracket in E. by inversion E.
Qed.
End Text.

(** ** The laws of a session storage *)

Section Laws.
Context `{JsNumbers} {FS : Type} `{FileSystem FS}.
Abbreviation store := (jsonl_store FS).

(** The fields a JSONL storage shares with an in-memory one. *)
Definition as_mem (w : world store) : world InMemorySessionStorage :=
  let s := storage_of w in mkWorld (mkStorage (jl_entries s) (jl_byId s) (jl_labelsById s) (jl_currentLeafId s)) (w_ids w).

Lemma jsonl_index k w : mem_inv k (as_mem w) -> jl_byId (storage_of w) = index_entries (jl_entries (storage_of w)).
Proof. apply mi_index. Qed.
Lemma jsonl_labels k w : mem_inv k (as_mem w) -> jl_labelsById (storage_of w) = buildLabelsById (jl_entries (storage_of w)).
Proof. apply mi_labels. Qed.
Lemma jsonl_leaf k w : mem_inv k (as_mem w) -> jl_currentLeafId (storage_of w) = last_leaf (jl_entries (storage_of w)).
Proof. apply mi_leaf. Qed.

Lemma jsonl_create_mem w id w' :
  jsonl_createEntryId w = (Ok id, w') <->
  mem_createEntryId (as_mem w) = (Ok id, as_mem w') /\ w_storage w' = w_storage w.
Proof.
  unfold jsonl_createEntryId, mem_createEntryId. cbn [as_mem w_ids w_storage byId].
  destruct (generateEntryId _ _ _ _) as [[i st] pos]. split.
  - intros [= <- <-]. done.
  - intros [[= <- E] Hs]. destruct w' as [st' ids']. cbn in *. by subst.
Qed.

Lemma jsonl_createEntryId_ok k w : mem_inv (S k) (as_mem w) ->
  exists id w', jsonl_createEntryId w = (Ok id, w') /\ w_storage w' = w_storage w /\ mem_inv k (as_mem w') /\
    id_before (ig_state (w_ids w')) id /\ (id ∉ entry_ids (jl_entries (storage_of w))) /\ id <> [].
Proof.
  intros Hi. destruct (mem_createEntryId_ok k (as_mem w) Hi) as (id & m & E & Hst & Hi' & Hb & Hn & Hne).
  exists id, (mkWorld (w_storage w) (w_ids m)).
  assert (Em : as_mem (mkWorld (w_storage w) (w_ids m)) = m) by (destruct m as [st ids]; simpl in *; by subst).
  split_and!; try done; [|by rewrite Em]. apply jsonl_create_mem. by rewrite Em.
Qed.

Lemma append_line_cases v msg w :
  (exists fs', append_line v msg w = (Ok tt, mkWorld (mkJsonlStore (storage_of w) fs') (w_ids w)) /\
     appendFile (jl_filePath (storage_of w)) (line_of v) (js_fs (w_storage w)) = (Ok tt, fs')) \/
  (exists err fs', append_line v msg w = (Throw err, mkWorld (mkJsonlStore (storage_of w) fs') (w_ids w))).
Proof.
  unfold append_line. destruct (appendFile _ _ _) as [[[]|e] fs'] eqn:E; [left; by exists fs'|right; by eexists _, fs'].
Qed.

Lemma jsonl_append_ok k w e :
  mem_inv k (as_mem w) -> id_before (ig_state (w_ids w)) (e_id e) -> entry_ok (jl_entries (storage_of w)) e ->
  (exists w', jsonl_appendEntry e w = (Ok tt, w') /\ jl_entries (storage_of w') = jl_entries (storage_of w) ++ [e] /\
     mem_inv k (as_mem w')) \/
  (exists err w', jsonl_appendEntry e w = (Throw err, w') /\ jl_entries (storage_of w') = jl_entries (storage_of w) /\
     mem_inv k (as_mem w')).
Proof.
  intros Hi Hb He. unfold jsonl_appendEntry, bind.
  destruct (append_line_cases (to_json e) (js "Failed to append session entry " ++ e_id e) w)
    as [(fs' & -> & _)|(err & fs' & ->)]; [left|right; by eexists _, _].
  eexists. split; [reflexivity|]. split; [done|]. exact (mem_append_ok k (as_mem w) e Hi Hb He).
Qed.

Lemma jsonl_setLeafId_ok k w now target : mem_inv (S k) (as_mem w) ->
  (forall id, target = Some id -> id ∈ entry_ids (jl_entries (storage_of w))) ->
  (exists e w', jsonl_setLeafId now target w = (Ok tt, w') /\ e_body e = ELeaf target /\
     jl_entries (storage_of w') = jl_entries (storage_of w) ++ [e] /\ mem_inv k (as_mem w')) \/
  (exists err w', jsonl_setLeafId now target w = (Throw err, w') /\
     jl_entries (storage_of w') = jl_entries (storage_of w) /\ mem_inv k (as_mem w')).
Proof.
  intros Hi Hin. destruct (jsonl_createEntryId_ok k w Hi) as (id & w1 & E & Hst & Hi1 & Hbef & Hnew & Hne).
  set (e := mkEntry id (jl_currentLeafId (storage_of w)) now (ELeaf target)).
  assert (Hchk : match target with
      | Some id => match jl_byId (storage_of w) !! id with
                   | Some _ => ret tt | None => throw (entry_not_found not_found id) end
      | None => ret tt end w = (Ok tt, w) :> result SessionError unit * world store).
  { destruct target as [t|]; [|done]. rewrite (jsonl_index _ _ Hi).
    by destruct (proj2 (index_dom _ _) (Hin t eq_refl)) as [? ->]. }
  assert (Hs1 : storage_of w1 = storage_of w) by (unfold storage_of; by rewrite Hst).
  assert (Hok : entry_ok (jl_entries (storage_of w1)) e).
  { rewrite Hs1. split; simpl; try done.
    - unfold parent_of. simpl. rewrite (jsonl_leaf _ _ Hi). intros p Hp.
      apply (wf_last_leaf _ p (mi_wf _ _ Hi)). cbn [as_mem w_storage entries]. destruct (last_leaf _) as [[|]|]; [done|congruence|done].
    - intros t [= ->]. by apply Hin. }
  assert (Eq : jsonl_setLeafId now target w =
    bind (append_line (to_json e) (js "Failed to append session leaf " ++ id)) (fun _ => update_storage (fun s =>
      mkJsonl (jl_filePath s) (jl_metadata s) (jl_entries s ++ [e]) (<[id := e]> (jl_byId s)) (jl_labelsById s) target)) w1).
  { unfold jsonl_setLeafId, bind, get. rewrite Hchk, E. reflexivity. }
  rewrite Eq. unfold bind.
  destruct (append_line_cases (to_json e) (js "Failed to append session leaf " ++ id) w1)
    as [(fs' & -> & _)|(err & fs' & ->)].
  - left. exists e. eexists. split; [reflexivity|]. split; [done|]. cbn [storage_of w_storage js_storage jl_entries]. rewrite Hs1.
    split; [done|]. pose proof (mem_append_ok k (as_mem w1) e Hi1 Hbef Hok) as Hm. unfold append_storage, as_mem in Hm.
    cbn in Hm. rewrite Hs1 in Hm. exact Hm.
  - right. eexists _, _. split; [reflexivity|]. cbn [storage_of w_storage js_storage]. rewrite Hs1. split; [done|].
    unfold as_mem in *. cbn in *. rewrite Hs1 in *. exact Hi1.
Qed.

#[export] Program Instance Jsonl_SessionStorageOk : SessionStorageOk store := {|
  store_view w := jl_entries (storage_of w);
  store_inv k w := mem_inv k (as_mem w);
  store_issued w := id_before (ig_state (w_ids w));
|}.
Next Obligation. by intros k w []. Qed.
Next Obligation. intros k w Hi. exact (store_weaken k (as_mem w) Hi). Qed.
Next Obligation.
  intros k w Hi. pose proof (law_getLeafId k (as_mem w) Hi) as E. cbn in *. unfold jsonl_getLeafId, mem_getLeafId in *.
  cbn in E. destruct (jl_currentLeafId _) as [id|]; [|congruence]. destruct (jl_byId _ !! id); congruence.
Qed.
Next Obligation. intros k w id Hi. cbn. unfold jsonl_getEntry. by rewrite (jsonl_index _ _ Hi). Qed.
Next Obligation. intros k w id Hi. cbn. unfold jsonl_getLabel. by rewrite (jsonl_labels _ _ Hi). Qed.
Next Obligation. intros k w l Hi. cbn. unfold jsonl_getPathToRoot. by rewrite (jsonl_index _ _ Hi). Qed.
Next Obligation. done. Qed.
Next Obligation. done. Qed.
Next Obligation.
  intros k w Hi. destruct (jsonl_createEntryId_ok k w Hi) as (id & w' & E & Hst & Hr).
  exists id, w'. cbn. unfold storage_of at 1. rewrite Hst. by destruct Hr as (? & ? & ? & ?).
Qed.
Next Obligation. intros k w e Hi Hb He. by apply jsonl_append_ok. Qed.
Next Obligation. intros k w now target Hi Hin. by apply jsonl_setLeafId_ok. Qed.
End Laws.

(** ** The file holds the log *)

(** What the storage relies on of a file system: text that UTF-8 can encode
    is written and appended as given when the call succeeds, and read back as it is. *)
Class FileSystemOk (FS : Type) `{FileSystem FS} := {
  file_text : FS -> jsstr -> option jsstr;
  write_content p t fs fs' : well_paired t = true -> writeFile p t fs = (Ok tt, fs') -> file_text fs' p = Some t;
  append_content p c t fs fs' : well_paired t = true -> file_text fs p = Some c ->
    appendFile p t fs = (Ok tt, fs') -> file_text fs' p = Some (c ++ t);
  read_content p t fs fs' : readTextFile p fs = (Ok t, fs') -> file_text fs p = Some t;
}.

Section Durable.
Context `{JsNumbers} {FS : Type} `{FileSystemOk FS}.
Abbreviation store := (jsonl_store FS).

(** Entries and headers the reader accepts. *)
Definition entry_fine (e : SessionTreeEntry) : Prop := codec_ok e /\ e_id e <> [] /\ e_timestamp e <> [].
Definition header_fine (h : SessionHeader) : Prop :=
  (wf_str (sh_id h) /\ sh_id h <> []) /\ (wf_str (sh_timestamp h) /\ sh_timestamp h <> []) /\
  (wf_str (sh_cwd h) /\ sh_cwd h <> []) /\ opt_ok (sh_parentSession h).

Definition log_text (h : SessionHeader) (es : list SessionTreeEntry) : jsstr :=
  concat (map line_of (header_json h :: map to_json es)).

(** The file at [path] holds the log of the storage, and nothing else. *)
Context (path : jsstr).

Record on_disk (h : SessionHeader) (w : world store) : Prop := {
  od_path : jl_filePath (storage_of w) = path;
  od_file : file_text (js_fs (w_storage w)) path = Some (log_text h (jl_entries (storage_of w)));
  od_entries : Forall entry_fine (jl_entries (storage_of w));
  od_meta : jl_metadata (storage_of w) = headerToSessionMetadata h path;
}.

Lemma entry_json_obj e : is_JObj (to_json e).
Proof. destruct e as [id p ts []]; cbn [to_json entry_codec]; unfold entry_json, obj; cbn [e_body]; eexists; reflexivity. Qed.

Lemma header_json_ok h : header_fine h -> json_ok number_text (header_json h).
Proof.
  intros ((Hi & _) & (Ht & _) & (Hc & _) & Hp). unfold header_json. apply obj_ok; [reflexivity|].
  repeat (apply Forall_cons; split; cbn [snd];
    [first [apply codec_json; codec_field|apply opt_json_ok; codec_field|apply ok_str, js_wf|idtac]|]); [|apply Forall_nil; exact I].
  apply ok_num. split; [reflexivity|]. exact (number_text_int 3 ltac:(lia)).
Qed.

Lemma non_empty_string_Some (s : jsstr) : s <> [] -> non_empty_string (Some (JStr s)) = Some s.
Proof. by destruct s. Qed.

Lemma parseHeaderLine_header h p : header_fine h -> parseHeaderLine (stringify (header_json h)) p = Ok h.
Proof.
  intros Hf. unfold parseHeaderLine. rewrite json_parse_stringify by by apply header_json_ok.
  destruct Hf as ((_ & Hi) & (_ & Ht) & (_ & Hc) & _). unfold header_json. rewrite !prop_obj by reflexivity.
  change (field_of _ "type") with (lit "session"). change (field_of _ "version") with (Some (JNum (js "3"))).
  change (field_of _ "id") with (Some (JStr (sh_id h))). change (field_of _ "timestamp") with (Some (JStr (sh_timestamp h))).
  change (field_of _ "cwd") with (Some (JStr (sh_cwd h))).
  change (field_of _ "parentSession") with (JStr <$> sh_parentSession h).
  rewrite !non_empty_string_Some by done. rewrite !bool_decide_true by done. destruct h as [i t c [q|]]; done.
Qed.

(** The checks pass on a printed entry. *)
Lemma parseEntryLine_entry e p n : entry_fine e -> parseEntryLine (stringify (to_json e)) p n = Ok (to_json e).
Proof.
  intros (Hok & Hid & Hts). unfold parseEntryLine. rewrite json_parse_stringify by by apply codec_json.
  destruct (entry_json_obj e) as [m Hm].
  assert (Hp : exists type, prop "type" (to_json e) = Some (JStr type) /\
    prop "id" (to_json e) = Some (JStr (e_id e)) /\ null_or_string (prop "parentId" (to_json e)) = true /\
    prop "timestamp" (to_json e) = Some (JStr (e_timestamp e)) /\
    (is_lit type "leaf" && negb (null_or_string (prop "targetId" (to_json e)))) = false).
  { clear. destruct e as [id p ts b]. cbn [to_json entry_codec]. unfold entry_json. cbn [e_body].
    destruct b as [| | | | | | | | | |target]; cbn [base_fields app e_id e_parentId e_timestamp]; rewrite !prop_obj by reflexivity; eexists;
      (split_and!; [reflexivity|reflexivity|by destruct p|reflexivity|]); first [reflexivity|by destruct target]. }
  destruct Hp as (type & -> & -> & -> & -> & ->). rewrite !non_empty_string_Some by done. by rewrite Hm.
Qed.

Lemma parse_entries_log es p n :
  Forall entry_fine es -> parse_entries (map stringify (map to_json es)) p n = Ok (map to_json es).
Proof.
  intros He. revert n. induction He as [|e es He Hes IH]; intros n; [done|]. cbn [map parse_entries].
  by rewrite parseEntryLine_entry, IH.
Qed.

(** Reading the file of a log gives the log. *)
Lemma parse_session_log h es p :
  header_fine h -> Forall entry_fine es -> parse_session (log_text h es) p = Ok (h, map to_json es).
Proof.
  intros Hh Hes. unfold parse_session, log_text. rewrite session_lines_file.
  - cbn [map]. by rewrite parseHeaderLine_header, parse_entries_log.
  - constructor; [split; [by apply header_json_ok|by eexists]|]. apply Forall_fmap.
    eapply Forall_impl; [exact Hes|]. intros e (Hok & _). split; [by apply (codec_json e)|apply entry_json_obj].
Qed.

Lemma json_entries_log es : Forall entry_fine es -> mapM json_entry (map to_json es) = Some es.
Proof.
  induction 1 as [|e es (Hok & _) Hes IH]; [done|]. cbn [map mapM].
  pose proof (codec_round e Hok) as E. cbn [of_json entry_codec] in E. cbn in *. rewrite E. cbn. by rewrite IH.
Qed.

(** Opening the file of a sound storage gives that storage. *)
Lemma open_on_disk k h w c fs' :
  header_fine h -> store_inv k w -> on_disk h w ->
  readTextFile path (js_fs (w_storage w)) = (Ok c, fs') ->
  jsonl_open path (js_fs (w_storage w)) = (Ok (Some (storage_of w)), fs').
Proof.
  intros Hh Hi [Hp Hf Hes Hm] Hr. unfold jsonl_open. rewrite Hr. cbn [getFileSystemResultOrThrow].
  pose proof (read_content _ _ _ _ Hr) as Hc. rewrite Hf in Hc. injection Hc as <-.
  rewrite parse_session_log by done. rewrite json_entries_log by done. do 3 f_equal.
  unfold new_JsonlSessionStorage. rewrite <- Hm, <- (jsonl_index k w Hi), <- (jsonl_labels k w Hi), <- (jsonl_leaf k w Hi).
  rewrite <- Hp. by destruct (storage_of w).
Qed.

Lemma log_text_snoc h es e : log_text h (es ++ [e]) = log_text h es ++ line_of (to_json e).
Proof.
  unfold log_text. rewrite map_app. cbn [map concat]. rewrite map_app, concat_app. cbn [map concat].
  by rewrite app_nil_r, app_assoc.
Qed.

Lemma line_well_paired v : json_ok number_text v -> well_paired (line_of v) = true.
Proof. intros Hv. apply well_paired_app; [apply (stringify_line number_text v Hv)|done]. Qed.

(** An appended line is on disk. *)
Lemma on_disk_line h w e msg w' f :
  on_disk h w -> entry_fine e ->
  (forall s, jl_entries (f s) = jl_entries s ++ [e] /\ jl_filePath (f s) = jl_filePath s /\ jl_metadata (f s) = jl_metadata s) ->
  bind (append_line (to_json e) msg) (fun _ => update_storage f) w = (Ok tt, w') ->
  on_disk h w' /\ w_ids w' = w_ids w.
Proof.
  intros [Hp Hd Hes Hm] He Hf. unfold bind. destruct (append_line_cases (to_json e) msg w)
    as [(fs' & -> & Ha)|(err & fs' & ->)]; [|done]. intros [= <-]. cbn [w_ids]. split; [|done].
  destruct (Hf (storage_of w)) as (E1 & E2 & E3). split; cbn [storage_of w_storage js_storage js_fs]; rewrite ?E1, ?E2, ?E3.
  - done.
  - rewrite log_text_snoc. rewrite Hp in Ha. eapply append_content; [|done|exact Ha]. apply line_well_paired, (codec_json e), He.
  - apply Forall_app. split; [done|]. by constructor.
  - done.
Qed.

(** Generated ids are strings of code units. *)
Lemma hex_byte_wf b : 0 <= b < 1024 -> wf_str (hex_byte b).
Proof.
  intros Hb. assert (0 <= b / 16 < 64) by (split; [apply Z.div_pos|apply Z.div_lt_upper_bound]; lia).
  pose proof (Z.mod_pos_bound b 16 ltac:(lia)).
  unfold hex_byte, hex_digit. repeat constructor; case_if; lia.
Qed.

Lemma formatUuid_wf bytes : Forall (fun b => 0 <= b < 1024) bytes -> wf_str (formatUuid bytes).
Proof.
  intros Hb. unfold formatUuid.
  assert (Hp : forall n m, wf_str (concat (take n (drop m (map hex_byte bytes))))).
  { intros n m. apply Forall_concat. apply Forall_take, Forall_drop, Forall_fmap.
    eapply Forall_impl; [exact Hb|]. apply hex_byte_wf. }
  repeat (apply Forall_app_2; [first [apply Hp|apply js_wf]|]). apply Hp.
Qed.

Lemma uuidv7_wf st d id st' : uuid_ok st -> draw_ok d -> uuidv7 st d = (id, st') -> wf_str id.
Proof.
  intros Hok Hd E. destruct (uuidv7_spec _ _ _ _ Hok Hd E) as (ts & seq & -> & -> & (Hs & _) & _).
  destruct Hd as [Hr _]. cbn in Hs. apply formatUuid_wf.
  destruct (uuid_bytes_digits ts seq (random d) Hs (proj1 (Hr 10%nat)))
    as (d0 & d1 & d2 & d3 & d4 & d5 & d6 & d7 & d8 & d9 & Ed & ->).
  pose proof (be_digits_bound (uuid_key ts seq / 64)) as Hb. rewrite Ed in Hb.
  pose proof (Z.mod_pos_bound seq 64 ltac:(lia)). pose proof (Z.mod_pos_bound (random d 10%nat) 4 ltac:(lia)).
  pose proof (Hr 11%nat). pose proof (Hr 12%nat). pose proof (Hr 13%nat). pose proof (Hr 14%nat). pose proof (Hr 15%nat).
  repeat match type of Hb with Forall _ (_ :: _) => let H := fresh in apply Forall_cons in Hb as [H Hb] end.
  repeat constructor; lia.
Qed.

Lemma generate_short_wf n has draws i st r st' j :
  uuid_ok st -> (forall i, draw_ok (draws i)) -> generate_short n has draws i st = (r, st', j) ->
  uuid_ok st' /\ forall id, r = Some id -> wf_str id.
Proof.
  revert i st. induction n as [|n IH]; intros i st Hok Hd E; cbn [generate_short] in E.
  { injection E as <- <- _. done. }
  destruct (uuidv7 st (draws i)) as [full st1] eqn:E1.
  destruct (uuidv7_spec _ _ _ _ Hok (Hd i) E1) as (_ & _ & _ & _ & Hok1 & _).
  destruct (has _); [by eapply IH|]. injection E as <- <- _. split; [done|]. intros id [= <-].
  pose proof (uuidv7_wf _ _ _ _ Hok (Hd i) E1) as Hw. unfold wf_str, slice_to in *.
  first [by apply Forall_take, Forall_drop | by apply Forall_drop, Forall_take | by apply Forall_take | idtac].
Qed.

Lemma createEntryId_wf k (w : world store) id w' : store_inv (S k) w -> createEntryId w = (Ok id, w') -> wf_str id.
Proof.
  intros Hi. cbn. unfold jsonl_createEntryId, generateEntryId. destruct (mi_clock _ _ Hi) as (Hd & Hok & _). cbn in Hd, Hok.
  destruct (generate_short _ _ _ _ _) as [[r st1] i1] eqn:E.
  destruct (generate_short_wf _ _ _ _ _ _ _ _ Hok (fun i => proj1 (Hd i)) E) as [Hok1 Hw].
  destruct r as [short|].
  - intros [= <- _]. by apply Hw.
  - destruct (uuidv7 st1 _) as [full st2] eqn:E2. intros [= <- _]. eapply uuidv7_wf; [exact Hok1|apply Hd|exact E2].
Qed.

(** A fresh id, with the storage and the file as they were. *)
Lemma fresh_id k h (w : world store) : store_inv (S k) w -> on_disk h w ->
  exists id w', createEntryId w = (Ok id, w') /\ storage_of w' = storage_of w /\ store_inv k w' /\ on_disk h w' /\
    wf_str id /\ id <> [].
Proof.
  intros Hi Hd. destruct (jsonl_createEntryId_ok k w Hi) as (id & w' & E & Hst & Hi' & _ & _ & Hid).
  exists id, w'. split_and!; try done.
  - unfold storage_of. by rewrite Hst.
  - destruct Hd. split; unfold storage_of in *; by rewrite Hst.
  - exact (createEntryId_wf k w id w' Hi E).
Qed.

(** ** Sequences of operations *)

(** A string that can name an entry or a time. *)
Definition name_fine (s : jsstr) : Prop := wf_str s /\ s <> [].

(** What an operation writes can be written. *)
Definition op_fine (op : session_op) : Prop :=
  match op with
  | OpMessage now m => name_fine now /\ codec_ok m
  | OpThinking now l => name_fine now /\ codec_ok l
  | OpModel now p m => name_fine now /\ codec_ok p /\ codec_ok m
  | OpTools now ns => name_fine now /\ codec_ok ns
  | OpCompaction now s f t d h => name_fine now /\ codec_ok s /\ codec_ok f /\ codec_ok t /\ opt_ok d /\ opt_ok h
  | OpCustom now c d => name_fine now /\ codec_ok c /\ opt_ok d
  | OpCustomMessage now c b disp d => name_fine now /\ codec_ok c /\ codec_ok b /\ codec_ok disp /\ opt_ok d
  | OpName now n => name_fine now /\ codec_ok n
  | OpLabel now t l => name_fine now /\ codec_ok t /\ opt_ok l
  | OpMove now e s =>
      name_fine now /\ match s with Some b => codec_ok (bi_summary b) /\ opt_ok (bi_details b) /\ opt_ok (bi_fromHook b) | None => True end
  end.

Lemma on_disk_id_wf h w id : on_disk h w -> id ∈ entry_ids (jl_entries (storage_of w)) -> name_fine id.
Proof.
  intros [_ _ Hes _] (e & -> & He)%list_elem_of_fmap. rewrite Forall_forall in Hes.
  destruct (Hes e He) as ((Hid & _) & Hne & _). done.
Qed.

Lemma parent_fine h w (leaf : option jsstr) :
  on_disk h w -> (forall id, leaf = Some id -> id ∈ entry_ids (jl_entries (storage_of w))) -> codec_ok leaf.
Proof.
  intros Hd Hin. destruct leaf as [id|]; [|done]. destruct (on_disk_id_wf h w id Hd (Hin id eq_refl)). by split.
Qed.

Lemma on_disk_append_body k h (w : world store) now body id w' :
  store_inv (S k) w -> on_disk h w -> name_fine now -> body_ok body ->
  append_body now body w = (Ok id, w') -> on_disk h w'.
Proof.
  intros Hi Hd [Hn Hne] Hb. unfold append_body.
  destruct (fresh_id k h w Hi Hd) as (id1 & w1 & E1 & Hst & Hi1 & Hd1 & Hwf & Hid). unfold bind at 1.
  rewrite E1. unfold bind at 1. rewrite (law_getLeafId k w1 Hi1).
  set (e := mkEntry id1 (last_leaf (store_view w1)) now body). unfold bind at 1.
  destruct (appendEntry e w1) as [[[]|err] w2] eqn:E2; [|done]. intros [= <- <-].
  refine (proj1 (on_disk_line h w1 e _ _ _ Hd1 _ _ E2)); [|by intros s].
  split_and!; try done. cbn [e_id e_parentId e_timestamp e_body]. split_and!; try done.
  eapply parent_fine; [done|]. intros p. exact (wf_last_leaf _ p (store_wf _ _ Hi1)).
Qed.

Lemma on_disk_setLeaf k h (w : world store) now target w' :
  store_inv (S k) w -> on_disk h w -> name_fine now ->
  setLeafId now target w = (Ok tt, w') -> on_disk h w' /\ codec_ok target.
Proof.
  intros Hi Hd [Hn Hne]. cbn. unfold jsonl_setLeafId. unfold bind at 1, get. unfold bind at 1.
  destruct (fresh_id k h w Hi Hd) as (id1 & w1 & E1 & Hs1 & Hi1 & Hd1 & Hwf & Hid). cbn in E1.
  set (check := match target with Some id => _ | None => _ end).
  destruct (check w) as [[[]|err] w0] eqn:Hchk; [|done].
  assert (w0 = w /\ forall id, target = Some id -> id ∈ entry_ids (jl_entries (storage_of w))) as [-> Hin].
  { unfold check in Hchk. destruct target as [t|]; [|by injection Hchk as <-]. rewrite (jsonl_index _ _ Hi) in Hchk.
    destruct (index_entries _ !! t) eqn:Et; [|done]. injection Hchk as <-. split; [done|]. intros ? [= <-].
    apply index_dom. eauto. }
  unfold bind at 1. rewrite E1. intros E2.
  assert (Ht : codec_ok target) by exact (parent_fine h w target Hd Hin). split; [|done].
  refine (proj1 (on_disk_line h w1 (mkEntry id1 (jl_currentLeafId (storage_of w)) now (ELeaf target)) _ _ _ Hd1 _ _ E2)); [|by intros s].
  split_and!; try done. cbn [e_id e_parentId e_timestamp e_body]. split_and!; try done.
  eapply parent_fine; [exact Hd|]. rewrite (jsonl_leaf _ _ Hi). intros p. exact (wf_last_leaf _ p (store_wf _ _ Hi)).
Qed.

Lemma trim_wf s : wf_str s -> wf_str (trim s).
Proof.
  intros Hs. destruct (trim_end_spaces (trim_start s)) as (p & Hp & _). destruct (trim_start_suffix s) as [q Hq].
  unfold trim, wf_str in *. rewrite Hq in Hs. apply Forall_app in Hs as [_ Hs]. rewrite Hp in Hs.
  by apply Forall_app in Hs as [Hs _].
Qed.

Lemma on_disk_moveTo k h (w : world store) now target summary r w' :
  store_inv (S (S k)) w -> on_disk h w -> op_fine (OpMove now target summary) ->
  moveTo now target summary w = (Ok r, w') -> on_disk h w'.
Proof.
  intros Hi Hd (Hn & Hs). unfold moveTo. unfold bind at 1.
  set (check := match target with None => _ | Some id => _ end).
  destruct (check w) as [[[]|err] w0] eqn:Hchk; [|done].
  assert (w0 = w /\ forall id, target = Some id -> id ∈ entry_ids (jl_entries (storage_of w))) as [-> Hin].
  { unfold check, bind in Hchk. destruct target as [t|]; [|by injection Hchk as <-].
    rewrite (law_getEntry _ w t Hi) in Hchk. destruct (index_entries _ !! t) eqn:Et; [|done]. injection Hchk as <-.
    split; [done|]. intros ? [= <-]. apply index_dom. eauto. }
  unfold bind at 1. destruct (setLeafId now target w) as [[[]|err] w1] eqn:E1; [|done].
  destruct (on_disk_setLeaf (S k) h w now target w1 Hi Hd Hn E1) as [Hd1 Ht].
  assert (Hi1 : store_inv (S k) w1).
  { destruct (law_setLeafId_ok (S k) w now target Hi Hin) as [(e & w2 & E2 & _ & _ & Hi2)|(err & w2 & E2 & _)]; congruence. }
  destruct summary as [b|]; [|by intros [= <- <-]].
  destruct (fresh_id k h w1 Hi1 Hd1) as (id1 & w2 & E2 & Hst & Hi2 & Hd2 & Hwf & Hid). unfold bind at 1. rewrite E2.
  unfold bind at 1. set (e := mkEntry id1 target now _).
  destruct (appendEntry e w2) as [[[]|err] w3] eqn:E3; [|done]. intros [= <- <-].
  destruct Hs as (Hs1 & Hs2 & Hs3). destruct Hn as [Hn Hne].
  refine (proj1 (on_disk_line h w2 e _ _ _ Hd2 _ _ E3)); [|by intros s].
  split_and!; try done. cbn [e_id e_parentId e_timestamp e_body]. split_and!; try done. cbn [body_ok]. split_and!; try done.
  destruct target as [t|]; [exact (proj1 Ht)|apply js_wf].
Qed.

(** An operation that succeeds leaves the file in step with the log. *)
Lemma on_disk_exec k h (w : world store) op w' :
  store_inv (S (S k)) w -> on_disk h w -> op_fine op -> exec_op op w = (Ok tt, w') -> on_disk h w'.
Proof.
  intros Hi Hd Hop. pose proof (store_weaken (S k) w Hi) as Hi1.
  assert (Happ : forall now body, name_fine now -> body_ok body -> bind (append_body now body) (fun _ => ret tt) w = (Ok tt, w') -> on_disk h w').
  { intros now body Hn Hb. unfold bind. destruct (append_body now body w) as [[id|err] w1] eqn:E; [|done]. intros [= <-].
    by eapply on_disk_append_body. }
  destruct op; cbn [exec_op]; cbn [op_fine] in Hop; 
    try (destruct_and! Hop; apply Happ; [done|cbn [body_ok opt_ok]; solve [auto|by apply trim_wf]]).
  - destruct Hop as (Hn & Ht & Hl). unfold appendLabel. unfold bind at 1 2. rewrite (law_getEntry _ w targetId Hi).
    destruct (index_entries _ !! targetId); [|done]. by apply Happ.
  - unfold bind. destruct (moveTo now entryId summary w) as [[id|err] w1] eqn:E; [|done]. intros [= <-].
    by eapply on_disk_moveTo.
Qed.

Lemma on_disk_run ops k h (w w' : world store) :
  store_inv (2 * length ops + k) w -> on_disk h w -> Forall op_fine ops ->
  for_each ops exec_op w = (Ok tt, w') -> on_disk h w' /\ store_inv k w'.
Proof.
  revert w. induction ops as [|op ops IH]; intros w Hi Hd Hops E.
  { injection E as <-. done. }
  inversion Hops as [|? ? Hop Hops']; subst. cbn [for_each] in E. unfold bind in E.
  replace (2 * length (op :: ops) + k)%nat with (S (S (2 * length ops + k))) in Hi by (simpl; lia).
  destruct (exec_op op w) as [[[]|err] w1] eqn:E1; [|done].
  pose proof (exec_op_spec _ w op Hi) as [Hi1 _]. rewrite E1 in Hi1. cbn [snd] in Hi1.
  apply (IH w1); [done| |done|done]. by eapply on_disk_exec.
Qed.

(** A new session is on disk. *)
Lemma on_disk_create cwd sid parent now fs s fs' ids k :
  header_fine (mkHeader sid now cwd parent) -> clock_room k ids ->
  jsonl_create path cwd sid parent now fs = (Ok s, fs') ->
  on_disk (mkHeader sid now cwd parent) (mkWorld (mkJsonlStore s fs') ids) /\
  store_inv k (mkWorld (mkJsonlStore s fs') ids).
Proof.
  intros Hh Hk. unfold jsonl_create. destruct (writeFile _ _ _) as [[[]|e] fs1] eqn:E; [|done]. intros [= <- <-].
  apply write_content in E; [|by apply line_well_paired, header_json_ok]. split; [split; try done|].
  - cbn [w_storage js_fs]. rewrite E. f_equal. symmetry. exact (app_nil_r _).
  - split; cbn [as_mem w_storage w_ids entries storage_of js_storage jl_entries new_JsonlSessionStorage]; try done;
      [constructor|set_solver].
Qed.
End Durable.

(** C11: whatever operations succeed on a session created on disk, opening its
    file gives back the very storage in memory: entries, index, labels,
    current leaf and metadata. *)
Theorem jsonl_reload `{JsNumbers} {FS : Type} `{FileSystemOk FS} path cwd sid parent now fs s fs' ids ops k
    (w' : world (jsonl_store FS)) c fs2 :
  header_fine (mkHeader sid now cwd parent) -> Forall op_fine ops -> clock_room (2 * length ops + k) ids ->
  jsonl_create path cwd sid parent now fs = (Ok s, fs') ->
  for_each ops exec_op (mkWorld (mkJsonlStore s fs') ids) = (Ok tt, w') ->
  readTextFile path (js_fs (w_storage w')) = (Ok c, fs2) ->
  jsonl_open path (js_fs (w_storage w')) = (Ok (Some (storage_of w')), fs2).
Proof.
  intros Hh Hops Hk Hc Hr Hread. destruct (on_disk_create path cwd sid parent now fs s fs' ids _ Hh Hk Hc) as [Hd Hi].
  destruct (on_disk_run path ops k _ _ _ Hi Hd Hops Hr) as [Hd' Hi']. by eapply open_on_disk.
Qed.

(** ** A concrete session file *)

Module JsonlSample.
(** Integers only: the texts of the sample are their own. *)
#[export, refine] Instance numbers : JsNumbers := {|
  number_text r := r;
  amount_text q := show (QArith_base.Qnum q);
  amount_value r := (fun n => QArith_base.inject_Z n) <$> int_value r;
|}.
Proof. done. Defined.

(** Files in memory; a file must exist to be appended to. *)
Definition files := gmap jsstr jsstr.
Definition missing : FileError := mkFileError file_not_found (js "no such file").
#[export] Instance files_FileSystem : FileSystem files := {|
  readTextFile p fs := (match fs !! p with Some t => Ok t | None => Throw missing end, fs);
  readTextLines p n fs := (match fs !! p with Some t => Ok (take n (split_on 10 t)) | None => Throw missing end, fs);
  writeFile p t fs := (Ok tt, <[p := t]> fs);
  appendFile p t fs := match fs !! p with Some c => (Ok tt, <[p := c ++ t]> fs) | None => (Throw missing, fs) end;
|}.
#[export, refine] Instance files_FileSystemOk : FileSystemOk files := {| file_text fs p := fs !! p |}.
Proof.
  - intros p t fs fs' _ [= <-]. apply lookup_insert_eq.
  - intros p c t fs fs' _ Hc. cbn. rewrite Hc. intros [= <-]. apply lookup_insert_eq.
  - intros p t fs fs'. cbn. destruct (fs !! p); congruence.
Defined.

Definition path : jsstr := js "s.jsonl".
Definition cwd : jsstr := js "work".
Definition sid : jsstr := js "session-1".
Definition ops : list session_op :=
  [OpMessage Sample.now (Sample.user "one"); OpThinking Sample.now (js "high"); OpName Sample.now (js " demo ");
   OpMove Sample.now None (Some (mkSummaryInput (js "left") None (Some true)))].
Definition created : result SessionError JsonlSessionStorage * files := jsonl_create path cwd sid None Sample.now ∅.
Definition first_world : world (jsonl_store files) :=
  mkWorld (mkJsonlStore (new_JsonlSessionStorage path (mkHeader sid Sample.now cwd None) [] None) created.2) Sample.ids.
Definition last_world : world (jsonl_store files) := (for_each ops exec_op first_world).2.
Definition content : jsstr := default [] (js_fs (w_storage last_world) !! path).

Lemma ops_fine : Forall op_fine ops.
Proof.
  assert (Hn : name_fine Sample.now) by (split; [apply js_wf|done]).
  repeat apply Forall_cons_2; try apply Forall_nil_2; (split; [exact Hn|]).
  - split; [exact (js_wf "one")|]. split; [exact I|]. cbn. lia.
  - exact (js_wf "high").
  - exact (js_wf " demo ").
  - split; [exact (js_wf "left")|]. split; exact I.
Qed.

Lemma ran : for_each ops exec_op first_world = (Ok tt, last_world).
Proof.
  unfold last_world. destruct (for_each ops exec_op first_world) as [[[]|e] w] eqn:E; [done|].
  apply (f_equal (fun r => match r.1 with Ok _ => true | Throw _ => false end)) in E. vm_compute in E. done.
Qed.

Lemma has_content : readTextFile path (js_fs (w_storage last_world)) = (Ok content, js_fs (w_storage last_world)).
Proof.
  unfold content. cbn. destruct (js_fs (w_storage last_world) !! path) as [t|] eqn:E; [done|].
  apply (f_equal (fun r => match r with Some _ => true | None => false end)) in E. vm_compute in E. done.
Qed.

Lemma clock : clock_room (2 * length ops + 10) Sample.ids.
Proof. exact (mi_clock _ _ (Sample.empty_inv 18 ltac:(lia))). Qed.

Lemma jsonl_reload_witness :
  jsonl_open path (js_fs (w_storage last_world)) = (Ok (Some (storage_of last_world)), js_fs (w_storage last_world)).
Proof.
  apply (jsonl_reload path cwd sid None Sample.now ∅ (storage_of first_world) created.2 Sample.ids ops 10 last_world content);
    [|exact ops_fine|exact clock|reflexivity|exact ran|exact has_content].
  repeat split; first [apply js_wf|done].
Defined.
End JsonlSample.
