(* ===== verification/RecoveryProps.v ===== *)
(** Theorems about the recovery of misplaced tool calls: a call written as JSON
    text comes back as that call, and what recovery adds to a message is safe
    to dispatch. *)
From S2P Require Import Prelude JsString Json JsonParse Truncate JsonText Regex Effects Messages Protocol LoopTypes.
From S2P Require Import ToolBatch Recovery AgentLoop LoopSamples JsonCodec.
#[local] Open Scope eff.

(** ** Texts without markup *)

Lemma trim_id s c d s' : s = c :: s' -> is_space c = false -> last s = Some d -> is_space d = false -> trim s = s.
Proof.
  intros -> Hc Hl Hd. unfold trim. cbn [trim_start]. rewrite Hc. unfold trim_end.
  apply last_Some in Hl as [p Hp]. rewrite Hp, reverse_app. change (reverse [d]) with [d]. cbn [app trim_start]. rewrite Hd.
  by rewrite reverse_cons, reverse_involutive.
Qed.

Lemma split_lines_single s : 10 ∉ s -> split_lines s = [(s, [])].
Proof.
  induction s as [|c s IH]; intros Hn; [done|]. apply not_elem_of_cons in Hn as [Hc Hs]. cbn [split_lines].
  rewrite (proj2 (Z.eqb_neq c 10)) by done. rewrite (IH Hs). destruct (c =? 13); [|done].
  destruct s as [|d s]; [done|]. apply not_elem_of_cons in Hs as [Hd _]. by rewrite (proj2 (Z.eqb_neq d 10)).
Qed.

Lemma lit_none c l r s caps : (forall d s', s = d :: s' -> fold_case d <> fold_case c) -> matches (XLit (c :: l) >>> r) s caps = [].
Proof.
  intros Hs. cbn [matches]. destruct s as [|d s]; [done|]. cbn [match_lit].
  by rewrite (proj2 (Z.eqb_neq _ _)) by (apply not_eq_sym; by eapply Hs).
Qed.

Lemma no_markup_matches s : 60 ∉ s -> scan_all toolCallPattern s = ([], s).
Proof.
  intros Hn. unfold scan_all. apply (scan_none _ _ 60); [intros s0 caps; apply (lit_none 60)|].
  apply Forall_forall. intros d Hd E. assert (d <> 60) by (intros ->; done).
  unfold fold_case in E. revert E. case_if; bool_hyps; lia.
Qed.

(** A fence needs a back quote or a tilde before anything else. *)
Lemma fence_marker_none c s caps : c <> 96 -> c <> 126 -> matches fence_marker (c :: s) caps = [].
Proof.
  intros H1 H2. unfold fence_marker. cbn [matches].
  change (js "``") with [96; 96]. change (js "~~") with [126; 126]. cbn [match_lit].
  assert (Hf : forall x, x = 96 \/ x = 126 -> (fold_case x =? fold_case c) = false).
  { intros x Hx. apply Z.eqb_neq. unfold fold_case. repeat case_if; bool_hyps; lia. }
  by rewrite !Hf by tauto.
Qed.

Lemma spaces_none r c s caps : is_space c = false -> matches r (c :: s) caps = [] -> matches (XSpaces >>> r) (c :: s) caps = [].
Proof. intros Hc Hr. cbn [matches XSpaces class_suffixes]. rewrite Hc. cbn. by rewrite Hr. Qed.

Lemma seq_none a b s caps : matches a s caps = [] -> matches (a >>> b) s caps = [].
Proof. intros H. cbn [matches]. by rewrite H. Qed.

(** A line that starts with a brace opens no fence. *)
Lemma brace_no_fence s : match_start fence_line (123 :: s) = None /\ fence_of fence_open (123 :: s) = None.
Proof.
  unfold match_start, fence_of, fence_line, fence_open.
  assert (H : forall caps, matches fence_marker (123 :: s) caps = []) by (intros; by apply fence_marker_none).
  split; [by rewrite spaces_none by (done || by apply seq_none)|].
  unfold match_start. by rewrite spaces_none by done.
Qed.

Lemma brace_one_segment s : 10 ∉ 123 :: s -> splitMarkdownFenceSegments (123 :: s) = [mkSegment false (123 :: s)].
Proof.
  intros Hn. unfold splitMarkdownFenceSegments. rewrite split_lines_single by done. cbn [fence_segments].
  rewrite (proj2 (brace_no_fence s)). by rewrite app_nil_r.
Qed.

Lemma brace_no_code s : 10 ∉ 123 :: s -> collectMarkdownCodeFences (123 :: s) = [].
Proof.
  intros Hn. unfold collectMarkdownCodeFences. rewrite split_lines_single by done. cbn [map fst code_fences].
  by rewrite (proj1 (brace_no_fence s)).
Qed.

(** ** A call written as JSON *)

(** The text [{"name":...,"arguments":{...}}]. *)
Definition written_call (name : jsstr) (args : list (jsstr * json)) : json :=
  JObj [(js "name", JStr name); (js "arguments", JObj args)].

Section RoundTrip.
Context {Env : Type} (number_text : jsstr -> jsstr) (now : Env -> Z * Env).

Lemma written_ok name args : wf_str name -> json_ok number_text (JObj args) -> json_ok number_text (written_call name args).
Proof.
  intros Hn Ha. constructor.
  - apply plain_enum_ok. split; [by apply (bool_decide_unpack _)|by repeat constructor].
  - apply Forall_cons. split; [split; [apply js_wf|by constructor]|]. apply Forall_cons. by split; [split; [apply js_wf|done]|].
Qed.

Lemma collect_written name args : trim name = name -> name <> [] ->
  collectMisplacedToolCallsFromJson number_text (written_call name args) = [mkParsed name args].
Proof.
  intros Ht Hn. lazy -[getStringValue call_of]. unfold getStringValue. rewrite Ht. by destruct name.
Qed.

Lemma known_written toolNames name args : trim name = name -> name <> [] -> name ∈ toolNames ->
  containsOnlyKnownMisplacedToolCalls number_text toolNames (written_call name args) = true.
Proof.
  intros Ht Hn Hin. lazy -[getStringValue known_name]. unfold getStringValue. rewrite Ht.
  destruct name as [|c name]; [done|]. by apply bool_decide_eq_true.
Qed.

(** The text of a written call: one line in braces. *)
Record call_text (text : jsstr) (name : jsstr) (args : list (jsstr * json)) : Prop := {
  ct_trim : trim text = text;
  ct_head : exists s, text = 123 :: s;
  ct_line : 10 ∉ text;
  ct_braced : looks_like_json text = true;
  ct_parsed : json_parse number_text text = Some (written_call name args);
}.

Lemma written_text name args : wf_str name -> json_ok number_text (JObj args) ->
  call_text (stringify (written_call name args)) name args.
Proof.
  intros Hn Ha. pose proof (written_ok name args Hn Ha) as Hok.
  assert (Hs : exists s, stringify (written_call name args) = 123 :: s ++ [125]) by (by eexists).
  destruct Hs as [s Hs]. assert (Hl : last (123 :: s ++ [125]) = Some 125) by (rewrite app_comm_cons; apply last_snoc).
  constructor.
  - rewrite Hs. by apply (trim_id _ 123 125 (s ++ [125])).
  - rewrite Hs. by eexists.
  - apply (stringify_line number_text _ Hok).
  - rewrite Hs. unfold looks_like_json, is_braced. cbn [is_empty negb andb head]. rewrite Hl. done.
  - by apply json_parse_stringify.
Qed.

Lemma written_recoverable toolNames text name args : call_text text name args -> trim name = name -> name <> [] -> name ∈ toolNames ->
  isFullyRecoverableMisplacedToolCallJson number_text text toolNames = true /\
  parseMisplacedToolCallJson number_text text = [mkParsed name args].
Proof.
  intros Hc Ht Hn Hin. unfold isFullyRecoverableMisplacedToolCallJson, parseMisplacedToolCallJson.
  rewrite (ct_braced _ _ _ Hc), (ct_parsed _ _ _ Hc), known_written, collect_written by done.
  by destruct toolNames; [apply elem_of_nil in Hin|].
Qed.

Lemma written_extracted toolNames text name args : call_text text name args -> trim name = name -> name <> [] -> name ∈ toolNames ->
  extractMisplacedJsonToolCalls number_text text toolNames = [mkParsed name args].
Proof.
  intros Hc Ht Hn Hin. destruct (written_recoverable toolNames text name args Hc Ht Hn Hin) as [Hr Hp].
  destruct (ct_head _ _ _ Hc) as [s ->]. unfold extractMisplacedJsonToolCalls. rewrite (ct_trim _ _ _ Hc), Hr, Hp.
  rewrite brace_no_code by apply Hc. destruct toolNames; [by apply elem_of_nil in Hin|].
  cbn [is_empty flat_map app List.filter pc_name]. by rewrite bool_decide_eq_true_2.
Qed.

Lemma written_removed toolNames text name args : call_text text name args -> trim name = name -> name <> [] -> name ∈ toolNames ->
  remove_markup number_text toolNames text = Ok [].
Proof.
  intros Hc Ht Hn Hin. destruct (written_recoverable toolNames text name args Hc Ht Hn Hin) as [Hr _].
  unfold remove_markup, removeRecoveredJsonToolCallBlocks. rewrite (ct_trim _ _ _ Hc), Hr.
  by destruct toolNames; [apply elem_of_nil in Hin|].
Qed.

(** The call recovered from it. *)
Definition recovered_call (t : Z) (index : Z) (name : jsstr) (args : list (jsstr * json)) : ToolCall :=
  mkToolCall (js "recovered_" ++ show t ++ js "_" ++ show index ++ js "_" ++ sanitizeToolCallIdSegment name) name (JObj args) None.

Lemma create_known toolNames name args index (w : loop_world Env) t env : name ∈ toolNames -> now (lw_env w) = (t, env) ->
  createRecoveredToolCall now (mkParsed name args) toolNames index w = (Ok (recovered_call t index name args), set_env env w).
Proof.
  intros Hin Et. unfold createRecoveredToolCall, bind, ask_env, call_hook, call_record. rewrite Et. cbn [pc_name pc_arguments].
  by rewrite bool_decide_eq_true_2, orb_true_r.
Qed.

Lemma fresh_alone p : fresh_json_calls [p] [] = [p].
Proof. cbn [fresh_json_calls]. by destruct (serializeCanonicalMisplacedToolArguments _). Qed.

(** C30: a tool call that a model writes as text comes back as that call: when
    the only block of a message without tool calls is the text that
    [JSON.stringify] prints for the object with a [name] and [arguments], and a
    tool has that name, the recovered message consists of exactly one tool call,
    with that name and those arguments, an id made of the clock, the index 0 and
    the name, and the stop reason [toolUse]; the text is gone, and nothing
    else of the message changes.  (The text has no [<]: an argument that
    contains markup may be read as markup.) *)
Theorem recover_written_call m tools name args sig (w : loop_world Env) :
  json_ok number_text (JObj args) -> wf_str name -> trim name = name -> name <> [] -> name ∈ names_of tools ->
  60 ∉ stringify (written_call name args) ->
  am_content m = [AText (stringify (written_call name args)) sig] ->
  let '(t, env) := now (lw_env w) in
  recoverMisplacedToolCalls number_text now m tools w =
    (Ok (mkAssistant [AToolCall (recovered_call t 0 name args)] (am_api m) (am_provider m) (am_model m) (am_responseModel m)
           (am_responseId m) (am_diagnostics m) (am_usage m) StopToolUse (am_errorMessage m) (am_timestamp m)),
     set_env env w).
Proof.
  intros Ha Hwf Ht Hn Hin Hlt Hm. pose proof (written_text name args Hwf Ha) as Hc.
  unfold recoverMisplacedToolCalls, extractMisplacedToolCalls, written_texts, tool_calls. rewrite Hm.
  set (text := stringify (written_call name args)) in *. cbn [flat_map app is_empty negb tool_call_bodies].
  rewrite (written_extracted (names_of tools) text name args) by done.
  destruct (ct_head _ _ _ Hc) as [s Hs]. rewrite Hs, brace_one_segment, <- Hs by (rewrite <- Hs; apply Hc).
  cbn [flat_map sg_fenced sg_text app]. unfold matchAll. rewrite (no_markup_matches text Hlt).
  cbn [fst map app markup_calls]. unfold removeRecoveredToolCallMarkup. cbn [clean_blocks].
  rewrite (written_removed (names_of tools) text name args) by done.
  destruct (now (lw_env w)) as [t env] eqn:Et.
  pose proof (create_known _ _ args 0 w t env Hin Et) as H.
  unfold bind, ret, of_result in *. cbn [map app]. rewrite fresh_alone. cbn [create_calls]. change (zlen []) with 0. unfold bind, ret. by rewrite H.
Qed.
End RoundTrip.

(** ** What recovery adds to a message *)

Section Safe.
Context {Env : Type} (number_text : jsstr -> jsstr) (now : Env -> Z * Env).

(** The call with index [i], safe to dispatch among these tools. *)
Definition numbered_call (toolNames : list jsstr) (i : Z) (c : ToolCall) : Prop :=
  (exists t rest, tc_id c = js "recovered_" ++ show t ++ js "_" ++ show i ++ js "_" ++ rest) /\
  (toolNames = [] \/ tc_name c ∈ toolNames \/ tc_arguments c = JObj []).

Definition numbered_from (toolNames : list jsstr) (i : Z) (calls : list ToolCall) : Prop :=
  forall k c, calls !! k = Some c -> numbered_call toolNames (i + Z.of_nat k) c.

Lemma numbered_app toolNames i a b :
  numbered_from toolNames i a -> numbered_from toolNames (i + zlen a) b -> numbered_from toolNames i (a ++ b).
Proof.
  intros Ha Hb k c [H|[Hk H]]%lookup_app_Some; [by apply Ha|]. unfold zlen in Hb.
  apply Hb in H. by replace (i + Z.of_nat k) with (i + Z.of_nat (length a) + Z.of_nat (k - length a)) by lia.
Qed.

Lemma create_calls_numbered parsed toolNames index :
  triple (fun _ : loop_world Env => True) (create_calls now parsed toolNames index)
    (fun calls _ => numbered_from toolNames index calls) (fun _ _ => True).
Proof.
  revert index. induction parsed as [|p parsed IH]; intros index; cbn [create_calls]; [by apply triple_ret|].
  eapply triple_bind with (Q := fun c _ => numbered_call toolNames index c).
  - intros w _. unfold createRecoveredToolCall, bind, ask_env, call_hook. destruct (now (lw_env w)) as [t env].
    split; [by eexists _, _|]. cbn [tc_name tc_arguments]. unfold call_record.
    destruct (is_empty toolNames) eqn:E; [left; by apply is_empty_true|]. cbn [orb].
    case_bool_decide; [by right; left|by right; right].
  - intros c w Hc. specialize (IH (index + 1) w I). unfold bind. destruct (create_calls _ _ _ _ w) as [[rest|e] w']; [|done].
    intros [|k] c' H; cbn in H; [injection H as <-; by rewrite Z.add_0_r|].
    apply IH in H. by replace (index + Z.of_nat (S k)) with (index + 1 + Z.of_nat k) by lia.
Qed.

Lemma markup_calls_numbered bodies toolNames index :
  triple (fun _ : loop_world Env => True) (markup_calls number_text now bodies toolNames index)
    (fun calls _ => numbered_from toolNames index calls) (fun _ _ => True).
Proof.
  revert index. induction bodies as [|b bodies IH]; intros index; cbn [markup_calls]; [by apply triple_ret|].
  eapply triple_bind with (Q := fun _ _ => True); [intros w _; unfold of_result; by destruct (parseMisplacedToolCallBlock _ _)|].
  intros parsed. eapply triple_bind; [apply create_calls_numbered|]. intros calls w Hc. unfold bind.
  specialize (IH (index + zlen calls) w I). destruct (markup_calls _ _ _ _ _ w) as [[rest|e] w']; [|done]. by apply numbered_app.
Qed.

(** Ids with different indices differ. *)
Lemma show_units n : Forall (fun c => c <> 95) (show n).
Proof.
  assert (Hd : forall ds, Forall (fun c => is_digit c = true) ds -> Forall (fun c => c <> 95) ds).
  { intros ds H. eapply Forall_impl; [exact H|]. intros c Hc. unfold is_digit in Hc. bool_hyps. lia. }
  destruct (decide (0 <= n)) as [Hn|Hn]; [destruct (show_nat_digits n Hn) as (ds & -> & H & _); by apply Hd|].
  destruct n as [| |p]; [lia|lia|]. rewrite show_neg. constructor; [lia|].
  destruct (show_nat_digits (Z.pos p) ltac:(lia)) as (ds & -> & H & _). by apply Hd.
Qed.

Lemma before_underscore (a b r s : jsstr) : Forall (fun c => c <> 95) a -> Forall (fun c => c <> 95) b ->
  a ++ js "_" ++ r = b ++ js "_" ++ s -> a = b /\ r = s.
Proof.
  intros Ha. revert b. induction Ha as [|c a Hc Ha IH]; intros [|d b] Hb H; inversion Hb; subst;
    change (js "_") with [95] in H; cbn [app] in H.
  - by injection H as ->.
  - injection H as H1 _. congruence.
  - injection H as H1 _. congruence.
  - injection H as -> H. destruct (IH b) as [-> ->]; done.
Qed.

Lemma numbered_nodup toolNames i calls : numbered_from toolNames i calls -> NoDup (map tc_id calls).
Proof.
  intros H. apply NoDup_alt. intros j k x Hj Hk. rewrite !list_lookup_fmap in *.
  destruct (calls !! j) as [c|] eqn:Ej; [|done]. destruct (calls !! k) as [d|] eqn:Ek; [|done].
  destruct (H _ _ Ej) as [(t & r & Hc) _], (H _ _ Ek) as [(t' & r' & Hd) _]. cbn in Hj, Hk.
  assert (E : tc_id c = tc_id d) by congruence. rewrite Hc, Hd in E. apply app_inv_head in E.
  apply before_underscore in E as [_ E]; [|apply show_units..]. apply before_underscore in E as [E _]; [|apply show_units..].
  apply (f_equal int_value) in E. rewrite !int_value_show in E. injection E. lia.
Qed.

(** The blocks that stay are the texts that are not blank. *)
Definition block_text (b : assistant_block) : jsstr :=
  match b with AText t _ => t | AThinking t _ _ => t | AToolCall _ => [] end.
Definition kept_block (b : assistant_block) : Prop :=
  match b with AToolCall _ => True | _ => trim (block_text b) <> [] end.

Lemma clean_blocks_kept clean content kept :
  clean_blocks clean content = Ok kept ->
  flat_map (fun b => match b with AToolCall c => [c] | _ => [] end) kept
    = flat_map (fun b => match b with AToolCall c => [c] | _ => [] end) content /\ Forall kept_block kept.
Proof.
  revert kept. induction content as [|b content IH]; intros kept; cbn [clean_blocks]; [by intros [= <-]|].
  destruct b as [t sig|t sig r|c].
  1-2: destruct (clean t) as [t'|e]; [|done];
    destruct (clean_blocks _ content) as [rest|e]; [|done]; intros [= <-];
    destruct (IH rest eq_refl) as [H1 H2]; destruct (is_empty (trim t')) eqn:E; split; try done;
    constructor; [cbn [kept_block block_text]; intros H; by rewrite H in E|done].
  destruct (clean_blocks _ content) as [rest|e]; [|done]. intros [= <-].
  destruct (IH rest eq_refl) as [H1 H2]. split; [cbn; by rewrite H1|by constructor].
Qed.

(** C31: what recovery returns is safe to dispatch.  Either the message is the
    one it was given, or that message had no tool call and the result has at
    least one, stops for [toolUse], has pairwise different call ids, no blank
    text or thinking block, and every call names one of the turn's tools, when
    there are any, or has its arguments replaced by an empty object. *)
Theorem recovered_safe m tools m' (w w' : loop_world Env) :
  recoverMisplacedToolCalls number_text now m tools w = (Ok m', w') ->
  m' = m \/
  (tool_calls m = [] /\ tool_calls m' <> [] /\ am_stopReason m' = StopToolUse /\
   NoDup (map tc_id (tool_calls m')) /\ Forall kept_block (am_content m') /\
   Forall (fun c => names_of tools = [] \/ tc_name c ∈ names_of tools \/ tc_arguments c = JObj []) (tool_calls m')).
Proof.
  unfold recoverMisplacedToolCalls. destruct (is_empty (tool_calls m)) eqn:Ee; [|cbn; intros [= <- _]; by left]. cbn [negb].
  intros E. apply is_empty_true in Ee.
  assert (Hc : triple (fun _ : loop_world Env => True) (extractMisplacedToolCalls number_text now m (names_of tools))
    (fun calls _ => numbered_from (names_of tools) 0 calls) (fun _ _ => True)).
  { unfold extractMisplacedToolCalls. eapply triple_bind; [apply markup_calls_numbered|]. intros marked w0 Hm. unfold bind.
    match goal with |- context [create_calls now ?p ?n ?i w0] => pose proof (create_calls_numbered p n i w0 I) as Hw end.
    destruct (create_calls now _ _ _ w0) as [[written|e] w1]; [|done]. by apply numbered_app. }
  specialize (Hc w I). unfold bind in E. destruct (extractMisplacedToolCalls _ _ _ _ w) as [[calls|e] w1]; [|done].
  destruct (is_empty calls) eqn:Ec; [cbn in E; injection E as <- _; by left|]. right. unfold bind, of_result in E.
  destruct (removeRecoveredToolCallMarkup _ _ _) as [kept|e] eqn:Ek; [|done]. injection E as <- _.
  destruct (clean_blocks_kept _ _ _ Ek) as [Hk1 Hk2]. unfold tool_calls in Ee. rewrite Ee in Hk1.
  assert (Ht : forall a b c d e f g h i j, tool_calls (mkAssistant (kept ++ map AToolCall calls) a b c d e f g h i j) = calls).
  { intros. unfold tool_calls. cbn [am_content]. rewrite flat_map_app, Hk1. clear. induction calls; [done|]. cbn. by f_equal. }
  rewrite Ht. split_and!; [by unfold tool_calls|intros ->; done|done|by eapply numbered_nodup| |].
  - cbn [am_content]. apply Forall_app. split; [done|]. apply Forall_fmap, Forall_true. done.
  - apply Forall_lookup. intros k c Hkc. by destruct (Hc k c Hkc) as [_ H].
Qed.
End Safe.

(** ** Concrete messages *)

Module RecoverySample.
Import LoopSample.

Definition says (text : jsstr) : AssistantMessage :=
  mkAssistant [AText text None] (js "api") (js "p") (js "m") None None None EMPTY_USAGE StopStop None 1700000000000.
Definition start : loop_world Env := start_world context [] 0%nat.
Definition path_args : list (jsstr * json) := [(js "path", JStr (js "a.ts")); (js "limit", JNum (js "20"))].

Lemma path_args_ok : json_ok number_text (JObj path_args).
Proof.
  constructor; [apply plain_enum_ok; split; [by apply (bool_decide_unpack _)|by repeat constructor]|].
  apply Forall_cons. split; [split; [apply js_wf|constructor; apply js_wf]|].
  apply Forall_cons. by split; [split; [apply js_wf|by constructor]|].
Qed.

Lemma recover_written_call_witness :
  recoverMisplacedToolCalls number_text now (says (stringify (written_call (js "read") path_args))) (Some [read_tool]) start
  = (Ok (mkAssistant [AToolCall (recovered_call 1700000000000 0 (js "read") path_args)] (js "api") (js "p") (js "m") None None None
           EMPTY_USAGE StopToolUse None 1700000000000), start).
Proof.
  apply (recover_written_call number_text now (says (stringify (written_call (js "read") path_args))) (Some [read_tool])
    (js "read") path_args None start path_args_ok (js_wf "read") eq_refl); [done|by left|by apply (bool_decide_unpack _)|done].
Defined.

(** Text, a call to an unknown tool in markup and a fenced call to a known one. *)
Definition mixed : jsstr :=
  js "First" ++ nl ++ js "<tool_call><function=rm><parameter=path>/</parameter></function></tool_call>" ++ nl
  ++ js "```json" ++ nl ++ stringify (written_call (js "read") path_args) ++ nl ++ js "```" ++ nl.

Definition recovered_mixed : AssistantMessage :=
  mkAssistant [AText (js "First") None;
    AToolCall (recovered_call 1700000000000 0 (js "rm") []); AToolCall (recovered_call 1700000000000 1 (js "read") path_args)]
    (js "api") (js "p") (js "m") None None None EMPTY_USAGE StopToolUse None 1700000000000.

Lemma recovered_safe_witness : NoDup (map tc_id (tool_calls recovered_mixed)) /\ tool_calls recovered_mixed <> [].
Proof.
  destruct (recovered_safe number_text now (says mixed) (Some [read_tool]) recovered_mixed start start) as [H|(_ & H1 & _ & H2 & _)].
  - vm_compute. reflexivity.
  - discriminate H.
  - exact (conj H2 H1).
Defined.

(** A character reference beyond U+10FFFF makes recovery throw. *)
Example recover_throws :
  (recoverMisplacedToolCalls number_text now
    (says (js "<tool_call><function=read><parameter=path>&#x110000;</parameter></function></tool_call>")) (Some [read_tool]) start).1
  = Throw (js "Invalid code point 1114112").
Proof. vm_compute. reflexivity. Qed.
End RecoverySample.
