(* ===== verification/JsonlRepo.v ===== *)
(** The session repositories ([harness/session/jsonl-repo.ts],
    [memory-repo.ts], [repo-utils.ts]): creating, opening, listing, deleting
    and forking sessions, as files of a file system and in memory. *)
From S2P Require Import Prelude JsString Json JsonParse Effects Uuid Messages SessionTree SessionLaws JsonCodec EntryJson JsonlStorage.
#[local] Open Scope eff.

(** ** More of the file system *)

Inductive FileKind := KindFile | KindDirectory | KindSymlink.
Record FileInfo := mkFileInfo { fi_name : jsstr; fi_path : jsstr; fi_kind : FileKind }.

Class RepoFileSystem (FS : Type) `{FileSystem FS} := {
  absolutePath : jsstr -> FS -> result FileError jsstr * FS;
  joinPath : list jsstr -> FS -> result FileError jsstr * FS;
  listDir : jsstr -> FS -> result FileError (list FileInfo) * FS;
  exists_ : jsstr -> FS -> result FileError bool * FS;
  createDir : jsstr -> FS -> result FileError unit * FS;    (** [{ recursive: true }] *)
  remove : jsstr -> FS -> result FileError unit * FS;       (** [{ force: true }] *)
}.

(** ** Names *)

Definition is_separator (c : Z) : bool := (c =? 47) || (c =? 92).

(** [--${cwd.replace(/^[/\\]/, '').replace(/[/\\:]/g, '-')}--]. *)
Definition encodeCwd (cwd : jsstr) : jsstr :=
  let rooted := match cwd with c :: rest => if is_separator c then rest else cwd | [] => [] end in
  js "--" ++ map (fun c => if is_separator c || (c =? 58) then 45 else c) rooted ++ js "--".

Definition session_file_name (sessionId timestamp : jsstr) : jsstr :=
  map (fun c => if (c =? 58) || (c =? 46) then 45 else c) timestamp ++ js "_" ++ sessionId ++ js ".jsonl".

(** [createSessionId]: the next UUID of the generator. *)
Definition next_uuid (g : idgen) : jsstr * idgen :=
  let '(id, st) := uuidv7 (ig_state g) (ig_draws g (ig_pos g)) in (id, mkIdgen st (ig_draws g) (Datatypes.S (ig_pos g))).

(** ** [JsonlSessionRepo] *)

(** The file system, the id generator, the cached root, and the readings of
    [new Date().toISOString()]. *)
Record repo_world (FS : Type) := mkRepo {
  rp_fs : FS; rp_ids : idgen; rp_sessionsRoot : option jsstr; rp_clock : nat -> jsstr; rp_tick : nat;
}.
Arguments mkRepo {FS}. Arguments rp_fs {FS}. Arguments rp_ids {FS}. Arguments rp_sessionsRoot {FS}.
Arguments rp_clock {FS}. Arguments rp_tick {FS}.

Section Repo.
Context `{JsNumbers} {FS : Type} `{RepoFileSystem FS}.
(** The [sessionsRoot] option, and [new Date(s).getTime()]. *)
Context (sessionsRootInput : jsstr) (get_time : jsstr -> Z).

Abbreviation MR := (M (repo_world FS) SessionError).

Definition set_fs (fs : FS) (w : repo_world FS) : repo_world FS :=
  mkRepo fs (rp_ids w) (rp_sessionsRoot w) (rp_clock w) (rp_tick w).

(** A call of the file system whose error is thrown. *)
Definition fs_call {A} (f : FS -> result FileError A * FS) (message : jsstr) : MR A := fun w =>
  let '(r, fs') := f (rp_fs w) in (getFileSystemResultOrThrow r message, set_fs fs' w).

(** A function that handles the errors of the file system itself. *)
Definition fs_run {A} (f : FS -> result SessionError A * FS) : MR A := fun w =>
  let '(r, fs') := f (rp_fs w) in (r, set_fs fs' w).

Definition createSessionId : MR jsstr := fun w =>
  let '(id, g) := next_uuid (rp_ids w) in (Ok id, mkRepo (rp_fs w) g (rp_sessionsRoot w) (rp_clock w) (rp_tick w)).

Definition createTimestamp : MR jsstr := fun w =>
  (Ok (rp_clock w (rp_tick w)), mkRepo (rp_fs w) (rp_ids w) (rp_sessionsRoot w) (rp_clock w) (Datatypes.S (rp_tick w))).

Definition getSessionsRoot : MR jsstr :=
  let* w := get in
  match rp_sessionsRoot w with
  | Some (c :: root) => ret (c :: root)
  | _ =>
      let* root := fs_call (absolutePath sessionsRootInput) (js "Failed to resolve sessions root " ++ sessionsRootInput) in
      do* modify (fun w => mkRepo (rp_fs w) (rp_ids w) (Some root) (rp_clock w) (rp_tick w)) in
      ret root
  end.

Definition getSessionDir (cwd : jsstr) : MR jsstr :=
  let* root := getSessionsRoot in
  fs_call (joinPath [root; encodeCwd cwd]) (js "Failed to resolve session directory for " ++ cwd).

Definition createSessionFilePath (cwd sessionId timestamp : jsstr) : MR jsstr :=
  let* dir := getSessionDir cwd in
  fs_call (joinPath [dir; session_file_name sessionId timestamp]) (js "Failed to resolve session file path for " ++ sessionId).

(** The directory, the path and the file of a new session. *)
Definition new_session (cwd id : jsstr) (parentSessionPath : option jsstr) : MR JsonlSessionStorage :=
  let* createdAt := createTimestamp in
  let* sessionDir := getSessionDir cwd in
  do* fs_call (createDir sessionDir) (js "Failed to create session directory " ++ sessionDir) in
  let* filePath := createSessionFilePath cwd id createdAt in
  let* now := createTimestamp in
  fs_run (jsonl_create filePath cwd id parentSessionPath now).

Definition given_id (id : option jsstr) : MR jsstr := match id with Some id => ret id | None => createSessionId end.

Definition repo_create (id : option jsstr) (cwd : jsstr) (parentSessionPath : option jsstr) : MR JsonlSessionStorage :=
  let* id := given_id id in
  new_session cwd id parentSessionPath.

(** [open]; [None] as for [jsonl_open]. *)
Definition repo_open (metadata : JsonlSessionMetadata) : MR (option JsonlSessionStorage) :=
  let* found := fs_call (exists_ (jm_path metadata)) (js "Failed to check session " ++ jm_path metadata) in
  if found then fs_run (jsonl_open (jm_path metadata))
  else throw (mkSessionError not_found (js "Session not found: " ++ jm_path metadata)).

Definition listSessionDirs : MR (list jsstr) :=
  let* root := getSessionsRoot in
  let* found := fs_call (exists_ root) (js "Failed to check sessions root " ++ root) in
  if found then
    let* infos := fs_call (listDir root) (js "Failed to list sessions root " ++ root) in
    ret (map fi_path (List.filter (fun i => match fi_kind i with KindDirectory => true | _ => false end) infos))
  else ret [].

Definition is_session_file (i : FileInfo) : bool :=
  match fi_kind i with KindDirectory => false | _ => ends_with (js ".jsonl") (fi_name i) end.

(** The metadata of a file, unless it is not a session. *)
Definition session_metadata (i : FileInfo) : MR (list JsonlSessionMetadata) :=
  catch (let* m := fs_run (loadJsonlSessionMetadata (fi_path i)) in ret [m])
    (fun e => match se_code e with invalid_session => ret [] | _ => throw e end).

(** [for (const x of l) out.push(...await f(x))]. *)
Fixpoint collect {A B} (l : list A) (f : A -> MR (list B)) : MR (list B) :=
  match l with
  | [] => ret []
  | x :: l' => let* a := f x in let* b := collect l' f in ret (a ++ b)
  end.

Definition sessions_in (dir : jsstr) : MR (list JsonlSessionMetadata) :=
  let* found := fs_call (exists_ dir) (js "Failed to check session directory " ++ dir) in
  if found then
    let* files := fs_call (listDir dir) (js "Failed to list sessions in " ++ dir) in
    collect (List.filter is_session_file files) session_metadata
  else ret [].

(** Newest first. *)
Definition newer (a b : JsonlSessionMetadata) : bool := get_time (jm_createdAt b) <=? get_time (jm_createdAt a).

Definition repo_list (cwd : option jsstr) : MR (list JsonlSessionMetadata) :=
  let* dirs := match cwd with
               | Some (c :: rest) => let* dir := getSessionDir (c :: rest) in ret [dir]
               | _ => listSessionDirs
               end in
  let* sessions := collect dirs sessions_in in
  ret (isort newer sessions).

Definition repo_delete (metadata : JsonlSessionMetadata) : MR unit :=
  fs_call (remove (jm_path metadata)) (js "Failed to delete session " ++ jm_path metadata).

(** An operation of a storage, on the repository's file system and ids. *)
Definition on_session {A} (s : JsonlSessionStorage) (c : M (world (jsonl_store FS)) SessionError A)
    : MR (A * JsonlSessionStorage) := fun w =>
  let '(r, w') := c (mkWorld (mkJsonlStore s (rp_fs w)) (rp_ids w)) in
  (match r with Ok a => Ok (a, storage_of w') | Throw e => Throw e end,
   mkRepo (js_fs (w_storage w')) (w_ids w') (rp_sessionsRoot w) (rp_clock w) (rp_tick w)).

Definition repo_fork (source : JsonlSessionMetadata) (id entryId cwd parentSessionPath : option jsstr) (at_target : bool)
    : MR (option JsonlSessionStorage) :=
  let* opened := repo_open source in
  match opened with
  | None => ret None
  | Some s =>
      let* '(forkedEntries, _) := on_session s (getEntriesToFork entryId at_target) in
      let* id := given_id id in
      let* storage := new_session (default (jm_cwd source) cwd) id
                        (Some (default (jm_path source) parentSessionPath)) in
      let* '(_, storage') := on_session storage (for_each forkedEntries appendEntry) in
      ret (Some storage')
  end.
End Repo.

(** ** [InMemorySessionRepo] *)

Record SessionMetadata := mkMetadata { sm_id : jsstr; sm_createdAt : jsstr }.

(** A session is a reference to its storage: opening it twice gives the same
    object. *)
Record mem_session := mkMemSession { mm_metadata : SessionMetadata; mm_ref : nat }.

Record mem_repo := mkMemRepo {
  mr_sessions : list (jsstr * mem_session);   (** the map, in insertion order *)
  mr_heap : list InMemorySessionStorage;
  mr_ids : idgen; mr_clock : nat -> jsstr; mr_tick : nat;
}.

Section MemRepo.
Abbreviation MM := (M mem_repo SessionError).

(** [map.set(k, v)] and [map.get(k)]. *)
Definition map_set {A} (k : jsstr) (v : A) (m : list (jsstr * A)) : list (jsstr * A) :=
  if has_key k m then replace_prop k v m else m ++ [(k, v)].
Definition map_get {A} (k : jsstr) (m : list (jsstr * A)) : option A :=
  snd <$> List.find (fun kv => bool_decide (kv.1 = k)) m.

Definition mem_id (id : option jsstr) : MM jsstr :=
  match id with
  | Some id => ret id
  | None => fun w => let '(id, g) := next_uuid (mr_ids w) in
                     (Ok id, mkMemRepo (mr_sessions w) (mr_heap w) g (mr_clock w) (mr_tick w))
  end.

Definition mem_now : MM jsstr := fun w =>
  (Ok (mr_clock w (mr_tick w)), mkMemRepo (mr_sessions w) (mr_heap w) (mr_ids w) (mr_clock w) (Datatypes.S (mr_tick w))).

(** A new storage with these entries, registered under its id. *)
Definition mem_register (id : option jsstr) (es : list SessionTreeEntry) : MM mem_session :=
  let* id := mem_id id in
  let* createdAt := mem_now in
  fun w =>
    match new_InMemorySessionStorage es with
    | Throw e => (Throw e, w)
    | Ok storage =>
        let session := mkMemSession (mkMetadata id createdAt) (length (mr_heap w)) in
        (Ok session, mkMemRepo (map_set id session (mr_sessions w)) (mr_heap w ++ [storage]) (mr_ids w) (mr_clock w) (mr_tick w))
    end.

Definition mem_create (id : option jsstr) : MM mem_session := mem_register id [].

Definition mem_open (metadata : SessionMetadata) : MM mem_session := fun w =>
  match map_get (sm_id metadata) (mr_sessions w) with
  | Some s => (Ok s, w)
  | None => (Throw (mkSessionError not_found (js "Session not found: " ++ sm_id metadata)), w)
  end.

Definition mem_list : MM (list SessionMetadata) := fun w => (Ok (map (fun kv => mm_metadata kv.2) (mr_sessions w)), w).

Definition mem_delete (metadata : SessionMetadata) : MM unit :=
  modify (fun w => mkMemRepo (List.filter (fun kv => negb (bool_decide (kv.1 = sm_id metadata))) (mr_sessions w))
                     (mr_heap w) (mr_ids w) (mr_clock w) (mr_tick w)).

(** An operation of a session, on the object it refers to (the first case
    does not occur: references are issued by [mem_register]). *)
Definition on_mem {A} (s : mem_session) (c : M (world InMemorySessionStorage) SessionError A) : MM A := fun w =>
  match mr_heap w !! mm_ref s with
  | None => (Throw (mkSessionError unknown_error (js "dangling reference")), w)
  | Some storage =>
      let '(r, w') := c (mkWorld storage (mr_ids w)) in
      (r, mkMemRepo (mr_sessions w) (<[mm_ref s := w_storage w']> (mr_heap w)) (w_ids w') (mr_clock w) (mr_tick w))
  end.

Definition mem_fork (source : SessionMetadata) (id entryId : option jsstr) (at_target : bool) : MM mem_session :=
  let* session := mem_open source in
  let* forkedEntries := on_mem session (getEntriesToFork entryId at_target) in
  mem_register id forkedEntries.
End MemRepo.
