(* ===== verification/RepoProps.v ===== *)
(** Theorems about the session repositories: a created or forked session file
    opens to the session it was made from, and a fork leaves its source as it
    was. *)
From S2P Require Import Prelude JsString Json JsonParse Effects Truncate JsonText Uuid Messages SessionTree SessionLaws SessionProps.
From S2P Require Import JsonCodec EntryJson JsonlStorage JsonlProps JsonlRepo.
#[local] Open Scope eff.

(** What the repository relies on of a file system: reading, checking and
    resolving paths and creating directories leave the files as they are, and so
    does writing a file at another path that does not address the same file. *)
Class RepoFileSystemOk (FS : Type) `{RepoFileSystem FS} `{!FileSystemOk FS} := {
  apart : jsstr -> jsstr -> Prop;
  write_frame p q t fs r fs' : apart p q -> writeFile p t fs = (r, fs') -> file_text fs' q = file_text fs q;
  append_frame p q t fs r fs' : apart p q -> appendFile p t fs = (r, fs') -> file_text fs' q = file_text fs q;
  read_keeps p fs r fs' : readTextFile p fs = (r, fs') -> forall q, file_text fs' q = file_text fs q;
  exists_keeps p fs r fs' : exists_ p fs = (r, fs') -> forall q, file_text fs' q = file_text fs q;
  absolute_keeps p fs r fs' : absolutePath p fs = (r, fs') -> forall q, file_text fs' q = file_text fs q;
  join_keeps ps fs r fs' : joinPath ps fs = (r, fs') -> forall q, file_text fs' q = file_text fs q;
  createDir_keeps p fs r fs' : createDir p fs = (r, fs') -> forall q, file_text fs' q = file_text fs q;
}.

Section Files.
Context `{JsNumbers} {FS : Type} `{RepoFileSystemOk FS}.
Context (sessionsRootInput : jsstr).
Abbreviation MR := (M (repo_world FS) SessionError).
Abbreviation texts w := (file_text (rp_fs w)).

(** A computation that leaves every file as it is. *)
Definition reads {A} (c : MR A) : Prop := forall w r w', c w = (r, w') -> forall q, texts w' q = texts w q.

Lemma reads_ret {A} (a : A) : reads (ret a).
Proof. intros w r w' [= <- <-]. done. Qed.

Lemma reads_bind {A B} (c : MR A) (k : A -> MR B) : reads c -> (forall a, reads (k a)) -> reads (bind c k).
Proof.
  intros Hc Hk w r w' E q. unfold bind in E. destruct (c w) as [[a|e] w1] eqn:E1.
  - by rewrite (Hk a w1 r w' E q), (Hc _ _ _ E1 q).
  - injection E as <- <-. exact (Hc _ _ _ E1 q).
Qed.

Lemma reads_fs_call {A} (f : FS -> result FileError A * FS) msg :
  (forall fs r fs', f fs = (r, fs') -> forall q, file_text fs' q = file_text fs q) -> reads (fs_call f msg).
Proof.
  intros Hf w r w' E q. unfold fs_call in E. destruct (f (rp_fs w)) as [r1 fs1] eqn:E1. injection E as <- <-.
  exact (Hf _ _ _ E1 q).
Qed.

Lemma reads_timestamp : reads createTimestamp.
Proof. intros w r w' [= <- <-]. done. Qed.

Lemma reads_given_id id : reads (given_id id).
Proof.
  destruct id as [id|]; [apply reads_ret|]. intros w r w' E q. unfold given_id, createSessionId in E.
  destruct (next_uuid _) as [id g]. by injection E as <- <-.
Qed.

Lemma reads_sessionsRoot : reads (getSessionsRoot sessionsRootInput).
Proof.
  apply reads_bind; [by intros w r w' [= <- <-]|]. intros w0.
  assert (Hr : reads (bind (fs_call (absolutePath sessionsRootInput) (js "Failed to resolve sessions root " ++ sessionsRootInput))
    (fun root => bind (modify (fun w => mkRepo (rp_fs w) (rp_ids w) (Some root) (rp_clock w) (rp_tick w))) (fun _ => ret root)))).
  { apply reads_bind; [apply reads_fs_call, absolute_keeps|]. intros root. by intros w r w' [= <- <-]. }
  destruct (rp_sessionsRoot w0) as [[|c root]|]; [done|apply reads_ret|done].
Qed.

Lemma reads_sessionDir cwd : reads (getSessionDir sessionsRootInput cwd).
Proof. apply reads_bind; [apply reads_sessionsRoot|]. intros root. apply reads_fs_call, join_keeps. Qed.

Lemma reads_filePath cwd id ts : reads (createSessionFilePath sessionsRootInput cwd id ts).
Proof. apply reads_bind; [apply reads_sessionDir|]. intros dir. apply reads_fs_call, join_keeps. Qed.

Lemma bind_Ok {W E A B} (c : M W E A) (k : A -> M W E B) w b w' :
  bind c k w = (Ok b, w') -> exists a w1, c w = (Ok a, w1) /\ k a w1 = (Ok b, w').
Proof. unfold bind. destruct (c w) as [[a|e] w1]; [eauto|done]. Qed.

(** The header of a storage, and the conditions for it to be read back. *)
Definition header_of (s : JsonlSessionStorage) : SessionHeader :=
  let m := jl_metadata s in mkHeader (jm_id m) (jm_createdAt m) (jm_cwd m) (jm_parentSessionPath m).

(** A storage that is as opening its file would make it. *)
Definition in_file (s : JsonlSessionStorage) (fs : FS) : Prop :=
  s = new_JsonlSessionStorage (jl_filePath s) (header_of s) (jl_entries s) (last_leaf (jl_entries s)) /\
  file_text fs (jl_filePath s) = Some (log_text (header_of s) (jl_entries s)).

Lemma open_in_file s fs c fs' : header_fine (header_of s) -> Forall entry_fine (jl_entries s) -> in_file s fs ->
  readTextFile (jl_filePath s) fs = (Ok c, fs') -> jsonl_open (jl_filePath s) fs = (Ok (Some s), fs').
Proof.
  intros Hh Hes [Hs Hf] Hr. unfold jsonl_open. rewrite Hr. cbn [getFileSystemResultOrThrow].
  pose proof (read_content _ _ _ _ Hr) as Hc. rewrite Hf in Hc. injection Hc as <-.
  rewrite parse_session_log, json_entries_log by done. by rewrite <- Hs.
Qed.

(** A new session is a file with its header, under the directory of its working
    directory; other files stay. *)
Lemma new_session_in_file cwd id parent (w w' : repo_world FS) s :
  new_session sessionsRootInput cwd id parent w = (Ok s, w') -> header_fine (header_of s) ->
  in_file s (rp_fs w') /\ jl_entries s = [] /\ jm_id (jl_metadata s) = id /\ jm_cwd (jl_metadata s) = cwd /\
  jm_parentSessionPath (jl_metadata s) = parent /\ jm_path (jl_metadata s) = jl_filePath s /\
  forall q, apart (jl_filePath s) q -> texts w' q = texts w q.
Proof.
  intros E Hh. unfold new_session in E.
  apply bind_Ok in E as (createdAt & w1 & E1 & E). apply bind_Ok in E as (dir & w2 & E2 & E).
  apply bind_Ok in E as ([] & w3 & E3 & E). apply bind_Ok in E as (path & w4 & E4 & E). apply bind_Ok in E as (now & w5 & E5 & E).
  assert (Hkeep : forall q, texts w5 q = texts w q).
  { intros q. rewrite (reads_timestamp _ _ _ E5), (reads_filePath _ _ _ _ _ _ E4).
    rewrite (reads_fs_call _ _ (createDir_keeps dir) _ _ _ E3), (reads_sessionDir _ _ _ _ E2). by apply reads_timestamp in E1. }
  unfold fs_run, jsonl_create in E. destruct (writeFile _ _ _) as [[[]|e] fs1] eqn:Ew; [|done]. injection E as <- <-.
  split_and!; try done.
  - pose proof (write_content _ _ _ _ (line_well_paired _ (header_json_ok _ Hh)) Ew) as Hf.
    split; [done|]. change (file_text fs1 path = Some (log_text (mkHeader id now cwd parent) [])). rewrite Hf. f_equal.
    symmetry. exact (app_nil_r _).
  - intros q Hq. cbn [rp_fs set_fs]. rewrite (write_frame _ _ _ _ _ _ Hq Ew). apply Hkeep.
Qed.

(** Appending entries that can be written to a session that is in its file. *)
Lemma append_in_file es s (w : world (jsonl_store FS)) w' :
  storage_of w = s -> in_file s (js_fs (w_storage w)) -> Forall entry_fine es ->
  for_each es appendEntry w = (Ok tt, w') ->
  in_file (storage_of w') (js_fs (w_storage w')) /\ jl_entries (storage_of w') = jl_entries s ++ es /\
  jl_metadata (storage_of w') = jl_metadata s /\ jl_filePath (storage_of w') = jl_filePath s /\ w_ids w' = w_ids w /\
  forall q, apart (jl_filePath s) q -> file_text (js_fs (w_storage w')) q = file_text (js_fs (w_storage w)) q.
Proof.
  intros <- Hin Hes. revert w Hin. induction Hes as [|e es He Hes IH]; intros w Hin E.
  { injection E as <-. rewrite app_nil_r. done. }
  cbn [for_each] in E. apply bind_Ok in E as ([] & w1 & E1 & E). cbn in E1. unfold jsonl_appendEntry in E1.
  apply bind_Ok in E1 as ([] & w0 & Ea & E1).
  destruct (append_line_cases (to_json e) (js "Failed to append session entry " ++ e_id e) w) as [(fs' & Ea' & Hf)|(err & fs' & Ea')];
    rewrite Ea' in Ea; [|done]. injection Ea as <-. injection E1 as <-. destruct Hin as [Hs Ht].
  assert (Hin1 : in_file (mkJsonl (jl_filePath (storage_of w)) (jl_metadata (storage_of w)) (jl_entries (storage_of w) ++ [e])
      (<[e_id e := e]> (jl_byId (storage_of w))) (updateLabelCache (jl_labelsById (storage_of w)) e) (leafIdAfterEntry e)) fs').
  { split; cbn [jl_filePath jl_entries jl_metadata header_of].
    - rewrite Hs. unfold new_JsonlSessionStorage at 1. cbn [jl_filePath jl_metadata jl_entries jl_byId jl_labelsById].
      unfold new_JsonlSessionStorage. rewrite index_snoc, labels_snoc, last_leaf_snoc. by f_equal.
    - unfold header_of. cbn [jl_metadata]. rewrite log_text_snoc.
      eapply append_content; [apply line_well_paired, (codec_json e), He|exact Ht|exact Hf]. }
  assert (Hr := fun H => IH _ H E). destruct (Hr Hin1) as (R1 & R2 & R3 & R4 & R5 & R6). split_and!; try done.
  - rewrite R2. cbn [storage_of w_storage js_storage jl_entries]. by rewrite <- app_assoc.
  - intros q Hq. rewrite R6 by done. cbn [w_storage js_fs]. by eapply append_frame.
Qed.

Lemma append_metadata es (w w' : world (jsonl_store FS)) :
  for_each es appendEntry w = (Ok tt, w') -> jl_metadata (storage_of w') = jl_metadata (storage_of w).
Proof.
  revert w. induction es as [|e es IH]; intros w E; [by injection E as <-|].
  apply bind_Ok in E as ([] & w1 & E1 & E). rewrite (IH _ E). apply bind_Ok in E1 as ([] & w0 & Ea & E1).
  destruct (append_line_cases (to_json e) (js "Failed to append session entry " ++ e_id e) w) as [(fs' & Ea' & _)|(err & fs' & Ea')];
    rewrite Ea' in Ea; [|done]. injection Ea as <-. by injection E1 as <-.
Qed.

(** What [getEntriesToFork] reads is in the log. *)
Lemma fork_entries_in entryId at_target (w : world (jsonl_store FS)) es w' :
  wf_log (jl_entries (storage_of w)) -> jl_byId (storage_of w) = index_entries (jl_entries (storage_of w)) ->
  getEntriesToFork entryId at_target w = (Ok es, w') -> w' = w /\ forall e, e ∈ es -> e ∈ jl_entries (storage_of w).
Proof.
  intros Hwf Hidx. unfold getEntriesToFork. destruct entryId as [[|c id]|]; [by intros [= <- <-]| |by intros [= <- <-]].
  intros E. apply bind_Ok in E as (t & w1 & E1 & E). injection E1 as <- <-.
  destruct (jl_byId (storage_of w) !! (c :: id)) as [t|]; [|done].
  assert (Hw : forall l, getPathToRoot l w = (Ok es, w') -> w' = w /\ forall e, e ∈ es -> e ∈ jl_entries (storage_of w)).
  { intros l. cbn. unfold jsonl_getPathToRoot. rewrite Hidx. destruct (walk_to_root _ l) eqn:Ew; [|done]. intros [= <- <-].
    split; [done|]. apply (walk_sound _ _ _ Hwf Ew). }
  destruct at_target; [by eapply Hw|]. destruct (e_body t) as [[]| | | | | | | | | |]; try done. by eapply Hw.
Qed.

(** A session of a repository: in its file, with what can be read back. *)
Record kept_session (s : JsonlSessionStorage) (fs : FS) : Prop := {
  ks_file : in_file s fs;
  ks_header : header_fine (header_of s);
  ks_entries : Forall entry_fine (jl_entries s);
  ks_path : jm_path (jl_metadata s) = jl_filePath s;
}.

(** A storage that is in step with its file is such a session. *)
Lemma on_disk_kept path h k (w : world (jsonl_store FS)) : header_fine h -> store_inv k w -> on_disk path h w ->
  kept_session (storage_of w) (js_fs (w_storage w)).
Proof.
  intros Hh Hi [Hp Hf Hes Hm].
  assert (Hho : header_of (storage_of w) = h) by (unfold header_of; rewrite Hm; by destruct h).
  split; [split| | |].
  - rewrite Hho. unfold new_JsonlSessionStorage.
    rewrite Hp, <- Hm, <- (jsonl_index k w Hi), <- (jsonl_labels k w Hi), <- (jsonl_leaf k w Hi), <- Hp. by destruct (storage_of w).
  - by rewrite Hho, Hp.
  - by rewrite Hho.
  - done.
  - by rewrite Hm, Hp.
Qed.

(** [open] of its metadata, when it returns, gives the session. *)
Lemma repo_open_kept s (w w' : repo_world FS) o :
  kept_session s (rp_fs w) -> repo_open (jl_metadata s) w = (Ok o, w') ->
  o = Some s /\ forall q, texts w' q = texts w q.
Proof.
  intros Hk E. unfold repo_open in E. apply bind_Ok in E as (found & w1 & E1 & E). rewrite (ks_path _ _ Hk) in *.
  pose proof (reads_fs_call _ _ (exists_keeps (jl_filePath s)) _ _ _ E1) as Hq. destruct found; [|done].
  unfold fs_run in E. destruct (jsonl_open _ _) as [r fs1] eqn:Eo.
  destruct (readTextFile (jl_filePath s) (rp_fs w1)) as [[c|e] fs2] eqn:Er.
  - assert (Hin : in_file s (rp_fs w1)) by (destruct (ks_file _ _ Hk) as [? Hf]; split; [done|by rewrite Hq]).
    rewrite (open_in_file s _ c fs2 (ks_header _ _ Hk) (ks_entries _ _ Hk) Hin Er) in Eo. injection Eo as <- <-.
    injection E as <- <-. split; [done|]. intros q. cbn [rp_fs set_fs]. by rewrite (read_keeps _ _ _ _ Er), Hq.
  - unfold jsonl_open in Eo. rewrite Er in Eo. injection Eo as <- <-. done.
Qed.

Lemma repo_open_ids m (w w' : repo_world FS) o : repo_open m w = (Ok o, w') -> rp_ids w' = rp_ids w.
Proof.
  intros E. apply bind_Ok in E as (found & w1 & E1 & E). unfold fs_call in E1. destruct (exists_ _ _) as [r fs1].
  injection E1 as _ <-. destruct found; [|done]. unfold fs_run in E. destruct (jsonl_open _ _) as [r2 fs2]. by injection E as _ <-.
Qed.

(** A session that [create] makes is a file of the repository: opening its
    metadata gives the same storage back, and files at other paths are as before. *)
Theorem repo_create_open id cwd parent (w w' : repo_world FS) s o w2 :
  repo_create sessionsRootInput id cwd parent w = (Ok s, w') -> header_fine (header_of s) ->
  repo_open (jl_metadata s) w' = (Ok o, w2) ->
  o = Some s /\ jl_entries s = [] /\ jm_cwd (jl_metadata s) = cwd /\ jm_parentSessionPath (jl_metadata s) = parent /\
  (forall i, id = Some i -> jm_id (jl_metadata s) = i) /\
  forall q, apart (jl_filePath s) q -> texts w2 q = texts w q.
Proof.
  intros E Hh Ho. apply bind_Ok in E as (i & w1 & E1 & E).
  destruct (new_session_in_file _ _ _ _ _ _ E Hh) as (Hin & He & Hi & Hc & Hp & Hpath & Hq).
  assert (Hk : kept_session s (rp_fs w')) by (split; try done; by rewrite He).
  destruct (repo_open_kept s w' w2 o Hk Ho) as [-> Hr]. split_and!; try done.
  - intros j ->. by injection E1 as <- _.
  - intros q Ha. rewrite Hr, (Hq q Ha). exact (reads_given_id id _ _ _ E1 q).
Qed.

Lemma on_session_Ok {A} s (c : M (world (jsonl_store FS)) SessionError A) w a s' w' :
  on_session s c w = (Ok (a, s'), w') ->
  exists cw, c (mkWorld (mkJsonlStore s (rp_fs w)) (rp_ids w)) = (Ok a, cw) /\ s' = storage_of cw /\
    rp_fs w' = js_fs (w_storage cw).
Proof.
  unfold on_session. destruct (c _) as [[x|e] cw]; [|done]. intros [= <- <- <-]. by exists cw.
Qed.

(** Forking a session of a repository at an entry.  The new session holds
    the entries that [getEntriesToFork] selects from the source, names it as its
    parent unless told otherwise, and is in its own file: opening it gives it
    back.  When the two paths address different files the source is as it was. *)
Theorem repo_fork_file src id entryId cwd parent at_target (w w' : repo_world FS) s :
  kept_session src (rp_fs w) -> wf_log (jl_entries src) ->
  repo_fork sessionsRootInput (jl_metadata src) id entryId cwd parent at_target w = (Ok (Some s), w') ->
  header_fine (header_of s) ->
  (exists fs', (getEntriesToFork entryId at_target (mkWorld (mkJsonlStore src fs') (rp_ids w))).1 = Ok (jl_entries s)) /\
  jm_parentSessionPath (jl_metadata s) = Some (default (jl_filePath src) parent) /\
  jm_cwd (jl_metadata s) = default (jm_cwd (jl_metadata src)) cwd /\
  (forall o w2, repo_open (jl_metadata s) w' = (Ok o, w2) -> o = Some s) /\
  (apart (jl_filePath s) (jl_filePath src) -> kept_session src (rp_fs w')).
Proof.
  intros Hk Hwf E Hh. apply bind_Ok in E as (opened & w1 & E1 & E).
  destruct (repo_open_kept _ _ _ _ Hk E1) as [-> Hq1].
  apply bind_Ok in E as ([es s1] & w2 & E2 & E). apply bind_Ok in E as (i & w3 & E3 & E).
  apply bind_Ok in E as (s0 & w4 & E4 & E). apply bind_Ok in E as ([[] s5] & w5 & E5 & E). injection E as <- <-.
  apply on_session_Ok in E2 as (cw & E2 & _ & Hfs2). apply on_session_Ok in E5 as (cw5 & E5 & -> & Hfs5).
  destruct (ks_file _ _ Hk) as [Hnew _].
  destruct (fork_entries_in _ _ (mkWorld (mkJsonlStore src (rp_fs w1)) (rp_ids w1)) _ _ Hwf (f_equal jl_byId Hnew) E2) as [-> Hsub].
  pose proof (append_metadata _ _ _ E5) as Hm. cbn [storage_of w_storage js_storage] in Hm. unfold header_of in Hh. rewrite Hm in Hh.
  destruct (new_session_in_file _ _ _ _ _ _ E4 Hh) as (Hin & He & _ & Hc & Hp & Hpath & Hq4).
  assert (Hes : Forall entry_fine es).
  { apply Forall_forall. intros e Hin'. pose proof (ks_entries _ _ Hk) as Hf. rewrite Forall_forall in Hf. by apply Hf, Hsub. }
  destruct (append_in_file es s0 (mkWorld (mkJsonlStore s0 (rp_fs w4)) (rp_ids w4)) _ eq_refl Hin Hes E5) as (R1 & R2 & R3 & R4 & R5 & R6). rewrite He in R2. cbn [app] in R2.
  assert (Hq : forall q, apart (jl_filePath s0) q -> texts w5 q = texts w q).
  { intros q Ha. rewrite Hfs5, (R6 q Ha). cbn [w_storage js_fs]. rewrite (Hq4 q Ha), (reads_given_id _ _ _ _ E3), Hfs2. apply Hq1. }
  split_and!.
  - exists (rp_fs w1). rewrite R2, <- (repo_open_ids _ _ _ _ E1). by rewrite E2.
  - rewrite Hm, Hp. by rewrite (ks_path _ _ Hk).
  - by rewrite Hm.
  - intros o w6 Ho. refine (proj1 (repo_open_kept _ w5 w6 o _ Ho)). split.
    + by rewrite Hfs5.
    + unfold header_of. by rewrite Hm.
    + by rewrite R2.
    + by rewrite Hm, R4.
  - rewrite R4. intros Ha. destruct Hk as [[Hk1 Hk2] ? ? ?]. split; try done. split; [done|]. by rewrite (Hq _ Ha).
Qed.
End Files.

(** ** In memory *)

Lemma map_get_set {A} k (v : A) m : map_get k (map_set k v m) = Some v.
Proof.
  unfold map_get, map_set. destruct (has_key k m) eqn:E.
  - apply has_key_elem in E. induction m as [|[k' v'] m IH]; [by apply elem_of_nil in E|]. cbn [replace_prop fst].
    case_bool_decide as Hk.
    + cbn [List.find fst]. by rewrite bool_decide_eq_true_2.
    + cbn [List.find fst]. rewrite bool_decide_eq_false_2 by done. apply IH. apply elem_of_cons in E as [->|E]; done.
  - assert (Hn : k ∉ m.*1) by (intros Hin; apply has_key_elem in Hin; congruence).
    clear E. induction m as [|[k' v'] m IH]; cbn [app List.find fst]; [by rewrite bool_decide_eq_true_2|].
    apply not_elem_of_cons in Hn as [Hk Hn]. rewrite bool_decide_eq_false_2 by (intros ->; done). by apply IH.
Qed.

Lemma fork_reads entryId at_target (w w' : world InMemorySessionStorage) r :
  getEntriesToFork entryId at_target w = (r, w') -> w' = w.
Proof.
  unfold getEntriesToFork. destruct entryId as [[|c id]|]; [by intros [= _ <-]| |by intros [= _ <-]]. unfold bind. cbn.
  destruct (byId (w_storage w) !! _) as [t|]; [|by intros [= _ <-]]. destruct at_target; [by intros [= _ <-]|].
  destruct (e_body t) as [[]| | | | | | | | | |]; by intros [= _ <-].
Qed.

(** Forking a session in memory makes a new session whose storage holds the
    entries selected from the source, registered under its id; the storages of all
    earlier sessions stay as they were, whatever is then done to the fork. *)
Theorem mem_fork_isolated source id entryId at_target (w w' : mem_repo) s :
  mem_fork source id entryId at_target w = (Ok s, w') ->
  mem_open (mm_metadata s) w' = (Ok s, w') /\
  (exists src storage st es, map_get (sm_id source) (mr_sessions w) = Some src /\ mr_heap w !! mm_ref src = Some storage /\
     (getEntriesToFork entryId at_target (mkWorld storage (mr_ids w))).1 = Ok es /\
     new_InMemorySessionStorage es = Ok st /\ mr_heap w' !! mm_ref s = Some st) /\
  forall A (c : M (world InMemorySessionStorage) SessionError A) r w2 ref, on_mem s c w' = (r, w2) ->
    (ref < length (mr_heap w))%nat -> mr_heap w2 !! ref = mr_heap w !! ref.
Proof.
  intros E. apply bind_Ok in E as (src & w1 & E1 & E). unfold mem_open in E1.
  destruct (map_get _ _) as [src'|] eqn:Eg; [|done]. injection E1 as <- <-.
  apply bind_Ok in E as (es & w1 & E1 & E). unfold on_mem in E1. destruct (mr_heap w !! mm_ref src') as [storage|] eqn:Eh; [|done].
  destruct (getEntriesToFork _ _ _) as [r0 cw] eqn:Ef. injection E1 as -> <-.
  pose proof (fork_reads _ _ _ _ _ Ef) as ->. cbn [w_storage w_ids] in E. rewrite list_insert_id in E by done.
  unfold mem_register in E. apply bind_Ok in E as (i & w2 & E2 & E). apply bind_Ok in E as (t & w3 & E3 & E).
  assert (Hh : mr_heap w3 = mr_heap w).
  { injection E3 as _ <-. cbn [mr_heap]. destruct id as [id|]; cbn in E2; [by injection E2 as _ <-|].
    destruct (next_uuid _). by injection E2 as _ <-. }
  destruct (new_InMemorySessionStorage es) as [st|e] eqn:Est; [|done]. injection E as <- <-. split_and!.
  - unfold mem_open. cbn [mm_metadata sm_id mr_sessions]. by rewrite map_get_set.
  - exists src', storage, st, es. split_and!; try done; [by rewrite Ef|]. cbn [mr_heap mm_ref]. by rewrite lookup_app_r, Nat.sub_diag.
  - intros A c r w4 ref Eo Hlt. unfold on_mem in Eo. cbn [mr_heap mm_ref] in Eo.
    rewrite lookup_app_r, Nat.sub_diag in Eo by done. cbn [lookup list_lookup] in Eo.
    destruct (c _) as [rc wc]. injection Eo as _ <-. cbn [mr_heap].
    rewrite list_lookup_insert_ne by (rewrite Hh; lia). rewrite Hh. by apply lookup_app_l.
Qed.

(** ** Concrete repositories *)

Module RepoSample.
Import JsonlSample.

#[export] Instance files_Repo : RepoFileSystem files := {|
  absolutePath p fs := (Ok (js "/" ++ p), fs);
  joinPath ps fs := (Ok (join (js "/") ps), fs);
  listDir p fs := (Ok (map (fun kv => mkFileInfo kv.1 kv.1 KindFile)
                         (List.filter (fun kv => starts_with (p ++ js "/") kv.1) (map_to_list fs))), fs);
  exists_ p fs := (Ok (match fs !! p with Some _ => true | None => false end), fs);
  createDir p fs := (Ok tt, fs);
  remove p fs := (Ok tt, delete p fs);
|}.

#[export, refine] Instance files_RepoOk : RepoFileSystemOk files := {| apart p q := p <> q |}.
Proof.
  - intros p q t fs r fs' Hne [= _ <-]. by apply lookup_insert_ne.
  - intros p q t fs r fs' Hne. cbn. destruct (fs !! p); intros [= _ <-]; [by apply lookup_insert_ne|done].
  - by intros p fs r fs' [= _ <-].
  - by intros p fs r fs' [= _ <-].
  - by intros p fs r fs' [= _ <-].
  - by intros ps fs r fs' [= _ <-].
  - by intros p fs r fs' [= _ <-].
Defined.

Definition root : jsstr := js "sessions".
Definition start (fs : files) : repo_world files := mkRepo fs Sample.ids None (fun _ => Sample.now) 0.

Definition made : result SessionError JsonlSessionStorage * repo_world files := repo_create root (Some sid) cwd None (start ∅).
Definition no_session : JsonlSessionStorage := new_JsonlSessionStorage [] (mkHeader [] [] [] None) [] None.
Definition made_session : JsonlSessionStorage := match made.1 with Ok s => s | Throw _ => no_session end.
Definition opened : result SessionError (option JsonlSessionStorage) * repo_world files := repo_open (jl_metadata made_session) made.2.

(** A call that returned, from a computed test. *)
Ltac returned E := apply (f_equal (fun r => match r.1 with Ok _ => true | Throw _ => false end)) in E; vm_compute in E; done.

Lemma made_ran : made = (Ok made_session, made.2).
Proof. unfold made_session. destruct made as [[s|e] w] eqn:E; [done|returned E]. Qed.

Lemma repo_create_open_witness : opened.1 = Ok (Some made_session) /\ jl_entries made_session = [].
Proof.
  destruct opened as [[o|e] w2] eqn:E; [|returned E].
  destruct (repo_create_open root (Some sid) cwd None (start ∅) made.2 made_session o w2 made_ran) as (-> & H1 & _).
  - assert (Eh : header_of made_session = mkHeader sid Sample.now cwd None) by (vm_compute; reflexivity).
    rewrite Eh. repeat split; first [apply js_wf|done].
  - exact E.
  - split; [reflexivity|exact H1].
Defined.

(** The session of [JsonlSample], forked at its first entry. *)
Definition source : JsonlSessionStorage := storage_of last_world.
Definition source_fs : files := js_fs (w_storage last_world).
Definition first_id : jsstr := default [] (e_id <$> head (jl_entries source)).
Definition forked : result SessionError (option JsonlSessionStorage) * repo_world files :=
  repo_fork root (jl_metadata source) (Some (js "fork-1")) (Some first_id) None None true (start source_fs).
Definition fork : JsonlSessionStorage :=
  match forked.1 with Ok (Some s) => s | _ => no_session end.

Lemma source_kept : kept_session source source_fs /\ wf_log (jl_entries source).
Proof.
  assert (Hh : header_fine (mkHeader sid Sample.now cwd None)) by (repeat split; first [apply js_wf|done]).
  assert (Ec : jsonl_create path cwd sid None Sample.now ∅ = (Ok (storage_of first_world), created.2)) by reflexivity.
  destruct (on_disk_create path cwd sid None Sample.now ∅ (storage_of first_world) created.2 Sample.ids _ Hh clock Ec) as [Hd Hi].
  destruct (on_disk_run path ops 10 _ _ _ Hi Hd ops_fine ran) as [Hd' Hi'].
  split; [exact (on_disk_kept path _ 10 last_world Hh Hi' Hd')|exact (store_wf 10 last_world Hi')].
Qed.

Lemma fork_ran : forked = (Ok (Some fork), forked.2).
Proof.
  unfold fork. destruct forked as [[[s|]|e] w] eqn:E; [done|..];
    apply (f_equal (fun r => match r.1 with Ok (Some _) => true | _ => false end)) in E; vm_compute in E; done.
Qed.

Lemma repo_fork_file_witness :
  jm_parentSessionPath (jl_metadata fork) = Some path /\ (forall o w2, repo_open (jl_metadata fork) forked.2 = (Ok o, w2) -> o = Some fork) /\
  kept_session source (rp_fs forked.2).
Proof.
  destruct source_kept as [Hk Hwf].
  destruct (repo_fork_file root source (Some (js "fork-1")) (Some first_id) None None true (start source_fs) forked.2 fork Hk Hwf fork_ran)
    as (_ & H1 & _ & H2 & H3).
  - assert (E : header_of fork = mkHeader (js "fork-1") Sample.now cwd (Some path)) by (vm_compute; reflexivity).
    rewrite E. repeat split; first [apply js_wf|done].
  - split; [exact H1|]. split; [exact H2|]. apply H3. vm_compute. discriminate.
Defined.

Definition mem_start : mem_repo := mkMemRepo [] [] Sample.ids (fun _ => Sample.now) 0.
Definition mem_two : mem_repo := (mem_create (Some (js "a")) mem_start).2.
Definition mem_forked : result SessionError mem_session * mem_repo := mem_fork (mkMetadata (js "a") Sample.now) (Some (js "b")) None true mem_two.

Lemma mem_fork_isolated_witness : mem_open (mkMetadata (js "b") Sample.now) mem_forked.2
  = (Ok (mkMemSession (mkMetadata (js "b") Sample.now) 1), mem_forked.2).
Proof.
  apply (mem_fork_isolated (mkMetadata (js "a") Sample.now) (Some (js "b")) None true mem_two mem_forked.2
    (mkMemSession (mkMetadata (js "b") Sample.now) 1)). reflexivity.
Defined.
End RepoSample.
