(* ===== verification/HarnessState.v ===== *)
(** State of the agent harness ([harness/agent-harness.ts]): its errors, stream
    options and their patches, the checks of tool names, and the fields of the
    object. *)
From S2P Require Import Prelude JsString Json JsonParse Effects Messages SessionTree Compaction BranchSummary.
From S2P Require Import PromptTemplates Protocol LoopTypes Queue.
#[local] Open Scope Z_scope.
#[local] Open Scope eff.

(** ** Errors *)

Inductive AgentHarnessErrorCode :=
  | he_busy | he_invalid_state | he_invalid_argument | he_session | he_hook | he_auth | he_compaction | he_branch_summary | he_unknown.

(** What code may throw: the errors of the subsystems, those of the harness, and
    any other [Error]. *)
Inductive thrown :=
  | TSession (e : SessionError)
  | TCompaction (e : CompactionError)
  | TBranchSummary (e : BranchSummaryError)
  | THarness (code : AgentHarnessErrorCode) (message : jsstr)
  | TError (message : jsstr).

Definition thrown_message (e : thrown) : jsstr :=
  match e with
  | TSession e => se_message e
  | TCompaction e => ce_message e
  | TBranchSummary e => bse_message e
  | THarness _ m | TError m => m
  end.

Definition normalizeHarnessError (e : thrown) (fallbackCode : AgentHarnessErrorCode) : thrown :=
  match e with
  | THarness _ _ => e
  | TSession e => THarness he_session (se_message e)
  | TCompaction e => THarness he_compaction (ce_message e)
  | TBranchSummary e => THarness he_branch_summary (bse_message e)
  | TError m => THarness fallbackCode m
  end.

Definition normalizeHookError (e : thrown) : thrown := normalizeHarnessError e he_hook.

(** ** Stream options *)

Record AgentHarnessStreamOptions := mkHarnessStream {
  ho_transport : option jsstr; ho_timeoutMs : option Z; ho_maxRetries : option Z; ho_maxRetryDelayMs : option Z;
  ho_headers : option (list (jsstr * jsstr)); ho_metadata : option (list (jsstr * json)); ho_cacheRetention : option jsstr;
}.

(** A patch: [None] for a property it does not have, [Some None] for one that is
    [undefined]. *)
Record AgentHarnessStreamOptionsPatch := mkStreamPatch {
  hp_transport : option (option jsstr); hp_timeoutMs : option (option Z); hp_maxRetries : option (option Z);
  hp_maxRetryDelayMs : option (option Z);
  hp_headers : option (option (list (jsstr * option jsstr))); hp_metadata : option (option (list (jsstr * option json)));
  hp_cacheRetention : option (option jsstr);
}.

(** [Object.assign(merged, entry)], property by property. *)
Definition assign_all {A} (m entry : list (jsstr * A)) : list (jsstr * A) :=
  fold_left (fun m kv => if bool_decide (kv.1 = js "__proto__") then m else define_prop kv.1 kv.2 m) entry m.

Definition mergeHeaders (headers : list (option (list (jsstr * jsstr)))) : option (list (jsstr * jsstr)) :=
  if existsb (fun h => match h with Some _ => true | None => false end) headers
  then Some (fold_left assign_all (omap id headers) []) else None.

(** The loop over [Object.entries(patch)]. *)
Definition patch_props {A} (m : list (jsstr * A)) (patch : list (jsstr * option A)) : list (jsstr * A) :=
  fold_left (fun m kv => match kv.2 with
                         | None => List.filter (fun kv' => negb (bool_decide (kv'.1 = kv.1))) m
                         | Some v => assign_all m [(kv.1, v)]
                         end) patch m.

Definition patch_map {A} (base : option (list (jsstr * A))) (patch : option (option (list (jsstr * option A))))
    : option (list (jsstr * A)) :=
  match patch with
  | None => base
  | Some None => None
  | Some (Some entries) => match patch_props (default [] base) entries with [] => None | m => Some m end
  end.

Definition applyStreamOptionsPatch (base : AgentHarnessStreamOptions) (patch : option AgentHarnessStreamOptionsPatch)
    : AgentHarnessStreamOptions :=
  match patch with
  | None => base
  | Some p =>
      mkHarnessStream (default (ho_transport base) (hp_transport p)) (default (ho_timeoutMs base) (hp_timeoutMs p))
        (default (ho_maxRetries base) (hp_maxRetries p)) (default (ho_maxRetryDelayMs base) (hp_maxRetryDelayMs p))
        (patch_map (ho_headers base) (hp_headers p)) (patch_map (ho_metadata base) (hp_metadata p))
        (default (ho_cacheRetention base) (hp_cacheRetention p))
  end.

(** ** Names *)

(** [findDuplicateNames], with the names seen and the duplicates found so far. *)
Fixpoint duplicate_loop (names seen duplicates : list jsstr) : list jsstr :=
  match names with
  | [] => duplicates
  | n :: names' =>
      duplicate_loop names' (n :: seen)
        (if bool_decide (n ∈ seen) && negb (bool_decide (n ∈ duplicates)) then duplicates ++ [n] else duplicates)
  end.
Definition findDuplicateNames (names : list jsstr) : list jsstr := duplicate_loop names [] [].

Definition comma_list (names : list jsstr) : jsstr := join (js ", ") names.

Definition unique_names (names : list jsstr) (message : string) : result thrown unit :=
  match findDuplicateNames names with
  | [] => Ok tt
  | duplicates => Throw (THarness he_invalid_argument (js message ++ js ": " ++ comma_list duplicates))
  end.

Definition known_names (toolNames : list jsstr) (tools : list jsstr) : result thrown unit :=
  match unique_names toolNames "Duplicate active tool name(s)" with
  | Throw e => Throw e
  | Ok _ =>
      match List.filter (fun n => negb (bool_decide (n ∈ tools))) toolNames with
      | [] => Ok tt
      | missing => Throw (THarness he_invalid_argument (js "Unknown tool(s): " ++ comma_list missing))
      end
  end.

(** ** State *)

Inductive AgentHarnessPhase := phase_idle | phase_turn | phase_compaction | phase_branch_summary | phase_retry.
#[global] Instance AgentHarnessPhase_eq : EqDecision AgentHarnessPhase.
Proof. solve_decision. Defined.

(** A [PendingSessionWrite] is an entry without its generated fields. *)
Abbreviation PendingSessionWrite := entry_body.

(** A queue; [mq_array] tells apart the arrays that have stood for it. *)
Record message_queue := mkMessageQueue { mq_items : list AgentMessage; mq_array : nat; mq_mode : QueueMode }.

(** Tool objects are referred to by number. *)
Abbreviation tool_ref := nat.

Record AgentHarnessTurnState := mkTurnState {
  ts_messages : list AgentMessage; ts_resources : AgentHarnessResources; ts_streamOptions : AgentHarnessStreamOptions;
  ts_sessionId : jsstr; ts_systemPrompt : jsstr; ts_model : Model; ts_thinkingLevel : jsstr;
  ts_tools : list tool_ref; ts_activeTools : list tool_ref;
}.

(** What the closures of a run share: the flag of its abort controller, and the
    variable [activeTurnState]. *)
Record run_variables := mkRun { rv_aborted : bool; rv_activeTurnState : AgentHarnessTurnState }.

(** [h_runs] holds the variables of the runs started so far; the controllers are
    referred to by their position in it.  [h_user] is the state of the application. *)
Record AgentHarness (S U : Type) := mkHarness {
  h_session : world S;
  h_phase : AgentHarnessPhase;
  h_runAbortController : option nat;
  h_runPromise : bool;
  h_pendingSessionWrites : list PendingSessionWrite;
  h_model : Model;
  h_thinkingLevel : jsstr;
  h_streamOptions : AgentHarnessStreamOptions;
  h_resources : AgentHarnessResources;
  h_tools : list (jsstr * tool_ref);
  h_activeToolNames : list jsstr;
  h_steerQueue : message_queue;
  h_followUpQueue : message_queue;
  h_nextTurnQueue : list AgentMessage;
  h_completionMode : option CompletionMode;
  h_runs : list run_variables;
  h_user : U;
}.

Arguments mkHarness {S U}. Arguments h_session {S U}. Arguments h_phase {S U}. Arguments h_runAbortController {S U}. Arguments h_runPromise {S U}. Arguments h_pendingSessionWrites {S U}.
Arguments h_model {S U}. Arguments h_thinkingLevel {S U}. Arguments h_streamOptions {S U}. Arguments h_resources {S U}. Arguments h_tools {S U}. Arguments h_activeToolNames {S U}.
Arguments h_steerQueue {S U}. Arguments h_followUpQueue {S U}. Arguments h_nextTurnQueue {S U}. Arguments h_completionMode {S U}. Arguments h_runs {S U}. Arguments h_user {S U}.

(** Assignments to one field. *)
Section Setters.
Context {S U : Type}.

Definition set_session (w : world S) (h : AgentHarness S U) : AgentHarness S U :=
  mkHarness w (h_phase h) (h_runAbortController h) (h_runPromise h) (h_pendingSessionWrites h) (h_model h)
    (h_thinkingLevel h) (h_streamOptions h) (h_resources h) (h_tools h) (h_activeToolNames h) (h_steerQueue h)
    (h_followUpQueue h) (h_nextTurnQueue h) (h_completionMode h) (h_runs h) (h_user h).
Definition set_phase (p : AgentHarnessPhase) (h : AgentHarness S U) : AgentHarness S U :=
  mkHarness (h_session h) p (h_runAbortController h) (h_runPromise h) (h_pendingSessionWrites h) (h_model h)
    (h_thinkingLevel h) (h_streamOptions h) (h_resources h) (h_tools h) (h_activeToolNames h) (h_steerQueue h)
    (h_followUpQueue h) (h_nextTurnQueue h) (h_completionMode h) (h_runs h) (h_user h).
Definition set_abort (c : option nat) (h : AgentHarness S U) : AgentHarness S U :=
  mkHarness (h_session h) (h_phase h) c (h_runPromise h) (h_pendingSessionWrites h) (h_model h) (h_thinkingLevel h)
    (h_streamOptions h) (h_resources h) (h_tools h) (h_activeToolNames h) (h_steerQueue h) (h_followUpQueue h)
    (h_nextTurnQueue h) (h_completionMode h) (h_runs h) (h_user h).
Definition set_running (b : bool) (h : AgentHarness S U) : AgentHarness S U :=
  mkHarness (h_session h) (h_phase h) (h_runAbortController h) b (h_pendingSessionWrites h) (h_model h)
    (h_thinkingLevel h) (h_streamOptions h) (h_resources h) (h_tools h) (h_activeToolNames h) (h_steerQueue h)
    (h_followUpQueue h) (h_nextTurnQueue h) (h_completionMode h) (h_runs h) (h_user h).
Definition set_pending (l : list PendingSessionWrite) (h : AgentHarness S U) : AgentHarness S U :=
  mkHarness (h_session h) (h_phase h) (h_runAbortController h) (h_runPromise h) l (h_model h) (h_thinkingLevel h)
    (h_streamOptions h) (h_resources h) (h_tools h) (h_activeToolNames h) (h_steerQueue h) (h_followUpQueue h)
    (h_nextTurnQueue h) (h_completionMode h) (h_runs h) (h_user h).
Definition set_model (m : Model) (h : AgentHarness S U) : AgentHarness S U :=
  mkHarness (h_session h) (h_phase h) (h_runAbortController h) (h_runPromise h) (h_pendingSessionWrites h) m
    (h_thinkingLevel h) (h_streamOptions h) (h_resources h) (h_tools h) (h_activeToolNames h) (h_steerQueue h)
    (h_followUpQueue h) (h_nextTurnQueue h) (h_completionMode h) (h_runs h) (h_user h).
Definition set_thinking (l : jsstr) (h : AgentHarness S U) : AgentHarness S U :=
  mkHarness (h_session h) (h_phase h) (h_runAbortController h) (h_runPromise h) (h_pendingSessionWrites h) (h_model h)
    l (h_streamOptions h) (h_resources h) (h_tools h) (h_activeToolNames h) (h_steerQueue h)
    (h_followUpQueue h) (h_nextTurnQueue h) (h_completionMode h) (h_runs h) (h_user h).
Definition set_stream (o : AgentHarnessStreamOptions) (h : AgentHarness S U) : AgentHarness S U :=
  mkHarness (h_session h) (h_phase h) (h_runAbortController h) (h_runPromise h) (h_pendingSessionWrites h) (h_model h)
    (h_thinkingLevel h) o (h_resources h) (h_tools h) (h_activeToolNames h) (h_steerQueue h)
    (h_followUpQueue h) (h_nextTurnQueue h) (h_completionMode h) (h_runs h) (h_user h).
Definition set_resources (r : AgentHarnessResources) (h : AgentHarness S U) : AgentHarness S U :=
  mkHarness (h_session h) (h_phase h) (h_runAbortController h) (h_runPromise h) (h_pendingSessionWrites h) (h_model h)
    (h_thinkingLevel h) (h_streamOptions h) r (h_tools h) (h_activeToolNames h) (h_steerQueue h)
    (h_followUpQueue h) (h_nextTurnQueue h) (h_completionMode h) (h_runs h) (h_user h).
Definition set_tools (t : list (jsstr * tool_ref)) (names : list jsstr) (h : AgentHarness S U) : AgentHarness S U :=
  mkHarness (h_session h) (h_phase h) (h_runAbortController h) (h_runPromise h) (h_pendingSessionWrites h) (h_model h)
    (h_thinkingLevel h) (h_streamOptions h) (h_resources h) t names (h_steerQueue h) (h_followUpQueue h)
    (h_nextTurnQueue h) (h_completionMode h) (h_runs h) (h_user h).
Definition set_steer (q : message_queue) (h : AgentHarness S U) : AgentHarness S U :=
  mkHarness (h_session h) (h_phase h) (h_runAbortController h) (h_runPromise h) (h_pendingSessionWrites h) (h_model h)
    (h_thinkingLevel h) (h_streamOptions h) (h_resources h) (h_tools h) (h_activeToolNames h) q
    (h_followUpQueue h) (h_nextTurnQueue h) (h_completionMode h) (h_runs h) (h_user h).
Definition set_follow (q : message_queue) (h : AgentHarness S U) : AgentHarness S U :=
  mkHarness (h_session h) (h_phase h) (h_runAbortController h) (h_runPromise h) (h_pendingSessionWrites h) (h_model h)
    (h_thinkingLevel h) (h_streamOptions h) (h_resources h) (h_tools h) (h_activeToolNames h) (h_steerQueue h)
    q (h_nextTurnQueue h) (h_completionMode h) (h_runs h) (h_user h).
Definition set_next (l : list AgentMessage) (h : AgentHarness S U) : AgentHarness S U :=
  mkHarness (h_session h) (h_phase h) (h_runAbortController h) (h_runPromise h) (h_pendingSessionWrites h) (h_model h)
    (h_thinkingLevel h) (h_streamOptions h) (h_resources h) (h_tools h) (h_activeToolNames h) (h_steerQueue h)
    (h_followUpQueue h) l (h_completionMode h) (h_runs h) (h_user h).
Definition set_completion (m : option CompletionMode) (h : AgentHarness S U) : AgentHarness S U :=
  mkHarness (h_session h) (h_phase h) (h_runAbortController h) (h_runPromise h) (h_pendingSessionWrites h) (h_model h)
    (h_thinkingLevel h) (h_streamOptions h) (h_resources h) (h_tools h) (h_activeToolNames h) (h_steerQueue h)
    (h_followUpQueue h) (h_nextTurnQueue h) m (h_runs h) (h_user h).
Definition set_runs (rs : list run_variables) (h : AgentHarness S U) : AgentHarness S U :=
  mkHarness (h_session h) (h_phase h) (h_runAbortController h) (h_runPromise h) (h_pendingSessionWrites h) (h_model h)
    (h_thinkingLevel h) (h_streamOptions h) (h_resources h) (h_tools h) (h_activeToolNames h) (h_steerQueue h)
    (h_followUpQueue h) (h_nextTurnQueue h) (h_completionMode h) rs (h_user h).
Definition set_user (u : U) (h : AgentHarness S U) : AgentHarness S U :=
  mkHarness (h_session h) (h_phase h) (h_runAbortController h) (h_runPromise h) (h_pendingSessionWrites h) (h_model h)
    (h_thinkingLevel h) (h_streamOptions h) (h_resources h) (h_tools h) (h_activeToolNames h) (h_steerQueue h)
    (h_followUpQueue h) (h_nextTurnQueue h) (h_completionMode h) (h_runs h) u.
End Setters.
