(* ===== verification/Harness.v ===== *)
(** Operations of the agent harness ([harness/agent-harness.ts]): runs of the loop
    over a persistent session, with hooks, queues, a configuration that changes
    between turns, compaction and navigation of the session tree.

    The harness object is the environment of the loop, as the agent is in [Agent]:
    hooks, subscribers, tools and providers are computations on it, so that they may
    call its operations.  The sets of subscribers and hooks are fixed. *)
From Stdlib Require Import QArith_base.
From S2P Require Import Prelude JsString Json JsonParse Effects Uuid Messages SessionTree Compaction BranchSummary.
From S2P Require Import PromptTemplates Protocol LoopTypes Queue ToolBatch Recovery AgentLoop HarnessState.
#[local] Open Scope Z_scope.
#[local] Open Scope eff.

Section Harness.
Context {S : Type} `{SessionStorage S} {U Signal : Type}.

Abbreviation MH := (M (AgentHarness S U) thrown).

(** An operation of the session, and an effect that cannot fail. *)
Definition on_session {A} (c : M (world S) SessionError A) : MH A := fun h =>
  let '(r, w) := c (h_session h) in
  (match r with Ok a => Ok a | Throw e => Throw (TSession e) end, set_session w h).
Definition of_result {A} (r : result thrown A) : MH A := fun h => (r, h).
Definition from {A} (f : AgentHarness S U -> A) : MH A := fun h => (Ok (f h), h).

(** [try { c } finally { f }]: an error of [f] replaces the outcome. *)
Definition finally {A} (c : MH A) (f : MH unit) : MH A := fun h =>
  let '(r, h1) := c h in
  match f h1 with
  | (Ok _, h2) => (r, h2)
  | (Throw e, h2) => (Throw e, h2)
  end.

(** As a hook of the loop, which sees the message of an error. *)
Definition to_hook {A} (c : MH A) : hook (AgentHarness S U) A := fun h =>
  let '(r, h') := c h in (match r with Ok a => Ok a | Throw e => Throw (thrown_message e) end, h').

(** ** Events and hooks *)

Inductive AgentHarnessEvent :=
  | HAgent (ev : AgentEvent)
  | HQueueUpdate (steer followUp nextTurn : list AgentMessage)
  | HSavePoint (hadPendingMutations : bool)
  | HAbort (clearedSteer clearedFollowUp : list AgentMessage)
  | HSettled (nextTurnCount : nat)
  | HAfterProviderResponse (status : Z) (headers : list (jsstr * jsstr))
  | HSessionCompact (compactionEntry : SessionTreeEntry) (fromHook : bool)
  | HSessionTree (newLeafId oldLeafId : option jsstr) (summaryEntry : option SessionTreeEntry) (fromHook : bool)
  | HModelUpdate (model previousModel : Model)
  | HThinkingLevelUpdate (level previousLevel : jsstr)
  | HResourcesUpdate (resources previousResources : AgentHarnessResources)
  | HToolsUpdate (toolNames previousToolNames activeToolNames previousActiveToolNames : list jsstr).

Record BeforeAgentStartResult := mkBeforeStart { ba_messages : option (list AgentMessage); ba_systemPrompt : option jsstr }.
Record CompactResult := mkCompactResult { co_summary : jsstr; co_firstKeptEntryId : jsstr; co_tokensBefore : Z; co_details : option json }.
Record SessionBeforeCompactResult := mkBeforeCompact { bc_cancel : option bool; bc_compaction : option CompactResult }.
Record TreePreparation := mkTreePreparation {
  tp_targetId : jsstr; tp_oldLeafId : option jsstr; tp_commonAncestorId : option jsstr; tp_entriesToSummarize : list SessionTreeEntry;
  tp_userWantsSummary : bool; tp_customInstructions : option jsstr; tp_replaceInstructions : option bool; tp_label : option jsstr;
}.
Record SessionBeforeTreeResult := mkBeforeTree {
  bt_cancel : option bool; bt_summary : option (jsstr * option json); bt_customInstructions : option jsstr;
  bt_replaceInstructions : option bool; bt_label : option jsstr;
}.

(** The handlers of the events that return a result, in order of registration. *)
Record HarnessHooks := mkHooks {
  hk_before_agent_start : list (jsstr -> option (list content_block) -> jsstr -> AgentHarnessResources -> MH (option BeforeAgentStartResult));
  hk_context : list (list AgentMessage -> MH (option (list AgentMessage)));
  hk_before_provider_request : list (Model -> jsstr -> AgentHarnessStreamOptions -> MH (option (option AgentHarnessStreamOptionsPatch)));
  hk_before_provider_payload : list (Model -> json -> MH (option json));
  hk_tool_call : list (jsstr -> jsstr -> json -> MH (option BeforeToolCallResult));
  hk_tool_result : list (jsstr -> jsstr -> json -> list content_block -> option json -> bool -> MH (option AfterToolCallResult));
  hk_session_before_compact : list (CompactionPreparation -> list SessionTreeEntry -> option jsstr -> MH (option SessionBeforeCompactResult));
  hk_session_before_tree : list (TreePreparation -> MH (option SessionBeforeTreeResult));
}.

(** The provider request [streamSimple] gets, with its callbacks. *)
Record SimpleStreamOptions := mkSimpleStream {
  ss_options : AgentHarnessStreamOptions; ss_onPayload : json -> hook (AgentHarness S U) json;
  ss_onResponse : Z -> list (jsstr * jsstr) -> hook (AgentHarness S U) unit;
  ss_reasoning : option jsstr; ss_sessionId : jsstr; ss_apiKey : option jsstr;
}.

(** The options that never change, the code around the harness and the clock.
    [hs_number_text] is [String(n)] of a parsed number, [hs_until_settled] what
    happens until the promise of a run resolves (it never rejects). *)
Record HarnessParts := mkHarnessParts {
  hs_subscribers : list (AgentHarnessEvent -> MH unit);
  hs_hooks : HarnessHooks;
  hs_tool_object : tool_ref -> AgentTool (AgentHarness S U);
  hs_systemPrompt : option (jsstr + (Model -> jsstr -> list tool_ref -> AgentHarnessResources -> MH jsstr));
  hs_getApiKeyAndHeaders : option (Model -> MH (option (jsstr * option (list (jsstr * jsstr)))));
  hs_session_id : M (world S) SessionError jsstr;
  hs_streamSimple : Model -> LlmContext (AgentHarness S U) -> SimpleStreamOptions -> hook (AgentHarness S U) (response (AgentHarness S U));
  hs_fresh_signal : Signal;
  hs_completeSimple : Model -> jsstr -> list Message -> CompletionOptions (Signal := Signal) -> MH AssistantMessage;
  hs_first_of_two : AgentHarness S U -> bool;
  hs_validateToolArguments : AgentTool (AgentHarness S U) -> ToolCall -> result jsstr json;
  hs_now : U -> Z * U;
  hs_iso : U -> jsstr * U;
  hs_schedule : AgentHarness S U -> list nat;
  hs_get_time : jsstr -> Z;
  hs_number_text : jsstr -> jsstr;
  hs_until_settled : AgentHarness S U -> AgentHarness S U;
}.
Context (parts : HarnessParts).
Local Abbreviation subscribers := (hs_subscribers parts).
Local Abbreviation hooks := (hs_hooks parts).
Local Abbreviation tool_object := (hs_tool_object parts).
Local Abbreviation systemPrompt := (hs_systemPrompt parts).
Local Abbreviation getApiKeyAndHeaders := (hs_getApiKeyAndHeaders parts).
Local Abbreviation session_id := (hs_session_id parts).
Local Abbreviation streamSimple := (hs_streamSimple parts).
Local Abbreviation fresh_signal := (hs_fresh_signal parts).
Local Abbreviation completeSimple := (hs_completeSimple parts).
Local Abbreviation first_of_two := (hs_first_of_two parts).
Local Abbreviation validateToolArguments := (hs_validateToolArguments parts).
Local Abbreviation now := (hs_now parts).
Local Abbreviation iso := (hs_iso parts).
Local Abbreviation schedule := (hs_schedule parts).
Local Abbreviation get_time := (hs_get_time parts).
Local Abbreviation number_text := (hs_number_text parts).
Local Abbreviation until_settled := (hs_until_settled parts).

(** [Date.now()], and an operation of the session at the time [new Date()]. *)
Definition h_now (h : AgentHarness S U) : Z * AgentHarness S U := let '(t, u) := now (h_user h) in (t, set_user u h).
Definition h_iso (h : AgentHarness S U) : jsstr * AgentHarness S U := let '(t, u) := iso (h_user h) in (t, set_user u h).
Definition at_time {A} (c : jsstr -> M (world S) SessionError A) : MH A :=
  let* t := lift h_iso in on_session (c t).

Definition createUserMessage (text : jsstr) (images : option (list content_block)) : MH AgentMessage :=
  let* t := lift h_now in
  ret (MUser (mkUser (RBlocks (CText text None :: default [] images)) None t)).

Definition createFailureMessage (model : Model) (error : jsstr) (aborted : bool) : MH AssistantMessage :=
  let* t := lift h_now in
  ret (mkAssistant [AText [] None] (md_api model) (md_provider model) (md_id model) None None None EMPTY_USAGE
         (if aborted then StopAborted else StopError) (Some error) t).

(** [emitOwn] and [emitAny]: every subscriber in turn, until one throws. *)
Fixpoint notify_all (ls : list (AgentHarnessEvent -> MH unit)) (ev : AgentHarnessEvent) : MH unit :=
  match ls with
  | [] => ret tt
  | listener :: rest =>
      do* catch (listener ev) (fun e => throw (normalizeHookError e)) in
      notify_all rest ev
  end.
Definition emitOwn (ev : AgentHarnessEvent) : MH unit := notify_all subscribers ev.
Definition emitAny (ev : AgentHarnessEvent) : MH unit := notify_all subscribers ev.

(** [emitHook]: the last result that is not [undefined]. *)
Fixpoint run_handlers {R} (handlers : list (MH (option R))) (lastResult : option R) : MH (option R) :=
  match handlers with
  | [] => ret lastResult
  | handler :: rest =>
      let* result := catch handler (fun e => throw (normalizeHookError e)) in
      run_handlers rest (match result with Some r => Some r | None => lastResult end)
  end.
Definition emitHook {R} (handlers : list (MH (option R))) : MH (option R) := run_handlers handlers None.

Fixpoint request_handlers (model : Model) (sessionId : jsstr)
    (handlers : list (Model -> jsstr -> AgentHarnessStreamOptions -> MH (option (option AgentHarnessStreamOptionsPatch))))
    (current : AgentHarnessStreamOptions) : MH AgentHarnessStreamOptions :=
  match handlers with
  | [] => ret current
  | handler :: rest =>
      let* result := catch (handler model sessionId current) (fun e => throw (normalizeHookError e)) in
      request_handlers model sessionId rest
        (match result with Some (Some patch) => applyStreamOptionsPatch current (Some patch) | _ => current end)
  end.
Definition emitBeforeProviderRequest (model : Model) (sessionId : jsstr) (streamOptions : AgentHarnessStreamOptions) :=
  request_handlers model sessionId (hk_before_provider_request hooks) streamOptions.

Fixpoint payload_handlers (model : Model) (handlers : list (Model -> json -> MH (option json))) (current : json) : MH json :=
  match handlers with
  | [] => ret current
  | handler :: rest =>
      let* result := catch (handler model current) (fun e => throw (normalizeHookError e)) in
      payload_handlers model rest (default current result)
  end.
Definition emitBeforeProviderPayload (model : Model) (payload : json) : MH json :=
  payload_handlers model (hk_before_provider_payload hooks) payload.

Definition emitQueueUpdate : MH unit :=
  let* h := get in
  emitOwn (HQueueUpdate (mq_items (h_steerQueue h)) (mq_items (h_followUpQueue h)) (h_nextTurnQueue h)).

(** ** The turn state *)

Definition startRunPromise : MH unit := modify (set_running true).
Definition finishRunPromise : MH unit := modify (set_running false).

Definition tool_named (tools : list (jsstr * tool_ref)) (name : jsstr) : option tool_ref :=
  snd <$> List.find (fun kv => bool_decide (kv.1 = name)) tools.

Definition createTurnState : MH AgentHarnessTurnState :=
  let* context := on_session (buildContext get_time) in
  let* resources := from h_resources in
  let* sessionId := on_session session_id in
  let* h := get in
  let activeTools := omap (tool_named (h_tools h)) (h_activeToolNames h) in
  let* prompt := match systemPrompt with
                 | None => ret (js "You are a helpful assistant.")
                 | Some (inl text) => ret text
                 | Some (inr f) => f (h_model h) (h_thinkingLevel h) activeTools resources
                 end in
  let* h' := get in
  ret (mkTurnState (sc_messages context) resources (h_streamOptions h') sessionId prompt (h_model h') (h_thinkingLevel h')
         (map snd (h_tools h)) activeTools).

Definition createContext (turnState : AgentHarnessTurnState) (prompt : option jsstr) : AgentContext (AgentHarness S U) :=
  mkContext (default (ts_systemPrompt turnState) prompt) (ts_messages turnState) (Some (map tool_object (ts_activeTools turnState))).

(** The variables of run [run]: [signal.aborted], [getTurnState] and [setTurnState];
    [turnState] stands for the variable before the run has any. *)
Definition run_aborted (run : nat) (h : AgentHarness S U) : bool :=
  match h_runs h !! run with Some r => rv_aborted r | None => false end.
Definition active_turn_state (run : nat) (turnState : AgentHarnessTurnState) (h : AgentHarness S U) : AgentHarnessTurnState :=
  match h_runs h !! run with Some r => rv_activeTurnState r | None => turnState end.
Definition set_turn_state (run : nat) (t : AgentHarnessTurnState) (h : AgentHarness S U) : AgentHarness S U :=
  set_runs (alter (fun r => mkRun (rv_aborted r) t) run (h_runs h)) h.

Definition provider_options (o : AgentHarnessStreamOptions) (headers : option (list (jsstr * jsstr))) : AgentHarnessStreamOptions :=
  mkHarnessStream (ho_transport o) (ho_timeoutMs o) (ho_maxRetries o) (ho_maxRetryDelayMs o) headers (ho_metadata o)
    (ho_cacheRetention o).

(** [this.getApiKeyAndHeaders?.(model)]. *)
Definition find_auth (model : Model) : MH (option (jsstr * option (list (jsstr * jsstr)))) :=
  match getApiKeyAndHeaders with Some f => f model | None => ret None end.

(** The options of the provider call. *)
Definition provider_request (turnState : AgentHarnessTurnState) (model : Model) (streamOptions : StreamOptions) : MH SimpleStreamOptions :=
  let* auth := find_auth model in
  let snapshotOptions := provider_options (ts_streamOptions turnState)
                           (mergeHeaders [ho_headers (ts_streamOptions turnState); auth ≫= snd]) in
  let* requestOptions := emitBeforeProviderRequest model (ts_sessionId turnState) snapshotOptions in
  ret (mkSimpleStream requestOptions
         (fun payload => to_hook (emitBeforeProviderPayload model payload))
         (fun status headers => to_hook (emitOwn (HAfterProviderResponse status headers)))
         (so_reasoning streamOptions) (ts_sessionId turnState) (fst <$> auth)).

Definition createStreamFn (run : nat) (turnState : AgentHarnessTurnState)
    (model : Model) (context : LlmContext (AgentHarness S U)) (streamOptions : StreamOptions)
    : hook (AgentHarness S U) (response (AgentHarness S U)) := fun h =>
  match to_hook (provider_request (active_turn_state run turnState h) model streamOptions) h with
  | (Ok options, h') => streamSimple model context options h'
  | (Throw e, h') => (Throw e, h')
  end.

(** ** Queues *)

Definition take_queued (q : message_queue) : list AgentMessage * message_queue :=
  match mq_mode q with
  | queue_all => (mq_items q, mkMessageQueue [] (mq_array q) (mq_mode q))
  | one_at_a_time => (take 1 (mq_items q), mkMessageQueue (drop 1 (mq_items q)) (mq_array q) (mq_mode q))
  end.

(** [queue.unshift(...messages)] on the array the messages came from: it shows in
    the queue only when that array is still the queue's. *)
Definition put_back (array : nat) (messages : list AgentMessage) (q : message_queue) : message_queue :=
  if bool_decide (mq_array q = array) then mkMessageQueue (messages ++ mq_items q) (mq_array q) (mq_mode q) else q.

Definition drainQueuedMessages (queue : AgentHarness S U -> message_queue)
    (set_queue : message_queue -> AgentHarness S U -> AgentHarness S U) : MH (list AgentMessage) :=
  let* h := get in
  let '(messages, rest) := take_queued (queue h) in
  do* modify (set_queue rest) in
  if is_empty messages then ret messages
  else
    catch (do* emitQueueUpdate in ret messages)
      (fun e => do* modify (fun h' => set_queue (put_back (mq_array (queue h)) messages (queue h')) h') in
                throw (normalizeHookError e)).

(** ** Session writes *)

(** One write, by the kind of its entry. *)
Definition write_entry (w : PendingSessionWrite) : MH unit :=
  match w with
  | EMessage m => do* at_time (fun t => appendMessage t m) in ret tt
  | EModelChange provider modelId => do* at_time (fun t => appendModelChange t provider modelId) in ret tt
  | EThinkingLevelChange level => do* at_time (fun t => appendThinkingLevelChange t level) in ret tt
  | EActiveToolsChange names => do* at_time (fun t => appendActiveToolsChange t names) in ret tt
  | ECustom customType data => do* at_time (fun t => appendCustomEntry t customType data) in ret tt
  | ECustomMessage customType content details display =>
      do* at_time (fun t => appendCustomMessageEntry t customType content display details) in ret tt
  | ELabel targetId label => do* at_time (fun t => appendLabel t targetId label) in ret tt
  | ESessionInfo name => do* at_time (fun t => appendSessionName t (default [] name)) in ret tt
  | ELeaf targetId => at_time (fun t => setLeafId t targetId)
  | ECompaction _ _ _ _ _ | EBranchSummary _ _ _ _ => ret tt
  end.

(** The [while] loop: nothing else adds to the queue while it runs. *)
Fixpoint flush_writes (writes : list PendingSessionWrite) : MH unit :=
  match writes with
  | [] => ret tt
  | write :: rest => do* write_entry write in do* modify (set_pending rest) in flush_writes rest
  end.
Definition flushPendingSessionWrites : MH unit :=
  let* h := get in flush_writes (h_pendingSessionWrites h).

(** [this.pendingSessionWrites.push(write)]. *)
Definition push_write (w : PendingSessionWrite) : MH unit :=
  modify (fun h => set_pending (h_pendingSessionWrites h ++ [w]) h).

(** ** Events of the loop *)

Definition handleAgentEvent (ev : AgentEvent) : MH unit :=
  match ev with
  | message_end m =>
      do* at_time (fun t => appendMessage t m) in
      emitAny (HAgent ev)
  | turn_end _ _ =>
      let* eventError := catch (do* emitAny (HAgent ev) in ret None) (fun e => ret (Some e)) in
      let* hadPendingMutations := from (fun h => negb (is_empty (h_pendingSessionWrites h))) in
      do* flushPendingSessionWrites in
      match eventError with
      | Some e => throw e
      | None => emitOwn (HSavePoint hadPendingMutations)
      end
  | agent_end _ =>
      do* flushPendingSessionWrites in
      do* modify (set_phase phase_idle) in
      do* emitAny (HAgent ev) in
      let* count := from (fun h => length (h_nextTurnQueue h)) in
      emitOwn (HSettled count)
  | _ => emitAny (HAgent ev)
  end.

(** ** Runs *)

Definition thinking_option (level : jsstr) : option jsstr := if bool_decide (level = js "off") then None else Some level.

Definition prepareNextTurn (run : nat) : MH (option (AgentLoopTurnUpdate (AgentHarness S U))) :=
  do* flushPendingSessionWrites in
  let* nextTurnState := createTurnState in
  do* modify (set_turn_state run nextTurnState) in
  let* mode := from h_completionMode in
  ret (Some (mkUpdate (Some (createContext nextTurnState None)) (Some (ts_model nextTurnState))
               (Some (ts_thinkingLevel nextTurnState)) mode None)).

Definition createLoopConfig (run : nat) (turnState : AgentHarnessTurnState) (completionMode : option CompletionMode)
    : AgentLoopConfig (AgentHarness S U) :=
  mkConfig (ts_model turnState) (thinking_option (ts_thinkingLevel turnState)) None None completionMode None None None
    (fun messages => to_hook (ret (convertToLlm messages)))
    (Some (fun messages => to_hook (
       let* result := emitHook (map (fun f => f messages) (hk_context hooks)) in
       ret (default messages result))))
    None None None
    (Some (fun _ => to_hook (prepareNextTurn run)))
    (Some (to_hook (drainQueuedMessages h_steerQueue set_steer)))
    (Some (to_hook (drainQueuedMessages h_followUpQueue set_follow)))
    (Some (fun _ toolCall args _ _ => to_hook (emitHook (map (fun f => f (tc_id toolCall) (tc_name toolCall) args) (hk_tool_call hooks)))))
    (Some (fun _ toolCall args _ result isError _ => to_hook (
       emitHook (map (fun f => f (tc_id toolCall) (tc_name toolCall) args (ar_content result) (ar_details result) isError)
                   (hk_tool_result hooks))))).

Definition emitRunFailure (model : Model) (error : jsstr) (aborted : bool) : MH (list AgentMessage) :=
  let* failureMessage := createFailureMessage model error aborted in
  do* handleAgentEvent (message_start (MAssistant failureMessage)) in
  do* handleAgentEvent (message_end (MAssistant failureMessage)) in
  do* handleAgentEvent (turn_end failureMessage []) in
  do* handleAgentEvent (agent_end [MAssistant failureMessage]) in
  ret [MAssistant failureMessage].

(** The loop on the harness, as [executeTurn] starts it. *)
Definition harness_loop (fuel run : nat) (turnState : AgentHarnessTurnState) (messages : list AgentMessage)
    (prompt : option jsstr) (h : AgentHarness S U) : result jsstr loop_exit * loop_world (AgentHarness S U) :=
  runAgentLoop validateToolArguments (fun ev => to_hook (handleAgentEvent ev)) (run_aborted run) h_now schedule
    (createStreamFn run turnState) number_text fuel messages (createContext turnState prompt)
    (createLoopConfig run turnState (h_completionMode h)) h.

(** [runResultPromise]; [None] when the fuel does not end the run. *)
Definition run_result (fuel run : nat) (turnState : AgentHarnessTurnState) (messages : list AgentMessage) (prompt : option jsstr)
    : MH (option (list AgentMessage)) := fun h =>
  let '(r, w) := harness_loop fuel run turnState messages prompt h in
  match r with
  | Ok Finished => (Ok (Some (lw_new w)), lw_env w)
  | Ok OutOfFuel => (Ok None, lw_env w)
  | Throw error =>
      (let* h' := get in
       catch (let* ms := emitRunFailure (ts_model (active_turn_state run turnState h')) error (run_aborted run h') in ret (Some ms))
         (fun _ => throw (THarness he_unknown (js "Agent run failed and failure reporting failed")))) (lw_env w)
  end.

(** [try { c } finally { f }] for a run: a run that has not ended has not come to
    its [finally]. *)
Definition settle_finally {A} (c : MH (option A)) (f : MH unit) : MH (option A) := fun h =>
  match c h with
  | (Ok None, h') => (Ok None, h')
  | (r, h') => match f h' with (Ok _, h'') => (r, h'') | (Throw e, h'') => (Throw e, h'') end
  end.

Definition last_assistant (messages : list AgentMessage) : option AssistantMessage :=
  head (omap (fun m => match m with MAssistant a => Some a | _ => None end) (reverse messages)).

Record prompt_options := mkPromptOptions { po_images : option (list content_block); po_completionMode : option CompletionMode }.

(** The messages a run starts with: the queued ones, then the prompt. *)
Definition take_next_turn (userMessage : AgentMessage) : MH (list AgentMessage) :=
  let* h := get in
  match h_nextTurnQueue h with
  | [] => ret [userMessage]
  | queuedMessages =>
      do* modify (set_next []) in
      do* catch emitQueueUpdate
            (fun e => do* modify (fun h' => set_next (queuedMessages ++ h_nextTurnQueue h') h') in throw (normalizeHookError e)) in
      ret (queuedMessages ++ [userMessage])
  end.

(** A fresh abort controller, and the variables of the run. *)
Definition begin_run (turnState : AgentHarnessTurnState) : MH nat :=
  let* run := from (fun h => length (h_runs h)) in
  do* modify (fun h => set_runs (h_runs h ++ [mkRun false turnState]) h) in
  do* modify (set_abort (Some run)) in
  ret run.

Definition executeTurn (fuel : nat) (turnState : AgentHarnessTurnState) (text : jsstr) (images : option (list content_block))
    : MH (option AssistantMessage) :=
  let* userMessage := createUserMessage text images in
  let* messages := take_next_turn userMessage in
  let* beforeResult := emitHook (map (fun f => f text images (ts_systemPrompt turnState) (ts_resources turnState))
                                   (hk_before_agent_start hooks)) in
  let messages := messages ++ default [] (beforeResult ≫= ba_messages) in
  let* run := begin_run turnState in
  settle_finally
    (let* result := run_result fuel run turnState messages (beforeResult ≫= ba_systemPrompt) in
     match result with
     | None => ret None
     | Some newMessages =>
         match last_assistant newMessages with
         | Some m => ret (Some m)
         | None => throw (THarness he_invalid_state (js "AgentHarness prompt completed without an assistant message"))
         end
     end)
    (finally flushPendingSessionWrites (modify (set_abort None))).

(** What [prompt], [skill] and [promptFromTemplate] share; [text_of] finds the text
    in the turn state. *)
Definition run_prompt (fuel : nat) (text_of : AgentHarnessTurnState -> result thrown jsstr) (options : prompt_options)
    : MH (option AssistantMessage) :=
  let* h := get in
  if negb (bool_decide (h_phase h = phase_idle)) then throw (THarness he_busy (js "AgentHarness is busy"))
  else
    do* modify (set_phase phase_turn) in
    do* startRunPromise in
    let* originalCompletionMode := from h_completionMode in
    do* match po_completionMode options with Some m => modify (set_completion (Some m)) | None => ret tt end in
    settle_finally
      (catch (let* turnState := createTurnState in
              let* text := of_result (text_of turnState) in
              executeTurn fuel turnState text (po_images options))
         (fun e => do* modify (set_phase phase_idle) in throw (normalizeHarnessError e he_unknown)))
      (do* modify (set_completion originalCompletionMode) in finishRunPromise).

Definition prompt (fuel : nat) (text : jsstr) (options : prompt_options) := run_prompt fuel (fun _ => Ok text) options.

Definition skill (fuel : nat) (name : jsstr) (additionalInstructions : option jsstr) (options : prompt_options) :=
  run_prompt fuel (fun t =>
    match List.find (fun s => bool_decide (sk_name s = name)) (default [] (re_skills (ts_resources t))) with
    | None => Throw (THarness he_invalid_argument (js "Unknown skill: " ++ name))
    | Some s => Ok (formatSkillInvocation s additionalInstructions)
    end) options.

Definition promptFromTemplate (fuel : nat) (name : jsstr) (args : list jsstr) (options : prompt_options) :=
  run_prompt fuel (fun t =>
    match List.find (fun p => bool_decide (pt_name p = name)) (default [] (re_promptTemplates (ts_resources t))) with
    | None => Throw (THarness he_invalid_argument (js "Unknown prompt template: " ++ name))
    | Some p => Ok (formatPromptTemplateInvocation p args)
    end) options.

(** ** Queueing *)

Definition push_message (m : AgentMessage) (q : message_queue) : message_queue :=
  mkMessageQueue (mq_items q ++ [m]) (mq_array q) (mq_mode q).

Definition steer (text : jsstr) (images : option (list content_block)) : MH unit :=
  let* h := get in
  if bool_decide (h_phase h = phase_idle) then throw (THarness he_invalid_state (js "Cannot steer while idle"))
  else
    let* m := createUserMessage text images in
    do* modify (fun h => set_steer (push_message m (h_steerQueue h)) h) in
    emitQueueUpdate.

Definition followUp (text : jsstr) (images : option (list content_block)) : MH unit :=
  let* h := get in
  if bool_decide (h_phase h = phase_idle) then throw (THarness he_invalid_state (js "Cannot follow up while idle"))
  else
    let* m := createUserMessage text images in
    do* modify (fun h => set_follow (push_message m (h_followUpQueue h)) h) in
    emitQueueUpdate.

Definition nextTurn (text : jsstr) (images : option (list content_block)) : MH unit :=
  let* m := createUserMessage text images in
  do* modify (fun h => set_next (h_nextTurnQueue h ++ [m]) h) in
  emitQueueUpdate.

(** A write at once when idle, and queued otherwise. *)
Definition write_or_queue (w : PendingSessionWrite) : MH unit :=
  let* h := get in
  if bool_decide (h_phase h = phase_idle) then write_entry w else push_write w.

Definition rethrow_as {A} (fallback : AgentHarnessErrorCode) (c : MH A) : MH A :=
  catch c (fun e => throw (normalizeHarnessError e fallback)).

Definition harness_appendMessage (m : AgentMessage) : MH unit :=
  rethrow_as he_session (write_or_queue (EMessage m)).

(** ** Compaction *)

Definition authenticate (model : Model) (purpose : string) : MH (jsstr * option (list (jsstr * jsstr))) :=
  let* auth := find_auth model in
  match auth with
  | None => throw (THarness he_auth (js "No auth available for " ++ js purpose))
  | Some a => ret a
  end.

(** A computed compaction, as the hook would have given it. *)
Definition as_provided (r : CompactionResult) : CompactResult :=
  mkCompactResult (cr_summary r) (cr_firstKeptEntryId r) (cr_tokensBefore r) (Some (details_json (cr_details r))).

(** The compaction a hook provides, or [compact]. *)
Definition obtain_compaction (preparation : CompactionPreparation) (model : Model) (apiKey : jsstr)
    (headers : option (list (jsstr * jsstr))) (customInstructions : option jsstr) (provided : option CompactResult) : MH CompactResult :=
  match provided with
  | Some r => ret r
  | None =>
      let* level := from h_thinkingLevel in
      let* result := Compaction.compact completeSimple (lift h_now) first_of_two preparation
                       (mkCall model apiKey headers None (Some level)) customInstructions in
      match result with
      | Throw e => throw (TCompaction e)
      | Ok r => ret (as_provided r)
      end
  end.

Definition is_some_true (b : option bool) : bool := match b with Some true => true | _ => false end.

Definition compact_body (customInstructions : option jsstr) : MH CompactResult :=
  let* model := from h_model in
  let* ' (apiKey, headers) := authenticate model "compaction" in
  let prompt := match systemPrompt with Some (inl text) => Some text | _ => None end in
  let* branchEntries := on_session (getBranch None) in
  match prepareCompaction get_time branchEntries DEFAULT_COMPACTION_SETTINGS prompt with
  | Throw e => throw (TCompaction e)
  | Ok None => throw (THarness he_compaction (js "Nothing to compact"))
  | Ok (Some preparation) =>
      let* hookResult := emitHook (map (fun f => f preparation branchEntries customInstructions) (hk_session_before_compact hooks)) in
      if is_some_true (hookResult ≫= bc_cancel) then throw (THarness he_compaction (js "Compaction cancelled"))
      else
        let provided := hookResult ≫= bc_compaction in
        let fromHook := match provided with Some _ => true | None => false end in
        let* result := obtain_compaction preparation model apiKey headers customInstructions provided in
        let* entryId := at_time (fun t => appendCompaction t (co_summary result) (co_firstKeptEntryId result)
                                   (co_tokensBefore result) (co_details result) (Some fromHook)) in
        let* entry := on_session (getEntry entryId) in
        do* match entry with
            | Some e => if is_compaction e then emitOwn (HSessionCompact e fromHook) else ret tt
            | None => ret tt
            end in
        ret result
  end.

(** An exclusive operation: it needs an idle harness, works in [phase] and leaves
    the harness idle. *)
Definition exclusively {A} (phase : AgentHarnessPhase) (name : string) (fallback : AgentHarnessErrorCode) (body : MH A) : MH A :=
  let* h := get in
  if negb (bool_decide (h_phase h = phase_idle)) then throw (THarness he_busy (js name ++ js "() requires idle harness"))
  else
    do* modify (set_phase phase) in
    finally (rethrow_as fallback body) (modify (set_phase phase_idle)).

Definition harness_compact (customInstructions : option jsstr) : MH CompactResult :=
  exclusively phase_compaction "compact" he_compaction (compact_body customInstructions).

(** ** Navigation *)

Record navigate_options := mkNavigate {
  no_summarize : option bool; no_customInstructions : option jsstr; no_replaceInstructions : option bool; no_label : option jsstr;
}.
Definition no_navigate_options : navigate_options := mkNavigate None None None None.
Record NavigateTreeResult := mkNavigated {
  nt_cancelled : bool; nt_editorText : option jsstr; nt_summaryEntry : option SessionTreeEntry;
}.

(** The text of a message for the editor. *)
Definition editor_text (content : rich_content) : jsstr :=
  match content with
  | RString s => s
  | RBlocks blocks => concat (omap (fun b => match b with CText t _ => Some t | _ => None end) blocks)
  end.

(** The new leaf and the text to edit: a user message is taken back. *)
Definition navigation_target (target : SessionTreeEntry) (targetId : jsstr) : option jsstr * option jsstr :=
  match e_body target with
  | EMessage (MUser u) => (e_parentId target, Some (editor_text (um_content u)))
  | ECustomMessage _ content _ _ => (e_parentId target, Some (editor_text content))
  | _ => (Some targetId, None)
  end.

(** The summary of the abandoned entries: [None] when it was aborted, and otherwise
    its text and details, if any. *)
Definition branch_summary (es : list SessionTreeEntry) (options : navigate_options) (hookResult : option SessionBeforeTreeResult)
    : MH (option (option jsstr * option json)) :=
  let given : option (jsstr * option json) := hookResult ≫= bt_summary in
  let summaryText := fst <$> given in
  if is_empty (default [] summaryText) && is_some_true (no_summarize options) && negb (is_empty es) then
    let* model := from h_model in
    let* ' (apiKey, headers) := authenticate model "branch summary" in
    let* result := generateBranchSummary get_time completeSimple (lift h_now) es
                     (mkBranchOptions model apiKey headers fresh_signal
                        (Compaction.coalesce (hookResult ≫= bt_customInstructions) (no_customInstructions options))
                        (Compaction.coalesce (hookResult ≫= bt_replaceInstructions) (no_replaceInstructions options)) None) in
    match result with
    | Throw e =>
        match bse_code e with
        | bse_aborted => ret None
        | _ => throw (THarness he_branch_summary (bse_message e))
        end
    | Ok r => ret (Some (Some (bsr_summary r), Some (details_json (bsr_files r))))
    end
  else ret (Some (summaryText, given ≫= snd)).

(** [session.moveTo], and the entry of the summary it wrote. *)
Definition move_with_summary (newLeafId : option jsstr) (summary : option branch_summary_input) : MH (option SessionTreeEntry) :=
  let* summaryId := at_time (fun t => moveTo t newLeafId summary) in
  match summaryId with
  | None | Some [] => ret None
  | Some id =>
      let* entry := on_session (getEntry id) in
      ret (match entry with
           | Some e => match e_body e with EBranchSummary _ _ _ _ => Some e | _ => None end
           | None => None
           end)
  end.

(** A walk that does not end is the error the storage gives for it. *)
Definition collect_entries (oldLeafId : option jsstr) (targetId : jsstr) : MH CollectEntriesResult :=
  let* collected := on_session (collectEntriesForBranchSummary oldLeafId targetId) in
  match collected with
  | None => throw (TSession endless_walk)
  | Some c => ret c
  end.

Definition navigate_body (targetId : jsstr) (options : navigate_options) : MH NavigateTreeResult :=
  let* oldLeafId := on_session getLeafId in
  if bool_decide (oldLeafId = Some targetId) then ret (mkNavigated false None None)
  else
    let* targetEntry := on_session (getEntry targetId) in
    match targetEntry with
    | None => throw (THarness he_invalid_argument (js "Entry " ++ targetId ++ js " not found"))
    | Some target =>
        let* collected := collect_entries oldLeafId targetId in
        let preparation :=
          mkTreePreparation targetId oldLeafId (ce_commonAncestorId collected) (ce_entries collected)
            (default false (no_summarize options)) (no_customInstructions options) (no_replaceInstructions options) (no_label options) in
        let* hookResult := emitHook (map (fun f => f preparation) (hk_session_before_tree hooks)) in
        if is_some_true (hookResult ≫= bt_cancel) then ret (mkNavigated true None None)
        else
          let fromHook := match hookResult ≫= bt_summary with Some _ => true | None => false end in
          let* summary := branch_summary (ce_entries collected) options hookResult in
          match summary with
          | None => ret (mkNavigated true None None)
          | Some (summaryText, summaryDetails) =>
              let '(newLeafId, editorText) := navigation_target target targetId in
              let* summaryEntry := move_with_summary newLeafId
                (match summaryText with
                 | None | Some [] => None
                 | Some text => Some (mkSummaryInput text summaryDetails (Some fromHook))
                 end) in
              let* leaf := on_session getLeafId in
              do* emitOwn (HSessionTree leaf oldLeafId summaryEntry fromHook) in
              ret (mkNavigated false editorText summaryEntry)
          end
    end.

Definition navigateTree (targetId : jsstr) (options : navigate_options) : MH NavigateTreeResult :=
  exclusively phase_branch_summary "navigateTree" he_branch_summary (navigate_body targetId options).

(** ** Configuration *)

Definition setModel (model : Model) : MH unit :=
  rethrow_as he_session (
    let* previousModel := from h_model in
    do* write_or_queue (EModelChange (md_provider model) (md_id model)) in
    do* modify (set_model model) in
    emitOwn (HModelUpdate model previousModel)).

Definition setThinkingLevel (level : jsstr) : MH unit :=
  rethrow_as he_session (
    let* previousLevel := from h_thinkingLevel in
    do* write_or_queue (EThinkingLevelChange level) in
    do* modify (set_thinking level) in
    emitOwn (HThinkingLevelUpdate level previousLevel)).

(** The assignment both operations on tools end with. *)
Definition install_tools (tools : list (jsstr * tool_ref)) (names : list jsstr) : MH unit :=
  let* previousToolNames := from (fun h => map fst (h_tools h)) in
  let* previousActiveToolNames := from h_activeToolNames in
  do* write_or_queue (EActiveToolsChange names) in
  do* modify (set_tools tools names) in
  emitOwn (HToolsUpdate (map fst tools) previousToolNames names previousActiveToolNames).

Definition named_tools (tools : list tool_ref) : list (jsstr * tool_ref) := map (fun t => (at_name (tool_object t), t)) tools.

Definition setTools (tools : list tool_ref) (activeToolNames : option (list jsstr)) : MH unit :=
  rethrow_as he_invalid_argument (
    let nextTools := named_tools tools in
    do* of_result (unique_names (map fst nextTools) "Duplicate tool name(s)") in
    let* current := from h_activeToolNames in
    let nextActiveToolNames := default current activeToolNames in
    do* of_result (known_names nextActiveToolNames (map fst nextTools)) in
    install_tools nextTools nextActiveToolNames).

Definition setActiveTools (toolNames : list jsstr) : MH unit :=
  rethrow_as he_invalid_argument (
    let* tools := from h_tools in
    do* of_result (known_names toolNames (map fst tools)) in
    install_tools tools toolNames).

Definition getActiveTools (h : AgentHarness S U) : list (option tool_ref) := map (tool_named (h_tools h)) (h_activeToolNames h).

Definition with_mode (mode : QueueMode) (q : message_queue) : message_queue := mkMessageQueue (mq_items q) (mq_array q) mode.
Definition setSteeringMode (mode : QueueMode) : MH unit := modify (fun h => set_steer (with_mode mode (h_steerQueue h)) h).
Definition setFollowUpMode (mode : QueueMode) : MH unit := modify (fun h => set_follow (with_mode mode (h_followUpQueue h)) h).

Definition setResources (resources : AgentHarnessResources) : MH unit :=
  let* previousResources := from h_resources in
  do* modify (set_resources resources) in
  emitOwn (HResourcesUpdate resources previousResources).

Definition setStreamOptions (o : AgentHarnessStreamOptions) : MH unit := modify (set_stream o).

(** ** Interruption *)

Definition waitForIdle : MH unit := modify (fun h => if h_runPromise h then until_settled h else h).

Definition empty_array (q : message_queue) : message_queue := mkMessageQueue [] (Datatypes.S (mq_array q)) (mq_mode q).

Definition signal_abort (h : AgentHarness S U) : AgentHarness S U :=
  match h_runAbortController h with
  | Some run => set_runs (alter (fun r => mkRun true (rv_activeTurnState r)) run (h_runs h)) h
  | None => h
  end.

(** The error of a call, as a list. *)
Definition collect_error (c : MH unit) : MH (list thrown) := catch (do* c in ret []) (fun e => ret [e]).

Definition abort : MH (list AgentMessage * list AgentMessage) :=
  let* h := get in
  let clearedSteer := mq_items (h_steerQueue h) in
  let clearedFollowUp := mq_items (h_followUpQueue h) in
  do* modify (fun h => set_steer (empty_array (h_steerQueue h)) h) in
  do* modify (fun h => set_follow (empty_array (h_followUpQueue h)) h) in
  do* modify signal_abort in
  let* e1 := collect_error emitQueueUpdate in
  let* e2 := collect_error waitForIdle in
  let* e3 := collect_error (emitOwn (HAbort clearedSteer clearedFollowUp)) in
  match e1 ++ e2 ++ e3 with
  | [] => ret (clearedSteer, clearedFollowUp)
  | [e] => throw (normalizeHarnessError e he_hook)
  | _ => throw (normalizeHarnessError (TError (js "Abort completed with errors")) he_hook)
  end.

(** ** The constructor *)

Record harness_options := mkHarnessOptions {
  op_tools : option (list tool_ref); op_resources : option AgentHarnessResources; op_streamOptions : option AgentHarnessStreamOptions;
  op_model : Model; op_thinkingLevel : option jsstr; op_activeToolNames : option (list jsstr);
  op_steeringMode : option QueueMode; op_followUpMode : option QueueMode; op_completionMode : option CompletionMode;
}.

Definition no_stream_options : AgentHarnessStreamOptions := mkHarnessStream None None None None None None None.

Definition new_AgentHarness (o : harness_options) (session : world S) (user : U) : result thrown (AgentHarness S U) :=
  let tools := named_tools (default [] (op_tools o)) in
  let active := default (map fst tools) (op_activeToolNames o) in
  match unique_names (map fst tools) "Duplicate tool name(s)", unique_names active "Duplicate active tool name(s)",
        known_names active (map fst tools) with
  | Ok _, Ok _, Ok _ =>
      Ok (mkHarness session phase_idle None false [] (op_model o) (default (js "off") (op_thinkingLevel o))
            (default no_stream_options (op_streamOptions o)) (default (mkResources None None) (op_resources o)) tools active
            (mkMessageQueue [] 0 (default one_at_a_time (op_steeringMode o)))
            (mkMessageQueue [] 0 (default one_at_a_time (op_followUpMode o))) [] (op_completionMode o) [] user)
  | Throw e, _, _ => Throw e
  | _, Throw e, _ => Throw e
  | _, _, Throw e => Throw e
  end.
End Harness.

Arguments HarnessParts : clear implicits.
Arguments HarnessHooks : clear implicits.
Arguments SimpleStreamOptions : clear implicits.
