(* ===== verification/HarnessProps.v ===== *)
(** Theorems about the operations of the harness: writes that wait for a turn to
    end are written in order, the tools stay consistent, and exclusive operations
    refuse a busy harness and leave an idle one. *)
From S2P Require Import Prelude JsString Json JsonParse Effects Uuid Messages SessionTree SessionLaws SessionProps Compaction.
From S2P Require Import BranchSummary PromptTemplates Protocol LoopTypes Queue ToolBatch Recovery AgentLoop LoopEnv HarnessState Harness.
#[local] Open Scope eff.

(** ** Names *)

Lemma duplicate_loop_nil names seen dups :
  duplicate_loop names seen dups = [] <-> dups = [] /\ NoDup names /\ forall n, n ∈ names -> n ∉ seen.
Proof.
  revert seen dups. induction names as [|x names IH]; intros seen dups; cbn [duplicate_loop].
  { split; [|by intros [-> _]]. intros ->. split_and!; [done|constructor|]. by intros n ?%elem_of_nil. }
  rewrite IH, NoDup_cons. destruct (bool_decide_reflect (x ∈ seen)) as [Hin|Hin]; cbn [andb].
  - split.
    + intros [H _]. case_bool_decide as Hd; cbn [negb] in H; [subst; by apply elem_of_nil in Hd|by destruct dups].
    + intros (_ & _ & H). exfalso. by apply (H x); [left|].
  - split.
    + intros (-> & Hnd & H). split_and!; [done| |done|].
      * intros Hx. apply (H x Hx). by left.
      * intros n [->|Hn]%elem_of_cons; [done|]. intros Hs. apply (H n Hn). by right.
    + intros (-> & [Hx Hnd] & H). split_and!; [done|done|]. intros n Hn [->|Hs]%elem_of_cons; [done|].
      apply (H n); [by right|done].
Qed.

Lemma findDuplicateNames_nil names : findDuplicateNames names = [] <-> NoDup names.
Proof. unfold findDuplicateNames. rewrite duplicate_loop_nil. split; [by intros (_ & Hn & _)|].
  intros Hn. split_and!; [done|done|]. by intros n _ ?%elem_of_nil. Qed.

Lemma unique_names_ok names message u : unique_names names message = Ok u -> NoDup names.
Proof.
  unfold unique_names. destruct (findDuplicateNames names) eqn:E; [|done]. intros _. by apply findDuplicateNames_nil.
Qed.

Lemma known_names_ok names tools u : known_names names tools = Ok u -> NoDup names /\ names ⊆ tools.
Proof.
  unfold known_names. destruct (unique_names _ _) eqn:E; [|done]. apply unique_names_ok in E.
  destruct (List.filter _ names) eqn:Ef; [|done]. intros _. split; [done|]. intros n Hn.
  destruct (bool_decide_reflect (n ∈ tools)) as [|Ht]; [done|]. exfalso.
  assert (Hin : In n (List.filter (fun n => negb (bool_decide (n ∈ tools))) names)).
  { apply filter_In. split; [by apply list_elem_of_In|]. by rewrite bool_decide_eq_false_2. }
  by rewrite Ef in Hin.
Qed.

(** ** Computations that keep a predicate *)

Section Keeps.
Context {S : Type} {U : Type}.
Local Abbreviation H := (AgentHarness S U).
Local Abbreviation MH := (M H thrown).

(** Whether it returns or throws. *)
Definition keeps {A} (P : H -> Prop) (c : MH A) : Prop := forall h, P h -> P (c h).2.

Lemma kept_ret {A} P (a : A) : keeps P (ret a).
Proof. by intros h. Qed.
Lemma kept_throw {A} P e : keeps (A := A) P (throw e).
Proof. by intros h. Qed.
Lemma kept_get P : keeps P get.
Proof. by intros h. Qed.
Lemma kept_from {A} P (f : H -> A) : keeps P (from f).
Proof. by intros h. Qed.
Lemma kept_of_result {A} P (r : result thrown A) : keeps P (of_result r).
Proof. by intros h. Qed.
Lemma kept_bind {A B} P (c : MH A) (k : A -> MH B) : keeps P c -> (forall a, keeps P (k a)) -> keeps P (bind c k).
Proof.
  intros Hc Hk h Hh. unfold bind. specialize (Hc h Hh). destruct (c h) as [[a|e] h']; [by apply Hk|done].
Qed.
Lemma kept_catch {A} P (c : MH A) k : keeps P c -> (forall e, keeps P (k e)) -> keeps P (catch c k).
Proof. intros Hc Hk h Hh. unfold catch. specialize (Hc h Hh). destruct (c h) as [[a|e] h']; [done|by apply Hk]. Qed.
Lemma kept_modify P f : (forall h, P h -> P (f h)) -> keeps P (modify f).
Proof. intros Hf h Hh. by apply Hf. Qed.
Lemma kept_lift {A} P (f : H -> A * H) : (forall h, P h -> P (f h).2) -> keeps P (lift f).
Proof. intros Hf h Hh. unfold lift. specialize (Hf h Hh). by destruct (f h). Qed.
Lemma kept_finally {A} P (c : MH A) f : keeps P c -> keeps P f -> keeps P (finally c f).
Proof.
  intros Hc Hf h Hh. unfold finally. specialize (Hc h Hh). destruct (c h) as [r h1]. specialize (Hf h1 Hc).
  by destruct (f h1) as [[]].
Qed.
Lemma kept_settle {A} P (c : MH (option A)) f : keeps P c -> keeps P f -> keeps P (settle_finally c f).
Proof.
  intros Hc Hf h Hh. unfold settle_finally. specialize (Hc h Hh). destruct (c h) as [[[a|]|e] h1]; [|done|];
    specialize (Hf h1 Hc); by destruct (f h1) as [[]].
Qed.
Lemma kept_on_session {A} (P : H -> Prop) (c : M (world S) SessionError A) :
  (forall h, P h -> P (set_session (c (h_session h)).2 h)) -> keeps P (on_session c).
Proof. intros Hc h Hh. unfold on_session. specialize (Hc h Hh). by destruct (c (h_session h)). Qed.
Lemma kept_to_hook {A} (P : H -> Prop) (c : MH A) h : keeps P c -> P h -> P (to_hook c h).2.
Proof. intros Hc Hh. unfold to_hook. specialize (Hc h Hh). by destruct (c h). Qed.
End Keeps.

Create HintDb harness.
#[export] Hint Resolve kept_ret kept_throw kept_get kept_from kept_of_result kept_modify : harness.

(** ** Writes that wait *)

Section Flush.
Context {S : Type} `{SessionStorageOk S} {U Signal : Type} (parts : HarnessParts S U Signal).
Local Abbreviation Harness := (AgentHarness S U).

(** The entry a queued write becomes; compactions and branch summaries are never
    queued, and would be dropped. *)
Definition written_body (w : PendingSessionWrite) : option entry_body :=
  match w with
  | ESessionInfo name => Some (ESessionInfo (Some (trim (default [] name))))
  | ECompaction _ _ _ _ _ | EBranchSummary _ _ _ _ => None
  | _ => Some w
  end.

(** Nothing but the session, the clock and the writes still waiting differs. *)
Definition flushed (h h' : Harness) : Prop :=
  h' = set_user (h_user h') (set_pending (h_pendingSessionWrites h') (set_session (h_session h') h)).

Lemma flushed_refl h : flushed h h.
Proof. by destruct h. Qed.
Lemma flushed_trans h1 h2 h3 : flushed h1 h2 -> flushed h2 h3 -> flushed h1 h3.
Proof. unfold flushed. intros H1 H2. rewrite H2, H1. by destruct h1. Qed.

(** Entries with these bodies were added to the log. *)
Definition logged (h h' : Harness) (bodies : list entry_body) : Prop :=
  exists es, store_view (h_session h') = store_view (h_session h) ++ es /\ map e_body es = bodies.

Lemma logged_trans h1 h2 h3 l1 l2 : logged h1 h2 l1 -> logged h2 h3 l2 -> logged h1 h3 (l1 ++ l2).
Proof.
  intros (es1 & H1 & <-) (es2 & H2 & <-). exists (es1 ++ es2). by rewrite H2, H1, map_app, app_assoc.
Qed.

(** A session operation that appends one entry, at the current time. *)
Lemma at_time_append k (h : Harness) A (c : jsstr -> M (world S) SessionError A) body r h' :
  (forall t w, store_inv (Datatypes.S k) w ->
     (exists a w' id, c t w = (Ok a, w') /\ store_inv k w' /\ store_view w' = store_view w ++ [mkEntry id (last_leaf (store_view w)) t body]) \/
     (exists err w', c t w = (Throw err, w') /\ store_inv k w' /\ store_view w' = store_view w)) ->
  store_inv (Datatypes.S k) (h_session h) -> at_time parts c h = (r, h') ->
  flushed h h' /\ h_pendingSessionWrites h' = h_pendingSessionWrites h /\ store_inv k (h_session h') /\
  match r with Ok _ => logged h h' [body] | Throw _ => logged h h' [] end.
Proof.
  intros Hc Hi E. unfold at_time, bind, lift, h_iso in E. destruct (hs_iso parts (h_user h)) as [t u].
  unfold on_session in E. cbn [h_session set_user] in E.
  destruct (Hc t (h_session h) Hi) as [(a & w' & id & E1 & Hi' & Hv)|(err & w' & E1 & Hi' & Hv)];
    rewrite E1 in E; injection E as <- <-; destruct h; simpl; split_and!; try done.
  - eexists. split; [exact Hv|done].
  - exists []. split; [|done]. by rewrite app_nil_r.
Qed.

Lemma append_body_case k body t w : plain_body body -> store_inv (Datatypes.S k) w ->
  (exists (a : jsstr) w' id, append_body t body w = (Ok a, w') /\ store_inv k w' /\
     store_view w' = store_view w ++ [mkEntry id (last_leaf (store_view w)) t body]) \/
  (exists err w', append_body t body w = (Throw err, w') /\ store_inv k w' /\ store_view w' = store_view w).
Proof.
  intros Hb Hi. destruct (append_body_spec k w t body Hi Hb) as [(id & w' & E & Hi' & _ & Hv & _)|(err & w' & E & Hi' & Hv)].
  - left. by exists id, w', id.
  - right. by exists err, w'.
Qed.

Lemma appendLabel_case k target label t w : store_inv (Datatypes.S k) w ->
  (exists (a : jsstr) w' id, appendLabel t target label w = (Ok a, w') /\ store_inv k w' /\
     store_view w' = store_view w ++ [mkEntry id (last_leaf (store_view w)) t (ELabel target label)]) \/
  (exists err w', appendLabel t target label w = (Throw err, w') /\ store_inv k w' /\ store_view w' = store_view w).
Proof.
  intros Hi. destruct (index_entries (store_view w) !! target) as [e|] eqn:Ei.
  - replace (appendLabel t target label w) with (append_body t (ELabel target label) w); [by apply append_body_case|].
    unfold appendLabel. unfold bind at 1. by rewrite (law_getEntry _ w target Hi), Ei.
  - right. exists (entry_not_found not_found target), w. split_and!; [|by apply store_weaken|done].
    unfold appendLabel, bind. by rewrite (law_getEntry _ w target Hi), Ei.
Qed.

Definition write_result (k : nat) (h h' : Harness) (w : PendingSessionWrite) (r : result thrown unit) : Prop :=
  flushed h h' /\ h_pendingSessionWrites h' = h_pendingSessionWrites h /\ store_inv k (h_session h') /\
  match r with Ok _ => logged h h' (option_list (written_body w)) | Throw _ => logged h h' [] end.

Lemma write_entry_spec k h w r h' : plain_body w -> store_inv (Datatypes.S k) (h_session h) ->
  write_entry parts w h = (r, h') -> write_result k h h' w r.
Proof.
  intros Hw Hi.
  assert (Hdo : forall c body, (forall t w, store_inv (Datatypes.S k) w ->
     (exists (a : jsstr) w' id, c t w = (Ok a, w') /\ store_inv k w' /\ store_view w' = store_view w ++ [mkEntry id (last_leaf (store_view w)) t body]) \/
     (exists err w', c t w = (Throw err, w') /\ store_inv k w' /\ store_view w' = store_view w)) ->
     (do* at_time parts c in ret tt) h = (r, h') -> written_body w = Some body -> write_result k h h' w r).
  { intros c body Hc E Hb. unfold bind in E. destruct (at_time parts c h) as [r1 h1] eqn:E1.
    destruct (at_time_append k h _ c body r1 h1 Hc Hi E1) as (Hf & Hp & Hi1 & Hl).
    unfold write_result. rewrite Hb. destruct r1; injection E as <- <-; by split_and!. }
  assert (Hskip : ret tt h = (r, h') -> written_body w = None -> write_result k h h' w r).
  { intros [= <- <-] Hb. unfold write_result. rewrite Hb. split_and!; [apply flushed_refl|done|by apply store_weaken|].
    exists []. by rewrite app_nil_r. }
  destruct w; simpl in Hw; try done; cbn [write_entry]; intros E;
    first [eapply Hdo; [|exact E|reflexivity]; intros; first [by apply append_body_case|by apply appendLabel_case] | by apply Hskip].
Qed.

Lemma flush_writes_spec k ws h r h' : Forall plain_body ws -> h_pendingSessionWrites h = ws ->
  store_inv (k + length ws) (h_session h) -> flush_writes parts ws h = (r, h') ->
  exists done rest, ws = done ++ rest /\ h_pendingSessionWrites h' = rest /\ flushed h h' /\ store_inv k (h_session h') /\
    logged h h' (omap written_body done) /\ match r with Ok _ => rest = [] | Throw _ => rest <> [] end.
Proof.
  revert h. induction ws as [|w ws IH]; intros h Hpl Hp Hi E.
  { injection E as <- <-. exists [], []. rewrite Nat.add_0_r in Hi. split_and!; try done; [apply flushed_refl|].
    exists []. by rewrite app_nil_r. }
  apply Forall_cons in Hpl as [Hw Hpl]. cbn [length] in Hi. rewrite Nat.add_succ_r in Hi.
  cbn [flush_writes] in E. unfold bind at 1 in E. destruct (write_entry parts w h) as [r1 h1] eqn:E1.
  destruct (write_entry_spec _ h w r1 h1 Hw Hi E1) as (Hf & Hp1 & Hi1 & Hl).
  destruct r1 as [u|e].
  - unfold bind, modify in E.
    destruct (IH (set_pending ws h1)) as (dn & rest & Hws & Hp' & Hf' & Hi' & Hl' & Hr); [done|done|done|exact E|].
    exists (w :: dn), rest. split_and!; [by rewrite Hws|done| |done| |done].
    + eapply flushed_trans; [|exact Hf']. eapply flushed_trans; [exact Hf|]. by destruct h1.
    + change (omap written_body (w :: dn)) with (match written_body w with Some b => b :: omap written_body dn | None => omap written_body dn end).
      replace (match written_body w with Some b => b :: omap written_body dn | None => omap written_body dn end)
        with (option_list (written_body w) ++ omap written_body dn) by by destruct (written_body w).
      eapply logged_trans; [exact Hl|exact Hl'].
  - injection E as <- <-. exists [], (w :: ws). split_and!; try done; [by rewrite Hp1|].
    clear -Hi1. revert Hi1. generalize (h_session h1). intros w0. induction (length ws) as [|n IHn]; [by rewrite Nat.add_0_r|].
    rewrite Nat.add_succ_r. intros Hi. by apply IHn, store_weaken.
Qed.

(** Flushing writes the entries that waited, in the order they were queued.
    When it returns, none is left; when a write fails, the log holds the writes before
    it, and that write and those after it are still waiting, in order, for the next
    flush.  Nothing else of the harness changes. *)
Theorem flush_in_order k h r h' :
  Forall plain_body (h_pendingSessionWrites h) -> store_inv (k + length (h_pendingSessionWrites h)) (h_session h) ->
  flushPendingSessionWrites parts h = (r, h') ->
  exists done rest, h_pendingSessionWrites h = done ++ rest /\ h_pendingSessionWrites h' = rest /\ flushed h h' /\
    store_inv k (h_session h') /\ logged h h' (omap written_body done) /\
    match r with Ok _ => rest = [] | Throw _ => rest <> [] end.
Proof. intros Hp Hi E. by apply flush_writes_spec. Qed.
End Flush.

(** ** The loop on the harness *)

(** Decompose a computation; [leaf] closes the calls it knows. *)
Ltac keeps_with leaf :=
  repeat first
    [ solve [leaf] | apply kept_ret | apply kept_throw | apply kept_get | apply kept_from | apply kept_of_result | assumption
    | apply kept_bind; [|intros ?] | apply kept_catch; [|intros ?]
    | match goal with
      | |- keeps _ (match ?x with _ => _ end) => destruct x
      | |- keeps _ (if ?x then _ else _) => destruct x
      end ].
Ltac keeps_tac := keeps_with fail.

Section UserCode.
Context {S : Type} `{SessionStorage S} {U Signal : Type} (parts : HarnessParts S U Signal).
Local Abbreviation Harness := (AgentHarness S U).

(** A call of the loop, or of the provider, keeps a predicate. *)
Definition keeps_call {A} (P : Harness -> Prop) (f : Harness -> A * Harness) : Prop := forall h, P h -> P (f h).2.

(** The code around the harness keeps [P]: subscribers, hooks, tools, the system
    prompt, authentication and the providers, which may call the callbacks they
    are given. *)
Record user_keeps (P : Harness -> Prop) : Prop := mkUserKeeps {
  uk_subscribers : Forall (fun l => forall ev, keeps P (l ev)) (hs_subscribers parts);
  uk_before_start : Forall (fun f => forall t i s r, keeps P (f t i s r)) (hk_before_agent_start (hs_hooks parts));
  uk_context : Forall (fun f => forall ms, keeps P (f ms)) (hk_context (hs_hooks parts));
  uk_request : Forall (fun f => forall m s o, keeps P (f m s o)) (hk_before_provider_request (hs_hooks parts));
  uk_payload : Forall (fun f => forall m p, keeps P (f m p)) (hk_before_provider_payload (hs_hooks parts));
  uk_tool_call : Forall (fun f => forall i n a, keeps P (f i n a)) (hk_tool_call (hs_hooks parts));
  uk_tool_result : Forall (fun f => forall i n a c d e, keeps P (f i n a c d e)) (hk_tool_result (hs_hooks parts));
  uk_before_compact : Forall (fun f => forall p es c, keeps P (f p es c)) (hk_session_before_compact (hs_hooks parts));
  uk_before_tree : Forall (fun f => forall p, keeps P (f p)) (hk_session_before_tree (hs_hooks parts));
  uk_prompt : forall f, hs_systemPrompt parts = Some (inr f) -> forall m l ts r, keeps P (f m l ts r);
  uk_auth : forall f, hs_getApiKeyAndHeaders parts = Some f -> forall m, keeps P (f m);
  uk_tools : forall t, calm_tool (fun A => keeps_call P) (hs_tool_object parts t);
  uk_stream : forall m c o, (forall p, keeps_call P (ss_onPayload o p)) -> (forall s hs, keeps_call P (ss_onResponse o s hs)) ->
    keeps_call P (hs_streamSimple parts m c o) /\
    forall h r h', hs_streamSimple parts m c o h = (Ok r, h') -> calm_events (fun A => keeps_call P) (rs_events r) /\ keeps_call P (rs_result r);
  uk_complete : forall m s ms o, keeps P (hs_completeSimple parts m s ms o);
  uk_settled : forall h, P h -> P (hs_until_settled parts h);
}.

Section Keeping.
Context (P : Harness -> Prop) (Huser : user_keeps P).

Lemma emit_keeps ev : keeps P (emitOwn parts ev).
Proof using Huser.
  unfold emitOwn. pose proof (uk_subscribers P Huser) as Hs. induction Hs as [|l ls Hl Hls IH]; cbn [notify_all]; keeps_tac. apply Hl.
Qed.

Lemma handlers_keep {R} (handlers : list (M Harness thrown (option R))) : Forall (keeps P) handlers -> keeps P (emitHook handlers).
Proof.
  unfold emitHook. generalize (@None R). intros last Hs. revert last.
  induction Hs as [|f fs Hf Hfs IH]; intros last; cbn [run_handlers]; keeps_tac. apply IH.
Qed.

Lemma map_keeps {A R} (g : A -> M Harness thrown (option R)) (l : list A) :
  Forall (fun f => keeps P (g f)) l -> keeps P (emitHook (map g l)).
Proof. intros Hl. apply handlers_keep. by apply Forall_map. Qed.

Lemma request_keeps m s o : keeps P (emitBeforeProviderRequest parts m s o).
Proof using Huser.
  unfold emitBeforeProviderRequest. pose proof (uk_request P Huser) as Hs. revert o.
  induction Hs as [|f fs Hf Hfs IH]; intros o; cbn [request_handlers]; keeps_tac; [apply Hf|apply IH].
Qed.

Lemma payload_keeps m p : keeps P (emitBeforeProviderPayload parts m p).
Proof using Huser.
  unfold emitBeforeProviderPayload. pose proof (uk_payload P Huser) as Hs. revert p.
  induction Hs as [|f fs Hf Hfs IH]; intros p; cbn [payload_handlers]; keeps_tac; [apply Hf|apply IH].
Qed.

Lemma queue_update_keeps : keeps P (emitQueueUpdate parts).
Proof using Huser. unfold emitQueueUpdate. keeps_with ltac:(apply emit_keeps). Qed.

Lemma drain_keeps queue set_queue : (forall q h, P h -> P (set_queue q h)) ->
  keeps P (drainQueuedMessages parts queue set_queue).
Proof using Huser.
  intros Hset. unfold drainQueuedMessages. keeps_with ltac:(apply queue_update_keeps); apply kept_modify; intros; by apply Hset.
Qed.

Lemma auth_keeps m : keeps P (find_auth parts m).
Proof using Huser.
  unfold find_auth. destruct (hs_getApiKeyAndHeaders parts) as [f|] eqn:E; [|apply kept_ret]. by apply (uk_auth P Huser f E).
Qed.

Lemma call_keeps {A} (c : M Harness thrown A) : keeps P c -> keeps_call P (to_hook c).
Proof. intros Hc h. by apply kept_to_hook. Qed.

(** A provider call and its response keep [P]. *)
Definition stream_keeps (f : hook Harness (response Harness)) : Prop :=
  keeps_call P f /\
  forall h r h', f h = (Ok r, h') -> calm_events (fun A => keeps_call P) (rs_events r) /\ keeps_call P (rs_result r).

Lemma provider_request_keeps ts m o : keeps P (provider_request parts ts m o).
Proof using Huser. unfold provider_request. keeps_with ltac:(first [apply auth_keeps|apply request_keeps]). Qed.

Lemma provider_request_callbacks ts m o h so h' c : to_hook (provider_request parts ts m o) h = (Ok so, h') ->
  stream_keeps (hs_streamSimple parts m c so).
Proof using Huser.
  intros E. unfold to_hook, provider_request, bind in E. destruct (find_auth parts m h) as [[a|e] h1]; [|done].
  destruct (emitBeforeProviderRequest _ _ _ _ h1) as [[ro|e] h2]; [|done]. injection E as <- <-.
  apply (uk_stream P Huser); intros; apply call_keeps; [apply payload_keeps|apply emit_keeps].
Qed.

Lemma stream_fn_keeps run ts m c o : stream_keeps (createStreamFn parts run ts m c o).
Proof using Huser.
  split; intros h; unfold createStreamFn.
  - intros Hh. pose proof (call_keeps _ (provider_request_keeps (active_turn_state run ts h) m o) h Hh) as H1.
    destruct (to_hook _ h) as [[so|e] h1] eqn:E; [|done]. by apply (provider_request_callbacks _ _ _ _ _ _ c E).
  - intros r h'. destruct (to_hook _ h) as [[so|e] h1] eqn:E; [|done]. apply (provider_request_callbacks _ _ _ _ _ _ c E).
Qed.
End Keeping.

(** ** Runs *)

(** An invariant between the events of a run and the harness it runs on. *)
Context (I : list AgentEvent -> Harness -> Prop).

Record run_keeps : Prop := mkRunKeeps {
  rk_user : forall tr, user_keeps (I tr);
  rk_runs : forall tr rs h, I tr h -> I tr (set_runs rs h);
  rk_steer : forall tr q h, I tr h -> I tr (set_steer q h);
  rk_follow : forall tr q h, I tr h -> I tr (set_follow q h);
  rk_clock : forall tr u h, I tr h -> I tr (set_user u h);
  rk_context : forall tr h, I tr h -> I tr (set_session (buildContext (hs_get_time parts) (h_session h)).2 h);
  rk_id : forall tr h, I tr h -> I tr (set_session (hs_session_id parts (h_session h)).2 h);
  rk_flush : forall tr, keeps (I tr) (flushPendingSessionWrites parts);
  rk_event : forall ev tr h, I tr h -> I (tr ++ [ev]) (handleAgentEvent parts ev h).2;
}.
Context (Hrun : run_keeps).

(** Calm for every trace. *)
Definition calm_always (A : Type) (f : Harness -> A * Harness) : Prop := forall tr, keeps_call (I tr) f.

Lemma calm_proc_always p : (forall tr, calm_proc (fun A => keeps_call (I tr)) p) -> calm_proc calm_always p.
Proof.
  induction p as [settle|report rest IH]; intros Hp; simpl; [exact Hp|]. split; [intros tr; apply Hp|].
  intros h. apply IH. intros tr. apply Hp.
Qed.

Lemma calm_events_always evs : (forall tr, calm_events (fun A => keeps_call (I tr)) evs) -> calm_events calm_always evs.
Proof.
  induction evs as [|pull rest IH]; intros Hp; simpl; [done|]. split; [intros tr; apply Hp|].
  intros h. apply IH. intros tr. apply Hp.
Qed.

Lemma calm_context ts prompt : calm_tools calm_always (cx_tools (createContext parts ts prompt)).
Proof using Hrun.
  unfold calm_tools. simpl. apply Forall_map, Forall_true. intros t id args. apply calm_proc_always.
  intros tr. apply (uk_tools _ (rk_user Hrun tr)).
Qed.

Lemma turn_state_keeps tr : keeps (I tr) (createTurnState parts).
Proof using Hrun.
  unfold createTurnState. apply kept_bind; [apply kept_on_session, (rk_context Hrun)|]. intros ctx.
  apply kept_bind; [apply kept_from|]. intros res. apply kept_bind; [apply kept_on_session, (rk_id Hrun)|]. intros id.
  apply kept_bind; [apply kept_get|]. intros h. apply kept_bind; [|intros; keeps_tac].
  destruct (hs_systemPrompt parts) as [[text|f]|] eqn:E; keeps_tac. by apply (uk_prompt _ (rk_user Hrun tr)).
Qed.

Lemma next_turn_keeps tr run : keeps (I tr) (prepareNextTurn parts run).
Proof using Hrun.
  unfold prepareNextTurn. keeps_with ltac:(first [apply (rk_flush Hrun)|apply turn_state_keeps]).
  apply kept_modify. intros h. apply (rk_runs Hrun).
Qed.

Lemma prepareNextTurn_context run h u c h' :
  to_hook (prepareNextTurn parts run) h = (Ok (Some u), h') -> tu_context u = Some c -> calm_tools calm_always (cx_tools c).
Proof using Hrun.
  intros E Hc. unfold to_hook, prepareNextTurn, bind, modify, from in E.
  destruct (flushPendingSessionWrites parts h) as [[[]|e] h1]; [|done].
  destruct (createTurnState parts h1) as [[ts|e] h2]; [|done]. injection E as <- <-. injection Hc as <-. apply calm_context.
Qed.

Lemma calm_hook {A} (c : M Harness thrown A) : (forall tr, keeps (I tr) c) -> calm_always _ (to_hook c).
Proof. intros Hc tr. apply call_keeps, Hc. Qed.

Lemma harness_config_calm run ts mode : calm_config calm_always (createLoopConfig parts run ts mode).
Proof using Hrun.
  pose proof (fun tr => rk_user Hrun tr) as Hu. constructor; cbn -[calm_always to_hook]; try done.
  - intros ms. apply calm_hook. intros tr. apply kept_ret.
  - intros ms. apply calm_hook. intros tr. apply kept_bind; [|intros; apply kept_ret]. apply map_keeps.
    eapply Forall_impl; [apply (uk_context _ (Hu tr))|]. auto.
  - intros info. split; [apply calm_hook; intros tr; apply next_turn_keeps|]. apply prepareNextTurn_context.
  - apply calm_hook. intros tr. apply drain_keeps; [apply Hu|]. apply (rk_steer Hrun).
  - apply calm_hook. intros tr. apply drain_keeps; [apply Hu|]. apply (rk_follow Hrun).
  - intros am call args eff ctx. apply calm_hook. intros tr. apply map_keeps.
    eapply Forall_impl; [apply (uk_tool_call _ (Hu tr))|]. auto.
  - intros am call args eff r b ctx. apply calm_hook. intros tr. apply map_keeps.
    eapply Forall_impl; [apply (uk_tool_result _ (Hu tr))|]. auto.
Qed.

Lemma harness_surroundings run ts :
  CalmSurroundings calm_always I (fun ev => to_hook (handleAgentEvent parts ev)) (h_now parts) (createStreamFn parts run ts).
Proof using Hrun.
  constructor.
  - intros A f Hf tr h. apply Hf.
  - by intros A a tr h.
  - intros ev tr h Hh. pose proof (rk_event Hrun ev tr h Hh) as Hs. unfold to_hook. by destruct (handleAgentEvent parts ev h).
  - intros tr h Hh. unfold h_now. pose proof (rk_clock Hrun tr (hs_now parts (h_user h)).2 h Hh) as Hc.
    by destruct (hs_now parts (h_user h)).
  - intros m c o tr. apply stream_fn_keeps, (rk_user Hrun).
  - intros m c o h r h' E. split; [apply calm_events_always|]; intros tr; by eapply (stream_fn_keeps (I tr) (rk_user Hrun tr)).
Qed.

(** The loop maintains the invariant, whether it returns or throws. *)
Lemma harness_loop_maintains fuel run ts messages prompt h : I [] h ->
  let w := (harness_loop parts fuel run ts messages prompt h).2 in I (lw_trace w) (lw_env w).
Proof using Hrun.
  intros Hh. pose proof (harness_surroundings run ts) as Hs. unfold harness_loop.
  apply (runAgentLoop_maintains calm_always I); [exact Hs|apply harness_config_calm|apply calm_context|done].
Qed.
End UserCode.
