(* ===== verification/HarnessOps.v ===== *)
(** Every operation of the harness: the tools stay consistent whatever is called,
    an idle harness comes back idle, and a busy one refuses a second run. *)
From S2P Require Import Prelude JsString Json JsonParse Effects Uuid Messages SessionTree SessionLaws SessionProps Compaction.
From S2P Require Import BranchSummary PromptTemplates Protocol LoopTypes Queue ToolBatch Recovery AgentLoop LoopEnv LoopTrace.
From S2P Require Import LoopProps HarnessState Harness HarnessProps.
#[local] Open Scope eff.

(** What a caller can ask of the harness. *)
Inductive harness_op :=
  | DoPrompt (text : jsstr) (options : prompt_options)
  | DoSkill (name : jsstr) (additionalInstructions : option jsstr) (options : prompt_options)
  | DoTemplate (name : jsstr) (args : list jsstr) (options : prompt_options)
  | DoSteer (text : jsstr) (images : option (list content_block))
  | DoFollowUp (text : jsstr) (images : option (list content_block))
  | DoNextTurn (text : jsstr) (images : option (list content_block))
  | DoAppendMessage (m : AgentMessage)
  | DoCompact (customInstructions : option jsstr)
  | DoNavigate (targetId : jsstr) (options : navigate_options)
  | DoSetModel (m : Model)
  | DoSetThinkingLevel (level : jsstr)
  | DoSetTools (tools : list tool_ref) (activeToolNames : option (list jsstr))
  | DoSetActiveTools (names : list jsstr)
  | DoSetSteeringMode (mode : QueueMode)
  | DoSetFollowUpMode (mode : QueueMode)
  | DoSetResources (r : AgentHarnessResources)
  | DoSetStreamOptions (o : AgentHarnessStreamOptions)
  | DoAbort.

Section Operations.
Context {S : Type} `{SessionStorage S} {U Signal : Type} (parts : HarnessParts S U Signal).
Local Abbreviation Harness := (AgentHarness S U).

(** [false] when the fuel does not end the run. *)
Definition exec (fuel : nat) (op : harness_op) : M Harness thrown bool :=
  let ended (c : M Harness thrown (option AssistantMessage)) :=
    let* r := c in ret (match r with Some _ => true | None => false end) in
  match op with
  | DoPrompt text o => ended (prompt parts fuel text o)
  | DoSkill name extra o => ended (skill parts fuel name extra o)
  | DoTemplate name args o => ended (promptFromTemplate parts fuel name args o)
  | DoSteer text images => do* steer parts text images in ret true
  | DoFollowUp text images => do* followUp parts text images in ret true
  | DoNextTurn text images => do* nextTurn parts text images in ret true
  | DoAppendMessage m => do* harness_appendMessage parts m in ret true
  | DoCompact c => do* harness_compact parts c in ret true
  | DoNavigate t o => do* navigateTree parts t o in ret true
  | DoSetModel m => do* setModel parts m in ret true
  | DoSetThinkingLevel l => do* setThinkingLevel parts l in ret true
  | DoSetTools ts names => do* setTools parts ts names in ret true
  | DoSetActiveTools names => do* setActiveTools parts names in ret true
  | DoSetSteeringMode m => do* setSteeringMode m in ret true
  | DoSetFollowUpMode m => do* setFollowUpMode m in ret true
  | DoSetResources r => do* setResources parts r in ret true
  | DoSetStreamOptions o => do* setStreamOptions o in ret true
  | DoAbort => do* abort parts in ret true
  end.

(** A caller that goes on whatever a call throws. *)
Fixpoint exec_all (fuel : nat) (ops : list harness_op) (h : Harness) : Harness :=
  match ops with
  | [] => h
  | op :: ops' => exec_all fuel ops' (exec fuel op h).2
  end.

(** ** Predicates that ignore most fields *)

(** Every field but the phase and the tools is free. *)
Record fields_free (P : Harness -> Prop) : Prop := mkFree {
  ff_session : forall w h, P h -> P (set_session w h);
  ff_abort : forall c h, P h -> P (set_abort c h);
  ff_running : forall b h, P h -> P (set_running b h);
  ff_pending : forall l h, P h -> P (set_pending l h);
  ff_model : forall m h, P h -> P (set_model m h);
  ff_thinking : forall l h, P h -> P (set_thinking l h);
  ff_stream : forall o h, P h -> P (set_stream o h);
  ff_resources : forall r h, P h -> P (set_resources r h);
  ff_steer : forall q h, P h -> P (set_steer q h);
  ff_follow : forall q h, P h -> P (set_follow q h);
  ff_next : forall l h, P h -> P (set_next l h);
  ff_completion : forall m h, P h -> P (set_completion m h);
  ff_runs : forall rs h, P h -> P (set_runs rs h);
  ff_user : forall u h, P h -> P (set_user u h);
}.

(** Tools under distinct names, each its own. *)
Definition sound_tools (tools : list (jsstr * tool_ref)) : Prop :=
  NoDup (map fst tools) /\ Forall (fun kv => kv.1 = at_name (hs_tool_object parts kv.2)) tools.

(** Active names, distinct and known. *)
Definition known_active (tools : list (jsstr * tool_ref)) (names : list jsstr) : Prop := NoDup names /\ names ⊆ map fst tools.

Section Keeping.
Context (P : Harness -> Prop) (Huser : user_keeps parts P) (Hfree : fields_free P).
(** New tools, or those of a harness where [P] holds. *)
Definition installable (tools : list (jsstr * tool_ref)) : Prop := sound_tools tools \/ exists h, P h /\ tools = h_tools h.
Context (Htools : forall tools names h, installable tools -> known_active tools names -> P h -> P (set_tools tools names h)).

Lemma clock_keeps : keeps P (lift (h_now parts)).
Proof using Hfree.
  apply kept_lift. intros h Hh. unfold h_now. pose proof (ff_user P Hfree (hs_now parts (h_user h)).2 h Hh) as H1.
  by destruct (hs_now parts (h_user h)).
Qed.

Lemma session_keeps {A} (c : M (world S) SessionError A) : keeps P (on_session c).
Proof using Hfree. apply kept_on_session. intros h. apply (ff_session P Hfree). Qed.

Lemma at_time_keeps {A} (c : jsstr -> M (world S) SessionError A) : keeps P (at_time parts c).
Proof using Hfree.
  unfold at_time. apply kept_bind; [|intros; apply session_keeps]. apply kept_lift. intros h Hh. unfold h_iso.
  pose proof (ff_user P Hfree (hs_iso parts (h_user h)).2 h Hh) as H1. by destruct (hs_iso parts (h_user h)).
Qed.

Lemma write_keeps w : keeps P (write_entry parts w).
Proof using Hfree. destruct w; cbn [write_entry]; keeps_with ltac:(apply at_time_keeps). Qed.

Lemma flush_keeps : keeps P (flushPendingSessionWrites parts).
Proof using Hfree.
  unfold flushPendingSessionWrites. apply kept_bind; [apply kept_get|]. intros h0.
  induction (h_pendingSessionWrites h0) as [|w ws IH]; cbn [flush_writes]; keeps_with ltac:(apply write_keeps).
  apply kept_modify. intros h. apply (ff_pending P Hfree).
Qed.

Lemma write_or_queue_keeps w : keeps P (write_or_queue parts w).
Proof using Hfree.
  unfold write_or_queue. keeps_with ltac:(apply write_keeps). apply kept_modify. intros h. apply (ff_pending P Hfree).
Qed.

Local Ltac op_tac :=
  keeps_with ltac:(first
    [ apply (emit_keeps parts P Huser) | apply (queue_update_keeps parts P Huser) | apply clock_keeps | apply session_keeps
    | apply at_time_keeps | apply write_or_queue_keeps | apply flush_keeps | apply (auth_keeps parts P Huser)
    | apply (uk_complete parts P Huser)
    | apply kept_modify; intros; destruct Hfree; auto ]).

Lemma user_message_keeps text images : keeps P (createUserMessage parts text images).
Proof using Hfree. unfold createUserMessage. keeps_with ltac:(apply clock_keeps). Qed.

Lemma queueing_keeps text images :
  keeps P (steer parts text images) /\ keeps P (followUp parts text images) /\ keeps P (nextTurn parts text images).
Proof using Huser Hfree. unfold steer, followUp, nextTurn, createUserMessage. split_and!; op_tac. Qed.

Lemma rethrow_keeps {A} code (c : M Harness thrown A) : keeps P c -> keeps P (rethrow_as code c).
Proof. intros Hc. apply kept_catch; [done|]. intros. apply kept_throw. Qed.

Lemma appendMessage_keeps m : keeps P (harness_appendMessage parts m).
Proof using Hfree. apply rethrow_keeps, write_or_queue_keeps. Qed.

Lemma settings_keep :
  (forall m, keeps P (setModel parts m)) /\ (forall level, keeps P (setThinkingLevel parts level)) /\
  (forall r, keeps P (setResources parts r)) /\ (forall o, keeps P (setStreamOptions o)) /\
  (forall mode, keeps P (setSteeringMode mode)) /\ (forall mode, keeps P (setFollowUpMode mode)).
Proof using Huser Hfree.
  unfold setModel, setThinkingLevel, setResources, setStreamOptions, setSteeringMode, setFollowUpMode.
  split_and!; intros; try apply rethrow_keeps; op_tac.
Qed.

Lemma install_keeps tools names : installable tools -> known_active tools names -> keeps P (install_tools parts tools names).
Proof using Huser Hfree Htools.
  intros Hi Hk. unfold install_tools. op_tac.
Qed.

(** A check before a computation gives it what it checked. *)
Lemma kept_checked {A B} (r : result thrown A) (k : A -> M Harness thrown B) :
  (forall a, r = Ok a -> keeps P (k a)) -> keeps P (bind (of_result r) k).
Proof. intros Hk h Hh. unfold bind, of_result. destruct r; [by apply Hk|done]. Qed.

Lemma named_tools_named ts : Forall (fun kv => kv.1 = at_name (hs_tool_object parts kv.2)) (named_tools parts ts).
Proof. unfold named_tools. by apply Forall_map, Forall_true. Qed.

Lemma tools_keep :
  (forall tools active, keeps P (setTools parts tools active)) /\ (forall names, keeps P (setActiveTools parts names)).
Proof using Huser Hfree Htools.
  unfold setTools, setActiveTools. split; intros; apply rethrow_keeps.
  - apply kept_checked. intros u Hu%unique_names_ok. apply kept_bind; [apply kept_from|]. intros current.
    apply kept_checked. intros u' Hk%known_names_ok. apply install_keeps; [|done]. left. split; [done|apply named_tools_named].
  - intros h Hh. unfold bind at 1, from.
    refine (kept_checked _ _ _ h Hh). intros u Hk%known_names_ok. apply install_keeps; [|done]. right. by exists h.
Qed.

Lemma wait_keeps : keeps P (waitForIdle parts).
Proof using Huser.
  apply kept_modify. intros h Hh. destruct (h_runPromise h); [by apply (uk_settled parts P Huser)|done].
Qed.

Lemma signal_keeps h : P h -> P (signal_abort h).
Proof using Hfree. unfold signal_abort. destruct (h_runAbortController h); [apply (ff_runs P Hfree)|done]. Qed.

Lemma abort_keeps : keeps P (abort parts).
Proof using Huser Hfree.
  unfold abort, collect_error.
  keeps_with ltac:(first [apply (emit_keeps parts P Huser)|apply (queue_update_keeps parts P Huser)|apply wait_keeps
    |apply kept_modify; intros; first [by apply signal_keeps|destruct Hfree; auto]]).
Qed.

(** ** Summaries, compaction and navigation *)

Lemma both_keeps {A B} (c1 : M Harness thrown A) (c2 : M Harness thrown B) :
  keeps P c1 -> keeps P c2 -> keeps P (both (hs_first_of_two parts) c1 c2).
Proof.
  intros H1 H2 h Hh. unfold both. specialize (H1 h Hh). destruct (c1 h) as [r1 h1]. specialize (H2 h1 H1).
  by destruct (c2 h1) as [r2 h2].
Qed.

Lemma compact_keeps p c ci :
  keeps P (Compaction.compact (hs_completeSimple parts) (lift (h_now parts)) (hs_first_of_two parts) p c ci).
Proof using Huser Hfree.
  unfold Compaction.compact, generateSummary, generateTurnPrefixSummary, request_summary.
  destruct (is_empty (cp_firstKeptEntryId p)); [apply kept_ret|]. destruct (_ && _).
  - apply kept_bind; [|intros []; apply kept_ret]. apply both_keeps; [destruct (is_empty _)|]; op_tac.
  - op_tac.
Qed.

Lemma branch_summary_keeps es o hr : keeps P (branch_summary parts es o hr).
Proof using Huser Hfree. unfold branch_summary, authenticate, generateBranchSummary. op_tac. Qed.

Lemma compact_body_keeps ci : keeps P (compact_body parts ci).
Proof using Huser Hfree.
  unfold compact_body, authenticate, obtain_compaction.
  keeps_with ltac:(first
    [ apply compact_keeps | apply (emit_keeps parts P Huser) | apply session_keeps | apply at_time_keeps | apply (auth_keeps parts P Huser)
    | apply map_keeps; eapply Forall_impl; [apply (uk_before_compact parts P Huser)|]; auto ]).
Qed.

Lemma navigate_body_keeps target o : keeps P (navigate_body parts target o).
Proof using Huser Hfree.
  unfold navigate_body, move_with_summary, collect_entries.
  keeps_with ltac:(first
    [ apply branch_summary_keeps | apply (emit_keeps parts P Huser) | apply session_keeps | apply at_time_keeps
    | apply map_keeps; eapply Forall_impl; [apply (uk_before_tree parts P Huser)|]; auto ]).
Qed.

(** ** Runs, for a predicate that ignores the phase too *)

Context (Hphase : forall p h, P h -> P (set_phase p h)).

Lemma exclusively_keeps {A} phase name code (c : M Harness thrown A) : keeps P c -> keeps P (exclusively phase name code c).
Proof using Hphase.
  intros Hc. unfold exclusively. apply kept_bind; [apply kept_get|]. intros h0. destruct (negb _); [apply kept_throw|].
  apply kept_bind; [apply kept_modify; intros h; apply Hphase|]. intros [].
  apply kept_finally; [by apply rethrow_keeps|]. apply kept_modify. intros h. apply Hphase.
Qed.

Lemma event_keeps ev : keeps P (handleAgentEvent parts ev).
Proof using Huser Hfree Hphase.
  unfold handleAgentEvent. destruct ev; op_tac; apply kept_modify; intros h; apply Hphase.
Qed.

Lemma ignoring_run_keeps : run_keeps parts (fun _ => P).
Proof using Huser Hfree Hphase.
  constructor; intros; try (destruct Hfree; by auto); [apply flush_keeps|by apply event_keeps].
Qed.

Lemma run_result_keeps fuel run ts messages prompt : keeps P (run_result parts fuel run ts messages prompt).
Proof using Huser Hfree Hphase.
  intros h Hh. unfold run_result.
  pose proof (harness_loop_maintains parts (fun _ => P) ignoring_run_keeps fuel run ts messages prompt h Hh) as Hw.
  destruct (harness_loop _ _ _ _ _ _ _) as [[[]|e] w]; cbn [snd] in *; try done.
  revert Hw. generalize (lw_env w). apply kept_bind; [apply kept_get|]. intros h'. apply kept_catch; [|intros; apply kept_throw].
  apply kept_bind; [|intros; apply kept_ret]. unfold emitRunFailure, createFailureMessage.
  keeps_with ltac:(first [apply event_keeps|apply clock_keeps]).
Qed.

Lemma execute_keeps fuel ts text images : keeps P (executeTurn parts fuel ts text images).
Proof using Huser Hfree Hphase.
  unfold executeTurn, take_next_turn, begin_run.
  apply kept_bind; [apply user_message_keeps|]. intros m. apply kept_bind; [op_tac|]. intros ms.
  apply kept_bind; [apply map_keeps; eapply Forall_impl; [apply (uk_before_start parts P Huser)|]; auto|]. intros br.
  apply kept_bind; [op_tac|]. intros run. apply kept_settle.
  - keeps_with ltac:(apply run_result_keeps).
  - apply kept_finally; [apply flush_keeps|]. apply kept_modify. intros h. apply (ff_abort P Hfree).
Qed.

Lemma run_prompt_keeps fuel text_of o : keeps P (run_prompt parts fuel text_of o).
Proof using Huser Hfree Hphase.
  unfold run_prompt, startRunPromise, finishRunPromise. apply kept_bind; [apply kept_get|]. intros h0.
  destruct (negb _); [apply kept_throw|]. apply kept_bind; [apply kept_modify; intros h; apply Hphase|]. intros [].
  apply kept_bind; [op_tac|]. intros []. apply kept_bind; [apply kept_from|]. intros mode. apply kept_bind; [op_tac|]. intros [].
  apply kept_settle; [|op_tac]. apply kept_catch.
  - keeps_with ltac:(first [apply (turn_state_keeps parts _ ignoring_run_keeps [])|apply execute_keeps]).
  - intros e. apply kept_bind; [apply kept_modify; intros h; apply Hphase|]. intros. apply kept_throw.
Qed.

Lemma exec_keeps fuel op : keeps P (exec fuel op).
Proof using Huser Hfree Htools Hphase.
  destruct op; cbn [exec]; (apply kept_bind; [|intros; apply kept_ret]);
    first [ apply run_prompt_keeps | apply queueing_keeps | apply appendMessage_keeps | apply settings_keep
          | apply tools_keep | apply abort_keeps | idtac ].
  - apply exclusively_keeps, compact_body_keeps.
  - apply exclusively_keeps, navigate_body_keeps.
Qed.
End Keeping.

(** ** The tools *)

Definition tools_ok (h : Harness) : Prop := sound_tools (h_tools h) /\ known_active (h_tools h) (h_activeToolNames h).

Lemma tools_ok_free : fields_free tools_ok.
Proof. by constructor. Qed.

Lemma exec_all_tools fuel ops h : user_keeps parts tools_ok -> tools_ok h -> tools_ok (exec_all fuel ops h).
Proof.
  intros Hu. revert h. induction ops as [|op ops IH]; intros h Hh; cbn [exec_all]; [done|]. apply IH.
  apply (exec_keeps tools_ok Hu tools_ok_free); [|done|done]. intros tools names h' Hi Hk _. split; [|done].
  destruct Hi as [Hs|(h0 & [Hs _] & ->)]; exact Hs.
Qed.

Lemma new_tools_ok o session user h : new_AgentHarness parts o session user = Ok h -> tools_ok h.
Proof.
  unfold new_AgentHarness. destruct (unique_names _ "Duplicate tool name(s)") eqn:E1; [|done].
  destruct (unique_names _ "Duplicate active tool name(s)"); [|done]. destruct (known_names _ _) eqn:E2; [|done].
  intros [= <-]. apply unique_names_ok in E1. apply known_names_ok in E2. split; [|exact E2]. split; [exact E1|apply named_tools_named].
Qed.

Lemma tool_named_found tools name : sound_tools tools -> name ∈ map fst tools ->
  exists t, tool_named tools name = Some t /\ at_name (hs_tool_object parts t) = name.
Proof.
  intros [_ Hn] Hin. unfold tool_named. destruct (List.find _ tools) as [kv|] eqn:E.
  - apply find_some in E as [Hk Hd]. apply bool_decide_eq_true in Hd. exists kv.2. split; [done|].
    rewrite List.Forall_forall in Hn. by rewrite <- (Hn kv Hk).
  - exfalso. apply list_elem_of_In, in_map_iff in Hin as (kv & <- & Hk). pose proof (find_none _ _ E kv Hk) as Hf.
    cbv beta in Hf. by rewrite bool_decide_eq_true_2 in Hf.
Qed.

(** Consistent tools: each active name has its tool, in order. *)
Lemma active_found h : tools_ok h ->
  exists ts, getActiveTools h = map Some ts /\ map (fun t => at_name (hs_tool_object parts t)) ts = h_activeToolNames h.
Proof.
  intros [Hs [_ Hsub]]. unfold getActiveTools. revert Hsub. generalize (h_activeToolNames h).
  intros names. induction names as [|n names IH]; intros Hsub; [by exists []|].
  destruct IH as (ts & Hm & Hn); [intros x Hx; apply Hsub; by right|].
  destruct (tool_named_found (h_tools h) n Hs) as (t & Ht & Ha); [apply Hsub; by left|].
  exists (t :: ts). simpl. by rewrite Ht, Hm, Ha, Hn.
Qed.

(** ** Phases *)

Definition idle (h : Harness) : Prop := h_phase h = phase_idle.

Lemma idle_free : fields_free idle.
Proof. by constructor. Qed.

(** The responses of the provider open with their start. *)
Definition provider_streams : Prop := forall m c o h r h',
  hs_streamSimple parts m c o h = (Ok r, h') -> wf_events false (rs_events r).

Lemma stream_fn_well run ts : provider_streams -> streams_well (createStreamFn parts run ts).
Proof.
  intros Hp m c o h r h'. unfold createStreamFn. destruct (to_hook _ h) as [[so|e] h1]; [|done]. apply Hp.
Qed.

Section Idle.
Context (Huser : user_keeps parts idle) (Hstream : provider_streams).

Lemma agent_end_idle ms h u h' : handleAgentEvent parts (agent_end ms) h = (Ok u, h') -> idle h'.
Proof using Huser.
  cbn [handleAgentEvent]. unfold bind at 1. destruct (flushPendingSessionWrites parts h) as [[[]|e] h1]; [|done].
  intros E. unfold bind at 1, modify in E.
  assert (Hk : keeps idle (do* emitAny parts (HAgent (agent_end ms)) in
    let* count := from (fun h => length (h_nextTurnQueue h)) in emitOwn parts (HSettled count))).
  { keeps_with ltac:(apply (emit_keeps parts idle Huser)). }
  specialize (Hk (set_phase phase_idle h1) eq_refl). by rewrite E in Hk.
Qed.

Lemma run_failure_idle model error ab h ms h' : emitRunFailure parts model error ab h = (Ok ms, h') -> idle h'.
Proof using Huser.
  unfold emitRunFailure. unfold bind at 1. destruct (createFailureMessage _ _ _ _ h) as [[m|e] h1]; [|done].
  do 3 (unfold bind at 1; destruct (handleAgentEvent _ _ _) as [[[]|?] ?]; [|done]).
  unfold bind at 1. destruct (handleAgentEvent parts (agent_end _) _) as [[[]|e] h2] eqn:E; [|done].
  intros [= _ <-]. by eapply agent_end_idle.
Qed.

Lemma run_result_idle fuel run ts messages prompt h ms h' :
  run_result parts fuel run ts messages prompt h = (Ok (Some ms), h') -> idle h'.
Proof using Huser Hstream.
  unfold run_result. destruct (harness_loop _ _ _ _ _ _ _) as [[[]|e] w] eqn:E; try done.
  - intros [= _ <-]. destruct (prompt_run_over _ _ _ _ _ _ _ _ _ _ _ _ _ (stream_fn_well run ts Hstream) E) as (_ & _ & h0 & Hs).
    unfold to_hook in Hs. destruct (handleAgentEvent parts _ h0) as [[u|e] h1] eqn:Eh; [|done].
    injection Hs as _ <-. by eapply agent_end_idle.
  - unfold bind, get, catch. destruct (emitRunFailure _ _ _ _ _) as [[l|e'] h1] eqn:Ef; [|done].
    intros [= _ <-]. by eapply run_failure_idle.
Qed.

Lemma execute_idle fuel ts text images h m h' : executeTurn parts fuel ts text images h = (Ok (Some m), h') -> idle h'.
Proof using Huser Hstream.
  unfold executeTurn. do 4 (unfold bind at 1; match goal with |- context [match ?c with (_, _) => _ end] => destruct c as [[?|?] ?]; [|done] end).
  unfold settle_finally. unfold bind at 1. destruct (run_result _ _ _ _ _ _ _) as [[[ms|]|e] h1] eqn:E; [|done|].
  - apply run_result_idle in E. intros Ef.
    assert (Hfin : idle (finally (flushPendingSessionWrites parts) (modify (set_abort None)) h1).2).
    { apply (kept_finally idle); [apply (flush_keeps idle idle_free)|by apply kept_modify|done]. }
    destruct (last_assistant ms); cbn [ret throw] in Ef;
      destruct (finally _ _ h1) as [[[]|e] h2]; unfold ret, throw in Ef; simplify_eq; exact Hfin.
  - destruct (finally _ _ h1) as [[[]|?] h2]; done.
Qed.

Lemma run_prompt_idle fuel text_of o h r h' : idle h -> run_prompt parts fuel text_of o h = (r, h') -> r <> Ok None ->
  idle h' /\ h_runPromise h' = false /\ h_completionMode h' = h_completionMode h.
Proof using Huser Hstream.
  intros Hi E Hr. unfold run_prompt in E. unfold bind at 1, get in E. rewrite bool_decide_eq_true_2 in E by exact Hi. cbn [negb] in E.
  unfold bind at 1, modify in E. unfold bind at 1, startRunPromise, modify in E. unfold bind at 1, from in E.
  unfold bind at 1 in E. match type of E with context [match (?c ?h0) with (_, _) => _ end] =>
    assert (Hset : exists h1, c h0 = (Ok tt, h1)) by (destruct (po_completionMode o); eexists; reflexivity);
    destruct Hset as [h1 Hset]; rewrite Hset in E; clear Hset end.
  unfold settle_finally, bind, modify, finishRunPromise in E. unfold catch in E.
  match type of E with match (match ?c with (_, _) => _ end) with (_, _) => _ end = _ => destruct c as [[[m|]|e] h2] eqn:Ec end.
  - injection E as <- <-. split; [|done].
    destruct (createTurnState parts h1) as [[ts|e] h3]; [|done]. unfold of_result in Ec. destruct (text_of ts); [|done].
    change (idle h2). by eapply execute_idle.
  - by injection E as <- <-.
  - unfold throw in E. injection E as <- <-. done.
Qed.

Lemma exclusively_idle {A} phase name code (c : M Harness thrown A) h r h' :
  idle h -> exclusively phase name code c h = (r, h') -> idle h'.
Proof.
  intros Hi E. unfold exclusively in E. unfold bind at 1, get in E. rewrite bool_decide_eq_true_2 in E by exact Hi. cbn [negb] in E.
  unfold bind, modify, finally in E. destruct (rethrow_as code c _) as [r1 h1]. by injection E as <- <-.
Qed.

(** The operations that need the harness to themselves, and those that start a run. *)
Definition exclusive_op (op : harness_op) : bool :=
  match op with DoPrompt _ _ | DoSkill _ _ _ | DoTemplate _ _ _ | DoCompact _ | DoNavigate _ _ => true | _ => false end.
Definition run_op (op : harness_op) : bool :=
  match op with DoPrompt _ _ | DoSkill _ _ _ | DoTemplate _ _ _ => true | _ => false end.

Lemma ended_result (c : M Harness thrown (option AssistantMessage)) h r h' :
  (let* x := c in ret (match x with Some _ => true | None => false end)) h = (r, h') -> r <> Ok false ->
  exists r0, c h = (r0, h') /\ r0 <> Ok None.
Proof.
  unfold bind. destruct (c h) as [[[m|]|e] h1]; intros [= <- <-] Hr; [by eexists|done|by eexists].
Qed.

Lemma exec_idle fuel op h r h' : exclusive_op op = false -> idle h -> exec fuel op h = (r, h') -> idle h'.
Proof using Huser.
  intros Hop Hi E. assert (Hk : keeps idle (exec fuel op)); [|specialize (Hk h Hi); by rewrite E in Hk].
  destruct op; try done; cbn [exec]; (apply kept_bind; [|intros; apply kept_ret]);
    first [ apply (queueing_keeps idle Huser idle_free) | apply (appendMessage_keeps idle idle_free)
          | apply (settings_keep idle Huser idle_free) | apply (abort_keeps idle Huser idle_free)
          | by apply (tools_keep idle Huser idle_free) ].
Qed.

Lemma busy_refused fuel op h r h' : exec fuel op h = (r, h') -> ~ idle h -> exclusive_op op = true ->
  (exists m, r = Throw (THarness he_busy m)) /\ h' = h.
Proof.
  intros E Hb Hop. unfold idle in Hb. destruct op; try done; cbn [exec] in E;
    unfold prompt, skill, promptFromTemplate, harness_compact, navigateTree, run_prompt, exclusively, bind, get in E;
    rewrite bool_decide_eq_false_2 in E by done; cbn [negb] in E; unfold throw in E; injection E as <- <-; split; eauto.
Qed.

Lemma exec_settles fuel op h r h' : exec fuel op h = (r, h') -> idle h -> r <> Ok false ->
  idle h' /\ (run_op op = true -> h_runPromise h' = false /\ h_completionMode h' = h_completionMode h).
Proof using Huser Hstream.
  intros E Hi Hr. destruct (exclusive_op op) eqn:Hop; [|split; [by eapply exec_idle|by destruct op]].
  destruct op; try done; cbn [exec] in E;
    first [ apply ended_result in E as (r0 & E & Hr0); [|done]; by destruct (run_prompt_idle _ _ _ _ _ _ Hi E Hr0) as (? & ? & ?)
          | split; [|done]; unfold bind in E; match type of E with context [match ?c with (_, _) => _ end] => destruct c as [r1 h1] eqn:E1 end;
            apply exclusively_idle in E1; [|done]; by destruct r1; injection E as <- <- ].
Qed.
End Idle.
End Operations.

(** ** Code that calls the harness back *)

Section Reentrancy.
Context {S : Type} `{SessionStorage S} {U Signal : Type}.
Local Abbreviation Harness := (AgentHarness S U).
Local Abbreviation Parts := (HarnessParts S U Signal).

(** The code around a harness (subscribers, hooks, tools, system prompt,
    authentication, providers) changes it only through the application's own state
    and through the operations of the harness, awaited, to a depth of [n] nested
    calls: whatever both of these keep, that code keeps.  A nested operation runs
    among the same tools and with code that calls back less deep. *)
Fixpoint calls_back (n : nat) (parts : Parts) : Prop :=
  forall P : Harness -> Prop,
    (forall u h, P h -> P (set_user u h)) ->
    match n with
    | O => True
    | Datatypes.S n' => forall inner fuel op h,
        hs_tool_object inner = hs_tool_object parts -> provider_streams inner -> calls_back n' inner ->
        P h -> (exec inner fuel op h).1 <> Ok false -> P (exec inner fuel op h).2
    end ->
    user_keeps parts P.

Lemma same_tools_ok (parts inner : Parts) : hs_tool_object inner = hs_tool_object parts -> tools_ok inner = tools_ok parts.
Proof. unfold tools_ok, sound_tools. by intros ->. Qed.

Lemma exec_tools (parts : Parts) fuel op : user_keeps parts (tools_ok parts) -> keeps (tools_ok parts) (exec parts fuel op).
Proof.
  intros Hu. apply (exec_keeps parts (tools_ok parts) Hu (tools_ok_free parts)); [|done]. intros tools names h Hi Hk _.
  split; [|done]. destruct Hi as [Hs|(h0 & [Hs _] & ->)]; exact Hs.
Qed.

Lemma calls_back_tools n (parts : Parts) : calls_back n parts -> user_keeps parts (tools_ok parts).
Proof.
  revert parts. induction n as [|n IH]; intros parts Hp; apply Hp; [done|done|done|].
  intros inner fuel op h Ht _ Hc Hh _. rewrite <- (same_tools_ok parts inner Ht) in *. apply exec_tools; auto.
Qed.

Lemma calls_back_idle n (parts : Parts) : calls_back n parts -> user_keeps parts idle.
Proof.
  revert parts. induction n as [|n IH]; intros parts Hp; apply Hp; [done|done|done|].
  intros inner fuel op h _ Hs Hc Hh Hr. destruct (exec inner fuel op h) as [r h'] eqn:E.
  by apply (exec_settles inner (IH inner Hc) Hs fuel op h r h').
Qed.

(** C32: the tools of a harness are consistent, whatever sequence of operations is
    called on it and whatever they throw, one operation settling before the next
    begins: tools have distinct names, the active names are distinct names of tools,
    and so every active name has its tool, in order: [getActiveTools] never returns a
    missing tool.  The code around the harness may call its operations back from
    within an operation, to any depth, and keeps this because the operations do.
    Two operations that overlap at their awaits are not covered: [setTools] and
    [setActiveTools] check their names before writing to the session of an idle
    harness and assign afterwards, so that two of them at once can leave an active
    name without its tool. *)
Theorem tools_consistent n (parts : Parts) o session user h fuel ops :
  calls_back n parts -> new_AgentHarness parts o session user = Ok h ->
  let h' := exec_all parts fuel ops h in
  tools_ok parts h' /\
  exists ts, getActiveTools h' = map Some ts /\ map (fun t => at_name (hs_tool_object parts t)) ts = h_activeToolNames h'.
Proof.
  intros Hu%calls_back_tools Hnew h'. assert (Hok : tools_ok parts h'); [|split; [exact Hok|by apply active_found]].
  eapply exec_all_tools; [exact Hu|by eapply new_tools_ok].
Qed.

(** C10: an exclusive operation called on a busy harness is refused and changes
    nothing.  Called on an idle harness, any operation leaves it idle again once it
    has settled, whether it returned or threw and whatever failed on the way, so that
    the next prompt is accepted; a run has then also resolved its promise and restored
    the completion mode.  The code around the harness may fail anywhere, change the
    application's state, and call operations of the harness back and await them, to
    any depth; response streams open with their start, as the providers document.
    An operation whose run does not end within the fuel says nothing. *)
Theorem harness_settles n (parts : Parts) fuel op h r h' :
  calls_back n parts -> provider_streams parts -> exec parts fuel op h = (r, h') ->
  (~ idle h -> exclusive_op op = true -> (exists m, r = Throw (THarness he_busy m)) /\ h' = h) /\
  (idle h -> r <> Ok false ->
     idle h' /\ (run_op op = true -> h_runPromise h' = false /\ h_completionMode h' = h_completionMode h)).
Proof.
  intros Hu%calls_back_idle Hs E. split; [by apply (busy_refused parts fuel op h r h')|by apply (exec_settles parts Hu Hs fuel)].
Qed.
End Reentrancy.
