(* ===== verification/HarnessLog.v ===== *)
(** What a run of the harness leaves in an in-memory session: every message it
    announced, in order, each the child of the one before, and the answer it
    returned. *)
From S2P Require Import Prelude JsString Json JsonParse Effects Uuid Messages SessionTree SessionLaws SessionProps Compaction.
From S2P Require Import BranchSummary PromptTemplates Protocol LoopTypes Queue ToolBatch Recovery AgentLoop LoopEnv LoopTrace.
From S2P Require Import LoopProps HarnessState Harness HarnessProps HarnessOps.
#[local] Open Scope eff.

(** ** Growth of a log *)

(** Each entry is the child of the one before, the first of [leaf]. *)
Fixpoint chained (leaf : option jsstr) (es : list SessionTreeEntry) : Prop :=
  match es with
  | [] => True
  | e :: es' => e_parentId e = leaf /\ chained (Some (e_id e)) es'
  end.

Definition leaf_after (leaf : option jsstr) (es : list SessionTreeEntry) : option jsstr :=
  fold_left (fun _ e => Some (e_id e)) es leaf.

(** The leaf is an entry. *)
Definition leaf_sound (s : InMemorySessionStorage) : Prop :=
  match leafId s with Some id => is_Some (byId s !! id) | None => True end.

(** The storage [s'] is [s] with a chain of entries below the leaf. *)
Record grown (s s' : InMemorySessionStorage) (es : list SessionTreeEntry) : Prop := mkGrown {
  gr_entries : entries s' = entries s ++ es;
  gr_chained : chained (leafId s) es;
  gr_leaf : leafId s' = leaf_after (leafId s) es;
  gr_sound : leaf_sound s';
}.

Definition messages_of (es : list SessionTreeEntry) : list AgentMessage :=
  omap (fun e => match e_body e with EMessage m => Some m | _ => None end) es.

Lemma chained_snoc leaf es e : chained leaf es -> e_parentId e = leaf_after leaf es -> chained leaf (es ++ [e]).
Proof.
  revert leaf. induction es as [|x es IH]; intros leaf; simpl; [done|]. intros [Hp Hc] He. split; [done|]. by apply IH.
Qed.

Lemma grown_refl s : leaf_sound s -> grown s s [].
Proof. intros Hs. split; try done. by rewrite app_nil_r. Qed.

Lemma grown_snoc s s1 s2 es e : grown s s1 es -> grown s1 s2 [e] -> grown s s2 (es ++ [e]).
Proof.
  intros [He Hc Hl _] [He' [Hp _] Hl' Hs']. split; [by rewrite He', He, app_assoc| |by rewrite Hl', Hl; unfold leaf_after; rewrite fold_left_app|done].
  apply chained_snoc; [done|]. by rewrite Hp.
Qed.

Lemma messages_snoc es e : messages_of (es ++ [e]) = messages_of es ++ messages_of [e].
Proof. apply omap_app. Qed.

Lemma mem_append_body w t body : leaf_sound (w_storage w) -> plain_body body ->
  exists id w', append_body t body w = (Ok id, w') /\ grown (w_storage w) (w_storage w') [mkEntry id (leafId (w_storage w)) t body].
Proof.
  intros Hs Hb. unfold append_body. cbn [createEntryId getLeafId appendEntry InMemory_SessionStorage]. unfold bind at 1.
  destruct (mem_createEntryId w) as [[id|err] w1] eqn:E;
    unfold mem_createEntryId in E; destruct (generateEntryId _ _ _ _) as [[i st] pos]; simplify_eq.
  set (w1 := mkWorld (w_storage w) _) in *. exists id. unfold bind at 1.
  assert (Hl : mem_getLeafId w1 = (Ok (leafId (w_storage w)), w1)).
  { unfold mem_getLeafId, w1. cbn [w_storage]. unfold leaf_sound in Hs. destruct (leafId (w_storage w)) as [l|]; [|done]. by destruct Hs as [? ->]. }
  rewrite Hl. eexists. split; [reflexivity|]. cbn [w_storage w1]. split; cbn; try done.
  - unfold leafIdAfterEntry. by destruct body.
  - unfold leaf_sound, append_storage. cbn. unfold leafIdAfterEntry. destruct body; try done; cbn; rewrite lookup_insert_eq; by eexists.
Qed.

Lemma mem_label w t target label : leaf_sound (w_storage w) ->
  (exists id w', appendLabel t target label w = (Ok id, w') /\
     grown (w_storage w) (w_storage w') [mkEntry id (leafId (w_storage w)) t (ELabel target label)]) \/
  exists err, appendLabel t target label w = (Throw err, w).
Proof.
  intros Hs. unfold appendLabel. unfold bind at 1 2. cbn [getEntry InMemory_SessionStorage]. unfold mem_getEntry.
  destruct (byId (w_storage w) !! target); [left; by apply mem_append_body|right; by eexists].
Qed.

Lemma mem_context_pure gt w : (buildContext (S := InMemorySessionStorage) gt w).2 = w.
Proof.
  unfold buildContext, getBranch, bind. cbn [getLeafId getPathToRoot InMemory_SessionStorage ret].
  unfold mem_getLeafId. destruct (leafId (w_storage w)) as [l|].
  - destruct (byId (w_storage w) !! l); [|done]. unfold mem_getPathToRoot. by destruct (walk_to_root _ _).
  - done.
Qed.

Section Log.
Context {U Signal : Type} (parts : HarnessParts InMemorySessionStorage U Signal).
Local Abbreviation Harness := (AgentHarness InMemorySessionStorage U).
Local Abbreviation storage h := (w_storage (h_session h)).

(** Writes that add no message, and keep the leaf on the new entry. *)
Definition quiet_write (w : PendingSessionWrite) : Prop :=
  match w with EMessage _ | ELeaf _ => False | _ => True end.

(** Since [s0] the log has grown by the messages [ms] and by quiet entries, and the
    writes that wait are quiet. *)
Definition logs (s0 : InMemorySessionStorage) (ms : list AgentMessage) (h : Harness) : Prop :=
  (exists es, grown s0 (storage h) es /\ messages_of es = ms) /\ Forall quiet_write (h_pendingSessionWrites h).

(** The sink of the loop logs the messages that end. *)
Definition follows_log (s0 : InMemorySessionStorage) (tr : list AgentEvent) (h : Harness) : Prop := logs s0 (ended tr) h.

Lemma logs_start h : leaf_sound (storage h) -> Forall quiet_write (h_pendingSessionWrites h) -> logs (storage h) [] h.
Proof. intros Hs Hq. split; [|done]. exists []. split; [by apply grown_refl|done]. Qed.

Section Steps.
Context (s0 : InMemorySessionStorage) (ms : list AgentMessage).

(** What one appended entry does to the invariant. *)
Lemma append_logs t body h : plain_body body -> logs s0 ms h ->
  exists id w', append_body t body (h_session h) = (Ok id, w') /\
    logs s0 (ms ++ messages_of [mkEntry id None t body]) (set_session w' h).
Proof.
  intros Hb [(es & Hg & Hm) Hq]. destruct (mem_append_body (h_session h) t body (gr_sound _ _ _ Hg) Hb) as (id & w' & E & Hg').
  exists id, w'. split; [done|]. split; [|done]. eexists. split; [exact (grown_snoc _ _ _ _ _ Hg Hg')|].
  rewrite messages_snoc, Hm. f_equal.
Qed.

Lemma at_time_logs body h : plain_body body -> logs s0 ms h -> exists id h',
  at_time parts (fun t => append_body t body) h = (Ok id, h') /\
  logs s0 (ms ++ messages_of [mkEntry [] None [] body]) h' /\ h_pendingSessionWrites h' = h_pendingSessionWrites h.
Proof.
  intros Hb Hl. unfold at_time, bind, lift, h_iso, on_session. destruct (hs_iso parts (h_user h)) as [t u]. cbn [h_session set_user].
  destruct (append_logs t body (set_user u h) Hb Hl) as (id & w' & E & Hl'). cbn [h_session set_user] in E. rewrite E.
  by exists id, (set_session w' (set_user u h)).
Qed.

Lemma quiet_write_keeps w : quiet_write w -> keeps (logs s0 ms) (write_entry parts w).
Proof.
  intros Hq h Hh.
  assert (Happ : forall body, plain_body body -> messages_of [mkEntry [] None [] body] = [] ->
    logs s0 ms ((do* at_time parts (fun t => append_body t body) in ret tt) h).2).
  { intros body Hb Hm. unfold bind. destruct (at_time_logs body h Hb Hh) as (id & h' & -> & Hl & _).
    rewrite Hm, app_nil_r in Hl. exact Hl. }
  destruct w; simpl in Hq; try done; cbn [write_entry]; try (by apply Happ).
  unfold at_time, bind, lift, h_iso, on_session. destruct (hs_iso parts (h_user h)) as [t u]. cbn [h_session set_user].
  destruct Hh as [(es & Hg & Hm) Hp]. destruct (mem_label (h_session h) t targetId label (gr_sound _ _ _ Hg)) as [(id & w' & -> & Hg')|[err ->]].
  - split; [|done]. eexists. split; [exact (grown_snoc _ _ _ _ _ Hg Hg')|]. by rewrite messages_snoc, Hm, app_nil_r.
  - split; [|done]. by exists es.
Qed.

(** Every computation that leaves the session and the waiting writes alone. *)
Lemma logs_set h h' : logs s0 ms h -> h_session h' = h_session h -> h_pendingSessionWrites h' = h_pendingSessionWrites h -> logs s0 ms h'.
Proof. unfold logs. by intros [H1 H2] -> ->. Qed.

Lemma flush_keeps_log : keeps (logs s0 ms) (flushPendingSessionWrites parts).
Proof.
  intros h Hh. unfold flushPendingSessionWrites, bind, get. pose proof (proj2 Hh) as Hq. revert h Hh Hq.
  assert (Hgen : forall ws, Forall quiet_write ws -> keeps (logs s0 ms) (flush_writes parts ws)).
  { intros ws Hws. induction Hws as [|w ws Hw Hws IH]; cbn [flush_writes]; [apply kept_ret|].
    apply kept_bind; [by apply quiet_write_keeps|]. intros []. apply kept_bind; [|intros; exact IH].
    apply kept_modify. intros h [H1 _]. by split. }
  intros h Hh Hq. by apply Hgen.
Qed.

Lemma write_or_queue_log w : quiet_write w -> keeps (logs s0 ms) (write_or_queue parts w).
Proof.
  intros Hw. unfold write_or_queue. apply kept_bind; [apply kept_get|]. intros h0. destruct (bool_decide _); [by apply quiet_write_keeps|].
  apply kept_modify. intros h [H1 H2]. split; [done|]. simpl. apply Forall_app. by split; [|constructor].
Qed.
End Steps.

(** Operations that user code may call without disturbing the log. *)
Lemma settings_log s0 ms : user_keeps parts (logs s0 ms) ->
  (forall m, keeps (logs s0 ms) (setModel parts m)) /\ (forall l, keeps (logs s0 ms) (setThinkingLevel parts l)) /\
  (forall ts names, keeps (logs s0 ms) (setTools parts ts names)) /\ (forall names, keeps (logs s0 ms) (setActiveTools parts names)) /\
  (forall text images, keeps (logs s0 ms) (steer parts text images)) /\
  (forall text images, keeps (logs s0 ms) (followUp parts text images)).
Proof.
  intros Hu. assert (Hclock : keeps (logs s0 ms) (lift (h_now parts))).
  { apply kept_lift. intros h Hh. unfold h_now. by destruct (hs_now parts (h_user h)). }
  unfold setModel, setThinkingLevel, setTools, setActiveTools, install_tools, rethrow_as, steer, followUp, createUserMessage.
  split_and!; intros; keeps_with ltac:(first
    [ apply (emit_keeps parts _ Hu) | apply (queue_update_keeps parts _ Hu) | exact Hclock | by apply write_or_queue_log | by apply kept_modify ]).
Qed.

(** ** A run *)

(** User code logs no message of its own and queues none; reading the session's
    metadata changes no entry. *)
Definition logs_nothing : Prop := forall s0 ms, user_keeps parts (logs s0 ms).
Definition reads_metadata : Prop := forall w, w_storage (hs_session_id parts w).2 = w_storage w.

Context (Huser : logs_nothing) (Hmeta : reads_metadata).

Lemma emit_log s0 ms ev : keeps (logs s0 ms) (emitOwn parts ev).
Proof using Huser. apply emit_keeps, Huser. Qed.

Lemma event_log s0 tr ev h : follows_log s0 tr h -> follows_log s0 (tr ++ [ev]) (handleAgentEvent parts ev h).2.
Proof using Huser.
  unfold follows_log. rewrite ended_app. intros Hh.
  destruct ev as [|ms| |m rs|m|m|m e|m|mode e r mx rsn|i n d a|i n a pr|i n r b x]; cbn [ended handleAgentEvent];
    try (rewrite app_nil_r; by apply (emit_log s0 (ended tr))).
  - rewrite app_nil_r. revert h Hh. keeps_with ltac:(first [apply emit_log|apply flush_keeps_log]).
  - rewrite app_nil_r. revert h Hh. keeps_with ltac:(first [apply emit_log|apply flush_keeps_log]).
  - unfold bind. destruct (at_time_logs s0 (ended tr) (EMessage m) h I Hh) as (id & h' & E & Hl & _).
    unfold appendMessage. rewrite E. by apply emit_log.
Qed.

Lemma log_run_keeps s0 : run_keeps parts (follows_log s0).
Proof using Huser Hmeta.
  constructor; unfold follows_log; intros; try done; try (eapply logs_set; [eassumption|done|done]).
  - destruct H as [(es & Hg & Hm) Hq]. split; [|done]. exists es. split; [|done]. cbn [h_session set_session]. by rewrite mem_context_pure.
  - destruct H as [(es & Hg & Hm) Hq]. split; [|done]. exists es. split; [|done]. cbn [h_session set_session]. by rewrite Hmeta.
  - apply flush_keeps_log.
  - by apply event_log.
Qed.

(** One more event of the failure path. *)
Local Ltac next_event Hh1 E ev :=
  apply (event_log _ _ ev) in Hh1; unfold bind at 1 in E;
  destruct (handleAgentEvent _ ev _) as [[[]|?] ?]; cbn [snd] in Hh1; [|injection E as <- <-; split; [by eexists|done]].

Lemma failure_events_log s0 tr model error ab h r h' : follows_log s0 tr h -> emitRunFailure parts model error ab h = (r, h') ->
  (exists ms, logs s0 ms h') /\
  forall l, r = Ok l -> exists m, l = [MAssistant m] /\ is_failed_response m = true /\ logs s0 (ended tr ++ [MAssistant m]) h'.
Proof using Huser Hmeta.
  intros Hh E. unfold emitRunFailure, createFailureMessage in E. unfold bind at 1 2, lift, h_now in E.
  destruct (hs_now parts (h_user h)) as [t u]. cbn [ret] in E. unfold ret at 1 in E. set (m := mkAssistant _ _ _ _ _ _ _ _ _ _ _) in E.
  assert (Hh1 : follows_log s0 tr (set_user u h)) by (eapply logs_set; [exact Hh|done|done]).
  next_event Hh1 E (message_start (MAssistant m)). next_event Hh1 E (message_end (MAssistant m)).
  next_event Hh1 E (turn_end m []). next_event Hh1 E (agent_end [MAssistant m]).
  injection E as <- <-. split; [by eexists|]. intros l [= <-]. exists m. split_and!; [done|by destruct ab|].
  unfold follows_log in Hh1. rewrite !ended_app in Hh1. cbn in Hh1. by rewrite !app_nil_r in Hh1.
Qed.

(** How a run ended, with the messages it logged. *)
Lemma run_result_log s0 fuel run ts messages prompt h r h' : provider_streams parts -> logs s0 [] h ->
  run_result parts fuel run ts messages prompt h = (r, h') ->
  (exists ms, logs s0 ms h') /\
  forall l, r = Ok (Some l) -> exists ms, logs s0 ms h' /\
    last_assistant ms = last_assistant l /\
    (messages `prefix_of` ms \/ exists m, last_assistant l = Some m /\ is_failed_response m = true).
Proof using Huser Hmeta.
  intros Hp Hh E.
  pose proof (harness_loop_maintains parts (follows_log s0) (log_run_keeps s0) fuel run ts messages prompt h Hh) as Hw.
  unfold run_result in E. destruct (harness_loop _ _ _ _ _ _ _) as [[[]|e] w] eqn:El; cbn [snd] in Hw.
  - injection E as <- <-. split; [by eexists|]. intros l [= <-].
    destruct (prompt_run_well_formed _ _ _ _ _ _ _ _ _ _ _ _ _ (stream_fn_well parts run ts Hp) El) as (_ & He & _).
    exists (ended (lw_trace w)). split_and!; [exact Hw|by rewrite He|]. left. by eapply prompts_first.
  - injection E as <- <-. split; [by eexists|done].
  - unfold bind, get, catch in E. destruct (emitRunFailure _ _ _ _ _) as [r1 h1] eqn:Ef.
    destruct (failure_events_log s0 (lw_trace w) _ _ _ _ _ _ Hw Ef) as [Hany Hok]. destruct r1 as [l1|e1].
    + injection E as <- <-. split; [done|]. intros l [= <-]. destruct (Hok l1 eq_refl) as (m & -> & Hf & Hl).
      eexists. split_and!; [exact Hl| |right; by exists m]. unfold last_assistant. rewrite reverse_snoc. done.
    + injection E as <- <-. by split.
Qed.

Lemma flush_empties h u h' : flushPendingSessionWrites parts h = (Ok u, h') -> h_pendingSessionWrites h' = [].
Proof.
  unfold flushPendingSessionWrites, bind, get. assert (Hgen : forall ws h, h_pendingSessionWrites h = ws ->
    flush_writes parts ws h = (Ok u, h') -> h_pendingSessionWrites h' = []); [|by apply Hgen].
  clear h. induction ws as [|w ws IH]; intros h Hp E; cbn [flush_writes] in E; [injection E as _ <-; done|].
  unfold bind at 1 in E. destruct (write_entry parts w h) as [[[]|e] h1]; [|done]. by eapply IH; [|exact E].
Qed.

(** The start of [executeTurn], up to the run: the messages end with the user's, or
    with those a hook adds, and nothing is logged yet. *)
Definition user_message (text : jsstr) (images : option (list content_block)) (t : Z) : AgentMessage :=
  MUser (mkUser (RBlocks (CText text None :: default [] images)) None t).

Lemma take_next_log s0 um : keeps (logs s0 []) (take_next_turn parts um).
Proof using Huser.
  unfold take_next_turn. apply kept_bind; [apply kept_get|]. intros h0. destruct (h_nextTurnQueue h0); [apply kept_ret|].
  apply kept_bind; [by apply kept_modify|]. intros []. apply kept_bind; [|intros; apply kept_ret].
  apply kept_catch; [apply queue_update_keeps, Huser|]. intros e. apply kept_bind; [by apply kept_modify|]. intros. apply kept_throw.
Qed.

Lemma take_next_last um h ms h' : take_next_turn parts um h = (Ok ms, h') -> um ∈ ms.
Proof.
  unfold take_next_turn, bind at 1, get. destruct (h_nextTurnQueue h) as [|q qs]; [intros [= <- _]; by left|].
  unfold bind, modify. destruct (catch _ _ _) as [[[]|e] h1]; [|done]. intros [= <- _]. right. apply elem_of_app. right. by left.
Qed.

(** What an operation that logs leaves behind. *)
Definition logged_answer (s0 : InMemorySessionStorage) (r : result thrown (option AssistantMessage)) (text : jsstr)
    (images : option (list content_block)) (h' : Harness) : Prop :=
  exists ms, logs s0 ms h' /\ forall m, r = Ok (Some m) ->
    h_pendingSessionWrites h' = [] /\ last_assistant ms = Some m /\
    (is_failed_response m = true \/ exists t, user_message text images t ∈ ms).

Lemma finish_log s0 ms h : logs s0 ms h -> let '(r, h') := finally (flushPendingSessionWrites parts) (modify (set_abort None)) h in
  logs s0 ms h' /\ (r = Ok tt -> h_pendingSessionWrites h' = []).
Proof.
  intros Hl. unfold finally. pose proof (flush_keeps_log s0 ms h Hl) as Hf.
  destruct (flushPendingSessionWrites parts h) as [[[]|e] h1] eqn:E; split; try exact Hf; [|done].
  intros _. exact (flush_empties _ _ _ E).
Qed.

Lemma execute_log s0 fuel ts text images h r h' : provider_streams parts -> logs s0 [] h ->
  executeTurn parts fuel ts text images h = (r, h') -> logged_answer s0 r text images h'.
Proof using Huser Hmeta.
  intros Hp Hl E. unfold executeTurn in E. unfold bind at 1, createUserMessage, bind at 1, lift, h_now in E.
  destruct (hs_now parts (h_user h)) as [t u]. cbn [ret] in E. unfold ret at 1 in E. fold (user_message text images t) in E.
  assert (Hl1 : logs s0 [] (set_user u h)) by (eapply logs_set; [exact Hl|done|done]).
  assert (Hfail : forall e h0, logs s0 [] h0 -> logged_answer s0 (Throw e) text images h0) by (intros e h0 Hh; by exists []).
  apply (take_next_log s0 (user_message text images t)) in Hl1. unfold bind at 1 in E.
  destruct (take_next_turn _ _ _) as [[messages|e] h1] eqn:Et; cbn [snd] in Hl1; [|injection E as <- <-; by apply Hfail].
  apply take_next_last in Et. unfold bind at 1 in E.
  match type of E with context [emitHook ?c] => assert (Hk : keeps (logs s0 []) (emitHook c))
    by (apply map_keeps; eapply Forall_impl; [apply (uk_before_start _ _ (Huser s0 []))|]; auto) end.
  specialize (Hk h1 Hl1). destruct (emitHook _ h1) as [[br|e] h2]; cbn [snd] in Hk; [|injection E as <- <-; by apply Hfail].
  unfold bind at 1, begin_run, bind, from, modify in E. cbn [ret] in E.
  match type of E with context [run_result _ _ ?run ?ts ?ms ?p] => set (c := run_result parts fuel run ts ms p) in E; set (all := ms) in * end.
  match type of E with settle_finally _ _ ?h3 = _ => assert (Hl3 : logs s0 [] h3) by (eapply logs_set; [exact Hk|done|done]); set (h3' := h3) in * end.
  unfold settle_finally in E. destruct (c h3') as [r4 h4] eqn:Ec.
  destruct (run_result_log s0 _ _ _ _ _ _ _ _ Hp Hl3 Ec) as [(ms0 & Hany) Hok].
  destruct r4 as [[l|]|e].
  - destruct (Hok l eq_refl) as (ms & Hms & Hla & Hpre). pose proof (finish_log s0 ms h4 Hms) as Hfin.
    destruct (last_assistant l) as [m|] eqn:Em; unfold ret, throw in E;
      destruct (finally _ _ h4) as [[[]|e] h5]; destruct Hfin as [Hl5 Hemp]; injection E as <- <-; exists ms; split; try done.
    intros m' [= <-]. split_and!; [by apply Hemp|done|]. destruct Hpre as [[k ->]|(m0 & [= <-] & Hf)]; [|by left].
    right. exists t. unfold all. apply elem_of_app. left. apply elem_of_app. by left.
  - injection E as <- <-. exists ms0. by split.
  - pose proof (finish_log s0 ms0 h4 Hany) as Hfin. destruct (finally _ _ h4) as [[[]|e'] h5]; destruct Hfin as [Hl5 _];
      injection E as <- <-; exists ms0; by split.
Qed.

Lemma run_prompt_log s0 fuel text_of o h r h' : provider_streams parts -> logs s0 [] h ->
  run_prompt parts fuel text_of o h = (r, h') ->
  exists ms, logs s0 ms h' /\ forall m, r = Ok (Some m) ->
    h_pendingSessionWrites h' = [] /\ last_assistant ms = Some m /\
    (is_failed_response m = true \/ exists ts text t, text_of ts = Ok text /\ user_message text (po_images o) t ∈ ms).
Proof using Huser Hmeta.
  intros Hp Hl E. unfold run_prompt in E. unfold bind at 1, get in E.
  destruct (negb _); [injection E as <- <-; by exists []|].
  unfold bind at 1, modify in E. unfold bind at 1, startRunPromise, modify in E. unfold bind at 1, from in E. unfold bind at 1 in E.
  match type of E with context [match (?c ?h0) with (_, _) => _ end] =>
    assert (Hset : exists h1, c h0 = (Ok tt, h1) /\ logs s0 [] h1)
      by (destruct (po_completionMode o); eexists; (split; [reflexivity|eapply logs_set; [exact Hl|done|done]]));
    destruct Hset as (h1 & Hset & Hl1); rewrite Hset in E; clear Hset end.
  unfold settle_finally, bind, modify, finishRunPromise in E. unfold catch in E.
  pose proof (turn_state_keeps parts _ (log_run_keeps s0) [] h1 Hl1) as Hl2.
  destruct (createTurnState parts h1) as [[ts|e] h2]; cbn [snd] in Hl2.
  2:{ injection E as <- <-. exists []. split; [eapply logs_set; [exact Hl2|done|done]|done]. }
  unfold of_result in E. destruct (text_of ts) as [text|e] eqn:Etext.
  2:{ injection E as <- <-. exists []. split; [eapply logs_set; [exact Hl2|done|done]|done]. }
  destruct (executeTurn parts fuel ts text (po_images o) h2) as [r3 h3] eqn:Ex.
  destruct (execute_log s0 _ _ _ _ _ _ _ Hp Hl2 Ex) as (ms & Hms & Hok).
  destruct r3 as [[m|]|e]; injection E as <- <-; exists ms; (split; [eapply logs_set; [exact Hms|done|done]|]); try done.
  intros m' [= <-]. destruct (Hok m eq_refl) as (H1 & H2 & H3). split_and!; [done|done|].
  destruct H3 as [H3|(t & H3)]; [by left|right; by exists ts, text, t].
Qed.

(** C4: what [prompt] leaves in an in-memory session, when user code logs no
    message of its own: the log has only grown, by a chain of entries below the leaf,
    whatever the outcome.  When it returns, no write is left waiting, the message it
    returned is the last assistant message logged, and the user's prompt is in the
    log too, unless the returned message reports a failure. *)
Theorem prompt_logged fuel text o h r h' :
  provider_streams parts -> leaf_sound (storage h) -> Forall quiet_write (h_pendingSessionWrites h) ->
  prompt parts fuel text o h = (r, h') ->
  exists es, grown (storage h) (storage h') es /\ forall m, r = Ok (Some m) ->
    h_pendingSessionWrites h' = [] /\ last_assistant (messages_of es) = Some m /\
    (is_failed_response m = true \/ exists t, user_message text (po_images o) t ∈ messages_of es).
Proof using Huser Hmeta.
  intros Hp Hs Hq E. destruct (run_prompt_log (storage h) _ _ _ _ _ _ Hp (logs_start h Hs Hq) E) as (ms & [(es & Hg & <-) _] & Hok).
  exists es. split; [done|]. intros m Hr. destruct (Hok m Hr) as (H1 & H2 & H3). split_and!; [done|done|].
  destruct H3 as [H3|(ts & text' & t & [= <-] & H3)]; [by left|right; by exists t].
Qed.
End Log.
