(* ===== verification/HarnessSamples.v ===== *)
(** A concrete harness: a scripted provider, a tool, and a subscriber that changes
    the thinking level at the end of each turn; the theorems about the harness at its
    runs, and what it does with writes queued during a compaction. *)
From S2P Require Import Prelude JsString Json JsonParse Effects Uuid Messages SessionTree SessionLaws SessionProps Compaction.
From S2P Require Import BranchSummary PromptTemplates Protocol LoopTypes Queue ToolBatch Recovery AgentLoop LoopEnv LoopTrace.
From S2P Require Import LoopProps HarnessState Harness HarnessProps HarnessOps HarnessLog.
#[local] Open Scope eff.

Module HarnessSample.
(** The application counts the requests served. *)
Abbreviation Ha := (AgentHarness InMemorySessionStorage nat).
Abbreviation MHa := (M Ha thrown).

Definition model : Model := mkModel (js "m") (js "M") (js "api") (js "p") [] false 1000 100.
Definition assistant (calls : list ToolCall) : AssistantMessage :=
  mkAssistant (AText (js "working") None :: map AToolCall calls) (js "api") (js "p") (js "m") None None None EMPTY_USAGE
    (if is_empty calls then StopStop else StopToolUse) None 1700000000000.
Definition read_call : ToolCall := mkToolCall (js "r") (js "read") (JObj []) None.
Definition finish_call : ToolCall :=
  mkToolCall (js "f") FINISH_WORK_TOOL_NAME (JObj [(js "status", JStr (js "success")); (js "summary", JStr (js "done"))]) None.
Definition script (n : nat) : AssistantMessage := match n with O => assistant [read_call] | _ => assistant [finish_call] end.

Definition read_tool : AgentTool Ha :=
  mkTool (js "read") (js "Read") (js "Read a file") (JObj []) None None
    (fun _ _ => Settle (fun h => (Ok (mkToolResultValue [CText (js "text") None] None None None None), h))) None.

Definition write_tool : AgentTool Ha :=
  mkTool (js "write") (js "Write") (js "Write a file") (JObj []) None None
    (fun _ _ => Settle (fun h => (Ok (mkToolResultValue [CText (js "written") None] None None None None), h))) None.
Definition tool_object (t : tool_ref) : AgentTool Ha := match t with O => read_tool | _ => write_tool end.

Definition streamSimple (m : Model) (c : LlmContext Ha) (o : SimpleStreamOptions InMemorySessionStorage nat)
    : hook Ha (response Ha) := fun h =>
  let n := h_user h in
  (Ok (mkResponse (REvent (fun h => (SDone (script n), h)) (fun _ => REnd)) (fun h => (Ok (script n), h))), set_user (S n) h).

Definition no_hooks : HarnessHooks InMemorySessionStorage nat := mkHooks [] [] [] [] [] [] [] [].
(** The key for summaries; the model's summary is its first answer. *)
Definition with_subscribers (subs : list (AgentHarnessEvent -> MHa unit)) (hooks : HarnessHooks InMemorySessionStorage nat)
    : HarnessParts InMemorySessionStorage nat unit :=
  mkHarnessParts subs hooks tool_object None (Some (fun _ => ret (Some (js "key", None)))) (fun w => (Ok (js "session"), w)) streamSimple tt
    (fun _ _ _ _ => ret (assistant [])) (fun _ => true) (fun _ c => Ok (tc_arguments c)) (fun u => (1700000000000, u))
    (fun u => (js "2023-11-14T22:13:20.000Z", u)) (fun _ => []) (fun _ => 1700000000000) (fun raw => raw) (fun h => h).

Definition quiet_parts := with_subscribers [] no_hooks.

Definition subscriber (ev : AgentHarnessEvent) : MHa unit :=
  match ev with HAgent (turn_end _ _) => setThinkingLevel quiet_parts (js "high") | _ => ret tt end.
Definition parts := with_subscribers [subscriber] no_hooks.

Definition ids : idgen := mkIdgen uuid_init (fun _ => sample_draw 1700000000000) 0.
Definition empty : world InMemorySessionStorage := mkWorld (mkStorage [] ∅ ∅ None) ids.
Definition options : harness_options := mkHarnessOptions (Some [0%nat]) None None model None None None None (Some explicit_finish).
Definition fresh : Ha :=
  mkHarness empty phase_idle None false [] model (js "off") no_stream_options (mkResources None None) [(js "read", 0%nat)] [js "read"]
    (mkMessageQueue [] 0 one_at_a_time) (mkMessageQueue [] 0 one_at_a_time) [] (Some explicit_finish) [] 0%nat.
Definition plain : prompt_options := mkPromptOptions None None.

Example fresh_new : new_AgentHarness parts options empty 0%nat = Ok fresh.
Proof. vm_compute. reflexivity. Qed.

Definition run := prompt parts 10 (js "read it") plain fresh.

Example run_entries : map (fun e => match e_body e with
    | EMessage (MUser _) => 1 | EMessage (MAssistant _) => 2 | EMessage (MToolResult _) => 3 | EThinkingLevelChange _ => 4 | _ => 5 end)
  (entries (w_storage (h_session run.2))) = [1; 2; 3; 4; 2; 3; 4].
Proof. vm_compute. reflexivity. Qed.

(** ** The surroundings satisfy the hypotheses of the theorems *)

Lemma sample_user (P : Ha -> Prop) subs : Forall (fun l => forall ev, keeps P (l ev)) subs -> (forall u h, P h -> P (set_user u h)) ->
  user_keeps (with_subscribers subs no_hooks) P.
Proof.
  intros Hsub Hu. constructor; cbn; try done; try apply Forall_nil_2.
  - intros f [= <-] m. apply kept_ret.
  - intros [|t] id args h; done.
  - intros m c o _ _. split; [intros h Hh; by apply Hu|]. intros h r h' [= <- <-]. split; [|by intros h'' Hh]. split; [by intros h'' Hh|done].
  - intros m sp ms o. apply kept_ret.
Qed.

Lemma subscriber_keeps (P : Ha -> Prop) : keeps P (setThinkingLevel quiet_parts (js "high")) ->
  Forall (fun l => forall ev, keeps P (l ev)) [subscriber].
Proof.
  intros Hk. repeat constructor. intros ev. unfold subscriber. destruct ev as [a| | | | | | | | | | |]; try apply kept_ret.
  destruct a; try apply kept_ret. exact Hk.
Qed.

(** The code of the sample calls one operation back, which calls nothing back. *)
Lemma quiet_calls_back : calls_back 0 quiet_parts.
Proof. intros P Hu _. by apply sample_user. Qed.

Lemma quiet_streams : provider_streams quiet_parts.
Proof. intros m c o h r h' [= <- <-]. simpl. done. Qed.

Lemma sample_calls_back : calls_back 1 parts.
Proof.
  intros P Hu Hop. apply sample_user; [|exact Hu]. apply subscriber_keeps. intros h Hh.
  specialize (Hop quiet_parts 0%nat (DoSetThinkingLevel (js "high")) h eq_refl quiet_streams quiet_calls_back Hh).
  cbn [exec] in Hop. unfold bind in Hop. destruct (setThinkingLevel quiet_parts (js "high") h) as [[[]|e] h']; by apply Hop.
Qed.

Lemma log_user : logs_nothing parts.
Proof.
  intros s0 ms. assert (Hq : user_keeps quiet_parts (logs s0 ms)) by (apply sample_user; [constructor|done]).
  apply sample_user; [|done]. apply subscriber_keeps. by apply settings_log.
Qed.

Lemma sample_streams : provider_streams parts.
Proof. intros m c o h r h' [= <- <-]. simpl. done. Qed.

Lemma tools_consistent_witness :
  tools_ok parts (exec_all parts 10 [DoPrompt (js "read it") plain; DoSetActiveTools [js "write"]; DoSetTools [1%nat; 1%nat] None;
    DoSetTools [1%nat; 0%nat] (Some [js "write"])] fresh).
Proof.
  refine (proj1 (tools_consistent 1 parts options empty 0%nat fresh 10 _ sample_calls_back _)). vm_compute. reflexivity.
Defined.

(** Two operations that overlap: both pass their checks on a harness with two tools,
    then [setTools] finishes before [setActiveTools] assigns the names it checked. *)
Definition two_tools : Ha := (setTools parts [0%nat; 1%nat] None fresh).2.
Definition overlapped : Ha :=
  let h := (setTools parts [0%nat] (Some [js "read"]) two_tools).2 in set_tools (h_tools h) [js "write"] h.

Example overlap_loses_tool :
  known_names [js "write"] (map fst (h_tools two_tools)) = Ok tt /\ getActiveTools overlapped = [None].
Proof. vm_compute. done. Qed.

Lemma harness_settles_witness : idle (exec parts 10 (DoPrompt (js "read it") plain) fresh).2.
Proof.
  destruct (harness_settles 1 parts 10 (DoPrompt (js "read it") plain) fresh (Ok true)
    (exec parts 10 (DoPrompt (js "read it") plain) fresh).2 sample_calls_back sample_streams) as [_ Hi].
  - vm_compute. reflexivity.
  - by apply Hi.
Defined.

Lemma prompt_logged_witness : exists es,
  entries (w_storage (h_session run.2)) = [] ++ es /\ last_assistant (messages_of es) = Some (script 1).
Proof.
  destruct (prompt_logged parts log_user (fun w => eq_refl) 10 (js "read it") plain fresh (Ok (Some (script 1))) run.2)
    as (es & Hg & Hok); [exact sample_streams|exact I|constructor|vm_compute; reflexivity|].
  exists es. split; [exact (gr_entries _ _ _ Hg)|]. by apply Hok.
Defined.

(** Two writes wait; the second labels an entry that does not exist. *)
Definition waiting : Ha := set_pending [EThinkingLevelChange (js "high"); ELabel (js "nowhere") None; ESessionInfo None] fresh.

Lemma flush_in_order_witness : exists done rest,
  h_pendingSessionWrites waiting = done ++ rest /\ h_pendingSessionWrites (flushPendingSessionWrites parts waiting).2 = rest /\ rest <> [].
Proof.
  destruct (flush_in_order parts 4 waiting (flushPendingSessionWrites parts waiting).1 (flushPendingSessionWrites parts waiting).2)
    as (dn & rest & H1 & H2 & _ & _ & _ & H3).
  - repeat constructor.
  - exact (Sample.empty_inv 7 ltac:(lia)).
  - by destruct (flushPendingSessionWrites parts waiting).
  - exists dn, rest. split_and!; [exact H1|exact H2|]. vm_compute in H3. exact H3.
Defined.

(** ** Writes queued while the harness compacts *)

(** A hook that provides the compaction, and sets the model meanwhile. *)
Definition compacting : HarnessParts InMemorySessionStorage nat unit :=
  with_subscribers [] (mkHooks [] [] [] [] [] []
    [fun p _ _ => do* setModel quiet_parts model in
                  ret (Some (mkBeforeCompact None (Some (mkCompactResult (js "summary") (cp_firstKeptEntryId p) 0 None))))] []).

Definition message (text : string) : AgentMessage := MUser (mkUser (RString (js text)) None 1700000000000).
Definition compacted : Ha :=
  ((do* harness_appendMessage compacting (message "one") in
   do* harness_compact compacting None in
   harness_appendMessage compacting (message "two")) fresh).2.

(** The write still waits after the compaction has settled, and the message
    appended later is in the log before it. *)
Example compaction_keeps_writes_waiting :
  idle compacted /\ h_pendingSessionWrites compacted = [EModelChange (js "p") (js "m")] /\
  map e_body (drop 2 (entries (w_storage (h_session compacted)))) = [EMessage (message "two")].
Proof. vm_compute. done. Qed.
End HarnessSample.
