(* ===== verification/ProxyStream.v ===== *)
(** Streamed JSON and the proxy stream.  [ai/src/utils/json-parse.ts]: the repair of the
    JSON of tool arguments that is still incomplete; the package [partial-json] is the
    parameter [partialParse], whose exceptions are [None].  [agent/src/proxy.ts]: a server sends
    the events of a response without the partial message, which the client rebuilds.  The
    partial message is one object that every event of the stream refers to; the model
    keeps it in the state, and an event carries no copy.  [JSON.parse] of an event, with
    the types it is given, is the parameter [parse_event]. *)
From S2P Require Import Prelude JsString Effects Json JsonParse Messages EventStream.

Definition is_valid_escape (c : Z) : bool := existsb (Z.eqb c) [34; 92; 47; 98; 102; 110; 114; 116; 117].
Definition isControlCharacter (c : Z) : bool := (0 <=? c) && (c <=? 31).

Definition escapeControlCharacter (c : Z) : jsstr :=
  if c =? 8 then js "\b"
  else if c =? 12 then js "\f"
  else if c =? 10 then js "\n"
  else if c =? 13 then js "\r"
  else if c =? 9 then js "\t"
  else js "\u" ++ hex4 c.

(** [repairJson], from a place in or outside a string literal. *)
Fixpoint repair_from (inString : bool) (json : jsstr) : jsstr :=
  match json with
  | [] => []
  | char :: rest =>
      if negb inString then char :: repair_from (char =? 34) rest
      else if char =? 34 then char :: repair_from false rest
      else if char =? 92 then
        match rest with
        | [] => [92; 92]
        | nextChar :: rest1 =>
            let otherwise :=
              if is_valid_escape nextChar then 92 :: nextChar :: repair_from true rest1
              else 92 :: 92 :: repair_from true rest in
            if nextChar =? 117 then
              match rest1 with
              | a :: b :: c :: d :: rest5 =>
                  match hex4_value a b c d with
                  | Some _ => 92 :: 117 :: a :: b :: c :: d :: repair_from true rest5
                  | None => otherwise
                  end
              | _ => otherwise
              end
            else otherwise
        end
      else (if isControlCharacter char then escapeControlCharacter char else [char]) ++ repair_from true rest
  end.

Definition repairJson (json : jsstr) : jsstr := repair_from false json.

Section Streaming.
Context (number_text : jsstr -> jsstr) (partialParse : jsstr -> option json).

Definition parseJsonWithRepair (text : jsstr) : option json :=
  match json_parse number_text text with
  | Some v => Some v
  | None =>
      let repairedJson := repairJson text in
      if bool_decide (repairedJson = text) then None else json_parse number_text repairedJson
  end.

(** [v ?? {}]. *)
Definition or_empty (v : json) : json := match v with JNull => JObj [] | _ => v end.

Definition parseStreamingJson (partialJson : jsstr) : json :=
  if is_empty (trim partialJson) then JObj []
  else
    match parseJsonWithRepair partialJson with
    | Some v => v
    | None =>
        match partialParse partialJson with
        | Some v => or_empty v
        | None =>
            match partialParse (repairJson partialJson) with
            | Some v => or_empty v
            | None => JObj []
            end
        end
    end.

(** The complete text of an object is read as that object. *)
Lemma parseStreamingJson_complete m :
  json_parse number_text (stringify (JObj m)) = Some (JObj m) -> parseStreamingJson (stringify (JObj m)) = JObj m.
Proof.
  intros H. unfold parseStreamingJson, parseJsonWithRepair. rewrite H.
  replace (is_empty (trim (stringify (JObj m)))) with false; [done |]. symmetry. apply is_empty_false.
  rewrite trim_nil. intros [E _]%Forall_cons. done.
Qed.
End Streaming.

Example repair_newline_and_escape :
  repairJson (quoted "{'a':'x" ++ [10] ++ quoted "\q\u00e9'}") = quoted "{'a':'x\n\\q\u00e9'}".
Proof. vm_compute. reflexivity. Qed.

(** ** Events *)

Inductive ProxyAssistantMessageEvent :=
  | PxStart
  | PxTextStart (contentIndex : nat)
  | PxTextDelta (contentIndex : nat) (delta : jsstr)
  | PxTextEnd (contentIndex : nat) (contentSignature : option jsstr)
  | PxThinkingStart (contentIndex : nat)
  | PxThinkingDelta (contentIndex : nat) (delta : jsstr)
  | PxThinkingEnd (contentIndex : nat) (contentSignature : option jsstr)
  | PxToolcallStart (contentIndex : nat) (id toolName : jsstr)
  | PxToolcallDelta (contentIndex : nat) (delta : jsstr)
  | PxToolcallEnd (contentIndex : nat)
  | PxDone (reason : StopReason) (usage : Usage)
  | PxError (reason : StopReason) (errorMessage : option jsstr) (usage : Usage)
  | PxUnhandled (type : jsstr).

(** What the stream is given ([AssistantMessageEvent] but for the message). *)
Inductive stream_event :=
  | EvStart
  | EvTextStart (contentIndex : nat)
  | EvTextDelta (contentIndex : nat) (delta : jsstr)
  | EvTextEnd (contentIndex : nat) (content : jsstr)
  | EvThinkingStart (contentIndex : nat)
  | EvThinkingDelta (contentIndex : nat) (delta : jsstr)
  | EvThinkingEnd (contentIndex : nat) (content : jsstr)
  | EvToolcallStart (contentIndex : nat)
  | EvToolcallDelta (contentIndex : nat) (delta : jsstr)
  | EvToolcallEnd (contentIndex : nat) (toolCall : ToolCall)
  | EvDone (reason : StopReason)
  | EvError (reason : StopReason).

(** ** The partial message *)

(** A block under construction; a tool call has a property [partialJson] until it ends. *)
Inductive partial_block :=
  | PbText (text : jsstr) (textSignature : option jsstr)
  | PbThinking (thinking : jsstr) (thinkingSignature : option jsstr)
  | PbToolCall (call : ToolCall) (partialJson : option jsstr).

(** The content is an array, in which an assignment past the end leaves holes. *)
Record partial_message := mkPartial {
  pm_content : list (option partial_block);
  pm_stopReason : StopReason;
  pm_usage : Usage;
  pm_errorMessage : option jsstr;
}.

Definition new_partial : partial_message := mkPartial [] StopStop EMPTY_USAGE None.

Definition block_at (m : partial_message) (i : nat) : option partial_block := mjoin (pm_content m !! i).

(** [content[i] = b]. *)
Definition assign_block (i : nat) (b : partial_block) (m : partial_message) : partial_message :=
  let l := pm_content m in
  mkPartial (<[i := Some b]> (l ++ replicate (S i - length l) None)) (pm_stopReason m) (pm_usage m) (pm_errorMessage m).

Section Proxy.
Context (number_text : jsstr -> jsstr) (partialParse : jsstr -> option json).

(** [v || {}]. *)
Definition truthy_or_empty (v : json) : json :=
  match v with
  | JNull | JBool false => JObj []
  | JNum n => if bool_decide (n = js "0") || bool_decide (n = js "-0") then JObj [] else v
  | JStr [] => JObj []
  | _ => v
  end.

Definition set_arguments (args : json) (c : ToolCall) : ToolCall :=
  mkToolCall (tc_id c) (tc_name c) args (tc_thoughtSignature c).

Definition processProxyEvent (proxyEvent : ProxyAssistantMessageEvent) (partial : partial_message)
  : result jsstr (option stream_event) * partial_message :=
  match proxyEvent with
  | PxStart => (Ok (Some EvStart), partial)
  | PxTextStart i => (Ok (Some (EvTextStart i)), assign_block i (PbText [] None) partial)
  | PxTextDelta i delta =>
      match block_at partial i with
      | Some (PbText text sig) => (Ok (Some (EvTextDelta i delta)), assign_block i (PbText (text ++ delta) sig) partial)
      | _ => (Throw (js "Received text_delta for non-text content"), partial)
      end
  | PxTextEnd i sig =>
      match block_at partial i with
      | Some (PbText text _) => (Ok (Some (EvTextEnd i text)), assign_block i (PbText text sig) partial)
      | _ => (Throw (js "Received text_end for non-text content"), partial)
      end
  | PxThinkingStart i => (Ok (Some (EvThinkingStart i)), assign_block i (PbThinking [] None) partial)
  | PxThinkingDelta i delta =>
      match block_at partial i with
      | Some (PbThinking text sig) =>
          (Ok (Some (EvThinkingDelta i delta)), assign_block i (PbThinking (text ++ delta) sig) partial)
      | _ => (Throw (js "Received thinking_delta for non-thinking content"), partial)
      end
  | PxThinkingEnd i sig =>
      match block_at partial i with
      | Some (PbThinking text _) => (Ok (Some (EvThinkingEnd i text)), assign_block i (PbThinking text sig) partial)
      | _ => (Throw (js "Received thinking_end for non-thinking content"), partial)
      end
  | PxToolcallStart i id toolName =>
      (Ok (Some (EvToolcallStart i)), assign_block i (PbToolCall (mkToolCall id toolName (JObj []) None) (Some [])) partial)
  | PxToolcallDelta i delta =>
      match block_at partial i with
      | Some (PbToolCall call partialJson) =>
          (* [undefined + delta] when the property is gone *)
          let partialJson' := default (js "undefined") partialJson ++ delta in
          let args := truthy_or_empty (parseStreamingJson number_text partialParse partialJson') in
          (Ok (Some (EvToolcallDelta i delta)), assign_block i (PbToolCall (set_arguments args call) (Some partialJson')) partial)
      | _ => (Throw (js "Received toolcall_delta for non-toolCall content"), partial)
      end
  | PxToolcallEnd i =>
      match block_at partial i with
      | Some (PbToolCall call _) => (Ok (Some (EvToolcallEnd i call)), assign_block i (PbToolCall call None) partial)
      | _ => (Ok None, partial)
      end
  | PxDone reason usage => (Ok (Some (EvDone reason)), mkPartial (pm_content partial) reason usage (pm_errorMessage partial))
  | PxError reason errorMessage usage => (Ok (Some (EvError reason)), mkPartial (pm_content partial) reason usage errorMessage)
  | PxUnhandled _ => (Ok None, partial)
  end.

(** ** The stream *)

(** The result of the stream is the partial message itself. *)
Definition px_complete (e : stream_event) : bool := match e with EvDone _ | EvError _ => true | _ => false end.
Definition px_op := op (T := stream_event) (R := unit).

Record proxy_state := mkProxy {
  px_partial : partial_message;
  px_buffer : jsstr;
  px_ops : list px_op;  (** the calls of [push] and [end] so far *)
}.

Context (parse_event : jsstr -> result jsstr ProxyAssistantMessageEvent).

Definition push_event (e : option stream_event) (st : proxy_state) : proxy_state :=
  match e with
  | Some e => mkProxy (px_partial st) (px_buffer st) (px_ops st ++ [Push e])
  | None => st
  end.
Definition set_partial (p : partial_message) (st : proxy_state) : proxy_state := mkProxy p (px_buffer st) (px_ops st).

(** A line of the response: [Some] is an exception. *)
Definition process_line (line : jsstr) (st : proxy_state) : option jsstr * proxy_state :=
  if starts_with (js "data: ") line then
    let data := trim (drop 6 line) in
    if is_empty data then (None, st)
    else
      match parse_event data with
      | Throw e => (Some e, st)
      | Ok proxyEvent =>
          match processProxyEvent proxyEvent (px_partial st) with
          | (Throw e, partial) => (Some e, set_partial partial st)
          | (Ok event, partial) => (None, push_event event (set_partial partial st))
          end
      end
  else (None, st).

Fixpoint process_lines (lines : list jsstr) (st : proxy_state) : option jsstr * proxy_state :=
  match lines with
  | [] => (None, st)
  | line :: lines' =>
      match process_line line st with
      | (Some e, st') => (Some e, st')
      | (None, st') => process_lines lines' st'
      end
  end.

Definition process_chunk (text : jsstr) (st : proxy_state) : option jsstr * proxy_state :=
  let lines := split_on 10 (px_buffer st ++ text) in
  process_lines (removelast lines) (mkProxy (px_partial st) (default [] (last lines)) (px_ops st)).

(** The [catch] block. *)
Definition proxy_fail (message : jsstr) (aborted : bool) (st : proxy_state) : proxy_state :=
  let reason := if aborted then StopAborted else StopError in
  let p := px_partial st in
  mkProxy (mkPartial (pm_content p) reason (pm_usage p) (Some message)) (px_buffer st)
    (px_ops st ++ [Push (EvError reason); End None]).

Definition aborted_message : jsstr := js "Request aborted by user".

(** What [reader.read()] gives, as decoded text, and whether the signal is aborted
    then. *)
Inductive proxy_read :=
  | ReadValue (text : jsstr) (aborted : bool)
  | ReadDone (aborted : bool)
  | ReadThrow (message : jsstr) (aborted : bool).

Fixpoint read_loop (reads : list proxy_read) (st : proxy_state) : proxy_state :=
  match reads with
  | [] => st
  | ReadValue text aborted :: reads' =>
      if aborted then proxy_fail aborted_message true st
      else match process_chunk text st with
           | (Some e, st') => proxy_fail e false st'
           | (None, st') => read_loop reads' st'
           end
  | ReadDone aborted :: _ =>
      if aborted then proxy_fail aborted_message true st
      else mkProxy (px_partial st) (px_buffer st) (px_ops st ++ [End None])
  | ReadThrow message aborted :: _ => proxy_fail message aborted st
  end.

(** How the request ends: [fetch] throws, the response is an error with perhaps a
    message in its body, or it is read. *)
Inductive proxy_response :=
  | FetchThrow (message : jsstr) (aborted : bool)
  | ResponseError (status : Z) (statusText : jsstr) (error : option jsstr) (aborted : bool)
  | ResponseBody (reads : list proxy_read).

Definition proxy_start : proxy_state := mkProxy new_partial [] [].

Definition streamProxy (response : proxy_response) : proxy_state :=
  match response with
  | FetchThrow message aborted => proxy_fail message aborted proxy_start
  | ResponseError status statusText error aborted =>
      let errorMessage :=
        match error with
        | Some (c :: e) => js "Proxy error: " ++ c :: e
        | _ => js "Proxy error: " ++ show status ++ js " " ++ statusText
        end in
      proxy_fail errorMessage aborted proxy_start
  | ResponseBody reads => read_loop reads proxy_start
  end.
End Proxy.
