(* ===== verification/ProxyProps.v ===== *)
(** What the proxy stream guarantees: the message is rebuilt from its events however
    the response is cut into chunks; and what it does not: a response that ends early
    leaves the result of the stream unresolved. *)
From S2P Require Import Prelude JsString StringSearch Json JsonParse Effects Messages EventStream ProxyStream.

Section Proxy.
Context (number_text : jsstr -> jsstr) (partialParse : jsstr -> option json).
Context (parse_event : jsstr -> result jsstr ProxyAssistantMessageEvent).
Local Abbreviation process_line := (process_line number_text partialParse parse_event).
Local Abbreviation process_lines := (process_lines number_text partialParse parse_event).
Local Abbreviation process_chunk := (process_chunk number_text partialParse parse_event).
Local Abbreviation read_loop := (read_loop number_text partialParse parse_event).
Local Abbreviation processProxyEvent := (processProxyEvent number_text partialParse).

(** ** Chunks *)

Definition set_buffer (b : jsstr) (st : proxy_state) : proxy_state := mkProxy (px_partial st) b (px_ops st).

Lemma process_line_buffer line b st :
  process_line line (set_buffer b st) = let '(e, st') := process_line line st in (e, set_buffer b st').
Proof.
  unfold ProxyStream.process_line. destruct (starts_with _ line); [| done]. destruct (is_empty _); [done |].
  destruct (parse_event _) as [ev|e]; [| done]. cbn [set_buffer px_partial].
  destruct (processProxyEvent ev (px_partial st)) as [[[e|]|e] p]; done.
Qed.

Lemma process_lines_buffer lines b : forall st,
  process_lines lines (set_buffer b st) = let '(e, st') := process_lines lines st in (e, set_buffer b st').
Proof.
  induction lines as [|line lines IH]; intros st; cbn [ProxyStream.process_lines]; [done |].
  rewrite process_line_buffer. destruct (process_line line st) as [[e|] st']; [done | apply IH].
Qed.

Lemma process_lines_app lines lines' : forall st,
  process_lines (lines ++ lines') st =
  match process_lines lines st with (Some e, st') => (Some e, st') | (None, st') => process_lines lines' st' end.
Proof.
  induction lines as [|line lines IH]; intros st; cbn [app ProxyStream.process_lines]; [done |].
  destruct (process_line line st) as [[e|] st']; [done | apply IH].
Qed.

Lemma split_on_app sep a b :
  split_on sep (a ++ b) = removelast (split_on sep a) ++ split_on sep (default [] (last (split_on sep a)) ++ b).
Proof.
  induction a as [|c a IH]; [done |]. cbn [app split_on]. rewrite IH.
  destruct (split_on_cons sep a) as (l & ls & E). rewrite E. destruct (c =? sep) eqn:Ec.
  - destruct ls; done.
  - destruct ls as [|l' ls]; [| done]. cbn. rewrite Ec.
    destruct (split_on_cons sep (l ++ b)) as (m & ms & ->). done.
Qed.

Lemma last_piece sep s : exists l, last (split_on sep s) = Some l /\ sep ∉ l.
Proof.
  destruct (last (split_on sep s)) as [l|] eqn:E.
  - exists l. split; [done |]. apply last_Some_elem_of in E. pose proof (split_on_Forall sep s) as H.
    rewrite Forall_forall in H. by apply H.
  - apply last_None in E. destruct (split_on_cons sep s) as (l & ls & E'). congruence.
Qed.

(** The chunks of a response are processed as the lines of their concatenation. *)
Lemma read_chunks chunks rest : forall st,
  10 ∉ px_buffer st ->
  let lines := split_on 10 (px_buffer st ++ concat chunks) in
  match process_lines (removelast lines) (set_buffer (default [] (last lines)) st) with
  | (None, st') => read_loop (map (fun t => ReadValue t false) chunks ++ rest) st = read_loop rest st'
  | (Some e, st') => exists b, read_loop (map (fun t => ReadValue t false) chunks ++ rest) st = proxy_fail e false (set_buffer b st')
  end.
Proof.
  induction chunks as [|c chunks IH]; intros st Hb; cbn [concat map app].
  - rewrite app_nil_r, split_on_plain by done. by destruct st.
  - cbv zeta. rewrite app_assoc, split_on_app. destruct (last_piece 10 (px_buffer st ++ c)) as (l & Hl & Hnl). rewrite Hl. simpl default.
    cbn [ProxyStream.read_loop]. unfold ProxyStream.process_chunk. rewrite Hl. simpl default.
    fold (set_buffer l st). set (pre := removelast (split_on 10 (px_buffer st ++ c))).
    destruct (split_on_cons 10 (l ++ concat chunks)) as (x & xs & Ex).
    assert (Hrl : removelast (pre ++ split_on 10 (l ++ concat chunks)) = pre ++ removelast (split_on 10 (l ++ concat chunks)))
      by (apply removelast_app; by rewrite Ex).
    assert (Hla : default [] (last (pre ++ split_on 10 (l ++ concat chunks))) = default [] (last (split_on 10 (l ++ concat chunks)))).
    { rewrite last_app. rewrite Ex. destruct (last (x :: xs)) eqn:E; [done |]. by apply last_None in E. }
    rewrite Hrl, Hla, process_lines_app, !process_lines_buffer.
    destruct (process_lines pre st) as [[e|] st1]; [by exists l |].
    specialize (IH (set_buffer l st1) Hnl). cbv zeta in IH. cbn [set_buffer px_buffer] in IH.
    exact IH.
Qed.

(** ** Events *)

(** The events one after the other; [None] when one of them is refused. *)
Fixpoint apply_events (evs : list ProxyAssistantMessageEvent) (p : partial_message)
  : option (list stream_event * partial_message) :=
  match evs with
  | [] => Some ([], p)
  | ev :: evs' =>
      match processProxyEvent ev p with
      | (Throw _, _) => None
      | (Ok e, p') =>
          match apply_events evs' p' with
          | Some (es, p'') => Some (option_list e ++ es, p'')
          | None => None
          end
      end
  end.

Lemma apply_events_app evs evs' p es p1 :
  apply_events evs p = Some (es, p1) ->
  apply_events (evs ++ evs') p = match apply_events evs' p1 with Some (es', p2) => Some (es ++ es', p2) | None => None end.
Proof.
  revert p es. induction evs as [|ev evs IH]; intros p es; cbn [app apply_events].
  - intros [= <- <-]. by destruct (apply_events evs' p) as [[]|].
  - destruct (processProxyEvent ev p) as [[e|] p']; [| done].
    destruct (apply_events evs p') as [[es0 q]|] eqn:E; [| done]. intros [= <- <-].
    rewrite (IH _ _ E). destruct (apply_events evs' q) as [[]|]; [| done]. by rewrite <- app_assoc.
Qed.

(** The text of an event on a line: what [JSON.parse] reads back as the event. *)
Definition event_text (ev : ProxyAssistantMessageEvent) (text : jsstr) : Prop :=
  trim (drop 6 (js "data: " ++ text)) = text /\ text <> [] /\ parse_event text = Ok ev.

(** The lines of a response that carry events; other lines are ignored. *)
Inductive wire : list ProxyAssistantMessageEvent -> list jsstr -> Prop :=
  | wire_end : wire [] []
  | wire_event ev text evs lines : event_text ev text -> wire evs lines -> wire (ev :: evs) ((js "data: " ++ text) :: lines)
  | wire_other line evs lines : starts_with (js "data: ") line = false -> wire evs lines -> wire evs (line :: lines).

Lemma wire_lines evs lines : wire evs lines -> forall p b ops es p',
  apply_events evs p = Some (es, p') ->
  process_lines lines (mkProxy p b ops) = (None, mkProxy p' b (ops ++ map Push es)).
Proof.
  induction 1 as [|ev text evs lines (Ht & Hne & Hp) _ IH|line evs lines Hl _ IH]; intros p b ops es p' Happ.
  - injection Happ as <- <-. cbn. by rewrite app_nil_r.
  - cbn [ProxyStream.process_lines]. unfold ProxyStream.process_line at 1.
    change (starts_with (js "data: ") (js "data: " ++ text)) with true. cbv iota.
    rewrite Ht, (proj2 (is_empty_false text)), Hp by done. cbn [px_partial].
    cbn [apply_events] in Happ. destruct (processProxyEvent ev p) as [[e|] p1]; [| done].
    destruct (apply_events evs p1) as [[es1 p2]|] eqn:E; [| done]. injection Happ as <- <-.
    destruct e as [e|]; cbn [push_event set_partial px_partial px_buffer px_ops option_list app].
    + rewrite (IH _ _ _ _ _ E). by rewrite <- app_assoc.
    + unfold set_partial. cbn [px_buffer px_ops]. by rewrite (IH _ _ _ _ _ E).
  - cbn [ProxyStream.process_lines]. unfold ProxyStream.process_line at 1. rewrite Hl. by apply IH.
Qed.

(** ** Blocks *)

(** The finished block. *)
Definition as_block (b : partial_block) : assistant_block :=
  match b with
  | PbText text sig => AText text sig
  | PbThinking text sig => AThinking text sig None
  | PbToolCall call _ => AToolCall call
  end.

(** A text from which the arguments of a call are read: JSON of an object, written
    in any way; or nothing, for an empty one. *)
Definition arguments_text (text : jsstr) (m : list (jsstr * json)) : Prop :=
  json_parse number_text text = Some (JObj m) \/ (trim text = [] /\ m = []).

(** The events that describe block [i], its text in any pieces. *)
Inductive describes (i : nat) : assistant_block -> list ProxyAssistantMessageEvent -> Prop :=
  | describes_text ds sig :
      describes i (AText (concat ds) sig) (PxTextStart i :: map (PxTextDelta i) ds ++ [PxTextEnd i sig])
  | describes_thinking ds sig :
      describes i (AThinking (concat ds) sig None) (PxThinkingStart i :: map (PxThinkingDelta i) ds ++ [PxThinkingEnd i sig])
  | describes_call id name m ds :
      arguments_text (concat ds) m ->
      describes i (AToolCall (mkToolCall id name (JObj m) None))
        (PxToolcallStart i id name :: map (PxToolcallDelta i) ds ++ [PxToolcallEnd i]).

(** The block an event is about. *)
Definition block_index (ev : ProxyAssistantMessageEvent) : option nat :=
  match ev with
  | PxTextStart i | PxTextDelta i _ | PxTextEnd i _ | PxThinkingStart i | PxThinkingDelta i _ | PxThinkingEnd i _
  | PxToolcallStart i _ _ | PxToolcallDelta i _ | PxToolcallEnd i => Some i
  | _ => None
  end.
Definition events_of (i : nat) (evs : list ProxyAssistantMessageEvent) : list ProxyAssistantMessageEvent :=
  filter (fun ev => block_index ev = Some i) evs.

(** Events that describe the blocks of a message, interleaved in any way: every one is
    about a block, and those about each block describe it, in order. *)
Definition describes_all (bs : list assistant_block) (evs : list ProxyAssistantMessageEvent) : Prop :=
  Forall (fun ev => exists i, block_index ev = Some i /\ (i < length bs)%nat) evs /\
  forall i b, bs !! i = Some b -> describes i b (events_of i evs).

(** The arguments after the last piece are those of the whole text. *)
Definition streamed_arguments (text : jsstr) : json := truthy_or_empty (parseStreamingJson number_text partialParse text).

(** What an event does to its block alone; [None] when it is refused. *)
Definition block_step (ev : ProxyAssistantMessageEvent) (b : option partial_block) : option (option partial_block) :=
  match ev, b with
  | PxTextStart _, _ => Some (Some (PbText [] None))
  | PxTextDelta _ d, Some (PbText text sig) => Some (Some (PbText (text ++ d) sig))
  | PxTextEnd _ sig, Some (PbText text _) => Some (Some (PbText text sig))
  | PxThinkingStart _, _ => Some (Some (PbThinking [] None))
  | PxThinkingDelta _ d, Some (PbThinking text sig) => Some (Some (PbThinking (text ++ d) sig))
  | PxThinkingEnd _ sig, Some (PbThinking text _) => Some (Some (PbThinking text sig))
  | PxToolcallStart _ id name, _ => Some (Some (PbToolCall (mkToolCall id name (JObj []) None) (Some [])))
  | PxToolcallDelta _ d, Some (PbToolCall call json) =>
      let text := default (js "undefined") json ++ d in
      Some (Some (PbToolCall (set_arguments (streamed_arguments text) call) (Some text)))
  | PxToolcallEnd _, Some (PbToolCall call _) => Some (Some (PbToolCall call None))
  | PxToolcallEnd _, b => Some b
  | _, _ => None
  end.
Fixpoint block_run (evs : list ProxyAssistantMessageEvent) (b : option partial_block) : option (option partial_block) :=
  match evs with [] => Some b | ev :: evs' => block_step ev b ≫= block_run evs' end.

Lemma block_run_app evs evs' b : block_run (evs ++ evs') b = block_run evs b ≫= block_run evs'.
Proof. revert b. induction evs as [|ev evs IH]; intros b; [done|]. cbn. destruct (block_step ev b); [apply IH|done]. Qed.

(** Assigning a block changes that block only. *)
Lemma block_at_assign i b p j : block_at (assign_block i b p) j = if decide (j = i) then Some b else block_at p j.
Proof.
  unfold block_at, assign_block. cbn [pm_content]. set (l := pm_content p). case_decide as Hj.
  - subst. rewrite list_lookup_insert_eq; [done|]. rewrite length_app, length_replicate. lia.
  - rewrite list_lookup_insert_ne by done. destruct (decide (j < length l)%nat) as [Hl|Hl]; [by rewrite lookup_app_l|].
    rewrite lookup_app_r by lia. rewrite (lookup_ge_None_2 l) by lia.
    destruct (replicate _ _ !! _) as [o|] eqn:E; [|done]. by apply lookup_replicate in E as [-> _].
Qed.

Lemma length_assign i b p : length (pm_content (assign_block i b p)) = Nat.max (S i) (length (pm_content p)).
Proof. unfold assign_block. cbn [pm_content]. rewrite length_insert, length_app, length_replicate. lia. Qed.

(** The same message but for its block [i]. *)
Record changed_at (i : nat) (b : option partial_block) (p p' : partial_message) : Prop := {
  ca_block : forall j, block_at p' j = if decide (j = i) then b else block_at p j;
  ca_length : (length (pm_content p') <= Nat.max (S i) (length (pm_content p)))%nat;
  ca_rest : pm_stopReason p' = pm_stopReason p /\ pm_usage p' = pm_usage p /\ pm_errorMessage p' = pm_errorMessage p;
}.

Lemma changed_assign i b p : changed_at i (Some b) p (assign_block i b p).
Proof. split; [intros; apply block_at_assign|by rewrite length_assign|done]. Qed.

Lemma unchanged_block i p : changed_at i (block_at p i) p p.
Proof. split; [|lia|done]. intros j. by case_decide; subst. Qed.

(** An event does to the message what it does to its block. *)
Lemma event_step ev i p b : block_index ev = Some i -> block_step ev (block_at p i) = Some b ->
  exists e p', processProxyEvent ev p = (Ok e, p') /\ changed_at i b p p' /\ existsb px_complete (option_list e) = false.
Proof.
  intros Hi Hb.
  destruct ev; try discriminate Hi; injection Hi as <-; cbn [block_step ProxyStream.processProxyEvent] in *;
    try (destruct (block_at p _) as [[text sig|text sig|call json]|] eqn:Eb; try discriminate Hb);
    injection Hb as <-; eexists _, _; (split; [reflexivity|split; [|reflexivity]]);
    first [apply changed_assign | rewrite <- Eb; apply unchanged_block].
Qed.

Lemma events_step n evs : forall p,
  Forall (fun ev => exists i, block_index ev = Some i /\ (i < n)%nat) evs -> (length (pm_content p) <= n)%nat ->
  (forall i, (i < n)%nat -> exists b, block_run (events_of i evs) (block_at p i) = Some (Some b)) ->
  exists es p', apply_events evs p = Some (es, p') /\ existsb px_complete es = false /\ (length (pm_content p') <= n)%nat /\
    (forall i, (i < n)%nat -> block_run (events_of i evs) (block_at p i) = Some (block_at p' i)) /\
    pm_stopReason p' = pm_stopReason p /\ pm_usage p' = pm_usage p /\ pm_errorMessage p' = pm_errorMessage p.
Proof.
  induction evs as [|ev evs IH]; intros p Hev Hlen Hrun; [exists [], p; by split_and!|].
  apply Forall_cons in Hev as [(i & Hi & Hin) Hev].
  assert (Hhere : forall j, events_of j (ev :: evs) = (if decide (j = i) then [ev] else []) ++ events_of j evs).
  { intros j. unfold events_of. case_decide as Hj; [subst; by rewrite filter_cons_True|]. rewrite filter_cons_False; [done|congruence]. }
  destruct (Hrun i Hin) as (bi & Hbi). rewrite Hhere, decide_True in Hbi by done. cbn [app block_run] in Hbi.
  destruct (block_step ev (block_at p i)) as [b|] eqn:Eb; [|done]. cbn in Hbi.
  destruct (event_step ev i p b Hi Eb) as (e & p1 & He & [Hblock Hl1 (Hr1 & Hr2 & Hr3)] & Hec).
  assert (Hnext : forall j, block_run (events_of j (ev :: evs)) (block_at p j) = block_run (events_of j evs) (block_at p1 j)).
  { intros j. rewrite Hhere, Hblock. case_decide; [subst; cbn [app block_run]; by rewrite Eb|done]. }
  destruct (IH p1) as (es & p2 & E & Hes & Hl2 & Hfin & Hq); [done|lia|intros j Hj; destruct (Hrun j Hj) as [bj Hbj]; exists bj; by rewrite <- Hnext|].
  exists (option_list e ++ es), p2. cbn [apply_events]. rewrite He, E. split; [done|].
  rewrite existsb_app, Hec, Hes. destruct Hq as (-> & -> & ->). split_and!; try done. intros j Hj. rewrite Hnext. by apply Hfin.
Qed.

(** ** The events of one block *)

Lemma parsed_object text m : json_parse number_text text = Some (JObj m) -> 123 ∈ text.
Proof.
  unfold json_parse. destruct (parse_value _ _ text) as [[v r]|] eqn:E; [|done]. destruct (is_empty _); [|done]. intros [= ->].
  unfold parse_fuel in E. rewrite Nat.add_comm in E. cbn [Nat.add parse_value] in E.
  assert (Hskip : forall c l, skip_ws text = c :: l -> c ∈ text).
  { clear. induction text as [|d text IH]; intros c l; cbn [skip_ws]; [done|]. destruct (is_json_space d).
    - intros H. right. by eapply IH.
    - intros [= -> _]. left. }
  destruct (skip_ws text) as [|c l] eqn:Es; [done|]. destruct (c =? 123) eqn:Ec; [apply Z.eqb_eq in Ec as ->; by eapply Hskip|].
  exfalso. revert E. case_if.
  { destruct (skip_ws l) as [|d l']; [done|]. case_if; [done|]. intros E.
    assert (Hel : forall fuel s acc v r, parse_elements number_text fuel s acc = Some (v, r) -> exists l, v = JArr l).
    { clear. induction fuel as [|fuel IH]; intros s acc v r; cbn [parse_elements]; [done|].
      destruct (parse_value number_text fuel s) as [[w r1]|]; [|done]. destruct (skip_ws r1) as [|d r']; [done|].
      case_if; [apply IH|]. case_if; [|done]. intros [= <- _]. by eexists. }
    destruct (Hel _ _ _ _ _ E) as [? ?]. done. }
  case_if; [by destruct (parse_string l) as [[]|]|]. unfold parse_atom. repeat case_match; intros; simplify_eq.
Qed.

(** The arguments of the whole text are the object it stands for. *)
Lemma streamed_object text m : arguments_text text m -> streamed_arguments text = JObj m.
Proof.
  intros [H|[H ->]]; unfold streamed_arguments, parseStreamingJson.
  - replace (is_empty (trim text)) with false; [unfold parseJsonWithRepair; by rewrite H|]. symmetry. apply is_empty_false.
    rewrite trim_nil. rewrite Forall_forall. intros Hs. by specialize (Hs 123 (parsed_object text m H)).
  - by rewrite H.
Qed.

Lemma run_text i ds sig : forall text,
  block_run (map (PxTextDelta i) ds) (Some (PbText text sig)) = Some (Some (PbText (text ++ concat ds) sig)).
Proof. induction ds as [|d ds IH]; intros text; cbn; [by rewrite app_nil_r|]. rewrite IH. by rewrite <- app_assoc. Qed.

Lemma run_thinking i ds sig : forall text,
  block_run (map (PxThinkingDelta i) ds) (Some (PbThinking text sig)) = Some (Some (PbThinking (text ++ concat ds) sig)).
Proof. induction ds as [|d ds IH]; intros text; cbn; [by rewrite app_nil_r|]. rewrite IH. by rewrite <- app_assoc. Qed.

Lemma run_call i id name ds : forall text args,
  block_run (map (PxToolcallDelta i) ds) (Some (PbToolCall (mkToolCall id name args None) (Some text)))
  = Some (Some (PbToolCall (mkToolCall id name
        (match ds with [] => args | _ => streamed_arguments (text ++ concat ds) end) None) (Some (text ++ concat ds)))).
Proof.
  induction ds as [|d ds IH]; intros text args; cbn -[streamed_arguments]; [by rewrite app_nil_r|].
  unfold set_arguments. cbn [tc_id tc_name tc_thoughtSignature]. rewrite IH, <- app_assoc.
  destruct ds as [|d' ds]; [|done]. cbn [concat]. by rewrite app_nil_r.
Qed.

Lemma describes_run i b evs start : describes i b evs -> exists pb, block_run evs start = Some (Some pb) /\ as_block pb = b.
Proof.
  intros [ds sig|ds sig|id name m ds Ht]; cbn [block_run block_step mbind option_bind]; rewrite block_run_app.
  - rewrite run_text. by eexists.
  - rewrite run_thinking. by eexists.
  - rewrite run_call. eexists. split; [done|]. cbn [app as_block] in *. destruct ds as [|d ds].
    + do 2 f_equal. destruct Ht as [H|[_ ->]]; [by apply parsed_object, elem_of_nil in H|done].
    + by rewrite (streamed_object _ _ Ht).
Qed.

Lemma blocks_complete (l : list (option partial_block)) bs : (length l <= length bs)%nat ->
  (forall i b, bs !! i = Some b -> exists pb, mjoin (l !! i) = Some pb /\ as_block pb = b) ->
  exists pbs, l = map Some pbs /\ map as_block pbs = bs.
Proof.
  revert l. induction bs as [|b bs IH]; intros l Hl H.
  - destruct l; [by exists []|simpl in Hl; lia].
  - destruct (H 0%nat b eq_refl) as (pb & Hpb & Hb). destruct l as [|o l]; [done|]. cbn in Hpb. subst o.
    destruct (IH l) as (pbs & -> & Hpbs); [simpl in Hl; lia|intros i b' Hb'; by apply (H (S i) b')|].
    exists (pb :: pbs). cbn. by rewrite Hb, Hpbs.
Qed.

Lemma message_events bs evs : describes_all bs evs ->
  exists es pbs, apply_events evs new_partial = Some (es, mkPartial (map Some pbs) StopStop EMPTY_USAGE None) /\
    map as_block pbs = bs /\ existsb px_complete es = false.
Proof.
  intros [Hev Hd]. destruct (events_step (length bs) evs new_partial Hev) as (es & [l sr u em] & E & Hes & Hl & Hfin & Hq); [simpl; lia| |].
  { intros i [b Hb]%lookup_lt_is_Some_2. destruct (describes_run i b _ (block_at new_partial i) (Hd i b Hb)) as (pb & Hpb & _). by exists pb. }
  destruct (blocks_complete l bs Hl) as (pbs & -> & Hpbs).
  { intros i b Hb. destruct (describes_run i b _ (block_at new_partial i) (Hd i b Hb)) as (pb & Hpb & Hab).
    rewrite (Hfin i) in Hpb by (by eapply lookup_lt_Some). injection Hpb as Hpb. by exists pb. }
  cbn in Hq. destruct Hq as (-> & -> & ->). by exists es, pbs.
Qed.

(** A body of lines, each with its newline. *)
Definition body_text (lines : list jsstr) : jsstr := concat (map (fun l => l ++ nl) lines).

Lemma split_body lines : Forall (fun l => 10 ∉ l) lines -> split_on 10 (body_text lines) = lines ++ [[]].
Proof.
  induction lines as [|l lines IH]; intros H; [done |]. apply Forall_cons in H as [Hl H].
  unfold body_text. cbn [map concat]. unfold nl. rewrite <- app_assoc. cbn [app]. rewrite split_on_line by done.
  specialize (IH H). unfold body_text, nl in IH. by rewrite IH.
Qed.

(** A response that is all lines, in any chunks, and then ends. *)
Lemma streamProxy_lines evs lines chunks es p :
  wire evs lines -> Forall (fun l => 10 ∉ l) lines -> concat chunks = body_text lines ->
  apply_events evs new_partial = Some (es, p) ->
  streamProxy number_text partialParse parse_event
    (ResponseBody (map (fun t => ReadValue t false) chunks ++ [ReadDone false]))
  = mkProxy p [] (map Push es ++ [End None]).
Proof.
  intros Hw Hl Hc Hev. unfold streamProxy. pose proof (read_chunks chunks [ReadDone false] proxy_start) as H.
  cbn [px_buffer proxy_start app] in H. rewrite Hc, split_body, removelast_last, last_snoc in H by done. simpl default in H.
  unfold set_buffer in H. cbn [px_partial px_ops proxy_start] in H.
  rewrite (wire_lines _ _ Hw _ _ _ _ _ Hev) in H. rewrite H by apply not_elem_of_nil. done.
Qed.

(** C15: The client rebuilds the message the server describes. The events describe the
    blocks of a message: those about each block are its start, deltas that cut its text
    or the JSON of its arguments into any pieces, and its end; those of different blocks
    may interleave in any way, as providers may emit them. Given them, a start and a
    final done event, on lines of a response that is cut into chunks anywhere, the stream
    ends with exactly those blocks, the stop reason and the usage, and its result is
    resolved. The arguments of a call are a JSON object written in any way, or left out
    when empty. *)
Theorem proxy_rebuilds bs evs reason usage lines chunks :
  describes_all bs evs ->
  wire (PxStart :: evs ++ [PxDone reason usage]) lines -> Forall (fun l => 10 ∉ l) lines ->
  concat chunks = body_text lines ->
  exists pbs ops,
    streamProxy number_text partialParse parse_event
      (ResponseBody (map (fun t => ReadValue t false) chunks ++ [ReadDone false]))
    = mkProxy (mkPartial (map Some pbs) reason usage None) [] ops
    /\ map as_block pbs = bs /\ final_result px_complete (fun _ => tt) ops = Some tt.
Proof.
  intros Hd Hw Hl Hc. destruct (message_events bs evs Hd) as (es & pbs & E & Hpbs & Hes).
  assert (Hev : apply_events (PxStart :: evs ++ [PxDone reason usage]) new_partial
            = Some (EvStart :: es ++ [EvDone reason], mkPartial (map Some pbs) reason usage None)).
  { cbn [apply_events ProxyStream.processProxyEvent]. rewrite (apply_events_app _ _ _ _ _ E). cbn. done. }
  exists pbs. eexists. split; [by eapply streamProxy_lines |]. split; [done |].
  cbn [map app final_result px_complete]. clear -Hes. induction es as [|e es IH]; [done |].
  cbn [existsb] in Hes. apply orb_false_iff in Hes as [He Hes]. cbn [map app final_result]. rewrite He. by apply IH.
Qed.

(** A response that ends before its done or error event closes the stream without a
    result: whatever the events were, the promise of [result()] stays pending, and a
    caller that awaits it never goes on. *)
Theorem proxy_truncated_pending evs lines chunks es p :
  wire evs lines -> Forall (fun l => 10 ∉ l) lines -> concat chunks = body_text lines ->
  apply_events evs new_partial = Some (es, p) -> existsb px_complete es = false ->
  let ops := px_ops (streamProxy number_text partialParse parse_event
               (ResponseBody (map (fun t => ReadValue t false) chunks ++ [ReadDone false]))) in
  closed px_complete ops = true /\ final_result px_complete (fun _ => tt) ops = None.
Proof.
  intros Hw Hl Hc Hev Hes. cbv zeta. rewrite (streamProxy_lines _ _ _ _ _ Hw Hl Hc Hev). cbn [px_ops]. split.
  - unfold closed. rewrite existsb_app. apply orb_true_iff. by right.
  - clear -Hes. induction es as [|e es IH]; [done |].
    cbn [existsb] in Hes. apply orb_false_iff in Hes as [He Hes]. cbn [map app final_result]. rewrite He. by apply IH.
Qed.
End Proxy.

(** ** Samples *)

Module ProxySample.

(** A toy wire format: a letter for the event, the rest of the text for its argument. *)
Definition toy_event (text : jsstr) : result jsstr ProxyAssistantMessageEvent :=
  match text with
  | 83 :: _ => Ok PxStart
  | 66 :: _ => Ok (PxTextStart 0)
  | 68 :: d => Ok (PxTextDelta 0 d)
  | 69 :: _ => Ok (PxTextEnd 0 None)
  | 67 :: _ => Ok (PxToolcallStart 1 (js "id") (js "read"))
  | 65 :: d => Ok (PxToolcallDelta 1 d)
  | 70 :: _ => Ok (PxToolcallEnd 1)
  | 90 :: _ => Ok (PxDone StopStop EMPTY_USAGE)
  | _ => Throw (js "Unexpected token")
  end.
Definition number_id (s : jsstr) : jsstr := s.
Definition no_parse (s : jsstr) : option json := None.

Definition body_lines : list jsstr := [js "data: S"; []; js "data: B"; js "data: Dhel"; js "data: Dlo"; js "data: E"].
Definition hello_events : list ProxyAssistantMessageEvent :=
  [PxTextStart 0; PxTextDelta 0 (js "hel"); PxTextDelta 0 (js "lo"); PxTextEnd 0 None].
Definition cut (s : jsstr) : list jsstr := [take 9 s; take 20 (drop 9 s); drop 29 s].

Lemma events_wire : wire toy_event (PxStart :: hello_events) body_lines.
Proof.
  apply (wire_event _ PxStart (js "S")); [repeat split; vm_compute; done |].
  apply wire_other; [reflexivity |].
  apply (wire_event _ (PxTextStart 0) (js "B")); [repeat split; vm_compute; done |].
  apply (wire_event _ (PxTextDelta 0 (js "hel")) (js "Dhel")); [repeat split; vm_compute; done |].
  apply (wire_event _ (PxTextDelta 0 (js "lo")) (js "Dlo")); [repeat split; vm_compute; done |].
  apply (wire_event _ (PxTextEnd 0 None) (js "E")); [repeat split; vm_compute; done |]. constructor.
Qed.

Lemma lines_one : Forall (fun l => 10 ∉ l) (body_lines ++ [js "data: Z"]).
Proof. refine (bool_decide_unpack (Forall (fun l => 10 ∉ l) (body_lines ++ [js "data: Z"])) _). vm_compute. exact I. Qed.

(** A text and a call whose events interleave, the arguments spaced out. *)
Definition mixed_texts : list jsstr :=
  [js "S"; js "B"; js "Dhel"; js "C"; quoted "A{ 'pa"; js "Dlo"; js "E"; quoted "Ath' : 'a.ts'}"; js "F"; js "Z"].
Definition mixed_events : list ProxyAssistantMessageEvent :=
  [PxTextStart 0; PxTextDelta 0 (js "hel"); PxToolcallStart 1 (js "id") (js "read"); PxToolcallDelta 1 (quoted "{ 'pa");
   PxTextDelta 0 (js "lo"); PxTextEnd 0 None; PxToolcallDelta 1 (quoted "th' : 'a.ts'}"); PxToolcallEnd 1].
Definition mixed_blocks : list assistant_block :=
  [AText (js "hello") None; AToolCall (mkToolCall (js "id") (js "read") (JObj [(js "path", JStr (js "a.ts"))]) None)].
Definition mixed_lines : list jsstr := map (fun t => js "data: " ++ t) mixed_texts.

Lemma mixed_described : describes_all number_id mixed_blocks mixed_events.
Proof.
  split; [repeat constructor; eexists; (split; [reflexivity|simpl; lia])|].
  intros [|[|i]] b; [| |done]; intros [= <-].
  - exact (describes_text number_id 0 [js "hel"; js "lo"] None).
  - apply (describes_call number_id 1 (js "id") (js "read") [(js "path", JStr (js "a.ts"))] [quoted "{ 'pa"; quoted "th' : 'a.ts'}"]).
    left. vm_compute. reflexivity.
Qed.

Lemma mixed_wire : wire toy_event (PxStart :: mixed_events ++ [PxDone StopStop EMPTY_USAGE]) mixed_lines.
Proof. repeat (apply wire_event; [repeat split; vm_compute; done|]). constructor. Qed.

Lemma proxy_rebuilds_witness :
  exists pbs ops,
    streamProxy number_id no_parse toy_event
      (ResponseBody (map (fun t => ReadValue t false) (cut (body_text mixed_lines)) ++ [ReadDone false]))
    = mkProxy (mkPartial (map Some pbs) StopStop EMPTY_USAGE None) [] ops
    /\ map as_block pbs = mixed_blocks /\ final_result px_complete (fun _ => tt) ops = Some tt.
Proof.
  apply (proxy_rebuilds number_id no_parse toy_event mixed_blocks mixed_events StopStop EMPTY_USAGE mixed_lines).
  - apply mixed_described.
  - apply mixed_wire.
  - refine (bool_decide_unpack (Forall (fun l => 10 ∉ l) mixed_lines) _). vm_compute. exact I.
  - vm_compute. reflexivity.
Defined.

Lemma proxy_truncated_pending_witness :
  let ops := px_ops (streamProxy number_id no_parse toy_event
    (ResponseBody (map (fun t => ReadValue t false) [body_text body_lines] ++ [ReadDone false]))) in
  closed px_complete ops = true /\ final_result px_complete (fun _ => tt) ops = None.
Proof.
  apply (proxy_truncated_pending number_id no_parse toy_event (PxStart :: hello_events) body_lines [body_text body_lines]
           [EvStart; EvTextStart 0; EvTextDelta 0 (js "hel"); EvTextDelta 0 (js "lo"); EvTextEnd 0 (js "hello")]
           (mkPartial [Some (PbText (js "hello") None)] StopStop EMPTY_USAGE None)).
  - apply events_wire.
  - pose proof lines_one as H. apply Forall_app in H. exact (proj1 H).
  - cbn [concat]. apply app_nil_r.
  - vm_compute. reflexivity.
  - reflexivity.
Defined.

(** A connection that fails after the done event still rewrites the finished message,
    which the result of the stream refers to. *)
Example late_failure_rewrites_message :
  let st := streamProxy number_id no_parse toy_event
    (ResponseBody [ReadValue (body_text [js "data: S"; js "data: Z"]) false; ReadThrow (js "reset") false]) in
  final_result px_complete (fun _ => tt) (px_ops st) = Some tt
  /\ pm_stopReason (px_partial st) = StopError /\ pm_errorMessage (px_partial st) = Some (js "reset").
Proof. vm_compute. repeat split. Qed.

(** A last event without its newline is lost. *)
Example unterminated_line_lost :
  px_ops (streamProxy number_id no_parse toy_event (ResponseBody [ReadValue (js "data: Z") false; ReadDone false])) = [End None].
Proof. vm_compute. reflexivity. Qed.

End ProxySample.
