(* ===== verification/Utf8.v ===== *)
(** Decoding UTF-8, as [TextDecoder] and [Buffer.prototype.toString("utf-8")] do it: the
    decoder of the Encoding standard, byte by byte, and the state it keeps between the
    chunks of a stream.  The encoder is [Truncate.utf8_encode]. *)
From S2P Require Import Prelude JsString Truncate Uuid.

(** ** The decoder *)

(** The continuation bytes still needed, the code point so far and the range of the
    next byte. *)
Record utf8_state := mkUtf8 { u8_needed : nat; u8_cp : Z; u8_lower : Z; u8_upper : Z }.
Definition utf8_idle : utf8_state := mkUtf8 0 0 128 191.

Definition replacement_char : Z := 65533.

(** A code point in UTF-16. *)
Definition cp_units (cp : Z) : jsstr :=
  if cp <=? 65535 then [cp]
  else [55296 + Z.shiftr (cp - 65536) 10; 56320 + Z.land (cp - 65536) 1023].

(** A byte where a character begins. *)
Definition utf8_lead (b : Z) : jsstr * utf8_state :=
  if b <=? 127 then ([b], utf8_idle)
  else if (194 <=? b) && (b <=? 223) then ([], mkUtf8 1 (Z.land b 31) 128 191)
  else if (224 <=? b) && (b <=? 239) then
    ([], mkUtf8 2 (Z.land b 15) (if b =? 224 then 160 else 128) (if b =? 237 then 159 else 191))
  else if (240 <=? b) && (b <=? 244) then
    ([], mkUtf8 3 (Z.land b 7) (if b =? 240 then 144 else 128) (if b =? 244 then 143 else 191))
  else ([replacement_char], utf8_idle).

(** A byte out of range ends the character under way and begins another. *)
Definition utf8_byte (st : utf8_state) (b : Z) : jsstr * utf8_state :=
  match u8_needed st with
  | O => utf8_lead b
  | S n =>
      if (u8_lower st <=? b) && (b <=? u8_upper st) then
        let cp := Z.lor (Z.shiftl (u8_cp st) 6) (Z.land b 63) in
        match n with O => (cp_units cp, utf8_idle) | S _ => ([], mkUtf8 n cp 128 191) end
      else let '(units, st') := utf8_lead b in (replacement_char :: units, st')
  end.

Fixpoint utf8_run (st : utf8_state) (bytes : list Z) : jsstr * utf8_state :=
  match bytes with
  | [] => ([], st)
  | b :: bytes' =>
      let '(units, st') := utf8_byte st b in
      let '(rest, st'') := utf8_run st' bytes' in (units ++ rest, st'')
  end.

(** The end of the input: an unfinished character is replaced. *)
Definition utf8_end (st : utf8_state) : jsstr := match u8_needed st with O => [] | S _ => [replacement_char] end.

(** [buffer.toString("utf-8")]. *)
Definition utf8_decode (bytes : list Z) : jsstr :=
  let '(units, st) := utf8_run utf8_idle bytes in units ++ utf8_end st.

(** ** [TextDecoder] *)

Record TextDecoder := mkTextDecoder { td_state : utf8_state; td_bomSeen : bool }.
Definition new_TextDecoder : TextDecoder := mkTextDecoder utf8_idle false.

(** A byte order mark at the very beginning is dropped. *)
Definition drop_mark (bomSeen : bool) (units : jsstr) : jsstr * bool :=
  match units with
  | [] => ([], bomSeen)
  | c :: units' => (if negb bomSeen && (c =? 65279) then units' else units, true)
  end.

(** [decode(data, { stream: true })]. *)
Definition decode_stream (td : TextDecoder) (data : list Z) : jsstr * TextDecoder :=
  let '(units, st) := utf8_run (td_state td) data in
  let '(text, seen) := drop_mark (td_bomSeen td) units in (text, mkTextDecoder st seen).

(** [decode()], after which the decoder is as new. *)
Definition decode_end (td : TextDecoder) : jsstr * TextDecoder :=
  ((drop_mark (td_bomSeen td) (utf8_end (td_state td))).1, new_TextDecoder).

(** The text of a whole stream of bytes. *)
Definition decoded_text (bytes : list Z) : jsstr := (drop_mark false (utf8_decode bytes)).1.

(** ** Characters *)

Inductive is_char : jsstr -> Prop :=
  | char_unit c : is_high c = false -> is_low c = false -> is_char [c]
  | char_pair h l : is_high h = true -> is_low l = true -> is_char [h; l].

Lemma is_char_nonempty ch : is_char ch -> ch <> [].
Proof. by intros []. Qed.

Lemma well_paired_char ch s : is_char ch -> well_paired (ch ++ s) = well_paired s.
Proof. intros [c E1 E2|h l E1 E2]; cbn; by rewrite E1, E2. Qed.

(** A string without unpaired surrogates is a sequence of characters. *)
Lemma chars_ind (P : jsstr -> Prop) :
  P [] -> (forall ch s, is_char ch -> well_paired s = true -> P s -> P (ch ++ s)) ->
  forall s, well_paired s = true -> P s.
Proof.
  intros H0 HS s. induction s as [s IH] using (induction_ltof1 _ (@length Z)); unfold ltof in IH.
  destruct s as [|c s]; [done |]. cbn [well_paired]. destruct (is_high c) eqn:Eh.
  - destruct s as [|d s]; [done |]. intros [Ed Hs]%andb_prop.
    apply (HS [c; d] s); [by constructor | done | apply IH; [simpl; lia | done]].
  - intros [El Hs]%andb_prop. apply negb_true_iff in El.
    apply (HS [c] s); [by constructor | done | apply IH; [simpl; lia | done]].
Qed.

Lemma encode_char ch s : is_char ch -> utf8_encode (ch ++ s) = utf8_encode ch ++ utf8_encode s.
Proof.
  intros [c E1 E2|h l E1 E2]; cbn [app utf8_encode].
  - rewrite E1, E2. by repeat case_match.
  - pose proof (proj1 (is_high_range h) E1).
    rewrite (proj2 (Z.leb_gt h 127)), (proj2 (Z.leb_gt h 2047)), E1, E2 by lia. done.
Qed.

Lemma encode_app a b : well_paired a = true -> utf8_encode (a ++ b) = utf8_encode a ++ utf8_encode b.
Proof.
  revert a. apply chars_ind; [done |]. intros ch s Hch _ IH.
  by rewrite <- app_assoc, !(encode_char ch), IH, app_assoc.
Qed.

Lemma bytes_app a b : well_paired a = true -> buffer_byteLength (a ++ b) = buffer_byteLength a + buffer_byteLength b.
Proof. intros. unfold buffer_byteLength. by rewrite encode_app, zlen_app. Qed.

Lemma well_paired_after a b : well_paired a = true -> well_paired (a ++ b) = well_paired b.
Proof.
  revert a. apply chars_ind; [done |]. intros ch s Hch _ IH. by rewrite <- app_assoc, well_paired_char.
Qed.

Lemma last_char s : well_paired s = true -> s = [] \/ exists d ch, s = d ++ ch /\ is_char ch /\ well_paired d = true.
Proof.
  revert s. apply chars_ind; [by left |]. intros ch s Hch Hs [->|(d & c & -> & Hc & Hd)]; right.
  - exists [], ch. by rewrite app_nil_r.
  - exists (ch ++ d), c. by rewrite well_paired_char, app_assoc.
Qed.

(** ** Runs of the decoder *)

Lemma utf8_run_app st a b :
  utf8_run st (a ++ b) =
  let '(s, st1) := utf8_run st a in let '(s', st2) := utf8_run st1 b in (s ++ s', st2).
Proof.
  revert st. induction a as [|x a IH]; intros st; cbn [app utf8_run].
  - by destruct (utf8_run st b).
  - destruct (utf8_byte st x) as [u st1]. rewrite IH. destruct (utf8_run st1 a) as [s st2].
    destruct (utf8_run st2 b). by rewrite app_assoc.
Qed.

(** Bytes as sums. *)
Lemma lor_tag a k t x : t = a * 2 ^ k -> 0 <= k -> 0 <= x < 2 ^ k -> Z.lor t x = t + x.
Proof. intros -> Hk Hx. by rewrite <- Z.shiftl_mul_pow2, lor_shiftl_low, Z.shiftl_mul_pow2. Qed.

Lemma cont_byte x : Z.lor 128 (Z.land x 63) = 128 + x mod 64.
Proof.
  change 63 with (Z.ones 6). rewrite Z.land_ones by lia. change (2 ^ 6) with 64.
  apply (lor_tag 2 6); [done | lia |]. pose proof (Z.mod_pos_bound x 64). lia.
Qed.

Lemma next_cp cp x : Z.lor (Z.shiftl cp 6) (Z.land (128 + x mod 64) 63) = cp * 64 + x mod 64.
Proof.
  change 63 with (Z.ones 6). rewrite Z.land_ones by lia. change (2 ^ 6) with 64.
  rewrite Z.add_mod, Z.mod_mod by lia. change (128 mod 64) with 0. rewrite Z.add_0_l, Z.mod_mod by lia.
  rewrite lor_shiftl_low by (pose proof (Z.mod_pos_bound x 64); lia). done.
Qed.

(** The bytes of a character of more than one. *)
Definition lead_bytes (cp : Z) : list Z :=
  if cp <=? 2047 then [192 + cp / 64; 128 + cp mod 64]
  else if cp <=? 65535 then [224 + cp / 4096; 128 + (cp / 64) mod 64; 128 + cp mod 64]
  else [240 + cp / 262144; 128 + (cp / 4096) mod 64; 128 + (cp / 64) mod 64; 128 + cp mod 64].

Definition pair_cp (h l : Z) : Z := 65536 + (h - 55296) * 1024 + (l - 56320).

Lemma encode_unit c : 0 <= c < 65536 -> is_high c = false -> is_low c = false ->
  utf8_encode [c] = if c <=? 127 then [c] else lead_bytes c.
Proof.
  intros Hc E1 E2. cbn [utf8_encode]. rewrite E1, E2. unfold lead_bytes.
  destruct (c <=? 127) eqn:A; [done |]. bool_hyps. rewrite !cont_byte, !Z.shiftr_div_pow2 by lia.
  change (2 ^ 6) with 64. change (2 ^ 12) with 4096.
  destruct (c <=? 2047) eqn:B; bool_hyps.
  - rewrite (lor_tag 6 5 192); [done | done | lia | Z.div_mod_to_equations; lia].
  - rewrite (proj2 (Z.leb_le c 65535)) by lia.
    rewrite (lor_tag 14 4 224); [done | done | lia | Z.div_mod_to_equations; lia].
Qed.

Lemma pair_cp_range h l : is_high h = true -> is_low l = true -> 65536 <= pair_cp h l <= 1114111.
Proof. unfold pair_cp. intros ?%is_high_range ?%is_low_range. lia. Qed.

Lemma encode_pair h l : is_high h = true -> is_low l = true -> utf8_encode [h; l] = lead_bytes (pair_cp h l).
Proof.
  intros E1 E2. pose proof (pair_cp_range h l E1 E2). pose proof (proj1 (is_high_range h) E1).
  cbn [utf8_encode]. rewrite (proj2 (Z.leb_gt h 127)), (proj2 (Z.leb_gt h 2047)), E1, E2 by lia. cbv zeta.
  rewrite Z.shiftl_mul_pow2 by lia. change (2 ^ 10) with 1024. fold (pair_cp h l).
  unfold lead_bytes. rewrite (proj2 (Z.leb_gt _ 2047)), (proj2 (Z.leb_gt _ 65535)) by lia.
  rewrite !cont_byte, !Z.shiftr_div_pow2 by lia. change (2 ^ 18) with 262144. change (2 ^ 6) with 64. change (2 ^ 12) with 4096.
  rewrite (lor_tag 30 3 240); [done | done | lia | Z.div_mod_to_equations; lia].
Qed.

Lemma cp_units_pair h l : is_high h = true -> is_low l = true -> cp_units (pair_cp h l) = [h; l].
Proof.
  intros E1 E2. pose proof (pair_cp_range h l E1 E2). apply is_high_range in E1. apply is_low_range in E2.
  unfold cp_units. rewrite (proj2 (Z.leb_gt _ 65535)) by lia.
  change 1023 with (Z.ones 10). rewrite Z.land_ones, Z.shiftr_div_pow2 by lia. change (2 ^ 10) with 1024.
  unfold pair_cp. f_equal; [| f_equal]; Z.div_mod_to_equations; lia.
Qed.

(** The decoder takes the continuation bytes it needs. *)
Lemma utf8_cont n cp lo hi x :
  lo <= 128 + x mod 64 <= hi ->
  utf8_byte (mkUtf8 (S n) cp lo hi) (128 + x mod 64) =
  match n with O => (cp_units (cp * 64 + x mod 64), utf8_idle) | S _ => ([], mkUtf8 n (cp * 64 + x mod 64) 128 191) end.
Proof.
  intros Hx. unfold utf8_byte. cbn [u8_needed u8_lower u8_upper u8_cp].
  rewrite (proj2 (Z.leb_le lo _)), (proj2 (Z.leb_le _ hi)) by lia. cbn [andb]. by rewrite next_cp.
Qed.

Lemma land_low a k t m x : t = a * 2 ^ k -> m = Z.ones k -> 0 <= k -> 0 <= x < 2 ^ k -> Z.land (t + x) m = x.
Proof.
  intros -> -> Hk Hx. rewrite Z.land_ones by done. rewrite Z.add_comm, Z.mod_add by lia. by apply Z.mod_small.
Qed.

(** A well-formed character is decoded, and the decoder is idle again. *)
Lemma utf8_run_lead cp :
  128 <= cp <= 1114111 -> ~ (55296 <= cp <= 57343) -> utf8_run utf8_idle (lead_bytes cp) = (cp_units cp, utf8_idle).
Proof.
  intros Hcp Hsur. unfold lead_bytes. destruct (cp <=? 2047) eqn:A; bool_hyps;
    [| destruct (cp <=? 65535) eqn:B; bool_hyps]; cbn [utf8_run];
    change (utf8_byte utf8_idle ?b) with (utf8_lead b); unfold utf8_lead.
  { rewrite (proj2 (Z.leb_gt _ 127)), (proj2 (Z.leb_le 194 _)), (proj2 (Z.leb_le _ 223)) by (Z.div_mod_to_equations; lia).
    cbn [andb]. rewrite (land_low 6 5 192 31 (cp / 64)) by (done || lia || (Z.div_mod_to_equations; lia)).
    rewrite utf8_cont by (Z.div_mod_to_equations; lia). rewrite !app_nil_r. cbn [app]. repeat f_equal; Z.div_mod_to_equations; lia. }
  { rewrite (proj2 (Z.leb_gt _ 127)), (proj2 (Z.leb_gt _ 223)), (proj2 (Z.leb_le 224 _)), (proj2 (Z.leb_le _ 239))
      by (Z.div_mod_to_equations; lia).
    rewrite andb_false_r. cbn [andb]. rewrite (land_low 14 4 224 15 (cp / 4096)) by (done || lia || (Z.div_mod_to_equations; lia)).
    rewrite utf8_cont by (repeat case_if; bool_hyps; Z.div_mod_to_equations; lia).
    rewrite utf8_cont by (Z.div_mod_to_equations; lia).
    rewrite !app_nil_r. cbn [app]. repeat f_equal; Z.div_mod_to_equations; lia. }
  rewrite (proj2 (Z.leb_gt _ 127)), (proj2 (Z.leb_gt _ 223)), (proj2 (Z.leb_gt _ 239)), (proj2 (Z.leb_le 240 _)),
    (proj2 (Z.leb_le _ 244)) by (Z.div_mod_to_equations; lia).
  rewrite !andb_false_r. cbn [andb]. rewrite (land_low 30 3 240 7 (cp / 262144)) by (done || lia || (Z.div_mod_to_equations; lia)).
  rewrite utf8_cont by (repeat case_if; bool_hyps; Z.div_mod_to_equations; lia).
  rewrite utf8_cont by (Z.div_mod_to_equations; lia). rewrite utf8_cont by (Z.div_mod_to_equations; lia).
  rewrite !app_nil_r. cbn [app]. repeat f_equal; Z.div_mod_to_equations; lia.
Qed.

Lemma utf8_run_char ch : wf_str ch -> is_char ch -> utf8_run utf8_idle (utf8_encode ch) = (ch, utf8_idle).
Proof.
  intros Hw Hch. destruct Hch as [c E1 E2|h l E1 E2].
  - apply Forall_inv in Hw. rewrite encode_unit by done. destruct (c <=? 127) eqn:E; bool_hyps.
    + cbn [utf8_run]. change (utf8_byte utf8_idle c) with (utf8_lead c). unfold utf8_lead. by rewrite (proj2 (Z.leb_le c 127)).
    + apply not_true_iff_false in E1, E2. rewrite is_high_range in E1. rewrite is_low_range in E2.
      rewrite utf8_run_lead by lia. unfold cp_units. by rewrite (proj2 (Z.leb_le c 65535)) by lia.
  - pose proof (pair_cp_range h l E1 E2). rewrite encode_pair, utf8_run_lead, cp_units_pair by (done || lia). done.
Qed.

Lemma utf8_run_encode s b :
  well_paired s = true -> wf_str s ->
  utf8_run utf8_idle (utf8_encode s ++ b) = let '(t, st) := utf8_run utf8_idle b in (s ++ t, st).
Proof.
  intros Hp. revert s Hp b. refine (chars_ind _ _ _); [intros b _; cbn [utf8_encode app]; by destruct (utf8_run utf8_idle b) |].
  intros ch s Hch _ IH b [Hw1 Hw2]%Forall_app.
  rewrite encode_char, <- app_assoc, utf8_run_app, utf8_run_char, IH by done.
  destruct (utf8_run utf8_idle b). by rewrite app_assoc.
Qed.

(** Decoding what was encoded gives the text back. *)
Lemma decode_encode s : well_paired s = true -> wf_str s -> utf8_decode (utf8_encode s) = s.
Proof.
  intros Hp Hw. unfold utf8_decode. rewrite <- (app_nil_r (utf8_encode s)), utf8_run_encode by done.
  cbn. by rewrite !app_nil_r.
Qed.

(** ** What the decoder produces *)

(** Every character the state can lead to is a scalar value. *)
Definition utf8_ok (st : utf8_state) : Prop :=
  match u8_needed st with
  | O => True
  | S n =>
      let low := u8_cp st * 64 ^ Z.of_nat (S n) + (u8_lower st - 128) * 64 ^ Z.of_nat n in
      let high := u8_cp st * 64 ^ Z.of_nat (S n) + (u8_upper st - 127) * 64 ^ Z.of_nat n in
      (n <= 2)%nat /\ 0 <= u8_cp st /\ 128 <= u8_lower st /\ u8_upper st <= 191 /\ high <= 1114112
      /\ (high <= 55296 \/ 57344 <= low)
  end.

Lemma cp_units_char cp : 0 <= cp <= 1114111 -> ~ (55296 <= cp <= 57343) -> is_char (cp_units cp) /\ wf_str (cp_units cp).
Proof.
  intros Hcp Hsur. unfold cp_units. destruct (cp <=? 65535) eqn:E; bool_hyps.
  - split; [| repeat constructor; lia].
    constructor; apply not_true_iff_false; [rewrite is_high_range | rewrite is_low_range]; lia.
  - change 1023 with (Z.ones 10). rewrite Z.land_ones, Z.shiftr_div_pow2 by lia. change (2 ^ 10) with 1024.
    split; [constructor; [apply is_high_range | apply is_low_range] | repeat constructor]; Z.div_mod_to_equations; lia.
Qed.

(** Whole characters. *)
Definition sound_text (s : jsstr) : Prop := well_paired s = true /\ wf_str s.

Lemma sound_nil : sound_text [].
Proof. by split; [| constructor]. Qed.
Lemma sound_app a b : sound_text a -> sound_text b -> sound_text (a ++ b).
Proof. intros [H1 H2] [H3 H4]. split; [by rewrite well_paired_after | by apply Forall_app]. Qed.
Lemma sound_char ch : is_char ch -> wf_str ch -> sound_text ch.
Proof. intros Hc Hw. split; [| done]. rewrite <- (app_nil_r ch), well_paired_char by done. done. Qed.
Lemma sound_unit c : 0 <= c < 55296 \/ 57344 <= c < 65536 -> sound_text [c].
Proof.
  intros H. apply sound_char; [| repeat constructor; lia].
  constructor; apply not_true_iff_false; [rewrite is_high_range | rewrite is_low_range]; lia.
Qed.

Lemma utf8_lead_sound b u st : 0 <= b <= 255 -> utf8_lead b = (u, st) -> sound_text u /\ utf8_ok st.
Proof.
  intros Hb. unfold utf8_lead. destruct (b <=? 127) eqn:E1; bool_hyps.
  { intros [= <- <-]. split; [apply sound_unit; lia | done]. }
  destruct ((194 <=? b) && (b <=? 223)) eqn:E2; bool_hyps.
  { intros [= <- <-]. split; [apply sound_nil |]. unfold utf8_ok. cbn -[Z.pow Z.of_nat Z.land].
    change 31 with (Z.ones 5). rewrite Z.land_ones by lia. change (2 ^ 5) with 32. change (64 ^ Z.of_nat 1) with 64.
    change (64 ^ Z.of_nat 0) with 1. Z.div_mod_to_equations; lia. }
  destruct ((224 <=? b) && (b <=? 239)) eqn:E3; bool_hyps.
  { intros [= <- <-]. split; [apply sound_nil |]. unfold utf8_ok. cbn -[Z.pow Z.of_nat Z.land Z.eqb].
    change 15 with (Z.ones 4). rewrite Z.land_ones by lia. change (2 ^ 4) with 16. change (64 ^ Z.of_nat 2) with 4096.
    change (64 ^ Z.of_nat 1) with 64. repeat case_if; bool_hyps; Z.div_mod_to_equations; lia. }
  destruct ((240 <=? b) && (b <=? 244)) eqn:E4; bool_hyps.
  { intros [= <- <-]. split; [apply sound_nil |]. unfold utf8_ok. cbn -[Z.pow Z.of_nat Z.land Z.eqb].
    change 7 with (Z.ones 3). rewrite Z.land_ones by lia. change (2 ^ 3) with 8. change (64 ^ Z.of_nat 3) with 262144.
    change (64 ^ Z.of_nat 2) with 4096. repeat case_if; bool_hyps; Z.div_mod_to_equations; lia. }
  intros [= <- <-]. split; [apply sound_unit; unfold replacement_char; lia | done].
Qed.

Lemma utf8_byte_sound st b u st' :
  utf8_ok st -> 0 <= b <= 255 -> utf8_byte st b = (u, st') -> sound_text u /\ utf8_ok st'.
Proof.
  intros Hok Hb. destruct st as [[|n] cp lo hi]; [by apply utf8_lead_sound |].
  unfold utf8_byte. cbn [u8_needed u8_lower u8_upper u8_cp].
  destruct ((lo <=? b) && (b <=? hi)) eqn:E.
  - destruct Hok as (Hn & H0 & Hlo & Hhi & Hmax & Hsur). cbn [u8_cp u8_lower u8_upper] in *. bool_hyps.
    assert (Hcp : Z.lor (Z.shiftl cp 6) (Z.land b 63) = cp * 64 + (b - 128)).
    { replace b with (128 + (b - 128) mod 64) at 1 by (rewrite Z.mod_small; lia). rewrite next_cp, Z.mod_small; lia. }
    rewrite Hcp. destruct n as [|n].
    + change (64 ^ Z.of_nat 1) with 64 in *. change (64 ^ Z.of_nat 0) with 1 in *.
      intros [= <- <-]. split; [| done]. destruct (cp_units_char (cp * 64 + (b - 128))); [lia | lia | by apply sound_char].
    + intros [= <- <-]. split; [apply sound_nil |]. unfold utf8_ok. cbn [u8_needed u8_cp u8_lower u8_upper].
      destruct n as [|[|n]]; [| | lia];
        change (64 ^ Z.of_nat 3) with 262144 in *; change (64 ^ Z.of_nat 2) with 4096 in *;
        change (64 ^ Z.of_nat 1) with 64 in *; change (64 ^ Z.of_nat 0) with 1 in *; lia.
  - destruct (utf8_lead b) as [v st1] eqn:El. intros [= <- <-].
    destruct (utf8_lead_sound _ _ _ Hb El) as [H1 H2]. split; [| done].
    apply (sound_app [_]); [apply sound_unit; unfold replacement_char; lia | done].
Qed.

Definition is_bytes (l : list Z) : Prop := Forall (fun b => 0 <= b <= 255) l.

Lemma utf8_run_sound bytes : forall st u st',
  utf8_ok st -> is_bytes bytes -> utf8_run st bytes = (u, st') -> sound_text u /\ utf8_ok st'.
Proof.
  induction bytes as [|b bytes IH]; intros st u st' Hok Hb; cbn [utf8_run].
  - intros [= <- <-]. by split; [apply sound_nil |].
  - apply Forall_cons in Hb as [Hb Hbs]. destruct (utf8_byte st b) as [v st1] eqn:E1.
    destruct (utf8_run st1 bytes) as [w st2] eqn:E2. intros [= <- <-].
    destruct (utf8_byte_sound _ _ _ _ Hok Hb E1) as [H1 H2]. destruct (IH _ _ _ H2 Hbs E2) as [H3 H4].
    by split; [apply sound_app |].
Qed.

Lemma utf8_end_sound st : sound_text (utf8_end st).
Proof. unfold utf8_end. case_match; [apply sound_nil | apply sound_unit; unfold replacement_char; lia]. Qed.

Lemma drop_mark_sound seen u : sound_text u -> sound_text (drop_mark seen u).1.
Proof.
  intros Hu. destruct u as [|c u]; [done |]. cbn. destruct (negb seen && (c =? 65279)) eqn:E; [| done].
  apply andb_prop in E as [_ E%Z.eqb_eq]. subst c. destruct Hu as [H1 H2%Forall_cons].
  split; [| apply H2]. cbn in H1. done.
Qed.

(** ** Streams *)

Lemma drop_mark_app seen a b :
  (drop_mark seen (a ++ b)).1 = (drop_mark seen a).1 ++ (drop_mark (drop_mark seen a).2 b).1.
Proof.
  destruct a as [|c a]; [done |]. cbn. destruct b as [|d b]; cbn.
  - by rewrite !app_nil_r.
  - by destruct (negb seen && (c =? 65279)).
Qed.

(** The texts of the chunks of a stream, to its end. *)
Fixpoint stream_texts (td : TextDecoder) (chunks : list (list Z)) : jsstr :=
  match chunks with
  | [] => (decode_end td).1
  | c :: chunks' => let '(text, td') := decode_stream td c in text ++ stream_texts td' chunks'
  end.

Lemma stream_texts_run td chunks :
  stream_texts td chunks =
  let '(u, st) := utf8_run (td_state td) (concat chunks) in (drop_mark (td_bomSeen td) (u ++ utf8_end st)).1.
Proof.
  revert td. induction chunks as [|c chunks IH]; intros [st seen]; [done |].
  cbn [stream_texts concat]. unfold decode_stream. cbn [td_state td_bomSeen]. rewrite utf8_run_app.
  destruct (utf8_run st c) as [u st1]. destruct (drop_mark seen u) as [t seen'] eqn:E.
  rewrite IH. cbn [td_state td_bomSeen]. destruct (utf8_run st1 (concat chunks)) as [u' st2].
  rewrite <- app_assoc, (drop_mark_app seen u), E. done.
Qed.

(** However a stream is cut into chunks, its text is the same. *)
Lemma stream_chunks_irrelevant chunks : stream_texts new_TextDecoder chunks = decoded_text (concat chunks).
Proof.
  rewrite stream_texts_run. unfold decoded_text, utf8_decode. cbn [td_state new_TextDecoder].
  by destruct (utf8_run utf8_idle (concat chunks)).
Qed.

(** ** Cutting encoded text *)

(** [(b & 0xc0) === 0x80]. *)
Definition is_continuation (b : Z) : bool := Z.land b 192 =? 128.

Fixpoint continuation_run (bytes : list Z) : nat :=
  match bytes with b :: bytes' => if is_continuation b then S (continuation_run bytes') else O | [] => O end.

(** [while (start < buffer.length && (buffer[start] & 0xc0) === 0x80) start++]. *)
Definition next_boundary (buffer : list Z) (start : nat) : nat := (start + continuation_run (drop start buffer))%nat.

Lemma is_continuation_range b : 0 <= b <= 255 -> is_continuation b = (128 <=? b) && (b <=? 191).
Proof.
  intros Hb.
  assert (H : forallb (fun n => Bool.eqb (is_continuation (Z.of_nat n)) ((128 <=? Z.of_nat n) && (Z.of_nat n <=? 191))) (seq 0 256) = true)
    by (vm_compute; reflexivity).
  rewrite forallb_forall in H. specialize (H (Z.to_nat b)). rewrite Z2Nat.id in H by lia.
  apply eqb_prop, H, in_seq. lia.
Qed.

Lemma lead_bytes_parts cp :
  128 <= cp <= 1114111 ->
  exists b0 cs, lead_bytes cp = b0 :: cs /\ is_continuation b0 = false /\ Forall (fun b => is_continuation b = true) cs.
Proof.
  intros Hcp.
  assert (Hc : forall x, is_continuation (128 + x mod 64) = true).
  { intros x. rewrite is_continuation_range by (pose proof (Z.mod_pos_bound x 64); lia).
    pose proof (Z.mod_pos_bound x 64). rewrite andb_true_iff, !Z.leb_le. lia. }
  assert (Hl : forall b, 192 <= b <= 255 -> is_continuation b = false).
  { intros b Hb. rewrite is_continuation_range, andb_false_iff, !Z.leb_gt by lia. lia. }
  unfold lead_bytes. repeat case_if; bool_hyps; do 2 eexists; (split; [done |]); split; auto;
    apply Hl; Z.div_mod_to_equations; lia.
Qed.

Lemma char_bytes ch :
  is_char ch -> wf_str ch ->
  exists b0 cs, utf8_encode ch = b0 :: cs /\ is_continuation b0 = false /\ Forall (fun b => is_continuation b = true) cs.
Proof.
  intros Hch Hw. destruct Hch as [c E1 E2|h l E1 E2].
  - apply Forall_inv in Hw. rewrite encode_unit by done. destruct (c <=? 127) eqn:E; bool_hyps.
    + exists c, []. split_and!; [done | | done]. rewrite is_continuation_range, andb_false_iff, Z.leb_gt by lia. lia.
    + apply lead_bytes_parts. lia.
  - rewrite encode_pair by done. pose proof (pair_cp_range h l E1 E2). apply lead_bytes_parts. lia.
Qed.

Lemma continuation_run_app cs rest :
  Forall (fun b => is_continuation b = true) cs ->
  continuation_run (cs ++ rest) = (length cs + continuation_run rest)%nat.
Proof. induction 1 as [|b cs Hb _ IH]; cbn; [done |]. by rewrite Hb, IH. Qed.

Lemma sound_start s : sound_text s -> continuation_run (utf8_encode s) = O.
Proof.
  intros [Hp Hw]. revert s Hp Hw. refine (chars_ind _ _ _); [done |]. intros ch s Hch _ _ [H1 H2]%Forall_app.
  destruct (char_bytes ch Hch H1) as (b0 & cs & E & Hb & _). rewrite encode_char, E by done. cbn. by rewrite Hb.
Qed.

(** The boundary at or after a byte splits the text into whole characters, the least
    that reach the byte. *)
Lemma cut_boundary s : well_paired s = true -> wf_str s -> forall p, (p <= length (utf8_encode s))%nat ->
  exists d t, s = d ++ t /\ sound_text d /\ sound_text t /\ next_boundary (utf8_encode s) p = length (utf8_encode d)
    /\ (p <= length (utf8_encode d))%nat
    /\ (p = O /\ d = [] \/ exists d' ch, d = d' ++ ch /\ is_char ch /\ sound_text d' /\ sound_text ch
                             /\ (length (utf8_encode d') < p)%nat).
Proof.
  revert s. refine (chars_ind _ _ _).
  { intros _ p Hp. exists [], []. cbn in *. assert (p = O) as -> by lia. split_and!; auto using sound_nil. }
  intros ch s Hch Hs IH [Hw1 Hw2]%Forall_app p.
  pose proof (sound_char ch Hch Hw1) as Sch. assert (Ss : sound_text s) by by split.
  rewrite encode_char by done. destruct (char_bytes ch Hch Hw1) as (b0 & cs & E & Hb & Hcs).
  pose proof (f_equal length E) as El. cbn in El. intros Hp. rewrite length_app in Hp.
  destruct (decide (p = O)) as [-> | Hp0].
  { exists [], (ch ++ s). split_and!; auto using sound_nil, sound_app. rewrite E. unfold next_boundary. cbn. by rewrite Hb. }
  destruct (decide (p < length (utf8_encode ch))%nat) as [Hlt|Hge].
  - exists ch, s. split_and!; auto; [| lia |].
    + unfold next_boundary. rewrite drop_app_le by lia. rewrite E. destruct p as [|p]; [done |]. cbn [drop].
      rewrite continuation_run_app, sound_start, length_drop by (done || by apply Forall_drop). cbn. lia.
    + right. exists [], ch. split_and!; auto using sound_nil. cbn. lia.
  - destruct (IH Hw2 (p - length (utf8_encode ch))%nat ltac:(lia)) as (d & t & -> & Sd & St & Hn & Hle & Hd).
    exists (ch ++ d), t. rewrite (encode_char ch d), length_app by done. split_and!; auto using sound_app; [by rewrite app_assoc | | lia |].
    + unfold next_boundary in *. rewrite drop_app_ge by lia. lia.
    + right. destruct Hd as [[Hp1 ->] | (d' & c & -> & Hc & Sd' & Sc & Hlt)].
      * exists [], ch. rewrite app_nil_r. split_and!; auto using sound_nil. cbn. lia.
      * exists (ch ++ d'), c. rewrite app_assoc, (encode_char ch d'), length_app by done. split_and!; auto using sound_app. lia.
Qed.
