(* ===== verification/ToolTruncate.v ===== *)
(** Truncation of tool output in the application,
    [packages/coding-agent/src/core/tools/truncate.ts]: the same limits as
    [Truncate], over the bytes of a [Buffer].  On text without unpaired surrogates the
    cut by bytes is the one of [Truncate], and so is the tail of a text. *)
From S2P Require Import Prelude JsString StringSearch Truncate Utf8.

Definition splitLinesForCounting (text : jsstr) : list jsstr :=
  if is_empty text then []
  else let lines := split_on 10 text in if ends_with nl text then removelast lines else lines.

(** [truncateStringToBytesFromEnd]. *)
Definition bytes_from_end (str : jsstr) (maxBytes : Z) : jsstr :=
  let buf := utf8_encode str in
  if zlen buf <=? maxBytes then str
  else utf8_decode (drop (next_boundary buf (Z.to_nat (zlen buf - maxBytes))) buf).

(** The loop of [truncateTail] over the reversed lines. *)
Fixpoint tool_tail_loop (maxLines maxBytes : Z) (rlines : list jsstr) (arr : list jsstr) (count : Z)
  : list jsstr * Z * truncation_cause * bool :=
  match rlines with
  | [] => (arr, count, ByLines, false)
  | line :: rest =>
      if zlen arr <? maxLines then
        let lineBytes := buffer_byteLength line + (if 0 <? zlen arr then 1 else 0) in
        if count + lineBytes >? maxBytes then
          if zlen arr =? 0 then
            let truncatedLine := bytes_from_end line maxBytes in
            ([truncatedLine], buffer_byteLength truncatedLine, ByBytes, true)
          else (arr, count, ByBytes, false)
        else tool_tail_loop maxLines maxBytes rest (line :: arr) (count + lineBytes)
      else (arr, count, ByLines, false)
  end.

Definition tool_truncateTail (text : jsstr) (options : TruncationOptions) : TruncationResult :=
  let maxLines := default DEFAULT_MAX_LINES (opt_maxLines options) in
  let maxBytes := default DEFAULT_MAX_BYTES (opt_maxBytes options) in
  let total_bytes := buffer_byteLength text in
  let lines := splitLinesForCounting text in
  let total_lines := zlen lines in
  if (total_lines <=? maxLines) && (total_bytes <=? maxBytes) then
    mkTruncation text false None total_lines total_bytes total_lines total_bytes false false maxLines maxBytes
  else
    let '(arr, count, by0, partial) := tool_tail_loop maxLines maxBytes (reverse lines) [] 0 in
    let by_ := if (zlen arr >=? maxLines) && (count <=? maxBytes) then ByLines else by0 in
    let outputContent := join nl arr in
    mkTruncation outputContent true (Some by_) total_lines total_bytes
      (zlen arr) (buffer_byteLength outputContent) partial false maxLines maxBytes.

(** The loop of [truncateHead] is that of [Truncate] with a [Buffer].  There is no first
    line to measure only in an empty text that a negative limit refuses, where
    [Buffer.byteLength(undefined)] throws: [None]. *)
Definition tool_truncateHead (text : jsstr) (options : TruncationOptions) : option TruncationResult :=
  let maxLines := default DEFAULT_MAX_LINES (opt_maxLines options) in
  let maxBytes := default DEFAULT_MAX_BYTES (opt_maxBytes options) in
  let total_bytes := buffer_byteLength text in
  let lines := splitLinesForCounting text in
  let total_lines := zlen lines in
  if (total_lines <=? maxLines) && (total_bytes <=? maxBytes) then
    Some (mkTruncation text false None total_lines total_bytes total_lines total_bytes false false maxLines maxBytes)
  else
    match lines with
    | [] => None
    | first :: _ =>
        if buffer_byteLength first >? maxBytes then
          Some (mkTruncation [] true (Some ByBytes) total_lines total_bytes 0 0 false true maxLines maxBytes)
        else
          let '(arr, count, by0) := head_loop true maxLines maxBytes lines 0 [] 0 in
          let by_ := if (zlen arr >=? maxLines) && (count <=? maxBytes) then ByLines else by0 in
          let outputContent := join nl arr in
          Some (mkTruncation outputContent true (Some by_) total_lines total_bytes
                  (zlen arr) (buffer_byteLength outputContent) false false maxLines maxBytes)
    end.

(** ** The cut by bytes *)

(** [t] is the longest end of [s] made of whole characters within [maxBytes]. *)
Definition longest_end (maxBytes : Z) (s t : jsstr) : Prop :=
  exists d, s = d ++ t /\ sound_text d /\ sound_text t /\ buffer_byteLength t <= maxBytes
    /\ (d = [] \/ exists d' ch, d = d' ++ ch /\ is_char ch /\ sound_text d' /\ sound_text ch
                    /\ maxBytes < buffer_byteLength ch + buffer_byteLength t).

Lemma well_paired_before y ch : is_char ch -> well_paired (y ++ ch) = true -> well_paired y = true.
Proof.
  intros Hch. induction y as [y IH] using (induction_ltof1 _ (@length Z)); unfold ltof in IH.
  destruct y as [|c y]; [done |]. cbn. destruct (is_high c) eqn:Eh.
  - destruct y as [|c' y]; cbn.
    + destruct Hch as [c1 A B|h l A B]; cbn; intros [H1 H2]%andb_prop; [congruence |].
      by rewrite (high_not_low _ A) in H1.
    + intros [H1 H2]%andb_prop. rewrite H1. apply IH; [cbn; lia | done].
  - intros [H1 H2]%andb_prop. rewrite H1. apply IH; [cbn; lia | done].
Qed.

(** A proper end of sound text takes up a whole character at least. *)
Lemma sound_suffix_char e x d' ch :
  sound_text e -> x <> [] -> is_char ch -> e ++ x = d' ++ ch -> sound_text (e ++ x) -> exists x', x = x' ++ ch /\ sound_text x'.
Proof.
  intros [He He'] Hx Hch Heq [Hs Hs']. rewrite well_paired_after in Hs by done. apply Forall_app in Hs' as [_ Hs'].
  pose proof (f_equal length Heq) as Hl. rewrite !length_app in Hl.
  destruct (decide (length ch <= length x)%nat) as [Hle|Hgt].
  - assert (Hx' : x = take (length x - length ch) x ++ ch).
    { rewrite <- (take_drop (length x - length ch) x) at 1. f_equal.
      transitivity (drop (length e + (length x - length ch)) (e ++ x)); [by rewrite <- drop_drop, drop_app_length |].
      rewrite Heq. apply drop_app_length'. lia. }
    exists (take (length x - length ch) x). split; [done |]. split.
    + rewrite Hx' in Hs. by apply well_paired_before in Hs.
    + rewrite Hx' in Hs'. by apply Forall_app in Hs' as [].
  - destruct Hch as [c E1 E2|h l E1 E2]; [by destruct x; cbn in Hgt; [| lia] |].
    destruct x as [|l' [|]]; [done | | cbn in Hgt; lia].
    assert (l' = l) as ->.
    { apply (f_equal last) in Heq. change ([h; l]) with ([h] ++ [l]) in Heq. rewrite app_assoc, !last_snoc in Heq. congruence. }
    cbn in Hs. rewrite E2 in Hs. by destruct (is_high l).
Qed.

Lemma longest_end_unique maxBytes s t u : longest_end maxBytes s t -> longest_end maxBytes s u -> t = u.
Proof.
  assert (Hwlog : forall t u, (length t <= length u)%nat -> longest_end maxBytes s t -> longest_end maxBytes s u -> t = u).
  { clear t u. intros t u Hl (d & -> & Sd & St & _ & Hd) (e & Heq & Se & Su & Hu & _).
    pose proof (f_equal length Heq) as Hle. rewrite !length_app in Hle.
    destruct (app_eq_inv _ _ _ _ Heq) as [(x & -> & ->)|(x & -> & ->)]; [| by destruct x; [| cbn in *; rewrite length_app in *; lia]].
    destruct (decide (x = [])) as [->|Hx]; [done |]. exfalso.
    destruct Hd as [[_ ->]%app_nil | (d' & ch & Hd & Hch & _ & Sch & Hlt)]; [done |].
    destruct (sound_suffix_char _ _ _ _ Se Hx Hch Hd Sd) as (x' & -> & Sx').
    rewrite bytes_app in Hu by (apply (proj1 (sound_app _ _ Sx' Sch))).
    rewrite (bytes_app x') in Hu by apply Sx'. pose proof (buffer_nonneg x'). lia. }
  destruct (decide (length t <= length u)%nat); [by apply Hwlog |]. intros. symmetry. apply Hwlog; [lia | done..].
Qed.

Lemma bytes_from_end_longest s maxBytes : sound_text s -> 0 <= maxBytes -> longest_end maxBytes s (bytes_from_end s maxBytes).
Proof.
  intros [Hp Hw] Hm. unfold bytes_from_end. fold (buffer_byteLength s).
  destruct (buffer_byteLength s <=? maxBytes) eqn:E; bool_hyps.
  { exists []. split_and!; auto using sound_nil. by split. }
  set (p := Z.to_nat (buffer_byteLength s - maxBytes)).
  assert (Hpl : (p <= length (utf8_encode s))%nat) by (unfold p, buffer_byteLength, zlen in *; lia).
  destruct (cut_boundary s Hp Hw p Hpl) as (d & t & -> & Sd & St & Hn & Hle & Hd).
  rewrite Hn, encode_app, drop_app_length, decode_encode by apply St || apply Sd.
  assert (Hpz : Z.of_nat p = buffer_byteLength d + buffer_byteLength t - maxBytes)
    by (unfold p; rewrite Z2Nat.id, bytes_app by (apply Sd || lia); done).
  exists d. split_and!; [done.. | |].
  - unfold buffer_byteLength, zlen in *. lia.
  - right. destruct Hd as [[H0 _] | (d' & ch & -> & Hch & Sd' & Sch & Hlt)]; [unfold p in H0; lia |].
    exists d', ch. split_and!; [done.. |]. rewrite (bytes_app d') in Hpz by apply Sd'. unfold buffer_byteLength, zlen in *. lia.
Qed.

(** The loop of [Truncate] over the units before [t]. *)
Lemma from_end_loop_longest maxBytes d : well_paired d = true -> wf_str d -> forall t,
  sound_text t -> buffer_byteLength t <= maxBytes ->
  exists n, from_end_loop maxBytes (reverse d) (buffer_byteLength t) false = (n, false)
    /\ longest_end maxBytes (d ++ t) (drop n (d ++ t)).
Proof.
  intros Hp Hw. remember (length d) as k eqn:Hk. revert d Hp Hw Hk.
  induction k as [k IH] using lt_wf_ind. intros d Hp Hw -> t St Hb.
  assert (Hstop : (d = [] \/ exists d' ch, d = d' ++ ch /\ is_char ch /\ sound_text d' /\ sound_text ch
                    /\ maxBytes < buffer_byteLength ch + buffer_byteLength t) ->
            longest_end maxBytes (d ++ t) (drop (length (reverse d)) (d ++ t))).
  { intros Hd. rewrite length_reverse, drop_app_length. exists d. split_and!; auto. by split. }
  assert (Hrec : forall d' ch, d = d' ++ ch -> is_char ch ->
            exists n, (if buffer_byteLength t + buffer_byteLength ch >? maxBytes then (length (reverse d), false)
                       else from_end_loop maxBytes (reverse d') (buffer_byteLength t + buffer_byteLength ch) false) = (n, false)
              /\ longest_end maxBytes (d ++ t) (drop n (d ++ t))).
  { intros d' ch -> Hch. pose proof (well_paired_before _ _ Hch Hp) as Hp'. apply Forall_app in Hw as [Hw1 Hw2].
    pose proof (sound_char ch Hch Hw2) as Sch. destruct (_ >? _) eqn:E; bool_hyps.
    - eexists. split; [done |]. apply Hstop. right. exists d', ch. split_and!; auto; [by split | lia].
    - assert (Hl : (length d' < length (d' ++ ch))%nat).
      { rewrite length_app. destruct Hch; cbn; lia. }
      destruct (IH _ Hl d' Hp' Hw1 eq_refl (ch ++ t)) as (n & Hn & Hln);
        [by apply sound_app | rewrite bytes_app by apply Sch; lia |].
      rewrite bytes_app, Z.add_comm in Hn by apply Sch. exists n. by rewrite <- app_assoc. }
  destruct (last_char d Hp) as [->|(d' & ch & -> & Hch & _)]; [exists O; split; [done | by apply Hstop; left] |].
  destruct (Hrec d' ch eq_refl Hch) as (n & Hn & Hl). exists n. split; [| done]. rewrite <- Hn. rewrite !reverse_app.
  destruct Hch as [c E1 E2|h l E1 E2].
  - change (reverse [c] ++ reverse d') with (c :: reverse d'). cbn [from_end_loop]. rewrite E2, E1.
    rewrite buffer_single, buffer_nil, Z.add_0_r by congruence. done.
  - change (reverse [h; l] ++ reverse d') with (l :: h :: reverse d'). cbn [from_end_loop]. rewrite E2, E1.
    by rewrite buffer_pair, buffer_nil.
Qed.

(** The two ways of cutting a line agree. *)
Lemma bytes_from_end_agrees s maxBytes :
  sound_text s -> 0 <= maxBytes -> bytes_from_end s maxBytes = truncateStringToBytesFromEnd s maxBytes.
Proof.
  intros Hs Hm. apply (longest_end_unique maxBytes s); [by apply bytes_from_end_longest |].
  unfold truncateStringToBytesFromEnd. destruct (maxBytes <=? 0) eqn:E; bool_hyps.
  - destruct (last_char s (proj1 Hs)) as [->|(d & ch & -> & Hch & Hd)].
    { exists []. split_and!; auto using sound_nil. }
    destruct Hs as [Hp [Hw1 Hw2]%Forall_app]. pose proof (sound_char ch Hch Hw2).
    exists (d ++ ch). rewrite app_nil_r. split_and!; auto using sound_nil, sound_char; [apply sound_app; [by split | done] |].
    right. exists d, ch. split_and!; auto; [by split |]. rewrite buffer_nil.
    destruct (char_bytes ch Hch Hw2) as (b & cs & Eb & _). unfold buffer_byteLength. rewrite Eb, zlen_cons.
    pose proof (zlen_nonneg cs). lia.
  - destruct (from_end_loop_longest maxBytes s (proj1 Hs) (proj2 Hs) [] sound_nil) as (n & Hn & Hl); [rewrite buffer_nil; lia |].
    rewrite buffer_nil in Hn. rewrite Hn. by rewrite app_nil_r in Hl.
Qed.

(** ** Lines *)

Lemma ends_with_nl s : ends_with nl s = bool_decide (last s = Some 10).
Proof.
  destruct (last s) as [c|] eqn:E.
  - apply last_Some in E as [s' ->]. unfold ends_with. rewrite reverse_snoc.
    change (reverse nl) with [10]. cbn [starts_with].
    destruct (Z.eqb_spec 10 c) as [<-|Hc]; [by rewrite bool_decide_true | rewrite bool_decide_false by congruence; done].
  - apply last_None in E as ->. by rewrite bool_decide_false.
Qed.

Lemma last_app_cons {A} (l : list A) x k : last (l ++ x :: k) = last (x :: k).
Proof. rewrite last_app. by destruct k as [|y k] using rev_ind; [| rewrite app_comm_cons, last_snoc]. Qed.

(** A text is empty, an open line, or a line that ends and the text after it. *)
Lemma lines_ind (P : jsstr -> Prop) :
  P [] -> (forall l, l <> [] -> 10 ∉ l -> P l) -> (forall l rest, 10 ∉ l -> P rest -> P (l ++ 10 :: rest)) -> forall s, P s.
Proof.
  intros H0 H1 H2 s. induction s as [s IH] using (induction_ltof1 _ (@length Z)); unfold ltof in IH.
  destruct (decide (10 ∈ s)) as [Hin|Hno].
  - apply list_elem_of_split_l in Hin as (l & rest & -> & Hl). apply H2; [done |]. apply IH. rewrite length_app. cbn. lia.
  - destruct s; [done | by apply H1].
Qed.

Lemma counting_open l : l <> [] -> 10 ∉ l -> splitLinesForCounting l = [l].
Proof.
  intros Hl Hno. unfold splitLinesForCounting. rewrite (proj2 (is_empty_false l)), split_on_plain, ends_with_nl by done.
  rewrite bool_decide_false; [done |]. intros H. apply last_Some in H as [? ->]. apply Hno, elem_of_app. right. by left.
Qed.

Lemma counting_line l rest : 10 ∉ l -> splitLinesForCounting (l ++ 10 :: rest) = l :: splitLinesForCounting rest.
Proof.
  intros Hl. unfold splitLinesForCounting. rewrite split_on_line by done.
  replace (is_empty (l ++ 10 :: rest)) with false by (by destruct l). rewrite !ends_with_nl, last_app_cons.
  destruct rest as [|c rest]; [done |]. cbn [is_empty]. change (last (10 :: c :: rest)) with (last (c :: rest)).
  destruct (split_on_cons 10 (c :: rest)) as (x & xs & ->). by case_bool_decide.
Qed.

Lemma counting_app p t : p = [] \/ ends_with nl p = true -> splitLinesForCounting (p ++ t) = splitLinesForCounting p ++ splitLinesForCounting t.
Proof.
  revert p. apply (lines_ind (fun p => p = [] \/ ends_with nl p = true -> _)); [done | |].
  - intros l Hl Hno [-> | H]; [done |]. rewrite ends_with_nl in H. apply bool_decide_eq_true, last_Some in H as [? ->].
    destruct Hno. apply elem_of_app. right. by left.
  - intros l rest Hno IH H. rewrite <- app_assoc. cbn [app]. rewrite !counting_line, IH; [done | | done..].
    destruct rest as [|c rest]; [by left | right]. destruct H as [H|H]; [by destruct l |].
    rewrite ends_with_nl, last_app_cons in H. by rewrite ends_with_nl.
Qed.

Lemma counting_nil s : splitLinesForCounting s = [] -> s = [].
Proof.
  induction s as [|l Hl Hno|l rest Hno _] using lines_ind; [done | by rewrite counting_open | by rewrite counting_line].
Qed.

(** The lines make up the text, but for a final line feed. *)
Lemma counting_text s : s = join nl (splitLinesForCounting s) ++ (if ends_with nl s then nl else []).
Proof.
  induction s as [|l Hl Hno|l rest Hno IH] using lines_ind; [done | |].
  - rewrite counting_open, ends_with_nl by done. rewrite bool_decide_false; [by rewrite app_nil_r |].
    intros H. apply last_Some in H as [? ->]. apply Hno, elem_of_app. right. by left.
  - rewrite counting_line, !ends_with_nl, last_app_cons in * by done.
    destruct rest as [|c rest]; [done |]. change (last (10 :: c :: rest)) with (last (c :: rest)).
    rewrite IH at 1. destruct (splitLinesForCounting (c :: rest)) as [|x xs] eqn:E.
    + by apply counting_nil in E.
    + rewrite join_cons2, <- !app_assoc. done.
Qed.

Lemma well_paired_newline a b : well_paired (a ++ 10 :: b) = well_paired a && well_paired b.
Proof.
  induction a as [a IH] using (induction_ltof1 _ (@length Z)); unfold ltof in IH.
  destruct a as [|c a]; [done |]. cbn. destruct (is_high c).
  - destruct a as [|d a]; [done |]. cbn. rewrite IH by (cbn; lia). by rewrite andb_assoc.
  - rewrite IH by (cbn; lia). by rewrite andb_assoc.
Qed.

Lemma sound_newline a b : sound_text (a ++ 10 :: b) <-> sound_text a /\ sound_text b.
Proof.
  unfold sound_text, wf_str. rewrite well_paired_newline, andb_true_iff, Forall_app, Forall_cons. intuition lia.
Qed.

Lemma sound_lines s : sound_text s -> Forall sound_text (splitLinesForCounting s).
Proof.
  induction s as [|l Hl Hno|l rest Hno IH] using lines_ind; intros Hs; [constructor | |].
  - rewrite counting_open by done. by constructor.
  - rewrite counting_line by done. apply sound_newline in Hs as [H1 H2]. constructor; auto.
Qed.

Lemma tool_tail_loop_agrees maxLines maxBytes rlines arr count :
  0 <= maxBytes -> Forall sound_text rlines ->
  tool_tail_loop maxLines maxBytes rlines arr count = tail_loop true maxLines maxBytes rlines arr count.
Proof.
  intros Hm Hs. revert arr count. induction Hs as [|l rlines Hl _ IH]; intros arr count; [done |].
  cbn [tool_tail_loop tail_loop utf8ByteLength]. by rewrite IH, bytes_from_end_agrees by done.
Qed.

Lemma tail_lines_counting s : s <> [] -> tail_lines s = splitLinesForCounting s.
Proof.
  intros Hs. unfold tail_lines, splitLinesForCounting. rewrite (proj2 (is_empty_false s)), ends_with_nl by done.
  replace ((1 <? zlen (split_on 10 s)) && is_empty (default [] (last (split_on 10 s)))) with (bool_decide (last s = Some 10));
    [done |].
  induction s as [|l Hl Hno|l rest Hno IH] using lines_ind; [done | |].
  - rewrite split_on_plain by done. cbn. case_bool_decide as H; [| done].
    apply last_Some in H as [? ->]. destruct Hno. apply elem_of_app. right. by left.
  - rewrite split_on_line, last_app_cons by done. destruct rest as [|c rest]; [done |].
    change (last (10 :: c :: rest)) with (last (c :: rest)). rewrite IH by done.
    destruct (split_on_cons 10 (c :: rest)) as (x & xs & E). rewrite E.
    change (last (l :: x :: xs)) with (last (x :: xs)). rewrite (zlen_cons l), (zlen_cons x). pose proof (zlen_nonneg xs).
    rewrite (proj2 (Z.ltb_lt 1 (1 + (1 + zlen xs)))) by lia. cbn [andb].
    destruct xs as [|y xs].
    + pose proof (join_split 10 (c :: rest)) as Hj. rewrite E in Hj. cbn in Hj. by subst x.
    + rewrite zlen_cons. pose proof (zlen_nonneg xs). by rewrite (proj2 (Z.ltb_lt 1 _)) by lia.
Qed.

(** The application keeps a copy of the agent's tail truncation that cuts lines by the
    bytes of a buffer instead of by code units.  On every text that is not empty and
    has no unpaired surrogate the two give the same result. *)
Theorem tail_truncations_agree text opts :
  text <> [] -> sound_text text -> 0 <= default DEFAULT_MAX_BYTES (opt_maxBytes opts) ->
  tool_truncateTail text opts = truncateTail true text opts.
Proof.
  intros Hne Hs Hm. unfold tool_truncateTail, truncateTail. rewrite tail_lines_counting by done.
  rewrite tool_tail_loop_agrees by (done || apply Forall_reverse, sound_lines, Hs). done.
Qed.

(** A last line of euro signs, of which two and not half of a third are kept. *)
Definition euros : jsstr := js "prices" ++ nl ++ [8364; 8364; 8364].

Lemma euros_sound : sound_text euros.
Proof.
  split; [reflexivity |].
  assert (H : forallb (fun c => (0 <=? c) && (c <? 65536)) euros = true) by (vm_compute; reflexivity).
  rewrite forallb_forall in H. apply Forall_forall. intros c Hc%list_elem_of_In%H. bool_hyps. done.
Qed.

Lemma tail_truncations_agree_witness :
  content (tool_truncateTail euros (mkTruncationOptions None (Some 8))) = [8364; 8364]
  /\ tool_truncateTail euros (mkTruncationOptions None (Some 8)) = truncateTail true euros (mkTruncationOptions None (Some 8)).
Proof.
  split; [vm_compute; reflexivity |]. apply (tail_truncations_agree euros); [done | apply euros_sound | cbn; lia].
Defined.
