(* ===== verification/OutputAccumulator.v ===== *)
(** Streaming command output, [packages/coding-agent/src/core/tools/output-accumulator.ts]:
    the text kept for display is a bounded tail of what was decoded, and the raw bytes
    go to a temporary file once they exceed the limits.  The theorems compare the
    snapshot with the truncation of the whole text, bound the memory, and show that the
    file holds every byte. *)
From S2P Require Import Prelude JsString StringSearch Effects Truncate Utf8 ToolTruncate.

(** ** State *)

Record acc_limits := mkLimits { al_maxLines : Z; al_maxBytes : Z }.

Definition maxRollingBytes (l : acc_limits) : Z := Z.max (al_maxBytes l * 2) 1.

(** What is kept of the decoded text. *)
Record acc_text := mkAccText {
  at_tailText : jsstr;
  at_tailBytes : Z;
  at_tailStartsAtLineBoundary : bool;
  at_totalDecodedBytes : Z;
  at_completedLines : Z;
  at_totalLines : Z;
  at_currentLineBytes : Z;
  at_hasOpenLine : bool;
}.

(** The raw chunks that are not in the temporary file, and what was written to it. *)
Record acc_file := mkAccFile {
  af_rawChunks : list (list Z);
  af_totalRawBytes : Z;
  af_tempFilePath : option jsstr;
  af_open : bool;
  af_written : list (list Z);
}.

Record OutputAccumulator := mkAccumulator {
  oa_limits : acc_limits;
  oa_decoder : TextDecoder;
  oa_text : acc_text;
  oa_file : acc_file;
  oa_finished : bool;
}.

Definition new_OutputAccumulator (maxLines maxBytes : option Z) : OutputAccumulator :=
  mkAccumulator (mkLimits (default DEFAULT_MAX_LINES maxLines) (default DEFAULT_MAX_BYTES maxBytes)) new_TextDecoder
    (mkAccText [] 0 true 0 0 0 0 false) (mkAccFile [] 0 None false []) false.

(** ** The decoded text *)

Definition trimTail (maxRolling : Z) (t : acc_text) : acc_text :=
  let set tail bytes boundary :=
    mkAccText tail bytes boundary (at_totalDecodedBytes t) (at_completedLines t) (at_totalLines t) (at_currentLineBytes t)
      (at_hasOpenLine t) in
  let buffer := utf8_encode (at_tailText t) in
  if zlen buffer <=? maxRolling then set (at_tailText t) (zlen buffer) (at_tailStartsAtLineBoundary t)
  else
    let start := next_boundary buffer (Z.to_nat (zlen buffer - maxRolling)) in
    let boundary :=
      match start with O => at_tailStartsAtLineBoundary t | S before => bool_decide (buffer !! before = Some 10) end in
    let tail := utf8_decode (drop start buffer) in
    set tail (buffer_byteLength tail) boundary.

(** The loop over the newlines: their number and the place of the last one. *)
Fixpoint scan_newlines (text : jsstr) (i : nat) (newlines : Z) (lastNewline : option nat) : Z * option nat :=
  match text with
  | [] => (newlines, lastNewline)
  | c :: text' => if c =? 10 then scan_newlines text' (S i) (newlines + 1) (Some i) else scan_newlines text' (S i) newlines lastNewline
  end.

Definition appendDecodedText (maxRolling : Z) (text : jsstr) (t : acc_text) : acc_text :=
  if is_empty text then t
  else
    let bytes := buffer_byteLength text in
    let t1 := mkAccText (at_tailText t ++ text) (at_tailBytes t + bytes) (at_tailStartsAtLineBoundary t)
                (at_totalDecodedBytes t + bytes) (at_completedLines t) (at_totalLines t) (at_currentLineBytes t) (at_hasOpenLine t) in
    let t2 := if maxRolling * 2 <? at_tailBytes t1 then trimTail maxRolling t1 else t1 in
    let '(newlines, lastNewline) := scan_newlines text 0 0 None in
    let '(completedLines, currentLineBytes, hasOpenLine) :=
      match lastNewline with
      | None => (at_completedLines t2, at_currentLineBytes t2 + bytes, true)
      | Some i => let tail := drop (S i) text in (at_completedLines t2 + newlines, buffer_byteLength tail, negb (is_empty tail))
      end in
    mkAccText (at_tailText t2) (at_tailBytes t2) (at_tailStartsAtLineBoundary t2) (at_totalDecodedBytes t2)
      completedLines (completedLines + (if hasOpenLine : bool then 1 else 0)) currentLineBytes hasOpenLine.

Definition getSnapshotText (t : acc_text) : jsstr :=
  if at_tailStartsAtLineBoundary t then at_tailText t
  else match index_of nl (at_tailText t) with
       | None => at_tailText t
       | Some firstNewline => drop (S firstNewline) (at_tailText t)
       end.

(** ** The temporary file *)

Definition shouldUseTempFile (l : acc_limits) (t : acc_text) (f : acc_file) : bool :=
  (al_maxBytes l <? af_totalRawBytes f) || (al_maxBytes l <? at_totalDecodedBytes t) || (al_maxLines l <? at_totalLines t).

(** [path] is the name [defaultTempFilePath] makes up. *)
Definition ensureTempFile (path : jsstr) (f : acc_file) : acc_file :=
  match af_tempFilePath f with
  | Some _ => f
  | None => mkAccFile [] (af_totalRawBytes f) (Some path) true (af_rawChunks f)
  end.

Definition write_file (data : list Z) (f : acc_file) : acc_file :=
  if af_open f then mkAccFile (af_rawChunks f) (af_totalRawBytes f) (af_tempFilePath f) true (af_written f ++ [data]) else f.

(** ** Operations *)

Definition append (path : jsstr) (data : list Z) (st : OutputAccumulator) : result jsstr OutputAccumulator :=
  if oa_finished st then Throw (js "Cannot append to a finished output accumulator")
  else
    let f := oa_file st in
    let f1 := mkAccFile (af_rawChunks f) (af_totalRawBytes f + zlen data) (af_tempFilePath f) (af_open f) (af_written f) in
    let '(text, decoder) := decode_stream (oa_decoder st) data in
    let t := appendDecodedText (maxRollingBytes (oa_limits st)) text (oa_text st) in
    let f2 :=
      if af_open f1 || shouldUseTempFile (oa_limits st) t f1 then write_file data (ensureTempFile path f1)
      else if is_empty data then f1
      else mkAccFile (af_rawChunks f1 ++ [data]) (af_totalRawBytes f1) (af_tempFilePath f1) (af_open f1) (af_written f1) in
    Ok (mkAccumulator (oa_limits st) decoder t f2 false).

Definition finish (path : jsstr) (st : OutputAccumulator) : OutputAccumulator :=
  if oa_finished st then st
  else
    let '(text, decoder) := decode_end (oa_decoder st) in
    let t := appendDecodedText (maxRollingBytes (oa_limits st)) text (oa_text st) in
    let f := if shouldUseTempFile (oa_limits st) t (oa_file st) then ensureTempFile path (oa_file st) else oa_file st in
    mkAccumulator (oa_limits st) decoder t f true.

Record OutputSnapshot := mkSnapshot { os_content : jsstr; os_truncation : TruncationResult; os_fullOutputPath : option jsstr }.

Definition snapshot (path : jsstr) (persistIfTruncated : bool) (st : OutputAccumulator) : OutputSnapshot * OutputAccumulator :=
  let l := oa_limits st in
  let t := oa_text st in
  let tail := tool_truncateTail (getSnapshotText t) (mkTruncationOptions (Some (al_maxLines l)) (Some (al_maxBytes l))) in
  let is_truncated := (al_maxLines l <? at_totalLines t) || (al_maxBytes l <? at_totalDecodedBytes t) in
  let by_ :=
    if is_truncated
    then Some (default (if al_maxBytes l <? at_totalDecodedBytes t then ByBytes else ByLines) (truncatedBy tail))
    else None in
  let truncation :=
    mkTruncation (content tail) is_truncated by_ (at_totalLines t) (at_totalDecodedBytes t) (outputLines tail)
      (outputBytes tail) (lastLinePartial tail) (firstLineExceedsLimit tail) (al_maxLines l) (al_maxBytes l) in
  let f := if persistIfTruncated && is_truncated then ensureTempFile path (oa_file st) else oa_file st in
  (mkSnapshot (content truncation) truncation (af_tempFilePath f), mkAccumulator l (oa_decoder st) t f (oa_finished st)).

(** [closeTempFile], as far as the state goes. *)
Definition closeTempFile (st : OutputAccumulator) : OutputAccumulator :=
  let f := oa_file st in
  mkAccumulator (oa_limits st) (oa_decoder st) (oa_text st)
    (mkAccFile (af_rawChunks f) (af_totalRawBytes f) (af_tempFilePath f) false (af_written f)) (oa_finished st).

Definition getLastLineBytes (st : OutputAccumulator) : Z := at_currentLineBytes (oa_text st).

(** ** Use *)

(** What a caller does until it closes the file. *)
Inductive acc_op :=
  | OpAppend (path : jsstr) (data : list Z)
  | OpSnapshot (path : jsstr) (persistIfTruncated : bool)
  | OpFinish (path : jsstr).

Definition acc_step (st : OutputAccumulator) (o : acc_op) : result jsstr OutputAccumulator :=
  match o with
  | OpAppend path data => append path data st
  | OpSnapshot path persist => Ok (snapshot path persist st).2
  | OpFinish path => Ok (finish path st)
  end.

Fixpoint acc_run (st : OutputAccumulator) (ops : list acc_op) : result jsstr OutputAccumulator :=
  match ops with
  | [] => Ok st
  | o :: ops' => match acc_step st o with Ok st' => acc_run st' ops' | Throw e => Throw e end
  end.

Definition op_data (o : acc_op) : list Z := match o with OpAppend _ data => data | _ => [] end.
