(* ===== verification/OutputProps.v ===== *)
(** Properties of the output accumulator ([OutputAccumulator.v]). *)
From S2P Require Import Prelude JsString StringSearch Effects Truncate Utf8 ToolTruncate OutputAccumulator.

(** ** Places in a text *)

(** A line begins after this much text. *)
Definition line_start (p : jsstr) : Prop := p = [] \/ ends_with nl p = true.

Definition nl_count (s : jsstr) : Z := zlen (filter (fun c => c = 10) s).

Lemma nl_count_app a b : nl_count (a ++ b) = nl_count a + nl_count b.
Proof. unfold nl_count. by rewrite filter_app, zlen_app. Qed.

Lemma nl_count_none s : 10 ∉ s -> nl_count s = 0.
Proof.
  intros H. unfold nl_count. replace (filter (fun c => c = 10) s) with (@nil Z); [done |]. symmetry.
  induction s as [|c s IH]; [done |]. apply not_elem_of_cons in H as [H1 H2]. rewrite filter_cons_False by congruence. auto.
Qed.

Lemma nl_count_line l rest : 10 ∉ l -> nl_count (l ++ 10 :: rest) = 1 + nl_count rest.
Proof. intros H. rewrite nl_count_app, nl_count_none by done. unfold nl_count. by rewrite filter_cons_True, zlen_cons. Qed.

Lemma line_start_snoc p : line_start (p ++ [10]).
Proof. right. by rewrite ends_with_nl, last_snoc, bool_decide_true. Qed.

Lemma line_start_last p : line_start p <-> p = [] \/ exists p', p = p' ++ [10].
Proof.
  unfold line_start. rewrite ends_with_nl, bool_decide_eq_true, last_Some. done.
Qed.

Lemma ends_nl_app a b : b <> [] -> ends_with nl (a ++ b) = ends_with nl b.
Proof. intros Hb. rewrite !ends_with_nl. destruct b; [done |]. by rewrite last_app_cons. Qed.

Lemma counting_lines p : line_start p -> zlen (splitLinesForCounting p) = nl_count p.
Proof.
  induction p as [|l Hl Hno|l rest Hno IH] using lines_ind; intros Hp; [done | |].
  - apply line_start_last in Hp as [-> | [p' ->]]; [done |]. destruct Hno. apply elem_of_app. right. by left.
  - rewrite counting_line, nl_count_line, zlen_cons, IH; [done | | done..].
    destruct rest as [|c rest]; [by left | right]. destruct Hp as [Hp|Hp]; [by destruct l |].
    rewrite ends_with_nl, last_app_cons in Hp. by rewrite ends_with_nl.
Qed.

Lemma counting_total p r : line_start p -> 10 ∉ r ->
  zlen (splitLinesForCounting (p ++ r)) = nl_count (p ++ r) + (if negb (is_empty r) then 1 else 0).
Proof.
  intros Hp Hr. rewrite counting_app, zlen_app, counting_lines, nl_count_app, (nl_count_none r) by done.
  destruct r as [|c r]; [change (splitLinesForCounting []) with (@nil jsstr) | rewrite counting_open by done];
    unfold zlen; cbn [length is_empty negb]; lia.
Qed.

(** The text after the last line feed. *)
Lemma split_last_line s : exists p r, s = p ++ r /\ line_start p /\ 10 ∉ r.
Proof.
  induction s as [|l Hl Hno|l rest Hno (p & r & -> & Hp & Hr)] using lines_ind.
  - exists [], []. split_and!; [done | by left | apply not_elem_of_nil].
  - exists [], l. split_and!; [done | by left | done].
  - exists (l ++ 10 :: p), r. split_and!; [by rewrite <- app_assoc | | done].
    apply line_start_last in Hp as [-> | [p' ->]]; [apply line_start_snoc |].
    rewrite app_comm_cons, app_assoc. apply line_start_snoc.
Qed.

Lemma scan_plain s i n l : 10 ∉ s -> scan_newlines s i n l = (n, l).
Proof.
  revert i. induction s as [|c s IH]; intros i H; [done |]. apply not_elem_of_cons in H as [H1 H2]. cbn [scan_newlines].
  rewrite (proj2 (Z.eqb_neq c 10)) by congruence. by apply IH.
Qed.

Lemma scan_line p r : 10 ∉ r -> forall i n l,
  scan_newlines (p ++ 10 :: r) i n l = (n + nl_count (p ++ [10]), Some (i + length p)%nat).
Proof.
  intros Hr. induction p as [|c p IH]; intros i n l; cbn [app scan_newlines].
  - cbn. rewrite scan_plain by done. by rewrite Nat.add_0_r.
  - unfold nl_count in *. destruct (Z.eqb_spec c 10) as [->|Hc].
    + rewrite filter_cons_True, zlen_cons, IH by done. f_equal; [lia | f_equal; cbn; lia].
    + rewrite filter_cons_False, IH by done. do 2 f_equal. cbn. lia.
Qed.

(** ** The tail *)

Lemma char_last_byte ch : is_char ch -> wf_str ch -> last (utf8_encode ch) = Some 10 <-> last ch = Some 10.
Proof.
  intros Hch Hw.
  assert (Hlead : forall cp, 128 <= cp -> last (lead_bytes cp) <> Some 10).
  { intros cp _. unfold lead_bytes. pose proof (Z.mod_pos_bound cp 64). repeat case_if; cbn; intros [= ?]; lia. }
  destruct Hch as [c E1 E2|h l E1 E2].
  - apply Forall_inv in Hw. rewrite encode_unit by done. destruct (c <=? 127) eqn:E; [done |]. bool_hyps.
    split; [intros H; by apply Hlead in H; [| lia] |]. cbn. intros [= ->]. lia.
  - rewrite encode_pair by done. pose proof (pair_cp_range h l E1 E2). apply is_low_range in E2.
    split; [intros H'; by apply Hlead in H'; [| lia] |]. cbn. intros [= ->]. lia.
Qed.

(** A tail that is cut: [d] goes, [s'] stays. *)
Definition cut_tail (R : Z) (d s' : jsstr) : Prop :=
  sound_text d /\ sound_text s' /\ exists d' ch, d = d' ++ ch /\ is_char ch /\ sound_text d' /\ sound_text ch
    /\ R < buffer_byteLength ch + buffer_byteLength s'.

Lemma trimTail_cut R t :
  0 <= R -> sound_text (at_tailText t) -> R < buffer_byteLength (at_tailText t) ->
  let t' := trimTail R t in
  exists d, at_tailText t = d ++ at_tailText t' /\ cut_tail R d (at_tailText t')
    /\ at_tailBytes t' = buffer_byteLength (at_tailText t') /\ buffer_byteLength (at_tailText t') <= R
    /\ at_tailStartsAtLineBoundary t' = ends_with nl d.
Proof.
  intros HR [Hp Hw] Hgt. unfold trimTail. fold (buffer_byteLength (at_tailText t)).
  rewrite (proj2 (Z.leb_gt _ R)) by done. set (p := Z.to_nat (buffer_byteLength (at_tailText t) - R)).
  assert (Hpl : (p <= length (utf8_encode (at_tailText t)))%nat) by (unfold p, buffer_byteLength, zlen in *; lia).
  destruct (cut_boundary _ Hp Hw p Hpl) as (d & s' & Hs & Sd & Ss & Hn & Hle & Hd).
  assert (Hpz : Z.of_nat p = buffer_byteLength d + buffer_byteLength s' - R)
    by (unfold p; rewrite Z2Nat.id, Hs, bytes_app by (apply Sd || lia); done).
  destruct Hd as [[H0 _] | (d' & ch & -> & Hch & Sd' & Sch & Hlt)]; [unfold p in H0; lia |].
  cbv zeta. cbn [at_tailText at_tailBytes at_tailStartsAtLineBoundary]. rewrite Hn, Hs, !encode_app by (apply Sd || apply Sd').
  rewrite <- (encode_app d' ch), drop_app_length, decode_encode by (apply Ss || apply Sd').
  assert (Hend : last (utf8_encode (d' ++ ch)) = Some 10 <-> last (d' ++ ch) = Some 10).
  { rewrite encode_app, !last_app by apply Sd'. destruct (char_bytes ch Hch (proj2 Sch)) as (b0 & cs & E & _).
    pose proof (char_last_byte ch Hch (proj2 Sch)) as Hl. rewrite E in *.
    destruct (last (b0 :: cs)) eqn:E1; [| by apply last_None in E1].
    destruct (last ch) eqn:E2; [done |]. by apply last_None, (is_char_nonempty _ Hch) in E2. }
  exists (d' ++ ch). split_and!; [done | | done | | ].
  - split_and!; [done.. |]. exists d', ch. split_and!; [done.. |].
    rewrite (bytes_app d') in Hpz by apply Sd'. unfold buffer_byteLength, zlen in *. lia.
  - unfold buffer_byteLength, zlen in *. lia.
  - rewrite ends_with_nl. destruct (length (utf8_encode (d' ++ ch))) as [|k] eqn:Ek.
    { apply nil_length_inv in Ek. rewrite encode_app in Ek by apply Sd'. apply app_nil in Ek as [_ Ek].
      destruct (char_bytes ch Hch (proj2 Sch)) as (b0 & cs & E & _). congruence. }
    apply bool_decide_ext. rewrite <- Hend, last_lookup, lookup_app_l, Ek by lia. done.
Qed.

(** ** The invariant of the text *)

(** [W] is all the text so far. *)
Record text_inv (R : Z) (W : jsstr) (t : acc_text) : Prop := {
  ti_split : exists d, W = d ++ at_tailText t /\ sound_text d /\ sound_text (at_tailText t)
    /\ (d = [] /\ at_tailStartsAtLineBoundary t = true
        \/ cut_tail R d (at_tailText t) /\ at_tailStartsAtLineBoundary t = ends_with nl d);
  ti_bytes : at_tailBytes t = buffer_byteLength (at_tailText t);
  ti_bound : at_tailBytes t <= R * 2;
  ti_total : at_totalDecodedBytes t = buffer_byteLength W;
  ti_lines : exists p r, W = p ++ r /\ line_start p /\ (10 ∉ r) /\ at_completedLines t = nl_count W
    /\ at_currentLineBytes t = buffer_byteLength r /\ at_hasOpenLine t = negb (is_empty r)
    /\ at_totalLines t = nl_count W + (if negb (is_empty r) then 1 else 0);
}.

Lemma text_inv_sound R W t : text_inv R W t -> sound_text W.
Proof. intros [(d & -> & Hd & Ht & _) _ _ _ _]. by apply sound_app. Qed.

Lemma text_inv_new R : 0 <= R -> text_inv R [] (mkAccText [] 0 true 0 0 0 0 false).
Proof.
  intros HR. split; cbn; [| done | lia | done |].
  - exists []. split_and!; auto using sound_nil.
  - exists [], []. split_and!; [done | by left | apply not_elem_of_nil | done..].
Qed.

(** The tail after more text, before the lines are counted. *)
Lemma tail_grows R W t text bytes total :
  1 <= R -> text_inv R W t -> sound_text text -> bytes = buffer_byteLength text ->
  let t1 := mkAccText (at_tailText t ++ text) (at_tailBytes t + bytes) (at_tailStartsAtLineBoundary t) total
              (at_completedLines t) (at_totalLines t) (at_currentLineBytes t) (at_hasOpenLine t) in
  let t2 := if R * 2 <? at_tailBytes t1 then trimTail R t1 else t1 in
  (exists d, W ++ text = d ++ at_tailText t2 /\ sound_text d /\ sound_text (at_tailText t2)
     /\ (d = [] /\ at_tailStartsAtLineBoundary t2 = true
         \/ cut_tail R d (at_tailText t2) /\ at_tailStartsAtLineBoundary t2 = ends_with nl d))
  /\ at_tailBytes t2 = buffer_byteLength (at_tailText t2) /\ at_tailBytes t2 <= R * 2
  /\ at_totalDecodedBytes t2 = total /\ at_completedLines t2 = at_completedLines t
  /\ at_currentLineBytes t2 = at_currentLineBytes t.
Proof.
  intros HR [(d & -> & Sd & St & Hd) Hb Hbound _ _] Stext ->. cbn [at_tailBytes].
  set (t1 := mkAccText _ _ _ _ _ _ _ _). assert (St1 : sound_text (at_tailText t1)) by (by apply sound_app).
  assert (Hb1 : at_tailBytes t + buffer_byteLength text = buffer_byteLength (at_tailText t1))
    by (cbn; rewrite bytes_app by apply St; lia).
  rewrite Hb1. destruct (R * 2 <? _) eqn:E; bool_hyps.
  - destruct (trimTail_cut R t1 ltac:(lia) St1 ltac:(lia)) as (d2 & Hs & (Sd2 & Ss & d' & ch & -> & Hch & Sd' & Sch & Hlt) & Hb2 & Hle & Hbd).
    assert (Hkeep : at_totalDecodedBytes (trimTail R t1) = total /\ at_completedLines (trimTail R t1) = at_completedLines t
              /\ at_currentLineBytes (trimTail R t1) = at_currentLineBytes t) by (unfold trimTail; by destruct (_ <=? _)).
    destruct Hkeep as (K1 & K2 & K3). split_and!; auto; [| lia].
    exists (d ++ d' ++ ch). cbn [at_tailText] in Hs. split_and!.
    + rewrite <- app_assoc, <- !app_assoc. f_equal. cbn [at_tailText t1] in Hs. rewrite Hs. by rewrite <- !app_assoc.
    + by apply sound_app.
    + done.
    + right. split; [| rewrite ends_nl_app; [done | intros [_ Hn]%app_nil; by apply (is_char_nonempty ch)]].
      split_and!; [by apply sound_app | done |]. exists (d ++ d'), ch. split_and!; auto using sound_app. by rewrite app_assoc.
  - split_and!; [| exact Hb1 | cbn [t1 at_tailBytes]; lia | done | done | done]. exists d. cbn [at_tailText at_tailStartsAtLineBoundary t1].
    split_and!; [by rewrite app_assoc | done | done |].
    destruct Hd as [Hd|[(_ & _ & d' & ch & -> & Hch & Sd' & Sch & Hlt) Hbd]]; [by left | right].
    split; [| done]. split_and!; [done.. |]. exists d', ch. split_and!; [done.. |].
    rewrite bytes_app by apply St. pose proof (buffer_nonneg text). lia.
Qed.

Lemma sound_line_start p r : line_start p -> sound_text (p ++ r) -> sound_text p /\ sound_text r.
Proof.
  intros [->|[p' ->]]%line_start_last; [by split; [apply sound_nil |] |]. rewrite <- app_assoc. cbn [app].
  intros [H1 H2]%sound_newline. split; [apply sound_newline; split; [done | apply sound_nil] | done].
Qed.

Lemma appendDecodedText_inv R W t text :
  1 <= R -> text_inv R W t -> sound_text text -> text_inv R (W ++ text) (appendDecodedText R text t).
Proof.
  intros HR Hinv Stext. unfold appendDecodedText. destruct (is_empty text) eqn:Ee.
  { apply is_empty_true in Ee as ->. by rewrite app_nil_r. }
  apply is_empty_false in Ee. pose proof (text_inv_sound _ _ _ Hinv) as SW.
  destruct (tail_grows R W t text _ (at_totalDecodedBytes t + buffer_byteLength text) HR Hinv Stext eq_refl)
    as (H1 & H2 & H3 & H4 & H5 & H6).
  cbv zeta in *. set (t2 := if _ : bool then _ else _) in *. clearbody t2.
  destruct Hinv as [_ _ _ Htot (p & r & -> & Hp & Hr & Hc & Hcur & Hop & _)].
  destruct (split_last_line text) as (q & u & -> & Hq & Hu).
  apply line_start_last in Hq as [->|[q' ->]].
  - cbn [app] in *. rewrite scan_plain by done. split; cbn; [done.. | |].
    + rewrite H4, Htot, (bytes_app (p ++ r)) by apply SW. done.
    + destruct (sound_line_start p r Hp SW) as [_ Sr]. exists p, (r ++ u).
      rewrite app_assoc, (nl_count_app (p ++ r)), (nl_count_none u), H5, H6 by done.
      replace (is_empty (r ++ u)) with false by (by destruct r, u). split_and!; [done.. | | lia | | done | cbn; lia].
      * intros [?|?]%elem_of_app; done.
      * rewrite Hcur. symmetry. apply bytes_app, Sr.
  - assert (Happ : (q' ++ [10]) ++ u = q' ++ 10 :: u) by (by rewrite <- app_assoc).
    rewrite Happ in *. rewrite scan_line by done. rewrite <- Happ, Nat.add_0_l, Z.add_0_l.
    replace (drop (S (length q')) ((q' ++ [10]) ++ u)) with u
      by (rewrite drop_app_length'; [done | rewrite length_app; cbn; lia]).
    assert (Hn : nl_count ((p ++ r) ++ (q' ++ [10]) ++ u) = nl_count (p ++ r) + nl_count (q' ++ [10]))
      by (rewrite !nl_count_app, (nl_count_none u) by done; lia).
    split; cbn [at_tailText at_tailBytes at_tailStartsAtLineBoundary at_totalDecodedBytes at_completedLines at_totalLines
                at_currentLineBytes at_hasOpenLine]; [by rewrite Happ | done | done | |].
    + rewrite H4, Htot, (bytes_app (p ++ r)) by apply SW. by rewrite Happ.
    + exists ((p ++ r) ++ q' ++ [10]), u. rewrite Hn, H5, Hc. split_and!; [by rewrite <- !app_assoc | | done..].
      rewrite app_assoc. apply line_start_snoc.
Qed.

(** ** The invariant of the accumulator *)

Definition file_inv (raw : list Z) (f : acc_file) : Prop :=
  af_totalRawBytes f = zlen raw
  /\ match af_tempFilePath f with
     | None => concat (af_rawChunks f) = raw /\ af_open f = false /\ af_written f = []
     | Some _ => af_rawChunks f = [] /\ af_open f = true /\ concat (af_written f) = raw
     end.

(** [W] is the text decoded from the bytes [raw] so far. *)
Record acc_inv (W : jsstr) (raw : list Z) (st : OutputAccumulator) : Prop := {
  ai_limits : 0 <= al_maxBytes (oa_limits st);
  ai_text : text_inv (maxRollingBytes (oa_limits st)) W (oa_text st);
  ai_decoder : utf8_ok (td_state (oa_decoder st));
  ai_decoded : if oa_finished st then W = decoded_text raw
               else forall chunks, W ++ stream_texts (oa_decoder st) chunks = decoded_text (raw ++ concat chunks);
  ai_file : file_inv raw (oa_file st);
  ai_small : af_tempFilePath (oa_file st) = None -> shouldUseTempFile (oa_limits st) (oa_text st) (oa_file st) = false
             \/ raw = [];
}.

Lemma maxRolling_pos l : 1 <= maxRollingBytes l.
Proof. unfold maxRollingBytes. lia. Qed.

Lemma acc_inv_new maxLines maxBytes :
  0 <= default DEFAULT_MAX_BYTES maxBytes -> acc_inv [] [] (new_OutputAccumulator maxLines maxBytes).
Proof.
  intros Hm. split; [done | | done | | |].
  - apply text_inv_new. pose proof (maxRolling_pos (oa_limits (new_OutputAccumulator maxLines maxBytes))). lia.
  - intros chunks. cbn [app]. apply stream_chunks_irrelevant.
  - done.
  - by right.
Qed.

Lemma ensureTempFile_inv path raw f : file_inv raw f -> file_inv raw (ensureTempFile path f).
Proof.
  intros [H1 H2]. unfold ensureTempFile. destruct (af_tempFilePath f) eqn:E; [by split; [| rewrite E] |].
  destruct H2 as (H2 & H3 & H4). done.
Qed.

Lemma ensureTempFile_path path f : is_Some (af_tempFilePath (ensureTempFile path f)).
Proof. unfold ensureTempFile. destruct (af_tempFilePath f) eqn:E; [rewrite E |]; eauto. Qed.

Lemma decode_stream_sound td data text td' :
  utf8_ok (td_state td) -> is_bytes data -> decode_stream td data = (text, td') -> sound_text text /\ utf8_ok (td_state td').
Proof.
  intros Hok Hb. unfold decode_stream. destruct (utf8_run (td_state td) data) as [u st] eqn:E.
  pose proof (drop_mark_sound (td_bomSeen td) u) as Hd. destruct (drop_mark (td_bomSeen td) u) as [t seen].
  intros [= <- <-]. destruct (utf8_run_sound _ _ _ _ Hok Hb E). auto.
Qed.

Lemma append_inv W raw st path data st' :
  acc_inv W raw st -> is_bytes data -> append path data st = Ok st' -> exists W', acc_inv W' (raw ++ data) st'.
Proof.
  intros [Hl Ht Hd Hdec Hf Hsm] Hb. unfold append. destruct (oa_finished st); [done |].
  destruct (decode_stream (oa_decoder st) data) as [text td] eqn:E.
  destruct (decode_stream_sound _ _ _ _ Hd Hb E) as [Stext Hok]. intros [= <-]. exists (W ++ text).
  pose proof (maxRolling_pos (oa_limits st)) as HR.
  set (f1 := mkAccFile _ _ _ _ _).
  assert (Hf1 : af_totalRawBytes f1 = zlen (raw ++ data)) by (cbn; destruct Hf as [-> _]; by rewrite zlen_app).
  split; cbn [oa_limits oa_text oa_decoder oa_finished oa_file]; [done | by apply appendDecodedText_inv | done | | |].
  - intros chunks. pose proof (Hdec (data :: chunks)) as H. cbn [stream_texts concat] in H. rewrite E in H. by rewrite <- !app_assoc.
  - destruct Hf as [H1 H2]. match goal with |- context [if ?b || shouldUseTempFile ?x ?y ?z then _ else _] => destruct (b || shouldUseTempFile x y z) eqn:Eu end.
    + unfold ensureTempFile. cbn [f1 af_tempFilePath]. destruct (af_tempFilePath (oa_file st)) eqn:Ep; cbn.
      * destruct H2 as (H2 & H3 & H4). unfold write_file. cbn [f1 af_open]. rewrite H3. split; [done |]. cbn. rewrite ?Ep, H2.
        split_and!; [done.. |]. by rewrite concat_app, H4; cbn; rewrite app_nil_r.
      * destruct H2 as (H2 & H3 & H4). unfold write_file. cbn [af_open]. split; [done |]. cbn.
        split_and!; [done.. |]. by rewrite concat_app, H2; cbn; rewrite app_nil_r.
    + apply orb_false_iff in Eu as [Eo _]. cbn [f1 af_open] in Eo.
      destruct (af_tempFilePath (oa_file st)) eqn:Ep; [destruct H2 as (_ & H3 & _); congruence |].
      destruct H2 as (H2 & H3 & H4).
      destruct (is_empty data) eqn:Ed.
      * apply is_empty_true in Ed as ->. rewrite app_nil_r in *. split; [done |]. cbn [f1 af_tempFilePath]. by rewrite ?Ep.
      * split; [done |]. cbn [f1 af_tempFilePath]. rewrite ?Ep. cbn. split_and!; [| done..].
        by rewrite concat_app, H2; cbn; rewrite app_nil_r.
  - match goal with |- context [if ?b || shouldUseTempFile ?x ?y ?z then _ else _] => destruct (b || shouldUseTempFile x y z) eqn:Eu end.
    + intros Hn. exfalso. pose proof (ensureTempFile_path path f1) as [q Hq]. unfold write_file in Hn.
      destruct (af_open (ensureTempFile path f1)); cbn in Hn; congruence.
    + intros _. left. apply orb_false_iff in Eu as [_ Eu]. by destruct (is_empty data).
Qed.

(** A file that is made on some condition. *)
Lemma persist_inv (b : bool) path raw f : file_inv raw f -> file_inv raw (if b then ensureTempFile path f else f).
Proof. destruct b; [apply ensureTempFile_inv | done]. Qed.

Lemma persist_path (b : bool) path f :
  af_tempFilePath (if b then ensureTempFile path f else f) = None -> b = false /\ af_tempFilePath f = None.
Proof. destruct b; [| done]. pose proof (ensureTempFile_path path f) as [q Hq]. congruence. Qed.

Lemma snapshot_inv W raw st path persist : acc_inv W raw st -> acc_inv W raw (snapshot path persist st).2.
Proof.
  intros [Hl Ht Hd Hdec Hf Hsm]. unfold snapshot. cbn [snd].
  split; cbn [oa_limits oa_text oa_decoder oa_finished oa_file]; [done.. | by apply persist_inv |].
  by intros [-> Hn]%persist_path; auto.
Qed.

Lemma finish_inv W raw st path : acc_inv W raw st -> exists W', acc_inv W' raw (finish path st) /\ oa_finished (finish path st) = true.
Proof.
  intros Hinv. unfold finish. destruct (oa_finished st) eqn:Ef; [eauto |]. destruct Hinv as [Hl Ht Hd Hdec Hf Hsm].
  rewrite Ef in Hdec. unfold decode_end.
  set (text := (drop_mark _ _).1). exists (W ++ text). split; [| done].
  split; cbn [oa_limits oa_text oa_decoder oa_finished oa_file]; [done | | done | | |].
  - apply appendDecodedText_inv; [apply maxRolling_pos | done | apply drop_mark_sound, utf8_end_sound].
  - specialize (Hdec []). cbn [stream_texts concat] in Hdec. by rewrite app_nil_r in Hdec.
  - by apply persist_inv.
  - intros [Hn Hp]%persist_path. rewrite Hn. by left.
Qed.

Lemma acc_run_inv ops : forall W raw st st',
  acc_inv W raw st -> Forall (fun o => is_bytes (op_data o)) ops -> acc_run st ops = Ok st' ->
  exists W', acc_inv W' (raw ++ concat (map op_data ops)) st'.
Proof.
  induction ops as [|o ops IH]; intros W raw st st' Hinv Hb; cbn [acc_run].
  { intros [= <-]. exists W. by rewrite app_nil_r. }
  apply Forall_cons in Hb as [Hb Hbs]. destruct (acc_step st o) as [st1|] eqn:E; [| done]. intros Hrun.
  assert (exists W1, acc_inv W1 (raw ++ op_data o) st1) as [W1 H1].
  { destruct o; cbn in *.
    - by eapply append_inv.
    - injection E as <-. rewrite app_nil_r. exists W. by apply snapshot_inv.
    - injection E as <-. rewrite app_nil_r. destruct (finish_inv W raw st path Hinv) as (W1 & H1 & _). eauto. }
  destruct (IH _ _ _ _ H1 Hbs Hrun) as [W2 H2]. exists W2. cbn [map concat]. by rewrite app_assoc.
Qed.

(** ** Snapshots *)

Lemma index_nl_first s i : index_of nl s = Some i -> 10 ∉ take i s.
Proof.
  revert i. induction s as [|c s IH]; intros i; cbn [index_of]; [done |].
  destruct (starts_with nl (c :: s)) eqn:E; [intros [= <-]; apply not_elem_of_nil |].
  destruct (index_of nl s) as [k|]; [| done]. intros [= <-]. cbn [take]. apply not_elem_of_cons. split; [| by apply IH].
  intros <-. cbn in E. done.
Qed.

Lemma index_nl_none s : index_of nl s = None -> 10 ∉ s.
Proof. rewrite index_of_None. intros H Hin. apply list_elem_of_split in Hin as (u & v & ->). by apply (H u v). Qed.

(** The last line of a text that goes on. *)
Lemma last_line_grows d' ch u :
  is_char ch -> sound_text d' -> sound_text ch -> sound_text u -> ends_with nl (d' ++ ch) = false -> (10 ∉ u) ->
  exists x, last (splitLinesForCounting ((d' ++ ch) ++ u ++ [10])) = Some x
    /\ buffer_byteLength ch + buffer_byteLength u <= buffer_byteLength x.
Proof.
  intros Hch Sd' Sch Su He Hu. destruct (split_last_line (d' ++ ch)) as (q & r & Hqr & Hq & Hr).
  assert (Sqr : sound_text (q ++ r)) by (rewrite <- Hqr; by apply sound_app).
  destruct (sound_line_start q r Hq Sqr) as [Sq Sr].
  assert (Hrne : r <> []).
  { intros ->. rewrite app_nil_r in Hqr. destruct Hq as [->|Hq]; [| congruence].
    apply app_nil in Hqr as [_ ?]. by apply (is_char_nonempty ch). }
  destruct (sound_suffix_char q r d' ch Sq Hrne Hch (eq_sym Hqr) Sqr) as (r' & -> & Sr').
  exists ((r' ++ ch) ++ u). split.
  - rewrite Hqr, <- app_assoc, counting_app by done. rewrite app_assoc, counting_line by (rewrite not_elem_of_app; done).
    change (splitLinesForCounting []) with (@nil jsstr). by rewrite last_snoc.
  - rewrite !bytes_app by (apply Sr' || apply sound_app; done). pose proof (buffer_nonneg r'). lia.
Qed.

(** The text of a snapshot: all of it; the lines after some point; or the end of an
    open line that is longer than the tail. *)
Lemma snapshot_text_cases R W t :
  text_inv R W t ->
  getSnapshotText t = W
  \/ (exists p x, W = p ++ getSnapshotText t /\ line_start p /\ p <> [] /\ sound_text (getSnapshotText t)
        /\ last (splitLinesForCounting p) = Some x
        /\ R < buffer_byteLength x + 1 + buffer_byteLength (getSnapshotText t))
  \/ (exists d, W = d ++ getSnapshotText t /\ cut_tail R d (getSnapshotText t) /\ (10 ∉ getSnapshotText t) /\ ends_with nl d = false).
Proof.
  intros [(d & -> & Sd & St & Hd) _ _ _ _]. unfold getSnapshotText.
  destruct Hd as [[-> ->]|[(_ & _ & d' & ch & -> & Hch & Sd' & Sch & Hlt) ->]]; [by left | right].
  assert (Hne : d' ++ ch <> []) by (intros [_ ?]%app_nil; by apply (is_char_nonempty ch)).
  destruct (ends_with nl (d' ++ ch)) eqn:E.
  - left. destruct (last (splitLinesForCounting (d' ++ ch))) as [x|] eqn:Ex;
      [| by apply last_None, counting_nil in Ex].
    exists (d' ++ ch), x. split_and!; [done | by right | done.. |].
    assert (ch = [10]) as ->.
    { rewrite ends_with_nl, bool_decide_eq_true in E. destruct Hch as [c E1 E2|h l E1 E2].
      - rewrite last_snoc in E. congruence.
      - change [h; l] with ([h] ++ [l]) in E. rewrite app_assoc, last_snoc in E. injection E as ->. done. }
    change (buffer_byteLength [10]) with 1 in Hlt. pose proof (buffer_nonneg x). lia.
  - destruct (index_of nl (at_tailText t)) as [i|] eqn:Ei.
    + left. pose proof (index_of_Some _ _ _ Ei) as Hs. pose proof (index_nl_first _ _ Ei) as Hno.
      cbn [nl length app] in Hs. rewrite Nat.add_1_r in Hs. set (u := take i (at_tailText t)) in *.
      set (T := drop (S i) (at_tailText t)) in *. rewrite Hs in St. apply sound_newline in St as [Su ST].
      destruct (last_line_grows d' ch u Hch Sd' Sch Su E Hno) as (x & Hx & Hle).
      exists ((d' ++ ch) ++ u ++ [10]), x. split_and!; [| | | done | done |].
      * rewrite Hs, <- !app_assoc. done.
      * rewrite app_assoc. apply line_start_snoc.
      * by intros [? _]%app_nil.
      * rewrite Hs, bytes_app, buffer_single in Hlt by (apply Su || done). change (unit_bytes 10) with 1 in Hlt. lia.
    + right. exists (d' ++ ch). split_and!; [done | | by apply index_nl_none | done].
      split_and!; [done.. |]. by exists d', ch.
Qed.

(** ** What tail truncation keeps *)

Section Kept.
Context (maxLines maxBytes : Z) (Hlines : 0 <= maxLines) (Hbytes : 0 <= maxBytes).

(** The last line alone exceeds the limit. *)
Definition last_too_long (L : list jsstr) : Prop :=
  exists x, last L = Some x /\ 0 < maxLines /\ maxBytes < buffer_byteLength x.

Lemma last_too_long_dec L : last_too_long L \/ ~ last_too_long L.
Proof.
  unfold last_too_long. destruct (last L) as [x|]; [| by right; intros (? & ? & _)].
  destruct (decide (0 < maxLines /\ maxBytes < buffer_byteLength x)) as [[? ?]|H]; [left; by exists x | right].
  intros (y & [= <-] & ? & ?). by apply H.
Qed.

Definition longest_lines (L arr : list jsstr) : Prop :=
  exists pre, L = pre ++ arr /\ fits maxLines maxBytes arr
    /\ (pre = [] \/ exists pre' x, pre = pre' ++ [x] /\ ~ fits maxLines maxBytes (x :: arr)).

Lemma drop_to_suffix (x y : list jsstr) : drop (length (x ++ y) - length y) (x ++ y) = y.
Proof. apply drop_app_length'. rewrite length_app. lia. Qed.

(** The longest lines of a text are those of its end, when they lie in it. *)
Lemma longest_lines_end p K arr arr' :
  longest_lines (p ++ K) arr -> longest_lines K arr' -> (length arr <= length K)%nat -> arr = arr'.
Proof.
  intros (pre & H1 & Hf & Hm) (pre' & -> & Hf' & Hm') Hle.
  pose proof (longest_suffix maxLines maxBytes _ _ _ H1 Hf Hm (length arr')) as A.
  pose proof (longest_suffix maxLines maxBytes _ _ _ eq_refl Hf' Hm' (length arr) Hle) as B.
  assert (exists k, pre' ++ arr' = k ++ arr) as [k Hk].
  { apply (f_equal length) in H1 as Hl. rewrite !length_app in Hl, Hle.
    destruct (app_eq_inv _ _ _ _ H1) as [(k & -> & Hk)|(k & -> & Hk)]; [| by exists k].
    apply (f_equal length) in Hk as Hk'. rewrite !length_app in Hk'. exists []. destruct k; [by rewrite Hk | cbn in *; lia]. }
  rewrite Hk, drop_to_suffix in B. rewrite app_assoc, drop_to_suffix in A. rewrite !length_app in A.
  apply B in Hf as Hfa. apply A in Hf' as Hfb; [| lia].
  apply app_inj_2 in Hk as [_ Hk]; [done | lia].
Qed.

Lemma tail_loop_kept L :
  (last_too_long L -> exists x, last L = Some x /\ exists n by_, tail_loop true maxLines maxBytes (reverse L) [] 0
     = ([truncateStringToBytesFromEnd x maxBytes], n, by_, true))
  /\ (~ last_too_long L -> exists arr n by_, tail_loop true maxLines maxBytes (reverse L) [] 0 = (arr, n, by_, false)
     /\ longest_lines L arr).
Proof.
  pose proof (tail_loop_spec true maxLines maxBytes (reverse L) [] ltac:(by split)) as H.
  change (lines_bytes []) with 0 in H. rewrite reverse_involutive, app_nil_r in H. split.
  - intros (x & Hx & H0 & Hgt). exists x. split; [done |]. apply last_Some in Hx as [L' ->]. rewrite reverse_snoc.
    cbn [tail_loop]. change (zlen []) with 0. rewrite (proj2 (Z.ltb_lt 0 maxLines)) by done. cbn [utf8ByteLength].
    rewrite Z.gtb_ltb, (proj2 (Z.ltb_lt maxBytes _)) by (cbn; lia). cbn. eauto.
  - intros Hn. destruct H as [(pre & arr & by_ & -> & HL & Hf & Hm)|(pre & x & -> & H0 & Hgt & _)].
    + exists arr, (lines_bytes arr), by_. split; [done |]. by exists pre.
    + destruct Hn. exists x. by rewrite last_snoc.
Qed.

Context (opts : TruncationOptions) (Hopts : opts = mkTruncationOptions (Some maxLines) (Some maxBytes)).

Lemma truncated_flag text :
  truncated (tool_truncateTail text opts) = (maxLines <? zlen (splitLinesForCounting text)) || (maxBytes <? buffer_byteLength text)
  /\ totalLines (tool_truncateTail text opts) = zlen (splitLinesForCounting text)
  /\ totalBytes (tool_truncateTail text opts) = buffer_byteLength text.
Proof.
  subst opts. unfold tool_truncateTail. cbn [default opt_maxLines opt_maxBytes]. unfold id.
  destruct (_ && _) eqn:E.
  - cbn [truncated totalLines totalBytes]. apply andb_prop in E as [E1 E2]. apply Z.leb_le in E1, E2. by rewrite (proj2 (Z.ltb_ge maxLines _)), (proj2 (Z.ltb_ge maxBytes _)) by lia.
  - destruct (tool_tail_loop _ _ _ _ _) as [[[arr n] by_] partial]. cbn [truncated totalLines totalBytes]. split_and!; [| done..].
    symmetry. apply orb_true_iff. rewrite !Z.ltb_lt. apply andb_false_iff in E. rewrite !Z.leb_gt in E. lia.
Qed.

(** The content is the end of the last line, or the longest lines, with a final line
    feed at most where nothing was left out. *)
Lemma tail_content text :
  sound_text text ->
  let r := tool_truncateTail text opts in
  let L := splitLinesForCounting text in
  (last_too_long L -> exists x, last L = Some x /\ content r = bytes_from_end x maxBytes)
  /\ (~ last_too_long L -> exists arr, longest_lines L arr
       /\ (content r = join nl arr \/ truncated r = false /\ content r = join nl arr ++ nl)).
Proof.
  intros Hs r L. assert (HL : Forall sound_text L) by (by apply sound_lines).
  destruct (tail_loop_kept L) as [K1 K2].
  unfold r. clear r. subst opts. unfold tool_truncateTail. cbn [default opt_maxLines opt_maxBytes]. unfold id. fold L.
  destruct (_ && _) eqn:E.
  - cbn [content truncated]. apply andb_prop in E as [E1 E2]. apply Z.leb_le in E1, E2.
    pose proof (counting_text text) as Ht. fold L in Ht.
    assert (Hb : lines_bytes L <= maxBytes).
    { unfold lines_bytes. rewrite Ht in E2. destruct (ends_with nl text); [| by rewrite app_nil_r in E2].
      change (join nl L ++ nl) with (join nl L ++ 10 :: []) in E2. rewrite buffer_newline, buffer_nil in E2. lia. }
    split.
    + intros (x & Hx & _ & Hgt). exfalso. apply last_Some in Hx as [L' HL']. rewrite HL' in Hb.
      pose proof (fits_suffix maxLines maxBytes L' [x]) as [_ Hf]; [split; [rewrite <- HL'; done | done] |].
      unfold lines_bytes in Hf. cbn in Hf. lia.
    + intros _. exists L. split; [exists []; split_and!; [done | by split | by left] |].
      rewrite Ht at 1. destruct (ends_with nl text); [right; split; [done |]; by rewrite Ht at 1 | left; by rewrite app_nil_r].
  - rewrite tool_tail_loop_agrees by (done || by apply Forall_reverse). split.
    + intros Hl. destruct (K1 Hl) as (x & Hx & n & by_ & ->). exists x. split; [done |]. cbn.
      apply last_Some in Hx as [L' HL']. rewrite HL' in HL. apply Forall_app in HL as [_ HL%Forall_inv].
      symmetry. by apply bytes_from_end_agrees.
    + intros Hl. destruct (K2 Hl) as (arr & n & by_ & -> & Hk). exists arr. split; [done |]. by left.
Qed.

End Kept.

(** ** The snapshot and the whole text *)

(** A text whose last line ends and is longer than the limit. *)
Definition long_closed_line (maxBytes : Z) (W : jsstr) : Prop :=
  ends_with nl W = true /\ exists x, last (splitLinesForCounting W) = Some x /\ maxBytes < buffer_byteLength x.

Section Agrees.
Context (maxLines maxBytes R : Z) (Hlines : 0 <= maxLines) (Hbytes : 0 <= maxBytes) (HR : maxBytes < R).
Local Abbreviation opts := (mkTruncationOptions (Some maxLines) (Some maxBytes)).
Local Abbreviation cut s := (content (tool_truncateTail s opts)).

Lemma text_bytes_lines T :
  buffer_byteLength T = lines_bytes (splitLinesForCounting T) + (if ends_with nl T then 1 else 0).
Proof.
  rewrite (counting_text T) at 1. unfold lines_bytes. destruct (ends_with nl T); [| rewrite app_nil_r; lia].
  change (join nl (splitLinesForCounting T) ++ nl) with (join nl (splitLinesForCounting T) ++ 10 :: []).
  rewrite buffer_newline, buffer_nil. lia.
Qed.

(** The lines that fit lie in the text of the snapshot. *)
Lemma kept_in_tail p x T arr :
  line_start p -> last (splitLinesForCounting p) = Some x -> R < buffer_byteLength x + 1 + buffer_byteLength T ->
  longest_lines maxLines maxBytes (splitLinesForCounting p ++ splitLinesForCounting T) arr ->
  (length arr <= length (splitLinesForCounting T))%nat.
Proof.
  intros Hp Hx Hlt (pre & H1 & Hf & _). destruct (decide (length arr <= length (splitLinesForCounting T))%nat) as [|Hgt]; [done |].
  exfalso. apply last_Some in Hx as [L' HL]. rewrite HL in H1.
  assert (exists y, arr = y ++ x :: splitLinesForCounting T) as [y ->].
  { rewrite <- app_assoc in H1. cbn [app] in H1. destruct (app_eq_inv _ _ _ _ H1) as [(k & -> & Hk)|(k & -> & Hk)]; [by exists k |].
    destruct k as [|z k]; [by exists [] |]. injection Hk as -> Hk. rewrite Hk, length_app in Hgt. lia. }
  apply fits_suffix in Hf as [_ Hf]. rewrite lines_bytes_cons in Hf. rewrite (text_bytes_lines T) in Hlt.
  destruct (splitLinesForCounting T) eqn:ET; [| cbn [is_empty] in Hf; destruct (ends_with nl T); lia].
  apply counting_nil in ET. subst T. change (ends_with nl []) with false in Hlt. change (lines_bytes []) with 0 in *.
  cbn [is_empty] in *. lia.
Qed.

Lemma long_line_cut r T :
  cut_tail R r T -> bytes_from_end (r ++ T) maxBytes = if buffer_byteLength T <=? maxBytes then T else bytes_from_end T maxBytes.
Proof.
  intros (Sr & ST & d' & ch & -> & Hch & Sd' & Sch & Hlt). apply (longest_end_unique maxBytes ((d' ++ ch) ++ T)).
  { apply bytes_from_end_longest; [by apply sound_app | done]. }
  destruct (_ <=? _) eqn:E; bool_hyps.
  - exists (d' ++ ch). split_and!; [done.. |]. right. exists d', ch. split_and!; [done.. | lia].
  - destruct (bytes_from_end_longest T maxBytes ST Hbytes) as (e & HT & Se & St & Hle & Hd).
    destruct Hd as [->|(e' & c & -> & Hc & Se' & Sc & Hgt)]; [cbn in HT; rewrite HT in E; lia |].
    exists ((d' ++ ch) ++ e' ++ c). split_and!; [rewrite HT at 1; by rewrite <- !app_assoc | by apply sound_app | done | done |].
    right. exists ((d' ++ ch) ++ e'), c. split_and!; auto using sound_app. by rewrite app_assoc.
Qed.

Lemma long_text p x T :
  line_start p -> last (splitLinesForCounting p) = Some x -> sound_text p -> R < buffer_byteLength x + 1 + buffer_byteLength T ->
  maxBytes < buffer_byteLength (p ++ T).
Proof.
  intros Hp Hx Sp Hlt. rewrite bytes_app, (text_bytes_lines p) by apply Sp.
  destruct Hp as [->|Hp]; [done |]. rewrite Hp. apply last_Some in Hx as [L' ->]. rewrite lines_bytes_snoc.
  pose proof (lines_bytes_nonneg L'). destruct (is_empty L'); lia.
Qed.

(** Where whole lines are left out. *)
Lemma cut_agrees_lines p x T :
  sound_text (p ++ T) -> ~ long_closed_line maxBytes (p ++ T) -> line_start p -> p <> [] -> last (splitLinesForCounting p) = Some x ->
  R < buffer_byteLength x + 1 + buffer_byteLength T -> cut T = cut (p ++ T) \/ cut T = cut (p ++ T) ++ nl.
Proof.
  intros SW Hno Hp Hpne Hx Hlt. destruct (sound_line_start p T Hp SW) as [Sp ST].
  destruct (tail_content maxLines maxBytes Hlines Hbytes opts eq_refl T ST) as [T1 T2].
  destruct (tail_content maxLines maxBytes Hlines Hbytes opts eq_refl (p ++ T) SW) as [W1 W2].
  destruct (truncated_flag maxLines maxBytes opts eq_refl (p ++ T)) as [Wt _].
  rewrite (proj2 (Z.ltb_lt maxBytes _) (long_text p x T Hp Hx Sp Hlt)), orb_true_r in Wt.
  pose proof (counting_app p T Hp) as HL.
  assert (Hlast : splitLinesForCounting T <> [] -> last (splitLinesForCounting (p ++ T)) = last (splitLinesForCounting T)).
  { intros H. rewrite HL. destruct (splitLinesForCounting T); [done | apply last_app_cons]. }
  destruct (last_too_long_dec maxLines maxBytes (splitLinesForCounting (p ++ T))) as [Hl|Hl].
  - destruct (W1 Hl) as (x1 & Hx1 & ->). destruct Hl as (x2 & Hx2 & H0 & Hgt). rewrite Hx1 in Hx2. injection Hx2 as <-.
    destruct (decide (splitLinesForCounting T = [])) as [HT|HT].
    + apply counting_nil in HT as ->. rewrite app_nil_r in *. destruct Hno. split; [by destruct Hp |]. by exists x1.
    + rewrite Hlast in Hx1 by done. destruct T1 as (x3 & Hx3 & ->); [by exists x1 |]. left. congruence.
  - destruct (W2 Hl) as (arr & Harr & [->|[Hf _]]); [| congruence].
    destruct T2 as (arr' & Harr' & Hc).
    { intros (y & Hy & H0 & Hgt). apply Hl. exists y. rewrite Hlast; [done |]. intros HT. by rewrite HT in Hy. }
    rewrite HL in Harr. pose proof (kept_in_tail p x T arr Hp Hx Hlt Harr) as Hle.
    rewrite (longest_lines_end _ _ _ _ _ _ Harr Harr' Hle). destruct Hc as [->|[_ ->]]; auto.
Qed.

Lemma last_open_line d T :
  cut_tail R d T -> ends_with nl d = false ->
  exists q r, d = q ++ r /\ line_start q /\ cut_tail R r T /\ (10 ∉ r) /\ r <> [].
Proof.
  intros (Sd & ST & d' & ch & -> & Hch & Sd' & Sch & Hlt) He.
  destruct (split_last_line (d' ++ ch)) as (q & r & Hqr & Hq & Hr). rewrite Hqr in Sd.
  destruct (sound_line_start q r Hq Sd) as [Sq Sr].
  assert (Hrne : r <> []).
  { intros ->. rewrite app_nil_r in Hqr. destruct Hq as [->|Hq]; [| congruence].
    apply app_nil in Hqr as [_ ?]. by apply (is_char_nonempty ch). }
  destruct (sound_suffix_char q r d' ch Sq Hrne Hch (eq_sym Hqr) Sd) as (r' & -> & Sr').
  exists q, (r' ++ ch). split_and!; [done.. | | done | done]. split_and!; [done.. |]. by exists r', ch.
Qed.

(** Where the beginning of the last line is left out. *)
Lemma cut_agrees_open d T :
  sound_text (d ++ T) -> cut_tail R d T -> (10 ∉ T) -> ends_with nl d = false -> cut T = cut (d ++ T) \/ cut T = cut (d ++ T) ++ nl.
Proof.
  intros SW Hcut HT He. destruct (last_open_line d T Hcut He) as (q & r & -> & Hq & Hr & Hr10 & Hrne).
  assert (ST : sound_text T) by apply Hr.
  destruct (tail_content maxLines maxBytes Hlines Hbytes opts eq_refl T ST) as [T1 T2].
  destruct (tail_content maxLines maxBytes Hlines Hbytes opts eq_refl _ SW) as [W1 W2].
  assert (Hx : last (splitLinesForCounting ((q ++ r) ++ T)) = Some (r ++ T)).
  { assert (Hne : r ++ T <> []) by (by intros [? _]%app_nil). assert (Hn10 : 10 ∉ r ++ T) by (rewrite elem_of_app; tauto).
    rewrite <- app_assoc, counting_app, (counting_open (r ++ T)) by done. apply last_snoc. }
  assert (Hb : maxBytes < buffer_byteLength (r ++ T)).
  { destruct Hr as (Sr & _ & d' & ch & -> & _ & Sd' & Sch & Hlt). rewrite bytes_app, bytes_app by (apply Sr || apply Sd').
    pose proof (buffer_nonneg d'). lia. }
  destruct (decide (0 < maxLines)) as [H0|H0].
  - left. destruct W1 as (y & Hy & ->); [by exists (r ++ T) |]. rewrite Hx in Hy. injection Hy as <-.
    rewrite long_line_cut by done. destruct (_ <=? _) eqn:E; bool_hyps.
    + unfold tool_truncateTail. cbn [default opt_maxLines opt_maxBytes]. unfold id.
      rewrite (proj2 (Z.leb_le _ maxLines)), (proj2 (Z.leb_le _ maxBytes)); [done | done |].
      destruct (decide (T = [])) as [->|]; [change (zlen (splitLinesForCounting [])) with 0; lia | rewrite counting_open by done; unfold zlen; cbn; lia].
    + assert (T <> []) by (intros ->; rewrite buffer_nil in E; lia).
      destruct T1 as (y & Hy & ->); [exists T; rewrite counting_open by done; done |].
      rewrite counting_open in Hy by done. by injection Hy as <-.
  - assert (Hnot : forall L, ~ last_too_long maxLines maxBytes L) by (intros L (? & ? & ? & ?); lia).
    assert (Hnil : forall L arr, longest_lines maxLines maxBytes L arr -> arr = []).
    { intros L arr (_ & _ & [Hf _] & _). apply zlen_zero. pose proof (zlen_nonneg arr). lia. }
    destruct (W2 (Hnot _)) as (arr & ->%Hnil & Hc). destruct (T2 (Hnot _)) as (arr' & ->%Hnil & Hc').
    destruct (truncated_flag maxLines maxBytes opts eq_refl ((q ++ r) ++ T)) as [Wt _].
    destruct Hc as [->|[Hf _]]; [destruct Hc' as [->|[_ ->]]; auto |]. exfalso. rewrite Hf in Wt. symmetry in Wt.
    apply orb_false_iff in Wt as [Wt _]. apply Z.ltb_ge in Wt.
    destruct (splitLinesForCounting ((q ++ r) ++ T)) as [|y ys]; [done |]. rewrite zlen_cons in Wt. pose proof (zlen_nonneg ys). lia.
Qed.

Lemma cut_agrees W t :
  text_inv R W t -> ~ long_closed_line maxBytes W -> cut (getSnapshotText t) = cut W \/ cut (getSnapshotText t) = cut W ++ nl.
Proof.
  intros Hinv Hno. pose proof (text_inv_sound _ _ _ Hinv) as SW.
  destruct (snapshot_text_cases _ _ _ Hinv) as [-> | [(p & x & HW & Hp & Hpne & _ & Hx & Hlt)|(d & HW & Hcut & HT & Hd)]]; [by left | |];
    rewrite HW in *; [by apply (cut_agrees_lines p x) | by apply cut_agrees_open].
Qed.
End Agrees.

(** ** The accumulator *)

Lemma acc_new_inv maxLines maxBytes ops st :
  0 <= maxBytes -> Forall (fun o => is_bytes (op_data o)) ops ->
  acc_run (new_OutputAccumulator (Some maxLines) (Some maxBytes)) ops = Ok st ->
  exists W, acc_inv W (concat (map op_data ops)) st /\ oa_limits st = mkLimits maxLines maxBytes.
Proof.
  intros Hm Hb Hrun. destruct (acc_run_inv _ _ _ _ _ (acc_inv_new (Some maxLines) (Some maxBytes) Hm) Hb Hrun) as [W HW].
  exists W. split; [done |]. clear W HW Hb. revert Hrun.
  change (mkLimits maxLines maxBytes) with (oa_limits (new_OutputAccumulator (Some maxLines) (Some maxBytes))).
  generalize (new_OutputAccumulator (Some maxLines) (Some maxBytes)) as st0.
  induction ops as [|o ops IH]; intros st0; cbn [acc_run]; [by intros [= <-] |].
  destruct (acc_step st0 o) as [st1|] eqn:E; [| done]. intros ->%IH. destruct o; cbn in E.
  - unfold append in E. destruct (oa_finished st0); [done |]. destruct (decode_stream _ _). by injection E as <-.
  - by injection E as <-.
  - injection E as <-. unfold finish. by destruct (oa_finished st0).
Qed.

Lemma inv_lines W raw st : acc_inv W raw st -> at_totalLines (oa_text st) = zlen (splitLinesForCounting W).
Proof.
  intros [_ [_ _ _ _ (p & r & -> & Hp & Hr & _ & _ & _ & ->)] _ _ _ _]. symmetry. by apply counting_total.
Qed.

Lemma inv_nothing W st : acc_inv W [] st -> W = [].
Proof.
  intros [_ _ _ Hdec _ _]. destruct (oa_finished st); [done |]. specialize (Hdec []). cbn [concat app] in Hdec.
  by apply app_nil in Hdec as [-> _].
Qed.

(** C9: A snapshot shows the output as if all of it had been kept.  After any appends and
    snapshots, with [W] the text decoded so far (all of it once finished, however the
    bytes were cut into chunks), the counts and the truncation flag are those of the
    truncation of [W], and so is the content but for a final line feed, unless the last
    line of [W] ends and is longer than the limit. *)
Theorem snapshot_agrees maxLines maxBytes ops st path persist :
  0 <= maxLines -> 0 <= maxBytes -> Forall (fun o => is_bytes (op_data o)) ops ->
  acc_run (new_OutputAccumulator (Some maxLines) (Some maxBytes)) ops = Ok st ->
  let raw := concat (map op_data ops) in
  let r := os_truncation (snapshot path persist st).1 in
  exists W,
    (if oa_finished st then W = decoded_text raw else forall more, W `prefix_of` decoded_text (raw ++ more))
    /\ let whole := tool_truncateTail W (mkTruncationOptions (Some maxLines) (Some maxBytes)) in
       truncated r = truncated whole /\ totalLines r = totalLines whole /\ totalBytes r = totalBytes whole
       /\ (~ long_closed_line maxBytes W -> content r = content whole \/ content r = content whole ++ nl).
Proof.
  intros Hl Hm Hb Hrun raw r. destruct (acc_new_inv _ _ _ _ Hm Hb Hrun) as (W & HW & Hlim). fold raw in HW. exists W. split.
  { pose proof (ai_decoded _ _ _ HW) as Hdec. destruct (oa_finished st); [done |]. intros more. specialize (Hdec [more]).
    cbn [concat] in Hdec. rewrite app_nil_r in Hdec. rewrite <- Hdec. by apply prefix_app_r. }
  intros whole. unfold whole. destruct (truncated_flag maxLines maxBytes _ eq_refl W) as (-> & -> & ->).
  pose proof (inv_lines _ _ _ HW) as Hlines. pose proof (ti_total _ _ _ (ai_text _ _ _ HW)) as Htot.
  unfold r, snapshot. rewrite Hlim. cbn [fst os_truncation truncated totalLines totalBytes content al_maxLines al_maxBytes].
  rewrite Hlines, Htot. split_and!; [done.. |]. intros Hno. pose proof (ai_text _ _ _ HW) as Ht. rewrite Hlim in Ht.
  apply (cut_agrees maxLines maxBytes (maxRollingBytes (mkLimits maxLines maxBytes))); [done | done | | done | done].
  unfold maxRollingBytes. cbn [al_maxBytes]. lia.
Qed.

(** C33: Nothing of a truncated output is lost. Whatever was appended, in pieces cut
    anywhere, with snapshots taken in between and whether or not the output is finished:
    a snapshot that is truncated names a file, the one the accumulator has opened, and
    exactly the bytes appended so far have been written to it, in order, including those
    from before it was opened and those no longer in memory. The limits are not
    negative; after [closeTempFile] there are no further appends; that the file system
    stores what is written is not modelled. *)
Theorem output_preserved maxLines maxBytes ops st path persist :
  0 <= maxLines -> 0 <= maxBytes -> Forall (fun o => is_bytes (op_data o)) ops ->
  acc_run (new_OutputAccumulator (Some maxLines) (Some maxBytes)) ops = Ok st ->
  let s := snapshot path persist st in
  truncated (os_truncation s.1) = true ->
  exists file, os_fullOutputPath s.1 = Some file /\ af_tempFilePath (oa_file s.2) = Some file /\
    concat (af_written (oa_file s.2)) = concat (map op_data ops).
Proof.
  intros Hl Hm Hb Hrun s Ht. destruct (acc_new_inv _ _ _ _ Hm Hb Hrun) as (W & HW & Hlim).
  assert (Hpath : is_Some (af_tempFilePath (oa_file s.2))).
  { destruct (af_tempFilePath (oa_file s.2)) eqn:E; [by eexists |]. exfalso.
    pose proof (snapshot_inv _ _ _ path persist HW) as HW'. fold s in HW'.
    destruct (ai_small _ _ _ HW' E) as [Hs|Hraw].
    - unfold s, snapshot in Ht, Hs. cbn in Ht, Hs. unfold shouldUseTempFile in Hs. rewrite Hlim in *. cbn in *.
      apply orb_false_iff in Hs as [Hs1 Hs2]. apply orb_false_iff in Hs1 as [_ Hs1]. rewrite Hs1, Hs2 in Ht. done.
    - rewrite Hraw in HW. pose proof (inv_nothing _ _ HW) as ->. pose proof (inv_lines _ _ _ HW) as Hlines.
      pose proof (ti_total _ _ _ (ai_text _ _ _ HW)) as Htot. unfold s, snapshot in Ht. rewrite Hlim in Ht. cbn in Ht.
      rewrite Hlines, Htot in Ht. apply orb_true_iff in Ht as [Ht|Ht]; apply Z.ltb_lt in Ht;
        [change (zlen (splitLinesForCounting [])) with 0 in Ht | change (buffer_byteLength []) with 0 in Ht]; lia. }
  destruct Hpath as [q Hq]. exists q. split; [exact Hq |]. split; [exact Hq |].
  pose proof (ai_file _ _ _ (snapshot_inv _ _ _ path persist HW)) as [_ Hf]. fold s in Hf.
  rewrite Hq in Hf. by destruct Hf as (_ & _ & Hf).
Qed.

(** Memory is bounded however long the output: the tail kept takes at most four times
    the byte limit (two bytes at least), and the raw bytes that are not in the file at
    most the limit. *)
Theorem accumulator_bounded maxLines maxBytes ops st :
  0 <= maxLines -> 0 <= maxBytes -> Forall (fun o => is_bytes (op_data o)) ops ->
  acc_run (new_OutputAccumulator (Some maxLines) (Some maxBytes)) ops = Ok st ->
  buffer_byteLength (at_tailText (oa_text st)) <= Z.max (maxBytes * 4) 2
  /\ zlen (concat (af_rawChunks (oa_file st))) <= maxBytes.
Proof.
  intros Hl Hm Hb Hrun. destruct (acc_new_inv _ _ _ _ Hm Hb Hrun) as (W & HW & Hlim).
  destruct HW as [_ Ht _ _ [Hr Hf] Hsm]. split.
  - destruct Ht as [_ <- Hbound _ _]. rewrite Hlim in Hbound. unfold maxRollingBytes in Hbound. cbn [al_maxBytes] in Hbound. lia.
  - destruct (af_tempFilePath (oa_file st)); [by destruct Hf as (-> & _) |]. destruct Hf as (-> & _).
    destruct (Hsm eq_refl) as [Hs | ->]; [| done]. unfold shouldUseTempFile in Hs. rewrite Hr, Hlim in Hs. cbn [al_maxBytes al_maxLines] in Hs.
    apply orb_false_iff in Hs as [[Hs _]%orb_false_iff _]. by apply Z.ltb_ge in Hs.
Qed.

(** ** Samples *)
Module OutputSample.

Definition bytes (s : string) : list Z := utf8_encode (js s).

(** Four bytes are kept of a stream that arrives in three chunks, one of them cut inside
    the euro sign. *)
Definition ops : list acc_op :=
  [OpAppend (js "/tmp/a") (bytes "first line that is long" ++ [10; 226; 130]);
   OpSnapshot (js "/tmp/b") true;
   OpAppend (js "/tmp/c") ([172; 10] ++ bytes "ok"); OpFinish (js "/tmp/d")].

Definition finished_state : OutputAccumulator :=
  match acc_run (new_OutputAccumulator (Some 10) (Some 4)) ops with
  | Ok st => st
  | Throw _ => new_OutputAccumulator None None
  end.

Lemma output_ran : acc_run (new_OutputAccumulator (Some 10) (Some 4)) ops = Ok finished_state.
Proof. vm_compute. reflexivity. Qed.

Lemma bytes_check l : forallb (fun b => (0 <=? b) && (b <=? 255)) l = true -> is_bytes l.
Proof. rewrite forallb_forall. intros H. apply Forall_forall. intros b Hb%list_elem_of_In%H. bool_hyps. done. Qed.

Lemma ops_bytes : Forall (fun o => is_bytes (op_data o)) ops.
Proof.
  unfold ops. repeat (apply Forall_cons_2; [apply bytes_check; vm_compute; reflexivity |]). apply Forall_nil_2.
Qed.

Lemma not_long : ~ long_closed_line 4 (decoded_text (concat (map op_data ops))).
Proof. intros [H _]. vm_compute in H. discriminate. Qed.

Lemma snapshot_agrees_witness :
  let r := os_truncation (snapshot (js "/tmp/e") false finished_state).1 in
  truncated r = true /\ totalLines r = 3 /\ totalBytes r = 30 /\ content r = js "ok".
Proof.
  destruct (snapshot_agrees 10 4 ops finished_state (js "/tmp/e") false ltac:(lia) ltac:(lia) ops_bytes output_ran)
    as (W & HW & H1 & H2 & H3 & H4).
  assert (E : oa_finished finished_state = true) by (vm_compute; reflexivity). rewrite E in HW. subst W.
  cbv zeta. rewrite H1, H2, H3. split_and!; [vm_compute; reflexivity.. |].
  destruct (H4 not_long) as [H|H]; [rewrite H; vm_compute; reflexivity | exfalso; vm_compute in H; discriminate].
Defined.

Lemma output_preserved_witness :
  exists file, os_fullOutputPath (snapshot (js "/tmp/e") false finished_state).1 = Some file
  /\ af_tempFilePath (oa_file (snapshot (js "/tmp/e") false finished_state).2) = Some file
  /\ concat (af_written (oa_file (snapshot (js "/tmp/e") false finished_state).2)) = concat (map op_data ops).
Proof.
  apply (output_preserved 10 4 ops finished_state (js "/tmp/e") false ltac:(lia) ltac:(lia) ops_bytes output_ran).
  vm_compute. reflexivity.
Defined.

Lemma accumulator_bounded_witness : buffer_byteLength (at_tailText (oa_text finished_state)) <= 16.
Proof. apply (accumulator_bounded 10 4 ops finished_state ltac:(lia) ltac:(lia) ops_bytes output_ran). Defined.

(** One line that is longer than the tail and ends: the snapshot shows nothing, though
    the end of the line fits. *)
Example closed_long_line_hidden :
  let out := bytes "aaaaaaaaaaaaaaaaaaaaaaaaa" ++ [10] in
  match append (js "/tmp/a") out (new_OutputAccumulator (Some 10) (Some 4)) with
  | Ok st =>
      let r := os_truncation (snapshot (js "/tmp/b") false (finish (js "/tmp/c") st)).1 in
      content r = [] /\ outputLines r = 0 /\ totalLines r = 1
      /\ content (tool_truncateTail (decoded_text out) (mkTruncationOptions (Some 10) (Some 4))) = js "aaaa"
  | Throw _ => False
  end.
Proof. vm_compute. auto. Qed.

End OutputSample.
