(* ===== verification/ChunkFile.v ===== *)
(** Chunking of source files for the search index, [packages/code-index/src/chunk.ts]:
    the symbol boundaries of a file, moved back over the comments before them, and the
    chunks between them.  The regular expressions of the languages are parameters: for
    each language the matches of its pattern in a text, the symbol named by a line and
    the type of a chunk.  The theorem holds for any of them. *)
From S2P Require Import Prelude JsString StringSearch.

Record Chunk := mkChunk {
  ck_text : jsstr;
  ck_startLine : nat;
  ck_endLine : nat;
  ck_symbol : jsstr;
  ck_chunkType : jsstr;
}.

(** ** Lines around a declaration *)

Definition line_at (lines : list jsstr) (i : nat) : jsstr := default [] (lines !! i).
Definition blank_line (line : jsstr) : bool := is_empty (trim line).

Fixpoint skipBlankLinesBackward (lines : list jsstr) (i : nat) : nat :=
  match i with O => O | S j => if blank_line (line_at lines j) then skipBlankLinesBackward lines j else i end.

(** Decorators, with the blank lines before each. *)
Fixpoint skip_decorators (fuel : nat) (lines : list jsstr) (i : nat) : nat :=
  match fuel, i with
  | S fuel', S j =>
      if starts_with (js "@") (trim_start (line_at lines j)) then skip_decorators fuel' lines (skipBlankLinesBackward lines j) else i
  | _, _ => i
  end.

(** Lines with a prefix. *)
Fixpoint skip_prefixed (prefix : jsstr) (lines : list jsstr) (i : nat) : nat :=
  match i with
  | O => O
  | S j => if starts_with prefix (trim_start (line_at lines j)) then skip_prefixed prefix lines j else i
  end.

(** The last line before [i] that begins a block comment. *)
Fixpoint block_start (lines : list jsstr) (i : nat) : option nat :=
  match i with
  | O => None
  | S j => if starts_with (js "/*") (trim_start (line_at lines j)) then Some j else block_start lines j
  end.

Definition skipLeadingComments (lines : list jsstr) (startLine : nat) : nat :=
  let i := skip_decorators startLine lines (skipBlankLinesBackward lines startLine) in
  match i with
  | O => O
  | S j =>
      let previous := trim (line_at lines j) in
      if starts_with (js "//") previous then skip_prefixed (js "//") lines i
      else if starts_with (js "#") previous then skip_prefixed (js "#") lines i
      else if ends_with (js "*/") previous then default i (block_start lines i)
      else i
  end.

(** From line [i] on; [None] is the end of the file. *)
Fixpoint find_declaration (rest : list jsstr) (i : nat) (inBlockComment : bool) : option nat :=
  match rest with
  | [] => None
  | line :: rest' =>
      let trimmed := trim line in
      if is_empty trimmed || starts_with (js "//") trimmed || starts_with (js "#") trimmed || starts_with (js "@") trimmed
      then find_declaration rest' (S i) inBlockComment
      else if inBlockComment
      then find_declaration rest' (S i) (negb (bool_decide (is_Some (index_of (js "*/") trimmed))))
      else if starts_with (js "/*") trimmed
      then find_declaration rest' (S i) (negb (bool_decide (is_Some (index_of (js "*/") trimmed))))
      else Some i
  end.

Definition findDeclarationLine (lines : list jsstr) (startLine : nat) : nat :=
  default startLine (find_declaration (drop startLine lines) startLine false).

(** ** Boundaries *)

(** A match: its offset and its text. *)
Definition symbol_match := (nat * jsstr)%type.

Definition declarationOffset (m : symbol_match) : nat := (m.1 + (length m.2 - length (trim_start m.2)))%nat.

Definition newlines (s : jsstr) : nat := length (filter (fun c => c = 10) s).

(** The loop over the matches, with [scannedOffset] and [lineIndex]. *)
Fixpoint raw_boundaries (content : jsstr) (totalLines : nat) (ms : list symbol_match) (scannedOffset lineIndex : nat) : list nat :=
  match ms with
  | [] => []
  | m :: ms' =>
      let offset := declarationOffset m in
      let lineIndex' := (lineIndex + newlines (take (offset - scannedOffset) (drop scannedOffset content)))%nat in
      let rest := raw_boundaries content totalLines ms' (Nat.max scannedOffset offset) lineIndex' in
      if (0 <? lineIndex')%nat && (lineIndex' <? totalLines)%nat then lineIndex' :: rest else rest
  end.

(** The boundaries after the one at [current]. *)
Fixpoint later_boundaries (lines : list jsstr) (current : nat) (raw : list nat) : list nat :=
  match raw with
  | [] => []
  | r :: raw' =>
      let boundary := skipLeadingComments lines r in
      if (current <? boundary)%nat then boundary :: later_boundaries lines boundary raw' else later_boundaries lines current raw'
  end.

Definition symbol_boundaries (lines : list jsstr) (totalLines : nat) (raw : list nat) : list nat :=
  let boundaries := 0%nat :: later_boundaries lines 0 raw in
  if bool_decide (last boundaries = Some totalLines) then boundaries else boundaries ++ [totalLines].

(** ** Chunks *)

Definition line_range (lines : list jsstr) (start stop : nat) : list jsstr := take (stop - start) (drop start lines).

(** The steps of [for (let s = start; s < end; s += size)], for a positive size. *)
Fixpoint fixed_ranges (fuel size start stop : nat) : list (nat * nat) :=
  match fuel with
  | O => []
  | S fuel' =>
      if (start <? stop)%nat then (start, Nat.min (start + size) stop) :: fixed_ranges fuel' size (start + size) stop else []
  end.

Section Chunking.
Context (extractSymbol : jsstr -> jsstr -> jsstr) (detectChunkType : jsstr -> jsstr).

Definition chunk_of (lines : list jsstr) (symbol chunkType : jsstr) (range : nat * nat) : Chunk :=
  mkChunk (join nl (line_range lines range.1 range.2)) (S range.1) range.2 symbol chunkType.

Definition has_text (lines : list jsstr) (range : nat * nat) : bool :=
  negb (blank_line (join nl (line_range lines range.1 range.2))).

Definition declared_symbol (lines : list jsstr) (language : jsstr) (start : nat) : jsstr :=
  extractSymbol (trim (line_at lines (findDeclarationLine lines start))) language.

(** A section between two boundaries. *)
Definition section_chunks (lines : list jsstr) (language : jsstr) (defaultChunkLines maxChunkLines start stop : nat) : list Chunk :=
  if (maxChunkLines <? stop - start)%nat then
    let chunkType := if (length (line_range lines start stop) <? 200)%nat then js "function" else js "section" in
    map (fun r => chunk_of lines (declared_symbol lines language r.1) chunkType r)
      (List.filter (has_text lines) (fixed_ranges (stop - start) defaultChunkLines start stop))
  else if has_text lines (start, stop)
  then [chunk_of lines (declared_symbol lines language start) (detectChunkType (join nl (line_range lines start stop))) (start, stop)]
  else [].

Fixpoint boundary_chunks (lines : list jsstr) (language : jsstr) (defaultChunkLines maxChunkLines : nat) (boundaries : list nat) : list Chunk :=
  match boundaries with
  | start :: ((stop :: _) as rest) =>
      section_chunks lines language defaultChunkLines maxChunkLines start stop
      ++ boundary_chunks lines language defaultChunkLines maxChunkLines rest
  | _ => []
  end.

Definition chunkBySymbols (lines : list jsstr) (content language : jsstr) (pattern : jsstr -> list symbol_match)
    (totalLines defaultChunkLines maxChunkLines : nat) : list Chunk :=
  let raw := raw_boundaries content totalLines (pattern content) 0 0 in
  boundary_chunks lines language defaultChunkLines maxChunkLines (symbol_boundaries lines totalLines raw).

Definition chunkFixedSize (lines : list jsstr) (totalLines defaultChunkLines : nat) : list Chunk :=
  map (chunk_of lines [] (js "text")) (List.filter (has_text lines) (fixed_ranges totalLines defaultChunkLines 0 totalLines)).

(** The lines of a file, without the empty one after a final line feed. *)
Definition file_lines (content : jsstr) : list jsstr :=
  let lines := split_on 10 content in
  if bool_decide (last lines = Some []) then removelast lines else lines.

Definition chunkFile (patterns : jsstr -> option (jsstr -> list symbol_match)) (content language : jsstr)
    (defaultChunkLines maxChunkLines : nat) : list Chunk :=
  let lines := file_lines content in
  let totalLines := length lines in
  if (totalLines =? 0)%nat then []
  else match patterns language with
       | Some pattern => chunkBySymbols lines content language pattern totalLines defaultChunkLines maxChunkLines
       | None => chunkFixedSize lines totalLines defaultChunkLines
       end.

End Chunking.

(** ** Boundaries never move forward *)

Lemma skipBlank_le lines i : (skipBlankLinesBackward lines i <= i)%nat.
Proof. induction i as [|i IH]; cbn; [lia |]. case_if; lia. Qed.

Lemma skip_decorators_le fuel lines i : (skip_decorators fuel lines i <= i)%nat.
Proof.
  revert i. induction fuel as [|fuel IH]; intros [|i]; cbn; try lia. case_if; [| lia].
  pose proof (IH (skipBlankLinesBackward lines i)). pose proof (skipBlank_le lines i). lia.
Qed.

Lemma skip_prefixed_le p lines i : (skip_prefixed p lines i <= i)%nat.
Proof. induction i as [|i IH]; cbn; [lia |]. case_if; lia. Qed.

Lemma block_start_lt lines i j : block_start lines i = Some j -> (j < i)%nat.
Proof. induction i as [|i IH]; cbn; [done |]. case_if; [intros [= <-]; lia | intros ?%IH; lia]. Qed.

Lemma skipLeadingComments_le lines i : (skipLeadingComments lines i <= i)%nat.
Proof.
  unfold skipLeadingComments. pose proof (skip_decorators_le i lines (skipBlankLinesBackward lines i)) as H1.
  pose proof (skipBlank_le lines i) as H2. set (k := skip_decorators _ _ _) in *. clearbody k.
  destruct k as [|k]; [lia |]. pose proof (skip_prefixed_le (js "//") lines (S k)).
  pose proof (skip_prefixed_le (js "#") lines (S k)). repeat case_if; try lia.
  destruct (block_start lines (S k)) eqn:E; cbn [default]; [apply block_start_lt in E; unfold id; lia | lia].
Qed.

Lemma raw_boundaries_below content total ms : forall off li, Forall (fun r => (r < total)%nat) (raw_boundaries content total ms off li).
Proof.
  induction ms as [|m ms IH]; intros off li; cbn [raw_boundaries]; [constructor |]. cbv zeta.
  set (li' := (li + _)%nat). destruct ((0 <? li')%nat && (li' <? total)%nat) eqn:E; [| done].
  apply andb_prop in E as [_ E%Nat.ltb_lt]. by constructor.
Qed.

(** ** Ranges that follow one another *)

Inductive tiles : nat -> nat -> list (nat * nat) -> Prop :=
  | tiles_nil a : tiles a a []
  | tiles_cons a m b rs : (a < m)%nat -> tiles m b rs -> tiles a b ((a, m) :: rs).

Lemma tiles_le a b rs : tiles a b rs -> (a <= b)%nat.
Proof. induction 1; lia. Qed.

Lemma tiles_app a m b rs rs' : tiles a m rs -> tiles m b rs' -> tiles a b (rs ++ rs').
Proof. induction 1; cbn; [done |]. intros. constructor; auto. Qed.

Lemma tiles_ranges a b rs : tiles a b rs -> Forall (fun r => (a <= r.1 < r.2 /\ r.2 <= b)%nat) rs.
Proof.
  induction 1 as [|a m b rs Hlt Ht IH]; constructor; [cbn; pose proof (tiles_le _ _ _ Ht); lia |].
  eapply Forall_impl; [exact IH |]. intros r Hr. cbn in Hr. lia.
Qed.

Lemma tiles_sorted a b rs p : tiles a b rs -> StronglySorted (fun r r' => (r.2 <= r'.1)%nat) (List.filter p rs).
Proof.
  induction 1 as [|a m b rs Hlt Ht IH]; cbn [List.filter]; [constructor |]. destruct (p (a, m)); [| done].
  constructor; [done |]. pose proof (tiles_ranges _ _ _ Ht) as Hr. rewrite Forall_forall in *. intros r Hin.
  apply list_elem_of_In, filter_In in Hin as [Hin _]. apply list_elem_of_In in Hin. cbn. specialize (Hr r Hin). lia.
Qed.

Lemma tiles_covers a b rs i : tiles a b rs -> (a <= i < b)%nat -> exists r, r ∈ rs /\ (r.1 <= i < r.2)%nat.
Proof.
  induction 1 as [|a m b rs Hlt Ht IH]; intros Hi; [lia |]. destruct (decide (i < m)%nat).
  - exists (a, m). split; [by left | cbn; lia].
  - destruct IH as (r & Hr & Hri); [lia |]. exists r. split; [by right | done].
Qed.

Lemma fixed_ranges_tiles fuel size start stop :
  (1 <= size)%nat -> (start <= stop)%nat -> (stop - start <= fuel)%nat ->
  tiles start stop (fixed_ranges fuel size start stop)
  /\ Forall (fun r => (r.2 - r.1 <= size)%nat) (fixed_ranges fuel size start stop).
Proof.
  intros Hs. revert start. induction fuel as [|fuel IH]; intros start Hle Hf; cbn [fixed_ranges].
  - replace stop with start by lia. split; constructor.
  - destruct (Nat.ltb_spec start stop) as [Hlt|Hge]; [| replace stop with start by lia; split; constructor].
    destruct (decide (start + size <= stop)%nat) as [Hin|Hout].
    + destruct (IH (start + size)%nat Hin ltac:(lia)) as [H1 H2]. rewrite Nat.min_l by lia.
      split; [constructor; [lia | done] | constructor; [cbn; lia | done]].
    + rewrite Nat.min_r by lia.
      assert (E : fixed_ranges fuel size (start + size) stop = []).
      { destruct fuel; cbn [fixed_ranges]; [done |]. by rewrite (proj2 (Nat.ltb_ge _ _)) by lia. }
      rewrite E. split; [constructor; [done | constructor] | constructor; [cbn; lia | constructor]].
Qed.

(** ** Blank text *)

Lemma trim_start_empty s : trim_start s = [] <-> forallb is_space s = true.
Proof. induction s as [|c s IH]; cbn; [done |]. destruct (is_space c); cbn; [done |]. by split. Qed.

Lemma blank_line_spec s : blank_line s = forallb is_space s.
Proof.
  unfold blank_line, trim, trim_end.
  assert (Hrev : forall l, forallb is_space (reverse l) = forallb is_space l).
  { intros l. induction l as [|c l IH]; [done |]. rewrite reverse_cons, forallb_app, IH. cbn. rewrite andb_true_r. apply andb_comm. }
  apply eq_true_iff_eq. rewrite is_empty_true. split.
  - intros H. apply (f_equal reverse) in H. rewrite reverse_involutive in H. change (reverse []) with (@nil Z) in H.
    apply trim_start_empty in H. rewrite Hrev in H.
    induction s as [|c s IH]; [done |]. cbn [trim_start] in H. destruct (is_space c) eqn:E; [| done]. cbn [forallb]. rewrite E. by apply IH.
  - intros H. apply trim_start_empty in H as ->. done.
Qed.

Lemma blank_join ls : blank_line (join nl ls) = forallb blank_line ls.
Proof.
  rewrite blank_line_spec. induction ls as [|l ls IH]; [done |].
  destruct ls as [|k ls]; [cbn [join forallb]; by rewrite blank_line_spec, andb_true_r |].
  rewrite join_cons2, !forallb_app, IH, <- (blank_line_spec l). done.
Qed.

Lemma has_text_line lines r i l : lines !! i = Some l -> (r.1 <= i < r.2)%nat -> blank_line l = false -> has_text lines r = true.
Proof.
  intros Hl Hi Hb. unfold has_text. rewrite blank_join. apply negb_true_iff, not_true_iff_false. rewrite forallb_forall. intros H.
  specialize (H l). rewrite H in Hb; [done |]. apply list_elem_of_In. unfold line_range. apply list_elem_of_lookup.
  exists (i - r.1)%nat. rewrite lookup_take_lt, lookup_drop by lia. by replace (r.1 + (i - r.1))%nat with i by lia.
Qed.

(** ** The chunks of a file *)

Definition chunk_range (c : Chunk) : nat * nat := (pred (ck_startLine c), ck_endLine c).

(** The chunks are the ranges of a tiling that hold text. *)
Definition chunks_of (lines : list jsstr) (size a b : nat) (cs : list Chunk) : Prop :=
  exists rs, tiles a b rs /\ Forall (fun r => (r.2 - r.1 <= size)%nat) rs
    /\ map chunk_range cs = List.filter (has_text lines) rs
    /\ Forall (fun c => ck_startLine c <> O /\ ck_text c = join nl (line_range lines (pred (ck_startLine c)) (ck_endLine c))) cs.

Lemma chunks_of_app lines size a m b cs cs' :
  chunks_of lines size a m cs -> chunks_of lines size m b cs' -> chunks_of lines size a b (cs ++ cs').
Proof.
  intros (rs & H1 & H2 & H3 & H4) (rs' & H1' & H2' & H3' & H4'). exists (rs ++ rs').
  rewrite map_app, List.filter_app, H3, H3', !Forall_app. split_and!; auto. by eapply tiles_app.
Qed.

Lemma chunks_of_fixed lines size fuel start stop sym typ :
  (1 <= size)%nat -> (start <= stop)%nat -> (stop - start <= fuel)%nat ->
  chunks_of lines size start stop
    (map (fun r => chunk_of lines (sym r) typ r) (List.filter (has_text lines) (fixed_ranges fuel size start stop))).
Proof.
  intros Hs Hle Hf. destruct (fixed_ranges_tiles fuel size start stop Hs Hle Hf) as [H1 H2].
  exists (fixed_ranges fuel size start stop). split_and!; [done.. | |].
  - rewrite map_map. rewrite <- (map_id (List.filter _ _)) at 2. apply map_ext. by intros [].
  - apply Forall_forall. intros c Hc. apply list_elem_of_In, in_map_iff in Hc as (r & <- & _). done.
Qed.

Lemma chunks_of_weaken lines size size' a b cs : (size <= size')%nat -> chunks_of lines size a b cs -> chunks_of lines size' a b cs.
Proof. intros Hle (rs & H1 & H2 & H3 & H4). exists rs. split_and!; auto. eapply Forall_impl; [exact H2 |]. cbn. lia. Qed.

Section Cover.
Context (extractSymbol : jsstr -> jsstr -> jsstr) (detectChunkType : jsstr -> jsstr).
Context (lines : list jsstr) (language : jsstr) (size limit : nat) (Hsize : (1 <= size)%nat).
Local Abbreviation top := (Nat.max size limit).

Lemma section_chunks_of start stop :
  (start < stop)%nat -> chunks_of lines top start stop (section_chunks extractSymbol detectChunkType lines language size limit start stop).
Proof.
  intros Hlt. unfold section_chunks. destruct (Nat.ltb_spec limit (stop - start)) as [Hbig|Hsmall].
  - apply (chunks_of_weaken _ size); [lia |]. apply (chunks_of_fixed lines size (stop - start) start stop (fun r => _)); lia.
  - exists [(start, stop)]. split_and!; [constructor; [done | constructor] | repeat constructor; cbn; lia | |];
      cbn [List.filter]; destruct (has_text lines (start, stop)); repeat constructor. done.
Qed.

(** Boundaries that increase. *)
Inductive rising : nat -> nat -> list nat -> Prop :=
  | rising_last a : rising a a [a]
  | rising_cons a m b bs : (a < m)%nat -> rising m b bs -> rising a b (a :: bs).

Lemma rising_head a b bs : rising a b bs -> exists bs', bs = a :: bs'.
Proof. intros []; eauto. Qed.

Lemma boundary_chunks_of a b bs :
  rising a b bs -> chunks_of lines top a b (boundary_chunks extractSymbol detectChunkType lines language size limit bs).
Proof.
  induction 1 as [a|a m b bs Hlt Hr IH].
  - exists []. repeat constructor.
  - destruct (rising_head _ _ _ Hr) as [bs' ->]. cbn [boundary_chunks].
    apply (chunks_of_app _ _ _ m); [by apply section_chunks_of | exact IH].
Qed.

Lemma later_boundaries_rising raw total : forall current,
  Forall (fun r => (r < total)%nat) raw -> (current < total)%nat ->
  rising current total (current :: later_boundaries lines current raw ++ [total])
  /\ last (current :: later_boundaries lines current raw) <> Some total.
Proof.
  induction raw as [|r raw IH]; intros current Hraw Hc; cbn [later_boundaries].
  - split; [constructor 2 with (m := total); [done | constructor] | cbn; intros [= ?]; lia].
  - apply Forall_cons in Hraw as [Hr Hraw]. pose proof (skipLeadingComments_le lines r). cbv zeta.
    destruct (Nat.ltb_spec current (skipLeadingComments lines r)); [| by apply IH].
    destruct (IH (skipLeadingComments lines r) Hraw ltac:(lia)) as [H1 H2]. cbn [app]. split; [econstructor; eauto | done].
Qed.

Lemma symbol_boundaries_rising raw total :
  Forall (fun r => (r < total)%nat) raw -> (0 < total)%nat -> rising 0 total (symbol_boundaries lines total raw).
Proof.
  intros Hraw Ht. destruct (later_boundaries_rising raw total 0%nat Hraw Ht) as [H1 H2].
  unfold symbol_boundaries. by rewrite bool_decide_false.
Qed.

Lemma chunkFile_of patterns content :
  lines = file_lines content ->
  chunks_of lines top 0 (length lines) (chunkFile extractSymbol detectChunkType patterns content language size limit).
Proof.
  intros Hl. unfold chunkFile. rewrite <- Hl. destruct (Nat.eqb_spec (length lines) 0) as [E|E].
  { rewrite E. exists []. repeat constructor. }
  destruct (patterns language) as [pattern|].
  - apply boundary_chunks_of, symbol_boundaries_rising; [apply raw_boundaries_below | lia].
  - apply (chunks_of_weaken _ size); [lia |].
    apply (chunks_of_fixed lines size (length lines) 0 (length lines) (fun _ => [])); lia.
Qed.
End Cover.

Lemma sorted_by_range cs :
  Forall (fun c => ck_startLine c <> O) cs ->
  StronglySorted (fun r r' : nat * nat => (r.2 <= r'.1)%nat) (map chunk_range cs) ->
  StronglySorted (fun c d => (ck_endLine c < ck_startLine d)%nat) cs.
Proof.
  induction 1 as [|c cs Hc Hcs IH]; cbn [map]; intros Hs; [constructor |]. apply StronglySorted_inv in Hs as [Hs Hf].
  constructor; [auto |]. apply Forall_forall. intros d Hd.
  pose proof (proj1 (Forall_forall _ _) Hcs d Hd) as H0.
  pose proof (proj1 (Forall_forall _ _) Hf (chunk_range d) (list_elem_of_fmap_2 chunk_range cs d Hd)) as Hle. cbn in H0, Hle. lia.
Qed.

(** C29: The index misses no code: whatever the patterns of the languages, every line of a
    file that is not blank lies in a chunk; the chunks follow one another without
    overlap, hold exactly the lines their numbers say, and none has more lines than the
    limits allow. *)
Theorem chunks_cover extractSymbol detectChunkType patterns content language defaultChunkLines maxChunkLines :
  (1 <= defaultChunkLines)%nat ->
  let lines := file_lines content in
  let cs := chunkFile extractSymbol detectChunkType patterns content language defaultChunkLines maxChunkLines in
  Forall (fun c => (1 <= ck_startLine c <= ck_endLine c)%nat /\ (ck_endLine c <= length lines)%nat
                   /\ ck_text c = join nl (line_range lines (pred (ck_startLine c)) (ck_endLine c))
                   /\ (S (ck_endLine c) - ck_startLine c <= Nat.max defaultChunkLines maxChunkLines)%nat) cs
  /\ StronglySorted (fun c d => (ck_endLine c < ck_startLine d)%nat) cs
  /\ forall i l, lines !! i = Some l -> blank_line l = false -> exists c, c ∈ cs /\ (ck_startLine c <= S i <= ck_endLine c)%nat.
Proof.
  intros Hs lines cs.
  destruct (chunkFile_of extractSymbol detectChunkType lines language defaultChunkLines maxChunkLines Hs patterns content eq_refl)
    as (rs & Ht & Hsz & Hmap & Hok). fold cs in Hmap, Hok.
  assert (Hin : forall c, c ∈ cs -> chunk_range c ∈ rs).
  { intros c Hc. assert (H : chunk_range c ∈ map chunk_range cs) by (by apply list_elem_of_fmap_2).
    rewrite Hmap in H. apply list_elem_of_In, filter_In in H as [H _]. by apply list_elem_of_In. }
  pose proof (proj1 (Forall_forall _ _) (tiles_ranges _ _ _ Ht)) as Hr.
  pose proof (proj1 (Forall_forall _ _) Hsz) as Hsz'. pose proof (proj1 (Forall_forall _ _) Hok) as Hok'.
  clear Hsz Hok. rename Hsz' into Hsz. rename Hok' into Hok. split_and!.
  - apply Forall_forall. intros c Hc. specialize (Hr _ (Hin c Hc)). specialize (Hsz _ (Hin c Hc)).
    destruct (Hok c Hc) as [H0 Htext]. cbn in Hr, Hsz. split_and!; [lia | lia | lia | done | lia].
  - apply sorted_by_range; [apply Forall_forall; intros c Hc; by apply Hok |]. rewrite Hmap. by eapply tiles_sorted.
  - intros i l Hl Hb. destruct (tiles_covers _ _ _ i Ht) as (r & Hrin & Hri); [apply lookup_lt_Some in Hl; lia |].
    assert (H : r ∈ map chunk_range cs).
    { rewrite Hmap. apply list_elem_of_In, filter_In. split; [by apply list_elem_of_In | by apply (has_text_line _ _ i l)]. }
    apply list_elem_of_fmap in H as (c & -> & Hc). exists c. split; [done |]. destruct (Hok c Hc) as [H0 _]. cbn in Hri. lia.
Qed.

(** ** Samples *)
Module ChunkSample.

(** Declarations begin with [fn]; the pattern is the one of a toy language. *)
Fixpoint line_starts (lines : list jsstr) (offset : nat) : list symbol_match :=
  match lines with
  | [] => []
  | l :: lines' =>
      let rest := line_starts lines' (offset + length l + 1) in
      if starts_with (js "fn ") l then (offset, js "fn ") :: rest else rest
  end.

Definition patterns (language : jsstr) : option (jsstr -> list symbol_match) :=
  if bool_decide (language = js "toy") then Some (fun content => line_starts (split_on 10 content) 0) else None.

Definition source : jsstr :=
  join nl (map js ["use a;"; ""; "// first"; "fn one {"; "}"; ""; "/* second"; " */"; "fn two {"; "}"; ""]%string).

Definition sample_chunks : list Chunk := chunkFile (fun l _ => l) (fun _ => js "function") patterns source (js "toy") 2 3.

(** The comments stay with their functions; the long function is cut in two. *)
Example sample_ranges : map (fun c => (ck_startLine c, ck_endLine c)) sample_chunks = [(1, 2); (3, 4); (5, 6); (7, 8); (9, 10)]%nat.
Proof. vm_compute. reflexivity. Qed.

Lemma chunks_cover_witness : exists c, c ∈ sample_chunks /\ (ck_startLine c <= 9 <= ck_endLine c)%nat.
Proof.
  destruct (chunks_cover (fun l _ => l) (fun _ => js "function") patterns source (js "toy") 2 3 ltac:(lia)) as (_ & _ & H).
  apply (H 8%nat (js "fn two {")); vm_compute; reflexivity.
Defined.

End ChunkSample.
