(* ===== verification/RunBudget.v ===== *)
(** The task budget, [packages/coding-agent/src/core/run-budget/ledger.ts] and
    [run-budget-policy.ts]: model calls are admitted against a limit on requests, tokens
    or cost and settled with the usage they report.  Several ledgers, in one process or
    in many, share one record, which [RunBudgetStorage.update] changes under a lock; what
    the file system makes of an update is an input.  JavaScript numbers are a class:
    token and request counts are safe integers and so integers here, costs are doubles. *)
From S2P Require Import Prelude JsString Effects.

(** ** Numbers *)

Class JsNumber (N : Type) := {
  n_int : Z -> N;
  n_safe : N -> option Z;                (** the value when [Number.isSafeInteger] *)
  n_add : N -> N -> N;
  n_mul : N -> N -> N;
  n_div : N -> N -> N;
  n_finite : N -> bool;
  n_leb : N -> N -> bool;
  n_eqb : N -> N -> bool;
}.

Definition MAX_SAFE_INTEGER : Z := 2 ^ 53 - 1.
Definition safe_int (z : Z) : bool := (- MAX_SAFE_INTEGER <=? z) && (z <=? MAX_SAFE_INTEGER).

Section Numbers.
Context {N : Type} `{JsNumber N}.

Definition n_zero : N := n_int 0.
Definition n_max (a b : N) : N := if n_leb a b then b else a.

(** ** Data *)

Inductive budget_unit := unit_requests | unit_tokens | unit_usd.

(** A policy as it is given, and once it is valid. *)
Inductive raw_policy := RawUnlimited | RawLimited (unit : budget_unit) (limit : N).
Inductive RunBudgetPolicy :=
  | Unlimited
  | LimitedRequests (limit : Z)
  | LimitedTokens (limit : Z)
  | LimitedUsd (limit : N).

Definition validateRunBudgetPolicy (p : raw_policy) : result jsstr RunBudgetPolicy :=
  let invalid := Throw (js "Invalid run budget policy: limits must be positive, finite, and whole for requests/tokens") in
  match p with
  | RawUnlimited => Ok Unlimited
  | RawLimited unit limit =>
      if negb (n_finite limit) || n_leb limit n_zero then invalid
      else match unit, n_safe limit with
           | unit_usd, _ => Ok (LimitedUsd limit)
           | unit_requests, Some z => Ok (LimitedRequests z)
           | unit_tokens, Some z => Ok (LimitedTokens z)
           | _, None => invalid
           end
  end.

Inductive budget_error := budget_required | budget_exhausted | budget_uncertain | budget_pricing_required | budget_storage_error.

Record RunBudgetState := mkBudget {
  bs_policy : RunBudgetPolicy;
  bs_requests : Z;
  bs_tokens : Z;
  bs_usd : N;
  bs_pending : list nat;
  bs_uncertainTokens : bool;
  bs_uncertainUsd : bool;
}.

Definition new_budget (policy : RunBudgetPolicy) : RunBudgetState := mkBudget policy 0 0 n_zero [] false false.

Record token_rates := mkRates { tr_input : N; tr_output : N; tr_cacheRead : N; tr_cacheWrite : N }.
Record usage_cost := mkUsageCost { uc_input : N; uc_output : N; uc_cacheRead : N; uc_cacheWrite : N; uc_total : N }.
Record call_usage := mkCallUsage {
  cu_input : N; cu_output : N; cu_cacheRead : N; cu_cacheWrite : N; cu_totalTokens : N; cu_cost : usage_cost;
}.

Inductive call_kind := kind_text | kind_image.
Inductive token_accounting := tokens_reported | tokens_unsupported.
Inductive usd_accounting := usd_reported | usd_model_rates | usd_unsupported.
Record ModelCallAccounting := mkAccounting { ac_tokens : token_accounting; ac_usd : usd_accounting }.
Record ModelCallAdmission := mkAdmission { ma_kind : call_kind; ma_rates : token_rates; ma_accounting : option ModelCallAccounting }.

(** ** Costs *)

Definition isValidCost (value : N) : bool := n_finite value && n_leb n_zero value.
Definition hasValidRates (r : token_rates) : bool :=
  forallb isValidCost [tr_input r; tr_output r; tr_cacheRead r; tr_cacheWrite r].

(** The number of tokens of a usage whose counts are consistent. *)
Definition hasConsistentTokenCounts (u : call_usage) : option Z :=
  match n_safe (cu_input u), n_safe (cu_output u), n_safe (cu_cacheRead u), n_safe (cu_cacheWrite u), n_safe (cu_totalTokens u) with
  | Some i, Some o, Some r, Some w, Some t =>
      if forallb (Z.leb 0) [i; o; r; w; t] && safe_int (i + o + r + w) && (t =? i + o + r + w) then Some t else None
  | _, _, _, _, _ => None
  end.

Definition resolveProviderComputedCost (u : option call_usage) : option N :=
  match u with
  | None => None
  | Some u =>
      let c := cu_cost u in
      let components := [uc_input c; uc_output c; uc_cacheRead c; uc_cacheWrite c] in
      if negb (forallb isValidCost components) || negb (isValidCost (uc_total c)) then None
      else let total := foldl n_add n_zero components in
           if n_finite total && n_eqb (uc_total c) total then Some total else None
  end.

(** The price of a usage at the rates of the model. *)
Definition priced_cost (u : option call_usage) (rates : token_rates) : option N :=
  match u with
  | Some u =>
      if hasValidRates rates then
        Some (n_div (n_add (n_add (n_add (n_mul (cu_input u) (tr_input rates)) (n_mul (cu_output u) (tr_output rates)))
                                  (n_mul (cu_cacheRead u) (tr_cacheRead rates)))
                           (n_mul (cu_cacheWrite u) (tr_cacheWrite rates)))
                    (n_int 1000000))
      else None
  | None => None
  end.

(** Nothing at all was reported. *)
Definition zero_report (u : call_usage) : bool :=
  let c := cu_cost u in
  n_eqb (cu_totalTokens u) n_zero
  && forallb (fun x => n_eqb x n_zero) [uc_input c; uc_output c; uc_cacheRead c; uc_cacheWrite c; uc_total c].

Definition valid_cost (v : option N) : option N := match v with Some c => if isValidCost c then Some c else None | None => None end.

Definition resolveUsdCost (usage : option call_usage) (rates : token_rates) (accounting : ModelCallAccounting) (kind : call_kind)
    (reportedUsd : option N) : option N :=
  let inconsistent := match usage with Some u => bool_decide (hasConsistentTokenCounts u = None) | None => false end in
  match ac_usd accounting with
  | usd_unsupported => None
  | usd_model_rates =>
      if inconsistent then None
      else match valid_cost (priced_cost usage rates) with
           | None => None
           | Some priced =>
               match kind with
               | kind_image => Some priced
               | kind_text =>
                   if match usage with Some u => zero_report u | None => false end then None
                   else match resolveProviderComputedCost usage with
                        | None => None
                        | Some providerComputed => Some (n_max priced providerComputed)
                        end
               end
           end
  | usd_reported =>
      if inconsistent then None
      else match valid_cost reportedUsd with
           | None => None
           | Some reported =>
               match valid_cost (priced_cost usage rates) with
               | Some priced => Some (n_max reported priced)
               | None => Some reported
               end
           end
  end.

(** [None]: the declaration is refused by [validateModelCallAccounting]. *)
Definition validateModelCallAccounting (a : ModelCallAccounting) : option ModelCallAccounting :=
  match ac_tokens a, ac_usd a with tokens_unsupported, usd_model_rates => None | _, _ => Some a end.

Definition resolveAccounting (call : ModelCallAdmission) : option ModelCallAccounting :=
  match ma_kind call with
  | kind_text => Some (mkAccounting tokens_reported usd_model_rates)
  | kind_image => validateModelCallAccounting (default (mkAccounting tokens_unsupported usd_unsupported) (ma_accounting call))
  end.

(** ** The ledger *)

Definition problem (storageFailed : bool) (st : RunBudgetState) : option budget_error :=
  let no_pending := is_empty (bs_pending st) in
  if storageFailed then Some budget_storage_error
  else match bs_policy st with
       | Unlimited => None
       | LimitedRequests limit => if limit <=? bs_requests st then Some budget_exhausted else None
       | LimitedTokens limit =>
           if limit <=? bs_tokens st then Some budget_exhausted
           else if bs_uncertainTokens st || negb no_pending then Some budget_uncertain else None
       | LimitedUsd limit =>
           if n_leb limit (bs_usd st) then Some budget_exhausted
           else if bs_uncertainUsd st || negb no_pending then Some budget_uncertain else None
       end.

Inductive budget_status := status_ready | status_exhausted | status_uncertain.

Record RunBudgetSnapshot := mkBudgetSnapshot {
  sn_policy : RunBudgetPolicy;
  sn_requests : Z;
  sn_tokens : Z;
  sn_usd : N;
  sn_pending : nat;
  sn_uncertainTokens : bool;
  sn_uncertainUsd : bool;
  sn_status : budget_status;
  sn_reason : option budget_error;
}.

(** The snapshot of a record that was read; [sn_reason] is the error whose message is the
    reason. *)
Definition budget_snapshot (storageFailed : bool) (st : RunBudgetState) : RunBudgetSnapshot :=
  let waiting := negb (is_empty (bs_pending st)) in
  let p := problem storageFailed st in
  mkBudgetSnapshot (bs_policy st) (bs_requests st) (bs_tokens st) (bs_usd st) (length (bs_pending st))
    (bs_uncertainTokens st || waiting) (bs_uncertainUsd st || waiting)
    (match p with Some budget_exhausted => status_exhausted | Some _ => status_uncertain | None => status_ready end) p.

(** The negation of [>] between a rate and zero. *)
Definition not_positive (x : N) : bool := n_leb x n_zero.

Definition requireUsdAccounting (call : ModelCallAdmission) (accounting : ModelCallAccounting) : option budget_error :=
  let rates := ma_rates call in
  match ac_usd accounting with
  | usd_unsupported => Some budget_pricing_required
  | usd =>
      if negb (hasValidRates rates) then Some budget_pricing_required
      else match usd with
           | usd_reported => None
           | _ =>
               let usableRates :=
                 match ma_kind call with
                 | kind_text => negb (not_positive (tr_input rates)) && negb (not_positive (tr_output rates))
                 | kind_image => negb (not_positive (tr_input rates)) || negb (not_positive (tr_output rates))
                 end in
               if usableRates then None else Some budget_pricing_required
           end
  end.

(** The change [admit] makes to the record. *)
Definition admit_change (storageFailed : bool) (id : nat) (call : ModelCallAdmission) (accounting : ModelCallAccounting) (st : RunBudgetState)
  : result budget_error RunBudgetState :=
  match problem storageFailed st with
  | Some e => Throw e
  | None =>
      let refused :=
        match bs_policy st, ac_tokens accounting with
        | LimitedTokens _, tokens_unsupported => Some budget_pricing_required
        | LimitedUsd _, _ => requireUsdAccounting call accounting
        | _, _ => None
        end in
      match refused with
      | Some e => Throw e
      | None =>
          if negb (safe_int (bs_requests st + 1)) then Throw budget_uncertain
          else Ok (mkBudget (bs_policy st) (bs_requests st + 1) (bs_tokens st) (bs_usd st) (bs_pending st ++ [id])
                     (bs_uncertainTokens st) (bs_uncertainUsd st))
      end
  end.

(** The change [settle] makes. *)
Definition settle_change (id : nat) (usage : option call_usage) (rates : token_rates) (accounting : ModelCallAccounting) (kind : call_kind)
    (reportedUsd : option N) (st : RunBudgetState) : RunBudgetState :=
  if bool_decide (id ∈ bs_pending st) then
    let pending := filter (fun p => p <> id) (bs_pending st) in
    let '(tokens, uncertainTokens) :=
      match usage ≫= hasConsistentTokenCounts with
      | Some t => if (t <=? 0) || negb (safe_int (bs_tokens st + t)) then (bs_tokens st, true) else (bs_tokens st + t, bs_uncertainTokens st)
      | None => (bs_tokens st, true)
      end in
    let '(usd, uncertainUsd) :=
      match resolveUsdCost usage rates accounting kind reportedUsd with
      | Some cost => if n_finite (n_add (bs_usd st) cost) then (n_add (bs_usd st) cost, bs_uncertainUsd st) else (bs_usd st, true)
      | None => (bs_usd st, true)
      end in
    mkBudget (bs_policy st) (bs_requests st) tokens usd pending uncertainTokens uncertainUsd
  else st.

End Numbers.
Arguments raw_policy : clear implicits.
Arguments RunBudgetState : clear implicits.
Arguments RunBudgetPolicy : clear implicits.
Arguments ModelCallAdmission : clear implicits.
Arguments call_usage : clear implicits.
Arguments token_rates : clear implicits.

(** ** Ledgers on one record *)

Section System.
Context {N : Type} `{JsNumber N}.
Local Abbreviation state := (RunBudgetState N).
Local Abbreviation admission := (ModelCallAdmission N).
Local Abbreviation usage := (call_usage N).

(** What becomes of an update under the lock: the record cannot be read; it is read but
    not replaced; it is replaced and something fails after that; or all goes well. *)
Inductive update_outcome := NotRead | NotPublished | Unconfirmed | Stored.

Definition update_record (outcome : update_outcome) (change : state -> result budget_error state) (st : state)
  : result budget_error unit * state :=
  match outcome with
  | NotRead => (Throw budget_storage_error, st)
  | _ =>
      match change st with
      | Throw e => (Throw e, st)
      | Ok st' =>
          match outcome with
          | Stored => (Ok tt, st')
          | Unconfirmed => (Throw budget_storage_error, st')
          | _ => (Throw budget_storage_error, st)
          end
      end
  end.

(** A receipt and, once it was settled, what it was settled with. *)
Record budget_receipt := mkReceipt {
  rc_id : nat;
  rc_ledger : nat;
  rc_call : admission;
  rc_accounting : ModelCallAccounting;
  rc_settlement : option (option usage * option N);
}.

(** The record, the ledgers with [storageFailed], the receipts, and the next id:
    [randomUUID] makes up a new one each time. *)
Record budget_system := mkSystem {
  sy_record : state;
  sy_failed : list nat;
  sy_receipts : list budget_receipt;
  sy_next : nat;
}.

Inductive budget_event :=
  | BudgetAdmit (ledger : nat) (call : admission) (outcome : update_outcome)
  | BudgetSettle (receipt : nat) (settlement : option usage * option N) (outcome : update_outcome)
  | BudgetPolicy (ledger : nat) (policy : raw_policy N) (outcome : update_outcome).

(** An error of the budget, or of the arguments. *)
Inductive budget_failure := Refused (e : budget_error) | InvalidArgument.
Definition refused (r : result budget_error unit) : result budget_failure unit :=
  match r with Ok u => Ok u | Throw e => Throw (Refused e) end.

Definition storage_failed (sy : budget_system) (ledger : nat) : bool := bool_decide (ledger ∈ sy_failed sy).

Definition settle_receipt (s : option usage * option N) (r : budget_receipt) : budget_receipt :=
  mkReceipt (rc_id r) (rc_ledger r) (rc_call r) (rc_accounting r) (Some s).

Definition settled_state (r : budget_receipt) (s : option usage * option N) (st : state) : state :=
  settle_change (rc_id r) s.1 (ma_rates (rc_call r)) (rc_accounting r) (ma_kind (rc_call r)) s.2 st.

Definition budget_step (sy : budget_system) (e : budget_event) : result budget_failure unit * budget_system :=
  match e with
  | BudgetAdmit ledger call outcome =>
      let id := sy_next sy in
      match resolveAccounting call with
      | None => (Throw InvalidArgument, mkSystem (sy_record sy) (sy_failed sy) (sy_receipts sy) (S id))
      | Some accounting =>
          let '(r, st) := update_record outcome (admit_change (storage_failed sy ledger) id call accounting) (sy_record sy) in
          let receipts := match r with Ok _ => sy_receipts sy ++ [mkReceipt id ledger call accounting None] | Throw _ => sy_receipts sy end in
          (refused r, mkSystem st (sy_failed sy) receipts (S id))
      end
  | BudgetSettle i settlement outcome =>
      match sy_receipts sy !! i with
      | None => (Ok tt, sy)
      | Some receipt =>
          match rc_settlement receipt with
          | Some _ => (Ok tt, sy)
          | None =>
              let '(r, st) := update_record outcome (fun st => Ok (settled_state receipt settlement st)) (sy_record sy) in
              let failed := match r with Ok _ => sy_failed sy | Throw _ => rc_ledger receipt :: sy_failed sy end in
              (refused r, mkSystem st failed (alter (settle_receipt settlement) i (sy_receipts sy)) (sy_next sy))
          end
      end
  | BudgetPolicy ledger raw outcome =>
      match validateRunBudgetPolicy raw with
      | Throw _ => (Throw InvalidArgument, sy)
      | Ok policy =>
          let '(r, st) := update_record outcome
            (fun st => Ok (mkBudget policy (bs_requests st) (bs_tokens st) (bs_usd st) (bs_pending st) (bs_uncertainTokens st) (bs_uncertainUsd st)))
            (sy_record sy) in
          let failed := match r with Ok _ => filter (fun k => k <> ledger) (sy_failed sy) | Throw _ => sy_failed sy end in
          (refused r, mkSystem st failed (sy_receipts sy) (sy_next sy))
      end
  end.

Definition start_system (policy : RunBudgetPolicy N) : budget_system := mkSystem (new_budget policy) [] [] 0.

Inductive budget_reachable (policy : RunBudgetPolicy N) : budget_system -> Prop :=
  | budget_start : budget_reachable policy (start_system policy)
  | budget_next sy e : budget_reachable policy sy -> budget_reachable policy (budget_step sy e).2.

(** ** What the record accounts for *)

(** The tokens and the cost of a settled call, when they are known. *)
Definition receipt_tokens (r : budget_receipt) : option Z :=
  match rc_settlement r with
  | Some (Some u, _) => match hasConsistentTokenCounts u with Some t => if t <=? 0 then None else Some t | None => None end
  | _ => None
  end.

Definition receipt_cost (r : budget_receipt) : option N :=
  match rc_settlement r with
  | Some (u, reported) => resolveUsdCost u (ma_rates (rc_call r)) (rc_accounting r) (ma_kind (rc_call r)) reported
  | None => None
  end.

(** The receipts whose settlement is in the record. *)
Definition recorded (sy : budget_system) : list budget_receipt :=
  filter (fun r => rc_id r ∉ bs_pending (sy_record sy)) (sy_receipts sy).

Record budget_inv (sy : budget_system) : Prop := {
  bi_fresh : Forall (fun id => (id < sy_next sy)%nat) (bs_pending (sy_record sy));
  bi_ids : Forall (fun r => (rc_id r < sy_next sy)%nat) (sy_receipts sy);
  bi_unique : NoDup (map rc_id (sy_receipts sy));
  bi_open : Forall (fun r => rc_settlement r = None -> rc_id r ∈ bs_pending (sy_record sy)) (sy_receipts sy);
  bi_requests : (length (sy_receipts sy) <= Z.to_nat (bs_requests (sy_record sy)))%nat /\ 0 <= bs_requests (sy_record sy);
  bi_tokens : bs_uncertainTokens (sy_record sy) = false ->
    exists order ts, order ≡ₚ recorded sy /\ map receipt_tokens order = map Some ts /\ bs_tokens (sy_record sy) = sumZ ts;
  bi_usd : bs_uncertainUsd (sy_record sy) = false ->
    exists order costs, order ≡ₚ recorded sy /\ map receipt_cost order = map Some costs
      /\ bs_usd (sy_record sy) = foldl n_add n_zero costs;
}.

End System.
