(* ===== verification/RunBudgetProps.v ===== *)
(** Properties of the task budget ([RunBudget.v]). *)
From S2P Require Import Prelude JsString Effects RunBudget.

Section Props.
Context {N : Type} `{JsNumber N}.
Local Abbreviation system := (@budget_system N).
Local Abbreviation state := (RunBudgetState N).
Local Abbreviation receipt := (@budget_receipt N).

(** ** Recorded receipts *)

Lemma filter_same {A} (P Q : A -> Prop) `{forall x, Decision (P x)} `{forall x, Decision (Q x)} (l : list A) :
  (forall x, x ∈ l -> P x <-> Q x) -> filter P l = filter Q l.
Proof.
  induction l as [|x l IH]; intros Hl; [done |]. assert (IH' : filter P l = filter Q l) by (apply IH; intros y Hy; apply Hl; by right).
  assert (Hx : P x <-> Q x) by (apply Hl; by left).
  destruct (decide (P x)); [rewrite !filter_cons_True | rewrite !filter_cons_False]; rewrite ?IH'; tauto || done.
Qed.

Definition recorded_in (pending : list nat) (rs : list receipt) : list receipt := filter (fun r => rc_id r ∉ pending) rs.

(** A new id in the pending list changes nothing. *)
Lemma recorded_new_pending pending id (rs : list receipt) :
  Forall (fun r => (rc_id r < id)%nat) rs -> recorded_in (pending ++ [id]) rs = recorded_in pending rs.
Proof.
  intros Hl. apply filter_same. intros r Hr. rewrite Forall_forall in Hl. specialize (Hl r Hr). cbn in Hl.
  rewrite elem_of_app, list_elem_of_singleton. split; [tauto |]. intros Hn [?|?]; [done | lia].
Qed.

Lemma recorded_pending_receipt pending rs r :
  rc_id r ∈ pending -> recorded_in pending (rs ++ [r]) = recorded_in pending rs.
Proof. intros Hr. unfold recorded_in. rewrite filter_app, (filter_cons_False _ r) by tauto. by rewrite filter_nil, app_nil_r. Qed.

(** Settling a receipt in the record. *)
Lemma recorded_settled pending l1 r l2 s :
  NoDup (map rc_id (l1 ++ r :: l2)) -> rc_id r ∈ pending ->
  recorded_in (filter (fun p => p <> rc_id r) pending) (l1 ++ settle_receipt s r :: l2)
  ≡ₚ settle_receipt s r :: recorded_in pending (l1 ++ r :: l2).
Proof.
  intros Hnd Hr. assert (Hother : forall x, x ∈ l1 ++ l2 -> rc_id x <> rc_id r).
  { intros x Hx Heq. rewrite map_app in Hnd. cbn in Hnd. apply NoDup_app in Hnd as (_ & Hd & [Hn _]%NoDup_cons).
    apply elem_of_app in Hx as [Hx|Hx].
    - apply (Hd (rc_id x)); [by apply list_elem_of_fmap_2 | rewrite Heq; by left].
    - apply Hn. rewrite <- Heq. by apply list_elem_of_fmap_2. }
  unfold recorded_in. rewrite !filter_app.
  rewrite (filter_cons_True _ (settle_receipt s r)) by (cbn; rewrite list_elem_of_filter; tauto).
  rewrite (filter_cons_False _ r) by tauto.
  assert (Hsame : forall l : list receipt, (forall x, x ∈ l -> x ∈ l1 ++ l2) ->
            filter (fun x => rc_id x ∉ filter (fun p => p <> rc_id r) pending) l = filter (fun x => rc_id x ∉ pending) l).
  { intros l Hl. apply filter_same. intros x Hx. rewrite list_elem_of_filter. specialize (Hother x (Hl x Hx)). tauto. }
  rewrite !Hsame by (intros x Hx; apply elem_of_app; tauto). by rewrite Permutation_middle.
Qed.

Lemma recorded_unsettled pending l1 r l2 s :
  rc_id r ∈ pending -> recorded_in pending (l1 ++ settle_receipt s r :: l2) = recorded_in pending (l1 ++ r :: l2).
Proof. intros Hr. unfold recorded_in. rewrite !filter_app, !filter_cons_False by (cbn; tauto). done. Qed.

Lemma alter_middle {A} (f : A -> A) l1 x l2 : alter f (length l1) (l1 ++ x :: l2) = l1 ++ f x :: l2.
Proof. induction l1 as [|y l1 IH]; cbn; [done |]. f_equal. exact IH. Qed.

(** ** The invariant *)

Lemma budget_inv_start policy : budget_inv (start_system policy).
Proof.
  split; cbn; [constructor | constructor | constructor | constructor | lia | |]; intros _.
  - by exists [], [].
  - by exists [], [].
Qed.

(** The parts of the record that say what was accounted for. *)
Definition same_account (st st' : state) : Prop :=
  bs_tokens st' = bs_tokens st /\ bs_usd st' = bs_usd st /\ bs_uncertainTokens st' = bs_uncertainTokens st
  /\ bs_uncertainUsd st' = bs_uncertainUsd st.

Lemma budget_inv_keep (sy sy' : system) :
  budget_inv sy -> same_account (sy_record sy) (sy_record sy') -> recorded sy' = recorded sy ->
  Forall (fun id => (id < sy_next sy')%nat) (bs_pending (sy_record sy')) ->
  Forall (fun r => (rc_id r < sy_next sy')%nat) (sy_receipts sy') -> NoDup (map rc_id (sy_receipts sy')) ->
  Forall (fun r => rc_settlement r = None -> rc_id r ∈ bs_pending (sy_record sy')) (sy_receipts sy') ->
  (length (sy_receipts sy') <= Z.to_nat (bs_requests (sy_record sy')))%nat /\ 0 <= bs_requests (sy_record sy') ->
  budget_inv sy'.
Proof.
  intros [_ _ _ _ _ Ht Hu] (E1 & E2 & E3 & E4) Hrec H1 H2 H3 H4 H5. split; [done.. | |].
  - rewrite E3, E1, Hrec. done.
  - rewrite E4, E2, Hrec. done.
Qed.

(** An admission that is not refused. *)
Lemma admit_change_ok failed id call accounting (st st' : state) :
  admit_change failed id call accounting st = Ok st' ->
  problem failed st = None
  /\ st' = mkBudget (bs_policy st) (bs_requests st + 1) (bs_tokens st) (bs_usd st) (bs_pending st ++ [id])
            (bs_uncertainTokens st) (bs_uncertainUsd st).
Proof.
  unfold admit_change. destruct (problem failed st); [done |]. cbv zeta.
  match goal with |- context [match ?x with Some e => Throw e | None => _ end] => destruct x; [done |] end.
  destruct (negb _); [done |]. by intros [= <-].
Qed.

Lemma admit_inv (sy : system) ledger call outcome : budget_inv sy -> budget_inv (budget_step sy (BudgetAdmit ledger call outcome)).2.
Proof.
  intros Hinv. pose proof Hinv as [Hf Hi Hn Ho Hr _ _]. cbn [budget_step].
  assert (Hf' : Forall (fun id => (id < S (sy_next sy))%nat) (bs_pending (sy_record sy))) by (eapply Forall_impl; [exact Hf | cbn; lia]).
  assert (Hi' : Forall (fun r => (rc_id r < S (sy_next sy))%nat) (sy_receipts sy)) by (eapply Forall_impl; [exact Hi | cbn; lia]).
  assert (Hsame : budget_inv (mkSystem (sy_record sy) (sy_failed sy) (sy_receipts sy) (S (sy_next sy))))
    by (by apply (budget_inv_keep sy)).
  destruct (resolveAccounting call) as [accounting|]; [| done].
  destruct outcome; cbn [update_record snd]; [done | | |];
    destruct (admit_change _ _ _ _ _) as [st|e] eqn:Ea; cbn [snd]; try done.
  all: apply admit_change_ok in Ea as (_ & ->).
  - apply (budget_inv_keep sy); cbn; auto; [done | by apply recorded_new_pending | | | lia].
    + apply Forall_app. split; [done | repeat constructor; lia].
    + eapply Forall_impl; [exact Ho |]. cbn. intros r Hx Hs. apply elem_of_app. left. by apply Hx.
  - apply (budget_inv_keep sy); cbn; auto; [done | | | | | |].
    + change (recorded_in (bs_pending (sy_record sy) ++ [sy_next sy]) (sy_receipts sy ++ [mkReceipt (sy_next sy) ledger call accounting None])
              = recorded_in (bs_pending (sy_record sy)) (sy_receipts sy)).
      rewrite recorded_pending_receipt.
      * by apply recorded_new_pending.
      * cbn. apply elem_of_app. right. by left.
    + apply Forall_app. split; [done | repeat constructor; lia].
    + apply Forall_app. split; [done | repeat constructor; cbn; lia].
    + rewrite map_app. apply NoDup_app. split_and!; [done | | apply NoDup_singleton]. cbn. intros x Hx ->%list_elem_of_singleton.
      apply list_elem_of_fmap in Hx as (r & Hid & Hx). rewrite Forall_forall in Hi. specialize (Hi r Hx). cbn in Hi. lia.
    + apply Forall_app. split; [| repeat constructor; cbn; intros _; apply elem_of_app; right; by left].
      eapply Forall_impl; [exact Ho |]. cbn. intros r Hx Hs. apply elem_of_app. left. by apply Hx.
    + rewrite length_app. cbn. lia.
Qed.

(** Nothing but the policy changes. *)
Lemma policy_inv (sy : system) ledger raw outcome : budget_inv sy -> budget_inv (budget_step sy (BudgetPolicy ledger raw outcome)).2.
Proof.
  intros Hinv. pose proof Hinv as [Hf Hi Hn Ho Hr _ _]. cbn [budget_step].
  destruct (validateRunBudgetPolicy raw); [| done].
  destruct outcome; cbn [update_record snd]; by apply (budget_inv_keep sy).
Qed.

(** ** Settlement *)

Lemma settle_change_pending id usage rates accounting kind reported (st : state) :
  id ∈ bs_pending st ->
  let st' := settle_change id usage rates accounting kind reported st in
  bs_policy st' = bs_policy st /\ bs_requests st' = bs_requests st /\ bs_pending st' = filter (fun p => p <> id) (bs_pending st)
  /\ (bs_uncertainTokens st' = false -> bs_uncertainTokens st = false
       /\ exists t, (usage ≫= hasConsistentTokenCounts) = Some t /\ 0 < t /\ bs_tokens st' = bs_tokens st + t)
  /\ (bs_uncertainUsd st' = false -> bs_uncertainUsd st = false
       /\ exists c, resolveUsdCost usage rates accounting kind reported = Some c /\ bs_usd st' = n_add (bs_usd st) c).
Proof.
  intros Hp. unfold settle_change. rewrite bool_decide_true by done. cbv zeta.
  destruct (usage ≫= hasConsistentTokenCounts) as [t|] eqn:Et.
  - destruct ((t <=? 0) || _) eqn:Es; destruct (resolveUsdCost _ _ _ _ _) as [c|]; try destruct (n_finite _);
      cbn; split_and!; try done; intros; try (split; [done |]; eauto).
    all: apply orb_false_iff in Es as [Es _]; apply Z.leb_gt in Es; eauto.
  - destruct (resolveUsdCost _ _ _ _ _) as [c|]; [destruct (n_finite _) |]; cbn; split_and!; try done; intros; split; eauto.
Qed.

Lemma map_Some_cons {A B} (f : A -> option B) x l b bs :
  f x = Some b -> map f l = map Some bs -> map f (x :: l) = map Some (b :: bs).
Proof. intros H1 H2. cbn. by rewrite H1, H2. Qed.

(** The settlement of a receipt that is open reaches the record. *)
Lemma settled_inv (sy : system) l1 r l2 s failed :
  budget_inv sy -> sy_receipts sy = l1 ++ r :: l2 -> rc_settlement r = None ->
  budget_inv (mkSystem (settled_state r s (sy_record sy)) failed (l1 ++ settle_receipt s r :: l2) (sy_next sy)).
Proof.
  intros [Hf Hi Hn Ho Hr Ht Hu] Hrs Hopen. rewrite Hrs in *.
  assert (Hp : rc_id r ∈ bs_pending (sy_record sy)) by (apply (proj1 (Forall_forall _ _) Ho r); [apply elem_of_app; right; by left | done]).
  destruct (settle_change_pending (rc_id r) s.1 (ma_rates (rc_call r)) (rc_accounting r) (ma_kind (rc_call r)) s.2 _ Hp)
    as (E1 & E2 & E3 & E4 & E5). fold (settled_state r s (sy_record sy)) in *.
  assert (Hperm : recorded (mkSystem (settled_state r s (sy_record sy)) failed (l1 ++ settle_receipt s r :: l2) (sy_next sy))
                  ≡ₚ settle_receipt s r :: recorded sy).
  { unfold recorded at 1. cbn. rewrite E3. unfold recorded. rewrite Hrs. by apply recorded_settled. }
  assert (Hids : map rc_id (l1 ++ settle_receipt s r :: l2) = map rc_id (l1 ++ r :: l2)) by (by rewrite !map_app).
  split; cbn [sy_record sy_receipts sy_next].
  - rewrite E3. apply Forall_forall. intros x [_ Hx]%list_elem_of_filter. by apply (proj1 (Forall_forall _ _) Hf).
  - apply Forall_app in Hi as [Hi1 Hi2]. apply Forall_cons in Hi2 as [Hi2 Hi3]. apply Forall_app. split; [done | by constructor].
  - by rewrite Hids.
  - apply Forall_forall. intros x Hx Hs. rewrite E3. apply list_elem_of_filter.
    assert (Hxr : x ∈ l1 ++ l2).
    { apply elem_of_app in Hx as [Hx|Hx]; [apply elem_of_app; by left |]. apply elem_of_cons in Hx as [-> | Hx]; [done |].
      apply elem_of_app. by right. }
    assert (Hxin : x ∈ l1 ++ r :: l2) by (apply elem_of_app in Hxr as [?|?]; apply elem_of_app; [by left | right; by right]).
    split; [| by apply (proj1 (Forall_forall _ _) Ho x)].
    intros Heq. rewrite map_app in Hn. cbn in Hn. apply NoDup_app in Hn as (_ & Hd & [Hn' _]%NoDup_cons).
    apply elem_of_app in Hxr as [Hx'|Hx'].
    + apply (Hd (rc_id x)); [by apply list_elem_of_fmap_2 | rewrite Heq; by left].
    + apply Hn'. rewrite <- Heq. by apply list_elem_of_fmap_2.
  - rewrite E2. rewrite !length_app in *. cbn in *. lia.
  - intros Hc. destruct (E4 Hc) as (Hc0 & t & Et & Hpos & ->). destruct (Ht Hc0) as (order & ts & Ho1 & Ho2 & ->).
    exists (settle_receipt s r :: order), (t :: ts). split_and!; [by rewrite Hperm, Ho1 | | cbn; lia].
    apply map_Some_cons; [| done]. unfold receipt_tokens. cbn. destruct s as [[u|] rep]; cbn in Et; [| done]. rewrite Et.
    by rewrite (proj2 (Z.leb_gt t 0)) by lia.
  - intros Hc. destruct (E5 Hc) as (Hc0 & c & Ec & ->). destruct (Hu Hc0) as (order & cs & Ho1 & Ho2 & ->).
    exists (order ++ [settle_receipt s r]), (cs ++ [c]). split_and!.
    + by rewrite Hperm, Ho1, Permutation_app_comm.
    + rewrite !map_app, Ho2. cbn. unfold receipt_cost. cbn. destruct s as [u rep]. cbn in Ec. by rewrite Ec.
    + by rewrite foldl_app.
Qed.

Lemma settle_inv (sy : system) i s outcome : budget_inv sy -> budget_inv (budget_step sy (BudgetSettle i s outcome)).2.
Proof.
  intros Hinv. cbn [budget_step]. destruct (sy_receipts sy !! i) as [r|] eqn:Ei; [| done].
  destruct (rc_settlement r) eqn:Es; [done |].
  apply list_elem_of_split_length in Ei as (l1 & l2 & Hrs & ->).
  pose proof Hinv as [Hf Hi Hn Ho Hr _ _].
  assert (Hp : rc_id r ∈ bs_pending (sy_record sy)).
  { apply (proj1 (Forall_forall _ _) Ho r); [rewrite Hrs; apply elem_of_app; right; by left | done]. }
  assert (Hkeep : forall failed, budget_inv (mkSystem (sy_record sy) failed (l1 ++ settle_receipt s r :: l2) (sy_next sy))).
  { intros failed. rewrite Hrs in *. apply (budget_inv_keep sy); cbn; auto; [done | | | | |].
    - unfold recorded. rewrite Hrs. cbn. by apply recorded_unsettled.
    - apply Forall_app in Hi as [Hi1 Hi2]. apply Forall_cons in Hi2 as [Hi2 Hi3]. apply Forall_app. split; [done | by constructor].
    - by rewrite !map_app in *.
    - apply Forall_app in Ho as [Ho1 Ho2]. apply Forall_cons in Ho2 as [Ho2 Ho3]. apply Forall_app. split; [done | by constructor].
    - rewrite !length_app in *. cbn in *. lia. }
  destruct outcome; cbn [update_record snd]; rewrite Hrs, alter_middle; auto; by apply settled_inv.
Qed.

Lemma budget_inv_reachable policy (sy : system) : budget_reachable policy sy -> budget_inv sy.
Proof.
  induction 1 as [|sy e _ IH]; [apply budget_inv_start |]. destruct e; [by apply admit_inv | by apply settle_inv | by apply policy_inv].
Qed.

(** ** Admission *)

Lemma recorded_all (sy : system) : bs_pending (sy_record sy) = [] -> recorded sy = sy_receipts sy.
Proof.
  intros Hp. unfold recorded. rewrite Hp. generalize (sy_receipts sy) as rs. intros rs. induction rs as [|r rs IH]; [done |].
  rewrite filter_cons_True by apply not_elem_of_nil. by rewrite IH.
Qed.

Lemma sumZ_Permutation l k : l ≡ₚ k -> sumZ l = sumZ k.
Proof. induction 1; cbn in *; lia. Qed.

Lemma admitted_record (sy sy' : system) ledger call outcome :
  budget_step sy (BudgetAdmit ledger call outcome) = (Ok tt, sy') -> problem (storage_failed sy ledger) (sy_record sy) = None.
Proof.
  cbn [budget_step]. destruct (resolveAccounting call) as [a|]; [| done].
  destruct outcome; cbn [update_record]; [done | | |];
    destruct (admit_change _ _ _ _ _) eqn:E; cbn; try done. by apply admit_change_ok in E as [? _].
Qed.

(** C6: The budget is respected, whatever the ledgers, settlements, failures of storage
    and changes of policy before.  When a call is admitted under a limit on requests,
    fewer calls than the limit have been admitted; under a limit on tokens, every call
    admitted before has been settled with a known number of tokens, and their sum is
    below the limit; under a limit on cost, likewise with the costs, added in the order
    of settlement.  So at most the last call exceeds the limit, and no call of unknown
    usage is taken to be free. *)
Theorem admission_accounted policy (sy sy' : system) ledger call outcome :
  budget_reachable policy sy -> budget_step sy (BudgetAdmit ledger call outcome) = (Ok tt, sy') ->
  match bs_policy (sy_record sy) with
  | Unlimited => True
  | LimitedRequests limit => Z.of_nat (length (sy_receipts sy)) < limit
  | LimitedTokens limit => exists ts, map receipt_tokens (sy_receipts sy) = map Some ts /\ sumZ ts < limit
  | LimitedUsd limit =>
      exists order costs, order ≡ₚ sy_receipts sy /\ map receipt_cost order = map Some costs
        /\ n_leb limit (foldl n_add n_zero costs) = false
  end.
Proof.
  intros Hreach Hstep%admitted_record. destruct (budget_inv_reachable _ _ Hreach) as [_ _ _ _ [Hr H0] Ht Hu].
  unfold problem in Hstep. destruct (storage_failed sy ledger); [done |].
  destruct (bs_policy (sy_record sy)) as [|limit|limit|limit].
  - done.
  - destruct (limit <=? _) eqn:E; bool_hyps; [done |]. lia.
  - destruct (limit <=? _) eqn:E; [done |]. apply Z.leb_gt in E.
    destruct (bs_uncertainTokens _); [done |]. destruct (bs_pending (sy_record sy)) eqn:Ep; [| done].
    destruct (Ht eq_refl) as (order & ts & Hperm & Hmap & Htok). rewrite recorded_all in Hperm by done.
    assert (Hp : map receipt_tokens (sy_receipts sy) ≡ₚ map Some ts) by (rewrite <- Hmap; by apply Permutation_map).
    apply Permutation_map_inv in Hp as (ts' & Hts' & Hp'). exists ts'. split; [done |]. rewrite <- (sumZ_Permutation _ _ Hp'). lia.
  - destruct (n_leb limit _) eqn:E; [done |]. destruct (bs_uncertainUsd _); [done |].
    destruct (bs_pending (sy_record sy)) eqn:Ep; [| done].
    destruct (Hu eq_refl) as (order & costs & Hperm & Hmap & Husd). rewrite recorded_all in Hperm by done.
    exists order, costs. by rewrite <- Husd.
Qed.

(** The status shown is what the next admission does: a text call without a limit on cost
    is admitted exactly when the status is ready, and otherwise refused for the reason
    shown. *)
Lemma snapshot_status_sound failed id call (st : RunBudgetState N) :
  ma_kind call = kind_text -> (forall limit, bs_policy st <> LimitedUsd limit) -> safe_int (bs_requests st + 1) = true ->
  forall a, resolveAccounting call = Some a ->
  match sn_status (budget_snapshot failed st), sn_reason (budget_snapshot failed st) with
  | status_ready, None => exists st', admit_change failed id call a st = Ok st'
  | status_exhausted, Some budget_exhausted => admit_change failed id call a st = Throw budget_exhausted
  | status_uncertain, Some e => admit_change failed id call a st = Throw e
  | _, _ => False
  end.
Proof.
  intros Hk Hp Hs a. unfold resolveAccounting. rewrite Hk. intros [= <-]. unfold admit_change. cbn.
  destruct (problem failed st) as [[]|]; try done. rewrite Hs.
  destruct (bs_policy st); cbn; eauto. by edestruct Hp.
Qed.

(** A settlement that could not be saved stops its ledger, until a policy is chosen and saved. *)
Lemma unsaved_settlement_stops (sy : system) i r s outcome e call outcome' :
  sy_receipts sy !! i = Some r -> (budget_step sy (BudgetSettle i s outcome)).1 = Throw e ->
  (budget_step (budget_step sy (BudgetSettle i s outcome)).2 (BudgetAdmit (rc_ledger r) call outcome')).1 <> Ok tt.
Proof.
  intros Hi Hs Ha. destruct (budget_step _ (BudgetAdmit _ _ _)) as [res sy'] eqn:E. cbn in Ha. subst res.
  apply admitted_record in E. unfold problem in E.
  assert (Hf : storage_failed (budget_step sy (BudgetSettle i s outcome)).2 (rc_ledger r) = true).
  { revert Hs. cbn [budget_step]. rewrite Hi. destruct (rc_settlement r); [done |].
    destruct outcome; cbn; try done; intros _; apply bool_decide_eq_true; by left. }
  by rewrite Hf in E.
Qed.

End Props.

(** ** A sample: exact costs *)
Module BudgetSample.

#[local] Instance exact_numbers : JsNumber Z := {
  n_int := id; n_safe z := if safe_int z then Some z else None; n_add := Z.add; n_mul := Z.mul; n_div := Z.div;
  n_finite _ := true; n_leb := Z.leb; n_eqb := Z.eqb;
}.

Definition rates : token_rates Z := mkRates 1000000 2000000 0 0.
Definition call : ModelCallAdmission Z := mkAdmission kind_text rates None.
Definition used (i o : Z) : call_usage Z := mkCallUsage i o 0 0 (i + o) (mkUsageCost i (2 * o) 0 0 (i + 2 * o)).

(** Two ledgers share a limit of fifty tokens. *)
Definition events : list budget_event :=
  [BudgetAdmit 0 call Stored; BudgetAdmit 1 call Stored; BudgetSettle 0 (Some (used 10 5), None) Stored;
   BudgetAdmit 1 call Stored; BudgetSettle 1 (Some (used 20 10), None) Stored].
Definition before_last : budget_system := foldl (fun sy e => (budget_step sy e).2) (start_system (LimitedTokens 50)) events.

Lemma reached : budget_reachable (LimitedTokens 50) before_last.
Proof. unfold before_last, events. cbn [foldl]. repeat apply budget_next. apply budget_start. Qed.

Lemma admission_accounted_witness : exists ts, map receipt_tokens (sy_receipts before_last) = map Some ts /\ sumZ ts < 50.
Proof.
  apply (admission_accounted (LimitedTokens 50) before_last (budget_step before_last (BudgetAdmit 0 call Stored)).2 0%nat call Stored);
    [exact reached | vm_compute; reflexivity].
Defined.

(** While a call is pending no other is admitted; an unknown usage stops the task. *)
Example pending_blocks :
  map (fun evs => (budget_step (foldl (fun sy e => (budget_step sy e).2) (start_system (LimitedTokens 50)) evs)
                    (BudgetAdmit 1 call Stored)).1)
    [[BudgetAdmit 0 call Stored];
     [BudgetAdmit 0 call Stored; BudgetSettle 0 (None, None) Stored];
     [BudgetAdmit 0 call Unconfirmed];
     [BudgetAdmit 0 call Stored; BudgetSettle 0 (Some (used 60 1), None) Stored]]
  = map (fun e => Throw (Refused e)) [budget_uncertain; budget_uncertain; budget_uncertain; budget_exhausted].
Proof. vm_compute. reflexivity. Qed.

End BudgetSample.
