(* ===== verification/VerificationLedger.v ===== *)
(** The verification ledger, [packages/coding-agent/src/core/verification-ledger.ts]: the
    commands that were run, which of them are required checks, and the gate that keeps
    [finish_work] from reporting success while a required check fails
    ([agent-session/agentsession-methods/runtime-build.ts]). *)
From S2P Require Import Prelude JsString.

Inductive VerificationStatus := passed | failed | unknown.

#[global] Instance status_eq_dec : EqDecision VerificationStatus.
Proof. solve_decision. Defined.

Record VerificationRecord := mkRecord {
  vr_command : jsstr;
  vr_required : bool;
  vr_exitCode : option Z;
  vr_signal : option jsstr;
  vr_truncated : bool;
  vr_fullLogPointer : option jsstr;
  vr_startedAt : jsstr;
  vr_finishedAt : jsstr;
  vr_status : VerificationStatus;
  vr_overrideReason : option jsstr;
}.

Definition REQUIRED_COMMANDS : list jsstr := map js ["./test.sh"; "npm run check"; "npm test"; "./reinstall.sh"]%string.

Definition isRequiredCommand (command : jsstr) : bool :=
  let trimmed := trim command in
  existsb (fun required => bool_decide (trimmed = required) || ends_with (js " " ++ required) trimmed) REQUIRED_COMMANDS.

Definition computeStatus (required : bool) (exitCode : option Z) (signal : option jsstr) : VerificationStatus :=
  match signal, exitCode with
  | Some _, _ => failed
  | None, None => unknown
  | None, Some code => if negb required then passed else if code =? 0 then passed else failed
  end.

(** The records are objects that the caller may hold; here they are named by their
    place. *)
Local Abbreviation ledger := (list VerificationRecord).

Definition record_command (now command : jsstr) (exitCode : option Z) (signal : option jsstr) (truncated : bool)
    (fullLogPointer : option jsstr) (l : ledger) : ledger :=
  let required := isRequiredCommand command in
  l ++ [mkRecord command required exitCode signal truncated fullLogPointer now now (computeStatus required exitCode signal) None].

Definition require_record (r : VerificationRecord) : VerificationRecord :=
  mkRecord (vr_command r) true (vr_exitCode r) (vr_signal r) (vr_truncated r) (vr_fullLogPointer r) (vr_startedAt r) (vr_finishedAt r)
    (computeStatus true (vr_exitCode r) (vr_signal r)) (vr_overrideReason r).

(** The first record of the command. *)
Definition markRequired (command : jsstr) (l : ledger) : ledger :=
  match find_index (fun r => bool_decide (vr_command r = command)) l with
  | Some i => alter require_record i l
  | None => l
  end.

Definition override_record (reason : jsstr) (r : VerificationRecord) : VerificationRecord :=
  mkRecord (vr_command r) (vr_required r) (vr_exitCode r) (vr_signal r) (vr_truncated r) (vr_fullLogPointer r) (vr_startedAt r)
    (vr_finishedAt r) passed (Some reason).
Definition override (i : nat) (reason : jsstr) (l : ledger) : ledger := alter (override_record reason) i l.

(** [map.set(key, value)]: in place, or at the end. *)
Fixpoint map_set (key : jsstr) (value : VerificationRecord) (m : list (jsstr * VerificationRecord)) : list (jsstr * VerificationRecord) :=
  match m with
  | [] => [(key, value)]
  | kv :: m' => if bool_decide (kv.1 = key) then (key, value) :: m' else kv :: map_set key value m'
  end.

Definition latestRequired (l : ledger) : list (jsstr * VerificationRecord) :=
  foldl (fun m r => if vr_required r then map_set (vr_command r) r m else m) [] l.

Record LedgerEvaluation := mkEvaluation { le_allPassed : bool; le_failures : list VerificationRecord; le_totalRecords : nat }.

Definition evaluate (l : ledger) : LedgerEvaluation :=
  let failures := filter (fun r => vr_status r = failed) (map snd (latestRequired l)) in
  mkEvaluation (is_empty failures) failures (length l).

Definition gate (l : ledger) : option LedgerEvaluation :=
  let evaluation := evaluate l in if le_allPassed evaluation then None else Some evaluation.

Definition latest (command : jsstr) (l : ledger) : option VerificationRecord :=
  last (filter (fun r => vr_command r = command) l).

(** [clear], and a new ledger. *)
Definition cleared : ledger := [].

Definition show_exit (code : option Z) : jsstr := match code with Some z => show z | None => js "undefined" end.

(** The check of [finish_work], given whether the status is success. *)
Definition finish_gate_check (success : bool) (l : ledger) : option jsstr :=
  if negb success then None
  else match gate l with
       | None => None
       | Some g =>
           Some (join nl
             ([js "Required verification checks failed. Cannot finish with success."; js "Failures:"]
              ++ map (fun f => js "  - " ++ vr_command f ++ js " (exit " ++ show_exit (vr_exitCode f) ++ js ")") (le_failures g)
              ++ [js "Run the failing commands or use status " ++ [34] ++ js "partial" ++ [34] ++ js " / " ++ [34] ++ js "failed" ++ [34] ++ js " to proceed."]))
       end.

(** ** Facts *)

Definition required_run (command : jsstr) (r : VerificationRecord) : Prop := vr_required r = true /\ vr_command r = command.
#[global] Instance required_run_dec command r : Decision (required_run command r).
Proof. apply and_dec; solve_decision. Defined.

(** The latest run of a required command. *)
Definition last_required (command : jsstr) (l : ledger) : option VerificationRecord := last (filter (required_run command) l).

Lemma map_set_keys key value m k : k ∈ map fst (map_set key value m) <-> k = key \/ k ∈ map fst m.
Proof.
  induction m as [|kv m IH]; cbn [map_set map fst]; [rewrite list_elem_of_singleton, elem_of_nil; tauto |].
  case_bool_decide as E; cbn [map fst]; rewrite !elem_of_cons; [subst; tauto | rewrite IH; tauto].
Qed.

Lemma map_set_NoDup key value m : NoDup (map fst m) -> NoDup (map fst (map_set key value m)).
Proof.
  induction m as [|kv m IH]; cbn [map_set map fst]; [intros _; apply NoDup_singleton |].
  intros [Hn Hd]%NoDup_cons. case_bool_decide as E; cbn [map fst]; apply NoDup_cons.
  - by rewrite <- E.
  - rewrite map_set_keys. split; [| by apply IH]. intros [?|?]; done.
Qed.

Lemma map_set_elem key value m kv :
  NoDup (map fst m) -> kv ∈ map_set key value m <-> kv = (key, value) \/ kv ∈ m /\ kv.1 <> key.
Proof.
  induction m as [|x m IH]; cbn [map_set map fst]; [rewrite list_elem_of_singleton, elem_of_nil; tauto |].
  intros [Hn Hd]%NoDup_cons. case_bool_decide as E; rewrite !elem_of_cons.
  - split; [intros [->|Hin]; [by left | right] |].
    + split; [by right |]. intros Hk. apply Hn. rewrite E, <- Hk. by apply list_elem_of_fmap_2.
    + intros [->|[[->|Hin] Hk]]; [by left | done | by right].
  - rewrite IH by done. split; [intros [->|[->|[? ?]]] | intros [->|[[->|?] ?]]]; auto.
Qed.

Lemma latestRequired_spec l :
  NoDup (map fst (latestRequired l)) /\ forall c r, (c, r) ∈ latestRequired l <-> last_required c l = Some r.
Proof.
  induction l as [|x l [IH1 IH2]] using rev_ind.
  - split; [apply NoDup_nil_2 |]. intros c r. rewrite elem_of_nil. by split.
  - unfold latestRequired, last_required in *. rewrite foldl_app. cbn [foldl]. destruct (vr_required x) eqn:Ex.
    + split; [by apply map_set_NoDup |]. intros c r. rewrite map_set_elem by done. cbn [fst]. rewrite filter_app.
      destruct (decide (vr_command x = c)) as [<-|Hc].
      * rewrite (filter_cons_True _ x) by done. rewrite filter_nil, last_snoc. split; [intros [[= ->]|[_ ?]] | intros [= ->]; left]; done.
      * rewrite (filter_cons_False _ x) by (by intros [_ ?]). rewrite filter_nil, app_nil_r, IH2.
        split; [intros [[= Hc' _]|[? _]]; [congruence | done] | intros ?; right; split; [done | congruence]].
    + split; [done |]. intros c r. rewrite filter_app, (filter_cons_False _ x), filter_nil, app_nil_r by (intros [? _]; congruence).
      apply IH2.
Qed.

(** The gate opens exactly when, of every command, the last record that is marked
    required is not failed, and otherwise names exactly those that are. So it does not
    ask that they passed: see [killed_check_passes]. *)
Theorem gate_spec l :
  (gate l = None <-> forall c r, last_required c l = Some r -> vr_status r <> failed)
  /\ forall g, gate l = Some g -> forall r, r ∈ le_failures g <-> exists c, last_required c l = Some r /\ vr_status r = failed.
Proof.
  destruct (latestRequired_spec l) as [_ H].
  assert (Hf : forall r, r ∈ le_failures (evaluate l) <-> exists c, last_required c l = Some r /\ vr_status r = failed).
  { intros r. cbn. rewrite list_elem_of_filter, list_elem_of_fmap. split.
    - intros (Hs & [c r'] & -> & Hin). exists c. by rewrite <- H.
    - intros (c & Hl & Hs). split; [done |]. exists (c, r). by rewrite H. }
  unfold gate. cbn [le_allPassed evaluate]. change (filter _ (map snd (latestRequired l))) with (le_failures (evaluate l)).
  destruct (is_empty (le_failures (evaluate l))) eqn:E.
  - apply is_empty_true in E. split; [split; [intros _ c r Hl Hs | done] | done].
    assert (Hin : r ∈ le_failures (evaluate l)) by (apply Hf; eauto). rewrite E in Hin. by apply elem_of_nil in Hin.
  - apply is_empty_false in E. split; [split; [done |] | by intros g [= <-]]. intros Hall. exfalso.
    destruct (le_failures (evaluate l)) as [|r rs] eqn:Er; [done |].
    destruct (proj1 (Hf r)) as (c & Hl & Hs); [by left |]. by apply (Hall c r).
Qed.

(** A required check that was killed counts neither as failed nor as passed, and so does
    not close the gate, even after a run that failed. *)
Example killed_check_passes :
  let run := record_command (js "now") (js "./test.sh") in
  gate (run None None false None (run (Some 1) None false None [])) = None
  /\ is_empty (le_failures (evaluate (run (Some 1) None false None []))) = false.
Proof. vm_compute. auto. Qed.
