(* ===== verification/TextEditing.v ===== *)
(** What the text fields of the terminal interface share: the kill ring and the undo
    stack ([packages/tui/src/kill-ring.ts], [undo-stack.ts]) and the movement by words
    ([word-navigation.ts]).  [Intl.Segmenter] is an interface with the laws the code
    relies on. *)
From S2P Require Import Prelude JsString StringSearch.

Lemma zlen_full {A} (l : list A) : l <> [] -> 0 < zlen l.
Proof. destruct l; [done |]. rewrite zlen_cons. pose proof (zlen_nonneg l). lia. Qed.

(** ** The kill ring: the latest entry is the last *)

Definition kill_push (text : jsstr) (prepend accumulate : bool) (ring : list jsstr) : list jsstr :=
  if is_empty text then ring
  else match accumulate, last ring with
       | true, Some top => removelast ring ++ [if prepend then text ++ top else top ++ text]
       | _, _ => ring ++ [text]
       end.

Definition kill_peek (ring : list jsstr) : option jsstr := last ring.

Definition kill_rotate (ring : list jsstr) : list jsstr :=
  match last ring with
  | Some top => if (1 <? length ring)%nat then top :: removelast ring else ring
  | None => ring
  end.

(** ** Killing, abstractly *)

(** The text before and after the cursor, the ring, and whether the last action was a
    kill. *)
Record kill_view := mkKillView { kv_before : jsstr; kv_after : jsstr; kv_ring : list jsstr; kv_killing : bool }.

(** A kill deletes nothing, or a text before or after the cursor, which joins the ring at
    its side. *)
Inductive kill_step (v : kill_view) : kill_view -> Prop :=
  | kill_nothing : kill_step v v
  | kill_before b t : kv_before v = b ++ t -> t <> [] ->
      kill_step v (mkKillView b (kv_after v) (kill_push t true (kv_killing v) (kv_ring v)) true)
  | kill_after t a : kv_after v = t ++ a -> t <> [] ->
      kill_step v (mkKillView (kv_before v) a (kill_push t false (kv_killing v) (kv_ring v)) true).

Lemma kill_push_top t prepend (ring : list jsstr) m :
  t <> [] -> last ring = Some m -> last (kill_push t prepend true ring) = Some (if prepend then t ++ m else m ++ t).
Proof. intros Ht Hm. unfold kill_push. apply is_empty_false in Ht. rewrite Ht, Hm. apply last_snoc. Qed.

Lemma kill_push_new t prepend (ring : list jsstr) : t <> [] -> last (kill_push t prepend false ring) = Some t.
Proof. intros Ht. unfold kill_push. apply is_empty_false in Ht. rewrite Ht. apply last_snoc. Qed.

Lemma kill_push_full t p acc (ring : list jsstr) : Forall (fun t => t <> []) ring -> Forall (fun t => t <> []) (kill_push t p acc ring).
Proof.
  intros Hr. unfold kill_push. destruct t as [|c t]; [done |]. cbn [is_empty].
  assert (Hn : Forall (fun t => t <> []) (ring ++ [c :: t])) by (apply Forall_app; split; [done | by constructor]).
  destruct acc; [| done]. destruct ring as [|x ring _] using rev_ind; [done |]. rewrite last_snoc, removelast_last.
  apply Forall_app in Hr as [Hr [Hx _]%Forall_cons]. apply Forall_app. split; [done |]. constructor; [| done]. destruct p; [done |]. by destruct x.
Qed.

(** The text before the kills is the one around the cursor with the top of the ring
    between. *)
Definition killed_from (text : jsstr) (v : kill_view) : Prop :=
  kv_killing v = true /\ exists m, m <> [] /\ last (kv_ring v) = Some m /\ text = kv_before v ++ m ++ kv_after v.

Lemma kill_starts v v' : kv_killing v = false -> kill_step v v' -> v' = v \/ killed_from (kv_before v ++ kv_after v) v'.
Proof.
  intros Hk [|b t Hb Ht|t a Ha Ht]; [by left | right | right]; (split; [done |]; exists t; cbn; rewrite Hk).
  - split_and!; [done | by apply kill_push_new | by rewrite Hb, <- app_assoc].
  - split_and!; [done | by apply kill_push_new | by rewrite Ha].
Qed.

Lemma kill_continues text v v' : killed_from text v -> kill_step v v' -> killed_from text v'.
Proof.
  intros [Hk (m & Hm & Hl & ->)] [|b t Hb Ht|t a Ha Ht]; [by split; [| exists m] | |]; (split; [done |]); cbn; rewrite Hk.
  - exists (t ++ m). split_and!; [by destruct t | by apply (kill_push_top t true) | by rewrite Hb, <- !app_assoc].
  - exists (m ++ t). split_and!; [by destruct m | by apply (kill_push_top t false) | by rewrite Ha, <- !app_assoc].
Qed.

(** Any number of kills after something else. *)
Lemma kills_gather v v' : rtc kill_step v v' -> kv_killing v = false -> v' = v \/ killed_from (kv_before v ++ kv_after v) v'.
Proof.
  intros Hs Hk. revert v' Hs. apply rtc_ind_r; [by left |].
  intros v' v'' _ Hstep [-> | IH]; [by apply kill_starts | right; by eapply kill_continues].
Qed.

(** ** The undo stack *)

Definition undo_push {S} (state : S) (stack : list S) : list S := stack ++ [state].
Definition undo_pop {S} (stack : list S) : option S * list S := (last stack, removelast stack).

(** ** Segments *)

Record segment := mkSegment { sg_text : jsstr; sg_wordLike : bool }.

(** [Intl.Segmenter] with the granularities grapheme and word. *)
Class Segmenter := {
  graphemes : jsstr -> list jsstr;
  words : jsstr -> list segment;
}.

(** [isWhitespaceChar] and [PUNCTUATION_REGEX]. *)
Definition isWhitespaceChar (char : jsstr) : bool := existsb is_space char.
Definition punctuation : jsstr := js "(){}[]<>.,;:'!?+-=*/\|&%^$#@~`" ++ [34].
Definition is_punctuation (c : Z) : bool := bool_decide (c ∈ punctuation).

(** Segments cover the text and are not empty; a segment that is like a word starts and
    ends with a letter, a digit or a connector, never with one of these marks. *)
Class SegmenterOk `{Segmenter} : Prop := {
  graphemes_cover s : concat (graphemes s) = s;
  graphemes_full s : Forall (fun g => g <> []) (graphemes s);
  words_cover s : concat (map sg_text (words s)) = s;
  words_full s : Forall (fun w => sg_text w <> []) (words s);
  words_trimmed s : Forall (fun w => sg_wordLike w = true ->
    exists c d r r', sg_text w = c :: r /\ sg_text w = r' ++ [d] /\ is_punctuation c = false /\ is_punctuation d = false) (words s);
}.

(** The length of the first or last grapheme, as the callers use it. *)
Definition first_length (gs : list jsstr) : Z := match gs with g :: _ => zlen g | [] => 1 end.
Definition last_length (gs : list jsstr) : Z := match last gs with Some g => zlen g | None => 1 end.

(** ** Movement by words *)

Section Words.
Variable segmentFn : jsstr -> list segment.
Variable isAtomic : jsstr -> bool.

Definition skips_space (w : segment) : bool := negb (isAtomic (sg_text w)) && isWhitespaceChar (sg_text w).
Definition skips_mark (w : segment) : bool :=
  negb (isAtomic (sg_text w)) && negb (sg_wordLike w) && negb (isWhitespaceChar (sg_text w)).

(** The segments after those that are skipped, and the units skipped. *)
Fixpoint skip_segments (skips : segment -> bool) (ws : list segment) : list segment * Z :=
  match ws with
  | w :: ws' => if skips w then let '(rest, n) := skip_segments skips ws' in (rest, zlen (sg_text w) + n) else (ws, 0)
  | [] => ([], 0)
  end.

(** The units before the first punctuation mark. *)
Fixpoint plain_run (s : jsstr) : Z :=
  match s with
  | c :: s' => if is_punctuation c then 0 else 1 + plain_run s'
  | [] => 0
  end.

(** How far the cursor moves over segments in the direction of movement; [run] says how
    many units of a word are skipped. *)
Definition word_distance (run : jsstr -> Z) (ws : list segment) : Z :=
  let '(ws, spaces) := skip_segments skips_space ws in
  match ws with
  | [] => spaces
  | w :: _ =>
      if isAtomic (sg_text w) then spaces + zlen (sg_text w)
      else if sg_wordLike w then spaces + run (sg_text w)
      else spaces + (skip_segments skips_mark ws).2
  end.

Definition findWordBackward (text : jsstr) (cursor : Z) : Z :=
  if cursor <=? 0 then 0
  else cursor - word_distance (fun s => plain_run (reverse s)) (reverse (segmentFn (slice_to text cursor))).

Definition findWordForward (text : jsstr) (cursor : Z) : Z :=
  if zlen text <=? cursor then zlen text
  else cursor + word_distance plain_run (segmentFn (slice_from text cursor)).

(** *** Bounds *)

Definition units (ws : list segment) : Z := zlen (concat (map sg_text ws)).

Lemma units_cons w ws : units (w :: ws) = zlen (sg_text w) + units ws.
Proof. unfold units. cbn [map concat]. by rewrite zlen_app. Qed.

Lemma units_reverse ws : units (reverse ws) = units ws.
Proof.
  induction ws as [|w ws IH]; [done |]. rewrite reverse_cons, units_cons. unfold units in *.
  rewrite map_app, concat_app, zlen_app, IH. cbn. rewrite app_nil_r. lia.
Qed.

Lemma skip_segments_units skips ws :
  units ws = (skip_segments skips ws).2 + units (skip_segments skips ws).1 /\ 0 <= (skip_segments skips ws).2.
Proof.
  induction ws as [|w ws IH]; cbn [skip_segments]; [done |]. destruct (skips w); [| cbn; lia].
  destruct (skip_segments skips ws) as [rest n]. cbn in *. rewrite units_cons. pose proof (zlen_nonneg (sg_text w)). lia.
Qed.

Lemma plain_run_bound s : 0 <= plain_run s <= zlen s.
Proof. induction s as [|c s IH]; [done |]. cbn [plain_run]. rewrite zlen_cons. destruct (is_punctuation c); lia. Qed.

Lemma word_distance_bound run ws : (forall s, 0 <= run s <= zlen s) -> 0 <= word_distance run ws <= units ws.
Proof.
  intros Hrun. unfold word_distance. pose proof (skip_segments_units skips_space ws) as [Hu Hn].
  destruct (skip_segments skips_space ws) as [rest n]. cbn [fst snd] in *. destruct rest as [|w rest].
  { change (units []) with 0 in Hu. lia. }
  pose proof (skip_segments_units skips_mark (w :: rest)) as [Hm Hm0].
  pose proof (Hrun (sg_text w)). pose proof (zlen_nonneg (sg_text w)).
  assert (0 <= units (skip_segments skips_mark (w :: rest)).1) by apply zlen_nonneg.
  assert (0 <= units rest) by apply zlen_nonneg. rewrite units_cons in Hu. rewrite units_cons in Hm.
  destruct (isAtomic (sg_text w)), (sg_wordLike w); lia.
Qed.

(** Something is skipped when there is something to skip. *)
Lemma word_distance_pos run ws :
  Forall (fun w => sg_text w <> []) ws -> (forall s, 0 <= run s <= zlen s) ->
  Forall (fun w => sg_wordLike w = true -> 0 < run (sg_text w)) ws -> ws <> [] -> 0 < word_distance run ws.
Proof.
  intros Hfull Hrun Hlike Hne. destruct ws as [|w ws]; [done |]. apply Forall_cons in Hfull as [Hw _]. apply Forall_cons in Hlike as [Hl _].
  apply zlen_full in Hw.
  unfold word_distance. cbn [skip_segments]. destruct (skips_space w) eqn:Es.
  - pose proof (skip_segments_units skips_space ws) as [_ Hn]. destruct (skip_segments skips_space ws) as [rest n]. cbn in Hn.
    destruct rest as [|w' rest]; [lia |]. pose proof (skip_segments_units skips_mark (w' :: rest)) as [_ Hm0].
    pose proof (Hrun (sg_text w')). pose proof (zlen_nonneg (sg_text w')).
    destruct (isAtomic (sg_text w')), (sg_wordLike w'); lia.
  - cbn [skip_segments]. unfold skips_mark at 1. unfold skips_space in Es.
    destruct (isAtomic (sg_text w)); [lia |]. destruct (sg_wordLike w); [specialize (Hl eq_refl); lia |]. cbn in Es. rewrite Es. cbn.
    pose proof (skip_segments_units skips_mark ws) as [_ Hm0]. destruct (skip_segments skips_mark ws). cbn in *. lia.
Qed.

End Words.

(** ** Slices at a cursor *)

Lemma slice_to_take s n : 0 <= n -> slice_to s n = take (Z.to_nat n) s.
Proof. intros Hn. unfold slice_to, slice_index. by rewrite (proj2 (Z.ltb_ge n 0) Hn). Qed.

Lemma slice_from_drop s n : 0 <= n -> slice_from s n = drop (Z.to_nat n) s.
Proof. intros Hn. unfold slice_from, slice_index. by rewrite (proj2 (Z.ltb_ge n 0) Hn). Qed.

Lemma slice_to_app (a b : jsstr) : slice_to (a ++ b) (zlen a) = a.
Proof. rewrite slice_to_take by apply zlen_nonneg. unfold zlen. rewrite Nat2Z.id. apply take_app_length. Qed.

Lemma slice_from_app (a b : jsstr) : slice_from (a ++ b) (zlen a) = b.
Proof. rewrite slice_from_drop by apply zlen_nonneg. unfold zlen. rewrite Nat2Z.id. apply drop_app_length. Qed.

(** A cursor within a text splits it. *)
Lemma cursor_split (s : jsstr) n : 0 <= n <= zlen s -> exists a b, s = a ++ b /\ n = zlen a.
Proof.
  intros Hn. exists (take (Z.to_nat n) s), (drop (Z.to_nat n) s). split; [by rewrite take_drop |].
  unfold zlen in *. rewrite length_take. lia.
Qed.

(** [s.slice(a, b)]. *)
Definition slice (s : jsstr) (a b : Z) : jsstr :=
  let i := slice_index s a in take (slice_index s b - i) (drop i s).

Lemma slice_mid (a t b : jsstr) : slice (a ++ t ++ b) (zlen a) (zlen (a ++ t)) = t.
Proof.
  unfold slice, slice_index. rewrite !(proj2 (Z.ltb_ge _ 0)) by apply zlen_nonneg. unfold zlen. rewrite !Nat2Z.id.
  rewrite drop_app_length, length_app. replace (length a + length t - length a)%nat with (length t) by lia. apply take_app_length.
Qed.

(** ** Segmentations *)

(** What movement needs of a segmentation. *)
Record segmenting (f : jsstr -> list segment) : Prop := {
  seg_some s : s <> [] -> f s <> [];
  seg_full s : Forall (fun w => sg_text w <> []) (f s);
  seg_units s : units (f s) <= zlen s;
  seg_trimmed s : Forall (fun w => sg_wordLike w = true ->
    exists c d r r', sg_text w = c :: r /\ sg_text w = r' ++ [d] /\ is_punctuation c = false /\ is_punctuation d = false) (f s);
}.

Lemma plain_run_pos c r : is_punctuation c = false -> 0 < plain_run (c :: r).
Proof. intros Hc. cbn. rewrite Hc. pose proof (plain_run_bound r). lia. Qed.

(** A movement backward from inside a text goes to an earlier place in it. *)
Lemma findWordBackward_bound f atomic a b : segmenting f -> a <> [] -> 0 <= findWordBackward f atomic (a ++ b) (zlen a) < zlen a.
Proof.
  intros Hf Ha. pose proof (zlen_full a Ha) as Hpos.
  unfold findWordBackward. rewrite (proj2 (Z.leb_gt _ _) Hpos), slice_to_app.
  assert (Hr : forall s, 0 <= plain_run (reverse s) <= zlen s).
  { intros s. pose proof (plain_run_bound (reverse s)). unfold zlen in *. rewrite length_reverse in *. done. }
  pose proof (word_distance_bound atomic _ (reverse (f a)) Hr) as Hb. rewrite units_reverse in Hb. pose proof (seg_units f Hf a).
  assert (0 < word_distance atomic (fun s => plain_run (reverse s)) (reverse (f a))); [| lia].
  apply word_distance_pos; [by apply Forall_reverse, seg_full | done |
    | by intros E%(f_equal reverse); rewrite reverse_involutive in E; apply (seg_some f Hf a)].
  apply Forall_reverse. eapply Forall_impl; [by apply seg_trimmed |]. intros w Hw Hl.
  destruct (Hw Hl) as (_ & d & _ & r' & _ & -> & _ & Hd). rewrite reverse_app. by apply plain_run_pos.
Qed.

Lemma findWordForward_bound f atomic a b : segmenting f -> b <> [] -> zlen a < findWordForward f atomic (a ++ b) (zlen a) <= zlen (a ++ b).
Proof.
  intros Hf Hb. pose proof (zlen_full b Hb) as Hpos.
  unfold findWordForward. rewrite zlen_app, slice_from_app. rewrite (proj2 (Z.leb_gt _ _)) by lia.
  pose proof (word_distance_bound atomic _ (f b) plain_run_bound) as Hw. pose proof (seg_units f Hf b).
  assert (0 < word_distance atomic plain_run (f b)); [| lia].
  apply word_distance_pos; [by apply seg_full | apply plain_run_bound | | by apply seg_some].
  eapply Forall_impl; [by apply seg_trimmed |]. intros w Hw' Hl.
  destruct (Hw' Hl) as (c & _ & r & _ & -> & _ & Hc & _). by apply plain_run_pos.
Qed.

Lemma last_length_bound f s : segmenting f -> s <> [] -> 0 < last_length (map sg_text (f s)) <= zlen s.
Proof.
  intros Hf Hs. pose proof (seg_units f Hf s) as Hu. pose proof (seg_full f Hf s) as Hfull. pose proof (seg_some f Hf s Hs) as Hne. unfold last_length.
  destruct (f s) as [|w ws _] eqn:E using rev_ind; [done |]. rewrite map_app. cbn [map]. rewrite last_snoc.
  apply Forall_app in Hfull as [_ [Hw _]%Forall_cons]. unfold units in Hu. rewrite map_app, concat_app in Hu. cbn in Hu. rewrite app_nil_r, zlen_app in Hu.
  pose proof (zlen_nonneg (concat (map sg_text ws))). apply zlen_full in Hw. lia.
Qed.

Lemma first_length_bound f s : segmenting f -> s <> [] -> 0 < first_length (map sg_text (f s)) <= zlen s.
Proof.
  intros Hf Hs. pose proof (seg_units f Hf s) as Hu. pose proof (seg_full f Hf s) as Hfull. pose proof (seg_some f Hf s Hs) as Hne.
  destruct (f s) as [|w ws] eqn:E; [done |]. cbn. apply Forall_cons in Hfull as [Hw _]. rewrite units_cons in Hu.
  assert (0 <= units ws) by apply zlen_nonneg. apply zlen_full in Hw. lia.
Qed.

(** ** With a segmenter *)
Section Segments.
Context `{SegmenterOk}.

Definition grapheme_segments (s : jsstr) : list segment := map (fun g => mkSegment g false) (graphemes s).

Lemma graphemes_segments s : map sg_text (grapheme_segments s) = graphemes s.
Proof. unfold grapheme_segments. rewrite map_map. apply map_id. Qed.

Lemma cover_some (f : jsstr -> list segment) s : concat (map sg_text (f s)) = s -> s <> [] -> f s <> [].
Proof. intros Hc Hs E. apply Hs. by rewrite <- Hc, E. Qed.

Lemma words_segmenting : segmenting words.
Proof.
  split; [intros s; apply cover_some, words_cover | apply words_full | | apply words_trimmed].
  intros s. unfold units. by rewrite words_cover.
Qed.

Lemma graphemes_segmenting : segmenting grapheme_segments.
Proof.
  split.
  - intros s. apply cover_some. rewrite graphemes_segments. apply graphemes_cover.
  - intros s. apply Forall_map, graphemes_full.
  - intros s. unfold units. by rewrite graphemes_segments, graphemes_cover.
  - intros s. apply Forall_map, Forall_true. done.
Qed.

Lemma last_grapheme_bound s : s <> [] -> 0 < last_length (graphemes s) <= zlen s.
Proof. rewrite <- graphemes_segments. apply last_length_bound, graphemes_segmenting. Qed.

Lemma first_grapheme_bound s : s <> [] -> 0 < first_length (graphemes s) <= zlen s.
Proof. rewrite <- graphemes_segments. apply first_length_bound, graphemes_segmenting. Qed.
End Segments.

(** ** A plain segmenter: every unit a grapheme, runs of letters as words *)

Definition letter (c : Z) : bool := (97 <=? c) && (c <=? 122).

(** Runs of letters and single other units. *)
Fixpoint runs (s : jsstr) : list segment :=
  match s with
  | [] => []
  | c :: s' =>
      match runs s' with
      | w :: ws => if letter c && sg_wordLike w then mkSegment (c :: sg_text w) true :: ws else mkSegment [c] (letter c) :: w :: ws
      | [] => [mkSegment [c] (letter c)]
      end
  end.

Definition plain_segmenter : Segmenter := {| graphemes := map (fun c => [c]); words := runs |}.

Definition segment_ok (w : segment) : Prop :=
  sg_text w <> [] /\ (sg_wordLike w = true -> Forall (fun c => letter c = true) (sg_text w)).

Lemma runs_ok s : concat (map sg_text (runs s)) = s /\ Forall segment_ok (runs s).
Proof.
  induction s as [|c s [IH1 IH2]]; [done |]. cbn [runs].
  assert (Hc : segment_ok (mkSegment [c] (letter c))) by (split; [done |]; cbn; intros E; by constructor).
  destruct (runs s) as [|w ws] eqn:E; [cbn in *; subst; split; [done | by constructor] |].
  destruct (letter c && sg_wordLike w) eqn:El; cbn in *; [| split; [by rewrite IH1 | by constructor]].
  apply andb_true_iff in El as [Hl Hw]. apply Forall_cons in IH2 as [[Hn Hf] Hws]. split; [by rewrite IH1 |].
  constructor; [| done]. split; [done |]. cbn. intros _. constructor; [done | by apply Hf].
Qed.

Lemma letter_plain c : letter c = true -> is_punctuation c = false.
Proof.
  intros Hl. apply bool_decide_eq_false. intros Hin%list_elem_of_In.
  assert (Hall : forallb (fun p => negb (letter p)) punctuation = true) by (vm_compute; reflexivity).
  apply (proj1 (forallb_forall _ _) Hall), negb_true_iff in Hin. congruence.
Qed.

Lemma plain_segmenter_ok : @SegmenterOk plain_segmenter.
Proof.
  split.
  - intros s. cbn. induction s as [|c s IH]; [done |]. cbn. by rewrite IH.
  - intros s. cbn. induction s; constructor; done.
  - intros s. apply runs_ok.
  - intros s. destruct (runs_ok s) as [_ Hf]. eapply Forall_impl; [apply Hf |]. by intros w [? _].
  - intros s. destruct (runs_ok s) as [_ Hf]. eapply Forall_impl; [apply Hf |]. intros w [Hne Hl] Hw. specialize (Hl Hw).
    destruct (sg_text w) as [|c r] eqn:E; [done |]. destruct (exists_last Hne) as (r' & d & Ed). exists c, d, r, r'.
    split_and!; [done | done | apply letter_plain; by apply Forall_cons in Hl as [? _] |].
    rewrite Ed in Hl. apply Forall_app in Hl as [_ [? _]%Forall_cons]. by apply letter_plain.
Qed.
