(* ===== verification/TextInput.v ===== *)
(** The one-line text field of the terminal interface, [packages/tui/src/components/input/],
    and the facts about it: the cursor stays inside the value, everything can be undone,
    and what was killed can be yanked back. *)
From S2P Require Import Prelude JsString StringSearch TextEditing.

Inductive edit_action := act_kill | act_yank | act_type_word.

#[global] Instance edit_action_eq_dec : EqDecision edit_action.
Proof. solve_decision. Defined.

(** Cursors are numbers of code units, as in the code: nothing keeps them from being
    negative. *)
Record Input := mkInput {
  in_value : jsstr;
  in_cursor : Z;
  in_scrollOffset : Z;
  in_pasteBuffer : jsstr;
  in_isInPaste : bool;
  in_killRing : list jsstr;
  in_lastAction : option edit_action;
  in_undoStack : list (jsstr * Z);
}.

Definition new_Input : Input := mkInput [] 0 0 [] false [] None [].

(** The fields that an operation assigns. *)
Definition set_text (value : jsstr) (cursor : Z) (st : Input) : Input :=
  mkInput value cursor (in_scrollOffset st) (in_pasteBuffer st) (in_isInPaste st) (in_killRing st) (in_lastAction st) (in_undoStack st).
Definition set_action (a : option edit_action) (st : Input) : Input :=
  mkInput (in_value st) (in_cursor st) (in_scrollOffset st) (in_pasteBuffer st) (in_isInPaste st) (in_killRing st) a (in_undoStack st).
Definition set_ring (ring : list jsstr) (st : Input) : Input :=
  mkInput (in_value st) (in_cursor st) (in_scrollOffset st) (in_pasteBuffer st) (in_isInPaste st) ring (in_lastAction st) (in_undoStack st).
Definition set_undo (stack : list (jsstr * Z)) (st : Input) : Input :=
  mkInput (in_value st) (in_cursor st) (in_scrollOffset st) (in_pasteBuffer st) (in_isInPaste st) (in_killRing st) (in_lastAction st) stack.
Definition set_paste (buffer : jsstr) (isInPaste : bool) (st : Input) : Input :=
  mkInput (in_value st) (in_cursor st) (in_scrollOffset st) buffer isInPaste (in_killRing st) (in_lastAction st) (in_undoStack st).
Definition set_scroll (offset : Z) (st : Input) : Input :=
  mkInput (in_value st) (in_cursor st) offset (in_pasteBuffer st) (in_isInPaste st) (in_killRing st) (in_lastAction st) (in_undoStack st).

Definition was (a : edit_action) (st : Input) : bool := bool_decide (in_lastAction st = Some a).

Definition pushUndo (st : Input) : Input := set_undo (undo_push (in_value st, in_cursor st) (in_undoStack st)) st.

(** [value.slice(0, cursor) + text + value.slice(cursor)], and the cursor after the text. *)
Definition insert_text (text : jsstr) (st : Input) : Input :=
  set_text (slice_to (in_value st) (in_cursor st) ++ text ++ slice_from (in_value st) (in_cursor st)) (in_cursor st + zlen text) st.

Section Editing.
Context `{Segmenter}.

Definition insertCharacter (char : jsstr) (st : Input) : Input :=
  let st := if isWhitespaceChar char || negb (was act_type_word st) then pushUndo st else st in
  insert_text char (set_action (Some act_type_word) st).

Definition handleBackspace (st : Input) : Input :=
  let st := set_action None st in
  if 0 <? in_cursor st then
    let st := pushUndo st in
    let n := last_length (graphemes (slice_to (in_value st) (in_cursor st))) in
    set_text (slice_to (in_value st) (in_cursor st - n) ++ slice_from (in_value st) (in_cursor st)) (in_cursor st - n) st
  else st.

Definition handleForwardDelete (st : Input) : Input :=
  let st := set_action None st in
  if in_cursor st <? zlen (in_value st) then
    let st := pushUndo st in
    let n := first_length (graphemes (slice_from (in_value st) (in_cursor st))) in
    set_text (slice_to (in_value st) (in_cursor st) ++ slice_from (in_value st) (in_cursor st + n)) (in_cursor st) st
  else st.

(** The entry of the kill ring for a deletion, and the action it leaves. *)
Definition killed (text : jsstr) (prepend accumulate : bool) (st : Input) : Input :=
  set_action (Some act_kill) (set_ring (kill_push text prepend accumulate (in_killRing st)) st).

Definition deleteToLineStart (st : Input) : Input :=
  if in_cursor st =? 0 then st
  else
    let st := pushUndo st in
    let st := killed (slice_to (in_value st) (in_cursor st)) true (was act_kill st) st in
    set_text (slice_from (in_value st) (in_cursor st)) 0 st.

Definition deleteToLineEnd (st : Input) : Input :=
  if zlen (in_value st) <=? in_cursor st then st
  else
    let st := pushUndo st in
    let st := killed (slice_from (in_value st) (in_cursor st)) false (was act_kill st) st in
    set_text (slice_to (in_value st) (in_cursor st)) (in_cursor st) st.

Definition moveWordBackwards (st : Input) : Input :=
  if in_cursor st =? 0 then st
  else set_text (in_value st) (findWordBackward words (fun _ => false) (in_value st) (in_cursor st)) (set_action None st).

Definition moveWordForwards (st : Input) : Input :=
  if zlen (in_value st) <=? in_cursor st then st
  else set_text (in_value st) (findWordForward words (fun _ => false) (in_value st) (in_cursor st)) (set_action None st).

Definition deleteWordBackwards (st : Input) : Input :=
  if in_cursor st =? 0 then st
  else
    let wasKill := was act_kill st in
    let st := pushUndo st in
    let oldCursor := in_cursor st in
    let st := moveWordBackwards st in
    let deleteFrom := in_cursor st in
    let st := set_text (in_value st) oldCursor st in
    let st := killed (slice (in_value st) deleteFrom (in_cursor st)) true wasKill st in
    set_text (slice_to (in_value st) deleteFrom ++ slice_from (in_value st) (in_cursor st)) deleteFrom st.

Definition deleteWordForward (st : Input) : Input :=
  if zlen (in_value st) <=? in_cursor st then st
  else
    let wasKill := was act_kill st in
    let st := pushUndo st in
    let oldCursor := in_cursor st in
    let st := moveWordForwards st in
    let deleteTo := in_cursor st in
    let st := set_text (in_value st) oldCursor st in
    let st := killed (slice (in_value st) (in_cursor st) deleteTo) false wasKill st in
    set_text (slice_to (in_value st) (in_cursor st) ++ slice_from (in_value st) deleteTo) (in_cursor st) st.

Definition yank (st : Input) : Input :=
  match kill_peek (in_killRing st) with
  | Some (c :: text) => set_action (Some act_yank) (insert_text (c :: text) (pushUndo st))
  | _ => st
  end.

Definition yankPop (st : Input) : Input :=
  if negb (was act_yank st) || (length (in_killRing st) <=? 1)%nat then st
  else
    let st := pushUndo st in
    let prevText := default [] (kill_peek (in_killRing st)) in
    let st := set_text (slice_to (in_value st) (in_cursor st - zlen prevText) ++ slice_from (in_value st) (in_cursor st))
                (in_cursor st - zlen prevText) st in
    let st := set_ring (kill_rotate (in_killRing st)) st in
    set_action (Some act_yank) (insert_text (default [] (kill_peek (in_killRing st))) st).

Definition undo (st : Input) : Input :=
  match undo_pop (in_undoStack st) with
  | (Some (value, cursor), rest) => set_action None (set_text value cursor (set_undo rest st))
  | (None, rest) => set_undo rest st
  end.

(** A paste without its line breaks, tabs as four spaces. *)
Definition clean_paste (text : jsstr) : jsstr :=
  flat_map (fun c => if (c =? 13) || (c =? 10) then [] else if c =? 9 then js "    " else [c]) text.

Definition handlePaste (pastedText : jsstr) (st : Input) : Input :=
  insert_text (clean_paste pastedText) (pushUndo (set_action None st)).

(** The loop of [setValue]: the start of the grapheme that holds the cursor. *)
Fixpoint grapheme_start (gs : list jsstr) (pos cursor : Z) : Z :=
  match gs with
  | g :: gs' => if cursor <? pos + zlen g then pos else grapheme_start gs' (pos + zlen g) cursor
  | [] => cursor
  end.

Definition setValue (value : jsstr) (st : Input) : Input :=
  let cursor := Z.min (in_cursor st) (zlen value) in
  let cursor := if (0 <? cursor) && (cursor <? zlen value) then grapheme_start (graphemes value) 0 cursor else cursor in
  set_scroll 0 (set_text value cursor st).

(** ** Keys *)

Inductive key_binding :=
  | kb_cancel | kb_undo | kb_submit
  | kb_deleteCharBackward | kb_deleteCharForward | kb_deleteWordBackward | kb_deleteWordForward
  | kb_deleteToLineStart | kb_deleteToLineEnd | kb_yank | kb_yankPop
  | kb_cursorLeft | kb_cursorRight | kb_cursorLineStart | kb_cursorLineEnd | kb_cursorWordLeft | kb_cursorWordRight.

Variable kb : jsstr -> key_binding -> bool.
Variable decodeKittyPrintable : jsstr -> option jsstr.

(** The callbacks of the owner. *)
Inductive input_call := onEscape | onSubmit (value : jsstr).

Definition paste_start : jsstr := 27 :: js "[200~".
Definition paste_end : jsstr := 27 :: js "[201~".

(** [data.replace(s, '')]: the first occurrence. *)
Definition remove_first (s data : jsstr) : jsstr :=
  match index_of s data with Some i => take i data ++ drop (i + length s) data | None => data end.

(** [CONTROL_CHAR_PATTERN]. *)
Definition is_control (c : Z) : bool := (c <=? 31) || (127 <=? c) && (c <=? 159).

Definition cursorLeft (st : Input) : Input :=
  let st := set_action None st in
  if 0 <? in_cursor st then
    set_text (in_value st) (in_cursor st - last_length (graphemes (slice_to (in_value st) (in_cursor st)))) st
  else st.

Definition cursorRight (st : Input) : Input :=
  let st := set_action None st in
  if in_cursor st <? zlen (in_value st) then
    set_text (in_value st) (in_cursor st + first_length (graphemes (slice_from (in_value st) (in_cursor st)))) st
  else st.

(** A key outside of a paste. *)
Definition handle_key (data : jsstr) (st : Input) : list input_call * Input :=
  if kb data kb_cancel then ([onEscape], st)
  else if kb data kb_undo then ([], undo st)
  else if kb data kb_submit || bool_decide (data = nl) then ([onSubmit (in_value st)], st)
  else if kb data kb_deleteCharBackward then ([], handleBackspace st)
  else if kb data kb_deleteCharForward then ([], handleForwardDelete st)
  else if kb data kb_deleteWordBackward then ([], deleteWordBackwards st)
  else if kb data kb_deleteWordForward then ([], deleteWordForward st)
  else if kb data kb_deleteToLineStart then ([], deleteToLineStart st)
  else if kb data kb_deleteToLineEnd then ([], deleteToLineEnd st)
  else if kb data kb_yank then ([], yank st)
  else if kb data kb_yankPop then ([], yankPop st)
  else if kb data kb_cursorLeft then ([], cursorLeft st)
  else if kb data kb_cursorRight then ([], cursorRight st)
  else if kb data kb_cursorLineStart then ([], set_text (in_value st) 0 (set_action None st))
  else if kb data kb_cursorLineEnd then ([], set_text (in_value st) (zlen (in_value st)) (set_action None st))
  else if kb data kb_cursorWordLeft then ([], moveWordBackwards st)
  else if kb data kb_cursorWordRight then ([], moveWordForwards st)
  else match decodeKittyPrintable data with
       | Some printable => ([], insertCharacter printable st)
       | None => ([], if existsb is_control data then st else insertCharacter data st)
       end.

(** What follows a paste is handled again; it is shorter than what was buffered. *)
Fixpoint handle_input (fuel : nat) (data : jsstr) (st : Input) : list input_call * Input :=
  match fuel with
  | O => ([], st)
  | S fuel' =>
      let '(data, st) :=
        match index_of paste_start data with
        | Some _ => (remove_first paste_start data, set_paste [] true st)
        | None => (data, st)
        end in
      if in_isInPaste st then
        let st := set_paste (in_pasteBuffer st ++ data) true st in
        match index_of paste_end (in_pasteBuffer st) with
        | Some endIndex =>
            let buffer := in_pasteBuffer st in
            let st := set_paste [] false (handlePaste (take endIndex buffer) st) in
            let remaining := drop (endIndex + 6) buffer in
            if is_empty remaining then ([], st) else handle_input fuel' remaining st
        | None => ([], st)
        end
      else handle_key data st
  end.

Definition handleInput (data : jsstr) (st : Input) : list input_call * Input :=
  handle_input (S (length (in_pasteBuffer st ++ data))) data st.

(** A sequence of inputs. *)
Definition typed (inputs : list jsstr) (st : Input) : Input := foldl (fun st data => (handleInput data st).2) st inputs.

End Editing.

(** The value before everything that can be undone. *)
Definition oldest (st : Input) : jsstr := match in_undoStack st with [] => in_value st | s :: _ => s.1 end.

(** The text that was yanked stands before the cursor. *)
Definition yanked (st : Input) : Prop :=
  exists a t b, last (in_killRing st) = Some t /\ in_value st = a ++ t ++ b /\ in_cursor st = zlen (a ++ t).

Record input_inv (v0 : jsstr) (st : Input) : Prop := {
  ii_cursor : 0 <= in_cursor st <= zlen (in_value st);
  ii_stack : Forall (fun s => 0 <= s.2 <= zlen s.1) (in_undoStack st);
  ii_ring : Forall (fun t => t <> []) (in_killRing st);
  ii_yank : in_lastAction st = Some act_yank -> yanked st;
  ii_first : oldest st = v0;
  ii_typing : in_lastAction st = Some act_type_word -> in_undoStack st <> [];
}.

(** *** Texts around the cursor *)

(** A place before or after the cursor splits the value in three. *)
Lemma split_before (a b : jsstr) n : 0 <= n < zlen a -> exists a' t, a = a' ++ t /\ n = zlen a' /\ t <> [].
Proof.
  intros Hn. destruct (cursor_split a n) as (a' & t & -> & ->); [lia |]. exists a', t. split_and!; [done.. |].
  rewrite zlen_app in Hn. intros ->. pose proof (@zlen_nil Z). lia.
Qed.

Lemma split_after (a b : jsstr) n : zlen a < n <= zlen (a ++ b) -> exists t b', b = t ++ b' /\ n = zlen (a ++ t) /\ t <> [].
Proof.
  rewrite zlen_app. intros Hn. destruct (cursor_split b (n - zlen a)) as (t & b' & -> & Ht); [lia |]. exists t, b'.
  rewrite zlen_app. split_and!; [done | lia |]. intros ->. pose proof (@zlen_nil Z). lia.
Qed.

Section Props.
Context `{SegmenterOk}.

(** *** What each deletion removes *)

Definition at_cursor (a b : jsstr) (st : Input) : Prop := in_value st = a ++ b /\ in_cursor st = zlen a.

Lemma at_cursor_exists st : 0 <= in_cursor st <= zlen (in_value st) -> exists a b, at_cursor a b st.
Proof. intros Hc. destruct (cursor_split _ _ Hc) as (a & b & Hv & Hn). by exists a, b. Qed.

(** A state after a change that can be undone. *)
Definition changed (st : Input) (value : jsstr) (cursor : Z) (ring : list jsstr) (action : option edit_action) : Input :=
  mkInput value cursor (in_scrollOffset st) (in_pasteBuffer st) (in_isInPaste st) ring action (in_undoStack st ++ [(in_value st, in_cursor st)]).

(** A state in which only the cursor moved. *)
Definition moved (st : Input) (cursor : Z) : Input := set_text (in_value st) cursor (set_action None st).

(** Operations as records of fields. *)
Ltac input_simpl :=
  unfold pushUndo, set_undo, set_text, set_action, set_ring, set_paste, set_scroll, killed, insert_text, undo_push, changed, moved in *;
  cbn [in_value in_cursor in_scrollOffset in_pasteBuffer in_isInPaste in_killRing in_lastAction in_undoStack] in *.

(** The deletions that fill the kill ring: nothing to delete, or a text before or after
    the cursor, added to the ring at its side. *)
Inductive kill_effect (a b : jsstr) (st : Input) : Input -> Prop :=
  | removes_nothing : kill_effect a b st st
  | removes_before a' t : a = a' ++ t -> t <> [] ->
      kill_effect a b st (changed st (a' ++ b) (zlen a') (kill_push t true (was act_kill st) (in_killRing st)) (Some act_kill))
  | removes_after t b' : b = t ++ b' -> t <> [] ->
      kill_effect a b st (changed st (a ++ b') (zlen a) (kill_push t false (was act_kill st) (in_killRing st)) (Some act_kill)).

Lemma cursor_zero (a : jsstr) : (zlen a =? 0) = is_empty a.
Proof. destruct a; [done |]. rewrite zlen_cons. pose proof (zlen_nonneg a). apply Z.eqb_neq. lia. Qed.

Lemma cursor_at_end (a b : jsstr) : (zlen (a ++ b) <=? zlen a) = is_empty b.
Proof.
  rewrite zlen_app. destruct b as [|c b]; [rewrite zlen_nil; apply Z.leb_le; lia |]. cbn.
  rewrite zlen_cons. pose proof (zlen_nonneg b). apply Z.leb_gt. lia.
Qed.

Lemma deleteToLineStart_effect a b st : at_cursor a b st -> kill_effect a b st (deleteToLineStart st).
Proof.
  intros [Hv Hc]. unfold deleteToLineStart. rewrite Hc, cursor_zero. destruct (is_empty a) eqn:E; [constructor |].
  apply is_empty_false in E. cbn. rewrite Hv, Hc, slice_to_app, slice_from_app.
  change 0 with (zlen (@nil Z)). rewrite <- (app_nil_l b) at 2. pose proof (removes_before a b st [] a eq_refl E) as Hk. unfold changed in Hk.
  exact Hk.
Qed.

Lemma deleteToLineEnd_effect a b st : at_cursor a b st -> kill_effect a b st (deleteToLineEnd st).
Proof.
  intros [Hv Hc]. unfold deleteToLineEnd. rewrite Hv, Hc, cursor_at_end. destruct (is_empty b) eqn:E; [constructor |].
  apply is_empty_false in E. cbn. rewrite Hv, Hc, slice_to_app, slice_from_app.
  pose proof (removes_after a b st b [] (eq_sym (app_nil_r b)) E) as Hk. rewrite app_nil_r in Hk. exact Hk.
Qed.

Lemma deleteWordBackwards_effect a b st : at_cursor a b st -> kill_effect a b st (deleteWordBackwards st).
Proof.
  intros [Hv Hc]. unfold deleteWordBackwards, moveWordBackwards. input_simpl. rewrite Hv, Hc, cursor_zero.
  destruct (is_empty a) eqn:E; [constructor |]. apply is_empty_false in E.
  destruct (split_before a b _ (findWordBackward_bound words (fun _ => false) a b words_segmenting E)) as (a' & t & Ha & Hn & Ht).
  pose proof (removes_before a b st a' t Ha Ht) as Hk. input_simpl. rewrite Hn, slice_from_app.
  assert (Hs : slice_to (a ++ b) (zlen a') = a') by (rewrite Ha, <- app_assoc; apply slice_to_app).
  assert (Hm : slice (a ++ b) (zlen a') (zlen a) = t) by (rewrite Ha, <- app_assoc; apply slice_mid).
  rewrite Hs, Hm. rewrite Hv, Hc in Hk. exact Hk.
Qed.

Lemma deleteWordForward_effect a b st : at_cursor a b st -> kill_effect a b st (deleteWordForward st).
Proof.
  intros [Hv Hc]. unfold deleteWordForward, moveWordForwards. input_simpl. rewrite Hv, Hc, cursor_at_end.
  destruct (is_empty b) eqn:E; [constructor |]. apply is_empty_false in E.
  destruct (split_after a b _ (findWordForward_bound words (fun _ => false) a b words_segmenting E)) as (t & b' & Hb & Hn & Ht).
  pose proof (removes_after a b st t b' Hb Ht) as Hk. input_simpl. rewrite Hn, slice_to_app.
  assert (Hs : slice_from (a ++ b) (zlen (a ++ t)) = b') by (rewrite Hb, app_assoc; apply slice_from_app).
  assert (Hm : slice (a ++ b) (zlen a) (zlen (a ++ t)) = t) by (rewrite Hb; apply slice_mid).
  rewrite Hs, Hm. rewrite Hv, Hc in Hk. exact Hk.
Qed.

(** *** Kills and yanks *)

Inductive kill_command := KillWordBackward | KillWordForward | KillLineStart | KillLineEnd.

Definition run_kill (st : Input) (k : kill_command) : Input :=
  match k with
  | KillWordBackward => deleteWordBackwards st
  | KillWordForward => deleteWordForward st
  | KillLineStart => deleteToLineStart st
  | KillLineEnd => deleteToLineEnd st
  end.

Lemma run_kill_effect a b st k : at_cursor a b st -> kill_effect a b st (run_kill st k).
Proof.
  intros Hc. destruct k; [by apply deleteWordBackwards_effect | by apply deleteWordForward_effect
    | by apply deleteToLineStart_effect | by apply deleteToLineEnd_effect].
Qed.

Lemma was_true x st : was x st = true <-> in_lastAction st = Some x.
Proof. apply bool_decide_eq_true. Qed.

(** The field, as the kills see it. *)
Definition input_view (st : Input) : kill_view :=
  mkKillView (slice_to (in_value st) (in_cursor st)) (slice_from (in_value st) (in_cursor st)) (in_killRing st) (was act_kill st).

Lemma input_view_at a b st : at_cursor a b st -> input_view st = mkKillView a b (in_killRing st) (was act_kill st).
Proof. intros [Hv Hc]. unfold input_view. by rewrite Hv, Hc, slice_to_app, slice_from_app. Qed.

Lemma kill_effect_step a b st st' :
  at_cursor a b st -> kill_effect a b st st' -> kill_step (input_view st) (input_view st') /\ exists a' b', at_cursor a' b' st'.
Proof.
  intros Hab Hk. rewrite (input_view_at a b) by done. destruct Hk as [|a' t -> Ht|t b' -> Ht].
  - split; [rewrite (input_view_at a b) by done; constructor | by exists a, b].
  - split; [| by exists a', b]. rewrite (input_view_at a' b) by done. by apply (kill_before (mkKillView (a' ++ t) b _ _)).
  - split; [| by exists a, b']. rewrite (input_view_at a b') by done. by apply (kill_after (mkKillView a (t ++ b') _ _)).
Qed.

Lemma kills_steps ks st :
  (exists a b, at_cursor a b st) ->
  rtc kill_step (input_view st) (input_view (foldl run_kill st ks)) /\ exists a b, at_cursor a b (foldl run_kill st ks).
Proof.
  revert st. induction ks as [|k ks IH]; intros st (a & b & Hab); [split; [apply rtc_refl | by exists a, b] |]. cbn [foldl].
  destruct (kill_effect_step a b st _ Hab (run_kill_effect a b st k Hab)) as [Hs Hat].
  destruct (IH _ Hat) as [Hr Hat']. split; [by eapply rtc_l | done].
Qed.

Lemma run_kill_same st k a b : at_cursor a b st -> run_kill st k = st \/ in_lastAction (run_kill st k) = Some act_kill.
Proof. intros Hab. destruct (run_kill_effect a b st k Hab); [by left | by right | by right]. Qed.

Lemma kills_same ks st : (exists a b, at_cursor a b st) -> in_lastAction st <> Some act_kill ->
  foldl run_kill st ks = st \/ in_lastAction (foldl run_kill st ks) = Some act_kill.
Proof.
  intros Hat Hn. induction ks as [|k ks IH] using rev_ind; [by left |]. rewrite foldl_app. cbn [foldl].
  destruct (kills_steps ks st Hat) as [_ (a & b & Hab)].
  destruct (run_kill_same _ k a b Hab) as [E | E]; [rewrite E; exact IH | by right].
Qed.

Lemma yank_text a b t st : at_cursor a b st -> last (in_killRing st) = Some t -> t <> [] ->
  yank st = changed st (a ++ t ++ b) (zlen (a ++ t)) (in_killRing st) (Some act_yank).
Proof.
  intros [Hv Hc] Ht Hne. unfold yank, kill_peek. rewrite Ht. destruct t as [|c t]; [done |]. unfold changed, insert_text. input_simpl.
  by rewrite Hv, Hc, slice_to_app, slice_from_app, <- zlen_app.
Qed.

(** What was killed can be put back: after any run of deletions to the start or the
    end of the line and by words in either direction, of which some deleted something, a
    yank restores the value; the kill ring has gathered the pieces in the order of the
    text, whatever their order of deletion. *)
Theorem kills_yank_restore st ks :
  0 <= in_cursor st <= zlen (in_value st) -> in_lastAction st <> Some act_kill ->
  let st' := foldl run_kill st ks in
  st' = st \/ in_value st' <> in_value st /\ in_value (yank st') = in_value st.
Proof.
  intros Hc Hn st'. pose proof (at_cursor_exists st Hc) as Hat. destruct (kills_same ks st Hat Hn) as [E | Hact]; [by left | right]. fold st' in Hact.
  destruct (kills_steps ks st Hat) as [Hr (a & b & Hab)]. fold st' in Hr, Hab. destruct Hat as (a0 & b0 & Hab0).
  rewrite (input_view_at a b st' Hab), (input_view_at a0 b0 st Hab0) in Hr.
  destruct (kills_gather _ _ Hr) as [E | [_ (m & Hm & Htop & Htext)]]; cbn in *.
  - by apply bool_decide_eq_false.
  - injection E as _ _ _ E. rewrite (proj2 (was_true _ _) Hact) in E. symmetry in E. by apply was_true in E.
  - destruct Hab0 as [Hv0 _]. rewrite Hv0, Htext. split.
    + destruct Hab as [-> _]. intros E%(f_equal zlen). rewrite !zlen_app in E. pose proof (zlen_full m Hm). lia.
    + by rewrite (yank_text a b m).
Qed.

(** A second yank takes the place of the first: the text before the cursor becomes the
    entry before. *)
Lemma yankPop_text a b t u ring st :
  in_value st = a ++ t ++ b -> in_cursor st = zlen (a ++ t) -> in_lastAction st = Some act_yank -> in_killRing st = ring ++ [u; t] ->
  yankPop st = changed st (a ++ u ++ b) (zlen (a ++ u)) (t :: ring ++ [u]) (Some act_yank).
Proof.
  intros Hv Hc Hact Hr. unfold yankPop. rewrite (proj2 (was_true _ _) Hact), Hr. input_simpl.
  rewrite (proj2 (Nat.leb_gt _ _)) by (rewrite length_app; cbn; lia). cbn [negb orb].
  assert (Htop : kill_peek (ring ++ [u; t]) = Some t) by (change (ring ++ [u; t]) with (ring ++ [u] ++ [t]); rewrite app_assoc; apply last_snoc).
  assert (Hrot : kill_rotate (ring ++ [u; t]) = t :: ring ++ [u]).
  { unfold kill_rotate. unfold kill_peek in Htop. rewrite Htop, (proj2 (Nat.ltb_lt _ _)) by (rewrite length_app; cbn; lia).
    change (ring ++ [u; t]) with (ring ++ [u] ++ [t]). rewrite app_assoc. f_equal. apply removelast_last. }
  rewrite Hr, Htop, Hrot. unfold kill_peek. change (t :: ring ++ [u]) with ((t :: ring) ++ [u]). rewrite last_snoc. cbn [default].
  assert (E : zlen (a ++ t) - zlen t = zlen a) by (rewrite zlen_app; lia).
  input_simpl. unfold id. rewrite Hv, Hc, E, slice_to_app, (app_assoc a t b), slice_from_app, slice_to_app, slice_from_app.
  by rewrite (zlen_app a u).
Qed.

(** *** The invariant *)

Lemma oldest_push st : match in_undoStack st ++ [(in_value st, in_cursor st)] with [] => [] | s :: _ => s.1 end = oldest st.
Proof. unfold oldest. by destruct (in_undoStack st). Qed.

Lemma inv_changed v0 st value cursor ring action :
  input_inv v0 st -> 0 <= cursor <= zlen value -> Forall (fun t => t <> []) ring ->
  (action = Some act_yank -> yanked (changed st value cursor ring action)) -> input_inv v0 (changed st value cursor ring action).
Proof.
  intros [Hc Hs Hr Hy Hf Ht] Hb Hring Hyank. unfold changed in *. split; cbn; [done | | done | done | | by intros _; destruct (in_undoStack st)].
  - apply Forall_app. split; [done | by constructor].
  - rewrite <- Hf, <- oldest_push. unfold oldest. cbn. by destruct (in_undoStack st).
Qed.

Lemma inv_moved v0 st cursor : input_inv v0 st -> 0 <= cursor <= zlen (in_value st) -> input_inv v0 (moved st cursor).
Proof. intros [Hc Hs Hr Hy Hf Ht] Hb. by split. Qed.

Lemma inv_action v0 st : input_inv v0 st -> input_inv v0 (set_action None st).
Proof. intros [Hc Hs Hr Hy Hf Ht]. by split. Qed.

Lemma inv_paste v0 st buffer b : input_inv v0 st -> input_inv v0 (set_paste buffer b st).
Proof. intros [Hc Hs Hr Hy Hf Ht]. split; try done. Qed.

Lemma kill_effect_inv v0 a b st st' : input_inv v0 st -> at_cursor a b st -> kill_effect a b st st' -> input_inv v0 st'.
Proof.
  intros Hi [Hv Hc] Hk. assert (Hb : forall x y : jsstr, 0 <= zlen x <= zlen (x ++ y)).
  { intros x y. rewrite zlen_app. pose proof (zlen_nonneg x). pose proof (zlen_nonneg y). lia. }
  destruct Hk; [done | |]; (apply inv_changed; [done | apply Hb | by apply kill_push_full, (ii_ring _ _ Hi) | done]).
Qed.

Lemma run_kill_inv v0 st k : input_inv v0 st -> input_inv v0 (run_kill st k).
Proof.
  intros Hi. destruct (at_cursor_exists st (ii_cursor _ _ Hi)) as (a & b & Hab). by eapply kill_effect_inv, run_kill_effect.
Qed.

Lemma insert_changed text st a b action :
  at_cursor a b st -> insert_text text (set_action action (pushUndo st)) = changed st (a ++ text ++ b) (zlen (a ++ text)) (in_killRing st) action.
Proof. intros [Hv Hc]. input_simpl. by rewrite Hv, Hc, slice_to_app, slice_from_app, <- zlen_app. Qed.

Lemma insert_bound (a text b : jsstr) : 0 <= zlen (a ++ text) <= zlen (a ++ text ++ b).
Proof. rewrite !zlen_app. pose proof (zlen_nonneg a). pose proof (zlen_nonneg text). pose proof (zlen_nonneg b). lia. Qed.

Lemma insertCharacter_inv v0 char st : input_inv v0 st -> input_inv v0 (insertCharacter char st).
Proof.
  intros Hi. destruct (at_cursor_exists st (ii_cursor _ _ Hi)) as (a & b & Hab). unfold insertCharacter.
  destruct (isWhitespaceChar char || negb (was act_type_word st)) eqn:E.
  - rewrite (insert_changed char st a b) by done. apply inv_changed; [done | apply insert_bound | apply (ii_ring _ _ Hi) | done].
  - apply orb_false_iff in E as [_ E%negb_false_iff]. apply was_true in E. destruct Hi as [Hc Hs Hr Hy Hf Ht]. destruct Hab as [Hv Hn].
    specialize (Ht E). split; input_simpl; [| done | done | done | | done].
    + rewrite Hv, Hn, slice_to_app, slice_from_app, <- zlen_app. apply insert_bound.
    + unfold oldest in *. cbn in *. by destruct (in_undoStack st).
Qed.

Lemma handleBackspace_inv v0 st : input_inv v0 st -> input_inv v0 (handleBackspace st).
Proof.
  intros Hi. destruct (at_cursor_exists st (ii_cursor _ _ Hi)) as (a & b & [Hv Hc]). unfold handleBackspace.
  destruct (0 <? in_cursor (set_action None st)) eqn:E; [| by apply inv_action]. apply Z.ltb_lt in E. input_simpl. rewrite Hv, Hc, slice_to_app, slice_from_app.
  assert (Ha : a <> []) by (intros ->; pose proof (@zlen_nil Z); lia). pose proof (last_grapheme_bound a Ha) as Hl.
  destruct (cursor_split a (zlen a - last_length (graphemes a))) as (a' & t & Ha' & Hn); [lia |].
  rewrite Hn. assert (Hs : slice_to (a ++ b) (zlen a') = a') by (rewrite Ha', <- app_assoc; apply slice_to_app). rewrite Hs.
  rewrite <- Hv, <- Hc. apply (inv_changed v0 st); [done | | apply (ii_ring _ _ Hi) | done].
  rewrite zlen_app. pose proof (zlen_nonneg a'). pose proof (zlen_nonneg b). lia.
Qed.

Lemma handleForwardDelete_inv v0 st : input_inv v0 st -> input_inv v0 (handleForwardDelete st).
Proof.
  intros Hi. destruct (at_cursor_exists st (ii_cursor _ _ Hi)) as (a & b & [Hv Hc]). unfold handleForwardDelete.
  destruct (in_cursor (set_action None st) <? zlen (in_value (set_action None st))) eqn:E; [| by apply inv_action]. input_simpl.
  rewrite Hv, Hc, slice_to_app, slice_from_app.
  match goal with |- input_inv v0 ?s =>
    assert (s = changed st (a ++ slice_from (a ++ b) (zlen a + first_length (graphemes b))) (zlen a) (in_killRing st) None) as ->
      by (unfold changed; by rewrite Hv, Hc) end.
  apply inv_changed; [done | | apply (ii_ring _ _ Hi) | done]. rewrite zlen_app. pose proof (zlen_nonneg a).
  pose proof (zlen_nonneg (slice_from (a ++ b) (zlen a + first_length (graphemes b)))). lia.
Qed.

Lemma yank_inv v0 st : input_inv v0 st -> input_inv v0 (yank st).
Proof.
  intros Hi. destruct (at_cursor_exists st (ii_cursor _ _ Hi)) as (a & b & Hab).
  destruct (last (in_killRing st)) as [t|] eqn:Ht; [| unfold yank, kill_peek; by rewrite Ht].
  assert (Hne : t <> []) by (apply (proj1 (Forall_forall _ _) (ii_ring _ _ Hi)); by apply last_Some_elem_of).
  rewrite (yank_text a b t) by done. apply inv_changed; [done | apply insert_bound | apply (ii_ring _ _ Hi) |]. intros _. by exists a, t, b.
Qed.

Lemma yankPop_inv v0 st : input_inv v0 st -> input_inv v0 (yankPop st).
Proof.
  intros Hi. destruct (was act_yank st) eqn:Hw; [| unfold yankPop; by rewrite Hw]. apply was_true in Hw.
  destruct (ii_yank _ _ Hi Hw) as (a & t & b & Htop & Hv & Hc). apply last_Some in Htop as [ring0 Hr].
  destruct ring0 as [|u ring _] using rev_ind.
  { unfold yankPop. rewrite Hr. by destruct (was act_yank st). }
  rewrite <- app_assoc in Hr. cbn in Hr. rewrite (yankPop_text a b t u ring) by done.
  pose proof (ii_ring _ _ Hi) as Hf. rewrite Hr in Hf. apply Forall_app in Hf as [Hf [Hu [Ht' _]%Forall_cons]%Forall_cons].
  apply inv_changed; [done | apply insert_bound | | intros _; exists a, u, b; cbn; split_and!; [by change (t :: ring ++ [u]) with ((t :: ring) ++ [u]); apply last_snoc | done..]].
  constructor; [done |]. apply Forall_app. split; [done | by constructor].
Qed.

Lemma undo_inv v0 st : input_inv v0 st -> input_inv v0 (undo st).
Proof.
  intros [Hc Hs Hr Hy Hf Ht]. unfold undo, undo_pop. destruct (in_undoStack st) as [|[value cursor] stack _] eqn:E using rev_ind.
  - cbn. split; input_simpl; rewrite ?E in *; try done. unfold oldest in *. by rewrite E in Hf.
  - rewrite last_snoc, removelast_last. apply Forall_app in Hs as [Hs [Hs' _]%Forall_cons]. split; input_simpl; try done.
    unfold oldest in *. cbn. rewrite E in Hf. by destruct stack.
Qed.

Lemma cursor_moves_inv v0 st :
  input_inv v0 st ->
  input_inv v0 (cursorLeft st) /\ input_inv v0 (cursorRight st) /\ input_inv v0 (moveWordBackwards st) /\ input_inv v0 (moveWordForwards st).
Proof.
  intros Hi. destruct (at_cursor_exists st (ii_cursor _ _ Hi)) as (a & b & [Hv Hc]).
  assert (Hmv : forall c, 0 <= c <= zlen (a ++ b) -> input_inv v0 (moved st c)) by (intros c Hb; apply inv_moved; [done | by rewrite Hv]).
  unfold cursorLeft, cursorRight, moveWordBackwards, moveWordForwards. input_simpl. rewrite Hv, Hc, slice_to_app, slice_from_app, cursor_zero, cursor_at_end.
  rewrite Hv in Hmv. unfold id. split_and!.
  - destruct (0 <? zlen a) eqn:E; [apply Hmv | by apply inv_action in Hi; input_simpl; rewrite Hv, Hc in Hi].
    apply Z.ltb_lt in E. assert (Ha : a <> []) by (intros ->; pose proof (@zlen_nil Z); lia). pose proof (last_grapheme_bound a Ha).
    rewrite zlen_app. pose proof (zlen_nonneg b). lia.
  - destruct (zlen a <? zlen (a ++ b)) eqn:E; [apply Hmv | by apply inv_action in Hi; input_simpl; rewrite Hv, Hc in Hi].
    apply Z.ltb_lt in E. rewrite zlen_app in *. assert (Hb : b <> []) by (intros ->; pose proof (@zlen_nil Z); lia).
    pose proof (first_grapheme_bound b Hb). pose proof (zlen_nonneg a). lia.
  - destruct (is_empty a) eqn:E; [done |]. apply is_empty_false in E. apply Hmv. pose proof (findWordBackward_bound words (fun _ => false) a b words_segmenting E).
    rewrite zlen_app. pose proof (zlen_nonneg b). lia.
  - destruct (is_empty b) eqn:E; [done |]. apply is_empty_false in E. apply Hmv. pose proof (findWordForward_bound words (fun _ => false) a b words_segmenting E).
    pose proof (zlen_nonneg a). lia.
Qed.

Section Keys.
Variable kb : jsstr -> key_binding -> bool.
Variable decodeKittyPrintable : jsstr -> option jsstr.

Lemma handle_key_inv v0 data st : input_inv v0 st -> input_inv v0 (handle_key kb decodeKittyPrintable data st).2.
Proof.
  intros Hi. destruct (cursor_moves_inv v0 st Hi) as (? & ? & ? & ?). pose proof (ii_cursor _ _ Hi). unfold handle_key.
  repeat (case_if; cbn [snd];
    [first [done | by apply undo_inv | by apply handleBackspace_inv | by apply handleForwardDelete_inv | by apply (run_kill_inv v0 st KillWordBackward)
      | by apply (run_kill_inv v0 st KillWordForward) | by apply (run_kill_inv v0 st KillLineStart) | by apply (run_kill_inv v0 st KillLineEnd)
      | by apply yank_inv | by apply yankPop_inv | apply (inv_moved v0 st); [done | lia]] |]).
  destruct (decodeKittyPrintable data); cbn [snd]; [by apply insertCharacter_inv |]. case_if; [done | by apply insertCharacter_inv].
Qed.

Lemma handlePaste_inv v0 text st : input_inv v0 st -> input_inv v0 (handlePaste text st).
Proof.
  intros Hi. destruct (at_cursor_exists st (ii_cursor _ _ Hi)) as (a & b & Hab). unfold handlePaste.
  change (pushUndo (set_action None st)) with (set_action None (pushUndo st)). rewrite (insert_changed _ st a b) by done.
  apply inv_changed; [done | apply insert_bound | apply (ii_ring _ _ Hi) | done].
Qed.

Lemma handle_input_inv v0 fuel data st : input_inv v0 st -> input_inv v0 (handle_input kb decodeKittyPrintable fuel data st).2.
Proof.
  revert data st. induction fuel as [|fuel IH]; [done |]. intros data st Hi. cbn [handle_input].
  assert (Hi' : forall d' st', (match index_of paste_start data with Some _ => (remove_first paste_start data, set_paste [] true st) | None => (data, st) end) = (d', st') -> input_inv v0 st').
  { intros d' st'. destruct (index_of paste_start data); intros [= <- <-]; [by apply inv_paste | done]. }
  destruct (match index_of paste_start data with Some _ => _ | None => _ end) as [d st'] eqn:E. specialize (Hi' d st' eq_refl). clear E.
  destruct (in_isInPaste st'); [| by apply handle_key_inv].
  destruct (index_of paste_end _); [| by apply inv_paste]. case_if; cbn [snd]; [| apply IH]; by apply inv_paste, handlePaste_inv, inv_paste.
Qed.

(** The fuel is enough: more changes nothing. *)
Lemma handle_input_fuel fuel extra data st :
  (length (in_pasteBuffer st ++ data) < fuel)%nat ->
  handle_input kb decodeKittyPrintable (fuel + extra) data st = handle_input kb decodeKittyPrintable fuel data st.
Proof.
  revert data st. induction fuel as [|fuel IH]; [lia |]. intros data st Hl. cbn [Nat.add handle_input].
  destruct (match index_of paste_start data with Some _ => _ | None => _ end) as [d st'] eqn:E.
  assert (Hl' : (length (in_pasteBuffer st' ++ d) <= length (in_pasteBuffer st ++ data))%nat).
  { unfold remove_first in E. destruct (index_of paste_start data) eqn:Ei; injection E as <- <-; [| done].
    cbn. rewrite !length_app, length_take, length_drop. lia. }
  destruct (in_isInPaste st'); [| done]. destruct (index_of paste_end _) as [i|] eqn:Ei; [| done].
  apply index_of_bound in Ei. cbn in Ei |- *. case_if; [done |]. apply IH. cbn. rewrite length_drop. lia.
Qed.

Lemma typed_inv v0 inputs st : input_inv v0 st -> input_inv v0 (typed kb decodeKittyPrintable inputs st).
Proof.
  revert st. induction inputs as [|data inputs IH]; intros st Hi; [done |]. cbn [typed foldl]. apply IH. unfold handleInput. by apply handle_input_inv.
Qed.

(** Undoing everything. *)
Lemma undo_all st : in_value (Nat.iter (length (in_undoStack st)) undo st) = oldest st.
Proof.
  remember (in_undoStack st) as stack eqn:E. revert st E. induction stack as [|[value cursor] stack IH] using rev_ind; intros st E.
  - unfold oldest. by rewrite <- E.
  - rewrite length_app, Nat.add_1_r, Nat.iter_succ_r.
    assert (Hu : undo st = set_action None (set_text value cursor (set_undo stack st))).
    { unfold undo, undo_pop. by rewrite <- E, last_snoc, removelast_last. }
    rewrite IH by (by rewrite Hu). rewrite Hu. unfold oldest. input_simpl. rewrite <- E. by destruct stack.
Qed.

Lemma setValue_inv value : input_inv value (setValue value new_Input).
Proof.
  unfold setValue. cbn [in_cursor new_Input]. replace (Z.min 0 (zlen value)) with 0 by (pose proof (zlen_nonneg value); lia). cbn.
  split; cbn; try done. pose proof (zlen_nonneg value). lia.
Qed.

(** Whatever is typed, pasted, deleted, yanked, moved over and undone in a field that
    started with some value, the cursor stays within the value, and undo, repeated until
    nothing is left to undo, gives back the value the field started with. *)
Theorem input_undo_restores value inputs :
  let st := typed kb decodeKittyPrintable inputs (setValue value new_Input) in
  0 <= in_cursor st <= zlen (in_value st)
  /\ in_value (Nat.iter (length (in_undoStack st)) undo st) = value.
Proof.
  intros st. pose proof (typed_inv value inputs _ (setValue_inv value)) as Hi. fold st in Hi.
  split; [apply Hi |]. rewrite undo_all. apply Hi.
Qed.

End Keys.
End Props.

(** ** A sample *)
Module InputSample.

#[local] Existing Instances plain_segmenter plain_segmenter_ok.

(** The word before the cursor, the rest of the line, and the word before that. *)
Definition sample : Input := set_text (js "one two, three") 8 new_Input.
Definition kills : list kill_command := [KillWordBackward; KillLineEnd; KillWordBackward; KillWordForward].

Lemma kills_yank_restore_witness :
  in_value (foldl run_kill sample kills) = js "one " /\ in_value (yank (foldl run_kill sample kills)) = js "one two, three".
Proof.
  split; [vm_compute; reflexivity |].
  destruct (kills_yank_restore sample kills) as [E | [_ E]]; [split; vm_compute; discriminate | vm_compute; discriminate | | exact E].
  apply (f_equal in_value) in E. vm_compute in E. discriminate.
Defined.

(** Control-W, Control-K, Control-Y, Control-Z and Control-A. *)
Definition keys (data : jsstr) (k : key_binding) : bool :=
  match data, k with
  | [23], kb_deleteWordBackward | [11], kb_deleteToLineEnd | [25], kb_yank | [26], kb_undo | [1], kb_cursorLineStart => true
  | _, _ => false
  end.

Definition session : list jsstr :=
  [[23]; js "a"; js "b"; js " "; js "c"; [23]; [1]; [11]; [25]; paste_start ++ js "x" ++ [10] ++ js "y" ++ paste_end ++ js "z"; [26]].

Lemma input_undo_restores_witness :
  let st := typed keys (fun _ => None) session (setValue (js "start") new_Input) in
  in_value st = js "ab startxy" /\ length (in_undoStack st) = 6%nat
  /\ in_value (Nat.iter (length (in_undoStack st)) undo st) = js "start".
Proof.
  split_and!; [vm_compute; reflexivity | vm_compute; reflexivity |].
  exact (proj2 (input_undo_restores keys (fun _ => None) (js "start") session)).
Defined.

(** [setValue] keeps the last action: after a yank and a new value, a second yank moves the
    cursor before the start of the value. *)
Example yankPop_after_setValue :
  let st := foldl run_kill (set_text (js "a long line") 0 new_Input) [KillLineEnd] in
  let st := foldl run_kill (set_action None (set_text (js "b") 0 st)) [KillLineEnd] in
  let st := yankPop (yank (set_action None st)) in
  in_value st = js "a long line" /\ in_cursor (yankPop (setValue (js "x") st)) = -9.
Proof. vm_compute. auto. Qed.

End InputSample.
