(* ===== verification/Wrapping.v ===== *)
(** Widths of texts in a terminal ([packages/tui/src/utils/segmentation.ts],
    [width-truncation.ts]), paste markers and wrapping by words
    ([components/editor/paste-marker.ts]), with the facts that wrapping loses nothing and
    fits the width.  [Intl.Segmenter] and the tables of Unicode are interfaces. *)
From S2P Require Import Prelude JsString StringSearch JsonParse Regex Truncate TextEditing.

Class UnicodeWidth := {
  zeroWidth : jsstr -> bool;            (** [zeroWidthRegex.test] *)
  rgiEmoji : jsstr -> bool;             (** [rgiEmojiRegex.test] *)
  dropNonPrinting : jsstr -> jsstr;     (** [replace(leadingNonPrintingRegex, '')] *)
  eastAsianWidth : Z -> Z;
  cjkBreak : jsstr -> bool;             (** [cjkBreakRegex.test] *)
}.

(** ** Code points *)

Definition is_low (c : Z) : bool := (56320 <=? c) && (c <=? 57343).
Definition joined (h l : Z) : Z := (h - 55296) * 1024 + (l - 56320) + 65536.

(** [s.codePointAt(0)]. *)
Definition code_point (s : jsstr) : option Z :=
  match s with
  | [] => None
  | h :: l :: _ => Some (if is_high h && is_low l then joined h l else h)
  | [c] => Some c
  end.

(** The code points that iteration over a string yields. *)
Fixpoint code_points (s : jsstr) : list Z :=
  match s with
  | [] => []
  | h :: s' =>
      match s' with
      | l :: s'' => if is_high h && is_low l then joined h l :: code_points s'' else h :: code_points s'
      | [] => [h]
      end
  end.

(** ** Escape sequences *)

(** The units up to and with the first of a class. *)
Fixpoint through (stop : Z -> bool) (s : jsstr) (n : nat) : option nat :=
  match s with
  | c :: s' => if stop c then Some (S n) else through stop s' (S n)
  | [] => None
  end.

(** The units up to and with BEL or ESC backslash. *)
Fixpoint through_terminator (s : jsstr) (n : nat) : option nat :=
  match s with
  | c :: s' =>
      if c =? 7 then Some (S n)
      else if (c =? 27) && bool_decide (head s' = Some 92) then Some (S (S n))
      else through_terminator s' (S n)
  | [] => None
  end.

Definition csi_final (c : Z) : bool := bool_decide (c ∈ js "mGKHJ").

(** The length of the escape sequence a text starts with: [extractAnsiCode] at its
    place. *)
Definition ansi_length (s : jsstr) : option nat :=
  match s with
  | 27 :: 91 :: rest => through csi_final rest 2
  | 27 :: 93 :: rest | 27 :: 95 :: rest => through_terminator rest 2
  | _ => None
  end.

(** The loop of [visibleWidth] that leaves out escape sequences. *)
Fixpoint strip_ansi (fuel : nat) (s : jsstr) : jsstr :=
  match fuel, s with
  | S fuel', c :: s' => match ansi_length s with Some n => strip_ansi fuel' (drop n s) | None => c :: strip_ansi fuel' s' end
  | _, _ => []
  end.

(** ** Widths *)

Section Width.
Context `{Segmenter} `{UnicodeWidth}.

Definition couldBeEmoji (s : jsstr) : bool :=
  let cp := default 0 (code_point s) in
  let within a b := (a <=? cp) && (cp <=? b) in
  within 126976 130047 || within 8960 9215 || within 9728 10175 || within 11088 11093 || bool_decide (65039 ∈ s) || (2 <? zlen s).

Definition isPrintableAscii (s : jsstr) : bool := forallb (fun c => (32 <=? c) && (c <=? 126)) s.

Definition trailing_width (s : jsstr) : Z :=
  sumZ (map (fun c => if (65280 <=? c) && (c <=? 65519) then eastAsianWidth c else if (c =? 3635) || (c =? 3763) then 1 else 0) (code_points s)).

Definition graphemeWidth (s : jsstr) : Z :=
  if bool_decide (s = [9]) then 4
  else if zeroWidth s then 0
  else if couldBeEmoji s && rgiEmoji s then 2
  else match code_point (dropNonPrinting s) with
       | None => 0
       | Some cp =>
           if (127462 <=? cp) && (cp <=? 127487) then 2
           else eastAsianWidth cp + (if 1 <? zlen s then trailing_width (drop 1 s) else 0)
       end.

Definition expand_tabs (s : jsstr) : jsstr := flat_map (fun c => if c =? 9 then js "    " else [c]) s.

(** The cache holds what is computed here. *)
Definition visibleWidth (s : jsstr) : Z :=
  if isPrintableAscii s then zlen s
  else
    let clean := expand_tabs s in
    let clean := if bool_decide (27 ∈ clean) then strip_ansi (length clean) clean else clean in
    sumZ (map graphemeWidth (graphemes clean)).

End Width.

Lemma ansi_length_bound s n : ansi_length s = Some n -> (2 <= n <= length s)%nat.
Proof.
  assert (Ht : forall stop r k m, through stop r k = Some m -> (k < m <= k + length r)%nat).
  { intros stop r. induction r as [|c r IH]; intros k m; cbn; [done |]. destruct (stop c); [intros [= <-]; lia |]. intros Hm%IH. lia. }
  assert (Hm : forall r k m, through_terminator r k = Some m -> (k < m <= k + length r)%nat).
  { intros r. induction r as [|c r IH]; intros k m; cbn; [done |]. destruct (c =? 7); [intros [= <-]; lia |].
    destruct (c =? 27); cbn; [| intros Hm%IH; lia]. case_bool_decide as Eh; [| intros Hm%IH; lia]. intros [= <-]. destruct r; [done |]. cbn. lia. }
  unfold ansi_length. intros Hs. repeat (case_match; try done); subst; cbn [length];
    first [apply Ht in Hs | apply Hm in Hs]; lia.
Qed.

(** The fuel of [strip_ansi] is enough. *)
Lemma strip_ansi_fuel f e s : (length s <= f)%nat -> strip_ansi (f + e) s = strip_ansi f s.
Proof.
  revert s. induction f as [|f IH]; intros s Hs; [destruct s; [by destruct e | cbn in Hs; lia] |]. cbn [Nat.add strip_ansi].
  destruct s as [|c s]; [done |]. cbn [length] in Hs. destruct (ansi_length (c :: s)) as [n|] eqn:E.
  - apply ansi_length_bound in E. cbn [length] in E. apply IH. rewrite length_drop. cbn. lia.
  - f_equal. apply IH. lia.
Qed.

Lemma visibleWidth_nonneg `{Segmenter} `{UnicodeWidth} : (forall c, 0 <= eastAsianWidth c) -> forall s, 0 <= visibleWidth s.
Proof.
  intros He s. assert (Hsum : forall l, Forall (fun x => 0 <= x) l -> 0 <= sumZ l) by (induction 1; cbn in *; lia).
  assert (Hg : forall g, 0 <= graphemeWidth g).
  { intros g. unfold graphemeWidth. do 3 (case_if; [lia |]). destruct (code_point (dropNonPrinting g)) as [cp|]; [| done].
    case_if; [lia |]. pose proof (He cp). case_if; [| lia].
    assert (0 <= trailing_width (drop 1 g)); [| lia]. apply Hsum, Forall_map, Forall_forall. intros c _. cbn. repeat case_if; try lia. apply He. }
  unfold visibleWidth. case_if; [apply zlen_nonneg |]. apply Hsum, Forall_map, Forall_true. apply Hg.
Qed.

Definition paste_marker : rx :=
  (exact (js "[paste #") >>> XGroup 1 (XPlus is_digit)
   >>> XOpt (XGroup 2 (exact (js " ") >>> XGroup 3 ((exact (js "+") >>> XPlus is_digit >>> exact (js " lines")) ||| (XPlus is_digit >>> exact (js " chars")))))
   >>> exact (js "]"))%rx.

Definition isPasteMarker (s : jsstr) : bool :=
  (10 <=? length s)%nat && match match_start (paste_marker >>> XEnd) s with Some _ => true | None => false end.

(** A segment with its place in the text. *)
Definition placed := (Z * segment)%type.
Definition pl_end (p : placed) : Z := p.1 + zlen (sg_text p.2).

Fixpoint place (i : Z) (ws : list segment) : list placed :=
  match ws with w :: ws' => (i, w) :: place (i + zlen (sg_text w)) ws' | [] => [] end.

(** The spans of the matches, those with a valid id. *)
Fixpoint marker_spans (validIds : list Z) (offset : Z) (ms : list rx_match) : list (Z * Z) :=
  match ms with
  | [] => []
  | m :: ms' =>
      let start := offset + zlen (mt_before m) in
      let stop := start + zlen (mt_text m) in
      let id := digits_value (default [] (group 1 (mt_groups m))) in
      (if bool_decide (id ∈ validIds) then [(start, stop)] else []) ++ marker_spans validIds stop ms'
  end.

(** The markers that do not end before a place. *)
Fixpoint markers_from (index : Z) (markers : list (Z * Z)) : list (Z * Z) :=
  match markers with
  | m :: rest => if m.2 <=? index then markers_from index rest else markers
  | [] => []
  end.

Fixpoint merge_markers (text : jsstr) (markers : list (Z * Z)) (segs : list placed) : list placed :=
  match segs with
  | [] => []
  | seg :: segs' =>
      let markers := markers_from seg.1 markers in
      match markers with
      | marker :: _ =>
          if (marker.1 <=? seg.1) && (seg.1 <? marker.2) then
            (if seg.1 =? marker.1 then [(marker.1, mkSegment (slice text marker.1 marker.2) false)] else [])
              ++ merge_markers text markers segs'
          else seg :: merge_markers text markers segs'
      | [] => seg :: merge_markers text markers segs'
      end
  end.

Definition segmentWithMarkers (text : jsstr) (base : jsstr -> list segment) (validIds : list Z) : list placed :=
  let segments := place 0 (base text) in
  if is_empty validIds || bool_decide (index_of (js "[paste #") text = None) then segments
  else
    let markers := marker_spans validIds 0 (matchAll paste_marker text) in
    if is_empty markers then segments else merge_markers text markers segments.

(** ** Wrapping *)

Record TextChunk := mkTextChunk { ch_text : jsstr; ch_start : Z; ch_end : Z }.

(** The variables of the loop; the chunks in order. *)
Record wrap_state := mkWrap {
  ws_chunks : list TextChunk;
  ws_width : Z;
  ws_start : Z;
  ws_opp : option (Z * Z);   (** [wrapOppIndex] and [wrapOppWidth], unless the index is -1 *)
}.

Section Wrap.
Context `{Segmenter} `{UnicodeWidth}.
Variable maxWidth : Z.

Definition cut (line : jsstr) (a b : Z) : TextChunk := mkTextChunk (slice line a b) a b.

(** The overflow check before a segment. *)
Definition wrap_before (line : jsstr) (charIndex gWidth : Z) (st : wrap_state) : wrap_state :=
  if maxWidth <? ws_width st + gWidth then
    let force :=
      if ws_start st <? charIndex
      then mkWrap (ws_chunks st ++ [cut line (ws_start st) charIndex]) 0 charIndex None
      else mkWrap (ws_chunks st) (ws_width st) (ws_start st) None in
    match ws_opp st with
    | Some (index, width) =>
        if ws_width st - width + gWidth <=? maxWidth
        then mkWrap (ws_chunks st ++ [cut line (ws_start st) index]) (ws_width st - width) index None
        else force
    | None => force
    end
  else st.

(** Where a break is allowed after a segment. *)
Definition wrap_opportunity (grapheme : jsstr) (next : option placed) (width : Z) (opp : option (Z * Z)) : option (Z * Z) :=
  let isWs := negb (isPasteMarker grapheme) && isWhitespaceChar grapheme in
  match next with
  | None => opp
  | Some (index, seg) =>
      let n := sg_text seg in
      if isWs && (isPasteMarker n || negb (isWhitespaceChar n)) then Some (index, width)
      else if negb isWs && negb (isWhitespaceChar n)
              && (negb (isPasteMarker grapheme) && cjkBreak grapheme || negb (isPasteMarker n) && cjkBreak n) then Some (index, width)
      else opp
  end.

(** All chunks but the last, and the last. *)
Definition shift_chunk (i : Z) (c : TextChunk) : TextChunk := mkTextChunk (ch_text c) (i + ch_start c) (i + ch_end c).

Fixpoint wrap_loop (again : jsstr -> option (list TextChunk)) (line : jsstr) (segs : list placed) (st : wrap_state) : option wrap_state :=
  match segs with
  | [] => Some st
  | (charIndex, seg) :: segs' =>
      let grapheme := sg_text seg in
      let gWidth := visibleWidth grapheme in
      let st := wrap_before line charIndex gWidth st in
      if maxWidth <? gWidth then
        match again grapheme with
        | None => None
        | Some subChunks =>
            match last subChunks with
            | None => None
            | Some final =>
                wrap_loop again line segs'
                  (mkWrap (ws_chunks st ++ map (shift_chunk charIndex) (removelast subChunks)) (visibleWidth (ch_text final))
                     (charIndex + ch_start final) None)
            end
        end
      else
        let width := ws_width st + gWidth in
        wrap_loop again line segs' (mkWrap (ws_chunks st) width (ws_start st) (wrap_opportunity grapheme (head segs') width (ws_opp st)))
  end.

(** [None]: the calls do not end, and the stack overflows.  The fuel bounds their depth. *)
Fixpoint wordWrapLine (fuel : nat) (line : jsstr) (preSegmented : option (list placed)) : option (list TextChunk) :=
  match fuel with
  | O => None
  | S fuel' =>
      if is_empty line || (maxWidth <=? 0) then Some [mkTextChunk [] 0 0]
      else if visibleWidth line <=? maxWidth then Some [mkTextChunk line 0 (zlen line)]
      else
        let segments := default (place 0 (grapheme_segments line)) preSegmented in
        match wrap_loop (fun g => wordWrapLine fuel' g None) line segments (mkWrap [] 0 0 None) with
        | Some st => Some (ws_chunks st ++ [cut line (ws_start st) (zlen line)])
        | None => None
        end
  end.

End Wrap.

(** ** Slices *)

Lemma slice_within s a b : 0 <= a <= b -> slice s a b = take (Z.to_nat b - Z.to_nat a) (drop (Z.to_nat a) s).
Proof. intros Hab. unfold slice, slice_index. by rewrite !(proj2 (Z.ltb_ge _ 0)) by lia. Qed.

Lemma slice_slice s i j a b :
  0 <= i -> 0 <= a <= b -> i + b <= j -> slice (slice s i j) a b = slice s (i + a) (i + b).
Proof.
  intros Hi Hab Hj. rewrite !slice_within by lia. rewrite skipn_firstn_comm, drop_drop, take_take. f_equal; [lia |]. f_equal. lia.
Qed.

Lemma slice_whole s : slice s 0 (zlen s) = s.
Proof. rewrite slice_within by (pose proof (zlen_nonneg s); lia). cbn. unfold zlen. rewrite Nat2Z.id, Nat.sub_0_r. by apply take_ge. Qed.

Lemma zlen_slice s a b : 0 <= a <= b -> b <= zlen s -> zlen (slice s a b) = b - a.
Proof. intros Hab Hb. rewrite slice_within by done. unfold zlen in *. rewrite length_take, length_drop. lia. Qed.

Lemma slice_append s a b c : 0 <= a <= b -> b <= c -> slice s a b ++ slice s b c = slice s a c.
Proof.
  intros Hab Hbc. rewrite !slice_within by lia.
  rewrite <- (take_drop (Z.to_nat b - Z.to_nat a) (take (Z.to_nat c - Z.to_nat a) (drop (Z.to_nat a) s))).
  rewrite take_take, skipn_firstn_comm, drop_drop. f_equal; f_equal; [lia | lia |]. f_equal. lia.
Qed.

(** ** Segments in a line *)

(** The segments lie in order between two places and hold the text found there. *)
Fixpoint segs_in (line : jsstr) (lo hi : Z) (segs : list placed) : Prop :=
  match segs with
  | [] => lo <= hi
  | (i, w) :: rest => lo <= i /\ sg_text w <> [] /\ sg_text w = slice line i (i + zlen (sg_text w)) /\ segs_in line (i + zlen (sg_text w)) hi rest
  end.

Lemma segs_in_le line lo hi segs : segs_in line lo hi segs -> lo <= hi.
Proof.
  revert lo. induction segs as [|[i w] segs IH]; intros lo; cbn; [done |]. intros (Hlo & _ & _ & Hr%IH). pose proof (zlen_nonneg (sg_text w)). lia.
Qed.

Lemma segs_in_weaken line lo lo' hi segs : lo' <= lo -> segs_in line lo hi segs -> segs_in line lo' hi segs.
Proof. destruct segs as [|[i w] segs]; cbn; [lia |]. intros Hlo (H1 & H2). split; [lia | done]. Qed.

Lemma place_in line pre ws :
  Forall (fun w => sg_text w <> []) ws -> line = pre ++ concat (map sg_text ws) -> segs_in line (zlen pre) (zlen line) (place (zlen pre) ws).
Proof.
  revert pre. induction ws as [|w ws IH]; intros pre Hf Hl; cbn [place segs_in].
  - cbn in Hl. rewrite app_nil_r in Hl. by subst.
  - apply Forall_cons in Hf as [Hw Hf]. cbn in Hl. split_and!; [lia | done | | rewrite <- zlen_app; apply IH; [done | by rewrite Hl, app_assoc]].
    rewrite Hl, <- zlen_app. by rewrite slice_mid.
Qed.

(** Merging markers keeps the order: what follows a marker starts after it. *)
Definition merge_floor (markers : list (Z * Z)) (floor lo : Z) : Prop :=
  floor <= lo \/ exists start stop rest, markers = (start, stop) :: rest /\ start < lo /\ floor <= stop.

Lemma markers_from_floor markers floor lo i :
  merge_floor markers floor lo -> lo <= i ->
  floor <= i \/ exists start stop rest, markers_from i markers = (start, stop) :: rest /\ start < i < stop /\ floor <= stop.
Proof.
  intros [Hf | (start & stop & rest & -> & Hs & Hf)] Hi; [left; lia |]. cbn [markers_from snd]. destruct (stop <=? i) eqn:E; bool_hyps; [left; lia |].
  right. exists start, stop, rest. split_and!; [done | lia | lia | done].
Qed.

Lemma markers_from_sub i markers : markers_from i markers ⊆ markers.
Proof.
  induction markers as [|m ms IH]; cbn; [done |]. destruct (m.2 <=? i); [| done]. intros x Hx. right. by apply IH.
Qed.

Lemma merge_in text hi segs : hi <= zlen text ->
  forall markers floor lo, Forall (fun m => 0 <= m.1 /\ m.2 <= hi) markers -> 0 <= lo ->
  segs_in text lo hi segs -> merge_floor markers floor lo -> segs_in text floor hi (merge_markers text markers segs).
Proof.
  intros Hhi. induction segs as [|[i w] segs IH]; intros markers floor lo Hm Hlo Hs Hf; cbn [merge_markers].
  - cbn in *. destruct Hf as [? | (start & stop & rest & -> & _ & ?)]; [lia |]. apply Forall_cons in Hm as [[_ Hm] _]. cbn in Hm. lia.
  - cbn [segs_in] in Hs. destruct Hs as (Hi & Hw & Ht & Hs). pose proof (zlen_full _ Hw) as Hwl. cbn [fst].
    assert (Hm' : Forall (fun m => 0 <= m.1 /\ m.2 <= hi) (markers_from i markers)).
    { apply Forall_forall. intros m Hin%markers_from_sub. by apply (proj1 (Forall_forall _ _) Hm). }
    pose proof (markers_from_floor markers floor lo i Hf Hi) as Hfl. destruct (markers_from i markers) as [|[start stop] rest] eqn:E.
    + destruct Hfl as [Hfl | (? & ? & ? & [=] & _)]. cbn [segs_in]. split_and!; [done.. |]. apply (IH _ _ (i + zlen (sg_text w))); [done | lia | done | by left].
    + cbn [fst snd]. destruct ((start <=? i) && (i <? stop)) eqn:Ein.
      * apply andb_true_iff in Ein as [H1%Z.leb_le H2%Z.ltb_lt]. pose proof (proj1 (proj1 (Forall_cons _ _ _) Hm')) as [Hs0 Hs1]. cbn in Hs0, Hs1.
        destruct (i =? start) eqn:Eq; bool_hyps; cbn [app segs_in].
        -- destruct Hfl as [Hfl | (? & ? & ? & [= <- <- <-] & ? & _)]; [| lia]. subst start. cbn [sg_text].
           rewrite zlen_slice by lia. replace (i + (stop - i)) with stop by lia. split_and!; [done | | done |].
           ++ intros Hn. apply (f_equal zlen) in Hn. rewrite zlen_slice in Hn by lia. pose proof (@zlen_nil Z). lia.
           ++ apply (IH _ _ (i + zlen (sg_text w))); [done | lia | done |]. right. exists i, stop, rest. split_and!; [done | lia | lia].
        -- apply (IH _ _ (i + zlen (sg_text w))); [done | lia | done |]. destruct Hfl as [Hfl | (s' & e' & r' & [= <- <- <-] & Hse & Hfl)]; [left; lia |].
           right. exists start, stop, rest. split_and!; [done | lia | done].
      * destruct Hfl as [Hfl | (s' & e' & r' & [= <- <- <-] & Hse & Hfl)].
        -- cbn [segs_in]. split_and!; [done.. |]. apply (IH _ _ (i + zlen (sg_text w))); [done | lia | done | by left].
        -- exfalso. apply andb_false_iff in Ein as [H1%Z.leb_gt | H2%Z.ltb_ge]; lia.
Qed.

Lemma marker_spans_in validIds offset ms hi :
  0 <= offset -> offset + zlen (flat_map (fun m => mt_before m ++ mt_text m) ms) <= hi ->
  Forall (fun m => 0 <= m.1 /\ m.2 <= hi) (marker_spans validIds offset ms).
Proof.
  revert offset. induction ms as [|m ms IH]; intros offset Ho Hh; cbn [marker_spans]; [done |]. cbn [flat_map] in Hh. rewrite !zlen_app in Hh.
  pose proof (zlen_nonneg (mt_before m)). pose proof (zlen_nonneg (mt_text m)). pose proof (zlen_nonneg (flat_map (fun m => mt_before m ++ mt_text m) ms)).
  apply Forall_app. split; [| apply IH; lia]. destruct (bool_decide _); [| done]. constructor; [cbn; lia | done].
Qed.

(** Segments that cover a text are in order, with or without markers. *)
Lemma match_spans_in validIds text : Forall (fun m => 0 <= m.1 /\ m.2 <= zlen text) (marker_spans validIds 0 (matchAll paste_marker text)).
Proof.
  apply marker_spans_in; [done |]. unfold matchAll, scan_all. pose proof (scan_text (S (length text)) paste_marker [] text) as Ht.
  destruct (scan _ _ _ _) as [ms tail]. cbn [fst]. apply (f_equal zlen) in Ht. rewrite zlen_app in Ht. cbn in Ht.
  pose proof (zlen_nonneg tail). lia.
Qed.

Lemma segmentWithMarkers_in text base validIds :
  Forall (fun w => sg_text w <> []) (base text) -> concat (map sg_text (base text)) = text ->
  segs_in text 0 (zlen text) (segmentWithMarkers text base validIds).
Proof.
  intros Hf Hc. assert (Hp : segs_in text 0 (zlen text) (place 0 (base text))) by (apply (place_in text [] (base text)); [done | by rewrite Hc]).
  unfold segmentWithMarkers. destruct (_ || _); [done |]. destruct (is_empty _) eqn:E; [done |].
  apply (merge_in text (zlen text) _ (Z.le_refl _) _ 0 0); [| done | done | by left].
  apply match_spans_in.
Qed.

(** ** Chunks *)

(** Chunks that follow one another from a place to another, with the text between. *)
Inductive chunk_tiles (line : jsstr) (a : Z) : Z -> list TextChunk -> Prop :=
  | tiles_none : chunk_tiles line a a []
  | tiles_snoc b c chunks : chunk_tiles line a b chunks -> b <= c -> chunk_tiles line a c (chunks ++ [cut line b c]).

Lemma chunk_tiles_le line a b chunks : chunk_tiles line a b chunks -> a <= b.
Proof. induction 1; lia. Qed.

Lemma chunk_tiles_app line a b c xs ys : chunk_tiles line a b xs -> chunk_tiles line b c ys -> chunk_tiles line a c (xs ++ ys).
Proof. intros Hx. induction 1; [by rewrite app_nil_r |]. rewrite app_assoc. by constructor. Qed.

(** The chunks of a part of a line, moved to their place in it. *)
Lemma chunk_tiles_shift line i j a b chunks :
  0 <= i -> 0 <= a -> i + b <= j -> chunk_tiles (slice line i j) a b chunks -> chunk_tiles line (i + a) (i + b) (map (shift_chunk i) chunks).
Proof.
  intros Hi Ha Hj Ht. revert Hj. induction Ht as [|b c chunks Ht IH Hbc]; intros Hj; [constructor |]. rewrite map_app. cbn [map].
  pose proof (chunk_tiles_le _ _ _ _ Ht). unfold cut, shift_chunk at 2. cbn. rewrite slice_slice by lia. change (mkTextChunk _ _ _) with (cut line (i + b) (i + c)).
  constructor; [apply IH; lia | lia].
Qed.

Section Wrapping.
Context {SG : Segmenter} {SGok : SegmenterOk} {UW : UnicodeWidth}.
Variable maxWidth : Z.
Hypothesis columns_nonneg : forall c, 0 <= eastAsianWidth c.

Lemma width_nonneg s : 0 <= visibleWidth s.
Proof. by apply visibleWidth_nonneg. Qed.

(** What the loop keeps: the chunks reach to the start of the current one, which is not
    after the next segment; a place for a break lies between. *)
Record wrap_inv (line : jsstr) (lo : Z) (st : wrap_state) : Prop := {
  wi_tiles : chunk_tiles line 0 (ws_start st) (ws_chunks st);
  wi_start : ws_start st <= lo;
  wi_width : 0 <= ws_width st;
  wi_opp : forall index width, ws_opp st = Some (index, width) -> ws_start st <= index <= lo /\ 0 <= width <= ws_width st;
}.

Lemma wrap_inv_later line lo hi st : lo <= hi -> wrap_inv line lo st -> wrap_inv line hi st.
Proof. intros Hle [Ht Hs Hw Ho]. split; [done | lia | done |]. intros index width E. destruct (Ho _ _ E). lia. Qed.

Lemma wrap_force_inv line i st : wrap_inv line i st ->
  wrap_inv line i (if ws_start st <? i then mkWrap (ws_chunks st ++ [cut line (ws_start st) i]) 0 i None
                   else mkWrap (ws_chunks st) (ws_width st) (ws_start st) None).
Proof. intros [Ht Hs Hw Ho]. case_if; bool_hyps; split; cbn; try done; try lia. constructor; [done | lia]. Qed.

Lemma wrap_before_inv line i gWidth st : wrap_inv line i st -> wrap_inv line i (wrap_before maxWidth line i gWidth st).
Proof.
  intros Hi. pose proof (wrap_force_inv line i st Hi) as Hforce. destruct Hi as [Ht Hs Hw Ho].
  unfold wrap_before. case_if; [| by split]. destruct (ws_opp st) as [[index width]|]; [| done].
  destruct (Ho _ _ eq_refl). case_if; [| done]. split; cbn; [constructor; [done | lia] | lia | lia | done].
Qed.

(** Before a segment wider than the width the current chunk is empty. *)
Lemma wrap_before_wide line i gWidth st :
  wrap_inv line i st -> maxWidth < gWidth -> ws_start (wrap_before maxWidth line i gWidth st) = i.
Proof.
  intros [Ht Hs Hw Ho] Hg. unfold wrap_before. rewrite (proj2 (Z.ltb_lt _ _)) by lia.
  assert (Hf : ws_start (if ws_start st <? i then mkWrap (ws_chunks st ++ [cut line (ws_start st) i]) 0 i None
      else mkWrap (ws_chunks st) (ws_width st) (ws_start st) None) = i) by (case_if; bool_hyps; cbn; lia).
  destruct (ws_opp st) as [[index width]|]; [| done]. destruct (Ho _ _ eq_refl). by rewrite (proj2 (Z.leb_gt _ _)) by lia.
Qed.

Lemma wrap_opportunity_cases g next width opp :
  wrap_opportunity g next width opp = opp \/ exists p, next = Some p /\ wrap_opportunity g next width opp = Some (p.1, width).
Proof. destruct next as [[i n]|]; [| by left]. cbn. case_if; [right; eauto |]. case_if; [right; eauto | by left]. Qed.

(** Where the next segment starts. *)
Definition next_index (line : jsstr) (segs : list placed) : Z := match segs with (i, _) :: _ => i | [] => zlen line end.

Lemma next_index_le line lo segs : segs_in line lo (zlen line) segs -> lo <= next_index line segs.
Proof. by destruct segs as [|[i w] segs]; [| intros [? _]]. Qed.

Lemma wrap_loop_tiles again line segs :
  (forall g chunks, g <> [] -> again g = Some chunks -> chunk_tiles g 0 (zlen g) chunks) ->
  forall lo st st', 0 <= lo -> segs_in line lo (zlen line) segs -> wrap_inv line (next_index line segs) st ->
  wrap_loop maxWidth again line segs st = Some st' -> wrap_inv line (zlen line) st'.
Proof.
  intros Hagain. induction segs as [|[i w] segs IH]; intros lo st st' Hlo Hs Hi; [by intros [= <-] |].
  cbn [segs_in wrap_loop next_index] in *. destruct Hs as (Hil & Hw & Ht & Hs). pose proof (zlen_full _ Hw) as Hwl.
  pose proof (next_index_le _ _ _ Hs) as Hn.
  pose proof (wrap_before_inv line i (visibleWidth (sg_text w)) st Hi) as H1.
  destruct (maxWidth <? visibleWidth (sg_text w)) eqn:Ew.
  - apply Z.ltb_lt in Ew. pose proof (wrap_before_wide line i _ st Hi Ew) as Hst.
    destruct (again (sg_text w)) as [sub|] eqn:Ea; [| done]. pose proof (Hagain _ _ Hw Ea) as Hsub.
    inversion Hsub as [E |b c chunks Hb Hbc Hc]; subst; [lia |]. rewrite last_snoc, removelast_last.
    pose proof (chunk_tiles_le _ _ _ _ Hb) as Hb0. apply (IH (i + zlen (sg_text w))); [lia | done |]. cbn [ch_text ch_start cut].
    split; cbn [ws_chunks ws_start ws_width ws_opp]; [| lia | apply width_nonneg | done].
    pose proof (wi_tiles _ _ _ H1) as Hti. rewrite Hst in Hti. apply (chunk_tiles_app _ _ (i + 0)); [by rewrite Z.add_0_r |].
    apply (chunk_tiles_shift line i (i + zlen (sg_text w)) 0 b); [lia | lia | lia | by rewrite <- Ht].
  - apply (IH (i + zlen (sg_text w))); [lia | done |]. apply (wrap_inv_later line i (next_index line segs)) in H1; [| lia].
    destruct H1 as [H1 H2' H3 H4]. pose proof (width_nonneg (sg_text w)).
    split; cbn [ws_chunks ws_start ws_width ws_opp]; [done | done | lia |]. intros index width.
    destruct (wrap_opportunity_cases (sg_text w) (head segs) (ws_width (wrap_before maxWidth line i (visibleWidth (sg_text w)) st) + visibleWidth (sg_text w))
      (ws_opp (wrap_before maxWidth line i (visibleWidth (sg_text w)) st))) as [-> | ([j n] & Hj & ->)].
    + intros E. destruct (H4 _ _ E). lia.
    + intros [= <- <-]. destruct segs as [|[j' n'] segs]; [done |]. injection Hj as -> ->. cbn in *. lia.
Qed.

(** Wrapping loses nothing: the chunks of a line follow one another from its start to its
    end, each with the text between its places, also where a segment is wider than the
    width and is cut itself. *)
Theorem wrap_covers fuel line pre chunks :
  0 < maxWidth -> (forall segs, pre = Some segs -> segs_in line 0 (zlen line) segs) ->
  wordWrapLine maxWidth fuel line pre = Some chunks -> chunk_tiles line 0 (zlen line) chunks.
Proof.
  intros Hm. revert line pre chunks. induction fuel as [|fuel IH]; [done |]. intros line pre chunks Hpre. cbn [wordWrapLine].
  assert (Hone : forall t, t = line -> chunk_tiles line 0 (zlen line) [mkTextChunk t 0 (zlen line)]).
  { intros t ->. rewrite <- (slice_whole line) at 3. apply (tiles_snoc line 0 0 (zlen line) []); [constructor | apply zlen_nonneg]. }
  destruct (is_empty line) eqn:Ee; [apply is_empty_true in Ee; subst; intros [= <-]; by apply Hone |]. rewrite (proj2 (Z.leb_gt _ _) Hm). cbn [orb].
  case_if; [intros [= <-]; by apply Hone |].
  assert (Hs : segs_in line 0 (zlen line) (default (place 0 (grapheme_segments line)) pre)).
  { destruct pre as [segs|]; cbn; [by apply Hpre |]. apply (place_in line [] (grapheme_segments line)); [apply graphemes_segmenting |].
    by rewrite graphemes_segments, graphemes_cover. }
  destruct (wrap_loop _ _ _ _ _) as [st|] eqn:El; [| done]. intros [= <-].
  eapply wrap_loop_tiles in El; [| | | exact Hs |]; [| by intros g c _ Hg; apply (IH g None); [intros ? [=] |] | done |].
  - constructor; apply El.
  - split; cbn; [constructor | by apply next_index_le in Hs | done | done].
Qed.

(** ** Widths of chunks *)

Fixpoint contiguous (line : jsstr) (lo : Z) (segs : list placed) : Prop :=
  match segs with
  | [] => lo = zlen line
  | (i, w) :: rest => i = lo /\ sg_text w <> [] /\ sg_text w = slice line i (i + zlen (sg_text w)) /\ contiguous line (i + zlen (sg_text w)) rest
  end.

Definition group_text (segs : list placed) : jsstr := concat (map (fun p => sg_text p.2) segs).
Definition group_width (segs : list placed) : Z := sumZ (map (fun p : placed => visibleWidth (sg_text p.2)) segs).

Lemma contiguous_next line lo segs : contiguous line lo segs -> next_index line segs = lo.
Proof. destruct segs as [|[i w] segs]; cbn; [done |]. by intros [-> _]. Qed.

Lemma contiguous_group line lo g rest :
  0 <= lo -> contiguous line lo (g ++ rest) -> lo <= next_index line rest /\ slice line lo (next_index line rest) = group_text g.
Proof.
  revert lo. induction g as [|[i w] g IH]; intros lo Hlo Hc.
  - cbn in Hc |- *. rewrite (contiguous_next _ _ _ Hc). split; [lia |]. rewrite slice_within by lia. by rewrite Nat.sub_diag.
  - cbn in Hc. destruct Hc as (-> & _ & Ht & Hc). pose proof (zlen_nonneg (sg_text w)). destruct (IH (lo + zlen (sg_text w)) ltac:(lia) Hc) as [Hle Hs]. split; [lia |].
    unfold group_text in *. cbn. rewrite <- Hs, <- (slice_append line lo (lo + zlen (sg_text w))) by lia. by rewrite <- Ht.
Qed.

Lemma group_width_app a b : group_width (a ++ b) = group_width a + group_width b.
Proof. unfold group_width. by rewrite map_app, sumZ_app. Qed.

Lemma group_width_nonneg g : 0 <= group_width g.
Proof.
  induction g as [|p g IH]; [done |]. change (0 <= visibleWidth (sg_text p.2) + group_width g). pose proof (width_nonneg (sg_text p.2)). lia.
Qed.

(** The groups of segments behind the chunks, and the group of the current one. *)
Record fits_inv (line : jsstr) (segs rest : list placed) (st : wrap_state) (groups : list (list placed)) (cur : list placed) : Prop := {
  fi_all : segs = concat groups ++ cur ++ rest;
  fi_texts : map ch_text (ws_chunks st) = map group_text groups;
  fi_groups : Forall (fun g => group_width g <= maxWidth) groups;
  fi_width : ws_width st = group_width cur;
  fi_fits : group_width cur <= maxWidth;
  fi_start : contiguous line (ws_start st) (cur ++ rest) /\ 0 <= ws_start st;
  fi_opp : forall index width, ws_opp st = Some (index, width) ->
    exists c1 c2, cur = c1 ++ c2 /\ width = group_width c1 /\ index = next_index line (c2 ++ rest);
}.

(** A new chunk of the first segments of the current group. *)
Lemma fits_cut line segs rest st groups c1 c2 width :
  fits_inv line segs rest st groups (c1 ++ c2) -> width = group_width c2 -> group_width c1 <= maxWidth ->
  let i := next_index line (c2 ++ rest) in
  fits_inv line segs rest (mkWrap (ws_chunks st ++ [cut line (ws_start st) i]) width i None) (groups ++ [c1]) c2.
Proof.
  intros [Ha Ht Hg Hw Hf [Hc H0] Ho] -> H1 i. rewrite <- app_assoc in Hc.
  destruct (contiguous_group line _ c1 (c2 ++ rest) H0 Hc) as [Hle Hs].
  assert (Hc2 : contiguous line i (c2 ++ rest)).
  { clear -Hc. revert Hc. generalize (ws_start st) as lo. induction c1 as [|[j w] c1 IH]; intros lo Hc; [cbn in Hc; unfold i; by rewrite (contiguous_next _ _ _ Hc) |].
    cbn in Hc. destruct Hc as (_ & _ & _ & Hc). by eapply IH. }
  pose proof (group_width_nonneg c1). rewrite group_width_app in Hf.
  split; cbn [ws_chunks ws_width ws_start ws_opp]; [| | | done | lia | split; [done | lia] | done].
  - rewrite Ha, concat_app. cbn. by rewrite app_nil_r, <- !app_assoc.
  - rewrite !map_app, Ht. cbn. by rewrite <- Hs.
  - apply Forall_app. split; [done | by constructor].
Qed.

Lemma fits_before line segs i w rest st groups cur :
  fits_inv line segs ((i, w) :: rest) st groups cur -> visibleWidth (sg_text w) <= maxWidth ->
  exists groups' cur', fits_inv line segs ((i, w) :: rest) (wrap_before maxWidth line i (visibleWidth (sg_text w)) st) groups' cur'
    /\ group_width cur' + visibleWidth (sg_text w) <= maxWidth.
Proof.
  intros Hi Hw. pose proof Hi as [Ha Ht Hg Hcw Hf [Hc H0] Ho]. unfold wrap_before. destruct (maxWidth <? _) eqn:E; bool_hyps; [| exists groups, cur; split; [done | lia]].
  pose proof (group_width_nonneg cur) as Hn.
  assert (Hforce : exists groups' cur', fits_inv line segs ((i, w) :: rest) (if ws_start st <? i then mkWrap (ws_chunks st ++ [cut line (ws_start st) i]) 0 i None
      else mkWrap (ws_chunks st) (ws_width st) (ws_start st) None) groups' cur' /\ group_width cur' + visibleWidth (sg_text w) <= maxWidth).
  { destruct (ws_start st <? i) eqn:Es; bool_hyps.
    - exists (groups ++ [cur]), []. split; [| cbn; lia]. rewrite <- (app_nil_r cur) in Hi. apply (fits_cut _ _ _ _ _ cur [] 0 Hi); [done | done].
    - exfalso. assert (cur = []) as ->; [| cbn in Hcw; lia]. destruct cur as [|[j u] cur]; [done |]. cbn in Hc. destruct Hc as (-> & Hu & _ & Hc).
      destruct (contiguous_group _ (ws_start st + zlen (sg_text u)) cur ((i, w) :: rest) ltac:(pose proof (zlen_nonneg (sg_text u)); lia) Hc) as [Hle _]. cbn in Hle. pose proof (zlen_nonneg (sg_text u)).
      apply zlen_full in Hu. lia. }
  destruct (ws_opp st) as [[index width]|]; [| done]. destruct (Ho _ _ eq_refl) as (c1 & c2 & -> & -> & ->).
  destruct (_ <=? maxWidth) eqn:El; bool_hyps; [| done]. rewrite group_width_app in *. pose proof (group_width_nonneg c2).
  exists (groups ++ [c1]), c2. split; [| lia]. apply fits_cut; [done | lia | lia].
Qed.

Lemma fits_loop again line segs rest :
  Forall (fun p : placed => visibleWidth (sg_text p.2) <= maxWidth) rest ->
  forall st groups cur, fits_inv line segs rest st groups cur ->
  exists st' groups' cur', wrap_loop maxWidth again line rest st = Some st' /\ fits_inv line segs [] st' groups' cur'.
Proof.
  induction 1 as [|[i w] rest Hw Hrest IH]; intros st groups cur Hi; [by exists st, groups, cur |]. cbn [snd] in Hw. cbn [wrap_loop].
  destruct (fits_before line segs i w rest st groups cur Hi Hw) as (groups' & cur' & Hi' & Hsum).
  rewrite (proj2 (Z.ltb_ge _ _)) by done.
  set (st1 := wrap_before maxWidth line i (visibleWidth (sg_text w)) st) in *. destruct Hi' as [Ha Ht Hg Hcw Hf [Hc H0] Ho].
  assert (Hgw : group_width (cur' ++ [(i, w)]) = group_width cur' + visibleWidth (sg_text w)).
  { rewrite group_width_app. unfold group_width at 2. cbn. lia. }
  apply (IH _ groups' (cur' ++ [(i, w)])). split; cbn [ws_chunks ws_width ws_start ws_opp].
  - by rewrite <- app_assoc.
  - done.
  - done.
  - by rewrite Hgw, Hcw.
  - lia.
  - by rewrite <- app_assoc.
  - intros index width. destruct (wrap_opportunity_cases (sg_text w) (head rest) (ws_width st1 + visibleWidth (sg_text w)) (ws_opp st1)) as [-> | ([j n] & Hj & ->)].
    + intros E. destruct (Ho _ _ E) as (c1 & c2 & -> & -> & ->). exists c1, (c2 ++ [(i, w)]). split_and!; [by rewrite app_assoc | done | by rewrite <- app_assoc].
    + intros [= <- <-]. exists (cur' ++ [(i, w)]), []. split_and!; [by rewrite app_nil_r | by rewrite Hgw, Hcw |]. destruct rest as [|[j' n'] rest]; [done |]. by injection Hj as -> ->.
Qed.

(** C28: When no segment is wider than the width, wrapping ends, and every chunk fits: the
    chunks are the texts of consecutive groups of the segments, and the widths in each
    group add up to at most the width. *)
Theorem wrap_fits fuel line segs :
  line <> [] -> 0 < maxWidth < visibleWidth line -> contiguous line 0 segs ->
  Forall (fun p : placed => visibleWidth (sg_text p.2) <= maxWidth) segs ->
  exists chunks groups, wordWrapLine maxWidth (S fuel) line (Some segs) = Some chunks
    /\ concat groups = segs /\ map ch_text chunks = map group_text groups /\ Forall (fun g => group_width g <= maxWidth) groups.
Proof.
  intros Hne [Hm Hw] Hc Hall. cbn [wordWrapLine]. apply is_empty_false in Hne. rewrite Hne, (proj2 (Z.leb_gt _ _)), (proj2 (Z.leb_gt _ _)) by lia. cbn [orb].
  change (default _ (Some segs)) with segs.
  destruct (fits_loop (fun g => wordWrapLine maxWidth fuel g None) line segs segs Hall (mkWrap [] 0 0 None) [] []) as (st & groups & cur & -> & Hi).
  { split; cbn; try done. lia. }
  destruct Hi as [Ha Ht Hg Hcw Hf [Hcon H0] Ho]. rewrite app_nil_r in *.
  destruct (contiguous_group line _ cur [] H0) as [_ Hs]; [by rewrite app_nil_r |]. cbn in Hs.
  eexists _, (groups ++ [cur]). split_and!; [done | rewrite concat_app, Ha; cbn; by rewrite app_nil_r | | apply Forall_app; split; [done | by constructor]].
  rewrite !map_app, Ht. cbn. by rewrite Hs.
Qed.

(** *** Termination *)

(** A segment wider than the width is cut by graphemes; when those fit, two levels of
    calls are enough. *)
Lemma wrap_loop_some again line segs st :
  Forall (fun p : placed => maxWidth < visibleWidth (sg_text p.2) -> exists chunks final, again (sg_text p.2) = Some chunks /\ last chunks = Some final) segs ->
  exists st', wrap_loop maxWidth again line segs st = Some st'.
Proof.
  intros Hf. revert st. induction Hf as [|[i w] segs Hw Hf IH]; intros st; [by exists st |]. cbn [wrap_loop snd] in *. case_if; [| apply IH].
  apply Z.ltb_lt in Heqb. destruct (Hw Heqb) as (chunks & final & -> & ->). apply IH.
Qed.

Lemma wordWrapLine_last fuel line pre chunks : wordWrapLine maxWidth fuel line pre = Some chunks -> exists final, last chunks = Some final.
Proof.
  destruct fuel as [|fuel]; [done |]. cbn. case_if; [intros [= <-]; eauto |]. case_if; [intros [= <-]; eauto |].
  case_match; [| done]. intros [= <-]. rewrite last_snoc. eauto.
Qed.

Lemma place_Forall (P : segment -> Prop) i ws : Forall P ws -> Forall (fun p : placed => P p.2) (place i ws).
Proof. intros Hf. revert i. induction Hf; intros i; constructor; [done | auto]. Qed.

(** No grapheme of a text is wider than the width. *)
Definition graphemes_fit (s : jsstr) : Prop := Forall (fun g => visibleWidth g <= maxWidth) (graphemes s).

Lemma wrap_plain_terminates fuel line : graphemes_fit line -> exists chunks, wordWrapLine maxWidth (S fuel) line None = Some chunks.
Proof.
  intros Hg. cbn. case_if; [eauto |]. case_if; [eauto |].
  destruct (wrap_loop_some (fun g => wordWrapLine maxWidth fuel g None) line (place 0 (grapheme_segments line)) (mkWrap [] 0 0 None)) as [st ->]; [| eauto].
  eapply Forall_impl; [apply (place_Forall (fun w => visibleWidth (sg_text w) <= maxWidth)), Forall_map, Hg |]. intros p Hp Hw. cbn in Hp. lia.
Qed.

Lemma wrap_terminates fuel line segs : Forall (fun p : placed => graphemes_fit (sg_text p.2)) segs ->
  exists chunks, wordWrapLine maxWidth (S (S fuel)) line (Some segs) = Some chunks.
Proof.
  intros Hg. cbn [wordWrapLine]. case_if; [eauto |]. case_if; [eauto |].
  destruct (wrap_loop_some (fun g => wordWrapLine maxWidth (S fuel) g None) line segs (mkWrap [] 0 0 None)) as [st Hst].
  - eapply Forall_impl; [exact Hg |]. intros p Hp _. destruct (wrap_plain_terminates fuel (sg_text p.2) Hp) as [chunks Hc].
    destruct (wordWrapLine_last _ _ _ _ Hc) as [final Hf]. by exists chunks, final.
  - cbn [wordWrapLine] in Hst. change (default _ (Some segs)) with segs. rewrite Hst. eauto.
Qed.

(** A character that is wider than the width is wrapped by wrapping it again: the calls do
    not end, whatever their depth, and the editor fails with a stack overflow. *)
Theorem wide_grapheme_diverges g :
  g <> [] -> graphemes g = [g] -> 0 < maxWidth < visibleWidth g -> forall fuel, wordWrapLine maxWidth fuel g None = None.
Proof.
  intros Hne Hg [Hm Hw] fuel. apply is_empty_false in Hne. induction fuel as [|fuel IH]; [done |]. cbn [wordWrapLine].
  rewrite Hne, (proj2 (Z.leb_gt _ _)), (proj2 (Z.leb_gt _ _)) by lia. cbn [orb]. unfold grapheme_segments. rewrite Hg. cbn [map place default from_option wrap_loop sg_text].
  by rewrite (proj2 (Z.ltb_lt _ _) Hw), IH.
Qed.

End Wrapping.

(** ** A sample: ideographs of two columns *)
Module WrapSample.
#[local] Existing Instances plain_segmenter plain_segmenter_ok.

#[local] Instance sample_width : UnicodeWidth := {
  zeroWidth _ := false; rgiEmoji _ := false; dropNonPrinting s := s;
  eastAsianWidth c := if (19968 <=? c) && (c <=? 40959) then 2 else 1;
  cjkBreak s := existsb (fun c => (19968 <=? c) && (c <=? 40959)) s;
}.

Lemma sample_columns c : 0 <= eastAsianWidth c.
Proof. cbn. case_if; lia. Qed.

Definition line : jsstr := js "one two " ++ [19990; 30028] ++ js " three".
Definition segs : list placed := place 0 (grapheme_segments line).

Lemma wrap_fits_witness : exists chunks groups,
  wordWrapLine 6 1 line (Some segs) = Some chunks /\ map ch_text chunks = [js "one "; js "two " ++ [19990]; [30028] ++ js " "; js "three"]
  /\ map ch_text chunks = map group_text groups /\ Forall (fun g => group_width g <= 6) groups.
Proof.
  destruct (wrap_fits 6 sample_columns 0 line segs) as (chunks & groups & H & _ & Ht & Hg).
  - discriminate.
  - vm_compute. split; reflexivity.
  - vm_compute. repeat split; discriminate.
  - assert (Hf : forallb (fun p : placed => visibleWidth (sg_text p.2) <=? 6) segs = true) by (vm_compute; reflexivity).
    apply Forall_forall. intros p Hp%list_elem_of_In. by apply Z.leb_le, (proj1 (forallb_forall _ _) Hf).
  - exists chunks, groups. split; [exact H |]. split; [| split; [exact Ht | exact Hg]]. vm_compute in H. injection H as <-. vm_compute. reflexivity.
Defined.

Lemma wrap_covers_witness : exists chunks, wordWrapLine 6 1 line None = Some chunks /\ chunk_tiles line 0 (zlen line) chunks.
Proof.
  eexists. split; [vm_compute; reflexivity |].
  apply (wrap_covers 6 sample_columns 1 line None); [lia | intros ? [=] | vm_compute; reflexivity].
Defined.

Lemma wide_grapheme_diverges_witness : forall fuel, wordWrapLine 1 fuel [19990] None = None.
Proof. apply (wide_grapheme_diverges 1 [19990]); [discriminate | reflexivity | vm_compute; split; reflexivity]. Defined.

End WrapSample.
