(* ===== verification/EditorState.v ===== *)
(** The editor of the terminal interface, [packages/tui/src/components/editor/]: its
    fields ([editor.ts], [types.ts]) and the operations on its text: insertion, deletion,
    the kill ring, undo, history and paste markers.  Callbacks are recorded as calls. *)
From S2P Require Import Prelude JsString StringSearch JsonParse Regex TextEditing TextInput Wrapping.

(** ** Arrays of lines, with the places out of range that the code allows *)

Definition arr_get (l : list jsstr) (i : Z) : jsstr := if i <? 0 then [] else default [] (l !! Z.to_nat i).

(** [l[i] = v]: out of range the array is extended, the holes reading as empty. *)
Definition arr_set (l : list jsstr) (i : Z) (v : jsstr) : list jsstr :=
  if i <? 0 then l
  else if i <? zlen l then <[Z.to_nat i := v]> l
  else l ++ replicate (Z.to_nat (i - zlen l)) [] ++ [v].

Definition arr_index (l : list jsstr) (i : Z) : nat := Z.to_nat (if i <? 0 then Z.max 0 (zlen l + i) else i).

(** [l.splice(start, deleteCount, ...items)]. *)
Definition arr_splice (l : list jsstr) (start deleteCount : Z) (items : list jsstr) : list jsstr :=
  let s := arr_index l start in take s l ++ items ++ drop (s + Z.to_nat deleteCount) l.

(** ** The fields *)

Record EditorState := mkEditorState { es_lines : list jsstr; es_cursorLine : Z; es_cursorCol : Z }.

(** The kill ring, [lastAction] and the undo stack. *)
Record edit_memory := mkMemory { em_killRing : list jsstr; em_lastAction : option edit_action; em_undoStack : list EditorState }.

Record edit_history := mkHistory { eh_entries : list jsstr; eh_index : Z; eh_draft : option EditorState }.

(** The map of pastes in the order of insertion, [pasteCounter], [pasteBuffer] and
    [isInPaste]. *)
Record paste_store := mkPastes { ps_pastes : list (Z * jsstr); ps_counter : Z; ps_buffer : jsstr; ps_isInPaste : bool }.

(** [preferredVisualCol], [snappedFromCursorCol], [scrollOffset] and [lastWidth]. *)
Record edit_view := mkView { ev_preferred : option Z; ev_snapped : option Z; ev_scroll : Z; ev_width : Z }.

Record AutocompleteItem := mkItem { ai_value : jsstr; ai_label : jsstr }.
Inductive autocomplete_mode := ac_regular | ac_force.
Record request_options := mkRequestOptions { ro_force : bool; ro_explicitTab : bool }.

(** A request that waits for its answer: its id, which also names its abort controller,
    and the text and cursor it was made for. *)
Record autocomplete_request := mkRequest {
  rq_id : Z; rq_text : jsstr; rq_line : Z; rq_col : Z; rq_options : request_options;
}.

(** The picker, the tokens, the debounce timer, the controller that can be aborted and
    those that were, the tasks chained to the running one, and the running one. *)
Record autocomplete := mkAutocomplete {
  ac_state : option autocomplete_mode;
  ac_list : option (list AutocompleteItem * Z);
  ac_prefix : jsstr;
  ac_startToken : Z;
  ac_requestId : Z;
  ac_timer : option (Z * request_options);
  ac_abort : option Z;
  ac_aborted : list Z;
  ac_waiting : list (Z * request_options);
  ac_running : option autocomplete_request;
  ac_triggers : list jsstr;
}.

(** What a provider computes at once; its suggestions are answers to requests. *)
Record AutocompleteProvider := mkProvider {
  ap_triggerCharacters : list jsstr;
  ap_applyCompletion : EditorState -> AutocompleteItem -> jsstr -> EditorState;
  ap_shouldTriggerFileCompletion : option (EditorState -> bool);
}.

Inductive editor_call := onChange (text : jsstr) | onSubmitText (text : jsstr).

Inductive jump_direction := jump_forward | jump_backward.

Record Editor := mkEditor {
  ed_state : EditorState;
  ed_memory : edit_memory;
  ed_history : edit_history;
  ed_pastes : paste_store;
  ed_view : edit_view;
  ed_jumpMode : option jump_direction;
  ed_disableSubmit : bool;
  ed_provider : option AutocompleteProvider;
  ed_complete : autocomplete;
  ed_calls : list editor_call;
}.

Definition empty_state : EditorState := mkEditorState [[]] 0 0.
Definition DEFAULT_AUTOCOMPLETE_TRIGGER_CHARACTERS : list jsstr := [js "@"; js "#"].
Definition new_Editor : Editor :=
  mkEditor empty_state (mkMemory [] None []) (mkHistory [] (-1) None) (mkPastes [] 0 [] false) (mkView None None 0 80) None false None
    (mkAutocomplete None None [] 0 0 None None [] [] None DEFAULT_AUTOCOMPLETE_TRIGGER_CHARACTERS) [].

(** *** Assignments *)

Definition put_state (s : EditorState) (e : Editor) : Editor :=
  mkEditor s (ed_memory e) (ed_history e) (ed_pastes e) (ed_view e) (ed_jumpMode e) (ed_disableSubmit e) (ed_provider e) (ed_complete e) (ed_calls e).
Definition put_memory (m : edit_memory) (e : Editor) : Editor :=
  mkEditor (ed_state e) m (ed_history e) (ed_pastes e) (ed_view e) (ed_jumpMode e) (ed_disableSubmit e) (ed_provider e) (ed_complete e) (ed_calls e).
Definition put_history (h : edit_history) (e : Editor) : Editor :=
  mkEditor (ed_state e) (ed_memory e) h (ed_pastes e) (ed_view e) (ed_jumpMode e) (ed_disableSubmit e) (ed_provider e) (ed_complete e) (ed_calls e).
Definition put_pastes (p : paste_store) (e : Editor) : Editor :=
  mkEditor (ed_state e) (ed_memory e) (ed_history e) p (ed_view e) (ed_jumpMode e) (ed_disableSubmit e) (ed_provider e) (ed_complete e) (ed_calls e).
Definition put_view (v : edit_view) (e : Editor) : Editor :=
  mkEditor (ed_state e) (ed_memory e) (ed_history e) (ed_pastes e) v (ed_jumpMode e) (ed_disableSubmit e) (ed_provider e) (ed_complete e) (ed_calls e).
Definition put_jump (j : option jump_direction) (e : Editor) : Editor :=
  mkEditor (ed_state e) (ed_memory e) (ed_history e) (ed_pastes e) (ed_view e) j (ed_disableSubmit e) (ed_provider e) (ed_complete e) (ed_calls e).
Definition put_provider (p : option AutocompleteProvider) (e : Editor) : Editor :=
  mkEditor (ed_state e) (ed_memory e) (ed_history e) (ed_pastes e) (ed_view e) (ed_jumpMode e) (ed_disableSubmit e) p (ed_complete e) (ed_calls e).
Definition put_complete (c : autocomplete) (e : Editor) : Editor :=
  mkEditor (ed_state e) (ed_memory e) (ed_history e) (ed_pastes e) (ed_view e) (ed_jumpMode e) (ed_disableSubmit e) (ed_provider e) c (ed_calls e).
Definition call (c : editor_call) (e : Editor) : Editor :=
  mkEditor (ed_state e) (ed_memory e) (ed_history e) (ed_pastes e) (ed_view e) (ed_jumpMode e) (ed_disableSubmit e) (ed_provider e) (ed_complete e) (ed_calls e ++ [c]).

Definition lines (e : Editor) : list jsstr := es_lines (ed_state e).
Definition cursorLine (e : Editor) : Z := es_cursorLine (ed_state e).
Definition cursorCol (e : Editor) : Z := es_cursorCol (ed_state e).
Definition current_line (e : Editor) : jsstr := arr_get (lines e) (cursorLine e).
Definition before_cursor (e : Editor) : jsstr := slice_to (current_line e) (cursorCol e).
Definition after_cursor (e : Editor) : jsstr := slice_from (current_line e) (cursorCol e).

Definition set_lines (l : list jsstr) (e : Editor) : Editor := put_state (mkEditorState l (cursorLine e) (cursorCol e)) e.
Definition set_cursorLine (i : Z) (e : Editor) : Editor := put_state (mkEditorState (lines e) i (cursorCol e)) e.
Definition set_line (text : jsstr) (e : Editor) : Editor := set_lines (arr_set (lines e) (cursorLine e) text) e.

Definition set_lastAction (a : option edit_action) (e : Editor) : Editor :=
  put_memory (mkMemory (em_killRing (ed_memory e)) a (em_undoStack (ed_memory e))) e.
Definition kill (text : jsstr) (prepend accumulate : bool) (e : Editor) : Editor :=
  put_memory (mkMemory (kill_push text prepend accumulate (em_killRing (ed_memory e))) (Some act_kill) (em_undoStack (ed_memory e))) e.
Definition lastAction_is (a : edit_action) (e : Editor) : bool := bool_decide (em_lastAction (ed_memory e) = Some a).

Definition setCursorCol (col : Z) (e : Editor) : Editor :=
  put_view (mkView None None (ev_scroll (ed_view e)) (ev_width (ed_view e))) (put_state (mkEditorState (lines e) (cursorLine e) col) e).

Definition getText (e : Editor) : jsstr := join nl (lines e).
Definition changed_text (e : Editor) : Editor := call (onChange (getText e)) e.

Definition pushUndoSnapshot (e : Editor) : Editor :=
  put_memory (mkMemory (em_killRing (ed_memory e)) (em_lastAction (ed_memory e)) (undo_push (ed_state e) (em_undoStack (ed_memory e)))) e.

Definition exitHistoryBrowsing (e : Editor) : Editor := put_history (mkHistory (eh_entries (ed_history e)) (-1) None) e.

(** ** Autocompletion requests *)

Definition cancelAutocompleteRequest (e : Editor) : Editor :=
  let c := ed_complete e in
  put_complete (mkAutocomplete (ac_state c) (ac_list c) (ac_prefix c) (ac_startToken c + 1) (ac_requestId c) None None
                  (match ac_abort c with Some id => id :: ac_aborted c | None => ac_aborted c end) (ac_waiting c) (ac_running c) (ac_triggers c)) e.

Definition clearAutocompleteUi (e : Editor) : Editor :=
  let c := ed_complete e in
  put_complete (mkAutocomplete None None [] (ac_startToken c) (ac_requestId c) (ac_timer c) (ac_abort c) (ac_aborted c) (ac_waiting c)
                  (ac_running c) (ac_triggers c)) e.

Definition cancelAutocomplete (e : Editor) : Editor := clearAutocompleteUi (cancelAutocompleteRequest e).

(** The places where a text can be split. *)
Fixpoint splits (s : jsstr) : list (jsstr * jsstr) :=
  ([], s) :: match s with c :: s' => map (fun p => (c :: p.1, p.2)) (splits s') | [] => [] end.

Definition no_space (s : jsstr) : bool := forallb (fun c => negb (is_space c)) s.
Definition has_trigger (triggers : list jsstr) (c : Z) : bool := bool_decide ([c] ∈ triggers).

(** [buildTriggerPattern] and [buildDebouncePattern], tested on a text. *)
Definition triggerPattern (triggers : list jsstr) (text : jsstr) : bool :=
  existsb (fun '(before, rest) =>
    match last before with None => true | Some c => is_space c end
    && match rest with c :: rest' => has_trigger triggers c && no_space rest' | [] => false end) (splits text).

Definition debouncePattern (triggers : list jsstr) (text : jsstr) : bool :=
  existsb (fun '(before, rest) =>
    match last before with None => true | Some c => (c =? 32) || (c =? 9) end
    && match rest with
       | c :: rest' =>
           if c =? 64 then match rest' with 34 :: quoted => forallb (fun d => negb (d =? 34)) quoted || no_space rest' | _ => no_space rest' end
           else has_trigger triggers c && no_space rest'
       | [] => false
       end) (splits text).

(** Milliseconds. *)
Definition getAutocompleteDebounceMs (options : request_options) (e : Editor) : Z :=
  if ro_explicitTab options || ro_force options then 0
  else if debouncePattern (ac_triggers (ed_complete e)) (before_cursor e) then 20 else 0.

Definition requestAutocomplete (options : request_options) (e : Editor) : Editor :=
  match ed_provider e with
  | None => e
  | Some provider =>
      let shouldTrigger :=
        negb (ro_force options)
        || match ap_shouldTriggerFileCompletion provider with Some f => f (ed_state e) | None => true end in
      if negb shouldTrigger then e
      else
        let e := cancelAutocompleteRequest e in
        let c := ed_complete e in
        let startToken := ac_startToken c + 1 in
        let timed := 0 <? getAutocompleteDebounceMs options e in
        put_complete (mkAutocomplete (ac_state c) (ac_list c) (ac_prefix c) startToken (ac_requestId c)
                        (if timed then Some (startToken, options) else ac_timer c) (ac_abort c) (ac_aborted c)
                        (if timed then ac_waiting c else ac_waiting c ++ [(startToken, options)]) (ac_running c) (ac_triggers c)) e
  end.

Definition tryTriggerAutocomplete (e : Editor) : Editor := requestAutocomplete (mkRequestOptions false false) e.

Definition updateAutocomplete (e : Editor) : Editor :=
  match ac_state (ed_complete e) with
  | None => e
  | Some mode => requestAutocomplete (mkRequestOptions (match mode with ac_force => true | ac_regular => false end) false) e
  end.

Definition isSlashMenuAllowed (e : Editor) : bool := cursorLine e =? 0.
Definition isAtStartOfMessage (e : Editor) : bool :=
  isSlashMenuAllowed e && (bool_decide (trim (before_cursor e) = []) || bool_decide (trim (before_cursor e) = js "/")).
Definition isInSlashCommandContext (text : jsstr) (e : Editor) : bool := isSlashMenuAllowed e && starts_with (js "/") (trim_start text).

(** After a deletion: update the picker, or open it again where something can be
    completed. *)
Definition retrigger (e : Editor) : Editor :=
  match ac_state (ed_complete e) with
  | Some _ => updateAutocomplete e
  | None =>
      if isInSlashCommandContext (before_cursor e) e || triggerPattern (ac_triggers (ed_complete e)) (before_cursor e)
      then tryTriggerAutocomplete e else e
  end.

(** ** Text *)

Section Text.
Context `{Segmenter}.

Definition validPasteIds (e : Editor) : list Z := map fst (ps_pastes (ed_pastes e)).
Definition segment_words (e : Editor) (text : jsstr) : list segment := map snd (segmentWithMarkers text words (validPasteIds e)).
Definition segment_graphemes (e : Editor) (text : jsstr) : list placed := segmentWithMarkers text grapheme_segments (validPasteIds e).
Definition grapheme_texts (e : Editor) (text : jsstr) : list jsstr := map (fun p => sg_text p.2) (segment_graphemes e text).

Fixpoint normalizeText (s : jsstr) : jsstr :=
  match s with
  | [] => []
  | c :: s' =>
      if c =? 13 then match s' with 10 :: s'' => 10 :: normalizeText s'' | _ => 10 :: normalizeText s' end
      else if c =? 9 then js "    " ++ normalizeText s'
      else c :: normalizeText s'
  end.

(** The last line of those inserted. *)
Definition last_line (ls : list jsstr) : jsstr := default [] (last ls).

Definition insertTextAtCursorInternal (text : jsstr) (e : Editor) : Editor :=
  if is_empty text then e
  else
    let normalized := normalizeText text in
    let insertedLines := split_on 10 normalized in
    let e :=
      match insertedLines with
      | [_] => setCursorCol (cursorCol e + zlen normalized) (set_line (before_cursor e ++ normalized ++ after_cursor e) e)
      | _ =>
          let ls := take (arr_index (lines e) (cursorLine e)) (lines e)
                      ++ [before_cursor e ++ default [] (head insertedLines)]
                      ++ removelast (drop 1 insertedLines)
                      ++ [last_line insertedLines ++ after_cursor e]
                      ++ drop (arr_index (lines e) (cursorLine e + 1)) (lines e) in
          let e := set_lines ls e in
          setCursorCol (zlen (last_line insertedLines)) (set_cursorLine (cursorLine e + zlen insertedLines - 1) e)
      end in
    changed_text e.

(** [/[a-zA-Z0-9.\-_]/.test(char)]. *)
Definition completion_char (char : jsstr) : bool := existsb (fun c => is_word c || (c =? 46) || (c =? 45)) char.

Definition ed_insertCharacter (char : jsstr) (e : Editor) : Editor :=
  let e := exitHistoryBrowsing e in
  let e := if isWhitespaceChar char || negb (lastAction_is act_type_word e) then pushUndoSnapshot e else e in
  let e := set_lastAction (Some act_type_word) e in
  let e := setCursorCol (cursorCol e + zlen char) (set_line (before_cursor e ++ char ++ after_cursor e) e) in
  let e := changed_text e in
  match ac_state (ed_complete e) with
  | Some _ => updateAutocomplete e
  | None =>
      let text := before_cursor e in
      if bool_decide (char = js "/") && isAtStartOfMessage e then tryTriggerAutocomplete e
      else if bool_decide (char ∈ ac_triggers (ed_complete e)) then
        let charBeforeSymbol := head (drop 1 (reverse text)) in
        if (zlen text =? 1) || bool_decide (charBeforeSymbol = Some 32) || bool_decide (charBeforeSymbol = Some 9)
        then tryTriggerAutocomplete e else e
      else if completion_char char then
        if isInSlashCommandContext text e || triggerPattern (ac_triggers (ed_complete e)) text then tryTriggerAutocomplete e else e
      else e
  end.

(** *** Deletion *)

(** The current line is appended to the one before, and the cursor goes between. *)
Definition merge_with_previous (e : Editor) : Editor :=
  let currentLine := current_line e in
  let previousLine := arr_get (lines e) (cursorLine e - 1) in
  let e := set_lines (arr_set (lines e) (cursorLine e - 1) (previousLine ++ currentLine)) e in
  let e := set_lines (arr_splice (lines e) (cursorLine e) 1 []) e in
  setCursorCol (zlen previousLine) (set_cursorLine (cursorLine e - 1) e).

(** The next line is appended to the current one. *)
Definition merge_with_next (e : Editor) : Editor :=
  let nextLine := arr_get (lines e) (cursorLine e + 1) in
  let e := set_line (current_line e ++ nextLine) e in
  set_lines (arr_splice (lines e) (cursorLine e + 1) 1 []) e.

Definition ed_handleBackspace (e : Editor) : Editor :=
  let e := set_lastAction None (exitHistoryBrowsing e) in
  let e :=
    if 0 <? cursorCol e then
      let e := pushUndoSnapshot e in
      let n := last_length (grapheme_texts e (before_cursor e)) in
      setCursorCol (cursorCol e - n) (set_line (slice_to (current_line e) (cursorCol e - n) ++ after_cursor e) e)
    else if 0 <? cursorLine e then merge_with_previous (pushUndoSnapshot e)
    else e in
  retrigger (changed_text e).

Definition ed_handleForwardDelete (e : Editor) : Editor :=
  let e := set_lastAction None (exitHistoryBrowsing e) in
  let e :=
    if cursorCol e <? zlen (current_line e) then
      let e := pushUndoSnapshot e in
      let n := first_length (grapheme_texts e (after_cursor e)) in
      set_line (before_cursor e ++ slice_from (current_line e) (cursorCol e + n)) e
    else if cursorLine e <? zlen (lines e) - 1 then merge_with_next (pushUndoSnapshot e)
    else e in
  retrigger (changed_text e).

Definition deleteToStartOfLine (e : Editor) : Editor :=
  let e := exitHistoryBrowsing e in
  let e :=
    if 0 <? cursorCol e then
      let e := kill (before_cursor e) true (lastAction_is act_kill e) (pushUndoSnapshot e) in
      setCursorCol 0 (set_line (after_cursor e) e)
    else if 0 <? cursorLine e then
      merge_with_previous (kill nl true (lastAction_is act_kill e) (pushUndoSnapshot e))
    else e in
  changed_text e.

Definition deleteToEndOfLine (e : Editor) : Editor :=
  let e := exitHistoryBrowsing e in
  let e :=
    if cursorCol e <? zlen (current_line e) then
      let e := kill (after_cursor e) false (lastAction_is act_kill e) (pushUndoSnapshot e) in
      set_line (before_cursor e) e
    else if cursorLine e <? zlen (lines e) - 1 then
      merge_with_next (kill nl false (lastAction_is act_kill e) (pushUndoSnapshot e))
    else e in
  changed_text e.

Definition ed_moveWordBackwards (e : Editor) : Editor :=
  let e := set_lastAction None e in
  if cursorCol e =? 0 then
    if 0 <? cursorLine e then
      let e := set_cursorLine (cursorLine e - 1) e in setCursorCol (zlen (current_line e)) e
    else e
  else setCursorCol (findWordBackward (segment_words e) isPasteMarker (current_line e) (cursorCol e)) e.

Definition ed_moveWordForwards (e : Editor) : Editor :=
  let e := set_lastAction None e in
  if zlen (current_line e) <=? cursorCol e then
    if cursorLine e <? zlen (lines e) - 1 then setCursorCol 0 (set_cursorLine (cursorLine e + 1) e) else e
  else setCursorCol (findWordForward (segment_words e) isPasteMarker (current_line e) (cursorCol e)) e.

Definition ed_deleteWordBackwards (e : Editor) : Editor :=
  let e := exitHistoryBrowsing e in
  let e :=
    if cursorCol e =? 0 then
      if 0 <? cursorLine e then merge_with_previous (kill nl true (lastAction_is act_kill e) (pushUndoSnapshot e)) else e
    else
      let currentLine := current_line e in
      let wasKill := lastAction_is act_kill e in
      let e := pushUndoSnapshot e in
      let oldCursorCol := cursorCol e in
      let e := ed_moveWordBackwards e in
      let deleteFrom := cursorCol e in
      let e := setCursorCol oldCursorCol e in
      let e := kill (slice currentLine deleteFrom (cursorCol e)) true wasKill e in
      setCursorCol deleteFrom (set_line (slice_to currentLine deleteFrom ++ slice_from currentLine (cursorCol e)) e) in
  changed_text e.

Definition ed_deleteWordForward (e : Editor) : Editor :=
  let e := exitHistoryBrowsing e in
  let e :=
    if zlen (current_line e) <=? cursorCol e then
      if cursorLine e <? zlen (lines e) - 1 then merge_with_next (kill nl false (lastAction_is act_kill e) (pushUndoSnapshot e)) else e
    else
      let currentLine := current_line e in
      let wasKill := lastAction_is act_kill e in
      let e := pushUndoSnapshot e in
      let oldCursorCol := cursorCol e in
      let e := ed_moveWordForwards e in
      let deleteTo := cursorCol e in
      let e := setCursorCol oldCursorCol e in
      let e := kill (slice currentLine (cursorCol e) deleteTo) false wasKill e in
      set_line (slice_to currentLine (cursorCol e) ++ slice_from currentLine deleteTo) e in
  changed_text e.

(** *** Yank and undo *)

(** The loop that splices the middle lines in. *)
Fixpoint splice_lines (at_ : Z) (middle : list jsstr) (ls : list jsstr) : list jsstr :=
  match middle with
  | m :: rest => splice_lines (at_ + 1) rest (arr_splice ls at_ 0 [m])
  | [] => ls
  end.

Definition insertYankedText (text : jsstr) (e : Editor) : Editor :=
  let e := exitHistoryBrowsing e in
  let e :=
    match split_on 10 text with
    | [_] => setCursorCol (cursorCol e + zlen text) (set_line (before_cursor e ++ text ++ after_cursor e) e)
    | ls =>
        let after := after_cursor e in
        let lastLineIndex := cursorLine e + zlen ls - 1 in
        let e := set_line (before_cursor e ++ default [] (head ls)) e in
        let e := set_lines (splice_lines (cursorLine e + 1) (removelast (drop 1 ls)) (lines e)) e in
        let e := set_lines (arr_splice (lines e) lastLineIndex 0 [last_line ls ++ after]) e in
        setCursorCol (zlen (last_line ls)) (set_cursorLine lastLineIndex e)
    end in
  changed_text e.

Definition deleteYankedText (e : Editor) : Editor :=
  match kill_peek (em_killRing (ed_memory e)) with
  | None | Some [] => e
  | Some yankedText =>
      let yankLines := split_on 10 yankedText in
      let e :=
        match yankLines with
        | [_] =>
            let deleteLen := zlen yankedText in
            setCursorCol (cursorCol e - deleteLen) (set_line (slice_to (current_line e) (cursorCol e - deleteLen) ++ after_cursor e) e)
        | _ =>
            let startLine := cursorLine e - (zlen yankLines - 1) in
            let startCol := zlen (arr_get (lines e) startLine) - zlen (default [] (head yankLines)) in
            let beforeYank := slice_to (arr_get (lines e) startLine) startCol in
            let e := set_lines (arr_splice (lines e) startLine (zlen yankLines) [beforeYank ++ after_cursor e]) e in
            setCursorCol startCol (set_cursorLine startLine e)
        end in
      changed_text e
  end.

Definition ed_yank (e : Editor) : Editor :=
  match kill_peek (em_killRing (ed_memory e)) with
  | None => e
  | Some text => set_lastAction (Some act_yank) (insertYankedText text (pushUndoSnapshot e))
  end.

Definition rotate_ring (e : Editor) : Editor :=
  put_memory (mkMemory (kill_rotate (em_killRing (ed_memory e))) (em_lastAction (ed_memory e)) (em_undoStack (ed_memory e))) e.

Definition ed_yankPop (e : Editor) : Editor :=
  if negb (lastAction_is act_yank e) || (length (em_killRing (ed_memory e)) <=? 1)%nat then e
  else
    let e := rotate_ring (deleteYankedText (pushUndoSnapshot e)) in
    set_lastAction (Some act_yank) (insertYankedText (default [] (kill_peek (em_killRing (ed_memory e)))) e).

Definition ed_undo (e : Editor) : Editor :=
  let e := exitHistoryBrowsing e in
  match undo_pop (em_undoStack (ed_memory e)) with
  | (None, _) => e
  | (Some snapshot, rest) =>
      let e := put_memory (mkMemory (em_killRing (ed_memory e)) None rest) (put_state snapshot e) in
      let v := ed_view e in
      changed_text (put_view (mkView None (ev_snapped v) (ev_scroll v) (ev_width v)) e)
  end.

(** *** New lines, pastes, submission *)

Definition addNewLine (e : Editor) : Editor :=
  let e := pushUndoSnapshot (set_lastAction None (exitHistoryBrowsing (cancelAutocomplete e))) in
  let before := before_cursor e in
  let after := after_cursor e in
  let e := set_line before e in
  let e := set_lines (arr_splice (lines e) (cursorLine e + 1) 0 [after]) e in
  changed_text (setCursorCol 0 (set_cursorLine (cursorLine e + 1) e)).

(** [/\x1b\[(\d+);5u/g]: control bytes that a terminal wrote as keys. *)
Definition control_key : rx := (exact (27 :: js "[") >>> XGroup 1 (XPlus is_digit) >>> exact (js ";5u"))%rx.
Definition decode_paste (text : jsstr) : jsstr :=
  replace_all control_key (fun m =>
    let cp := digits_value (default [] (group 1 (mt_groups m))) in
    if (97 <=? cp) && (cp <=? 122) then [cp - 96] else if (65 <=? cp) && (cp <=? 90) then [cp - 64] else mt_text m) text.

Definition path_start (text : jsstr) : bool := match text with c :: _ => (c =? 47) || (c =? 126) || (c =? 46) | [] => false end.

(** What is inserted for a paste: printable text, after a space when a path follows a
    word. *)
Definition paste_text (pastedText : jsstr) (e : Editor) : jsstr :=
  let filtered := List.filter (fun c => (c =? 10) || (32 <=? c)) (normalizeText (decode_paste pastedText)) in
  let charBefore := if 0 <? cursorCol e then current_line e !! Z.to_nat (cursorCol e - 1) else None in
  if path_start filtered && match charBefore with Some c => is_word c | None => false end then 32 :: filtered else filtered.

Definition marker_text (id nLines nChars : Z) : jsstr :=
  js "[paste #" ++ show id ++ (if 10 <? nLines then js " +" ++ show nLines ++ js " lines]" else js " " ++ show nChars ++ js " chars]").

Definition ed_handlePaste (pastedText : jsstr) (e : Editor) : Editor :=
  let e := pushUndoSnapshot (set_lastAction None (exitHistoryBrowsing (cancelAutocomplete e))) in
  let text := paste_text pastedText e in
  let nLines := zlen (split_on 10 text) in
  if (10 <? nLines) || (1000 <? zlen text) then
    let p := ed_pastes e in
    let id := ps_counter p + 1 in
    let e := put_pastes (mkPastes (ps_pastes p ++ [(id, text)]) id (ps_buffer p) (ps_isInPaste p)) e in
    insertTextAtCursorInternal (marker_text id nLines (zlen text)) e
  else insertTextAtCursorInternal text e.

(** The markers of one paste. *)
Definition marker_of (id : Z) : rx :=
  (exact (js "[paste #" ++ show id)
   >>> XOpt (exact (js " ") >>> ((exact (js "+") >>> XPlus is_digit >>> exact (js " lines")) ||| (XPlus is_digit >>> exact (js " chars"))))
   >>> exact (js "]"))%rx.

Definition expandPasteMarkers (pastes : list (Z * jsstr)) (text : jsstr) : jsstr :=
  foldl (fun result p => replace_all (marker_of p.1) (fun _ => p.2) result) text pastes.

Definition getExpandedText (e : Editor) : jsstr := expandPasteMarkers (ps_pastes (ed_pastes e)) (getText e).

Definition submitValue (e : Editor) : Editor :=
  let e := cancelAutocomplete e in
  let result := trim (getExpandedText e) in
  let p := ed_pastes e in
  let v := ed_view e in
  let e := put_pastes (mkPastes [] 0 (ps_buffer p) (ps_isInPaste p)) (put_state empty_state e) in
  let e := put_view (mkView (ev_preferred v) (ev_snapped v) 0 (ev_width v)) (exitHistoryBrowsing e) in
  let e := put_memory (mkMemory (em_killRing (ed_memory e)) None []) e in
  call (onSubmitText result) (call (onChange []) e).

(** *** Setting the text, history *)

Inductive placement := place_start | place_end.

Definition setTextInternal (text : jsstr) (where_ : placement) (e : Editor) : Editor :=
  let ls := split_on 10 text in
  let line := match where_ with place_start => 0 | place_end => zlen ls - 1 end in
  let e := put_state (mkEditorState ls line (cursorCol e)) e in
  let e := setCursorCol (match where_ with place_start => 0 | place_end => zlen (current_line e) end) e in
  let v := ed_view e in
  changed_text (put_view (mkView (ev_preferred v) (ev_snapped v) 0 (ev_width v)) e).

Definition setText (text : jsstr) (e : Editor) : Editor :=
  let e := exitHistoryBrowsing (set_lastAction None (cancelAutocomplete e)) in
  let normalized := normalizeText text in
  let e := if bool_decide (getText e = normalized) then e else pushUndoSnapshot e in
  setTextInternal normalized place_end e.

Definition insertTextAtCursor (text : jsstr) (e : Editor) : Editor :=
  if is_empty text then e
  else insertTextAtCursorInternal text (exitHistoryBrowsing (set_lastAction None (pushUndoSnapshot (cancelAutocomplete e)))).

Definition addToHistory (text : jsstr) (e : Editor) : Editor :=
  let trimmed := trim text in
  let h := ed_history e in
  if is_empty trimmed || bool_decide (head (eh_entries h) = Some trimmed) then e
  else
    let entries := trimmed :: eh_entries h in
    put_history (mkHistory (if (100 <? length entries)%nat then removelast entries else entries) (eh_index h) (eh_draft h)) e.

(** The argument is the direction: up goes to older entries. *)
Definition navigateHistory (direction : Z) (e : Editor) : Editor :=
  let e := set_lastAction None e in
  let h := ed_history e in
  let newIndex := eh_index h - direction in
  if is_empty (eh_entries h) || (newIndex <? -1) || (zlen (eh_entries h) <=? newIndex) then e
  else
    let e :=
      if (eh_index h =? -1) && (0 <=? newIndex)
      then let e := pushUndoSnapshot e in put_history (mkHistory (eh_entries h) (eh_index h) (Some (ed_state e))) e
      else e in
    let draft := eh_draft (ed_history e) in
    let e := put_history (mkHistory (eh_entries h) newIndex draft) e in
    if newIndex =? -1 then
      let e := put_history (mkHistory (eh_entries h) newIndex None) e in
      match draft with
      | Some state => changed_text (put_view (mkView None None 0 (ev_width (ed_view e))) (put_state state e))
      | None => setTextInternal [] place_end e
      end
    else setTextInternal (arr_get (eh_entries h) newIndex) (if direction =? -1 then place_start else place_end) e.

End Text.
