(* ===== verification/Editor.v ===== *)
(** The editor of the terminal interface: visual lines and movement over them, the answers
    to completion requests, and the handling of keys.  [None] is an exception: the stack
    overflow of wrapping.  Key bindings, the decoding of keys and the size of a page are
    parameters. *)
From S2P Require Import Prelude JsString StringSearch TextEditing TextInput Wrapping EditorState.

(** ** Visual lines *)

Record visual_line := mkVisual { vl_logical : Z; vl_start : Z; vl_length : Z }.

Section Visual.
Context `{Segmenter} `{UnicodeWidth}.

Definition visual_lines_of (width : Z) (e : Editor) (i : Z) (line : jsstr) : option (list visual_line) :=
  if is_empty line then Some [mkVisual i 0 0]
  else if visibleWidth line <=? width then Some [mkVisual i 0 (zlen line)]
  else chunks ← wordWrapLine width 2 line (Some (segment_graphemes e line));
       Some (map (fun c => mkVisual i (ch_start c) (ch_end c - ch_start c)) chunks).

Fixpoint visual_map (width : Z) (e : Editor) (i : Z) (ls : list jsstr) : option (list visual_line) :=
  match ls with
  | [] => Some []
  | line :: ls' => vls ← visual_lines_of width e i line; rest ← visual_map width e (i + 1) ls'; Some (vls ++ rest)
  end.

Definition buildVisualLineMap (e : Editor) : option (list visual_line) := visual_map (ev_width (ed_view e)) e 0 (lines e).

(** Whether no later visual line belongs to the same line. *)
Definition last_segment (vl : visual_line) (rest : list visual_line) : bool :=
  match rest with [] => true | next :: _ => negb (vl_logical next =? vl_logical vl) end.

Fixpoint find_visual (i : Z) (vls : list visual_line) (line col : Z) : option Z :=
  match vls with
  | [] => None
  | vl :: rest =>
      let offset := col - vl_start vl in
      if (vl_logical vl =? line) && (0 <=? offset) && ((offset <? vl_length vl) || last_segment vl rest && (offset =? vl_length vl)) then Some i
      else find_visual (i + 1) rest line col
  end.

Definition findVisualLineAt (vls : list visual_line) (line col : Z) : Z := default (zlen vls - 1) (find_visual 0 vls line col).
Definition findCurrentVisualLine (vls : list visual_line) (e : Editor) : Z := findVisualLineAt vls (cursorLine e) (cursorCol e).

Definition vl_at (vls : list visual_line) (i : Z) : option visual_line := if i <? 0 then None else vls !! Z.to_nat i.

(** The last column to stand on in a visual line. *)
Definition max_column (vls : list visual_line) (i : Z) (vl : visual_line) : Z :=
  if last_segment vl (drop (S (Z.to_nat i)) vls) then vl_length vl else Z.max 0 (vl_length vl - 1).

(** The column and the preferred column after it. *)
Definition computeVerticalMoveColumn (preferred : option Z) (current sourceMax targetMax : Z) : Z * option Z :=
  match preferred with
  | Some p =>
      if current <? sourceMax then
        if targetMax <? current then (targetMax, Some current) else (current, None)
      else if (targetMax <? current) || (targetMax <? p) then (targetMax, preferred)
      else (p, None)
  | None => if targetMax <? current then (targetMax, Some current) else (current, None)
  end.

(** The segment of several units that holds the column, unless it starts there. *)
Fixpoint snap_segment (col : Z) (segs : list placed) : option placed :=
  match segs with
  | [] => None
  | seg :: segs' =>
      if col <? seg.1 then None
      else if zlen (sg_text seg.2) <=? 1 then snap_segment col segs'
      else if col <? pl_end seg then Some seg
      else snap_segment col segs'
  end.

(** The first visual line at or after one that is not a part of the segment. *)
Fixpoint after_segment (fuel : nat) (vls : list visual_line) (logical segEnd next : Z) : Z :=
  match fuel, vl_at vls next with
  | S fuel', Some vl => if (vl_logical vl =? logical) && (vl_start vl <? segEnd) then after_segment fuel' vls logical segEnd (next + 1) else next
  | _, _ => next
  end.

Definition set_preferred (p : option Z) (e : Editor) : Editor :=
  put_view (mkView p (ev_snapped (ed_view e)) (ev_scroll (ed_view e)) (ev_width (ed_view e))) e.
Definition set_snapped (s : option Z) (e : Editor) : Editor :=
  put_view (mkView (ev_preferred (ed_view e)) s (ev_scroll (ed_view e)) (ev_width (ed_view e))) e.

(** The target only grows from call to call; the fuel is the number of visual lines. *)
Fixpoint move_to_visual_line (fuel : nat) (vls : list visual_line) (current target : Z) (e : Editor) : Editor :=
  match fuel, vl_at vls current, vl_at vls target with
  | S fuel', Some currentVL, Some targetVL =>
      let currentVisualCol :=
        match ev_snapped (ed_view e) with
        | Some s =>
            let i := findVisualLineAt vls (vl_logical currentVL) s in
            s - match vl_at vls i with Some vl => vl_start vl | None => 0 end
        | None => cursorCol e - vl_start currentVL
        end in
      let '(moveToVisualCol, preferred) :=
        computeVerticalMoveColumn (ev_preferred (ed_view e)) currentVisualCol (max_column vls current currentVL) (max_column vls target targetVL) in
      let logicalLine := arr_get (lines e) (vl_logical targetVL) in
      let col := Z.min (vl_start targetVL + moveToVisualCol) (zlen logicalLine) in
      let e := put_state (mkEditorState (lines e) (vl_logical targetVL) col) (set_preferred preferred e) in
      match snap_segment col (segment_graphemes e logicalLine) with
      | None => set_snapped None e
      | Some seg =>
          let next := after_segment (length vls) vls (vl_logical targetVL) (pl_end seg) (target + 1) in
          if (seg.1 <? vl_start targetVL) && (current <? target) && (next <? zlen vls)
          then move_to_visual_line fuel' vls current next e
          else put_state (mkEditorState (lines e) (cursorLine e) seg.1) (set_snapped (Some col) e)
      end
  | _, _, _ => e
  end.

Definition moveToVisualLine (vls : list visual_line) (current target : Z) (e : Editor) : Editor :=
  move_to_visual_line (length vls) vls current target e.

Definition syncAutocomplete (e : Editor) : Editor := match ac_state (ed_complete e) with Some _ => updateAutocomplete e | None => e end.

Definition moveVertically (deltaLine : Z) (e : Editor) : option Editor :=
  let e := set_lastAction None e in
  vls ← buildVisualLineMap e;
  let current := findCurrentVisualLine vls e in
  let target := current + deltaLine in
  Some (syncAutocomplete (if (0 <=? target) && (target <? zlen vls) then moveToVisualLine vls current target e else e)).

Definition moveRight (e : Editor) : option Editor :=
  let e := set_lastAction None e in
  vls ← buildVisualLineMap e;
  Some (syncAutocomplete (
    if cursorCol e <? zlen (current_line e) then setCursorCol (cursorCol e + first_length (grapheme_texts e (after_cursor e))) e
    else if cursorLine e <? zlen (lines e) - 1 then setCursorCol 0 (set_cursorLine (cursorLine e + 1) e)
    else match vl_at vls (findCurrentVisualLine vls e) with
         | Some vl => set_preferred (Some (cursorCol e - vl_start vl)) e
         | None => e
         end)).

Definition moveLeft (e : Editor) : option Editor :=
  let e := set_lastAction None e in
  _ ← buildVisualLineMap e;
  Some (syncAutocomplete (
    if 0 <? cursorCol e then setCursorCol (cursorCol e - last_length (grapheme_texts e (before_cursor e))) e
    else if 0 <? cursorLine e then let e := set_cursorLine (cursorLine e - 1) e in setCursorCol (zlen (current_line e)) e
    else e)).

Definition pageScroll (pageSize direction : Z) (e : Editor) : option Editor :=
  let e := set_lastAction None e in
  vls ← buildVisualLineMap e;
  let current := findCurrentVisualLine vls e in
  Some (moveToVisualLine vls current (Z.max 0 (Z.min (zlen vls - 1) (current + direction * pageSize))) e).

Definition isOnFirstVisualLine (e : Editor) : option bool :=
  vls ← buildVisualLineMap e; Some (findCurrentVisualLine vls e =? 0).
Definition isOnLastVisualLine (e : Editor) : option bool :=
  vls ← buildVisualLineMap e; Some (findCurrentVisualLine vls e =? zlen vls - 1).

Definition moveToLineStart (e : Editor) : Editor := setCursorCol 0 (set_lastAction None e).
Definition moveToLineEnd (e : Editor) : Editor := let e := set_lastAction None e in setCursorCol (zlen (current_line e)) e.

(** ** Jumps to a character *)

(** [line.indexOf(char, from)], and [line.lastIndexOf(char, from)], where a place before
    the start counts as the start. *)
Definition index_from (char line : jsstr) (from : Z) : option Z :=
  let n := Z.to_nat (Z.min from (zlen line)) in (fun i => Z.of_nat (n + i)) <$> index_of char (drop n line).
Fixpoint last_index (char line : jsstr) (n : nat) : option Z :=
  if starts_with char (drop n line) then Some (Z.of_nat n)
  else match n with O => None | S n' => last_index char line n' end.
Definition last_index_from (char line : jsstr) (from : Z) : option Z := last_index char line (Z.to_nat (Z.min (Z.max 0 from) (zlen line))).

Fixpoint jump_search (n : nat) (char : jsstr) (direction : jump_direction) (i : Z) (first : bool) (e : Editor) : option (Z * Z) :=
  match n with
  | O => None
  | S n' =>
      let line := arr_get (lines e) i in
      let found :=
        match direction with
        | jump_forward => index_from char line (if first then cursorCol e + 1 else 0)
        | jump_backward => last_index_from char line (if first then cursorCol e - 1 else zlen line)
        end in
      match found with
      | Some col => Some (i, col)
      | None => jump_search n' char direction (match direction with jump_forward => i + 1 | jump_backward => i - 1 end) false e
      end
  end.

Definition jumpToChar (char : jsstr) (direction : jump_direction) (e : Editor) : Editor :=
  let e := set_lastAction None e in
  let n := match direction with jump_forward => zlen (lines e) - cursorLine e | jump_backward => cursorLine e + 1 end in
  match jump_search (Z.to_nat n) char direction (cursorLine e) true e with
  | Some (line, col) => setCursorCol col (set_cursorLine line e)
  | None => e
  end.

(** ** Answers to completion requests *)

Definition map_complete (f : autocomplete -> autocomplete) (e : Editor) : Editor := put_complete (f (ed_complete e)) e.

Definition setAutocompleteTriggerCharacters (triggerCharacters : list jsstr) (e : Editor) : Editor :=
  let next := foldl (fun next char =>
    if negb (zlen char =? 1) || bool_decide (char = js "/") || isWhitespaceChar char || bool_decide (char ∈ next) then next else next ++ [char])
    DEFAULT_AUTOCOMPLETE_TRIGGER_CHARACTERS triggerCharacters in
  map_complete (fun c => mkAutocomplete (ac_state c) (ac_list c) (ac_prefix c) (ac_startToken c) (ac_requestId c) (ac_timer c) (ac_abort c)
                           (ac_aborted c) (ac_waiting c) (ac_running c) next) e.

Definition setAutocompleteProvider (provider : AutocompleteProvider) (e : Editor) : Editor :=
  setAutocompleteTriggerCharacters (ap_triggerCharacters provider) (put_provider (Some provider) (cancelAutocomplete e)).

Definition applyCompletion (provider : AutocompleteProvider) (item : AutocompleteItem) (prefix : jsstr) (e : Editor) : Editor :=
  let e := set_lastAction None (pushUndoSnapshot e) in
  let s := ap_applyCompletion provider (ed_state e) item prefix in
  setCursorCol (es_cursorCol s) (put_state (mkEditorState (es_lines s) (es_cursorLine s) (cursorCol e)) e).

(** The index of an exact match, or else of the first item that starts with the prefix. *)
Fixpoint best_match (i : Z) (firstPrefix : option Z) (prefix : jsstr) (items : list AutocompleteItem) : option Z :=
  match items with
  | [] => firstPrefix
  | item :: rest =>
      if bool_decide (ai_value item = prefix) then Some i
      else best_match (i + 1) (match firstPrefix with None => if starts_with prefix (ai_value item) then Some i else None | _ => firstPrefix end) prefix rest
  end.
Definition getBestAutocompleteMatchIndex (items : list AutocompleteItem) (prefix : jsstr) : option Z :=
  if is_empty prefix then None else best_match 0 None prefix items.

Definition applyAutocompleteSuggestions (prefix : jsstr) (items : list AutocompleteItem) (mode : autocomplete_mode) (e : Editor) : Editor :=
  let selected := match getBestAutocompleteMatchIndex items prefix with Some i => Z.max 0 (Z.min i (zlen items - 1)) | None => 0 end in
  map_complete (fun c => mkAutocomplete (Some mode) (Some (items, selected)) prefix (ac_startToken c) (ac_requestId c) (ac_timer c) (ac_abort c)
                           (ac_aborted c) (ac_waiting c) (ac_running c) (ac_triggers c)) e.

(** The debounce timer fires: the request joins the chain. *)
Definition fireDebounceTimer (e : Editor) : Editor :=
  map_complete (fun c =>
    match ac_timer c with
    | None => c
    | Some task =>
        mkAutocomplete (ac_state c) (ac_list c) (ac_prefix c) (ac_startToken c) (ac_requestId c) None (ac_abort c) (ac_aborted c)
          (ac_waiting c ++ [task]) (ac_running c) (ac_triggers c)
    end) e.

(** The first task of the chain, once no other runs: it makes its request unless a later
    one was started. *)
Definition startNextTask (e : Editor) : Editor :=
  let c := ed_complete e in
  match ac_running c, ac_waiting c with
  | None, (startToken, options) :: waiting =>
      let current := (startToken =? ac_startToken c) && match ed_provider e with Some _ => true | None => false end in
      let requestId := ac_requestId c + 1 in
      put_complete (
        if current
        then mkAutocomplete (ac_state c) (ac_list c) (ac_prefix c) (ac_startToken c) requestId (ac_timer c) (Some requestId) (ac_aborted c)
               waiting (Some (mkRequest requestId (getText e) (cursorLine e) (cursorCol e) options)) (ac_triggers c)
        else mkAutocomplete (ac_state c) (ac_list c) (ac_prefix c) (ac_startToken c) (ac_requestId c) (ac_timer c) (ac_abort c) (ac_aborted c)
               waiting None (ac_triggers c)) e
  | _, _ => e
  end.

Definition isAutocompleteRequestCurrent (r : autocomplete_request) (e : Editor) : bool :=
  let c := ed_complete e in
  negb (bool_decide (rq_id r ∈ ac_aborted c)) && (rq_id r =? ac_requestId c) && bool_decide (getText e = rq_text r)
  && (cursorLine e =? rq_line r) && (cursorCol e =? rq_col r).

(** The suggestions arrive: the prefix and the items, or nothing. *)
Definition receiveSuggestions (suggestions : option (jsstr * list AutocompleteItem)) (e : Editor) : Editor :=
  match ac_running (ed_complete e), ed_provider e with
  | Some r, Some provider =>
      let e := map_complete (fun c => mkAutocomplete (ac_state c) (ac_list c) (ac_prefix c) (ac_startToken c) (ac_requestId c) (ac_timer c)
                 (ac_abort c) (ac_aborted c) (ac_waiting c) None (ac_triggers c)) e in
      if negb (isAutocompleteRequestCurrent r e) then e
      else
        let e := map_complete (fun c => mkAutocomplete (ac_state c) (ac_list c) (ac_prefix c) (ac_startToken c) (ac_requestId c) (ac_timer c)
                   None (ac_aborted c) (ac_waiting c) (ac_running c) (ac_triggers c)) e in
        let force := ro_force (rq_options r) in
        match suggestions with
        | None | Some (_, []) => cancelAutocomplete e
        | Some (prefix, (item :: rest) as items) =>
            if force && ro_explicitTab (rq_options r) && is_empty rest then changed_text (applyCompletion provider item prefix e)
            else applyAutocompleteSuggestions prefix items (if force then ac_force else ac_regular) e
        end
  | _, _ => e
  end.

(** ** Keys *)

Inductive editor_key :=
  | ek_jumpForward | ek_jumpBackward | ek_copy | ek_undo | ek_cancel | ek_selectUp | ek_selectDown | ek_tab | ek_confirm
  | ek_deleteToLineEnd | ek_deleteToLineStart | ek_deleteWordBackward | ek_deleteWordForward | ek_deleteCharBackward | ek_deleteCharForward
  | ek_yank | ek_yankPop | ek_cursorLineStart | ek_cursorLineEnd | ek_cursorWordLeft | ek_cursorWordRight
  | ek_newLine | ek_submit | ek_cursorUp | ek_cursorDown | ek_cursorRight | ek_cursorLeft | ek_pageUp | ek_pageDown.

(** Keys that are compared by name. *)
Inductive named_key := nk_shiftBackspace | nk_shiftDelete | nk_enter | nk_shiftSpace.

Variable kb : jsstr -> editor_key -> bool.
Variable matchesKey : jsstr -> named_key -> bool.
Variable decodePrintableKey : jsstr -> option jsstr.
(** Whether Shift+Enter is bound to submission. *)
Variable submitShiftEnter : bool.
Variable pageSize : Z.

(** [data.charCodeAt(0) >= 32]. *)
Definition printable_start (data : jsstr) : bool := match data with c :: _ => 32 <=? c | [] => false end.

(** The items of the picker with the selection moved. *)
Definition select_move (up : bool) (l : list AutocompleteItem * Z) : list AutocompleteItem * Z :=
  let '(items, i) := l in
  (items, if up then (if i =? 0 then zlen items - 1 else i - 1) else (if i =? zlen items - 1 then 0 else i + 1)).
Definition selected_item (l : list AutocompleteItem * Z) : option AutocompleteItem := if l.2 <? 0 then None else l.1 !! Z.to_nat l.2.

Definition set_list (l : list AutocompleteItem * Z) (e : Editor) : Editor :=
  map_complete (fun c => mkAutocomplete (ac_state c) (Some l) (ac_prefix c) (ac_startToken c) (ac_requestId c) (ac_timer c) (ac_abort c)
                           (ac_aborted c) (ac_waiting c) (ac_running c) (ac_triggers c)) e.

(** A key for the open picker; [inr] means that the key is handled further. *)
Definition handle_picker (data : jsstr) (e : Editor) : Editor + Editor :=
  match ac_state (ed_complete e), ac_list (ed_complete e) with
  | Some _, Some l =>
      if kb data ek_cancel then inl (cancelAutocomplete e)
      else if kb data ek_selectUp then inl (set_list (select_move true l) e)
      else if kb data ek_selectDown then inl (set_list (select_move false l) e)
      else
        match selected_item l, ed_provider e with
        | Some item, Some provider =>
            if kb data ek_tab then inl (changed_text (cancelAutocomplete (applyCompletion provider item (ac_prefix (ed_complete e)) e)))
            else if kb data ek_confirm then
              let prefix := ac_prefix (ed_complete e) in
              let e := cancelAutocomplete (applyCompletion provider item prefix e) in
              if starts_with (js "/") prefix then inr e else inl (changed_text e)
            else inr e
        | _, _ => if kb data ek_tab then inl e else inr e
        end
  | _, _ => inr e
  end.

Definition handleTabCompletion (e : Editor) : Editor :=
  match ed_provider e with
  | None => e
  | Some _ =>
      let slash := isInSlashCommandContext (before_cursor e) e && bool_decide (index_of (js " ") (trim_start (before_cursor e)) = None) in
      requestAutocomplete (mkRequestOptions (negb slash) true) e
  end.

(** The character before the cursor is a backslash. *)
Definition after_backslash (e : Editor) : bool :=
  (0 <? cursorCol e) && bool_decide (current_line e !! Z.to_nat (cursorCol e - 1) = Some 92).

Definition shouldSubmitOnBackslashEnter (data : jsstr) (e : Editor) : bool :=
  negb (ed_disableSubmit e) && matchesKey data nk_enter && submitShiftEnter && after_backslash e.

Definition is_new_line (data : jsstr) : bool :=
  kb data ek_newLine
  || bool_decide (head data = Some 10) && (1 <? length data)%nat
  || bool_decide (data = [27; 13]) || bool_decide (data = 27 :: js "[13;2~")
  || (1 <? length data)%nat && bool_decide (27 ∈ data) && bool_decide (13 ∈ data)
  || bool_decide (data = nl).

Definition handle_up (e : Editor) : option Editor :=
  first ← isOnFirstVisualLine e;
  if first && negb (is_empty (eh_entries (ed_history e))) then Some (navigateHistory (-1) e)
  else if first : bool then Some (moveToLineStart e)
  else moveVertically (-1) e.

Definition handle_down (e : Editor) : option Editor :=
  last_ ← isOnLastVisualLine e;
  if (-1 <? eh_index (ed_history e)) && last_ then Some (navigateHistory 1 e)
  else if last_ : bool then Some (moveToLineEnd e)
  else moveVertically 1 e.

(** The keys after those of the picker. *)
Definition handle_edit_key (data : jsstr) (e : Editor) : option Editor :=
  if kb data ek_tab && match ac_state (ed_complete e) with None => true | Some _ => false end then Some (handleTabCompletion e)
  else if kb data ek_deleteToLineEnd then Some (deleteToEndOfLine e)
  else if kb data ek_deleteToLineStart then Some (deleteToStartOfLine e)
  else if kb data ek_deleteWordBackward then Some (ed_deleteWordBackwards e)
  else if kb data ek_deleteWordForward then Some (ed_deleteWordForward e)
  else if kb data ek_deleteCharBackward || matchesKey data nk_shiftBackspace then Some (ed_handleBackspace e)
  else if kb data ek_deleteCharForward || matchesKey data nk_shiftDelete then Some (ed_handleForwardDelete e)
  else if kb data ek_yank then Some (ed_yank e)
  else if kb data ek_yankPop then Some (ed_yankPop e)
  else if kb data ek_cursorLineStart then Some (moveToLineStart e)
  else if kb data ek_cursorLineEnd then Some (moveToLineEnd e)
  else if kb data ek_cursorWordLeft then Some (ed_moveWordBackwards e)
  else if kb data ek_cursorWordRight then Some (ed_moveWordForwards e)
  else if is_new_line data then
    Some (if shouldSubmitOnBackslashEnter data e then submitValue (ed_handleBackspace e) else addNewLine e)
  else if kb data ek_submit then
    Some (if ed_disableSubmit e then e
          else if after_backslash e then addNewLine (ed_handleBackspace e)
          else submitValue e)
  else if kb data ek_cursorUp then handle_up e
  else if kb data ek_cursorDown then handle_down e
  else if kb data ek_cursorRight then moveRight e
  else if kb data ek_cursorLeft then moveLeft e
  else if kb data ek_pageUp then pageScroll pageSize (-1) e
  else if kb data ek_pageDown then pageScroll pageSize 1 e
  else if kb data ek_jumpForward then Some (put_jump (Some jump_forward) e)
  else if kb data ek_jumpBackward then Some (put_jump (Some jump_backward) e)
  else if matchesKey data nk_shiftSpace then Some (ed_insertCharacter (js " ") e)
  else match decodePrintableKey data with
       | Some printable => Some (ed_insertCharacter printable e)
       | None => Some (if printable_start data then ed_insertCharacter data e else e)
       end.

Definition handle_editor_key (data : jsstr) (e : Editor) : option Editor :=
  if kb data ek_copy then Some e
  else if kb data ek_undo then Some (ed_undo e)
  else match handle_picker data e with
       | inl e => Some e
       | inr e => handle_edit_key data e
       end.

(** A key in jump mode; [inr] means that it is handled further. *)
Definition handle_jump (data : jsstr) (e : Editor) : Editor + Editor :=
  match ed_jumpMode e with
  | None => inr e
  | Some direction =>
      let e := put_jump None e in
      if kb data ek_jumpForward || kb data ek_jumpBackward then inl e
      else match decodePrintableKey data with
           | Some printable => inl (jumpToChar printable direction e)
           | None => if printable_start data then inl (jumpToChar data direction e) else inr e
           end
  end.

Definition set_buffer (buffer : jsstr) (isInPaste : bool) (e : Editor) : Editor :=
  put_pastes (mkPastes (ps_pastes (ed_pastes e)) (ps_counter (ed_pastes e)) buffer isInPaste) e.

Fixpoint handle_editor_input (fuel : nat) (data : jsstr) (e : Editor) : option Editor :=
  match fuel with
  | O => Some e
  | S fuel' =>
      match handle_jump data e with
      | inl e => Some e
      | inr e =>
          let '(data, e) :=
            match index_of paste_start data with
            | Some _ => (remove_first paste_start data, set_buffer [] true e)
            | None => (data, e)
            end in
          if ps_isInPaste (ed_pastes e) then
            let buffer := ps_buffer (ed_pastes e) ++ data in
            let e := set_buffer buffer true e in
            match index_of paste_end buffer with
            | None => Some e
            | Some endIndex =>
                let e := if is_empty (take endIndex buffer) then e else ed_handlePaste (take endIndex buffer) e in
                let e := set_buffer [] false e in
                let remaining := drop (endIndex + 6) buffer in
                if is_empty remaining then Some e else handle_editor_input fuel' remaining e
            end
          else handle_editor_key data e
      end
  end.

Definition ed_handleInput (data : jsstr) (e : Editor) : option Editor :=
  handle_editor_input (S (length (ps_buffer (ed_pastes e) ++ data))) data e.

End Visual.
