(* ===== verification/EditorProps.v ===== *)
(** The editor keeps what it was given: the undo stack leads back to the text the editor
    started with, and what was killed can be yanked back, across lines. *)
From S2P Require Import Prelude JsString StringSearch TextEditing TextInput Wrapping EditorState Editor.

(** ** Events *)

(** What happens to an editor: keys, the steps of completion requests, the calls of its
    host, and a new width. *)
Inductive editor_event :=
  | ev_key (data : jsstr)
  | ev_timer
  | ev_task
  | ev_answer (suggestions : option (jsstr * list AutocompleteItem))
  | ev_setText (text : jsstr)
  | ev_insertText (text : jsstr)
  | ev_addToHistory (text : jsstr)
  | ev_setProvider (provider : AutocompleteProvider)
  | ev_resize (width : Z).

Definition set_width (width : Z) (e : Editor) : Editor :=
  put_view (mkView (ev_preferred (ed_view e)) (ev_snapped (ed_view e)) (ev_scroll (ed_view e)) width) e.

Section Events.
Context `{Segmenter} `{UnicodeWidth}.
Variable kb : jsstr -> editor_key -> bool.
Variable matchesKey : jsstr -> named_key -> bool.
Variable decodePrintableKey : jsstr -> option jsstr.
Variable submitShiftEnter : bool.
Variable pageSize : Z.

Definition run_event (ev : editor_event) (e : Editor) : option Editor :=
  match ev with
  | ev_key data => ed_handleInput kb matchesKey decodePrintableKey submitShiftEnter pageSize data e
  | ev_timer => Some (fireDebounceTimer e)
  | ev_task => Some (startNextTask e)
  | ev_answer suggestions => Some (receiveSuggestions suggestions e)
  | ev_setText text => Some (setText text e)
  | ev_insertText text => Some (insertTextAtCursor text e)
  | ev_addToHistory text => Some (addToHistory text e)
  | ev_setProvider provider => Some (setAutocompleteProvider provider e)
  | ev_resize width => Some (set_width width e)
  end.

Definition run_events (evs : list editor_event) (e : Editor) : option Editor := foldl (fun o ev => e ← o; run_event ev e) (Some e) evs.

End Events.

(** ** What undo depends on *)

Definition is_submit (c : editor_call) : bool := match c with onSubmitText _ => true | onChange _ => false end.
Definition submitted (e : Editor) : bool := existsb is_submit (ed_calls e).

Definition undo_stack (e : Editor) : list EditorState := em_undoStack (ed_memory e).
Definition last_action (e : Editor) : option edit_action := em_lastAction (ed_memory e).
Definition kill_ring (e : Editor) : list jsstr := em_killRing (ed_memory e).
Definition state_text (s : EditorState) : jsstr := join nl (es_lines s).

(** The undo history, abstractly: an edit saves the state first; typing on, or browsing on
    in the history, changes the text without saving it again; other operations keep the
    text. *)
Inductive undo_step (e e' : Editor) : Prop :=
  | us_edit : undo_stack e' = undo_stack e ++ [ed_state e] -> submitted e' = submitted e -> undo_step e e'
  | us_more : undo_stack e <> [] -> undo_stack e' = undo_stack e -> submitted e' = submitted e -> undo_step e e'
  | us_keep : getText e' = getText e -> undo_stack e' = undo_stack e -> submitted e' = submitted e ->
      (last_action e' = Some act_type_word -> last_action e = Some act_type_word) ->
      (eh_index (ed_history e') <> -1 -> eh_index (ed_history e) <> -1) -> undo_step e e'
  | us_undo s : undo_stack e = undo_stack e' ++ [s] -> ed_state e' = s -> submitted e' = submitted e ->
      last_action e' = None -> eh_index (ed_history e') = -1 -> undo_step e e'
  | us_submit : undo_stack e' = [] -> getText e' = [] -> submitted e' = true ->
      last_action e' = None -> eh_index (ed_history e') = -1 -> undo_step e e'.

(** The text that undo leads back to. *)
Definition oldest_text (e : Editor) : jsstr := match undo_stack e with [] => getText e | s :: _ => state_text s end.

Record undo_inv (t0 : jsstr) (e : Editor) : Prop := {
  ui_oldest : oldest_text e = if submitted e then [] else t0;
  ui_typed : last_action e = Some act_type_word -> undo_stack e <> [];
  ui_browsing : eh_index (ed_history e) <> -1 -> undo_stack e <> [];
}.

Lemma undo_step_inv t0 e e' : undo_step e e' -> undo_inv t0 e -> undo_inv t0 e'.
Proof.
  intros Hs [Ho Ht Hb]. destruct Hs as [Hk Hc|Hne Hk Hc|Htext Hk Hc Hact Hidx|s Hk He Hc Hact Hidx|Hk Htext Hc Hact Hidx].
  - split; [| rewrite Hk; by intros _ [_ [=]]%app_nil | rewrite Hk; by intros _ [_ [=]]%app_nil]. rewrite Hc, <- Ho. unfold oldest_text. rewrite Hk. by destruct (undo_stack e).
  - split; [| by rewrite Hk | by rewrite Hk]. rewrite Hc, <- Ho. unfold oldest_text. rewrite Hk. by destruct (undo_stack e).
  - split; [| rewrite Hk; auto | rewrite Hk; auto]. rewrite Hc, <- Ho. unfold oldest_text. rewrite Hk. by destruct (undo_stack e).
  - split; [| by rewrite Hact | by rewrite Hidx]. rewrite Hc, <- Ho. unfold oldest_text. rewrite Hk.
    destruct (undo_stack e') as [|s' l]; [| done]. unfold getText, state_text, lines. by rewrite He.
  - split; [| by rewrite Hact | by rewrite Hidx]. unfold oldest_text. by rewrite Hc, Hk, Htext.
Qed.

(** ** The operations as steps of undo *)

(** Operations that change only the completion and the calls of [onChange]. *)
Record same_core (e e' : Editor) : Prop := {
  sc_state : ed_state e' = ed_state e;
  sc_memory : ed_memory e' = ed_memory e;
  sc_history : ed_history e' = ed_history e;
  sc_view : ed_view e' = ed_view e;
  sc_provider : ed_provider e' = ed_provider e;
  sc_submitted : submitted e' = submitted e;
}.

#[export] Instance same_core_refl : Reflexive same_core.
Proof. by intros e. Qed.
#[export] Instance same_core_trans : Transitive same_core.
Proof. intros e1 e2 e3 [] []. split; congruence. Qed.

Lemma submitted_change e t : existsb is_submit (ed_calls e ++ [onChange t]) = submitted e.
Proof. rewrite existsb_app. cbn. by rewrite orb_false_r. Qed.

Lemma changed_same e : same_core e (changed_text e).
Proof. split; [done.. | apply submitted_change]. Qed.

Lemma cancel_same e : same_core e (cancelAutocomplete e).
Proof. done. Qed.

Lemma request_same o e : same_core e (requestAutocomplete o e).
Proof. unfold requestAutocomplete. destruct (ed_provider e); [| done]. by destruct (negb _). Qed.

Lemma update_same e : same_core e (updateAutocomplete e).
Proof. unfold updateAutocomplete. destruct (ac_state _); [apply request_same | done]. Qed.

Lemma retrigger_same e : same_core e (retrigger e).
Proof. unfold retrigger. destruct (ac_state _); [apply update_same |]. case_if; [apply request_same | done]. Qed.

Lemma sync_same e : same_core e (syncAutocomplete e).
Proof. unfold syncAutocomplete. destruct (ac_state _); [apply update_same | done]. Qed.

Lemma undo_step_same e e' e'' : undo_step e e' -> same_core e' e'' -> undo_step e e''.
Proof.
  intros Hs [H1 H2 H3 _ _ H4].
  assert (Ek : undo_stack e'' = undo_stack e') by (unfold undo_stack; congruence).
  assert (Ea : last_action e'' = last_action e') by (unfold last_action; congruence).
  assert (Et : getText e'' = getText e') by (unfold getText, lines; congruence).
  destruct Hs as [Hk Hc|Hne Hk Hc|Htext Hk Hc Hact Hidx|s Hk He Hc Hact Hidx|Hk Htext Hc Hact Hidx].
  - apply us_edit; congruence.
  - apply us_more; [done | congruence | congruence].
  - apply us_keep; try congruence; [by rewrite Ea | by rewrite H3].
  - apply (us_undo _ _ s); congruence.
  - apply us_submit; congruence.
Qed.

Lemma same_undo_step e e' : same_core e e' -> undo_step e e'.
Proof. intros Hs. apply (undo_step_same e e e'); [by apply us_keep | done]. Qed.

(** Operations that change only the text and the history. *)
Definition same_memory (e e' : Editor) : Prop := ed_memory e' = ed_memory e /\ submitted e' = submitted e.

#[export] Instance same_memory_refl : Reflexive same_memory.
Proof. by intros e. Qed.
#[export] Instance same_memory_trans : Transitive same_memory.
Proof. intros e1 e2 e3 (H1 & H2) (H1' & H2'). split; etrans; eassumption. Qed.

Lemma core_memory e e' : same_core e e' -> same_memory e e'.
Proof. by intros []. Qed.

Lemma saved_edit e e' : same_memory (pushUndoSnapshot e) e' -> undo_step e e'.
Proof. intros [Hm Hc]. apply us_edit; [| done]. unfold undo_stack. by rewrite Hm. Qed.

(** The same with another kill ring and last action. *)
Lemma saved_edit_as ring action e e' :
  same_memory (put_memory (mkMemory ring action (undo_stack e ++ [ed_state e])) e) e' -> undo_step e e'.
Proof. intros [Hm Hc]. apply us_edit; [| done]. unfold undo_stack. by rewrite Hm. Qed.

Lemma set_lastAction_memory a e : ed_memory (set_lastAction a e) = mkMemory (kill_ring e) a (undo_stack e).
Proof. done. Qed.

Lemma yanked_memory text e : same_memory e (insertYankedText text e).
Proof.
  unfold insertYankedText. etrans; [| apply core_memory, changed_same]. by destruct (split_on 10 text) as [|l [|l' ls]].
Qed.

Lemma deleted_memory e : same_memory e (deleteYankedText e).
Proof.
  unfold deleteYankedText. destruct (kill_peek _) as [[|c t]|]; [done | | done]. etrans; [| apply core_memory, changed_same].
  by destruct (split_on 10 (c :: t)) as [|l [|l' ls]].
Qed.

Lemma inserted_memory text e : same_memory e (insertTextAtCursorInternal text e).
Proof.
  unfold insertTextAtCursorInternal. destruct (is_empty text); [done |]. etrans; [| apply core_memory, changed_same].
  by destruct (split_on 10 (normalizeText text)) as [|l [|l' ls]].
Qed.

Lemma setInternal_memory text where_ e : same_memory e (setTextInternal text where_ e).
Proof. unfold setTextInternal. etrans; [| apply core_memory, changed_same]. done. Qed.

Section Steps.
Context `{Segmenter}.

(** An operation that ends in a call of [onChange], perhaps with a new request. *)
Ltac ends_in_change := first
  [ eapply undo_step_same; [| apply retrigger_same]; eapply undo_step_same; [| apply changed_same]
  | eapply undo_step_same; [| apply changed_same] ].

Lemma backspace_undo e : undo_step e (ed_handleBackspace e).
Proof. unfold ed_handleBackspace. ends_in_change. case_if; [by apply us_edit |]. case_if; [by apply us_edit | by apply us_keep]. Qed.

Lemma forwardDelete_undo e : undo_step e (ed_handleForwardDelete e).
Proof. unfold ed_handleForwardDelete. ends_in_change. case_if; [by apply us_edit |]. case_if; [by apply us_edit | by apply us_keep]. Qed.

Lemma deleteToStart_undo e : undo_step e (deleteToStartOfLine e).
Proof. unfold deleteToStartOfLine. ends_in_change. case_if; [by apply us_edit |]. case_if; [by apply us_edit | by apply us_keep]. Qed.

Lemma deleteToEnd_undo e : undo_step e (deleteToEndOfLine e).
Proof. unfold deleteToEndOfLine. ends_in_change. case_if; [by apply us_edit |]. case_if; [by apply us_edit | by apply us_keep]. Qed.

Lemma moveWordBackwards_undo e : undo_step e (ed_moveWordBackwards e) /\ ed_memory (ed_moveWordBackwards e) = ed_memory (set_lastAction None e).
Proof. unfold ed_moveWordBackwards. case_if; [case_if |]; (split; [by apply us_keep | done]). Qed.

Lemma moveWordForwards_undo e : undo_step e (ed_moveWordForwards e) /\ ed_memory (ed_moveWordForwards e) = ed_memory (set_lastAction None e).
Proof. unfold ed_moveWordForwards. case_if; [case_if |]; (split; [by apply us_keep | done]). Qed.

Lemma deleteWordBackwards_undo e : undo_step e (ed_deleteWordBackwards e).
Proof.
  unfold ed_deleteWordBackwards. ends_in_change. case_if; [case_if; [by apply us_edit | by apply us_keep] |].
  unfold ed_moveWordBackwards. by destruct (cursorCol _ =? 0); [destruct (0 <? _) |]; apply us_edit.
Qed.

Lemma deleteWordForward_undo e : undo_step e (ed_deleteWordForward e).
Proof.
  unfold ed_deleteWordForward. ends_in_change. case_if; [case_if; [by apply us_edit | by apply us_keep] |].
  unfold ed_moveWordForwards. by destruct (zlen _ <=? cursorCol _); [destruct (_ <? _) |]; apply us_edit.
Qed.

Lemma yank_undo e : undo_step e (ed_yank e).
Proof.
  unfold ed_yank. destruct (kill_peek _) as [text|]; [| by apply us_keep].
  apply (saved_edit_as (kill_ring e) (Some act_yank)). destruct (yanked_memory text (pushUndoSnapshot e)) as [Hm Hc].
  split; [| exact Hc]. rewrite set_lastAction_memory. unfold kill_ring, undo_stack. by rewrite Hm.
Qed.

Lemma yankPop_undo e : undo_step e (ed_yankPop e).
Proof.
  unfold ed_yankPop. case_if; [by apply us_keep |]. set (e1 := deleteYankedText _). destruct (deleted_memory (pushUndoSnapshot e)) as [Hm Hc]. fold e1 in Hm, Hc.
  apply (saved_edit_as (kill_rotate (kill_ring e)) (Some act_yank)).
  set (t := default [] _). destruct (yanked_memory t (rotate_ring e1)) as [Hm' Hc']. split; [| by etrans]. rewrite set_lastAction_memory. unfold kill_ring, undo_stack. rewrite Hm'. cbn. by rewrite Hm.
Qed.

Lemma undo_undo e : undo_step e (ed_undo e).
Proof.
  unfold ed_undo, undo_pop. cbn [exitHistoryBrowsing put_history ed_memory]. destruct (em_undoStack (ed_memory e)) as [|s l _] eqn:E using rev_ind; [by apply us_keep |].
  rewrite last_snoc, removelast_last. ends_in_change. by apply (us_undo _ _ s).
Qed.

Lemma newLine_undo e : undo_step e (addNewLine e).
Proof. unfold addNewLine. ends_in_change. by apply us_edit. Qed.

Lemma paste_undo text e : undo_step e (ed_handlePaste text e).
Proof.
  apply (saved_edit_as (kill_ring e) None). unfold ed_handlePaste. case_if; (etrans; [| apply inserted_memory]); done.
Qed.

Lemma submit_undo e : undo_step e (submitValue e).
Proof. apply us_submit; try done. unfold submitted. cbn. rewrite existsb_app. by rewrite orb_true_r. Qed.

Lemma insertCharacter_same e char : exists e', ed_insertCharacter char e = e' /\ same_core (
  let e := exitHistoryBrowsing e in
  let e := if isWhitespaceChar char || negb (lastAction_is act_type_word e) then pushUndoSnapshot e else e in
  let e := set_lastAction (Some act_type_word) e in
  setCursorCol (cursorCol e + zlen char) (set_line (before_cursor e ++ char ++ after_cursor e) e)) e'.
Proof.
  eexists. split; [reflexivity |]. unfold ed_insertCharacter. cbv zeta. set (e1 := setCursorCol _ _).
  transitivity (changed_text e1); [apply changed_same |]. destruct (ac_state _); [apply update_same |].
  case_if; [apply request_same |]. case_if; [case_if; [apply request_same | done] |]. case_if; [case_if; [apply request_same | done] | done].
Qed.

Lemma insertCharacter_undo t0 char e : undo_inv t0 e -> undo_step e (ed_insertCharacter char e).
Proof.
  intros Hi. destruct (insertCharacter_same e char) as (e' & -> & Hs). eapply undo_step_same; [| exact Hs]. cbv zeta.
  destruct (_ || _) eqn:E; [by apply us_edit |]. apply orb_false_iff in E as [_ E%negb_false_iff%bool_decide_eq_true].
  apply us_more; [| done | done]. apply (ui_typed _ _ Hi), E.
Qed.

Lemma setText_undo text e : undo_step e (setText text e).
Proof.
  unfold setText. cbv zeta. case_bool_decide as Ht.
  - unfold setTextInternal. ends_in_change. apply us_keep; try done. exact (eq_trans (join_split 10 _) (eq_sym Ht)).
  - apply (saved_edit_as (kill_ring e) None). etrans; [| apply setInternal_memory]. done.
Qed.

Lemma insertText_undo text e : undo_step e (insertTextAtCursor text e).
Proof.
  unfold insertTextAtCursor. case_if; [by apply us_keep |]. apply (saved_edit_as (kill_ring e) None). etrans; [| apply inserted_memory]. done.
Qed.

Lemma addToHistory_undo text e : undo_step e (addToHistory text e).
Proof. unfold addToHistory. cbv zeta. case_if; by apply us_keep. Qed.

Lemma navigate_undo t0 direction e : direction <> 0 -> undo_inv t0 e -> undo_step e (navigateHistory direction e).
Proof.
  intros Hd Hi. unfold navigateHistory. cbv zeta. destruct (_ || _) eqn:Hout; [by apply us_keep |]. cbn in Hout.
  set (e0 := if (eh_index _ =? -1) && _ then _ else _).
  set (e1 := put_history (mkHistory _ _ (eh_draft _)) e0). set (e2 := if _ =? -1 then _ else _).
  assert (H12 : same_memory e0 e2).
  { transitivity e1; [done |]. subst e2. case_if; [| apply setInternal_memory].
    destruct (eh_draft _); [etrans; [| apply core_memory, changed_same]; done | etrans; [| apply setInternal_memory]; done]. }
  destruct ((eh_index (ed_history e) =? -1) && (0 <=? eh_index (ed_history e) - direction)) eqn:E.
  - apply (saved_edit_as (kill_ring e) None). etrans; [| exact H12]. subst e0. cbn. by rewrite E.
  - assert (Hm : same_memory (set_lastAction None e) e2) by (etrans; [| exact H12]; subst e0; cbn; by rewrite E).
    apply us_more; [apply (ui_browsing _ _ Hi); intros Hx; rewrite Hx in *; cbn in E; bool_hyps; lia | unfold undo_stack; by rewrite (proj1 Hm) | apply Hm].
Qed.

(** *** Movement *)

Context `{UnicodeWidth}.

(** Operations that only move the cursor. *)
Definition moves (e e' : Editor) : Prop :=
  lines e' = lines e /\ ed_memory e' = ed_memory e /\ ed_history e' = ed_history e /\ submitted e' = submitted e.

Lemma moves_trans e e' e'' : moves e e' -> moves e' e'' -> moves e e''.
Proof. intros (H1 & H2 & H3 & H4) (H1' & H2' & H3' & H4'). split_and!; etrans; eassumption. Qed.

Lemma same_moves e e' : same_core e e' -> moves e e'.
Proof. intros [H1 H2 H3 _ _ H4]. split_and!; [unfold lines; by rewrite H1 | done | done | done]. Qed.

Lemma moves_undo e e' : moves (set_lastAction None e) e' -> undo_step e e'.
Proof.
  intros (H1 & H2 & H3 & H4). apply us_keep; [unfold getText; by rewrite H1 | unfold undo_stack; by rewrite H2 | done | |].
  - unfold last_action. by rewrite H2.
  - by rewrite H3.
Qed.

Lemma visual_moves fuel vls current target e : moves e (move_to_visual_line fuel vls current target e).
Proof.
  revert target e. induction fuel as [|fuel IH]; intros target e; [done |]. cbn [move_to_visual_line].
  destruct (vl_at vls current) as [currentVL|]; [| done]. destruct (vl_at vls target) as [targetVL|]; [| done]. cbv zeta.
  destruct (computeVerticalMoveColumn _ _ _ _) as [column preferred]. destruct (snap_segment _ _) as [seg|]; [| done].
  case_if; [| done]. eapply moves_trans; [| apply IH]. done.
Qed.

Lemma moveVertically_undo delta e e' : moveVertically delta e = Some e' -> undo_step e e'.
Proof.
  unfold moveVertically. destruct (buildVisualLineMap _) as [vls|]; [| done]. intros [= <-]. apply moves_undo.
  eapply moves_trans; [| apply same_moves, sync_same]. case_if; [apply visual_moves | done].
Qed.

Lemma pageScroll_undo size direction e e' : pageScroll size direction e = Some e' -> undo_step e e'.
Proof. unfold pageScroll. destruct (buildVisualLineMap _) as [vls|]; [| done]. intros [= <-]. apply moves_undo, visual_moves. Qed.

Lemma moveRight_undo e e' : moveRight e = Some e' -> undo_step e e'.
Proof.
  unfold moveRight. destruct (buildVisualLineMap _) as [vls|]; [| done]. intros [= <-]. apply moves_undo.
  eapply moves_trans; [| apply same_moves, sync_same]. case_if; [done |]. case_if; [done |]. by destruct (vl_at _ _).
Qed.

Lemma moveLeft_undo e e' : moveLeft e = Some e' -> undo_step e e'.
Proof.
  unfold moveLeft. destruct (buildVisualLineMap _) as [vls|]; [| done]. intros [= <-]. apply moves_undo.
  eapply moves_trans; [| apply same_moves, sync_same]. case_if; [done |]. by case_if.
Qed.

Lemma jump_undo char direction e : undo_step e (jumpToChar char direction e).
Proof. apply moves_undo. unfold jumpToChar. cbv zeta. by destruct (jump_search _ _ _ _ _ _) as [[line col]|]. Qed.

(** *** Completion *)

Lemma completion_undo provider item prefix e : undo_step e (applyCompletion provider item prefix e).
Proof. by apply us_edit. Qed.

Lemma timer_same e : same_core e (fireDebounceTimer e).
Proof. done. Qed.

Lemma task_same e : same_core e (startNextTask e).
Proof. unfold startNextTask. cbv zeta. destruct (ac_running _); [done |]. by destruct (ac_waiting _) as [|[token options] waiting]. Qed.

Lemma tab_same e : same_core e (handleTabCompletion e).
Proof. unfold handleTabCompletion. destruct (ed_provider e); [apply request_same | done]. Qed.

Lemma answer_undo suggestions e : undo_step e (receiveSuggestions suggestions e).
Proof.
  unfold receiveSuggestions. destruct (ac_running _) as [r|]; [| by apply us_keep]. destruct (ed_provider e) as [provider|]; [| by apply us_keep].
  cbv zeta. case_if; [by apply us_keep |]. destruct suggestions as [[prefix [|item rest]]|]; [by apply us_keep | | by apply us_keep].
  case_if; [| by apply us_keep]. ends_in_change. by apply us_edit.
Qed.

End Steps.

Create HintDb undo_steps.
#[export] Hint Resolve same_undo_step tab_same deleteToEnd_undo deleteToStart_undo deleteWordBackwards_undo deleteWordForward_undo
  forwardDelete_undo yank_undo yankPop_undo : undo_steps.
#[export] Hint Extern 1 (undo_step _ (moveToLineStart _)) => by apply us_keep : undo_steps.
#[export] Hint Extern 1 (undo_step _ (moveToLineEnd _)) => by apply us_keep : undo_steps.
#[export] Hint Extern 1 (undo_step _ (ed_moveWordBackwards _)) => apply moveWordBackwards_undo : undo_steps.
#[export] Hint Extern 1 (undo_step _ (ed_moveWordForwards _)) => apply moveWordForwards_undo : undo_steps.

(** ** Undo leads back to the start *)

Section Undo.
Context `{Segmenter} `{UnicodeWidth}.
Variable kb : jsstr -> editor_key -> bool.
Variable matchesKey : jsstr -> named_key -> bool.
Variable decodePrintableKey : jsstr -> option jsstr.
Variable submitShiftEnter : bool.
Variable pageSize : Z.
Variable t0 : jsstr.

Lemma picker_inv data e : undo_inv t0 e ->
  match handle_picker kb data e with inl e' => undo_inv t0 e' | inr e' => undo_inv t0 e' end.
Proof.
  intros Hi. unfold handle_picker. destruct (ac_state _); [| done]. destruct (ac_list _) as [l|]; [| done].
  destruct (kb data ek_cancel); [by apply (undo_step_inv t0 e), Hi; apply same_undo_step, cancel_same |].
  do 2 (case_if; [apply (undo_step_inv t0 e), Hi; by apply us_keep |]).
  destruct (selected_item l) as [item|]; [| by case_if]. destruct (ed_provider e) as [provider|]; [| by case_if].
  assert (Ha : undo_step e (cancelAutocomplete (applyCompletion provider item (ac_prefix (ed_complete e)) e))) by by apply us_edit.
  case_if; [eapply undo_step_inv, Hi; eapply undo_step_same; [exact Ha | apply changed_same] |].
  case_if; [| done]. cbv zeta. case_if; [by eapply undo_step_inv |]. eapply undo_step_inv, Hi. eapply undo_step_same; [exact Ha | apply changed_same].
Qed.

Lemma edit_key_inv data e e' : undo_inv t0 e ->
  handle_edit_key kb matchesKey decodePrintableKey submitShiftEnter pageSize data e = Some e' -> undo_inv t0 e'.
Proof.
  intros Hi. assert (Hstep : forall e1, undo_step e e1 -> undo_inv t0 e1) by (intros e1 Hs; by eapply undo_step_inv).
  assert (Hback : undo_inv t0 (ed_handleBackspace e)) by apply Hstep, backspace_undo.
  unfold handle_edit_key, handle_up, handle_down.
  do 13 (case_if; [intros [= <-]; by auto with undo_steps |]).
  case_if; [intros [= <-]; case_if; eapply undo_step_inv; eauto using submit_undo, newLine_undo |].
  case_if; [intros [= <-]; case_if; [done |]; case_if; [by eapply undo_step_inv, Hback; apply newLine_undo | apply Hstep, submit_undo] |].
  case_if.
  { destruct (isOnFirstVisualLine e) as [first|]; [| done]. cbn. destruct first; cbn; [| intros ?%moveVertically_undo; auto].
    case_if; intros [= <-]; apply Hstep; [by apply (navigate_undo t0) | by apply us_keep]. }
  case_if.
  { destruct (isOnLastVisualLine e) as [final|]; [| done]. cbn. destruct final; cbn; [| rewrite andb_false_r; intros ?%moveVertically_undo; auto].
    case_if; intros [= <-]; apply Hstep; [by apply (navigate_undo t0) | by apply us_keep]. }
  case_if; [intros ?%moveRight_undo; auto |]. case_if; [intros ?%moveLeft_undo; auto |].
  do 2 (case_if; [intros ?%pageScroll_undo; auto |]). do 2 (case_if; [intros [= <-]; apply Hstep; by apply us_keep |]).
  case_if; [intros [= <-]; by eapply Hstep, insertCharacter_undo |].
  destruct (decodePrintableKey data); intros [= <-]; [by eapply Hstep, insertCharacter_undo |]. case_if; [by eapply Hstep, insertCharacter_undo | done].
Qed.

Lemma editor_key_inv data e e' : undo_inv t0 e ->
  handle_editor_key kb matchesKey decodePrintableKey submitShiftEnter pageSize data e = Some e' -> undo_inv t0 e'.
Proof.
  intros Hi. unfold handle_editor_key. case_if; [by intros [= <-] |]. case_if; [intros [= <-]; eapply undo_step_inv, Hi; apply undo_undo |].
  pose proof (picker_inv data e Hi) as Hp. destruct (handle_picker kb data e); [by intros [= <-] | by apply edit_key_inv].
Qed.

Lemma jump_inv data e : undo_inv t0 e ->
  match handle_jump kb decodePrintableKey data e with inl e' => undo_inv t0 e' | inr e' => undo_inv t0 e' end.
Proof.
  intros Hi. unfold handle_jump. destruct (ed_jumpMode e) as [direction|]; [| done]. cbv zeta.
  assert (Hj : undo_inv t0 (put_jump None e)) by (eapply undo_step_inv, Hi; by apply us_keep).
  case_if; [done |]. destruct (decodePrintableKey data); [by eapply undo_step_inv, Hj; apply jump_undo |].
  case_if; [by eapply undo_step_inv, Hj; apply jump_undo | done].
Qed.

Lemma buffer_undo buffer b e : undo_step e (set_buffer buffer b e).
Proof. by apply us_keep. Qed.

Lemma input_inv_undo fuel data e e' : undo_inv t0 e ->
  handle_editor_input kb matchesKey decodePrintableKey submitShiftEnter pageSize fuel data e = Some e' -> undo_inv t0 e'.
Proof.
  revert data e. induction fuel as [|fuel IH]; intros data e Hi; [by intros [= <-] |]. cbn [handle_editor_input].
  pose proof (jump_inv data e Hi) as Hj. destruct (handle_jump kb decodePrintableKey data e) as [e1|e1]; [by intros [= <-] |].
  assert (Hb : forall e1 buffer b, undo_inv t0 e1 -> undo_inv t0 (set_buffer buffer b e1)) by (intros e2 buffer b; apply undo_step_inv, buffer_undo).
  destruct (match index_of paste_start data with Some _ => _ | None => _ end) as [data1 e2] eqn:E.
  assert (H2 : undo_inv t0 e2) by (destruct (index_of paste_start data); injection E as <- <-; auto). clear E.
  case_if; [| by apply editor_key_inv]. cbv zeta. destruct (index_of paste_end _) as [endIndex|]; [| intros [= <-]; auto].
  assert (H3 : undo_inv t0 (set_buffer [] false (if is_empty (take endIndex (ps_buffer (ed_pastes e2) ++ data1)) then set_buffer (ps_buffer (ed_pastes e2) ++ data1) true e2
    else ed_handlePaste (take endIndex (ps_buffer (ed_pastes e2) ++ data1)) (set_buffer (ps_buffer (ed_pastes e2) ++ data1) true e2)))).
  { apply Hb. case_if; [auto |]. eapply undo_step_inv; [apply paste_undo | auto]. }
  case_if; [by intros [= <-] | by apply IH].
Qed.

Lemma event_inv ev e e' : undo_inv t0 e -> run_event kb matchesKey decodePrintableKey submitShiftEnter pageSize ev e = Some e' -> undo_inv t0 e'.
Proof.
  intros Hi. destruct ev; cbn [run_event]; [by apply input_inv_undo |..]; intros [= <-]; (eapply undo_step_inv, Hi).
  - apply same_undo_step, timer_same.
  - apply same_undo_step, task_same.
  - apply answer_undo.
  - apply setText_undo.
  - apply insertText_undo.
  - apply addToHistory_undo.
  - by apply us_keep.
  - by apply us_keep.
Qed.

Lemma events_inv evs e e' : undo_inv t0 e -> run_events kb matchesKey decodePrintableKey submitShiftEnter pageSize evs e = Some e' -> undo_inv t0 e'.
Proof.
  intros Hi. revert e'. induction evs as [|ev evs IH] using rev_ind; intros e'; unfold run_events; [by intros [= <-] |].
  rewrite foldl_app. cbn. destruct (foldl _ _ _) as [e1|] eqn:E; [| done]. cbn. by apply event_inv, IH.
Qed.

(** Undoing everything. *)
Lemma editor_undo_all e : getText (Nat.iter (length (undo_stack e)) ed_undo e) = oldest_text e /\ submitted (Nat.iter (length (undo_stack e)) ed_undo e) = submitted e.
Proof.
  remember (undo_stack e) as stack eqn:E. revert e E. induction stack as [|s stack IH] using rev_ind; intros e E.
  - cbn. unfold oldest_text. by rewrite <- E.
  - rewrite length_app, Nat.add_comm. cbn [Nat.add length]. rewrite Nat.iter_succ_r.
    assert (Hu : undo_stack (ed_undo e) = stack /\ ed_state (ed_undo e) = s /\ submitted (ed_undo e) = submitted e).
    { unfold ed_undo, undo_pop. cbn [exitHistoryBrowsing put_history ed_memory]. fold (undo_stack e). rewrite <- E, last_snoc, removelast_last.
      split_and!; [done | done |]. etrans; [apply submitted_change | done]. }
    destruct Hu as (H1 & H2 & H3). destruct (IH (ed_undo e) (eq_sym H1)) as [-> ->]. split; [| done].
    unfold oldest_text. rewrite H1, <- E. destruct stack; [| done]. unfold getText, state_text, lines. by rewrite H2.
Qed.

End Undo.

(** C18: Undo leads back to the start: whatever keys, pastes, completions, answers of a
    provider and calls of the host an editor with an empty undo stack has seen, undoing as
    often as the stack is deep gives the text it started with, or the empty text if
    something was submitted since. *)
Theorem editor_undo_restores `{Segmenter} `{UnicodeWidth} kb matchesKey decodePrintableKey submitShiftEnter pageSize evs e e' :
  undo_stack e = [] -> last_action e <> Some act_type_word -> eh_index (ed_history e) = -1 -> submitted e = false ->
  run_events kb matchesKey decodePrintableKey submitShiftEnter pageSize evs e = Some e' ->
  getText (Nat.iter (length (undo_stack e')) ed_undo e') = if submitted e' then [] else getText e.
Proof.
  intros Hs Ha Hh Hc Hr. rewrite (proj1 (editor_undo_all e')). refine (ui_oldest (getText e) e' _). eapply events_inv; [| exact Hr].
  split; [| done | done]. unfold oldest_text. by rewrite Hs, Hc.
Qed.

(** ** A sample *)
Module EditorSample.

#[export] Existing Instances plain_segmenter plain_segmenter_ok.

(** Every character takes one column. *)
#[export] Instance one_column : UnicodeWidth := {
  zeroWidth _ := false; rgiEmoji _ := false; dropNonPrinting s := s; eastAsianWidth _ := 1; cjkBreak _ := false;
}.

Lemma one_column_columns c : 0 <= eastAsianWidth c.
Proof. done. Qed.

(** Control characters as keys. *)
Definition keys (data : jsstr) (k : editor_key) : bool :=
  match data, k with
  | [1], ek_cursorLineStart | [5], ek_cursorLineEnd | [11], ek_deleteToLineEnd | [13], ek_submit | [14], ek_cursorDown | [16], ek_cursorUp
  | [21], ek_deleteToLineStart | [23], ek_deleteWordBackward | [25], ek_yank | [26], ek_undo | [29], ek_jumpForward | [30], ek_jumpBackward
  | [127], ek_deleteCharBackward => true
  | _, _ => false
  end.

Abbreviation run := (run_events keys (fun _ _ => false) (fun _ => None) false 5).

Definition pressed (data : jsstr) : editor_event := ev_key data.
Definition pasted (text : jsstr) : editor_event := ev_key (paste_start ++ text ++ paste_end).
Definition eleven_lines : jsstr := join nl (replicate 11 (js "z")).

Definition with_text (ls : list jsstr) (line col : Z) : Editor := put_state (mkEditorState ls line col) new_Editor.

(** A session with a word, a paste, a kill, a yank, a new line and an undo. *)
Definition session : list editor_event :=
  [pressed (js "x"); pressed (js "y"); pasted eleven_lines; pressed [23]; pressed [25]; pressed nl; pressed (js "z"); pressed [26]; pressed [16]; pressed [11]].

Lemma editor_undo_restores_witness : exists e',
  run session (with_text [js "start"] 0 5) = Some e' /\ getText e' <> js "start"
  /\ getText (Nat.iter (length (undo_stack e')) ed_undo e') = js "start".
Proof.
  assert (Hx : (fun e => (submitted e, bool_decide (getText e = js "start"))) <$> run session (with_text [js "start"] 0 5) = Some (false, false)) by (vm_compute; reflexivity).
  apply fmap_Some in Hx as (e' & E & Hx). apply pair_eq in Hx as [Hs Ht]. exists e'. split; [exact E |].
  split; [by apply eq_sym, bool_decide_eq_false in Ht |].
  pose proof (editor_undo_restores keys (fun _ _ => false) (fun _ => None) false 5 session (with_text [js "start"] 0 5) e') as Hu.
  rewrite <- Hs in Hu. apply Hu; [reflexivity | discriminate | reflexivity | reflexivity | exact E].
Defined.

(** Undo keeps the column from before a snap: after a paste, a move up into its marker and
    an undo, a move down puts the cursor before the start of its line. *)
Example undo_then_down :
  exists e, run [ev_resize 10; ev_setText (js "ab" ++ nl ++ replicate 40 97); pressed [16]; pressed [16]; pressed [16]; pressed [16]; pressed [5];
                 pasted eleven_lines; pressed [16]; pressed [26]; pressed [14]] new_Editor = Some e
            /\ lines e = [js "ab"; replicate 40 97] /\ cursorLine e = 1 /\ cursorCol e = -19.
Proof. eexists. vm_compute. auto. Qed.

(** A jump backward from the start of a line finds the character at the cursor. *)
Example jump_backward_stays : jumpToChar (js "b") jump_backward (with_text [js "ab"; js "ba"] 1 0) = with_text [js "ab"; js "ba"] 1 0.
Proof. vm_compute. reflexivity. Qed.

(** A marker's text inside another paste is taken for a marker too. *)
Example marker_in_paste : expandPasteMarkers [(2, js "see [paste #3]"); (3, js "X")] (js "[paste #2]") = js "see X".
Proof. vm_compute. reflexivity. Qed.

End EditorSample.
