(* ===== verification/EditorText.v ===== *)
(** The editor's lines and cursor as one text: where the cursor splits it, what each
    operation does to the two parts, and that kills across lines can be yanked back. *)
From S2P Require Import Prelude JsString StringSearch TextEditing TextInput Wrapping EditorState Editor EditorProps.

(** ** Arrays of lines *)

Lemma arr_get_mid A l B : arr_get (A ++ l :: B) (zlen A) = l.
Proof.
  unfold arr_get. rewrite (proj2 (Z.ltb_ge _ 0)) by apply zlen_nonneg. unfold zlen. rewrite Nat2Z.id.
  by rewrite lookup_app_r, Nat.sub_diag by lia.
Qed.

Lemma arr_set_mid A l B v : arr_set (A ++ l :: B) (zlen A) v = A ++ v :: B.
Proof.
  unfold arr_set. rewrite zlen_app, zlen_cons. pose proof (zlen_nonneg A). pose proof (zlen_nonneg B).
  rewrite (proj2 (Z.ltb_ge _ 0)), (proj2 (Z.ltb_lt _ _)) by lia. unfold zlen. rewrite Nat2Z.id.
  rewrite insert_app_r_alt by lia. by rewrite Nat.sub_diag.
Qed.

Lemma arr_index_at (A B : list jsstr) : arr_index (A ++ B) (zlen A) = length A.
Proof. unfold arr_index. rewrite (proj2 (Z.ltb_ge _ 0)) by apply zlen_nonneg. unfold zlen. apply Nat2Z.id. Qed.

Lemma arr_splice_mid A D B items : arr_splice (A ++ D ++ B) (zlen A) (zlen D) items = A ++ items ++ B.
Proof.
  unfold arr_splice. rewrite arr_index_at. unfold zlen at 1. rewrite Nat2Z.id, take_app_length. do 2 f_equal.
  rewrite app_assoc, <- length_app. apply drop_app_length.
Qed.

Lemma arr_remove A d B : arr_splice (A ++ d :: B) (zlen A) 1 [] = A ++ B.
Proof. exact (arr_splice_mid A [d] B []). Qed.

Lemma arr_insert A B items : arr_splice (A ++ B) (zlen A) 0 items = A ++ items ++ B.
Proof. exact (arr_splice_mid A [] B items). Qed.

Lemma zlen_snoc (A : list jsstr) x : zlen A + 1 = zlen (A ++ [x]).
Proof. by rewrite zlen_app. Qed.

(** ** The text around the cursor *)

Lemma join_mid (A : list jsstr) x y B : join nl (A ++ (x ++ y) :: B) = join nl (A ++ [x]) ++ join nl (y :: B).
Proof.
  induction A as [|a A IH]; cbn [app].
  - destruct B; [done |]. rewrite !join_cons2. cbn [join]. by rewrite <- app_assoc.
  - destruct A as [|a' A]; cbn [app] in *; rewrite !join_cons2, IH; by rewrite <- !app_assoc.
Qed.

(** The lines before the cursor's, the two parts of its line, the lines after. *)
Definition at_text (A : list jsstr) (x y : jsstr) (B : list jsstr) (s : EditorState) : Prop :=
  s = mkEditorState (A ++ (x ++ y) :: B) (zlen A) (zlen x).

(** The cursor is at a place in the lines. *)
Definition state_ok (s : EditorState) : Prop :=
  0 <= es_cursorLine s < zlen (es_lines s) /\ 0 <= es_cursorCol s <= zlen (arr_get (es_lines s) (es_cursorLine s)).

Lemma at_text_ok A x y B s : at_text A x y B s -> state_ok s.
Proof.
  intros ->. unfold state_ok. cbn. rewrite arr_get_mid, !zlen_app, zlen_cons. pose proof (zlen_nonneg A). pose proof (zlen_nonneg B).
  pose proof (zlen_nonneg x). pose proof (zlen_nonneg y). lia.
Qed.

Lemma state_ok_text s : state_ok s -> exists A x y B, at_text A x y B s.
Proof.
  destruct s as [ls line col]. intros [Hl Hc]. cbn in *. unfold zlen in Hl.
  destruct (lookup_lt_is_Some_2 ls (Z.to_nat line)) as [l Hx]; [lia |]. pose proof (take_drop_middle _ _ _ Hx) as E.
  assert (Ez : zlen (take (Z.to_nat line) ls) = line) by (unfold zlen; rewrite length_take; lia).
  rewrite <- E in Hc. rewrite <- Ez in Hc at 3. rewrite arr_get_mid in Hc.
  destruct (cursor_split l col Hc) as (x & y & -> & ->). exists (take (Z.to_nat line) ls), x, y, (drop (S (Z.to_nat line)) ls).
  unfold at_text. by rewrite Ez, E.
Qed.

Section At.
Variables (A : list jsstr) (x y : jsstr) (B : list jsstr) (e : Editor).
Hypothesis (Hat : at_text A x y B (ed_state e)).

Lemma at_lines : lines e = A ++ (x ++ y) :: B.
Proof. unfold lines. by rewrite Hat. Qed.
Lemma at_line : cursorLine e = zlen A.
Proof. unfold cursorLine. by rewrite Hat. Qed.
Lemma at_col : cursorCol e = zlen x.
Proof. unfold cursorCol. by rewrite Hat. Qed.
Lemma at_current : current_line e = x ++ y.
Proof. unfold current_line. rewrite at_lines, at_line. apply arr_get_mid. Qed.
Lemma at_before : before_cursor e = x.
Proof. unfold before_cursor. rewrite at_current, at_col. apply slice_to_app. Qed.
Lemma at_after : after_cursor e = y.
Proof. unfold after_cursor. rewrite at_current, at_col. apply slice_from_app. Qed.
Lemma at_getText : getText e = join nl (A ++ [x]) ++ join nl (y :: B).
Proof. unfold getText. rewrite at_lines. apply join_mid. Qed.

(** A new text for the line, with the cursor in it. *)
Lemma at_set_line x' y' : at_text A x' y' B (ed_state (setCursorCol (zlen x') (set_line (x' ++ y') e))).
Proof. unfold at_text, setCursorCol, set_line, set_lines, put_view, put_state, lines, cursorLine. cbn. rewrite Hat. cbn. by rewrite arr_set_mid. Qed.

Lemma at_set_rest y' : at_text A x y' B (ed_state (set_line (x ++ y') e)).
Proof. unfold at_text, set_line, set_lines, put_state, lines, cursorLine, cursorCol. cbn. rewrite Hat. cbn. by rewrite arr_set_mid. Qed.
End At.

Lemma at_merge_previous A p y B e :
  at_text (A ++ [p]) [] y B (ed_state e) -> at_text A p y B (ed_state (merge_with_previous e)).
Proof.
  intros Hat. unfold merge_with_previous, at_text. cbv zeta. rewrite (at_current _ _ _ _ _ Hat).
  unfold setCursorCol, set_cursorLine, set_lines, put_view, put_state, lines, cursorLine, cursorCol. cbn. rewrite Hat. cbn.
  rewrite <- app_assoc. cbn [app]. rewrite zlen_app. change (zlen [p]) with 1. replace (zlen A + 1 - 1) with (zlen A) by lia.
  rewrite arr_get_mid, arr_set_mid, (zlen_snoc A (p ++ y)). f_equal.
  rewrite (app_assoc A [p ++ y] (y :: B) : A ++ (p ++ y) :: y :: B = _), arr_remove. by rewrite <- app_assoc.
Qed.

Lemma at_merge_next A x n B e :
  at_text A x [] (n :: B) (ed_state e) -> at_text A x n B (ed_state (merge_with_next e)).
Proof.
  intros Hat. unfold merge_with_next, at_text. cbv zeta. rewrite (at_current _ _ _ _ _ Hat).
  unfold set_line, set_lines, put_state, lines, cursorLine, cursorCol. cbn. rewrite Hat. cbn. rewrite app_nil_r, arr_set_mid. f_equal.
  assert (Hn : arr_get (A ++ x :: n :: B) (zlen A + 1) = n).
  { rewrite (zlen_snoc A x), (app_assoc A [x] (n :: B) : A ++ x :: n :: B = _). apply arr_get_mid. }
  rewrite Hn, (zlen_snoc A (x ++ n)), (app_assoc A [x ++ n] (n :: B) : A ++ (x ++ n) :: n :: B = _), arr_remove. by rewrite <- app_assoc.
Qed.

(** ** Segments with markers *)

Lemma segs_in_units line lo hi segs : segs_in line lo hi segs -> units (map snd segs) <= hi - lo.
Proof.
  revert lo. induction segs as [|[i w] segs IH]; intros lo; cbn [segs_in map].
  - change (units []) with 0. lia.
  - intros (Hlo & _ & _ & Hr%IH). cbn [snd]. rewrite units_cons. lia.
Qed.

Lemma segs_in_full line lo hi segs : segs_in line lo hi segs -> Forall (fun w => sg_text w <> []) (map snd segs).
Proof. revert lo. induction segs as [|[i w] segs IH]; intros lo; cbn; [constructor |]. intros (_ & Hw & _ & Hr%IH). by constructor. Qed.

Lemma place_snd i ws : map snd (place i ws) = ws.
Proof. revert i. induction ws as [|w ws IH]; intros i; cbn; [done |]. by rewrite IH. Qed.

Lemma merge_Forall (P : segment -> Prop) text segs : (forall t, P (mkSegment t false)) ->
  forall markers, Forall P (map snd segs) -> Forall P (map snd (merge_markers text markers segs)).
Proof.
  intros Hp. induction segs as [|[i w] segs IH]; intros markers; cbn [map merge_markers]; [done |]. intros [Hw Hs]%Forall_cons.
  destruct (markers_from _ _) as [|marker rest]; [constructor; auto |]. case_if; [| constructor; auto].
  rewrite map_app. apply Forall_app. split; [| auto]. case_if; [constructor; [apply Hp | constructor] | constructor].
Qed.

Lemma merge_some text i w segs markers : 0 <= i -> Forall (fun m => i <= m.1) markers -> merge_markers text markers ((i, w) :: segs) <> [].
Proof.
  intros Hi Hm. cbn. assert (Hf : Forall (fun m => i <= m.1) (markers_from i markers)).
  { apply Forall_forall. intros m Hin%markers_from_sub. revert m Hin. by apply Forall_forall. }
  destruct (markers_from i markers) as [|m rest]; [done |]. case_if; [| done]. apply Forall_cons in Hf as [Hm1 _]. bool_hyps.
  rewrite (proj2 (Z.eqb_eq i m.1)) by lia. done.
Qed.

Lemma markers_segmenting base ids : segmenting base -> (forall s, concat (map sg_text (base s)) = s) ->
  segmenting (fun s => map snd (segmentWithMarkers s base ids)).
Proof.
  intros [Hs Hf Hu Ht] Hc. assert (Hin : forall s, segs_in s 0 (zlen s) (segmentWithMarkers s base ids)) by (intros s; by apply segmentWithMarkers_in).
  split.
  - intros s Hne. specialize (Hs s Hne). unfold segmentWithMarkers. case_if; [by rewrite place_snd |]. case_if; [by rewrite place_snd |].
    destruct (base s) as [|w ws]; [done |]. cbn [place]. intros E%map_eq_nil. revert E. apply merge_some; [done |].
    eapply Forall_impl; [apply match_spans_in | by intros m [? _]].
  - intros s. eapply segs_in_full, Hin.
  - intros s. pose proof (segs_in_units _ _ _ _ (Hin s)). lia.
  - intros s. unfold segmentWithMarkers. case_if; [by rewrite place_snd |]. case_if; [by rewrite place_snd |].
    apply merge_Forall; [by intros t [=] |]. by rewrite place_snd.
Qed.

(** ** Kills *)

Lemma text_before_app (A : list jsstr) x t : join nl (A ++ [x ++ t]) = join nl (A ++ [x]) ++ t.
Proof. exact (join_mid A x t []). Qed.

Lemma text_after_app t y (B : list jsstr) : join nl ((t ++ y) :: B) = t ++ join nl (y :: B).
Proof. exact (join_mid [] t y B). Qed.

Lemma before_newline (A : list jsstr) p : join nl ((A ++ [p]) ++ [[]]) = join nl (A ++ [p]) ++ nl.
Proof. rewrite join_app_cons; [by rewrite app_nil_r | by destruct A]. Qed.

Definition editor_view (e : Editor) : kill_view :=
  mkKillView (join nl (take (Z.to_nat (cursorLine e)) (lines e) ++ [before_cursor e]))
             (join nl (after_cursor e :: drop (S (Z.to_nat (cursorLine e))) (lines e))) (kill_ring e) (lastAction_is act_kill e).

Lemma editor_view_at A x y B e : at_text A x y B (ed_state e) ->
  editor_view e = mkKillView (join nl (A ++ [x])) (join nl (y :: B)) (kill_ring e) (lastAction_is act_kill e).
Proof.
  intros Hat. unfold editor_view. rewrite (at_before _ _ _ _ _ Hat), (at_after _ _ _ _ _ Hat), (at_line _ _ _ _ _ Hat), (at_lines _ _ _ _ _ Hat).
  unfold zlen. rewrite Nat2Z.id, take_app_length. do 2 f_equal. rewrite drop_app_ge by lia.
  replace (S (length A) - length A)%nat with 1%nat by lia. done.
Qed.

(** What a deletion that fills the kill ring does. *)
Inductive editor_kill (A : list jsstr) (x y : jsstr) (B : list jsstr) (e e' : Editor) : Prop :=
  | kills_nothing : ed_state e' = ed_state e -> ed_memory e' = ed_memory e -> editor_kill A x y B e e'
  | kills_before A' x' t : join nl (A ++ [x]) = join nl (A' ++ [x']) ++ t -> t <> [] -> at_text A' x' y B (ed_state e') ->
      ed_memory e' = mkMemory (kill_push t true (lastAction_is act_kill e) (kill_ring e)) (Some act_kill) (undo_stack e ++ [ed_state e]) ->
      editor_kill A x y B e e'
  | kills_after t y' B' : join nl (y :: B) = t ++ join nl (y' :: B') -> t <> [] -> at_text A x y' B' (ed_state e') ->
      ed_memory e' = mkMemory (kill_push t false (lastAction_is act_kill e) (kill_ring e)) (Some act_kill) (undo_stack e ++ [ed_state e]) ->
      editor_kill A x y B e e'.

Section Kills.
Variables (A : list jsstr) (x y : jsstr) (B : list jsstr) (e : Editor).
Hypothesis (Hat : at_text A x y B (ed_state e)).

Definition killing (t : jsstr) (prepend : bool) : Editor := kill t prepend (lastAction_is act_kill e) (pushUndoSnapshot (exitHistoryBrowsing e)).

Lemma killing_at t prepend : at_text A x y B (ed_state (killing t prepend)).
Proof. exact Hat. Qed.

Lemma kill_line_start : x <> [] ->
  editor_kill A x y B e (setCursorCol 0 (set_line (after_cursor (killing x true)) (killing x true))).
Proof.
  intros Hx. rewrite (at_after _ _ _ _ _ (killing_at x true)).
  apply (kills_before A x y B e _ A [] x); [exact (text_before_app A [] x) | done | exact (at_set_line A x y B _ (killing_at x true) [] y) | done].
Qed.

Lemma kill_line_end : y <> [] ->
  editor_kill A x y B e (set_line (before_cursor (killing y false)) (killing y false)).
Proof.
  intros Hy. rewrite (at_before _ _ _ _ _ (killing_at y false)).
  apply (kills_after A x y B e _ y [] B); [| done | | done].
  - rewrite <- text_after_app. by rewrite app_nil_r.
  - pose proof (at_set_rest A x y B _ (killing_at y false) []) as Hr. by rewrite app_nil_r in Hr.
Qed.

Lemma kill_newline_before : x = [] -> A <> [] -> editor_kill A x y B e (merge_with_previous (killing nl true)).
Proof.
  intros Hx Hne. destruct (exists_last Hne) as (A' & p & EA). pose proof (killing_at nl true) as Hk. rewrite EA, Hx in Hk.
  rewrite EA, Hx. apply (kills_before _ [] y B e _ A' p nl); [apply before_newline | done | by apply at_merge_previous | done].
Qed.

Lemma kill_newline_after : y = [] -> B <> [] -> editor_kill A x y B e (merge_with_next (killing nl false)).
Proof.
  intros Hy Hne. assert (exists n B', B = n :: B') as (n & B' & EB) by (clear - Hne; destruct B; [done | eauto]).
  pose proof (killing_at nl false) as Hk. rewrite EB, Hy in Hk. rewrite EB, Hy.
  apply (kills_after A x [] (n :: B') e _ nl n B'); [apply join_cons2 | done | by apply at_merge_next | done].
Qed.
End Kills.

Section EditorKills.
Context `{SegmenterOk}.

Lemma words_segments e : segmenting (segment_words e).
Proof. exact (markers_segmenting words (validPasteIds e) words_segmenting words_cover). Qed.

Lemma editor_kill_same A x y B e e1 e2 : same_memory e1 e2 -> ed_state e2 = ed_state e1 -> editor_kill A x y B e e1 -> editor_kill A x y B e e2.
Proof.
  intros [Hm _] Hs [H1 H2|A' x' t H1 H2 H3 H4|t y' B' H1 H2 H3 H4].
  - apply kills_nothing; congruence.
  - apply (kills_before _ _ _ _ _ _ A' x' t); congruence.
  - apply (kills_after _ _ _ _ _ _ t y' B'); congruence.
Qed.

Lemma editor_kill_changed A x y B e e1 : editor_kill A x y B e e1 -> editor_kill A x y B e (changed_text e1).
Proof. apply editor_kill_same; [apply core_memory, changed_same | done]. Qed.

Lemma zlen_pos {T} (l : list T) : (0 <? zlen l) = negb (is_empty l).
Proof. destruct l; [done |]. rewrite zlen_cons. pose proof (zlen_nonneg l). apply Z.ltb_lt. lia. Qed.

(** The start and the end of the line and of the text. *)
Section Where.
Variables (A : list jsstr) (x y : jsstr) (B : list jsstr) (e : Editor).
Hypothesis (Hat : at_text A x y B (ed_state e)).

Lemma col_positive : (0 <? cursorCol e) = negb (is_empty x).
Proof. rewrite (at_col _ _ _ _ _ Hat). apply zlen_pos. Qed.
Lemma line_positive : (0 <? cursorLine e) = negb (is_empty A).
Proof. rewrite (at_line _ _ _ _ _ Hat). apply zlen_pos. Qed.
Lemma col_before_end : (cursorCol e <? zlen (current_line e)) = negb (is_empty y).
Proof. rewrite (at_col _ _ _ _ _ Hat), (at_current _ _ _ _ _ Hat), zlen_app, <- zlen_pos. lia. Qed.
Lemma line_before_last : (cursorLine e <? zlen (lines e) - 1) = negb (is_empty B).
Proof. rewrite (at_line _ _ _ _ _ Hat), (at_lines _ _ _ _ _ Hat), zlen_app, zlen_cons, <- zlen_pos. lia. Qed.
End Where.

Section Effects.
Variables (A : list jsstr) (x y : jsstr) (B : list jsstr) (e : Editor).
Hypothesis (Hat : at_text A x y B (ed_state e)).

Let e0 : Editor := exitHistoryBrowsing e.

Lemma at_exit : at_text A x y B (ed_state e0).
Proof. exact Hat. Qed.

Lemma nothing_killed e' : ed_state e' = ed_state e -> ed_memory e' = ed_memory e -> editor_kill A x y B e e'.
Proof. apply kills_nothing. Qed.

Lemma deleteToStart_kill : editor_kill A x y B e (deleteToStartOfLine e).
Proof.
  apply editor_kill_changed. fold e0. rewrite (col_positive _ _ _ _ _ at_exit), (line_positive _ _ _ _ _ at_exit), (at_before _ _ _ _ _ at_exit).
  destruct (is_empty x) eqn:Ex; cbn [negb]; [| apply kill_line_start; [done | by apply is_empty_false]].
  destruct (is_empty A) eqn:EA; cbn [negb]; [by apply kills_nothing |].
  apply kill_newline_before; [done | by apply is_empty_true | by apply is_empty_false].
Qed.

Lemma deleteToEnd_kill : editor_kill A x y B e (deleteToEndOfLine e).
Proof.
  apply editor_kill_changed. fold e0. rewrite (col_before_end _ _ _ _ _ at_exit), (line_before_last _ _ _ _ _ at_exit), (at_after _ _ _ _ _ at_exit).
  destruct (is_empty y) eqn:Ey; cbn [negb]; [| apply kill_line_end; [done | by apply is_empty_false]].
  destruct (is_empty B) eqn:EB; cbn [negb]; [by apply kills_nothing |].
  apply kill_newline_after; [done | by apply is_empty_true | by apply is_empty_false].
Qed.

Lemma col_zero : (cursorCol e0 =? 0) = is_empty x.
Proof. rewrite (at_col _ _ _ _ _ at_exit). apply cursor_zero. Qed.

Lemma col_at_end : (zlen (current_line e0) <=? cursorCol e0) = is_empty y.
Proof. rewrite (at_col _ _ _ _ _ at_exit), (at_current _ _ _ _ _ at_exit). apply cursor_at_end. Qed.

(** The cursor after the movement of a word deletion. *)
Lemma word_back_col : x <> [] -> exists x' t, x = x' ++ t /\ t <> []
  /\ cursorCol (ed_moveWordBackwards (pushUndoSnapshot e0)) = zlen x'
  /\ lines (ed_moveWordBackwards (pushUndoSnapshot e0)) = lines e /\ cursorLine (ed_moveWordBackwards (pushUndoSnapshot e0)) = cursorLine e.
Proof.
  intros Hx. set (e1 := set_lastAction None (pushUndoSnapshot e0)). assert (Hat1 : at_text A x y B (ed_state e1)) by exact Hat.
  destruct (split_before x y _ (findWordBackward_bound (segment_words e1) isPasteMarker x y (words_segments e1) Hx)) as (x' & t & Ex & En & Ht).
  exists x', t. split; [done |]. split; [done |]. unfold ed_moveWordBackwards. fold e1.
  assert (Ez : (cursorCol e1 =? 0) = false) by (etrans; [apply col_zero |]; by apply is_empty_false). rewrite Ez.
  split; [| done]. rewrite <- En. cbn. by rewrite (at_current _ _ _ _ _ Hat1), (at_col _ _ _ _ _ Hat1).
Qed.

Lemma word_forward_col : y <> [] -> exists t y', y = t ++ y' /\ t <> []
  /\ cursorCol (ed_moveWordForwards (pushUndoSnapshot e0)) = zlen (x ++ t)
  /\ lines (ed_moveWordForwards (pushUndoSnapshot e0)) = lines e /\ cursorLine (ed_moveWordForwards (pushUndoSnapshot e0)) = cursorLine e.
Proof.
  intros Hy. set (e1 := set_lastAction None (pushUndoSnapshot e0)). assert (Hat1 : at_text A x y B (ed_state e1)) by exact Hat.
  destruct (split_after x y _ (findWordForward_bound (segment_words e1) isPasteMarker x y (words_segments e1) Hy)) as (t & y' & Ey & En & Ht).
  exists t, y'. split; [done |]. split; [done |]. unfold ed_moveWordForwards. fold e1.
  assert (Ez : (zlen (current_line e1) <=? cursorCol e1) = false) by (etrans; [apply col_at_end |]; by apply is_empty_false). rewrite Ez.
  split; [| done]. rewrite <- En. cbn. by rewrite (at_current _ _ _ _ _ Hat1), (at_col _ _ _ _ _ Hat1).
Qed.

Lemma deleteWordBackwards_kill : editor_kill A x y B e (ed_deleteWordBackwards e).
Proof.
  apply editor_kill_changed. fold e0. cbv zeta. rewrite col_zero, (line_positive _ _ _ _ _ at_exit).
  destruct (is_empty x) eqn:Ex.
  { destruct (is_empty A) eqn:EA; cbn [negb]; [by apply kills_nothing |].
    apply kill_newline_before; [done | by apply is_empty_true | by apply is_empty_false]. }
  apply is_empty_false in Ex. destruct (word_back_col Ex) as (x' & t & Hx & Ht & Hc & Hl & Hn).
  destruct (moveWordBackwards_undo (pushUndoSnapshot e0)) as [_ Hm].
  set (e1 := ed_moveWordBackwards (pushUndoSnapshot e0)) in *. rewrite Hc.
  set (e2 := kill _ _ _ _). assert (Hat2 : at_text A x y B (ed_state e2)).
  { unfold at_text. change (ed_state e2) with (mkEditorState (lines e1) (cursorLine e1) (cursorCol e)). rewrite Hl, Hn.
    by rewrite (at_lines _ _ _ _ _ Hat), (at_line _ _ _ _ _ Hat), (at_col _ _ _ _ _ Hat). }
  assert (Hcur : current_line e0 = x' ++ t ++ y) by (rewrite (at_current _ _ _ _ _ at_exit), Hx; by rewrite <- app_assoc).
  change (cursorCol (setCursorCol (cursorCol (pushUndoSnapshot e0)) e1)) with (cursorCol e) in *. rewrite (at_col _ _ _ _ _ Hat2).
  assert (E1 : slice_to (current_line e0) (zlen x') = x') by (rewrite Hcur; apply slice_to_app).
  assert (E2 : slice_from (current_line e0) (zlen x) = y) by (rewrite Hcur, Hx, app_assoc; apply slice_from_app).
  rewrite E1, E2. apply (kills_before _ _ _ _ _ _ A x' t); [rewrite Hx; apply text_before_app | done | exact (at_set_line _ _ _ _ _ Hat2 x' y) |].
  change (ed_memory e2 = mkMemory (kill_push t true (lastAction_is act_kill e) (kill_ring e)) (Some act_kill) (undo_stack e ++ [ed_state e])).
  subst e2. cbn. rewrite Hm. cbn. do 2 f_equal. change (cursorCol e0) with (cursorCol e). rewrite (at_col _ _ _ _ _ Hat), Hcur, Hx. apply slice_mid.
Qed.

Lemma deleteWordForward_kill : editor_kill A x y B e (ed_deleteWordForward e).
Proof.
  apply editor_kill_changed. fold e0. cbv zeta. rewrite col_at_end, (line_before_last _ _ _ _ _ at_exit).
  destruct (is_empty y) eqn:Ey.
  { destruct (is_empty B) eqn:EB; cbn [negb]; [by apply kills_nothing |].
    apply kill_newline_after; [done | by apply is_empty_true | by apply is_empty_false]. }
  apply is_empty_false in Ey. destruct (word_forward_col Ey) as (t & y' & Hy & Ht & Hc & Hl & Hn).
  destruct (moveWordForwards_undo (pushUndoSnapshot e0)) as [_ Hm].
  set (e1 := ed_moveWordForwards (pushUndoSnapshot e0)) in *. rewrite Hc.
  set (e2 := kill _ _ _ _). assert (Hat2 : at_text A x y B (ed_state e2)).
  { unfold at_text. change (ed_state e2) with (mkEditorState (lines e1) (cursorLine e1) (cursorCol e)). rewrite Hl, Hn.
    by rewrite (at_lines _ _ _ _ _ Hat), (at_line _ _ _ _ _ Hat), (at_col _ _ _ _ _ Hat). }
  assert (Hcur : current_line e0 = x ++ t ++ y') by (rewrite (at_current _ _ _ _ _ at_exit), Hy; done).
  rewrite (at_col _ _ _ _ _ Hat2).
  assert (E1 : slice_to (current_line e0) (zlen x) = x) by (rewrite Hcur; apply slice_to_app).
  assert (E2 : slice_from (current_line e0) (zlen (x ++ t)) = y') by (rewrite Hcur, app_assoc; apply slice_from_app).
  rewrite E1, E2. apply (kills_after _ _ _ _ _ _ t y' B); [rewrite Hy; apply text_after_app | done | exact (at_set_rest _ _ _ _ _ Hat2 y') |].
  change (ed_memory e2 = mkMemory (kill_push t false (lastAction_is act_kill e) (kill_ring e)) (Some act_kill) (undo_stack e ++ [ed_state e])).
  assert (E3 : slice (current_line e0) (cursorCol e) (zlen (x ++ t)) = t) by (rewrite (at_col _ _ _ _ _ Hat), Hcur; apply slice_mid).
  subst e2. unfold kill. change (cursorCol (setCursorCol (cursorCol (pushUndoSnapshot e0)) e1)) with (cursorCol e). rewrite E3. cbn. by rewrite Hm.
Qed.
End Effects.

(** ** Insertion of lines *)

(** The lines before the cursor's, and the text before it, after lines were inserted. *)
Definition insert_lines (A : list jsstr) (x : jsstr) (ls : list jsstr) : list jsstr * jsstr :=
  match ls with
  | [] => (A, x)
  | [l] => (A, x ++ l)
  | l :: rest => (A ++ (x ++ l) :: removelast rest, last_line rest)
  end.

Lemma lines_end (l : jsstr) rest : removelast (l :: rest) ++ [last_line (l :: rest)] = l :: rest.
Proof. destruct (exists_last (l := l :: rest)) as (r & z & ->); [done |]. rewrite removelast_last. unfold last_line. by rewrite last_snoc. Qed.

Lemma insert_lines_text A x ls : ls <> [] -> join nl ((insert_lines A x ls).1 ++ [(insert_lines A x ls).2]) = join nl (A ++ [x]) ++ join nl ls.
Proof.
  destruct ls as [|l [|l' rest]]; [done | intros _; apply text_before_app | intros _]. cbn [insert_lines fst snd].
  change ((x ++ l) :: removelast (l' :: rest)) with ([x ++ l] ++ removelast (l' :: rest)). rewrite <- !app_assoc, lines_end. apply join_mid.
Qed.

Lemma splice_lines_at A mids B : splice_lines (zlen A) mids (A ++ B) = A ++ mids ++ B.
Proof.
  revert A. induction mids as [|m mids IH]; intros A; cbn [splice_lines]; [done |].
  rewrite arr_insert, (zlen_snoc A m), (app_assoc A [m] B : A ++ [m] ++ B = _), IH. by rewrite <- app_assoc.
Qed.

(** The rest of the lines, spliced in after the first. *)
Lemma inserted_lines A x l rest y B e1 : rest <> [] -> at_text A x l B (ed_state e1) ->
  let e2 := set_lines (splice_lines (cursorLine e1 + 1) (removelast rest) (lines e1)) e1 in
  let n := zlen A + zlen (l :: rest) - 1 in
  let e3 := set_lines (arr_splice (lines e2) n 0 [last_line (l :: rest) ++ y]) e2 in
  at_text (A ++ (x ++ l) :: removelast rest) (last_line rest) y B
    (ed_state (changed_text (setCursorCol (zlen (last_line (l :: rest))) (set_cursorLine n e3)))).
Proof.
  intros Hne Hat e2 n e3. destruct rest as [|l' rest]; [done |]. set (m := removelast (l' :: rest)).
  assert (H2 : lines e2 = ((A ++ [x ++ l]) ++ m) ++ B).
  { subst e2. unfold lines at 1. cbn [ed_state set_lines put_state es_lines]. rewrite (at_line _ _ _ _ _ Hat), (at_lines _ _ _ _ _ Hat). fold m.
    rewrite (zlen_snoc A (x ++ l)). change (A ++ (x ++ l) :: B) with (A ++ [x ++ l] ++ B). rewrite app_assoc, splice_lines_at. apply app_assoc. }
  assert (Hn : n = zlen ((A ++ [x ++ l]) ++ m)).
  { subst n. rewrite !zlen_app. change (zlen [x ++ l]) with 1. pose proof (f_equal zlen (lines_end l' rest)) as Hz. rewrite zlen_app in Hz.
    change (zlen [last_line (l' :: rest)]) with 1 in Hz. fold m in Hz. rewrite zlen_cons. lia. }
  assert (H3 : lines e3 = ((A ++ [x ++ l]) ++ m) ++ [last_line (l' :: rest) ++ y] ++ B).
  { subst e3. unfold lines at 1. cbn [ed_state set_lines put_state es_lines]. rewrite H2, Hn, arr_insert. done. }
  unfold at_text. transitivity (mkEditorState (lines e3) n (zlen (last_line (l :: l' :: rest)))); [reflexivity |].
  rewrite H3, Hn. f_equal; by rewrite <- !app_assoc.
Qed.

Lemma yanked_at A x y B text e : at_text A x y B (ed_state e) ->
  at_text (insert_lines A x (split_on 10 text)).1 (insert_lines A x (split_on 10 text)).2 y B (ed_state (insertYankedText text e)).
Proof.
  intros Hat. unfold insertYankedText. cbv zeta. set (e0 := exitHistoryBrowsing e). assert (Hat0 : at_text A x y B (ed_state e0)) by exact Hat.
  pose proof (join_split 10 text) as Hj. destruct (split_on 10 text) as [|l [|l' rest]] eqn:E.
  - by destruct (split_on_cons 10 text) as (? & ? & ?); congruence.
  - cbn in Hj. subst l. rewrite (at_col _ _ _ _ _ Hat0), (at_before _ _ _ _ _ Hat0), (at_after _ _ _ _ _ Hat0), <- zlen_app, app_assoc.
    exact (at_set_line _ _ _ _ _ Hat0 (x ++ text) y).
  - rewrite (at_before _ _ _ _ _ Hat0), (at_after _ _ _ _ _ Hat0), (at_line _ _ _ _ _ Hat0). clear Hj E Hat.
    set (e1 := set_line _ e0). pose proof (at_set_rest _ _ _ _ _ Hat0 l) as Hat1. apply (inserted_lines A x l (l' :: rest) y B); [done | exact Hat1].
Qed.

(** *** Kills and yanks *)

Definition run_editor_kill (e : Editor) (k : kill_command) : Editor :=
  match k with
  | KillWordBackward => ed_deleteWordBackwards e
  | KillWordForward => ed_deleteWordForward e
  | KillLineStart => deleteToStartOfLine e
  | KillLineEnd => deleteToEndOfLine e
  end.

Lemma run_editor_kill_effect A x y B e k : at_text A x y B (ed_state e) -> editor_kill A x y B e (run_editor_kill e k).
Proof.
  intros Hat. destruct k; [by apply deleteWordBackwards_kill | by apply deleteWordForward_kill | by apply deleteToStart_kill | by apply deleteToEnd_kill].
Qed.

Definition unchanged (e e' : Editor) : Prop := ed_state e' = ed_state e /\ ed_memory e' = ed_memory e.

Lemma run_editor_kill_step e k : state_ok (ed_state e) ->
  let e' := run_editor_kill e k in
  state_ok (ed_state e') /\ kill_step (editor_view e) (editor_view e') /\ (unchanged e e' \/ last_action e' = Some act_kill).
Proof.
  intros (A & x & y & B & Hat)%state_ok_text e'. pose proof (run_editor_kill_effect A x y B e k Hat) as Hk. fold e' in Hk.
  rewrite (editor_view_at A x y B e Hat). destruct Hk as [H1 H2|A' x' t H1 H2 H3 H4|t y' B' H1 H2 H3 H4].
  - assert (Hat' : at_text A x y B (ed_state e')) by (by rewrite H1). split; [by eapply at_text_ok |]. split; [| left; by split].
    rewrite (editor_view_at A x y B e' Hat'). unfold kill_ring, lastAction_is. rewrite H2. constructor.
  - split; [by eapply at_text_ok |]. split; [| right; unfold last_action; by rewrite H4].
    rewrite (editor_view_at A' x' y B e' H3). unfold kill_ring at 2. unfold lastAction_is at 2. rewrite H4. by apply (kill_before (mkKillView (join nl (A ++ [x])) _ _ _)).
  - split; [by eapply at_text_ok |]. split; [| right; unfold last_action; by rewrite H4].
    rewrite (editor_view_at A x y' B' e' H3). unfold kill_ring at 2. unfold lastAction_is at 2. rewrite H4. by apply (kill_after (mkKillView _ (join nl (y :: B)) _ _)).
Qed.

Lemma editor_kills e ks : state_ok (ed_state e) ->
  let e' := foldl run_editor_kill e ks in
  state_ok (ed_state e') /\ rtc kill_step (editor_view e) (editor_view e') /\ (unchanged e e' \/ last_action e' = Some act_kill).
Proof.
  intros Hok. induction ks as [|k ks IH] using rev_ind; [split_and!; [done | apply rtc_refl | by left] |]. cbv zeta. rewrite foldl_app. cbn [foldl].
  destruct IH as (Hok' & Hr & Hc). destruct (run_editor_kill_step _ k Hok') as (Hok'' & Hs & Hc'). split_and!; [done | by eapply rtc_r |].
  destruct Hc' as [[H1 H2] | Hc']; [| by right]. destruct Hc as [[H3 H4] | Hc]; [left; split; congruence |].
  right. unfold last_action in *. by rewrite H2.
Qed.

(** C19: What was killed in the editor can be put back: after any run of deletions to the
    start or the end of the line and by words in either direction, across ends of lines
    and over paste markers, either nothing has changed, or the text has become another and
    one yank gives it back. *)
Theorem editor_kills_yank_restore e ks :
  state_ok (ed_state e) -> last_action e <> Some act_kill ->
  let e' := foldl run_editor_kill e ks in
  unchanged e e' \/ getText e' <> getText e /\ getText (ed_yank e') = getText e.
Proof.
  intros Hok Hn e'. destruct (editor_kills e ks Hok) as (Hok' & Hr & [Hu | Ha]); [by left | right]. fold e' in Hok', Hr, Ha.
  apply state_ok_text in Hok as (A & x & y & B & Hat). apply state_ok_text in Hok' as (A' & x' & y' & B' & Hat').
  rewrite (editor_view_at _ _ _ _ _ Hat), (editor_view_at _ _ _ _ _ Hat') in Hr.
  assert (Hk : forall e1, lastAction_is act_kill e1 = true <-> last_action e1 = Some act_kill) by (intros e1; apply bool_decide_eq_true).
  destruct (kills_gather _ _ Hr) as [E | [_ (m & Hm & Htop & Htext)]]; cbn [kv_before kv_after kv_ring kv_killing] in *; [by apply not_true_iff_false; rewrite Hk | |].
  - injection E as _ _ _ E. apply Hk in Ha. rewrite Ha in E. symmetry in E. by apply Hk in E.
  - rewrite (at_getText _ _ _ _ _ Hat), Htext. split.
    + rewrite (at_getText _ _ _ _ _ Hat'). intros E%(f_equal zlen). rewrite !zlen_app in E. pose proof (zlen_full m Hm). lia.
    + unfold ed_yank, kill_peek. unfold kill_ring in Htop. rewrite Htop.
      assert (Hat1 : at_text A' x' y' B' (ed_state (pushUndoSnapshot e'))) by exact Hat'. apply (yanked_at _ _ _ _ m) in Hat1.
      etrans; [apply (at_getText _ _ _ _ (insertYankedText m (pushUndoSnapshot e')) Hat1) |]. rewrite insert_lines_text, (join_split 10 m : join nl _ = _), app_assoc; [done |].
      by destruct (split_on_cons 10 m) as (? & ? & ->).
Qed.

End EditorKills.

(** ** A sample *)
Module EditorTextSample.
Import EditorSample.

(** A word, the rest of the line before the cursor, the end of the line before, and the
    rest of the line after the cursor. *)
Definition killed : list kill_command := [KillWordBackward; KillLineStart; KillLineStart; KillLineEnd].
Definition sample : Editor := with_text [js "first"; js "one two, three"; js "last"] 1 8.

Lemma editor_kills_yank_restore_witness :
  lines (foldl run_editor_kill sample killed) = [js "first"; js "last"] /\ getText (ed_yank (foldl run_editor_kill sample killed)) = getText sample.
Proof.
  split; [vm_compute; reflexivity |].
  destruct (editor_kills_yank_restore sample killed) as [[E _] | [_ E]]; [split; split; vm_compute; first [reflexivity | discriminate] | vm_compute; discriminate | | exact E].
  vm_compute in E. discriminate.
Defined.
End EditorTextSample.
