(* ===== verification/EditorVisual.v ===== *)
(** The visual lines of the editor: they tile its lines, so that the cursor always lies on
    one, and a move up or down keeps the cursor within the text. *)
From S2P Require Import Prelude JsString StringSearch TextEditing TextInput Wrapping EditorState Editor EditorProps EditorText.

(** ** Tiles *)

(** The visual lines of a line from a place to its end. *)
Inductive line_tiles (i : Z) (line : jsstr) : Z -> list visual_line -> Prop :=
  | tiles_last pos : 0 <= pos <= zlen line -> line_tiles i line pos [mkVisual i pos (zlen line - pos)]
  | tiles_next pos n vls : 0 <= pos -> 0 <= n -> line_tiles i line (pos + n) vls -> line_tiles i line pos (mkVisual i pos n :: vls).

(** Those of several lines. *)
Inductive visual_tiles (i : Z) : list jsstr -> list visual_line -> Prop :=
  | tiles_nil : visual_tiles i [] []
  | tiles_line line vls ls rest : line_tiles i line 0 vls -> visual_tiles (i + 1) ls rest -> visual_tiles i (line :: ls) (vls ++ rest).

Lemma chunk_line_tiles i line a b chunks vls : 0 <= a ->
  chunk_tiles line a b chunks -> line_tiles i line b vls -> line_tiles i line a (map (fun c => mkVisual i (ch_start c) (ch_end c - ch_start c)) chunks ++ vls).
Proof.
  intros Ha Hc. revert vls. induction Hc as [|b c chunks Hc IH Hbc]; intros vls Hv; [done |]. rewrite map_app, <- app_assoc. apply IH. cbn.
  pose proof (chunk_tiles_le _ _ _ _ Hc). constructor; [lia | lia |]. by replace (b + (c - b)) with c by lia.
Qed.

Lemma whole_line_tiles i line : line_tiles i line 0 [mkVisual i 0 (zlen line)].
Proof. pose proof (tiles_last i line 0) as Ht. rewrite Z.sub_0_r in Ht. apply Ht. pose proof (zlen_nonneg line). lia. Qed.

Section Map.
Context `{SegmenterOk} `{UnicodeWidth}.
Hypothesis columns : forall c, 0 <= eastAsianWidth c.

Lemma visual_lines_tiles width e i line vls : 0 < width -> visual_lines_of width e i line = Some vls -> line_tiles i line 0 vls.
Proof.
  intros Hw. unfold visual_lines_of. destruct (is_empty line) eqn:El.
  { intros [= <-]. apply is_empty_true in El as ->. apply whole_line_tiles. }
  case_if; [intros [= <-]; apply whole_line_tiles |].
  destruct (wordWrapLine width 2 line _) as [chunks|] eqn:Ec; [| done]. intros [= <-].
  destruct (wordWrapLine_last _ _ _ _ _ Ec) as [final Hl].
  apply wrap_covers in Ec; [| done | done |].
  2:{ intros segs [= <-]. apply segmentWithMarkers_in; [apply graphemes_segmenting | by rewrite graphemes_segments, graphemes_cover]. }
  destruct chunks as [|c chunks _] using rev_ind; [done |]. clear Hl. inversion Ec as [Hnil|b c' chunks' Hc Hb Hc' E]; [by destruct chunks |].
  apply app_inj_tail in E as [-> <-]. rewrite map_app. eapply (chunk_line_tiles i line 0 b); [done | exact Hc |]. cbn. constructor.
  pose proof (chunk_tiles_le _ _ _ _ Hc). lia.
Qed.

Lemma visual_map_tiles width e i ls vls : 0 < width -> visual_map width e i ls = Some vls -> visual_tiles i ls vls.
Proof.
  intros Hw. revert i vls. induction ls as [|line ls IH]; intros i vls; cbn [visual_map]; [intros [= <-]; constructor |].
  destruct (visual_lines_of width e i line) as [vl|] eqn:E1; [| done]. destruct (visual_map width e (i + 1) ls) as [rest|] eqn:E2; [| done].
  intros [= <-]. constructor; [by eapply visual_lines_tiles | by apply IH].
Qed.
End Map.

(** *** Finding the cursor *)

(** The visual line holds the column; at its end only if it is the last of its line. *)
Definition holds (vls : list visual_line) (k : nat) (line col : Z) : Prop :=
  exists vl, vls !! k = Some vl /\ vl_logical vl = line /\ vl_start vl <= col <= vl_start vl + vl_length vl
    /\ (col = vl_start vl + vl_length vl -> last_segment vl (drop (S k) vls) = true).

Lemma holds_skip t vls k line col : holds vls k line col -> holds (t ++ vls) (length t + k) line col.
Proof.
  intros (vl & Hk & Hv). exists vl. rewrite lookup_app_r, drop_app_ge by lia.
  replace (length t + k - length t)%nat with k by lia. by replace (S (length t + k) - length t)%nat with (S k) by lia.
Qed.

Lemma tiles_logical i line pos vls : line_tiles i line pos vls -> Forall (fun vl => vl_logical vl = i) vls.
Proof. induction 1; by constructor. Qed.

Lemma find_skip vls line : Forall (fun vl => vl_logical vl <> line) vls ->
  forall j rest col, find_visual j (vls ++ rest) line col = find_visual (j + zlen vls) rest line col.
Proof.
  induction 1 as [|vl vls Hv Hf IH]; intros j rest col; cbn [app find_visual]; [by rewrite zlen_nil, Z.add_0_r |].
  rewrite (proj2 (Z.eqb_neq _ _) Hv). cbn [andb]. rewrite IH, zlen_cons. f_equal. lia.
Qed.

(** The lines that follow are others. *)
Definition others (i : Z) (rest : list visual_line) : Prop := match rest with [] => True | vl :: _ => vl_logical vl <> i end.

Lemma tiles_others i ls vls : visual_tiles (i + 1) ls vls -> others i vls.
Proof.
  inversion 1 as [|line t ls' rest Ht Hr]; subst; [done |]. inversion Ht; cbn; lia.
Qed.

Lemma find_line i line pos t rest col j :
  line_tiles i line pos t -> others i rest -> pos <= col <= zlen line ->
  exists k, find_visual j (t ++ rest) i col = Some (j + Z.of_nat k) /\ holds (t ++ rest) k i col.
Proof.
  intros Ht Ho. revert j. induction Ht as [pos Hp|pos n vls Hp Hn Ht IH]; intros j Hc; cbn [app find_visual vl_logical vl_start vl_length].
  - assert (Hl : last_segment (mkVisual i pos (zlen line - pos)) rest = true).
    { destruct rest as [|vl rest]; [done |]. cbn in *. by apply negb_true_iff, Z.eqb_neq. }
    exists 0%nat. rewrite Z.eqb_refl, Hl, (proj2 (Z.leb_le 0 (col - pos))) by lia. cbn [andb].
    rewrite (proj2 (orb_true_iff _ _)) by (rewrite Z.ltb_lt, Z.eqb_eq; lia). split; [f_equal; lia |].
    eexists. split; [reflexivity |]. cbn. split; [done |]. split; [lia | done].
  - assert (Hl : last_segment (mkVisual i pos n) (vls ++ rest) = false).
    { destruct Ht; cbn; by rewrite Z.eqb_refl. }
    rewrite Z.eqb_refl, Hl, (proj2 (Z.leb_le 0 (col - pos))) by lia. cbn [andb]. rewrite orb_false_r.
    destruct (col - pos <? n) eqn:E; bool_hyps.
    + exists 0%nat. split; [f_equal; lia |]. eexists. split; [reflexivity |]. cbn. split; [done |]. split; lia.
    + destruct (IH (j + 1)) as (k & Hf & Hh); [lia |]. exists (S k). split; [rewrite Hf; f_equal; lia |]. by apply (holds_skip [_]).
Qed.

Lemma find_tiles i ls vls line col j :
  visual_tiles i ls vls -> i <= line < i + zlen ls -> 0 <= col <= zlen (arr_get ls (line - i)) ->
  exists k, find_visual j vls line col = Some (j + Z.of_nat k) /\ holds vls k line col.
Proof.
  intros Ht. revert j. induction Ht as [i|i l t ls rest Ht Hr IH]; intros j Hl Hc; [rewrite zlen_nil in Hl; lia |]. rewrite zlen_cons in Hl.
  destruct (Z.eq_dec i line) as [-> | Hne].
  - rewrite Z.sub_diag in Hc. apply (find_line line l 0); [done | by eapply tiles_others | done].
  - rewrite find_skip by (eapply Forall_impl; [by eapply tiles_logical |]; cbn; intros; lia).
    destruct (IH (j + zlen t)) as (k & Hf & Hh); [lia | |].
    + replace (arr_get ls (line - (i + 1))) with (arr_get (l :: ls) (line - i)); [done |]. unfold arr_get.
      rewrite !(proj2 (Z.ltb_ge _ 0)) by lia. replace (Z.to_nat (line - i)) with (S (Z.to_nat (line - (i + 1)))) by lia. done.
    + exists (length t + k)%nat. split; [rewrite Hf; unfold zlen; f_equal; lia | by apply holds_skip].
Qed.

(** *** The order of visual lines *)

Definition within (i : Z) (ls : list jsstr) (vl : visual_line) : Prop :=
  i <= vl_logical vl < i + zlen ls /\ 0 <= vl_start vl /\ 0 <= vl_length vl
  /\ vl_start vl + vl_length vl <= zlen (arr_get ls (vl_logical vl - i)).

Lemma line_tiles_within i l pos t : line_tiles i l pos t -> Forall (within i [l]) t /\ pos <= zlen l.
Proof.
  assert (Hg : arr_get [l] (i - i) = l) by (by rewrite Z.sub_diag).
  induction 1 as [pos Hp|pos n vls Hp Hn Ht [IH1 IH2]].
  - split; [| lia]. constructor; [| done]. unfold within. cbn. rewrite Hg, zlen_cons, zlen_nil. lia.
  - split; [| lia]. constructor; [| done]. unfold within. cbn. rewrite Hg, zlen_cons, zlen_nil. lia.
Qed.

Lemma arr_get_cons (l : jsstr) ls n : 0 < n -> arr_get (l :: ls) n = arr_get ls (n - 1).
Proof.
  intros Hn. unfold arr_get. rewrite !(proj2 (Z.ltb_ge _ 0)) by lia. by replace (Z.to_nat n) with (S (Z.to_nat (n - 1))) by lia.
Qed.

Lemma tiles_within i ls vls : visual_tiles i ls vls -> Forall (within i ls) vls.
Proof.
  induction 1 as [|i l t ls rest Ht Hr IH]; [done |]. apply Forall_app. split.
  - eapply Forall_impl; [by eapply line_tiles_within |]. intros vl (H1 & H2 & H3 & H4). unfold within in *. rewrite zlen_cons, zlen_nil in *.
    pose proof (zlen_nonneg ls). replace (vl_logical vl - i) with 0 in * by lia. split_and!; [lia | lia | lia | lia | exact H4].
  - eapply Forall_impl; [exact IH |]. intros vl (H1 & H2 & H3 & H4). unfold within. rewrite zlen_cons.
    rewrite arr_get_cons by lia. replace (vl_logical vl - i - 1) with (vl_logical vl - (i + 1)) by lia. split_and!; [lia | lia | done | done | done].
Qed.

(** A visual line that does not start its line follows another of it. *)
Definition follows (vls : list visual_line) : Prop :=
  forall k vl, vls !! k = Some vl -> 0 < vl_start vl ->
  exists k' prev, k = S k' /\ vls !! k' = Some prev /\ vl_logical prev = vl_logical vl.

(** Those of one line start in order. *)
Definition in_order (vls : list visual_line) : Prop :=
  forall j k u v, (j <= k)%nat -> vls !! j = Some u -> vls !! k = Some v -> vl_logical u = vl_logical v -> vl_start u <= vl_start v.

Lemma line_tiles_head i l pos t : line_tiles i l pos t -> exists n t', t = mkVisual i pos n :: t'.
Proof. inversion 1; eauto. Qed.

Lemma line_tiles_follow i l pos t k vl : line_tiles i l pos t -> t !! S k = Some vl -> exists prev, t !! k = Some prev /\ vl_logical prev = vl_logical vl.
Proof.
  intros Ht%tiles_logical Hk. destruct (lookup_lt_is_Some_2 t k) as [prev Hp]; [apply lookup_lt_Some in Hk; lia |].
  exists prev. split; [done |]. rewrite Forall_lookup in Ht. by rewrite (Ht _ _ Hk), (Ht _ _ Hp).
Qed.

Lemma tiles_follow i ls vls : visual_tiles i ls vls -> follows vls.
Proof.
  induction 1 as [|i l t ls rest Ht Hr IH]; intros k vl Hk Hs; [done |]. destruct (line_tiles_head _ _ _ _ Ht) as (n & t' & Et).
  apply lookup_app_Some in Hk as [Hk | [Hge Hk]].
  - destruct k as [|k]; [rewrite Et in Hk; injection Hk as <-; cbn in Hs; lia |].
    destruct (line_tiles_follow _ _ _ _ _ _ Ht Hk) as (prev & Hp & Hl). exists k, prev. split_and!; [done | by apply lookup_app_l_Some | done].
  - destruct (IH _ _ Hk Hs) as (k' & prev & Ek & Hp & Hl). exists (length t + k')%nat, prev. split_and!; [lia | | done].
    rewrite lookup_app_r by lia. by replace (length t + k' - length t)%nat with k' by lia.
Qed.

Lemma line_tiles_order i l pos t : line_tiles i l pos t -> in_order t /\ Forall (fun vl => pos <= vl_start vl) t.
Proof.
  induction 1 as [pos Hp|pos n vls Hp Hn Ht [IH1 IH2]].
  - split; [| constructor; [cbn; lia | done]]. intros [|j] [|k] u v Hjk Hu Hv _; [| | |]; try done. injection Hu as <-. by injection Hv as <-.
  - assert (Hf : Forall (fun vl => pos <= vl_start vl) vls) by (eapply Forall_impl; [exact IH2 |]; cbn; intros; lia).
    split; [| constructor; [cbn; lia | done]]. intros [|j] [|k] u v Hjk Hu Hv Hl.
    + injection Hu as <-. by injection Hv as <-.
    + injection Hu as <-. cbn. by apply (Forall_lookup_1 _ _ _ _ Hf Hv).
    + lia.
    + apply (IH1 j k); [lia | done..].
Qed.

Lemma tiles_order i ls vls : visual_tiles i ls vls -> in_order vls.
Proof.
  induction 1 as [|i l t ls rest Ht Hr IH]; [by intros [|j] |]. intros j k u v Hjk Hu Hv Hl.
  pose proof (proj1 (line_tiles_order _ _ _ _ Ht)) as Ho. apply tiles_logical in Ht. apply tiles_within in Hr.
  apply lookup_app_Some in Hu as [Hu | [Hj Hu]]; apply lookup_app_Some in Hv as [Hv | [Hk Hv]].
  - by apply (Ho j k).
  - apply (Forall_lookup_1 _ _ _ _ Ht) in Hu. apply (Forall_lookup_1 _ _ _ _ Hr) in Hv. destruct Hv as [Hv _]. cbn in *. lia.
  - apply lookup_lt_Some in Hv. lia.
  - apply (IH (j - length t) (k - length t))%nat; [lia | done..].
Qed.

(** ** The cursor on its visual line *)

Section Cursor.
Context `{SegmenterOk} `{UnicodeWidth}.
Hypothesis columns : forall c, 0 <= eastAsianWidth c.

Lemma find_at e vls line col : visual_tiles 0 (lines e) vls -> 0 <= line < zlen (lines e) -> 0 <= col <= zlen (arr_get (lines e) line) ->
  exists k, findVisualLineAt vls line col = Z.of_nat k /\ holds vls k line col.
Proof.
  intros Ht Hl Hc. destruct (find_tiles 0 (lines e) vls line col 0 Ht) as (k & Hf & Hh); [lia | by rewrite Z.sub_0_r |].
  exists k. unfold findVisualLineAt. by rewrite Hf.
Qed.

(** No grapheme of the text or of a marker in it is wider than the width. *)
Definition text_fits (width : Z) (e : Editor) (l : jsstr) : Prop := Forall (fun p : placed => graphemes_fit width (sg_text p.2)) (segment_graphemes e l).

Lemma visual_map_total width e ls : Forall (text_fits width e) ls -> forall i, exists vls, visual_map width e i ls = Some vls.
Proof.
  intros Hg. induction Hg as [|l ls Hl Hg IH]; intros i; cbn [visual_map]; [eauto |]. destruct (IH (i + 1)) as [rest Hr]. rewrite Hr.
  enough (exists vls, visual_lines_of width e i l = Some vls) as [vls ->] by (cbn; eauto).
  unfold visual_lines_of. case_if; [eauto |]. case_if; [eauto |].
  destruct (wrap_terminates width 0 l (segment_graphemes e l) Hl) as [chunks ->]. cbn. eauto.
Qed.

(** C21: The cursor is on a visual line, when no grapheme of the text is wider than the
    editor: the map of visual lines is computed, and the line that the editor finds in it for a cursor within
    its text is one of the cursor's own line and holds the cursor's column, at its end only
    where the line ends. *)
Theorem cursor_on_visual_line e :
  state_ok (ed_state e) -> 0 < ev_width (ed_view e) -> Forall (text_fits (ev_width (ed_view e)) e) (lines e) ->
  exists vls k, buildVisualLineMap e = Some vls /\ findCurrentVisualLine vls e = Z.of_nat k /\ holds vls k (cursorLine e) (cursorCol e).
Proof.
  intros [Hl Hc] Hw Hg. destruct (visual_map_total _ e (lines e) Hg 0) as [vls Hv]. exists vls.
  destruct (find_at e vls (cursorLine e) (cursorCol e)) as (k & Hk & Hh); [by eapply visual_map_tiles | exact Hl | exact Hc |]. by exists k.
Qed.

Lemma vl_at_nat vls k : vl_at vls (Z.of_nat k) = vls !! k.
Proof. unfold vl_at. rewrite (proj2 (Z.ltb_ge _ 0)) by lia. by rewrite Nat2Z.id. Qed.

Lemma vl_at_Some vls i vl : vl_at vls i = Some vl -> 0 <= i /\ vls !! Z.to_nat i = Some vl.
Proof. unfold vl_at. case_if; [done |]. bool_hyps. by split. Qed.

(** Snapping. *)
Lemma snap_segment_in text lo hi col segs seg : segs_in text lo hi segs -> snap_segment col segs = Some seg -> lo <= seg.1 <= col /\ col < pl_end seg.
Proof.
  revert lo. induction segs as [|[i w] segs IH]; intros lo; cbn [snap_segment]; [done |]. intros (Hlo & _ & _ & Hr). cbn [fst snd].
  destruct (col <? i) eqn:E; [done |]. pose proof (zlen_nonneg (sg_text w)). bool_hyps. case_if; [intros E'; apply (IH _ Hr) in E'; lia |].
  case_if; [intros [= <-]; cbn; bool_hyps; lia | intros E'; apply (IH _ Hr) in E'; lia].
Qed.

Lemma vertical_column preferred current sourceMax targetMax column preferred' :
  0 <= current -> 0 <= targetMax -> (forall p, preferred = Some p -> 0 <= p) ->
  computeVerticalMoveColumn preferred current sourceMax targetMax = (column, preferred') ->
  0 <= column /\ (forall p, preferred' = Some p -> 0 <= p).
Proof.
  intros Hc Ht Hp. unfold computeVerticalMoveColumn. destruct preferred as [p|]; [specialize (Hp p eq_refl) |];
    repeat case_if; intros [= <- <-]; split; try lia; intros q [= <-]; lia.
Qed.

Lemma max_column_nonneg vls i vl : 0 <= vl_length vl -> 0 <= max_column vls i vl.
Proof. unfold max_column. case_if; lia. Qed.

(** Where the skipped visual lines end. *)
Lemma after_segment_spec vls logical segEnd fuel next :
  0 <= next -> (exists prev, vl_at vls (next - 1) = Some prev /\ vl_logical prev = logical) ->
  next <= after_segment fuel vls logical segEnd next
  /\ exists prev, vl_at vls (after_segment fuel vls logical segEnd next - 1) = Some prev /\ vl_logical prev = logical.
Proof.
  revert next. induction fuel as [|fuel IH]; intros next Hn Hp; cbn [after_segment]; [by split |].
  destruct (vl_at vls next) as [vl|] eqn:E; [| by split]. destruct (vl_logical vl =? logical) eqn:El; cbn [andb]; [| by split].
  case_if; [| by split]. apply Z.eqb_eq in El. destruct (IH (next + 1)) as [Hle Hprev]; [lia | | split; [lia | done]].
  exists vl. by replace (next + 1 - 1) with next by lia.
Qed.

(** *** Moves up and down *)

(** The column that a vertical move starts from: the one before snapping, or the cursor's. *)
Definition column_known (e : Editor) (vl : visual_line) : Prop :=
  match ev_snapped (ed_view e) with
  | Some s => 0 <= s <= zlen (arr_get (lines e) (vl_logical vl))
  | None => vl_start vl <= cursorCol e
  end.

Definition preferred_ok (e : Editor) : Prop := forall p, ev_preferred (ed_view e) = Some p -> 0 <= p.

(** The column before snapping is one of the cursor's line. *)
Definition snap_ok (e : Editor) : Prop := forall s, ev_snapped (ed_view e) = Some s -> 0 <= s <= zlen (current_line e).

Definition source_column (vls : list visual_line) (currentVL : visual_line) (e : Editor) : Z :=
  match ev_snapped (ed_view e) with
  | Some s =>
      let i := findVisualLineAt vls (vl_logical currentVL) s in
      s - match vl_at vls i with Some vl => vl_start vl | None => 0 end
  | None => cursorCol e - vl_start currentVL
  end.

Lemma source_column_nonneg vls currentVL e :
  visual_tiles 0 (lines e) vls -> within 0 (lines e) currentVL -> column_known e currentVL -> 0 <= source_column vls currentVL e.
Proof.
  intros Ht (Hw & _) Hc. unfold source_column, column_known in *. destruct (ev_snapped (ed_view e)) as [s|]; [| lia].
  destruct (find_at e vls (vl_logical currentVL) s Ht) as (k & -> & vl & Hk & _ & Hs & _); [lia | done |]. cbv zeta. rewrite vl_at_nat, Hk. lia.
Qed.

(** A place in a visual line, moved to the start of the segment it is in. *)
Record landed (e' : Editor) : Prop := {
  la_state : state_ok (ed_state e');
  la_preferred : preferred_ok e';
  la_snapped : snap_ok e';
}.

(** The target is not below the current visual line, or the one above it belongs to the
    same line as the current one. *)
Definition adjacent (vls : list visual_line) (current target : Z) (currentVL : visual_line) : Prop :=
  target <= current \/ exists prev, vl_at vls (target - 1) = Some prev /\ vl_logical prev = vl_logical currentVL.

Lemma vertical_ok fuel vls current target e currentVL :
  visual_tiles 0 (lines e) vls -> vl_at vls current = Some currentVL -> column_known e currentVL -> preferred_ok e ->
  0 <= target < zlen vls -> zlen vls - target <= Z.of_nat fuel -> adjacent vls current target currentVL ->
  landed (move_to_visual_line fuel vls current target e).
Proof.
  revert target e. induction fuel as [|fuel IH]; intros target e Ht Hcur Hcol Hpref Htar Hfuel Hadj; [lia |]. cbn [move_to_visual_line].
  pose proof (tiles_within _ _ _ Ht) as Hin. destruct (vl_at_Some _ _ _ Hcur) as [Hc0 Hcl].
  assert (Hct : exists targetVL, vl_at vls target = Some targetVL).
  { unfold vl_at. rewrite (proj2 (Z.ltb_ge _ _)) by lia. apply lookup_lt_is_Some_2. unfold zlen in *. lia. }
  destruct Hct as [targetVL Htl]. rewrite Hcur, Htl. destruct (vl_at_Some _ _ _ Htl) as [_ Htl'].
  pose proof (Forall_lookup_1 _ _ _ _ Hin Hcl) as Hwc. destruct (Forall_lookup_1 _ _ _ _ Hin Htl') as (Ht1 & Ht2 & Ht3 & Ht4). cbn in Ht1.
  rewrite Z.sub_0_r in Ht4. cbv zeta. fold (source_column vls currentVL e).
  destruct (computeVerticalMoveColumn _ _ _ _) as [column preferred] eqn:Ev.
  apply vertical_column in Ev as [Hcolumn Hpref']; [| by apply source_column_nonneg | by apply max_column_nonneg | exact Hpref].
  set (line := arr_get (lines e) (vl_logical targetVL)) in *. set (col := Z.min (vl_start targetVL + column) (zlen line)).
  set (e1 := put_state _ _). assert (Hc1 : 0 <= col <= zlen line) by (subst col; lia).
  assert (Hs1 : state_ok (mkEditorState (lines e) (vl_logical targetVL) col)) by (split; cbn; [lia | exact Hc1]).
  destruct (snap_segment col _) as [seg|] eqn:Es; [| split; [exact Hs1 | exact Hpref' | intros s [=]]].
  eapply snap_segment_in in Es as [Hseg _].
  2:{ apply segmentWithMarkers_in; [apply graphemes_segmenting | by rewrite graphemes_segments, graphemes_cover]. }
  destruct (_ && _) eqn:Eg; [| split; [split; cbn; [lia | fold line; lia] | exact Hpref' | intros s [= <-]; exact Hc1]].
  apply andb_true_iff in Eg as [[Eg1 Eg2]%andb_true_iff Eg3]. bool_hyps.
  destruct (after_segment_spec vls (vl_logical targetVL) (pl_end seg) (length vls) (target + 1)) as [Hle Hprev]; [lia | |].
  { exists targetVL. by replace (target + 1 - 1) with target by lia. }
  assert (Hsame : vl_logical targetVL = vl_logical currentVL).
  { destruct Hadj as [Hadj | (prev & Hp & <-)]; [lia |].
    destruct (tiles_follow _ _ _ Ht _ _ Htl') as (k & prev' & Ek & Hp' & <-); [lia |]. apply vl_at_Some in Hp as [_ Hp].
    replace (Z.to_nat (target - 1)) with k in Hp by lia. congruence. }
  assert (Hstart : vl_start currentVL <= vl_start targetVL).
  { apply (tiles_order _ _ _ Ht (Z.to_nat current) (Z.to_nat target)); [lia | done | done | done]. }
  apply (IH _ e1); [exact Ht | exact Hcur | | exact Hpref' | lia | lia | right; rewrite <- Hsame; exact Hprev].
  unfold column_known in *. cbn. destruct (ev_snapped (ed_view e)); [exact Hcol |]. subst col. lia.
Qed.
End Cursor.

(** ** A sample *)
Module EditorVisualSample.
Import EditorSample.

(** The second line is wrapped; the cursor is in its second part. *)
Definition sample : Editor := set_width 10 (with_text [js "one"; js "two three four"; js "five"] 1 12).

Lemma cursor_on_visual_line_witness : exists vls k,
  buildVisualLineMap sample = Some vls /\ findCurrentVisualLine vls sample = Z.of_nat k /\ holds vls k 1 12.
Proof.
  apply (cursor_on_visual_line one_column_columns sample); [split; split; vm_compute; first [reflexivity | discriminate] | reflexivity |].
  repeat constructor; vm_compute; discriminate.
Defined.
End EditorVisualSample.
