(* ===== verification/EditorCursor.v ===== *)
(** The cursor of the editor stays within its text, whatever happens to the editor. *)
From S2P Require Import Prelude JsString StringSearch TextEditing TextInput Wrapping EditorState Editor EditorProps EditorText EditorVisual.

(** ** The invariant *)

(** The top of the kill ring stands before the cursor, laid out in lines. *)
Definition yanked_here (e : Editor) : Prop :=
  exists A x y B t, last (kill_ring e) = Some t
    /\ at_text (insert_lines A x (split_on 10 t)).1 (insert_lines A x (split_on 10 t)).2 y B (ed_state e).

(** What is asked of a provider. *)
Definition provider_ok (p : AutocompleteProvider) : Prop := forall s item prefix, state_ok s -> state_ok (ap_applyCompletion p s item prefix).

Record editor_inv (e : Editor) : Prop := {
  in_state : state_ok (ed_state e);
  in_undo : Forall state_ok (undo_stack e);
  in_draft : forall s, eh_draft (ed_history e) = Some s -> state_ok s;
  in_ring : Forall (fun t => t <> []) (kill_ring e);
  in_yank : last_action e = Some act_yank -> yanked_here e;
  in_preferred : preferred_ok e;
  in_provider : forall p, ed_provider e = Some p -> provider_ok p;
  in_width : 0 < ev_width (ed_view e);
}.

(** What operations on the text leave as it is: the state is saved or not, the draft is
    kept or dropped, the preferred column too. *)
Record frame (e e' : Editor) : Prop := {
  fr_undo : undo_stack e' = undo_stack e \/ undo_stack e' = undo_stack e ++ [ed_state e];
  fr_draft : eh_draft (ed_history e') = None \/ eh_draft (ed_history e') = eh_draft (ed_history e);
  fr_ring : Forall (fun t => t <> []) (kill_ring e) -> Forall (fun t => t <> []) (kill_ring e');
  fr_preferred : ev_preferred (ed_view e') = None \/ ev_preferred (ed_view e') = ev_preferred (ed_view e);
  fr_provider : ed_provider e' = ed_provider e;
  fr_width : ev_width (ed_view e') = ev_width (ed_view e);
}.

Lemma inv_frame e e' : editor_inv e -> frame e e' -> state_ok (ed_state e') -> (last_action e' = Some act_yank -> yanked_here e') -> editor_inv e'.
Proof.
  intros [Hs Hu Hd Hr Hy Hp Hpr Hw] [Fu Fd Fr Fp Fpr Fw] Hs' Hy'. split; [done | | | auto | done | | by rewrite Fpr | by rewrite Fw].
  - destruct Fu as [-> | ->]; [done |]. apply Forall_app. split; [done | by constructor].
  - destruct Fd as [-> | ->]; [by intros s [=] | done].
  - unfold preferred_ok. destruct Fp as [-> | ->]; [by intros p [=] | done].
Qed.

Lemma inv_same e e' : same_core e e' -> editor_inv e -> editor_inv e'.
Proof.
  intros [H1 H2 H3 H4 H5 _] [Hs Hu Hd Hr Hy Hp Hpr Hw].
  split; unfold yanked_here, preferred_ok, undo_stack, kill_ring, last_action in *; by rewrite ?H1, ?H2, ?H3, ?H4, ?H5.
Qed.

Ltac framed := split; [first [by left | by right] | first [by left | by right] | done | first [by left | by right] | done | done].

(** An operation that does not end in a yank. *)
Ltac edited := match goal with Hi : editor_inv ?e |- _ => apply (inv_frame e); [exact Hi | framed | | first [done | exact (in_yank _ Hi)]] end.

Section Ops.
Context `{SegmenterOk}.

Lemma graphemes_of e : segmenting (fun s => map snd (segment_graphemes e s)).
Proof. apply markers_segmenting; [apply graphemes_segmenting |]. intros s. by rewrite graphemes_segments, graphemes_cover. Qed.

Lemma grapheme_texts_last e s : s <> [] -> 0 < last_length (grapheme_texts e s) <= zlen s.
Proof. intros Hs. pose proof (last_length_bound _ s (graphemes_of e) Hs) as Hb. cbv beta in Hb. by rewrite map_map in Hb. Qed.

Lemma grapheme_texts_first e s : s <> [] -> 0 < first_length (grapheme_texts e s) <= zlen s.
Proof. intros Hs. pose proof (first_length_bound _ s (graphemes_of e) Hs) as Hb. cbv beta in Hb. by rewrite map_map in Hb. Qed.

(** *** Deletion *)

Lemma backspace_inv e : editor_inv e -> editor_inv (ed_handleBackspace e).
Proof.
  intros Hi. destruct (state_ok_text _ (in_state _ Hi)) as (A & x & y & B & Hat). unfold ed_handleBackspace. cbv zeta.
  set (e0 := set_lastAction None (exitHistoryBrowsing e)). assert (Hat0 : at_text A x y B (ed_state e0)) by exact Hat.
  eapply inv_same; [apply retrigger_same |]. eapply inv_same; [apply changed_same |].
  rewrite (col_positive _ _ _ _ _ Hat0), (line_positive _ _ _ _ _ Hat0). destruct (is_empty x) eqn:Ex; cbn [negb].
  - destruct (is_empty A) eqn:EA; cbn [negb]; [edited; exact (in_state _ Hi) |]. apply is_empty_false in EA. apply is_empty_true in Ex as ->.
    destruct (exists_last EA) as (A' & p & ->). edited. eapply at_text_ok, at_merge_previous. exact Hat.
  - apply is_empty_false in Ex. set (e1 := pushUndoSnapshot e0). assert (Hat1 : at_text A x y B (ed_state e1)) by exact Hat.
    rewrite (at_before _ _ _ _ _ Hat1), (at_after _ _ _ _ _ Hat1), (at_current _ _ _ _ _ Hat1), (at_col _ _ _ _ _ Hat1).
    pose proof (grapheme_texts_last e1 x Ex) as Hn.
    destruct (split_before x y (zlen x - last_length (grapheme_texts e1 x))) as (x' & t & -> & En & _); [lia |].
    rewrite En, <- app_assoc, slice_to_app. edited. eapply at_text_ok. exact (at_set_line _ _ _ _ _ Hat1 x' y).
Qed.

Lemma forwardDelete_inv e : editor_inv e -> editor_inv (ed_handleForwardDelete e).
Proof.
  intros Hi. destruct (state_ok_text _ (in_state _ Hi)) as (A & x & y & B & Hat). unfold ed_handleForwardDelete. cbv zeta.
  set (e0 := set_lastAction None (exitHistoryBrowsing e)). assert (Hat0 : at_text A x y B (ed_state e0)) by exact Hat.
  eapply inv_same; [apply retrigger_same |]. eapply inv_same; [apply changed_same |].
  rewrite (col_before_end _ _ _ _ _ Hat0), (line_before_last _ _ _ _ _ Hat0). destruct (is_empty y) eqn:Ey; cbn [negb].
  - destruct (is_empty B) eqn:EB; cbn [negb]; [edited; exact (in_state _ Hi) |]. apply is_empty_false in EB. apply is_empty_true in Ey as ->.
    destruct B as [|n B]; [done |]. edited. eapply at_text_ok, at_merge_next. exact Hat.
  - apply is_empty_false in Ey. set (e1 := pushUndoSnapshot e0). assert (Hat1 : at_text A x y B (ed_state e1)) by exact Hat.
    rewrite (at_before _ _ _ _ _ Hat1), (at_after _ _ _ _ _ Hat1), (at_current _ _ _ _ _ Hat1), (at_col _ _ _ _ _ Hat1).
    pose proof (grapheme_texts_first e1 y Ey) as Hn.
    destruct (split_after x y (zlen x + first_length (grapheme_texts e1 y))) as (t & y' & -> & En & _); [rewrite zlen_app; lia |].
    rewrite En, app_assoc, slice_from_app. edited. eapply at_text_ok. exact (at_set_rest _ _ _ _ _ Hat1 y').
Qed.

(** *** Kills, yanks and undo *)

(** What a kill leaves as it is. *)
Record kill_frame (e e' : Editor) : Prop := {
  kf_draft : eh_draft (ed_history e') = None;
  kf_preferred : ev_preferred (ed_view e') = None \/ ev_preferred (ed_view e') = ev_preferred (ed_view e);
  kf_provider : ed_provider e' = ed_provider e;
  kf_width : ev_width (ed_view e') = ev_width (ed_view e);
}.

Lemma run_kill_frame e k : kill_frame e (run_editor_kill e k).
Proof.
  destruct k; cbn [run_editor_kill]; unfold ed_deleteWordBackwards, ed_deleteWordForward, deleteToStartOfLine, deleteToEndOfLine, ed_moveWordBackwards, ed_moveWordForwards;
    cbv zeta; repeat case_if; split; try done; first [by left | by right].
Qed.

Lemma kill_inv e k : editor_inv e -> editor_inv (run_editor_kill e k).
Proof.
  intros Hi. destruct (state_ok_text _ (in_state _ Hi)) as (A & x & y & B & Hat). destruct (run_kill_frame e k) as [Kd Kp Kpr Kw].
  destruct (run_editor_kill_effect A x y B e k Hat) as [H1 H2|A' x' t H1 H2 H3 H4|t y' B' H1 H2 H3 H4].
  - apply (inv_frame e); [done | split; [left; unfold undo_stack; by rewrite H2 | by left | unfold kill_ring; by rewrite H2 | done..] | by rewrite H1; apply in_state |].
    unfold last_action. rewrite H2. intros Hy. destruct (in_yank _ Hi Hy) as (A1 & x1 & y1 & B1 & t & Ht & Hx). exists A1, x1, y1, B1, t.
    unfold kill_ring. by rewrite H1, H2.
  - apply (inv_frame e); [done | split; [right; unfold undo_stack; by rewrite H4 | by left | | done..] | by eapply at_text_ok | unfold last_action; by rewrite H4].
    unfold kill_ring at 2. rewrite H4. apply kill_push_full.
  - apply (inv_frame e); [done | split; [right; unfold undo_stack; by rewrite H4 | by left | | done..] | by eapply at_text_ok | unfold last_action; by rewrite H4].
    unfold kill_ring at 2. rewrite H4. apply kill_push_full.
Qed.

Lemma yank_frame text e : ed_history (insertYankedText text e) = mkHistory (eh_entries (ed_history e)) (-1) None
  /\ ev_preferred (ed_view (insertYankedText text e)) = None /\ ev_width (ed_view (insertYankedText text e)) = ev_width (ed_view e)
  /\ ed_provider (insertYankedText text e) = ed_provider e.
Proof. unfold insertYankedText. by destruct (split_on 10 text) as [|l [|l' ls]]. Qed.

Lemma ed_yank_inv e : editor_inv e -> editor_inv (ed_yank e).
Proof.
  intros Hi. destruct (state_ok_text _ (in_state _ Hi)) as (A & x & y & B & Hat). unfold ed_yank, kill_peek. destruct (last _) as [t|] eqn:Et; [| done].
  set (e1 := pushUndoSnapshot e). assert (Hat1 : at_text A x y B (ed_state e1)) by exact Hat. apply (yanked_at _ _ _ _ t) in Hat1.
  destruct (yank_frame t e1) as (F1 & F2 & F3 & F4). destruct (yanked_memory t e1) as [Hm _]. set (e2 := insertYankedText t e1) in *. clearbody e2.
  apply (inv_frame e); [done | | by eapply at_text_ok |].
  - split; [right; unfold undo_stack; by rewrite set_lastAction_memory; cbn; unfold undo_stack; rewrite Hm | left; cbn; by rewrite F1 | | by left | exact F4 | exact F3].
    unfold kill_ring at 2. rewrite set_lastAction_memory. cbn. unfold kill_ring. by rewrite Hm.
  - intros _. exists A, x, y, B, t. split; [| exact Hat1]. unfold kill_ring at 1. rewrite set_lastAction_memory. cbn. unfold kill_ring. by rewrite Hm.
Qed.

Lemma unyank e t A x y B : t <> [] -> last (kill_ring e) = Some t ->
  at_text (insert_lines A x (split_on 10 t)).1 (insert_lines A x (split_on 10 t)).2 y B (ed_state e) -> at_text A x y B (ed_state (deleteYankedText e)).
Proof.
  intros Hne Ht Hat. unfold deleteYankedText, kill_peek. unfold kill_ring in Ht. rewrite Ht. destruct t as [|c t']; [done |]. set (t := c :: t') in *. clearbody t.
  cbv zeta. pose proof (join_split 10 t) as Hj. destruct (split_on 10 t) as [|l [|l' rest]] eqn:E.
  - by destruct (split_on_cons 10 t) as (? & ? & ?); congruence.
  - cbn in Hj. subst l. cbn [insert_lines fst snd] in Hat. rewrite (at_col _ _ _ _ _ Hat), (at_after _ _ _ _ _ Hat), (at_current _ _ _ _ _ Hat), zlen_app.
    replace (zlen x + zlen t - zlen t) with (zlen x) by lia. rewrite <- app_assoc, slice_to_app. exact (at_set_line _ _ _ _ _ Hat x y).
  - clear Hj. change (default [] (head (l :: l' :: rest))) with l. cbn [insert_lines fst snd] in Hat. set (m := removelast (l' :: rest)) in *. set (z := last_line (l' :: rest)) in *.
    assert (Hl : zlen (l :: l' :: rest) = zlen ([x ++ l] ++ m ++ [z ++ y])).
    { rewrite !zlen_app. change (zlen [x ++ l]) with 1. pose proof (f_equal zlen (lines_end l' rest)) as Hz. rewrite zlen_app in Hz. fold m z in Hz.
      change (zlen [z ++ y]) with 1. change (zlen [z]) with 1 in Hz. rewrite zlen_cons. lia. }
    rewrite (at_line _ _ _ _ _ Hat), (at_after _ _ _ _ _ Hat), (at_lines _ _ _ _ _ Hat), Hl.
    assert (Hs : zlen (A ++ (x ++ l) :: m) - (zlen ([x ++ l] ++ m ++ [z ++ y]) - 1) = zlen A).
    { rewrite !zlen_app, zlen_cons. change (zlen [x ++ l]) with 1. change (zlen [z ++ y]) with 1. lia. }
    assert (Hd : (A ++ (x ++ l) :: m) ++ (z ++ y) :: B = A ++ ([x ++ l] ++ m ++ [z ++ y]) ++ B) by (rewrite <- !app_assoc; cbn; by rewrite <- ?app_assoc).
    assert (Hg : arr_get (A ++ ([x ++ l] ++ m ++ [z ++ y]) ++ B) (zlen A) = x ++ l) by apply arr_get_mid.
    assert (Hx : zlen (x ++ l) - zlen l = zlen x) by (rewrite zlen_app; lia).
    rewrite Hs, Hd, Hg, arr_splice_mid, Hx, slice_to_app. reflexivity.
Qed.

Lemma deleted_frame e : ed_view (deleteYankedText e) = ed_view e \/ ev_preferred (ed_view (deleteYankedText e)) = None /\ ev_width (ed_view (deleteYankedText e)) = ev_width (ed_view e).
Proof.
  unfold deleteYankedText. destruct (kill_peek _) as [[|c t]|]; [by left | | by left]. by right; destruct (split_on 10 (c :: t)) as [|l [|l' ls]].
Qed.

Lemma deleted_provider e : ed_provider (deleteYankedText e) = ed_provider e.
Proof. unfold deleteYankedText. destruct (kill_peek _) as [[|c t]|]; [done | | done]. by destruct (split_on 10 (c :: t)) as [|l [|l' ls]]. Qed.

Lemma kill_rotate_full (ring : list jsstr) : Forall (fun t => t <> []) ring -> Forall (fun t => t <> []) (kill_rotate ring).
Proof.
  intros Hr. unfold kill_rotate. destruct ring as [|t ring _] using rev_ind; [done |]. rewrite last_snoc. case_if; [| done]. rewrite removelast_last.
  apply Forall_app in Hr as [Hr [Ht _]%Forall_cons]. by constructor.
Qed.

Lemma ed_yankPop_inv e : editor_inv e -> editor_inv (ed_yankPop e).
Proof.
  intros Hi. unfold ed_yankPop. destruct (_ || _) eqn:Eg; [done |]. apply orb_false_iff in Eg as [Ey%negb_false_iff%bool_decide_eq_true Elen].
  destruct (in_yank _ Hi Ey) as (A & x & y & B & t & Ht & Hat). assert (Hne : t <> []).
  { pose proof (in_ring _ Hi) as Hr. apply last_Some in Ht as [r Er]. rewrite Er in Hr. by apply Forall_app in Hr as [_ [? _]%Forall_cons]. }
  pose proof (unyank (pushUndoSnapshot e) t A x y B Hne Ht Hat) as Hat1. destruct (deleted_memory (pushUndoSnapshot e)) as [Hm _].
  pose proof (deleted_frame (pushUndoSnapshot e)) as Hf. pose proof (deleted_provider (pushUndoSnapshot e)) as Hp. cbn [pushUndoSnapshot put_memory ed_view ed_provider] in Hf, Hp.
  set (e1 := deleteYankedText (pushUndoSnapshot e)) in *. clearbody e1. set (e2 := rotate_ring e1).
  assert (Hr2 : kill_ring e2 = kill_rotate (kill_ring e) /\ undo_stack e2 = undo_stack e ++ [ed_state e]).
  { unfold kill_ring, undo_stack. cbn. by rewrite Hm. }
  assert (Hat2 : at_text A x y B (ed_state e2)) by exact Hat1.
  assert (Hv2 : ev_width (ed_view e2) = ev_width (ed_view e)) by (change (ed_view e2) with (ed_view e1); destruct Hf as [-> | [_ ->]]; done).
  assert (Hp2 : ed_provider e2 = ed_provider e) by exact Hp. clearbody e2. clear Hm Hf Hp Hat1 e1. destruct Hr2 as [Hr2 Hu2].
  set (t2 := default [] (kill_peek (em_killRing (ed_memory e2)))). destruct (yank_frame t2 e2) as (F1 & F2 & F3 & F4). destruct (yanked_memory t2 e2) as [Hm _].
  apply (yanked_at _ _ _ _ t2) in Hat2. destruct (last (kill_ring e2)) as [u|] eqn:Eu.
  2:{ exfalso. apply last_None in Eu. rewrite Hr2 in Eu. unfold kill_rotate in Eu. rewrite Ht in Eu. by destruct (1 <? length (kill_ring e))%nat; [| rewrite Eu in Ht]. }
  assert (Et : t2 = u) by (subst t2; unfold kill_peek; unfold kill_ring in Eu; by rewrite Eu). clearbody t2. subst t2.
  set (e3 := insertYankedText u e2) in *. clearbody e3. apply (inv_frame e); [done | | by eapply at_text_ok |].
  - split; [right | left; cbn; by rewrite F1 | | by left | cbn; congruence | cbn; congruence].
    + unfold undo_stack at 1. rewrite set_lastAction_memory. cbn. unfold undo_stack in *. by rewrite Hm.
    + unfold kill_ring at 2. rewrite set_lastAction_memory. cbn. unfold kill_ring in *. rewrite Hm, Hr2. apply kill_rotate_full.
  - intros _. exists A, x, y, B, u. split; [| exact Hat2]. unfold kill_ring at 1. rewrite set_lastAction_memory. cbn. unfold kill_ring in *. by rewrite Hm.
Qed.

Lemma undo_inv_ok e : editor_inv e -> editor_inv (ed_undo e).
Proof.
  intros Hi. unfold ed_undo, undo_pop. cbn [exitHistoryBrowsing put_history ed_memory].
  destruct (em_undoStack (ed_memory e)) as [|s l _] eqn:E using rev_ind.
  { edited. exact (in_state _ Hi). }
  rewrite last_snoc, removelast_last.
  eapply inv_same; [apply changed_same |]. destruct Hi as [Hs Hu Hd Hr Hy Hp Hpr Hw]. unfold undo_stack in Hu. rewrite E in Hu.
  apply Forall_app in Hu as [Hu [Hs' _]%Forall_cons]. by split.
Qed.

(** *** Insertion, pastes and new lines *)

Lemma ed_insertCharacter_inv char e : editor_inv e -> editor_inv (ed_insertCharacter char e).
Proof.
  intros Hi. destruct (insertCharacter_same e char) as (e' & -> & Hs). eapply inv_same; [exact Hs |]. cbv zeta.
  destruct (state_ok_text _ (in_state _ Hi)) as (A & x & y & B & Hat).
  set (e1 := set_lastAction _ _). assert (Hat1 : at_text A x y B (ed_state e1)) by (subst e1; by destruct (_ || _)).
  rewrite (at_before _ _ _ _ _ Hat1), (at_after _ _ _ _ _ Hat1), (at_col _ _ _ _ _ Hat1), <- zlen_app, app_assoc.
  pose proof (at_set_line _ _ _ _ _ Hat1 (x ++ char) y) as Hat2. subst e1. destruct (_ || _); edited; by eapply at_text_ok.
Qed.

(** Lines inserted all at once. *)
Lemma inserted_at A x y B text e : text <> [] -> at_text A x y B (ed_state e) ->
  let ls := split_on 10 (normalizeText text) in
  at_text (insert_lines A x ls).1 (insert_lines A x ls).2 y B (ed_state (insertTextAtCursorInternal text e)).
Proof.
  intros Hne Hat ls. unfold insertTextAtCursorInternal. apply is_empty_false in Hne. rewrite Hne. cbv zeta. fold ls.
  pose proof (join_split 10 (normalizeText text)) as Hj. fold ls in Hj. assert (Hls : ls <> []) by (subst ls; by destruct (split_on_cons 10 (normalizeText text)) as (? & ? & ->)).
  clearbody ls. destruct ls as [|l [|l' rest]]; [done | |].
  - cbn in Hj. subst l. rewrite (at_col _ _ _ _ _ Hat), (at_before _ _ _ _ _ Hat), (at_after _ _ _ _ _ Hat), <- zlen_app, app_assoc.
    exact (at_set_line _ _ _ _ _ Hat (x ++ normalizeText text) y).
  - rewrite (at_before _ _ _ _ _ Hat), (at_after _ _ _ _ _ Hat), (at_line _ _ _ _ _ Hat), (at_lines _ _ _ _ _ Hat). cbn [insert_lines fst snd]. clear Hj Hls.
    change (default [] (head (l :: l' :: rest))) with l. change (removelast (drop 1 (l :: l' :: rest))) with (removelast (l' :: rest)).
    change (last_line (l :: l' :: rest)) with (last_line (l' :: rest)). set (m := removelast (l' :: rest)). set (z := last_line (l' :: rest)).
    assert (Hz : zlen A + zlen (l :: l' :: rest) - 1 = zlen (A ++ (x ++ l) :: m)).
    { pose proof (f_equal zlen (lines_end l' rest)) as Hz. rewrite zlen_app in Hz. fold m z in Hz. change (zlen [z]) with 1 in Hz. rewrite zlen_app, !zlen_cons in *. lia. }
    assert (Hd : drop (arr_index (A ++ (x ++ y) :: B) (zlen A + 1)) (A ++ (x ++ y) :: B) = B).
    { rewrite (zlen_snoc A (x ++ y)), (app_assoc A [x ++ y] B : A ++ (x ++ y) :: B = _), arr_index_at. apply drop_app_length. }
    rewrite Hd, arr_index_at, take_app_length. unfold at_text. rewrite <- Hz. cbn -[app last_line m z]. f_equal; [by rewrite <- !app_assoc | by rewrite (at_line _ _ _ _ _ Hat)].
Qed.

Lemma inserted_frame text e : ed_history (insertTextAtCursorInternal text e) = ed_history e /\ ed_provider (insertTextAtCursorInternal text e) = ed_provider e
  /\ (insertTextAtCursorInternal text e = e \/ ev_preferred (ed_view (insertTextAtCursorInternal text e)) = None /\ ev_snapped (ed_view (insertTextAtCursorInternal text e)) = None
       /\ ev_width (ed_view (insertTextAtCursorInternal text e)) = ev_width (ed_view e)).
Proof.
  unfold insertTextAtCursorInternal. destruct (is_empty text); [split_and!; try done; by left |].
  destruct (split_on 10 (normalizeText text)) as [|l [|l' ls]]; (split_and!; try done; by right).
Qed.

(** After the state was saved. *)
Lemma inserted_inv text e e1 : editor_inv e -> frame e e1 -> ed_state e1 = ed_state e -> last_action e1 = None -> editor_inv (insertTextAtCursorInternal text e1).
Proof.
  intros Hi Hf Hs Ha. assert (H1 : editor_inv e1) by (apply (inv_frame e); [done | done | rewrite Hs; apply in_state; done | by rewrite Ha]).
  destruct (inserted_frame text e1) as (F1 & F2 & F3). destruct (inserted_memory text e1) as [Hm _].
  destruct (state_ok_text _ (in_state _ H1)) as (A & x & y & B & Hat).
  destruct text as [|c text]; [done |]. set (t := c :: text) in *. assert (Hne : t <> []) by done.
  apply (inserted_at A x y B t e1 Hne) in Hat. clearbody t. destruct F3 as [-> | (F3 & _ & F4)]; [done |].
  apply (inv_frame e1); [done | split; [left | right | | left | |] | by eapply at_text_ok | unfold last_action in *; by rewrite Hm, Ha].
  - unfold undo_stack. by rewrite Hm.
  - by rewrite F1.
  - unfold kill_ring. by rewrite Hm.
  - done.
  - done.
  - done.
Qed.

Lemma paste_inv text e : editor_inv e -> editor_inv (ed_handlePaste text e).
Proof. intros Hi. unfold ed_handlePaste. cbv zeta. case_if; apply (inserted_inv _ e); (done || framed). Qed.

Lemma insertText_inv text e : editor_inv e -> editor_inv (insertTextAtCursor text e).
Proof. intros Hi. unfold insertTextAtCursor. cbv zeta. case_if; [done |]. apply (inserted_inv _ e); (done || framed). Qed.

Lemma newLine_inv e : editor_inv e -> editor_inv (addNewLine e).
Proof.
  intros Hi. destruct (state_ok_text _ (in_state _ Hi)) as (A & x & y & B & Hat). unfold addNewLine. cbv zeta.
  eapply inv_same; [apply changed_same |]. set (e1 := pushUndoSnapshot _). assert (Hat1 : at_text A x y B (ed_state e1)) by exact Hat.
  rewrite (at_before _ _ _ _ _ Hat1), (at_after _ _ _ _ _ Hat1).
  pose proof (at_set_rest _ _ _ _ _ Hat1 []) as Hat2. rewrite app_nil_r in Hat2.
  assert (Hat3 : at_text (A ++ [x]) [] y B (mkEditorState (A ++ x :: y :: B) (zlen A + 1) 0)).
  { unfold at_text. rewrite (zlen_snoc A x), <- app_assoc. done. }
  assert (Hs : forall e2, at_text A x [] B (ed_state e2) -> ed_state (setCursorCol 0 (set_cursorLine (cursorLine e2 + 1)
    (set_lines (arr_splice (lines e2) (cursorLine e2 + 1) 0 [y]) e2))) = mkEditorState (A ++ x :: y :: B) (zlen A + 1) 0).
  { intros e2 Hat'. rewrite (at_line _ _ _ _ _ Hat'), (at_lines _ _ _ _ _ Hat'), app_nil_r, (zlen_snoc A x), (app_assoc A [x] B : A ++ x :: B = _), arr_insert, <- app_assoc. done. }
  edited. rewrite <- (Hs _ Hat2) in Hat3. by eapply at_text_ok.
Qed.

Lemma setInternal_state text where_ e : state_ok (ed_state (setTextInternal text where_ e)).
Proof.
  destruct (split_on_cons 10 text) as (l & ls & E). unfold setTextInternal. rewrite E. pose proof (zlen_nonneg ls). destruct where_.
  - split; cbn -[arr_get zlen]; [rewrite zlen_cons; lia | split; [lia | apply zlen_nonneg]].
  - split; cbn -[arr_get zlen]; [rewrite zlen_cons; lia |]. split; [apply zlen_nonneg | done].
Qed.

Lemma setInternal_frame text where_ e : ed_history (setTextInternal text where_ e) = ed_history e /\ ed_provider (setTextInternal text where_ e) = ed_provider e
  /\ ev_preferred (ed_view (setTextInternal text where_ e)) = None /\ ev_width (ed_view (setTextInternal text where_ e)) = ev_width (ed_view e).
Proof. done. Qed.

(** After the state was saved, or not. *)
Lemma setInternal_inv text where_ e e1 : editor_inv e -> frame e e1 -> last_action e1 = None -> editor_inv (setTextInternal text where_ e1).
Proof.
  intros Hi [Fu Fd Fr Fp Fpr Fw] Ha. destruct (setInternal_memory text where_ e1) as [Hm _]. destruct (setInternal_frame text where_ e1) as (H1 & H2 & H3 & H4).
  pose proof (setInternal_state text where_ e1) as Hs. set (e2 := setTextInternal text where_ e1) in *. clearbody e2.
  apply (inv_frame e); [done | split | done | unfold last_action in *; by rewrite Hm, Ha].
  - unfold undo_stack in *. by rewrite Hm.
  - by rewrite H1.
  - unfold kill_ring in *. by rewrite Hm.
  - by left.
  - congruence.
  - congruence.
Qed.

Lemma setText_inv text e : editor_inv e -> editor_inv (setText text e).
Proof. intros Hi. unfold setText. cbv zeta. case_match; apply (setInternal_inv _ _ e); (done || framed). Qed.

Lemma submit_inv e : editor_inv e -> editor_inv (submitValue e).
Proof.
  intros [Hs Hu Hd Hr Hy Hp Hpr Hw]. split; try done; constructor.
Qed.

Lemma addToHistory_inv text e : editor_inv e -> editor_inv (addToHistory text e).
Proof. intros Hi. unfold addToHistory. cbv zeta. case_if; [done |]. edited. exact (in_state _ Hi). Qed.

Lemma navigate_inv direction e : editor_inv e -> editor_inv (navigateHistory direction e).
Proof.
  intros Hi. unfold navigateHistory. cbv zeta. case_if; [edited; exact (in_state _ Hi) |].
  set (newIndex := eh_index _ - direction). set (e0 := if (_ =? -1) && _ then _ else _).
  assert (Hz : editor_inv e0 /\ last_action e0 = None).
  { subst e0. case_if; [| split; [edited; exact (in_state _ Hi) | done]]. split; [| done]. destruct Hi as [Hs Hu Hd Hr Hy Hp Hpr Hw]. split; try done.
    - apply Forall_app. split; [exact Hu | by constructor].
    - intros s [= <-]. exact Hs. }
  destruct Hz as [Hz Ha]. clearbody e0. case_if; [| apply (setInternal_inv _ _ e0); [exact Hz | framed | exact Ha]].
  destruct (eh_draft (ed_history e0)) as [s|] eqn:Ed.
  - cbn [put_history ed_history eh_draft]. eapply inv_same; [apply changed_same |].
    apply (inv_frame e0); [exact Hz | framed | exact (in_draft _ Hz s Ed) | unfold last_action in *; cbn; by rewrite Ha].
  - apply (setInternal_inv _ _ e0); [exact Hz | framed | exact Ha].
Qed.

(** *** Movement *)

(** A new place in the same lines. *)
Lemma moved_state e e' line col : ed_state e' = mkEditorState (lines e) line col ->
  0 <= line < zlen (lines e) -> 0 <= col <= zlen (arr_get (lines e) line) -> state_ok (ed_state e').
Proof. intros ->. by split. Qed.

Lemma previous_line e : state_ok (ed_state e) -> 0 < cursorLine e -> 0 <= cursorLine e - 1 < zlen (lines e).
Proof. intros [Hl _]. unfold cursorLine, lines. lia. Qed.

Lemma moveWordBackwards_inv e : editor_inv e -> editor_inv (ed_moveWordBackwards e).
Proof.
  intros Hi. destruct (state_ok_text _ (in_state _ Hi)) as (A & x & y & B & Hat). unfold ed_moveWordBackwards. cbv zeta.
  set (e0 := set_lastAction None e). assert (Hat0 : at_text A x y B (ed_state e0)) by exact Hat.
  rewrite (at_col _ _ _ _ _ Hat0), cursor_zero, (line_positive _ _ _ _ _ Hat0). destruct (is_empty x) eqn:Ex.
  - destruct (is_empty A) eqn:EA; cbn [negb]; [edited; exact (in_state _ Hi) |]. edited. eapply (moved_state e); [reflexivity | | by split; [apply zlen_nonneg |]].
    apply (previous_line e0); [exact (in_state _ Hi) |]. rewrite (at_line _ _ _ _ _ Hat0). by apply zlen_full, is_empty_false.
  - apply is_empty_false in Ex. rewrite (at_current _ _ _ _ _ Hat0).
    destruct (split_before x y _ (findWordBackward_bound (segment_words e0) isPasteMarker x y (words_segments e0) Ex)) as (x' & t & Hx & Hn & _).
    edited. rewrite Hn. destruct (in_state _ Hi) as [Hl Hc]. eapply (moved_state e); [reflexivity | exact Hl |]. change (arr_get (lines e) _) with (current_line e0).
    rewrite (at_current _ _ _ _ _ Hat0), Hx, !zlen_app. pose proof (zlen_nonneg x'). pose proof (zlen_nonneg t). pose proof (zlen_nonneg y). lia.
Qed.

Lemma moveWordForwards_inv e : editor_inv e -> editor_inv (ed_moveWordForwards e).
Proof.
  intros Hi. destruct (state_ok_text _ (in_state _ Hi)) as (A & x & y & B & Hat). unfold ed_moveWordForwards. cbv zeta.
  set (e0 := set_lastAction None e). assert (Hat0 : at_text A x y B (ed_state e0)) by exact Hat.
  rewrite (at_col _ _ _ _ _ Hat0), (at_current _ _ _ _ _ Hat0), cursor_at_end. destruct (in_state _ Hi) as [Hl Hc]. destruct (is_empty y) eqn:Ey.
  - case_if; [| edited; exact (in_state _ Hi)]. bool_hyps. edited. eapply (moved_state e); [reflexivity | unfold cursorLine, lines, e0 in *; cbn in *; lia | split; [lia | apply zlen_nonneg]].
  - apply is_empty_false in Ey.
    destruct (split_after x y _ (findWordForward_bound (segment_words e0) isPasteMarker x y (words_segments e0) Ey)) as (t & y' & Hy & Hn & _).
    edited. rewrite Hn. eapply (moved_state e); [reflexivity | exact Hl |]. change (arr_get (lines e) _) with (current_line e0).
    rewrite (at_current _ _ _ _ _ Hat0), Hy, !zlen_app. pose proof (zlen_nonneg x). pose proof (zlen_nonneg t). pose proof (zlen_nonneg y'). lia.
Qed.

Lemma lineStart_inv e : editor_inv e -> editor_inv (moveToLineStart e).
Proof. intros Hi. edited. destruct (in_state _ Hi) as [Hl _]. eapply (moved_state e); [reflexivity | exact Hl | split; [lia | apply zlen_nonneg]]. Qed.

Lemma lineEnd_inv e : editor_inv e -> editor_inv (moveToLineEnd e).
Proof. intros Hi. edited. destruct (in_state _ Hi) as [Hl _]. eapply (moved_state e); [reflexivity | exact Hl | split; [apply zlen_nonneg | done]]. Qed.

Lemma index_from_bound char line from col : index_from char line from = Some col -> 0 <= col <= zlen line.
Proof.
  unfold index_from. intros (i & Hi & ->)%fmap_Some. apply index_of_bound in Hi. rewrite length_drop in Hi. unfold zlen in *. lia.
Qed.

Lemma last_index_bound char line n col : last_index char line n = Some col -> 0 <= col <= Z.of_nat n.
Proof. induction n as [|n IH]; cbn; (case_if; [intros [= <-]; lia |]); [done | intros ?%IH; lia]. Qed.

Lemma jump_search_bound char direction n e i first line col :
  (forall k, 0 <= k < Z.of_nat n -> 0 <= match direction with jump_forward => i + k | jump_backward => i - k end < zlen (lines e)) ->
  jump_search n char direction i first e = Some (line, col) -> 0 <= line < zlen (lines e) /\ 0 <= col <= zlen (arr_get (lines e) line).
Proof.
  revert i first. induction n as [|n IH]; intros i first Hn; [done |]. cbn [jump_search]. pose proof (Hn 0) as Hz.
  destruct (match direction with jump_forward => _ | jump_backward => _ end) as [c|] eqn:Ec at 1.
  - intros [= <- <-]. split; [destruct direction; lia |]. destruct direction; [by eapply index_from_bound |].
    apply last_index_bound in Ec. pose proof (zlen_nonneg (arr_get (lines e) i)). lia.
  - apply IH. intros k Hk. specialize (Hn (k + 1)). destruct direction; lia.
Qed.

Lemma jump_inv_ok char direction e : editor_inv e -> editor_inv (jumpToChar char direction e).
Proof.
  intros Hi. unfold jumpToChar. cbv zeta. destruct (jump_search _ _ _ _ _ _) as [[line col]|] eqn:Ej; [| edited; exact (in_state _ Hi)].
  apply jump_search_bound in Ej as [Hl Hc]; [edited; by eapply (moved_state e) |].
  destruct (in_state _ Hi) as [Hl _]. intros k Hk. unfold lines, cursorLine in *. cbn in *. destruct direction; lia.
Qed.

(** *** Movement over visual lines *)

Context `{UnicodeWidth}.
Hypothesis columns : forall c, 0 <= eastAsianWidth c.

(** A place that a vertical move has found. *)
Lemma landed_inv e e' : editor_inv e -> moves (set_lastAction None e) e' -> ed_provider e' = ed_provider e -> ev_width (ed_view e') = ev_width (ed_view e) ->
  landed e' -> editor_inv e'.
Proof.
  intros [Hs Hu Hd Hr Hy Hp Hpr Hw] (M1 & M2 & M3 & M4) Hpe Hwe [Ls Lp Ln].
  split; unfold undo_stack, kill_ring, last_action in *; rewrite ?M2, ?M3, ?Hpe, ?Hwe; done.
Qed.

Lemma visual_frame fuel vls current target e :
  ed_provider (move_to_visual_line fuel vls current target e) = ed_provider e /\ ev_width (ed_view (move_to_visual_line fuel vls current target e)) = ev_width (ed_view e).
Proof.
  revert target e. induction fuel as [|fuel IH]; intros target e; [done |]. cbn [move_to_visual_line].
  destruct (vl_at vls current) as [currentVL|]; [| done]. destruct (vl_at vls target) as [targetVL|]; [| done]. cbv zeta.
  destruct (computeVerticalMoveColumn _ _ _ _) as [column preferred]. destruct (snap_segment _ _) as [seg|]; [| done].
  case_if; [| done]. set (e1 := put_state _ _). destruct (IH (after_segment (length vls) vls (vl_logical targetVL) (pl_end seg) (target + 1)) e1) as [-> ->]. done.
Qed.

Lemma built_tiles e vls : editor_inv e -> buildVisualLineMap (set_lastAction None e) = Some vls -> visual_tiles 0 (lines e) vls.
Proof. intros Hi Hv. eapply visual_map_tiles; [exact columns | exact (in_width _ Hi) | exact Hv]. Qed.

(** The cursor's visual line, as the source of a vertical move. *)
Lemma current_visual e vls : editor_inv e -> snap_ok e -> visual_tiles 0 (lines e) vls ->
  exists vl, vl_at vls (findCurrentVisualLine vls e) = Some vl /\ vl_logical vl = cursorLine e /\ column_known e vl /\ vl_start vl <= cursorCol e
    /\ 0 <= findCurrentVisualLine vls e < zlen vls.
Proof.
  intros Hi Hsnap Hv. destruct (find_at e vls (cursorLine e) (cursorCol e)) as (k & Hk & vl & Hl & Hlog & Hcol & _).
  { exact Hv. }
  { apply (in_state _ Hi). } { apply (in_state _ Hi). }
  exists vl. unfold findCurrentVisualLine. rewrite Hk, vl_at_nat. apply lookup_lt_Some in Hl as Hlt. split_and!; [done | done | | lia | lia | unfold zlen; lia].
  unfold column_known. destruct (ev_snapped (ed_view e)) as [s|] eqn:Es; [| lia]. rewrite Hlog. by apply Hsnap.
Qed.

Lemma visual_move_inv e e0 vls target :
  e0 = set_lastAction None e -> editor_inv e -> snap_ok e -> visual_tiles 0 (lines e) vls ->
  let current := findCurrentVisualLine vls e0 in
  0 <= target < zlen vls -> target <= current + 1 -> editor_inv (moveToVisualLine vls current target e0).
Proof.
  intros -> Hi Hsnap Hv current Ht Hle. destruct (current_visual e vls Hi Hsnap Hv) as (vl & Hl & Hlog & Hcol & _ & Hcur).
  destruct (visual_frame (length vls) vls current target (set_lastAction None e)) as [F1 F2].
  apply (landed_inv e); [done | apply visual_moves | exact F1 | exact F2 |].
  apply (vertical_ok _ vls current target (set_lastAction None e) vl); [| exact Hl | exact Hcol | exact (in_preferred _ Hi) | done | unfold zlen in *; lia |].
  - exact Hv.
  - destruct (Z.le_gt_cases target current); [by left | right]. exists vl. replace (target - 1) with current by lia. split; [exact Hl | done].
Qed.

Lemma moveVertically_inv delta e e' : delta <= 1 -> editor_inv e -> snap_ok e -> moveVertically delta e = Some e' -> editor_inv e'.
Proof.
  intros Hd Hi Hsnap. unfold moveVertically. cbv zeta. destruct (buildVisualLineMap _) as [vls|] eqn:Ev; [| done]. intros [= <-]. apply (built_tiles e vls Hi) in Ev.
  eapply inv_same; [apply sync_same |]. case_if; [| edited; exact (in_state _ Hi)]. bool_hyps. apply (visual_move_inv e); (done || lia).
Qed.

Lemma visual_map_some e vls : state_ok (ed_state e) -> visual_tiles 0 (lines e) vls -> 0 < zlen vls.
Proof.
  intros [Hl Hc] Ht. destruct (find_at e vls (cursorLine e) (cursorCol e) Ht Hl Hc) as (k & _ & vl & Hk & _). apply lookup_lt_Some in Hk. unfold zlen. lia.
Qed.

Lemma pageUp_inv size e e' : 0 <= size -> editor_inv e -> snap_ok e -> pageScroll size (-1) e = Some e' -> editor_inv e'.
Proof.
  intros Hs Hi Hsnap. unfold pageScroll. cbv zeta. destruct (buildVisualLineMap _) as [vls|] eqn:Ev; [| done]. intros [= <-]. apply (built_tiles e vls Hi) in Ev.
  destruct (current_visual e vls Hi Hsnap Ev) as (_ & _ & _ & _ & _ & Hcur).
  change (findCurrentVisualLine vls e) with (findCurrentVisualLine vls (set_lastAction None e)) in Hcur.
  apply (visual_move_inv e); (done || lia).
Qed.

Lemma moveRight_inv e e' : editor_inv e -> snap_ok e -> moveRight e = Some e' -> editor_inv e'.
Proof.
  intros Hi Hsnap. unfold moveRight. cbv zeta. destruct (buildVisualLineMap _) as [vls|] eqn:Ev; [| done]. intros [= <-]. apply (built_tiles e vls Hi) in Ev.
  eapply inv_same; [apply sync_same |]. destruct (state_ok_text _ (in_state _ Hi)) as (A & x & y & B & Hat).
  set (e0 := set_lastAction None e). assert (Hat0 : at_text A x y B (ed_state e0)) by exact Hat.
  rewrite (col_before_end _ _ _ _ _ Hat0), (line_before_last _ _ _ _ _ Hat0), (at_after _ _ _ _ _ Hat0). destruct (is_empty y) eqn:Ey; cbn [negb].
  - destruct (is_empty B) eqn:EB; cbn [negb].
    + destruct (current_visual e vls Hi Hsnap Ev) as (vl & Hl & _ & _ & Hcol & _). change (findCurrentVisualLine vls e0) with (findCurrentVisualLine vls e).
      rewrite Hl. destruct Hi as [Hs Hu Hd Hr Hy Hp Hpr Hw]. split; try done. intros p [= <-]. change (cursorCol e0) with (cursorCol e). lia.
    + apply is_empty_false, zlen_full in EB. edited. eapply (moved_state e); [reflexivity | | split; [lia | apply zlen_nonneg]].
      change (cursorLine e0) with (cursorLine e). rewrite (at_line _ _ _ _ _ Hat), (at_lines _ _ _ _ _ Hat), zlen_app, zlen_cons. pose proof (zlen_nonneg A). cbn -[zlen]. lia.
  - apply is_empty_false in Ey. pose proof (grapheme_texts_first e0 y Ey) as Hn. edited. destruct (in_state _ Hi) as [Hl _].
    eapply (moved_state e); [reflexivity | exact Hl |]. change (arr_get (lines e) _) with (current_line e). change (cursorCol e0) with (cursorCol e).
    rewrite (at_current _ _ _ _ _ Hat), (at_col _ _ _ _ _ Hat), zlen_app. pose proof (zlen_nonneg x). lia.
Qed.

Lemma moveLeft_inv e e' : editor_inv e -> moveLeft e = Some e' -> editor_inv e'.
Proof.
  intros Hi. unfold moveLeft. cbv zeta. destruct (buildVisualLineMap _) as [vls|] eqn:Ev; [| done]. intros [= <-]. apply (built_tiles e vls Hi) in Ev.
  eapply inv_same; [apply sync_same |]. destruct (state_ok_text _ (in_state _ Hi)) as (A & x & y & B & Hat).
  set (e0 := set_lastAction None e). assert (Hat0 : at_text A x y B (ed_state e0)) by exact Hat. destruct (in_state _ Hi) as [Hl _].
  rewrite (col_positive _ _ _ _ _ Hat0), (line_positive _ _ _ _ _ Hat0), (at_before _ _ _ _ _ Hat0). destruct (is_empty x) eqn:Ex; cbn [negb].
  - destruct (is_empty A) eqn:EA; cbn [negb]; [edited; exact (in_state _ Hi) |]. edited.
    eapply (moved_state e); [reflexivity | | by split; [apply zlen_nonneg |]]. apply (previous_line e0); [exact (in_state _ Hi) |].
    rewrite (at_line _ _ _ _ _ Hat0). by apply zlen_full, is_empty_false.
  - apply is_empty_false in Ex. pose proof (grapheme_texts_last e0 x Ex) as Hn. edited.
    eapply (moved_state e); [reflexivity | exact Hl |]. change (arr_get (lines e) _) with (current_line e). change (cursorCol e0) with (cursorCol e).
    rewrite (at_current _ _ _ _ _ Hat), (at_col _ _ _ _ _ Hat), zlen_app. pose proof (zlen_nonneg y). lia.
Qed.

(** *** Completion *)

Lemma completion_inv provider item prefix e : editor_inv e -> ed_provider e = Some provider -> editor_inv (applyCompletion provider item prefix e).
Proof.
  intros Hi Hp. edited. pose proof (in_provider _ Hi _ Hp (ed_state e) item prefix (in_state _ Hi)) as Hs. unfold applyCompletion. cbv zeta.
  change (ed_state (set_lastAction None (pushUndoSnapshot e))) with (ed_state e). by destruct (ap_applyCompletion provider (ed_state e) item prefix).
Qed.

Lemma answer_inv suggestions e : editor_inv e -> editor_inv (receiveSuggestions suggestions e).
Proof.
  intros Hi. unfold receiveSuggestions. destruct (ac_running _) as [r|]; [| done]. destruct (ed_provider e) as [provider|] eqn:Ep; [| done].
  cbv zeta. case_if; [by eapply inv_same, Hi |]. destruct suggestions as [[prefix [|item rest]]|]; [by eapply inv_same, Hi | | by eapply inv_same, Hi].
  case_if; [| by eapply inv_same, Hi]. eapply inv_same; [apply changed_same |]. apply completion_inv; [by eapply inv_same, Hi | exact Ep].
Qed.
End Ops.

(** ** Events *)

Section Keys.
Context `{SegmenterOk} `{UnicodeWidth}.
Hypothesis columns : forall c, 0 <= eastAsianWidth c.
Variable kb : jsstr -> editor_key -> bool.
Variable matchesKey : jsstr -> named_key -> bool.
Variable decodePrintableKey : jsstr -> option jsstr.
Variable submitShiftEnter : bool.
Variable pageSize : Z.
(** A page down may leave the text; see [page_down_leaves_text]. *)
Hypothesis pages : 0 <= pageSize.
Hypothesis no_page_down : forall data, kb data ek_pageDown = false.

Lemma picker_ok data e : editor_inv e -> snap_ok e ->
  match handle_picker kb data e with inl e' => editor_inv e' | inr e' => editor_inv e' /\ snap_ok e' end.
Proof.
  intros Hi Hs. unfold handle_picker. destruct (ac_state _); [| done]. destruct (ac_list _) as [l|]; [| done].
  do 3 (case_if; [by eapply inv_same, Hi |]).
  destruct (selected_item l) as [item|]; [| by case_if]. destruct (ed_provider e) as [provider|] eqn:Ep; [| by case_if].
  assert (Ha : editor_inv (cancelAutocomplete (applyCompletion provider item (ac_prefix (ed_complete e)) e))).
  { eapply inv_same; [apply cancel_same | by apply completion_inv]. }
  case_if; [eapply inv_same; [apply changed_same | exact Ha] |]. case_if; [| done]. cbv zeta.
  case_if; [split; [exact Ha | by intros s [=]] | eapply inv_same; [apply changed_same | exact Ha]].
Qed.

Lemma edit_key_ok data e e' : editor_inv e -> snap_ok e ->
  handle_edit_key kb matchesKey decodePrintableKey submitShiftEnter pageSize data e = Some e' -> editor_inv e'.
Proof.
  intros Hi Hs. pose proof (backspace_inv e Hi) as Hback. unfold handle_edit_key, handle_up, handle_down.
  case_if; [intros [= <-]; eapply inv_same, Hi; apply tab_same |].
  case_if; [intros [= <-]; by apply (kill_inv e KillLineEnd) |]. case_if; [intros [= <-]; by apply (kill_inv e KillLineStart) |].
  case_if; [intros [= <-]; by apply (kill_inv e KillWordBackward) |]. case_if; [intros [= <-]; by apply (kill_inv e KillWordForward) |].
  do 8 (case_if; [intros [= <-]; auto using forwardDelete_inv, ed_yank_inv, ed_yankPop_inv, lineStart_inv, lineEnd_inv, moveWordBackwards_inv, moveWordForwards_inv |]).
  case_if; [intros [= <-]; case_if; auto using submit_inv, newLine_inv |].
  case_if; [intros [= <-]; case_if; [done |]; case_if; auto using submit_inv, newLine_inv |].
  case_if.
  { destruct (isOnFirstVisualLine e) as [first|]; [| done]. cbn. destruct first; cbn; [| intros ?%moveVertically_inv; (done || lia)].
    case_if; intros [= <-]; auto using navigate_inv, lineStart_inv. }
  case_if.
  { destruct (isOnLastVisualLine e) as [final|]; [| done]. cbn. destruct final; cbn; [| rewrite andb_false_r; intros ?%moveVertically_inv; (done || lia)].
    case_if; intros [= <-]; auto using navigate_inv, lineEnd_inv. }
  case_if; [intros ?%moveRight_inv; done |]. case_if; [intros ?%moveLeft_inv; done |].
  case_if; [intros ?%pageUp_inv; done |]. rewrite no_page_down. do 2 (case_if; [intros [= <-]; by eapply inv_same, Hi |]).
  case_if; [intros [= <-]; by apply ed_insertCharacter_inv |].
  destruct (decodePrintableKey data); intros [= <-]; [by apply ed_insertCharacter_inv |]. case_if; [by apply ed_insertCharacter_inv | done].
Qed.

Lemma editor_key_ok data e e' : editor_inv e -> snap_ok e ->
  handle_editor_key kb matchesKey decodePrintableKey submitShiftEnter pageSize data e = Some e' -> editor_inv e'.
Proof.
  intros Hi Hs. unfold handle_editor_key. case_if; [by intros [= <-] |]. case_if; [intros [= <-]; by apply undo_inv_ok |].
  pose proof (picker_ok data e Hi Hs) as Hp. destruct (handle_picker kb data e); [by intros [= <-] | destruct Hp; by apply edit_key_ok].
Qed.

Lemma jump_ok data e : editor_inv e -> snap_ok e ->
  match handle_jump kb decodePrintableKey data e with inl e' => editor_inv e' | inr e' => editor_inv e' /\ snap_ok e' end.
Proof.
  intros Hi Hs. unfold handle_jump. destruct (ed_jumpMode e) as [direction|]; [| done]. cbv zeta.
  assert (Hj : editor_inv (put_jump None e)) by by eapply inv_same, Hi.
  case_if; [done |]. destruct (decodePrintableKey data); [by apply jump_inv_ok |]. case_if; [by apply jump_inv_ok | done].
Qed.

Lemma paste_snap text e : snap_ok e -> snap_ok (ed_handlePaste text e).
Proof.
  intros Hs. unfold ed_handlePaste. cbv zeta. case_if.
  all: match goal with |- snap_ok (insertTextAtCursorInternal ?t ?e1) => destruct (inserted_frame t e1) as (_ & _ & [-> | (_ & Hn & _)]) end;
    [exact Hs | intros s; by rewrite Hn].
Qed.

Lemma buffer_ok buffer b e : editor_inv e /\ snap_ok e -> editor_inv (set_buffer buffer b e) /\ snap_ok (set_buffer buffer b e).
Proof. intros [Hi Hs]. split; [by eapply inv_same, Hi | exact Hs]. Qed.

Lemma input_ok fuel data e e' : editor_inv e -> snap_ok e ->
  handle_editor_input kb matchesKey decodePrintableKey submitShiftEnter pageSize fuel data e = Some e' -> editor_inv e'.
Proof.
  revert data e. induction fuel as [|fuel IH]; intros data e Hi Hs; [by intros [= <-] |]. cbn [handle_editor_input].
  pose proof (jump_ok data e Hi Hs) as Hj. destruct (handle_jump kb decodePrintableKey data e) as [e1|e1]; [by intros [= <-] |].
  destruct (match index_of paste_start data with Some _ => _ | None => _ end) as [data1 e2] eqn:E.
  assert (Hz : editor_inv e2 /\ snap_ok e2) by (destruct (index_of paste_start data); injection E as <- <-; auto using buffer_ok). clear E.
  case_if; [| destruct Hz; by apply editor_key_ok]. cbv zeta. set (buffer := ps_buffer (ed_pastes e2) ++ data1).
  apply (buffer_ok buffer true) in Hz. destruct (index_of paste_end buffer) as [endIndex|]; [| intros [= <-]; apply Hz].
  set (e3 := if is_empty (take _ _) then _ else _). assert (H3 : editor_inv e3 /\ snap_ok e3).
  { subst e3. case_if; [done |]. destruct Hz. split; [by apply paste_inv | by apply paste_snap]. }
  apply (buffer_ok [] false) in H3. case_if; [intros [= <-]; apply H3 | destruct H3; by apply IH].
Qed.

(** What is asked of events that bring a provider or a width. *)
Definition event_ok (ev : editor_event) : Prop :=
  match ev with ev_setProvider provider => provider_ok provider | ev_resize width => 0 < width | _ => True end.

Lemma event_ok_inv ev e e' : editor_inv e -> snap_ok e -> event_ok ev ->
  run_event kb matchesKey decodePrintableKey submitShiftEnter pageSize ev e = Some e' -> editor_inv e'.
Proof.
  intros Hi Hs Hev. destruct ev; cbn [run_event]; [by apply input_ok |..]; intros [= <-].
  - by eapply inv_same, Hi.
  - eapply inv_same, Hi; apply task_same.
  - by apply answer_inv.
  - by apply setText_inv.
  - by apply insertText_inv.
  - by apply addToHistory_inv.
  - destruct Hi. split; try done. by intros p [= <-].
  - destruct Hi. by split.
Qed.

(** An event in a state whose column before snapping, if there is one, is in the cursor's
    line. *)
Definition editor_step (e e' : Editor) : Prop :=
  snap_ok e /\ exists ev, event_ok ev /\ run_event kb matchesKey decodePrintableKey submitShiftEnter pageSize ev e = Some e'.

Lemma new_Editor_ok : editor_inv new_Editor.
Proof. split; try done. Qed.

Lemma reachable_inv e : rtc editor_step new_Editor e -> editor_inv e.
Proof.
  revert e. apply (rtc_ind_r editor_inv); [apply new_Editor_ok |]. intros e e' _ (Hs & ev & Hev & Hr) Hi. by eapply event_ok_inv.
Qed.

End Keys.

(** C17: The cursor stays within the text: after any keys but page down, pastes, completions,
    answers of a provider, submissions and calls of the host, in a new editor, the cursor is
    in a line of the text and not beyond its ends, as long as no event starts with a
    column from before a snap that is beyond its line; so are the cursors of the states
    that undo and the draft of the history keep.  The provider is asked to complete a state
    whose cursor is in its text to another such. *)
Theorem cursor_within_text `{SegmenterOk} `{UnicodeWidth} (columns : forall c, 0 <= eastAsianWidth c) kb matchesKey decodePrintableKey submitShiftEnter pageSize e :
  0 <= pageSize -> (forall data, kb data ek_pageDown = false) ->
  rtc (editor_step kb matchesKey decodePrintableKey submitShiftEnter pageSize) new_Editor e ->
  state_ok (ed_state e) /\ Forall state_ok (undo_stack e) /\ forall s, eh_draft (ed_history e) = Some s -> state_ok s.
Proof. intros Hp Hd Hr. pose proof (reachable_inv columns _ _ _ _ _ Hp Hd e Hr) as Hi. split_and!; apply Hi. Qed.

(** ** A sample *)
Module EditorCursorSample.
Import EditorSample.

Lemma one_step ev e e1 e' : snap_ok e -> event_ok ev -> run_event keys (fun _ _ => false) (fun _ => None) false 5 ev e = Some e1 ->
  rtc (editor_step keys (fun _ _ => false) (fun _ => None) false 5) e1 e' -> rtc (editor_step keys (fun _ _ => false) (fun _ => None) false 5) e e'.
Proof. intros Hs He Hr. apply rtc_l. split; [done | by exists ev]. Qed.

Lemma keys_no_page_down data : keys data ek_pageDown = false.
Proof. unfold keys. repeat case_match; done. Qed.

(** Two lines, up, and a letter. *)
Lemma cursor_within_text_witness : exists e,
  lines e = [js "abx"; js "cde"] /\ cursorCol e = 3 /\ state_ok (ed_state e).
Proof.
  eexists. split; [| split; [| apply (cursor_within_text one_column_columns keys (fun _ _ => false) (fun _ => None) false 5)]].
  4: exact keys_no_page_down.
  4: {
    eapply (one_step (ev_setText (js "ab" ++ nl ++ js "cde"))); [intros s [=] | exact I | vm_compute; reflexivity |].
    eapply (one_step (pressed [16])); [intros s [=] | exact I | vm_compute; reflexivity |].
    eapply (one_step (pressed (js "x"))); [intros s [=] | exact I | vm_compute; reflexivity |].
    apply rtc_refl. }
  - reflexivity.
  - reflexivity.
  - lia.
Defined.

(** A marker that reaches over two visual lines. *)
Definition marker_line (before : jsstr) : jsstr := before ++ js "[paste #1 +11 lines]" ++ replicate 20 98.
Definition with_marker (ls : list jsstr) (line col : Z) : Editor :=
  put_pastes (mkPastes [(1, eleven_lines)] 1 [] false) (set_width 10 (with_text ls line col)).

(** A page down from far into a line onto the rest of a marker takes the visual column
    from the place it has already moved to, and leaves the text. *)
Example page_down_leaves_text : (fun e => (cursorLine e, cursorCol e)) <$> pageScroll 2 1 (with_marker [replicate 70 97; marker_line []] 0 60) = Some (1, -30).
Proof. vm_compute. reflexivity. Qed.

(** A move down from the start of such a marker loses the visual column: it lands at the
    end of the visual line after it, which starts at column 23. *)
Example down_over_marker_loses_column : (fun e => (cursorLine e, cursorCol e)) <$> moveVertically 1 (with_marker [marker_line (js "aaa")] 0 3) = Some (0, 32).
Proof. vm_compute. reflexivity. Qed.

End EditorCursorSample.
