(* ===== verification/EditorPaste.v ===== *)
(** A large paste stands in the editor as a marker, and is submitted in full. *)
From S2P Require Import Prelude JsString StringSearch JsonParse JsonCodec Regex TextEditing TextInput Wrapping EditorState Editor EditorProps EditorText EditorVisual EditorCursor.

(** ** First matches *)










(** ** Markers *)






(** ** Pastes *)

Section Paste.
Context `{SegmenterOk}.







End Paste.

(** ** A sample *)
Module EditorPasteSample.
Import EditorSample.

End EditorPasteSample.
