(* ===== verification/Keys.v ===== *)
(** The keys of the terminal ([tui/src/keys.ts]): the sequences of the Kitty protocol,
    of modifyOtherKeys and of older terminals, what they are called ([parseKey]), whether
    they are a given key ([matchesKey]) and the character they stand for
    ([decodePrintableKey]).  Whether the Kitty protocol is active, the variables of the
    process and the case mapping of Unicode are the class [Terminal].  The source also
    keeps the type of the last event in a variable that nothing reads. *)
From S2P Require Import Prelude JsString StringSearch Effects JsonParse Regex.

(** ** Numbers *)

(** [Infinity] is the number 2^1024, above every finite double. *)
Definition Infinity : Z := 2 ^ 1024.
Definition isFinite (n : Z) : bool := n <? Infinity.

(** The double nearest to an integer, ties to even. *)
Definition to_double (n : Z) : Z :=
  if n <? 2 ^ 53 then n
  else
    let e := Z.log2 n - 52 in
    let q := Z.shiftr n e in
    let r := n - Z.shiftl q e in
    let half := Z.shiftl 1 (e - 1) in
    let v := Z.shiftl (if (half <? r) || (r =? half) && Z.odd q then q + 1 else q) e in
    if Infinity <=? v then Infinity else v.

(** [parseInt(s, 10)] of digits. *)
Definition parseInt (s : jsstr) : Z := to_double (digits_value s).

(** [a & b]: operands are truncated to 32 bits. *)
Definition to_int32 (n : Z) : Z := let m := n mod 2 ^ 32 in if m <? 2 ^ 31 then m else m - 2 ^ 32.
Definition bit_and (a b : Z) : Z := Z.land (to_int32 a) (to_int32 b).

(** [String.fromCharCode(n)] wraps to 16 bits. *)
Definition fromCharCode (n : Z) : jsstr := [n mod 65536].

(** ** Constants *)

Definition SYMBOL_KEYS : list Z := js "`-=[]\;',./!@#$%^&*()_+|~{}:<>?".
Definition is_symbol (key : jsstr) : bool := match key with [c] => bool_decide (c ∈ SYMBOL_KEYS) | _ => false end.

Definition m_shift : Z := 1.
Definition m_alt : Z := 2.
Definition m_ctrl : Z := 4.
Definition m_super : Z := 8.

Definition LOCK_MASK : Z := 64 + 128.
(** [modifier & ~LOCK_MASK]. *)
Definition unlocked (modifier : Z) : Z := bit_and modifier (Z.lnot LOCK_MASK).

Definition cp_escape : Z := 27.
Definition cp_tab : Z := 9.
Definition cp_enter : Z := 13.
Definition cp_space : Z := 32.
Definition cp_backspace : Z := 127.
Definition cp_kpEnter : Z := 57414.

#[local] Open Scope string_scope.
#[local] Open Scope list_scope.
#[local] Open Scope Z_scope.

Definition ARROW_CODEPOINTS : list (string * Z) := [("up", -1); ("down", -2); ("right", -3); ("left", -4)].

Definition FUNCTIONAL_CODEPOINTS : list (string * Z) :=
  [("delete", -10); ("insert", -11); ("pageUp", -12); ("pageDown", -13); ("home", -14); ("end", -15);
   ("f1", -20); ("f2", -21); ("f3", -22); ("f4", -23); ("f5", -24); ("f6", -25);
   ("f7", -26); ("f8", -27); ("f9", -28); ("f10", -29); ("f11", -30); ("f12", -31)].

(** A field of a constant record; the sources only use fields that are there. *)
Definition field {A} (d : A) (k : string) (r : list (string * A)) : A :=
  match List.find (fun e => bool_decide (e.1 = k)) r with Some e => e.2 | None => d end.
Definition arrow (k : string) : Z := field 0 k ARROW_CODEPOINTS.
Definition functional (k : string) : Z := field 0 k FUNCTIONAL_CODEPOINTS.

Definition KITTY_FUNCTIONAL_KEY_EQUIVALENTS : list (Z * Z) :=
  [(57399, 48); (57400, 49); (57401, 50); (57402, 51); (57403, 52); (57404, 53); (57405, 54); (57406, 55); (57407, 56); (57408, 57);
   (57409, 46); (57410, 47); (57411, 42); (57412, 45); (57413, 43); (57415, 61); (57416, 44);
   (57417, arrow "left"); (57418, arrow "right"); (57419, arrow "up"); (57420, arrow "down");
   (57421, functional "pageUp"); (57422, functional "pageDown"); (57423, functional "home"); (57424, functional "end");
   (57425, functional "insert"); (57426, functional "delete");
   (57344, functional "f1"); (57345, functional "f2"); (57346, functional "f3"); (57347, functional "f4"); (57348, functional "f5");
   (57349, functional "f6"); (57350, functional "f7"); (57351, functional "f8"); (57352, functional "f9"); (57353, functional "f10");
   (57354, functional "f11"); (57355, functional "f12")].

Definition normalizeKittyFunctionalCodepoint (codepoint : Z) : Z :=
  match List.find (fun e => e.1 =? codepoint) KITTY_FUNCTIONAL_KEY_EQUIVALENTS with Some e => e.2 | None => codepoint end.

Definition normalizeShiftedLetterIdentityCodepoint (codepoint modifier : Z) : Z :=
  if negb (bit_and (unlocked modifier) m_shift =? 0) && (65 <=? codepoint) && (codepoint <=? 90) then codepoint + 32 else codepoint.

(** Sequences after their escape character. *)
Definition esc (s : string) : jsstr := 27 :: js s.

Definition LEGACY_KEY_SEQUENCES : list (string * list string) :=
  [("up", ["[A"; "OA"]); ("down", ["[B"; "OB"]); ("right", ["[C"; "OC"]); ("left", ["[D"; "OD"]);
   ("home", ["[H"; "OH"; "[1~"; "[7~"]); ("end", ["[F"; "OF"; "[4~"; "[8~"]);
   ("insert", ["[2~"]); ("delete", ["[3~"]); ("pageUp", ["[5~"; "[[5~"]); ("pageDown", ["[6~"; "[[6~"]);
   ("clear", ["[E"; "OE"]);
   ("f1", ["OP"; "[11~"; "[[A"]); ("f2", ["OQ"; "[12~"; "[[B"]); ("f3", ["OR"; "[13~"; "[[C"]); ("f4", ["OS"; "[14~"; "[[D"]);
   ("f5", ["[15~"; "[[E"]); ("f6", ["[17~"]); ("f7", ["[18~"]); ("f8", ["[19~"]);
   ("f9", ["[20~"]); ("f10", ["[21~"]); ("f11", ["[23~"]); ("f12", ["[24~"])].

Definition MODIFIED_FUNCTION_KEY_CODES : list (string * string) :=
  [("f1", "P"); ("f2", "Q"); ("f3", "R"); ("f4", "S"); ("f5", "15~"); ("f6", "17~");
   ("f7", "18~"); ("f8", "19~"); ("f9", "20~"); ("f10", "21~"); ("f11", "23~"); ("f12", "24~")].

Definition LEGACY_SHIFT_SEQUENCES : list (string * list string) :=
  [("up", ["[a"]); ("down", ["[b"]); ("right", ["[c"]); ("left", ["[d"]); ("clear", ["[e"]);
   ("insert", ["[2$"]); ("delete", ["[3$"]); ("pageUp", ["[5$"]); ("pageDown", ["[6$"]);
   ("home", ["[7$"]); ("end", ["[8$"])].

Definition LEGACY_CTRL_SEQUENCES : list (string * list string) :=
  [("up", ["Oa"]); ("down", ["Ob"]); ("right", ["Oc"]); ("left", ["Od"]); ("clear", ["Oe"]);
   ("insert", ["[2^"]); ("delete", ["[3^"]); ("pageUp", ["[5^"]); ("pageDown", ["[6^"]);
   ("home", ["[7^"]); ("end", ["[8^"])].

Definition LEGACY_SEQUENCE_KEY_IDS : list (string * string) :=
  [("OA", "up"); ("OB", "down"); ("OC", "right"); ("OD", "left"); ("OH", "home"); ("OF", "end");
   ("[E", "clear"); ("OE", "clear"); ("Oe", "ctrl+clear"); ("[e", "shift+clear");
   ("[2~", "insert"); ("[2$", "shift+insert"); ("[2^", "ctrl+insert"); ("[3$", "shift+delete"); ("[3^", "ctrl+delete");
   ("[[5~", "pageUp"); ("[[6~", "pageDown");
   ("[a", "shift+up"); ("[b", "shift+down"); ("[c", "shift+right"); ("[d", "shift+left");
   ("Oa", "ctrl+up"); ("Ob", "ctrl+down"); ("Oc", "ctrl+right"); ("Od", "ctrl+left");
   ("[5$", "shift+pageUp"); ("[6$", "shift+pageDown"); ("[7$", "shift+home"); ("[8$", "shift+end");
   ("[5^", "ctrl+pageUp"); ("[6^", "ctrl+pageDown"); ("[7^", "ctrl+home"); ("[8^", "ctrl+end");
   ("OP", "f1"); ("OQ", "f2"); ("OR", "f3"); ("OS", "f4"); ("[11~", "f1"); ("[12~", "f2"); ("[13~", "f3"); ("[14~", "f4");
   ("[[A", "f1"); ("[[B", "f2"); ("[[C", "f3"); ("[[D", "f4"); ("[[E", "f5"); ("[15~", "f5"); ("[17~", "f6"); ("[18~", "f7");
   ("[19~", "f8"); ("[20~", "f9"); ("[21~", "f10"); ("[23~", "f11"); ("[24~", "f12");
   ("[1;5P", "ctrl+f1"); ("[1;5Q", "ctrl+f2"); ("[1;5R", "ctrl+f3"); ("[1;5S", "ctrl+f4");
   ("[11;5~", "ctrl+f1"); ("[12;5~", "ctrl+f2"); ("[13;5~", "ctrl+f3"); ("[14;5~", "ctrl+f4"); ("[15;5~", "ctrl+f5"); ("[17;5~", "ctrl+f6");
   ("[18;5~", "ctrl+f7"); ("[19;5~", "ctrl+f8"); ("[20;5~", "ctrl+f9"); ("[21;5~", "ctrl+f10"); ("[23;5~", "ctrl+f11"); ("[24;5~", "ctrl+f12");
   ("b", "alt+left"); ("f", "alt+right"); ("p", "alt+up"); ("n", "alt+down")].

(** The names a record literal inherits from [Object.prototype]. *)
Definition object_names : list string :=
  ["constructor"; "hasOwnProperty"; "isPrototypeOf"; "propertyIsEnumerable"; "toLocaleString"; "toString"; "valueOf";
   "__proto__"; "__defineGetter__"; "__defineSetter__"; "__lookupGetter__"; "__lookupSetter__"].
Definition inherited (name : jsstr) : bool := existsb (fun n => bool_decide (name = js n)) object_names.

Definition matchesLegacySequence (data : jsstr) (sequences : list string) : bool := existsb (fun s => bool_decide (data = esc s)) sequences.

Definition matchesLegacyModifierSequence (data : jsstr) (key : string) (modifier : Z) : bool :=
  if modifier =? m_shift then matchesLegacySequence data (field [] key LEGACY_SHIFT_SEQUENCES)
  else if modifier =? m_ctrl then matchesLegacySequence data (field [] key LEGACY_CTRL_SEQUENCES)
  else false.

(** ** Sequences *)

Inductive KeyEventType := press | repeat_ | release.

Record ParsedKittySequence := mkKitty {
  kk_codepoint : Z;
  kk_shiftedKey : option Z;
  kk_baseLayoutKey : option Z;
  kk_modifier : Z;
  kk_eventType : KeyEventType
}.

Record ParsedModifyOtherKeysSequence := mkOther { mo_codepoint : Z; mo_modifier : Z }.

(** Events are told by what the data contains, unless it is a paste. *)
Definition has_event (ends : list string) (data : jsstr) : bool :=
  if includes (esc "[200~") data then false else existsb (fun s => includes (js s) data) ends.
Definition isKeyRelease (data : jsstr) : bool := has_event [":3u"; ":3~"; ":3A"; ":3B"; ":3C"; ":3D"; ":3H"; ":3F"] data.
Definition isKeyRepeat (data : jsstr) : bool := has_event [":2u"; ":2~"; ":2A"; ":2B"; ":2C"; ":2D"; ":2H"; ":2F"] data.

(** A group that took part in the match and is not empty. *)
Definition truthy (s : option jsstr) : option jsstr := match s with Some (c :: t) => Some (c :: t) | _ => None end.

Definition parseEventType (eventTypeStr : option jsstr) : KeyEventType :=
  match truthy eventTypeStr with
  | None => press
  | Some s => let eventType := parseInt s in if eventType =? 2 then repeat_ else if eventType =? 3 then release else press
  end.

(** [modValue - 1]. *)
Definition pred_double (n : Z) : Z := to_double (n - 1).

Definition digits_group (n : nat) : rx := XGroup n (XPlus is_digit).
Definition optional (sep : string) (r : rx) : rx := XOpt (exact (js sep) >>> r)%rx.

Definition KITTY_CSI_U_REGEX : rx :=
  (exact (esc "[") >>> digits_group 1 >>> optional ":" (XGroup 2 (XStar true is_digit)) >>> optional ":" (digits_group 3)
   >>> optional ";" (digits_group 4) >>> optional ":" (digits_group 5) >>> exact (js "u") >>> XEnd)%rx.

Definition one_of (s : string) (c : Z) : bool := bool_decide (c ∈ js s).
Definition arrow_regex : rx :=
  (exact (esc "[1;") >>> digits_group 1 >>> optional ":" (digits_group 2) >>> XGroup 3 (XChar (one_of "ABCD")) >>> XEnd)%rx.
Definition functional_regex : rx :=
  (exact (esc "[") >>> digits_group 1 >>> optional ";" (digits_group 2) >>> optional ":" (digits_group 3) >>> exact (js "~") >>> XEnd)%rx.
Definition f_key_regex : rx :=
  (((exact (esc "[1;") >>> digits_group 1 >>> optional ":" (digits_group 2)) ||| (exact (esc "O") >>> digits_group 3))
   >>> XGroup 4 (XChar (one_of "PQRS")) >>> XEnd)%rx.
Definition home_end_regex : rx :=
  (exact (esc "[1;") >>> digits_group 1 >>> optional ":" (digits_group 2) >>> XGroup 3 (XChar (one_of "HF")) >>> XEnd)%rx.

Definition group_text (n : nat) (m : captures) : jsstr := default [] (group n m).
(** The number of a group that has one, or 1. *)
Definition mod_value (s : option jsstr) : Z := match truthy s with Some s => parseInt s | None => 1 end.

Definition parse_csi_u (data : jsstr) : option ParsedKittySequence :=
  m ← match_start KITTY_CSI_U_REGEX data;
  Some (mkKitty (parseInt (group_text 1 m)) (parseInt <$> truthy (group 2 m)) (parseInt <$> truthy (group 3 m))
          (pred_double (mod_value (group 4 m))) (parseEventType (group 5 m))).

Definition arrow_codes : list (string * Z) := [("A", -1); ("B", -2); ("C", -3); ("D", -4)].
(** A field of a constant record whose name is a group. *)
Definition field_js (k : jsstr) (r : list (string * Z)) : Z := match List.find (fun e => bool_decide (js e.1 = k)) r with Some e => e.2 | None => 0 end.

Definition parse_arrow (data : jsstr) : option ParsedKittySequence :=
  m ← match_start arrow_regex data;
  Some (mkKitty (field_js (group_text 3 m) arrow_codes) None None (pred_double (parseInt (group_text 1 m))) (parseEventType (group 2 m))).

Definition func_codes : list (Z * Z) :=
  [(2, functional "insert"); (3, functional "delete"); (5, functional "pageUp"); (6, functional "pageDown"); (7, functional "home"); (8, functional "end");
   (11, functional "f1"); (12, functional "f2"); (13, functional "f3"); (14, functional "f4"); (15, functional "f5"); (17, functional "f6");
   (18, functional "f7"); (19, functional "f8"); (20, functional "f9"); (21, functional "f10"); (23, functional "f11"); (24, functional "f12")].

Definition parse_functional (data : jsstr) : option ParsedKittySequence :=
  m ← match_start functional_regex data;
  e ← List.find (fun e => e.1 =? parseInt (group_text 1 m)) func_codes;
  Some (mkKitty e.2 None None (pred_double (mod_value (group 2 m))) (parseEventType (group 3 m))).

Definition f_codes : list (string * Z) := [("P", functional "f1"); ("Q", functional "f2"); ("R", functional "f3"); ("S", functional "f4")].

Definition parse_f_key (data : jsstr) : option ParsedKittySequence :=
  m ← match_start f_key_regex data;
  let modValue := parseInt match group 1 m with Some s => s | None => group_text 3 m end in
  Some (mkKitty (field_js (group_text 4 m) f_codes) None None (pred_double modValue) (parseEventType (group 2 m))).

Definition parse_home_end (data : jsstr) : option ParsedKittySequence :=
  m ← match_start home_end_regex data;
  Some (mkKitty (if bool_decide (group_text 3 m = js "H") then functional "home" else functional "end") None None
          (pred_double (parseInt (group_text 1 m))) (parseEventType (group 2 m))).

(** The first of two results. *)
Definition or_else {A} (a b : option A) : option A := match a with Some _ => a | None => b end.

Definition parseKittySequence (data : jsstr) : option ParsedKittySequence :=
  or_else (parse_csi_u data) (or_else (parse_arrow data) (or_else (parse_functional data) (or_else (parse_f_key data) (parse_home_end data)))).

Definition modify_other_regex : rx := (exact (esc "[27;") >>> digits_group 1 >>> exact (js ";") >>> digits_group 2 >>> exact (js "~") >>> XEnd)%rx.

Definition parseModifyOtherKeysSequence (data : jsstr) : option ParsedModifyOtherKeysSequence :=
  m ← match_start modify_other_regex data;
  Some (mkOther (parseInt (group_text 2 m)) (pred_double (parseInt (group_text 1 m)))).

Definition latin_letter (cp : Z) : bool := (97 <=? cp) && (cp <=? 122).

(** The code point and the modifier a parsed sequence is compared by. *)
Definition identity (codepoint modifier : Z) : Z := normalizeShiftedLetterIdentityCodepoint (normalizeKittyFunctionalCodepoint codepoint) modifier.

Definition matchesKittySequence (data : jsstr) (expectedCodepoint expectedModifier : Z) : bool :=
  match parseKittySequence data with
  | None => false
  | Some parsed =>
      if negb (unlocked (kk_modifier parsed) =? unlocked expectedModifier) then false
      else
        let normalizedCodepoint := identity (kk_codepoint parsed) (kk_modifier parsed) in
        if normalizedCodepoint =? identity expectedCodepoint expectedModifier then true
        else match kk_baseLayoutKey parsed with
             | Some base =>
                 (base =? expectedCodepoint) && negb (latin_letter normalizedCodepoint) && negb (is_symbol (fromCharCode normalizedCodepoint))
             | None => false
             end
  end.

Definition matchesModifyOtherKeys (data : jsstr) (expectedKeycode expectedModifier : Z) : bool :=
  match parseModifyOtherKeysSequence data with
  | None => false
  | Some parsed => (mo_codepoint parsed =? expectedKeycode) && (mo_modifier parsed =? expectedModifier)
  end.

Definition matchesPrintableModifyOtherKeys (data : jsstr) (expectedKeycode expectedModifier : Z) : bool :=
  if expectedModifier =? 0 then false
  else match parseModifyOtherKeysSequence data with
       | None => false
       | Some parsed =>
           (mo_modifier parsed =? expectedModifier)
           && (normalizeShiftedLetterIdentityCodepoint (mo_codepoint parsed) (mo_modifier parsed)
               =? normalizeShiftedLetterIdentityCodepoint expectedKeycode expectedModifier)
       end.

(** ** Names of keys *)

(** The control character of a key; the keys it is called with are ASCII. *)
Definition rawCtrlChar (key : jsstr) : option jsstr :=
  match map to_lower key with
  | code :: rest =>
      let char := code :: rest in
      if latin_letter code || bool_decide (char ∈ [js "["; js "\"; js "]"; js "_"]) then Some (fromCharCode (bit_and code 31))
      else if bool_decide (char = js "-") then Some (fromCharCode 31)
      else None
  | [] => None
  end.

Definition is_letter_key (key : jsstr) : bool := match key with [c] => latin_letter c | _ => false end.
Definition isDigitKey (key : jsstr) : bool := match key with [c] => is_digit c | _ => false end.

Definition formatKeyNameWithModifiers (keyName : jsstr) (modifier : Z) : option jsstr :=
  let effectiveMod := unlocked modifier in
  let supportedModifierMask := Z.lor (Z.lor (Z.lor m_shift m_ctrl) m_alt) m_super in
  if negb (bit_and effectiveMod (Z.lnot supportedModifierMask) =? 0) then None
  else
    let mods := (if bit_and effectiveMod m_shift =? 0 then [] else [js "shift"]) ++ (if bit_and effectiveMod m_ctrl =? 0 then [] else [js "ctrl"])
                ++ (if bit_and effectiveMod m_alt =? 0 then [] else [js "alt"]) ++ (if bit_and effectiveMod m_super =? 0 then [] else [js "super"]) in
    Some (if is_empty mods then keyName else join (js "+") mods ++ js "+" ++ keyName).

Record ParsedKeyId := mkKeyId { ki_key : jsstr; ki_ctrl : bool; ki_shift : bool; ki_alt : bool; ki_super : bool }.

(** What is around the program. *)
Class Terminal := {
  kittyProtocolActive : bool;
  process_env : string -> option jsstr;
  toLowerCase : jsstr -> jsstr
}.

Definition setKittyProtocolActive (active : bool) (T : Terminal) : Terminal :=
  {| kittyProtocolActive := active; process_env := @process_env T; toLowerCase := @toLowerCase T |}.

(** Case mapping on ASCII is what it is on letters. *)
Class TerminalOk `{Terminal} := { lower_ascii s : Forall (fun c => 0 <= c < 128) s -> toLowerCase s = map to_lower s }.

Section Terminal.
Context `{Terminal}.

Definition env_set (name : string) : bool := match truthy (process_env name) with Some _ => true | None => false end.
Definition isWindowsTerminalSession : bool :=
  env_set "WT_SESSION" && negb (env_set "SSH_CONNECTION") && negb (env_set "SSH_CLIENT") && negb (env_set "SSH_TTY").

Definition matchesRawBackspace (data : jsstr) (expectedModifier : Z) : bool :=
  if bool_decide (data = [127]) then expectedModifier =? 0
  else if negb (bool_decide (data = [8])) then false
  else if isWindowsTerminalSession then expectedModifier =? m_ctrl else expectedModifier =? 0.

Definition parseKeyId (keyId : jsstr) : option ParsedKeyId :=
  let parts := split_on 43 (toLowerCase keyId) in
  match last parts with
  | Some (c :: t) =>
      let has name := bool_decide (js name ∈ parts) in
      Some (mkKeyId (c :: t) (has "ctrl") (has "shift") (has "alt") (has "super"))
  | _ => None
  end.

Definition modifier_of (k : ParsedKeyId) : Z :=
  let modifier := 0 in
  let modifier := if ki_shift k then Z.lor modifier m_shift else modifier in
  let modifier := if ki_alt k then Z.lor modifier m_alt else modifier in
  let modifier := if ki_ctrl k then Z.lor modifier m_ctrl else modifier in
  if ki_super k then Z.lor modifier m_super else modifier.

(** ** The keys one by one *)

Definition matches_escape (data : jsstr) (modifier : Z) : bool :=
  if negb (modifier =? 0) then false
  else bool_decide (data = [27]) || matchesKittySequence data cp_escape 0 || matchesModifyOtherKeys data cp_escape 0.

Definition matches_space (data : jsstr) (modifier : Z) : bool :=
  if negb kittyProtocolActive && (modifier =? m_ctrl) && bool_decide (data = [0]) then true
  else if negb kittyProtocolActive && (modifier =? m_alt) && bool_decide (data = esc " ") then true
  else if modifier =? 0 then bool_decide (data = js " ") || matchesKittySequence data cp_space 0 || matchesModifyOtherKeys data cp_space 0
  else matchesKittySequence data cp_space modifier || matchesModifyOtherKeys data cp_space modifier.

Definition matches_tab (data : jsstr) (modifier : Z) : bool :=
  if modifier =? m_shift then bool_decide (data = esc "[Z") || matchesKittySequence data cp_tab m_shift || matchesModifyOtherKeys data cp_tab m_shift
  else if modifier =? 0 then bool_decide (data = [9]) || matchesKittySequence data cp_tab 0
  else matchesKittySequence data cp_tab modifier || matchesModifyOtherKeys data cp_tab modifier.

Definition kitty_enter (data : jsstr) (modifier : Z) : bool :=
  matchesKittySequence data cp_enter modifier || matchesKittySequence data cp_kpEnter modifier.

Definition matches_enter (data : jsstr) (modifier : Z) : bool :=
  if modifier =? m_shift then
    if kitty_enter data m_shift then true
    else if matchesModifyOtherKeys data cp_enter m_shift then true
    else if kittyProtocolActive then bool_decide (data = [27; 13]) || bool_decide (data = nl)
    else false
  else if modifier =? m_alt then
    if kitty_enter data m_alt then true
    else if matchesModifyOtherKeys data cp_enter m_alt then true
    else if negb kittyProtocolActive then bool_decide (data = [27; 13])
    else false
  else if modifier =? 0 then
    bool_decide (data = [13]) || (negb kittyProtocolActive && bool_decide (data = nl)) || bool_decide (data = esc "OM")
    || kitty_enter data 0
  else kitty_enter data modifier || matchesModifyOtherKeys data cp_enter modifier.

Definition matches_backspace (data : jsstr) (modifier : Z) : bool :=
  if modifier =? m_alt then
    if bool_decide (data = [27; 127]) || bool_decide (data = [27; 8]) then true
    else matchesKittySequence data cp_backspace m_alt || matchesModifyOtherKeys data cp_backspace m_alt
  else if modifier =? m_ctrl then
    if matchesRawBackspace data m_ctrl then true
    else matchesKittySequence data cp_backspace m_ctrl || matchesModifyOtherKeys data cp_backspace m_ctrl
  else if modifier =? 0 then
    matchesRawBackspace data 0 || matchesKittySequence data cp_backspace 0 || matchesModifyOtherKeys data cp_backspace 0
  else matchesKittySequence data cp_backspace modifier || matchesModifyOtherKeys data cp_backspace modifier.

(** insert, delete, home, end, page up and page down. *)
Definition matches_functional (name : string) (data : jsstr) (modifier : Z) : bool :=
  if modifier =? 0 then
    matchesLegacySequence data (field [] name LEGACY_KEY_SEQUENCES) || matchesKittySequence data (functional name) 0
  else if matchesLegacyModifierSequence data name modifier then true
  else matchesKittySequence data (functional name) modifier.

Definition matches_clear (data : jsstr) (modifier : Z) : bool :=
  if modifier =? 0 then matchesLegacySequence data (field [] "clear" LEGACY_KEY_SEQUENCES)
  else matchesLegacyModifierSequence data "clear" modifier.

(** up and down; [alt] is what follows escape with Alt. *)
Definition matches_vertical (name alt : string) (data : jsstr) (modifier : Z) : bool :=
  if modifier =? m_alt then bool_decide (data = esc alt) || matchesKittySequence data (arrow name) m_alt
  else if modifier =? 0 then
    matchesLegacySequence data (field [] name LEGACY_KEY_SEQUENCES) || matchesKittySequence data (arrow name) 0
  else if matchesLegacyModifierSequence data name modifier then true
  else matchesKittySequence data (arrow name) modifier.

(** left and right; [final], [upper] and [lower] are the letters of their sequences. *)
Definition matches_horizontal (name final upper lower : string) (data : jsstr) (modifier : Z) : bool :=
  if modifier =? m_alt then
    bool_decide (data = esc "[1;3" ++ js final) || (negb kittyProtocolActive && bool_decide (data = esc upper)) || bool_decide (data = esc lower)
    || matchesKittySequence data (arrow name) m_alt
  else if modifier =? m_ctrl then
    bool_decide (data = esc "[1;5" ++ js final) || matchesLegacyModifierSequence data name m_ctrl || matchesKittySequence data (arrow name) m_ctrl
  else if modifier =? 0 then
    matchesLegacySequence data (field [] name LEGACY_KEY_SEQUENCES) || matchesKittySequence data (arrow name) 0
  else if matchesLegacyModifierSequence data name modifier then true
  else matchesKittySequence data (arrow name) modifier.

(** f1 to f12. *)
Definition matches_function_key (functionKey : string) (data : jsstr) (modifier : Z) : bool :=
  let targetCodepoint := functional functionKey in
  if modifier =? 0 then
    matchesLegacySequence data (field [] functionKey LEGACY_KEY_SEQUENCES) || matchesKittySequence data targetCodepoint 0
  else if matchesKittySequence data targetCodepoint modifier then true
  else if matchesModifyOtherKeys data targetCodepoint modifier then true
  else
    let modifiedCode := js (field "" functionKey MODIFIED_FUNCTION_KEY_CODES) in
    let encodedModifier := show (modifier + 1) in
    let with_caret num := (modifier =? m_ctrl) && bool_decide (data = esc "[" ++ num ++ js "^") in
    let with_dollar num := (modifier =? m_shift) && bool_decide (data = esc "[" ++ num ++ js "$") in
    if ends_with (js "~") modifiedCode then
      let num := slice_to modifiedCode (-1) in
      bool_decide (data = esc "[" ++ num ++ js ";" ++ encodedModifier ++ js "~") || with_caret num || with_dollar num
    else
      let legacyNum := js (if bool_decide (functionKey = "f1") then "11" else if bool_decide (functionKey = "f2") then "12"
                           else if bool_decide (functionKey = "f3") then "13" else "14") in
      bool_decide (data = esc "[1;" ++ encodedModifier ++ modifiedCode) || bool_decide (data = esc "O" ++ encodedModifier ++ modifiedCode)
      || bool_decide (data = esc "[" ++ legacyNum ++ js ";" ++ encodedModifier ++ js "~") || with_caret legacyNum || with_dollar legacyNum.

(** Letters, digits and symbols. *)
Definition matches_character (key data : jsstr) (modifier : Z) : bool :=
  let codepoint := match key with c :: _ => c | [] => 0 end in
  let rawCtrl := rawCtrlChar key in
  let isLetter := is_letter_key key in
  if (modifier =? m_ctrl + m_alt) && negb kittyProtocolActive
     && match rawCtrl with Some c => bool_decide (data = 27 :: c) | None => false end then true
  else if (modifier =? m_alt) && negb kittyProtocolActive && (isLetter || isDigitKey key) && bool_decide (data = 27 :: key) then true
  else if modifier =? m_ctrl then
    match rawCtrl with Some c => bool_decide (data = c) | None => false end
    || matchesKittySequence data codepoint m_ctrl || matchesPrintableModifyOtherKeys data codepoint m_ctrl
  else if modifier =? m_shift + m_ctrl then
    matchesKittySequence data codepoint (m_shift + m_ctrl) || matchesPrintableModifyOtherKeys data codepoint (m_shift + m_ctrl)
  else if modifier =? m_shift then
    isLetter && bool_decide (data = map fold_case key)
    || matchesKittySequence data codepoint m_shift || matchesPrintableModifyOtherKeys data codepoint m_shift
  else if negb (modifier =? 0) then
    matchesKittySequence data codepoint modifier || matchesPrintableModifyOtherKeys data codepoint modifier
  else bool_decide (data = key) || matchesKittySequence data codepoint 0.

Definition key_cases : list (string * (jsstr -> Z -> bool)) :=
  [("escape", matches_escape); ("esc", matches_escape); ("space", matches_space); ("tab", matches_tab);
   ("enter", matches_enter); ("return", matches_enter); ("backspace", matches_backspace);
   ("insert", matches_functional "insert"); ("delete", matches_functional "delete"); ("clear", matches_clear);
   ("home", matches_functional "home"); ("end", matches_functional "end");
   ("pageup", matches_functional "pageUp"); ("pagedown", matches_functional "pageDown");
   ("up", matches_vertical "up" "p"); ("down", matches_vertical "down" "n");
   ("left", matches_horizontal "left" "D" "B" "b"); ("right", matches_horizontal "right" "C" "F" "f")]
  ++ map (fun f => (f, matches_function_key f)) ["f1"; "f2"; "f3"; "f4"; "f5"; "f6"; "f7"; "f8"; "f9"; "f10"; "f11"; "f12"].

Definition match_key (data key : jsstr) (modifier : Z) : bool :=
  match List.find (fun c => bool_decide (key = js c.1)) key_cases with
  | Some c => c.2 data modifier
  | None =>
      if (length key =? 1)%nat && (is_letter_key key || isDigitKey key || is_symbol key) then matches_character key data modifier
      else false
  end.

Definition matchesKey (data keyId : jsstr) : bool :=
  match parseKeyId keyId with
  | None => false
  | Some parsed => match_key data (ki_key parsed) (modifier_of parsed)
  end.

(** ** The name of a sequence *)

Definition named_code_points : list (Z * string) :=
  [(cp_escape, "escape"); (cp_tab, "tab"); (cp_enter, "enter"); (cp_kpEnter, "enter"); (cp_space, "space"); (cp_backspace, "backspace");
   (functional "delete", "delete"); (functional "insert", "insert"); (functional "home", "home"); (functional "end", "end");
   (functional "pageUp", "pageUp"); (functional "pageDown", "pageDown");
   (functional "f1", "f1"); (functional "f2", "f2"); (functional "f3", "f3"); (functional "f4", "f4"); (functional "f5", "f5"); (functional "f6", "f6");
   (functional "f7", "f7"); (functional "f8", "f8"); (functional "f9", "f9"); (functional "f10", "f10"); (functional "f11", "f11"); (functional "f12", "f12");
   (arrow "up", "up"); (arrow "down", "down"); (arrow "left", "left"); (arrow "right", "right")].

Definition key_name (cp : Z) : option jsstr :=
  match List.find (fun e => e.1 =? cp) named_code_points with
  | Some e => Some (js e.2)
  | None =>
      if (48 <=? cp) && (cp <=? 57) then Some (fromCharCode cp)
      else if latin_letter cp then Some (fromCharCode cp)
      else if is_symbol (fromCharCode cp) then Some (fromCharCode cp)
      else None
  end.

Definition formatParsedKey (codepoint modifier : Z) (baseLayoutKey : option Z) : option jsstr :=
  let identityCodepoint := identity codepoint modifier in
  let isDigit := (48 <=? identityCodepoint) && (identityCodepoint <=? 57) in
  let effectiveCodepoint :=
    if latin_letter identityCodepoint || isDigit || is_symbol (fromCharCode identityCodepoint) then identityCodepoint
    else default identityCodepoint baseLayoutKey in
  keyName ← key_name effectiveCodepoint;
  formatKeyNameWithModifiers keyName modifier.

(** What [parseKey] returns: an identifier, or the property of [Object.prototype] that
    the record of identifiers inherits under the name that is the data. *)
Inductive key_result := key_id (id : jsstr) | key_inherited (name : jsstr).

Definition lookup_legacy (data : jsstr) : option key_result :=
  match List.find (fun e => bool_decide (data = esc e.1)) LEGACY_SEQUENCE_KEY_IDS with
  | Some e => Some (key_id (js e.2))
  | None => if inherited data then Some (key_inherited data) else None
  end.

(** Sequences compared one by one, with what they mean; the first one counts. *)
Definition legacy_cases : list ((bool * jsstr) * string) :=
  let legacy := negb kittyProtocolActive in
  [((true, [27]), "escape"); ((true, [28]), "ctrl+\"); ((true, [29]), "ctrl+]"); ((true, [31]), "ctrl+-");
   ((true, [27; 27]), "ctrl+alt+["); ((true, [27; 28]), "ctrl+alt+\"); ((true, [27; 29]), "ctrl+alt+]"); ((true, [27; 31]), "ctrl+alt+-");
   ((true, [9]), "tab"); ((true, [13]), "enter"); ((legacy, nl), "enter"); ((true, esc "OM"), "enter");
   ((true, [0]), "ctrl+space"); ((true, js " "), "space"); ((true, [127]), "backspace");
   ((true, [8]), if isWindowsTerminalSession then "ctrl+backspace" else "backspace");
   ((true, esc "[Z"), "shift+tab"); ((legacy, [27; 13]), "alt+enter"); ((legacy, esc " "), "alt+space");
   ((true, [27; 127]), "alt+backspace"); ((true, [27; 8]), "alt+backspace");
   ((legacy, esc "B"), "alt+left"); ((legacy, esc "F"), "alt+right")].

Definition legacy_arrows : list (string * string) :=
  [("[A", "up"); ("[B", "down"); ("[C", "right"); ("[D", "left"); ("[H", "home"); ("OH", "home"); ("[F", "end"); ("OF", "end");
   ("[3~", "delete"); ("[5~", "pageUp"); ("[6~", "pageDown")].

(** Escape and a character, when the Kitty protocol is not active. *)
Definition legacy_alt (data : jsstr) : option jsstr :=
  match data with
  | [27; code] =>
      if kittyProtocolActive then None
      else if (1 <=? code) && (code <=? 26) then Some (js "ctrl+alt+" ++ fromCharCode (code + 96))
      else if latin_letter code || (48 <=? code) && (code <=? 57) then Some (js "alt+" ++ fromCharCode code)
      else None
  | _ => None
  end.

Definition legacy_single (data : jsstr) : option jsstr :=
  match data with
  | [code] =>
      if (1 <=? code) && (code <=? 26) then Some (js "ctrl+" ++ fromCharCode (code + 96))
      else if (32 <=? code) && (code <=? 126) then Some data
      else None
  | _ => None
  end.

Definition parseKey (data : jsstr) : option key_result :=
  match parseKittySequence data with
  | Some kitty => key_id <$> formatParsedKey (kk_codepoint kitty) (kk_modifier kitty) (kk_baseLayoutKey kitty)
  | None =>
      match parseModifyOtherKeysSequence data with
      | Some other => key_id <$> formatParsedKey (mo_codepoint other) (mo_modifier other) None
      | None =>
          if kittyProtocolActive && (bool_decide (data = [27; 13]) || bool_decide (data = nl)) then Some (key_id (js "shift+enter"))
          else
            or_else (lookup_legacy data)
              (or_else ((fun c => key_id (js c.2)) <$> List.find (fun c => c.1.1 && bool_decide (data = c.1.2)) legacy_cases)
                (or_else (key_id <$> legacy_alt data)
                  (or_else ((fun c => key_id (js c.2)) <$> List.find (fun c => bool_decide (data = esc c.1)) legacy_arrows)
                    (key_id <$> legacy_single data))))
      end
  end.

End Terminal.

(** ** Printable characters *)

Definition KITTY_PRINTABLE_ALLOWED_MODIFIERS : Z := Z.lor m_shift LOCK_MASK.

(** [String.fromCodePoint(n)], and nothing when it throws. *)
Definition from_code_point (n : Z) : option jsstr :=
  if 1114111 <? n then None
  else if n <? 65536 then Some [n]
  else Some [55296 + (n - 65536) / 1024; 56320 + (n - 65536) mod 1024].

Definition decodeKittyPrintable (data : jsstr) : option jsstr :=
  m ← match_start KITTY_CSI_U_REGEX data;
  let codepoint := parseInt (group_text 1 m) in
  if negb (isFinite codepoint) then None
  else
    let shiftedKey := parseInt <$> truthy (group 2 m) in
    let modValue := mod_value (group 4 m) in
    let modifier := if isFinite modValue then pred_double modValue else 0 in
    if negb (bit_and modifier (Z.lnot KITTY_PRINTABLE_ALLOWED_MODIFIERS) =? 0) then None
    else if negb (bit_and modifier (Z.lor m_alt m_ctrl) =? 0) then None
    else
      let effectiveCodepoint :=
        match shiftedKey with
        | Some shifted => if negb (bit_and modifier m_shift =? 0) then shifted else codepoint
        | None => codepoint
        end in
      let effectiveCodepoint := normalizeKittyFunctionalCodepoint effectiveCodepoint in
      if negb (isFinite effectiveCodepoint) || (effectiveCodepoint <? 32) then None
      else from_code_point effectiveCodepoint.

Definition decodeModifyOtherKeysPrintable (data : jsstr) : option jsstr :=
  parsed ← parseModifyOtherKeysSequence data;
  let modifier := unlocked (mo_modifier parsed) in
  if negb (bit_and modifier (Z.lnot m_shift) =? 0) then None
  else if negb (isFinite (mo_codepoint parsed)) || (mo_codepoint parsed <? 32) then None
  else from_code_point (mo_codepoint parsed).

Definition decodePrintableKey (data : jsstr) : option jsstr := or_else (decodeKittyPrintable data) (decodeModifyOtherKeysPrintable data).
