(* ===== verification/KeyProps.v ===== *)
(** Theorems about keys: a sequence of the Kitty protocol that has a name is the key of
    that name; printing a key event and parsing it gives the event back; and what counts
    as a printable character. *)
From S2P Require Import Prelude JsString StringSearch JsonParse JsonCodec Regex Keys.

(** ** Bits *)

Lemma to_int32_range n : - 2 ^ 31 <= to_int32 n < 2 ^ 31.
Proof. unfold to_int32. pose proof (Z.mod_pos_bound n (2 ^ 32)). cbv zeta. case_if; bool_hyps; lia. Qed.

Lemma to_int32_small n : - 2 ^ 31 <= n < 2 ^ 31 -> to_int32 n = n.
Proof.
  intros Hn. unfold to_int32. cbv zeta. destruct (Z.le_gt_cases 0 n).
  - rewrite Z.mod_small by lia. rewrite (proj2 (Z.ltb_lt _ _)); lia.
  - rewrite <- (Z_mod_plus_full n 1), Z.mod_small by lia. rewrite (proj2 (Z.ltb_ge _ _)); lia.
Qed.

Lemma log2_lt a : 0 <= a < 2 ^ 31 -> Z.log2 a < 31.
Proof. intros Ha. destruct (Z.eq_dec a 0) as [-> | ?]; [done |]. apply Z.log2_lt_pow2; lia. Qed.

Lemma lor_lt a b : 0 <= a < 2 ^ 31 -> 0 <= b < 2 ^ 31 -> 0 <= Z.lor a b < 2 ^ 31.
Proof.
  intros Ha Hb. assert (Hp : 0 <= Z.lor a b) by (apply Z.lor_nonneg; lia). split; [done |].
  destruct (Z.eq_dec (Z.lor a b) 0) as [-> | ?]; [done |]. apply Z.log2_lt_pow2; [lia |]. rewrite Z.log2_lor by lia.
  pose proof (log2_lt a Ha). pose proof (log2_lt b Hb). lia.
Qed.

Lemma land_le a b : 0 <= a -> 0 <= Z.land a b <= a.
Proof.
  intros Ha. split; [apply Z.land_nonneg; lia |].
  assert (E : a - Z.land a b = Z.ldiff a (Z.land a b)).
  { apply Z.sub_nocarry_ldiff. by rewrite Z.ldiff_land, <- Z.land_assoc, (Z.land_comm b), Z.land_assoc, Z.land_lnot_diag, Z.land_0_l. }
  pose proof (proj2 (Z.ldiff_nonneg a (Z.land a b)) (or_introl Ha)). lia.
Qed.

Lemma land_int32 a b : - 2 ^ 31 <= a < 2 ^ 31 -> - 2 ^ 31 <= b < 2 ^ 31 -> - 2 ^ 31 <= Z.land a b < 2 ^ 31.
Proof.
  intros Ha Hb. destruct (Z.le_gt_cases 0 a) as [Pa | Na]; [pose proof (land_le a b Pa); lia |].
  destruct (Z.le_gt_cases 0 b) as [Pb | Nb]; [rewrite Z.land_comm; pose proof (land_le b a Pb); lia |].
  assert (E : Z.land a b = Z.lnot (Z.lor (Z.lnot a) (Z.lnot b))) by (rewrite Z.lnot_lor, !Z.lnot_involutive; done).
  rewrite E. pose proof (lor_lt (Z.lnot a) (Z.lnot b)). unfold Z.lnot in *. lia.
Qed.

Lemma bit_and_range a b : - 2 ^ 31 <= bit_and a b < 2 ^ 31.
Proof. apply land_int32; apply to_int32_range. Qed.

Lemma unlocked_idem m : unlocked (unlocked m) = unlocked m.
Proof.
  unfold unlocked at 1. unfold bit_and. rewrite (to_int32_small (unlocked m)) by apply bit_and_range.
  unfold unlocked, bit_and. by rewrite <- Z.land_assoc, Z.land_diag.
Qed.

(** The modifiers with a name. *)
Lemma supported_modifier e : - 2 ^ 31 <= e < 2 ^ 31 -> bit_and e (Z.lnot 15) = 0 -> 0 <= e < 16.
Proof.
  intros He. unfold bit_and. rewrite (to_int32_small e) by done. change (to_int32 (Z.lnot 15)) with (Z.lnot (Z.ones 4)).
  rewrite <- Z.ldiff_land, Z.ldiff_ones_r, Z.shiftl_mul_pow2, Z.shiftr_div_pow2 by lia.
  change (2 ^ 4) with 16. intros E. pose proof (Z.div_mod e 16). pose proof (Z.mod_pos_bound e 16). lia.
Qed.

(** ** Matching by sequence *)

Lemma normalize_idem cp : normalizeKittyFunctionalCodepoint (normalizeKittyFunctionalCodepoint cp) = normalizeKittyFunctionalCodepoint cp.
Proof.
  unfold normalizeKittyFunctionalCodepoint at 2 3. destruct (List.find _ _) as [e |] eqn:E; [| unfold normalizeKittyFunctionalCodepoint; by rewrite E].
  apply List.find_some in E as [Hin _]. revert Hin. assert (H : forallb (fun e => normalizeKittyFunctionalCodepoint e.2 =? e.2) KITTY_FUNCTIONAL_KEY_EQUIVALENTS = true) by reflexivity.
  rewrite List.forallb_forall in H. intros Hin. by apply Z.eqb_eq, H.
Qed.

(** What is left to compare after normalization is a fixed point of it. *)
Lemma identity_idem cp m m' : unlocked m = unlocked m' -> identity (identity cp m) m' = identity cp m.
Proof.
  intros Hm. unfold identity at 1. assert (Hn : normalizeKittyFunctionalCodepoint (identity cp m) = identity cp m).
  { unfold identity, normalizeShiftedLetterIdentityCodepoint. case_if; [| apply normalize_idem].
    bool_hyps. set (n := normalizeKittyFunctionalCodepoint cp) in *. clearbody n. unfold normalizeKittyFunctionalCodepoint.
    destruct (List.find _ _) as [e |] eqn:E; [| done]. apply List.find_some in E as [Hin He].
    assert (Ht : forallb (fun e => 1000 <? e.1) KITTY_FUNCTIONAL_KEY_EQUIVALENTS = true) by reflexivity.
    rewrite List.forallb_forall in Ht. specialize (Ht _ Hin). bool_hyps. lia. }
  rewrite Hn. unfold identity, normalizeShiftedLetterIdentityCodepoint. rewrite <- Hm.
  repeat case_if; bool_hyps; try lia; done.
Qed.

(** ** The keys one by one *)

Section Matched.
Context `{TerminalOk} (data : jsstr).

Ltac settle HK := repeat case_if; bool_hyps; subst; rewrite ?HK, ?orb_true_r, ?orb_true_l; try done.

Lemma enter_matched m : matchesKittySequence data cp_enter m = true \/ matchesKittySequence data cp_kpEnter m = true -> matches_enter data m = true.
Proof.
  intros HK. assert (E : kitty_enter data m = true) by (unfold kitty_enter; by destruct HK as [-> | ->]; rewrite ?orb_true_r).
  unfold matches_enter. repeat case_if; bool_hyps; subst; rewrite ?E, ?orb_true_r in *; done.
Qed.

Lemma character_matched c m : matchesKittySequence data c m = true -> matches_character [c] data m = true.
Proof. intros HK. unfold matches_character. settle HK. Qed.

Lemma functional_matched name m : matchesKittySequence data (functional name) m = true -> matches_functional name data m = true.
Proof. intros HK. unfold matches_functional. settle HK. Qed.

Lemma function_key_matched name m : matchesKittySequence data (functional name) m = true -> matches_function_key name data m = true.
Proof. intros HK. unfold matches_function_key. settle HK. Qed.

Lemma vertical_matched name alt m : matchesKittySequence data (arrow name) m = true -> matches_vertical name alt data m = true.
Proof. intros HK. unfold matches_vertical. settle HK. Qed.

Lemma horizontal_matched name f u l m : matchesKittySequence data (arrow name) m = true -> matches_horizontal name f u l data m = true.
Proof. intros HK. unfold matches_horizontal. settle HK. Qed.

Lemma space_matched m : matchesKittySequence data cp_space m = true -> matches_space data m = true.
Proof. intros HK. unfold matches_space. settle HK. Qed.

Lemma tab_matched m : matchesKittySequence data cp_tab m = true -> matches_tab data m = true.
Proof. intros HK. unfold matches_tab. settle HK. Qed.

Lemma backspace_matched m : matchesKittySequence data cp_backspace m = true -> matches_backspace data m = true.
Proof. intros HK. unfold matches_backspace. settle HK. Qed.

Lemma escape_matched m : m = 0 -> matchesKittySequence data cp_escape m = true -> matches_escape data m = true.
Proof. intros -> HK. unfold matches_escape. settle HK. Qed.

(** The keys with a case of their own. *)
Lemma named_matched cp name m : In (cp, name) named_code_points -> (cp = cp_escape -> m = 0) -> matchesKittySequence data cp m = true ->
  match_key data (map to_lower (js name)) m = true.
Proof.
  intros Hin Hesc HK. simpl in Hin.
  repeat (destruct Hin as [Hin | Hin]; [injection Hin as <- <- |]); [.. | done].
  1: change (matches_escape data m = true); apply escape_matched; auto.
  1: change (matches_tab data m = true); by apply tab_matched.
  1-2: change (matches_enter data m = true); apply enter_matched; auto.
  1: change (matches_space data m = true); by apply space_matched.
  1: change (matches_backspace data m = true); by apply backspace_matched.
  1: change (matches_functional "delete" data m = true); by apply functional_matched.
  1: change (matches_functional "insert" data m = true); by apply functional_matched.
  1: change (matches_functional "home" data m = true); by apply functional_matched.
  1: change (matches_functional "end" data m = true); by apply functional_matched.
  1: change (matches_functional "pageUp" data m = true); by apply functional_matched.
  1: change (matches_functional "pageDown" data m = true); by apply functional_matched.
  1: change (matches_function_key "f1" data m = true); by apply function_key_matched.
  1: change (matches_function_key "f2" data m = true); by apply function_key_matched.
  1: change (matches_function_key "f3" data m = true); by apply function_key_matched.
  1: change (matches_function_key "f4" data m = true); by apply function_key_matched.
  1: change (matches_function_key "f5" data m = true); by apply function_key_matched.
  1: change (matches_function_key "f6" data m = true); by apply function_key_matched.
  1: change (matches_function_key "f7" data m = true); by apply function_key_matched.
  1: change (matches_function_key "f8" data m = true); by apply function_key_matched.
  1: change (matches_function_key "f9" data m = true); by apply function_key_matched.
  1: change (matches_function_key "f10" data m = true); by apply function_key_matched.
  1: change (matches_function_key "f11" data m = true); by apply function_key_matched.
  1: change (matches_function_key "f12" data m = true); by apply function_key_matched.
  1: change (matches_vertical "up" "p" data m = true); by apply vertical_matched.
  1: change (matches_vertical "down" "n" data m = true); by apply vertical_matched.
  1: change (matches_horizontal "left" "D" "B" "b" data m = true); by apply horizontal_matched.
  change (matches_horizontal "right" "C" "F" "f" data m = true); by apply horizontal_matched.
Qed.

(** Letters, digits and symbols have no case of their own. *)
Lemma single_matched c m : is_letter_key [c] || isDigitKey [c] || is_symbol [c] = true -> matchesKittySequence data c m = true ->
  match_key data [c] m = true.
Proof.
  intros Hc HK. unfold match_key. destruct (List.find _ _) as [e |] eqn:E.
  - apply List.find_some in E as [Hin Heq]. apply bool_decide_eq_true in Heq. exfalso. revert Heq. apply List.in_map with (f := fst) in Hin.
    cbn in Hin. repeat (destruct Hin as [<- | Hin]; [done |]). done.
  - rewrite Hc. by apply character_matched.
Qed.

Lemma symbol_range c : is_symbol [c] = true -> 33 <= c <= 126.
Proof.
  intros Hin%bool_decide_eq_true. assert (Hf : forallb (fun c => (33 <=? c) && (c <=? 126)) SYMBOL_KEYS = true) by reflexivity.
  rewrite List.forallb_forall in Hf. apply list_elem_of_In in Hin. specialize (Hf _ Hin). bool_hyps. done.
Qed.

(** What [key_name] names below the astral planes. *)
Lemma key_name_cases cp name : -65410 < cp < 65536 -> key_name cp = Some name ->
  (exists n, In (cp, n) named_code_points /\ name = js n) \/
  (name = [cp] /\ is_letter_key [cp] || isDigitKey [cp] || is_symbol [cp] = true).
Proof.
  intros Hcp. unfold key_name. destruct (List.find _ _) as [[k n] |] eqn:E.
  - intros [= <-]. apply List.find_some in E as [Hin Heq]. apply Z.eqb_eq in Heq. cbn in Heq. subst. left. by exists n.
  - clear E. unfold fromCharCode, is_letter_key, isDigitKey, is_digit. intros Hn. right. revert Hn. case_if.
    { intros [= <-]. bool_hyps. rewrite Z.mod_small by lia. split; [done |]. by rewrite orb_true_r. }
    destruct (latin_letter cp) eqn:El.
    { intros [= <-]. unfold latin_letter in El. bool_hyps. rewrite Z.mod_small by lia. done. }
    destruct (is_symbol [cp mod 65536]) eqn:Es; [| done]. intros [= <-]. pose proof (symbol_range _ Es) as Hr.
    assert (Hm : cp mod 65536 = cp).
    { pose proof (Z.div_mod cp 65536). assert (cp / 65536 = 0) by (pose proof (Z.mod_pos_bound cp 65536); lia). lia. }
    rewrite Hm in *. by rewrite Es, orb_true_r.
Qed.

End Matched.

(** ** Identifiers *)

#[global] Instance ascii_terminal : Terminal := {| kittyProtocolActive := false; process_env := fun _ => None; toLowerCase := map to_lower |}.

#[global] Instance ascii_terminal_ok : TerminalOk.
Proof. split. done. Qed.

Lemma parse_ascii `{T : Terminal} `{!@TerminalOk T} id : Forall (fun c => 0 <= c < 128) id ->
  @parseKeyId T id = @parseKeyId ascii_terminal id.
Proof. intros Ha. unfold parseKeyId. by rewrite lower_ascii. Qed.

(** The names of keys but for [+]. *)
Definition single_names : list jsstr :=
  map (fun c => [c]) (List.filter (fun c => negb (c =? 43) && (is_letter_key [c] || isDigitKey [c] || is_symbol [c])) (map Z.of_nat (seq 33 94))).
Definition all_names : list jsstr := map (fun e => js e.2) named_code_points ++ single_names.

(** An identifier of a key with modifiers is read as that key with those modifiers. *)
Definition id_read_back (name : jsstr) (m : Z) : bool :=
  match formatKeyNameWithModifiers name m with
  | Some id =>
      forallb (fun c => (0 <=? c) && (c <? 128)) id
      && match @parseKeyId ascii_terminal id with
         | Some p => bool_decide (ki_key p = map to_lower name) && (modifier_of p =? m)
         | None => false
         end
  | None => false
  end.

Lemma ids_read_back : forallb (fun name => forallb (id_read_back name) (map Z.of_nat (seq 0 16))) all_names = true.
Proof. vm_compute. reflexivity. Qed.

Lemma single_name c : is_letter_key [c] || isDigitKey [c] || is_symbol [c] = true -> c <> 43 -> In [c] all_names.
Proof.
  intros Hc Hn. apply List.in_or_app. right. apply List.in_map_iff. exists c. split; [done |]. apply List.filter_In. split.
  - apply List.in_map_iff. exists (Z.to_nat c). assert (33 <= c <= 126).
    { rewrite !orb_true_iff in Hc. destruct Hc as [[Hc | Hc] | Hc]; [| | by apply symbol_range]; cbn in Hc; unfold latin_letter, is_digit in Hc; bool_hyps; lia. }
    split; [lia |]. apply List.in_seq. lia.
  - rewrite Hc, andb_true_r. apply negb_true_iff, Z.eqb_neq. done.
Qed.

Lemma format_unlocked name m : formatKeyNameWithModifiers name (unlocked m) = formatKeyNameWithModifiers name m.
Proof. unfold formatKeyNameWithModifiers. by rewrite unlocked_idem. Qed.

Lemma format_supported name m id : formatKeyNameWithModifiers name m = Some id -> 0 <= unlocked m < 16.
Proof.
  unfold formatKeyNameWithModifiers. change (Z.lor (Z.lor (Z.lor m_shift m_ctrl) m_alt) m_super) with 15. case_if; [done |]. intros _.
  apply supported_modifier; [apply bit_and_range |]. bool_hyps. done.
Qed.

Lemma format_parsed `{T : Terminal} `{!@TerminalOk T} name m id : In name all_names -> formatKeyNameWithModifiers name m = Some id ->
  exists p, parseKeyId id = Some p /\ ki_key p = map to_lower name /\ modifier_of p = unlocked m.
Proof.
  intros Hin Hf. pose proof (format_supported _ _ _ Hf) as Hm. pose proof ids_read_back as Hall.
  rewrite List.forallb_forall in Hall. specialize (Hall _ Hin). rewrite List.forallb_forall in Hall. specialize (Hall (unlocked m)).
  unfold id_read_back in Hall. rewrite format_unlocked, Hf in Hall.
  assert (Hs : In (unlocked m) (map Z.of_nat (seq 0 16))).
  { apply List.in_map_iff. exists (Z.to_nat (unlocked m)). split; [lia |]. apply List.in_seq. lia. }
  specialize (Hall Hs). apply andb_true_iff in Hall as [Ha Hp]. rewrite parse_ascii.
  - destruct (parseKeyId id) as [p |]; [| done]. exists p. apply andb_true_iff in Hp as [Hk%bool_decide_eq_true Hm'%Z.eqb_eq]. done.
  - apply Forall_forall. intros c Hc. rewrite List.forallb_forall in Ha. apply list_elem_of_In in Hc. specialize (Ha _ Hc). bool_hyps. lia.
Qed.

(** ** The groups of an expression *)

(** What is captured by the groups of [r] satisfies [P]. *)
Fixpoint captures_ok (P : nat -> jsstr -> Prop) (r : rx) : Prop :=
  match r with
  | XOpt r => captures_ok P r
  | XSeq a b | XAlt a b => captures_ok P a /\ captures_ok P b
  | XGroup n r => captures_ok P r /\ forall s caps m, m ∈ matches r s caps -> P n (before s m.1)
  | _ => True
  end.

Lemma matches_captures P r : captures_ok P r -> forall s caps m, m ∈ matches r s caps -> Forall (fun c => P c.1 c.2) caps -> Forall (fun c => P c.1 c.2) m.2.
Proof.
  induction r as [p|l|g p|r IH|a IHa b IHb|a IHa b IHb|n r IH| |]; intros Hok s caps m; cbn [matches].
  - destruct s as [|c s]; [by intros ?%elem_of_nil|]. destruct (p c); [|by intros ?%elem_of_nil]. by intros ->%list_elem_of_singleton.
  - destruct (match_lit l s); [|by intros ?%elem_of_nil]. by intros ->%list_elem_of_singleton.
  - by intros (s' & -> & _)%list_elem_of_fmap.
  - rewrite elem_of_app, list_elem_of_singleton. intros [Hm| ->]; [|done].
    apply list_elem_of_In, filter_In in Hm as [Hm _]. eapply IH; [done | by apply list_elem_of_In].
  - destruct Hok as [Ha Hb]. intros Hm Hc. apply list_elem_of_In, in_flat_map in Hm as (m' & H1 & H2).
    eapply (IHb Hb); [by apply list_elem_of_In |]. eapply (IHa Ha); [by apply list_elem_of_In | done].
  - destruct Hok as [Ha Hb]. rewrite elem_of_app. intros [Hm|Hm]; [by eapply IHa | by eapply IHb].
  - destruct Hok as [Hr Hp]. intros (m' & -> & Hin)%list_elem_of_fmap Hc. cbn [snd]. constructor; [by eapply Hp | by eapply IH].
  - destruct s as [|c s]; [by intros ->%list_elem_of_singleton|]. destruct (is_word c); [by intros ?%elem_of_nil|]. by intros ->%list_elem_of_singleton.
  - destruct s; [by intros ->%list_elem_of_singleton|by intros ?%elem_of_nil].
Qed.

Lemma match_start_group P r s m n t : captures_ok P r -> match_start r s = Some m -> group n m = Some t -> P n t.
Proof.
  intros Hok. unfold match_start. destruct (matches r s []) as [|m' l] eqn:E; [done |]. intros [= <-].
  unfold group. destruct (List.find _ _) as [[k u] |] eqn:Ef; [| done]. cbn. intros [= ->].
  apply List.find_some in Ef as [Hin Hn]. apply Nat.eqb_eq in Hn. cbn in Hn. subst.
  assert (Hall : Forall (fun c => P c.1 c.2) m'.2) by (eapply matches_captures; [done | rewrite E; by left | done]).
  rewrite Forall_forall in Hall. apply list_elem_of_In in Hin. exact (Hall _ Hin).
Qed.

Definition digits (s : jsstr) : Prop := Forall (fun c => is_digit c = true) s.

Lemma star_digits s caps m : m ∈ matches (XStar true is_digit) s caps -> digits (before s m.1).
Proof.
  cbn [matches]. intros (s' & -> & Hin)%list_elem_of_fmap. rewrite elem_of_reverse in Hin. cbn [fst].
  enough (exists q, s = q ++ s' /\ digits q) as (q & -> & Hq) by (by rewrite before_app).
  induction s as [|c s IH] in Hin |- *; cbn [class_suffixes] in Hin.
  - apply list_elem_of_singleton in Hin as ->. exists []. by split; [| constructor].
  - apply elem_of_cons in Hin as [-> | Hin]; [exists []; by split; [| constructor] |]. destruct (is_digit c) eqn:Hc; [| by apply elem_of_nil in Hin].
    destruct (IH Hin) as (q & -> & Hq). exists (c :: q). split; [done | by constructor].
Qed.

Lemma plus_digits s caps m : m ∈ matches (XPlus is_digit) s caps -> digits (before s m.1).
Proof.
  cbn [matches XPlus]. destruct s as [|c s]; [by intros ?%elem_of_nil|]. destruct (is_digit c) eqn:Hc; [|by intros ?%elem_of_nil].
  cbn [flat_map]. rewrite app_nil_r. cbn [fst snd]. intros Hin. pose proof (star_digits s caps m Hin) as Hd.
  destruct (matches_suffix (XStar true is_digit) s caps m Hin) as [q E]. rewrite E in Hd |- *. rewrite before_app in Hd.
  change (c :: q ++ m.1) with ((c :: q) ++ m.1). rewrite before_app. by constructor.
Qed.

Lemma digits_nonneg s : digits s -> 0 <= digits_value s.
Proof.
  unfold digits_value. intros Hd. assert (H : forall n, 0 <= n -> 0 <= fold_left (fun n c => n * 10 + (c - 48)) s n); [| by apply H].
  induction Hd as [| c s Hc _ IH]; intros n Hn; [done |]. cbn. apply IH. unfold is_digit in Hc. bool_hyps. lia.
Qed.

Lemma to_double_nonneg n : 0 <= n -> 0 <= to_double n.
Proof.
  intros Hn. unfold to_double. case_if; [done |]. cbv zeta. case_if; [done |]. apply Z.shiftl_nonneg.
  pose proof (proj2 (Z.shiftr_nonneg n (Z.log2 n - 52)) Hn). case_if; lia.
Qed.

Lemma parseInt_nonneg s : digits s -> 0 <= parseInt s.
Proof. intros Hd. by apply to_double_nonneg, digits_nonneg. Qed.

(** ** Parsed sequences *)

Definition digit_groups (l : list nat) (n : nat) (s : jsstr) : Prop := n ∈ l -> digits s.

Lemma csi_u_groups data m n t : match_start KITTY_CSI_U_REGEX data = Some m -> group n m = Some t -> digits t.
Proof.
  apply (match_start_group (fun _ => digits)). cbn [captures_ok KITTY_CSI_U_REGEX optional digits_group].
  repeat split; try done; intros s caps m'; first [apply plus_digits | apply star_digits].
Qed.

Lemma truthy_some s t : truthy s = Some t -> s = Some t.
Proof. destruct s as [[| c u] |]; cbn; congruence. Qed.

(** Code points are negative only for the keys without a character. *)
Lemma parsed_bounds data k : parseKittySequence data = Some k ->
  -31 <= kk_codepoint k /\ (forall b, kk_baseLayoutKey k = Some b -> 0 <= b).
Proof.
  assert (Hf : forall s, -31 <= field_js s arrow_codes /\ -31 <= field_js s f_codes).
  { intros s. unfold field_js. split; (destruct (List.find _ _) as [e |] eqn:E; [| lia]); apply List.find_some in E as [Hin _];
      cbn in Hin; repeat (destruct Hin as [<- | Hin]; [cbv; congruence |]); done. }
  unfold parseKittySequence, or_else. intros Hk.
  destruct (parse_csi_u data) as [k1 |] eqn:E1; [injection Hk as <- | clear E1].
  { unfold parse_csi_u in E1. destruct (match_start _ data) as [m |] eqn:Em; cbn in E1; [| done]. injection E1 as <-. cbn [kk_codepoint kk_baseLayoutKey].
    split.
    - unfold group_text. destruct (group 1 m) as [t |] eqn:Eg; cbn [from_option id]; [| cbv; congruence].
      pose proof (parseInt_nonneg t (csi_u_groups _ _ _ _ Em Eg)). cbn; lia.
    - intros b Hb. apply fmap_Some in Hb as (t & Ht%truthy_some & ->). exact (parseInt_nonneg t (csi_u_groups _ _ _ _ Em Ht)). }
  destruct (parse_arrow data) as [k1 |] eqn:E1; [injection Hk as <- | clear E1].
  { unfold parse_arrow in E1. destruct (match_start _ data) as [m |]; cbn in E1; [| done]. injection E1 as <-. split; [apply Hf | done]. }
  destruct (parse_functional data) as [k1 |] eqn:E1; [injection Hk as <- | clear E1].
  { unfold parse_functional in E1. destruct (match_start _ data) as [m |]; cbn [mbind option_bind] in E1; [| done].
    destruct (List.find _ _) as [e |] eqn:Ef; cbn [mbind option_bind] in E1; [| done]. injection E1 as <-. split; [| done].
    apply List.find_some in Ef as [Hin _]. cbn in Hin. repeat (destruct Hin as [<- | Hin]; [cbv; congruence |]); done. }
  destruct (parse_f_key data) as [k1 |] eqn:E1; [injection Hk as <- | clear E1].
  { unfold parse_f_key in E1. destruct (match_start _ data) as [m |]; cbn in E1; [| done]. injection E1 as <-. split; [apply Hf | done]. }
  unfold parse_home_end in Hk. destruct (match_start _ data) as [m |]; cbn in Hk; [| done]. injection Hk as <-. cbn.
  split; [| done]. case_if; cbv; congruence.
Qed.

Lemma identity_bounds cp m : -31 <= cp < 65536 -> -31 <= identity cp m < 65536.
Proof.
  intros Hcp. assert (Hn : -31 <= normalizeKittyFunctionalCodepoint cp < 65536).
  { unfold normalizeKittyFunctionalCodepoint. destruct (List.find _ _) as [e |] eqn:E; [| done]. apply List.find_some in E as [Hin _].
    assert (Ht : forallb (fun e => (-31 <=? e.2) && (e.2 <? 65536)) KITTY_FUNCTIONAL_KEY_EQUIVALENTS = true) by reflexivity.
    rewrite List.forallb_forall in Ht. specialize (Ht _ Hin). bool_hyps. done. }
  unfold identity, normalizeShiftedLetterIdentityCodepoint. case_if; [bool_hyps; lia | done].
Qed.

(** The code point a parsed sequence is named after. *)
Definition named_code_point (k : ParsedKittySequence) : Z :=
  let i := identity (kk_codepoint k) (kk_modifier k) in
  if latin_letter i || is_digit i || is_symbol (fromCharCode i) then i else default i (kk_baseLayoutKey k).

Lemma named_bounds data k : parseKittySequence data = Some k -> kk_codepoint k < 65536 -> (forall b, kk_baseLayoutKey k = Some b -> b < 65536) ->
  -65410 < named_code_point k < 65536.
Proof.
  intros Hk Hcp Hb. pose proof (parsed_bounds data k Hk) as [Hlo Hblo].
  pose proof (identity_bounds (kk_codepoint k) (kk_modifier k) ltac:(lia)). unfold named_code_point. cbv zeta. case_if; [lia |].
  destruct (kk_baseLayoutKey k) as [b |]; cbn [from_option id]; [| lia]. specialize (Hb b eq_refl). specialize (Hblo b eq_refl). lia.
Qed.

(** A sequence matches the code point it is named after. *)
Lemma named_code_point_matches data k : parseKittySequence data = Some k ->
  matchesKittySequence data (named_code_point k) (unlocked (kk_modifier k)) = true.
Proof.
  intros Hk. unfold matchesKittySequence. rewrite Hk, unlocked_idem, Z.eqb_refl. cbn [negb]. unfold named_code_point. cbv zeta.
  set (i := identity (kk_codepoint k) (kk_modifier k)).
  assert (Hi : identity i (unlocked (kk_modifier k)) = i) by (apply identity_idem; by rewrite unlocked_idem).
  destruct (latin_letter i || is_digit i || is_symbol (fromCharCode i)) eqn:Ek.
  { by rewrite Hi, Z.eqb_refl. }
  bool_hyps. destruct (kk_baseLayoutKey k) as [b |]; cbn [from_option id].
  - case_if; [done |]. rewrite Z.eqb_refl. by repeat match goal with H : _ = false |- _ => rewrite H end.
  - by rewrite Hi, Z.eqb_refl.
Qed.

Lemma format_ends name m id : formatKeyNameWithModifiers name m = Some id -> ends_with name id = true.
Proof.
  unfold formatKeyNameWithModifiers. case_if; [done |]. intros [= <-].
  match goal with |- context [is_empty ?l] => generalize l; intros mods end. unfold ends_with. apply starts_with_prefix.
  destruct (is_empty mods); [done |]. rewrite reverse_app, reverse_cons, <- app_assoc. by eexists.
Qed.

Lemma lower_single c : is_letter_key [c] || isDigitKey [c] || is_symbol [c] = true -> map to_lower [c] = [c].
Proof.
  intros Hc. cbn. f_equal. unfold to_lower. case_if; [exfalso | done]. bool_hyps. rewrite !orb_true_iff in Hc.
  destruct Hc as [[Hc | Hc] | Hc]; [unfold is_letter_key, latin_letter in Hc; bool_hyps; lia | unfold isDigitKey, is_digit in Hc; bool_hyps; lia |].
  apply bool_decide_eq_true, list_elem_of_In in Hc. assert (Hf : forallb (fun c => (c <? 65) || (90 <? c)) SYMBOL_KEYS = true) by reflexivity.
  rewrite List.forallb_forall in Hf. specialize (Hf _ Hc). apply orb_true_iff in Hf as [Hf | Hf]; bool_hyps; lia.
Qed.

(** The name of a key, and the modifier, match. *)
Lemma name_matched `{TerminalOk} data cp m name : -65410 < cp < 65536 -> key_name cp = Some name -> name <> js "+" ->
  (name = js "escape" -> m = 0) -> matchesKittySequence data cp m = true ->
  In name all_names /\ match_key data (map to_lower name) m = true.
Proof.
  intros Hcp Hn Hplus Hesc HK. destruct (key_name_cases cp name Hcp Hn) as [(n & Hin & ->) | [-> Hc]].
  - split; [apply List.in_or_app; left; apply List.in_map_iff; by exists (cp, n) |]. apply (named_matched data cp); [done | | done].
    intros ->. apply Hesc. simpl in Hin. repeat (destruct Hin as [Hin | Hin]; [pose proof (f_equal fst Hin) as E; pose proof (f_equal snd Hin) as E2; cbn in E2; subst n; vm_compute in E; first [discriminate E | done] |]). done.
  - split; [apply single_name; [done |]; intros ->; by apply Hplus |]. rewrite (lower_single cp Hc). by apply single_matched.
Qed.

(** C23: a sequence of the Kitty protocol that [parseKey] names is matched by that name:
    what is shown or stored as the key of an input is a binding that the input triggers,
    for every layout, modifier and lock state.  Two names are left out, and a code point
    above U+FFFF may be named after its lower half: [+] separates modifiers, so that no
    identifier ends in it, and Escape is only matched without modifiers. *)
Theorem kitty_named_matched `{TerminalOk} data k id : parseKittySequence data = Some k -> parseKey data = Some (key_id id) ->
  kk_codepoint k < 65536 -> (forall b, kk_baseLayoutKey k = Some b -> b < 65536) ->
  ends_with (js "+") id = false -> (unlocked (kk_modifier k) = 0 \/ ends_with (js "escape") id = false) ->
  matchesKey data id = true.
Proof.
  intros Hk Hid Hcp Hbase Hplus Hesc. unfold parseKey in Hid. rewrite Hk in Hid. apply fmap_Some in Hid as (id' & Hid & [= <-]).
  change (formatParsedKey (kk_codepoint k) (kk_modifier k) (kk_baseLayoutKey k)) with
    (name ← key_name (named_code_point k); formatKeyNameWithModifiers name (kk_modifier k)) in Hid.
  apply bind_Some in Hid as (name & Hname & Hid). pose proof (format_ends _ _ _ Hid) as Hends.
  destruct (name_matched data (named_code_point k) (unlocked (kk_modifier k)) name) as [Hin Hm]; [by apply named_bounds with data | done | | | |].
  - intros ->. congruence.
  - intros ->. destruct Hesc as [-> | Hesc]; [done | congruence].
  - by apply named_code_point_matches.
  - unfold matchesKey. destruct (format_parsed name _ id Hin Hid) as (p & -> & -> & ->). exact Hm.
Qed.

(** ** Printing and parsing an event *)

(** The first way to match, with what it captures. *)
Definition captures_first (r : rx) (s rest : jsstr) (add : captures) : Prop := forall caps, exists more, matches r s caps = (rest, add ++ caps) :: more.

Lemma capture_seq a b s rest1 rest2 add1 add2 : captures_first a s rest1 add1 -> captures_first b rest1 rest2 add2 ->
  captures_first (a >>> b)%rx s rest2 (add2 ++ add1).
Proof.
  intros Ha Hb caps. destruct (Ha caps) as (m1 & E1). destruct (Hb (add1 ++ caps)) as (m2 & E2). cbn [matches]. rewrite E1. cbn [flat_map fst snd].
  rewrite E2, <- app_assoc. cbn [app]. eauto.
Qed.

Lemma capture_exact (l s : jsstr) : l <> [] -> captures_first (exact l) (l ++ s) s [].
Proof.
  induction l as [|c l IH]; [done |]. intros _. destruct l as [|d l].
  - intros caps. cbn. rewrite Z.eqb_refl. eauto.
  - change (exact (c :: d :: l)) with (XChar (Z.eqb c) >>> exact (d :: l))%rx.
    apply (capture_seq _ _ _ ((d :: l) ++ s) s [] []); [| by apply IH]. intros caps. cbn. rewrite Z.eqb_refl. eauto.
Qed.

Lemma capture_group n r s rest add : captures_first r s rest add -> captures_first (XGroup n r) s rest ((n, before s rest) :: add).
Proof. intros Hr caps. destruct (Hr caps) as (m & E). cbn [matches]. rewrite E. cbn [map]. eauto. Qed.

Lemma capture_some r s rest add : captures_first r s rest add -> (length rest < length s)%nat -> captures_first (XOpt r) s rest add.
Proof.
  intros Hr Hl caps. destruct (Hr caps) as (m1 & E). cbn [matches]. rewrite E. cbn [List.filter fst].
  rewrite (proj2 (Nat.ltb_lt _ _) Hl). cbn [app]. eauto.
Qed.

Lemma capture_none r s : (forall caps, matches r s caps = []) -> captures_first (XOpt r) s s [].
Proof. intros Hr caps. cbn [matches]. rewrite Hr. cbn. eauto. Qed.

Lemma capture_start r s rest add : captures_first r s rest add -> match_start r s = Some add.
Proof. intros Hr. unfold match_start. destruct (Hr []) as (m & ->). cbn. by rewrite app_nil_r. Qed.

(** What follows does not start with a digit. *)
Definition no_digit (s : jsstr) : Prop := match s with c :: _ => is_digit c = false | [] => True end.
Definition no_char (c : Z) (s : jsstr) : Prop := match s with d :: _ => c <> d | [] => True end.

Lemma capture_number n v rest : 0 <= v -> no_digit rest -> captures_first (digits_group n) (show v ++ rest) rest [(n, show v)].
Proof.
  intros Hv Hr. replace (show v) with (before (show v ++ rest) rest) at 2 by apply before_app. apply capture_group.
  destruct (show_nat_digits v Hv) as (ds & -> & Hd & _ & _ & c & t & ->). inversion_clear Hd as [| ? ? Hc Ht].
  apply (capture_seq _ _ _ (t ++ rest) rest [] []).
  - intros caps. cbn. rewrite Hc. eauto.
  - intros caps. cbn [matches]. destruct (suffixes_run is_digit t rest Ht Hr) as [more ->]. cbn [map app]. eauto.
Qed.

(** An optional number after a separator. *)
Definition part (sep : string) (o : option Z) : jsstr := match o with Some v => js sep ++ show v | None => [] end.
Definition part_captures (n : nat) (o : option Z) : captures := match o with Some v => [(n, show v)] | None => [] end.

Lemma no_separator c r rest caps : no_char c rest -> matches (exact [c] >>> r)%rx rest caps = [].
Proof. destruct rest as [| d rest]; [done |]. intros Hc. cbn [exact matches]. by rewrite (proj2 (Z.eqb_neq _ _) Hc). Qed.

Lemma capture_part n sep c o rest : js sep = [c] -> (forall v, o = Some v -> 0 <= v) -> no_digit rest -> no_char c rest ->
  captures_first (optional sep (digits_group n)) (part sep o ++ rest) rest (part_captures n o).
Proof.
  intros Hsep Hv Hd Hc. unfold optional, part. rewrite Hsep. destruct o as [v |]; cbn [part_captures].
  - apply capture_some; [| rewrite !length_app; cbn; lia]. rewrite <- app_assoc.
    apply (capture_seq _ _ _ (show v ++ rest) rest [] [(n, show v)]); [by apply (capture_exact [c]) | apply capture_number; auto].
  - apply capture_none. intros caps. by apply no_separator.
Qed.

(** The text of a key event in the protocol, alternate keys included. *)
Definition event_part (e : KeyEventType) : option Z := match e with press => None | repeat_ => Some 2 | release => Some 3 end.
Definition shifted_part (k : ParsedKittySequence) : jsstr :=
  match kk_shiftedKey k, kk_baseLayoutKey k with Some s, _ => js ":" ++ show s | None, Some _ => js ":" | None, None => [] end.
Definition kitty_text (k : ParsedKittySequence) : jsstr :=
  esc "[" ++ show (kk_codepoint k) ++ shifted_part k ++ part ":" (kk_baseLayoutKey k) ++ part ";" (Some (kk_modifier k + 1))
  ++ part ":" (event_part (kk_eventType k)) ++ js "u".

Definition shifted_captures (k : ParsedKittySequence) : captures :=
  match kk_shiftedKey k, kk_baseLayoutKey k with Some s, _ => [(2%nat, show s)] | None, Some _ => [(2%nat, [])] | None, None => [] end.

Lemma capture_shifted k rest : (forall v, kk_shiftedKey k = Some v -> 0 <= v) -> no_digit rest ->
  (kk_shiftedKey k = None -> kk_baseLayoutKey k = None -> no_char 58 rest) ->
  captures_first (optional ":" (XGroup 2 (XStar true is_digit))) (shifted_part k ++ rest) rest (shifted_captures k).
Proof.
  intros Hv Hd Hc. unfold shifted_part, shifted_captures.
  assert (Hs : forall ds, Forall (fun c => is_digit c = true) ds ->
    captures_first (optional ":" (XGroup 2 (XStar true is_digit))) (js ":" ++ ds ++ rest) rest [(2%nat, ds)]).
  { intros ds Hds. apply capture_some; [| rewrite !length_app; cbn; lia].
    apply (capture_seq _ _ _ (ds ++ rest) rest [] [(2%nat, ds)]); [by apply (capture_exact [58]) |].
    replace ds with (before (ds ++ rest) rest) at 2 by apply before_app. apply capture_group.
    intros caps. cbn [matches]. destruct (suffixes_run is_digit ds rest Hds Hd) as [more ->]. cbn [map app]. eauto. }
  destruct (kk_shiftedKey k) as [v |].
  - rewrite <- app_assoc. apply Hs. by destruct (show_nat_digits v (Hv v eq_refl)) as (ds & -> & Hds & _).
  - destruct (kk_baseLayoutKey k); [by apply (Hs []) |]. apply capture_none. intros caps. apply no_separator. auto.
Qed.

Definition exact_range (n : Z) : Prop := 0 <= n < 2 ^ 53.

Lemma parse_show n : exact_range n -> parseInt (show n) = n.
Proof.
  intros [Hn Hx]. destruct (show_nat_digits n Hn) as (ds & -> & _ & Hv & _). unfold parseInt, to_double. rewrite Hv.
  by rewrite (proj2 (Z.ltb_lt _ _) Hx).
Qed.

Lemma truthy_show n : 0 <= n -> truthy (Some (show n)) = Some (show n).
Proof. intros Hn. by destruct (show_nat_digits n Hn) as (ds & -> & _ & _ & _ & c & t & ->). Qed.

Lemma kitty_text_captures k : 0 <= kk_codepoint k -> 0 <= kk_modifier k -> (forall s, kk_shiftedKey k = Some s -> 0 <= s) -> (forall b, kk_baseLayoutKey k = Some b -> 0 <= b) ->
  captures_first KITTY_CSI_U_REGEX (kitty_text k) []
    (part_captures 5 (event_part (kk_eventType k)) ++ part_captures 4 (Some (kk_modifier k + 1)) ++ part_captures 3 (kk_baseLayoutKey k)
     ++ shifted_captures k ++ [(1%nat, show (kk_codepoint k))]).
Proof.
  intros Hcp Hm Hs Hb. unfold KITTY_CSI_U_REGEX, kitty_text.
  assert (He : forall e v, event_part e = Some v -> 0 <= v) by (intros [] v [=]; lia).
  assert (Hu : captures_first (exact (js "u") >>> XEnd)%rx (js "u") [] []).
  { apply (capture_seq _ _ _ [] [] [] []); [exact (capture_exact (js "u") [] ltac:(done)) |]. intros caps. cbn. eauto. }
  set (r5 := part ":" (event_part (kk_eventType k)) ++ js "u"). set (r4 := part ";" (Some (kk_modifier k + 1)) ++ r5).
  set (r3 := part ":" (kk_baseLayoutKey k) ++ r4). set (r2 := shifted_part k ++ r3).
  assert (D5 : no_digit r5 /\ no_char 59 r5) by (unfold r5; destruct (kk_eventType k); done).
  assert (D3 : no_digit r3) by (unfold r3; by destruct (kk_baseLayoutKey k)).
  assert (D3' : kk_baseLayoutKey k = None -> no_char 58 r3) by (unfold r3; by intros ->).
  assert (D2 : no_digit r2) by (unfold r2, shifted_part, r3; by destruct (kk_shiftedKey k), (kk_baseLayoutKey k)).
  pose proof (capture_seq _ _ _ _ _ _ _ (capture_part 5 ":" 58 (event_part (kk_eventType k)) (js "u") eq_refl (He _) eq_refl ltac:(done)) Hu) as H5.
  pose proof (capture_seq _ _ _ _ _ _ _ (capture_part 4 ";" 59 (Some (kk_modifier k + 1)) r5 eq_refl ltac:(intros v [= <-]; lia) (proj1 D5) (proj2 D5)) H5) as H4.
  pose proof (capture_seq _ _ _ _ _ _ _ (capture_part 3 ":" 58 (kk_baseLayoutKey k) r4 eq_refl Hb eq_refl ltac:(done)) H4) as H3.
  pose proof (capture_seq _ _ _ _ _ _ _ (capture_shifted k r3 Hs D3 (fun _ => D3')) H3) as H2.
  pose proof (capture_seq _ _ _ _ _ _ _ (capture_number 1 (kk_codepoint k) r2 Hcp D2) H2) as H1.
  pose proof (capture_seq _ _ _ _ _ _ _ (capture_exact (esc "[") _ ltac:(done)) H1) as H0.
  by rewrite app_nil_r, app_nil_l, <- !app_assoc in H0.
Qed.

(** The parts of a key event are numbers that doubles hold. *)
Definition kitty_event_ok (k : ParsedKittySequence) : Prop :=
  exact_range (kk_codepoint k) /\ exact_range (kk_modifier k) /\ exact_range (kk_modifier k + 1)
  /\ (forall s, kk_shiftedKey k = Some s -> exact_range s) /\ (forall b, kk_baseLayoutKey k = Some b -> exact_range b).

(** Every key event survives the terminal: the text of a key with its shifted form,
    its place on the standard layout, its modifiers and its kind parses to that key, for
    each combination of the optional parts. *)
Theorem kitty_roundtrip k : kitty_event_ok k -> parseKittySequence (kitty_text k) = Some k.
Proof.
  intros (Hcp & Hm & Hm1 & Hs & Hb). unfold parseKittySequence, parse_csi_u.
  rewrite (capture_start _ _ _ _ (kitty_text_captures k ltac:(apply Hcp) ltac:(apply Hm) ltac:(intros v Hv; by apply Hs) ltac:(intros v Hv; by apply Hb))).
  destruct k as [cp s b m e]. unfold shifted_captures. cbn [kk_codepoint kk_shiftedKey kk_baseLayoutKey kk_modifier kk_eventType] in *.
  assert (Ep : pred_double (m + 1) = m).
  { unfold pred_double. replace (m + 1 - 1) with m by lia. unfold to_double. by rewrite (proj2 (Z.ltb_lt _ _) (proj2 Hm)). }
  assert (Ee : parseEventType (snd <$> List.find (fun c => Nat.eqb c.1 5) (part_captures 5 (event_part e))) = e) by (by destruct e).
  cbn [mbind option_bind or_else part_captures]. unfold group_text, group, mod_value.
  destruct e, s as [s |], b as [b |]; cbn [part_captures app event_part List.find fst snd Nat.eqb fmap option_fmap option_map from_option id] in Ee |- *;
    rewrite ?truthy_show by (first [apply Hm1 | apply (Hs s eq_refl) | apply (Hb b eq_refl)]); cbn [truthy fmap option_fmap option_map];
    rewrite ?(parse_show (m + 1) Hm1), ?(parse_show cp Hcp), ?(parse_show s (Hs s eq_refl)), ?(parse_show b (Hb b eq_refl)), Ep, Ee; reflexivity.
Qed.

(** ** Characters *)

(** A modifier of nothing but Shift and the locks. *)
Definition plain_or_shift (modifier : Z) : Prop := unlocked modifier = 0 \/ unlocked modifier = m_shift.

Lemma land_small e : Z.land e (Z.lnot 1) = 0 -> e = 0 \/ e = 1.
Proof.
  change (Z.lnot 1) with (Z.lnot (Z.ones 1)). rewrite <- Z.ldiff_land, Z.ldiff_ones_r, Z.shiftl_mul_pow2, Z.shiftr_div_pow2 by lia.
  change (2 ^ 1) with 2. intros E. pose proof (Z.div_mod e 2). pose proof (Z.mod_pos_bound e 2). lia.
Qed.

Lemma allowed_modifier m : bit_and m (Z.lnot KITTY_PRINTABLE_ALLOWED_MODIFIERS) = 0 -> plain_or_shift m.
Proof.
  intros E. apply land_small. unfold unlocked, bit_and in *. rewrite <- Z.land_assoc.
  by replace (Z.land (to_int32 (Z.lnot LOCK_MASK)) (Z.lnot 1)) with (to_int32 (Z.lnot KITTY_PRINTABLE_ALLOWED_MODIFIERS)) by reflexivity.
Qed.

Lemma to_double_bound n : to_double n <= Infinity.
Proof.
  unfold to_double. case_if; [bool_hyps; unfold Infinity; lia |]. cbv zeta. destruct (Infinity <=? _) eqn:E; bool_hyps; [done | lia].
Qed.

Lemma mod_value_bound s : mod_value s <= Infinity.
Proof. unfold mod_value. destruct (truthy s); [apply to_double_bound | unfold Infinity; lia]. Qed.

Lemma infinite_unlocked : unlocked (pred_double Infinity) = 0.
Proof. vm_compute. reflexivity. Qed.

(** What is inserted for a key sequence is one character, not below a space, and
    only of a key without Ctrl, Alt or Super: a shortcut that no binding takes is never
    typed into the text. *)
Theorem decode_printable data s : decodePrintableKey data = Some s ->
  (exists cp, 32 <= cp <= 1114111 /\ from_code_point cp = Some s)
  /\ ((exists k, parseKittySequence data = Some k /\ plain_or_shift (kk_modifier k))
      \/ (exists o, parseModifyOtherKeysSequence data = Some o /\ plain_or_shift (mo_modifier o))).
Proof.
  assert (Hc : forall cp, negb (isFinite cp) || (cp <? 32) = false -> from_code_point cp = Some s -> exists cp, 32 <= cp <= 1114111 /\ from_code_point cp = Some s).
  { intros cp Hr Hs. exists cp. split; [| done]. bool_hyps. split; [done |]. unfold from_code_point in Hs.
    destruct (1114111 <? cp) eqn:E; [done | bool_hyps; lia]. }
  unfold decodePrintableKey, or_else. destruct (decodeKittyPrintable data) as [t |] eqn:Ek.
  - intros [= ->]. unfold decodeKittyPrintable in Ek. destruct (match_start KITTY_CSI_U_REGEX data) as [m |] eqn:Em; cbn [mbind option_bind] in Ek; [| done].
    cbv zeta in Ek. destruct (negb (isFinite (parseInt (group_text 1 m)))); [done |].
    set (modifier := if isFinite (mod_value (group 4 m)) then _ else 0) in Ek.
    destruct (negb (bit_and modifier (Z.lnot KITTY_PRINTABLE_ALLOWED_MODIFIERS) =? 0)) eqn:Ea; [done |].
    destruct (negb (bit_and modifier (Z.lor m_alt m_ctrl) =? 0)); [done |].
    match type of Ek with (if ?b then _ else _) = _ => destruct b eqn:Er; [done |] end. split; [by eapply Hc |].
    left. eexists. split; [unfold parseKittySequence, parse_csi_u; by rewrite Em |]. cbn [kk_modifier]. bool_hyps.
    apply allowed_modifier in Ea. unfold modifier in Ea. destruct (isFinite _) eqn:Ef; [done |]. unfold isFinite in Ef. bool_hyps.
    pose proof (mod_value_bound (group 4 m)). left. replace (mod_value (group 4 m)) with Infinity by lia. apply infinite_unlocked.
  - unfold decodeModifyOtherKeysPrintable. destruct (parseModifyOtherKeysSequence data) as [o |]; cbn [mbind option_bind]; [| done].
    cbv zeta. destruct (negb (bit_and (unlocked (mo_modifier o)) (Z.lnot m_shift) =? 0)) eqn:Ea; [done |].
    match goal with |- (if ?b then _ else _) = _ -> _ => destruct b eqn:Er; [done |] end. intros Hs. split; [by eapply Hc |].
    right. exists o. split; [done |]. bool_hyps. unfold bit_and in Ea. rewrite to_int32_small in Ea by apply bit_and_range.
    by apply land_small.
Qed.

(** ** Only the key itself *)

(** The code points a key is matched with. *)
Definition named_codes : list (string * list Z) :=
  [("escape"%string, [cp_escape]); ("esc"%string, [cp_escape]); ("space"%string, [cp_space]); ("tab"%string, [cp_tab]);
   ("enter"%string, [cp_enter; cp_kpEnter]); ("return"%string, [cp_enter; cp_kpEnter]); ("backspace"%string, [cp_backspace]);
   ("insert"%string, [functional "insert"]); ("delete"%string, [functional "delete"]); ("clear"%string, []);
   ("home"%string, [functional "home"]); ("end"%string, [functional "end"]);
   ("pageup"%string, [functional "pageUp"]); ("pagedown"%string, [functional "pageDown"]);
   ("up"%string, [arrow "up"]); ("down"%string, [arrow "down"]); ("left"%string, [arrow "left"]); ("right"%string, [arrow "right"])]
  ++ map (fun f => (f, [functional f])) ["f1"; "f2"; "f3"; "f4"; "f5"; "f6"; "f7"; "f8"; "f9"; "f10"; "f11"; "f12"]%string.

Definition key_codes (key : jsstr) : list Z :=
  match List.find (fun c => bool_decide (key = js c.1)) named_codes with
  | Some c => c.2
  | None => match key with [c] => [c] | _ => [] end
  end.

Section OnlyKey.
Context `{Terminal} (data : jsstr) (Hlast : last data = Some 117) (Hlong : (3 <= length data)%nat)
  (Hother : parseModifyOtherKeysSequence data = None).

Definition coded (codes : list Z) (m : Z) : Prop := exists cp, cp ∈ codes /\ matchesKittySequence data cp m = true.

Lemma coded_one cp m : matchesKittySequence data cp m = true -> coded [cp] m.
Proof. intros HK. exists cp. split; [by left | done]. Qed.

(** Data that ends in [u] is none of the older sequences. *)
Lemma not_data s : bool_decide (last s = Some 117) = false -> bool_decide (data = s) = false.
Proof. intros Hs%bool_decide_eq_false. apply bool_decide_eq_false. by intros <-. Qed.

Lemma not_suffix a b : b <> [] -> bool_decide (last b = Some 117) = false -> bool_decide (data = a ++ b) = false.
Proof. intros Hb Hs. apply not_data. rewrite last_app. by destruct (last b) eqn:E; [| apply last_None in E]. Qed.

Lemma not_legacy l : forallb (fun s => negb (bool_decide (last (esc s) = Some 117))) l = true -> matchesLegacySequence data l = false.
Proof.
  intros Hl. unfold matchesLegacySequence. induction l as [|s l IH]; [done |]. cbn in Hl |- *.
  apply andb_true_iff in Hl as [Hs Hl]. apply negb_true_iff in Hs. rewrite (not_data _ Hs). by apply IH.
Qed.

Lemma not_short s : (length s <= 2)%nat -> bool_decide (data = s) = false.
Proof. intros Hs. apply bool_decide_eq_false. intros <-. lia. Qed.

Lemma no_other cp m : matchesModifyOtherKeys data cp m = false /\ matchesPrintableModifyOtherKeys data cp m = false.
Proof. unfold matchesModifyOtherKeys, matchesPrintableModifyOtherKeys. rewrite Hother. split; [done | by case_if]. Qed.

Ltac refuse :=
  repeat match goal with
  | |- context [bool_decide (data = ?a ++ ?b)] => first [rewrite (not_suffix a b) by first [done | reflexivity] | rewrite (not_data (a ++ b)) by reflexivity]
  | |- context [bool_decide (data = ?s)] => first [rewrite (not_data s) by reflexivity | rewrite (not_short s) by (cbn; lia)]
  | |- context [matchesLegacySequence data ?l] => rewrite (not_legacy l) by first [done | reflexivity]
  | |- context [matchesModifyOtherKeys data ?c ?m] => rewrite (proj1 (no_other c m))
  | |- context [matchesPrintableModifyOtherKeys data ?c ?m] => rewrite (proj2 (no_other c m))
  end.

(** What is left is one of the codes. *)
Ltac left_code := intros HK; rewrite ?orb_false_r, ?orb_false_l, ?andb_false_r in HK; bool_hyps; subst; first [done | by apply coded_one].

Definition not_u (l : list string) : bool := forallb (fun s => negb (bool_decide (last (esc s) = Some 117))) l.

Lemma no_modifier_sequence name m : not_u (field [] name LEGACY_SHIFT_SEQUENCES) = true -> not_u (field [] name LEGACY_CTRL_SEQUENCES) = true ->
  matchesLegacyModifierSequence data name m = false.
Proof. intros H1 H2. unfold matchesLegacyModifierSequence. repeat case_if; [by apply not_legacy .. | done]. Qed.

Lemma escape_only m : matches_escape data m = true -> coded [cp_escape] m.
Proof. unfold matches_escape. refuse. case_if; [done |]. left_code. Qed.

Lemma space_only m : matches_space data m = true -> coded [cp_space] m.
Proof. unfold matches_space. refuse. repeat case_if; left_code. Qed.

Lemma tab_only m : matches_tab data m = true -> coded [cp_tab] m.
Proof. unfold matches_tab. refuse. repeat case_if; left_code. Qed.

Lemma kitty_enter_only m : kitty_enter data m = true -> coded [cp_enter; cp_kpEnter] m.
Proof. unfold kitty_enter. intros [HK | HK]%orb_true_iff; [exists cp_enter | exists cp_kpEnter]; (split; [set_solver | done]). Qed.

Lemma enter_only m : matches_enter data m = true -> coded [cp_enter; cp_kpEnter] m.
Proof.
  unfold matches_enter. refuse. repeat case_if; intros HK; rewrite ?orb_false_r, ?orb_false_l, ?andb_false_r in HK; bool_hyps; subst; try done; by apply kitty_enter_only.
Qed.

Lemma backspace_only m : matches_backspace data m = true -> coded [cp_backspace] m.
Proof. unfold matches_backspace, matchesRawBackspace. refuse. cbn [negb]. repeat case_if; left_code. Qed.

Lemma functional_only name m : not_u (field [] name LEGACY_KEY_SEQUENCES) && not_u (field [] name LEGACY_SHIFT_SEQUENCES) && not_u (field [] name LEGACY_CTRL_SEQUENCES) = true ->
  matches_functional name data m = true -> coded [functional name] m.
Proof.
  rewrite !andb_true_iff. intros [[H1 H2] H3]. unfold matches_functional. rewrite (no_modifier_sequence name m H2 H3), (not_legacy _ H1).
  repeat case_if; left_code.
Qed.

Lemma clear_only m : matches_clear data m = true -> coded [] m.
Proof. unfold matches_clear. refuse. rewrite no_modifier_sequence by reflexivity. by case_if. Qed.

Lemma vertical_only name alt m : not_u (field [] name LEGACY_KEY_SEQUENCES) && not_u (field [] name LEGACY_SHIFT_SEQUENCES) && not_u (field [] name LEGACY_CTRL_SEQUENCES) = true ->
  (length (esc alt) <= 2)%nat -> matches_vertical name alt data m = true -> coded [arrow name] m.
Proof.
  rewrite !andb_true_iff. intros [[H1 H2] H3] Ha. unfold matches_vertical. rewrite (no_modifier_sequence name m H2 H3), (not_legacy _ H1), (not_short _ Ha).
  repeat case_if; left_code.
Qed.

Lemma horizontal_only name f u l m : not_u (field [] name LEGACY_KEY_SEQUENCES) && not_u (field [] name LEGACY_SHIFT_SEQUENCES) && not_u (field [] name LEGACY_CTRL_SEQUENCES) = true ->
  (length (esc u) <= 2)%nat -> (length (esc l) <= 2)%nat -> js f <> [] -> bool_decide (last (js f) = Some 117) = false ->
  matches_horizontal name f u l data m = true -> coded [arrow name] m.
Proof.
  rewrite !andb_true_iff. intros [[H1 H2] H3] Hu Hl Hf Hn. unfold matches_horizontal.
  rewrite !(no_modifier_sequence name _ H2 H3), (not_legacy _ H1), (not_short _ Hu), (not_short _ Hl), !not_suffix by done.
  repeat case_if; left_code.
Qed.

Lemma function_key_only name m : In name ["f1"; "f2"; "f3"; "f4"; "f5"; "f6"; "f7"; "f8"; "f9"; "f10"; "f11"; "f12"]%string ->
  matches_function_key name data m = true -> coded [functional name] m.
Proof.
  intros Hin. unfold matches_function_key. cbv zeta. set (code := js (field _ _ _)). 
  match goal with |- context [js (if ?b then ?x else ?y)] => set (num := js (if b then x else y)) end.
  assert (Hc : last code <> None /\ last code <> Some 117 /\ not_u (field [] name LEGACY_KEY_SEQUENCES) = true).
  { subst code. cbn in Hin. repeat (destruct Hin as [<- | Hin]; [vm_compute; split_and!; [discriminate | discriminate | reflexivity] |]). done. }
  destruct Hc as (Hc1 & Hc2 & Hl). rewrite (not_legacy _ Hl). refuse. clearbody code num.
  destruct (last code) as [c |] eqn:El; [| done].
  assert (Hx : forall a, bool_decide (data = a ++ code) = false).
  { intros a. apply not_data. rewrite last_app, El. by apply bool_decide_eq_false. }
  assert (Ht : forall a s, last s <> None -> last s <> Some 117 -> bool_decide (data = a ++ s) = false).
  { intros a s Hs1 Hs2. apply not_data. rewrite last_app. destruct (last s); [by apply bool_decide_eq_false | done]. }
  repeat match goal with |- context [bool_decide (data = ?a ++ ?b)] => rewrite (Ht a b) by (rewrite !last_app, ?El; done) end.
  repeat case_if; left_code.
Qed.

Lemma character_only c m : matches_character [c] data m = true -> coded [c] m.
Proof.
  unfold matches_character. cbv zeta.
  assert (Hr : forall (f : jsstr -> jsstr), (forall s, (length (f s) <= S (length s))%nat) ->
    match rawCtrlChar [c] with Some s => bool_decide (data = f s) | None => false end = false).
  { intros f Hf. destruct (rawCtrlChar [c]) as [s |] eqn:E; [| done]. apply not_short. specialize (Hf s).
    unfold rawCtrlChar in E. cbn [map] in E. case_if_in E; [injection E as <-; cbn in *; lia |].
    case_if_in E; [injection E as <-; cbn in *; lia | done]. }
  rewrite (Hr (cons 27)) by done. pose proof (Hr (fun s => s) ltac:(lia)) as Hr'. cbn beta in Hr'. rewrite Hr'. refuse. repeat case_if; left_code.
Qed.

Lemma find_none_names {A B} (p : string -> bool) (l : list (string * A)) (k : list (string * B)) : map fst l = map fst k ->
  List.find (fun c => p c.1) l = None -> List.find (fun c => p c.1) k = None.
Proof.
  revert k. induction l as [|x l IH]; intros [|y k] E; try done. cbn in E |- *. injection E as E1 E. rewrite <- E1. case_if; [done | by apply IH].
Qed.

(** What matches a sequence of this form matches it by its code point. *)
Lemma key_only key m : match_key data key m = true -> coded (key_codes key) m.
Proof.
  unfold match_key. destruct (List.find _ key_cases) as [[name f] |] eqn:E.
  - apply List.find_some in E as [Hin Hk]. apply bool_decide_eq_true in Hk as ->. cbn [fst snd]. unfold key_cases in Hin. apply List.in_app_or in Hin as [Hin | Hin].
    + cbn [In] in Hin. repeat (destruct Hin as [[= <- <-] | Hin]; [intros HK; first
        [ exact (escape_only m HK) | exact (space_only m HK) | exact (tab_only m HK) | exact (enter_only m HK) | exact (backspace_only m HK) | exact (clear_only m HK)
        | refine (functional_only _ m _ HK); reflexivity | refine (vertical_only _ _ m _ _ HK); [reflexivity | cbn; lia]
        | refine (horizontal_only _ _ _ _ m _ _ _ _ _ HK); [reflexivity | cbn; lia | cbn; lia | done | reflexivity] ] |]); done.
    + apply List.in_map_iff in Hin as (fk & [= <- <-] & Hin). intros HK. apply (function_key_only _ _ Hin) in HK. cbn in Hin.
      repeat (destruct Hin as [<- | Hin]; [exact HK |]). done.
  - pose proof (find_none_names (fun n => bool_decide (key = js n)) key_cases named_codes eq_refl) as En. apply En in E. unfold key_codes. rewrite E.
    case_if; [| done]. destruct key as [|c [|d key]]; [done | apply character_only | done].
Qed.

End OnlyKey.

(** ** Texts of key events *)

(** An expression that only matches what ends in a character. *)
Definition ends_in (c : Z) (r : rx) : Prop := forall s caps m, m ∈ matches r s caps -> last s = Some c.

Lemma ends_in_seq c a b : ends_in c b -> ends_in c (a >>> b)%rx.
Proof.
  intros Hb s caps m Hin. cbn [matches] in Hin. apply list_elem_of_In, in_flat_map in Hin as (m' & H1 & H2).
  apply list_elem_of_In in H1, H2. destruct (matches_suffix a s caps m' H1) as [p ->]. apply Hb in H2. by rewrite last_app, H2.
Qed.

Lemma ends_in_last c : ends_in c (exact [c] >>> XEnd)%rx.
Proof.
  intros s caps m. cbn [matches exact]. destruct s as [|d s]; [by intros ?%elem_of_nil |]. destruct (c =? d) eqn:E; [| by intros ?%elem_of_nil].
  apply Z.eqb_eq in E as ->. cbn [flat_map fst snd app]. destruct s; [done | by intros ?%elem_of_nil].
Qed.

Lemma ends_in_start c r s m : ends_in c r -> match_start r s = Some m -> last s = Some c.
Proof. intros Hr. unfold match_start. destruct (matches r s []) as [|m' l] eqn:E; [done |]. intros _. apply (Hr s [] m'). rewrite E. by left. Qed.

Lemma modify_other_last data o : parseModifyOtherKeysSequence data = Some o -> last data = Some 126.
Proof.
  unfold parseModifyOtherKeysSequence. destruct (match_start _ data) as [m |] eqn:E; [| done]. intros _. revert E. apply ends_in_start.
  unfold modify_other_regex. do 4 apply ends_in_seq. apply (ends_in_last 126).
Qed.

(** The characters of what an expression matches. *)
Fixpoint chars_ok (P : Z -> Prop) (r : rx) : Prop :=
  match r with
  | XChar p | XStar _ p => forall c, p c = true -> P c
  | XLit _ => False
  | XOpt r | XGroup _ r => chars_ok P r
  | XSeq a b | XAlt a b => chars_ok P a /\ chars_ok P b
  | XBoundary | XEnd => True
  end.

Lemma suffix_chars (P : Z -> Prop) (p : Z -> bool) s s' : (forall c, p c = true -> P c) -> s' ∈ class_suffixes p s -> exists q, s = q ++ s' /\ Forall P q.
Proof.
  intros Hp. induction s as [|c s IH]; cbn [class_suffixes]; [intros ->%list_elem_of_singleton; by exists [] |].
  intros [-> | Hin]%elem_of_cons; [by exists [] |]. destruct (p c) eqn:Hc; [| by apply elem_of_nil in Hin].
  destruct (IH Hin) as (q & -> & Hq). exists (c :: q). split; [done | constructor; auto].
Qed.

Lemma matches_chars P r : chars_ok P r -> forall s caps m, m ∈ matches r s caps -> exists q, s = q ++ m.1 /\ Forall P q.
Proof.
  induction r as [p|l|g p|r IH|a IHa b IHb|a IHa b IHb|n r IH| |]; intros Hok s caps m; cbn [matches chars_ok] in *.
  - destruct s as [|c s]; [by intros ?%elem_of_nil|]. destruct (p c) eqn:Hc; [|by intros ?%elem_of_nil]. intros ->%list_elem_of_singleton.
    exists [c]. split; [done | repeat constructor; auto].
  - done.
  - intros (s' & -> & Hin)%list_elem_of_fmap. apply (suffix_chars P p s s' Hok). destruct g; [by rewrite elem_of_reverse in Hin | done].
  - rewrite elem_of_app, list_elem_of_singleton. intros [Hm| ->]; [|by exists []].
    apply list_elem_of_In, filter_In in Hm as [Hm _]. eapply IH; [done | by apply list_elem_of_In].
  - destruct Hok as [Ha Hb]. intros Hm. apply list_elem_of_In, in_flat_map in Hm as (m' & H1 & H2). apply list_elem_of_In in H1, H2.
    destruct (IHa Ha _ _ _ H1) as (q & -> & Hq). destruct (IHb Hb _ _ _ H2) as (t & -> & Ht). exists (q ++ t).
    rewrite <- app_assoc. split; [done | by apply Forall_app].
  - destruct Hok as [Ha Hb]. rewrite elem_of_app. intros [Hm|Hm]; [by eapply IHa | by eapply IHb].
  - intros (m' & -> & Hin)%list_elem_of_fmap. cbn [fst]. by eapply IH.
  - destruct s as [|c s]; [by intros ->%list_elem_of_singleton; exists []|]. destruct (is_word c); [by intros ?%elem_of_nil|].
    intros ->%list_elem_of_singleton. by exists [].
  - destruct s; [by intros ->%list_elem_of_singleton; exists []|by intros ?%elem_of_nil].
Qed.

(** An expression that only matches to the end. *)
Definition to_end (r : rx) : Prop := forall s caps m, m ∈ matches r s caps -> m.1 = [].

Lemma to_end_seq a b : to_end b -> to_end (a >>> b)%rx.
Proof.
  intros Hb s caps m Hin. cbn [matches] in Hin. apply list_elem_of_In, in_flat_map in Hin as (m' & _ & H2). apply list_elem_of_In in H2. by apply Hb in H2.
Qed.

Lemma to_end_end : to_end XEnd.
Proof. intros s caps m. cbn [matches]. destruct s; [by intros ->%list_elem_of_singleton | by intros ?%elem_of_nil]. Qed.

Lemma start_chars P r s m : chars_ok P r -> to_end r -> match_start r s = Some m -> Forall P s.
Proof.
  intros Hc He. unfold match_start. destruct (matches r s []) as [|m' l] eqn:E; [done |]. intros _.
  assert (Hin : m' ∈ matches r s []) by (rewrite E; by left). destruct (matches_chars P r Hc _ _ _ Hin) as (q & Hq & HP).
  rewrite (He _ _ _ Hin), app_nil_r in Hq. by subst.
Qed.

(** A text of the form of a key event. *)
Definition csi_u_char (c : Z) : Prop := c = 27 \/ c = 91 \/ 48 <= c <= 59 \/ c = 117.

Lemma csi_u_shape data k : parse_csi_u data = Some k -> Forall csi_u_char data /\ last data = Some 117 /\ (3 <= length data)%nat /\ parseKittySequence data = Some k.
Proof.
  intros Hk. unfold parseKittySequence. rewrite Hk. cbn [or_else]. unfold parse_csi_u in Hk.
  destruct (match_start KITTY_CSI_U_REGEX data) as [m |] eqn:E; [| done]. clear Hk.
  assert (Hc : Forall csi_u_char data).
  { eapply start_chars; [| | exact E].
    - cbn -[Z.eqb Z.leb]. unfold is_digit, csi_u_char. repeat split; intros c Hc; cbv beta in Hc; bool_hyps; try lia; vm_compute in Hc; lia.
    - unfold KITTY_CSI_U_REGEX. repeat apply to_end_seq. apply to_end_end. }
  split_and!; [done | | | done].
  - revert E. apply ends_in_start. unfold KITTY_CSI_U_REGEX. do 6 apply ends_in_seq. apply (ends_in_last 117).
  - unfold match_start in E. destruct (matches KITTY_CSI_U_REGEX data []) as [|m' l] eqn:El; [done |].
    destruct data as [|a [|b [|c data]]]; [vm_compute in El; discriminate | | | cbn; lia]; exfalso.
    + revert El. unfold KITTY_CSI_U_REGEX. cbn -[Z.eqb]. destruct (27 =? a); cbn -[Z.eqb]; discriminate.
    + revert El. unfold KITTY_CSI_U_REGEX. cbn -[Z.eqb]. destruct (27 =? a); cbn -[Z.eqb]; [| discriminate].
      match goal with |- context [if ?t then _ else _] => destruct t end; vm_compute; discriminate.
Qed.

Lemma kitty_text_shape k : last (kitty_text k) = Some 117 /\ (3 <= length (kitty_text k))%nat /\ parseModifyOtherKeysSequence (kitty_text k) = None.
Proof.
  assert (Hl : last (kitty_text k) = Some 117) by (unfold kitty_text; by rewrite !last_app). split_and!; [done | unfold kitty_text; rewrite !length_app; cbn; lia |].
  destruct (parseModifyOtherKeysSequence _) eqn:E; [| done]. apply modify_other_last in E. congruence.
Qed.

(** Modifiers of identifiers have no lock bits. *)
Lemma modifier_of_unlocked p : unlocked (modifier_of p) = modifier_of p.
Proof. destruct p as [key [] [] [] []]; reflexivity. Qed.

(** A sequence of the protocol matches an identifier by its code, or by its place on the
    standard layout. *)
Lemma event_only `{Terminal} data k id : last data = Some 117 -> (3 <= length data)%nat -> parseKittySequence data = Some k -> matchesKey data id = true ->
  exists p cp, parseKeyId id = Some p /\ modifier_of p = unlocked (kk_modifier k) /\ cp ∈ key_codes (ki_key p)
    /\ (identity cp (modifier_of p) = identity (kk_codepoint k) (kk_modifier k) \/ kk_baseLayoutKey k = Some cp).
Proof.
  intros Hl Hn Hk. unfold matchesKey. destruct (parseKeyId id) as [p |]; [| done]. intros HK.
  assert (Ho : parseModifyOtherKeysSequence data = None).
  { destruct (parseModifyOtherKeysSequence _) eqn:E; [| done]. apply modify_other_last in E. congruence. }
  apply (key_only _ Hl Hn Ho) in HK as (cp & Hin & HK). exists p, cp.
  unfold matchesKittySequence in HK. rewrite Hk, modifier_of_unlocked in HK.
  destruct (unlocked (kk_modifier k) =? modifier_of p) eqn:E; cbn [negb] in HK; [| done]. apply Z.eqb_eq in E.
  split_and!; [done | done | done |]. case_if_in HK; [apply Z.eqb_eq in Heqb; by left | right].
  destruct (kk_baseLayoutKey k) as [base |]; [| done]. apply andb_true_iff in HK as [HK _]. apply andb_true_iff in HK as [HK _].
  apply Z.eqb_eq in HK. by subst.
Qed.

Lemma press_only `{Terminal} k id : kitty_event_ok k -> kk_baseLayoutKey k = None -> matchesKey (kitty_text k) id = true ->
  exists p cp, parseKeyId id = Some p /\ modifier_of p = unlocked (kk_modifier k) /\ cp ∈ key_codes (ki_key p)
    /\ identity cp (modifier_of p) = identity (kk_codepoint k) (kk_modifier k).
Proof.
  intros Hk Hbase HK. destruct (kitty_text_shape k) as (Hl & Hn & _).
  destruct (event_only _ _ _ Hl Hn (kitty_roundtrip k Hk) HK) as (p & cp & Hp & Hm & Hc & [Hi | Hi]); [by exists p, cp | congruence].
Qed.

(** C22: a key event of the Kitty protocol that does not name a place on the standard layout
    triggers nothing but itself: an identifier it matches has exactly its modifiers, locks
    aside, and a key whose code is its code, the keypad and the upper case of a shifted
    letter aside. *)
Theorem press_exact `{Terminal} k id : kitty_event_ok k -> kk_baseLayoutKey k = None -> matchesKey (kitty_text k) id = true ->
  exists p cp, parseKeyId id = Some p /\ modifier_of p = unlocked (kk_modifier k) /\ cp ∈ key_codes (ki_key p)
    /\ identity cp (modifier_of p) = identity (kk_codepoint k) (kk_modifier k).
Proof. apply press_only. Qed.

(** ** A sample *)
Module KeySample.

(** Ctrl and the key of С on a Russian keyboard with Num Lock on, held down. *)
Definition cyrillic_c : ParsedKittySequence := mkKitty 1089 (Some 1057) (Some 99) 132 repeat_.

Lemma exact_small n : (0 <=? n) && (n <? 2 ^ 53) = true -> exact_range n.
Proof. intros Hn. bool_hyps. done. Qed.

Ltac small_event := split_and!; [by apply exact_small .. | intros ? [= <-]; by apply exact_small | intros ? [= <-]; by apply exact_small].

Lemma kitty_roundtrip_witness : kitty_text cyrillic_c = esc "[1089:1057:99;133:2u" /\ parseKittySequence (kitty_text cyrillic_c) = Some cyrillic_c.
Proof. split; [vm_compute; reflexivity |]. apply kitty_roundtrip. small_event. Defined.

Lemma kitty_named_matched_witness : parseKey (esc "[1089:1057:99;133:2u") = Some (key_id (js "ctrl+c")) /\ matchesKey (esc "[1089:1057:99;133:2u") (js "ctrl+c") = true.
Proof.
  split; [vm_compute; reflexivity |]. apply (kitty_named_matched _ cyrillic_c); [vm_compute; reflexivity | vm_compute; reflexivity | cbn; lia | | reflexivity | right; reflexivity].
  intros b [= <-]. lia.
Defined.

Lemma decode_printable_witness : decodePrintableKey (esc "[97:65;2u") = Some (js "A") /\ exists cp, 32 <= cp <= 1114111 /\ from_code_point cp = Some (js "A").
Proof. split; [vm_compute; reflexivity |]. apply (decode_printable (esc "[97:65;2u")). vm_compute. reflexivity. Defined.

Lemma press_exact_witness : exists p cp, parseKeyId (js "super+Shift+K") = Some p /\ modifier_of p = 9 /\ cp ∈ key_codes (ki_key p) /\ identity cp 9 = 107.
Proof.
  destruct (press_exact (mkKitty 107 None None 73 press) (js "super+Shift+K")) as (p & cp & Hp & Hm & Hin & Hc); [small_event | reflexivity | vm_compute; reflexivity |].
  exists p, cp. rewrite Hm in Hc. split_and!; done.
Defined.

(** [+] is no identifier, though [parseKey] gives it as one. *)
Example plus_never_matches : parseKey (js "+") = Some (key_id (js "+")) /\ forall data, matchesKey data (js "+") = false.
Proof. split; [vm_compute; reflexivity | done]. Qed.

(** Escape with a modifier has a name that nothing matches. *)
Example shift_escape : parseKey (esc "[27;2u") = Some (key_id (js "shift+escape")) /\ forall data, matchesKey data (js "shift+escape") = false.
Proof. split; [vm_compute; reflexivity | done]. Qed.

(** A code point above U+FFFF is named after its lower half: U+2005B as a bracket. *)
Example astral_name : parseKey (esc "[131163u") = Some (key_id (js "[")) /\ matchesKey (esc "[131163u") (js "[") = false.
Proof. split; vm_compute; reflexivity. Qed.

(** Delete with Shift is inserted as the character U+007F. *)
Example delete_printable : decodeKittyPrintable (esc "[127;2u") = Some [127].
Proof. vm_compute. reflexivity. Qed.

(** A property that records inherit is returned as the name of a key. *)
Example inherited_name : parseKey (js "constructor") = Some (key_inherited (js "constructor")).
Proof. vm_compute. reflexivity. Qed.

End KeySample.
