(* ===== verification/KeyBindings.v ===== *)
(** The bindings of keys to actions ([tui/src/keybindings.ts]), and the text field and
    the editor under them.  Records and maps keep the order of insertion; the names of
    actions are neither array indices nor, in the definitions, names of
    [Object.prototype]. *)
From S2P Require Import Prelude JsString StringSearch JsonParse JsonCodec Regex TextEditing TextInput Wrapping EditorState Editor EditorProps Keys KeyProps.

#[local] Open Scope string_scope.
#[local] Open Scope list_scope.
#[local] Open Scope Z_scope.

(** A key or an array of keys. *)
Inductive keys_value := one_key (key : jsstr) | many_keys (keys : list jsstr).

Record KeybindingDefinition := mkDefinition { defaultKeys : keys_value; kd_description : option string }.
Definition KeybindingDefinitions := list (string * KeybindingDefinition).
Definition KeybindingsConfig := list (string * option keys_value).

Definition key (k : string) : keys_value := one_key (js k).
Definition keys (ks : list string) : keys_value := many_keys (map js ks).
Definition define (id : string) (k : keys_value) (description : string) : string * KeybindingDefinition := (id, mkDefinition k (Some description)).

Definition TUI_KEYBINDINGS : KeybindingDefinitions :=
  [define "tui.editor.cursorUp" (key "up") "Move cursor up"; define "tui.editor.cursorDown" (key "down") "Move cursor down";
   define "tui.editor.cursorLeft" (keys ["left"; "ctrl+b"]) "Move cursor left";
   define "tui.editor.cursorRight" (keys ["right"; "ctrl+f"]) "Move cursor right";
   define "tui.editor.cursorWordLeft" (keys ["alt+left"; "ctrl+left"; "alt+b"]) "Move cursor word left";
   define "tui.editor.cursorWordRight" (keys ["alt+right"; "ctrl+right"; "alt+f"]) "Move cursor word right";
   define "tui.editor.cursorLineStart" (keys ["home"; "ctrl+a"]) "Move to line start";
   define "tui.editor.cursorLineEnd" (keys ["end"; "ctrl+e"]) "Move to line end";
   define "tui.editor.jumpForward" (key "ctrl+]") "Jump forward to character";
   define "tui.editor.jumpBackward" (key "ctrl+alt+]") "Jump backward to character";
   define "tui.editor.pageUp" (key "pageUp") "Page up"; define "tui.editor.pageDown" (key "pageDown") "Page down";
   define "tui.editor.deleteCharBackward" (key "backspace") "Delete character backward";
   define "tui.editor.deleteCharForward" (keys ["delete"; "ctrl+d"]) "Delete character forward";
   define "tui.editor.deleteWordBackward" (keys ["ctrl+w"; "alt+backspace"]) "Delete word backward";
   define "tui.editor.deleteWordForward" (keys ["alt+d"; "alt+delete"]) "Delete word forward";
   define "tui.editor.deleteToLineStart" (key "ctrl+u") "Delete to line start";
   define "tui.editor.deleteToLineEnd" (key "ctrl+k") "Delete to line end";
   define "tui.editor.yank" (key "ctrl+y") "Yank"; define "tui.editor.yankPop" (key "alt+y") "Yank pop"; define "tui.editor.undo" (key "ctrl+-") "Undo";
   define "tui.input.newLine" (key "shift+enter") "Insert newline"; define "tui.input.submit" (key "enter") "Submit input";
   define "tui.input.tab" (key "tab") "Tab / autocomplete"; define "tui.input.copy" (key "ctrl+c") "Copy selection";
   define "tui.select.up" (key "up") "Move selection up"; define "tui.select.down" (key "down") "Move selection down";
   define "tui.select.pageUp" (key "pageUp") "Selection page up"; define "tui.select.pageDown" (key "pageDown") "Selection page down";
   define "tui.select.confirm" (key "enter") "Confirm selection";
   define "tui.select.cancel" (keys ["escape"; "ctrl+c"]) "Cancel selection"].

(** [record[id]]. *)
Definition property {A} (id : string) (r : list (string * A)) : option A := snd <$> List.find (fun e => bool_decide (e.1 = id)) r.

(** The keys with repetitions dropped, [seen] being those before. *)
Fixpoint fresh_keys (seen keyList : list jsstr) : list jsstr :=
  match keyList with
  | [] => []
  | k :: rest => if bool_decide (k ∈ seen) then fresh_keys seen rest else k :: fresh_keys (seen ++ [k]) rest
  end.

Definition normalizeKeys (ks : option keys_value) : list jsstr :=
  match ks with None => [] | Some (one_key k) => fresh_keys [] [k] | Some (many_keys l) => fresh_keys [] l end.

Record KeybindingConflict := mkConflict { cf_key : jsstr; cf_keybindings : list string }.

Record KeybindingsManager := mkManager {
  km_definitions : KeybindingDefinitions;
  km_userBindings : KeybindingsConfig;
  km_keysById : list (string * list jsstr);
  km_conflicts : list KeybindingConflict
}.

(** [keybinding in definitions]. *)
Definition is_defined (id : string) (definitions : KeybindingDefinitions) : bool :=
  match property id definitions with Some _ => true | None => inherited (js id) end.

(** A key claimed by an action, in a map from keys to sets of actions. *)
Fixpoint claim (k : jsstr) (id : string) (claims : list (jsstr * list string)) : list (jsstr * list string) :=
  match claims with
  | [] => [(k, [id])]
  | (k', ids) :: rest =>
      if bool_decide (k' = k) then (k', if bool_decide (id ∈ ids) then ids else ids ++ [id]) :: rest else (k', ids) :: claim k id rest
  end.

Definition user_claims (definitions : KeybindingDefinitions) (userBindings : KeybindingsConfig) : list (jsstr * list string) :=
  foldl (fun claims b =>
    if negb (is_defined b.1 definitions) then claims
    else foldl (fun claims k => claim k b.1 claims) claims (normalizeKeys b.2)) [] userBindings.

Definition rebuild (definitions : KeybindingDefinitions) (userBindings : KeybindingsConfig) : KeybindingsManager :=
  let conflicts := map (fun c => mkConflict c.1 c.2) (List.filter (fun c => (1 <? length c.2)%nat) (user_claims definitions userBindings)) in
  let keysById := map (fun d =>
    (d.1, match property d.1 userBindings with
          | Some (Some userKeys) => normalizeKeys (Some userKeys)
          | _ => normalizeKeys (Some (defaultKeys d.2))
          end)) definitions in
  mkManager definitions userBindings keysById conflicts.

Definition new_KeybindingsManager := rebuild.
Definition setUserBindings (userBindings : KeybindingsConfig) (m : KeybindingsManager) : KeybindingsManager := rebuild (km_definitions m) userBindings.

Definition getKeys (m : KeybindingsManager) (id : string) : list jsstr := default [] (property id (km_keysById m)).
Definition getDefinition (m : KeybindingsManager) (id : string) : option KeybindingDefinition := property id (km_definitions m).
Definition getConflicts (m : KeybindingsManager) : list KeybindingConflict := km_conflicts m.
Definition getUserBindings (m : KeybindingsManager) : KeybindingsConfig := km_userBindings m.

Definition getResolvedBindings (m : KeybindingsManager) : KeybindingsConfig :=
  map (fun d => (d.1, Some match getKeys m d.1 with [k] => one_key k | l => many_keys l end)) (km_definitions m).

(** The global manager, made from the defaults when there is none. *)
Definition getKeybindings (global : option KeybindingsManager) : KeybindingsManager * option KeybindingsManager :=
  let m := default (new_KeybindingsManager TUI_KEYBINDINGS []) global in (m, Some m).

Definition setKeybindings (m : KeybindingsManager) : option KeybindingsManager := Some m.

Section Bound.
Context `{Terminal}.

(** [manager.matches(data, keybinding)]. *)
Definition bound (m : KeybindingsManager) (data : jsstr) (id : string) : bool := existsb (matchesKey data) (getKeys m id).

(** ** The actions of the editor and the text field *)

Definition editor_action (k : editor_key) : string :=
  match k with
  | ek_jumpForward => "tui.editor.jumpForward" | ek_jumpBackward => "tui.editor.jumpBackward" | ek_copy => "tui.input.copy" | ek_undo => "tui.editor.undo"
  | ek_cancel => "tui.select.cancel" | ek_selectUp => "tui.select.up" | ek_selectDown => "tui.select.down" | ek_tab => "tui.input.tab"
  | ek_confirm => "tui.select.confirm" | ek_deleteToLineEnd => "tui.editor.deleteToLineEnd" | ek_deleteToLineStart => "tui.editor.deleteToLineStart"
  | ek_deleteWordBackward => "tui.editor.deleteWordBackward" | ek_deleteWordForward => "tui.editor.deleteWordForward"
  | ek_deleteCharBackward => "tui.editor.deleteCharBackward" | ek_deleteCharForward => "tui.editor.deleteCharForward"
  | ek_yank => "tui.editor.yank" | ek_yankPop => "tui.editor.yankPop" | ek_cursorLineStart => "tui.editor.cursorLineStart"
  | ek_cursorLineEnd => "tui.editor.cursorLineEnd" | ek_cursorWordLeft => "tui.editor.cursorWordLeft" | ek_cursorWordRight => "tui.editor.cursorWordRight"
  | ek_newLine => "tui.input.newLine" | ek_submit => "tui.input.submit" | ek_cursorUp => "tui.editor.cursorUp" | ek_cursorDown => "tui.editor.cursorDown"
  | ek_cursorRight => "tui.editor.cursorRight" | ek_cursorLeft => "tui.editor.cursorLeft" | ek_pageUp => "tui.editor.pageUp" | ek_pageDown => "tui.editor.pageDown"
  end.

Definition input_action (k : key_binding) : string :=
  match k with
  | kb_cancel => "tui.select.cancel" | kb_undo => "tui.editor.undo" | kb_submit => "tui.input.submit"
  | kb_deleteCharBackward => "tui.editor.deleteCharBackward" | kb_deleteCharForward => "tui.editor.deleteCharForward"
  | kb_deleteWordBackward => "tui.editor.deleteWordBackward" | kb_deleteWordForward => "tui.editor.deleteWordForward"
  | kb_deleteToLineStart => "tui.editor.deleteToLineStart" | kb_deleteToLineEnd => "tui.editor.deleteToLineEnd"
  | kb_yank => "tui.editor.yank" | kb_yankPop => "tui.editor.yankPop" | kb_cursorLeft => "tui.editor.cursorLeft" | kb_cursorRight => "tui.editor.cursorRight"
  | kb_cursorLineStart => "tui.editor.cursorLineStart" | kb_cursorLineEnd => "tui.editor.cursorLineEnd"
  | kb_cursorWordLeft => "tui.editor.cursorWordLeft" | kb_cursorWordRight => "tui.editor.cursorWordRight"
  end.

Definition named_id (k : named_key) : string :=
  match k with nk_shiftBackspace => "shift+backspace" | nk_shiftDelete => "shift+delete" | nk_enter => "enter" | nk_shiftSpace => "shift+space" end.

Definition editor_bindings (m : KeybindingsManager) (data : jsstr) (k : editor_key) : bool := bound m data (editor_action k).
Definition input_bindings (m : KeybindingsManager) (data : jsstr) (k : key_binding) : bool := bound m data (input_action k).
Definition named_keys (data : jsstr) (k : named_key) : bool := matchesKey data (js (named_id k)).

(** [kb.getKeys('tui.input.submit')] has Shift+Enter. *)
Definition submit_shift_enter (m : KeybindingsManager) : bool :=
  bool_decide (js "shift+enter" ∈ getKeys m "tui.input.submit") || bool_decide (js "shift+return" ∈ getKeys m "tui.input.submit").

(** The text field and the editor with their keys. *)
Definition keyed_input `{Segmenter} (m : KeybindingsManager) (data : jsstr) (st : Input) : list input_call * Input :=
  TextInput.handleInput (input_bindings m) decodeKittyPrintable data st.
Definition keyed_editor `{Segmenter} `{UnicodeWidth} (m : KeybindingsManager) (pageSize : Z) (data : jsstr) (e : Editor) : option Editor :=
  ed_handleInput (editor_bindings m) named_keys decodePrintableKey (submit_shift_enter m) pageSize data e.

End Bound.

(** ** Conflicts *)

(** The actions of the user's record that claim a key, in its order. *)
Definition claimants (definitions : KeybindingDefinitions) (userBindings : KeybindingsConfig) (k : jsstr) : list string :=
  map fst (List.filter (fun b => is_defined b.1 definitions && bool_decide (k ∈ normalizeKeys b.2)) userBindings).

Definition claimed (k : jsstr) (claims : list (jsstr * list string)) : list string :=
  default [] (snd <$> List.find (fun c => bool_decide (c.1 = k)) claims).

Lemma claimed_claim k k' id claims : claimed k (claim k' id claims) =
  if bool_decide (k' = k) then (if bool_decide (id ∈ claimed k claims) then claimed k claims else claimed k claims ++ [id]) else claimed k claims.
Proof.
  unfold claimed. induction claims as [|[k1 ids] claims IH]; cbn [claim List.find fst snd].
  - case_bool_decide; cbn; [| done]. rewrite bool_decide_eq_false_2; [done | by intros ?%elem_of_nil].
  - destruct (bool_decide (k1 = k')) eqn:E1; cbn [List.find fst].
    + apply bool_decide_eq_true in E1 as ->. destruct (bool_decide (k' = k)) eqn:E2; [done |]. done.
    + destruct (bool_decide (k1 = k)) eqn:E2; [| apply IH]. apply bool_decide_eq_true in E2 as ->.
      destruct (bool_decide (k' = k)) eqn:E3; [| done]. apply bool_decide_eq_true in E3 as ->. by apply bool_decide_eq_false in E1.
Qed.

Lemma claim_keys k id claims : exists l, map fst (claim k id claims) = map fst claims ++ l /\ (l = [] \/ l = [k] /\ k ∉ map fst claims).
Proof.
  induction claims as [|[k1 ids] claims (l & E & Hl)]; cbn [claim map fst]; [exists [k]; split; [done | right; split; [done | by intros ?%elem_of_nil]] |].
  case_bool_decide as Hk; cbn [map fst]; [exists []; rewrite app_nil_r; by split; [| left] |]. exists l. rewrite E. split; [done |].
  destruct Hl as [-> | [-> Hn]]; [by left | right; split; [done |]]. rewrite not_elem_of_cons. by split; [apply not_eq_sym |].
Qed.

(** Distinct keys, each claimed by at least one action. *)
Definition claims_ok (claims : list (jsstr * list string)) : Prop := NoDup (map fst claims) /\ Forall (fun c => c.2 <> []) claims.

Lemma claim_ok k id claims : claims_ok claims -> claims_ok (claim k id claims).
Proof.
  intros [Hn Hf]. split.
  - destruct (claim_keys k id claims) as (l & -> & [-> | [-> Hk]]); [by rewrite app_nil_r |].
    apply NoDup_app. split_and!; [done | by intros x Hx ->%list_elem_of_singleton | apply NoDup_singleton].
  - clear Hn. induction Hf as [|[k1 ids] claims Hc Hf IH]; cbn [claim]; [by repeat constructor |].
    case_bool_decide; constructor; try done. cbn in *. case_bool_decide; [done | by destruct ids].
Qed.

Lemma fresh_nodup seen l : NoDup (fresh_keys seen l) /\ forall k, k ∈ fresh_keys seen l -> k ∉ seen.
Proof.
  revert seen. induction l as [|k l IH]; intros seen; cbn [fresh_keys]; [split; [constructor | by intros k ?%elem_of_nil] |].
  case_bool_decide as Hk; [apply IH |]. destruct (IH (seen ++ [k])) as [Hn Hf]. split.
  - constructor; [| done]. intros Hin. apply (Hf k Hin). apply elem_of_app. right. by apply list_elem_of_singleton.
  - intros k' [-> | Hin]%elem_of_cons; [done |]. specialize (Hf k' Hin). rewrite elem_of_app in Hf. tauto.
Qed.

Lemma normalize_nodup ks : NoDup (normalizeKeys ks).
Proof. destruct ks as [[]|]; cbn [normalizeKeys]; [apply fresh_nodup .. | constructor]. Qed.

(** The claims of one action. *)
Lemma claim_all_keys id ks claims k : NoDup ks -> (forall k, k ∈ ks -> id ∉ claimed k claims) ->
  claimed k (foldl (fun claims k => claim k id claims) claims ks) = claimed k claims ++ (if bool_decide (k ∈ ks) then [id] else []).
Proof.
  intros Hn. revert claims. induction Hn as [|k1 ks Hk1 Hn IH]; intros claims Hid; cbn [foldl].
  { rewrite bool_decide_eq_false_2 by (by intros ?%elem_of_nil). by rewrite app_nil_r. }
  rewrite IH.
  - rewrite claimed_claim. destruct (bool_decide (k1 = k)) eqn:E.
    + apply bool_decide_eq_true in E as ->. rewrite (bool_decide_eq_false_2 (id ∈ _)) by (apply Hid; by left).
      rewrite (bool_decide_eq_false_2 (k ∈ ks)) by done. rewrite bool_decide_eq_true_2 by (by left). by rewrite app_nil_r.
    + apply bool_decide_eq_false in E. f_equal. apply (f_equal (fun b : bool => if b then [id] else [])). apply bool_decide_ext.
      rewrite elem_of_cons. naive_solver.
  - intros k' Hk'. rewrite claimed_claim, bool_decide_eq_false_2 by (by intros ->). apply Hid. by right.
Qed.

Lemma claims_keep id ks claims : claims_ok claims -> claims_ok (foldl (fun claims k => claim k id claims) claims ks).
Proof. revert claims. induction ks as [|k ks IH]; intros claims Hc; [done |]. cbn. by apply IH, claim_ok. Qed.

Lemma claimants_subset definitions userBindings k id : id ∈ claimants definitions userBindings k -> id ∈ map fst userBindings.
Proof.
  unfold claimants. rewrite !list_elem_of_In, !List.in_map_iff. intros (b & <- & Hb). apply List.filter_In in Hb as [Hb _]. by exists b.
Qed.

Lemma user_claims_spec definitions userBindings : NoDup (map fst userBindings) ->
  claims_ok (user_claims definitions userBindings) /\ forall k, claimed k (user_claims definitions userBindings) = claimants definitions userBindings k.
Proof.
  unfold user_claims. induction userBindings as [|b user IH] using rev_ind; intros Hn; [split; [split; constructor | done] |].
  rewrite map_app in Hn. apply NoDup_app in Hn as (Hn & Hfresh & _). destruct (IH Hn) as [Hok Hc]. rewrite foldl_app. cbn [foldl].
  set (claims := foldl _ [] user) in *.
  assert (Hsplit : forall k, claimants definitions (user ++ [b]) k = claimants definitions user k ++ (if is_defined b.1 definitions && bool_decide (k ∈ normalizeKeys b.2) then [b.1] else [])).
  { intros k. unfold claimants. rewrite List.filter_app, map_app. f_equal. cbn [List.filter]. by destruct (is_defined b.1 definitions && _). }
  destruct (is_defined b.1 definitions) eqn:Ed; cbn [negb].
  - split; [by apply claims_keep |]. intros k. rewrite claim_all_keys; [by rewrite Hc, Hsplit, ?Ed | apply normalize_nodup |].
    intros k' _ Hin. rewrite Hc in Hin. apply claimants_subset in Hin. apply (Hfresh _ Hin). by left.
  - split; [done |]. intros k. by rewrite Hc, Hsplit, ?Ed, app_nil_r.
Qed.

Lemma claimed_in k ids claims : claims_ok claims -> In (k, ids) claims <-> (ids = claimed k claims /\ ids <> []).
Proof.
  intros [Hn Hf]. unfold claimed. induction Hf as [|[k1 ids1] claims Hc Hf IH]; cbn [List.find fst snd In].
  { split; [done | intros [-> ?]; done]. }
  cbn in Hn. apply NoDup_cons in Hn as [Hk1 Hn]. destruct (bool_decide (k1 = k)) eqn:E; cbn [fmap option_fmap option_map snd from_option id].
  - apply bool_decide_eq_true in E as ->. split.
    + intros [[= ->] | Hin]; [done |]. exfalso. apply Hk1. apply list_elem_of_In, List.in_map_iff. by exists (k, ids).
    + intros [-> _]. by left.
  - rewrite <- (IH Hn). apply bool_decide_eq_false in E. split; [intros [[= -> _] | ?]; done | by right].
Qed.

(** The conflicts shown to a user are exactly the keys that two or more of the actions
    they rebound claim, each key once, with all the actions that claim it in the order of
    the user's record; a key listed twice for one action is no conflict. *)
Theorem conflicts_exact definitions userBindings : NoDup (map fst userBindings) ->
  let m := new_KeybindingsManager definitions userBindings in
  NoDup (map cf_key (getConflicts m))
  /\ forall k ids, In (mkConflict k ids) (getConflicts m) <-> ids = claimants definitions userBindings k /\ (1 < length ids)%nat.
Proof.
  intros Hn. cbn [new_KeybindingsManager rebuild getConflicts km_conflicts]. destruct (user_claims_spec definitions userBindings Hn) as [Hok Hc]. split.
  - rewrite map_map. cbn [cf_key]. destruct Hok as [Hd _]. revert Hd. generalize (user_claims definitions userBindings). clear.
    induction l as [|[k ids] l IH]; cbn; [done |]. intros [Hk Hd]%NoDup_cons. case_if; [| by apply IH]. cbn. constructor; [| by apply IH].
    rewrite list_elem_of_In, List.in_map_iff in Hk |- *. intros (x & Hx & Hin). apply Hk. exists x. split; [done |].
    by apply List.filter_In in Hin as [Hin _].
  - intros k ids. rewrite List.in_map_iff. split.
    + intros ([k' ids'] & [= <- <-] & Hin). apply List.filter_In in Hin as [Hin Hl]. apply Nat.ltb_lt in Hl. cbn [fst snd] in *.
      apply claimed_in in Hin as [E _]; [| done]. rewrite Hc in E. done.
    + intros [-> Hl]. exists (k, claimants definitions userBindings k). split; [done |]. apply List.filter_In. split; [| by apply Nat.ltb_lt].
      apply claimed_in; [done |]. rewrite Hc. split; [done |]. by destruct (claimants definitions userBindings k); [cbn in Hl; lia |].
Qed.

Lemma conflicts_exact_witness :
  let user := [("tui.editor.undo", Some (key "ctrl+z")); ("app.unknown", Some (key "ctrl+z")); ("tui.editor.yank", Some (keys ["ctrl+z"; "ctrl+z"; "ctrl+y"]))] in
  NoDup (map fst user) /\ In (mkConflict (js "ctrl+z") ["tui.editor.undo"; "tui.editor.yank"]) (getConflicts (new_KeybindingsManager TUI_KEYBINDINGS user)).
Proof.
  assert (Hn : NoDup (map fst [("tui.editor.undo", Some (key "ctrl+z")); ("app.unknown", Some (key "ctrl+z")); ("tui.editor.yank", Some (keys ["ctrl+z"; "ctrl+z"; "ctrl+y"]))]))
    by (apply (bool_decide_unpack _); vm_compute; exact I).
  split; [exact Hn |]. apply (proj2 (conflicts_exact TUI_KEYBINDINGS _ Hn) (js "ctrl+z")). split; [vm_compute; reflexivity | cbn; lia].
Defined.

(** ** Typing *)

Definition default_manager : KeybindingsManager := new_KeybindingsManager TUI_KEYBINDINGS [].

(** The keys the editor compares an input with. *)
Definition known_keys : list jsstr := concat (map snd (km_keysById default_manager)) ++ map (fun k => js (named_id k)) [nk_shiftBackspace; nk_shiftDelete; nk_enter; nk_shiftSpace].

(** The code of a key that stands for a character: not a control key, and neither Enter of
    the keypad. *)
Definition text_code (cp : Z) : bool := (32 <=? cp) && negb (bool_decide (cp ∈ [cp_backspace; cp_kpEnter])).

(** A known key is none of those, with Shift or without, but for Shift+Space. *)
Definition not_text (m : Z) (k : jsstr) : bool :=
  forallb (fun c => (0 <=? c) && (c <? 128)) k
  && match @parseKeyId ascii_terminal k with
     | Some p => negb (modifier_of p =? m)
                 || forallb (fun cp => negb (text_code cp) && negb (text_code (identity cp m)) || (m =? m_shift) && (cp =? 32) && (identity cp m =? 32)) (key_codes (ki_key p))
     | None => true
     end.

Lemma known_not_text : forallb (not_text 0) known_keys = true /\ forallb (not_text m_shift) known_keys = true.
Proof. split; vm_compute; reflexivity. Qed.

(** Nothing or Shift, under any locks. *)
Definition text_modifiers : list Z := [0; 1; 64; 65; 128; 129; 192; 193].

(** The text of a key that stands for a character, pressed alone or with Shift, in any form
    of the protocol; Space is pressed alone. *)
Record text_press (data : jsstr) (k : ParsedKittySequence) : Prop := mkTextPress {
  tp_text : parse_csi_u data = Some k;
  tp_modifier : kk_modifier k ∈ text_modifiers;
  tp_code : text_code (normalizeKittyFunctionalCodepoint (kk_codepoint k)) = true /\ kk_codepoint k <= 1114111;
  tp_base : forall b, kk_baseLayoutKey k = Some b -> text_code b = true;
  tp_space : unlocked (kk_modifier k) = 0 \/ normalizeKittyFunctionalCodepoint (kk_codepoint k) <> 32 /\ kk_baseLayoutKey k <> Some 32
}.

(** The code of the character typed: with Shift that of the shifted key, when it is told. *)
Definition typed_code (k : ParsedKittySequence) : Z :=
  normalizeKittyFunctionalCodepoint (if unlocked (kk_modifier k) =? m_shift then default (kk_codepoint k) (kk_shiftedKey k) else kk_codepoint k).

Lemma text_unlocked m : m ∈ text_modifiers ->
  (unlocked m = 0 /\ bit_and m m_shift = 0 \/ unlocked m = m_shift /\ bit_and m m_shift = 1)
  /\ bit_and m (Z.lnot KITTY_PRINTABLE_ALLOWED_MODIFIERS) = 0 /\ bit_and m (Z.lor m_alt m_ctrl) = 0 /\ m <> pred_double Infinity.
Proof.
  intros Hm. unfold text_modifiers in Hm. rewrite !elem_of_cons, elem_of_nil in Hm.
  repeat (destruct Hm as [-> | Hm]; [split_and!; [first [left; split; reflexivity | right; split; reflexivity] | reflexivity | reflexivity | vm_compute; discriminate] |]). done.
Qed.

Lemma text_identity cp m : unlocked m = 0 \/ unlocked m = m_shift -> text_code (normalizeKittyFunctionalCodepoint cp) = true ->
  text_code (identity cp m) = true /\ (normalizeKittyFunctionalCodepoint cp <> 32 -> identity cp m <> 32).
Proof.
  intros Hm Hn. unfold identity, normalizeShiftedLetterIdentityCodepoint. set (n := normalizeKittyFunctionalCodepoint cp) in *.
  case_if; [| done]. bool_hyps. split; [| lia]. unfold text_code. rewrite (proj2 (Z.leb_le _ _)) by lia.
  rewrite bool_decide_eq_false_2; [done |]. rewrite !elem_of_cons, elem_of_nil. unfold cp_backspace, cp_kpEnter. lia.
Qed.

Section Typing.
Context `{TerminalOk} (data : jsstr) (k : ParsedKittySequence) (Hk : text_press data k).

Lemma press_modifier : unlocked (kk_modifier k) = 0 \/ unlocked (kk_modifier k) = m_shift.
Proof. destruct (text_unlocked _ (tp_modifier _ _ Hk)) as [[[? _] | [? _]] _]; auto. Qed.

Lemma press_unmatched id : In id known_keys -> matchesKey data id = false.
Proof.
  intros Hin. apply not_true_is_false. intros HK. destruct (csi_u_shape _ _ (tp_text _ _ Hk)) as (_ & Hl & Hn & Hp).
  destruct (event_only _ _ _ Hl Hn Hp HK) as (p & c & Hid & Hm & Hc & Hi).
  assert (Hall : not_text (unlocked (kk_modifier k)) id = true).
  { destruct known_not_text as [Hk0 Hk1]. rewrite !List.forallb_forall in *. destruct press_modifier as [-> | ->]; auto. }
  unfold not_text in Hall. apply andb_true_iff in Hall as [Ha Hall]. rewrite parse_ascii in Hid.
  2: { apply Forall_forall. intros x Hx. rewrite List.forallb_forall in Ha. apply list_elem_of_In in Hx. specialize (Ha _ Hx). bool_hyps. lia. }
  rewrite Hid, Hm, Z.eqb_refl in Hall. cbn [negb orb] in Hall. rewrite List.forallb_forall in Hall. apply list_elem_of_In in Hc. specialize (Hall c Hc). rewrite Hm in Hi.
  destruct (tp_code _ _ Hk) as [Ht _]. destruct (text_identity (kk_codepoint k) (kk_modifier k) press_modifier Ht) as [Ht' H32].
  apply orb_true_iff in Hall as [Hall | Hall].
  - apply andb_true_iff in Hall as [H1 H2]. apply negb_true_iff in H1, H2. destruct Hi as [Hi | Hi]; [congruence |]. apply (tp_base _ _ Hk) in Hi. congruence.
  - apply andb_true_iff in Hall as [Hall He]. apply andb_true_iff in Hall as [Hs H1]. apply Z.eqb_eq in Hs, H1, He. subst c. rewrite He in Hi.
    destruct (tp_space _ _ Hk) as [E | [E1 E2]]; [rewrite E in Hs; discriminate |]. destruct Hi as [Hi | Hi]; [| done]. by apply (H32 E1).
Qed.

Lemma press_unbound action : bound default_manager data action = false.
Proof.
  unfold bound, getKeys, property. destruct (List.find _ _) as [[id' ks] |] eqn:E; [| done]. apply List.find_some in E as [Hin _]. cbn [fmap option_fmap option_map snd from_option id].
  apply not_true_is_false. intros Hx. apply List.existsb_exists in Hx as (i & Hi & HK). rewrite press_unmatched in HK; [done |].
  apply List.in_or_app. left. apply List.in_concat. exists ks. split; [| done]. apply List.in_map_iff. by exists (id', ks).
Qed.

Lemma press_unnamed n : named_keys data n = false.
Proof. apply press_unmatched. apply List.in_or_app. right. apply List.in_map_iff. exists n. split; [done |]. destruct n; cbn; tauto. Qed.

Lemma press_decoded text : 32 <= typed_code k -> from_code_point (typed_code k) = Some text -> decodePrintableKey data = Some text.
Proof.
  intros H32 Htext. unfold decodePrintableKey. enough (decodeKittyPrintable data = Some text) as -> by done.
  destruct Hk as [Hp Hm [_ Hcp] _ _]. destruct (text_unlocked _ Hm) as (Hs & Ha & Hc & Hinf).
  unfold parse_csi_u in Hp. unfold decodeKittyPrintable. destruct (match_start KITTY_CSI_U_REGEX data) as [m |]; [| done].
  cbn [mbind option_bind] in *. injection Hp as <-. cbn [kk_modifier kk_codepoint kk_shiftedKey] in *.
  assert (Hfin : forall n, n <= 1114111 -> isFinite n = true) by (intros n Hn; apply Z.ltb_lt; unfold Infinity; lia).
  rewrite (Hfin _ Hcp). cbn [negb]. cbv zeta.
  assert (Hmod : isFinite (mod_value (group 4 m)) = true).
  { apply Z.ltb_lt. pose proof (mod_value_bound (group 4 m)). destruct (decide (mod_value (group 4 m) = Infinity)) as [E |]; [| lia]. by rewrite E in Hinf. }
  rewrite Hmod, Ha, Hc. cbn [Z.eqb negb].
  assert (Etyped : normalizeKittyFunctionalCodepoint match parseInt <$> truthy (group 2 m) with
      | Some shifted => if negb (bit_and (pred_double (mod_value (group 4 m))) m_shift =? 0) then shifted else parseInt (group_text 1 m)
      | None => parseInt (group_text 1 m) end = typed_code (mkKitty (parseInt (group_text 1 m)) (parseInt <$> truthy (group 2 m)) (parseInt <$> truthy (group 3 m))
        (pred_double (mod_value (group 4 m))) (parseEventType (group 5 m)))).
  { unfold typed_code. cbn [kk_modifier kk_codepoint kk_shiftedKey]. f_equal. destruct Hs as [[-> ->] | [-> ->]]; cbn [Z.eqb negb]; destruct (parseInt <$> _); done. }
  rewrite Etyped. assert (Hle : typed_code (mkKitty (parseInt (group_text 1 m)) (parseInt <$> truthy (group 2 m)) (parseInt <$> truthy (group 3 m))
        (pred_double (mod_value (group 4 m))) (parseEventType (group 5 m))) <= 1114111).
  { unfold from_code_point in Htext. destruct (1114111 <? _) eqn:E; [done | bool_hyps; lia]. }
  rewrite (Hfin _ Hle), (proj2 (Z.ltb_ge _ _) H32). exact Htext.
Qed.

(** The press goes past the tests for a new line, and is no paste. *)
Lemma press_without c : ~ csi_u_char c -> c ∉ data.
Proof. destruct (csi_u_shape _ _ (tp_text _ _ Hk)) as (Hf & _). rewrite Forall_forall in Hf. intros Hc Hin. by apply Hc, Hf. Qed.

Lemma press_no_line : is_new_line (editor_bindings default_manager) data = false.
Proof.
  unfold is_new_line, editor_bindings. rewrite press_unbound. destruct (csi_u_shape _ _ (tp_text _ _ Hk)) as (_ & Hl & _).
  pose proof (press_without 13 ltac:(unfold csi_u_char; lia)) as H13. pose proof (press_without 10 ltac:(unfold csi_u_char; lia)) as H10.
  rewrite (bool_decide_eq_false_2 (13 ∈ _)) by done. rewrite andb_false_r, !orb_false_r. rewrite !orb_false_iff. split_and!; try done.
  - rewrite bool_decide_eq_false_2; [done |]. intros Hh. apply H10. destruct data; [done |]. injection Hh as ->. by left.
  - apply bool_decide_eq_false. intros E. rewrite E in Hl. done.
  - apply bool_decide_eq_false. intros E. rewrite E in Hl. done.
  - apply bool_decide_eq_false. intros E. rewrite E in Hl. done.
Qed.

Lemma press_no_paste : index_of paste_start data = None.
Proof.
  destruct (index_of _ _) as [i |] eqn:E; [| done]. apply index_of_Some in E. destruct (press_without 126 ltac:(unfold csi_u_char; lia)).
  rewrite E. apply elem_of_app. right. apply elem_of_app. left. vm_compute. set_solver.
Qed.

End Typing.

(** C24: with the bindings the program starts with, a key that stands for a character is
    typed: whatever form of the Kitty protocol reports it, alone or with Shift and under any
    locks, on any layout, an editor that is not in the middle of a jump, a paste or a choice
    inserts exactly its character, with Shift the one of the shifted key when the terminal
    tells it.  Shift+Space has a binding of its own. *)
Theorem typed_character `{TerminalOk} `{Segmenter} `{UnicodeWidth} pageSize data k text e :
  text_press data k -> 32 <= typed_code k -> from_code_point (typed_code k) = Some text ->
  ed_jumpMode e = None -> ps_isInPaste (ed_pastes e) = false -> ac_state (ed_complete e) = None ->
  keyed_editor default_manager pageSize data e = Some (ed_insertCharacter text e).
Proof.
  intros Hk H32 Htext Hj Hp Ha. unfold keyed_editor, ed_handleInput. cbn [handle_editor_input]. unfold handle_jump. rewrite Hj.
  rewrite (press_no_paste data k Hk), Hp.
  assert (Hu : forall a, editor_bindings default_manager data a = false) by (intros a; by apply (press_unbound data k Hk)).
  unfold handle_editor_key, handle_picker. rewrite !Hu, Ha. unfold handle_edit_key. rewrite !Hu, !(press_unnamed data k Hk), (press_no_line data k Hk).
  by rewrite (press_decoded data k Hk text H32 Htext).
Qed.

(** ** A sample *)
Module BindingSample.

#[local] Existing Instances plain_segmenter EditorSample.one_column.

(** The letter E as terminals report it with Shift: by its own code, by the shifted code, and
    on a Cyrillic layout; and a plus sign under Num Lock. *)
Lemma typed_character_witness :
  keyed_editor default_manager 5 (esc "[69;2u") new_Editor = Some (ed_insertCharacter (js "E") new_Editor)
  /\ keyed_editor default_manager 5 (esc "[101:69;2u") new_Editor = Some (ed_insertCharacter (js "E") new_Editor)
  /\ keyed_editor default_manager 5 (esc "[1091::101u") new_Editor = Some (ed_insertCharacter [1091] new_Editor)
  /\ keyed_editor default_manager 5 (esc "[57413;129u") new_Editor = Some (ed_insertCharacter (js "+") new_Editor).
Proof.
  assert (Hp : forall data k, parse_csi_u data = Some k -> bool_decide (kk_modifier k ∈ text_modifiers) = true ->
    text_code (normalizeKittyFunctionalCodepoint (kk_codepoint k)) = true -> (kk_codepoint k <=? 1114111) = true ->
    match kk_baseLayoutKey k with Some b => text_code b | None => true end = true ->
    (unlocked (kk_modifier k) =? 0) || negb (normalizeKittyFunctionalCodepoint (kk_codepoint k) =? 32) && negb (bool_decide (kk_baseLayoutKey k = Some 32)) = true -> text_press data k).
  { intros data k H1 H2 H3 H4 H5 H6. constructor; [done | by apply bool_decide_eq_true in H2 | split; [done | by apply Z.leb_le] | by intros b Eb; rewrite Eb in H5 |].
    apply orb_true_iff in H6 as [H6 | H6]; [left; by apply Z.eqb_eq | right]. apply andb_true_iff in H6 as [H6 H7].
    apply negb_true_iff in H6, H7. apply Z.eqb_neq in H6. by apply bool_decide_eq_false in H7. }
  split_and!.
  - apply (typed_character 5 _ (mkKitty 69 None None 1 press)); [apply Hp; vm_compute; reflexivity | vm_compute; discriminate | reflexivity ..].
  - apply (typed_character 5 _ (mkKitty 101 (Some 69) None 1 press)); [apply Hp; vm_compute; reflexivity | vm_compute; discriminate | reflexivity ..].
  - apply (typed_character 5 _ (mkKitty 1091 None (Some 101) 0 press)); [apply Hp; vm_compute; reflexivity | vm_compute; discriminate | reflexivity ..].
  - apply (typed_character 5 _ (mkKitty 57413 None None 128 press)); [apply Hp; vm_compute; reflexivity | vm_compute; discriminate | reflexivity ..].
Defined.

(** The text after some input. *)
Definition text_after (inputs : list jsstr) : option jsstr :=
  getText <$> foldl (fun e data => e ← e; keyed_editor default_manager 5 data e) (Some new_Editor) inputs.

(** Two words typed as events and as text, Ctrl+W on a Dvorak keyboard, which has it at the
    place of the comma, left with Alt, Ctrl+K and two undos. *)
Example session :
  text_after [esc "[97u"; js "b"; js " "; js "c"; esc "[119::44;5u"; esc "[1;3D"; [11]] = Some []
  /\ text_after [esc "[97u"; js "b"; js " "; js "c"; esc "[119::44;5u"; esc "[1;3D"; [11]; [31]; esc "[45;133u"] = Some (js "ab c").
Proof. split; vm_compute; reflexivity. Qed.

(** A text field takes Shift+Backspace for a character. *)
Example shift_backspace_typed : in_value (keyed_input default_manager (esc "[127;2u") (setValue (js "a") new_Input)).2 = [127; 97].
Proof. vm_compute. reflexivity. Qed.

End BindingSample.
