(* ===== verification/Autocomplete.v ===== *)
(** Completion of slash commands and paths ([tui/src/autocomplete.ts]) and fuzzy matching
    ([tui/src/fuzzy.ts]).  The file system, the [fd] program, the case mapping and the
    collation of the locale are the class [Surroundings]. *)
From S2P Require Import Prelude JsString StringSearch JsonParse Regex Paths RunBudget TextEditing TextInput Wrapping EditorState Editor EditorText EditorCursor.

#[local] Open Scope string_scope.
#[local] Open Scope list_scope.
#[local] Open Scope Z_scope.

(** ** Around the program *)

Record dirent := mkDirent { de_name : jsstr; de_isDirectory : bool; de_isSymbolicLink : bool }.

(** How a run of [fd] ends: it cannot be started, or it closes with a status and its
    output, and whether the request was aborted by then. *)
Inductive fd_outcome := fd_error | fd_close (aborted : bool) (code : option Z) (stdout : jsstr).

Class Surroundings := {
  homedir : jsstr;
  readdir : jsstr -> option (list dirent);       (** throws: [None] *)
  statIsDirectory : jsstr -> bool;                (** false when [statSync] throws *)
  run_fd : list jsstr -> fd_outcome * bool;       (** and whether the request is aborted after it *)
  lowerCase : jsstr -> jsstr;
  localeCompare : jsstr -> jsstr -> Z
}.

(** ** Texts *)

Definition PATH_DELIMITERS : list Z := [32; 9; 34; 39; 61].
Definition is_delimiter (c : Z) : bool := bool_decide (c ∈ PATH_DELIMITERS).

Definition toDisplayPath (value : jsstr) : jsstr := map (fun c => if c =? 92 then 47 else c) value.

Definition escapeRegex (value : jsstr) : jsstr := flat_map (fun c => if bool_decide (c ∈ js ".*+?^${}()|[]\") then [92; c] else [c]) value.

(** [value.replace(/^\/+|\/+$/g, '')]. *)
Fixpoint drop_slashes (s : jsstr) : jsstr := match s with c :: s' => if c =? 47 then drop_slashes s' else s | [] => [] end.
Definition strip_slashes (s : jsstr) : jsstr := reverse (drop_slashes (reverse (drop_slashes s))).

Definition buildFdPathQuery (query : jsstr) : jsstr :=
  let normalized := toDisplayPath query in
  if negb (includes (js "/") normalized) then normalized
  else
    let trimmed := strip_slashes normalized in
    if is_empty trimmed then normalized
    else
      let separatorPattern := js "[\\/]" in
      let segments := map escapeRegex (List.filter (fun s => negb (is_empty s)) (split_on 47 trimmed)) in
      if is_empty segments then normalized
      else join separatorPattern segments ++ (if ends_with (js "/") normalized then separatorPattern else []).

(** The place of the last delimiter. *)
Fixpoint findLastDelimiter (text : jsstr) : option nat :=
  match text with
  | [] => None
  | c :: text' => match findLastDelimiter text' with Some i => Some (S i) | None => if is_delimiter c then Some 0%nat else None end
  end.

(** The place of the quote that is open at the end, [open] being the one that is open
    before place [i]. *)
Fixpoint unclosed_quote (i : nat) (open : option nat) (text : jsstr) : option nat :=
  match text with
  | [] => open
  | c :: text' => unclosed_quote (S i) (if c =? 34 then match open with Some _ => None | None => Some i end else open) text'
  end.
Definition findUnclosedQuoteStart (text : jsstr) : option nat := unclosed_quote 0 None text.

Definition isTokenStart (text : jsstr) (index : nat) : bool :=
  match index with O => true | S i => match text !! i with Some c => is_delimiter c | None => false end end.

Definition extractQuotedPrefix (text : jsstr) : option jsstr :=
  match findUnclosedQuoteStart text with
  | None => None
  | Some quoteStart =>
      if (0 <? quoteStart)%nat && bool_decide (text !! (quoteStart - 1)%nat = Some 64) then
        if negb (isTokenStart text (quoteStart - 1)) then None else Some (drop (quoteStart - 1) text)
      else if negb (isTokenStart text quoteStart) then None
      else Some (drop quoteStart text)
  end.

Record path_prefix := mkPathPrefix { pp_rawPrefix : jsstr; pp_isAtPrefix : bool; pp_isQuotedPrefix : bool }.

Definition parsePathPrefix (prefix : jsstr) : path_prefix :=
  if starts_with [64; 34] prefix then mkPathPrefix (drop 2 prefix) true true
  else if starts_with [34] prefix then mkPathPrefix (drop 1 prefix) false true
  else if starts_with [64] prefix then mkPathPrefix (drop 1 prefix) true false
  else mkPathPrefix prefix false false.

Definition buildCompletionValue (path : jsstr) (isAtPrefix isQuotedPrefix : bool) : jsstr :=
  let needsQuotes := isQuotedPrefix || includes (js " ") path in
  let prefix := if isAtPrefix then [64] else [] in
  if negb needsQuotes then prefix ++ path else prefix ++ [34] ++ path ++ [34].

(** A suggestion with its description. *)
Record suggestion := mkSuggestion { sg_item : AutocompleteItem; sg_description : option jsstr }.

(** ** Fuzzy matching *)

Section Fuzzy.
Context {N : Type} `{JsNumber N}.

Record FuzzyMatch := mkMatch { fz_matches : bool; fz_score : N }.

(** [0.1], the double nearest to it. *)
Definition tenth : N := n_div (n_int 1) (n_int 10).

Definition is_boundary (prevChar : option Z) : bool :=
  match prevChar with None => true | Some c => bool_decide (c ∈ [32; 9; 10; 13; 45; 95; 46; 47; 58]) end.

(** The loop over the text from place [i], after the character [prevChar]. *)
Fixpoint match_loop (i : Z) (prevChar : option Z) (text query : jsstr) (lastMatchIndex consecutiveMatches : Z) (score : N) : jsstr * N :=
  match text, query with
  | c :: text', q :: query' =>
      if c =? q then
        let consecutive := lastMatchIndex =? i - 1 in
        let consecutiveMatches := if consecutive then consecutiveMatches + 1 else 0 in
        let score := if consecutive then n_add score (n_int (- (consecutiveMatches * 5)))
                     else if 0 <=? lastMatchIndex then n_add score (n_int ((i - lastMatchIndex - 1) * 2)) else score in
        let score := if is_boundary prevChar then n_add score (n_int (-10)) else score in
        let score := n_add score (n_mul (n_int i) tenth) in
        match_loop (i + 1) (Some c) text' query' i consecutiveMatches score
      else match_loop (i + 1) (Some c) text' query lastMatchIndex consecutiveMatches score
  | _, _ => (query, score)
  end.

Definition matchQuery (normalizedQuery textLower : jsstr) : FuzzyMatch :=
  if is_empty normalizedQuery then mkMatch true n_zero
  else if (length textLower <? length normalizedQuery)%nat then mkMatch false n_zero
  else
    let '(rest, score) := match_loop 0 None textLower normalizedQuery (-1) 0 n_zero in
    if negb (is_empty rest) then mkMatch false n_zero
    else mkMatch true (if bool_decide (normalizedQuery = textLower) then n_add score (n_int (-100)) else score).

Definition is_lower (c : Z) : bool := (97 <=? c) && (c <=? 122).
Definition letters_digits : rx := (XGroup 1 (XPlus is_lower) >>> XGroup 2 (XPlus is_digit) >>> XEnd)%rx.
Definition digits_letters : rx := (XGroup 1 (XPlus is_digit) >>> XGroup 2 (XPlus is_lower) >>> XEnd)%rx.

(** The query with its letters and digits exchanged. *)
Definition swap_query (queryLower : jsstr) : jsstr :=
  match match_start letters_digits queryLower with
  | Some m => default [] (group 2 m) ++ default [] (group 1 m)
  | None => match match_start digits_letters queryLower with Some m => default [] (group 2 m) ++ default [] (group 1 m) | None => [] end
  end.

Definition fuzzyMatchInternal (queryLower textLower : jsstr) : FuzzyMatch :=
  let primaryMatch := matchQuery queryLower textLower in
  if fz_matches primaryMatch then primaryMatch
  else
    let swappedQuery := swap_query queryLower in
    if is_empty swappedQuery then primaryMatch
    else
      let swappedMatch := matchQuery swappedQuery textLower in
      if negb (fz_matches swappedMatch) then primaryMatch
      else mkMatch true (n_add (fz_score swappedMatch) (n_int 5)).

Definition fuzzyMatch `{Surroundings} (query text : jsstr) : FuzzyMatch := fuzzyMatchInternal (lowerCase query) (lowerCase text).

(** [s.split(/[\s/]+/)], without the empty parts. *)
Definition query_tokens (s : jsstr) : list jsstr :=
  List.filter (fun t => negb (is_empty t)) (split_on 47 (map (fun c => if is_space c then 47 else c) s)).

(** The sum of the scores of the tokens, when all match. *)
Fixpoint total_score (tokens : list jsstr) (textLower : jsstr) (totalScore : N) : option N :=
  match tokens with
  | [] => Some totalScore
  | token :: rest =>
      let m := fuzzyMatchInternal token textLower in
      if fz_matches m then total_score rest textLower (n_add totalScore (fz_score m)) else None
  end.

Definition fuzzyFilter `{Surroundings} {T : Type} (items : list T) (query : jsstr) (getText : T -> jsstr) : list T :=
  if is_empty (trim query) then items
  else
    let tokens := query_tokens (lowerCase (trim query)) in
    if is_empty tokens then items
    else
      let results := omap (fun item => (fun s => (item, s)) <$> total_score tokens (lowerCase (getText item)) n_zero) items in
      map fst (isort (fun a b => n_leb a.2 b.2) results).

End Fuzzy.

(** ** The provider *)

(** A slash command, or an item that stands for one. *)
Record command := mkCommand {
  cm_name : jsstr;
  cm_description : option jsstr;
  cm_argumentHint : option jsstr;
  cm_getArgumentCompletions : option (jsstr -> option (list suggestion))
}.

Record CombinedAutocompleteProvider := mkCombined { cp_commands : list command; cp_basePath : jsstr; cp_fdPath : option jsstr }.

(** *** Extraction of what is completed *)

Definition extractAtPrefix (text : jsstr) : option jsstr :=
  match extractQuotedPrefix text with
  | Some q => if starts_with [64; 34] q then Some q else
                let tokenStart := match findLastDelimiter text with None => 0%nat | Some i => S i end in
                if bool_decide (text !! tokenStart = Some 64) then Some (drop tokenStart text) else None
  | None =>
      let tokenStart := match findLastDelimiter text with None => 0%nat | Some i => S i end in
      if bool_decide (text !! tokenStart = Some 64) then Some (drop tokenStart text) else None
  end.

Definition extractPathPrefix (text : jsstr) (forceExtract : bool) : option jsstr :=
  match extractQuotedPrefix text with
  | Some (c :: q) => Some (c :: q)
  | _ =>
      let pathPrefix := match findLastDelimiter text with None => text | Some i => drop (S i) text end in
      if forceExtract then Some pathPrefix
      else if includes (js "/") pathPrefix || starts_with (js ".") pathPrefix || starts_with (js "~/") pathPrefix then Some pathPrefix
      else if is_empty pathPrefix && ends_with (js " ") text then Some pathPrefix
      else None
  end.

Definition line_before (s : EditorState) : jsstr := slice_to (arr_get (es_lines s) (es_cursorLine s)) (es_cursorCol s).

Definition shouldTriggerFileCompletion (s : EditorState) : bool :=
  let textBeforeCursor := line_before s in
  negb (starts_with (js "/") (trim textBeforeCursor) && negb (includes (js " ") (trim textBeforeCursor))).

(** *** The text after a choice *)

Definition set_completed (s : EditorState) (newLine : jsstr) (cursorCol : Z) : EditorState :=
  mkEditorState (arr_set (es_lines s) (es_cursorLine s) newLine) (es_cursorLine s) cursorCol.

Definition cursor_offset (item : AutocompleteItem) : Z :=
  if ends_with (js "/") (ai_label item) && ends_with [34] (ai_value item) then zlen (ai_value item) - 1 else zlen (ai_value item).

(** The text after the cursor without a quote that the item brings. *)
Definition adjusted_after (item : AutocompleteItem) (prefix afterCursor : jsstr) : jsstr :=
  let isQuotedPrefix := starts_with [34] prefix || starts_with [64; 34] prefix in
  if isQuotedPrefix && ends_with [34] (ai_value item) && starts_with [34] afterCursor then drop 1 afterCursor else afterCursor.

Definition combined_applyCompletion (s : EditorState) (item : AutocompleteItem) (prefix : jsstr) : EditorState :=
  let currentLine := arr_get (es_lines s) (es_cursorLine s) in
  let beforePrefix := slice_to currentLine (es_cursorCol s - zlen prefix) in
  let afterCursor := slice_from currentLine (es_cursorCol s) in
  let adjustedAfterCursor := adjusted_after item prefix afterCursor in
  let isSlashCommand := starts_with (js "/") prefix && is_empty (trim beforePrefix) && negb (includes (js "/") (drop 1 prefix)) in
  if isSlashCommand then
    set_completed s (beforePrefix ++ js "/" ++ ai_value item ++ js " " ++ adjustedAfterCursor) (zlen beforePrefix + zlen (ai_value item) + 2)
  else if starts_with [64] prefix then
    let suffix := if ends_with (js "/") (ai_label item) then [] else js " " in
    set_completed s (beforePrefix ++ ai_value item ++ suffix ++ adjustedAfterCursor) (zlen beforePrefix + cursor_offset item + zlen suffix)
  else
    (* the argument of a command and a path are put in the same way *)
    set_completed s (beforePrefix ++ ai_value item ++ adjustedAfterCursor) (zlen beforePrefix + cursor_offset item).

(** The provider as the editor calls it. *)
Definition as_provider (triggerCharacters : list jsstr) : AutocompleteProvider :=
  mkProvider triggerCharacters combined_applyCompletion (Some shouldTriggerFileCompletion).

(** *** Suggestions *)

Section Suggest.
Context `{Surroundings} {N : Type} `{JsNumber N}.

(** [basename] of [node:path]. *)
Definition node_basename (p : jsstr) : jsstr :=
  let r := drop_slashes (reverse p) in
  reverse ((fix name r := match r with c :: r' => if c =? 47 then [] else c :: name r' | [] => [] end) r).

Definition expandHomePath (path : jsstr) : jsstr :=
  if starts_with (js "~/") path then
    let expandedPath := node_join homedir (drop 2 path) in
    if ends_with (js "/") path && negb (ends_with (js "/") expandedPath) then expandedPath ++ js "/" else expandedPath
  else if bool_decide (path = js "~") then homedir
  else path.

(** The place of the last slash. *)
Fixpoint last_slash (s : jsstr) : option nat :=
  match s with
  | [] => None
  | c :: s' => match last_slash s' with Some i => Some (S i) | None => if c =? 47 then Some 0%nat else None end
  end.

Record scoped_query := mkScoped { sc_baseDir : jsstr; sc_query : jsstr; sc_displayBase : jsstr }.

Definition resolveScopedFuzzyQuery (basePath rawQuery : jsstr) : option scoped_query :=
  let normalizedQuery := toDisplayPath rawQuery in
  match last_slash normalizedQuery with
  | None => None
  | Some slashIndex =>
      let displayBase := take (S slashIndex) normalizedQuery in
      let query := drop (S slashIndex) normalizedQuery in
      let baseDir :=
        if starts_with (js "~/") displayBase then expandHomePath displayBase
        else if starts_with (js "/") displayBase then displayBase
        else node_join basePath displayBase in
      if statIsDirectory baseDir then Some (mkScoped baseDir query displayBase) else None
  end.

Definition scopedPathForDisplay (displayBase relativePath : jsstr) : jsstr :=
  let normalizedRelativePath := toDisplayPath relativePath in
  if bool_decide (displayBase = js "/") then js "/" ++ normalizedRelativePath else toDisplayPath displayBase ++ normalizedRelativePath.

(** The directory that is read for a path prefix, and the prefix of the names. *)
Definition search_place (basePath : jsstr) (p : path_prefix) : jsstr * jsstr :=
  let rawPrefix := pp_rawPrefix p in
  let expandedPrefix := if starts_with (js "~") rawPrefix then expandHomePath rawPrefix else rawPrefix in
  let isRootPrefix := bool_decide (rawPrefix ∈ [[]; js "./"; js "../"; js "~"; js "~/"; js "/"]) || pp_isAtPrefix p && is_empty rawPrefix in
  let absolute := starts_with (js "~") rawPrefix || starts_with (js "/") expandedPrefix in
  if isRootPrefix || ends_with (js "/") rawPrefix then (if absolute then expandedPrefix else node_join basePath expandedPrefix, [])
  else
    let dir := node_dirname expandedPrefix in
    (if absolute then dir else node_join basePath dir, node_basename expandedPrefix).

(** The path of an entry as the user wrote its prefix. *)
Definition relative_path (displayPrefix name : jsstr) : jsstr :=
  if ends_with (js "/") displayPrefix then displayPrefix ++ name
  else if includes (js "/") displayPrefix || includes (js "\") displayPrefix then
    if starts_with (js "~/") displayPrefix then
      let dir := node_dirname (drop 2 displayPrefix) in
      js "~/" ++ (if bool_decide (dir = js ".") then name else node_join dir name)
    else if starts_with (js "/") displayPrefix then
      let dir := node_dirname displayPrefix in
      if bool_decide (dir = js "/") then js "/" ++ name else dir ++ js "/" ++ name
    else
      let relativePath := node_join (node_dirname displayPrefix) name in
      if starts_with (js "./") displayPrefix && negb (starts_with (js "./") relativePath) then js "./" ++ relativePath else relativePath
  else if starts_with (js "~") displayPrefix then js "~/" ++ name
  else name.

Definition entry_suggestion (searchDir : jsstr) (p : path_prefix) (entry : dirent) : suggestion :=
  let isDirectory := de_isDirectory entry || de_isSymbolicLink entry && statIsDirectory (node_join searchDir (de_name entry)) in
  let relativePath := toDisplayPath (relative_path (pp_rawPrefix p) (de_name entry)) in
  let pathValue := if isDirectory then relativePath ++ js "/" else relativePath in
  mkSuggestion (mkItem (buildCompletionValue pathValue (pp_isAtPrefix p) (pp_isQuotedPrefix p)) (de_name entry ++ if isDirectory then js "/" else [])) None.

(** The comparison of the sort: what ends in a slash first, then by label. *)
Definition suggestion_leb (a b : suggestion) : bool :=
  let aIsDir := ends_with (js "/") (ai_value (sg_item a)) in
  let bIsDir := ends_with (js "/") (ai_value (sg_item b)) in
  if aIsDir && negb bIsDir then true
  else if negb aIsDir && bIsDir then false
  else localeCompare (ai_label (sg_item a)) (ai_label (sg_item b)) <=? 0.

Definition getFileSuggestions (basePath prefix : jsstr) : list suggestion :=
  let p := parsePathPrefix prefix in
  let '(searchDir, searchPrefix) := search_place basePath p in
  match readdir searchDir with
  | None => []
  | Some entries =>
      let found := List.filter (fun entry => starts_with (lowerCase searchPrefix) (lowerCase (de_name entry))) entries in
      isort suggestion_leb (map (entry_suggestion searchDir p) found)
  end.

Definition scoreEntry (filePath query : jsstr) (isDirectory : bool) : Z :=
  let lowerFileName := lowerCase (node_basename filePath) in
  let lowerQuery := lowerCase query in
  let score :=
    if bool_decide (lowerFileName = lowerQuery) then 100
    else if starts_with lowerQuery lowerFileName then 80
    else if includes lowerQuery lowerFileName then 50
    else if includes lowerQuery (lowerCase filePath) then 30
    else 0 in
  if isDirectory && (0 <? score) then score + 10 else score.

Definition fd_args (baseDir query : jsstr) (maxResults : Z) : list jsstr :=
  [js "--base-directory"; baseDir; js "--max-results"; show maxResults; js "--type"; js "f"; js "--type"; js "d"; js "--follow"; js "--hidden";
   js "--exclude"; js ".git"; js "--exclude"; js ".git/*"; js "--exclude"; js ".git/**"]
  ++ (if includes (js "/") (toDisplayPath query) then [js "--full-path"] else [])
  ++ (if is_empty query then [] else [buildFdPathQuery query]).

(** The lines of the output but for those of the repository's own directory, with
    whether they are directories. *)
Definition fd_results (stdout : jsstr) : list (jsstr * bool) :=
  omap (fun line =>
    let displayLine := toDisplayPath line in
    let hasTrailingSeparator := ends_with (js "/") displayLine in
    let normalizedPath := if hasTrailingSeparator then slice_to displayLine (-1) else displayLine in
    if bool_decide (normalizedPath = js ".git") || starts_with (js ".git/") normalizedPath || includes (js "/.git/") normalizedPath then None
    else Some (displayLine, hasTrailingSeparator))
  (List.filter (fun l => negb (is_empty l)) (split_on 10 (trim stdout))).

(** The results, and whether the request is aborted when they are there. *)
Definition walkDirectoryWithFd (baseDir query : jsstr) (maxResults : Z) : list (jsstr * bool) * bool :=
  let '(outcome, aborted_after) := run_fd (fd_args baseDir query maxResults) in
  (match outcome with
   | fd_error => []
   | fd_close aborted code stdout => if aborted || negb (bool_decide (code = Some 0)) || is_empty stdout then [] else fd_results stdout
   end, aborted_after).

Definition fuzzy_suggestion (scoped : option scoped_query) (isQuotedPrefix : bool) (entry : jsstr * bool) : suggestion :=
  let '(entryPath, isDirectory) := entry in
  let pathWithoutSlash := if isDirectory then slice_to entryPath (-1) else entryPath in
  let displayPath := match scoped with Some q => scopedPathForDisplay (sc_displayBase q) pathWithoutSlash | None => pathWithoutSlash end in
  let completionPath := if isDirectory then displayPath ++ js "/" else displayPath in
  mkSuggestion (mkItem (buildCompletionValue completionPath true isQuotedPrefix) (node_basename pathWithoutSlash ++ if isDirectory then js "/" else []))
    (Some displayPath).

Definition getFuzzyFileSuggestions (p : CombinedAutocompleteProvider) (query : jsstr) (isQuotedPrefix aborted : bool) : list suggestion :=
  match cp_fdPath p with
  | Some (_ :: _) =>
      if aborted then []
      else
        let scopedQuery := resolveScopedFuzzyQuery (cp_basePath p) query in
        let fdBaseDir := match scopedQuery with Some q => sc_baseDir q | None => cp_basePath p end in
        let fdQuery := match scopedQuery with Some q => sc_query q | None => query end in
        let '(entries, aborted_after) := walkDirectoryWithFd fdBaseDir fdQuery 100 in
        if aborted_after then []
        else
          let scored := map (fun e => (e, if is_empty fdQuery then 1 else scoreEntry e.1 fdQuery e.2)) entries in
          let sorted := isort (fun a b => b.2 <=? a.2) (List.filter (fun e => 0 <? e.2) scored) in
          map (fun e => fuzzy_suggestion scopedQuery isQuotedPrefix e.1) (take 20 sorted)
  | _ => []
  end.

(** The description of a command in the list. *)
Definition command_description (c : command) : option jsstr :=
  let desc := default [] (cm_description c) in
  let fullDesc :=
    match cm_argumentHint c with
    | Some (h :: hint) => if is_empty desc then h :: hint else (h :: hint) ++ js " " ++ [8212] ++ js " " ++ desc
    | _ => desc
    end in
  if is_empty fullDesc then None else Some fullDesc.

Definition command_suggestion (c : command) : suggestion := mkSuggestion (mkItem (cm_name c) (cm_name c)) (command_description c).

Definition some_suggestions (items : list suggestion) (prefix : jsstr) : option (list suggestion * jsstr) :=
  if is_empty items then None else Some (items, prefix).

Definition getSuggestions (p : CombinedAutocompleteProvider) (s : EditorState) (force aborted : bool) : option (list suggestion * jsstr) :=
  let textBeforeCursor := line_before s in
  match extractAtPrefix textBeforeCursor with
  | Some atPrefix =>
      let parsed := parsePathPrefix atPrefix in
      some_suggestions (getFuzzyFileSuggestions p (pp_rawPrefix parsed) (pp_isQuotedPrefix parsed) aborted) atPrefix
  | None =>
      if negb force && starts_with (js "/") textBeforeCursor then
        match index_of (js " ") textBeforeCursor with
        | None =>
            some_suggestions (map command_suggestion (fuzzyFilter (cp_commands p) (drop 1 textBeforeCursor) cm_name)) textBeforeCursor
        | Some spaceIndex =>
            let commandName := drop 1 (take spaceIndex textBeforeCursor) in
            let argumentText := drop (S spaceIndex) textBeforeCursor in
            match List.find (fun c => bool_decide (cm_name c = commandName)) (cp_commands p) with
            | None => None
            | Some c =>
                complete ← cm_getArgumentCompletions c;
                items ← complete argumentText;
                some_suggestions items argumentText
            end
        end
      else
        pathMatch ← extractPathPrefix textBeforeCursor force;
        some_suggestions (getFileSuggestions (cp_basePath p) pathMatch) pathMatch
  end.

End Suggest.

(** ** Completion keeps the cursor in the text *)

Lemma set_completed_ok s newLine cursorCol : state_ok s -> 0 <= cursorCol <= zlen newLine -> state_ok (set_completed s newLine cursorCol).
Proof.
  intros [Hl Hc] Hn. unfold state_ok, set_completed. cbn [es_lines es_cursorLine es_cursorCol].
  unfold arr_set, arr_get. rewrite !(proj2 (Z.ltb_ge _ 0)) by lia. rewrite (proj2 (Z.ltb_lt _ _)) by lia.
  unfold zlen in *. rewrite length_insert, list_lookup_insert_eq by lia. cbn [from_option id]. split; lia.
Qed.

Lemma cursor_offset_bounds item : 0 <= cursor_offset item <= zlen (ai_value item).
Proof.
  unfold cursor_offset. pose proof (zlen_nonneg (ai_value item)). case_if; [| lia]. bool_hyps. split; [| lia].
  destruct (ai_value item) as [|c v]; [done |]. rewrite zlen_cons. pose proof (zlen_nonneg v). lia.
Qed.

(** The completion of the program is a provider the editor can trust: whatever item
    and prefix the editor passes, at whatever place, the cursor ends up inside a line. *)
Theorem combined_provider_ok triggerCharacters : provider_ok (as_provider triggerCharacters).
Proof.
  intros s item prefix Hs. cbn [as_provider ap_applyCompletion]. unfold combined_applyCompletion. cbv zeta.
  pose proof (cursor_offset_bounds item) as Ho. set (before := slice_to _ _). set (rest := adjusted_after _ _ _).
  pose proof (zlen_nonneg before). pose proof (zlen_nonneg rest). pose proof (zlen_nonneg (ai_value item)).
  repeat case_if; apply set_completed_ok; try done; rewrite !zlen_app; change (zlen (js "/")) with 1; change (zlen (js " ")) with 1; change (zlen (@nil Z)) with 0; lia.
Qed.

(** ** Fuzzy matching finds subsequences *)

Section FuzzyProps.
Context {N : Type} `{JsNumber N}.

Lemma match_loop_rest i prev text query l c score :
  is_empty (match_loop i prev text query l c score).1 = true <-> query `sublist_of` text.
Proof.
  revert i prev query l c score. induction text as [|d text IH]; intros i prev [|q query] l c score; cbn [match_loop fst is_empty].
  - split; [constructor | done].
  - split; [done | by intros ?%sublist_nil_r].
  - split; [intros _; apply sublist_nil_l | done].
  - destruct (d =? q) eqn:E; rewrite IH, sublist_cons_r.
    + apply Z.eqb_eq in E as ->. split; [intros Hs; right; by exists query |]. intros [Hs | (l' & [= <-] & Hs)]; [| done].
      etrans; [| exact Hs]. by apply sublist_cons.
    + apply Z.eqb_neq in E. split; [by left |]. intros [Hs | (l' & [= -> _] & _)]; done.
Qed.

Lemma matchQuery_sublist query text : fz_matches (matchQuery query text) = true <-> query `sublist_of` text.
Proof.
  unfold matchQuery. case_if; [destruct query; [| done]; split; [intros _; apply sublist_nil_l | done] |]. case_if.
  - split; [done |]. intros Hs%sublist_length. apply Nat.ltb_lt in Heqb0. lia.
  - pose proof (match_loop_rest 0 None text query (-1) 0 n_zero) as Hr. destruct (match_loop _ _ _ _ _ _ _) as [rest score]. cbn [fst] in Hr.
    rewrite <- Hr. by destruct (is_empty rest).
Qed.

(** What a token finds. *)
Definition token_in (text token : jsstr) : Prop :=
  token `sublist_of` text \/ swap_query token <> [] /\ swap_query token `sublist_of` text.

Lemma fuzzy_token token text : fz_matches (fuzzyMatchInternal token text) = true <-> token_in text token.
Proof.
  unfold fuzzyMatchInternal, token_in. cbv zeta. rewrite <- !matchQuery_sublist. destruct (fz_matches (matchQuery token text)) eqn:E1; [rewrite E1; tauto |].
  destruct (swap_query token) as [|c t] eqn:Es; cbn [is_empty]; [rewrite E1; split; [done | intros [? | [? _]]; done] |].
  destruct (fz_matches (matchQuery (c :: t) text)) eqn:E2; cbn [negb fz_matches]; [split; [right; split; done | done] |].
  rewrite E1. split; [done | intros [? | [_ ?]]; done].
Qed.

Lemma total_score_some tokens text score : is_Some (total_score tokens text score) <-> Forall (token_in text) tokens.
Proof.
  revert score. induction tokens as [|t tokens IH]; intros score; cbn [total_score]; [by split; [constructor | eexists] |].
  rewrite Forall_cons, <- fuzzy_token. cbv zeta. destruct (fz_matches _) eqn:E; [rewrite IH; tauto |]. split; [by intros [? ?] | by intros [? _]].
Qed.

(** The scores of an item's tokens, in the order of the pickers: lower first. *)
Definition scored `{Surroundings} {T} (tokens : list jsstr) (getText : T -> jsstr) (r : T * N) : Prop :=
  total_score tokens (lowerCase (getText r.1)) n_zero = Some r.2.

(** C27: the filter of the pickers: an item stays exactly when the text of each token of the
    query is in it as a subsequence, case aside, or is after its letters and digits are
    exchanged; nothing is lost or doubled by the sort, and no item comes behind one whose
    scores for the tokens add up to more.  The comparison of scores is a total preorder:
    none is NaN. *)
Theorem fuzzy_filter_finds `{Surroundings} {T} (items : list T) query getText :
  is_empty (trim query) = false -> query_tokens (lowerCase (trim query)) <> [] ->
  (forall a b : N, n_leb a b = false -> n_leb b a = true) ->
  (forall a b c : N, n_leb a b = true -> n_leb b c = true -> n_leb a c = true) ->
  let tokens := query_tokens (lowerCase (trim query)) in
  exists found : list (T * N),
    fuzzyFilter items query getText = map fst found
    /\ Forall (scored tokens getText) found
    /\ StronglySorted (fun a b => n_leb a.2 b.2 = true) found
    /\ (forall x, In x (fuzzyFilter items query getText) <-> In x items /\ Forall (token_in (lowerCase (getText x))) tokens)
    /\ exists kept, kept `sublist_of` items /\ fuzzyFilter items query getText ≡ₚ kept.
Proof.
  intros Hq Ht Htot Htrans. unfold fuzzyFilter. rewrite Hq. cbv zeta. destruct (query_tokens _) as [|t0 ts] eqn:Et; [done |]. cbn [is_empty]. clear Ht.
  set (tokens := t0 :: ts) in *. set (results := omap _ _). exists (isort (fun a b => n_leb a.2 b.2) results).
  assert (Hin : forall r, r ∈ results <-> r.1 ∈ items /\ scored tokens getText r).
  { intros [x n]. unfold results, scored. rewrite list_elem_of_omap. cbn [fst snd]. split.
    - intros (z & Hz & (m & Hm & [= <- <-])%fmap_Some). done.
    - intros [Hx Hn]. exists x. split; [done |]. by rewrite Hn. }
  split_and!; [done | | | |].
  - apply Forall_forall. intros r Hr. rewrite isort_Permutation in Hr. by apply Hin in Hr as [_ ?].
  - apply Sorted_StronglySorted; [intros a b c; apply Htrans |]. apply (isort_Sorted (fun a b : T * N => n_leb a.2 b.2)). intros a b. apply Htot.
  - intros x. rewrite List.in_map_iff, <- list_elem_of_In. split.
    + intros ([y n] & <- & Hr). rewrite <- list_elem_of_In, isort_Permutation in Hr. apply Hin in Hr as [Hy Hs].
      split; [done |]. apply (total_score_some tokens _ n_zero). by exists n.
    + intros [Hx Hf]. apply (total_score_some tokens _ n_zero) in Hf as [n Hn]. exists (x, n). split; [done |].
      rewrite <- list_elem_of_In, isort_Permutation. by apply Hin.
  - exists (map fst results). split; [| apply Permutation_map, isort_Permutation]. unfold results. clear results Hin Htot Htrans. induction items as [|x items IH]; [constructor |].
    cbn [omap list_omap]. destruct (total_score _ _ _); cbn [fmap option_fmap option_map map fst]; [apply sublist_skip | apply sublist_cons]; exact IH.
Qed.

End FuzzyProps.

(** ** Only the prefix is replaced *)










Lemma line_before_at A x y B s : at_text A x y B s -> line_before s = x.
Proof. intros ->. unfold line_before. cbn. by rewrite arr_get_mid, slice_to_app. Qed.

Lemma completed_line A x y B s u put rest col : at_text A x y B s -> 0 <= col <= zlen put ->
  line_before (set_completed s (u ++ put ++ rest) (zlen u + col)) = u ++ take (Z.to_nat col) put.
Proof.
  intros -> Hc. unfold line_before, set_completed. cbn. rewrite arr_set_mid, arr_get_mid, slice_to_take by (pose proof (zlen_nonneg u); lia).
  rewrite app_assoc. unfold zlen in *. rewrite take_app_le by (rewrite length_app; lia).
  replace (Z.to_nat (Z.of_nat (length u) + col)) with (length u + Z.to_nat col)%nat by lia. by rewrite take_app_add.
Qed.

Lemma last_quote v : ends_with [34] v = true -> exists a, v = a ++ [34].
Proof.
  unfold ends_with. intros (t & Ht)%starts_with_prefix. exists (reverse t). apply (f_equal reverse) in Ht.
  rewrite reverse_involutive in Ht. by rewrite Ht, reverse_app.
Qed.




(** ** A completed directory can be completed further *)

Lemma unclosed_app i o a b : unclosed_quote i o (a ++ b) = unclosed_quote (i + length a) (unclosed_quote i o a) b.
Proof.
  revert i o. induction a as [|c a IH]; intros i o; cbn [app unclosed_quote length]; [by rewrite Nat.add_0_r |].
  rewrite IH. f_equal. lia.
Qed.

Lemma unclosed_plain i o s : 34 ∉ s -> unclosed_quote i o s = o.
Proof.
  revert i. induction s as [|c s IH]; intros i Hs; [done |]. apply not_elem_of_cons in Hs as [Hc Hs]. cbn [unclosed_quote].
  rewrite (proj2 (Z.eqb_neq _ _)) by congruence. by apply IH.
Qed.

Lemma lastDelimiter_app a b : Forall (fun c => is_delimiter c = false) b -> findLastDelimiter (a ++ b) = findLastDelimiter a.
Proof.
  intros Hb. assert (Hn : findLastDelimiter b = None) by (induction Hb as [|c b Hc Hb IH]; [done | cbn; by rewrite IH, Hc]).
  induction a as [|c a IH]; cbn; [done |]. by rewrite IH.
Qed.

Lemma lastDelimiter_last a c : is_delimiter c = true -> findLastDelimiter (a ++ [c]) = Some (length a).
Proof. intros Hc. induction a as [|d a IH]; cbn; [by rewrite Hc | by rewrite IH]. Qed.

(** A token can start after [u]. *)
Definition token_start (u : jsstr) : Prop := u = [] \/ exists a c, u = a ++ [c] /\ is_delimiter c = true.

Lemma lastDelimiter_split text : match findLastDelimiter text with
  | None => Forall (fun c => is_delimiter c = false) text
  | Some i => exists a c b, text = a ++ c :: b /\ length a = i /\ is_delimiter c = true /\ Forall (fun c => is_delimiter c = false) b
  end.
Proof.
  induction text as [|c text IH]; cbn; [done |]. destruct (findLastDelimiter text) as [i |].
  - destruct IH as (a & d & b & -> & <- & Hd & Hb). by exists (c :: a), d, b.
  - destruct (is_delimiter c) eqn:Hc; [by exists [], c, text | by constructor].
Qed.

Lemma token_start_spec a b : isTokenStart (a ++ b) (length a) = true <-> token_start a.
Proof.
  unfold isTokenStart, token_start. destruct a as [|c a _] using rev_ind; cbn [length]; [split; [by left | done] |].
  rewrite length_app, Nat.add_comm. cbn [length Nat.add]. rewrite <- app_assoc. change ([c] ++ b) with (c :: b). rewrite list_lookup_middle by done. split.
  - intros Hc. right. by exists a, c.
  - intros [E | (a' & c' & E & Hc)]; [by destruct a |]. by apply app_inj_tail in E as [_ ->].
Qed.

(** What is extracted after an at sign starts a token. *)
Lemma extractAt_token text u q : extractAtPrefix text = Some q -> text = u ++ q -> token_start u /\ starts_with [64] q = true.
Proof.
  assert (Htok : forall t, (let tokenStart := match findLastDelimiter text with None => 0%nat | Some i => S i end in
      if bool_decide (text !! tokenStart = Some 64) then Some (drop tokenStart text) else None) = Some t -> text = u ++ t -> token_start u /\ starts_with [64] t = true).
  { intros t. cbv zeta. pose proof (lastDelimiter_split text) as Hl. destruct (findLastDelimiter text) as [i |].
    - destruct Hl as (a & c & b & -> & <- & Hc & Hb). case_if; [| done]. apply bool_decide_eq_true in Heqb0.
      replace (a ++ c :: b) with ((a ++ [c]) ++ b) in * by (by rewrite <- app_assoc).
      replace (S (length a)) with (length (a ++ [c])) in * by (rewrite length_app; cbn; lia). rewrite drop_app_length. intros [= <-] E.
      apply app_inv_tail in E as <-. split; [right; by exists a, c |]. rewrite lookup_app_r, Nat.sub_diag in Heqb0 by lia.
      destruct b as [|d b]; [done |]. cbn in Heqb0. injection Heqb0 as ->. done.
    - case_if; [| done]. intros [= <-] E. rewrite drop_0 in E. apply (app_inv_tail text [] u) in E as <-. split; [by left |].
      apply bool_decide_eq_true in Heqb. destruct text as [|d t]; [done |]. cbn in Heqb. injection Heqb as ->. done. }
  unfold extractAtPrefix. destruct (extractQuotedPrefix text) as [q' |] eqn:E; [| by apply Htok]. case_if; [| by apply Htok].
  intros [= <-] Eu. apply starts_with_prefix in Heqb as [t ->]. split; [| done].
  assert (Hd : forall n, drop n text = [64; 34] ++ t -> isTokenStart text n = true -> token_start u).
  { intros n En Hn. assert (length u = n); [| subst text n; by apply token_start_spec in Hn].
    apply (f_equal length) in En as El. apply (f_equal length) in Eu. rewrite length_drop in El. rewrite length_app in Eu, El. cbn in El, Eu. lia. }
  unfold extractQuotedPrefix in E. destruct (findUnclosedQuoteStart text) as [n |]; [| done].
  repeat case_if_in E; try done; injection E as E; eapply Hd; try exact E; by apply negb_false_iff.
Qed.

(** The token that a completion leaves before the cursor. *)
Lemma quoted_token u path : findUnclosedQuoteStart u = None -> token_start u -> 34 ∉ path ->
  extractAtPrefix (u ++ [64; 34] ++ path) = Some ([64; 34] ++ path).
Proof.
  intros Hu Ht Hp. assert (Hq : findUnclosedQuoteStart (u ++ [64; 34] ++ path) = Some (S (length u))).
  { unfold findUnclosedQuoteStart in *. rewrite unclosed_app, Hu. cbn [app unclosed_quote Z.eqb Pos.eqb]. by apply unclosed_plain. }
  unfold extractAtPrefix, extractQuotedPrefix. rewrite Hq. cbn [Nat.ltb Nat.leb]. rewrite Nat.sub_succ, Nat.sub_0_r.
  change ([64; 34] ++ path) with (64 :: 34 :: path). rewrite list_lookup_middle by done. rewrite bool_decide_eq_true_2 by done. cbn [andb].
  rewrite (proj2 (token_start_spec u (64 :: 34 :: path)) Ht). cbn [negb]. by rewrite drop_app_length.
Qed.

Lemma plain_token u path : findUnclosedQuoteStart u = None -> token_start u -> Forall (fun c => is_delimiter c = false) path ->
  extractAtPrefix (u ++ [64] ++ path) = Some ([64] ++ path).
Proof.
  intros Hu Ht Hp. assert (Hn : 34 ∉ [64] ++ path).
  { intros [Hx | Hx]%elem_of_app; [by apply list_elem_of_singleton in Hx |]. rewrite Forall_forall in Hp. by specialize (Hp _ Hx). }
  assert (Hq : findUnclosedQuoteStart (u ++ [64] ++ path) = None) by (unfold findUnclosedQuoteStart in *; by rewrite unclosed_app, Hu, unclosed_plain).
  assert (Hd : Forall (fun c => is_delimiter c = false) ([64] ++ path)) by (apply Forall_app; split; [by repeat constructor | done]).
  assert (Hl : match findLastDelimiter (u ++ [64] ++ path) with None => 0%nat | Some i => S i end = length u).
  { rewrite lastDelimiter_app by done. destruct Ht as [-> | (a & c & -> & Hc)]; [done |]. rewrite lastDelimiter_last, length_app by done. cbn. lia. }
  unfold extractAtPrefix, extractQuotedPrefix. rewrite Hq. cbv zeta. rewrite Hl. change ([64] ++ path) with (64 :: path).
  rewrite list_lookup_middle by done. rewrite bool_decide_eq_true_2 by done. by rewrite drop_app_length.
Qed.

Lemma ends_with_snoc a s : s = a ++ [34] -> ends_with [34] s = true.
Proof. intros ->. unfold ends_with. rewrite reverse_app. by cbn. Qed.

Lemma ends_without s : 34 ∉ s -> ends_with [34] s = false.
Proof. intros Hs. apply not_true_is_false. intros [a ->]%last_quote. apply Hs, elem_of_app. right. by left. Qed.

(** C26: completing an attachment step by step: after a directory is chosen for what follows
    an at sign, what is extracted before the cursor is that directory again, read back from
    its quotes, so that the next suggestions are its entries.  The text before must not
    have an open quote, and the path no quote, and no other delimiter unless quoted. *)
Theorem directory_continues s u prefix path label isQuoted : state_ok s ->
  extractAtPrefix (line_before s) = Some prefix -> line_before s = u ++ prefix -> findUnclosedQuoteStart u = None ->
  ends_with (js "/") label = true -> 34 ∉ path ->
  (isQuoted || includes (js " ") path = true \/ Forall (fun c => is_delimiter c = false) path) ->
  exists q, extractAtPrefix (line_before (combined_applyCompletion s (mkItem (buildCompletionValue path true isQuoted) label) prefix)) = Some q
    /\ parsePathPrefix q = mkPathPrefix path true (isQuoted || includes (js " ") path).
Proof.
  intros Hs He Hu Hopen Hlabel Hquote Hplain. destruct (extractAt_token _ _ _ He Hu) as [Ht Hat].
  destruct (state_ok_text s Hs) as (A & x & y & B & Hst). rewrite (line_before_at A x y B s Hst) in Hu. subst x.
  assert (Hbefore : slice_to (arr_get (es_lines s) (es_cursorLine s)) (es_cursorCol s - zlen prefix) = u).
  { rewrite Hst. cbn [es_lines es_cursorLine es_cursorCol]. rewrite arr_get_mid, zlen_app, Z.add_simpl_r, <- app_assoc. apply slice_to_app. }
  unfold combined_applyCompletion. rewrite Hbefore. cbv zeta. cbn [ai_value ai_label].
  apply starts_with_prefix in Hat as [t ->]. change (starts_with (js "/") ([64] ++ t)) with false. change (starts_with [64] ([64] ++ t)) with true. cbn [andb].
  rewrite Hlabel. change (zlen (@nil Z)) with 0. rewrite Z.add_0_r, app_nil_l. unfold cursor_offset. cbn [ai_value ai_label]. rewrite Hlabel. cbn [andb].
  unfold buildCompletionValue. destruct (isQuoted || includes (js " ") path) eqn:Eq; cbn [negb].
  - exists ([64; 34] ++ path). rewrite (ends_with_snoc ([64] ++ [34] ++ path)) by (by rewrite <- !app_assoc).
    replace ([64] ++ [34] ++ path ++ [34]) with (([64; 34] ++ path) ++ [34]) by (by rewrite <- app_assoc).
    rewrite (completed_line A (u ++ [64] ++ t) y B) by (first [exact Hst | rewrite zlen_app; change (zlen [34]) with 1; pose proof (zlen_nonneg ([64; 34] ++ path)); lia]).
    rewrite zlen_app. change (zlen [34]) with 1. rewrite Z.add_simpl_r. unfold zlen. rewrite Nat2Z.id, take_app_length.
    split; [by apply quoted_token | done].
  - destruct Hplain as [? | Hp]; [done |]. exists ([64] ++ path).
    rewrite ends_without by (rewrite not_elem_of_app; split; [by intros ?%list_elem_of_singleton | done]).
    rewrite (completed_line A (u ++ [64] ++ t) y B) by (first [exact Hst | pose proof (zlen_nonneg ([64] ++ path)); lia]).
    rewrite take_ge by (unfold zlen; lia). split; [by apply plain_token |]. unfold parsePathPrefix. cbn [app starts_with].
    destruct path as [|c path]; [done |]. apply not_elem_of_cons in Hquote as [Hc _]. cbn [starts_with]. by rewrite (proj2 (Z.eqb_neq 34 c) Hc).
Qed.

(** ** A sample *)
Module CompletionSample.

(** Numbers in tenths. *)
#[local] Instance tenths : JsNumber Z := {
  n_int n := 10 * n; n_safe z := Some (z / 10); n_add := Z.add; n_mul a b := a * b / 10; n_div a b := a * 10 / b;
  n_finite _ := true; n_leb := Z.leb; n_eqb := Z.eqb;
}.

(** A directory with a file and three directories. *)
#[local] Instance small_project : Surroundings := {
  homedir := js "/home/u";
  readdir dir := if bool_decide (dir = js "/work")
                 then Some [mkDirent (js "a.txt") false false; mkDirent (js "b dir") true false; mkDirent (js "a=b") true false; mkDirent (js "zoo") true false]
                 else if bool_decide (dir = js "/") then Some [mkDirent (js "work") true false] else None;
  statIsDirectory dir := bool_decide (dir ∈ [js "/work"; js "/work/zoo"]);
  run_fd args := (fd_close false (Some 0) (js "src/main.ts" ++ nl ++ js "src/my dir/" ++ nl ++ js ".git/config" ++ nl ++ js "lib/maps.ts" ++ nl), false);
  lowerCase := map to_lower;
  localeCompare a b := if bool_decide (a = b) then 0 else if str_ltb a b then -1 else 1;
}.

Definition commands : list command :=
  [mkCommand (js "model") (Some (js "Choose a model")) (Some (js "<name>")) None; mkCommand (js "compact") None None None; mkCommand (js "resume") None None None].
Definition provider : CombinedAutocompleteProvider := mkCombined commands (js "/work") (Some (js "fd")).
Definition typed_line (text : jsstr) (col : Z) : EditorState := mkEditorState [text] 0 col.

Definition suggested (s : EditorState) (force : bool) : option (list jsstr * jsstr) :=
  (fun r => (map (fun i => ai_value (sg_item i)) r.1, r.2)) <$> getSuggestions provider s force false.

(** Commands, attachments and paths. *)
Example suggestions :
  suggested (typed_line (js "/m") 2) false = Some ([js "model"; js "compact"; js "resume"], js "/m")
  /\ suggested (typed_line (js "see @m") 6) false = Some ([[64; 34] ++ js "src/my dir/" ++ [34]; js "@src/main.ts"; js "@lib/maps.ts"], js "@m")
  /\ suggested (typed_line (js "cat ./z") 7) false = Some ([js "./zoo/"], js "./z").
Proof. split_and!; vm_compute; reflexivity. Qed.

Lemma fuzzy_filter_finds_witness : exists found : list (jsstr * Z),
  fuzzyFilter [js "resume"; js "model"; js "gpt5"; js "compact"] (js " m e ") id = map fst found
  /\ Forall (scored [js "m"; js "e"] id) found /\ StronglySorted (fun a b => (a.2 <=? b.2) = true) found.
Proof.
  destruct (fuzzy_filter_finds [js "resume"; js "model"; js "gpt5"; js "compact"] (js " m e ") id) as (found & E & Hs & Ho & _);
    [vm_compute; reflexivity | vm_compute; discriminate | intros a b; cbn; rewrite Z.leb_gt, Z.leb_le; lia | intros a b c; cbn; rewrite !Z.leb_le; lia |].
  exists found. split_and!; [exact E | exact Hs | exact Ho].
Defined.


(** A command found through a query with a slash loses its own, and a path after spaces
    is taken for a command. *)
Example slash_lost : suggested (typed_line (js "/m/l") 4) false = Some ([js "model"], js "/m/l")
  /\ es_lines (combined_applyCompletion (typed_line (js "/m/l") 4) (mkItem (js "model") (js "model")) (js "/m/l")) = [js "model"].
Proof. split; vm_compute; reflexivity. Qed.

Example slash_doubled : suggested (typed_line (js " /wo") 4) false = Some ([js "/work/"], js "/wo")
  /\ es_lines (combined_applyCompletion (typed_line (js " /wo") 4) (mkItem (js "/work/") (js "work/")) (js "/wo")) = [js " //work/ "].
Proof. split; vm_compute; reflexivity. Qed.

Lemma directory_continues_witness : exists q,
  extractAtPrefix (line_before (combined_applyCompletion (typed_line (js "see @m") 6) (mkItem (buildCompletionValue (js "src/my dir/") true false) (js "my dir/")) (js "@m"))) = Some q
  /\ parsePathPrefix q = mkPathPrefix (js "src/my dir/") true true.
Proof.
  apply (directory_continues (typed_line (js "see @m") 6) (js "see ") (js "@m") (js "src/my dir/") (js "my dir/") false);
    [split; split; vm_compute; first [reflexivity | discriminate] | vm_compute; reflexivity | vm_compute; reflexivity | vm_compute; reflexivity | vm_compute; reflexivity | | left; vm_compute; reflexivity].
  intros Hin. apply (bool_decide_pack _) in Hin. vm_compute in Hin. exact Hin.
Defined.

(** A directory whose name needs quotes is not sorted with the directories. *)
Example quoted_directory_last : suggested (typed_line (js "cat ") 4) true = Some ([js "a=b/"; js "zoo/"; js "a.txt"; [34] ++ js "b dir/" ++ [34]], []).
Proof. vm_compute. reflexivity. Qed.

(** A name with a delimiter other than a space is not quoted, and what is extracted after
    its completion is only the end of it. *)
Example delimiter_not_quoted : extractAtPrefix (js "@a=b/") = None /\ buildCompletionValue (js "a=b/") true false = js "@a=b/".
Proof. vm_compute. auto. Qed.

End CompletionSample.
